(* ===== verification/_CoqProject ===== *)
-Q . S2P
Prelude.v
RingBuffer.v
EventLoop.v
EventLoopSafety.v
EventLoopLiveness.v
Dispatcher.v
Mailbox.v
Executor.v
WorkerPool.v
Future.v
Compute.v
EventBus.v
EventBusSafety.v
Breaker.v
Limiter.v
Retry.v
Bulkhead.v
Rate.v
Hedge.v
Fallback.v
Timeout.v
Backoff.v
StateManager.v
Quota.v
Registry.v
Drain.v
Hooks.v
Health.v
Deployment.v
Supervisor.v
Links.v
Platform.v
Codec.v
TradeProtocol.v
VpnProtocol.v
LogSegment.v
AppendLog.v
OrderBook.v
OrderBookSafety.v
Cron.v
Cache.v
Workflow.v
WorkflowSafety.v
WorkflowTermination.v
Router.v
Kson.v
Scheduler.v
Disruptor.v
Risk.v
Approval.v
Bank.v
Ledger.v
Wallet.v
Purchase.v
