(* ===== verification/Prelude.v ===== *)
(** * Fluxor runtime: a verification of its core

    Fluxor is a reactive runtime written in Go.  Events are handed to event loops
    through lock-free ring buffers; an event bus delivers messages to consumers
    through bounded mailboxes, directly or through the loops; executors, pools and
    futures carry blocking work; verticles are deployed, linked, supervised and
    undeployed by the platform; resilience managers (circuit breaker, rate
    limiter, retry, bulkhead, hedge, fallback, timeout, backoff, rate tracker)
    guard calls; runtime managers (states, quotas, components, hooks, draining,
    health) keep the operational state.  On top of the core stand subsystems of their own: an
    append-only log, a workflow engine, a scheduler, caches, routers, a
    configuration syntax, a VPN protocol, a trading stack (wire protocol,
    disruptor, order book, risk engine) and an application with wallets, a
    ledger, purchases and approvals over a database.  This library translates
    these parts into Rocq functions and transition systems and proves what makes
    them correct, or shows, as theorems, where the code does something else than
    it says.

    ** The parts, and where they are modelled

    - [Prelude] (this file): machine integers with their wrap-around (Go's [int]
      is taken at 64 bits), results, panics, context states, bounded histories,
      chains, sums, and the tactics and hints the other files share.
    - [RingBuffer] (pkg/core/eventloop/ringbuffer.go): the ring as a record of its
      counters, slots and availability marks; [Next], [Publish], [Get], [Consume],
      the three wait strategies.
    - [EventLoop] (loop.go, config.go): configuration, construction, [Close],
      [Stats]; [Dispatch] and [run] as program points with one atomic operation
      per step ([pstep] for a producer, [cstep] for the consumer), composed into
      a step relation with any number of producers.
    - [EventLoopSafety]: the invariant of that system and its consequences: the
      handlers run for a prefix of the claimed events in claim order, claims are
      exclusive, QUEUE_FULL is honest, nil means enqueued except when a blocking
      [Dispatch] overlaps [Close], and the slots of the ring hold, place by place,
      an abstract bounded queue.
    - [EventLoopLiveness]: the backlog of a live loop can always be drained; queue
      sizes and the powers of two.
    - [Dispatcher] (key.go, dispatcher.go, group.go): key extraction, FNV-1a
      hashing, routing, round robin, envelopes, the group of loops.
    - [Mailbox] (pkg/core/concurrency/mailbox_impl.go): the bounded mailbox, its
      overlapping calls as atomic steps; first in first out within the capacity,
      and the send that panics when Close overtakes it.
    - [Executor] (concurrency/executor_impl.go): the task channel and the worker
      loop shared with the pool, and the executor with its lock; tasks in order,
      none lost while it runs, what the Shutdown that closes it promises and
      another one does not, and the tasks and the panic a shutdown may cost;
      [WorkerPool] (workerpool_impl.go): the pool, and why it cannot be restarted.
    - [Future] (concurrency/future.go): promises awaited, observed and completed
      by any goroutines; one winner and its result for all, and the waiter that
      starves.
    - [Compute] (pkg/core/compute/pool.go, policy.go): the compute pool with its
      four backpressure policies; every job in one place and handled at most
      once, which worker can still answer it, and the jobs and panics that
      policies and Stop may cost.
    - [EventBus] (pkg/core/eventbus_impl.go, eventbus.go, validation.go, json.go):
      the consumers map as slices over a store of backing arrays, so that append
      and the in-place removal of Unregister alias as in Go; publish, send,
      request, reply, processing, Close.  The event loops are behind the class
      [LoopGroup], the encoders and the growth of slices behind [Encoders] and
      [SliceGrowth].
    - [EventBusSafety]: the dispatcher as a [LoopGroup]; the bus refines a
      registry of lists, publish delivers once, sends are fair, requests get
      their replies, and what overlapping registrations and removals do to a
      publish that is under way.
    - [Breaker] (pkg/core/resilience/breaker/breaker.go): the circuit breaker;
      its refinement of a circuit that counts from the history, recovery, the
      half-open state that never ends, statistics, and the race of overlapping
      admissions.
    - [Limiter] (resilience/limiter/limiter.go): the token bucket; the rate bound,
      termination of waiting, the range of the bucket and the lost decrement when
      calls overlap.
    - [Retry] (resilience/retry): error predicates, the backoff interface with the
      fixed and linear strategies, the retry loop and its statistics.
    - [Bulkhead] (resilience/bulkhead/bulkhead.go): callers, queue processor and
      workers as a transition system; the concurrency bound, the one execution
      more than MaxQueueSize that may wait, no execution lost or run twice, executions stranded by Stop, rejections counted twice.
    - [Rate] (resilience/rate/rate.go): the ring of buckets; which events a rate
      counts.
    - [Hedge] (resilience/hedge/hedge.go): one hedged call as goroutines; what it
      returns, and that it returns.
    - [Fallback], [Timeout], [Backoff] (resilience/fallback, timeout, backoff):
      the outcome of a call with fallbacks, of a call with a timeout, and of a
      wait.
    - [StateManager] (pkg/core/runtime/state/state.go): the state manager and, as
      a transition system, its waiters.
    - [Quota] (pkg/core/runtime/quota/quota.go): quotas in a finite map; limits,
      Acquire exactly, the overflow that passes the limit.
    - [Registry] (pkg/core/runtime/registry/registry.go): components by name;
      limits and counters, registering many or none, sorted listings.
    - [Drain], [Hooks], [Health] (pkg/core/runtime/drain, hooks, health): draining
      components, executing hooks, sequentially and in parallel, by any number of
      overlapping calls; the verdict of a health check in every order of its
      checkers and thresholds.
    - [Deployment] (pkg/core/deployment.go): the command loop of one deployment.
    - [Supervisor] (pkg/core/supervisor.go): how often the platform is asked to
      deploy a child again, and strategies, against a type class for the platform that [DeployVerticle] and
      [UndeployVerticle] belong to.
    - [Links] (pkg/core/link.go): links and monitors, against a symmetric relation
      and a set of references; [Platform] (pkg/core/platform.go): deploying,
      undeploying and closing by any callers over the event loops of
      [Deployment], with the exit signals of [Links]; it is an instance of the
      class [Supervisor] is proved against.
    - [Codec]: bytes, integers in little and big endian, slices of buffers,
      splitting at a separator and white space, shared by the next files.
    - [TradeProtocol] (pkg/hft/protocol/binary.go): orders and market data on the
      wire with their CRC-32; round trips both ways, detection of damage.
    - [VpnProtocol] (pkg/vpn/protocol.go): packets, credentials, configuration.
    - [LogSegment] (pkg/appendlog/fs_store.go): record framing and the two readers
      of one segment, each with its own parser, against the writer's encoding.
    - [AppendLog] (fs_store.go, store.go): the file store over a model of its
      directory; appenders, flush loop, rotation and closing interleaved; on a
      directory without torn records the refinement of an append-only list and
      durability, and what Close and crashes lose.  [Read] is one step.
    - [OrderBook] (pkg/hft/matching): the book as a heap of linked orders and
      price levels; [OrderBookSafety]: its refinement of queues with price-time
      priority, including the inputs on which the code panics.
    - [Cron] (pkg/scheduler/cron.go): parsing and the search for the next time in
      a location whose clocks may change once; it agrees with the minute-by-minute
      scan where they never do, and stops where they go back; [Scheduler] (scheduler.go, schedule.go):
      ticks, executions and clients interleaved.
    - [Cache] (pkg/cache): the interface [Cache] with [CacheLaws], which allow
      operations to fail, the memory cache that discharges them, and the calls and
      propagations of the multi-level cache, interleaved level by level, proved
      against them.
    - [Workflow] (pkg/workflow): definitions, built-in handlers, and the engine
      as goroutines whose instructions are the critical sections of the code;
      [WorkflowSafety]: completion, cancellation, merging and the defects found;
      [WorkflowTermination]: the measure that bounds the runs of acyclic workflows.
    - [Router] (pkg/web/fast_router.go, router.go): path matching against a
      relation on segments, dispatch, the agreement of the two routers.
    - [Kson] (pkg/kson/kson.go): the parser of configuration files; round trip
      with a reference printer, the sources on which it ends and one on which it
      does not, nested keys.
    - [Disruptor] (pkg/hft/protocol/disruptor.go): the lock-free ring with any
      number of producers; first in first out, nothing lost or overwritten.
    - [Risk] (pkg/hft/risk/engine.go): positions, pre-trade checks, violations.
    - [Approval] (apps/postgres-demo/services/approval_service.go): two-person
      approvals; what holds of calls one after the other and of calls that overlap.
    - [Bank] (apps/postgres-demo/models, SetupPurchaseTables): the tables of the
      wallet application, its statements, which may fail, and transactions;
      [Ledger] (services/ledger_service.go): journals and balances, what the trial
      balance adds up, what its tolerance lets through, what a reversal does; [Wallet]
      (services/wallet_service.go, wallet_rule_service.go): rules, top-ups,
      freezing, commits, rollbacks, transfers; [Purchase]
      (services/purchase_service.go): purchases, and the conservation of money
      over all of these operations.

    ** How code becomes definitions

    A struct is a record, an enumeration an inductive type, a method a function
    from the old state to the new one and its results.  Every reading of the
    clock, every observation of a context and every answer of code that is not
    modelled (protected functions, verticles, the platform) is an argument, so
    that theorems hold for all of them.  A panic is [Panic], an error a value.
    Times are integers in nanoseconds; differences of times are exact, where Go
    would saturate after 292 years.  Callbacks appear as logs where their order
    matters and are left out where they only observe.  Where goroutines
    interleave, the operations are split into their atomic steps: the ring
    buffer, the mailbox, the executor and the pools, futures, the deliveries of a
    publish, the limiter, the bulkhead, hedged calls, the admissions of the
    breaker, the waiters of the state manager, draining, hooks, the platform, the
    append log, the workflow engine, the scheduler, the multi-level cache, the
    disruptor and approvals.  Floating point (the price deviation of the risk
    engine, the totals of the ledger) is Stdlib's SpecFloat at 53 and 1024.
    Amounts of money are whole cents: the float64 products and sums of prices and
    wallet amounts, and amounts with fractions of a cent, are not modelled.  A database is its tables; statements are
    operations on them, and which of them fail is an argument.

    ** Bounds and fuel

    Loops of the code that poll (waiting for a token, for a sequence) run over
    the list of observations they make; theorems say how many observations are
    enough.  The retry loop has the fuel its own bound gives it.  Theorems about
    the ring hold for runs of fewer than 2^63 - 1 steps, so that its 64-bit sequences
    do not wrap; those about the limiter and the quotas state the sizes for which
    int64 sums do not overflow, and separate theorems show what happens beyond.
    Readers of log segments have the length of the file as fuel, one record being
    at least its twelve-byte header; the step loop of a cron field has 128 turns
    for at most 60 values (with a step near the largest int64 the loop of the code
    goes on beyond them); the cron search has the attempts of the code.  The
    configuration parser has twice the length of its source and four as fuel,
    which is enough unless it never ends ([parse_returns] in [Kson]).  The
    sequences of the disruptor are integers (2^63 events take centuries).

    ** What is not modelled

    The exponential backoff (floating point and random jitter), Prometheus
    collectors, logging, and panics inside user functions.  Of the workflow
    engine, the evaluation of conditions (Go's formatting of arbitrary values and
    floating point) and the handlers that call services are answers of the
    environment.  Errors of the operating system's file operations are not part
    of the append log's model, nor sockets and ciphers of the VPN's.  Servers,
    connectors, persistence and the other applications are I/O and glue over
    external services.  Of the wallet application, the SQL migrations
    (but for the CHECK clauses of the ledger entries), the listings and
    the administration of rules are left out, and so is a COMMIT whose
    acknowledgement is lost.  A quota is registered without options: the sources
    define none.  In [Platform] the end of a command in an event loop is one
    step. *)
From Stdlib Require Export ZArith Lia Bool.
From stdpp Require Export base strings numbers relations gmap option list.

#[global] Open Scope Z_scope.

(** ** Machine integers

    Go's [int] is taken at 64 bits.  Arithmetic wraps around; the functions
    below bring an unbounded integer back into the range of its Go type. *)

Definition modulus (w : Z) : Z := 2 ^ w.

(** Two's complement reading of the low [w] bits. *)
Definition wrap_signed (w z : Z) : Z :=
  (z + 2 ^ (w - 1)) mod 2 ^ w - 2 ^ (w - 1).

Definition i64 (z : Z) : Z := wrap_signed 64 z.

Definition i32 (z : Z) : Z := wrap_signed 32 z.

Definition u64 (z : Z) : Z := z mod 2 ^ 64.

Definition u32 (z : Z) : Z := z mod 2 ^ 32.

Definition max_i64 : Z := 2 ^ 63 - 1.

Definition min_i64 : Z := - 2 ^ 63.

Definition max_i32 : Z := 2 ^ 31 - 1.

Declare Scope go_scope.
Delimit Scope go_scope with go.
Notation "a '+i64' b" := (i64 (a + b)) (at level 50, left associativity) : go_scope.
Notation "a '-i64' b" := (i64 (a - b)) (at level 50, left associativity) : go_scope.
Notation "a '+i32' b" := (i32 (a + b)) (at level 50, left associativity) : go_scope.
#[global] Open Scope go_scope.

Lemma wrap_signed_id w z :
  0 < w -> - 2 ^ (w - 1) <= z < 2 ^ (w - 1) -> wrap_signed w z = z.
Proof.
  intros Hw Hz. unfold wrap_signed.
  assert (2 ^ w = 2 * 2 ^ (w - 1)) as Hp.
  { rewrite <- Z.pow_succ_r by lia. f_equal. lia. }
  rewrite Z.mod_small; lia.
Qed.

Lemma i64_id z : min_i64 <= z <= max_i64 -> i64 z = z.
Proof. intros Hz. apply wrap_signed_id; unfold min_i64, max_i64 in Hz; lia. Qed.

Lemma i32_id z : - 2 ^ 31 <= z <= max_i32 -> i32 z = z.
Proof. intros Hz. apply wrap_signed_id; unfold max_i32 in Hz; lia. Qed.

Lemma i64_range z : min_i64 <= i64 z <= max_i64.
Proof.
  unfold i64, wrap_signed, min_i64, max_i64.
  pose proof (Z.mod_pos_bound (z + 2 ^ (64 - 1)) (2 ^ 64) eq_refl). lia.
Qed.

Lemma i64_absorb a b : i64 (i64 a + b) = i64 (a + b).
Proof.
  unfold i64, wrap_signed. f_equal.
  replace ((a + 2 ^ (64 - 1)) mod 2 ^ 64 - 2 ^ (64 - 1) + b + 2 ^ (64 - 1))
    with ((a + 2 ^ (64 - 1)) mod 2 ^ 64 + b) by lia.
  rewrite Zplus_mod_idemp_l. f_equal. lia.
Qed.

Lemma i64_add_cong a b k : i64 a = i64 b -> i64 (a + k) = i64 (b + k).
Proof. intros E. by rewrite <- (i64_absorb a), E, i64_absorb. Qed.

(** Equality of wrapped sums: absorb the inner wrap-arounds, then compare. *)
Ltac wrap_eq :=
  rewrite <- ?Z.add_opp_r; repeat (rewrite ?i64_absorb, <- ?Z.add_assoc); apply (f_equal i64); lia.

Lemma u32_range z : 0 <= u32 z < 2 ^ 32.
Proof. apply Z.mod_pos_bound. reflexivity. Qed.

Lemma u64_range z : 0 <= u64 z < 2 ^ 64.
Proof. apply Z.mod_pos_bound. reflexivity. Qed.

(** ** Outcomes

    [result E A] is a Go pair [(A, error)] of which exactly one side matters;
    [outcome A] is a computation that may panic. *)

Inductive result (E A : Type) : Type :=
| Ok (a : A)
| Err (e : E).
Arguments Ok {E A} a.
Arguments Err {E A} e.

Inductive outcome (A : Type) : Type :=
| Ret (a : A)
| Panic.
Arguments Ret {A} a.
Arguments Panic {A}.

#[export] Instance outcome_ret : MRet outcome := @Ret.

#[export] Instance outcome_bind : MBind outcome :=
  fun A B f x => match x with Ret a => f a | Panic => Panic end.

#[export] Instance result_eq_dec {E A} `{EqDecision E, EqDecision A} :
  EqDecision (result E A).
Proof. solve_decision. Defined.

Definition result_error {E A} (r : result E A) : option E :=
  match r with Ok _ => None | Err e => Some e end.

(** The state of a [context.Context] when it is inspected. *)
Inductive ctx_status : Type :=
| CtxLive
| CtxCanceled
| CtxDeadlineExceeded.

#[export] Instance ctx_status_eq_dec : EqDecision ctx_status.
Proof. solve_decision. Defined.

Definition ctx_done (c : ctx_status) : bool :=
  match c with CtxLive => false | _ => true end.

(** ** Case analysis on integer tests *)

Ltac zcase :=
  match goal with
  | |- context [Z.ltb ?a ?b] => destruct (Z.ltb_spec a b)
  | |- context [Z.leb ?a ?b] => destruct (Z.leb_spec a b)
  | |- context [Z.eqb ?a ?b] => destruct (Z.eqb_spec a b)
  end.

Ltac zcase_in H :=
  match type of H with
  | context [Z.ltb ?a ?b] => destruct (Z.ltb_spec a b)
  | context [Z.leb ?a ?b] => destruct (Z.leb_spec a b)
  | context [Z.eqb ?a ?b] => destruct (Z.eqb_spec a b)
  end.

(** Split every integer test of the goal, then finish by linear arithmetic. *)
Ltac zcrush := repeat (zcase; simpl in *); try lia; try done.

(** Compute the powers of two of the context so that [lia] sees constants. *)
Ltac widths :=
  unfold max_i64, min_i64, max_i32 in *;
  change (2 ^ 63) with 9223372036854775808 in *;
  change (2 ^ 64) with 18446744073709551616 in *;
  change (2 ^ 31) with 2147483648 in *;
  change (2 ^ 32) with 4294967296 in *.

(** Membership in lists built from appends and conses. *)
Ltac in_list :=
  simpl in *; rewrite ?elem_of_app, ?elem_of_cons in *; rewrite ?elem_of_nil in *; tauto.

(** ** Invariants of transition systems *)

Section invariants.
Context {S : Type} (R : relation S) (I : S -> Prop).

Lemma rtc_invariant s s' :
  (forall x y, I x -> R x y -> I y) -> I s -> rtc R s s' -> I s'.
Proof. intros HR HI Hrtc. induction Hrtc; eauto. Qed.

Lemma nsteps_invariant (J : nat -> S -> Prop) n s s' :
  (forall k x y, (k < n)%nat -> J k x -> R x y -> J (Datatypes.S k) y) ->
  J 0%nat s -> nsteps R n s s' -> J n s'.
Proof.
  intros HR HJ Hn.
  assert (forall m k x y, nsteps R m x y -> (m + k = n)%nat -> J k x -> J n y) as Hgen.
  { induction m as [|m IH]; intros k x y Hs Hk Hx.
    - assert (k = n) as <- by lia. by inv Hs.
    - inv Hs. eapply (IH (Datatypes.S k)); [eassumption | lia |].
      eapply HR; [lia | eassumption | eassumption]. }
  eapply (Hgen n 0%nat); [eassumption | lia | assumption].
Qed.
End invariants.

(** ** Bounded histories

    Several components keep the last [cap] records of a log: append, then drop
    the oldest record when the bound is passed. *)

Definition push_history {A} (cap : Z) (x : A) (h : list A) : list A :=
  if cap <=? 0 then h
  else
    let h' := h ++ [x] in
    if cap <? Z.of_nat (length h') then drop 1 h' else h'.

Lemma push_history_bound {A} cap (x : A) h :
  Z.of_nat (length h) <= Z.max 0 cap ->
  Z.of_nat (length (push_history cap x h)) <= Z.max 0 cap.
Proof.
  intros Hh. unfold push_history.
  repeat zcase; rewrite ?length_drop, ?length_app in *; simpl in *; lia.
Qed.

Lemma push_history_cases {A} cap (x : A) h :
  push_history cap x h =
    if cap <=? 0 then h
    else drop (if cap <=? Z.of_nat (length h) then 1%nat else 0%nat) h ++ [x].
Proof.
  unfold push_history. destruct (Z.leb_spec cap 0); [done|].
  rewrite length_app; simpl. destruct h as [|y h]; simpl; repeat zcase; done || lia.
Qed.

Lemma push_history_last {A} cap (x : A) h :
  0 < cap -> last (push_history cap x h) = Some x.
Proof.
  intros Hc. rewrite push_history_cases.
  destruct (Z.leb_spec cap 0); [lia|]. by rewrite last_snoc.
Qed.

(** ** Chains *)

(** Consecutive elements are related. *)
Fixpoint chained {A} (R : A -> A -> Prop) (l : list A) : Prop :=
  match l with
  | a :: (b :: _) as rest => R a b /\ chained R rest
  | _ => True
  end.

Lemma chained_snoc {A} (R : A -> A -> Prop) l x :
  chained R l -> (forall y, last l = Some y -> R y x) -> chained R (l ++ [x]).
Proof.
  induction l as [|a l IH]; [done|]. intros Hc Hl. destruct l as [|b l]; simpl in *.
  - split; [by apply Hl|done].
  - destruct Hc as [Hab Hc]. split; [done|]. by apply IH.
Qed.

Lemma chained_drop {A} (R : A -> A -> Prop) n l : chained R l -> chained R (drop n l).
Proof.
  revert l. induction n as [|n IH]; intros [|a l] Hc; try done. simpl. apply IH.
  destruct l; [done|]. by destruct Hc.
Qed.

Lemma chained_app_l {A} (R : A -> A -> Prop) l k : chained R (l ++ k) -> chained R l.
Proof.
  induction l as [|a l IH]; [done|]. destruct l as [|b l]; [done|]. simpl in *.
  intros [? ?]. split; [done|]. by apply IH.
Qed.

Lemma chained_last {A} (R : A -> A -> Prop) l x y :
  chained R (l ++ [x]) -> last l = Some y -> R y x.
Proof.
  induction l as [|a l IH]; [done|]. destruct l as [|b l]; simpl in *.
  - by intros [? _] [= <-].
  - intros [_ ?]. by apply IH.
Qed.

Lemma last_drop_le {A} (l : list A) n y : last (drop n l) = Some y -> last l = Some y.
Proof.
  revert l. induction n as [|n IH]; intros [|a l] H; try done. simpl in H. apply IH in H.
  by destruct l.
Qed.

(** ** Sums of integer lists *)

Definition sumZ (l : list Z) : Z := foldr Z.add 0 l.

Lemma sumZ_app l1 l2 : sumZ (l1 ++ l2) = sumZ l1 + sumZ l2.
Proof. unfold sumZ. induction l1; simpl in *; lia. Qed.

Lemma sumZ_insert l i x y :
  l !! i = Some y -> sumZ (<[i := x]> l) = sumZ l - y + x.
Proof.
  revert i. induction l as [|z l IH]; intros [|i] Hi; simplify_eq/=.
  - unfold sumZ; simpl. lia.
  - specialize (IH _ Hi). unfold sumZ in *; simpl in *. lia.
Qed.

Lemma sumZ_nonneg l : Forall (fun z => 0 <= z) l -> 0 <= sumZ l.
Proof. unfold sumZ. induction 1; simpl in *; lia. Qed.

Lemma sumZ_replicate_0 n : sumZ (replicate n 0) = 0.
Proof. unfold sumZ. induction n; simpl in *; lia. Qed.

Lemma sumZ_fmap_cons {A} (f : A -> Z) x l : sumZ (f <$> x :: l) = f x + sumZ (f <$> l).
Proof. done. Qed.

Lemma sumZ_fmap_insert {A} (f : A -> Z) (l : list A) i x y :
  l !! i = Some y -> sumZ (f <$> <[i := x]> l) = sumZ (f <$> l) - f y + f x.
Proof.
  intros Hi. rewrite list_fmap_insert. apply sumZ_insert. by rewrite list_lookup_fmap, Hi.
Qed.

Lemma sumZ_fmap_le {A} (f g : A -> Z) l :
  (forall x, f x <= g x) -> sumZ (f <$> l) <= sumZ (g <$> l).
Proof.
  intros Hfg. induction l as [|x l IH]; [done|]. rewrite !sumZ_fmap_cons. specialize (Hfg x). lia.
Qed.

Lemma sumZ_fmap_upper {A} (f : A -> Z) l cap :
  (forall x, f x <= cap) -> sumZ (f <$> l) <= Z.of_nat (length l) * cap.
Proof.
  intros Hf. induction l as [|x l IH]; [done|]. rewrite sumZ_fmap_cons. specialize (Hf x).
  cbn [length]. lia.
Qed.

(** ** Round robin *)

(** [n] consecutive values of a counter, taken modulo [n], are all the indices. *)
Lemma rotation_perm (c : Z) (n : nat) :
  Permutation ((fun j => Z.to_nat ((c + Z.of_nat j) mod Z.of_nat n)) <$> seq 0 n) (seq 0 n).
Proof.
  destruct (decide (n = 0%nat)) as [->|Hn]; [done|].
  assert (forall j, 0 <= (c + Z.of_nat j) mod Z.of_nat n < Z.of_nat n) as Hb
    by (intros; apply Z.mod_pos_bound; lia).
  apply submseteq_length_Permutation; [apply NoDup_submseteq|].
  - apply NoDup_fmap_2_strong; [|apply NoDup_seq].
    intros x y Hx%elem_of_seq Hy%elem_of_seq Heq.
    pose proof (Hb x). pose proof (Hb y).
    pose proof (Z.div_mod (c + Z.of_nat x) (Z.of_nat n) ltac:(lia)).
    pose proof (Z.div_mod (c + Z.of_nat y) (Z.of_nat n) ltac:(lia)).
    assert ((c + Z.of_nat x) / Z.of_nat n - (c + Z.of_nat y) / Z.of_nat n = 0) by nia. nia.
  - intros x (j & -> & _)%list_elem_of_fmap. apply elem_of_seq. pose proof (Hb j). lia.
  - by rewrite length_fmap, !length_seq.
Qed.

Create HintDb fluxor discriminated.
#[export] Hint Resolve i64_id i32_id i64_range u32_range u64_range
  push_history_bound sumZ_nonneg : fluxor.
