(* ===== verification/RingBuffer.v ===== *)
(** * The disruptor ring buffer (pkg/core/eventloop/ringbuffer.go)

    Data, constructor and operations of [RingBuffer], each as a function on the
    buffer's state, and the slot arithmetic the concurrent model in EventLoop.v
    relies on.  A slot of [buffer] holds an [unsafe.Pointer], here an
    [option E] whose [None] is the nil pointer. *)
From S2P Require Import Prelude.

Inductive WaitStrategy : Type :=
| BusySpinWait
| YieldWait
| BlockWait.

#[export] Instance WaitStrategy_eq_dec : EqDecision WaitStrategy.
Proof. solve_decision. Defined.

Record RingBuffer (E : Type) : Type := mkRingBuffer {
  buffer : list (option E);
  available : list Z;
  bufferSize : Z;
  indexMask : Z;
  cursor : Z;
  gating : Z;
  waitStrategy : WaitStrategy
}.
Arguments mkRingBuffer {E}.
Arguments buffer {E}.
Arguments available {E}.
Arguments bufferSize {E}.
Arguments indexMask {E}.
Arguments cursor {E}.
Arguments gating {E}.
Arguments waitStrategy {E}.

Record RingBufferMetrics : Type := mkRingBufferMetrics {
  Cursor : Z;
  Gating : Z;
  (** [Utilization] is [used / bufferSize * 100.0] in floating point; the model
      keeps the two integers it is computed from. *)
  UtilizationUsed : Z;
  Capacity : Z
}.

Section ops.
Context {E : Type}.
Implicit Types rb : RingBuffer E.

(** The guard [size <= 0 || size&(size-1) != 0] panics. *)
Definition NewRingBuffer (size : Z) (wait : WaitStrategy) : outcome (RingBuffer E) :=
  if (size <=? 0) || negb (Z.land size (size - 1) =? 0) then Panic
  else Ret {| buffer := replicate (Z.to_nat size) None;
              available := replicate (Z.to_nat size) (-1);
              bufferSize := size;
              indexMask := size - 1;
              cursor := -1;
              gating := -1;
              waitStrategy := wait |}.

Definition slot rb (sequence : Z) : nat :=
  Z.to_nat (Z.land sequence (indexMask rb)).

Definition set_cursor rb (c : Z) : RingBuffer E :=
  {| buffer := buffer rb; available := available rb;
     bufferSize := bufferSize rb; indexMask := indexMask rb;
     cursor := c; gating := gating rb; waitStrategy := waitStrategy rb |}.

Definition set_gating rb (g : Z) : RingBuffer E :=
  {| buffer := buffer rb; available := available rb;
     bufferSize := bufferSize rb; indexMask := indexMask rb;
     cursor := cursor rb; gating := g; waitStrategy := waitStrategy rb |}.

(** First store of [Publish]: the pointer. *)
Definition store_event rb (sequence : Z) (event : option E) : RingBuffer E :=
  {| buffer := <[slot rb sequence := event]> (buffer rb);
     available := available rb;
     bufferSize := bufferSize rb; indexMask := indexMask rb;
     cursor := cursor rb; gating := gating rb; waitStrategy := waitStrategy rb |}.

(** Second store of [Publish]: the slot's sequence. *)
Definition mark_available rb (sequence : Z) : RingBuffer E :=
  {| buffer := buffer rb;
     available := <[slot rb sequence := sequence]> (available rb);
     bufferSize := bufferSize rb; indexMask := indexMask rb;
     cursor := cursor rb; gating := gating rb; waitStrategy := waitStrategy rb |}.

(** The test of [Next] that reports a full ring. *)
Definition ring_full rb (current : Z) : bool :=
  gating rb <? ((current +i64 1) -i64 bufferSize rb).

(** [Next] without interference: the compare-and-swap succeeds at once. *)
Definition Next rb : RingBuffer E * Z :=
  let current := cursor rb in
  let next := current +i64 1 in
  if ring_full rb current then (rb, -1) else (set_cursor rb next, next).

Definition Publish rb (sequence : Z) (event : option E) : RingBuffer E :=
  mark_available (store_event rb sequence event) sequence.

(** [None] stands for an index out of range, which would panic. *)
Definition Get rb (sequence : Z) : option (option E) :=
  buffer rb !! slot rb sequence.

Definition Consume rb (sequence : Z) : RingBuffer E := set_gating rb sequence.

Definition published rb (sequence : Z) : bool :=
  match available rb !! slot rb sequence with
  | Some v => v =? sequence
  | None => false
  end.

Definition AvailableCapacity rb : Z :=
  let used := cursor rb -i64 gating rb in
  let used := if used <? 0 then 0 else used in
  bufferSize rb -i64 used.

Definition Size rb : Z := bufferSize rb.

Definition Metrics rb : RingBufferMetrics :=
  let used := cursor rb -i64 gating rb in
  let used := if used <? 0 then 0 else used in
  {| Cursor := cursor rb; Gating := gating rb;
     UtilizationUsed := used; Capacity := bufferSize rb |}.

(** ** Waiting

    Each iteration of a waiting loop observes the context and then the ring;
    [obs] lists what the successive iterations observe.  [None] means the loop
    is still running when the observations end.  The third component of the
    result counts the pauses ([Gosched] or [Sleep]) taken. *)

Definition wait_result : Type := result ctx_status Z.

Fixpoint waitForBusySpin (sequence : Z) (obs : list (ctx_status * RingBuffer E)) :
    option wait_result :=
  match obs with
  | [] => None
  | (c, rb) :: obs =>
      if ctx_done c then Some (Err c)
      else if published rb sequence then Some (Ok sequence)
      else waitForBusySpin sequence obs
  end.

Fixpoint waitForYield (sequence : Z) (spins : Z) (gosched : nat)
    (obs : list (ctx_status * RingBuffer E)) : option wait_result * nat :=
  match obs with
  | [] => (None, gosched)
  | (c, rb) :: obs =>
      if ctx_done c then (Some (Err c), gosched)
      else if published rb sequence then (Some (Ok sequence), gosched)
      else
        let spins := spins - 1 in
        if spins <=? 0 then waitForYield sequence 100 (S gosched) obs
        else waitForYield sequence spins gosched obs
  end.

Fixpoint waitForBlock (sequence : Z) (sleeps : nat)
    (obs : list (ctx_status * RingBuffer E)) : option wait_result * nat :=
  match obs with
  | [] => (None, sleeps)
  | (c, rb) :: obs =>
      if ctx_done c then (Some (Err c), sleeps)
      else if published rb sequence then (Some (Ok sequence), sleeps)
      else waitForBlock sequence (S sleeps) obs
  end.

Definition WaitFor (wait : WaitStrategy) (sequence : Z)
    (obs : list (ctx_status * RingBuffer E)) : option wait_result :=
  match wait with
  | YieldWait => (waitForYield sequence 100 0 obs).1
  | BlockWait => (waitForBlock sequence 0 obs).1
  | BusySpinWait => waitForBusySpin sequence obs
  end.
End ops.

(** ** Sizes that pass the constructor's guard *)

Lemma land_pred_pow2 n : 0 < n -> Z.land n (n - 1) = 0 <-> n = 2 ^ Z.log2 n.
Proof.
  intros Hn. pose proof (Z.log2_spec n Hn) as [Hlo Hhi].
  pose proof (Z.log2_nonneg n) as Hl. split.
  - intros Hland. destruct (decide (n = 2 ^ Z.log2 n)) as [|Hne]; [done|exfalso].
    assert (Z.log2 (n - 1) = Z.log2 n) as Hlog.
    { apply Z.log2_unique; [lia|]. lia. }
    assert (Z.testbit (Z.land n (n - 1)) (Z.log2 n) = true) as Hbit.
    { rewrite Z.land_spec, Z.bit_log2, <- Hlog, Z.bit_log2; [done| |lia].
      assert (0 < 2 ^ Z.log2 n) by (apply Z.pow_pos_nonneg; lia). lia. }
    rewrite Hland, Z.bits_0 in Hbit. done.
  - intros ->. generalize (Z.log2 n), Hl. intros k Hk.
    replace (2 ^ k - 1) with (Z.ones k) by (rewrite Z.ones_equiv; lia).
    rewrite Z.land_ones by lia. apply Z_mod_same_full.
Qed.

(** A buffer whose fields agree with its size [2 ^ k]. *)
Definition ring_shape {E} (rb : RingBuffer E) : Prop :=
  exists k, 0 <= k /\ bufferSize rb = 2 ^ k /\ bufferSize rb <= max_i64 /\
    indexMask rb = 2 ^ k - 1 /\
    length (buffer rb) = Z.to_nat (2 ^ k) /\
    length (available rb) = Z.to_nat (2 ^ k).

Lemma NewRingBuffer_ret {E} size wait (rb : RingBuffer E) :
  NewRingBuffer size wait = Ret rb -> size <= max_i64 ->
  ring_shape rb /\ bufferSize rb = size /\ cursor rb = -1 /\ gating rb = -1 /\
  buffer rb = replicate (Z.to_nat size) None /\
  available rb = replicate (Z.to_nat size) (-1).
Proof.
  unfold NewRingBuffer. destruct (Z.leb_spec size 0) as [|Hs]; [done|].
  destruct (Z.eqb_spec (Z.land size (size - 1)) 0) as [Hp|]; [|done].
  intros [= <-] Hmax. apply land_pred_pow2 in Hp; [|done]. simpl. split_and!; try done.
  exists (Z.log2 size). simpl. rewrite !length_replicate, <- Hp.
  pose proof (Z.log2_nonneg size). done.
Qed.

(** ** Slot arithmetic *)

Section slots.
Context {E : Type} (rb : RingBuffer E) (Hshape : ring_shape rb).

Lemma ring_size_pos : 0 < bufferSize rb.
Proof using Hshape.
  destruct Hshape as (k & Hk & -> & _). apply Z.pow_pos_nonneg; lia.
Qed.

Lemma slot_mod s : Z.of_nat (slot rb s) = s mod bufferSize rb.
Proof using Hshape.
  destruct Hshape as (k & Hk & HN & _ & HM & _). unfold slot.
  rewrite HM, HN. replace (2 ^ k - 1) with (Z.ones k) by (rewrite Z.ones_equiv; lia).
  rewrite Z.land_ones by done. apply Z2Nat.id.
  apply Z.mod_pos_bound, Z.pow_pos_nonneg; lia.
Qed.

Lemma slot_buffer_lt s : (slot rb s < length (buffer rb))%nat.
Proof using Hshape.
  pose proof (slot_mod s) as Hs. pose proof ring_size_pos as Hpos.
  pose proof (Z.mod_pos_bound s _ Hpos).
  destruct Hshape as (k & Hk & HN & _ & _ & -> & _). lia.
Qed.

Lemma slot_available_lt s : (slot rb s < length (available rb))%nat.
Proof using Hshape.
  pose proof (slot_mod s) as Hs. pose proof ring_size_pos as Hpos.
  pose proof (Z.mod_pos_bound s _ Hpos).
  destruct Hshape as (k & Hk & HN & _ & _ & _ & ->). lia.
Qed.

(** Sequences of one window of the ring never share a slot. *)
Lemma slot_inj g s1 s2 :
  g < s1 <= g + bufferSize rb -> g < s2 <= g + bufferSize rb ->
  slot rb s1 = slot rb s2 -> s1 = s2.
Proof using Hshape.
  intros H1 H2 Heq. pose proof ring_size_pos as Hpos.
  assert (s1 mod bufferSize rb = s2 mod bufferSize rb) as Hm
    by (rewrite <- !slot_mod; congruence).
  pose proof (Z.div_mod s1 (bufferSize rb) ltac:(lia)).
  pose proof (Z.div_mod s2 (bufferSize rb) ltac:(lia)).
  assert (s1 - s2 = bufferSize rb * (s1 / bufferSize rb - s2 / bufferSize rb)) as Hd by lia.
  assert (s1 / bufferSize rb - s2 / bufferSize rb = 0) as Hq by nia. lia.
Qed.
End slots.

(** ** Sequential behaviour of the ring *)

(** Preservation of the shape by every store. *)
Lemma ring_shape_stores {E} (rb : RingBuffer E) :
  ring_shape rb ->
  (forall c, ring_shape (set_cursor rb c)) /\
  (forall g, ring_shape (set_gating rb g)) /\
  (forall s ev, ring_shape (store_event rb s ev)) /\
  (forall s, ring_shape (mark_available rb s)).
Proof.
  intros (k & ? & ? & ? & ? & ? & ?).
  split_and!; intros; exists k; simpl; rewrite ?length_insert; done.
Qed.

Lemma ring_full_spec {E} (rb : RingBuffer E) current :
  ring_shape rb -> -1 <= current < max_i64 -> 
  ring_full rb current = true <-> gating rb < current + 1 - bufferSize rb.
Proof.
  intros Hshape Hc. pose proof (ring_size_pos rb Hshape).
  destruct Hshape as (k & _ & _ & Hmax & _). unfold ring_full.
  rewrite (i64_id (current + 1)) by (widths; lia).
  rewrite i64_id by (widths; lia). apply Z.ltb_lt.
Qed.

(** All three waiting loops return the same result: they differ only in the
    pauses they take. *)
Lemma waitForYield_busy {E} s spins g (obs : list (ctx_status * RingBuffer E)) :
  (waitForYield s spins g obs).1 = waitForBusySpin s obs.
Proof.
  revert spins g. induction obs as [|[c rb] obs IH]; intros spins g; simpl; [done|].
  destruct (ctx_done c); [done|]. destruct (published rb s); [done|].
  destruct (spins - 1 <=? 0); apply IH.
Qed.

Lemma waitForBlock_busy {E} s n (obs : list (ctx_status * RingBuffer E)) :
  (waitForBlock s n obs).1 = waitForBusySpin s obs.
Proof.
  revert n. induction obs as [|[c rb] obs IH]; intros n; simpl; [done|].
  destruct (ctx_done c); [done|]. destruct (published rb s); [done|]. apply IH.
Qed.

Lemma WaitFor_busy {E} wait s (obs : list (ctx_status * RingBuffer E)) :
  WaitFor wait s obs = waitForBusySpin s obs.
Proof.
  destruct wait; simpl; auto using waitForYield_busy, waitForBlock_busy.
Qed.

(** What the first decisive observation is. *)
Lemma waitForBusySpin_spec {E} s (obs : list (ctx_status * RingBuffer E)) r :
  waitForBusySpin s obs = Some r <->
  exists pre c rb post, obs = pre ++ (c, rb) :: post /\
    Forall (fun o => ctx_done o.1 = false /\ published o.2 s = false) pre /\
    ((ctx_done c = true /\ r = Err c) \/
     (ctx_done c = false /\ published rb s = true /\ r = Ok s)).
Proof.
  split.
  - induction obs as [|[c rb] obs IH]; simpl; [done|].
    destruct (ctx_done c) eqn:Hc.
    { intros [= <-]. exists [], c, rb, obs. auto. }
    destruct (published rb s) eqn:Hp.
    { intros [= <-]. exists [], c, rb, obs. auto 7. }
    intros (pre & c' & rb' & post & -> & Hpre & Hr)%IH.
    exists ((c, rb) :: pre), c', rb', post. auto.
  - intros (pre & c & rb & post & -> & Hpre & Hr).
    induction Hpre as [|[c' rb'] pre [H1 H2] Hpre IH]; simpl in *; [|by rewrite H1, H2].
    destruct Hr as [[-> ->]|(-> & -> & ->)]; done.
Qed.

(** ** Theorems *)

(** NewRingBuffer returns a ring exactly for the positive powers of two and
    panics for every other size. *)
Theorem NewRingBuffer_pow2 (E : Type) size wait :
  (exists rb : RingBuffer E, NewRingBuffer size wait = Ret rb) <->
  (exists k, 0 <= k /\ size = 2 ^ k).
Proof.
  unfold NewRingBuffer. split.
  - intros [rb Hrb]. destruct (Z.leb_spec size 0) as [|Hs]; [done|].
    destruct (Z.eqb_spec (Z.land size (size - 1)) 0) as [Hp|]; [|done].
    apply land_pred_pow2 in Hp; [|done].
    exists (Z.log2 size). split; [apply Z.log2_nonneg|done].
  - intros (k & Hk & ->). pose proof (Z.pow_pos_nonneg 2 k ltac:(lia) Hk).
    destruct (Z.leb_spec (2 ^ k) 0) as [|_]; [lia|].
    destruct (Z.eqb_spec (Z.land (2 ^ k) (2 ^ k - 1)) 0) as [|Hne]; [by eexists|].
    destruct Hne. apply land_pred_pow2; [done|]. by rewrite Z.log2_pow2.
Qed.

(** Without interference, claiming a sequence and publishing an event makes
    that event readable at the sequence, marks exactly that sequence as
    published in its slot, leaves every other slot as it was, and a full ring
    refuses the claim and changes nothing. *)
Theorem claim_publish_get {E} (rb : RingBuffer E) ev :
  ring_shape rb -> -1 <= gating rb <= cursor rb -> cursor rb < max_i64 ->
  let '(rb1, s) := Next rb in
  if cursor rb - gating rb <? bufferSize rb then
    s = cursor rb + 1 /\ cursor rb1 = s /\
    let rb2 := Publish rb1 s ev in
    Get rb2 s = Some ev /\ published rb2 s = true /\
    (forall s', slot rb s' <> slot rb s ->
       Get rb2 s' = Get rb s' /\ published rb2 s' = published rb s')
  else s = -1 /\ rb1 = rb.
Proof.
  intros Hshape Hg Hc. unfold Next.
  pose proof (ring_full_spec rb (cursor rb) Hshape ltac:(lia)) as Hfull.
  destruct (ring_full rb (cursor rb)).
  { destruct (Z.ltb_spec (cursor rb - gating rb) (bufferSize rb)); [|done].
    destruct Hfull as [Hfull _]. specialize (Hfull eq_refl). lia. }
  destruct (Z.ltb_spec (cursor rb - gating rb) (bufferSize rb)) as [|Hge].
  2: { destruct Hfull as [_ Hfull]. specialize (Hfull ltac:(lia)). done. }
  rewrite i64_id by (widths; lia). cbn [cursor set_cursor]. split; [done|]. split; [done|].
  unfold Get, published, Publish, mark_available, store_event, slot; simpl.
  pose proof (slot_buffer_lt rb Hshape (cursor rb + 1)) as Hb.
  pose proof (slot_available_lt rb Hshape (cursor rb + 1)) as Ha.
  unfold slot in Hb, Ha. split; [by apply list_lookup_insert_eq|]. split.
  - rewrite list_lookup_insert_eq by done. apply Z.eqb_refl.
  - intros s' Hne. by rewrite !list_lookup_insert_ne by done.
Qed.

Lemma claim_publish_get_witness :
  Get (Publish (Next (mkRingBuffer [None; None] [-1; -1] 2 1 (-1) (-1) YieldWait)).1 0 (Some 7)) 0
  = Some (Some 7).
Proof.
  refine (let rb := mkRingBuffer (E:=Z) [None; None] [-1; -1] 2 1 (-1) (-1) YieldWait in _).
  assert (ring_shape rb) as Hs by (exists 1; vm_compute; intuition congruence).
  pose proof (claim_publish_get rb (Some 7) Hs ltac:(vm_compute; intuition congruence) eq_refl) as H.
  vm_compute in H. vm_compute. apply H.
Defined.

(** The three waiting strategies decide alike: WaitFor returns the awaited
    sequence exactly when an iteration sees the live context and the slot
    carrying that sequence before any iteration sees the context done, and the
    context's error in the other case. *)
Theorem WaitFor_spec {E} wait s (obs : list (ctx_status * RingBuffer E)) r :
  WaitFor wait s obs = Some r <->
  exists pre c rb post, obs = pre ++ (c, rb) :: post /\
    Forall (fun o => ctx_done o.1 = false /\ published o.2 s = false) pre /\
    ((ctx_done c = true /\ r = Err c) \/
     (ctx_done c = false /\ published rb s = true /\ r = Ok s)).
Proof. rewrite WaitFor_busy. apply waitForBusySpin_spec. Qed.
