(* ===== verification/EventLoop.v ===== *)
(** * Event loops (pkg/core/eventloop/loop.go, config.go)

    An event loop is one consumer goroutine ([run]) and any number of producer
    goroutines inside [Dispatch], sharing one disruptor ring.  The model is a
    transition system whose steps are the single atomic operations of the
    source (loads, stores and compare-and-swaps of sync/atomic, which Go orders
    sequentially consistently), so every interleaving is covered. *)
From S2P Require Import Prelude RingBuffer.

(** ** Configuration *)

Inductive BackpressurePolicy : Type :=
| BackpressureBlock
| BackpressureDrop
| BackpressureDropByTopic.

#[export] Instance BackpressurePolicy_eq_dec : EqDecision BackpressurePolicy.
Proof. solve_decision. Defined.

Record EventLoopConfig : Type := mkEventLoopConfig {
  NumLoops : Z;
  QueueSize : Z;
  CPUAffinity : bool;
  Backpressure : BackpressurePolicy;
  MetricsOn : bool
}.

Definition DefaultEventLoopConfig : EventLoopConfig :=
  {| NumLoops := 0; QueueSize := 4096; CPUAffinity := false;
     Backpressure := BackpressureBlock; MetricsOn := true |}.

(** Codes of [EventLoopError]; the message is a constant per code. *)
Inductive EventLoopError : Type :=
| INVALID_CONFIG
| INVALID_EVENT
| INVALID_ENVELOPE
| INVALID_INDEX
| INVALID_KEY
| NO_LOOPS
| CLOSED
| QUEUE_FULL
(** [ctx.Err()] handed through by [Dispatch]. *)
| CONTEXT_ERR.

#[export] Instance EventLoopError_eq_dec : EqDecision EventLoopError.
Proof. solve_decision. Defined.

Definition Validate (c : EventLoopConfig) : option EventLoopError :=
  if NumLoops c <? 0 then Some INVALID_CONFIG
  else if QueueSize c <? 1 then Some INVALID_CONFIG
  else None.

(** ** Events

    Bodies and handlers are opaque to the loop: identifiers stand for them. *)
Record Event : Type := mkEvent {
  Key : string;
  Address : string;
  Body : Z;
  Headers : option (gmap string string);
  Handler : option Z
}.

#[export] Instance Event_eq_dec : EqDecision Event.
Proof. solve_decision. Defined.

(** The guard [event != nil && event.Handler != nil] of [run]. *)
Definition callable (e : option Event) : bool :=
  match e with
  | Some ev => match Handler ev with Some _ => true | None => false end
  | None => false
  end.

(** ** Queue sizes *)

(** [n |= n >> k] *)
Definition fill_right (k n : Z) : Z := Z.lor n (Z.shiftr n k).

Definition nextPow2 (n : Z) : Z :=
  if n <? 2 then 2
  else
    let n := n - 1 in
    let n := fill_right 1 n in
    let n := fill_right 2 n in
    let n := fill_right 4 n in
    let n := fill_right 8 n in
    let n := fill_right 16 n in
    n +i64 1.

(** The bits of [x] above [L] are clear and the [k] bits from [L] down are set. *)
Definition filled (x L k : Z) : Prop :=
  0 <= x /\
  (forall i, L < i -> Z.testbit x i = false) /\
  (forall i, 0 <= i -> L - k < i <= L -> Z.testbit x i = true).

Lemma fill_right_filled x L k :
  0 <= k -> filled x L k -> filled (fill_right k x) L (k + k).
Proof.
  intros Hk (Hx & Hhi & Hlo). unfold fill_right. split_and!.
  - apply Z.lor_nonneg. split; [done|]. by apply Z.shiftr_nonneg.
  - intros i Hi. destruct (Z.le_gt_cases 0 i).
    + rewrite Z.lor_spec, Z.shiftr_spec, !Hhi by lia. done.
    + by apply Z.testbit_neg_r.
  - intros i Hi HL. rewrite Z.lor_spec, Z.shiftr_spec by done.
    destruct (Z.le_gt_cases i (L - k)).
    + rewrite (Hlo (i + k)) by lia. apply orb_true_r.
    + by rewrite Hlo by lia.
Qed.

Lemma filled_ones x L k : 0 <= L < k -> filled x L k -> x = Z.ones (L + 1).
Proof.
  intros HL (Hx & Hhi & Hlo). apply Z.bits_inj'. intros i Hi.
  destruct (Z.le_gt_cases i L).
  - rewrite Hlo, Z.ones_spec_low by lia. done.
  - rewrite Hhi, Z.ones_spec_high by lia. done.
Qed.

Lemma filled_log2 x : 0 < x -> filled x (Z.log2 x) 1.
Proof.
  intros Hx. split_and!; [lia| |].
  - intros i Hi. apply Z.bits_above_log2; lia.
  - intros i Hi HL. replace i with (Z.log2 x) by lia. by apply Z.bit_log2.
Qed.

Lemma nextPow2_log2_up n : 2 <= n <= 2 ^ 32 -> nextPow2 n = 2 ^ Z.log2_up n.
Proof.
  intros Hn. unfold nextPow2. destruct (Z.ltb_spec n 2); [lia|].
  assert (Z.log2 (n - 1) < 32) as HL by (apply Z.log2_lt_pow2; lia).
  pose proof (Z.log2_nonneg (n - 1)) as HL0.
  assert (filled (n - 1) (Z.log2 (n - 1)) 1) as H1 by (apply filled_log2; lia).
  pose proof (fill_right_filled _ _ 1 ltac:(lia) H1) as H2.
  pose proof (fill_right_filled _ _ 2 ltac:(lia) H2) as H3.
  pose proof (fill_right_filled _ _ 4 ltac:(lia) H3) as H4.
  pose proof (fill_right_filled _ _ 8 ltac:(lia) H4) as H5.
  pose proof (fill_right_filled _ _ 16 ltac:(lia) H5) as H6.
  apply filled_ones in H6; [|lia]. cbv zeta. rewrite H6.
  rewrite Z.ones_equiv, <- Z.sub_1_r, Z.sub_add.
  assert (Z.log2_up n = Z.log2 (n - 1) + 1) as ->.
  { unfold Z.log2_up. destruct (Z.compare_spec 1 n); [lia| |lia].
    rewrite Z.add_1_r. by rewrite Z.sub_1_r. }
  apply i64_id. pose proof (Z.pow_pos_nonneg 2 (Z.log2 (n - 1) + 1) ltac:(lia) ltac:(lia)).
  pose proof (Z.pow_le_mono_r 2 (Z.log2 (n - 1) + 1) 32 ltac:(lia) ltac:(lia)).
  widths. lia.
Qed.

(** ** Loop metrics *)

(** The latency average of [run]: exponentially weighted with factor 1/8, the
    first sample taken as it is.  Go's division truncates. *)
Definition ewma (old latency : Z) : Z :=
  if old =? 0 then latency else Z.quot (i64 (i64 (old * 7) + latency)) 8.

Record LoopMetrics : Type := mkLoopMetrics {
  LoopID : Z;
  QueueLength : Z;
  DroppedMessages : Z;
  ProcessedMessages : Z;
  AvgLatency : Z
}.

(** ** The shared state of one loop *)

Record EventLoop : Type := mkEventLoop {
  id : Z;
  ringBuffer : RingBuffer Event;
  cancelled : bool;
  config : EventLoopConfig;
  closed : bool;
  dropped : Z;
  processed : Z;
  avgLatency : Z
}.

Definition with_ring (l : EventLoop) (rb : RingBuffer Event) : EventLoop :=
  {| id := id l; ringBuffer := rb; cancelled := cancelled l; config := config l;
     closed := closed l; dropped := dropped l; processed := processed l;
     avgLatency := avgLatency l |}.

Definition NewEventLoop (i : Z) (c : EventLoopConfig) : outcome EventLoop :=
  match NewRingBuffer (nextPow2 (QueueSize c)) YieldWait with
  | Panic => Panic
  | Ret rb =>
      Ret {| id := i; ringBuffer := rb; cancelled := false; config := c;
             closed := false; dropped := 0; processed := 0; avgLatency := 0 |}
  end.

(** [Close]: the first call swaps [closed] and then cancels the context. *)
Definition close_swap (l : EventLoop) : EventLoop :=
  {| id := id l; ringBuffer := ringBuffer l; cancelled := cancelled l;
     config := config l; closed := true; dropped := dropped l;
     processed := processed l; avgLatency := avgLatency l |}.

Definition cancel (l : EventLoop) : EventLoop :=
  {| id := id l; ringBuffer := ringBuffer l; cancelled := true;
     config := config l; closed := closed l; dropped := dropped l;
     processed := processed l; avgLatency := avgLatency l |}.

Definition Close (l : EventLoop) : EventLoop :=
  if closed l then l else cancel (close_swap l).

Definition count_dropped (l : EventLoop) : EventLoop :=
  if MetricsOn (config l) then
    {| id := id l; ringBuffer := ringBuffer l; cancelled := cancelled l;
       config := config l; closed := closed l; dropped := dropped l +i64 1;
       processed := processed l; avgLatency := avgLatency l |}
  else l.

(** The metrics block of [run], for one measured latency. *)
Definition count_processed (l : EventLoop) (latency : Z) : EventLoop :=
  if MetricsOn (config l) then
    {| id := id l; ringBuffer := ringBuffer l; cancelled := cancelled l;
       config := config l; closed := closed l; dropped := dropped l;
       processed := processed l +i64 1;
       avgLatency := ewma (avgLatency l) latency |}
  else l.

(** The percentile and throughput fields of [LoopMetrics] are never written by
    the package and are left out. *)
Definition Stats (l : EventLoop) : LoopMetrics :=
  if MetricsOn (config l) then
    {| LoopID := id l;
       QueueLength := Size (ringBuffer l) -i64 AvailableCapacity (ringBuffer l);
       DroppedMessages := dropped l; ProcessedMessages := processed l;
       AvgLatency := avgLatency l |}
  else {| LoopID := id l; QueueLength := 0; DroppedMessages := 0;
          ProcessedMessages := 0; AvgLatency := 0 |}.

(** ** Producers: the program points of [Dispatch] and of the [Next] and
    [Publish] calls inside it *)

Inductive pstate : Type :=
| PEnter (ev : option Event)            (** about to load [closed] *)
| PLoop (ev : option Event)             (** top of the blocking loop, about to load [closed] *)
| PLoopCtx (ev : option Event)          (** about to read [ctx.Err()] in the loop's test *)
| PExit (ev : option Event)             (** about to [return l.ctx.Err()] *)
| PNext (ev : option Event)             (** [Next]: about to load [cursor] *)
| PLoaded (ev : option Event) (cur : Z) (** [Next]: about to load [gating] and test *)
| PGated (ev : option Event) (cur : Z)  (** [Next]: about to compare and swap *)
| PClaimed (ev : option Event) (q : Z)  (** [Publish]: about to store the pointer *)
| PStored (ev : option Event) (q : Z)   (** [Publish]: about to store the sequence *)
| PDone (ev : option Event) (err : option EventLoopError).

(** What [Dispatch] does with the sequence [Next] returned. *)
Definition next_returned (l : EventLoop) (ev : option Event) (q : Z) : EventLoop * pstate :=
  if q <? 0 then
    match Backpressure (config l) with
    | BackpressureDrop => (count_dropped l, PDone ev (Some QUEUE_FULL))
    | _ => (l, PLoop ev)
    end
  else (l, PClaimed ev q).

(** One atomic operation of a producer; the list holds the event of a
    successful claim. *)
Definition pstep (l : EventLoop) (p : pstate) :
    option (EventLoop * pstate * list (option Event)) :=
  let rb := ringBuffer l in
  match p with
  | PEnter ev =>
      if closed l then Some (l, PDone ev (Some CLOSED), [])
      else match Backpressure (config l) with
           | BackpressureDrop => Some (l, PNext ev, [])
           | _ => Some (l, PLoop ev, [])
           end
  | PLoop ev => Some (l, if closed l then PExit ev else PLoopCtx ev, [])
  | PLoopCtx ev => Some (l, if cancelled l then PExit ev else PNext ev, [])
  | PExit ev =>
      Some (l, PDone ev (if cancelled l then Some CONTEXT_ERR else None), [])
  | PNext ev => Some (l, PLoaded ev (cursor rb), [])
  | PLoaded ev cur =>
      if ring_full rb cur then Some (next_returned l ev (-1), [])
      else Some (l, PGated ev cur, [])
  | PGated ev cur =>
      if cursor rb =? cur then
        Some (next_returned (with_ring l (set_cursor rb (cur +i64 1))) ev (cur +i64 1), [ev])
      else Some (l, PNext ev, [])
  | PClaimed ev q => Some (with_ring l (store_event rb q ev), PStored ev q, [])
  | PStored ev q => Some (with_ring l (mark_available rb q), PDone ev None, [])
  | PDone _ _ => None
  end.

(** ** The consumer: the program points of [run]

    [WaitFor] returns the very sequence it was given, so the inner loop of
    [run] handles that one sequence. *)
Inductive cstate : Type :=
| CPoll (n : Z)                       (** about to read [ctx.Err()] in [WaitFor] *)
| CSeen (n : Z)                       (** about to load [available] *)
| CGet (n : Z)                        (** about to load the pointer *)
| CRun (n : Z) (ev : option Event)    (** about to call the handler *)
| CHandled (n : Z)                    (** about to update the metrics *)
| CConsume (n : Z)                    (** about to store [gating] *)
| CExited (n : Z).                    (** [run] has returned *)

(** One operation of the consumer; the list holds the event whose handler ran. *)
Definition cstep (latency : Z) (l : EventLoop) (c : cstate) :
    option (EventLoop * cstate * list (option Event)) :=
  let rb := ringBuffer l in
  match c with
  | CPoll n => Some (l, if cancelled l then CExited n else CSeen n, [])
  | CSeen n => Some (l, if published rb n then CGet n else CPoll n, [])
  | CGet n =>
      match Get rb n with
      | Some ev => Some (l, CRun n ev, [])
      | None => None
      end
  | CRun n ev => Some (l, CHandled n, if callable ev then [ev] else [])
  | CHandled n => Some (count_processed l latency, CConsume n, [])
  | CConsume n => Some (with_ring l (Consume rb n), CPoll (n +i64 1), [])
  | CExited _ => None
  end.

(** ** The system: one loop, its [Dispatch] calls, its [run] goroutine

    [claims] records the events in the order their sequences were claimed and
    [invoked] the events whose handlers ran, in order; the source keeps neither. *)
Record sys : Type := mkSys {
  loop : EventLoop;
  prods : gmap nat pstate;
  cons : cstate;
  claims : list (option Event);
  invoked : list (option Event)
}.

Inductive step : relation sys :=
| step_call s t ev :
    prods s !! t = None ->
    step s (mkSys (loop s) (<[t := PEnter ev]> (prods s)) (cons s) (claims s) (invoked s))
| step_prod s t p l' p' cl :
    prods s !! t = Some p ->
    pstep (loop s) p = Some (l', p', cl) ->
    step s (mkSys l' (<[t := p']> (prods s)) (cons s) (claims s ++ cl) (invoked s))
| step_cons s latency l' c' inv :
    cstep latency (loop s) (cons s) = Some (l', c', inv) ->
    step s (mkSys l' (prods s) c' (claims s) (invoked s ++ inv))
| step_close s :
    closed (loop s) = false ->
    step s (mkSys (close_swap (loop s)) (prods s) (cons s) (claims s) (invoked s))
| step_cancel s :
    step s (mkSys (cancel (loop s)) (prods s) (cons s) (claims s) (invoked s)).

Definition initial_sys (l : EventLoop) : sys := mkSys l ∅ (CPoll 0) [] [].

(** ** Running the system along a schedule *)

Inductive action : Type :=
| ACall (t : nat) (ev : option Event)
| AProd (t : nat)
| ACons (latency : Z)
| AClose
| ACancel.

Definition exec (a : action) (s : sys) : option sys :=
  match a with
  | ACall t ev =>
      match prods s !! t with
      | None => Some (mkSys (loop s) (<[t := PEnter ev]> (prods s)) (cons s) (claims s) (invoked s))
      | Some _ => None
      end
  | AProd t =>
      match prods s !! t with
      | Some p =>
          match pstep (loop s) p with
          | Some (l', p', cl) =>
              Some (mkSys l' (<[t := p']> (prods s)) (cons s) (claims s ++ cl) (invoked s))
          | None => None
          end
      | None => None
      end
  | ACons x =>
      match cstep x (loop s) (cons s) with
      | Some (l', c', inv) => Some (mkSys l' (prods s) c' (claims s) (invoked s ++ inv))
      | None => None
      end
  | AClose =>
      if closed (loop s) then None
      else Some (mkSys (close_swap (loop s)) (prods s) (cons s) (claims s) (invoked s))
  | ACancel => Some (mkSys (cancel (loop s)) (prods s) (cons s) (claims s) (invoked s))
  end.

Fixpoint execs (al : list action) (s : sys) : option sys :=
  match al with
  | [] => Some s
  | a :: al => match exec a s with Some s' => execs al s' | None => None end
  end.

Lemma exec_step a s s' : exec a s = Some s' -> step s s'.
Proof.
  destruct a; simpl; intros H; repeat case_match; simplify_eq.
  - by constructor.
  - by eapply step_prod.
  - by eapply step_cons.
  - by constructor.
  - constructor.
Qed.

Lemma execs_nsteps al s s' : execs al s = Some s' -> nsteps step (length al) s s'.
Proof.
  revert s. induction al as [|a al IH]; intros s; simpl; [intros [= <-]; constructor|].
  destruct (exec a s) as [s1|] eqn:Ha; [|done]. intros Hal.
  econstructor; [by eapply exec_step|by apply IH].
Qed.
