(* ===== verification/EventLoopSafety.v ===== *)
(** * Safety of the event loop

    The inductive invariant of the transition system of EventLoop.v, its
    preservation by every step, and what it gives: handlers run in claim order
    exactly once, claims never overwrite unread slots, and the ring implements
    a bounded FIFO queue. *)
From S2P Require Import Prelude RingBuffer EventLoop.

#[local] Set Warnings "-clear-no-such-hyp".

(** The sequence a producer has claimed and not yet published. *)
Definition owned (p : pstate) : option Z :=
  match p with
  | PClaimed _ q | PStored _ q => Some q
  | _ => None
  end.

(** The sequence the consumer is at. *)
Definition cpos (c : cstate) : Z :=
  match c with
  | CPoll n | CSeen n | CGet n | CRun n _ | CHandled n | CConsume n | CExited n => n
  end.

(** How many claims have been handed to their handlers. *)
Definition cdone (c : cstate) : Z :=
  match c with
  | CHandled n | CConsume n => n + 1
  | _ => cpos c
  end.

(** What a producer's program point says about the ring. *)
Definition pinv (rb : RingBuffer Event) (cl : list (option Event)) (p : pstate) : Prop :=
  match p with
  | PLoaded _ cur => -1 <= cur <= cursor rb
  | PGated _ cur => -1 <= cur <= cursor rb /\ cur + 1 - bufferSize rb <= gating rb
  | PClaimed ev q =>
      gating rb < q <= cursor rb /\ cl !! Z.to_nat q = Some ev /\ published rb q = false
  | PStored ev q =>
      gating rb < q <= cursor rb /\ cl !! Z.to_nat q = Some ev /\ published rb q = false /\
      Get rb q = Some ev
  | _ => True
  end.

(** What the consumer's program point says. *)
Definition cinv (rb : RingBuffer Event) (cl inv : list (option Event)) (c : cstate) : Prop :=
  cpos c = gating rb + 1 /\
  inv = List.filter callable (take (Z.to_nat (cdone c)) cl) /\
  match c with
  | CGet n | CHandled n | CConsume n => n <= cursor rb /\ published rb n = true
  | CRun n ev => n <= cursor rb /\ published rb n = true /\ cl !! Z.to_nat n = Some ev
  | _ => True
  end.

(** Every sequence of the window is either claimed by a producer that has not
    published it yet, or published with the claimed event in its slot. *)
Definition covered (rb : RingBuffer Event) (cl : list (option Event))
    (ps : gmap nat pstate) (q : Z) : Prop :=
  (exists t p, ps !! t = Some p /\ owned p = Some q) \/
  (published rb q = true /\ Get rb q = cl !! Z.to_nat q).

Record ring_inv (k : nat) (rb : RingBuffer Event) (cl : list (option Event))
    (ps : gmap nat pstate) : Prop := mk_ring_inv {
  ri_shape : ring_shape rb;
  ri_window : -1 <= gating rb <= cursor rb /\ cursor rb <= gating rb + bufferSize rb;
  ri_claims : Z.of_nat (length cl) = cursor rb + 1;
  ri_count : cursor rb + 1 <= Z.of_nat k;
  ri_avail : forall i v, available rb !! i = Some v -> v <= cursor rb;
  ri_prods : forall t p, ps !! t = Some p -> pinv rb cl p;
  ri_unique : forall t1 t2 p1 p2 q,
    ps !! t1 = Some p1 -> ps !! t2 = Some p2 ->
    owned p1 = Some q -> owned p2 = Some q -> t1 = t2;
  ri_cover : forall q, gating rb < q <= cursor rb -> covered rb cl ps q
}.

Definition Inv (k : nat) (s : sys) : Prop :=
  ring_inv k (ringBuffer (loop s)) (claims s) (prods s) /\
  cinv (ringBuffer (loop s)) (claims s) (invoked s) (cons s).

Lemma owned_pinv rb cl p q :
  owned p = Some q -> pinv rb cl p ->
  gating rb < q <= cursor rb /\ published rb q = false.
Proof. destruct p; simpl; intros [= ->]; tauto. Qed.

(** ** Effect of the stores on [published] and [Get] *)

Section stores.
Context (rb : RingBuffer Event) (Hshape : ring_shape rb) (g : Z).

Lemma published_mark q q' :
  g < q <= g + bufferSize rb -> g < q' <= g + bufferSize rb ->
  published (mark_available rb q) q' = if q' =? q then true else published rb q'.
Proof using Hshape.
  intros Hq Hq'. unfold published, mark_available, slot at 1; simpl. fold (slot rb q').
  destruct (Z.eqb_spec q' q) as [->|Hne].
  - rewrite list_lookup_insert_eq by (apply slot_available_lt, Hshape). apply Z.eqb_refl.
  - rewrite list_lookup_insert_ne; [done|].
    intros Heq. apply Hne. symmetry. by apply (slot_inj rb Hshape g).
Qed.

Lemma Get_store q q' ev :
  g < q <= g + bufferSize rb -> g < q' <= g + bufferSize rb ->
  Get (store_event rb q ev) q' = if q' =? q then Some ev else Get rb q'.
Proof using Hshape.
  intros Hq Hq'. unfold Get, store_event, slot at 1; simpl. fold (slot rb q').
  destruct (Z.eqb_spec q' q) as [->|Hne].
  - by rewrite list_lookup_insert_eq by (apply slot_buffer_lt, Hshape).
  - rewrite list_lookup_insert_ne; [done|].
    intros Heq. apply Hne. symmetry. by apply (slot_inj rb Hshape g).
Qed.
End stores.

(** ** Preservation, one lemma per kind of step *)

(** A producer moves between program points that own nothing. *)
Lemma ring_inv_local k rb cl ps t p' :
  (forall p, ps !! t = Some p -> owned p = None) ->
  owned p' = None -> pinv rb cl p' ->
  ring_inv k rb cl ps -> ring_inv (S k) rb cl (<[t := p']> ps).
Proof.
  intros Hp Ho' Hp' []. split; try done; try lia.
  - intros t1 p1. rewrite lookup_insert. case_decide; naive_solver.
  - intros t1 t2 p1 p2 q. rewrite !lookup_insert. repeat case_decide; naive_solver.
  - intros q Hq. destruct (ri_cover0 q Hq) as [(t1 & p1 & H1 & H2)|]; [left|by right].
    exists t1, p1. rewrite lookup_insert_ne; naive_solver.
Qed.

(** The compare-and-swap of [Next] succeeds. *)
Lemma ring_inv_claim k rb cl ps t ev :
  Z.of_nat k < max_i64 ->
  ps !! t = Some (PGated ev (cursor rb)) ->
  ring_inv k rb cl ps ->
  ring_inv (S k) (set_cursor rb (cursor rb + 1)) (cl ++ [ev])
    (<[t := PClaimed ev (cursor rb + 1)]> ps).
Proof.
  intros Hk Ht []. pose proof (ri_prods0 _ _ Ht) as [Hcur Hgate].
  assert (Z.to_nat (cursor rb + 1) = length cl) as Hlen by lia.
  assert (published rb (cursor rb + 1) = false) as Hfresh.
  { unfold published. destruct (available rb !! slot rb (cursor rb + 1)) as [v|] eqn:Hv; [|done].
    apply ri_avail0 in Hv. zcase; [lia|done]. }
  assert (forall q x, cl !! q = Some x -> (cl ++ [ev]) !! q = Some x) as Happ
    by (intros; by apply lookup_app_l_Some).
  split; simpl; try lia.
  - by apply (ring_shape_stores rb).
  - rewrite length_app; simpl. lia.
  - intros i v Hv. apply ri_avail0 in Hv. lia.
  - intros t1 p1. rewrite lookup_insert. case_decide; intros Hp1.
    + injection Hp1 as <-. simpl. rewrite Hlen, list_lookup_middle by done. split_and!; try done; lia.
    + apply ri_prods0 in Hp1. destruct p1; simpl in *; intuition (auto; lia).
  - intros t1 t2 p1 p2 q. rewrite !lookup_insert.
    repeat case_decide; intros H1 H2 Ho1 Ho2; simplify_eq/=; try done.
    + exfalso. eapply owned_pinv in Ho2; [|eauto]. lia.
    + exfalso. eapply owned_pinv in Ho1; [|eauto]. lia.
    + eauto.
  - intros q Hq. destruct (decide (q = cursor rb + 1)) as [->|Hne].
    { left. exists t, (PClaimed ev (cursor rb + 1)). by rewrite lookup_insert_eq. }
    destruct (ri_cover0 q ltac:(lia)) as [(t1 & p1 & H1 & H2)|[H1 H2]]; [left|right].
    + exists t1, p1. rewrite lookup_insert_ne; [done|]. intros ->. simplify_eq/=.
    + split; [done|]. change (Get (set_cursor rb (cursor rb + 1)) q) with (Get rb q).
      rewrite lookup_app_l by lia. done.
Qed.

Lemma owned_update (ps : gmap nat pstate) t p p' t1 p1 :
  ps !! t = Some p -> owned p' = owned p ->
  <[t := p']> ps !! t1 = Some p1 ->
  exists p0, ps !! t1 = Some p0 /\ owned p0 = owned p1.
Proof. rewrite lookup_insert. case_decide; naive_solver. Qed.

(** First store of [Publish]. *)
Lemma ring_inv_store k rb cl ps t ev q :
  ps !! t = Some (PClaimed ev q) ->
  ring_inv k rb cl ps ->
  ring_inv (S k) (store_event rb q ev) cl (<[t := PStored ev q]> ps).
Proof.
  intros Ht []. pose proof (ri_prods0 _ _ Ht) as (Hq & Hcl & Hnp).
  assert (forall q', gating rb < q' <= cursor rb ->
    Get (store_event rb q ev) q' = if q' =? q then Some ev else Get rb q') as HG.
  { intros q' Hq'. apply (Get_store rb ri_shape0 (gating rb)); lia. }
  split; simpl; try done; try lia.
  - by apply (ring_shape_stores rb).
  - intros t1 p1. rewrite lookup_insert. case_decide; intros Hp1.
    + injection Hp1 as <-. simpl. rewrite HG, Z.eqb_refl by lia. done.
    + pose proof (ri_prods0 _ _ Hp1) as Hp. destruct p1; simpl in *; try done.
      destruct Hp as (? & ? & ? & ?). rewrite HG by done. zcase; [|done].
      subst. exfalso. eauto using ri_unique0.
  - intros t1 t2 p1 p2 q' H1 H2 Ho1 Ho2.
    eapply owned_update in H1 as (p1' & H1 & E1); [|eassumption|done].
    eapply owned_update in H2 as (p2' & H2 & E2); [|eassumption|done].
    apply (ri_unique0 t1 t2 p1' p2' q'); congruence.
  - intros q' Hq'. destruct (ri_cover0 q' Hq') as [(t1 & p1 & H1 & H2)|[H1 H2]].
    + left. destruct (decide (t1 = t)) as [->|].
      * exists t, (PStored ev q). rewrite lookup_insert_eq. by simplify_eq/=.
      * exists t1, p1. by rewrite lookup_insert_ne.
    + right. split; [done|]. rewrite HG by done. zcase; [subst|done]. done.
Qed.

(** Second store of [Publish]. *)
Lemma ring_inv_mark k rb cl ps t ev q :
  ps !! t = Some (PStored ev q) ->
  ring_inv k rb cl ps ->
  ring_inv (S k) (mark_available rb q) cl (<[t := PDone ev None]> ps).
Proof.
  intros Ht []. pose proof (ri_prods0 _ _ Ht) as (Hq & Hcl & Hnp & Hget).
  assert (forall q', gating rb < q' <= cursor rb ->
    published (mark_available rb q) q' = if q' =? q then true else published rb q') as HP.
  { intros q' Hq'. apply (published_mark rb ri_shape0 (gating rb)); lia. }
  split; simpl; try done; try lia.
  - by apply (ring_shape_stores rb).
  - intros i v. rewrite list_lookup_insert. case_decide; [intros [= <-]; lia|eauto].
  - intros t1 p1. rewrite lookup_insert. case_decide; intros Hp1.
    { by injection Hp1 as <-. }
    pose proof (ri_prods0 _ _ Hp1) as Hp. destruct p1; simpl in *; try done.
    all: destruct Hp as (? & ? & Hp); rewrite HP by done; zcase; [|by auto].
    all: subst; exfalso; eauto using ri_unique0.
  - intros t1 t2 p1 p2 q'. rewrite !lookup_insert. repeat case_decide; naive_solver.
  - intros q' Hq'. destruct (ri_cover0 q' Hq') as [(t1 & p1 & H1 & H2)|[H1 H2]].
    + destruct (decide (t1 = t)) as [->|].
      * right. simplify_eq/=. rewrite HP, Z.eqb_refl by done.
        split; [done|]. by rewrite Hcl.
      * left. exists t1, p1. by rewrite lookup_insert_ne.
    + right. rewrite HP by done. split; [by zcase|done].
Qed.

(** The consumer stores [gating]. *)
Lemma ring_inv_consume k rb cl ps :
  gating rb + 1 <= cursor rb -> published rb (gating rb + 1) = true ->
  ring_inv k rb cl ps ->
  ring_inv (S k) (set_gating rb (gating rb + 1)) cl ps.
Proof.
  intros Hle Hpub []. split; simpl; try done; try lia.
  - intros t p Hp. pose proof (ri_prods0 _ _ Hp) as Hpi.
    destruct p as [| | | | | | |ev q|ev q|]; simpl in *; try done; try lia.
    all: destruct (decide (q = gating rb + 1)); [subst; intuition congruence|].
    all: intuition (auto; lia).
  - intros q Hq. apply (ri_cover0 q). lia.
Qed.

Lemma ring_inv_mono k rb cl ps : ring_inv k rb cl ps -> ring_inv (S k) rb cl ps.
Proof. intros []. split; try done; lia. Qed.

(** ** The consumer's invariant under producer steps *)

Lemma cdone_claims k rb cl ps inv c :
  ring_inv k rb cl ps -> cinv rb cl inv c -> 0 <= cdone c <= Z.of_nat (length cl).
Proof.
  intros [] (Hpos & _ & Hc). destruct c; simpl in *; lia.
Qed.

Lemma cinv_claim k rb cl ps inv c ev :
  ring_inv k rb cl ps -> cinv rb cl inv c ->
  cinv (set_cursor rb (cursor rb + 1)) (cl ++ [ev]) inv c.
Proof.
  intros Hri Hci. pose proof (cdone_claims _ _ _ _ _ _ Hri Hci) as Hd.
  destruct Hci as (Hpos & -> & Hc). split; [done|]. split.
  - by rewrite take_app_le by lia.
  - destruct c; simpl in *; try done; try (intuition lia).
    destruct Hc as (? & ? & Hl). split; [lia|]. split; [done|].
    by apply lookup_app_l_Some.
Qed.

Lemma cinv_mark k rb cl ps inv c q :
  ring_inv k rb cl ps -> gating rb < q <= cursor rb ->
  cinv rb cl inv c -> cinv (mark_available rb q) cl inv c.
Proof.
  intros [] Hq (Hpos & -> & Hc). split; [done|]. split; [done|].
  assert (published rb (cpos c) = true -> published (mark_available rb q) (cpos c) = true) as HP.
  { intros Hp. rewrite (published_mark rb ri_shape0 (gating rb)) by lia. by zcase. }
  destruct c; simpl in *; try done; naive_solver.
Qed.

Lemma ring_count_dropped l : ringBuffer (count_dropped l) = ringBuffer l.
Proof. unfold count_dropped. by destruct (MetricsOn (config l)). Qed.

Lemma ring_count_processed l x : ringBuffer (count_processed l x) = ringBuffer l.
Proof. unfold count_processed. by destruct (MetricsOn (config l)). Qed.

(** [next_returned] on a negative sequence leaves the ring alone and owns nothing. *)
Lemma next_returned_neg l ev q :
  q < 0 ->
  ringBuffer (next_returned l ev q).1 = ringBuffer l /\
  owned (next_returned l ev q).2 = None /\
  forall rb cl, pinv rb cl (next_returned l ev q).2.
Proof.
  intros Hq. unfold next_returned. destruct (Z.ltb_spec q 0); [|lia].
  destruct (Backpressure (config l)); simpl; rewrite ?ring_count_dropped; done.
Qed.

Lemma next_returned_nonneg l ev q : 0 <= q -> next_returned l ev q = (l, PClaimed ev q).
Proof. intros Hq. unfold next_returned. by destruct (Z.ltb_spec q 0); [lia|]. Qed.

(** ** Every producer step *)

Lemma pstep_inv k l ps cl inv c t p l' p' add :
  Z.of_nat k < max_i64 ->
  ps !! t = Some p ->
  ring_inv k (ringBuffer l) cl ps -> cinv (ringBuffer l) cl inv c ->
  pstep l p = Some (l', p', add) ->
  ring_inv (S k) (ringBuffer l') (cl ++ add) (<[t := p']> ps) /\
  cinv (ringBuffer l') (cl ++ add) inv c.
Proof.
  intros Hk Ht Hri Hci Hstep.
  pose proof (ri_prods _ _ _ _ Hri _ _ Ht) as Hp. pose proof (ri_count _ _ _ _ Hri) as Hcnt.
  assert (forall q, owned q = None -> pinv (ringBuffer l) cl q -> owned p = None ->
    ring_inv (S k) (ringBuffer l) (cl ++ []) (<[t := q]> ps) /\
    cinv (ringBuffer l) (cl ++ []) inv c) as Hlocal.
  { intros q Hq Hpq Hop. rewrite app_nil_r. split; [|done].
    apply ring_inv_local; try done. intros p0 Hp0. by simplify_eq. }
  destruct p as [ev|ev|ev|ev|ev|ev cur|ev cur|ev q|ev q|ev err]; simpl in *.
  - destruct (closed l), (Backpressure (config l)); simplify_eq; by apply Hlocal.
  - destruct (closed l); simplify_eq; by apply Hlocal.
  - destruct (cancelled l); simplify_eq; by apply Hlocal.
  - simplify_eq. by apply Hlocal.
  - simplify_eq. apply Hlocal; simpl; try done. pose proof (ri_window _ _ _ _ Hri). lia.
  - pose proof (ring_full_spec (ringBuffer l) cur (ri_shape _ _ _ _ Hri) ltac:(lia)) as Hf.
    destruct (ring_full (ringBuffer l) cur).
    + destruct (next_returned_neg l ev (-1) ltac:(lia)) as (HR & HO & HP).
      destruct (next_returned l ev (-1)) as [l1 p1]. simplify_eq/=. rewrite HR. by apply Hlocal.
    + simplify_eq. apply Hlocal; try done. simpl. split; [done|].
      destruct (Z.lt_ge_cases (gating (ringBuffer l')) (cur + 1 - bufferSize (ringBuffer l')))
        as [Hlt|]; [|done]. apply Hf in Hlt. done.
  - destruct (Z.eqb_spec (cursor (ringBuffer l)) cur) as [<-|]; [|simplify_eq; by apply Hlocal].
    rewrite i64_id in Hstep by (widths; lia).
    rewrite next_returned_nonneg in Hstep by lia. simplify_eq/=. split.
    + by apply ring_inv_claim.
    + by eapply cinv_claim.
  - simplify_eq/=. rewrite app_nil_r. split; [by apply ring_inv_store|done].
  - simplify_eq/=. rewrite app_nil_r. split; [by apply ring_inv_mark|].
    eapply cinv_mark; [done|lia|done].
  - done.
Qed.

(** ** Every consumer step *)

Lemma filter_take_snoc (cl : list (option Event)) n ev :
  cl !! n = Some ev ->
  List.filter callable (take (S n) cl) =
  List.filter callable (take n cl) ++ (if callable ev then [ev] else []).
Proof.
  intros Hn. rewrite (take_S_r _ _ _ Hn), List.filter_app. simpl. by destruct (callable ev).
Qed.

Lemma cstep_inv k l ps cl inv c latency l' c' add :
  Z.of_nat k < max_i64 ->
  ring_inv k (ringBuffer l) cl ps -> cinv (ringBuffer l) cl inv c ->
  cstep latency l c = Some (l', c', add) ->
  ring_inv (S k) (ringBuffer l') cl ps /\ cinv (ringBuffer l') cl (inv ++ add) c'.
Proof.
  intros Hk Hri Hci Hstep. pose proof Hri as []. pose proof Hci as (Hpos & Hinv & Hc).
  destruct c as [n|n|n|n ev|n|n|n]; simpl in *.
  - simplify_eq/=. rewrite app_nil_r. split; [by apply ring_inv_mono|].
    by destruct (cancelled l').
  - simplify_eq/=. rewrite app_nil_r. split; [by apply ring_inv_mono|].
    destruct (published (ringBuffer l') (gating (ringBuffer l') + 1)) eqn:Hp; [|done].
    split_and!; try done. simpl.
    (* a published sequence of the window has been claimed *)
    unfold published in Hp. destruct (available (ringBuffer l') !! _) eqn:Hav; [|done].
    apply ri_avail0 in Hav. apply Z.eqb_eq in Hp. lia.
  - destruct (ri_cover0 n ltac:(lia)) as [(t & p & Ht & Ho)|[_ Hget]].
    { apply ri_prods0 in Ht. apply (owned_pinv _ _ _ _ Ho) in Ht. intuition congruence. }
    destruct (lookup_lt_is_Some_2 cl (Z.to_nat n) ltac:(lia)) as [ev Hev].
    rewrite Hget, Hev in Hstep. simplify_eq/=. rewrite app_nil_r.
    split; [by apply ring_inv_mono|]. split_and!; try done; tauto.
  - simplify_eq/=. split; [by apply ring_inv_mono|]. split_and!; try done; try tauto. simpl.
    destruct Hc as (_ & _ & Hev). rewrite <- (filter_take_snoc _ _ _ Hev). do 2 f_equal. lia.
  - simplify_eq/=. rewrite ring_count_processed, app_nil_r.
    split; [by apply ring_inv_mono|]. done.
  - simplify_eq/=. rewrite app_nil_r, i64_id by (widths; lia).
    split; [apply ring_inv_consume; intuition|]. split_and!; simpl; done || lia.
  - done.
Qed.

Lemma step_inv k s s' : Z.of_nat k < max_i64 -> Inv k s -> step s s' -> Inv (S k) s'.
Proof.
  intros Hk [Hri Hci] Hstep. destruct Hstep as [s t ev Ht|s t p l' p' cl Ht Hp|s lat l' c' inv Hc|s Hc|s];
    unfold Inv; simpl.
  - split; [|done]. apply ring_inv_local; try done. intros p Hp. by simplify_eq.
  - by eapply pstep_inv.
  - by eapply cstep_inv.
  - split; [by apply ring_inv_mono|done].
  - split; [by apply ring_inv_mono|done].
Qed.

(** ** Reachable states *)

Lemma nextPow2_range n : 0 < nextPow2 n -> nextPow2 n <= max_i64.
Proof.
  unfold nextPow2. destruct (n <? 2); [intros; widths; lia|].
  intros _. apply i64_range.
Qed.

Lemma lookup_replicate_nil {A} n i (x y : A) : replicate n x !! i = Some y -> y = x.
Proof. intros H. apply lookup_replicate in H. tauto. Qed.

Lemma initial_inv i c l : NewEventLoop i c = Ret l -> Inv 0 (initial_sys l).
Proof.
  unfold NewEventLoop. destruct (NewRingBuffer _ _) as [rb|] eqn:Hrb; [|done].
  intros [= <-]. assert (nextPow2 (QueueSize c) <= max_i64) as Hmax.
  { apply nextPow2_range. unfold NewRingBuffer in Hrb. destruct (Z.leb_spec (nextPow2 (QueueSize c)) 0); done. }
  destruct (NewRingBuffer_ret _ _ _ Hrb Hmax) as (Hs & HN & Hc & Hg & Hb & Ha).
  pose proof (ring_size_pos rb Hs). split; simpl.
  - split; rewrite ?Hc, ?Hg; try done; try lia.
    intros j v Hv. rewrite Ha in Hv. apply lookup_replicate_nil in Hv. lia.
  - split_and!; simpl; [lia|done|done].
Qed.

(** State reached from a new loop after [k] atomic operations, fewer than the
    int64 sequence numbers allow. *)
Definition reachable (l : EventLoop) (s : sys) : Prop :=
  exists k, nsteps step k (initial_sys l) s /\ Z.of_nat k < max_i64.

Lemma reachable_inv i c l s :
  NewEventLoop i c = Ret l -> reachable l s ->
  exists k, Inv k s /\ Z.of_nat k < max_i64.
Proof.
  intros Hl (k & Hs & Hk). exists k. split; [|done].
  apply (nsteps_invariant step Inv k (initial_sys l) s); [|by eapply initial_inv|done].
  intros j x y Hj HI Hxy. eapply step_inv; [lia|done|done].
Qed.

(** What a producer's program point says about the flags and the claims. *)
Definition pflag (c : EventLoopConfig) (l : EventLoop) (cl : list (option Event))
    (p : pstate) : Prop :=
  match p with
  | PLoop _ | PLoopCtx _ => Backpressure c <> BackpressureDrop
  | PExit _ => Backpressure c <> BackpressureDrop /\ (closed l = true \/ cancelled l = true)
  | PDone ev None =>
      ev ∈ cl \/ (closed l = true /\ Backpressure c <> BackpressureDrop)
  | PClaimed ev _ | PStored ev _ => ev ∈ cl
  | _ => True
  end.

(** Flags only ever rise, and they explain the states that need them. *)
Definition flag_inv (c : EventLoopConfig) (s : sys) : Prop :=
  config (loop s) = c /\
  (forall n, cons s = CExited n -> cancelled (loop s) = true) /\
  (forall t p, prods s !! t = Some p -> pflag c (loop s) (claims s) p).

Lemma pflag_mono c l l' cl cl' p :
  (closed l = true -> closed l' = true) -> (cancelled l = true -> cancelled l' = true) ->
  pflag c l cl p -> pflag c l' (cl ++ cl') p.
Proof.
  intros H1 H2. destruct p as [| | | | | | | | |ev [err|]]; simpl; rewrite ?elem_of_app; tauto.
Qed.

Lemma flags_of_pstep l p l' p' add :
  pstep l p = Some (l', p', add) ->
  config l' = config l /\ closed l' = closed l /\ cancelled l' = cancelled l.
Proof.
  destruct p; simpl; unfold next_returned, count_dropped; intros Hs;
    repeat case_match; simplify_eq/=; done.
Qed.

Lemma flags_of_cstep x l c l' c' add :
  cstep x l c = Some (l', c', add) ->
  config l' = config l /\ closed l' = closed l /\ cancelled l' = cancelled l.
Proof.
  destruct c; simpl; unfold count_processed; intros Hs; repeat case_match; simplify_eq/=; done.
Qed.

Lemma pflag_pstep c l cl p l' p' add :
  config l = c -> pflag c l cl p ->
  pstep l p = Some (l', p', add) -> pflag c l' (cl ++ add) p'.
Proof.
  intros <- Hp Hst.
  destruct p; simpl in *; unfold next_returned, count_dropped in Hst;
    repeat case_match; simplify_eq/=; rewrite ?app_nil_r in *; try congruence; try done;
    try set_solver; try (right; split; intuition congruence); intuition congruence.
Qed.

Lemma flag_inv_step c s s' : flag_inv c s -> step s s' -> flag_inv c s'.
Proof.
  intros (Hc & He & Hp) Hstep.
  destruct Hstep as [s t ev Ht|s t p l' p' cl Ht Hst|s lat l' c' inv Hst|s Hcl|s];
    unfold flag_inv; simpl.
  - split_and!; try done. intros t1 p1. rewrite lookup_insert.
    case_decide; [by intros [= <-]|apply Hp].
  - destruct (flags_of_pstep _ _ _ _ _ Hst) as (E1 & E2 & E3).
    split_and!; [congruence|intros n Hn; rewrite E3; eauto|].
    intros t1 p1. rewrite lookup_insert. case_decide.
    + intros [= <-]. apply Hp in Ht. by eapply pflag_pstep.
    + intros H1%Hp. eapply pflag_mono; [| |exact H1]; congruence.
  - destruct (flags_of_cstep _ _ _ _ _ _ Hst) as (E1 & E2 & E3). split_and!; [congruence| |].
    + intros n ->. rewrite E3. destruct (cons s); simpl in Hst; repeat case_match; simplify_eq; done.
    + intros t1 p1 H1%Hp. rewrite <- (app_nil_r (claims s)).
      eapply pflag_mono; [| |exact H1]; congruence.
  - split_and!; try done. intros t1 p1 H1%Hp. rewrite <- (app_nil_r (claims s)).
    by eapply pflag_mono; [| |exact H1].
  - split_and!; try done. intros t1 p1 H1%Hp. rewrite <- (app_nil_r (claims s)).
    by eapply pflag_mono; [| |exact H1].
Qed.

Lemma reachable_flags i c l s :
  NewEventLoop i c = Ret l -> reachable l s -> flag_inv c s.
Proof.
  intros Hl (k & Hs & _). apply rtc_nsteps_2 in Hs.
  revert Hs. apply (rtc_invariant step (flag_inv c)); [apply flag_inv_step|].
  unfold NewEventLoop in Hl. destruct (NewRingBuffer _ _); simplify_eq/=.
  split_and!; try done.
Qed.

Lemma execs_reachable l al s :
  execs al (initial_sys l) = Some s -> Z.of_nat (length al) < max_i64 -> reachable l s.
Proof. intros Hal Hlen. exists (length al). split; [by apply execs_nsteps|done]. Qed.

(** A two-slot loop and a schedule in which two producers race for the first
    sequence, used to exercise the theorems below. *)
Definition demo_config (bp : BackpressurePolicy) : EventLoopConfig :=
  {| NumLoops := 1; QueueSize := 2; CPUAffinity := false; Backpressure := bp; MetricsOn := true |}.

Definition demo_loop (bp : BackpressurePolicy) : EventLoop :=
  {| id := 0; ringBuffer := mkRingBuffer [None; None] [-1; -1] 2 1 (-1) (-1) YieldWait;
     cancelled := false; config := demo_config bp; closed := false;
     dropped := 0; processed := 0; avgLatency := 0 |}.

Definition demo_event (n : Z) : Event :=
  {| Key := "k"; Address := "a"; Body := n; Headers := None; Handler := Some n |}.

Definition demo_schedule : list action :=
  [ACall 0 (Some (demo_event 0)); ACall 1 (Some (demo_event 1));
   AProd 0; AProd 1; AProd 0; AProd 1; AProd 0; AProd 1;
   AProd 1; AProd 0; AProd 1; AProd 1;
   ACons 5; ACons 5; ACons 5; ACons 5; ACons 5; ACons 5].

Definition demo_state : sys :=
  match execs demo_schedule (initial_sys (demo_loop BackpressureDrop)) with
  | Some s => s
  | None => initial_sys (demo_loop BackpressureDrop)
  end.

Lemma demo_loop_new bp : NewEventLoop 0 (demo_config bp) = Ret (demo_loop bp).
Proof. reflexivity. Qed.

Lemma demo_state_reachable : reachable (demo_loop BackpressureDrop) demo_state.
Proof. eapply (execs_reachable _ demo_schedule); [|done]. vm_compute. reflexivity. Qed.

(** ** Theorems *)

(** C1. In every reachable state the handlers that ran are exactly those of a
    prefix of the claimed events, in claim order: nothing is lost, repeated or
    reordered, and the prefix contains every sequence already consumed. *)
Theorem handlers_in_claim_order i c l s :
  NewEventLoop i c = Ret l -> reachable l s ->
  exists n, invoked s = List.filter callable (take n (claims s)) /\
    gating (ringBuffer (loop s)) + 1 <= Z.of_nat n <= Z.of_nat (length (claims s)).
Proof.
  intros Hl Hs. destruct (reachable_inv _ _ _ _ Hl Hs) as (k & [Hri Hci] & _).
  pose proof (cdone_claims _ _ _ _ _ _ Hri Hci) as Hd. destruct Hci as (Hpos & Hinv & _).
  exists (Z.to_nat (cdone (cons s))). split; [done|].
  destruct (cons s); simpl in *; lia.
Qed.

Lemma handlers_in_claim_order_witness :
  exists n, invoked demo_state = List.filter callable (take n (claims demo_state)) /\
    0 + 1 <= Z.of_nat n <= 1.
Proof.
  destruct (handlers_in_claim_order 0 (demo_config BackpressureDrop) _ _
    (demo_loop_new _) demo_state_reachable) as (n & H1 & H2).
  exists n. split; [exact H1|]. vm_compute in H2. exact H2.
Defined.

(** The claimed but unconsumed sequences never exceed the ring's size, each is
    held by at most one producer until published, and no two of them share a
    slot: a producer's store never hits a slot that still has to be read. *)
Theorem claims_are_exclusive i c l s t ev q :
  NewEventLoop i c = Ret l -> reachable l s ->
  (prods s !! t = Some (PClaimed ev q) \/ prods s !! t = Some (PStored ev q)) ->
  let rb := ringBuffer (loop s) in
  cursor rb - gating rb <= bufferSize rb /\
  gating rb < q <= cursor rb /\
  (forall t' p, prods s !! t' = Some p -> owned p = Some q -> t' = t) /\
  (forall q', gating rb < q' <= cursor rb -> slot rb q' = slot rb q -> q' = q).
Proof.
  intros Hl Hs Ht. destruct (reachable_inv _ _ _ _ Hl Hs) as (k & [[] _] & _). simpl.
  assert (exists p, prods s !! t = Some p /\ owned p = Some q) as (p & Hp & Ho)
    by (destruct Ht; eauto).
  pose proof (owned_pinv _ _ _ _ Ho (ri_prods0 _ _ Hp)) as [Hq _].
  split_and!; try lia.
  - intros t' p' Hp' Ho'. eauto using ri_unique0.
  - intros q' Hq' Hsl.
    eapply (slot_inj _ ri_shape0 (gating (ringBuffer (loop s)))); [lia|lia|done].
Qed.

Lemma claims_are_exclusive_witness :
  exists s t ev, reachable (demo_loop BackpressureDrop) s /\
    prods s !! t = Some (PClaimed ev 0) /\
    (forall q', gating (ringBuffer (loop s)) < q' <= cursor (ringBuffer (loop s)) ->
       slot (ringBuffer (loop s)) q' = slot (ringBuffer (loop s)) 0 -> q' = 0).
Proof.
  destruct (execs (take 9 demo_schedule) (initial_sys (demo_loop BackpressureDrop))) as [s|] eqn:E;
    [|vm_compute in E; discriminate E].
  assert (reachable (demo_loop BackpressureDrop) s) as Hr by (eapply execs_reachable; [exact E|done]).
  assert (prods s !! 1%nat = Some (PClaimed (Some (demo_event 1)) 0)) as Hp.
  { vm_compute in E. injection E as <-. reflexivity. }
  exists s, 1%nat, (Some (demo_event 1)). split; [exact Hr|]. split; [exact Hp|].
  apply (claims_are_exclusive 0 _ _ _ _ _ _ (demo_loop_new _) Hr (or_introl Hp)).
Defined.

(** Under the drop policy an event is refused as QUEUE_FULL only at a moment
    when every slot of the ring is claimed and unconsumed; under the blocking
    policies it is never refused that way. *)
Theorem queue_full_is_full i c l s t p l' ev add :
  NewEventLoop i c = Ret l -> reachable l s ->
  prods s !! t = Some p -> pstep (loop s) p = Some (l', PDone ev (Some QUEUE_FULL), add) ->
  Backpressure c = BackpressureDrop /\
  cursor (ringBuffer (loop s)) - gating (ringBuffer (loop s)) = bufferSize (ringBuffer (loop s)).
Proof.
  intros Hl Hs Hp Hst. destruct (reachable_inv _ _ _ _ Hl Hs) as (k & [Hri _] & Hk).
  destruct (reachable_flags _ _ _ _ Hl Hs) as (<- & _ & _).
  pose proof (ri_prods _ _ _ _ Hri _ _ Hp) as Hpi. pose proof (ri_window _ _ _ _ Hri).
  pose proof (ri_count _ _ _ _ Hri). pose proof (ri_shape _ _ _ _ Hri) as Hsh.
  destruct p as [e|e|e|e|e|e cur|e cur|e q|e q|e err]; simpl in *; try by repeat case_match; simplify_eq.
  - pose proof (ring_full_spec _ cur Hsh ltac:(lia)) as Hf.
    destruct (ring_full _ cur); [|done]. destruct Hf as [Hf _]. specialize (Hf eq_refl).
    unfold next_returned in Hst. simpl in Hst.
    destruct (Backpressure (config (loop s))); simplify_eq. split; [done|]. lia.
  - destruct (Z.eqb_spec (cursor (ringBuffer (loop s))) cur); [|done].
    rewrite i64_id in Hst by (widths; lia). rewrite next_returned_nonneg in Hst by lia. done.
Qed.

(** Three dispatches on a two-slot ring: the third is about to test [gating]. *)
Definition full_schedule : list action :=
  [ACall 0 (Some (demo_event 0)); AProd 0; AProd 0; AProd 0; AProd 0;
   ACall 1 (Some (demo_event 1)); AProd 1; AProd 1; AProd 1; AProd 1;
   ACall 2 (Some (demo_event 2)); AProd 2; AProd 2].

Lemma queue_full_is_full_witness :
  exists s l' ev add, reachable (demo_loop BackpressureDrop) s /\
    pstep (loop s) (PLoaded ev 1) = Some (l', PDone ev (Some QUEUE_FULL), add) /\
    cursor (ringBuffer (loop s)) - gating (ringBuffer (loop s)) = bufferSize (ringBuffer (loop s)).
Proof.
  destruct (execs full_schedule (initial_sys (demo_loop BackpressureDrop))) as [s|] eqn:E;
    [|vm_compute in E; discriminate E].
  assert (reachable (demo_loop BackpressureDrop) s) as Hr by (eapply execs_reachable; [exact E|done]).
  assert (prods s !! 2%nat = Some (PLoaded (Some (demo_event 2)) 1)) as Hp
    by (vm_compute in E; injection E as <-; reflexivity).
  assert (pstep (loop s) (PLoaded (Some (demo_event 2)) 1) =
    Some (count_dropped (loop s), PDone (Some (demo_event 2)) (Some QUEUE_FULL), [])) as Hst
    by (vm_compute in E; injection E as <-; reflexivity).
  exists s, (count_dropped (loop s)), (Some (demo_event 2)), []. split; [exact Hr|]. split; [exact Hst|].
  apply (queue_full_is_full 0 _ _ _ _ _ _ _ _ (demo_loop_new _) Hr Hp Hst).
Defined.

(** When Dispatch returns nil its event has been claimed, except in a loop
    under a blocking policy that has been closed. *)
Theorem dispatch_nil_enqueued i c l s t ev :
  NewEventLoop i c = Ret l -> reachable l s ->
  prods s !! t = Some (PDone ev None) ->
  ev ∈ claims s \/ (closed (loop s) = true /\ Backpressure c <> BackpressureDrop).
Proof.
  intros Hl Hs Ht. destruct (reachable_flags _ _ _ _ Hl Hs) as (_ & _ & Hp). apply (Hp _ _ Ht).
Qed.

Lemma dispatch_nil_enqueued_witness :
  prods demo_state !! 1%nat = Some (PDone (Some (demo_event 1)) None) /\
  (Some (demo_event 1) ∈ claims demo_state \/
   (closed (loop demo_state) = true /\ BackpressureDrop <> BackpressureDrop)).
Proof.
  assert (prods demo_state !! 1%nat = Some (PDone (Some (demo_event 1)) None)) as Hp
    by (vm_compute; reflexivity).
  split; [exact Hp|].
  exact (dispatch_nil_enqueued 0 _ _ _ _ _ (demo_loop_new _) demo_state_reachable Hp).
Defined.

(** The exception is real: with the default blocking policy, a Dispatch that
    overlaps Close between its swap of the closed flag and its cancellation of
    the context returns nil although the event was never claimed. *)
Theorem dispatch_nil_lost_on_close ev :
  exists s, reachable (demo_loop BackpressureBlock) s /\
    prods s !! 0%nat = Some (PDone ev None) /\ claims s = [] /\ invoked s = [].
Proof.
  destruct (execs [ACall 0 ev; AProd 0; AClose; AProd 0; AProd 0]
    (initial_sys (demo_loop BackpressureBlock))) as [s|] eqn:E; [|discriminate E].
  exists s. split; [by eapply execs_reachable|]. vm_compute in E. injection E as <-. done.
Qed.

(** ** The abstract bounded queue *)

(** A place of the queue: taken by a producer that has not published yet,
    holding a published event, or holding an event whose handler has run and
    which waits for the consumer to give the place back. *)
Inductive cell : Type :=
| Reserved (ev : option Event)
| Ready (ev : option Event)
| Handled (ev : option Event).

(** A queue of at most [N] places; the second component is what was handed to
    the handlers.  Places are taken at the back, published in any order, and
    handled and released at the front only. *)
Inductive queue_step (N : Z) : relation (list cell * list (option Event)) :=
| q_reserve q out ev :
    Z.of_nat (length q) < N -> queue_step N (q, out) (q ++ [Reserved ev], out)
| q_publish q out i ev :
    q !! i = Some (Reserved ev) -> queue_step N (q, out) (<[i := Ready ev]> q, out)
| q_handle ev q out : queue_step N (Ready ev :: q, out) (Handled ev :: q, out ++ [ev])
| q_release ev q out : queue_step N (Handled ev :: q, out) (q, out).

(** The place of sequence [q], in slot [q mod bufferSize] of the two arrays of
    the ring: a ready or handled event is in [buffer] with its sequence in
    [available]; a reserved place is not marked, and the event is still in the
    hands of the one producer that claimed it. *)
Definition place_ok (s : sys) (q : Z) (c : cell) : Prop :=
  let rb := ringBuffer (loop s) in
  let j := Z.to_nat (q mod bufferSize rb) in
  match c with
  | Reserved ev =>
      available rb !! j <> Some q /\
      exists t, prods s !! t = Some (PClaimed ev q) \/ prods s !! t = Some (PStored ev q)
  | Ready ev | Handled ev => available rb !! j = Some q /\ buffer rb !! j = Some ev
  end.

(** The queue [q] is what the ring's arrays hold between [gating] and [cursor]. *)
Definition represents (s : sys) (q : list cell) : Prop :=
  let rb := ringBuffer (loop s) in
  Z.of_nat (length q) = cursor rb - gating rb /\
  forall i c, q !! i = Some c -> place_ok s (gating rb + 1 + Z.of_nat i) c.

Definition cell_at (rb : RingBuffer Event) (d q : Z) (ev : option Event) : cell :=
  if q <? d then Handled ev else if published rb q then Ready ev else Reserved ev.

Definition cells (rb : RingBuffer Event) (d : Z) (cl : list (option Event)) : list cell :=
  imap (fun i => cell_at rb d (gating rb + 1 + Z.of_nat i)) (drop (Z.to_nat (gating rb + 1)) cl).

(** The queue a state of the loop stands for. *)
Definition abstraction (s : sys) : list cell * list (option Event) :=
  (cells (ringBuffer (loop s)) (cdone (cons s)) (claims s),
   take (Z.to_nat (cdone (cons s))) (claims s)).

Lemma cells_lookup rb d cl i :
  -1 <= gating rb ->
  cells rb d cl !! i =
  cell_at rb d (gating rb + 1 + Z.of_nat i) <$> cl !! Z.to_nat (gating rb + 1 + Z.of_nat i).
Proof.
  intros Hg. unfold cells. rewrite list_lookup_imap, lookup_drop. do 2 f_equal. lia.
Qed.

Lemma cells_length rb d cl :
  -1 <= gating rb -> Z.of_nat (length cl) = cursor rb + 1 -> gating rb <= cursor rb ->
  Z.of_nat (length (cells rb d cl)) = cursor rb - gating rb.
Proof. intros ? ? ?. unfold cells. rewrite length_imap, length_drop. lia. Qed.

Section abstraction_steps.
Context (k : nat) (rb : RingBuffer Event) (cl : list (option Event)) (ps : gmap nat pstate).
Context (inv : list (option Event)) (c : cstate).
Context (Hri : ring_inv k rb cl ps) (Hci : cinv rb cl inv c).

Lemma abs_claim ev t :
  ps !! t = Some (PGated ev (cursor rb)) ->
  let d := cdone c in
  queue_step (bufferSize rb) (cells rb d cl, take (Z.to_nat d) cl)
    (cells (set_cursor rb (cursor rb + 1)) d (cl ++ [ev]), take (Z.to_nat d) (cl ++ [ev])).
Proof using Hri Hci.
  intros Ht d. pose proof (cdone_claims _ _ _ _ _ _ Hri Hci) as Hd. destruct Hri.
  apply ri_prods0 in Ht as [_ Hg]. rewrite take_app_le by (unfold d; lia).
  assert (cells (set_cursor rb (cursor rb + 1)) d (cl ++ [ev]) = cells rb d cl ++ [Reserved ev]) as ->.
  { unfold cells; simpl. rewrite drop_app_le by lia. rewrite imap_app. simpl. f_equal. f_equal.
    rewrite length_drop, Nat.add_0_r.
    replace (gating rb + 1 + Z.of_nat (length cl - Z.to_nat (gating rb + 1))) with (cursor rb + 1) by lia.
    unfold cell_at, d. destruct (Z.ltb_spec (cursor rb + 1) (cdone c)); [lia|].
    unfold published. simpl. change (slot (set_cursor rb _) ?q) with (slot rb q).
    destruct (available rb !! slot rb (cursor rb + 1)) as [v|] eqn:Hv; [|done].
    apply ri_avail0 in Hv. zcase; [lia|done]. }
  constructor. rewrite cells_length by lia. lia.
Qed.

(** A producer that owns [q] owns a place that is not published, so the
    consumer has not reached it. *)
Lemma unpublished_not_done q :
  gating rb < q -> published rb q = false -> cdone c <= q.
Proof using Hri Hci.
  intros Hq Hp. destruct Hci as (Hpos & _ & Hc). destruct c as [n|n|n|n e|n|n|n]; simpl in *; try lia.
  all: destruct (decide (q = n)) as [->|]; [|lia]; intuition congruence.
Qed.

Lemma abs_publish ev q t :
  ps !! t = Some (PStored ev q) ->
  let d := cdone c in
  queue_step (bufferSize rb) (cells rb d cl, take (Z.to_nat d) cl)
    (cells (mark_available rb q) d cl, take (Z.to_nat d) cl).
Proof using Hri Hci.
  intros Ht d. destruct Hri. destruct (ri_prods0 _ _ Ht) as (Hq & Hcl & Hnp & _).
  pose proof (unpublished_not_done q ltac:(lia) Hnp) as Hdq.
  set (i := Z.to_nat (q - gating rb - 1)).
  assert (gating rb + 1 + Z.of_nat i = q) as Hi by (unfold i; lia).
  assert (cells (mark_available rb q) d cl = <[i := Ready ev]> (cells rb d cl)) as ->.
  { apply list_eq. intros j. rewrite cells_lookup by (simpl; lia). simpl.
    destruct (decide (j = i)) as [->|Hne].
    - rewrite Hi, Hcl. simpl. rewrite list_lookup_insert_eq.
      + f_equal. unfold cell_at. destruct (Z.ltb_spec q d); [lia|].
        by rewrite (published_mark rb ri_shape0 (gating rb)), Z.eqb_refl by lia.
      + apply Nat2Z.inj_lt. rewrite cells_length by lia. lia.
    - rewrite list_lookup_insert_ne by done. rewrite cells_lookup by lia.
      destruct (cl !! Z.to_nat (gating rb + 1 + Z.of_nat j)) as [e|] eqn:He; [|done].
      apply lookup_lt_Some in He. simpl. f_equal. unfold cell_at.
      rewrite (published_mark rb ri_shape0 (gating rb)) by lia.
      by destruct (Z.eqb_spec (gating rb + 1 + Z.of_nat j) q); [lia|]. }
  apply q_publish. rewrite cells_lookup by lia. rewrite Hi, Hcl. simpl. f_equal.
  unfold cell_at. destruct (Z.ltb_spec q d); [lia|]. by rewrite Hnp.
Qed.

Lemma cells_head d ev :
  cl !! Z.to_nat (gating rb + 1) = Some ev ->
  cells rb d cl = cell_at rb d (gating rb + 1) ev ::
    imap (fun i => cell_at rb d (gating rb + 2 + Z.of_nat i)) (drop (S (Z.to_nat (gating rb + 1))) cl).
Proof using Type.
  intros Hev. unfold cells. rewrite (drop_S _ _ _ Hev), imap_cons. f_equal.
  - f_equal. lia.
  - apply imap_ext. intros j x _. simpl. f_equal. lia.
Qed.

Lemma abs_handle n ev :
  c = CRun n ev ->
  queue_step (bufferSize rb) (cells rb n cl, take (Z.to_nat n) cl)
    (cells rb (n + 1) cl, take (Z.to_nat (n + 1)) cl).
Proof using Hri Hci.
  intros ->. destruct Hri, Hci as (Hpos & _ & Hle & Hpub & Hev). simpl in *. subst n.
  replace (Z.to_nat (gating rb + 1 + 1)) with (S (Z.to_nat (gating rb + 1))) by lia.
  rewrite (take_S_r _ _ _ Hev), !(cells_head _ _ Hev). unfold cell_at at 1 3.
  destruct (Z.ltb_spec (gating rb + 1) (gating rb + 1)); [lia|]. rewrite Hpub.
  destruct (Z.ltb_spec (gating rb + 1) (gating rb + 1 + 1)); [|lia].
  erewrite (imap_ext _ (fun i => cell_at rb (gating rb + 1 + 1) (gating rb + 2 + Z.of_nat i))); [constructor|].
  intros j x _. unfold cell_at.
  destruct (Z.ltb_spec (gating rb + 2 + Z.of_nat j) (gating rb + 1)); [lia|].
  by destruct (Z.ltb_spec (gating rb + 2 + Z.of_nat j) (gating rb + 1 + 1)); [lia|].
Qed.

Lemma abs_release n :
  c = CConsume n ->
  queue_step (bufferSize rb) (cells rb (n + 1) cl, take (Z.to_nat (n + 1)) cl)
    (cells (set_gating rb n) (n + 1) cl, take (Z.to_nat (n + 1)) cl).
Proof using Hri Hci.
  intros ->. destruct Hri, Hci as (Hpos & _ & Hle & Hpub). simpl in *. subst n.
  destruct (lookup_lt_is_Some_2 cl (Z.to_nat (gating rb + 1)) ltac:(lia)) as [ev Hev].
  rewrite (cells_head _ _ Hev). unfold cell_at at 1.
  destruct (Z.ltb_spec (gating rb + 1) (gating rb + 1 + 1)); [|lia].
  assert (cells (set_gating rb (gating rb + 1)) (gating rb + 1 + 1) cl =
    imap (fun i => cell_at rb (gating rb + 1 + 1) (gating rb + 2 + Z.of_nat i))
      (drop (S (Z.to_nat (gating rb + 1))) cl)) as ->; [|constructor].
  unfold cells. simpl. replace (Z.to_nat (gating rb + 1 + 1)) with (S (Z.to_nat (gating rb + 1))) by lia.
  apply imap_ext. intros j x _. simpl.
  replace (gating rb + 1 + 1 + Z.of_nat j) with (gating rb + 2 + Z.of_nat j) by lia. done.
Qed.
End abstraction_steps.

Lemma bufferSize_pstep l p l' p' add :
  pstep l p = Some (l', p', add) -> bufferSize (ringBuffer l') = bufferSize (ringBuffer l).
Proof.
  destruct p; simpl; unfold next_returned, count_dropped; intros Hs;
    repeat case_match; simplify_eq/=; done.
Qed.

Lemma bufferSize_cstep x l c l' c' add :
  cstep x l c = Some (l', c', add) -> bufferSize (ringBuffer l') = bufferSize (ringBuffer l).
Proof.
  destruct c; simpl; unfold count_processed; intros Hs; repeat case_match; simplify_eq/=; done.
Qed.

Lemma cells_store rb d cl q ev : cells (store_event rb q ev) d cl = cells rb d cl.
Proof. reflexivity. Qed.

(** One step of the loop is at most one step of the queue. *)
Lemma step_simulation k s s' :
  Z.of_nat k < max_i64 -> Inv k s -> step s s' ->
  bufferSize (ringBuffer (loop s')) = bufferSize (ringBuffer (loop s)) /\
  (abstraction s' = abstraction s \/
   queue_step (bufferSize (ringBuffer (loop s))) (abstraction s) (abstraction s')).
Proof.
  intros Hk [Hri Hci] Hstep. pose proof (ri_count _ _ _ _ Hri) as Hcnt.
  pose proof (ri_window _ _ _ _ Hri) as Hw.
  destruct Hstep as [s t ev Ht|s t p l' p' cl Ht Hst|s lat l' c' inv Hst|s Hcl|s];
    unfold abstraction; simpl; auto.
  - split; [by eapply bufferSize_pstep|].
    destruct p as [e|e|e|e|e|e cur|e cur|e q|e q|e err]; simpl in Hst;
      unfold next_returned, count_dropped in Hst; repeat case_match; simplify_eq/=;
      rewrite ?app_nil_r; auto.
    all: try (match goal with H : (cursor _ =? _) = true |- _ => apply Z.eqb_eq in H as <- end;
      right; rewrite i64_id by (widths; lia); by eapply abs_claim).
    right. by eapply abs_publish.
  - split; [by eapply bufferSize_cstep|]. pose proof Hci as (Hpos & _ & Hc).
    destruct (cons s) as [n|n|n|n ev|n|n|n] eqn:Ecs; simpl in *; unfold count_processed in Hst;
      repeat case_match; simplify_eq/=; auto.
    1-2: right; by eapply abs_handle.
    right. rewrite i64_id by (widths; lia). by eapply abs_release.
Qed.

Lemma published_available (rb : RingBuffer Event) q :
  ring_shape rb -> published rb q = true <-> available rb !! Z.to_nat (q mod bufferSize rb) = Some q.
Proof.
  intros Hsh. unfold published. rewrite <- (slot_mod rb Hsh), Nat2Z.id.
  destruct (available rb !! slot rb q) as [v|]; [|split; congruence].
  rewrite Z.eqb_eq. split; congruence.
Qed.

Lemma abstraction_represents k s : Inv k s -> represents s (abstraction s).1.
Proof.
  intros [Hri Hci]. pose proof Hri as []. split; [apply cells_length; lia|].
  intros i c. simpl. rewrite cells_lookup by lia.
  set (q := gating (ringBuffer (loop s)) + 1 + Z.of_nat i).
  destruct (claims s !! Z.to_nat q) as [ev|] eqn:Hev; [|done]. intros [= <-].
  pose proof (lookup_lt_Some _ _ _ Hev) as Hlt.
  assert (published (ringBuffer (loop s)) q = true ->
    place_ok s q (Ready ev) /\ place_ok s q (Handled ev)) as Hready.
  { intros Hp. destruct (ri_cover0 q ltac:(lia)) as [(t & p & Ht & Ho)|[_ Hget]].
    { apply ri_prods0, (owned_pinv _ _ _ _ Ho) in Ht. intuition congruence. }
    unfold Get in Hget. rewrite Hev, <- (Nat2Z.id (slot _ q)), slot_mod in Hget by done.
    unfold place_ok. by rewrite <- published_available. }
  unfold cell_at. destruct (Z.ltb_spec q (cdone (cons s))) as [Hd|Hd].
  - apply Hready. destruct (published _ q) eqn:Hp; [done|].
    pose proof (unpublished_not_done k _ _ _ _ _ Hri Hci q ltac:(lia) Hp). lia.
  - destruct (published _ q) eqn:Hp; [by apply Hready|]. split.
    + rewrite <- published_available by done. congruence.
    + destruct (ri_cover0 q ltac:(lia)) as [(t & p & Ht & Ho)|[? _]]; [|congruence].
      exists t. pose proof (ri_prods0 _ _ Ht) as Hpi.
      destruct p; simplify_eq/=; destruct Hpi as (_ & Hcl & _);
        rewrite Hcl in Hev; injection Hev as ->; auto.
Qed.

(** C3. The disruptor ring refines a bounded FIFO queue: whatever the
    interleaving of atomic operations, there is an execution of the abstract
    queue, never longer than the ring, whose places are exactly what the
    ring's arrays hold between the gating sequence and the cursor (published
    events in their slots, marked with their sequences; unpublished ones with
    the producer that claimed them); the handlers that ran are those of the
    events the queue handed out, in order, and the event the consumer has read
    and is about to handle is the published event at the front. *)
Theorem ring_refines_bounded_queue i c l s :
  NewEventLoop i c = Ret l -> reachable l s ->
  exists q out,
    rtc (queue_step (bufferSize (ringBuffer l))) ([], []) (q, out) /\
    represents s q /\
    invoked s = List.filter callable out /\
    forall n ev, cons s = CRun n ev -> head q = Some (Ready ev).
Proof.
  intros Hl (k & Hs & Hk).
  destruct (nsteps_invariant step (fun k s => Inv k s /\
    bufferSize (ringBuffer (loop s)) = bufferSize (ringBuffer l) /\
    rtc (queue_step (bufferSize (ringBuffer l))) ([], []) (abstraction s)) k (initial_sys l) s)
    as (HI & _ & Hrtc); [| |done|].
  - intros j x y Hj (HI & HB & HR) Hxy.
    destruct (step_simulation j x y ltac:(lia) HI Hxy) as [HB' Hsim].
    split_and!; [eapply step_inv; [lia|done|done]|congruence|].
    rewrite HB in Hsim. destruct Hsim as [->|Hq]; [done|]. by eapply rtc_r.
  - split_and!; [by eapply initial_inv|done|].
    unfold abstraction, cells; simpl. rewrite drop_nil. constructor.
  - exists (abstraction s).1, (abstraction s).2. split; [done|].
    split; [by eapply abstraction_represents|]. destruct HI as [Hri Hci]. pose proof Hri as [].
    pose proof Hci as (Hpos & Hinv & Hc). split; [done|]. intros n ev Hcons. simpl.
    rewrite Hcons in *. destruct Hc as (? & Hp & Hev). simpl in *. subst n.
    rewrite (cells_head _ _ _ _ Hev). simpl. unfold cell_at. rewrite Hp.
    by destruct (Z.ltb_spec (gating (ringBuffer (loop s)) + 1) (gating (ringBuffer (loop s)) + 1)); [lia|].
Qed.

Lemma ring_refines_bounded_queue_witness :
  exists q out,
    rtc (queue_step 2) ([], []) (q, out) /\ represents demo_state q /\
    [Some (demo_event 1)] = List.filter callable out.
Proof.
  destruct (ring_refines_bounded_queue 0 _ _ _ (demo_loop_new _) demo_state_reachable)
    as (q & out & H1 & H2 & H3 & _).
  exists q, out. split; [exact H1|]. split; [exact H2|]. rewrite <- H3. vm_compute. reflexivity.
Defined.
