(* ===== verification/EventLoopLiveness.v ===== *)
(** * Progress of the event loop

    While its context is live, a loop can always run its backlog to the end:
    from every reachable state some continuation hands every claimed event to
    its handler, without a further claim. *)
From S2P Require Import Prelude RingBuffer EventLoop EventLoopSafety.

(** The states of a backlog run: the invariant holds, the loop is live. *)
Definition live (s : sys) : Prop :=
  (exists k, Inv k s /\ Z.of_nat k < max_i64) /\
  cancelled (loop s) = false /\ (forall n, cons s <> CExited n).

Definition same_ring_ends (s s' : sys) : Prop :=
  claims s' = claims s /\
  cursor (ringBuffer (loop s')) = cursor (ringBuffer (loop s)) /\
  gating (ringBuffer (loop s')) = gating (ringBuffer (loop s)).

Lemma ring_inv_recount k k' rb cl ps :
  ring_inv k' rb cl ps -> cursor rb + 1 <= Z.of_nat k -> ring_inv k rb cl ps.
Proof. intros [] Hk. by split. Qed.

(** A step that claims nothing keeps a live state live. *)
Lemma live_step s s' :
  live s -> step s s' ->
  cursor (ringBuffer (loop s')) = cursor (ringBuffer (loop s)) ->
  cancelled (loop s') = cancelled (loop s) -> (forall n, cons s' <> CExited n) ->
  live s'.
Proof.
  intros [(k & HI & Hk) [Hc _]] Hst Hcur Hcan Hex. split; [|split; [congruence|done]].
  exists k. split; [|done]. pose proof (ri_count _ _ _ _ (proj1 HI)).
  destruct (step_inv _ _ _ Hk HI Hst) as [Hri Hci]. split; [|done].
  eapply ring_inv_recount; [done|]. rewrite Hcur. done.
Qed.

(** The producer of a claimed sequence can publish it. *)
Lemma publish_pending s t p q :
  live s -> prods s !! t = Some p -> owned p = Some q ->
  exists s', rtc step s s' /\ live s' /\ same_ring_ends s s' /\
    published (ringBuffer (loop s')) q = true.
Proof.
  assert (forall s ev q, live s -> prods s !! t = Some (PStored ev q) ->
    exists s', rtc step s s' /\ live s' /\ same_ring_ends s s' /\
      published (ringBuffer (loop s')) q = true) as Hstored.
  { clear. intros s ev q Hl Ht. eexists. split; [eapply rtc_once, step_prod; [done|reflexivity]|].
    split_and!; try done.
    - eapply live_step; [done|eapply step_prod; [done|reflexivity]|done|done|apply Hl].
    - simpl. by rewrite app_nil_r.
    - simpl. destruct Hl as [(k & [[] _] & _) _].
      pose proof (owned_pinv (ringBuffer (loop s)) (claims s) (PStored ev q) q eq_refl (ri_prods _ _ Ht)).
      rewrite (published_mark _ ri_shape (gating (ringBuffer (loop s)))) by lia.
      by rewrite Z.eqb_refl. }
  intros Hl Ht Ho. destruct p; simplify_eq/=; [|by eapply Hstored].
  set (s1 := mkSys (with_ring (loop s) (store_event (ringBuffer (loop s)) q ev))
    (<[t := PStored ev q]> (prods s)) (cons s) (claims s ++ []) (invoked s)).
  assert (step s s1) as Hst by (eapply step_prod; [done|reflexivity]).
  destruct (Hstored s1 ev q) as (s' & H1 & H2 & H3 & H4).
  { eapply live_step; [done|done|done|done|apply Hl]. }
  { simpl. by rewrite lookup_insert_eq. }
  exists s'. split; [by eapply rtc_l|]. split_and!; try done.
  destruct H3 as (E1 & E2 & E3). simpl in *. rewrite app_nil_r in E1. done.
Qed.

(** Steps left before the consumer stores [gating]. *)
Definition crank (c : cstate) : nat :=
  match c with
  | CPoll _ => 6 | CSeen _ => 5 | CGet _ => 4 | CRun _ _ => 3
  | CHandled _ => 2 | CConsume _ => 1 | CExited _ => 0
  end.

(** One consumer step towards consuming the published sequence it waits for. *)
Lemma consumer_step s :
  live s -> gating (ringBuffer (loop s)) < cursor (ringBuffer (loop s)) ->
  published (ringBuffer (loop s)) (gating (ringBuffer (loop s)) + 1) = true ->
  exists s', step s s' /\ live s' /\ claims s' = claims s /\
    cursor (ringBuffer (loop s')) = cursor (ringBuffer (loop s)) /\
    ((gating (ringBuffer (loop s')) = gating (ringBuffer (loop s)) /\
      published (ringBuffer (loop s')) (gating (ringBuffer (loop s)) + 1) = true /\
      (crank (cons s') < crank (cons s))%nat) \/
     gating (ringBuffer (loop s')) = gating (ringBuffer (loop s)) + 1).
Proof.
  intros Hl Hlt Hpub. pose proof Hl as [(k & [Hri Hci] & Hk) [Hcan Hex]].
  destruct Hci as (Hpos & _ & Hc).
  assert (forall l' c' inv, cstep 0 (loop s) (cons s) = Some (l', c', inv) ->
    cursor (ringBuffer l') = cursor (ringBuffer (loop s)) ->
    (forall n, c' <> CExited n) ->
    exists s', step s s' /\ live s' /\ claims s' = claims s /\ loop s' = l' /\ cons s' = c') as Hgo.
  { intros l' c' inv Hs Hcur Hne. eexists. split; [by eapply step_cons|]. simpl.
    split_and!; try done. eapply live_step; [done|by eapply step_cons|done| |done].
    simpl. by destruct (flags_of_cstep _ _ _ _ _ _ Hs) as (_ & _ & ->). }
  destruct (cons s) as [n|n|n|n ev|n|n|n] eqn:Ec; simpl in *.
  - rewrite Hcan in Hgo. edestruct Hgo as (s' & ? & ? & ? & El & Ec'); [done..|].
    exists s'. rewrite El, Ec'. split_and!; try done. left. simpl. split_and!; [done|done|lia].
  - rewrite Hpos, Hpub in Hgo. edestruct Hgo as (s' & ? & ? & ? & El & Ec'); [done..|].
    exists s'. rewrite El, Ec'. split_and!; try done. left. simpl. split_and!; [done|done|lia].
  - pose proof (slot_buffer_lt _ (ri_shape _ _ _ _ Hri) n) as Hsl.
    apply lookup_lt_is_Some_2 in Hsl as [ev Hev]. unfold Get in Hgo. rewrite Hev in Hgo.
    edestruct Hgo as (s' & ? & ? & ? & El & Ec'); [done..|].
    exists s'. rewrite El, Ec'. split_and!; try done. left. simpl. split_and!; [done|done|lia].
  - edestruct Hgo as (s' & ? & ? & ? & El & Ec'); [done..|].
    exists s'. rewrite El, Ec'. split_and!; try done. left. simpl. split_and!; [done|done|lia].
  - edestruct Hgo as (s' & ? & ? & ? & El & Ec'); [done|by rewrite ring_count_processed|done|].
    exists s'. rewrite El, Ec', ring_count_processed. split_and!; try done. left. simpl. split_and!; [done|done|lia].
  - edestruct Hgo as (s' & ? & ? & ? & El & Ec'); [done..|].
    exists s'. rewrite El. split_and!; try done. right. simpl. lia.
  - by destruct (Hex n).
Qed.

(** The consumer consumes one sequence. *)
Lemma consume_one s :
  live s -> gating (ringBuffer (loop s)) < cursor (ringBuffer (loop s)) ->
  exists s', rtc step s s' /\ live s' /\ claims s' = claims s /\
    cursor (ringBuffer (loop s')) = cursor (ringBuffer (loop s)) /\
    gating (ringBuffer (loop s')) = gating (ringBuffer (loop s)) + 1.
Proof.
  intros Hl Hlt.
  assert (exists s', rtc step s s' /\ live s' /\ same_ring_ends s s' /\
    published (ringBuffer (loop s')) (gating (ringBuffer (loop s)) + 1) = true)
    as (s1 & Hr & Hl1 & (E1 & E2 & E3) & Hp).
  { pose proof Hl as [(k & [Hri _] & _) _].
    destruct (ri_cover _ _ _ _ Hri (gating (ringBuffer (loop s)) + 1) ltac:(lia))
      as [(t & p & Ht & Ho)|[Hp _]]; [by eapply publish_pending|].
    exists s. split_and!; done. }
  rewrite <- E3 in Hp, Hlt |- *. rewrite <- E2 in Hlt |- *. rewrite <- E1. clear E1 E2 E3 Hl.
  remember (crank (cons s1)) as m eqn:Hm. revert s1 Hr Hl1 Hp Hlt Hm.
  induction (lt_wf m) as [m _ IH]. intros s1 Hr Hl1 Hp Hlt ->.
  destruct (consumer_step s1 Hl1 Hlt Hp) as (s2 & Hst & Hl2 & Ecl & Ecur & [(Eg & Hp2 & Hrk)|Eg]).
  - rewrite <- Eg in Hp2. destruct (IH _ Hrk s2) as (s' & H1 & H2 & H3 & H4 & H5).
    + by eapply rtc_r.
    + done.
    + done.
    + lia.
    + done.
    + exists s'. split_and!; try done; congruence || lia.
  - exists s2. split_and!; try done. by eapply rtc_r.
Qed.

Lemma drain (m : nat) s :
  live s ->
  cursor (ringBuffer (loop s)) - gating (ringBuffer (loop s)) = Z.of_nat m ->
  exists s', rtc step s s' /\ claims s' = claims s /\
    invoked s' = List.filter callable (claims s).
Proof.
  revert s. induction m as [|m IH]; intros s Hl Hm.
  - exists s. split_and!; try done.
    destruct Hl as [(k & [Hri (Hpos & Hinv & Hc)] & _) _].
    rewrite Hinv, take_ge; [done|]. pose proof (ri_claims _ _ _ _ Hri).
    destruct (cons s); simpl in *; lia.
  - destruct (consume_one s Hl ltac:(lia)) as (s1 & H1 & H2 & H3 & H4 & H5).
    destruct (IH s1 H2 ltac:(lia)) as (s' & R1 & R2 & R3).
    exists s'. split_and!; [by etrans|congruence|congruence].
Qed.

(** ** Theorems *)

(** C24. No claimed event is ever stuck: as long as the loop's context has not been
    cancelled, every reachable state can be continued, without claiming
    anything more, to a state in which the handler of every claimed event has
    run, in claim order. *)
Theorem backlog_drains i c l s :
  NewEventLoop i c = Ret l -> reachable l s -> cancelled (loop s) = false ->
  exists s', rtc step s s' /\ claims s' = claims s /\
    invoked s' = List.filter callable (claims s).
Proof.
  intros Hl Hs Hcan. destruct (reachable_inv _ _ _ _ Hl Hs) as (k & HI & Hk).
  destruct (reachable_flags _ _ _ _ Hl Hs) as (_ & He & _).
  pose proof (ri_window _ _ _ _ (proj1 HI)).
  apply (drain (Z.to_nat (cursor (ringBuffer (loop s)) - gating (ringBuffer (loop s))))); [|lia].
  split; [by exists k|]. split; [done|]. intros n Hn. apply He in Hn. congruence.
Qed.

Lemma backlog_drains_witness :
  exists s s', reachable (demo_loop BackpressureDrop) s /\ claims s <> [] /\ rtc step s s' /\
    invoked s = [] /\ invoked s' = List.filter callable (claims s).
Proof.
  destruct (execs full_schedule (initial_sys (demo_loop BackpressureDrop))) as [s|] eqn:E;
    [|vm_compute in E; discriminate E].
  assert (reachable (demo_loop BackpressureDrop) s) as Hr by (eapply execs_reachable; [exact E|done]).
  assert (claims s <> [] /\ invoked s = [] /\ cancelled (loop s) = false) as (H1 & H2 & H3)
    by (vm_compute in E; injection E as <-; done).
  destruct (backlog_drains 0 _ _ _ (demo_loop_new _) Hr H3) as (s' & R1 & _ & R3).
  exists s, s'. split_and!; assumption.
Defined.

(** Queue sizes up to 2^32 are rounded up to the next power of two, so the
    ring buffer of a validated configuration is always accepted. *)
Theorem nextPow2_correct n :
  1 <= n <= 2 ^ 32 ->
  exists k, 1 <= k <= 32 /\ nextPow2 n = 2 ^ k /\ n <= nextPow2 n /\ (2 < n -> nextPow2 n < 2 * n).
Proof.
  intros Hn. destruct (Z.eq_dec n 1) as [->|Hne].
  { exists 1. split; [lia|]. split; [done|]. split; [done|]. lia. }
  exists (Z.log2_up n). rewrite nextPow2_log2_up by lia.
  pose proof (Z.log2_up_spec n ltac:(lia)) as [Hlo Hhi].
  pose proof (Z.log2_up_pos n ltac:(lia)).
  assert (Z.log2_up n <= 32) by (apply Z.log2_up_le_pow2; lia).
  split; [lia|]. split; [done|]. split; [done|]. intros _.
  replace (Z.log2_up n) with (Z.succ (Z.pred (Z.log2_up n))) by lia.
  rewrite Z.pow_succ_r by lia. lia.
Qed.

Lemma nextPow2_correct_witness :
  nextPow2 4097 = 8192 /\
  exists k, 1 <= k <= 32 /\ nextPow2 4097 = 2 ^ k /\ 4097 <= nextPow2 4097.
Proof.
  split; [reflexivity|].
  destruct (nextPow2_correct 4097 ltac:(lia)) as (k & H1 & H2 & H3 & _). eauto.
Defined.

(** Beyond 2^32 the shifts stop short: a queue size just above 2^33 is rounded
    to a number that is not a power of two, and creating the loop panics. *)
Theorem NewEventLoop_panics_above_2_32 i c :
  QueueSize c = 2 ^ 33 + 1 -> NewEventLoop i c = Panic.
Proof. intros Hq. unfold NewEventLoop. rewrite Hq. reflexivity. Qed.

Lemma NewEventLoop_panics_above_2_32_witness :
  NewEventLoop 0 (mkEventLoopConfig 1 (2 ^ 33 + 1) false BackpressureBlock true) = Panic.
Proof. exact (NewEventLoop_panics_above_2_32 0 (mkEventLoopConfig 1 (2 ^ 33 + 1) false BackpressureBlock true) eq_refl). Defined.
