(* ===== verification/Dispatcher.v ===== *)
(** * Routing events to loops (pkg/core/eventloop/key.go, dispatcher.go, group.go)

    Routing keys, their FNV-1a hash, and the dispatcher that picks the loop of
    an event: by key when there is one, round robin otherwise.  The group is
    the dispatcher over the systems of its loops. *)
From Stdlib Require Import Ascii String.
From S2P Require Import Prelude RingBuffer EventLoop.

#[local] Set Warnings "-clear-no-such-hyp".

(** ** Routing keys *)

Definition keyOrder : list string :=
  ["X-Route-Key"; "X-Flox-ID"; "X-User-ID"; "X-Session-ID"; "X-Request-ID"]%string.

(** The first header of [order] that is present and not empty. *)
Fixpoint first_header (order : list string) (headers : gmap string string) : string :=
  match order with
  | [] => ""
  | key :: order =>
      match headers !! key with
      | Some val => if String.eqb val "" then first_header order headers else val
      | None => first_header order headers
      end
  end.

Definition KeyExtractor : Type :=
  option (gmap string string) -> string -> Z -> string.

Definition DefaultKeyExtractor : KeyExtractor := fun headers _ _ =>
  match headers with
  | None => ""%string
  | Some h => first_header keyOrder h
  end.

(** ** Hashing: FNV-1a on 32 bits, over the bytes of the key *)

Definition fnv_offset32 : Z := 2166136261.

Definition fnv_prime32 : Z := 16777619.

Definition fnv1a_byte (h : Z) (c : ascii) : Z :=
  u32 (Z.lxor h (Z.of_N (N_of_ascii c)) * fnv_prime32).

Definition HashKey (key : string) : Z :=
  if String.eqb key "" then 0
  else fold_left fnv1a_byte (list_ascii_of_string key) fnv_offset32.

(** [hash % uint32(numLoops)] divides by zero when [numLoops] is a multiple of
    2^32. *)
Definition RouteKey (key : string) (numLoops : Z) : outcome Z :=
  if numLoops <=? 0 then Ret 0
  else if String.eqb key "" then Ret 0
  else
    let hash := HashKey key in
    if u32 numLoops =? 0 then Panic
    else
      let modResult := hash mod u32 numLoops in
      if max_i32 <? modResult then Ret (max_i32 mod numLoops)
      else Ret modResult.

Definition ExtractRouteKey (event : Event) (extractor : option KeyExtractor) : string :=
  match extractor with
  | None => DefaultKeyExtractor (Headers event) (Address event) (Body event)
  | Some x => x (Headers event) (Address event) (Body event)
  end.

Definition ValidateKey (key : string) : option EventLoopError :=
  if String.eqb key "" then Some INVALID_KEY else None.

(** ** Envelopes *)

Record EnvelopeData : Type := mkEnvelopeData {
  Topic : string;
  EnvKey : string;
  Data : Z;
  Meta : option (gmap string string)
}.

Definition GetRoutingKey (e : EnvelopeData) : string :=
  if negb (String.eqb (EnvKey e) "") then EnvKey e
  else match Meta e with
       | None => ""%string
       | Some m => first_header keyOrder m
       end.

(** ** The dispatcher *)

Record Dispatcher : Type := mkDispatcher {
  loops : list sys;
  numLoops : Z;
  extractor : KeyExtractor;
  roundRobinCounter : Z
}.

Definition NewDispatcher (ls : list sys) (x : option KeyExtractor) : Dispatcher :=
  {| loops := ls; numLoops := Z.of_nat (length ls);
     extractor := default DefaultKeyExtractor x; roundRobinCounter := 0 |}.

Definition with_counter (d : Dispatcher) (n : Z) : Dispatcher :=
  {| loops := loops d; numLoops := numLoops d; extractor := extractor d;
     roundRobinCounter := n |}.

Definition with_loop (d : Dispatcher) (i : nat) (s : sys) : Dispatcher :=
  {| loops := <[i := s]> (loops d); numLoops := numLoops d; extractor := extractor d;
     roundRobinCounter := roundRobinCounter d |}.

Definition routing_key (d : Dispatcher) (event : Event) : string :=
  if negb (String.eqb (Key event) "") then Key event
  else extractor d (Headers event) (Address event) (Body event).

(** Round robin, under the write lock. *)
Definition round_robin (d : Dispatcher) : Dispatcher * result EventLoopError nat :=
  if numLoops d <=? 0 then (d, Err NO_LOOPS)
  else
    let modResult := roundRobinCounter d mod u64 (numLoops d) in
    let idx := if max_i32 <? modResult then max_i32 mod numLoops d else modResult in
    let d := with_counter d (u64 (roundRobinCounter d + 1)) in
    if idx <? Z.of_nat (length (loops d)) then (d, Ok (Z.to_nat idx)) else (d, Err NO_LOOPS).

(** The choice of [Dispatch]: the index of the loop the event goes to. *)
Definition route (d : Dispatcher) (event : option Event) :
    outcome (Dispatcher * result EventLoopError nat) :=
  match event with
  | None => Ret (d, Err INVALID_EVENT)
  | Some ev =>
      let key := routing_key d ev in
      if negb (String.eqb key "") then
        match RouteKey key (numLoops d) with
        | Panic => Panic
        | Ret idx =>
            if idx <? Z.of_nat (length (loops d)) then Ret (d, Ok (Z.to_nat idx))
            else Ret (round_robin d)
        end
      else Ret (round_robin d)
  end.

(** [Dispatch]: the chosen loop starts a [Dispatch] call [t] of its own. *)
Definition Dispatch (d : Dispatcher) (t : nat) (event : option Event) :
    outcome (Dispatcher * option EventLoopError) :=
  match route d event with
  | Panic => Panic
  | Ret (d', Err e) => Ret (d', Some e)
  | Ret (d', Ok i) =>
      match loops d' !! i with
      | Some s =>
          match exec (ACall t event) s with
          | Some s' => Ret (with_loop d' i s', None)
          | None => Ret (d', None)
          end
      | None => Panic
      end
  end.

Definition DispatchByKey (d : Dispatcher) (key : string) (t : nat) (event : option Event) :
    outcome (Dispatcher * option EventLoopError) :=
  match event with
  | None => Ret (d, Some INVALID_EVENT)
  | Some ev =>
      match RouteKey key (numLoops d) with
      | Panic => Panic
      | Ret idx =>
          if Z.of_nat (length (loops d)) <=? idx then Ret (d, Some INVALID_INDEX)
          else match loops d !! Z.to_nat idx with
               | Some s =>
                   match exec (ACall t event) s with
                   | Some s' => Ret (with_loop d (Z.to_nat idx) s', None)
                   | None => Ret (d, None)
                   end
               | None => Panic
               end
      end
  end.

Definition envelope_event (env : EnvelopeData) : Event :=
  {| Key := GetRoutingKey env; Address := Topic env; Body := Data env;
     Headers := Meta env; Handler := None |}.

Definition DispatchEnvelope (d : Dispatcher) (t : nat) (env : option EnvelopeData) :
    outcome (Dispatcher * option EventLoopError) :=
  match env with
  | None => Ret (d, Some INVALID_ENVELOPE)
  | Some e => Dispatch d t (Some (envelope_event e))
  end.

Definition close_sys (s : sys) : sys :=
  mkSys (Close (loop s)) (prods s) (cons s) (claims s) (invoked s).

(** [Close] of a loop returns nil, so the first error is nil. *)
Definition CloseAll (d : Dispatcher) : Dispatcher :=
  {| loops := map close_sys (loops d); numLoops := numLoops d; extractor := extractor d;
     roundRobinCounter := roundRobinCounter d |}.

Definition AllStats (d : Dispatcher) : list LoopMetrics :=
  map (fun s => EventLoop.Stats (loop s)) (loops d).

(** ** The group *)

(** Loops [i, i+1, ..., i+n-1]. *)
Fixpoint make_loops (c : EventLoopConfig) (i n : nat) : outcome (list sys) :=
  match n with
  | O => Ret []
  | S n =>
      match NewEventLoop (Z.of_nat i) c with
      | Panic => Panic
      | Ret l =>
          match make_loops c (S i) n with
          | Panic => Panic
          | Ret ls => Ret (initial_sys l :: ls)
          end
      end
  end.

(** [maxprocs] stands for [runtime.GOMAXPROCS(0)]. *)
Definition NewEventLoopGroup (c : EventLoopConfig) (maxprocs : Z) :
    outcome (result EventLoopError Dispatcher) :=
  match Validate c with
  | Some e => Ret (Err e)
  | None =>
      let n := if NumLoops c =? 0 then maxprocs else NumLoops c in
      match make_loops c 0 (Z.to_nat n) with
      | Panic => Panic
      | Ret ls => Ret (Ok (NewDispatcher ls (Some DefaultKeyExtractor)))
      end
  end.

(** ** Lemmas *)

Lemma RouteKey_range key n :
  0 < n < 2 ^ 31 -> exists i, RouteKey key n = Ret i /\ 0 <= i < n.
Proof.
  intros Hn. unfold RouteKey. destruct (Z.leb_spec n 0); [lia|].
  destruct (String.eqb key ""); [exists 0; split; [done|lia]|].
  assert (u32 n = n) as -> by (apply Z.mod_small; lia).
  destruct (Z.eqb_spec n 0); [lia|].
  pose proof (Z.mod_pos_bound (HashKey key) n ltac:(lia)).
  destruct (Z.ltb_spec max_i32 (HashKey key mod n)); eauto.
  exists (max_i32 mod n). split; [done|]. apply Z.mod_pos_bound. lia.
Qed.

Lemma first_header_spec order h v :
  v <> ""%string ->
  first_header order h = v <->
  exists pre key post, order = pre ++ key :: post /\ h !! key = Some v /\
    Forall (fun k => h !! k = None \/ h !! k = Some ""%string) pre.
Proof.
  intros Hv. induction order as [|k order IH]; simpl.
  - split; [intros <-; done|]. by intros ([|] & ? & ? & ? & _).
  - destruct (h !! k) as [val|] eqn:Hk; [destruct (String.eqb_spec val "") as [->|Hne]|].
    2: { split.
      - intros ->. exists [], k, order. auto.
      - intros ([|k' pre] & key & post & Heq & Hkey & Hpre); simplify_eq/=; [congruence|].
        inv Hpre. naive_solver congruence. }
    all: rewrite IH; split;
      [intros (pre & key & post & -> & ? & ?); exists (k :: pre), key, post; auto|].
    all: intros ([|k' pre] & key & post & Heq & Hkey & Hpre); simplify_eq/=.
    all: inv Hpre; eauto 8.
Qed.

(** A dispatcher as [NewDispatcher] makes it, with fewer than 2^31 loops. *)
Definition dispatcher_ok (d : Dispatcher) : Prop :=
  numLoops d = Z.of_nat (length (loops d)) /\ 0 < numLoops d < 2 ^ 31 /\
  0 <= roundRobinCounter d < 2 ^ 64.

Lemma round_robin_ok d :
  dispatcher_ok d ->
  round_robin d = (with_counter d (u64 (roundRobinCounter d + 1)),
                   Ok (Z.to_nat (roundRobinCounter d mod numLoops d))) /\
  dispatcher_ok (with_counter d (u64 (roundRobinCounter d + 1))).
Proof.
  intros (Hn & Hr & Hc). unfold round_robin. destruct (Z.leb_spec (numLoops d) 0); [lia|].
  assert (u64 (numLoops d) = numLoops d) as -> by (apply Z.mod_small; lia).
  pose proof (Z.mod_pos_bound (roundRobinCounter d) (numLoops d) ltac:(lia)).
  destruct (Z.ltb_spec max_i32 (roundRobinCounter d mod numLoops d)) as [|_]; [widths; lia|]. simpl.
  destruct (Z.ltb_spec (roundRobinCounter d mod numLoops d) (Z.of_nat (length (loops d)))); [|lia].
  split; [done|]. split_and!; simpl; try lia; apply u64_range.
Qed.

(** The loops a sequence of keyless events goes to. *)
Fixpoint rr_indices (d : Dispatcher) (k : nat) : list nat :=
  match k with
  | O => []
  | S k =>
      match round_robin d with
      | (d', Ok i) => i :: rr_indices d' k
      | (d', Err _) => rr_indices d' k
      end
  end.

Lemma rr_indices_spec k d :
  dispatcher_ok d -> roundRobinCounter d + Z.of_nat k < 2 ^ 64 ->
  rr_indices d k =
    (fun j => Z.to_nat ((roundRobinCounter d + Z.of_nat j) mod numLoops d)) <$> seq 0 k.
Proof.
  revert d. induction k as [|k IH]; intros d Hd Hk; simpl; [done|].
  destruct (round_robin_ok d Hd) as [-> Hd']. f_equal.
  { by rewrite Z.add_0_r. }
  assert (u64 (roundRobinCounter d + 1) = roundRobinCounter d + 1) as E.
  { apply Z.mod_small. destruct Hd as (_ & _ & ?). lia. }
  rewrite E in *. rewrite (IH _ Hd') by (simpl; lia). rewrite <- fmap_S_seq, <- list_fmap_compose.
  apply list_fmap_ext. intros j x _. simpl. do 2 f_equal. lia.
Qed.

(** ** Theorems *)

(** Events with one and the same routing key always go to one and the same
    loop, whatever was dispatched in between, and the round-robin counter is
    not touched. *)
Theorem same_key_same_loop key n :
  key <> ""%string -> 0 < n < 2 ^ 31 ->
  exists i, Z.of_nat i < n /\
    forall d ev, dispatcher_ok d -> numLoops d = n -> routing_key d ev = key ->
      route d (Some ev) = Ret (d, Ok i).
Proof.
  intros Hkey Hn. destruct (RouteKey_range key n Hn) as (i & Hi & Hr).
  exists (Z.to_nat i). split; [lia|]. intros d ev (Hl & _) Hnum Hk. unfold route.
  rewrite Hk, Hnum, Hi. destruct (String.eqb_spec key ""); [done|]. simpl.
  destruct (Z.ltb_spec i (Z.of_nat (length (loops d)))); [done|lia].
Qed.

Definition demo_dispatcher : Dispatcher :=
  match NewEventLoopGroup {| NumLoops := 3; QueueSize := 2; CPUAffinity := false;
    Backpressure := BackpressureBlock; MetricsOn := true |} 8 with
  | Ret (Ok d) => d
  | _ => NewDispatcher [] None
  end.

Lemma demo_dispatcher_ok : dispatcher_ok demo_dispatcher.
Proof. vm_compute. intuition congruence. Qed.

Lemma same_key_same_loop_witness :
  exists i, Z.of_nat i < 3 /\
    route demo_dispatcher (Some (mkEvent "order-17" "a" 0 None None)) = Ret (demo_dispatcher, Ok i).
Proof.
  destruct (same_key_same_loop "order-17" 3 ltac:(done) ltac:(lia)) as (i & Hi & H).
  exists i. split; [exact Hi|]. apply H; [exact demo_dispatcher_ok|reflexivity|reflexivity].
Defined.

(** Round robin is fair: of as many consecutive keyless dispatches as there
    are loops, every loop gets exactly one. *)
Theorem round_robin_fair d :
  dispatcher_ok d -> roundRobinCounter d + numLoops d < 2 ^ 64 ->
  Permutation (rr_indices d (length (loops d))) (seq 0 (length (loops d))).
Proof.
  intros Hd Hk. pose proof Hd as (Hn & Hr & Hc).
  rewrite rr_indices_spec by (done || lia).
  rewrite Hn. apply rotation_perm.
Qed.

Lemma round_robin_fair_witness :
  Permutation (rr_indices demo_dispatcher 3) (seq 0 3).
Proof. exact (round_robin_fair demo_dispatcher demo_dispatcher_ok eq_refl). Defined.

(** An envelope is routed exactly as the event it is turned into: its own key
    first, then the headers in their fixed priority order. *)
Theorem envelope_routing_key d e :
  extractor d = DefaultKeyExtractor ->
  routing_key d (envelope_event e) = GetRoutingKey e /\
  (forall v, v <> ""%string -> GetRoutingKey e = v <->
     EnvKey e = v \/
     (EnvKey e = ""%string /\ exists m pre key post, Meta e = Some m /\
        keyOrder = pre ++ key :: post /\ m !! key = Some v /\
        Forall (fun k => m !! k = None \/ m !! k = Some ""%string) pre)).
Proof.
  intros Hx. split.
  - unfold routing_key, envelope_event; simpl. rewrite Hx.
    destruct (String.eqb_spec (GetRoutingKey e) "") as [E|]; [|done]. simpl.
    unfold GetRoutingKey in *. destruct (String.eqb_spec (EnvKey e) ""); [simpl in *|done].
    by destruct (Meta e).
  - intros v Hv. unfold GetRoutingKey.
    destruct (String.eqb_spec (EnvKey e) "") as [Ek|Ek]; cbn [negb]; [|naive_solver].
    rewrite Ek. destruct (Meta e) as [m|]; [|naive_solver].
    rewrite first_header_spec by done. split.
    + intros (pre & key & post & H). right. split; [done|]. exists m, pre, key, post. tauto.
    + intros [<-|(_ & m' & pre & key & post & [= <-] & H)]; [done|]. eauto.
Qed.

Lemma envelope_routing_key_witness :
  GetRoutingKey (mkEnvelopeData "t" "" 0 (Some {[ "X-User-ID" := "u1"; "X-Flox-ID" := "f9" ]}))%string = "f9"%string /\
  routing_key demo_dispatcher
    (envelope_event (mkEnvelopeData "t" "" 0 (Some {[ "X-User-ID" := "u1"; "X-Flox-ID" := "f9" ]})))%string = "f9"%string.
Proof.
  split; [reflexivity|].
  pose proof (proj1 (envelope_routing_key demo_dispatcher
    (mkEnvelopeData "t" "" 0 (Some {[ "X-User-ID" := "u1"; "X-Flox-ID" := "f9" ]})%string) eq_refl)) as H.
  rewrite H. reflexivity.
Defined.
