(* ===== verification/Mailbox.v ===== *)
(** * Bounded mailbox (pkg/core/concurrency/mailbox_impl.go)

    First the operations as functions, for callers that do not overlap; then the
    atomic steps of overlapping senders, receivers and closers: the load or swap
    of [closed], the channel operation, the update of [size]. *)
From S2P Require Import Prelude.

Record boundedMailbox (M : Type) : Type := mkMailbox {
  ch : list M;            (** the buffered messages, oldest first *)
  chClosed : bool;        (** the channel itself is closed *)
  closed : bool;
  capacity : Z;
  size : Z
}.
Arguments mkMailbox {M}.
Arguments ch {M}.
Arguments chClosed {M}.
Arguments closed {M}.
Arguments capacity {M}.
Arguments size {M}.

Inductive mailbox_error : Type :=
| ErrMailboxClosed
| ErrMailboxFull
| ErrContext (c : ctx_status).

#[export] Instance mailbox_error_eq_dec : EqDecision mailbox_error.
Proof. solve_decision. Defined.

Section mailbox.
Context {M : Type}.
Implicit Types (mb : boundedMailbox M) (msg : M).

Definition NewBoundedMailbox (cap : Z) : outcome (boundedMailbox M) :=
  if cap <=? 0 then Panic
  else Ret {| ch := []; chClosed := false; closed := false; capacity := cap; size := 0 |}.

Definition set_ch mb (q : list M) : boundedMailbox M :=
  {| ch := q; chClosed := chClosed mb; closed := closed mb; capacity := capacity mb; size := size mb |}.

Definition add_size mb (n : Z) : boundedMailbox M :=
  {| ch := ch mb; chClosed := chClosed mb; closed := closed mb; capacity := capacity mb;
     size := size mb +i64 n |}.

Definition has_room mb : bool := Z.of_nat (length (ch mb)) <? capacity mb.

(** The select of [Send]: sending on a closed channel panics. *)
Definition channel_send mb msg : outcome (boundedMailbox M * bool) :=
  if chClosed mb then Panic
  else if has_room mb then Ret (set_ch mb (ch mb ++ [msg]), true)
  else Ret (mb, false).

Definition Send mb msg : outcome (boundedMailbox M * option mailbox_error) :=
  if closed mb then Ret (mb, Some ErrMailboxClosed)
  else
    '(mb, sent) ← channel_send mb msg;
    if (sent : bool) then Ret (add_size mb 1, None) else Ret (mb, Some ErrMailboxFull).

(** The select of [Receive]: what the channel offers, if anything. *)
Definition channel_receive mb : option (boundedMailbox M * option M) :=
  match ch mb with
  | msg :: q => Some (set_ch mb q, Some msg)
  | [] => if chClosed mb then Some (mb, None) else None
  end.

(** [preferCtx] says that the select took the context's case; [None] while the
    call blocks. *)
Definition Receive mb (c : ctx_status) (preferCtx : bool) :
    option (boundedMailbox M * result mailbox_error M) :=
  if closed mb then Some (mb, Err ErrMailboxClosed)
  else if ctx_done c && preferCtx then Some (mb, Err (ErrContext c))
  else
    match channel_receive mb with
    | Some (mb, Some msg) => Some (add_size mb (-1), Ok msg)
    | Some (mb, None) => Some (mb, Err ErrMailboxClosed)
    | None => if ctx_done c then Some (mb, Err (ErrContext c)) else None
    end.

Definition TryReceive mb : boundedMailbox M * result mailbox_error (option M) :=
  if closed mb then (mb, Err ErrMailboxClosed)
  else
    match channel_receive mb with
    | Some (mb, Some msg) => (add_size mb (-1), Ok (Some msg))
    | Some (mb, None) => (mb, Err ErrMailboxClosed)
    | None => (mb, Ok None)
    end.

Definition close_swap mb : boundedMailbox M :=
  {| ch := ch mb; chClosed := chClosed mb; closed := true; capacity := capacity mb; size := size mb |}.

Definition close_channel mb : boundedMailbox M :=
  {| ch := ch mb; chClosed := true; closed := closed mb; capacity := capacity mb; size := size mb |}.

Definition Close mb : boundedMailbox M :=
  if closed mb then mb else close_channel (close_swap mb).

Definition Capacity mb : Z := capacity mb.

Definition Size mb : Z := size mb.

Definition IsClosed mb : bool := closed mb.

(** ** Overlapping calls *)

Inductive mcall : Type :=
| SLoad (msg : M)                (** [Send]: about to load [closed] *)
| SChan (msg : M)                (** about to send *)
| SCount                         (** sent, about to add to [size] *)
| RLoad (try : bool)             (** [Receive], or [TryReceive]: about to load [closed] *)
| RChan (try : bool)             (** at the select *)
| RCount (msg : M)               (** received, about to subtract from [size] *)
| KSwap                          (** [Close]: about to swap [closed] *)
| KChan                          (** about to close the channel *)
| Returned (r : option mailbox_error)
| Panicked.

(** [sent] and [received] record the messages in the order they passed the
    channel. *)
Record msys : Type := mkMsys {
  box : boundedMailbox M;
  callsM : list mcall;
  sent : list M;
  received : list M
}.

(** One step of a call, with the state of its context at that time and whether
    its select takes the context's case when both are ready. A [Receive] at the
    select moves only when the channel or the context has something to offer; a
    [TryReceive] takes the default. *)
Definition mcall_step mb (c : ctx_status) (preferCtx : bool) (p : mcall) : option (boundedMailbox M * mcall * list M * list M) :=
  match p with
  | SLoad msg => Some (mb, if closed mb then Returned (Some ErrMailboxClosed) else SChan msg, [], [])
  | SChan msg =>
      match channel_send mb msg with
      | Panic => Some (mb, Panicked, [], [])
      | Ret (mb, true) => Some (mb, SCount, [msg], [])
      | Ret (mb, false) => Some (mb, Returned (Some ErrMailboxFull), [], [])
      end
  | SCount => Some (add_size mb 1, Returned None, [], [])
  | RLoad try => Some (mb, if closed mb then Returned (Some ErrMailboxClosed) else RChan try, [], [])
  | RChan try =>
      if negb try && ctx_done c && preferCtx then Some (mb, Returned (Some (ErrContext c)), [], [])
      else
        match channel_receive mb with
        | Some (mb, Some msg) => Some (mb, RCount msg, [], [msg])
        | Some (mb, None) => Some (mb, Returned (Some ErrMailboxClosed), [], [])
        | None =>
            if try then Some (mb, Returned None, [], [])
            else if ctx_done c then Some (mb, Returned (Some (ErrContext c)), [], [])
            else None
        end
  | RCount _ => Some (add_size mb (-1), Returned None, [], [])
  | KSwap => if closed mb then Some (mb, Returned None, [], []) else Some (close_swap mb, KChan, [], [])
  | KChan => Some (close_channel mb, Returned None, [], [])
  | Returned _ | Panicked => None
  end.

Record turn : Type := mkTurn { who : nat; context : ctx_status; preferContext : bool }.

Definition msys_step (s : msys) (t : turn) : option msys :=
  match callsM s !! who t with
  | None => None
  | Some p =>
      match mcall_step (box s) (context t) (preferContext t) p with
      | None => None
      | Some (mb, p', out, inn) =>
          Some {| box := mb; callsM := <[who t := p']> (callsM s); sent := sent s ++ out;
                  received := received s ++ inn |}
      end
  end.

Fixpoint msys_run (s : msys) (sched : list turn) : option msys :=
  match sched with
  | [] => Some s
  | t :: sched => match msys_step s t with Some s' => msys_run s' sched | None => None end
  end.

(** ** First in, first out *)

Definition pending_adds (p : mcall) : Z :=
  match p with SCount => 1 | RCount _ => -1 | _ => 0 end.

Definition msys_inv (cap : Z) (s : msys) : Prop :=
  capacity (box s) = cap /\ (min_i64 <= size (box s) <= max_i64) /\ received s ++ ch (box s) = sent s /\
  Z.of_nat (length (ch (box s))) <= cap /\
  i64 (size (box s) + sumZ (pending_adds <$> callsM s)) = i64 (Z.of_nat (length (ch (box s)))).

Lemma msys_step_inv cap s t s' : msys_inv cap s -> msys_step s t = Some s' -> msys_inv cap s'.
Proof.
  intros (H1 & Hr & H2 & H3 & H4) E. unfold msys_step in E.
  destruct (callsM s !! who t) as [p|] eqn:Hp; [|done].
  destruct (mcall_step (box s) (context t) (preferContext t) p) as [[[[mb p'] out] inn]|] eqn:Em; [|done].
  injection E as <-. unfold msys_inv. cbn [box callsM sent received].
  rewrite (sumZ_fmap_insert _ _ _ _ _ Hp).
  assert (forall k, i64 (size (box s) + sumZ (pending_adds <$> callsM s) + k) =
    i64 (Z.of_nat (length (ch (box s))) + k)) as Hk by (intros; by apply i64_add_cong).
  assert (i64 (size (box s) + (sumZ (pending_adds <$> callsM s) - 0 + 0)) =
    i64 (Z.of_nat (length (ch (box s))))) as H0.
  { rewrite <- H4. apply (f_equal i64). lia. }
  destruct p as [msg|msg| |try|try|msg| | |r|]; cbn [mcall_step] in Em; try done.
  - injection Em as <- <- <- <-. rewrite !app_nil_r. by destruct (closed (box s)).
  - unfold channel_send, has_room in Em. destruct (chClosed (box s)).
    { injection Em as <- <- <- <-. by rewrite !app_nil_r. }
    destruct (Z.ltb_spec (Z.of_nat (length (ch (box s)))) (capacity (box s)));
      injection Em as <- <- <- <-; rewrite !app_nil_r; cbn [set_ch ch capacity size pending_adds]; [|done].
    rewrite app_assoc, H2. split_and!; try done; rewrite ?length_app; simpl; [apply Hr..|lia|].
    replace (Z.of_nat (length (ch (box s)) + 1)) with (Z.of_nat (length (ch (box s))) + 1) by lia.
    rewrite <- Hk. apply (f_equal i64). lia.
  - injection Em as <- <- <- <-. rewrite !app_nil_r. split_and!; try done; simpl; [apply i64_range..|].
    rewrite <- H4. wrap_eq.
  - injection Em as <- <- <- <-. rewrite !app_nil_r. by destruct (closed (box s)).
  - destruct (negb try && ctx_done (context t) && preferContext t).
    { injection Em as <- <- <- <-. by rewrite !app_nil_r. }
    unfold channel_receive in Em. destruct (ch (box s)) as [|msg q] eqn:Hq.
    + destruct (chClosed (box s)); [|destruct try; [|destruct (ctx_done (context t)); [|done]]];
        injection Em as <- <- <- <-; rewrite !app_nil_r, Hq; done.
    + injection Em as <- <- <- <-. rewrite app_nil_r, <- app_assoc. simpl in *. split_and!; try done; [apply Hr..|lia|].
      replace (Z.of_nat (length q)) with (Z.of_nat (S (length q)) + -1) by lia.
      rewrite <- Hk. apply (f_equal i64). lia.
  - injection Em as <- <- <- <-. rewrite !app_nil_r. split_and!; try done; simpl; [apply i64_range..|].
    rewrite <- H4. wrap_eq.
  - destruct (closed (box s)); injection Em as <- <- <- <-; by rewrite !app_nil_r.
  - injection Em as <- <- <- <-. by rewrite !app_nil_r.
Qed.

Lemma msys_run_inv cap sched s s' : msys_inv cap s -> msys_run s sched = Some s' -> msys_inv cap s'.
Proof.
  revert s. induction sched as [|t sched IH]; intros s Hs E; simpl in E; [by simplify_eq|].
  destruct (msys_step s t) as [s1|] eqn:E1; [|done]. eapply IH; [|done]. by eapply msys_step_inv.
Qed.
End mailbox.

Arguments mcall M : clear implicits.
Arguments msys M : clear implicits.

(** A turn of call [i] while its context is live. *)
Definition of_call (i : nat) : turn := mkTurn i CtxLive false.

(** A mailbox and calls that have not begun. *)
Definition starts {M} (mb : boundedMailbox M) (ps : list (mcall M)) : msys M :=
  {| box := mb; callsM := ps; sent := []; received := [] |}.

Definition fresh_call {M} (p : mcall M) : Prop :=
  match p with SLoad _ | RLoad _ | KSwap => True | _ => False end.

(** However senders, receivers and closers overlap, the messages received are a
    prefix of the messages sent, in order, the rest is in the channel, the
    channel never holds more than the capacity, and once no call is between its
    channel operation and its counter update, Size is the number of messages in
    the channel. *)
Theorem mailbox_fifo_bounded {M} cap (mb : boundedMailbox M) ps sched s :
  cap <= max_i64 -> NewBoundedMailbox cap = Ret mb -> Forall fresh_call ps ->
  msys_run (starts mb ps) sched = Some s ->
  sent s = received s ++ ch (box s) /\ Z.of_nat (length (ch (box s))) <= cap /\
  (Forall (fun p => pending_adds p = 0) (callsM s) -> Size (box s) = Z.of_nat (length (ch (box s)))).
Proof.
  intros Hcap Hnew Hps Hrun. unfold NewBoundedMailbox in Hnew. destruct (Z.leb_spec cap 0); [done|].
  injection Hnew as <-.
  assert (forall l : list (mcall M), Forall (fun p => pending_adds p = 0) l -> sumZ (pending_adds <$> l) = 0) as Hz.
  { induction 1 as [|p l Hp Hl IH]; [done|]. rewrite sumZ_fmap_cons. lia. }
  assert (msys_inv cap (starts {| ch := []; chClosed := false; closed := false; capacity := cap; size := 0 |} ps)) as Hi.
  { split_and!; simpl; try done; [lia|]. rewrite Hz; [done|].
    eapply Forall_impl; [exact Hps|]. by intros []. }
  destruct (msys_run_inv _ _ _ _ Hi Hrun) as (_ & Hr & H2 & H3 & H4).
  split; [done|]. split; [done|]. intros Hall. rewrite (Hz _ Hall), Z.add_0_r, !i64_id in H4; try done.
  widths. lia.
Qed.

Lemma mailbox_fifo_bounded_witness :
  exists s, msys_run (starts (mkMailbox [] false false 1 0) [SLoad 7; RLoad false; SLoad 8])
    (of_call <$> [0; 0; 2; 0; 2; 1; 1; 1]%nat) = Some s /\
    sent s = received s ++ ch (box s) /\ Z.of_nat (length (ch (box s))) <= 1.
Proof.
  destruct (msys_run (starts (mkMailbox [] false false 1 0) [SLoad 7; RLoad false; SLoad 8])
    (of_call <$> [0; 0; 2; 0; 2; 1; 1; 1]%nat)) as [s|] eqn:E; [|vm_compute in E; discriminate E].
  exists s. split; [reflexivity|].
  destruct (mailbox_fifo_bounded 1 (mkMailbox [] false false 1 0) [SLoad 7; RLoad false; SLoad 8]
    (of_call <$> [0; 0; 2; 0; 2; 1; 1; 1]%nat) s ltac:(discriminate) eq_refl ltac:(repeat constructor) E)
    as (H1 & H2 & _).
  split; [exact H1|exact H2].
Defined.

(** Send loads the closed flag before it touches the channel: when Close runs in
    between, the send hits a closed channel and panics instead of returning
    ErrMailboxClosed. *)
Theorem mailbox_send_panics_on_close {M} cap (mb : boundedMailbox M) msg :
  NewBoundedMailbox cap = Ret mb ->
  exists s, msys_run (starts mb [SLoad msg; KSwap]) (of_call <$> [0; 1; 1; 0]%nat) = Some s /\
    callsM s = [Panicked; Returned None].
Proof.
  intros Hnew. unfold NewBoundedMailbox in Hnew. destruct (Z.leb_spec cap 0); [done|].
  injection Hnew as <-. eexists. by split.
Qed.

Lemma mailbox_send_panics_on_close_witness :
  exists s, msys_run (starts (mkMailbox [] false false 100 0) [SLoad 7; KSwap]) (of_call <$> [0; 1; 1; 0]%nat) = Some s /\
    callsM s = [Panicked; Returned None].
Proof. apply (mailbox_send_panics_on_close 100 (mkMailbox [] false false 100 0) 7). reflexivity. Defined.
