(* ===== verification/Executor.v ===== *)
(** * Executor (pkg/core/concurrency/executor_impl.go)

    The executor and the worker pool (WorkerPool.v) run tasks on worker
    goroutines that receive from one bounded channel.  Their common part, the
    channel with its counters and the worker loop, comes first; the executor,
    with its read-write lock around the closing of the channel, follows as a
    transition system in which any number of callers and workers move one atomic
    operation at a time.  A task is its identity; what it does is not modelled,
    only when it starts and ends. *)
From S2P Require Import Prelude.

(** ** The task channel *)

Record queue : Type := mkQueue {
  queueSize : Z;
  taskChan : list Z;
  chanClosed : bool;
  ctxDone : bool;
  queuedTasks : Z;
  completedTasks : Z;
  rejectedTasks : Z;
  sent : list Z;       (** history: the tasks sent, in order *)
  received : list Z;   (** history: the tasks received by workers, in order *)
  finished : list Z    (** history: the tasks whose execution has ended *)
}.

Definition new_queue (size : Z) : queue :=
  {| queueSize := size; taskChan := []; chanClosed := false; ctxDone := false; queuedTasks := 0;
     completedTasks := 0; rejectedTasks := 0; sent := []; received := []; finished := [] |}.

Definition q_send (q : queue) (t : Z) : queue :=
  {| queueSize := queueSize q; taskChan := taskChan q ++ [t]; chanClosed := chanClosed q;
     ctxDone := ctxDone q; queuedTasks := queuedTasks q; completedTasks := completedTasks q;
     rejectedTasks := rejectedTasks q; sent := sent q ++ [t]; received := received q;
     finished := finished q |}.

Definition q_recv (q : queue) (t : Z) (rest : list Z) : queue :=
  {| queueSize := queueSize q; taskChan := rest; chanClosed := chanClosed q;
     ctxDone := ctxDone q; queuedTasks := queuedTasks q; completedTasks := completedTasks q;
     rejectedTasks := rejectedTasks q; sent := sent q; received := received q ++ [t];
     finished := finished q |}.

(** [atomic.AddInt64] on the three counters. *)
Definition q_count (q : queue) (dq dc dr : Z) : queue :=
  {| queueSize := queueSize q; taskChan := taskChan q; chanClosed := chanClosed q;
     ctxDone := ctxDone q; queuedTasks := queuedTasks q +i64 dq;
     completedTasks := completedTasks q +i64 dc; rejectedTasks := rejectedTasks q +i64 dr;
     sent := sent q; received := received q; finished := finished q |}.

Definition q_finish (q : queue) (t : Z) : queue :=
  {| queueSize := queueSize q; taskChan := taskChan q; chanClosed := chanClosed q;
     ctxDone := ctxDone q; queuedTasks := queuedTasks q; completedTasks := completedTasks q;
     rejectedTasks := rejectedTasks q; sent := sent q; received := received q;
     finished := finished q ++ [t] |}.

Definition q_cancel (q : queue) : queue :=
  {| queueSize := queueSize q; taskChan := taskChan q; chanClosed := chanClosed q;
     ctxDone := true; queuedTasks := queuedTasks q; completedTasks := completedTasks q;
     rejectedTasks := rejectedTasks q; sent := sent q; received := received q;
     finished := finished q |}.

(** Closing a closed channel panics. *)
Definition q_close (q : queue) : outcome queue :=
  if chanClosed q then Panic
  else
    Ret {| queueSize := queueSize q; taskChan := taskChan q; chanClosed := true;
           ctxDone := ctxDone q; queuedTasks := queuedTasks q; completedTasks := completedTasks q;
           rejectedTasks := rejectedTasks q; sent := sent q; received := received q;
           finished := finished q |}.

(** ** Select *)

(** Which case of a [select] is taken, where more than one may be ready. *)
Inductive choice : Type := PickSend | PickRecv | PickDone | PickTimeout | PickDefault.

(** A send is ready when there is room, and on a closed channel, where it panics. *)
Definition send_ready (q : queue) : bool :=
  chanClosed q || (Z.of_nat (length (taskChan q)) <? queueSize q).

Definition try_send (q : queue) (t : Z) : option (outcome queue) :=
  if send_ready q then Some (if chanClosed q then Panic else Ret (q_send q t)) else None.

Definition done_ready (q : queue) : bool := ctxDone q.

Definition default_ready (q : queue) : bool := negb (send_ready q) && negb (done_ready q).

(** ** The worker loop *)

Inductive wpc : Type :=
| WSelect
| WReceived (t : Z)     (** received, not yet counted *)
| WExecuting (t : Z)
| WCompleting (t : Z)   (** the task has returned, not yet counted *)
| WExited.

#[export] Instance wpc_eq_dec : EqDecision wpc.
Proof. solve_decision. Defined.

Definition worker (q : queue) (w : wpc) (c : choice) : option (queue * wpc) :=
  match w with
  | WSelect =>
      match c with
      | PickRecv =>
          match taskChan q with
          | t :: rest => Some (q_recv q t rest, WReceived t)
          | [] => if chanClosed q then Some (q, WExited) else None
          end
      | PickDone => if done_ready q then Some (q, WExited) else None
      | _ => None
      end
  | WReceived t => Some (q_count q (-1) 0 0, WExecuting t)
  | WExecuting t => Some (q_finish q t, WCompleting t)
  | WCompleting t => Some (q_count q 0 1 0, WSelect)
  | WExited => None
  end.

(** ** Errors of the operations *)

Inductive exec_error : Type :=
| ErrNilTask
| ErrTimeoutNotPositive
| ErrExecutorClosed
| ErrNotRunning
| ErrAlreadyRunning
| ErrMailboxFull
| ErrSubmitTimeout
| ErrContext
| ErrShutdownTimeout.

#[export] Instance exec_error_eq_dec : EqDecision exec_error.
Proof. solve_decision. Defined.

(** One task of [SubmitBatch]: a send, or the rejection of the rest. *)
Definition batch_reject (q : queue) (total submitted : Z) : queue :=
  q_count q 0 0 (total - submitted).

(** ** The configuration *)

Record ExecutorConfig : Type := mkExecutorConfig { Workers : Z; QueueSize : Z }.

Definition DefaultExecutorConfig : ExecutorConfig := mkExecutorConfig 10 1000.

Definition normalize (c : ExecutorConfig) : ExecutorConfig :=
  mkExecutorConfig (if Workers c <? 1 then 1 else Workers c)
    (if QueueSize c <? 1 then 100 else QueueSize c).

(** ** What holds of the channel and its workers, whoever calls *)

Definition in_hand (w : wpc) : list Z :=
  match w with WReceived t | WExecuting t => [t] | _ => [] end.

Definition hands (ws : list wpc) : list Z := ws ≫= in_hand.

Definition uncounted_recv (w : wpc) : Z := match w with WReceived _ => 1 | _ => 0 end.

Definition uncounted_done (w : wpc) : Z := match w with WCompleting _ => 1 | _ => 0 end.

Definition sending (pending : Z) (q : queue) (ws : list wpc) : Prop :=
  i64 (queuedTasks q + pending - sumZ (uncounted_recv <$> ws)) = i64 (Z.of_nat (length (taskChan q))) /\
  i64 (completedTasks q + sumZ (uncounted_done <$> ws)) = i64 (Z.of_nat (length (finished q))).

(** Nothing sent is lost, duplicated or reordered on its way to the workers;
    what was received is finished or in the hands of exactly one worker; a
    worker leaves only after cancellation or closing.  [pending] sends have not
    been counted yet. *)
Definition queue_ok (pending : Z) (q : queue) (ws : list wpc) : Prop :=
  sent q = received q ++ taskChan q /\
  Z.of_nat (length (taskChan q)) <= queueSize q /\
  received q ≡ₚ finished q ++ hands ws /\
  (WExited ∈ ws -> ctxDone q = true \/ chanClosed q = true) /\
  sending pending q ws.

(** With one worker the order of execution is the order of sending. *)
Definition single_ok (q : queue) (ws : list wpc) : Prop :=
  match ws with [w] => received q = finished q ++ in_hand w | _ => True end.

Lemma hands_insert ws i w w' :
  ws !! i = Some w -> in_hand w = [] -> hands (<[i := w']> ws) ≡ₚ in_hand w' ++ hands ws.
Proof.
  unfold hands. revert i. induction ws as [|x ws IH]; intros [|i] Hi Hw; simplify_eq/=.
  - by rewrite Hw.
  - rewrite (IH i Hi Hw). solve_Permutation.
Qed.

Lemma hands_drop ws i w w' :
  ws !! i = Some w -> in_hand w' = [] -> hands ws ≡ₚ in_hand w ++ hands (<[i := w']> ws).
Proof.
  unfold hands. revert i. induction ws as [|x ws IH]; intros [|i] Hi Hw; simplify_eq/=.
  - by rewrite Hw.
  - rewrite (IH i Hi Hw). solve_Permutation.
Qed.

Lemma hands_same ws i w w' :
  ws !! i = Some w -> in_hand w' = in_hand w -> hands (<[i := w']> ws) = hands ws.
Proof.
  unfold hands. revert i. induction ws as [|x ws IH]; intros [|i] Hi Hw; simplify_eq/=.
  - by rewrite Hw.
  - by rewrite (IH i Hi Hw).
Qed.

Lemma length_snoc {A} (l : list A) x : Z.of_nat (length (l ++ [x])) = Z.of_nat (length l) + 1.
Proof. rewrite length_app; simpl. lia. Qed.

Lemma i64_sub_cong a b k : i64 a = i64 b -> i64 (a - k) = i64 (b - k).
Proof. apply (i64_add_cong a b (- k)). Qed.

Lemma exited_insert (ws : list wpc) (i : nat) (w' : wpc) : WExited ∈ <[i := w']> ws -> w' <> WExited -> WExited ∈ ws.
Proof.
  intros [j Hj]%list_elem_of_lookup Hw. destruct (decide (i = j)) as [->|Hij].
  - apply list_lookup_insert_Some in Hj as [(_ & -> & _)|[? _]]; congruence.
  - rewrite list_lookup_insert_ne in Hj by done. by eapply list_elem_of_lookup_2.
Qed.

Lemma worker_ok p q ws i w c q' w' :
  queue_ok p q ws -> ws !! i = Some w -> worker q w c = Some (q', w') ->
  queue_ok p q' (<[i := w']> ws).
Proof.
  intros (Hs & Hl & Hr & Hx & Hq & Hc) Hi Hw. unfold queue_ok, sending.
  rewrite !(sumZ_fmap_insert _ ws i w' w Hi).
  destruct w; simpl in Hw; simplify_option_eq.
  - destruct c; simplify_eq.
    + destruct (taskChan q) as [|t rest] eqn:Et; simplify_eq/=.
      * destruct (chanClosed q) eqn:Ec; simplify_eq. try rewrite Et in *. split_and!; try done.
        -- rewrite (hands_same _ _ _ _ Hi); done.
        -- by right.
        -- simpl. by rewrite Z.sub_0_r, Z.add_0_r.
        -- simpl. by rewrite Z.sub_0_r, Z.add_0_r.
      * try rewrite Et in *; simpl in *. split_and!; try lia.
        -- by rewrite <- app_assoc.
        -- rewrite (hands_insert _ _ _ (WReceived t) Hi), Hr; [|done]. simpl. solve_Permutation.
        -- intros He. apply Hx. by eapply exited_insert.
        -- apply (i64_sub_cong _ _ 1) in Hq.
           replace (queuedTasks q + p - (sumZ (uncounted_recv <$> ws) - 0 + 1))
             with (queuedTasks q + p - sumZ (uncounted_recv <$> ws) - 1) by lia.
           rewrite Hq. f_equal. lia.
        -- by rewrite Z.sub_0_r, Z.add_0_r.
    + destruct (done_ready q) eqn:Ed; simplify_eq. split_and!; try done.
      * rewrite (hands_same _ _ _ _ Hi); done.
      * intros _. by left.
      * simpl. by rewrite Z.sub_0_r, Z.add_0_r.
      * simpl. by rewrite Z.sub_0_r, Z.add_0_r.
  - split_and!; try done; simpl.
    + rewrite (hands_same _ _ _ _ Hi); done.
    + intros He. apply Hx. by eapply exited_insert.
    + rewrite <- Hq. wrap_eq.
    + rewrite <- Hc. wrap_eq.
  - split_and!; try done; simpl.
    + rewrite Hr. rewrite (hands_drop _ _ _ (WCompleting t) Hi); [|done]. simpl. solve_Permutation.
    + intros He. apply Hx. by eapply exited_insert.
    + rewrite <- Hq. wrap_eq.
    + rewrite length_snoc.
      rewrite <- (i64_add_cong _ _ 1 Hc). f_equal. lia.
  - split_and!; try done; simpl.
    + rewrite (hands_same _ _ _ _ Hi); done.
    + intros He. apply Hx. by eapply exited_insert.
    + rewrite <- Hq. wrap_eq.
    + rewrite <- Hc. wrap_eq.
Qed.

Lemma worker_single q ws i w c q' w' :
  single_ok q ws -> ws !! i = Some w -> worker q w c = Some (q', w') -> single_ok q' (<[i := w']> ws).
Proof.
  intros Hs Hi Hw. destruct ws as [|w0 [|]]; [done| |by destruct i as [|[|]]].
  destruct i; [|done]. simplify_eq/=. destruct w; simplify_eq/=; try done.
  - destruct c; simplify_eq; [destruct (taskChan q); simplify_eq/=|].
    + by destruct (chanClosed q); simplify_eq.
    + rewrite Hs. by rewrite app_nil_r.
    + by destruct (done_ready q); simplify_eq.
  - rewrite Hs. by rewrite app_nil_r.
Qed.

(** The channel's own operations, as the callers use them. *)
Lemma send_ok p q ws t :
  queue_ok p q ws -> send_ready q = true -> chanClosed q = false -> queue_ok (p + 1) (q_send q t) ws.
Proof.
  intros (Hs & Hl & Hr & Hx & Hq & Hc) Hready Hopen. unfold send_ready in Hready.
  rewrite Hopen in Hready; simpl in Hready. apply Z.ltb_lt in Hready.
  split_and!; simpl; try done.
  - by rewrite Hs, app_assoc.
  - rewrite length_app; simpl. lia.
  - unfold sending; simpl. split; [|done]. rewrite length_snoc.
    rewrite <- (i64_add_cong _ _ 1 Hq). f_equal. lia.
Qed.

Lemma q_count_ok p q ws d r :
  queue_ok p q ws -> queue_ok (p - d) (q_count q d 0 r) ws.
Proof.
  intros (Hs & Hl & Hr & Hx & Hq & Hc). split_and!; simpl; try done. unfold sending; simpl. split.
  - rewrite <- Hq. wrap_eq.
  - rewrite <- Hc. wrap_eq.
Qed.

Lemma cancel_ok p q ws : queue_ok p q ws -> queue_ok p (q_cancel q) ws.
Proof. intros (? & ? & ? & ? & ?). split_and!; try done. by left. Qed.

Lemma close_ok p q ws q' : queue_ok p q ws -> q_close q = Ret q' -> queue_ok p q' ws.
Proof.
  unfold q_close. destruct (chanClosed q); intros (? & ? & ? & ? & ?) [= <-].
  split_and!; try done. by right.
Qed.

Lemma new_queue_ok size n : 0 <= size -> queue_ok 0 (new_queue size) (replicate n WSelect).
Proof.
  intros Hs. assert (hands (replicate n WSelect) = []) as Hh by (by induction n).
  split_and!; simpl; try done; rewrite ?Hh; try done.
  - by intros [? _]%elem_of_replicate.
  - unfold sending; simpl. rewrite !fmap_replicate, !sumZ_replicate_0. done.
Qed.

(** ** The executor *)

Module Exec.

Inductive pc : Type :=
| SubmitLock (timed : bool) (t : Z)    (** before [RLock]; [timed]: [SubmitWithTimeout] *)
| SubmitCheck (timed : bool) (t : Z)   (** holds the read lock *)
| SubmitSelect (timed : bool) (t : Z)
| SubmitCount                          (** sent, not yet counted *)
| SubmitUnlock (r : option exec_error)
| BatchCheck (tasks : list (option Z))
| BatchLoop (total submitted : Z) (tasks : list (option Z))
| BatchCount (total submitted : Z) (tasks : list (option Z))
| ShutdownSwap
| ShutdownLock
| ShutdownCancel                       (** holds the write lock *)
| ShutdownClose
| ShutdownUnlock
| ShutdownWait
| Returned (r : option exec_error)
| ShutdownReturned (closer : bool) (r : option exec_error).
(** [closer]: the call won the compare-and-swap of [closed]. *)

#[export] Instance pc_eq_dec : EqDecision pc.
Proof. solve_decision. Defined.

(** Where a call begins, after its checks of the arguments. *)
Definition Submit (task : option Z) : pc :=
  match task with None => Returned (Some ErrNilTask) | Some t => SubmitLock false t end.

Definition SubmitWithTimeout (task : option Z) (timeout : Z) : pc :=
  match task with
  | None => Returned (Some ErrNilTask)
  | Some t => if timeout <=? 0 then Returned (Some ErrTimeoutNotPositive) else SubmitLock true t
  end.

Definition SubmitBatch (tasks : list (option Z)) : pc :=
  match tasks with [] => Returned None | _ => BatchCheck tasks end.

Definition Shutdown : pc := ShutdownSwap.

(** The fields of [defaultExecutor] that callers share. *)
Record shared : Type := mkShared {
  q : queue;
  closed : bool;
  readers : Z;        (** [shutdownMu]: read locks held *)
  writer : bool       (** [shutdownMu]: write lock held *)
}.

Definition set_q (s : shared) (q' : queue) : shared := mkShared q' (closed s) (readers s) (writer s).

(** One atomic operation of a caller; [exited] says whether [wg] is at zero. *)
Definition caller (s : shared) (exited : bool) (p : pc) (c : choice) : option (outcome (shared * pc)) :=
  match p with
  | SubmitLock timed t =>
      if writer s then None
      else Some (Ret (mkShared (q s) (closed s) (readers s + 1) (writer s), SubmitCheck timed t))
  | SubmitCheck timed t =>
      Some (Ret (s, if closed s then SubmitUnlock (Some ErrExecutorClosed) else SubmitSelect timed t))
  | SubmitSelect timed t =>
      match c with
      | PickSend =>
          match try_send (q s) t with
          | Some (Ret q') => Some (Ret (set_q s q', SubmitCount))
          | Some Panic => Some Panic
          | None => None
          end
      | PickDone => if done_ready (q s) then Some (Ret (s, SubmitUnlock (Some ErrContext))) else None
      | PickTimeout =>
          if timed then Some (Ret (set_q s (q_count (q s) 0 0 1), SubmitUnlock (Some ErrSubmitTimeout)))
          else None
      | PickDefault =>
          if negb timed && default_ready (q s)
          then Some (Ret (set_q s (q_count (q s) 0 0 1), SubmitUnlock (Some ErrMailboxFull)))
          else None
      | PickRecv => None
      end
  | SubmitCount => Some (Ret (set_q s (q_count (q s) 1 0 0), SubmitUnlock None))
  | SubmitUnlock r => Some (Ret (mkShared (q s) (closed s) (readers s - 1) (writer s), Returned r))
  | BatchCheck tasks =>
      Some (Ret (s, if closed s then Returned (Some ErrExecutorClosed)
                    else BatchLoop (Z.of_nat (length tasks)) 0 tasks))
  | BatchLoop total submitted [] => Some (Ret (s, Returned None))
  | BatchLoop total submitted (None :: tasks) => Some (Ret (s, BatchLoop total submitted tasks))
  | BatchLoop total submitted (Some t :: tasks) =>
      match c with
      | PickSend =>
          match try_send (q s) t with
          | Some (Ret q') => Some (Ret (set_q s q', BatchCount total submitted tasks))
          | Some Panic => Some Panic
          | None => None
          end
      | PickDone =>
          if done_ready (q s)
          then Some (Ret (set_q s (batch_reject (q s) total submitted), Returned (Some ErrContext)))
          else None
      | PickDefault =>
          if default_ready (q s)
          then Some (Ret (set_q s (batch_reject (q s) total submitted), Returned (Some ErrMailboxFull)))
          else None
      | _ => None
      end
  | BatchCount total submitted tasks =>
      Some (Ret (set_q s (q_count (q s) 1 0 0), BatchLoop total (submitted + 1) tasks))
  | ShutdownSwap =>
      Some (Ret (if closed s then (s, ShutdownReturned false None)
                 else (mkShared (q s) true (readers s) (writer s), ShutdownLock)))
  | ShutdownLock =>
      if writer s || negb (readers s =? 0) then None
      else Some (Ret (mkShared (q s) (closed s) (readers s) true, ShutdownCancel))
  | ShutdownCancel => Some (Ret (set_q s (q_cancel (q s)), ShutdownClose))
  | ShutdownClose =>
      Some (match q_close (q s) with
            | Ret q' => Ret (set_q s q', ShutdownUnlock)
            | Panic => Panic
            end)
  | ShutdownUnlock => Some (Ret (mkShared (q s) (closed s) (readers s) false, ShutdownWait))
  | ShutdownWait =>
      match c with
      | PickDone => if exited then Some (Ret (s, ShutdownReturned true None)) else None
      | PickTimeout => Some (Ret (s, ShutdownReturned true (Some ErrShutdownTimeout)))
      | _ => None
      end
  | Returned _ | ShutdownReturned _ _ => None
  end.

Record sys : Type := mkSys {
  sh : shared;
  workers : list wpc;
  callers : list pc
}.

Definition NewExecutor (c : ExecutorConfig) (cs : list pc) : sys :=
  let c := normalize c in
  mkSys (mkShared (new_queue (QueueSize c)) false 0 false)
    (replicate (Z.to_nat (Workers c)) WSelect) cs.

Definition all_exited (ws : list wpc) : bool := forallb (fun w => bool_decide (w = WExited)) ws.

(** Who moves. *)
Inductive action : Type :=
| ActWorker (i : nat) (c : choice)
| ActCaller (i : nat) (c : choice)
| ActParent.                        (** the context given to [NewExecutor] is cancelled *)

Definition exec_step (s : sys) (a : action) : option (outcome sys) :=
  match a with
  | ActWorker i c =>
      w ← workers s !! i;
      '(q', w') ← worker (q (sh s)) w c;
      Some (Ret (mkSys (set_q (sh s) q') (<[i := w']> (workers s)) (callers s)))
  | ActCaller i c =>
      p ← callers s !! i;
      o ← caller (sh s) (all_exited (workers s)) p c;
      Some (match o with
            | Ret (sh', p') => Ret (mkSys sh' (workers s) (<[i := p']> (callers s)))
            | Panic => Panic
            end)
  | ActParent => Some (Ret (mkSys (set_q (sh s) (q_cancel (q (sh s)))) (workers s) (callers s)))
  end.

(** A schedule; a panic ends the program. *)
Fixpoint run (s : sys) (acts : list action) : option (outcome sys) :=
  match acts with
  | [] => Some (Ret s)
  | a :: acts =>
      match exec_step s a with
      | Some (Ret s') => run s' acts
      | Some Panic => Some Panic
      | None => None
      end
  end.

(** ** Invariant *)

Definition holds_read (p : pc) : Z :=
  match p with SubmitCheck _ _ | SubmitSelect _ _ | SubmitCount | SubmitUnlock _ => 1 | _ => 0 end.

Definition holds_write (p : pc) : Z :=
  match p with ShutdownCancel | ShutdownClose | ShutdownUnlock => 1 | _ => 0 end.

(** A call that is going to close the channel. *)
Definition will_close (p : pc) : Z :=
  match p with ShutdownLock | ShutdownCancel | ShutdownClose => 1 | _ => 0 end.

Definition uncounted (p : pc) : Z := match p with SubmitCount | BatchCount _ _ _ => 1 | _ => 0 end.

Definition is_batch (p : pc) : bool :=
  match p with BatchCheck _ | BatchLoop _ _ _ | BatchCount _ _ _ => true | _ => false end.

Definition b2z (b : bool) : Z := if b then 1 else 0.

Definition lock_ok (s : shared) (cs : list pc) : Prop :=
  readers s = sumZ (holds_read <$> cs) /\
  b2z (writer s) = sumZ (holds_write <$> cs) /\
  (writer s = true -> readers s = 0) /\
  b2z (chanClosed (q s)) + sumZ (will_close <$> cs) <= b2z (closed s).

Definition sub_ok (s : shared) (p : pc) : Prop :=
  match p with
  | SubmitSelect _ _ => chanClosed (q s) = false
  | _ => True
  end.

Definition exec_ok (s : sys) : Prop :=
  queue_ok (sumZ (uncounted <$> callers s)) (q (sh s)) (workers s) /\
  single_ok (q (sh s)) (workers s) /\
  lock_ok (sh s) (callers s) /\
  Forall (sub_ok (sh s)) (callers s) /\
  (ShutdownReturned true None ∈ callers s -> Forall (eq WExited) (workers s)).

(** Case analysis on a step of a caller. *)
Ltac caller_cases H :=
  repeat match type of H with
  | context [match ?x with _ => _ end] => destruct x eqn:?
  end; simplify_eq/=.

Lemma try_send_ret qq t q' :
  try_send qq t = Some (Ret q') -> send_ready qq = true /\ chanClosed qq = false /\ q' = q_send qq t.
Proof. unfold try_send. destruct (send_ready qq), (chanClosed qq) eqn:?; naive_solver. Qed.

Lemma exec_caller_queue s e p c s' p' n ws :
  queue_ok n (q s) ws -> caller s e p c = Some (Ret (s', p')) ->
  queue_ok (n - uncounted p + uncounted p') (q s') ws.
Proof.
  intros Hq Hc. destruct p; simpl in Hc; caller_cases Hc;
    repeat match goal with
    | H : try_send _ _ = Some (Ret _) |- _ => apply try_send_ret in H as (? & ? & ->)
    | H : q_close _ = Ret _ |- _ => eapply close_ok in H; [|exact Hq]
    end;
    rewrite ?Z.sub_0_r, ?Z.add_0_r; try done; eauto using cancel_ok, send_ok, q_count_ok.
  all: try (eapply (q_count_ok n _ _ 0 _) in Hq; by rewrite Z.sub_0_r in Hq).
Qed.

Lemma caller_histories s e p c s' p' :
  caller s e p c = Some (Ret (s', p')) ->
  received (q s') = received (q s) /\ finished (q s') = finished (q s).
Proof.
  intros Hc. destruct p; simpl in Hc; caller_cases Hc; try done;
    repeat match goal with
    | H : try_send _ _ = Some (Ret _) |- _ => apply try_send_ret in H as (? & ? & ->)
    | H : q_close _ = Ret _ |- _ => unfold q_close in H; destruct (chanClosed (q s)); simplify_eq
    end; done.
Qed.

Lemma sumZ_fmap_lookup {A} (f : A -> Z) (l : list A) i x :
  (forall y, 0 <= f y) -> l !! i = Some x -> f x <= sumZ (f <$> l).
Proof.
  intros Hf Hi. pose proof (sumZ_fmap_insert f l i x x Hi) as E.
  rewrite <- (take_drop_middle l i x Hi), fmap_app, sumZ_app, fmap_cons.
  assert (forall k, 0 <= sumZ (f <$> k)) as Hk.
  { intros k. apply sumZ_nonneg, Forall_fmap, Forall_true. intros y. apply Hf. }
  pose proof (Hk (take i l)). pose proof (Hk (drop (S i) l)). unfold sumZ in *; simpl. lia.
Qed.

Lemma holds_nonneg p : 0 <= holds_read p /\ 0 <= holds_write p /\ 0 <= will_close p.
Proof. by destruct p. Qed.

Lemma caller_lock s e p c s' p' cs i :
  lock_ok s cs -> cs !! i = Some p -> caller s e p c = Some (Ret (s', p')) ->
  lock_ok s' (<[i := p']> cs).
Proof.
  intros (Hr & Hw & Hx & Hcl) Hi Hc. unfold lock_ok.
  pose proof (sumZ_fmap_lookup holds_read cs i p (fun y => proj1 (holds_nonneg y)) Hi) as Hr1.
  pose proof (sumZ_fmap_lookup holds_write cs i p (fun y => proj1 (proj2 (holds_nonneg y))) Hi) as Hw1.
  rewrite !(sumZ_fmap_insert _ cs i p' p Hi).
  destruct p; simpl in Hc; caller_cases Hc; simpl;
    repeat match goal with
    | H : try_send _ _ = Some (Ret _) |- _ => apply try_send_ret in H as (? & ? & ->)
    | H : q_close _ = Ret _ |- _ => unfold q_close in H; destruct (chanClosed (q s)) eqn:?; simplify_eq
    | H : _ || _ = false |- _ => apply orb_false_iff in H as [? ?]
    | H : negb _ = false |- _ => apply negb_false_iff in H; apply Z.eqb_eq in H
    | H : ?x = true |- context [?x] => rewrite H
    | H : ?x = false |- context [?x] => rewrite H
    | H : ?x = true, H' : context [?x] |- _ => rewrite H in H'
    | H : ?x = false, H' : context [?x] |- _ => rewrite H in H'
    end; simpl in *;
    repeat match goal with H : chanClosed _ = false |- _ => rewrite H end;
    split_and!; try done; simpl; try lia;
    try (destruct (writer s); simpl in *; lia);
    try (intros Hwr; specialize (Hx Hwr); try rewrite Hwr in *; simpl in *; lia).
Qed.

Lemma caller_closes s e p c s' p' :
  caller s e p c = Some (Ret (s', p')) -> p <> ShutdownClose -> chanClosed (q s') = chanClosed (q s).
Proof.
  intros Hc Hp. destruct p; simpl in Hc; caller_cases Hc; try done;
    by match goal with H : try_send _ _ = Some (Ret _) |- _ => apply try_send_ret in H as (? & ? & ->) end.
Qed.

Lemma sumZ_fmap_zero {A} (f : A -> Z) (l : list A) x :
  (forall y, 0 <= f y) -> sumZ (f <$> l) = 0 -> x ∈ l -> f x = 0.
Proof.
  intros Hf Hs [i Hi]%list_elem_of_lookup. pose proof (sumZ_fmap_lookup f l i x Hf Hi).
  specialize (Hf x). lia.
Qed.

Lemma caller_sub s e p c s' p' cs i :
  lock_ok s cs -> Forall (sub_ok s) cs -> cs !! i = Some p -> caller s e p c = Some (Ret (s', p')) ->
  Forall (sub_ok s') (<[i := p']> cs).
Proof.
  intros Hl Hsub Hi Hc. destruct (decide (p = ShutdownClose)) as [->|Hp].
  - apply Forall_insert.
    + destruct Hl as (Hr & Hw & Hx & _).
      pose proof (sumZ_fmap_lookup holds_write cs i _ (fun y => proj1 (proj2 (holds_nonneg y))) Hi) as Hw1.
      assert (writer s = true) as Hwr by (destruct (writer s); simpl in *; [done|lia]).
      rewrite (Hx Hwr) in Hr. apply Forall_forall. intros x Hin.
      pose proof (sumZ_fmap_zero holds_read cs x (fun y => proj1 (holds_nonneg y)) (eq_sym Hr) Hin).
      by destruct x.
    + simpl in Hc. caller_cases Hc. done.
  - pose proof (caller_closes _ _ _ _ _ _ Hc Hp) as E.
    assert (forall x, sub_ok s x -> sub_ok s' x) as Hmono
      by (intros x; destruct x; simpl; try done; by rewrite E).
    apply Forall_insert; [by eapply Forall_impl|].
    destruct Hl as (_ & _ & _ & Hcl).
    assert (0 <= sumZ (will_close <$> cs)).
    { apply sumZ_nonneg, Forall_fmap, Forall_true. intros y. apply holds_nonneg. }
    destruct p; simpl in Hc; caller_cases Hc; try done.
    destruct (chanClosed (q s')); simpl in *; [lia|done].
Qed.

Lemma exec_caller_safe s e p c cs i :
  lock_ok s cs -> Forall (sub_ok s) cs -> cs !! i = Some p -> is_batch p = false ->
  caller s e p c <> Some Panic.
Proof.
  intros (_ & _ & _ & Hcl) Hsub Hi Hb Hc.
  pose proof (sumZ_fmap_lookup will_close cs i _ (fun y => proj2 (proj2 (holds_nonneg y))) Hi) as Hw1.
  pose proof (proj1 (Forall_lookup _ _) Hsub i p Hi) as Hp.
  destruct p; simpl in Hc; caller_cases Hc; try done.
  - unfold try_send in *. rewrite Hp in *. by destruct (send_ready (q s)).
  - unfold q_close in *. destruct (chanClosed (q s)) eqn:E; simplify_eq. simpl in *.
    destruct (closed s); simpl in *; lia.
Qed.

Lemma caller_batch s e p c s' p' :
  caller s e p c = Some (Ret (s', p')) -> is_batch p = false -> is_batch p' = false.
Proof. intros Hc Hb. by destruct p; simpl in Hc; caller_cases Hc. Qed.

Lemma all_exited_true ws : all_exited ws = true -> Forall (eq WExited) ws.
Proof.
  unfold all_exited. rewrite forallb_forall. intros H. apply Forall_forall. intros x Hx.
  apply list_elem_of_In in Hx. apply H in Hx. by apply bool_decide_eq_true in Hx.
Qed.

Lemma caller_return s ws p c s' p' :
  caller s (all_exited ws) p c = Some (Ret (s', p')) -> p' = ShutdownReturned true None ->
  Forall (eq WExited) ws.
Proof.
  intros Hc ->. destruct p; simpl in Hc; caller_cases Hc; try done. by apply all_exited_true.
Qed.

Lemma exec_step_ok s a s' : exec_ok s -> exec_step s a = Some (Ret s') -> exec_ok s'.
Proof.
  intros (Hq & H1 & Hl & Hs & Hx) Hst. destruct a as [i c|i c|]; simpl in Hst.
  - destruct (workers s !! i) as [w|] eqn:Hi; simplify_eq/=.
    destruct (worker (q (sh s)) w c) as [[q' w']|] eqn:Hw; simplify_eq/=.
    assert (chanClosed q' = chanClosed (q (sh s))) as Ecl
      by (destruct w; simpl in Hw; repeat case_match; by simplify_eq).
    split_and!; simpl; [by eapply worker_ok|by eapply worker_single| | |].
    + destruct Hl as (? & ? & ? & ?). split_and!; try done. simpl. by rewrite Ecl.
    + eapply Forall_impl; [exact Hs|]. intros p. destruct p; try done. simpl. by rewrite Ecl.
    + intros Hr. specialize (Hx Hr). pose proof (proj1 (Forall_lookup _ _) Hx i w Hi) as <-. done.
  - destruct (callers s !! i) as [p|] eqn:Hi; simplify_eq/=.
    destruct (caller _ _ p c) as [[[sh' p']|]|] eqn:Hc; simplify_eq/=.
    pose proof (caller_histories _ _ _ _ _ _ Hc) as [Er Ef].
    split_and!; simpl; [| |by eapply caller_lock|by eapply caller_sub|].
    + rewrite (sumZ_fmap_insert _ _ i p' p Hi). by eapply exec_caller_queue.
    + unfold single_ok in *. by rewrite Er, Ef.
    + intros [j Hj]%list_elem_of_lookup.
      apply list_lookup_insert_Some in Hj as [(-> & E & _)|[_ Hj]].
      * by eapply caller_return.
      * apply Hx. by eapply list_elem_of_lookup_2.
  - simplify_eq. split_and!; try done. by apply cancel_ok.
Qed.

Lemma step_safe s a :
  exec_ok s -> Forall (fun p => is_batch p = false) (callers s) ->
  exec_step s a <> Some Panic /\
  forall s', exec_step s a = Some (Ret s') -> Forall (fun p => is_batch p = false) (callers s').
Proof.
  intros (_ & _ & Hl & Hs & _) Hb. destruct a as [i c|i c|]; simpl.
  - destruct (workers s !! i) as [w|]; [|done]. simpl.
    destruct (worker _ w c) as [[q' w']|]; [|done]. simpl. split; [done|]. by intros s' [= <-].
  - destruct (callers s !! i) as [p|] eqn:Hi; [|done]. simpl.
    pose proof (proj1 (Forall_lookup _ _) Hb i p Hi) as Hp.
    pose proof (exec_caller_safe (sh s) (all_exited (workers s)) p c _ i Hl Hs Hi Hp) as Hn.
    destruct (caller _ _ p c) as [[[sh' p']|]|] eqn:Hc; [|done|done]. simpl. split; [done|].
    intros s' [= <-]. simpl. apply Forall_insert; [done|]. by eapply caller_batch.
  - split; [done|]. by intros s' [= <-].
Qed.

(** The calls as they begin. *)
Definition starts (p : pc) : bool :=
  match p with
  | SubmitLock _ _ | BatchCheck _ | ShutdownSwap | Returned _ => true
  | _ => false
  end.

Lemma starts_zero cs :
  forallb starts cs = true ->
  sumZ (uncounted <$> cs) = 0 /\ sumZ (holds_read <$> cs) = 0 /\ sumZ (holds_write <$> cs) = 0 /\
  sumZ (will_close <$> cs) = 0.
Proof.
  induction cs as [|p cs IH]; [done|]. intros [Hp Hc]%andb_true_iff.
  destruct (IH Hc) as (? & ? & ? & ?). rewrite !sumZ_fmap_cons. by destruct p.
Qed.

Lemma normalize_pos c : 1 <= Workers (normalize c) /\ 1 <= QueueSize (normalize c).
Proof. unfold normalize; simpl. zcrush. Qed.

Lemma NewExecutor_ok c cs : forallb starts cs = true -> exec_ok (NewExecutor c cs).
Proof.
  intros Hst. pose proof (normalize_pos c) as [Hw Hq].
  destruct (starts_zero cs Hst) as (E1 & E2 & E3 & E4). rewrite forallb_forall in Hst.
  split_and!; simpl.
  - rewrite E1. apply new_queue_ok. zcrush.
  - by destruct (Z.to_nat _) as [|[|]].
  - unfold lock_ok; simpl. rewrite E2, E3, E4. done.
  - apply Forall_forall. intros p Hp%list_elem_of_In. specialize (Hst p Hp). by destruct p.
  - intros Hp%list_elem_of_In. by specialize (Hst _ Hp).
Qed.

Lemma run_ok acts s s' : exec_ok s -> run s acts = Some (Ret s') -> exec_ok s'.
Proof.
  revert s. induction acts as [|a acts IH]; intros s Hs Hr; simpl in Hr; [by simplify_eq|].
  destruct (exec_step s a) as [[s1|]|] eqn:E; simplify_eq. eauto using exec_step_ok.
Qed.

Lemma run_safe acts s :
  exec_ok s -> Forall (fun p => is_batch p = false) (callers s) -> run s acts <> Some Panic.
Proof.
  revert s. induction acts as [|a acts IH]; intros s Hs Hb; [done|]. simpl.
  destruct (step_safe s a Hs Hb) as [Hn Hb'].
  destruct (exec_step s a) as [[s1|]|] eqn:E; [|done|done]. apply IH; eauto using exec_step_ok.
Qed.


(** *** The theorems *)

(** C7. With only Submit, SubmitWithTimeout and Shutdown, and whatever interleaving:
    no send meets a closed channel and no channel is closed twice; the tasks
    accepted are, in order, those already received followed by those in the
    channel, never more than its capacity; each received task is finished or in
    the hands of exactly one worker; a single worker executes them in the order
    of acceptance; once the Shutdown call that closed the executor (the one that
    won the compare-and-swap) has returned without error every worker is gone.
    Any other Shutdown call returns nil at once and promises nothing. *)
Theorem executor_safe c cs acts :
  forallb (fun p => starts p && negb (is_batch p)) cs = true ->
  run (NewExecutor c cs) acts <> Some Panic /\
  forall s, run (NewExecutor c cs) acts = Some (Ret s) -> exec_ok s.
Proof.
  intros Hcs. rewrite forallb_forall in Hcs.
  assert (forallb starts cs = true) as Hst.
  { apply forallb_forall. intros p Hp. by apply Hcs, andb_true_iff in Hp as [? _]. }
  pose proof (NewExecutor_ok c cs Hst) as Hok. split.
  - apply run_safe; [done|]. apply Forall_forall. intros p Hp%list_elem_of_In. simpl in Hp.
    by apply Hcs, andb_true_iff in Hp as [_ ?%negb_true_iff].
  - intros s. by apply run_ok.
Qed.

Definition two_submits : list pc := [Submit (Some 7); SubmitWithTimeout (Some 8) 5; Shutdown].

Definition drain_schedule : list action :=
  [ActCaller 0 PickSend; ActCaller 1 PickSend; ActCaller 0 PickSend; ActCaller 1 PickSend;
   ActCaller 0 PickSend; ActCaller 1 PickSend; ActWorker 0 PickRecv; ActCaller 0 PickSend;
   ActWorker 0 PickRecv; ActCaller 1 PickSend; ActWorker 0 PickRecv].

Lemma executor_safe_witness :
  exists s, run (NewExecutor (mkExecutorConfig 1 2) two_submits) drain_schedule = Some (Ret s) /\
    exec_ok s /\ finished (q (sh s)) = [7] /\ taskChan (q (sh s)) = [8].
Proof.
  pose proof (executor_safe (mkExecutorConfig 1 2) two_submits drain_schedule eq_refl) as [_ H].
  eexists. split; [vm_compute; reflexivity|]. split; [apply H; vm_compute; reflexivity|done].
Defined.

(** Accepted tasks that Shutdown leaves in the channel are never executed: it
    cancels the context first, and a worker may see that before the queue. *)
Theorem shutdown_abandons_tasks :
  exists s, run (NewExecutor (mkExecutorConfig 1 2) [Submit (Some 7); Shutdown])
      ([ActCaller 0 PickSend; ActCaller 0 PickSend; ActCaller 0 PickSend; ActCaller 0 PickSend;
        ActCaller 0 PickSend] ++
       [ActCaller 1 PickDone; ActCaller 1 PickDone; ActCaller 1 PickDone; ActCaller 1 PickDone;
        ActCaller 1 PickDone; ActWorker 0 PickDone; ActCaller 1 PickDone]) = Some (Ret s) /\
    callers s = [Returned None; ShutdownReturned true None] /\
    sent (q (sh s)) = [7] /\ finished (q (sh s)) = [] /\ queuedTasks (q (sh s)) = 1.
Proof. eexists. split; [vm_compute; reflexivity|done]. Qed.

(** A second or overlapping Shutdown returns nil while the first still waits and
    a worker is in the middle of a task. *)
Theorem second_shutdown_does_not_wait :
  exists s, run (NewExecutor (mkExecutorConfig 1 2) [Submit (Some 7); Shutdown; Shutdown])
      ([ActCaller 0 PickSend; ActCaller 0 PickSend; ActCaller 0 PickSend; ActCaller 0 PickSend;
        ActCaller 0 PickSend; ActWorker 0 PickRecv; ActWorker 0 PickRecv] ++
       [ActCaller 1 PickDone; ActCaller 2 PickDone]) = Some (Ret s) /\
    callers s = [Returned None; ShutdownLock; ShutdownReturned false None] /\
    workers s = [WExecuting 7].
Proof. eexists. split; [vm_compute; reflexivity|done]. Qed.

(** SubmitBatch checks the flag once and takes no lock: it can send on the
    channel that Shutdown has closed meanwhile, which panics. *)
Theorem batch_races_with_shutdown :
  run (NewExecutor (mkExecutorConfig 1 2) [SubmitBatch [Some 7]; Shutdown])
    [ActCaller 0 PickSend; ActCaller 1 PickSend; ActCaller 1 PickSend; ActCaller 1 PickSend;
     ActCaller 1 PickSend; ActCaller 0 PickSend] = Some Panic.
Proof. vm_compute. reflexivity. Qed.

(** *** Draining *)

Lemma run_app a b x y : run x a = Some (Ret y) -> run x (a ++ b) = run y b.
Proof.
  revert x. induction a as [|? a IHa]; intros x Hx; simpl in *; [by simplify_eq|].
  destruct (exec_step x _) as [[|]|]; simplify_eq. eauto.
Qed.

Lemma step_workers s a s' :
  exec_step s a = Some (Ret s') -> length (workers s') = length (workers s).
Proof.
  destruct a as [i c|i c|]; simpl; [| |by intros [= <-]].
  - destruct (workers s !! i); [|done]. simpl. destruct (worker _ _ _) as [[]|]; [|done]. simpl.
    intros [= <-]. simpl. by rewrite length_insert.
  - destruct (callers s !! i); [|done]. simpl. destruct (caller _ _ _ _) as [[[]|]|]; [|done|done].
    by intros [= <-].
Qed.

Lemma run_workers acts s s' : run s acts = Some (Ret s') -> length (workers s') = length (workers s).
Proof.
  revert s. induction acts as [|a acts IH]; intros s Hr; simpl in Hr; [by simplify_eq|].
  destruct (exec_step s a) as [[s1|]|] eqn:E; simplify_eq. rewrite (IH s1 Hr). by eapply step_workers.
Qed.

(** What a worker can do for the task in front of it. *)
Definition serve (i : nat) : list action :=
  replicate 4 (ActWorker i PickRecv).

Lemma serve_next s i t rest :
  workers s !! i = Some WSelect -> taskChan (q (sh s)) = t :: rest ->
  exists s', run s (serve i) = Some (Ret s') /\ taskChan (q (sh s')) = rest /\
    sent (q (sh s')) = sent (q (sh s)) /\ workers s' = workers s /\ callers s' = callers s /\
    finished (q (sh s')) = finished (q (sh s)) ++ [t] /\ received (q (sh s')) = received (q (sh s)) ++ [t].
Proof.
  intros Hi Ht. pose proof (lookup_lt_Some _ _ _ Hi) as Hlt.
  unfold serve. cbn [replicate run exec_step]. rewrite Hi. simpl. rewrite Ht. simpl.
  rewrite !list_lookup_insert_eq by (rewrite ?length_insert; done). simpl.
  rewrite !list_lookup_insert_eq by (rewrite ?length_insert; done). simpl.
  rewrite !list_lookup_insert_eq by (rewrite ?length_insert; done). simpl.
  eexists. split; [reflexivity|]. simpl. rewrite !list_insert_insert_eq, list_insert_id by done. done.
Qed.

Lemma drain_from s i :
  workers s !! i = Some WSelect ->
  exists acts s', run s acts = Some (Ret s') /\ taskChan (q (sh s')) = [] /\
    sent (q (sh s')) = sent (q (sh s)) /\ workers s' = workers s /\ callers s' = callers s.
Proof.
  remember (taskChan (q (sh s))) as l eqn:El. revert s El.
  induction l as [|t l IH]; intros s El Hi.
  { exists [], s. done. }
  destruct (serve_next s i t l Hi (eq_sym El)) as (s1 & Hr & Ht & Hs & Hw & Hc & _).
  destruct (IH s1 (eq_sym Ht)) as (acts & s' & Hr' & Ht' & Hs' & Hw' & Hc'); [by rewrite Hw|].
  exists (serve i ++ acts), s'. split_and!; try congruence.
  by rewrite (run_app _ _ _ _ Hr).
Qed.

(** A worker that has not left can bring its task to an end. *)
Lemma settle_one s i w :
  workers s !! i = Some w -> w <> WExited ->
  exists acts s', run s acts = Some (Ret s') /\ workers s' = <[i := WSelect]> (workers s) /\
    sent (q (sh s')) = sent (q (sh s)) /\ callers s' = callers s.
Proof.
  intros Hi Hw. pose proof (lookup_lt_Some _ _ _ Hi) as Hlt.
  set (n := match w with WReceived _ => 3%nat | WExecuting _ => 2%nat | WCompleting _ => 1%nat | _ => 0%nat end).
  exists (replicate n (ActWorker i PickRecv)).
  destruct w; try done; cbn [n replicate run exec_step];
    repeat (rewrite ?Hi, ?list_lookup_insert_eq by (rewrite ?length_insert; done); simpl);
    eexists; (split; [reflexivity|]); simpl; rewrite ?list_insert_insert_eq; try done.
  by rewrite list_insert_id.
Qed.

Lemma settle_all n s :
  (n <= length (workers s))%nat -> WExited ∉ workers s ->
  exists acts s', run s acts = Some (Ret s') /\ sent (q (sh s')) = sent (q (sh s)) /\
    callers s' = callers s /\ WExited ∉ workers s' /\ length (workers s') = length (workers s) /\
    (forall i, (i < n)%nat -> workers s' !! i = Some WSelect).
Proof.
  induction n as [|n IH]; intros Hn Hx.
  { exists [], s. split_and!; try done. lia. }
  destruct IH as (acts & s1 & Hr & Hs & Hc & Hx1 & Hl & Hall); [lia|done|].
  destruct (lookup_lt_is_Some_2 (workers s1) n) as [w Hw]; [lia|].
  destruct (settle_one s1 n w Hw) as (acts' & s2 & Hr' & Hw' & Hs' & Hc').
  { intros ->. by apply Hx1, list_elem_of_lookup_2 with n. }
  exists (acts ++ acts'), s2. rewrite (run_app _ _ _ _ Hr), Hw', length_insert.
  split_and!; try congruence.
  - intros He. apply Hx1. by eapply exited_insert.
  - intros i Hi. destruct (decide (i = n)) as [->|Hne]; [apply list_lookup_insert_eq; lia|].
    rewrite list_lookup_insert_ne by done. apply Hall. lia.
Qed.

(** While neither the context is cancelled nor the channel closed, no accepted
    task is stuck: from every reachable state the workers alone can bring every
    accepted task to its end, each exactly once. *)
Theorem executor_drains c cs acts s :
  forallb starts cs = true -> run (NewExecutor c cs) acts = Some (Ret s) ->
  ctxDone (q (sh s)) = false -> chanClosed (q (sh s)) = false ->
  exists acts' s', run s acts' = Some (Ret s') /\ callers s' = callers s /\
    taskChan (q (sh s')) = [] /\ finished (q (sh s')) ≡ₚ sent (q (sh s)).
Proof.
  intros Hcs Hr Hd Hcl. pose proof (run_ok _ _ _ (NewExecutor_ok c cs Hcs) Hr) as Hok.
  pose proof (run_workers _ _ _ Hr) as Hlen. simpl in Hlen. rewrite length_replicate in Hlen.
  pose proof (normalize_pos c) as [Hw _]. simpl in Hw.
  assert (WExited ∉ workers s) as Hx.
  { intros He. destruct Hok as ((_ & _ & _ & Hx & _) & _). destruct (Hx He); congruence. }
  destruct (settle_all (length (workers s)) s (le_n _) Hx) as (a1 & s1 & Hr1 & Hs1 & Hc1 & _ & Hl1 & Hall).
  destruct (drain_from s1 0) as (a2 & s2 & Hr2 & Ht2 & Hs2 & Hw2 & Hc2); [apply Hall; lia|].
  assert (run s (a1 ++ a2) = Some (Ret s2)) as Hr12 by (by rewrite (run_app _ _ _ _ Hr1)).
  exists (a1 ++ a2), s2. split_and!; try congruence.
  destruct (run_ok _ _ _ Hok Hr12) as ((Hs & _ & Hp & _) & _).
  rewrite Ht2, app_nil_r in Hs. rewrite <- Hs1, <- Hs2, Hs, Hp.
  assert (hands (workers s2) = []) as ->; [|by rewrite app_nil_r].
  rewrite Hw2. rewrite <- Hl1 in Hall. clear -Hall. induction (workers s1) as [|w ws IH]; [done|].
  pose proof (Hall 0%nat ltac:(simpl; lia)) as E. simpl in E. simplify_eq. apply IH.
  intros i Hi. apply (Hall (S i)). simpl. lia.
Qed.

Lemma executor_drains_witness :
  exists s acts' s',
    run (NewExecutor (mkExecutorConfig 2 4) two_submits) drain_schedule = Some (Ret s) /\
    run s acts' = Some (Ret s') /\ taskChan (q (sh s')) = [] /\ finished (q (sh s')) ≡ₚ [7; 8].
Proof.
  destruct (run (NewExecutor (mkExecutorConfig 2 4) two_submits) drain_schedule) as [[s|]|] eqn:E;
    [|vm_compute in E; discriminate|vm_compute in E; discriminate].
  pose proof E as E'. vm_compute in E'.
  destruct (executor_drains (mkExecutorConfig 2 4) two_submits drain_schedule s eq_refl E)
    as (acts' & s' & H1 & _ & H2 & H3); [by injection E' as <-|by injection E' as <-|].
  exists s, acts', s'. split_and!; try done. injection E' as <-. exact H3.
Defined.
End Exec.
