(* ===== verification/WorkerPool.v ===== *)
(** * Worker pool (pkg/core/concurrency/workerpool_impl.go)

    The pool shares the task channel and the worker loop with the executor
    (Executor.v) but closes its channel without a lock: Start, Stop, Submit and
    SubmitBatch are sequences of atomic steps that any callers interleave. *)
From S2P Require Import Prelude Executor.

Module Pool.

Inductive pc : Type :=
| StartSwap
| StartSpawn
| SubmitCheck (t : Z)
| SubmitSelect (t : Z)
| SubmitCount
| BatchCheck (tasks : list (option Z))
| BatchLoop (total submitted : Z) (tasks : list (option Z))
| BatchCount (total submitted : Z) (tasks : list (option Z))
| StopSwap
| StopCancel
| StopClose
| StopWait
| Returned (r : option exec_error).

Definition Start : pc := StartSwap.

Definition Stop : pc := StopSwap.

Definition Submit (task : option Z) : pc :=
  match task with None => Returned (Some ErrNilTask) | Some t => SubmitCheck t end.

Definition SubmitBatch (tasks : list (option Z)) : pc :=
  match tasks with [] => Returned None | _ => BatchCheck tasks end.

Record pool : Type := mkPool {
  nworkers : Z;
  q : queue;
  running : bool;
  workers : list wpc;     (** the goroutines started so far *)
  callers : list pc
}.

Definition NewWorkerPool (c : ExecutorConfig) (cs : list pc) : pool :=
  let c := normalize c in mkPool (Workers c) (new_queue (QueueSize c)) false [] cs.

Definition set_q (s : pool) (q' : queue) : pool := mkPool (nworkers s) q' (running s) (workers s) (callers s).

Definition set_running (s : pool) (b : bool) : pool := mkPool (nworkers s) (q s) b (workers s) (callers s).

Definition IsRunning (s : pool) : bool := running s.

(** One atomic operation of a caller. *)
Definition caller (s : pool) (p : pc) (c : choice) : option (outcome (pool * pc)) :=
  match p with
  | StartSwap =>
      Some (Ret (if running s then (s, Returned (Some ErrAlreadyRunning))
                 else (set_running s true, StartSpawn)))
  | StartSpawn =>
      Some (Ret (mkPool (nworkers s) (q s) (running s)
                   (workers s ++ replicate (Z.to_nat (nworkers s)) WSelect) (callers s), Returned None))
  | SubmitCheck t =>
      Some (Ret (s, if running s then SubmitSelect t else Returned (Some ErrNotRunning)))
  | SubmitSelect t =>
      match c with
      | PickSend =>
          match try_send (q s) t with
          | Some (Ret q') => Some (Ret (set_q s q', SubmitCount))
          | Some Panic => Some Panic
          | None => None
          end
      | PickDone => if done_ready (q s) then Some (Ret (s, Returned (Some ErrContext))) else None
      | PickDefault =>
          if default_ready (q s)
          then Some (Ret (set_q s (q_count (q s) 0 0 1), Returned (Some ErrMailboxFull))) else None
      | _ => None
      end
  | SubmitCount => Some (Ret (set_q s (q_count (q s) 1 0 0), Returned None))
  | BatchCheck tasks =>
      Some (Ret (s, if running s then BatchLoop (Z.of_nat (length tasks)) 0 tasks
                    else Returned (Some ErrNotRunning)))
  | BatchLoop total submitted [] => Some (Ret (s, Returned None))
  | BatchLoop total submitted (None :: tasks) => Some (Ret (s, BatchLoop total submitted tasks))
  | BatchLoop total submitted (Some t :: tasks) =>
      match c with
      | PickSend =>
          match try_send (q s) t with
          | Some (Ret q') => Some (Ret (set_q s q', BatchCount total submitted tasks))
          | Some Panic => Some Panic
          | None => None
          end
      | PickDone =>
          if done_ready (q s)
          then Some (Ret (set_q s (batch_reject (q s) total submitted), Returned (Some ErrContext)))
          else None
      | PickDefault =>
          if default_ready (q s)
          then Some (Ret (set_q s (batch_reject (q s) total submitted), Returned (Some ErrMailboxFull)))
          else None
      | _ => None
      end
  | BatchCount total submitted tasks =>
      Some (Ret (set_q s (q_count (q s) 1 0 0), BatchLoop total (submitted + 1) tasks))
  | StopSwap =>
      Some (Ret (if running s then (set_running s false, StopCancel) else (s, Returned None)))
  | StopCancel => Some (Ret (set_q s (q_cancel (q s)), StopClose))
  | StopClose =>
      Some (match q_close (q s) with
            | Ret q' => Ret (set_q s q', StopWait)
            | Panic => Panic
            end)
  | StopWait =>
      match c with
      | PickDone => if Exec.all_exited (workers s) then Some (Ret (s, Returned None)) else None
      | PickTimeout => Some (Ret (s, Returned (Some ErrShutdownTimeout)))
      | _ => None
      end
  | Returned _ => None
  end.

Definition set_callers (s : pool) (cs : list pc) : pool :=
  mkPool (nworkers s) (q s) (running s) (workers s) cs.

Definition pool_step (s : pool) (a : Exec.action) : option (outcome pool) :=
  match a with
  | Exec.ActWorker i c =>
      w ← workers s !! i;
      '(q', w') ← worker (q s) w c;
      Some (Ret (mkPool (nworkers s) q' (running s) (<[i := w']> (workers s)) (callers s)))
  | Exec.ActCaller i c =>
      p ← callers s !! i;
      o ← caller s p c;
      Some (match o with
            | Ret (s', p') => Ret (set_callers s' (<[i := p']> (callers s)))
            | Panic => Panic
            end)
  | Exec.ActParent => Some (Ret (set_q s (q_cancel (q s))))
  end.

Fixpoint run (s : pool) (acts : list Exec.action) : option (outcome pool) :=
  match acts with
  | [] => Some (Ret s)
  | a :: acts =>
      match pool_step s a with
      | Some (Ret s') => run s' acts
      | Some Panic => Some Panic
      | None => None
      end
  end.

Definition uncounted (p : pc) : Z := match p with SubmitCount | BatchCount _ _ _ => 1 | _ => 0 end.

Definition stopping (p : pc) : bool :=
  match p with StopSwap | StopCancel | StopClose | StopWait => true | _ => false end.

Definition starts (p : pc) : bool :=
  match p with StartSwap | SubmitCheck _ | BatchCheck _ | StopSwap | Returned _ => true | _ => false end.

Definition pool_ok (s : pool) : Prop :=
  queue_ok (sumZ (uncounted <$> callers s)) (q s) (workers s).

(** No call is stopping the pool. *)
Definition calm (s : pool) : Prop :=
  Forall (fun p => stopping p = false) (callers s) /\ chanClosed (q s) = false.

Lemma spawn_ok p qq ws n : queue_ok p qq ws -> queue_ok p qq (ws ++ replicate n WSelect).
Proof.
  intros (Hs & Hl & Hr & Hx & Hq & Hc).
  assert (hands (ws ++ replicate n WSelect) = hands ws) as Hh.
  { unfold hands. rewrite bind_app. assert (replicate n WSelect ≫= in_hand = []) as ->; [|apply app_nil_r].
    by induction n. }
  split_and!; try done; rewrite ?Hh; try done.
  - intros [?|[? _]%elem_of_replicate]%elem_of_app; [auto|done].
  - unfold sending. rewrite !fmap_app, !sumZ_app, !fmap_replicate, !sumZ_replicate_0, !Z.add_0_r. done.
Qed.

Lemma pool_caller_queue s p c s' p' n :
  queue_ok n (q s) (workers s) -> caller s p c = Some (Ret (s', p')) ->
  queue_ok (n - uncounted p + uncounted p') (q s') (workers s').
Proof.
  intros Hq Hc. destruct p; simpl in Hc; Exec.caller_cases Hc;
    repeat match goal with
    | H : try_send _ _ = Some (Ret _) |- _ => apply Exec.try_send_ret in H as (? & ? & ->)
    | H : q_close _ = Ret _ |- _ => eapply close_ok in H; [|exact Hq]
    end;
    rewrite ?Z.sub_0_r, ?Z.add_0_r; try done; eauto using cancel_ok, send_ok, q_count_ok, spawn_ok.
  all: try (eapply (q_count_ok n _ _ 0 _) in Hq; by rewrite Z.sub_0_r in Hq).
Qed.

Lemma caller_open s p c s' p' :
  caller s p c = Some (Ret (s', p')) ->
  stopping p = false -> stopping p' = false /\ chanClosed (q s') = chanClosed (q s).
Proof.
  intros Hc Hp. destruct p; simpl in Hc; Exec.caller_cases Hc; try done;
    by match goal with H : try_send _ _ = Some (Ret _) |- _ => apply Exec.try_send_ret in H as (? & ? & ->) end.
Qed.
Lemma caller_callers s p c s' p' : caller s p c = Some (Ret (s', p')) -> callers s' = callers s.
Proof. intros Hc. by destruct p; simpl in Hc; Exec.caller_cases Hc. Qed.

Lemma pool_caller_safe s p c : stopping p = false -> chanClosed (q s) = false -> caller s p c <> Some Panic.
Proof.
  intros Hp Hq Hc. destruct p; simpl in Hc; Exec.caller_cases Hc; try done;
    unfold try_send in *; rewrite Hq in *; by destruct (send_ready (q s)).
Qed.

Lemma worker_closed qq w c q' w' :
  worker qq w c = Some (q', w') -> chanClosed q' = chanClosed qq /\ sent q' = sent qq.
Proof. intros Hw. destruct w; simpl in Hw; repeat case_match; by simplify_eq. Qed.

Lemma pool_step_ok s a s' : pool_ok s -> pool_step s a = Some (Ret s') -> pool_ok s'.
Proof.
  intros Hok Hst. unfold pool_ok in *. destruct a as [i c|i c|]; simpl in Hst.
  - destruct (workers s !! i) as [w|] eqn:Hi; simplify_eq/=.
    destruct (worker (q s) w c) as [[q' w']|] eqn:Hw; simplify_eq/=. by eapply worker_ok.
  - destruct (callers s !! i) as [p|] eqn:Hi; simplify_eq/=.
    destruct (caller s p c) as [[[s1 p']|]|] eqn:Hc; simplify_eq/=.
    rewrite (sumZ_fmap_insert _ _ i p' p Hi). by eapply pool_caller_queue.
  - simplify_eq. by apply cancel_ok.
Qed.

Lemma step_calm s a :
  calm s -> pool_step s a <> Some Panic /\ forall s', pool_step s a = Some (Ret s') -> calm s'.
Proof.
  intros [Hs Hq]. destruct a as [i c|i c|]; simpl.
  - destruct (workers s !! i) as [w|]; [|done]. simpl.
    destruct (worker (q s) w c) as [[q' w']|] eqn:Hw; [|done]. simpl. split; [done|].
    intros s' [= <-]. split; [done|]. simpl. by destruct (worker_closed _ _ _ _ _ Hw) as [-> _].
  - destruct (callers s !! i) as [p|] eqn:Hi; [|done]. simpl.
    pose proof (proj1 (Forall_lookup _ _) Hs i p Hi) as Hp.
    pose proof (pool_caller_safe s p c Hp Hq) as Hn.
    destruct (caller s p c) as [[[s1 p']|]|] eqn:Hc; [|done|done]. simpl. split; [done|].
    intros s' [= <-]. destruct (caller_open _ _ _ _ _ Hc Hp) as [Hp' Hcl].
    split; simpl; [by apply Forall_insert|congruence].
  - split; [done|]. by intros s' [= <-].
Qed.

(** Tasks reach the workers of the pool in the order they were accepted, each
    once, within the queue's capacity, under every interleaving; and as long as
    nobody calls Stop, no operation panics. *)
Theorem pool_fifo c cs acts :
  forallb starts cs = true ->
  (forall s, run (NewWorkerPool c cs) acts = Some (Ret s) -> pool_ok s) /\
  (existsb stopping cs = false -> run (NewWorkerPool c cs) acts <> Some Panic).
Proof.
  intros Hcs. assert (pool_ok (NewWorkerPool c cs)) as H0.
  { unfold pool_ok; simpl. pose proof (Exec.normalize_pos c) as [_ Hq]. simpl in Hq.
    assert (sumZ (uncounted <$> cs) = 0) as ->; [|apply (new_queue_ok _ 0); zcrush].
    clear -Hcs. induction cs as [|p cs IH]; [done|]. apply andb_true_iff in Hcs as [Hp Hcs].
    rewrite sumZ_fmap_cons, IH by done. by destruct p. }
  split.
  - revert H0. generalize (NewWorkerPool c cs). induction acts as [|a acts IH]; intros s0 H0 s Hr; simpl in Hr.
    { by simplify_eq. }
    destruct (pool_step s0 a) as [[s1|]|] eqn:E; simplify_eq. eauto using pool_step_ok.
  - intros Hst. assert (calm (NewWorkerPool c cs)) as Hc.
    { split; [|done]. apply Forall_forall. intros p Hp%list_elem_of_In.
      destruct (stopping p) eqn:E; [|done]. assert (existsb stopping cs = true); [|congruence].
      apply existsb_exists. eauto. }
    revert Hc. generalize (NewWorkerPool c cs). clear.
    induction acts as [|a acts IH]; intros s0 H0; [done|]. simpl.
    destruct (step_calm s0 a H0) as [Hn Hs]. destruct (pool_step s0 a) as [[s1|]|]; [|done|done]. auto.
Qed.

Definition started_pool : list Exec.action :=
  [Exec.ActCaller 0 PickSend; Exec.ActCaller 0 PickSend; Exec.ActCaller 1 PickSend;
   Exec.ActCaller 1 PickSend; Exec.ActWorker 0 PickRecv; Exec.ActCaller 1 PickSend].

Lemma pool_fifo_witness :
  exists s, run (NewWorkerPool (mkExecutorConfig 1 1) [Start; Submit (Some 5)]) started_pool = Some (Ret s) /\
    pool_ok s /\ received (q s) = [5].
Proof.
  destruct (pool_fifo (mkExecutorConfig 1 1) [Start; Submit (Some 5)] started_pool eq_refl) as [H _].
  eexists. split; [vm_compute; reflexivity|]. split; [apply H; vm_compute; reflexivity|done].
Defined.

(** ** Stopping and starting again *)

(** Once the channel is closed it stays so, and no task is accepted any more,
    although Start can set the pool running again. *)
Theorem stopped_pool_accepts_nothing s acts s' :
  chanClosed (q s) = true -> run s acts = Some (Ret s') ->
  chanClosed (q s') = true /\ sent (q s') = sent (q s).
Proof.
  revert s. induction acts as [|a acts IH]; intros s Hcl Hr; simpl in Hr; [by simplify_eq|].
  destruct (pool_step s a) as [[s1|]|] eqn:E; simplify_eq.
  assert (chanClosed (q s1) = true /\ sent (q s1) = sent (q s)) as [H1 H2].
  { destruct a as [i c|i c|]; simpl in E; [| |by simplify_eq].
    - destruct (workers s !! i) as [w|]; simplify_eq/=.
      destruct (worker (q s) w c) as [[q' w']|] eqn:Hw; simplify_eq/=.
      by destruct (worker_closed _ _ _ _ _ Hw) as [-> ->].
    - destruct (callers s !! i) as [p|]; simplify_eq/=.
      destruct (caller s p c) as [[[s2 p']|]|] eqn:Hc; simplify_eq/=.
      destruct p; simpl in Hc; Exec.caller_cases Hc; try done;
        unfold try_send, q_close in *; rewrite Hcl in *; destruct (send_ready (q s)); done. }
  destruct (IH s1 H1 Hr) as [H3 H4]. split; congruence.
Qed.

Definition restart : list pc := [Start; Stop; Start; Stop; Submit (Some 3)].

Definition stop_and_start : list Exec.action :=
  replicate 2 (Exec.ActCaller 0 PickSend) ++ replicate 3 (Exec.ActCaller 1 PickDone) ++
  [Exec.ActWorker 0 PickDone; Exec.ActCaller 1 PickDone] ++ replicate 2 (Exec.ActCaller 2 PickSend).

Lemma stopped_pool_accepts_nothing_witness :
  exists s s', run (NewWorkerPool (mkExecutorConfig 1 1) restart) (take 5 stop_and_start) = Some (Ret s) /\
    run s (drop 5 stop_and_start) = Some (Ret s') /\ IsRunning s' = true /\ sent (q s') = sent (q s).
Proof.
  eexists _, _. split; [vm_compute; reflexivity|]. split; [vm_compute; reflexivity|]. split; [done|].
  eapply (stopped_pool_accepts_nothing _ (drop 5 stop_and_start)); [|vm_compute; reflexivity]. reflexivity.
Defined.

(** Start, Stop and Start all succeed one after the other; then the second Stop
    closes the closed channel and panics, and so may a Submit. *)
Theorem restarted_pool_panics :
  (exists s, run (NewWorkerPool (mkExecutorConfig 1 1) restart) stop_and_start = Some (Ret s) /\
     take 3 (callers s) = [Returned None; Returned None; Returned None] /\ IsRunning s = true) /\
  run (NewWorkerPool (mkExecutorConfig 1 1) restart)
    (stop_and_start ++ replicate 3 (Exec.ActCaller 3 PickSend)) = Some Panic /\
  run (NewWorkerPool (mkExecutorConfig 1 1) restart)
    (stop_and_start ++ replicate 2 (Exec.ActCaller 4 PickSend)) = Some Panic.
Proof. split; [|done]. eexists. split; [vm_compute; reflexivity|done]. Qed.
End Pool.
