(* ===== verification/Future.v ===== *)
(** * Futures and promises (pkg/core/concurrency/future.go)

    One promise shared by any number of goroutines: those that await it, that
    register handlers and that complete or fail it, each moving one atomic
    operation (an atomic load, a compare-and-swap, a critical section, a channel
    operation, a call of a handler) at a time.  A handler is named by the
    goroutine that registers it. *)
From S2P Require Import Prelude.

(** [futureResult]: a value, or the error of a failure. *)
Definition futureResult : Type := result Z Z.

Record future : Type := mkFuture {
  resultChan : option futureResult;   (** a channel of one slot *)
  fresult : option futureResult;
  completed : bool;
  successHandlers : list nat;
  failureHandlers : list nat
}.

Definition NewPromise : future :=
  {| resultChan := None; fresult := None; completed := false; successHandlers := [];
     failureHandlers := [] |}.

Definition set_result (f : future) (r : futureResult) : future :=
  mkFuture (resultChan f) (Some r) (completed f) (successHandlers f) (failureHandlers f).

Definition set_completed (f : future) : future :=
  mkFuture (resultChan f) (fresult f) true (successHandlers f) (failureHandlers f).

Definition set_chan (f : future) (c : option futureResult) : future :=
  mkFuture c (fresult f) (completed f) (successHandlers f) (failureHandlers f).

(** The handlers for a kind of result. *)
Definition is_success (r : futureResult) : bool := match r with Ok _ => true | Err _ => false end.

Definition handlers (f : future) (success : bool) : list nat :=
  if success then successHandlers f else failureHandlers f.

Definition add_handler (f : future) (success : bool) (h : nat) : future :=
  if success
  then mkFuture (resultChan f) (fresult f) (completed f) (successHandlers f ++ [h]) (failureHandlers f)
  else mkFuture (resultChan f) (fresult f) (completed f) (successHandlers f) (failureHandlers f ++ [h]).

(** Where a goroutine is. *)
Inductive pc : Type :=
| AwaitLoad                              (** [Await]: before the flag is read *)
| AwaitRead                              (** the flag was set: before the result is read *)
| AwaitSelect                            (** waiting for the channel or the context *)
| AwaitStore (r : futureResult)          (** received, before the result is stored *)
| AwaitReturned (r : option futureResult)(** [None]: the error of the context *)
| OnAppend (success : bool)              (** [OnSuccess] or [OnFailure] *)
| OnLoad (success : bool)
| OnRead (success : bool)
| OnCall (success : bool) (r : futureResult)
| OnReturned (success : bool)
| CompleteSwap (r : futureResult)        (** [Complete] or [Fail] *)
| CompleteStore (r : futureResult)
| CompleteSend (r : futureResult)
| CompleteSnapshot (r : futureResult)
| CompleteCall (r : futureResult) (hs : list nat)
| CompleteReturned (r : option futureResult).  (** [Some]: the one that completed it *)

Definition Await : pc := AwaitLoad.

Definition OnSuccess : pc := OnAppend true.

Definition OnFailure : pc := OnAppend false.

Definition Complete (v : Z) : pc := CompleteSwap (Ok v).

(** Failing with a nil error does nothing. *)
Definition Fail_ (err : option Z) : pc :=
  match err with None => CompleteReturned None | Some e => CompleteSwap (Err e) end.

(** One operation of goroutine [i]; [ctx] chooses the context's case of the
    select.  The last component is the handler called, with its argument. *)
Definition step1 (f : future) (i : nat) (p : pc) (ctx : bool) :
    option (future * pc * list (nat * futureResult)) :=
  match p with
  | AwaitLoad => Some (f, if completed f then AwaitRead else AwaitSelect, [])
  | AwaitRead =>
      Some (f, match fresult f with Some r => AwaitReturned (Some r) | None => AwaitSelect end, [])
  | AwaitSelect =>
      if ctx then Some (f, AwaitReturned None, [])
      else match resultChan f with
           | Some r => Some (set_chan f None, AwaitStore r, [])
           | None => None
           end
  | AwaitStore r => Some (set_completed (set_result f r), AwaitReturned (Some r), [])
  | AwaitReturned _ => None
  | OnAppend k => Some (add_handler f k i, OnLoad k, [])
  | OnLoad k => Some (f, if completed f then OnRead k else OnReturned k, [])
  | OnRead k =>
      Some (f, match fresult f with
               | Some r => if Bool.eqb (is_success r) k then OnCall k r else OnReturned k
               | None => OnReturned k
               end, [])
  | OnCall k r => Some (f, OnReturned k, [(i, r)])
  | OnReturned _ => None
  | CompleteSwap r =>
      Some (if completed f then (f, CompleteReturned None, []) else (set_completed f, CompleteStore r, []))
  | CompleteStore r => Some (set_result f r, CompleteSend r, [])
  | CompleteSend r =>
      Some (match resultChan f with None => set_chan f (Some r) | Some _ => f end, CompleteSnapshot r, [])
  | CompleteSnapshot r => Some (f, CompleteCall r (handlers f (is_success r)), [])
  | CompleteCall r [] => Some (f, CompleteReturned (Some r), [])
  | CompleteCall r (h :: hs) => Some (f, CompleteCall r hs, [(h, r)])
  | CompleteReturned _ => None
  end.

Record sys : Type := mkSys {
  fut : future;
  threads : list pc;
  calls : list (nat * futureResult)      (** the handler calls so far, in order *)
}.

Definition step (s : sys) (i : nat) (ctx : bool) : option sys :=
  p ← threads s !! i;
  '(f, p', l) ← step1 (fut s) i p ctx;
  Some (mkSys f (<[i := p']> (threads s)) (calls s ++ l)).

Definition run (s : sys) (sched : list (nat * bool)) : option sys :=
  fold_left (fun o a => o ≫= fun s => step s (fst a) (snd a)) sched (Some s).

Definition start (ts : list pc) : sys := mkSys NewPromise ts [].

(** The calls as they begin. *)
Definition starts (p : pc) : bool :=
  match p with AwaitLoad | OnAppend _ | CompleteSwap _ | CompleteReturned None => true | _ => false end.

(** ** One result *)

(** The result of the goroutine that won the flag. *)
Definition winner (p : pc) : option futureResult :=
  match p with
  | CompleteStore r | CompleteSend r | CompleteSnapshot r | CompleteCall r _ => Some r
  | CompleteReturned r => r
  | _ => None
  end.

Definition has_stored (p : pc) : bool :=
  match p with CompleteStore _ => false | _ => true end.

Definition has_sent (p : pc) : bool :=
  match p with CompleteStore _ | CompleteSend _ => false | _ => true end.

(** The result every other part of the system sees. *)
Definition sees (p : pc) : option futureResult :=
  match p with
  | AwaitStore r | OnCall _ r => Some r
  | AwaitReturned r => r
  | _ => None
  end.

(** Before the flag is set nothing has happened; after it there is one winner
    [w] with result [r], every copy of a result is [r], the stored result and the
    channel fill in that order, and the channel is filled once. *)
Definition agree (s : sys) : Prop :=
  if completed (fut s) then
    exists w p r, threads s !! w = Some p /\ winner p = Some r /\
      (forall i p', threads s !! i = Some p' -> i <> w -> winner p' = None) /\
      (forall i p' r', threads s !! i = Some p' -> sees p' = Some r' -> r' = r) /\
      (forall r', resultChan (fut s) = Some r' -> r' = r) /\
      (forall r', fresult (fut s) = Some r' -> r' = r) /\
      (has_stored p = true -> fresult (fut s) = Some r) /\
      (has_sent p = false ->
         resultChan (fut s) = None /\ forall i p', threads s !! i = Some p' -> p' <> AwaitStore r) /\
      Forall (fun c => snd c = r) (calls s)
  else
    resultChan (fut s) = None /\ fresult (fut s) = None /\ calls s = [] /\
    forall i p, threads s !! i = Some p -> winner p = None /\ sees p = None /\ p <> AwaitRead /\
      (forall k, p <> OnRead k).

Lemma future_step_inv s i ctx s' :
  step s i ctx = Some s' ->
  exists p p' f l, threads s !! i = Some p /\ step1 (fut s) i p ctx = Some (f, p', l) /\
    s' = mkSys f (<[i := p']> (threads s)) (calls s ++ l).
Proof.
  unfold step. destruct (threads s !! i) as [p|] eqn:Hi; [|done]. simpl.
  destruct (step1 (fut s) i p ctx) as [[[f p'] l]|] eqn:E; [|done]. simpl. intros [= <-].
  by exists p, p', f, l.
Qed.

(** A property of all goroutines after one of them has moved. *)
Lemma threads_insert (P : nat -> pc -> Prop) (ts : list pc) i p' :
  P i p' -> (forall j q, ts !! j = Some q -> j <> i -> P j q) ->
  forall j q, <[i := p']> ts !! j = Some q -> P j q.
Proof. intros Hp Ho j q [(-> & <- & _)|[? ?]]%list_lookup_insert_Some; eauto. Qed.

Lemma step_before s i p ctx f p' l :
  completed (fut s) = false -> agree s -> threads s !! i = Some p ->
  step1 (fut s) i p ctx = Some (f, p', l) ->
  agree (mkSys f (<[i := p']> (threads s)) (calls s ++ l)).
Proof.
  intros Hc Hag Hi Hst. unfold agree in *. rewrite Hc in Hag. destruct Hag as (Hch & Hre & Hca & Hth).
  destruct (Hth i p Hi) as (Hw & Hs & Hnr & Hno).
  assert ((exists r, p = CompleteSwap r) \/ (forall r, p <> CompleteSwap r)) as [[r ->]|Hnc]
    by (destruct p; eauto).
  { simpl in Hst. rewrite Hc in Hst. simplify_eq. simpl. rewrite Hca. pose proof (lookup_lt_Some _ _ _ Hi).
    exists i, (CompleteStore r), r. rewrite list_lookup_insert_eq by done. rewrite Hch, Hre.
    split_and!; try done.
    - intros j p'. rewrite list_lookup_insert_Some. intros [(-> & <- & _)|[? Hj]]; [done|].
      intros _. by destruct (Hth _ _ Hj).
    - intros j p' r'. rewrite list_lookup_insert_Some. intros [(-> & <- & _)|[? Hj]]; [done|].
      destruct (Hth _ _ Hj) as (_ & -> & _). done.
    - intros _. split; [done|]. intros j p'. rewrite list_lookup_insert_Some.
      intros [(-> & <- & _)|[? Hj]]; [done|]. intros ->. by destruct (Hth _ _ Hj) as (_ & ? & _). }
  assert (completed f = false /\ resultChan f = None /\ fresult f = None /\ l = [] /\
    winner p' = None /\ sees p' = None /\ p' <> AwaitRead /\ (forall k, p' <> OnRead k)) as
    (H1 & H2 & H3 & -> & H5).
  { destruct p; simpl in Hst; try done; try (by destruct (Hnc r)); try (by destruct (Hno success)); rewrite ?Hc, ?Hch in Hst; simpl in *;
      repeat case_match; simplify_eq; try done.
    all: by unfold add_handler; destruct success. }
  simpl. rewrite H1, app_nil_r. split_and!; try done.
  apply threads_insert; [exact H5|]. intros j q Hj _. by apply (Hth j q).
Qed.

Lemma step_after s i p ctx f p' l :
  completed (fut s) = true -> agree s -> threads s !! i = Some p ->
  step1 (fut s) i p ctx = Some (f, p', l) ->
  agree (mkSys f (<[i := p']> (threads s)) (calls s ++ l)).
Proof.
  intros Hc Hag Hi Hst. unfold agree in *. rewrite Hc in Hag.
  destruct Hag as (w & p0 & r & Hw & Hr & Hone & Hsee & Hch & Hre & Hst1 & Hst2 & Hca).
  assert (completed f = true) as Hcf.
  { destruct p; simpl in Hst; repeat case_match; simplify_eq; try done.
    all: by unfold add_handler; destruct success. }
  pose proof (lookup_lt_Some _ _ _ Hi) as Hlt. simpl. rewrite Hcf.
  destruct (decide (i = w)) as [->|Hne].
  - assert (p0 = p) as -> by congruence. exists w, p', r. rewrite list_lookup_insert_eq by done.
    assert (winner p' = Some r /\ sees p' = None /\ (forall r', resultChan f = Some r' -> r' = r) /\
      (forall r', fresult f = Some r' -> r' = r) /\ (has_stored p' = true -> fresult f = Some r) /\
      (has_sent p' = false -> has_sent p = false /\ resultChan f = None) /\
      Forall (fun c => snd c = r) l) as (H1 & H2 & H3 & H4 & H5 & H6 & H7).
    { destruct p; simplify_eq/=; repeat case_match; simplify_eq/=; split_and!; auto; try naive_solver.
      all: try by apply Forall_singleton. }
    split_and!; try done.
    + intros j q Hj Hjw. rewrite list_lookup_insert_ne in Hj by done. eauto.
    + intros j q r'. rewrite list_lookup_insert_Some. intros [(-> & <- & _)|[? Hj]]; [by rewrite H2|eauto].
    + intros Hs. destruct (H6 Hs) as [Hs' ?]. split; [done|].
      intros j q. rewrite list_lookup_insert_Some. intros [(-> & <- & _)|[? Hj]]; [by intros ->|].
      destruct (Hst2 Hs') as [_ Hq]. eauto.
    + by apply Forall_app.
  - exists w, p0, r. rewrite list_lookup_insert_ne by done.
    pose proof (Hone i p Hi Hne) as Hwp.
    assert (winner p' = None /\ (forall r', sees p' = Some r' -> r' = r) /\
      (forall r', resultChan f = Some r' -> r' = r) /\ (forall r', fresult f = Some r' -> r' = r) /\
      (has_stored p0 = true -> fresult f = Some r) /\
      (has_sent p0 = false -> resultChan f = None /\ p' <> AwaitStore r) /\
      Forall (fun c => snd c = r) l) as (H1 & H2 & H3 & H4 & H5 & H6 & H7).
    { destruct p; simpl in Hst, Hwp; repeat case_match; simplify_eq/=; unfold add_handler;
        repeat case_match; simpl; split_and!; try done; eauto using Forall_nil; try naive_solver.
      all: try (intros Hs; destruct (Hst2 Hs) as [? Hq]; try congruence; by (split; [done|])).
      all: try (intros; simplify_eq; by eapply Hsee).
      all: try (intros Hs; exfalso; destruct (Hst2 Hs) as [_ Hq]; eapply Hq; [exact Hi|]; f_equal; by eapply Hsee).
      all: try (apply Forall_singleton; by eapply Hsee). }
    split_and!; try done.
    + intros j q. rewrite list_lookup_insert_Some. intros [(-> & <- & _)|[? Hj]]; eauto.
    + intros j q r'. rewrite list_lookup_insert_Some. intros [(-> & <- & _)|[? Hj]]; eauto.
    + intros Hs. destruct (H6 Hs) as [? ?]. split; [done|].
      intros j q. rewrite list_lookup_insert_Some. intros [(-> & <- & _)|[? Hj]]; [done|].
      destruct (Hst2 Hs) as [_ Hq]. eauto.
    + by apply Forall_app.
Qed.

(** ** Who calls whom *)

(** How a goroutine has come from where it began. *)
Definition evolves (p0 p : pc) : Prop :=
  match p with
  | AwaitLoad | AwaitRead | AwaitSelect | AwaitStore _ | AwaitReturned _ => p0 = AwaitLoad
  | OnAppend k | OnLoad k | OnRead k | OnCall k _ | OnReturned k => p0 = OnAppend k
  | CompleteSwap r | CompleteStore r | CompleteSend r | CompleteSnapshot r | CompleteCall r _
  | CompleteReturned (Some r) => p0 = CompleteSwap r
  | CompleteReturned None => p0 = CompleteReturned None \/ exists r, p0 = CompleteSwap r
  end.

(** The handlers a completer has still to call. *)
Definition to_call (p : pc) : option (futureResult * list nat) :=
  match p with
  | CompleteCall r hs => Some (r, hs)
  | CompleteReturned (Some r) => Some (r, [])
  | _ => None
  end.

Definition registered (p : pc) : option bool :=
  match p with OnLoad k | OnRead k | OnCall k _ | OnReturned k => Some k | _ => None end.

(** Handlers are called for the kind of result they were registered for. *)
Definition kinds (ts : list pc) (s : sys) : Prop :=
  (forall i p, threads s !! i = Some p -> exists p0, ts !! i = Some p0 /\ evolves p0 p) /\
  (forall i k r, threads s !! i = Some (OnCall k r) -> is_success r = k) /\
  (forall k h, h ∈ handlers (fut s) k -> ts !! h = Some (OnAppend k)) /\
  (forall i p r hs, threads s !! i = Some p -> to_call p = Some (r, hs) ->
     forall h, h ∈ hs -> ts !! h = Some (OnAppend (is_success r))) /\
  (forall h r, (h, r) ∈ calls s -> ts !! h = Some (OnAppend (is_success r))).

Lemma step1_kinds (ts : list pc) f i p ctx f' p' l p0 :
  (forall k h, h ∈ handlers f k -> ts !! h = Some (OnAppend k)) ->
  ts !! i = Some p0 -> evolves p0 p -> (forall k r, p = OnCall k r -> is_success r = k) ->
  (forall r hs, to_call p = Some (r, hs) -> forall h, h ∈ hs -> ts !! h = Some (OnAppend (is_success r))) ->
  step1 f i p ctx = Some (f', p', l) ->
  evolves p0 p' /\ (forall k r, p' = OnCall k r -> is_success r = k) /\
  (forall k h, h ∈ handlers f' k -> ts !! h = Some (OnAppend k)) /\
  (forall r hs, to_call p' = Some (r, hs) -> forall h, h ∈ hs -> ts !! h = Some (OnAppend (is_success r))) /\
  (forall h r, (h, r) ∈ l -> ts !! h = Some (OnAppend (is_success r))).
Proof.
  intros Hh Hi He Hk Ht Hst. destruct p; simpl in Hst; repeat case_match; simplify_eq/=;
    split_and!; try done; try (by eauto); try set_solver.
  all: try (intros; simplify_eq; by apply Bool.eqb_prop).
  - intros k h. unfold add_handler. destruct success; simpl; destruct k; simpl;
      try (intros [?|?%list_elem_of_singleton]%elem_of_app); subst; auto.
  - intros r' hs [= <- <-] h Hin. eapply Ht; [done|]. set_solver.
  - intros h r' Hx%list_elem_of_singleton; simplify_eq. eapply Ht; [done|]. set_solver.
Qed.

Lemma step_kinds ts s i ctx s' : kinds ts s -> step s i ctx = Some s' -> kinds ts s'.
Proof.
  intros (He & Hk & Hh & Ht & Hc) (p & p' & f & l & Hi & Hst & ->)%future_step_inv.
  destruct (He i p Hi) as (p0 & Hp0 & Hev).
  destruct (step1_kinds ts _ _ _ _ _ _ _ p0 Hh Hp0 Hev (fun k r E => Hk i k r (eq_trans Hi (f_equal Some E)))
    (fun r hs => Ht i p r hs Hi) Hst) as (H1 & H2 & H3 & H4 & H5).
  split_and!; simpl; try done.
  - apply threads_insert; eauto.
  - intros j k r [(-> & E & _)|[? ?]]%list_lookup_insert_Some; eauto.
  - intros j q r hs [(-> & <- & _)|[? ?]]%list_lookup_insert_Some; eauto.
  - intros h r [?|?]%elem_of_app; eauto.
Qed.

(** Every registered handler whose registration has returned has been called,
    or will be by the completer. *)
Definition covered (s : sys) : Prop :=
  (forall h p k, threads s !! h = Some p -> registered p = Some k -> h ∈ handlers (fut s) k) /\
  (forall h k w p r hs, threads s !! h = Some (OnReturned k) -> threads s !! w = Some p ->
     to_call p = Some (r, hs) -> is_success r = k -> h ∈ hs \/ (h, r) ∈ calls s).

Lemma to_call_winner p r hs : to_call p = Some (r, hs) -> winner p = Some r /\ has_stored p = true.
Proof. destruct p; simpl; repeat case_match; naive_solver. Qed.

Lemma agree_winner s w p r hs :
  agree s -> threads s !! w = Some p -> to_call p = Some (r, hs) ->
  completed (fut s) = true /\ fresult (fut s) = Some r /\
  forall i p' r', threads s !! i = Some p' -> sees p' = Some r' -> r' = r.
Proof.
  intros Hag Hw Ht. destruct (to_call_winner _ _ _ Ht) as [Hwin Hsto]. unfold agree in Hag.
  destruct (completed (fut s)).
  - destruct Hag as (w' & p0 & r0 & Hw' & Hr & Hone & Hsee & _ & _ & Hst & _).
    destruct (decide (w = w')) as [->|Hne]; [|by rewrite (Hone w p Hw Hne) in Hwin].
    simplify_eq. split_and!; eauto.
  - destruct Hag as (_ & _ & _ & Hth). destruct (Hth _ _ Hw) as [? _]. congruence.
Qed.

Lemma handlers_grow f i p ctx f' p' l k h :
  step1 f i p ctx = Some (f', p', l) -> h ∈ handlers f k -> h ∈ handlers f' k.
Proof.
  intros Hst Hh. destruct p; simpl in Hst; repeat case_match; simplify_eq/=; try done.
  unfold add_handler. destruct success, k; simpl in *; rewrite ?elem_of_app; auto.
Qed.

Lemma step_registers f i p ctx f' p' l k :
  (forall k, registered p = Some k -> i ∈ handlers f k) ->
  step1 f i p ctx = Some (f', p', l) -> registered p' = Some k -> i ∈ handlers f' k.
Proof.
  intros Hr Hst Hk. destruct p; simpl in Hst; repeat case_match; simplify_eq/=; try done; auto.
  unfold add_handler. destruct k; simpl; rewrite elem_of_app; set_solver.
Qed.

(** A registration that returns without calling its handler does so before the
    completer takes its copy, or for the other kind of result. *)
Lemma step_covers s i p ctx f' p' l w q r hs k :
  agree s -> threads s !! i = Some p -> step1 (fut s) i p ctx = Some (f', p', l) ->
  p' = OnReturned k -> threads s !! w = Some q -> to_call q = Some (r, hs) -> is_success r = k ->
  (i, r) ∈ l.
Proof.
  intros Hag Hi Hst -> Hw Ht <-. destruct (agree_winner _ _ _ _ _ Hag Hw Ht) as (Hc & Hf & Hsee).
  destruct p; simpl in Hst; repeat case_match; simplify_eq/=; try congruence.
  - by rewrite Bool.eqb_reflx in *.
  - apply list_elem_of_singleton. f_equal. symmetry. eapply Hsee; [exact Hi|done].
Qed.

(** What the completer itself does to the handlers it has to call. *)
Lemma step_snapshot f i p ctx f' p' l r hs h :
  step1 f i p ctx = Some (f', p', l) -> to_call p' = Some (r, hs) ->
  (exists hs0, to_call p = Some (r, hs0) /\ (h ∈ hs0 -> h ∈ hs \/ (h, r) ∈ l)) \/
  (h ∈ handlers f (is_success r) -> h ∈ hs).
Proof.
  intros Hst Ht. destruct p; simpl in Hst; repeat case_match; simplify_eq/=; auto.
  - left. eexists. split; [done|]. set_solver.
  - left. eexists. split; [done|]. set_solver.
Qed.

Lemma step_covered s i ctx s' : agree s -> covered s -> step s i ctx = Some s' -> covered s'.
Proof.
  intros Hag [Hreg Hcov] (p & p' & f & l & Hi & Hst & ->)%future_step_inv. split; simpl.
  - intros h q k [(-> & <- & _)|[? Hh]]%list_lookup_insert_Some Hk.
    + eapply step_registers; [|done|done]. eauto.
    + eapply handlers_grow; eauto.
  - intros h k w q r hs Hh Hw Ht Hk. rewrite elem_of_app.
    apply list_lookup_insert_Some in Hh as [(-> & -> & _)|[Hhi Hh]].
    + apply list_lookup_insert_Some in Hw as [(-> & <- & _)|[_ Hw]]; [done|].
      right; right. by eapply step_covers.
    + assert (h ∈ handlers (fut s) k) as Hin by eauto.
      apply list_lookup_insert_Some in Hw as [(-> & <- & _)|[_ Hw]].
      * destruct (step_snapshot _ _ _ _ _ _ _ _ _ h Hst Ht) as [(hs0 & Ht0 & Hin0)|Hin0].
        -- destruct (Hcov h k w p r hs0 Hh Hi Ht0 Hk); [|by auto].
           destruct (Hin0 ltac:(done)); auto.
        -- left. apply Hin0. by rewrite Hk.
      * destruct (Hcov h k w q r hs Hh Hw Ht Hk); auto.
Qed.

(** ** The theorems *)

Lemma future_run_invariant (I : sys -> Prop) sched s s' :
  (forall x i c y, I x -> step x i c = Some y -> I y) -> I s -> run s sched = Some s' -> I s'.
Proof.
  intros Hstep. unfold run. revert s. induction sched as [|[i c] sched IH]; intros s Hs Hr; simpl in Hr.
  { by simplify_eq. }
  destruct (step s i c) as [s1|] eqn:E; [eauto|]. exfalso. clear -Hr. induction sched; by simpl in *.
Qed.

Lemma step_agree s i c s' : agree s -> step s i c = Some s' -> agree s'.
Proof.
  intros Hag (p & p' & f & l & Hi & Hst & ->)%future_step_inv.
  destruct (completed (fut s)) eqn:E; [by eapply step_after|by eapply step_before].
Qed.

Lemma start_ok ts :
  forallb starts ts = true -> agree (start ts) /\ kinds ts (start ts) /\ covered (start ts).
Proof.
  intros Hs. rewrite forallb_forall in Hs.
  assert (forall i p, ts !! i = Some p -> starts p = true) as Hst.
  { intros i p Hi. apply Hs, list_elem_of_In. by eapply list_elem_of_lookup_2. }
  split; [|split].
  - unfold agree; simpl. split_and!; try done. intros i p Hi. specialize (Hst i p Hi).
    destruct p as [| | | | | | | | | | | | | | |[|]]; done.
  - split_and!; simpl.
    + intros i p Hi. exists p. split; [done|]. specialize (Hst i p Hi).
      destruct p as [| | | | | | | | | | | | | | |[|]]; try done. by left.
    + intros i k r Hi. by specialize (Hst _ _ Hi).
    + intros [] h; by intros ?%elem_of_nil.
    + intros i p r hs Hi. specialize (Hst _ _ Hi). by destruct p as [| | | | | | | | | | | | | | |[|]].
    + by intros h r ?%elem_of_nil.
  - split; simpl; intros h; [intros p k Hh|intros k w p r hs Hh]; specialize (Hst _ _ Hh); by destruct p.
Qed.

Lemma future_reachable ts sched s :
  forallb starts ts = true -> run (start ts) sched = Some s ->
  agree s /\ kinds ts s /\ covered s.
Proof.
  intros Hts Hr. apply (future_run_invariant (fun s => agree s /\ kinds ts s /\ covered s) sched (start ts)).
  - intros x i c y (Ha & Hk & Hc) Hst.
    split; [by eapply step_agree|split; [by eapply step_kinds|by eapply step_covered]].
  - by apply start_ok.
  - done.
Qed.

(** Nothing has been handed to anybody. *)
Definition untouched (s : sys) : Prop :=
  completed (fut s) = false /\ calls s = [] /\
  forall i r, threads s !! i <> Some (AwaitReturned (Some r)) /\
    threads s !! i <> Some (CompleteReturned (Some r)).

(** Call [w], which completes the promise with [r], is the only one that does,
    and its result is the only one anybody gets. *)
Definition won_by (ts : list pc) (s : sys) (w : nat) (r : futureResult) : Prop :=
  ts !! w = Some (CompleteSwap r) /\ completed (fut s) = true /\
  (forall i r', threads s !! i = Some (CompleteReturned (Some r')) -> i = w /\ r' = r) /\
  (forall i r', threads s !! i = Some (AwaitReturned (Some r')) -> r' = r) /\
  (forall h r', (h, r') ∈ calls s -> r' = r /\ ts !! h = Some (OnAppend (is_success r))) /\
  (threads s !! w = Some (CompleteReturned (Some r)) ->
   forall h, threads s !! h = Some (OnReturned (is_success r)) -> (h, r) ∈ calls s).

Lemma agree_won ts s : agree s -> kinds ts s -> covered s -> completed (fut s) = true ->
  exists w r, won_by ts s w r.
Proof.
  intros Hag (He & _ & _ & _ & Hk) [_ Hcov] Hc. unfold agree in Hag. rewrite Hc in Hag.
  destruct Hag as (w & pw & r & Hw & Hr & Hone & Hsee & _ & _ & _ & _ & Hca).
  exists w, r. unfold won_by. split_and!; try done.
  - destruct (He w pw Hw) as (p0 & Hp0 & Hev). rewrite Hp0. f_equal.
    by destruct pw as [| | | | | | | | | | | | | | |[|]]; simplify_eq/=.
  - intros i r' Hi. destruct (decide (i = w)) as [->|Hne]; [by simplify_eq/=|].
    by specialize (Hone _ _ Hi Hne).
  - intros i r' Hi. by apply (Hsee i _ r' Hi).
  - intros h r' Hin. rewrite Forall_forall in Hca. pose proof (Hca _ Hin) as E. simpl in E. subst r'. auto.
  - intros Hd h Hh. by destruct (Hcov h _ w _ r [] Hh Hd eq_refl eq_refl) as [?%elem_of_nil|?].
Qed.

(** C31. However the goroutines interleave, either nothing has been completed, no
    await has returned a result and no handler has been called, or one call of
    Complete or Fail has won: every other returns without completing, every
    await that returns a result returns the winner's, every handler call so far
    was made with exactly that result and to a handler registered for its kind,
    and once the winner has returned every handler of that kind whose
    registration has returned has been called. *)
Theorem future_single_result ts sched s :
  forallb starts ts = true -> run (start ts) sched = Some s ->
  untouched s \/ exists w r, won_by ts s w r.
Proof.
  intros Hts Hr. destruct (future_reachable ts sched s Hts Hr) as (Ha & Hk & Hcov).
  destruct (completed (fut s)) eqn:Hc; [right; by apply agree_won|left].
  unfold agree in Ha. rewrite Hc in Ha. destruct Ha as (_ & _ & Hca & Hth). split_and!; try done.
  intros i r. split; intros Hi; by destruct (Hth _ _ Hi) as (? & ? & _).
Qed.

Definition demo : list pc := [Await; OnSuccess; Complete 5; OnFailure].

Definition demo_run : list (nat * bool) :=
  [(1, false); (1, false); (2, false); (2, false); (2, false); (2, false); (2, false); (2, false);
   (0, false); (0, false)]%nat.

Lemma future_single_result_witness :
  exists s, run (start demo) demo_run = Some s /\ threads s !! 0%nat = Some (AwaitReturned (Some (Ok 5))) /\
    (1%nat, Ok 5) ∈ calls s.
Proof.
  eexists. split; [vm_compute; reflexivity|]. split; [reflexivity|].
  destruct (future_single_result demo demo_run _ eq_refl ltac:(vm_compute; reflexivity))
    as [(H & _)|(w & r & Hw & _ & Hc & _ & _ & Hall)]; [discriminate H|].
  destruct (Hc 2%nat (Ok 5) eq_refl) as [<- <-]. apply Hall; reflexivity.
Defined.

(** A handler registered while the promise is being completed can be called
    twice: by its own registration and by the completing goroutine. *)
Theorem handler_called_twice :
  exists s, run (start [OnSuccess; Complete 5])
      [(1, false); (1, false); (0, false); (0, false); (0, false); (0, false); (1, false); (1, false);
       (1, false); (1, false)]%nat = Some s /\
    threads s = [OnReturned true; CompleteReturned (Some (Ok 5))] /\
    calls s = [(0%nat, Ok 5); (0%nat, Ok 5)].
Proof. eexists. split; [vm_compute; reflexivity|done]. Qed.

(** ** Waiting *)

(** After the completing call has stored its result, an await that begins
    returns it in two operations, without waiting. *)
Theorem await_after_completion ts sched s i w p r :
  forallb starts ts = true -> run (start ts) sched = Some s ->
  threads s !! w = Some p -> winner p = Some r -> has_stored p = true ->
  threads s !! i = Some Await ->
  exists s', run s [(i, false); (i, false)] = Some s' /\ threads s' !! i = Some (AwaitReturned (Some r)).
Proof.
  intros Hts Hr Hw Hwin Hsto Hi. destruct (future_reachable ts sched s Hts Hr) as (Ha & _ & _).
  unfold agree in Ha. destruct (completed (fut s)) eqn:Hc.
  - destruct Ha as (w' & p0 & r0 & Hw' & Hr0 & Hone & _ & _ & _ & Hst & _).
    destruct (decide (w = w')) as [->|Hne]; [|by rewrite (Hone w p Hw Hne) in Hwin]. simplify_eq.
    specialize (Hst Hsto). pose proof (lookup_lt_Some _ _ _ Hi).
    unfold run, step; simpl. rewrite Hi; simpl. rewrite Hc; simpl. rewrite list_lookup_insert_eq by done.
    simpl. rewrite Hst; simpl. eexists. split; [reflexivity|]. simpl.
    by rewrite list_insert_insert_eq, list_lookup_insert_eq.
  - destruct Ha as (_ & _ & _ & Hth). destruct (Hth w p Hw). congruence.
Qed.

Lemma await_after_completion_witness :
  exists s s', run (start demo) (take 8 demo_run) = Some s /\
    run s [(0, false); (0, false)]%nat = Some s' /\ threads s' !! 0%nat = Some (AwaitReturned (Some (Ok 5))).
Proof.
  eexists. destruct (await_after_completion demo (take 8 demo_run) _ 0 2 (CompleteReturned (Some (Ok 5))) (Ok 5) eq_refl
    ltac:(vm_compute; reflexivity) eq_refl eq_refl eq_refl eq_refl) as (s' & H1 & H2).
  exists s'. split; [vm_compute; reflexivity|]. split; [exact H1|exact H2].
Defined.

(** Sent and received: no result will be sent again. *)
Definition drained (s : sys) : Prop :=
  resultChan (fut s) = None /\ completed (fut s) = true /\
  Forall (fun p => match winner p with Some _ => has_sent p = true | None => True end) (threads s).

Lemma step_drained s i c s' : drained s -> step s i c = Some s' -> drained s'.
Proof.
  intros (Hch & Hc & Hall) (p & p' & f & l & Hi & Hst & ->)%future_step_inv.
  pose proof (proj1 (Forall_lookup _ _) Hall i p Hi) as Hp.
  assert (resultChan f = None /\ completed f = true /\
    match winner p' with Some _ => has_sent p' = true | None => True end) as (H1 & H2 & H3).
  { destruct p; simpl in Hst; rewrite ?Hch, ?Hc in Hst; repeat case_match; simplify_eq/=; try done.
    all: unfold add_handler; by destruct success. }
  split_and!; simpl; try done. by apply Forall_insert.
Qed.

(** The channel carries the result once.  A goroutine that waits for it when
    another has received it waits until its own context ends, however long the
    others run, although the promise is complete. *)
Theorem second_waiter_starves s sched s' i :
  drained s -> threads s !! i = Some AwaitSelect -> Forall (fun a => a <> (i, true)) sched ->
  run s sched = Some s' -> threads s' !! i = Some AwaitSelect.
Proof.
  unfold run. revert s. induction sched as [|[j c] sched IH]; intros s Hd Hi Hall Hr; simpl in Hr.
  { by simplify_eq. }
  apply Forall_cons in Hall as [Hj Hall].
  destruct (step s j c) as [s1|] eqn:E; [|exfalso; clear -Hr; induction sched; by simpl in *].
  apply (IH s1); [by eapply step_drained| |done|done].
  apply future_step_inv in E as (p & p' & f & l & Hp & Hst & ->). simpl.
  destruct (decide (j = i)) as [->|Hne]; [|by rewrite list_lookup_insert_ne].
  simplify_eq/=. destruct c; [done|]. destruct Hd as [Hch _]. by rewrite Hch in Hst.
Qed.

Definition two_waiters : list (nat * bool) :=
  [(0, false); (1, false); (2, false); (2, false); (2, false); (2, false); (2, false); (0, false);
   (0, false)]%nat.

Lemma second_waiter_starves_witness :
  exists s, run (start [Await; Await; Complete 5]) two_waiters = Some s /\
    threads s = [AwaitReturned (Some (Ok 5)); AwaitSelect; CompleteReturned (Some (Ok 5))] /\
    forall sched s', Forall (fun a => a <> (1%nat, true)) sched -> run s sched = Some s' ->
      threads s' !! 1%nat = Some AwaitSelect.
Proof.
  eexists. split; [vm_compute; reflexivity|]. split; [reflexivity|]. intros sched s' Hall Hr.
  refine (second_waiter_starves _ sched s' 1 _ _ Hall Hr); [|reflexivity].
  split; [reflexivity|]. split; [reflexivity|]. repeat constructor.
Defined.
