(* ===== verification/Compute.v ===== *)
(** * Compute pool (pkg/core/compute: pool.go, policy.go)

    Jobs, the bounded job channel, the workers, the four backpressure policies,
    the coalescing of jobs by key with its clean-up goroutines, Start and Stop, as
    a transition system in which any callers and workers move one atomic
    operation at a time.  What the handler returns, which case of a select is
    taken and when a job's context ends is chosen by the schedule.  A result is a
    number, an error another. *)
From S2P Require Import Prelude.

Inductive BackpressurePolicy : Type := Block | DropNewest | DropOldest | CoalesceByKey.

(** What a future receives: the handler's result, or context.Canceled. *)
Inductive JobResult : Type :=
| Handled (r : result Z Z)
| CanceledResult.

Record Job : Type := mkJob {
  Key : string;
  ctxDone : bool;
  superseded : bool;
  Result : option JobResult;        (** the channel of one slot *)
  cached : option JobResult;        (** what its future has received *)
  doneSig : bool                    (** the channel of one slot *)
}.

Definition new_job (k : string) : Job := mkJob k false false None None false.

(** Whether the slot of the result channel is taken. *)
Definition filled (j : Job) : bool := match Result j with Some _ => true | None => false end.

Definition set_superseded (j : Job) : Job := mkJob (Key j) (ctxDone j) true (Result j) (cached j) (doneSig j).

(** A send that does not block. *)
Definition deliver (r : JobResult) (j : Job) : Job :=
  match Result j with
  | None => mkJob (Key j) (ctxDone j) (superseded j) (Some r) (cached j) (doneSig j)
  | Some _ => j
  end.

Definition set_done (b : bool) (j : Job) : Job :=
  mkJob (Key j) (ctxDone j) (superseded j) (Result j) (cached j) b.

Definition cancel_job (j : Job) : Job := mkJob (Key j) true (superseded j) (Result j) (cached j) (doneSig j).

(** The receive of [Future.Get]: the result moves into the future. *)
Definition take_result (j : Job) : Job := mkJob (Key j) (ctxDone j) (superseded j) None (Result j) (doneSig j).

(** Where the goroutine of a worker is. *)
Inductive wpc : Type :=
| WSelect
| WTaken (j : nat)                      (** before the look at [superseded] *)
| WRun (j : nat)                        (** in the handler *)
| WReport (j : nat) (r : result Z Z)    (** before the result is sent *)
| WSignal (j : nat)                     (** before the deferred send on [doneSig] *)
| WExited.

#[export] Instance wpc_eq_dec : EqDecision wpc.
Proof. solve_decision. Defined.

(** A worker apart from its goroutines: [stopped] is its context. *)
Record Worker : Type := mkWorker { wrunning : bool; stopped : bool; ProcessedJobs : Z; FailedJobs : Z }.

Inductive pool_error : Type :=
| ErrNil
| ErrNotStarted
| ErrAlreadyStarted
| ErrStartWorker (i : nat)
| ErrContext
| ErrQueueFull.

#[export] Instance pool_error_eq_dec : EqDecision pool_error.
Proof. solve_decision. Defined.

(** Where a caller is. *)
Inductive pc : Type :=
| SubmitCheck (key : string)
| SendBlock (j : nat)
| SendTry (j : nat)
| SendOldest (j : nat)
| DropOne (j : nat)
| SendAgain (j : nat)
| Coalesce (j : nat)
| CoalesceSend (j : nat)
| CoalesceUndo (j : nat)
| Returned (r : result pool_error nat)
| CleanWait (j : nat)                   (** the clean-up goroutine of a coalesced job *)
| CleanLock (j : nat)
| StartSwap
| StartWorker (i : nat)
| StopSwap (from : option nat)          (** [from]: the worker whose start failed *)
| StopClose (from : option nat)
| StopWorker (i : nat) (from : option nat) (e : option pool_error)
| StopWait (i : nat) (from : option nat) (e : option pool_error)
| Finished (e : option pool_error)
| CleanExit.

(** The pool; the last five fields record what happened to the jobs. *)
Record ComputePool : Type := mkPool {
  policy : BackpressurePolicy;
  queueSize : nat;
  jobs : list Job;                      (** every job, by number *)
  jobChan : list nat;
  closed : bool;
  coalesceMap : gmap string nat;
  running : bool;
  workers : list Worker;
  goroutines : list (nat * wpc);        (** the worker and where it is *)
  callers : list pc;
  taken : list nat;                     (** the jobs that left the channel, in order *)
  dropped : list nat;                   (** those removed by DropOldest *)
  handled : list nat;                   (** those a worker is done with *)
  refused : list nat;                   (** those whose submission failed *)
  executed : list (nat * result Z Z)    (** the calls of the handler that returned *)
}.

(** The configuration that matters here. *)
Record Config : Type := mkConfig { Workers : Z; QueueSize : Z; Policy : BackpressurePolicy }.

(** [threads] is GOMAXPROCS. *)
Definition worker_count (threads : Z) (c : Config) : Z :=
  if Workers c =? 0 then (let w := threads / 2 in if w <? 1 then 1 else w) else Workers c.

(** A negative number of workers panics in [make]. *)
Definition NewComputePool (nil_argument : bool) (threads : Z) (c : Config) (cs : list pc)
    : outcome (result pool_error ComputePool) :=
  if nil_argument then Ret (Err ErrNil)
  else if worker_count threads c <? 0 then Panic
  else Ret (Ok (mkPool (Policy c) (Z.to_nat (if QueueSize c <? 1 then 1000 else QueueSize c)) [] [] false ∅ false
    (replicate (Z.to_nat (worker_count threads c)) (mkWorker false false 0 0)) [] cs [] [] [] [] [])).

Definition set_jobs (s : ComputePool) (v : list Job) : ComputePool :=
  mkPool (policy s) (queueSize s) v (jobChan s) (closed s) (coalesceMap s)
    (running s) (workers s) (goroutines s) (callers s) (taken s) (dropped s) (handled s) (refused s) (executed s).

Definition set_chan (s : ComputePool) (v : list nat) : ComputePool :=
  mkPool (policy s) (queueSize s) (jobs s) v (closed s) (coalesceMap s)
    (running s) (workers s) (goroutines s) (callers s) (taken s) (dropped s) (handled s) (refused s) (executed s).

Definition set_closed (s : ComputePool) (v : bool) : ComputePool :=
  mkPool (policy s) (queueSize s) (jobs s) (jobChan s) v (coalesceMap s)
    (running s) (workers s) (goroutines s) (callers s) (taken s) (dropped s) (handled s) (refused s) (executed s).

Definition set_map (s : ComputePool) (v : gmap string nat) : ComputePool :=
  mkPool (policy s) (queueSize s) (jobs s) (jobChan s) (closed s) v
    (running s) (workers s) (goroutines s) (callers s) (taken s) (dropped s) (handled s) (refused s) (executed s).

Definition set_running (s : ComputePool) (v : bool) : ComputePool :=
  mkPool (policy s) (queueSize s) (jobs s) (jobChan s) (closed s) (coalesceMap s)
    v (workers s) (goroutines s) (callers s) (taken s) (dropped s) (handled s) (refused s) (executed s).

Definition set_workers (s : ComputePool) (v : list Worker) : ComputePool :=
  mkPool (policy s) (queueSize s) (jobs s) (jobChan s) (closed s) (coalesceMap s)
    (running s) v (goroutines s) (callers s) (taken s) (dropped s) (handled s) (refused s) (executed s).

Definition set_goroutines (s : ComputePool) (v : list (nat * wpc)) : ComputePool :=
  mkPool (policy s) (queueSize s) (jobs s) (jobChan s) (closed s) (coalesceMap s)
    (running s) (workers s) v (callers s) (taken s) (dropped s) (handled s) (refused s) (executed s).

Definition set_callers (s : ComputePool) (v : list pc) : ComputePool :=
  mkPool (policy s) (queueSize s) (jobs s) (jobChan s) (closed s) (coalesceMap s)
    (running s) (workers s) (goroutines s) v (taken s) (dropped s) (handled s) (refused s) (executed s).

Definition set_taken (s : ComputePool) (v : list nat) : ComputePool :=
  mkPool (policy s) (queueSize s) (jobs s) (jobChan s) (closed s) (coalesceMap s)
    (running s) (workers s) (goroutines s) (callers s) v (dropped s) (handled s) (refused s) (executed s).

Definition set_dropped (s : ComputePool) (v : list nat) : ComputePool :=
  mkPool (policy s) (queueSize s) (jobs s) (jobChan s) (closed s) (coalesceMap s)
    (running s) (workers s) (goroutines s) (callers s) (taken s) v (handled s) (refused s) (executed s).

Definition set_handled (s : ComputePool) (v : list nat) : ComputePool :=
  mkPool (policy s) (queueSize s) (jobs s) (jobChan s) (closed s) (coalesceMap s)
    (running s) (workers s) (goroutines s) (callers s) (taken s) (dropped s) v (refused s) (executed s).

Definition set_refused (s : ComputePool) (v : list nat) : ComputePool :=
  mkPool (policy s) (queueSize s) (jobs s) (jobChan s) (closed s) (coalesceMap s)
    (running s) (workers s) (goroutines s) (callers s) (taken s) (dropped s) (handled s) v (executed s).

Definition set_executed (s : ComputePool) (v : list (nat * result Z Z)) : ComputePool :=
  mkPool (policy s) (queueSize s) (jobs s) (jobChan s) (closed s) (coalesceMap s)
    (running s) (workers s) (goroutines s) (callers s) (taken s) (dropped s) (handled s) (refused s) v.


Definition on_job (s : ComputePool) (j : nat) (f : Job -> Job) : ComputePool := set_jobs s (alter f j (jobs s)).

(** A receive; [drop] is the one of DropOldest. *)
Definition dequeue (s : ComputePool) (j : nat) (rest : list nat) (drop : bool) : ComputePool :=
  let s := set_taken (set_chan s rest) (taken s ++ [j]) in
  if drop then set_dropped s (dropped s ++ [j]) else s.

Definition enqueue (s : ComputePool) (j : nat) : ComputePool := set_chan s (jobChan s ++ [j]).

Definition refuse (s : ComputePool) (j : nat) : ComputePool := set_refused s (refused s ++ [j]).

(** The worker's counters after a call of the handler. *)
Definition count_call (r : result Z Z) (w : Worker) : Worker :=
  mkWorker (wrunning w) (stopped w) (i64 (ProcessedJobs w + 1))
    (match r with Ok _ => FailedJobs w | Err _ => i64 (FailedJobs w + 1) end).

Definition log_call (s : ComputePool) (i j : nat) (r : result Z Z) : ComputePool :=
  set_executed (set_workers s (alter (count_call r) i (workers s))) (executed s ++ [(j, r)]).

Definition job_at (s : ComputePool) (j : nat) (f : Job -> bool) : bool :=
  match jobs s !! j with Some b => f b | None => false end.

Definition has_room (s : ComputePool) : bool := (length (jobChan s) <? queueSize s)%nat.

Inductive choice : Type :=
| Go
| PickCtx
| PickDefault
| Answer (r : result Z Z).

(** ** The workers *)

(** One operation of a goroutine of worker [i]. *)
Definition worker_go (s : ComputePool) (i : nat) (p : wpc) (c : choice) : option (ComputePool * wpc) :=
  match p, c with
  | WSelect, Go =>
      match jobChan s with
      | j :: rest => Some (dequeue s j rest false, WTaken j)
      | [] => if closed s then Some (s, WExited) else None
      end
  | WSelect, PickCtx =>
      match workers s !! i with
      | Some w => if stopped w then Some (s, WExited) else None
      | None => None
      end
  | WTaken j, Go =>
      if job_at s j superseded then Some (on_job s j (deliver CanceledResult), WSignal j) else Some (s, WRun j)
  | WRun j, Answer r => Some (log_call s i j r, WReport j r)
  | WReport j r, Go =>
      if job_at s j (fun b => negb (filled b)) then Some (on_job s j (deliver (Handled r)), WSignal j) else None
  | WReport j r, PickCtx => if job_at s j ctxDone then Some (s, WSignal j) else None
  | WReport j r, PickDefault =>
      if job_at s j (fun b => filled b && negb (ctxDone b)) then Some (s, WSignal j) else None
  | WSignal j, Go => Some (set_handled (on_job s j (set_done true)) (handled s ++ [j]), WSelect)
  | _, _ => None
  end.

(** ** The callers *)

(** Which send the policy begins with. *)
Definition by_policy (p : BackpressurePolicy) (key : string) (j : nat) : pc :=
  match p with
  | Block => SendBlock j
  | DropNewest => SendTry j
  | DropOldest => SendOldest j
  | CoalesceByKey => if bool_decide (key = EmptyString) then SendTry j else Coalesce j
  end.

(** A send that does not block: [full] is where the caller goes without room. *)
Definition try_send (s : ComputePool) (j : nat) (full : ComputePool * pc) : outcome (ComputePool * pc) :=
  if closed s then Panic
  else Ret (if has_room s then (enqueue s j, Returned (Ok j)) else full).

Definition queue_full (s : ComputePool) (j : nat) : ComputePool * pc := (refuse s j, Returned (Err ErrQueueFull)).

(** The critical section of a coalesced submission. *)
Definition coalesce (s : ComputePool) (j : nat) (key : string) : ComputePool :=
  let s := match coalesceMap s !! key with
           | Some old => on_job s old (fun b => deliver CanceledResult (set_superseded b))
           | None => s
           end in
  set_map s (<[key := j]> (coalesceMap s)).

(** [worker.Start] once its flag was swapped. *)
Definition start_worker (s : ComputePool) (i : nat) (w : Worker) : ComputePool :=
  set_goroutines (set_workers s (<[i := mkWorker true (stopped w) (ProcessedJobs w) (FailedJobs w)]> (workers s)))
    (goroutines s ++ [(i, WSelect)]).

(** What the caller of [Stop], or the [Start] that called it, returns. *)
Definition after_stop (from : option nat) (e : option pool_error) : pc :=
  Finished (match from with Some i => Some (ErrStartWorker i) | None => e end).

(** No goroutine of worker [i] runs any more. *)
Definition all_exited (s : ComputePool) (i : nat) : bool :=
  forallb (fun g => negb (fst g =? i)%nat || bool_decide (snd g = WExited)) (goroutines s).

Definition caller_go (s : ComputePool) (p : pc) (c : choice) : option (outcome (ComputePool * pc)) :=
  match p, c with
  | SubmitCheck key, Go =>
      if running s
      then let j := length (jobs s) in
           Some (Ret (set_jobs s (jobs s ++ [new_job key]), by_policy (policy s) key j))
      else Some (Ret (s, Returned (Err ErrNotStarted)))
  | SendBlock j, Go =>
      if closed s then Some Panic
      else if has_room s then Some (Ret (enqueue s j, Returned (Ok j))) else None
  | SendBlock j, PickCtx =>
      if job_at s j ctxDone then Some (Ret (refuse s j, Returned (Err ErrContext))) else None
  | SendTry j, Go => Some (try_send s j (queue_full s j))
  | SendOldest j, Go => Some (try_send s j (s, DropOne j))
  | DropOne j, Go =>
      Some (Ret (match jobChan s with
                 | k :: rest => (dequeue s k rest true, SendAgain j)
                 | [] => if closed s then (s, SendAgain j) else queue_full s j
                 end))
  | SendAgain j, Go => Some (try_send s j (queue_full s j))
  | Coalesce j, Go =>
      match jobs s !! j with
      | Some b => Some (Ret (coalesce s j (Key b), CoalesceSend j))
      | None => None
      end
  | CoalesceSend j, Go =>
      if closed s then Some Panic
      else Some (Ret (if has_room s
                      then (set_callers (enqueue s j) (callers s ++ [CleanWait j]), Returned (Ok j))
                      else (s, CoalesceUndo j)))
  | CoalesceUndo j, Go =>
      match jobs s !! j with
      | Some b => Some (Ret (queue_full (set_map s (delete (Key b) (coalesceMap s))) j))
      | None => None
      end
  | CleanWait j, Go => if job_at s j doneSig then Some (Ret (on_job s j (set_done false), CleanLock j)) else None
  | CleanLock j, Go =>
      match jobs s !! j with
      | Some b =>
          Some (Ret (if bool_decide (coalesceMap s !! Key b = Some j) then set_map s (delete (Key b) (coalesceMap s)) else s,
                     CleanExit))
      | None => None
      end
  | StartSwap, Go =>
      Some (Ret (if running s then (s, Finished (Some ErrAlreadyStarted)) else (set_running s true, StartWorker 0)))
  | StartWorker i, Go =>
      Some (Ret (match workers s !! i with
                 | Some w => if wrunning w then (s, StopSwap (Some i)) else (start_worker s i w, StartWorker (S i))
                 | None => (s, Finished None)
                 end))
  | StopSwap from, Go =>
      Some (Ret (if running s then (set_running s false, StopClose from) else (s, after_stop from None)))
  | StopClose from, Go => Some (if closed s then Panic else Ret (set_closed s true, StopWorker 0 from None))
  | StopWorker i from e, Go =>
      Some (Ret (match workers s !! i with
                 | Some w =>
                     if wrunning w
                     then (set_workers s (<[i := mkWorker false true (ProcessedJobs w) (FailedJobs w)]> (workers s)),
                           StopWait i from e)
                     else (s, StopWorker (S i) from e)
                 | None => (s, after_stop from e)
                 end))
  | StopWait i from e, Go => if all_exited s i then Some (Ret (s, StopWorker (S i) from e)) else None
  | StopWait i from e, PickCtx => Some (Ret (s, StopWorker (S i) from (Some ErrContext)))
  | _, _ => None
  end.

Inductive action : Type :=
| Work (k : nat) (c : choice)
| Call (k : nat) (c : choice)
| CancelContext (j : nat)
| GetResult (j : nat).

(** One operation of the whole: a panic ends the program. *)
Definition pstep (s : ComputePool) (a : action) : option (outcome ComputePool) :=
  match a with
  | Work k c =>
      match goroutines s !! k with
      | Some (i, p) =>
          match worker_go s i p c with
          | Some (s', p') => Some (Ret (set_goroutines s' (<[k := (i, p')]> (goroutines s'))))
          | None => None
          end
      | None => None
      end
  | Call k c =>
      match callers s !! k with
      | Some p =>
          match caller_go s p c with
          | Some (Ret (s', p')) => Some (Ret (set_callers s' (<[k := p']> (callers s'))))
          | Some Panic => Some Panic
          | None => None
          end
      | None => None
      end
  | CancelContext j => Some (Ret (on_job s j cancel_job))
  | GetResult j =>
      if job_at s j filled then Some (Ret (on_job s j take_result)) else None
  end.

(** A schedule: operations that are not enabled are skipped. *)
Fixpoint run (s : ComputePool) (acts : list action) : outcome ComputePool :=
  match acts with
  | [] => Ret s
  | a :: acts =>
      match pstep s a with
      | None => run s acts
      | Some (Ret s') => run s' acts
      | Some Panic => Panic
      end
  end.

(** ** Where a job is *)

Definition occ (j : nat) (l : list nat) : nat := count_occ Nat.eq_dec l j.

#[global] Arguments occ : simpl never.
#[global] Arguments coalesce : simpl never.

Lemma occ_app (j : nat) (l k : list nat) : occ j (l ++ k) = (occ j l + occ j k)%nat.
Proof. apply count_occ_app. Qed.

Lemma occ_cons (j i : nat) (l : list nat) : occ j (i :: l) = (occ j [i] + occ j l)%nat.
Proof. unfold occ. simpl. by destruct (Nat.eq_dec i j). Qed.

Lemma occ_single (j i : nat) : occ j [i] = Nat.b2n (Nat.eqb i j).
Proof. unfold occ. simpl. destruct (Nat.eq_dec i j) as [->|]; [by rewrite Nat.eqb_refl|]. by destruct (Nat.eqb_spec i j). Qed.

Lemma occ_self (j : nat) : occ j [j] = 1%nat.
Proof. rewrite occ_single. by rewrite Nat.eqb_refl. Qed.

Lemma occ_nil (j : nat) : occ j [] = 0%nat.
Proof. done. Qed.

Lemma occ_elem (j : nat) (l : list nat) : j ∈ l <-> (0 < occ j l)%nat.
Proof. rewrite list_elem_of_In. apply count_occ_In. Qed.

Lemma occ_replace {A} (f : A -> list nat) (l : list A) (k j : nat) (p q : A) :
  l !! k = Some p -> (occ j (flat_map f (<[k := q]> l)) + occ j (f p) = occ j (flat_map f l) + occ j (f q))%nat.
Proof.
  revert k. induction l as [|a l IH]; intros [|k]; simpl; intros H; simplify_eq; rewrite !occ_app; [lia|].
  specialize (IH k H). lia.
Qed.

Lemma occ_lookup {A} (f : A -> list nat) (l : list A) (k j : nat) (p : A) :
  l !! k = Some p -> (occ j (f p) <= occ j (flat_map f l))%nat.
Proof.
  revert k. induction l as [|a l IH]; intros [|k]; simpl; intros H; simplify_eq; rewrite occ_app; [lia|].
  specialize (IH k H). lia.
Qed.

Lemma occ_lookup_two {A} (f : A -> list nat) (l : list A) (k k' j : nat) (p q : A) :
  k <> k' -> l !! k = Some p -> l !! k' = Some q -> (occ j (f p) + occ j (f q) <= occ j (flat_map f l))%nat.
Proof.
  revert k k'. induction l as [|a l IH]; intros [|k] [|k'] Hne; simpl; intros H H'; simplify_eq; rewrite occ_app.
  - pose proof (occ_lookup f l k' j q H'). lia.
  - pose proof (occ_lookup f l k j p H). lia.
  - specialize (IH k k' ltac:(lia) H H'). lia.
Qed.

(** The job a caller is about to send, the one a worker holds. *)
Definition sending (p : pc) : list nat :=
  match p with
  | SendBlock j | SendTry j | SendOldest j | DropOne j | SendAgain j | Coalesce j | CoalesceSend j | CoalesceUndo j => [j]
  | _ => []
  end.

Definition holding (g : nat * wpc) : list nat :=
  match snd g with
  | WTaken j | WRun j | WReport j _ | WSignal j => [j]
  | _ => []
  end.

Definition places (s : ComputePool) (j : nat) : nat :=
  (occ j (flat_map sending (callers s)) + occ j (jobChan s) + occ j (flat_map holding (goroutines s))
   + occ j (dropped s) + occ j (handled s) + occ j (refused s))%nat.

(** Every job is in one place, and the channel within its capacity. *)
Definition placed (s : ComputePool) : Prop :=
  (forall j, places s j = Nat.b2n (j <? length (jobs s))%nat) /\ (length (jobChan s) <= queueSize s)%nat.

Ltac step_cases H :=
  unfold pstep, worker_go, caller_go, try_send, queue_full in H; repeat case_match; simplify_eq.

(** How a count over the callers and the goroutines changes with the one that moved. *)
Ltac replaced i :=
  repeat match goal with
  | H : callers ?s !! ?k = Some ?p |- context [flat_map ?f (<[?k := ?q]> (callers ?s ++ ?r))] =>
      generalize (occ_replace f (callers s ++ r) k i p q (lookup_app_l_Some _ r _ _ H)); rewrite flat_map_app;
      generalize (occ_lookup f _ k i p H);
      generalize (occ i (flat_map f (<[k := q]> (callers s ++ r)))); intros ???
  | H : callers ?s !! ?k = Some ?p |- context [flat_map ?f (<[?k := ?q]> (callers ?s))] =>
      generalize (occ_replace f _ k i p q H); generalize (occ_lookup f _ k i p H);
      generalize (occ i (flat_map f (<[k := q]> (callers s)))); intros ???
  | H : goroutines ?s !! ?k = Some ?p |- context [flat_map ?f (<[?k := ?q]> (goroutines ?s))] =>
      generalize (occ_replace f _ k i p q H); generalize (occ_lookup f _ k i p H);
      generalize (occ i (flat_map f (<[k := q]> (goroutines s)))); intros ???
  end.

Ltac counted :=
  rewrite ?flat_map_app, ?occ_app in *; simpl flat_map in *; rewrite ?app_nil_r, ?occ_nil in *; lia.

Lemma sending_by_policy (p : BackpressurePolicy) (key : string) (j : nat) : sending (by_policy p key j) = [j].
Proof. destruct p; simpl; repeat case_match; done. Qed.

Lemma coalesce_rest (s : ComputePool) (j : nat) (key : string) :
  callers (coalesce s j key) = callers s /\ goroutines (coalesce s j key) = goroutines s
  /\ jobChan (coalesce s j key) = jobChan s /\ dropped (coalesce s j key) = dropped s
  /\ handled (coalesce s j key) = handled s /\ refused (coalesce s j key) = refused s
  /\ queueSize (coalesce s j key) = queueSize s /\ length (jobs (coalesce s j key)) = length (jobs s).
Proof. unfold coalesce. case_match; simpl; rewrite ?length_alter; done. Qed.

Lemma placed_step (s s' : ComputePool) (a : action) : placed s -> pstep s a = Some (Ret s') -> placed s'.
Proof.
  intros [Hp Hl] H. unfold placed, places in *. step_cases H.
  all: try match goal with |- context [coalesce ?s ?j ?k] =>
         destruct (coalesce_rest s j k) as (E0&E1&E2&E3&E4&E5&E6&E7); generalize dependent (coalesce s j k);
         intros c ????????; simpl; rewrite E0, E1, E2, E3, E4, E5, E6, E7 end.
  all: simpl in *; rewrite ?length_alter; split;
    [intros z; specialize (Hp z) | unfold has_room in *; rewrite ?length_app; simpl length; try lia].
  all: try match goal with H : (_ <? _)%nat = true |- (length _ + _ <= _)%nat => apply Nat.ltb_lt in H; lia end.
  all: try match goal with H : jobChan _ = ?a :: ?l |- _ => rewrite ?(occ_cons _ a l) in Hp end.
  all: try match goal with H : jobChan _ = [] |- _ => rewrite H; simpl length; try lia end.
  all: replaced z; rewrite ?sending_by_policy in *; cbn [sending holding snd] in *; try counted.
  rewrite length_app, occ_single in *. simpl in *. destruct (Nat.eqb_spec (length (jobs s)) z) as [<-|]; simpl in *.
  - rewrite Nat.ltb_irrefl in Hp. rewrite (proj2 (Nat.ltb_lt _ _)) by lia. simpl in *. counted.
  - replace (z <? length (jobs s) + 1)%nat with (z <? length (jobs s))%nat; [counted|].
    apply eq_iff_eq_true. rewrite !Nat.ltb_lt. lia.
Qed.

Lemma on_job_lookup (s : ComputePool) (j i : nat) (f : Job -> Job) (b : Job) :
  alter f j (jobs s) !! i = Some b -> exists b0, jobs s !! i = Some b0 /\ b = if decide (i = j) then f b0 else b0.
Proof.
  destruct (decide (i = j)) as [->|Hne].
  - rewrite list_lookup_alter_eq. destruct (jobs s !! j) as [b0|]; simpl; intros; simplify_eq; eauto.
  - rewrite list_lookup_alter_ne by congruence. eauto.
Qed.

Lemma coalesce_lookup (s : ComputePool) (j i : nat) (key : string) (b : Job) :
  jobs (coalesce s j key) !! i = Some b ->
  exists b0, jobs s !! i = Some b0
    /\ b = if decide (coalesceMap s !! key = Some i) then deliver CanceledResult (set_superseded b0) else b0.
Proof.
  unfold coalesce. destruct (coalesceMap s !! key) as [o|]; simpl.
  - intros H. apply on_job_lookup in H as (b0 & H & ->). exists b0. split; [done|].
    repeat case_decide; simplify_eq; done.
  - intros H. by exists b.
Qed.

(** What a future can hold. *)
Definition honest_job (s : ComputePool) (j : nat) (b : Job) : Prop :=
  (forall r, Result b = Some (Handled r) \/ cached b = Some (Handled r) -> (j, r) ∈ executed s)
  /\ (Result b = Some CanceledResult \/ cached b = Some CanceledResult -> superseded b = true)
  /\ (superseded b = true -> policy s = CoalesceByKey /\ exists i b', i <> j /\ jobs s !! i = Some b' /\ Key b' = Key b).

Definition honest (s : ComputePool) : Prop :=
  (forall j b, jobs s !! j = Some b -> honest_job s j b)
  /\ (forall k i j r, goroutines s !! k = Some (i, WReport j r) -> (j, r) ∈ executed s)
  /\ (forall k j, coalesceMap s !! k = Some j ->
        (exists b, jobs s !! j = Some b /\ Key b = k) /\ forall n, callers s !! n <> Some (Coalesce j))
  /\ (forall n j, callers s !! n = Some (Coalesce j) -> policy s = CoalesceByKey).

(** The fields of jobs that operations leave alone. *)
Definition keys_kept (s s' : ComputePool) : Prop :=
  forall j b, jobs s !! j = Some b -> exists b', jobs s' !! j = Some b' /\ Key b' = Key b
    /\ (superseded b = true -> superseded b' = true) /\ (ctxDone b = true -> ctxDone b' = true)
    /\ (is_Some (Result b) \/ is_Some (cached b) -> is_Some (Result b') \/ is_Some (cached b')).

Lemma keys_kept_refl (s s' : ComputePool) : jobs s' = jobs s -> keys_kept s s'.
Proof. intros E j b H. rewrite E. eauto 10. Qed.

Lemma keys_kept_alter (s s' : ComputePool) (i : nat) (f : Job -> Job) :
  (forall b, jobs s !! i = Some b -> Key (f b) = Key b /\ (superseded b = true -> superseded (f b) = true)
     /\ (ctxDone b = true -> ctxDone (f b) = true)
     /\ (is_Some (Result b) \/ is_Some (cached b) -> is_Some (Result (f b)) \/ is_Some (cached (f b)))) ->
  jobs s' = alter f i (jobs s) -> keys_kept s s'.
Proof.
  intros Hf E j b H. rewrite E. destruct (decide (i = j)) as [->|Hne].
  - exists (f b). rewrite list_lookup_alter_eq, H. split; [done|]. by apply Hf.
  - exists b. rewrite list_lookup_alter_ne by done. eauto 10.
Qed.

Lemma deliver_kept (r : JobResult) (b : Job) :
  Key (deliver r b) = Key b /\ superseded (deliver r b) = superseded b /\ ctxDone (deliver r b) = ctxDone b
  /\ cached (deliver r b) = cached b /\ is_Some (Result (deliver r b)).
Proof. unfold deliver. case_match; simpl; eauto 10. Qed.

Lemma keys_kept_step (s s' : ComputePool) (a : action) : pstep s a = Some (Ret s') -> keys_kept s s'.
Proof.
  intros H. step_cases H. all: try (by apply keys_kept_refl).
  all: try (eapply keys_kept_alter; [|reflexivity]; intros b Hb; unfold deliver; repeat case_match; simpl in *; naive_solver).
  - intros i b Hb. exists b. simpl. rewrite lookup_app_l by (by eapply lookup_lt_Some). eauto 10.
  - intros i b Hb. destruct (jobs (coalesce s j (Key j0)) !! i) as [b'|] eqn:E.
    + exists b'. split; [done|]. apply coalesce_lookup in E as (b0 & H0 & ->). simplify_eq.
      case_decide; [|eauto 10]. unfold deliver. case_match; simpl in *; naive_solver.
    + exfalso. apply lookup_ge_None in E. apply lookup_lt_Some in Hb.
      destruct (coalesce_rest s j (Key j0)) as (_&_&_&_&_&_&_&E7). lia.
  - eapply keys_kept_alter; [|reflexivity]. intros b Hb. unfold job_at, filled in *. rewrite Hb in *.
    case_match; naive_solver.
Qed.

Lemma insert_lookup_cases {A} (l : list A) (k n : nat) (p q : A) :
  <[k := q]> l !! n = Some p -> (n = k /\ p = q) \/ (n <> k /\ l !! n = Some p).
Proof.
  intros H. apply list_lookup_insert_Some in H. naive_solver.
Qed.

(** The log of calls only grows, and a report is logged before it is made. *)
Lemma reports_step (s s' : ComputePool) (a : action) :
  (forall k i j r, goroutines s !! k = Some (i, WReport j r) -> (j, r) ∈ executed s) ->
  pstep s a = Some (Ret s') ->
  (forall k i j r, goroutines s' !! k = Some (i, WReport j r) -> (j, r) ∈ executed s')
  /\ (forall e, e ∈ executed s -> e ∈ executed s').
Proof.
  intros Hr H. split.
  - intros k i j r Hk. step_cases H; simpl in *; try (by eapply Hr; eauto).
    all: try (unfold coalesce in *; repeat case_match; by eapply Hr; eauto).
    all: try (apply insert_lookup_cases in Hk as [[_ ?]|[_ Hk]]; simplify_eq; by eapply Hr; eauto).
    all: try (apply insert_lookup_cases in Hk as [[_ ?]|[_ Hk]]; simplify_eq; set_solver).
    apply lookup_app_Some in Hk as [Hk|[_ Hk]]; [by eapply Hr|]. apply list_lookup_singleton_Some in Hk as [_ Hk]. simplify_eq.
  - intros e He. step_cases H; simpl in *; try done; [set_solver|]. unfold coalesce. by case_match.
Qed.

Lemma policy_step (s s' : ComputePool) (a : action) :
  pstep s a = Some (Ret s') -> policy s' = policy s /\ queueSize s' = queueSize s.
Proof. intros H. step_cases H; simpl; try done. unfold coalesce. by case_match. Qed.

(** How a job may change: its results stay, come from the log or announce that it
    was superseded. *)
Definition honest_change (s s' : ComputePool) (j : nat) (b b' : Job) : Prop :=
  Key b' = Key b /\ (superseded b = true -> superseded b' = true)
  /\ (forall r, Result b' = Some r \/ cached b' = Some r -> Result b = Some r \/ cached b = Some r
        \/ match r with Handled x => (j, x) ∈ executed s' | CanceledResult => superseded b' = true end)
  /\ (superseded b' = true -> superseded b = true
        \/ (policy s = CoalesceByKey /\ exists i b0, i <> j /\ jobs s !! i = Some b0 /\ Key b0 = Key b)).

Lemma honest_kept (s s' : ComputePool) (j : nat) (b b' : Job) :
  keys_kept s s' -> (forall e, e ∈ executed s -> e ∈ executed s') -> policy s' = policy s ->
  honest_job s j b -> honest_change s s' j b b' -> honest_job s' j b'.
Proof.
  intros Hk He Hp (H1 & H2 & H3) (Ek & Es & Er & Ew). split; [|split].
  - intros r Hr. destruct (Er _ Hr) as [H|[H|H]]; [auto..|done].
  - intros Hr. destruct (Er _ Hr) as [H|[H|H]]; [auto..|done].
  - intros Hs. rewrite Hp. assert (policy s = CoalesceByKey /\ exists i b0, i <> j /\ jobs s !! i = Some b0 /\ Key b0 = Key b)
      as (Hpol & i & b0 & Hne & Hi & Hb0) by (destruct (Ew Hs); auto).
    split; [done|]. destruct (Hk i b0 Hi) as (b1 & Hb1 & E & _). exists i, b1. rewrite E, Ek. done.
Qed.

Lemma honest_change_refl (s s' : ComputePool) (j : nat) (b : Job) : honest_change s s' j b b.
Proof. unfold honest_change. naive_solver. Qed.

Lemma honest_new (s : ComputePool) (j : nat) (key : string) : honest_job s j (new_job key).
Proof. unfold honest_job. naive_solver. Qed.

(** Every job of the state after a step is new or one that changed as it may. *)
Lemma change_step (s s' : ComputePool) (a : action) (j : nat) (b' : Job) :
  honest s -> pstep s a = Some (Ret s') -> jobs s' !! j = Some b' ->
  (exists key, b' = new_job key) \/ exists b, jobs s !! j = Some b /\ honest_change s s' j b b'.
Proof.
  intros (Hj & Hr & Hm & Hc) H Hb. step_cases H; simpl in Hb.
  all: try (right; exists b'; split; [done|]; apply honest_change_refl).
  all: try (apply on_job_lookup in Hb as (b & Hb & ->); right; exists b; split; [done|]; case_decide; [|apply honest_change_refl]; subst;
      unfold honest_change, deliver, job_at in *; simpl in *; rewrite ?Hb in *; repeat case_match; simpl in *; naive_solver).
  - apply lookup_app_Some in Hb as [Hb|[_ Hb]]; [right; exists b'; split; [done|]; apply honest_change_refl|].
    apply list_lookup_singleton_Some in Hb as [_ Hb]. left. eauto.
  - right. apply (coalesce_lookup s j0) in Hb as (b & Hb & ->). exists b. split; [done|]. case_decide as D; [|apply honest_change_refl].
    pose proof (Hm _ _ D) as [(b0 & Hb0 & Ek) Hn]. simplify_eq.
    destruct (deliver_kept CanceledResult (set_superseded b)) as (E1 & E2 & E3 & E4 & _).
    split; [by rewrite E1|]. rewrite E2, E4. simpl. split; [done|]. split.
    + intros r Hres. unfold deliver in Hres. clear -Hres; case_match; simpl in *; naive_solver.
    + intros _. right. split; [exact (Hc _ _ H1)|]. exists j0, j1. split; [|done]. intros ->. by apply (Hn k).
Qed.

Lemma unique_caller (s : ComputePool) (n k j : nat) (p q : pc) :
  placed s -> callers s !! n = Some p -> callers s !! k = Some q -> sending p = [j] -> sending q = [j] -> n = k.
Proof.
  intros [Hp _] Hn Hk Ep Eq. destruct (decide (n = k)) as [|Hne]; [done|exfalso].
  pose proof (occ_lookup_two sending _ _ _ j _ _ Hne Hn Hk) as Ho. rewrite Ep, Eq, occ_self in Ho.
  specialize (Hp j). unfold places in Hp. destruct (j <? _)%nat; simpl in *; lia.
Qed.

Lemma caller_job_exists (s : ComputePool) (n j : nat) (p : pc) :
  placed s -> callers s !! n = Some p -> sending p = [j] -> (j < length (jobs s))%nat.
Proof.
  intros [Hp _] Hn Ep. pose proof (occ_lookup sending _ _ j _ Hn) as Ho. rewrite Ep, occ_self in Ho.
  specialize (Hp j). unfold places in Hp. destruct (Nat.ltb_spec j (length (jobs s))); simpl in *; lia.
Qed.

(** Who is about to coalesce after a step was so before, or has just been created. *)
Lemma coalescing_step (s s' : ComputePool) (a : action) (n j : nat) :
  placed s -> pstep s a = Some (Ret s') -> callers s' !! n = Some (Coalesce j) ->
  (callers s !! n = Some (Coalesce j) /\ forall k, coalesceMap s' !! k = Some j -> coalesceMap s !! k = Some j)
  \/ (policy s = CoalesceByKey /\ j = length (jobs s) /\ coalesceMap s' = coalesceMap s).
Proof.
  intros Hp H Hn. step_cases H; simpl in Hn |- *.
  all: try (left; split; [done|auto]; fail).
  all: try (apply insert_lookup_cases in Hn as [[_ Hn]|[_ Hn]]; [discriminate Hn|];
            left; split; [done|]; intros ?; rewrite ?lookup_delete_Some; naive_solver).
  - apply insert_lookup_cases in Hn as [[_ Hn]|[_ Hn]]; [|left; auto]. right.
    unfold by_policy in Hn. repeat case_match; simplify_eq; done.
  - assert (callers s !! n = Some (Coalesce j)) as Hn'.
    { replace (callers _) with (callers s) in Hn by (by case_match).
      apply insert_lookup_cases in Hn as [[_ Hn]|[_ Hn]]; [discriminate Hn|done]. }
    left. split; [done|]. intros k0. replace (coalesceMap _) with (coalesceMap s) by (by case_match).
    intros Hk. apply lookup_insert_Some in Hk as [[_ ->]|[_ ?]]; [|done]. exfalso.
    assert (n = k) as -> by (by eapply (unique_caller s n k j)).
    replace (callers _) with (callers s) in Hn by (by case_match).
    rewrite list_lookup_insert_eq in Hn by (by eapply lookup_lt_Some). discriminate Hn.
  - apply insert_lookup_cases in Hn as [[_ Hn]|[_ Hn]]; [discriminate Hn|].
    apply lookup_app_Some in Hn as [Hn|[_ Hn]]; [left; auto|]. apply list_lookup_singleton_Some in Hn as [_ Hn]. discriminate Hn.
Qed.

Lemma map_step (s s' : ComputePool) (a : action) (k : string) (j : nat) :
  pstep s a = Some (Ret s') -> coalesceMap s' !! k = Some j ->
  coalesceMap s !! k = Some j \/ exists n b, callers s !! n = Some (Coalesce j) /\ jobs s !! j = Some b /\ Key b = k.
Proof.
  intros H Hk. step_cases H; simpl in Hk; try (by left).
  all: try (left; by apply lookup_delete_Some in Hk as [_ Hk]).
  replace (coalesceMap _) with (coalesceMap s) in Hk by (by case_match).
  apply lookup_insert_Some in Hk as [[<- ->]|[_ ?]]; [|by left]. right. eauto.
Qed.

Lemma honest_step (s s' : ComputePool) (a : action) :
  honest s -> placed s -> pstep s a = Some (Ret s') -> honest s'.
Proof.
  intros Hh Hp H. pose proof Hh as (Hj & Hr & Hm & Hc). pose proof (keys_kept_step _ _ _ H) as Hk.
  destruct (reports_step _ _ _ Hr H) as [Hr' He]. destruct (policy_step _ _ _ H) as [Epol _].
  split; [|split; [done|split]].
  - intros j b' Hb'. destruct (change_step _ _ _ _ _ Hh H Hb') as [[key ->]|(b & Hb & Hch)]; [apply honest_new|].
    by eapply honest_kept; eauto.
  - intros k j Hkj. split.
    + assert (exists b, jobs s !! j = Some b /\ Key b = k) as (b & Hb & Ek).
      { destruct (map_step _ _ _ _ _ H Hkj) as [H0|(n & b & _ & ?)]; [by apply Hm|eauto]. }
      destruct (Hk _ _ Hb) as (b' & Hb' & E & _). exists b'. rewrite E. done.
    + intros n Hn. destruct (coalescing_step _ _ _ _ _ Hp H Hn) as [[Hn' Hback]|(_ & -> & E)].
      * by apply (proj2 (Hm k j (Hback k Hkj)) n).
      * rewrite E in Hkj. destruct (proj1 (Hm _ _ Hkj)) as (b & Hb & _). apply lookup_lt_Some in Hb. lia.
  - intros n j Hn. rewrite Epol. destruct (coalescing_step _ _ _ _ _ Hp H Hn) as [[Hn' _]|[? _]]; [by eapply Hc|done].
Qed.

(** ** A job is executed once, and its future is answered *)

(** The job a worker has finished with but not yet signalled. *)
Definition reporting (g : nat * wpc) : list nat :=
  match snd g with
  | WReport j _ | WSignal j => [j]
  | _ => []
  end.

Lemma reporting_holding (j : nat) (l : list (nat * wpc)) :
  (occ j (flat_map reporting l) <= occ j (flat_map holding l))%nat.
Proof.
  induction l as [|[i p] l IH]; [done|]. simpl. rewrite !occ_app.
  enough (occ j (reporting (i, p)) <= occ j (holding (i, p)))%nat by lia. destruct p; unfold reporting, holding; simpl; rewrite ?occ_nil; lia.
Qed.

Definition once (s : ComputePool) : Prop :=
  forall j, (occ j (executed s).*1 <= occ j (flat_map reporting (goroutines s)) + occ j (handled s))%nat.

Lemma once_step (s s' : ComputePool) (a : action) : once s -> pstep s a = Some (Ret s') -> once s'.
Proof.
  intros Ho H z. specialize (Ho z). step_cases H; simpl in *; try done.
  all: try (rewrite fmap_app, occ_app; simpl).
  all: replaced z; cbn [reporting snd] in *; try counted.
  unfold coalesce. case_match; simpl; done.
Qed.

Definition answered (b : Job) : Prop := is_Some (Result b) \/ is_Some (cached b) \/ ctxDone b = true.

(** Every job that a worker is done with was answered, or its context ended. *)
Definition answering (s : ComputePool) : Prop :=
  (forall j, j ∈ handled s -> exists b, jobs s !! j = Some b /\ answered b)
  /\ (forall k i j, goroutines s !! k = Some (i, WSignal j) -> exists b, jobs s !! j = Some b /\ answered b).

Lemma answered_kept (s s' : ComputePool) (j : nat) :
  keys_kept s s' -> (exists b, jobs s !! j = Some b /\ answered b) -> exists b, jobs s' !! j = Some b /\ answered b.
Proof.
  intros Hk (b & Hb & Ha). destruct (Hk _ _ Hb) as (b' & Hb' & _ & _ & Hc & Hr). exists b'. split; [done|].
  unfold answered in *. naive_solver.
Qed.

Lemma job_at_lookup (s : ComputePool) (j : nat) (f : Job -> bool) :
  job_at s j f = true -> exists b, jobs s !! j = Some b /\ f b = true.
Proof. unfold job_at. case_match; naive_solver. Qed.

Lemma answering_step (s s' : ComputePool) (a : action) : answering s -> pstep s a = Some (Ret s') -> answering s'.
Proof.
  intros [Hh Hs] H. pose proof (keys_kept_step _ _ _ H) as Hk. split.
  - intros j Hj. assert (j ∈ handled s \/ exists k i, goroutines s !! k = Some (i, WSignal j)) as Hc.
    { step_cases H; simpl in Hj; try (by left); [set_solver|]. unfold coalesce in Hj. case_match; by left. }
    eapply answered_kept; [done|]. destruct Hc as [Hc|(k & i & Hc)]; eauto.
  - intros k i j Hg. 
    assert (goroutines s !! k = Some (i, WSignal j) \/ exists b, jobs s' !! j = Some b /\ answered b) as [Hc|Hc];
      [|by eapply answered_kept; eauto|done].
    step_cases H; simpl in Hg |- *; try (by left).
    all: try (apply insert_lookup_cases in Hg as [[_ Hg]|[_ Hg]]; [|by left]; simplify_eq; right).
    all: try match goal with Hb : job_at _ _ _ = true |- _ =>
           apply job_at_lookup in Hb as (b & Hb & Hf); rewrite ?list_lookup_alter_eq, ?Hb; simpl; eexists; split; [done|];
           unfold answered, filled in *; try (left; apply deliver_kept) end.
    + tauto.
    + case_match; [left; eauto|done].
    + left. unfold coalesce in Hg. by case_match.
    + left. apply lookup_app_Some in Hg as [Hg|[_ Hg]]; [done|]. apply list_lookup_singleton_Some in Hg as [_ Hg]. simplify_eq.
Qed.

(** ** Coalescing: of the jobs of a key only the newest is left *)

(** A coalesced submission failed, or is about to. *)
Definition undone (s : ComputePool) : Prop := refused s <> [] \/ exists n j, callers s !! n = Some (CoalesceUndo j).

Definition registered (p : pc) : list nat := match p with CoalesceSend j => [j] | _ => [] end.

(** The job is queued, held by a worker, or registered and about to be sent. *)
Definition active (s : ComputePool) (j : nat) : Prop :=
  (0 < occ j (flat_map registered (callers s)) + occ j (jobChan s) + occ j (flat_map holding (goroutines s)))%nat.

(** A caller that sends without having registered its job. *)
Definition plain (p : pc) : list nat :=
  match p with
  | SendBlock j | SendTry j | SendOldest j | DropOne j | SendAgain j => [j]
  | _ => []
  end.

Definition coalesced (s : ComputePool) : Prop :=
  (forall j b, (0 < occ j (flat_map plain (callers s)))%nat -> jobs s !! j = Some b -> Key b = EmptyString)
  /\ (forall j b, jobs s !! j = Some b -> doneSig b = true -> j ∈ handled s)
  /\ (forall n j, callers s !! n = Some (CleanLock j) -> j ∈ handled s)
  /\ (forall j b, active s j -> jobs s !! j = Some b -> Key b <> EmptyString -> superseded b = false ->
        coalesceMap s !! Key b = Some j).

Lemma undone_step (s s' : ComputePool) (a : action) : undone s -> pstep s a = Some (Ret s') -> undone s'.
Proof.
  intros Hu H. unfold undone in *. destruct Hu as [Hr|(n & j & Hn)].
  - left. step_cases H; simpl; try done; try (intros E; by destruct (refused s)). unfold coalesce; by case_match.
  - step_cases H; simpl; try (right; eauto; fail).
    all: try (destruct (decide (n = k)) as [->|]; [simplify_eq|right; exists n, j; by rewrite list_lookup_insert_ne]).
    + right. exists n, j. replace (callers _) with (callers s) by (by case_match).
      rewrite list_lookup_insert_ne; [done|]. intros ->. simplify_eq.
    + right. exists n, j. rewrite list_lookup_insert_ne by (intros ->; simplify_eq). by apply lookup_app_l_Some.
    + left. by destruct (refused s).
Qed.

Lemma registered_by_policy (p : BackpressurePolicy) (key : string) (j : nat) : registered (by_policy p key j) = [].
Proof. destruct p; simpl; repeat case_match; done. Qed.

Lemma occ_other (j i : nat) : i <> j -> occ j [i] = 0%nat.
Proof. intros. rewrite occ_single. by destruct (Nat.eqb_spec i j). Qed.

Lemma active_step (s s' : ComputePool) (a : action) (j : nat) (b : Job) :
  pstep s a = Some (Ret s') -> active s' j -> jobs s' !! j = Some b ->
  active s j \/ (0 < occ j (flat_map plain (callers s)))%nat \/ coalesceMap s' !! Key b = Some j.
Proof.
  intros H Ha Hb. unfold active in *. revert Ha.
  step_cases H; simpl in Hb |- *.
  all: try match goal with H : goroutines ?s !! ?k = Some ?p |- _ => generalize (occ_lookup holding _ _ j _ H) end.
  all: try match goal with H : callers ?s !! ?k = Some ?p |- _ =>
         generalize (occ_lookup registered _ _ j _ H); generalize (occ_lookup plain _ _ j _ H) end.
  all: try match goal with H : jobChan _ = _ |- _ => rewrite ?H end.
  all: try match goal with |- context [occ ?j (?a :: ?l)] => is_var l; rewrite (occ_cons j a l) end.
  all: replaced j; rewrite ?registered_by_policy in *; cbn [registered holding plain snd] in *.
  all: try (intros; rewrite ?flat_map_app, ?occ_app in *; simpl flat_map in *; rewrite ?app_nil_r, ?occ_nil in *; lia).
  destruct (coalesce_rest s j0 (Key j1)) as (E1 & E2 & E3 & _). unfold coalesce in E1, E2, E3. simpl in E1, E2, E3.
  rewrite E1, E2, E3. replaced j. cbn [registered] in *. intros _ _ Ha. destruct (decide (j0 = j)) as [->|Hne].
  - right. right. change (jobs (coalesce s j (Key j1)) !! j = Some b) in Hb. apply coalesce_lookup in Hb as (b0 & Hb0 & ->).
    simplify_eq. case_decide; [rewrite (proj1 (deliver_kept _ _))|]; simpl; by rewrite lookup_insert_eq.
  - left. rewrite (occ_other j j0 Hne), occ_nil in *. lia.
Qed.

Lemma map_kept_step (s s' : ComputePool) (a : action) (k : string) (j : nat) :
  (exists b, jobs s !! j = Some b) -> pstep s a = Some (Ret s') -> coalesceMap s !! k = Some j ->
  coalesceMap s' !! k = Some j \/ (exists b, jobs s' !! j = Some b /\ superseded b = true) \/ undone s'
  \/ exists n, callers s !! n = Some (CleanLock j).
Proof.
  intros [b Hb] H Hk. step_cases H; simpl; try (by left).
  - destruct (decide (k = Key j1)) as [->|Hne].
    + right. left. rewrite Hk. simpl. rewrite list_lookup_alter_eq, Hb. eexists. split; [done|].
      by rewrite (proj1 (proj2 (deliver_kept _ _))).
    + left. rewrite lookup_insert_ne by done. by case_match.
  - right. right. left. left. simpl. by destruct (refused s).
  - destruct (decide (k = Key j1)) as [->|Hne]; [|left; by rewrite lookup_delete_ne].
    right. right. right. exists k0. match goal with H : bool_decide _ = true |- _ => apply bool_decide_eq_true in H end. by simplify_eq.
Qed.

(** Who may be cleaned up is handled. *)
Lemma cleaning_step (s s' : ComputePool) (a : action) :
  (forall j b, jobs s !! j = Some b -> doneSig b = true -> j ∈ handled s) ->
  (forall n j, callers s !! n = Some (CleanLock j) -> j ∈ handled s) ->
  pstep s a = Some (Ret s') ->
  (forall j b, jobs s' !! j = Some b -> doneSig b = true -> j ∈ handled s')
  /\ (forall n j, callers s' !! n = Some (CleanLock j) -> j ∈ handled s').
Proof.
  intros Hd Hc H. split.
  - intros j b Hb Hs. step_cases H; simpl in Hb |- *; try (by eapply Hd; eauto).
    all: try (apply on_job_lookup in Hb as (b0 & Hb & ->); case_decide; [|set_solver]; subst;
              try (unfold deliver in Hs; case_match); simpl in *; set_solver).
    + apply lookup_app_Some in Hb as [Hb|[_ Hb]]; [by eapply Hd|]. apply list_lookup_singleton_Some in Hb as [_ <-]. done.
    + change (jobs (coalesce s j0 (Key j1)) !! j = Some b) in Hb. apply coalesce_lookup in Hb as (b0 & Hb & ->).
      enough (j ∈ handled s) by (clear Hs; by case_match). apply (Hd j b0 Hb). case_decide; [|done].
      unfold deliver in Hs. by case_match.
  - intros n j Hn. step_cases H; simpl in Hn |- *; try (by eapply Hc; eauto).
    all: try (apply insert_lookup_cases in Hn as [[_ Hn]|[_ Hn]]; [discriminate Hn|by eapply Hc; eauto]).
    + specialize (Hc _ _ Hn). set_solver.
    + apply insert_lookup_cases in Hn as [[_ Hn]|[_ Hn]]; [|by eapply Hc]. unfold by_policy in Hn. repeat case_match; discriminate Hn.
    + enough (j ∈ handled s) by (clear Hn; by case_match). eapply (Hc n).
      replace (callers s) with (callers (coalesce s j0 (Key j1))) by apply coalesce_rest.
      apply insert_lookup_cases in Hn as [[_ Hn]|[_ Hn]]; [discriminate Hn|exact Hn].
    + apply insert_lookup_cases in Hn as [[_ Hn]|[_ Hn]]; [discriminate Hn|].
      apply lookup_app_Some in Hn as [Hn|[_ Hn]]; [by eapply Hc|]. apply list_lookup_singleton_Some in Hn as [_ Hn]. discriminate Hn.
    + apply insert_lookup_cases in Hn as [[_ Hn]|[_ Hn]]; [|by eapply Hc]. simplify_eq.
      match goal with H : job_at _ _ _ = true |- _ => apply job_at_lookup in H as (b & Hb & Hf) end. by eapply Hd.
Qed.

(** A caller that sends without registering its job was so before, or has just
    created a job without a key. *)
Lemma plain_step (s s' : ComputePool) (a : action) (j : nat) :
  policy s = CoalesceByKey -> pstep s a = Some (Ret s') -> (0 < occ j (flat_map plain (callers s')))%nat ->
  (0 < occ j (flat_map plain (callers s)))%nat \/ jobs s' !! j = Some (new_job EmptyString).
Proof.
  intros Hpol H. step_cases H; simpl.
  all: try match goal with H : callers ?s !! ?k = Some ?p |- _ => generalize (occ_lookup plain _ _ j _ H) end.
  all: replaced j; cbn [plain] in *.
  all: try (intros; rewrite ?flat_map_app, ?occ_app in *; simpl flat_map in *; rewrite ?app_nil_r, ?occ_nil in *; lia).
  - intros _ Hpos. rewrite Hpol in *. unfold by_policy in *. case_bool_decide; [|cbn [plain] in *; rewrite !occ_nil in *; lia].
    subst. cbn [plain] in *. destruct (decide (length (jobs s) = j)) as [<-|Hne].
    + right. by rewrite lookup_app_r, Nat.sub_diag by lia.
    + left. rewrite occ_other, occ_nil in * by done. lia.
  - destruct (coalesce_rest s j0 (Key j1)) as (E1 & _). unfold coalesce in E1. simpl in E1. rewrite E1. replaced j.
    cbn [plain] in *. rewrite !occ_nil in *. lia.
Qed.

Lemma job_of_place (s : ComputePool) (j : nat) : placed s -> (0 < places s j)%nat -> exists b, jobs s !! j = Some b.
Proof.
  intros [Hp _] Hj. rewrite Hp in Hj. apply lookup_lt_is_Some. destruct (Nat.ltb_spec j (length (jobs s))); simpl in *; lia.
Qed.

Lemma plain_sending (j : nat) (l : list pc) : (occ j (flat_map plain l) + occ j (flat_map registered l) <= occ j (flat_map sending l))%nat.
Proof.
  induction l as [|p l IH]; [done|]. simpl. rewrite !occ_app.
  enough (occ j (plain p) + occ j (registered p) <= occ j (sending p))%nat by lia. destruct p; simpl; rewrite ?occ_nil; lia.
Qed.

Lemma active_place (s : ComputePool) (j : nat) : active s j -> (0 < places s j - occ j (handled s))%nat.
Proof. unfold active, places. pose proof (plain_sending j (callers s)). lia. Qed.

(** The key of a job never changes. *)
Lemma key_kept (s s' : ComputePool) (j : nat) (b b' : Job) :
  keys_kept s s' -> jobs s !! j = Some b -> jobs s' !! j = Some b' -> Key b' = Key b.
Proof. intros Hk Hb Hb'. destruct (Hk _ _ Hb) as (b1 & Hb1 & E & _). by simplify_eq. Qed.

Lemma coalesced_step (s s' : ComputePool) (a : action) :
  policy s = CoalesceByKey -> placed s -> coalesced s -> pstep s a = Some (Ret s') -> ~ undone s' -> coalesced s'.
Proof.
  intros Hpol Hp (Hk & Hd & Hc & Hm) H Hu. pose proof (keys_kept_step _ _ _ H) as Hkk.
  destruct (cleaning_step _ _ _ Hd Hc H) as [Hd' Hc']. split; [|split; [done|split; [done|]]].
  - intros j b' Hj Hb'. destruct (plain_step _ _ _ _ Hpol H Hj) as [Hj'|E]; [|by simplify_eq].
    destruct (job_of_place s j Hp) as [b Hb].
    { unfold places. pose proof (plain_sending j (callers s)). lia. }
    rewrite (key_kept _ _ _ _ _ Hkk Hb Hb'). by eapply Hk.
  - intros j b' Ha Hb' Hne Hs.
    destruct (active_step _ _ _ _ _ H Ha Hb') as [Hj|[Hj|Hj]]; [..|done].
    + pose proof (active_place _ _ Hj) as Hpl. destruct (job_of_place s j Hp) as [b Hb]; [lia|].
      destruct (Hkk _ _ Hb) as (b1 & Hb1 & Ek & Es & _). simplify_eq. rewrite Ek in *.
      assert (superseded b = false) as Hsb by (destruct (superseded b); [by rewrite Es in Hs|done]).
      destruct (map_kept_step _ _ _ (Key b) j (ex_intro _ b Hb) H) as [?|[(b2 & Hb2 & Hs2)|[?|[n Hn]]]]; [by apply Hm|done|simplify_eq; congruence|by destruct Hu|].
      apply Hc, occ_elem in Hn. destruct Hp as [Hp _]. specialize (Hp j).
      destruct (j <? length (jobs s))%nat; simpl in *; lia.
    + destruct (job_of_place s j Hp) as [b Hb].
      { unfold places. pose proof (plain_sending j (callers s)). lia. }
      by rewrite (key_kept _ _ _ _ _ Hkk Hb Hb'), (Hk j b Hj Hb) in Hne.
Qed.

(** ** Whole runs *)

Definition sound (s : ComputePool) : Prop := placed s /\ honest s /\ once s /\ answering s.

Lemma sound_step (s s' : ComputePool) (a : action) : sound s -> pstep s a = Some (Ret s') -> sound s'.
Proof.
  intros (Hp & Hh & Ho & Ha) H. split; [by eapply placed_step|]. split; [by eapply honest_step|].
  split; [by eapply once_step|by eapply answering_step].
Qed.

Lemma pool_run_invariant (P : ComputePool -> Prop) (s s' : ComputePool) (acts : list action) :
  (forall s s' a, P s -> pstep s a = Some (Ret s') -> P s') -> P s -> run s acts = Ret s' -> P s'.
Proof.
  intros Hstep. revert s. induction acts as [|a acts IH]; simpl; intros s Hs H; [by simplify_eq|].
  destruct (pstep s a) as [[s1|]|] eqn:E; [|done|by apply (IH s)]. apply (IH s1); [by eapply Hstep|done].
Qed.

(** Callers before their first operation. *)
Definition entering (p : pc) : bool :=
  match p with SubmitCheck _ | StartSwap | StopSwap None => true | _ => false end.

Lemma entering_tokens (f : pc -> list nat) (cs : list pc) :
  (forall p, entering p = true -> f p = []) -> forallb entering cs = true -> flat_map f cs = [].
Proof.
  intros Hf. induction cs as [|p cs IH]; [done|]. simpl. intros [Hp Hcs]%andb_true_iff. by rewrite Hf, IH.
Qed.

Lemma entering_lookup (cs : list pc) (n : nat) (p : pc) :
  forallb entering cs = true -> cs !! n = Some p -> entering p = true.
Proof.
  intros H Hn. rewrite forallb_forall in H. apply H. rewrite <- list_elem_of_In. by eapply list_elem_of_lookup_2.
Qed.

Lemma sound_new (threads : Z) (c : Config) (cs : list pc) (s : ComputePool) :
  forallb entering cs = true -> NewComputePool false threads c cs = Ret (Ok s) -> sound s.
Proof.
  intros He H. unfold NewComputePool in H. simpl in H. case_match; simplify_eq.
  split; [|split; [|split]].
  - split; simpl; [|lia]. intros j. unfold places. simpl. rewrite (entering_tokens sending); [by rewrite ?occ_nil|by intros []|done].
  - unfold honest. simpl. split; [intros j b Hb; by rewrite lookup_nil in Hb|]. split; [intros k i j r Hg; by rewrite lookup_nil in Hg|].
    split; [intros k j Hk; by rewrite lookup_empty in Hk|]. intros n j Hn. by apply (entering_lookup cs) in Hn.
  - intros j. simpl. rewrite occ_nil. lia.
  - split; simpl; [set_solver|]. intros k i j Hg. by rewrite lookup_nil in Hg.
Qed.

(** ** Without Stop *)

Definition stopping (p : pc) : bool :=
  match p with
  | StopSwap _ | StopClose _ | StopWorker _ _ _ | StopWait _ _ _ => true
  | _ => false
  end.

Definition starting (p : pc) : list nat := match p with StartWorker _ => [0%nat] | _ => [] end.

Definition unstopped (s : ComputePool) : Prop :=
  closed s = false
  /\ (forall n p, callers s !! n = Some p -> stopping p = false)
  /\ (running s = false -> forall i w, workers s !! i = Some w -> wrunning w = false)
  /\ (occ 0 (flat_map starting (callers s)) <= Nat.b2n (running s))%nat
  /\ (forall n i k w, callers s !! n = Some (StartWorker i) -> (i <= k)%nat -> workers s !! k = Some w -> wrunning w = false).

Lemma unstopped_no_panic (s : ComputePool) (a : action) : unstopped s -> pstep s a <> Some Panic.
Proof.
  intros (Hcl & Hst & _) H. step_cases H.
  all: try match goal with H : callers _ !! _ = Some _ |- _ => specialize (Hst _ _ H); done end.
  all: congruence.
Qed.

Lemma stopping_by_policy (p : BackpressurePolicy) (key : string) (j : nat) :
  stopping (by_policy p key j) = false /\ starting (by_policy p key j) = [].
Proof. destruct p; simpl; repeat case_match; done. Qed.

Lemma unstopped_same (s s' : ComputePool) :
  unstopped s -> closed s' = closed s -> running s' = running s -> wrunning <$> workers s' = wrunning <$> workers s ->
  (forall n p, callers s' !! n = Some p -> callers s !! n = Some p \/ (stopping p = false /\ starting p = [])) ->
  (occ 0 (flat_map starting (callers s')) <= occ 0 (flat_map starting (callers s)))%nat -> unstopped s'.
Proof.
  intros (Hcl & Hst & Hw & Ho & Hs) Ec Er Ew Hc Hle.
  assert (forall k w, workers s' !! k = Some w -> exists w0, workers s !! k = Some w0 /\ wrunning w0 = wrunning w) as Hb.
  { intros k w Hk. apply (f_equal (lookup k)) in Ew. rewrite !list_lookup_fmap, Hk in Ew. simpl in Ew.
    destruct (workers s !! k) as [w0|]; simplify_eq/=. eauto. }
  split; [congruence|]. split; [|split; [|split]].
  - intros n p Hn. destruct (Hc n p Hn) as [?|[? _]]; eauto.
  - rewrite Er. intros Hr i w Hi. destruct (Hb i w Hi) as (w0 & H0 & <-). eauto.
  - rewrite Er. lia.
  - intros n i k w Hn Hik Hk. destruct (Hb k w Hk) as (w0 & H0 & <-). destruct (Hc n _ Hn) as [?|[_ ?]]; [eauto|done].
Qed.

Lemma unstopped_call (s s' : ComputePool) (k : nat) (p q : pc) :
  unstopped s -> callers s !! k = Some p -> closed s' = closed s -> running s' = running s ->
  wrunning <$> workers s' = wrunning <$> workers s ->
  (callers s' = <[k := q]> (callers s) \/ exists j, callers s' = <[k := q]> (callers s ++ [CleanWait j])) ->
  stopping q = false -> starting q = [] -> unstopped s'.
Proof.
  intros Hu Hk Ec Er Ew Hcs Hq Hq'. apply (unstopped_same s); try done.
  - intros n r Hn. destruct Hcs as [E|[j E]]; rewrite E in Hn; apply insert_lookup_cases in Hn as [[_ ->]|[_ Hn]]; auto.
    apply lookup_app_Some in Hn as [Hn|[_ Hn]]; [by left|]. apply list_lookup_singleton_Some in Hn as [_ <-]. by right.
  - destruct Hcs as [E|[j E]]; rewrite E.
    + pose proof (occ_replace starting _ k 0 p q Hk). rewrite Hq', occ_nil in *. lia.
    + pose proof (occ_replace starting _ k 0 p q (lookup_app_l_Some _ [CleanWait j] _ _ Hk)) as H.
      rewrite flat_map_app, occ_app, Hq' in H. simpl in H. rewrite !occ_nil in H. lia.
Qed.

Lemma count_call_running (r : result Z Z) (i : nat) (ws : list Worker) :
  wrunning <$> alter (count_call r) i ws = wrunning <$> ws.
Proof. revert i. induction ws as [|w ws IH]; intros [|i]; simpl; [done..|]. f_equal. apply IH. Qed.

Lemma unstopped_step (s s' : ComputePool) (a : action) : unstopped s -> pstep s a = Some (Ret s') -> unstopped s'.
Proof.
  intros Hu H. pose proof Hu as (Hcl & Hst & Hw & Ho & Hs).
  assert (forall n p, callers s !! n = Some p -> stopping p = true -> False) as Hno by (intros n p Hn; rewrite (Hst n p Hn); done).
  step_cases H; try (exfalso; eapply Hno; [eassumption|done]); try congruence; try done.
  all: try (apply (unstopped_same s); [done..|by auto|done]).
  all: try (apply (unstopped_same c0); [done..|by auto|done]).
  all: try (eapply unstopped_call; [exact Hu|eassumption|done|done|done|by auto|done|done]).
  - apply (unstopped_same s); [done..|apply count_call_running|by auto|done].
  - eapply unstopped_call; [exact Hu|eassumption|done|done|done|by auto|apply stopping_by_policy..].
  - eapply (unstopped_call s _ k _ (CoalesceSend j)); [exact Hu|eassumption|..]; simpl; try (by case_match); try done.
    left. by case_match.
  - eapply (unstopped_call s _ k); [exact Hu|eassumption|done..|eauto|done|done].
  - specialize (Hw eq_refl). simpl in Ho.
    split; [done|]. simpl. split; [|split; [done|split]].
    + intros n p Hn. apply insert_lookup_cases in Hn as [[_ ->]|[_ Hn]]; eauto.
    + replaced 0%nat. cbn [starting] in *. rewrite occ_self, occ_nil in *. lia.
    + intros; eauto.
  - exfalso. assert (wrunning w = false) by (eapply (Hs k i i); eauto). congruence.
  - assert (running s = true) as Er.
    { pose proof (occ_lookup starting _ _ 0 _ H1) as Hl. cbn [starting] in Hl. rewrite occ_self in Hl. by destruct (running s); simpl in *; [|lia]. }
    split; [done|]. simpl. split; [|split; [by rewrite Er|split]].
    + intros n p Hn. apply insert_lookup_cases in Hn as [[_ ->]|[_ Hn]]; eauto.
    + replaced 0%nat. cbn [starting] in *. lia.
    + intros n i' k' w' Hn Hle Hk'. apply insert_lookup_cases in Hn as [[_ Hn]|[Hne Hn]].
      * simplify_eq. rewrite list_lookup_insert_ne in Hk' by lia. eapply (Hs k i); [done| |done]. lia.
      * pose proof (occ_lookup_two starting _ _ _ 0 _ _ Hne Hn H1) as Hl. cbn [starting] in Hl. rewrite occ_self, Er in *. simpl in *. lia.
Qed.

Lemma unstopped_new (threads : Z) (c : Config) (cs : list pc) (s : ComputePool) :
  forallb entering cs = true -> StopSwap None ∉ cs -> NewComputePool false threads c cs = Ret (Ok s) -> unstopped s.
Proof.
  intros He Hns H. unfold NewComputePool in H. simpl in H. case_match; simplify_eq.
  unfold unstopped. simpl. split; [done|]. split; [|split; [|split]].
  - intros n p Hn. pose proof (entering_lookup _ _ _ He Hn) as Hp. apply list_elem_of_lookup_2 in Hn.
    destruct p; try done. destruct from; done.
  - intros _ i w [-> _]%lookup_replicate. done.
  - rewrite (entering_tokens starting); [by rewrite occ_nil|by intros []|done].
  - intros n i k w Hn. by apply (entering_lookup cs) in Hn.
Qed.

(** ** What the pool promises *)

Lemma sound_run (threads : Z) (c : Config) (cs : list pc) (s0 s : ComputePool) (acts : list action) :
  forallb entering cs = true -> NewComputePool false threads c cs = Ret (Ok s0) -> run s0 acts = Ret s -> sound s.
Proof. intros He Hn. apply pool_run_invariant; [apply sound_step|by eapply sound_new]. Qed.

(** C10. For any number of callers and workers and any schedule, Stop included: every
    job created is in one place (being submitted, queued, held by one worker,
    dropped, handled or refused), the queue is within its capacity, the handler ran
    at most once for a job and never for one that is dropped, refused or still
    queued, and a future holds what the handler returned or, only when another
    job of its key superseded it, a cancellation. *)
Theorem compute_pool_sound (threads : Z) (c : Config) (cs : list pc) (s0 s : ComputePool) (acts : list action) :
  forallb entering cs = true -> NewComputePool false threads c cs = Ret (Ok s0) -> run s0 acts = Ret s ->
  (forall j, places s j = Nat.b2n (j <? length (jobs s))%nat)
  /\ (length (jobChan s) <= queueSize s)%nat
  /\ NoDup (executed s).*1
  /\ (forall j r, (j, r) ∈ executed s -> j ∉ dropped s /\ j ∉ refused s /\ j ∉ jobChan s)
  /\ (forall j b, jobs s !! j = Some b -> honest_job s j b).
Proof.
  intros He Hn H. destruct (sound_run _ _ _ _ _ _ He Hn H) as ([Hp Hl] & (Hj & _) & Ho & _).
  assert (forall j, (occ j (executed s).*1 + occ j (dropped s) + occ j (refused s) + occ j (jobChan s) <= 1)%nat) as Hone.
  { intros j. specialize (Ho j). specialize (Hp j). unfold places in Hp.
    pose proof (reporting_holding j (goroutines s)). destruct (j <? length (jobs s))%nat; simpl in *; lia. }
  split; [done|]. split; [done|]. split; [|split; [|done]].
  - apply NoDup_ListNoDup, (NoDup_count_occ Nat.eq_dec). intros j. specialize (Hone j). unfold occ in Hone. lia.
  - intros j r Hr. specialize (Hone j). assert (0 < occ j (executed s).*1)%nat.
    { apply occ_elem. apply list_elem_of_fmap. by exists (j, r). }
    rewrite !occ_elem. lia.
Qed.

(** *** One worker's own steps *)

Definition work_of (k : nat) (a : action) : Prop := exists c, a = Work k c.

(** By its own steps alone, goroutine [k] gets done with job [x] and is back at its
    select, without touching the queue. *)
Definition finishes (s : ComputePool) (k i x : nat) : Prop :=
  exists acts s', Forall (work_of k) acts /\ run s acts = Ret s'
    /\ goroutines s' !! k = Some (i, WSelect) /\ jobChan s' = jobChan s /\ x ∈ handled s'.

Lemma finishes_step (s : ComputePool) (k i x : nat) (c : choice) (p p' : wpc) (s1 : ComputePool) :
  goroutines s !! k = Some (i, p) -> worker_go s i p c = Some (s1, p') ->
  jobChan s1 = jobChan s -> goroutines s1 = goroutines s ->
  (goroutines (set_goroutines s1 (<[k := (i, p')]> (goroutines s1))) !! k = Some (i, p') ->
   finishes (set_goroutines s1 (<[k := (i, p')]> (goroutines s1))) k i x) -> finishes s k i x.
Proof.
  intros Hk Hw Hc Hg Hf. destruct Hf as (acts & s' & H1 & H2 & H3 & H4 & H5).
  { simpl. rewrite Hg. apply list_lookup_insert_eq. by eapply lookup_lt_Some. }
  exists (Work k c :: acts), s'. split; [constructor; [by exists c|done]|].
  split; [simpl; by rewrite Hk, Hw|]. split; [done|]. split; [by rewrite H4|done].
Qed.

Lemma signal_finishes (s : ComputePool) (k i x : nat) : goroutines s !! k = Some (i, WSignal x) -> finishes s k i x.
Proof.
  intros Hk. eapply (finishes_step s k i x Go _ WSelect); [exact Hk|reflexivity|done|done|]. intros Hk'.
  exists [], (set_goroutines (set_handled (on_job s x (set_done true)) (handled s ++ [x])) (<[k := (i, WSelect)]> (goroutines s))).
  split_and!; try done; simpl; set_solver.
Qed.

Lemma report_finishes (s : ComputePool) (k i x : nat) (r : result Z Z) (b : Job) :
  goroutines s !! k = Some (i, WReport x r) -> jobs s !! x = Some b -> finishes s k i x.
Proof.
  intros Hk Hb. destruct (filled b) eqn:Ef; [destruct (ctxDone b) eqn:Ec|].
  - eapply (finishes_step s k i x PickCtx _ (WSignal x)); 
    [exact Hk|simpl; unfold job_at; rewrite Hb, Ec; reflexivity|done|done|apply signal_finishes].
  - eapply (finishes_step s k i x PickDefault _ (WSignal x)); 
    [exact Hk|simpl; unfold job_at; rewrite Hb, Ef, Ec; reflexivity|done|done|apply signal_finishes].
  - eapply (finishes_step s k i x Go _ (WSignal x)); 
    [exact Hk|simpl; unfold job_at; rewrite Hb, Ef; reflexivity|done|done|apply signal_finishes].
Qed.

Lemma run_finishes (s : ComputePool) (k i x : nat) (b : Job) :
  goroutines s !! k = Some (i, WRun x) -> jobs s !! x = Some b -> finishes s k i x.
Proof.
  intros Hk Hb. eapply (finishes_step s k i x (Answer (Ok 0)) _ (WReport x (Ok 0))); [exact Hk|reflexivity|done|done|].
  intros Hk'. eapply report_finishes; [exact Hk'|exact Hb].
Qed.

Lemma worker_finishes (s : ComputePool) (k i x : nat) (p : wpc) (b : Job) :
  goroutines s !! k = Some (i, p) -> holding (i, p) = [x] -> jobs s !! x = Some b -> finishes s k i x.
Proof.
  intros Hk Hx Hb. destruct p as [|y|y|y r|y|]; simpl in Hx; try done; injection Hx as ->;
    [|by eapply run_finishes|by eapply report_finishes|by apply signal_finishes].
  destruct (job_at s x superseded) eqn:Es.
  - eapply (finishes_step s k i x Go _ (WSignal x)); [exact Hk| | | |apply signal_finishes];
      [cbn [worker_go]; rewrite Es; reflexivity|done|done].
  - eapply (finishes_step s k i x Go _ (WRun x)); [exact Hk|cbn [worker_go]; rewrite Es; reflexivity|done|done|].
    intros Hk'. eapply run_finishes; [exact Hk'|exact Hb].
Qed.

Lemma held_job (s : ComputePool) (k j : nat) (g : nat * wpc) :
  placed s -> goroutines s !! k = Some g -> holding g = [j] -> exists b, jobs s !! j = Some b.
Proof.
  intros Hp Hk Hh. apply (job_of_place s j Hp). pose proof (occ_lookup holding _ k j g Hk) as Ho.
  rewrite Hh, occ_self in Ho. unfold places. lia.
Qed.

Lemma compute_run_app (s s1 : ComputePool) (a c : list action) : run s a = Ret s1 -> run s (a ++ c) = run s1 c.
Proof.
  revert s. induction a as [|x a IH]; simpl; intros s H; [by simplify_eq|].
  destruct (pstep s x) as [[s2|]|]; [by apply IH|done|by apply IH].
Qed.

(** A goroutine at its select works the queue off up to any job in it. *)
Lemma queue_drains (n : nat) (s : ComputePool) (k i j : nat) :
  sound s -> goroutines s !! k = Some (i, WSelect) -> jobChan s !! n = Some j ->
  exists acts s', Forall (work_of k) acts /\ run s acts = Ret s' /\ j ∈ handled s'.
Proof.
  revert s. induction n as [|n IH]; intros s Hs Hk Hn; destruct (jobChan s) as [|h rest] eqn:Eq; try done.
  all: set (s1 := set_goroutines (dequeue s h rest false) (<[k := (i, WTaken h)]> (goroutines s))).
  all: assert (pstep s (Work k Go) = Some (Ret s1)) as Hst by (simpl; rewrite Hk; simpl; by rewrite Eq).
  all: pose proof (sound_step _ _ _ Hs Hst) as Hs1.
  all: assert (goroutines s1 !! k = Some (i, WTaken h)) as Hk1
    by (apply list_lookup_insert_eq; by eapply lookup_lt_Some).
  all: destruct (held_job s1 k h _ (proj1 Hs1) Hk1 eq_refl) as [b Hb].
  all: destruct (worker_finishes s1 k i h _ b Hk1 eq_refl Hb) as (acts & s2 & Hf & Hrun & Hk2 & Hq & Hh).
  - simplify_eq/=. exists (Work k Go :: acts), s2. split; [constructor; [by exists Go|done]|].
    split; [simpl in Hst; simpl; by rewrite Hst|done].
  - destruct (IH s2) as (acts' & s' & Hf' & Hrun' & Hj); [|done|by rewrite Hq|].
    { eapply pool_run_invariant; [apply sound_step|exact Hs1|exact Hrun]. }
    exists (Work k Go :: acts ++ acts'), s'. split.
    { constructor; [by exists Go|]. by apply Forall_app. }
    split; [|done]. change (run s (Work k Go :: acts ++ acts')) with
      (match pstep s (Work k Go) with None => run s (acts ++ acts') | Some (Ret s') => run s' (acts ++ acts') | Some Panic => Panic end).
    rewrite Hst. by rewrite (compute_run_app _ _ _ _ Hrun).
Qed.

Lemma handled_answered (s s' : ComputePool) (acts : list action) (j : nat) :
  sound s -> run s acts = Ret s' -> j ∈ handled s' -> exists b, jobs s' !! j = Some b /\ answered b.
Proof.
  intros Hs Hr Hj. destruct (pool_run_invariant sound s s' acts sound_step Hs Hr) as (_ & _ & _ & (Ha & _)). by apply Ha.
Qed.

(** C11. No job gets lost, Stop included: at any moment a job is being submitted, was
    refused with an error, was dropped by DropOldest, waits in the queue, is held by a
    worker, or has its answer in its future or an ended context.  And a job that
    waits or is held can be answered: any worker goroutine that has not exited can,
    by its own steps alone and if the handler returns, work the queue off until that
    job is answered.  (After Stop the goroutines may exit and leave jobs queued:
    see stop_leaves_jobs_queued.) *)
Theorem compute_pool_answers (threads : Z) (c : Config) (cs : list pc) (s0 s : ComputePool) (acts : list action)
    (j : nat) (b : Job) :
  forallb entering cs = true -> NewComputePool false threads c cs = Ret (Ok s0) -> run s0 acts = Ret s ->
  jobs s !! j = Some b ->
  (j ∈ flat_map sending (callers s) \/ j ∈ refused s \/ j ∈ dropped s \/ j ∈ jobChan s
   \/ j ∈ flat_map holding (goroutines s) \/ answered b)
  /\ forall k i p, goroutines s !! k = Some (i, p) -> p <> WExited -> j ∈ jobChan s \/ holding (i, p) = [j] ->
       exists more s', Forall (work_of k) more /\ run s more = Ret s' /\ exists b', jobs s' !! j = Some b' /\ answered b'.
Proof.
  intros He Hn H Hb. pose proof (sound_run _ _ _ _ _ _ He Hn H) as Hs. split.
  - destruct Hs as ([Hp _] & _ & _ & (Ha & _)). specialize (Hp j). unfold places in Hp.
    pose proof (lookup_lt_Some _ _ _ Hb) as Hlt. rewrite (proj2 (Nat.ltb_lt _ _) Hlt) in Hp. simpl in Hp.
    destruct (decide (j ∈ handled s)) as [Hh|Hh].
    { destruct (Ha j Hh) as (b' & Hb' & ?). simplify_eq. tauto. }
    rewrite !occ_elem in *. lia.
  - intros k i p Hk Hne Hwhere. destruct (decide (p = WSelect)) as [->|Hp].
    + destruct Hwhere as [[n Hj]%list_elem_of_lookup|[=]].
      destruct (queue_drains n s k i j Hs Hk Hj) as (more & s' & Hf & Hr & Hh).
      exists more, s'. eauto using handled_answered.
    + assert (exists x, holding (i, p) = [x]) as [x Hx] by (destruct p; simpl; eauto; done).
      destruct (held_job s k x _ (proj1 Hs) Hk Hx) as [bx Hbx].
      destruct (worker_finishes s k i x p bx Hk Hx Hbx) as (a1 & s1 & Hf1 & Hr1 & Hk1 & Hq1 & Hh1).
      destruct Hwhere as [[n Hj]%list_elem_of_lookup|Hj].
      * destruct (queue_drains n s1 k i j) as (a2 & s' & Hf2 & Hr2 & Hh2); [|done|by rewrite Hq1|].
        { eapply pool_run_invariant; [apply sound_step|exact Hs|exact Hr1]. }
        assert (run s (a1 ++ a2) = Ret s') as Hr by (by rewrite (compute_run_app _ _ _ _ Hr1)).
        exists (a1 ++ a2), s'. split; [by apply Forall_app|]. eauto using handled_answered.
      * rewrite Hj in Hx. simplify_eq. exists a1, s1. eauto using handled_answered.
Qed.

Lemma undone_run (s s' : ComputePool) (acts : list action) : undone s -> run s acts = Ret s' -> undone s'.
Proof. apply pool_run_invariant. intros ???. apply undone_step. Qed.

Lemma coalesced_run (s s' : ComputePool) (acts : list action) :
  policy s = CoalesceByKey -> placed s -> coalesced s -> run s acts = Ret s' -> ~ undone s' -> coalesced s'.
Proof.
  revert s. induction acts as [|a acts IH]; simpl; intros s Hpol Hp Hc H Hu; [by simplify_eq|].
  destruct (pstep s a) as [[s1|]|] eqn:E; [|done|by apply (IH s)].
  apply (IH s1); try done; [by rewrite (proj1 (policy_step _ _ _ E))|by eapply placed_step|].
  eapply coalesced_step; eauto. intros Hu1. by apply Hu, (undone_run s1 s' acts).
Qed.

(** With CoalesceByKey, as long as no submission found the queue full: of two jobs
    with the same key that are queued or held by workers, one is superseded; the
    one that is not is the job registered for the key. *)
Theorem newest_job_wins (threads : Z) (c : Config) (cs : list pc) (s0 s : ComputePool) (acts : list action)
    (i j : nat) (bi bj : Job) :
  forallb entering cs = true -> Policy c = CoalesceByKey -> NewComputePool false threads c cs = Ret (Ok s0) ->
  run s0 acts = Ret s -> ~ undone s -> i <> j -> active s i -> active s j ->
  jobs s !! i = Some bi -> jobs s !! j = Some bj -> Key bi = Key bj -> Key bi <> EmptyString ->
  superseded bi = true \/ (superseded bj = true /\ coalesceMap s !! Key bi = Some i).
Proof.
  intros He Hpol Hn H Hu Hij Hai Haj Hbi Hbj Hk Hne. destruct (sound_new _ _ _ _ He Hn) as [Hp _].
  assert (coalesced s) as (_ & _ & _ & Hm).
  { apply (coalesced_run s0 s acts); try done; unfold NewComputePool in Hn; simpl in Hn; case_match; simplify_eq; simpl; [done|].
    unfold coalesced, active. simpl. rewrite (entering_tokens plain), (entering_tokens registered) by (done || by intros []).
    split; [intros ?? Hx; rewrite occ_nil in Hx; lia|]. split; [done|]. split; [|intros ?? Hx; rewrite !occ_nil in Hx; lia]. intros n k Hk'. by apply (entering_lookup cs) in Hk'. }
  destruct (superseded bi) eqn:Ei; [by left|]. right. pose proof (Hm _ _ Hai Hbi Hne Ei) as Hi. split; [|done].
  destruct (superseded bj) eqn:Ej; [done|]. rewrite Hk in Hi, Hne. pose proof (Hm _ _ Haj Hbj Hne Ej). congruence.
Qed.

(** Without a call of Stop no schedule panics. *)
Theorem compute_pool_no_panic (threads : Z) (c : Config) (cs : list pc) (s0 : ComputePool) (acts : list action) :
  forallb entering cs = true -> StopSwap None ∉ cs -> NewComputePool false threads c cs = Ret (Ok s0) ->
  run s0 acts <> Panic.
Proof.
  intros He Hs Hn. pose proof (unstopped_new _ _ _ _ He Hs Hn) as Hu. clear Hn. revert s0 Hu.
  induction acts as [|a acts IH]; simpl; intros s Hu; [done|].
  destruct (pstep s a) as [[s1|]|] eqn:E; [apply IH; by eapply unstopped_step|by apply unstopped_no_panic in E|by apply IH].
Qed.

(** ** Concrete runs *)

(** A pool with one worker and a queue of [n], by policy, with its callers. *)
Definition small_pool (p : BackpressurePolicy) (n : Z) (cs : list pc) : ComputePool :=
  match NewComputePool false 2 (mkConfig 1 n p) cs with
  | Ret (Ok s) => s
  | _ => mkPool p 0 [] [] false ∅ false [] [] [] [] [] [] [] []
  end.

(** The pool starts and the callers submit one after another. *)
Definition two_submissions : list action :=
  [Call 0 Go; Call 0 Go; Call 0 Go; Call 1 Go; Call 1 Go; Call 1 Go; Call 2 Go; Call 2 Go; Call 2 Go].

Definition two_callers : list pc := [StartSwap; SubmitCheck "a"; SubmitCheck "a"].

(** The worker takes a job and runs it. *)
Definition one_job (r : result Z Z) : list action := [Work 0 Go; Work 0 Go; Work 0 (Answer r); Work 0 Go; Work 0 Go].

Definition after_run (s : ComputePool) (acts : list action) : ComputePool :=
  match run s acts with Ret s' => s' | Panic => s end.

Lemma compute_pool_sound_witness :
  let s := after_run (small_pool Block 4 two_callers) (two_submissions ++ one_job (Ok 7)) in
  (executed s).*1 = [0%nat] /\ NoDup (executed s).*1.
Proof.
  cbv zeta. split; [vm_compute; reflexivity|].
  refine (proj1 (proj2 (proj2 (compute_pool_sound 2 (mkConfig 1 4 Block) two_callers (small_pool Block 4 two_callers) _
    (two_submissions ++ one_job (Ok 7)) _ _ _)))); vm_compute; reflexivity.
Defined.

Lemma compute_pool_answers_witness :
  let s := after_run (small_pool Block 4 two_callers) two_submissions in
  1%nat ∈ jobChan s /\ exists more s', Forall (work_of 0) more /\ run s more = Ret s'
    /\ exists b', jobs s' !! 1%nat = Some b' /\ answered b'.
Proof.
  cbv zeta. assert (1%nat ∈ jobChan (after_run (small_pool Block 4 two_callers) two_submissions)) as Hq
    by (vm_compute; by right; left).
  split; [exact Hq|].
  refine (proj2 (compute_pool_answers 2 (mkConfig 1 4 Block) two_callers (small_pool Block 4 two_callers)
    (after_run (small_pool Block 4 two_callers) two_submissions) two_submissions 1 (new_job "a") _ _ _ _) 0%nat 0%nat WSelect _ _ _);
    first [exact (or_introl Hq) | discriminate | vm_compute; reflexivity].
Defined.

Lemma newest_job_wins_witness :
  let s := after_run (small_pool CoalesceByKey 4 two_callers) two_submissions in
  exists b0 b1, jobs s !! 0%nat = Some b0 /\ jobs s !! 1%nat = Some b1
    /\ (superseded b1 = true \/ (superseded b0 = true /\ coalesceMap s !! Key b1 = Some 1%nat)).
Proof.
  cbv zeta. eexists _, _. split; [vm_compute; reflexivity|]. split; [vm_compute; reflexivity|].
  apply (newest_job_wins 2 (mkConfig 1 4 CoalesceByKey) two_callers (small_pool CoalesceByKey 4 two_callers)
    (after_run (small_pool CoalesceByKey 4 two_callers) two_submissions) two_submissions 1 0);
    try (vm_compute; reflexivity); try (vm_compute; lia); try discriminate.
  intros [H|(n & j & H)]; vm_compute in H; [by apply H|]. do 5 (destruct n as [|n]; [discriminate H|]). discriminate H.
Defined.

Lemma compute_pool_no_panic_witness : run (small_pool Block 4 two_callers) two_submissions <> Panic.
Proof.
  apply (compute_pool_no_panic 2 (mkConfig 1 4 Block) two_callers); [vm_compute; reflexivity| |vm_compute; reflexivity].
  unfold two_callers. set_solver.
Defined.

(** CoalesceByKey with the queue full: the job already queued is cancelled and the
    new one is refused, so neither reaches the handler. *)
Theorem full_queue_loses_both :
  let s := after_run (small_pool CoalesceByKey 1 two_callers) (two_submissions ++ [Call 2 Go] ++ one_job (Ok 7)) in
  refused s = [1%nat] /\ executed s = [] /\ (Result <$> jobs s) = [Some CanceledResult; None].
Proof. vm_compute. repeat split. Qed.

(** DropOldest: the future of the dropped job is never answered. *)
Theorem dropped_job_unanswered :
  let s := after_run (small_pool DropOldest 1 two_callers) (two_submissions ++ [Call 2 Go] ++ one_job (Ok 7)) in
  dropped s = [0%nat] /\ (Result <$> jobs s) = [None; Some (Handled (Ok 7))]
  /\ jobChan s = [] /\ flat_map holding (goroutines s) = [] /\ flat_map sending (callers s) = [].
Proof. vm_compute. repeat split. Qed.

(** Stop cancels the worker's context: the worker may leave while jobs it was meant to
    run are queued; their futures are never answered. *)
Theorem stop_leaves_jobs_queued :
  let s := after_run (small_pool Block 4 [StartSwap; SubmitCheck "a"; StopSwap None])
             [Call 0 Go; Call 0 Go; Call 0 Go; Call 1 Go; Call 1 Go; Call 2 Go; Call 2 Go; Call 2 Go;
              Work 0 PickCtx; Call 2 Go; Call 2 Go] in
  callers s = [Finished None; Returned (Ok 0%nat); Finished None] /\ jobChan s = [0%nat]
  /\ goroutines s = [(0%nat, WExited)] /\ (Result <$> jobs s) = [None].
Proof. vm_compute. repeat split. Qed.

(** A submission that passed its check panics when Stop closes the channel. *)
Theorem submit_races_stop :
  run (small_pool Block 4 [StartSwap; SubmitCheck "a"; StopSwap None])
    [Call 0 Go; Call 1 Go; Call 2 Go; Call 2 Go; Call 1 Go] = Panic.
Proof. vm_compute. reflexivity. Qed.

(** A pool that was stopped accepts a second Start and then panics on Submit. *)
Theorem restarted_compute_pool_panics :
  run (small_pool Block 4 [StartSwap; StopSwap None; StartSwap; SubmitCheck "a"])
    [Call 0 Go; Call 0 Go; Call 0 Go; Call 1 Go; Call 1 Go; Call 1 Go; Work 0 Go; Call 1 Go; Call 1 Go;
     Call 2 Go; Call 2 Go; Call 2 Go; Call 3 Go; Call 3 Go] = Panic.
Proof. vm_compute. reflexivity. Qed.

(** A job whose context ends before the report may lose the handler's result. *)
Theorem late_context_loses_result :
  let s := after_run (small_pool Block 4 two_callers)
             (two_submissions ++ [Work 0 Go; Work 0 Go; Work 0 (Answer (Ok 7)); CancelContext 0; Work 0 PickCtx; Work 0 Go]) in
  executed s = [(0%nat, Ok 7)] /\ handled s = [0%nat] /\ (Result <$> jobs s) = [None; None].
Proof. vm_compute. repeat split. Qed.

