(* ===== verification/EventBus.v ===== *)
(** * Event bus (pkg/core/eventbus_impl.go, eventbus.go, validation.go, json.go)

    Consumers are pointers into a heap of consumer records, and the lists of the
    consumers map are Go slices over backing arrays of a shared store: a
    [Publish] keeps the slice it read while [Consumer] appends to the same array
    and [Unregister] shifts it in place.  Operations run under the bus lock are
    one step; [Publish] is also given one delivery at a time, so that other
    operations can come in between. *)
From Stdlib Require Import String.
From S2P Require Import Prelude Mailbox EventLoop.

#[local] Set Warnings "-clear-no-such-hyp".

(** ** Messages and errors *)

Record message : Type := mkMessage {
  mBody : list Z;                    (** the encoded bytes *)
  mHeaders : gmap string string;
  mReplyAddress : string
}.

(** A message body given by a caller: an untyped nil, bytes, a protobuf message
    or any other value. *)
Inductive body (P V : Type) : Type :=
| BodyNil
| BodyBytes (b : list Z)
| BodyProto (p : P)
| BodyValue (v : V).
Arguments BodyNil {P V}.
Arguments BodyBytes {P V} b.
Arguments BodyProto {P V} p.
Arguments BodyValue {P V} v.

Inductive bus_error : Type :=
| INVALID_ADDRESS
| INVALID_TIMEOUT
| INVALID_BODY
| NO_HANDLERS
| NO_REPLY_ADDRESS
| ErrTimeout
| EncodeFailed
| NotImplemented                     (** the request-reply error of [SendWithContext] *)
| CtxErr (c : ctx_status)
| MailboxErr (e : mailbox_error)
| LoopErr (e : EventLoopError).

#[export] Instance bus_error_eq_dec : EqDecision bus_error.
Proof. solve_decision. Defined.

Definition ValidateAddress (address : string) : option bus_error :=
  if String.eqb address "" then Some INVALID_ADDRESS
  else if 255 <? Z.of_nat (String.length address) then Some INVALID_ADDRESS
  else None.

(** Five minutes in nanoseconds. *)
Definition max_timeout : Z := 5 * 60 * 1000000000.

Definition ValidateTimeout (timeout : Z) : option bus_error :=
  if timeout <=? 0 then Some INVALID_TIMEOUT
  else if max_timeout <? timeout then Some INVALID_TIMEOUT
  else None.

Definition ValidateBody {P V} (b : body P V) : option bus_error :=
  match b with BodyNil => Some INVALID_BODY | _ => None end.

(** A context as the bus reads it. *)
Record busctx : Type := mkCtx { status : ctx_status; floxID : string; requestID : string }.

(** [ctx.Err()] *)
Definition ctx_Err (c : busctx) : option bus_error :=
  if ctx_done (status c) then Some (CtxErr (status c)) else None.

(** The headers of [buildHeaders], with [newMessage]'s empty map for nil. *)
Definition buildHeaders (c : busctx) : gmap string string :=
  let h := if String.eqb (floxID c) "" then ∅ else {["X-Flox-ID"%string := floxID c]} in
  if String.eqb (requestID c) "" then h else <["X-Request-ID"%string := requestID c]> h.

(** ** Calls that return, panic or block *)

Inductive call (A : Type) : Type :=
| Returns (a : A)
| Panics
| Blocks.
Arguments Returns {A} a.
Arguments Panics {A}.
Arguments Blocks {A}.

#[export] Instance call_ret : MRet call := @Returns.

#[export] Instance call_bind : MBind call :=
  fun A B f x => match x with Returns a => f a | Panics => Panics | Blocks => Blocks end.

Definition of_outcome {A} (o : outcome A) : call A :=
  match o with Ret a => Returns a | Panic => Panics end.

(** ** The store *)

(** Where a handler takes a message: to the program, or into the mailbox of a
    pending [Request]. *)
Inductive handler : Type :=
| HUser (h : Z)
| HReply (box : nat).

Record consumer : Type := mkConsumer {
  address : string;
  mailbox : boundedMailbox message;
  chandler : option handler;
  done : bool                        (** the completion channel is closed *)
}.

(** A slice from the start of backing array [arr]. *)
Record slice : Type := mkSlice { arr : nat; len : nat }.

(** The event loops a bus may dispatch through. [group_dispatch] is one whole
    [Dispatch] call; [group_events] are the events the
    loops have accepted. *)
Class LoopGroup (G : Type) := {
  group_dispatch : G -> Event -> call (G * option EventLoopError);
  group_close : G -> G;
  group_events : G -> list Event;
  group_accepts : forall g e g',
    group_dispatch g e = Returns (g', None) -> group_events g' ≡ₚ e :: group_events g;
  group_close_events : forall g, group_events (group_close g) = group_events g
}.

(** [closures] are the handlers of dispatched events: the consumer and the
    message each forwards; an event names one by its index. *)
Record eventBus (G : Type) : Type := mkBus {
  consumers : gmap string slice;
  arrays : gmap nat (list (option nat));
  cells : gmap nat consumer;
  replies : gmap nat (boundedMailbox message);
  nextPtr : nat;
  bctx : busctx;
  sendCounter : Z;
  loopGroup : option G;
  closures : list (nat * message)
}.
Arguments mkBus {G}.
Arguments consumers {G}.
Arguments arrays {G}.
Arguments cells {G}.
Arguments replies {G}.
Arguments nextPtr {G}.
Arguments bctx {G}.
Arguments sendCounter {G}.
Arguments loopGroup {G}.
Arguments closures {G}.

(** The library encoders ([proto.Marshal], [json.Marshal]) and the reflection
    check for nil pointers and functions inside an interface value. *)
Class Encoders (P V : Type) := {
  ProtobufMarshal : P -> option (list Z);
  JSONMarshal : V -> option (list Z);
  nilValue : V -> bool
}.

(** The capacity the runtime gives to a new backing array for [n] elements;
    anything below [n] counts as [n]. *)
Class SliceGrowth := { grow : nat -> nat }.

Section bus.
Context {G : Type} `{HG : LoopGroup G} {P V : Type} `{HE : Encoders P V} `{HS : SliceGrowth}.

Implicit Types (s : eventBus G) (a : string) (sl : slice) (msg : message).

Definition set_consumers s m arrs : eventBus G :=
  {| consumers := m; arrays := arrs; cells := cells s; replies := replies s; nextPtr := nextPtr s;
     bctx := bctx s; sendCounter := sendCounter s; loopGroup := loopGroup s; closures := closures s |}.

Definition set_cells s cs : eventBus G :=
  {| consumers := consumers s; arrays := arrays s; cells := cs; replies := replies s; nextPtr := nextPtr s;
     bctx := bctx s; sendCounter := sendCounter s; loopGroup := loopGroup s; closures := closures s |}.

Definition set_replies s rs : eventBus G :=
  {| consumers := consumers s; arrays := arrays s; cells := cells s; replies := rs; nextPtr := nextPtr s;
     bctx := bctx s; sendCounter := sendCounter s; loopGroup := loopGroup s; closures := closures s |}.

Definition set_counter s n : eventBus G :=
  {| consumers := consumers s; arrays := arrays s; cells := cells s; replies := replies s; nextPtr := nextPtr s;
     bctx := bctx s; sendCounter := n; loopGroup := loopGroup s; closures := closures s |}.

Definition set_group s g ks : eventBus G :=
  {| consumers := consumers s; arrays := arrays s; cells := cells s; replies := replies s; nextPtr := nextPtr s;
     bctx := bctx s; sendCounter := sendCounter s; loopGroup := g; closures := ks |}.

(** A fresh pointer. *)
Definition alloc s : nat * eventBus G :=
  (nextPtr s,
   {| consumers := consumers s; arrays := arrays s; cells := cells s; replies := replies s;
      nextPtr := S (nextPtr s); bctx := bctx s; sendCounter := sendCounter s;
      loopGroup := loopGroup s; closures := closures s |}).

(** ** Slices *)

Definition backing s sl : list (option nat) := default [] (arrays s !! arr sl).

(** Element [k] of the slice, read now. *)
Definition slice_at s sl (k : nat) : option nat :=
  if (k <? len sl)%nat then default None (backing s sl !! k) else None.

Definition set_array s sl (l : list (option nat)) : gmap nat (list (option nat)) :=
  <[arr sl := l]> (arrays s).

(** [append(sl, c)]: in place while the capacity allows, else into a new array. *)
Definition append1 s (sl : option slice) (c : nat) : eventBus G * slice :=
  let old := match sl with Some sl => take (len sl) (backing s sl) | None => [] end in
  match sl with
  | Some sl =>
      if (len sl <? length (backing s sl))%nat then
        (set_consumers s (consumers s) (set_array s sl (<[len sl := Some c]> (backing s sl))),
         mkSlice (arr sl) (S (len sl)))
      else
        let '(p, s) := alloc s in
        let n := S (len sl) in
        (set_consumers s (consumers s)
           (<[p := old ++ Some c :: replicate (Nat.max n (grow n) - n) None]> (arrays s)), mkSlice p n)
  | None =>
      let '(p, s) := alloc s in
      (set_consumers s (consumers s)
         (<[p := Some c :: replicate (Nat.max 1 (grow 1) - 1) None]> (arrays s)), mkSlice p 1)
  end.

(** [append(sl[:i], sl[i+1:]...)], in place: the last element stays in the array
    behind the shorter slice. *)
Definition remove_at s sl (i : nat) : eventBus G * slice :=
  let l := backing s sl in
  let live := take (len sl) l in
  (set_consumers s (consumers s)
     (set_array s sl (take i live ++ drop (S i) live ++ drop (len sl - 1) l)),
   mkSlice (arr sl) (len sl - 1)).

(** The first index at which the slice holds [c]. *)
Fixpoint find_index s sl (c : nat) (i n : nat) : option nat :=
  match n with
  | O => None
  | S n => if bool_decide (slice_at s sl i = Some c) then Some i else find_index s sl c (S i) n
  end.

(** ** Mailboxes in the heap *)

(** [c.mailbox.Send(msg)] *)
Definition mailbox_send s (c : nat) msg : outcome (eventBus G * option mailbox_error) :=
  match cells s !! c with
  | None => Panic
  | Some co =>
      '(mb, err) ← Mailbox.Send (mailbox co) msg;
      Ret (set_cells s (<[c := mkConsumer (address co) mb (chandler co) (done co)]> (cells s)), err)
  end.

(** [c.mailbox.Close()] *)
Definition mailbox_close s (c : nat) : eventBus G :=
  match cells s !! c with
  | None => s
  | Some co =>
      set_cells s (<[c := mkConsumer (address co) (Mailbox.Close (mailbox co)) (chandler co) (done co)]> (cells s))
  end.

(** ** Encoding *)

Definition JSONEncode (v : V) : outcome (option (list Z)) :=
  if nilValue v then Panic else Ret (JSONMarshal v).

Definition encodeBody (b : body P V) : outcome (option (list Z)) :=
  match b with
  | BodyNil => Ret None
  | BodyBytes d => Ret (Some d)
  | BodyProto p => Ret (ProtobufMarshal p)
  | BodyValue v => JSONEncode v
  end.

(** The checks every send starts with: the encoded body or the error. *)
Definition prepare a (timeout : option Z) (b : body P V) : outcome (result bus_error (list Z)) :=
  match ValidateAddress a with
  | Some e => Ret (Err e)
  | None =>
      match ValidateBody b with
      | Some e => Ret (Err e)
      | None =>
          match timeout ≫= ValidateTimeout with
          | Some e => Ret (Err e)
          | None =>
              d ← encodeBody b;
              match d with Some d => Ret (Ok d) | None => Ret (Err EncodeFailed) end
          end
      end
  end.

(** ** Registration *)

Definition Consumer s a : outcome (eventBus G * nat) :=
  match ValidateAddress a with
  | Some _ => Panic
  | None =>
      mb ← NewBoundedMailbox 100;
      let '(c, s) := alloc s in
      let s := set_cells s (<[c := mkConsumer a mb None false]> (cells s)) in
      let '(s, sl) := append1 s (consumers s !! a) c in
      Ret (set_consumers s (<[a := sl]> (consumers s)) (arrays s), c)
  end.

(** Closing the completion channel of a consumer. *)
Definition close_done s (c : nat) (co : consumer) : outcome (eventBus G) :=
  if done co then Panic
  else Ret (set_cells s (<[c := mkConsumer (address co) (mailbox co) (chandler co) true]> (cells s))).

(** [submitted]: the executor took the processing task. *)
Definition Handler s (c : nat) (h : handler) (submitted : bool) : outcome (eventBus G) :=
  match cells s !! c with
  | None => Panic
  | Some co =>
      let co := mkConsumer (address co) (mailbox co) (Some h) (done co) in
      let s := set_cells s (<[c := co]> (cells s)) in
      if submitted then Ret s else close_done s c co
  end.

Definition Unregister s (c : nat) : outcome (eventBus G) :=
  match cells s !! c with
  | None => Panic
  | Some co =>
      let s :=
        match consumers s !! address co with
        | None => s
        | Some sl =>
            match find_index s sl c 0 (len sl) with
            | None => s
            | Some i =>
                let '(s, sl) := remove_at s sl i in
                set_consumers s (<[address co := sl]> (consumers s)) (arrays s)
            end
        end in
      Ret (mailbox_close s c)
  end.

(** The consumers registered for an address, in order. *)
Definition slice_elems s (sl : option slice) : list nat :=
  match sl with
  | Some sl => omap (fun x => x) (take (len sl) (backing s sl))
  | None => []
  end.

Definition registered s a : list nat := slice_elems s (consumers s !! a).

Definition cancel_ctx (c : busctx) : busctx :=
  mkCtx (if ctx_done (status c) then status c else CtxCanceled) (floxID c) (requestID c).

Definition Close s : eventBus G :=
  let s :=
    {| consumers := consumers s; arrays := arrays s; cells := cells s; replies := replies s;
       nextPtr := nextPtr s; bctx := cancel_ctx (bctx s); sendCounter := sendCounter s;
       loopGroup := group_close <$> loopGroup s; closures := closures s |} in
  let all := a ← (map_to_list (consumers s)).*1; registered s a in
  let s := fold_left mailbox_close all s in
  set_consumers s ∅ (arrays s).

(** ** Events for the loops *)

(** The value of a header, the empty string when it is absent. *)
Definition header (h : gmap string string) (k : string) : string := default ""%string (h !! k).

Definition bus_event s (ctx : busctx) a msg (c : nat) : eventBus G * Event :=
  let k := Z.of_nat (length (closures s)) in
  let h := mHeaders msg in
  let h := if negb (String.eqb (floxID ctx) "") && String.eqb (header h "X-Flox-ID") ""
           then <["X-Flox-ID"%string := floxID ctx]> h else h in
  (set_group s (loopGroup s) (closures s ++ [(c, msg)]), mkEvent (floxID ctx) a k (Some h) (Some k)).

(** The handler of a dispatched event. *)
Definition run_closure s (k : Z) : outcome (eventBus G * option mailbox_error) :=
  match closures s !! Z.to_nat k with
  | Some (c, msg) => mailbox_send s c msg
  | None => Panic
  end.

Definition dispatch_event s (g : G) (ctx : busctx) a msg (c : nat) :
    call (eventBus G * option bus_error) :=
  let '(s, ev) := bus_event s ctx a msg c in
  '(g, err) ← group_dispatch g ev;
  Returns (set_group s (Some g) (closures s), LoopErr <$> (err : option EventLoopError)).

(** ** Publish *)

Definition is_full (e : bus_error) : bool := bool_decide (e = MailboxErr ErrMailboxFull).

(** One iteration of the delivery loop: whether it goes on, or what it returns. *)
Definition publish_one s (ctx : busctx) (sl : slice) msg (k : nat) :
    outcome (eventBus G * option (option bus_error)) :=
  match slice_at s sl k with
  | None => Panic
  | Some c =>
      '(s, err) ← mailbox_send s c msg;
      match err with
      | None => Ret (s, None)
      | Some e =>
          if is_full (MailboxErr e) then Ret (s, None)
          else if bool_decide (e = ErrMailboxClosed) then Ret (s, Some (ctx_Err ctx))
          else Ret (s, Some (Some (MailboxErr e)))
      end
  end.

Fixpoint publish_loop s (ctx : busctx) (sl : slice) msg (k n : nat) :
    outcome (eventBus G * option bus_error) :=
  match n with
  | O => Ret (s, None)
  | S n =>
      '(s, stop) ← publish_one s ctx sl msg k;
      match stop with
      | Some err => Ret (s, err)
      | None => publish_loop s ctx sl msg (S k) n
      end
  end.

(** [publishViaEventLoopWithContext] *)
Fixpoint publishViaEventLoop s (ctx : busctx) a (sl : slice) msg (k n : nat) :
    call (eventBus G * option bus_error) :=
  match n, loopGroup s, slice_at s sl k with
  | O, _, _ => Returns (s, None)
  | S n, Some g, Some c =>
      '(s, err) ← dispatch_event s g ctx a msg c;
      match err with
      | None => publishViaEventLoop s ctx a sl msg (S k) n
      | Some e => if is_full e then publishViaEventLoop s ctx a sl msg (S k) n else Returns (s, Some e)
      end
  | _, _, _ => Panics
  end.

Definition PublishWithContext s (ctx : option busctx) a (b : body P V) :
    call (eventBus G * option bus_error) :=
  r ← of_outcome (prepare a None b);
  match r with
  | Err e => Returns (s, Some e)
  | Ok d =>
      let ctx := default (bctx s) ctx in
      let msg := mkMessage d (buildHeaders ctx) "" in
      match consumers s !! a with
      | None => Returns (s, None)
      | Some sl =>
          match loopGroup s with
          | Some _ => publishViaEventLoop s ctx a sl msg 0 (len sl)
          | None => of_outcome (publish_loop s ctx sl msg 0 (len sl))
          end
      end
  end.

Definition Publish s a (b : body P V) : call (eventBus G * option bus_error) :=
  PublishWithContext s (Some (bctx s)) a b.

(** ** Send *)

(** [consumers[atomic.AddUint64(&eb.sendCounter, 1) % len]] *)
Definition pick_consumer s (sl : slice) : eventBus G * nat :=
  let n := u64 (sendCounter s + 1) in
  (set_counter s n, Z.to_nat (n mod Z.of_nat (len sl))).

(** The mailbox send of a point-to-point message, and its errors; [sent] is what
    the caller returns after a successful send. *)
Definition send_direct s (ctx : busctx) (sent : option bus_error) (c : nat) msg : outcome (eventBus G * option bus_error) :=
  '(s, err) ← mailbox_send s c msg;
  match err with
  | None => Ret (s, sent)
  | Some e =>
      if is_full (MailboxErr e) then Ret (s, Some ErrTimeout)
      else if bool_decide (e = ErrMailboxClosed) then Ret (s, ctx_Err ctx)
      else Ret (s, Some (MailboxErr e))
  end.

(** [sendViaEventLoopWithContext]: it never returns a message. *)
Definition sendViaEventLoop s (g : G) (ctx : busctx) a msg (c : nat) :
    call (eventBus G * option bus_error) :=
  '(s, err) ← dispatch_event s g ctx a msg c;
  match err with
  | Some e => Returns (s, Some (if is_full e then ErrTimeout else e))
  | None => Returns (s, Some NotImplemented)
  end.

(** What [Send] and [SendWithContext] share once the body is encoded. *)
Definition send_point s (ctx : busctx) (sent : option bus_error) a (d : list Z) : call (eventBus G * option bus_error) :=
  match consumers s !! a with
  | Some sl =>
      if (len sl =? 0)%nat then Returns (s, Some NO_HANDLERS)
      else
        let '(s, k) := pick_consumer s sl in
        match slice_at s sl k with
        | None => Panics
        | Some c =>
            let msg := mkMessage d (buildHeaders ctx) "" in
            match loopGroup s with
            | Some g => sendViaEventLoop s g ctx a msg c
            | None => of_outcome (send_direct s ctx sent c msg)
            end
        end
  | None => Returns (s, Some NO_HANDLERS)
  end.

Definition Send s a (b : body P V) : call (eventBus G * option bus_error) :=
  r ← of_outcome (prepare a None b);
  match r with
  | Err e => Returns (s, Some e)
  | Ok d => send_point s (bctx s) None a d
  end.

(** The direct path, too, ends in the request-reply error after a successful
    send; no path returns a message. *)
Definition SendWithContext s (ctx : option busctx) a (b : body P V) (timeout : Z) :
    call (eventBus G * option bus_error) :=
  r ← of_outcome (prepare a (Some timeout) b);
  match r with
  | Err e => Returns (s, Some e)
  | Ok d => send_point s (default (bctx s) ctx) (Some NotImplemented) a d
  end.

(** [m.Reply(body)] *)
Definition Reply s msg (b : body P V) : call (eventBus G * option bus_error) :=
  if String.eqb (mReplyAddress msg) "" then Returns (s, Some NO_REPLY_ADDRESS)
  else Send s (mReplyAddress msg) b.

(** ** Request *)

(** A request that waits: its reply mailbox and its reply consumer. *)
Record pending : Type := mkPending { replyMailbox : nat; replyConsumer : nat }.

(** [Request] up to the wait for the reply, with the address it generated and
    whether the executor takes the reply consumer's task; a return without a
    message, [Err], runs the deferred [Unregister]. *)
Definition request_begin s a (b : body P V) (timeout : Z) (replyAddress : string) (submitted : bool) :
    outcome (eventBus G * result (option bus_error) pending) :=
  r ← prepare a (Some timeout) b;
  match r with
  | Err e => Ret (s, Err (Some e))
  | Ok d =>
      mb ← NewBoundedMailbox 1;
      let '(p, s) := alloc s in
      let s := set_replies s (<[p := mb]> (replies s)) in
      '(s, rc) ← Consumer s replyAddress;
      s ← Handler s rc (HReply p) submitted;
      let h := {["replyAddress"%string := replyAddress]} in
      let h := if String.eqb (requestID (bctx s)) "" then h
               else <["X-Request-ID"%string := requestID (bctx s)]> h in
      let msg := mkMessage d h replyAddress in
      match consumers s !! a with
      | None => s ← Unregister s rc; Ret (s, Err (Some NO_HANDLERS))
      | Some sl =>
          if (len sl =? 0)%nat then (s ← Unregister s rc; Ret (s, Err (Some NO_HANDLERS)))
          else
            match slice_at s sl 0 with
            | None => Panic
            | Some c =>
                '(s, err) ← mailbox_send s c msg;
                match err with
                | None => Ret (s, Ok (mkPending p rc))
                | Some e =>
                    s ← Unregister s rc;
                    if is_full (MailboxErr e) then Ret (s, Err (Some ErrTimeout))
                    else if bool_decide (e = ErrMailboxClosed) then Ret (s, Err (ctx_Err (bctx s)))
                    else Ret (s, Err (Some (MailboxErr e)))
                end
            end
      end
  end.

(** The wait of [Request], with the state of its reply context, and its return. *)
Definition request_finish s (p : pending) (c : ctx_status) (preferCtx : bool) :
    call (eventBus G * result bus_error message) :=
  match replies s !! replyMailbox p with
  | None => Panics
  | Some mb =>
      match Receive mb c preferCtx with
      | None => Blocks
      | Some (mb, r) =>
          let s := set_replies s (<[replyMailbox p := mb]> (replies s)) in
          s ← of_outcome (Unregister s (replyConsumer p));
          match r with
          | Ok msg => Returns (s, Ok msg)
          | Err (ErrContext CtxDeadlineExceeded) => Returns (s, Err ErrTimeout)
          | Err (ErrContext c) => Returns (s, Err (CtxErr c))
          | Err e => Returns (s, Err (MailboxErr e))
          end
      end
  end.

(** ** Processing *)

(** One iteration of [processMessages] of consumer [c]: the program's handler
    and message it calls, if any, or the error with which the loop ends. *)
Definition process_one s (c : nat) (cst : ctx_status) (preferCtx : bool) :
    call (eventBus G * result mailbox_error (option (Z * message))) :=
  match cells s !! c with
  | None => Panics
  | Some co =>
      match Receive (mailbox co) cst preferCtx with
      | None => Blocks
      | Some (mb, r) =>
          let co := mkConsumer (address co) mb (chandler co) (done co) in
          let s := set_cells s (<[c := co]> (cells s)) in
          match r with
          | Err e => s ← of_outcome (close_done s c co); Returns (s, Err e)
          | Ok msg =>
              match chandler co with
              | Some (HUser h) => Returns (s, Ok (Some (h, msg)))
              | Some (HReply p) =>
                  match replies s !! p with
                  | None => Returns (s, Ok None)
                  | Some rb =>
                      match Mailbox.Send rb msg with
                      | Ret (rb, _) => Returns (set_replies s (<[p := rb]> (replies s)), Ok None)
                      | Panic => Returns (s, Ok None)
                      end
                  end
              | None => Returns (s, Ok None)
              end
          end
      end
  end.

(** ** The registry invariant *)

(** Consumer [c] exists, is for address [a] and its mailbox is open. *)
Definition live s a (c : nat) : Prop :=
  exists co, cells s !! c = Some co /\ address co = a /\ Mailbox.closed (mailbox co) = false /\
    chClosed (mailbox co) = false.

(** The slice holds exactly the pointers [cs]. *)
Definition holds s sl (cs : list nat) : Prop :=
  len sl = length cs /\ exists tail, arrays s !! arr sl = Some ((Some <$> cs) ++ tail).

Definition bus_ok s : Prop :=
  (forall a sl, consumers s !! a = Some sl ->
     exists cs, holds s sl cs /\ NoDup cs /\ Forall (live s a) cs) /\
  (forall a a' sl sl', consumers s !! a = Some sl -> consumers s !! a' = Some sl' ->
     arr sl = arr sl' -> a = a') /\
  (forall c, is_Some (cells s !! c) -> (c < nextPtr s)%nat) /\
  (forall p, is_Some (arrays s !! p) -> (p < nextPtr s)%nat).

Lemma omap_fmap_Some {A} (l : list A) : omap (fun x => x) (Some <$> l) = l.
Proof. induction l as [|x l IH]; [done|]. csimpl. by rewrite IH. Qed.

Lemma holds_take s sl cs : holds s sl cs -> take (len sl) (backing s sl) = Some <$> cs.
Proof.
  intros (Hl & tail & Ha). unfold backing. rewrite Ha, Hl. simpl.
  rewrite take_app_length'; [done|]. by rewrite length_fmap.
Qed.

Lemma holds_elems s sl cs : holds s sl cs -> slice_elems s (Some sl) = cs.
Proof. intros Hs. simpl. by rewrite (holds_take _ _ _ Hs), omap_fmap_Some. Qed.

Lemma holds_at s sl cs k : holds s sl cs -> slice_at s sl k = cs !! k.
Proof.
  intros (Hl & tail & Ha). unfold slice_at, backing. rewrite Ha, Hl. simpl.
  destruct (Nat.ltb_spec k (length cs)) as [Hk|Hk]; [|by rewrite lookup_ge_None_2].
  rewrite lookup_app_l by (by rewrite length_fmap). rewrite list_lookup_fmap.
  destruct (lookup_lt_is_Some_2 cs k Hk) as [c ->]. done.
Qed.

Lemma registered_holds s a : bus_ok s -> registered s a = [] /\ consumers s !! a = None \/
  exists sl, consumers s !! a = Some sl /\ holds s sl (registered s a) /\
    NoDup (registered s a) /\ Forall (live s a) (registered s a).
Proof.
  intros (H1 & _). unfold registered. destruct (consumers s !! a) as [sl|] eqn:Ha; [right|by left].
  destruct (H1 _ _ Ha) as (cs & Hh & Hn & Hf). exists sl.
  rewrite (holds_elems _ _ _ Hh). done.
Qed.

Lemma registered_live s a : bus_ok s -> Forall (live s a) (registered s a).
Proof. intros Hs. by destruct (registered_holds s a Hs) as [[-> _]|(sl & _ & _ & _ & ?)]. Qed.

Lemma registered_NoDup s a : bus_ok s -> NoDup (registered s a).
Proof.
  intros Hs. destruct (registered_holds s a Hs) as [[-> _]|(sl & _ & _ & ? & _)]; [constructor|done].
Qed.

Lemma live_address s a b c : live s a c -> live s b c -> a = b.
Proof. intros (co & E & <- & _) (co' & E' & <- & _). by simplify_eq. Qed.

(** Only the map, the arrays, the liveness of the registered consumers and the
    allocation bounds matter. *)
Lemma bus_ok_frame s s' :
  consumers s' = consumers s -> arrays s' = arrays s -> (nextPtr s <= nextPtr s')%nat ->
  (forall a c, c ∈ registered s a -> live s a c -> live s' a c) ->
  (forall c, is_Some (cells s' !! c) -> (c < nextPtr s')%nat) ->
  bus_ok s -> bus_ok s'.
Proof.
  intros Em Ea Hn Hl Hc (H1 & H2 & H3 & H4). unfold bus_ok. rewrite Em, Ea.
  split_and!; [|exact H2|done|intros p Hp; specialize (H4 _ Hp); lia].
  intros a sl Ha. destruct (H1 _ _ Ha) as (cs & Hh & Hd & Hf). exists cs.
  assert (registered s a = cs) as Hr by (unfold registered; by rewrite Ha, (holds_elems _ _ _ Hh)).
  split_and!; [by unfold holds; rewrite Ea|done|]. rewrite Forall_forall in Hf |- *.
  intros c Hcs. apply Hl; [by rewrite Hr|by apply Hf].
Qed.

Lemma registered_frame s s' a :
  consumers s' = consumers s -> arrays s' = arrays s -> registered s' a = registered s a.
Proof. intros Em Ea. unfold registered, slice_elems, backing. by rewrite Em, Ea. Qed.

(** ** Appending and removing *)

Definition holds_opt s (sl : option slice) (cs : list nat) : Prop :=
  match sl with Some sl => holds s sl cs | None => cs = [] end.

(** What [append] leaves alone: the map, the heap and every other array. *)
Definition array_step s s' (p : nat) : Prop :=
  consumers s' = consumers s /\ cells s' = cells s /\ replies s' = replies s /\
  bctx s' = bctx s /\ sendCounter s' = sendCounter s /\ loopGroup s' = loopGroup s /\
  closures s' = closures s /\ (nextPtr s <= nextPtr s')%nat /\
  (forall q, q <> p -> arrays s' !! q = arrays s !! q) /\
  (forall q, is_Some (arrays s' !! q) -> (q < nextPtr s')%nat).

Lemma append1_spec s osl cs c s' sl' :
  holds_opt s osl cs -> (forall q, is_Some (arrays s !! q) -> (q < nextPtr s)%nat) ->
  append1 s osl c = (s', sl') ->
  holds s' sl' (cs ++ [c]) /\ array_step s s' (arr sl') /\
  (match osl with Some sl => arr sl' = arr sl | None => False end \/ (nextPtr s <= arr sl')%nat).
Proof.
  intros Hh Hb E. unfold append1 in E. destruct osl as [sl|]; simpl in Hh.
  - destruct Hh as (Hl & tail & Ha). assert (backing s sl = (Some <$> cs) ++ tail) as Hbk
      by (unfold backing; by rewrite Ha).
    rewrite Hbk in E. destruct (Nat.ltb_spec (len sl) (length ((Some <$> cs) ++ tail))) as [Hc|Hc].
    + injection E as <- <-. split; [|split; [|by left]].
      * split; [simpl; rewrite length_app; simpl; lia|]. simpl. unfold set_array.
        rewrite lookup_insert_eq. destruct tail as [|t tail];
          [rewrite app_nil_r, length_fmap in Hc; lia|]. exists tail.
        rewrite insert_app_r_alt by (rewrite length_fmap; lia).
        rewrite length_fmap, Hl, Nat.sub_diag, fmap_app, <- app_assoc. done.
      * split_and!; try done; simpl; unfold set_array.
        -- intros q Hq. by rewrite lookup_insert_ne.
        -- intros q. destruct (decide (q = arr sl)) as [->|Hq]; [by intros; apply Hb; rewrite Ha|].
           rewrite lookup_insert_ne by done. auto.
    + simpl in E. injection E as <- <-. rewrite length_app, length_fmap in Hc.
      assert (tail = []) as -> by (destruct tail; simpl in *; [done|lia]).
      split; [|split; [|by right]].
      * split; [simpl; rewrite length_app; simpl; lia|]. simpl. rewrite lookup_insert_eq.
        eexists. rewrite app_nil_r, take_ge by (rewrite length_fmap; lia).
        rewrite fmap_app, <- app_assoc. done.
      * split_and!; try done; simpl; [lia| |].
        -- intros q Hq. by rewrite lookup_insert_ne.
        -- intros q. destruct (decide (q = nextPtr s)) as [->|Hq]; [lia|].
           rewrite lookup_insert_ne by done. intros Hs. specialize (Hb _ Hs). lia.
  - subst cs. simpl in E. injection E as <- <-. split; [|split; [|by right]].
    + split; [done|]. simpl. rewrite lookup_insert_eq. eexists. done.
    + split_and!; try done; simpl; [lia| |].
      * intros q Hq. by rewrite lookup_insert_ne.
      * intros q. destruct (decide (q = nextPtr s)) as [->|Hq]; [lia|].
        rewrite lookup_insert_ne by done. intros Hs. specialize (Hb _ Hs). lia.
Qed.

Lemma find_index_spec s sl cs c n i :
  holds s sl cs -> (i + n = length cs)%nat ->
  match find_index s sl c i n with
  | Some k => (i <= k)%nat /\ cs !! k = Some c
  | None => forall k, (i <= k)%nat -> cs !! k <> Some c
  end.
Proof.
  intros Hh. revert i. induction n as [|n IH]; intros i Hi; simpl.
  - intros k Hk Hc. apply lookup_lt_Some in Hc. lia.
  - rewrite (holds_at _ _ _ _ Hh). case_bool_decide as Hc; [done|].
    specialize (IH (S i) ltac:(lia)). destruct (find_index s sl c (S i) n) as [k|].
    + split; [lia|apply IH].
    + intros k Hk. destruct (decide (k = i)) as [->|]; [done|]. apply IH. lia.
Qed.

Lemma remove_at_spec s sl cs i s' sl' :
  holds s sl cs -> (forall q, is_Some (arrays s !! q) -> (q < nextPtr s)%nat) ->
  (i < length cs)%nat -> remove_at s sl i = (s', sl') ->
  holds s' sl' (delete i cs) /\ array_step s s' (arr sl) /\ arr sl' = arr sl.
Proof.
  intros Hh Hb Hi E. pose proof (holds_take _ _ _ Hh) as Ht. destruct Hh as (Hl & tail & Ha).
  unfold remove_at in E. rewrite Ht in E. injection E as <- <-. split_and!; try done; simpl.
  - split; [simpl; rewrite length_delete by (by apply lookup_lt_is_Some_2); lia|].
    simpl. unfold set_array. rewrite lookup_insert_eq. eexists.
    rewrite app_assoc, delete_take_drop, fmap_app, fmap_take, fmap_drop. done.
  - split_and!; try done; simpl; unfold set_array.
    + intros q Hq. by rewrite lookup_insert_ne.
    + intros q. destruct (decide (q = arr sl)) as [->|Hq]; [intros _; apply Hb; by rewrite Ha|].
      rewrite lookup_insert_ne by done. auto.
Qed.

(** A new slice for one address, with every consumer it holds live. *)
Lemma bus_ok_update s s' a sl' cs :
  bus_ok s -> consumers s' = <[a := sl']> (consumers s) -> (nextPtr s <= nextPtr s')%nat ->
  (forall q, q <> arr sl' -> arrays s' !! q = arrays s !! q) ->
  (forall q, is_Some (arrays s' !! q) -> (q < nextPtr s')%nat) ->
  (forall c, is_Some (cells s' !! c) -> (c < nextPtr s')%nat) ->
  (forall x sl, x <> a -> consumers s !! x = Some sl -> arr sl <> arr sl') ->
  (forall x c, x <> a -> c ∈ registered s x -> live s x c -> live s' x c) ->
  holds s' sl' cs -> NoDup cs -> Forall (live s' a) cs ->
  bus_ok s' /\ forall x, registered s' x = if decide (x = a) then cs else registered s x.
Proof.
  intros Hok Em Hn Ha Hb Hc Hne Hlive Hh Hd Hf. pose proof Hok as (H1 & H2 & H3 & H4).
  assert (forall x sl ks, x <> a -> consumers s !! x = Some sl -> holds s sl ks -> holds s' sl ks) as Hh'.
  { intros x sl ks Hx Hs (Hl & tail & Hk). split; [done|]. exists tail. rewrite Ha; [done|eauto]. }
  split.
  - split_and!; [|rewrite Em|done|done].
    + intros x sl. rewrite Em. destruct (decide (x = a)) as [->|Hx].
      { rewrite lookup_insert_eq. intros [= <-]. eauto. }
      rewrite lookup_insert_ne by done. intros Hs. destruct (H1 _ _ Hs) as (ks & Hk & Hkd & Hkf).
      exists ks. split_and!; [by eapply Hh'|done|]. rewrite Forall_forall in Hkf |- *.
      intros c Hck. apply Hlive; [done| |by apply Hkf].
      unfold registered. by rewrite Hs, (holds_elems _ _ _ Hk).
    + intros x y sl sl2. destruct (decide (x = a)) as [->|Hx], (decide (y = a)) as [->|Hy];
        rewrite ?lookup_insert_eq, ?lookup_insert_ne by done; [done|..].
      * intros [= <-] Hs Heq. destruct (Hne _ _ Hy Hs). done.
      * intros Hs [= <-] Heq. by destruct (Hne _ _ Hx Hs).
      * apply H2.
  - intros x. unfold registered at 1. rewrite Em. destruct (decide (x = a)) as [->|Hx].
    + by rewrite lookup_insert_eq, (holds_elems _ _ _ Hh).
    + rewrite lookup_insert_ne by done. unfold registered.
      destruct (consumers s !! x) as [sl|] eqn:Hs; [|done].
      destruct (H1 _ _ Hs) as (ks & Hk & _). rewrite (holds_elems _ _ _ Hk).
      by rewrite (holds_elems _ _ _ (Hh' _ _ _ Hx Hs Hk)).
Qed.

Lemma filter_ne_id (l : list nat) c : c ∉ l -> filter (.≠ c) l = l.
Proof.
  induction l as [|x l IH]; intros Hc; [done|]. rewrite not_elem_of_cons in Hc.
  rewrite filter_cons_True by (intros ->; tauto). rewrite IH; tauto.
Qed.

Lemma delete_filter (l : list nat) i c :
  NoDup l -> l !! i = Some c -> delete i l = filter (.≠ c) l.
Proof.
  revert i. induction l as [|x l IH]; intros i Hd Hi; [done|]. apply NoDup_cons in Hd as [Hx Hd].
  destruct i as [|i]; simpl in Hi.
  - injection Hi as ->. simpl. rewrite filter_cons_False by tauto. by rewrite filter_ne_id.
  - rewrite filter_cons_True; [|intros ->; apply Hx; by eapply list_elem_of_lookup_2].
    simpl. f_equal. by apply IH.
Qed.

Lemma Consumer_spec s a s' c :
  bus_ok s -> Consumer s a = Ret (s', c) ->
  bus_ok s' /\ (forall x, registered s' x = if decide (x = a) then registered s a ++ [c] else registered s x) /\
  c = nextPtr s /\ cells s' = <[c := mkConsumer a (mkMailbox [] false false 100 0) None false]> (cells s) /\
  replies s' = replies s /\ bctx s' = bctx s /\ sendCounter s' = sendCounter s /\
  loopGroup s' = loopGroup s /\ closures s' = closures s.
Proof.
  intros Hok E. unfold Consumer in E. destruct (ValidateAddress a) as [e|]; [done|].
  cbn [mbind outcome_bind NewBoundedMailbox] in E. simpl in E.
  set (s1 := set_cells _ _) in E.
  destruct (append1 s1 (consumers s !! a) (nextPtr s)) as [s2 sl'] eqn:Ea. injection E as <- <-.
  pose proof Hok as (H1 & H2 & H3 & H4).
  assert (forall q, is_Some (arrays s1 !! q) -> (q < nextPtr s1)%nat) as Hb1.
  { simpl. intros q Hq. specialize (H4 _ Hq). lia. }
  assert (holds_opt s1 (consumers s !! a) (registered s a)) as Hh1.
  { destruct (registered_holds s a Hok) as [[-> ->]|(sl & -> & Hh & _)]; done. }
  destruct (append1_spec _ _ _ _ _ _ Hh1 Hb1 Ea)
    as (Hh & (E1 & E2 & E3 & E4 & E5 & E6 & E7 & E8 & E9 & E10) & Hp).
  assert (cells s !! nextPtr s = None) as Hfresh.
  { destruct (cells s !! nextPtr s) eqn:Hx; [|done]. assert (nextPtr s < nextPtr s)%nat; [|lia].
    apply H3. by rewrite Hx. }
  assert (forall x k, live s x k -> live s2 x k) as Hlive.
  { intros x k (co & Hk & Hco). exists co. split; [|done]. rewrite E2. simpl.
    rewrite lookup_insert_ne; [done|]. intros <-. congruence. }
  pose proof (registered_live s a Hok) as Hf.
  edestruct (bus_ok_update s (set_consumers s2 (<[a := sl']> (consumers s2)) (arrays s2)) a sl'
    (registered s a ++ [nextPtr s])) as [Hok' Hreg]; [done|by simpl; rewrite E1|simpl in *; lia|exact E9|exact E10| | |
    by intros; apply Hlive|exact Hh| | |].
  - simpl. rewrite E2. simpl. intros k. destruct (decide (k = nextPtr s)) as [->|Hk]; [simpl in E8; lia|].
    rewrite lookup_insert_ne by done. intros Hx. specialize (H3 _ Hx). simpl in E8. lia.
  - intros x sl Hx Hs Heq. destruct Hp as [Hp|Hp].
    + destruct (consumers s !! a) as [sl0|] eqn:Ha; [|done]. apply Hx. eapply H2; eauto. congruence.
    + destruct (H1 _ _ Hs) as (ks & (_ & tail & Hk) & _). simpl in Hp.
      specialize (H4 (arr sl) ltac:(by rewrite Hk)). lia.
  - apply NoDup_app. split_and!; [by apply registered_NoDup| |apply NoDup_singleton].
    intros k Hk Hk'. apply list_elem_of_singleton in Hk' as ->. rewrite Forall_forall in Hf.
    destruct (Hf _ Hk) as (co & Hco & _). congruence.
  - apply Forall_app. split; [eapply Forall_impl; [exact Hf|]; intros; by apply Hlive|].
    apply Forall_singleton. eexists. split_and!; [simpl; rewrite E2; apply lookup_insert_eq|done..].
  - split_and!; try done; by simpl; rewrite ?E2, ?E3, ?E4, ?E5, ?E6, ?E7.
Qed.

(** A change of one cell that keeps its address. *)
Lemma mailbox_close_spec s c :
  bus_ok s -> (forall x, c ∉ registered s x) ->
  bus_ok (mailbox_close s c) /\ forall x, registered (mailbox_close s c) x = registered s x.
Proof.
  intros Hok Hc. unfold mailbox_close. destruct (cells s !! c) as [co|] eqn:Hco; [|done].
  split; [|intros; by apply registered_frame]. pose proof Hok as (H1 & H2 & H3 & H4).
  eapply bus_ok_frame; [..|exact Hok]; try done; simpl.
  - intros a k Hk (cok & Hl & Hr). exists cok. split; [|done]. simpl. rewrite lookup_insert_ne; [done|].
    intros ->. by eapply Hc.
  - intros k. destruct (decide (k = c)) as [->|Hk]; [intros _; apply H3; by rewrite Hco|].
    rewrite lookup_insert_ne by done. apply H3.
Qed.

Lemma Unregister_spec s c s' :
  bus_ok s -> Unregister s c = Ret s' ->
  bus_ok s' /\ forall x, registered s' x = filter (.≠ c) (registered s x).
Proof.
  intros Hok E. unfold Unregister in E. destruct (cells s !! c) as [co|] eqn:Hco; [|done].
  injection E as <-. set (s1 := match consumers s !! address co with Some _ => _ | None => s end).
  assert (forall x, x <> address co -> c ∉ registered s x) as Hother.
  { intros x Hx Hin. pose proof (registered_live s x Hok) as Hf. rewrite Forall_forall in Hf.
    destruct (Hf _ Hin) as (co' & Hco' & Hadr & _). congruence. }
  assert (bus_ok s1 /\ forall x, registered s1 x = filter (.≠ c) (registered s x)) as [Hok1 Hr1].
  { destruct (registered_holds s (address co) Hok) as [[Hnil Hnone]|(sl & Hsl & Hh & Hd & Hf)]; unfold s1.
    { rewrite Hnone. split; [done|]. intros x. symmetry. apply filter_ne_id.
      destruct (decide (x = address co)) as [->|]; [rewrite Hnil; apply not_elem_of_nil|auto]. }
    rewrite Hsl. pose proof (find_index_spec s sl (registered s (address co)) c (len sl) 0 Hh) as Hfi.
    destruct (find_index s sl c 0 (len sl)) as [i|].
    2: { split; [done|]. intros x. symmetry. apply filter_ne_id.
      destruct (decide (x = address co)) as [->|]; [|auto].
      intros Hin. apply list_elem_of_lookup in Hin as [k Hk]. eapply Hfi; [|apply (Nat.le_0_l k)|exact Hk].
      destruct Hh as [-> _]. done. }
    destruct Hfi as [_ Hi]; [by destruct Hh as [-> _]|].
    destruct (remove_at s sl i) as [s2 sl'] eqn:Er. pose proof Hok as (H1 & H2 & H3 & H4).
    destruct (remove_at_spec _ _ _ _ _ _ Hh H4 (lookup_lt_Some _ _ _ Hi) Er)
      as (Hh' & (E1 & E2 & E3 & E4 & E5 & E6 & E7 & E8 & E9 & E10) & Harr).
    assert (forall x k, live s x k -> live s2 x k) as Hlive by (intros x k; unfold live; by rewrite E2).
    edestruct (bus_ok_update s (set_consumers s2 (<[address co := sl']> (consumers s2)) (arrays s2))
      (address co) sl' (delete i (registered s (address co)))) as [Hok' Hreg];
      [done|by simpl; rewrite E1|simpl in *; lia|by rewrite Harr|exact E10| | |
       by intros; apply Hlive|exact Hh'| | |].
    - simpl. rewrite E2. intros k Hk. specialize (H3 _ Hk). lia.
    - intros x sl0 Hx Hs Heq. apply Hx. eapply H2; eauto. congruence.
    - eapply sublist_NoDup; [exact Hd|apply sublist_delete].
    - apply Forall_delete. eapply Forall_impl; [exact Hf|]. intros; by apply Hlive.
    - unfold remove_at in Er. injection Er as <- <-. split; [exact Hok'|]. intros x.
      etransitivity; [apply Hreg|]. destruct (decide (x = address co)) as [->|Hx].
      + by apply delete_filter.
      + symmetry. apply filter_ne_id. auto. }
  destruct (mailbox_close_spec s1 c Hok1) as [Hok2 Hr2].
  { intros x. rewrite Hr1. rewrite list_elem_of_filter. tauto. }
  split; [done|]. intros x. by rewrite Hr2.
Qed.

(** ** Deliveries *)

(** The consumer after a mailbox send: a full mailbox refuses the message. *)
Definition post msg (co : consumer) : consumer :=
  if has_room (mailbox co)
  then mkConsumer (address co) (add_size (set_ch (mailbox co) (ch (mailbox co) ++ [msg])) 1)
         (chandler co) (done co)
  else co.

Definition post_all msg (cs : list nat) (m : gmap nat consumer) : gmap nat consumer :=
  fold_left (fun m c => alter (post msg) c m) cs m.

Lemma post_all_lookup msg cs m c :
  NoDup cs -> post_all msg cs m !! c = if decide (c ∈ cs) then post msg <$> m !! c else m !! c.
Proof.
  revert m. induction cs as [|k cs IH]; intros m Hd; simpl; [done|].
  apply NoDup_cons in Hd as [Hk Hd]. rewrite IH by done.
  destruct (decide (c ∈ cs)) as [Hc|Hc], (decide (c ∈ k :: cs)) as [Hc'|Hc'];
    rewrite elem_of_cons in Hc'; try tauto.
  - rewrite lookup_alter_ne; [done|]. by intros ->.
  - destruct Hc' as [->|]; [|done]. by rewrite lookup_alter_eq.
  - rewrite lookup_alter_ne; [done|]. intros ->. tauto.
Qed.

Lemma live_post msg m s a c k :
  cells s = alter (post msg) k m -> live (set_cells s m) a c -> live s a c.
Proof.
  intros Em (co & Hc & Ha & Hcl & Hch). simpl in Hc. destruct (decide (c = k)) as [->|Hne].
  - exists (post msg co). rewrite Em, lookup_alter_eq, Hc. split; [done|]. unfold post.
    by destruct (has_room (mailbox co)).
  - exists co. by rewrite Em, lookup_alter_ne.
Qed.

(** A send to an open mailbox neither panics nor finds it closed. *)
Lemma mailbox_send_live s a c msg :
  live s a c ->
  exists co, cells s !! c = Some co /\
    mailbox_send s c msg = Ret (set_cells s (alter (post msg) c (cells s)),
      if has_room (mailbox co) then None else Some ErrMailboxFull).
Proof.
  intros (co & Hc & _ & Hcl & Hch). exists co. split; [done|]. unfold mailbox_send.
  rewrite Hc. unfold Mailbox.Send, channel_send. rewrite Hcl, Hch.
  assert (forall co', <[c := co']> (cells s) = alter (fun _ => co') c (cells s)) as Hi.
  { intros co'. apply map_eq. intros k. destruct (decide (k = c)) as [->|Hk].
    - by rewrite lookup_insert_eq, lookup_alter_eq, Hc.
    - by rewrite lookup_insert_ne, lookup_alter_ne. }
  assert (alter (post msg) c (cells s) = alter (fun _ => post msg co) c (cells s)) as ->.
  { apply map_eq. intros k. destruct (decide (k = c)) as [->|Hk].
    - by rewrite !lookup_alter_eq, Hc.
    - by rewrite !lookup_alter_ne. }
  unfold post. destruct (has_room (mailbox co)) eqn:Hr; cbn [mbind outcome_bind];
    rewrite Hi; [done|]. by destruct co.
Qed.

Lemma post_ok s c msg :
  bus_ok s -> bus_ok (set_cells s (alter (post msg) c (cells s))).
Proof.
  intros Hok. pose proof Hok as (H1 & H2 & H3 & H4). eapply bus_ok_frame; [..|exact Hok]; try done.
  - intros a k _ Hl. eapply live_post; [done|]. simpl. by destruct s.
  - simpl. intros k. destruct (decide (k = c)) as [->|Hk]; [rewrite lookup_alter_eq, fmap_is_Some|rewrite lookup_alter_ne by done];
      apply H3.
Qed.

Lemma publish_loop_spec s ctx sl cs a msg k n :
  bus_ok s -> holds s sl cs -> Forall (live s a) cs -> (k + n = length cs)%nat ->
  publish_loop s ctx sl msg k n = Ret (set_cells s (post_all msg (drop k cs) (cells s)), None).
Proof.
  revert s k. induction n as [|n IH]; intros s k Hok Hh Hf Hk; simpl.
  - rewrite drop_ge by lia. simpl. by destruct s.
  - destruct (lookup_lt_is_Some_2 cs k ltac:(lia)) as [c Hc].
    unfold publish_one. rewrite (holds_at _ _ _ _ Hh), Hc.
    rewrite Forall_forall in Hf. destruct (mailbox_send_live s a c msg) as (co & Hco & ->).
    { apply Hf. by eapply list_elem_of_lookup_2. }
    cbn [mbind outcome_bind]. rewrite (drop_S _ _ _ Hc). set (s1 := set_cells s _).
    assert (publish_loop s1 ctx sl msg (S k) n =
      Ret (set_cells s (post_all msg (c :: drop (S k) cs) (cells s)), None)) as Hrest.
    { rewrite IH; [done|by apply post_ok|done| |lia]. rewrite Forall_forall. intros j Hj.
      eapply live_post; [done|]. simpl. specialize (Hf _ Hj). by destruct s. }
    by destruct (has_room (mailbox co)).
Qed.

(** ** Operations that leave the registry alone *)

Definition quiet s s' : Prop := bus_ok s' /\ consumers s' = consumers s /\ arrays s' = arrays s.

Lemma quiet_registered s s' x : quiet s s' -> registered s' x = registered s x.
Proof. intros (_ & ? & ?). by apply registered_frame. Qed.

Lemma quiet_refl s : bus_ok s -> quiet s s.
Proof. by split. Qed.

Lemma quiet_trans s1 s2 s3 : quiet s1 s2 -> quiet s2 s3 -> quiet s1 s3.
Proof. intros (_ & E1 & E2) (? & E3 & E4). split; [done|]. split; congruence. Qed.

Lemma quiet_cell s c co co' :
  bus_ok s -> cells s !! c = Some co -> address co' = address co ->
  Mailbox.closed (mailbox co') = Mailbox.closed (mailbox co) ->
  chClosed (mailbox co') = chClosed (mailbox co) ->
  quiet s (set_cells s (<[c := co']> (cells s))).
Proof.
  intros Hok Hc Ha Hcl Hch. split; [|done]. pose proof Hok as (H1 & H2 & H3 & H4).
  eapply bus_ok_frame; [..|exact Hok]; try done.
  - intros a k _ (cok & Hk & Hl). destruct (decide (k = c)) as [->|Hne].
    + exists co'. simpl. rewrite lookup_insert_eq. split; [done|]. simplify_eq.
      by rewrite Ha, Hcl, Hch.
    + exists cok. simpl. by rewrite lookup_insert_ne.
  - simpl. intros k. destruct (decide (k = c)) as [->|Hk]; [intros _; apply H3; by rewrite Hc|].
    rewrite lookup_insert_ne by done. apply H3.
Qed.

Lemma Send_flags (mb mb' : boundedMailbox message) msg err :
  Mailbox.Send mb msg = Ret (mb', err) ->
  Mailbox.closed mb' = Mailbox.closed mb /\ chClosed mb' = chClosed mb.
Proof.
  unfold Mailbox.Send, channel_send. intros E.
  destruct (Mailbox.closed mb) eqn:Hc, (chClosed mb) eqn:Hk, (has_room mb); cbn in E; by simplify_eq/=.
Qed.

Lemma Receive_flags (mb mb' : boundedMailbox message) c p r :
  Receive mb c p = Some (mb', r) ->
  Mailbox.closed mb' = Mailbox.closed mb /\ chClosed mb' = chClosed mb.
Proof.
  unfold Receive, channel_receive. intros E. repeat case_match; by simplify_eq/=.
Qed.

Lemma mailbox_send_quiet s c msg s' err : bus_ok s -> mailbox_send s c msg = Ret (s', err) -> quiet s s'.
Proof.
  intros Hok E. unfold mailbox_send in E. destruct (cells s !! c) as [co|] eqn:Hc; [|done].
  destruct (Mailbox.Send (mailbox co) msg) as [[mb e]|] eqn:Es; [|done]. cbn in E. injection E as <- <-.
  destruct (Send_flags _ _ _ _ Es). by eapply quiet_cell.
Qed.

Lemma close_done_quiet s c co s' :
  bus_ok s -> cells s !! c = Some co -> close_done s c co = Ret s' -> quiet s s'.
Proof.
  intros Hok Hc E. unfold close_done in E. destruct (done co); [done|]. injection E as <-.
  by eapply quiet_cell.
Qed.

Lemma Handler_quiet s c h sub s' : bus_ok s -> Handler s c h sub = Ret s' -> quiet s s'.
Proof.
  intros Hok E. unfold Handler in E. destruct (cells s !! c) as [co|] eqn:Hc; [|done].
  set (co1 := mkConsumer _ _ _ _) in E. set (s1 := set_cells s _) in E.
  assert (quiet s s1) as Hq by (by eapply quiet_cell). destruct sub; [by injection E as <-|].
  eapply quiet_trans; [exact Hq|]. eapply close_done_quiet; [apply Hq| |exact E].
  apply lookup_insert_eq.
Qed.

Lemma dispatch_event_quiet s g ctx a msg c s' err :
  bus_ok s -> dispatch_event s g ctx a msg c = Returns (s', err) -> quiet s s'.
Proof.
  intros Hok E. unfold dispatch_event in E. cbn [bus_event] in E.
  destruct (group_dispatch g _) as [[g' e]| |]; cbn in E; by simplify_eq.
Qed.

Lemma publish_loop_quiet s ctx sl msg k n s' err :
  bus_ok s -> publish_loop s ctx sl msg k n = Ret (s', err) -> quiet s s'.
Proof.
  revert s k. induction n as [|n IH]; intros s k Hok E; simpl in E; [by simplify_eq; apply quiet_refl|].
  unfold publish_one in E. destruct (slice_at s sl k) as [c|]; [|done].
  destruct (mailbox_send s c msg) as [[s1 e]|] eqn:Es; [|done]. cbn [mbind outcome_bind] in E.
  pose proof (mailbox_send_quiet _ _ _ _ _ Hok Es) as Hq.
  assert (forall k', publish_loop s1 ctx sl msg k' n = Ret (s', err) -> quiet s s') as Hk.
  { intros k' Ek. eapply quiet_trans; [exact Hq|]. eapply IH; [apply Hq|exact Ek]. }
  destruct e as [e|]; [|eauto]. destruct (is_full (MailboxErr e)); [eauto|].
  case_bool_decide; cbn in E; by simplify_eq.
Qed.

Lemma publishViaEventLoop_quiet s ctx a sl msg k n s' err :
  bus_ok s -> publishViaEventLoop s ctx a sl msg k n = Returns (s', err) -> quiet s s'.
Proof.
  revert s k. induction n as [|n IH]; intros s k Hok E; simpl in E; [by simplify_eq; apply quiet_refl|].
  destruct (loopGroup s) as [g|]; [|done]. destruct (slice_at s sl k) as [c|]; [|done].
  destruct (dispatch_event s g ctx a msg c) as [[s1 e]| |] eqn:Ed; [|done..].
  cbn [mbind call_bind] in E. pose proof (dispatch_event_quiet _ _ _ _ _ _ _ _ Hok Ed) as Hq.
  assert (forall k', publishViaEventLoop s1 ctx a sl msg k' n = Returns (s', err) -> quiet s s') as Hk.
  { intros k' Ek. eapply quiet_trans; [exact Hq|]. eapply IH; [apply Hq|exact Ek]. }
  destruct e as [e|]; [|eauto]. destruct (is_full e); [eauto|]. by simplify_eq.
Qed.

Lemma PublishWithContext_quiet s ctx a b s' err :
  bus_ok s -> PublishWithContext s ctx a b = Returns (s', err) -> quiet s s'.
Proof.
  intros Hok E. unfold PublishWithContext in E. destruct (prepare a None b) as [[d|e]|]; cbn in E; [| |done].
  2: { simplify_eq. by apply quiet_refl. }
  destruct (consumers s !! a) as [sl|]; [|simplify_eq; by apply quiet_refl].
  destruct (loopGroup s); [by eapply publishViaEventLoop_quiet|].
  destruct (publish_loop _ _ _ _ _ _) as [[s1 e]|] eqn:Ep; [|done]. simplify_eq/=.
  by eapply publish_loop_quiet.
Qed.

Lemma send_point_quiet s ctx sent a d s' err :
  bus_ok s -> send_point s ctx sent a d = Returns (s', err) -> quiet s s'.
Proof.
  intros Hok E. unfold send_point in E. destruct (consumers s !! a) as [sl|];
    [|simplify_eq; by apply quiet_refl].
  destruct (len sl =? 0)%nat; [simplify_eq; by apply quiet_refl|]. cbn [pick_consumer] in E.
  set (s1 := set_counter s _) in E. assert (quiet s s1) as Hq by done.
  eapply quiet_trans; [exact Hq|]. destruct (slice_at s1 sl _) as [c|]; [|done].
  destruct (loopGroup s1) as [g|].
  - unfold sendViaEventLoop in E. destruct (dispatch_event _ _ _ _ _ _) as [[s2 e]| |] eqn:Ed; [|done..].
    cbn in E. apply dispatch_event_quiet in Ed; [|done]. destruct e; by simplify_eq.
  - unfold send_direct in E. destruct (mailbox_send s1 c _) as [[s2 e]|] eqn:Es; [|done].
    apply mailbox_send_quiet in Es; [|done]. cbn in E. repeat case_match; by simplify_eq/=.
Qed.

Lemma Send_quiet s a b s' err : bus_ok s -> Send s a b = Returns (s', err) -> quiet s s'.
Proof.
  intros Hok E. unfold Send in E. destruct (prepare a None b) as [[d|e]|]; cbn in E; [| |done].
  - by eapply send_point_quiet.
  - simplify_eq. by apply quiet_refl.
Qed.

Lemma process_one_quiet s c cst p s' r :
  bus_ok s -> process_one s c cst p = Returns (s', r) -> quiet s s'.
Proof.
  intros Hok E. unfold process_one in E. destruct (cells s !! c) as [co|] eqn:Hc; [|done].
  destruct (Receive (mailbox co) cst p) as [[mb r0]|] eqn:Er; [|done].
  destruct (Receive_flags _ _ _ _ _ Er). set (co1 := mkConsumer _ _ _ _) in E.
  set (s1 := set_cells s _) in E. assert (quiet s s1) as Hq by (by eapply quiet_cell).
  eapply quiet_trans; [exact Hq|]. destruct r0 as [msg|e].
  - repeat case_match; by simplify_eq.
  - destruct (close_done s1 c co1) as [s2|] eqn:Ec; [|done]. cbn in E. simplify_eq.
    eapply close_done_quiet; [apply Hq|apply lookup_insert_eq|exact Ec].
Qed.

Lemma fold_close_frame cs s :
  let s' := fold_left mailbox_close cs s in
  consumers s' = consumers s /\ arrays s' = arrays s /\ nextPtr s' = nextPtr s /\
  (forall c, is_Some (cells s' !! c) -> is_Some (cells s !! c)).
Proof.
  revert s. induction cs as [|c cs IH]; intros s; simpl; [done|].
  destruct (IH (mailbox_close s c)) as (E1 & E2 & E3 & E4). unfold mailbox_close in *.
  destruct (cells s !! c) as [co|] eqn:Hc; [|done]. split_and!; [done..|].
  intros k Hk. apply E4 in Hk. simpl in Hk. destruct (decide (k = c)) as [->|Hne]; [by rewrite Hc|].
  by rewrite lookup_insert_ne in Hk.
Qed.

Lemma Close_spec s : bus_ok s -> bus_ok (Close s) /\ forall x, registered (Close s) x = [].
Proof.
  intros (H1 & H2 & H3 & H4). unfold Close. set (s1 := mkBus _ _ _ _ _ _ _ _ _).
  match goal with |- context [fold_left mailbox_close ?l s1] =>
    destruct (fold_close_frame l s1) as (E1 & E2 & E3 & E4); set (s2 := fold_left mailbox_close l s1) in * end.
  clearbody s2. split; [|done]. split_and!; simpl; rewrite ?E2, ?E3; [done|done| |exact H4].
  intros c Hc. apply H3, (E4 _ Hc).
Qed.

(** Adding and removing the same fresh consumer changes nothing. *)
Lemma added_removed (R R1 R2 : string -> list nat) a c :
  (forall x, c ∉ R x) -> (forall x, R1 x = if decide (x = a) then R a ++ [c] else R x) ->
  (forall x, R2 x = filter (.≠ c) (R1 x)) -> forall x, R2 x = R x.
Proof.
  intros Hc H1 H2 x. rewrite H2, H1. destruct (decide (x = a)) as [->|]; [|by apply filter_ne_id].
  rewrite filter_app, filter_ne_id by done. rewrite filter_cons_False by tauto. apply app_nil_r.
Qed.

Lemma fresh_unregistered s x : bus_ok s -> nextPtr s ∉ registered s x.
Proof.
  intros Hok Hin. pose proof (registered_live s x Hok) as Hf. rewrite Forall_forall in Hf.
  destruct (Hf _ Hin) as (co & Hco & _). destruct Hok as (_ & _ & H3 & _).
  specialize (H3 _ ltac:(by rewrite Hco)). lia.
Qed.

(** The registry of a bus, and what the operations do to it. *)
Definition registry : Type := string -> list nat.

Definition reg_add (R R' : registry) a (c : nat) : Prop :=
  (forall x, c ∉ R x) /\ forall x, R' x = if decide (x = a) then R a ++ [c] else R x.

Definition reg_same (R R' : registry) : Prop := forall x, R' x = R x.

Definition reg_remove (R R' : registry) (c : nat) : Prop := forall x, R' x = filter (.≠ c) (R x).

Lemma reply_box_ok s rs : bus_ok s -> bus_ok (set_replies (alloc s).2 rs).
Proof.
  intros (H1 & H2 & H3 & H4). split_and!; [done|done| |]; simpl.
  - intros c Hc. specialize (H3 _ Hc). lia.
  - intros c Hc. specialize (H4 _ Hc). lia.
Qed.

(** The registration of the reply consumer of a request. *)
Lemma request_consumer s mb replyAddress s1 rc p sub s2 :
  bus_ok s ->
  (let '(q, s0) := alloc s in Consumer (set_replies s0 (<[q := mb]> (replies s0))) replyAddress) = Ret (s1, rc) ->
  Handler s1 rc (HReply p) sub = Ret s2 ->
  bus_ok s2 /\ reg_add (registered s) (registered s2) replyAddress rc.
Proof.
  intros Hok Ec Eh. cbn [alloc] in Ec. set (s0 := set_replies _ _) in Ec.
  pose proof (reply_box_ok s _ Hok : bus_ok s0) as Hok0.
  destruct (Consumer_spec _ _ _ _ Hok0 Ec) as (Hok1 & Hr & -> & _).
  pose proof (Handler_quiet _ _ _ _ _ Hok1 Eh) as Hq. split; [apply Hq|]. split.
  - intros x. exact (fresh_unregistered s0 x Hok0).
  - intros x. rewrite (quiet_registered _ _ _ Hq). apply Hr.
Qed.

Lemma request_begin_spec s a b t ra sub s' r :
  bus_ok s -> request_begin s a b t ra sub = Ret (s', r) ->
  bus_ok s' /\ match r with
               | Ok p => reg_add (registered s) (registered s') ra (replyConsumer p)
               | Err _ => reg_same (registered s) (registered s')
               end.
Proof.
  intros Hok E. unfold request_begin in E.
  destruct (prepare a (Some t) b) as [[d|e]|]; cbn [mbind outcome_bind] in E; [| |done].
  2: { simplify_eq. by split. }
  change (NewBoundedMailbox 1) with (@Ret (boundedMailbox message) (mkMailbox [] false false 1 0)) in E.
  cbn [alloc mbind outcome_bind] in E. set (s0 := set_replies _ _) in E.
  destruct (Consumer s0 ra) as [[s1 rc]|] eqn:Ec; [|done]. cbn [mbind outcome_bind] in E.
  destruct (Handler s1 rc _ sub) as [s2|] eqn:Eh; [|done]. cbn [mbind outcome_bind] in E.
  destruct (request_consumer s (mkMailbox [] false false 1 0) ra s1 rc _ sub s2 Hok Ec Eh) as [Hok2 Ha].
  assert (forall s3 s4, quiet s2 s3 -> Unregister s3 rc = Ret s4 ->
    bus_ok s4 /\ reg_same (registered s) (registered s4)) as Hun.
  { intros s3 s4 Hq3 Eu. destruct (Unregister_spec _ _ _ (proj1 Hq3) Eu) as [? Hr4]. split; [done|].
    destruct Ha as [Hf Hadd]. intros y.
    eapply (added_removed (registered s) (registered s3)); [exact Hf| |exact Hr4]. intros x.
    by rewrite (quiet_registered _ _ _ Hq3). }
  set (msg := mkMessage _ _ _) in E.
  destruct (consumers s2 !! a) as [sl|].
  2: { destruct (Unregister s2 rc) as [s3|] eqn:Eu; [|done]. cbn in E. simplify_eq.
    by eapply Hun; [apply quiet_refl|]. }
  destruct (len sl =? 0)%nat.
  { destruct (Unregister s2 rc) as [s3|] eqn:Eu; [|done]. cbn in E. simplify_eq.
    by eapply Hun; [apply quiet_refl|]. }
  destruct (slice_at s2 sl 0) as [c|]; [|done].
  destruct (mailbox_send s2 c msg) as [[s3 e]|] eqn:Es; [|done].
  pose proof (mailbox_send_quiet _ _ _ _ _ Hok2 Es) as Hq. cbn [mbind outcome_bind] in E.
  destruct e as [e|].
  - destruct (Unregister s3 rc) as [s4|] eqn:Eu; [|done]. cbn [mbind outcome_bind] in E.
    destruct (Hun _ _ Hq Eu). repeat case_match; by simplify_eq.
  - simplify_eq. split; [apply Hq|]. destruct Ha as [Hf Hadd]. split; [done|].
    intros x. by rewrite (quiet_registered _ _ _ Hq).
Qed.

(** ** The bus as a whole *)

(** The operations of a bus, with what their environment supplies. *)
Inductive bus_op : Type :=
| OConsumer (a : string)
| OHandler (c : nat) (h : handler) (submitted : bool)
| OUnregister (c : nat)
| OPublish (ctx : option busctx) (a : string) (b : body P V)
| OSend (a : string) (b : body P V)
| OSendWithContext (ctx : option busctx) (a : string) (b : body P V) (timeout : Z)
| OReply (msg : message) (b : body P V)
| ORequest (a : string) (b : body P V) (timeout : Z) (replyAddress : string) (submitted : bool)
| OFinish (p : pending) (c : ctx_status) (preferCtx : bool)
| OProcess (c : nat) (cst : ctx_status) (preferCtx : bool)
| OClosure (k : Z)
| OClose.

Definition state_of_call {A} (r : call (eventBus G * A)) : option (eventBus G) :=
  match r with Returns (s, _) => Some s | _ => None end.

Definition state_of {A} (r : outcome (eventBus G * A)) : option (eventBus G) :=
  match r with Ret (s, _) => Some s | Panic => None end.

(** The state after an operation that returns. *)
Definition bus_exec s (op : bus_op) : option (eventBus G) :=
  match op with
  | OConsumer a => state_of (Consumer s a)
  | OHandler c h sub => match Handler s c h sub with Ret s => Some s | Panic => None end
  | OUnregister c => match Unregister s c with Ret s => Some s | Panic => None end
  | OPublish ctx a b => state_of_call (PublishWithContext s ctx a b)
  | OSend a b => state_of_call (Send s a b)
  | OSendWithContext ctx a b t => state_of_call (SendWithContext s ctx a b t)
  | OReply msg b => state_of_call (Reply s msg b)
  | ORequest a b t ra sub => state_of (request_begin s a b t ra sub)
  | OFinish p c f => state_of_call (request_finish s p c f)
  | OProcess c cst f => state_of_call (process_one s c cst f)
  | OClosure k => state_of (run_closure s k)
  | OClose => Some (Close s)
  end.

Fixpoint bus_run s (ops : list bus_op) : option (eventBus G) :=
  match ops with
  | [] => Some s
  | op :: ops => match bus_exec s op with Some s => bus_run s ops | None => None end
  end.

(** The abstract registry: what each operation may do to the consumer lists. *)
Definition reg_step (op : bus_op) (R R' : registry) : Prop :=
  match op with
  | OConsumer a => exists c, reg_add R R' a c
  | OUnregister c => reg_remove R R' c
  | ORequest _ _ _ ra _ => reg_same R R' \/ exists c, reg_add R R' ra c
  | OFinish p _ _ => reg_remove R R' (replyConsumer p)
  | OClose => forall x, R' x = []
  | _ => reg_same R R'
  end.

(** Operations that neither register nor unregister. *)
Definition leaves_registry (op : bus_op) : bool :=
  match op with
  | OConsumer _ | OUnregister _ | ORequest _ _ _ _ _ | OFinish _ _ _ | OClose => false
  | _ => true
  end.

Lemma bus_exec_quiet s op s' :
  bus_ok s -> leaves_registry op = true -> bus_exec s op = Some s' -> quiet s s'.
Proof.
  intros Hok Hl E. destruct op as [a|c h sub|c|ctx a b|a b|ctx a b t|msg b|a b t ra sub|p c f|c cst f|k|];
    try done; cbn [bus_exec] in *.
  - destruct (Handler s c h sub) as [s1|] eqn:Eh; [|done]. simplify_eq. by eapply Handler_quiet.
  - destruct (PublishWithContext s ctx a b) as [[s1 e]| |] eqn:Ep; simplify_eq/=.
    by eapply PublishWithContext_quiet.
  - destruct (Send s a b) as [[s1 e]| |] eqn:Es; simplify_eq/=. by eapply Send_quiet.
  - destruct (SendWithContext s ctx a b t) as [[s1 e]| |] eqn:Es; simplify_eq/=.
    unfold SendWithContext in Es. destruct (prepare a (Some t) b) as [[d|e0]|]; cbn in Es; [| |done].
    + by eapply send_point_quiet.
    + simplify_eq. by apply quiet_refl.
  - destruct (Reply s msg b) as [[s1 e]| |] eqn:Es; simplify_eq/=. unfold Reply in Es.
    destruct (String.eqb _ _); [simplify_eq; by apply quiet_refl|by eapply Send_quiet].
  - destruct (process_one s c cst f) as [[s1 r]| |] eqn:Ep; simplify_eq/=. by eapply process_one_quiet.
  - destruct (run_closure s k) as [[s1 r]|] eqn:Ek; simplify_eq/=. unfold run_closure in Ek.
    destruct (closures s !! Z.to_nat k) as [[c msg]|]; [|done]. by eapply mailbox_send_quiet.
Qed.

Lemma bus_exec_refines s op s' :
  bus_ok s -> bus_exec s op = Some s' -> bus_ok s' /\ reg_step op (registered s) (registered s').
Proof.
  intros Hok E. destruct (leaves_registry op) eqn:Hl.
  { pose proof (bus_exec_quiet _ _ _ Hok Hl E) as Hq. split; [apply Hq|].
    assert (reg_same (registered s) (registered s')) by (intros x; by apply quiet_registered).
    by destruct op. }
  destruct op as [a| |c| | | | |a b t ra sub|p c f| | |]; try done; cbn [bus_exec reg_step] in *.
  - destruct (Consumer s a) as [[s1 c]|] eqn:Ec; [|done]. simplify_eq/=.
    destruct (Consumer_spec _ _ _ _ Hok Ec) as (? & Hr & -> & _). split; [done|].
    exists (nextPtr s). split; [intros; by apply fresh_unregistered|done].
  - destruct (Unregister s c) as [s1|] eqn:Eu; [|done]. simplify_eq. by apply Unregister_spec.
  - destruct (request_begin s a b t ra sub) as [[s1 r]|] eqn:Er; simplify_eq/=.
    destruct (request_begin_spec _ _ _ _ _ _ _ _ Hok Er) as [? Hr]. split; [done|].
    destruct r; [right; eauto|by left].
  - destruct (request_finish s p c f) as [[s1 r]| |] eqn:Er; simplify_eq/=. unfold request_finish in Er.
    destruct (replies s !! replyMailbox p) as [mb|]; [|done].
    destruct (Receive mb c f) as [[mb' r']|]; [|done]. set (s0 := set_replies s _) in Er.
    destruct (Unregister s0 (replyConsumer p)) as [s2|] eqn:Eu; [|done]. cbn in Er.
    destruct (Unregister_spec s0 _ _ Hok Eu) as [? Hr]. assert (s' = s2) as -> by (repeat case_match; congruence).
    done.
  - simplify_eq. by apply Close_spec.
Qed.

(** The state [NewEventBusWithConfig] makes. *)
Definition NewEventBus (ctx : busctx) (g : option G) : eventBus G :=
  {| consumers := ∅; arrays := ∅; cells := ∅; replies := ∅; nextPtr := 0; bctx := ctx;
     sendCounter := 0; loopGroup := g; closures := [] |}.

Lemma NewEventBus_ok ctx g : bus_ok (NewEventBus ctx g).
Proof. split_and!; simpl; intros *; rewrite ?lookup_empty; try done; by intros [? ?]. Qed.

Lemma bus_run_ok ops s s' : bus_ok s -> bus_run s ops = Some s' -> bus_ok s'.
Proof.
  revert s. induction ops as [|op ops IH]; intros s Hok E; simpl in E; [by simplify_eq|].
  destruct (bus_exec s op) as [s1|] eqn:Eo; [|done]. eapply IH; [|exact E]. by eapply bus_exec_refines.
Qed.
End bus.
