(* ===== verification/EventBusSafety.v ===== *)
(** * The event bus over its event loops, and its guarantees

    The dispatcher of Dispatcher.v discharges the interface the bus uses; then
    the theorems on registration, publishing, sending and requests, for calls
    that run one at a time and for a publish that other operations overlap. *)
From Stdlib Require Import String.
From S2P Require Import Prelude RingBuffer EventLoop Dispatcher Mailbox EventBus.

#[local] Set Warnings "-clear-no-such-hyp".

(** ** A whole Dispatch call *)

(** A producer run to its end; [None] when it has not ended after [n] steps. *)
Fixpoint run_producer (n : nat) (l : EventLoop) (p : pstate) (cl : list (option Event)) :
    option (EventLoop * option EventLoopError * list (option Event)) :=
  match p, n with
  | PDone _ err, _ => Some (l, err, cl)
  | _, O => None
  | _, S n =>
      match pstep l p with
      | Some (l, p, c) => run_producer n l p (cl ++ c)
      | None => None
      end
  end.

(** A call that meets no other takes at most eight steps unless the ring is full
    and the policy blocks. *)
Definition dispatch_call (d : Dispatcher) (ev : Event) : call (Dispatcher * option EventLoopError) :=
  match route d (Some ev) with
  | Panic => Panics
  | Ret (d, Err e) => Returns (d, Some e)
  | Ret (d, Ok i) =>
      match loops d !! i with
      | None => Panics
      | Some s =>
          match run_producer 8 (loop s) (PEnter (Some ev)) [] with
          | None => Blocks
          | Some (l, err, cl) =>
              Returns (with_loop d i (mkSys l (prods s) (cons s) (claims s ++ cl) (invoked s)), err)
          end
      end
  end.

(** The events the loops have claimed. *)
Definition claimed_events (d : Dispatcher) : list Event :=
  s ← loops d; omap (fun x => x) (claims s).

Lemma run_producer_S n l p cl :
  match p with PDone _ _ => False | _ => True end ->
  run_producer (S n) l p cl =
    match pstep l p with Some (l, p, c) => run_producer n l p (cl ++ c) | None => None end.
Proof. by destruct p. Qed.

Lemma run_producer_done n l ev err cl : run_producer n l (PDone ev err) cl = Some (l, err, cl).
Proof. by destruct n. Qed.

(** A dropping policy does not loop; a blocking one has at most [m] steps left. *)
Definition within (l : EventLoop) (m n : nat) : Prop :=
  Backpressure (config l) = BackpressureDrop \/ (n <= m)%nat.

(** With [n] steps left: nothing claimed before the compare and swap, one event
    after it, and too few steps left to claim again. *)
Definition producing (ev : Event) (n : nat) (l : EventLoop) (p : pstate) (cl : list (option Event)) : Prop :=
  match p with
  | PEnter e => e = Some ev /\ cl = [] /\ (n <= 8)%nat
  | PLoop e => EventLoop.closed l = false /\ e = Some ev /\ (cl = [] /\ n <= 7 \/ n <= 2)%nat
  | PLoopCtx e => EventLoop.closed l = false /\ e = Some ev /\ (cl = [] /\ n <= 6 \/ n <= 1)%nat
  | PExit _ => cancelled l = true
  | PNext e => EventLoop.closed l = false /\ e = Some ev /\ (cl = [] /\ within l 5 n \/ n = 0%nat)
  | PLoaded e _ => EventLoop.closed l = false /\ e = Some ev /\ cl = [] /\ within l 4 n
  | PGated e _ => EventLoop.closed l = false /\ e = Some ev /\ cl = [] /\ within l 3 n
  | PClaimed _ _ | PStored _ _ => cl = [Some ev]
  | PDone _ err => err = None -> cl = [Some ev]
  end.

Lemma next_returned_producing ev n l q cl :
  EventLoop.closed l = false -> (if q <? 0 then cl = [] /\ within l 7 n \/ within l 2 n else cl = [Some ev]) ->
  let '(l', p') := next_returned l (Some ev) q in producing ev n l' p' cl.
Proof.
  intros Hc Hq. unfold next_returned. destruct (q <? 0); [|done]. unfold within in Hq.
  destruct (Backpressure (config l)); simpl; try done; split_and!; try done; intuition congruence.
Qed.

Lemma pstep_producing ev n l p cl l' p' c :
  producing ev (S n) l p cl -> pstep l p = Some (l', p', c) -> producing ev n l' p' (cl ++ c).
Proof.
  intros Hp E. destruct p; cbn [pstep producing] in *; unfold within in *.
  - destruct Hp as (-> & -> & Hn). destruct (EventLoop.closed l) eqn:Hc; [by simplify_eq|].
    destruct (Backpressure (config l)) eqn:Hb; simplify_eq; simpl; unfold within; rewrite ?Hb;
      split_and!; try done; left; (split; [done|by left || lia]).
  - destruct Hp as (Hc & -> & Hn). rewrite Hc in E. simplify_eq. rewrite app_nil_r. simpl.
    split_and!; try done. destruct Hn as [[-> ?]|?]; [left|right]; split_and?; try done; lia.
  - destruct Hp as (Hc & -> & Hn). destruct (cancelled l) eqn:Hca; simplify_eq; rewrite app_nil_r; simpl; [done|].
    split_and!; try done. destruct Hn as [[-> ?]|?]; [left|right; lia]. split; [done|right; lia].
  - rewrite Hp in E. by simplify_eq.
  - destruct Hp as (Hc & -> & Hn). simplify_eq. rewrite app_nil_r. simpl.
    destruct Hn as [[-> ?]|?]; [|done]. split_and!; try done. unfold within. intuition lia.
  - destruct Hp as (Hc & -> & -> & Hn). destruct (ring_full (ringBuffer l) cur).
    + pose proof (next_returned_producing ev n l (-1) [] Hc) as Hr.
      destruct (next_returned l (Some ev) (-1)). simplify_eq. apply Hr. left. unfold within. intuition lia.
    + simplify_eq. simpl. split_and!; try done. unfold within. intuition lia.
  - destruct Hp as (Hc & -> & -> & Hn). destruct (cursor (ringBuffer l) =? cur).
    + set (l1 := with_ring l _) in E.
      pose proof (next_returned_producing ev n l1 (cur +i64 1) [Some ev] Hc) as Hr.
      destruct (next_returned l1 (Some ev) _). simplify_eq. apply Hr.
      destruct (_ <? 0); [right; unfold within; simpl; intuition lia|done].
    + simplify_eq. simpl. split_and!; try done. left. unfold within. intuition lia.
  - by simplify_eq.
  - by simplify_eq.
  - done.
Qed.

Lemma run_producer_claims ev n l p cl l' cl' :
  producing ev n l p cl -> run_producer n l p cl = Some (l', None, cl') -> cl' = [Some ev].
Proof.
  revert l p cl. induction n as [|n IH]; intros l p cl Hp E.
  - destruct p; try done. simpl in *. simplify_eq. by apply Hp.
  - destruct p as [| | | | | | | | |e err]; [..|rewrite run_producer_done in E; simplify_eq; by apply Hp];
      rewrite run_producer_S in E by done;
      (destruct (pstep _ _) as [[[l1 p1] c1]|] eqn:Es; [|done]);
      (eapply IH; [eapply pstep_producing; [exact Hp|exact Es]|exact E]).
Qed.

Lemma route_loops d ev d' r : route d ev = Ret (d', r) -> loops d' = loops d.
Proof.
  unfold route, round_robin. intros E. repeat case_match; by simplify_eq/=.
Qed.

Lemma claimed_insert (ls : list sys) i s s' ev :
  ls !! i = Some s -> claims s' = claims s ++ [Some ev] ->
  (<[i := s']> ls ≫= fun s => omap (fun x => x) (claims s))
    ≡ₚ ev :: (ls ≫= fun s => omap (fun x => x) (claims s)).
Proof.
  intros Hi Hc. revert i Hi. induction ls as [|x ls IH]; intros [|i] Hi; simplify_eq/=.
  - rewrite Hc, omap_app. simpl. rewrite <- app_assoc. simpl. by rewrite Permutation_middle.
  - rewrite (IH _ Hi). by rewrite Permutation_middle.
Qed.

#[export, refine] Instance dispatcher_group : LoopGroup Dispatcher := {
  group_dispatch := dispatch_call;
  group_close := CloseAll;
  group_events := claimed_events
}.
Proof.
  - intros d ev d' E. unfold dispatch_call in E.
    destruct (route d (Some ev)) as [[d1 [i|e]]|] eqn:Er; [|done..].
    destruct (loops d1 !! i) as [s|] eqn:Hi; [|done].
    destruct (run_producer 8 (loop s) (PEnter (Some ev)) []) as [[[l err] cl]|] eqn:Ep; [|done].
    simplify_eq. apply (run_producer_claims ev) in Ep as ->; [|done].
    unfold claimed_events. simpl. rewrite <- (route_loops _ _ _ _ Er). by apply (claimed_insert _ _ s).
  - intros d. unfold claimed_events, CloseAll. simpl. by induction (loops d) as [|s ls IH]; csimpl; rewrite ?IH.
Defined.

(** ** Construction *)

(** A loop configuration left empty means the default; when the group cannot be
    created the bus delivers directly. *)
Definition NewEventBusWithConfig (ctx : busctx) (useEventLoopGroup : bool) (c : EventLoopConfig)
    (maxprocs : Z) : outcome (eventBus Dispatcher) :=
  if useEventLoopGroup then
    let c := if (NumLoops c =? 0) && (QueueSize c =? 0) then DefaultEventLoopConfig else c in
    r ← NewEventLoopGroup c maxprocs;
    match r with
    | Ok d => Ret (NewEventBus ctx (Some d))
    | Err _ => Ret (NewEventBus ctx None)
    end
  else Ret (NewEventBus ctx None).

Lemma bad_loop_config_falls_back ctx c maxprocs e :
  Validate c = Some e -> (NumLoops c =? 0) && (QueueSize c =? 0) = false ->
  NewEventBusWithConfig ctx true c maxprocs = Ret (NewEventBus ctx None).
Proof. intros Hv Hz. unfold NewEventBusWithConfig, NewEventLoopGroup. by rewrite Hz, Hv. Qed.

(** ** Guarantees *)

Section guarantees.
Context {G : Type} `{HG : LoopGroup G} {P V : Type} `{HE : Encoders P V} `{HS : SliceGrowth}.
Implicit Types (s : eventBus G) (a : string).

Definition reachable_bus s : Prop :=
  exists ctx g ops, bus_run (NewEventBus ctx g) ops = Some s.

Lemma reachable_ok s : reachable_bus s -> bus_ok s.
Proof. intros (ctx & g & ops & E). eapply bus_run_ok; [apply NewEventBus_ok|exact E]. Qed.

(** ** A publish that other operations overlap *)

(** The delivery loop over the slice [sl] it read, the operations of
    [between] run before each delivery; the consumers it sends to and its result.
    [None] when one of these operations does not return. *)
Fixpoint publish_overlapped s (ctx : busctx) (sl : slice) (msg : message) (k : nat)
    (between : list (list (bus_op (P := P) (V := V)))) :
    option (outcome (eventBus G * list nat * option bus_error)) :=
  match between with
  | [] => Some (Ret (s, [], None))
  | ops :: between =>
      match bus_run s ops with
      | None => None
      | Some s =>
          match slice_at s sl k, publish_one s ctx sl msg k with
          | Some c, Ret (s, None) =>
              match publish_overlapped s ctx sl msg (S k) between with
              | Some (Ret (s, cs, err)) => Some (Ret (s, c :: cs, err))
              | r => r
              end
          | Some c, Ret (s, Some err) => Some (Ret (s, [c], err))
          | _, _ => Some Panic
          end
      end
  end.

(** The snapshot [sl] of address [a] still reads [cs], and no longer slice over
    the same array will write into it. *)
Definition snapshot s a sl (cs : list nat) : Prop :=
  holds s sl cs /\ cs `prefix_of` registered s a /\
  (forall x sl', consumers s !! x = Some sl' -> arr sl' = arr sl -> (len sl <= len sl')%nat).

Definition no_removal (op : bus_op (P := P) (V := V)) : bool :=
  match op with
  | OUnregister _ | ORequest _ _ _ _ _ | OFinish _ _ _ | OClose => false
  | _ => true
  end.

Lemma snapshot_quiet s s' a sl cs : quiet s s' -> snapshot s a sl cs -> snapshot s' a sl cs.
Proof.
  intros Hq (Hh & Hp & Hl). split_and!; [|by rewrite (quiet_registered _ _ _ Hq)|].
  - destruct Hq as (_ & _ & Ea). unfold holds. by rewrite Ea.
  - destruct Hq as (_ & Ec & _). by rewrite Ec.
Qed.

Lemma snapshot_consumer s a x sl cs s' c :
  bus_ok s -> snapshot s a sl cs -> Consumer s x = Ret (s', c) -> snapshot s' a sl cs.
Proof.
  intros Hok (Hh & Hp & Hl) E. pose proof (Consumer_spec _ _ _ _ Hok E) as (Hok' & Hr & _).
  unfold Consumer in E. destruct (ValidateAddress x) as [e|]; [done|].
  cbn [mbind outcome_bind NewBoundedMailbox] in E. simpl in E. set (s1 := set_cells _ _) in E.
  destruct (append1 s1 (consumers s !! x) (nextPtr s)) as [s2 sl2] eqn:Ea. injection E as <- <-.
  pose proof Hok as (H1 & H2 & H3 & H4).
  assert (holds_opt s1 (consumers s !! x) (registered s x)) as Hh1.
  { destruct (registered_holds s x Hok) as [[-> ->]|(sl0 & -> & Hh0 & _)]; done. }
  destruct (append1_spec _ _ _ _ _ _ Hh1 ltac:(simpl; intros q Hq; specialize (H4 _ Hq); lia) Ea)
    as ((Hlen & tail & Harr) & (E1 & _ & _ & _ & _ & _ & _ & _ & E9 & _) & Hq).
  destruct Hh as (Hls & tl & Hs). simpl in Hlen, Harr.
  assert (arr sl < nextPtr s)%nat as Hlt by (apply H4; by rewrite Hs).
  split_and!.
  - split; [done|]. simpl. destruct (decide (arr sl = arr sl2)) as [Heq|Hne]; [|exists tl; by rewrite E9].
    destruct Hq as [Hq|Hq]; [|simpl in Hq; lia].
    destruct (consumers s !! x) as [sl0|] eqn:Hx; [|done]. simpl in Hh1.
    destruct Hh1 as (Hl0 & tl0 & Hs0). simpl in Hs0.
    assert (len sl <= len sl0)%nat as Hle by (eapply Hl; [exact Hx|congruence]).
    assert (Some <$> cs = take (length cs) (Some <$> registered s x)) as Hcs.
    { rewrite <- Hq, <- Heq, Hs in Hs0. injection Hs0 as Hs0. apply (f_equal (take (length cs))) in Hs0.
      rewrite take_app_length' in Hs0 by (by rewrite length_fmap). rewrite Hs0.
      rewrite take_app_le; [done|]. rewrite length_fmap. lia. }
    rewrite Heq, Harr. exists (drop (length cs) (Some <$> registered s x) ++ Some (nextPtr s) :: tail).
    rewrite Hcs at 1. rewrite app_assoc, take_drop, fmap_app, <- app_assoc. done.
  - rewrite Hr. destruct (decide (a = x)) as [->|]; [by apply prefix_app_r|done].
  - simpl. rewrite E1. simpl. intros y sl'. destruct (decide (y = x)) as [->|Hy].
    + rewrite lookup_insert_eq. intros [= <-] Heq. destruct Hq as [Hq|Hq]; [|simpl in Hq; lia].
      destruct (consumers s !! x) as [sl0|] eqn:Hx; [|done]. simpl in Hh1. destruct Hh1 as [Hl0 _].
      assert (len sl <= len sl0)%nat by (eapply Hl; [exact Hx|congruence]).
      rewrite Hlen, length_app. simpl. lia.
    + rewrite lookup_insert_ne by done. apply Hl.
Qed.

Lemma snapshot_run ops s s' a sl cs :
  bus_ok s -> snapshot s a sl cs -> Forall (fun op => no_removal op = true) ops ->
  bus_run s ops = Some s' -> snapshot s' a sl cs.
Proof.
  revert s. induction ops as [|op ops IH]; intros s Hok Hsn Hf E; simpl in E; [by simplify_eq|].
  apply Forall_cons in Hf as [Hop Hf]. destruct (bus_exec s op) as [s1|] eqn:Eo; [|done].
  destruct (bus_exec_refines _ _ _ Hok Eo) as [Hok1 _]. eapply IH; [done| |done|exact E].
  destruct (leaves_registry op) eqn:Hl; [apply (snapshot_quiet s); [exact (bus_exec_quiet _ _ _ Hok Hl Eo)|done]|].
  destruct op as [x| | | | | | | | | | |]; try done. cbn [bus_exec] in Eo.
  destruct (Consumer s x) as [[s2 c]|] eqn:Ec; [|done]. simplify_eq/=. exact (snapshot_consumer _ _ _ _ _ _ _ Hok Hsn Ec).
Qed.

Lemma snapshot_live s a sl cs : bus_ok s -> snapshot s a sl cs -> Forall (live s a) cs.
Proof.
  intros Hok (_ & [rest Hp] & _). pose proof (registered_live s a Hok) as Hf.
  rewrite Hp in Hf. by apply Forall_app in Hf as [? _].
Qed.

Lemma publish_overlapped_spec between s ctx a sl cs msg k o :
  bus_ok s -> snapshot s a sl cs -> (k + length between = length cs)%nat ->
  Forall (Forall (fun op => no_removal op = true)) between ->
  publish_overlapped s ctx sl msg k between = Some o -> exists s', o = Ret (s', drop k cs, None).
Proof.
  revert s k o. induction between as [|ops between IH]; intros s k o Hok Hsn Hk Hf E; simpl in E, Hk.
  - simplify_eq. rewrite drop_ge by lia. eauto.
  - apply Forall_cons in Hf as [Hops Hf]. destruct (bus_run s ops) as [s1|] eqn:Er; [|done].
    pose proof (bus_run_ok _ _ _ Hok Er) as Hok1.
    pose proof (snapshot_run _ _ _ _ _ _ Hok Hsn Hops Er) as Hsn1.
    pose proof (snapshot_live _ _ _ _ Hok1 Hsn1) as Hl. rewrite Forall_forall in Hl.
    destruct (lookup_lt_is_Some_2 cs k ltac:(lia)) as [c Hc].
    unfold publish_one in E. rewrite (holds_at _ _ _ _ (proj1 Hsn1)), Hc in E.
    destruct (mailbox_send_live s1 a c msg) as (co & Hco & Es).
    { apply Hl. by eapply list_elem_of_lookup_2. }
    pose proof (mailbox_send_quiet _ _ _ _ _ Hok1 Es) as Hq. rewrite Es in E. clear Es.
    cbn [mbind outcome_bind] in E. set (s2 := set_cells s1 _) in *.
    assert (forall r, publish_overlapped s2 ctx sl msg (S k) between = Some r ->
      exists s', r = Ret (s', drop (S k) cs, None)) as Hrest.
    { intros r Hr. eapply (IH s2); [apply Hq|by eapply snapshot_quiet|lia|done|exact Hr]. }
    assert (match publish_overlapped s2 ctx sl msg (S k) between with
            | Some (Ret (s, cs, err)) => Some (Ret (s, c :: cs, err)) | r => r end = Some o) as E'
      by (destruct (has_room (mailbox co)); exact E).
    rewrite (drop_S _ _ _ Hc).
    destruct (publish_overlapped s2 ctx sl msg (S k) between) as [r|]; [|done].
    destruct (Hrest _ eq_refl) as [s' ->]. simplify_eq. eauto.
Qed.

Lemma snapshot_now s a sl : bus_ok s -> consumers s !! a = Some sl -> snapshot s a sl (registered s a).
Proof.
  intros Hok Ha. destruct (registered_holds s a Hok) as [[_ Hn]|(sl' & Hs & Hh & _)]; [congruence|].
  rewrite Hs in Ha. injection Ha as ->. split_and!; [done|done|]. intros x sl' Hx Heq.
  destruct Hok as (_ & H2 & _). assert (x = a) as -> by (by eapply H2). by simplify_eq.
Qed.

Lemma publish_one_live s ctx sl msg k a c :
  bus_ok s -> slice_at s sl k = Some c -> live s a c ->
  exists s', publish_one s ctx sl msg k = Ret (s', None) /\ quiet s s' /\
    forall x j, live s x j -> live s' x j.
Proof.
  intros Hok Hk Hl. unfold publish_one. rewrite Hk. destruct (mailbox_send_live s a c msg Hl) as (co & Hco & Es).
  pose proof (mailbox_send_quiet _ _ _ _ _ Hok Es) as Hq. rewrite Es. cbn [mbind outcome_bind].
  eexists. split; [by destruct (has_room (mailbox co))|]. split; [done|].
  intros x j Hj. eapply live_post; [done|]. simpl. by destruct s.
Qed.

(** Unregistering the first consumer of a list shifts the others down in place. *)
Lemma Unregister_first s a sl c1 cs tail s' :
  consumers s !! a = Some sl -> live s a c1 -> len sl = S (length cs) ->
  arrays s !! arr sl = Some ((Some <$> c1 :: cs) ++ tail) ->
  Unregister s c1 = Ret s' ->
  arrays s' !! arr sl = Some ((Some <$> cs) ++ drop (length cs) (Some <$> c1 :: cs) ++ tail) /\
  forall x c, c <> c1 -> live s x c -> live s' x c.
Proof.
  intros Ha (co & Hco & Hadr & _) Hlen Harr E. unfold Unregister in E. rewrite Hco, Hadr, Ha in E.
  assert (slice_at s sl 0 = Some c1) as H0 by (unfold slice_at, backing; by rewrite Harr, Hlen).
  rewrite Hlen in E. cbn [find_index] in E. rewrite H0, bool_decide_true in E by done.
  injection E as <-. split.
  - unfold mailbox_close. cbn [cells set_consumers]. rewrite Hco. simpl. unfold set_array, backing.
    rewrite lookup_insert_eq, Harr, Hlen. simpl. f_equal.
    rewrite Nat.sub_0_r, take_app_length' by (by rewrite length_fmap). f_equal.
    rewrite app_comm_cons, drop_app_le; [done|]. simpl. rewrite length_fmap. lia.
  - intros x c Hne (cx & Hx & Hl). exists cx. split; [|done]. unfold mailbox_close.
    cbn [cells set_consumers]. rewrite Hco. simpl. by rewrite lookup_insert_ne.
Qed.

(** ** Sending *)

(** The index [Send] picks. *)
Definition send_index s (n : nat) : nat := Z.to_nat (u64 (sendCounter s + 1) mod Z.of_nat n).

Definition sent_state s (msg : message) (c : nat) : eventBus G :=
  set_cells (set_counter s (u64 (sendCounter s + 1))) (alter (post msg) c (cells s)).

Lemma send_point_spec s ctx sent a d c :
  bus_ok s -> loopGroup s = None ->
  registered s a !! send_index s (length (registered s a)) = Some c ->
  exists co, cells s !! c = Some co /\
    send_point s ctx sent a d =
      Returns (sent_state s (mkMessage d (buildHeaders ctx) "") c,
               if has_room (mailbox co) then sent else Some ErrTimeout).
Proof.
  intros Hok Hg Hc. destruct (registered_holds s a Hok) as [[Hnil _]|(sl & Ha & Hh & _ & Hf)].
  { by rewrite Hnil in Hc. }
  pose proof Hh as [Hl _]. rewrite Forall_forall in Hf.
  specialize (Hf c ltac:(by eapply list_elem_of_lookup_2)).
  unfold send_point. rewrite Ha. destruct (Nat.eqb_spec (len sl) 0) as [E0|_].
  { rewrite E0 in Hl. by rewrite <- Hl, (nil_length_inv _ (eq_sym Hl)) in Hc. }
  cbn [pick_consumer]. set (s1 := set_counter s _).
  assert (slice_at s1 sl (Z.to_nat (u64 (sendCounter s + 1) mod Z.of_nat (len sl))) = Some c) as ->.
  { rewrite Hl. etransitivity; [exact (holds_at s sl _ _ Hh)|exact Hc]. }
  assert (loopGroup s1 = None) as -> by exact Hg.
  destruct (mailbox_send_live s1 a c (mkMessage d (buildHeaders ctx) "") Hf) as (co & Hco & Es).
  exists co. split; [exact Hco|]. unfold send_direct. rewrite Es. cbn [mbind outcome_bind].
  by destruct (has_room (mailbox co)).
Qed.

Lemma sent_state_ok s msg c : bus_ok s -> bus_ok (sent_state s msg c).
Proof. intros Hok. exact (post_ok (set_counter s _) c msg Hok). Qed.

(** [n] consecutive sends of the same message. *)
Fixpoint send_many s a (b : body P V) (n : nat) : option (eventBus G * list (option bus_error)) :=
  match n with
  | O => Some (s, [])
  | S n =>
      match Send s a b with
      | Returns (s, e) =>
          match send_many s a b n with Some (s, es) => Some (s, e :: es) | None => None end
      | _ => None
      end
  end.

(** Their targets. *)
Definition send_targets s (cs : list nat) (n : nat) : list nat :=
  (fun j => nth (Z.to_nat ((sendCounter s + 1 + Z.of_nat j) mod Z.of_nat (length cs))) cs 0%nat) <$> seq 0 n.

Lemma send_many_spec n s a (b : body P V) d :
  bus_ok s -> loopGroup s = None -> prepare a None b = Ret (Ok d) -> registered s a <> [] ->
  0 <= sendCounter s -> sendCounter s + Z.of_nat n < 2 ^ 64 ->
  exists s' es, send_many s a b n = Some (s', es) /\
    cells s' = post_all (mkMessage d (buildHeaders (bctx s)) "")
                 (send_targets s (registered s a) n) (cells s) /\
    Forall (fun e => e = None \/ e = Some ErrTimeout) es.
Proof.
  revert s. induction n as [|n IH]; intros s Hok Hg Hp Hne Hc0 Hc; cbn [send_many]; [eauto|].
  assert (0 < Z.of_nat (length (registered s a))) as Hlen by (destruct (registered s a); simpl; [done|lia]).
  assert (u64 (sendCounter s + 1) = sendCounter s + 1) as Hu by (apply Z.mod_small; widths; lia).
  pose proof (Z.mod_pos_bound (sendCounter s + 1) (Z.of_nat (length (registered s a))) Hlen) as Hb.
  set (c := nth (Z.to_nat ((sendCounter s + 1) mod Z.of_nat (length (registered s a)))) (registered s a) 0%nat).
  assert (registered s a !! send_index s (length (registered s a)) = Some c) as Hat.
  { unfold send_index. rewrite Hu. by destruct (nth_lookup_or_length (registered s a)
      (Z.to_nat ((sendCounter s + 1) mod Z.of_nat (length (registered s a)))) 0%nat); [|lia]. }
  destruct (send_point_spec s (bctx s) None a d c Hok Hg Hat) as (co & Hco & Es).
  set (msg := mkMessage d _ "") in *. set (s1 := sent_state s msg c) in *.
  assert (Send s a b = Returns (s1, if has_room (mailbox co) then None else Some ErrTimeout)) as ->
    by (unfold Send; rewrite Hp; exact Es).
  assert (sendCounter s1 = sendCounter s + 1) as Hs1 by exact Hu.
  destruct (IH s1) as (s' & es & Em & Ec & Hes);
    [by apply sent_state_ok|exact Hg|done|exact Hne|lia|lia|].
  rewrite Em. eexists _, _. split; [done|]. split; [|constructor; [destruct (has_room _); auto|done]].
  rewrite Ec. unfold send_targets. rewrite Hs1. cbn [seq]. rewrite fmap_cons.
  change (registered s1 a) with (registered s a). rewrite Z.add_0_r. fold c. cbn [post_all fold_left].
  unfold post_all. f_equal. rewrite <- fmap_S_seq, <- list_fmap_compose. apply list_fmap_ext.
  intros i x _. simpl. do 3 f_equal. lia.
Qed.

Lemma nth_seq_all (cs : list nat) : (fun i => nth i cs 0%nat) <$> seq 0 (length cs) = cs.
Proof.
  apply list_eq. intros i. rewrite list_lookup_fmap. destruct (decide (i < length cs)%nat) as [Hi|Hi].
  - rewrite lookup_seq_lt by done. simpl. by destruct (nth_lookup_or_length cs i 0%nat); [|lia].
  - rewrite lookup_seq_ge by lia. by rewrite lookup_ge_None_2 by lia.
Qed.

Lemma send_targets_all s cs : send_targets s cs (length cs) ≡ₚ cs.
Proof.
  rewrite <- (nth_seq_all cs) at 3. rewrite <- (rotation_perm (sendCounter s + 1) (length cs)).
  unfold send_targets. by rewrite <- list_fmap_compose.
Qed.

(** ** Through the event loops *)

(** The event for the [k]-th closure. *)
Definition loop_event (ctx : busctx) a (msg : message) (k : nat) : Event :=
  let h := mHeaders msg in
  mkEvent (floxID ctx) a (Z.of_nat k)
    (Some (if negb (String.eqb (floxID ctx) "") && String.eqb (header h "X-Flox-ID") ""
           then <["X-Flox-ID"%string := floxID ctx]> h else h))
    (Some (Z.of_nat k)).

Lemma dispatch_event_unfold s g ctx a msg c :
  dispatch_event s g ctx a msg c =
    match group_dispatch g (loop_event ctx a msg (length (closures s))) with
    | Returns (g', err) => Returns (set_group s (Some g') (closures s ++ [(c, msg)]), LoopErr <$> err)
    | Panics => Panics
    | Blocks => Blocks
    end.
Proof. unfold dispatch_event. simpl. by destruct (group_dispatch g _) as [[g' err]| |]. Qed.

Lemma publishViaEventLoop_events n s g ctx a sl cs msg k s' :
  holds s sl cs -> loopGroup s = Some g -> (k + n = length cs)%nat ->
  publishViaEventLoop s ctx a sl msg k n = Returns (s', None) ->
  exists g', loopGroup s' = Some g' /\ cells s' = cells s /\
    closures s' = closures s ++ ((fun c => (c, msg)) <$> drop k cs) /\
    group_events g' ≡ₚ (loop_event ctx a msg <$> seq (length (closures s)) n) ++ group_events g.
Proof.
  revert s g k. induction n as [|n IH]; intros s g k Hh Hg Hk E.
  - cbn in E. simplify_eq. exists g. rewrite drop_ge by lia. by rewrite app_nil_r.
  - cbn [publishViaEventLoop] in E. rewrite Hg in E.
    destruct (lookup_lt_is_Some_2 cs k ltac:(lia)) as [c Hc].
    rewrite (holds_at _ _ _ _ Hh), Hc, dispatch_event_unfold in E.
    destruct (group_dispatch g _) as [[g1 [e|]]| |] eqn:Ed; [by simplify_eq/=| |done..].
    cbn in E. destruct (IH (set_group s (Some g1) (closures s ++ [(c, msg)])) g1 (S k) Hh eq_refl ltac:(lia) E) as (g' & E1 & E2 & E3 & E4).
    exists g'. split_and!; [done|exact E2| |].
    + rewrite E3. simpl. rewrite (drop_S _ _ _ Hc), fmap_cons, <- app_assoc. done.
    + rewrite E4, (group_accepts _ _ _ Ed). simpl. rewrite length_app, Nat.add_1_r. simpl.
      by rewrite Permutation_middle.
Qed.

(** ** Requests *)

Lemma Consumer_dom s a s' c :
  bus_ok s -> Consumer s a = Ret (s', c) -> dom (consumers s') = {[a]} ∪ dom (consumers s).
Proof.
  intros Hok E. unfold Consumer in E. destruct (ValidateAddress a) as [e|]; [done|].
  cbn [mbind outcome_bind NewBoundedMailbox] in E. simpl in E. set (s1 := set_cells _ _) in E.
  destruct (append1 s1 (consumers s !! a) (nextPtr s)) as [s2 sl2] eqn:Ea. injection E as <- <-.
  destruct (append1_spec s1 (consumers s !! a) (registered s a) (nextPtr s) s2 sl2) as (_ & (E1 & _) & _).
  - destruct (registered_holds s a Hok) as [[-> ->]|(sl0 & -> & Hh0 & _)]; done.
  - destruct Hok as (_ & _ & _ & H4). simpl. intros q Hq. specialize (H4 _ Hq). lia.
  - done.
  - simpl. rewrite E1. apply dom_insert_L.
Qed.

Lemma mailbox_close_consumers s c : consumers (mailbox_close s c) = consumers s.
Proof. unfold mailbox_close. by destruct (cells s !! c). Qed.

Lemma Unregister_dom s c s' : Unregister s c = Ret s' -> dom (consumers s') = dom (consumers s).
Proof.
  intros E. unfold Unregister in E. destruct (cells s !! c) as [co|]; [|done]. injection E as <-.
  rewrite mailbox_close_consumers. destruct (consumers s !! address co) as [sl|] eqn:Ha; [|done].
  destruct (find_index s sl c 0 (len sl)); [|done]. simpl. apply dom_insert_lookup_L. by rewrite Ha.
Qed.

(** What a request that waits has done to the bus. *)
Lemma request_begin_waits s a (b : body P V) t ra sub s' p :
  bus_ok s -> request_begin s a b t ra sub = Ret (s', Ok p) ->
  dom (consumers s') = {[ra]} ∪ dom (consumers s).
Proof.
  intros Hok E. unfold request_begin in E.
  destruct (prepare a (Some t) b) as [[d|e]|]; cbn [mbind outcome_bind] in E; [|done..].
  change (NewBoundedMailbox 1) with (@Ret (boundedMailbox message) (mkMailbox [] false false 1 0)) in E.
  cbn [alloc mbind outcome_bind] in E. set (s0 := set_replies _ _) in E.
  pose proof (reply_box_ok s _ Hok : bus_ok s0) as Hok0.
  destruct (Consumer s0 ra) as [[s1 rc]|] eqn:Ec; [|done]. cbn [mbind outcome_bind] in E.
  destruct (Consumer_spec _ _ _ _ Hok0 Ec) as (Hok1 & _).
  destruct (Handler s1 rc _ sub) as [s2|] eqn:Eh; [|done]. cbn [mbind outcome_bind] in E.
  pose proof (Handler_quiet _ _ _ _ _ Hok1 Eh) as (Hok2 & Hc2 & _).
  assert (dom (consumers s2) = {[ra]} ∪ dom (consumers s)) as Hd.
  { rewrite Hc2. exact (Consumer_dom s0 ra s1 rc Hok0 Ec). }
  destruct (consumers s2 !! a) as [sl|]; [|by destruct (Unregister s2 rc)].
  destruct (len sl =? 0)%nat; [by destruct (Unregister s2 rc)|].
  destruct (slice_at s2 sl 0) as [c|]; [|done].
  destruct (mailbox_send s2 c _) as [[s3 [e|]]|] eqn:Es; cbn [mbind outcome_bind] in E; [| |done].
  - destruct (Unregister s3 rc); cbn [mbind outcome_bind] in E; [|done]. repeat case_match; done.
  - destruct (mailbox_send_quiet _ _ _ _ _ Hok2 Es) as (_ & Hc3 & _). simplify_eq. by rewrite Hc3.
Qed.

(** The consumer after its processing loop took the oldest message. *)
Definition taken (co : consumer) (rest : list message) : consumer :=
  mkConsumer (address co) (add_size (set_ch (mailbox co) rest) (-1)) (chandler co) (done co).

Lemma process_one_takes s c co msg rest :
  cells s !! c = Some co -> Mailbox.closed (mailbox co) = false -> ch (mailbox co) = msg :: rest ->
  let s' := set_cells s (<[c := taken co rest]> (cells s)) in
  process_one s c CtxLive false =
    match chandler co with
    | Some (HUser h) => Returns (s', Ok (Some (h, msg)))
    | Some (HReply p) =>
        match replies s !! p with
        | None => Returns (s', Ok None)
        | Some rb =>
            match Mailbox.Send rb msg with
            | Ret (rb, _) => Returns (set_replies s' (<[p := rb]> (replies s)), Ok None)
            | Panic => Returns (s', Ok None)
            end
        end
    | None => Returns (s', Ok None)
    end.
Proof.
  intros Hc Hcl Hch. unfold process_one, Receive, channel_receive. rewrite Hc, Hcl, Hch. done.
Qed.

(** [Request] against an open consumer with an idle mailbox: the message is
    there, the reply consumer is registered and waits for the reply mailbox. *)
Lemma request_begin_sends s a (b : body P V) t ra d c cs co :
  bus_ok s -> prepare a (Some t) b = Ret (Ok d) -> ValidateAddress ra = None -> a <> ra ->
  registered s a = c :: cs -> cells s !! c = Some co -> has_room (mailbox co) = true ->
  exists s' p msg, request_begin s a b t ra true = Ret (s', Ok p) /\
    mBody msg = d /\ mReplyAddress msg = ra /\
    cells s' !! c = Some (post msg co) /\
    cells s' !! replyConsumer p =
      Some (mkConsumer ra (mkMailbox [] false false 100 0) (Some (HReply (replyMailbox p))) false) /\
    replies s' !! replyMailbox p = Some (mkMailbox [] false false 1 0) /\
    loopGroup s' = loopGroup s /\ c <> replyConsumer p.
Proof.
  intros Hok Hp Hra Hne Hreg Hco Hroom. unfold request_begin. rewrite Hp. cbn [mbind outcome_bind].
  change (NewBoundedMailbox 1) with (@Ret (boundedMailbox message) (mkMailbox [] false false 1 0)).
  cbn [alloc mbind outcome_bind]. set (s0 := set_replies _ _).
  pose proof (reply_box_ok s _ Hok : bus_ok s0) as Hok0.
  destruct (Consumer s0 ra) as [[s1 rc]|] eqn:Ec.
  2: { unfold Consumer in Ec. rewrite Hra in Ec. simpl in Ec. by destruct (append1 _ _ _). }
  destruct (Consumer_spec _ _ _ _ Hok0 Ec) as (Hok1 & Hr1 & Hrc & Hc1 & Hp1 & _ & _ & Hg1 & _).
  assert (c <> rc) as Hcrc.
  { intros <-. destruct Hok as (_ & _ & H3 & _). specialize (H3 c ltac:(by rewrite Hco)). subst c. simpl in *. lia. }
  cbn [mbind outcome_bind]. unfold Handler. rewrite Hc1, lookup_insert_eq. cbn [mbind outcome_bind].
  rewrite insert_insert_eq. set (s2 := set_cells s1 _).
  assert (quiet s1 s2) as Hq2.
  { unfold s2. rewrite <- (insert_insert_eq (cells s0) rc _ (mkConsumer ra (mkMailbox [] false false 100 0) None false)), <- Hc1.
    eapply quiet_cell; [done|rewrite Hc1; apply lookup_insert_eq|done..]. }
  assert (registered s2 a = c :: cs) as Hreg2.
  { rewrite (quiet_registered _ _ _ Hq2), Hr1. by rewrite decide_False. }
  destruct (registered_holds s2 a (proj1 Hq2)) as [[Hn _]|(sl & Ha2 & Hh2 & _ & Hf2)]; [congruence|].
  rewrite Ha2. pose proof Hh2 as [Hl2 _]. rewrite Hreg2 in Hl2, Hh2, Hf2. rewrite Hl2. simpl Nat.eqb. cbv iota.
  rewrite (holds_at _ _ _ _ Hh2). change ((c :: cs) !! 0%nat) with (Some c). cbv iota beta.
  apply Forall_cons in Hf2 as [Lc _].
  match goal with |- context [mailbox_send s2 c ?m] => set (msg := m) end.
  destruct (mailbox_send_live s2 a c msg Lc) as (co2 & Hco2 & Es).
  assert (co2 = co) as ->.
  { simpl in Hco2. rewrite lookup_insert_ne in Hco2 by done. simpl in Hco2. congruence. }
  rewrite Hroom in Es. rewrite Es. cbn [mbind outcome_bind].
  eexists _, _, msg. split; [reflexivity|]. cbn [replyConsumer replyMailbox]. split_and!; try done; simpl.
  - by rewrite lookup_alter_eq, lookup_insert_ne, Hco.
  - by rewrite lookup_alter_ne, lookup_insert_eq.
  - rewrite Hp1. simpl. by rewrite lookup_insert_eq.
Qed.

(** The consumer of a reply address before any reply. *)
Definition reply_consumer ra (box : nat) : consumer :=
  mkConsumer ra (mkMailbox [] false false 100 0) (Some (HReply box)) false.

(** A reply sent to a waiting request completes it. *)
Lemma reply_completes s p ra (b : body P V) d :
  bus_ok s -> loopGroup s = None -> prepare ra None b = Ret (Ok d) ->
  registered s ra = [replyConsumer p] ->
  cells s !! replyConsumer p = Some (reply_consumer ra (replyMailbox p)) ->
  replies s !! replyMailbox p = Some (mkMailbox [] false false 1 0) ->
  exists s1 s2 s3 reply,
    Send s ra b = Returns (s1, None) /\
    process_one s1 (replyConsumer p) CtxLive false = Returns (s2, Ok None) /\
    request_finish s2 p CtxLive false = Returns (s3, Ok reply) /\ mBody reply = d /\
    forall x, registered s3 x = filter (.≠ replyConsumer p) (registered s x).
Proof.
  intros Hok Hg Hp Hreg Hc Hb.
  destruct (send_point_spec s (bctx s) None ra d (replyConsumer p) Hok Hg) as (co & Hco & E1).
  { rewrite Hreg. unfold send_index. simpl. by rewrite Z.mod_1_r. }
  assert (co = reply_consumer ra (replyMailbox p)) as -> by congruence.
  set (msg := mkMessage d _ "") in E1. set (s1 := sent_state s msg (replyConsumer p)) in E1.
  pose proof (sent_state_ok s msg (replyConsumer p) Hok : bus_ok s1) as Hok1.
  pose proof (process_one_takes s1 (replyConsumer p) (post msg (reply_consumer ra (replyMailbox p))) msg []) as E2.
  simpl in E2. rewrite lookup_alter_eq, Hc in E2. specialize (E2 eq_refl eq_refl eq_refl).
  rewrite Hb in E2. simpl in E2.
  match type of E2 with _ = Returns (?x, _) => set (s2 := x) in E2 end.
  pose proof (process_one_quiet _ _ _ _ _ _ Hok1 E2) as Hq2.
  assert (replies s2 !! replyMailbox p = Some (mkMailbox [msg] false false 1 1)) as Hb2
    by apply lookup_insert_eq.
  assert (is_Some (cells s2 !! replyConsumer p)) as [co2 Hco2] by (simpl; rewrite lookup_insert_eq; eauto).
  set (s2' := set_replies s2 (<[replyMailbox p := mkMailbox [] false false 1 0]> (replies s2))).
  destruct (Unregister s2' (replyConsumer p)) as [s3|] eqn:Eu.
  2: { unfold Unregister in Eu. change (cells s2') with (cells s2) in Eu. by rewrite Hco2 in Eu. }
  exists s1, s2, s3, msg. split_and!; try done.
  - unfold Send. rewrite Hp. exact E1.
  - unfold request_finish. rewrite Hb2. assert (Receive (mkMailbox [msg] false false 1 1) CtxLive false =
      Some (mkMailbox [] false false 1 0, @Ok mailbox_error message msg)) as -> by reflexivity. cbv iota beta zeta. fold s2'. by rewrite Eu.
  - intros x. destruct (Unregister_spec s2' _ _ (proj1 Hq2) Eu) as [_ Hr]. by rewrite Hr.
Qed.

(** C19. The consumers map behaves as a registry of lists: in every reachable state
    the consumers of an address are distinct, belong to it and have open
    mailboxes; Consumer appends a new one, Unregister and the end of a Request
    remove exactly theirs, Close empties the lists and nothing else changes
    them. *)
Theorem bus_registry_refinement s :
  reachable_bus s ->
  (forall a, NoDup (registered s a) /\ Forall (live s a) (registered s a)) /\
  (forall op s', bus_exec s op = Some s' -> reg_step op (registered s) (registered s')).
Proof.
  intros Hs%reachable_ok. split.
  - intros a. split; [by apply registered_NoDup|by apply registered_live].
  - intros op s' E. by eapply bus_exec_refines.
Qed.


(** Send is a fair round robin: as many consecutive sends as an address has
    consumers reach each of them exactly once (a full mailbox refuses its
    message and the sender gets a timeout error). *)
Theorem send_round_robin_fair s a (b : body P V) d :
  reachable_bus s -> loopGroup s = None -> prepare a None b = Ret (Ok d) -> registered s a <> [] ->
  0 <= sendCounter s -> sendCounter s + Z.of_nat (length (registered s a)) < 2 ^ 64 ->
  exists s' es, send_many s a b (length (registered s a)) = Some (s', es) /\
    Forall (fun e => e = None \/ e = Some ErrTimeout) es /\
    forall c, cells s' !! c =
      if decide (c ∈ registered s a)
      then post (mkMessage d (buildHeaders (bctx s)) "") <$> cells s !! c else cells s !! c.
Proof.
  intros Hok%reachable_ok Hg Hp Hne H0 Hc.
  destruct (send_many_spec _ s a b d Hok Hg Hp Hne H0 Hc) as (s' & es & Em & Ec & Hes).
  exists s', es. split; [done|]. split; [done|]. intros c. rewrite Ec.
  pose proof (send_targets_all s (registered s a)) as Hperm.
  rewrite post_all_lookup by (rewrite Hperm; by apply registered_NoDup).
  destruct (decide (c ∈ registered s a)) as [Hin|Hin]; rewrite <- Hperm in Hin;
    by destruct (decide (c ∈ send_targets s _ _)).
Qed.

(** Publish through event loops: when it returns nil the loops have accepted one
    event per registered consumer, whose handlers forward the message to exactly
    these consumers in order; no mailbox has been touched yet. *)
Theorem publish_via_loops s g a (b : body P V) d s' :
  reachable_bus s -> loopGroup s = Some g -> prepare a None b = Ret (Ok d) ->
  Publish s a b = Returns (s', None) ->
  let msg := mkMessage d (buildHeaders (bctx s)) "" in
  exists g', loopGroup s' = Some g' /\ cells s' = cells s /\
    closures s' = closures s ++ ((fun c => (c, msg)) <$> registered s a) /\
    group_events g' ≡ₚ (loop_event (bctx s) a msg <$> seq (length (closures s)) (length (registered s a)))
                         ++ group_events g.
Proof.
  intros Hok%reachable_ok Hg Hp E msg. unfold Publish, PublishWithContext in E. rewrite Hp in E.
  cbn [of_outcome mbind call_bind] in E. simpl in E.
  destruct (registered_holds s a Hok) as [[Hnil Hno]|(sl & Ha & Hh & _)].
  - rewrite Hno in E. simplify_eq. exists g. rewrite Hnil. simpl. by rewrite app_nil_r.
  - rewrite Ha, Hg in E. pose proof Hh as [Hl _]. rewrite Hl in E.
    exact (publishViaEventLoop_events _ s g _ a sl _ msg 0 s' Hh Hg eq_refl E).
Qed.

(** Through event loops Send never reports success: after the event has been
    accepted it returns the request-reply error. *)
Theorem send_via_loops_never_succeeds s g a (b : body P V) d c s' err :
  reachable_bus s -> loopGroup s = Some g -> prepare a None b = Ret (Ok d) ->
  registered s a !! send_index s (length (registered s a)) = Some c ->
  Send s a b = Returns (s', err) ->
  err <> None /\
  forall g', group_dispatch g (loop_event (bctx s) a (mkMessage d (buildHeaders (bctx s)) "")
                                 (length (closures s))) = Returns (g', None) ->
    err = Some NotImplemented /\ loopGroup s' = Some g'.
Proof.
  intros Hok%reachable_ok Hg Hp Hc E. unfold Send in E. rewrite Hp in E. cbn [of_outcome mbind call_bind] in E.
  destruct (registered_holds s a Hok) as [[Hnil _]|(sl & Ha & Hh & _)]; [by rewrite Hnil in Hc|].
  pose proof Hh as [Hl _]. unfold send_point in E. rewrite Ha in E. destruct (Nat.eqb_spec (len sl) 0) as [E0|_].
  { rewrite E0 in Hl. by rewrite <- Hl, (nil_length_inv _ (eq_sym Hl)) in Hc. }
  cbn [pick_consumer] in E. set (s1 := set_counter s _) in E.
  assert (slice_at s1 sl (Z.to_nat (u64 (sendCounter s + 1) mod Z.of_nat (len sl))) = Some c) as Hat.
  { rewrite Hl. etransitivity; [exact (holds_at s sl _ _ Hh)|exact Hc]. }
  rewrite Hat in E. assert (loopGroup s1 = Some g) as Hg1 by exact Hg. rewrite Hg1 in E.
  unfold sendViaEventLoop in E. rewrite dispatch_event_unfold in E.
  change (closures s1) with (closures s) in E.
  destruct (group_dispatch g _) as [[g1 [e|]]| |]; cbn in E; simplify_eq; split; try done.
  intros g' [= <-]. done.
Qed.

(** The request-reply round trip: a request to a consumer with a program handler
    and an idle mailbox is delivered to that handler with the request's body, and
    when the handler replies, the waiting request returns the body of the reply;
    the registry is as before. *)
Theorem request_reply_roundtrip s a (b b' : body P V) t ra d d' c cs co h :
  reachable_bus s -> loopGroup s = None -> 0 <= sendCounter s ->
  prepare a (Some t) b = Ret (Ok d) -> prepare ra None b' = Ret (Ok d') ->
  a <> ra -> registered s ra = [] -> registered s a = c :: cs ->
  cells s !! c = Some co -> chandler co = Some (HUser h) -> ch (mailbox co) = [] ->
  0 < capacity (mailbox co) ->
  exists s1 p s2 msg s3 s4 s5 reply,
    request_begin s a b t ra true = Ret (s1, Ok p) /\
    process_one s1 c CtxLive false = Returns (s2, Ok (Some (h, msg))) /\ mBody msg = d /\
    Reply s2 msg b' = Returns (s3, None) /\
    process_one s3 (replyConsumer p) CtxLive false = Returns (s4, Ok None) /\
    request_finish s4 p CtxLive false = Returns (s5, Ok reply) /\ mBody reply = d' /\
    forall x, registered s5 x = registered s x.
Proof.
  intros Hok%reachable_ok Hg Hctr Hp Hp' Hne Hra Hreg Hco Hh Hch Hcap.
  assert (ValidateAddress ra = None) as Hva.
  { unfold prepare in Hp'. by destruct (ValidateAddress ra). }
  assert (has_room (mailbox co) = true) as Hroom.
  { unfold has_room. rewrite Hch. apply Z.ltb_lt. simpl. lia. }
  destruct (request_begin_sends s a b t ra d c cs co Hok Hp Hva Hne Hreg Hco Hroom)
    as (s1 & p & msg & E1 & Hbody & Hrep & Hc1 & Hrc1 & Hrb1 & Hg1 & Hcrc).
  destruct (request_begin_spec _ _ _ _ _ _ _ _ Hok E1) as [Hok1 [Hfresh Hadd]].
  assert (live s a c) as (co' & Hco' & _ & Hcl & _).
  { pose proof (registered_live s a Hok) as Hf. rewrite Hreg in Hf. by apply Forall_cons in Hf as [? _]. }
  assert (co' = co) as -> by congruence.
  assert (post msg co = mkConsumer (address co) (add_size (set_ch (mailbox co) [msg]) 1) (chandler co) (done co)) as Hpost.
  { unfold post. by rewrite Hroom, Hch. }
  pose proof (process_one_takes s1 c (post msg co) msg [] Hc1) as E2. rewrite Hpost in E2. simpl in E2.
  specialize (E2 Hcl eq_refl). rewrite Hh in E2.
  match type of E2 with _ = Returns (?x, _) => set (s2 := x) in E2 end.
  pose proof (process_one_quiet _ _ _ _ _ _ Hok1 E2) as Hq2.
  assert (registered s2 ra = [replyConsumer p]) as Hreg2.
  { rewrite (quiet_registered _ _ _ Hq2), Hadd, decide_True by done. by rewrite Hra. }
  destruct (reply_completes s2 p ra b' d') as (s3 & s4 & s5 & reply & E3 & E4 & E5 & Hd' & Hr5).
  - apply Hq2.
  - by rewrite <- Hg, <- Hg1.
  - done.
  - done.
  - simpl. by rewrite lookup_insert_ne.
  - done.
  - exists s1, p, s2, msg, s3, s4, s5, reply. split_and!; try done.
    + unfold Reply. rewrite Hrep. destruct (String.eqb_spec ra "") as [->|]; [done|exact E3].
    + intros x. eapply (added_removed (registered s) (registered s2)); [exact Hfresh| |exact Hr5].
      intros y. by rewrite (quiet_registered _ _ _ Hq2).
Qed.

(** A completed request leaves its reply address in the consumers map: the reply
    consumer is gone, its key, with an empty list, stays. *)
Theorem request_leaks_entry s a (b : body P V) t ra sub s1 p cst f s2 r :
  reachable_bus s -> request_begin s a b t ra sub = Ret (s1, Ok p) ->
  request_finish s1 p cst f = Returns (s2, r) ->
  dom (consumers s2) = {[ra]} ∪ dom (consumers s) /\ forall x, registered s2 x = registered s x.
Proof.
  intros Hok%reachable_ok E1 E2. pose proof (request_begin_waits _ _ _ _ _ _ _ _ Hok E1) as Hd.
  destruct (request_begin_spec _ _ _ _ _ _ _ _ Hok E1) as [Hok1 [Hf Ha]].
  unfold request_finish in E2. destruct (replies s1 !! replyMailbox p) as [mb|]; [|done].
  destruct (Receive mb cst f) as [[mb' r']|]; [|done]. set (s0 := set_replies s1 _) in E2.
  destruct (Unregister s0 (replyConsumer p)) as [s3|] eqn:Eu; [|done]. cbn in E2.
  assert (s2 = s3) as -> by (repeat case_match; congruence). split.
  - by rewrite (Unregister_dom _ _ _ Eu).
  - destruct (Unregister_spec s0 _ _ Hok1 Eu) as [_ Hr].
    apply (added_removed _ (registered s1) _ _ _ Hf Ha Hr).
Qed.

(** After Close the bus has no consumers, and Publish with valid arguments still
    returns nil. *)
Theorem publish_after_close_returns_nil s a (b : body P V) d :
  reachable_bus s -> prepare a None b = Ret (Ok d) ->
  (forall x, registered (Close s) x = []) /\ Publish (Close s) a b = Returns (Close s, None).
Proof.
  intros Hok%reachable_ok Hp. split; [by apply Close_spec|].
  unfold Publish, PublishWithContext. rewrite Hp. done.
Qed.

(** Registrations, sends and deliveries that overlap a publish do not disturb it:
    it still sends once, in order, to each consumer that was registered when it
    read the list, and returns nil. *)
Theorem publish_undisturbed s ctx a sl msg between o :
  reachable_bus s -> consumers s !! a = Some sl -> length between = len sl ->
  Forall (Forall (fun op => no_removal op = true)) between ->
  publish_overlapped s ctx sl msg 0 between = Some o ->
  exists s', o = Ret (s', registered s a, None).
Proof.
  intros Hok%reachable_ok Ha Hlen Hf E. pose proof (snapshot_now _ _ _ Hok Ha) as Hsn.
  eapply publish_overlapped_spec in E; [exact E|done|done| |done].
  destruct Hsn as [[Hl _] _]. change (length between = length (registered s a)). lia.
Qed.

(** An Unregister that overlaps a publish shifts the array the publish is
    reading: when the first of three consumers unregisters after its delivery,
    the second is skipped and the third gets the message twice. *)
Theorem unregister_disturbs_publish s ctx a sl msg c1 c2 c3 :
  reachable_bus s -> consumers s !! a = Some sl -> registered s a = [c1; c2; c3] ->
  exists s', publish_overlapped s ctx sl msg 0 [[]; [OUnregister c1]; []] = Some (Ret (s', [c1; c3; c3], None)).
Proof.
  intros Hok%reachable_ok Ha Hr. pose proof (snapshot_now _ _ _ Hok Ha) as ([Hl [tail Harr]] & _ & _).
  pose proof (registered_NoDup s a Hok) as Hd. pose proof (registered_live s a Hok) as Hf.
  rewrite Hr in *. simpl in Hl, Harr.
  assert (c1 <> c2 /\ c1 <> c3 /\ c2 <> c3) as (H12 & H13 & H23).
  { rewrite !NoDup_cons, !elem_of_cons, elem_of_nil in Hd. naive_solver. }
  rewrite !Forall_cons in Hf. destruct Hf as (L1 & L2 & L3 & _).
  assert (forall k, slice_at s sl k = [c1; c2; c3] !! k) as Hat by (intros; apply holds_at; split; [exact Hl|exists tail; exact Harr]).
  destruct (publish_one_live s ctx sl msg 0 a c1 Hok (Hat 0%nat) L1) as (s1 & E1 & (Hok1 & Ec1 & Ea1) & Hl1).
  destruct (Unregister s1 c1) as [s2|] eqn:Eu.
  2: { destruct (Hl1 _ _ L1) as (co & Hco & _). unfold Unregister in Eu. by rewrite Hco in Eu. }
  destruct (Unregister_first s1 a sl c1 [c2; c3] tail s2) as [Harr2 Hl2];
    [by rewrite Ec1|by apply Hl1|done|by rewrite Ea1|done|].
  destruct (Unregister_spec _ _ _ Hok1 Eu) as [Hok2 _].
  assert (forall k, (0 < k < 3)%nat -> slice_at s2 sl k = Some c3) as Hat2.
  { intros k Hk. unfold slice_at, backing. rewrite Harr2, Hl. destruct k as [|[|[|k]]]; try lia; done. }
  assert (live s2 a c3) as L3' by (apply Hl2; [congruence|by apply Hl1]).
  destruct (publish_one_live s2 ctx sl msg 1 a c3 Hok2 (Hat2 1%nat ltac:(lia)) L3')
    as (s3 & E3 & (Hok3 & Ec3 & Ea3) & Hl3).
  assert (slice_at s3 sl 2 = Some c3) as Hat3.
  { rewrite <- (Hat2 2%nat) by lia. unfold slice_at, backing. by rewrite Ea3. }
  destruct (publish_one_live s3 ctx sl msg 2 a c3 Hok3 Hat3 (Hl3 _ _ L3')) as (s4 & E4 & _ & _).
  exists s4. cbn [publish_overlapped bus_run bus_exec].
  rewrite (Hat 0%nat), E1. cbn [lookup]. simpl. rewrite Eu, (Hat2 1%nat), E3 by lia. by rewrite Hat3, E4.
Qed.
End guarantees.

(** ** Concrete buses *)

#[local] Instance demo_encoders : Encoders unit Z := {
  ProtobufMarshal := fun _ => None;
  JSONMarshal := fun v => Some [v];
  nilValue := fun v => v =? -1
}.

#[local] Instance demo_growth : SliceGrowth := { grow := fun n => (2 * n)%nat }.

Definition demo_ctx : busctx := mkCtx CtxLive "f7" "".

(** A bus after three registrations at one address, with handlers. *)
Definition demo_ops : list (bus_op (P := unit) (V := Z)) :=
  [OConsumer "a"; OConsumer "a"; OConsumer "a"; OHandler 0 (HUser 1) true].

Definition demo_bus (g : option Dispatcher) : eventBus Dispatcher :=
  default (NewEventBus demo_ctx g) (bus_run (NewEventBus demo_ctx g) demo_ops).

(** One event loop with a ring of four. *)
Definition demo_group : Dispatcher :=
  match NewEventLoopGroup (mkEventLoopConfig 1 4 false BackpressureDrop false) 1 with
  | Ret (Ok d) => d
  | _ => NewDispatcher [] None
  end.

Lemma demo_reachable g : g = None \/ g = Some demo_group ->
  reachable_bus (P := unit) (V := Z) (demo_bus g).
Proof.
  intros Hg. exists demo_ctx, g, demo_ops. unfold demo_bus.
  assert (bool_decide (is_Some (bus_run (NewEventBus demo_ctx g) demo_ops)) = true) as H
    by (destruct Hg as [-> | ->]; vm_compute; reflexivity).
  apply bool_decide_eq_true in H. by destruct H as [s ->].
Qed.

Lemma demo_registered : registered (demo_bus None) "a" = [0; 2; 3]%nat.
Proof. vm_compute. reflexivity. Qed.

Lemma demo_no_group : loopGroup (demo_bus None) = None.
Proof. vm_compute. reflexivity. Qed.

Lemma demo_with_group : loopGroup (demo_bus (Some demo_group)) = Some demo_group.
Proof. vm_compute. reflexivity. Qed.

Lemma demo_counter : sendCounter (demo_bus None) = 0.
Proof. vm_compute. reflexivity. Qed.

Lemma demo_slice : consumers (demo_bus None) !! "a"%string = Some (mkSlice 4 3).
Proof. vm_compute. reflexivity. Qed.

Lemma demo_cell :
  cells (demo_bus None) !! 0%nat =
    Some (mkConsumer "a" (mkMailbox [] false false 100 0) (Some (HUser 1)) false).
Proof. vm_compute. reflexivity. Qed.

Lemma demo_no_reply : registered (demo_bus None) "reply.1" = [].
Proof. vm_compute. reflexivity. Qed.

Lemma demo_pick : registered (demo_bus (Some demo_group)) "a" !!
  send_index (demo_bus (Some demo_group)) (length (registered (demo_bus (Some demo_group)) "a")) = Some 2%nat.
Proof. vm_compute. reflexivity. Qed.

Definition demo_body : body unit Z := BodyValue 42.

Definition call_error {A} (r : call (A * option bus_error)) : option (option bus_error) :=
  match r with Returns (_, e) => Some e | _ => None end.

Lemma demo_publish_nil : call_error (Publish (demo_bus (Some demo_group)) "a" demo_body) = Some None.
Proof. vm_compute. reflexivity. Qed.

Lemma demo_send_error :
  call_error (Send (demo_bus (Some demo_group)) "a" demo_body) = Some (Some NotImplemented).
Proof. vm_compute. reflexivity. Qed.

Lemma demo_plain : reachable_bus (P := unit) (V := Z) (demo_bus None).
Proof. by apply demo_reachable; left. Qed.

Lemma demo_looped : reachable_bus (P := unit) (V := Z) (demo_bus (Some demo_group)).
Proof. by apply demo_reachable; right. Qed.

Lemma bus_registry_refinement_witness :
  NoDup (registered (demo_bus None) "a") /\
  exists s', bus_exec (P := unit) (V := Z) (demo_bus None) (OUnregister 2) = Some s' /\
    registered s' "a" = filter (.≠ 2%nat) (registered (demo_bus None) "a").
Proof.
  destruct (bus_registry_refinement (P := unit) (V := Z) (demo_bus None) demo_plain) as [H1 H2].
  split; [apply H1|].
  destruct (bus_exec (P := unit) (V := Z) (demo_bus None) (OUnregister 2)) as [s'|] eqn:E;
    [|vm_compute in E; discriminate E].
  exists s'. split; [reflexivity|]. exact (H2 (OUnregister 2) s' E "a"%string).
Defined.


Lemma send_round_robin_fair_witness :
  exists s' es, send_many (demo_bus None) "a" demo_body (length (registered (demo_bus None) "a")) = Some (s', es) /\
    Forall (fun e => e = None \/ e = Some ErrTimeout) es.
Proof.
  destruct (send_round_robin_fair (demo_bus None) "a" demo_body [42] demo_plain demo_no_group eq_refl)
    as (s' & es & H1 & H2 & _).
  - rewrite demo_registered. discriminate.
  - rewrite demo_counter. lia.
  - rewrite demo_counter, demo_registered. simpl. lia.
  - exists s', es. split; [exact H1|exact H2].
Defined.

(** Two registrations, appended in place, and a send while a publish is under
    way. *)
Definition demo_between : list (list (bus_op (P := unit) (V := Z))) :=
  [[]; [OConsumer "a"]; [OConsumer "a"; OSend "a" demo_body]].

Lemma publish_undisturbed_witness :
  exists s', publish_overlapped (demo_bus None) demo_ctx (mkSlice 4 3) (mkMessage [42] ∅ "") 0 demo_between
    = Some (Ret (s', [0; 2; 3]%nat, None)).
Proof.
  destruct (publish_overlapped (demo_bus None) demo_ctx (mkSlice 4 3) (mkMessage [42] ∅ "") 0 demo_between)
    as [o|] eqn:E; [|vm_compute in E; discriminate E].
  destruct (publish_undisturbed (demo_bus None) demo_ctx "a" (mkSlice 4 3) (mkMessage [42] ∅ "") demo_between o
    demo_plain demo_slice eq_refl ltac:(repeat constructor) E) as [s' H]. exists s'. rewrite H, demo_registered.
  reflexivity.
Defined.

Lemma unregister_disturbs_publish_witness :
  exists s', publish_overlapped (P := unit) (V := Z) (demo_bus None) demo_ctx (mkSlice 4 3) (mkMessage [42] ∅ "") 0
    [[]; [OUnregister 0]; []] = Some (Ret (s', [0; 3; 3]%nat, None)).
Proof.
  exact (unregister_disturbs_publish (demo_bus None) demo_ctx "a" (mkSlice 4 3) (mkMessage [42] ∅ "") 0 2 3
    demo_plain demo_slice demo_registered).
Defined.

Lemma publish_via_loops_witness :
  exists s' g', Publish (demo_bus (Some demo_group)) "a" demo_body = Returns (s', None) /\
    loopGroup s' = Some g' /\ length (group_events g') = 3%nat.
Proof.
  pose proof demo_publish_nil as Hn.
  destruct (Publish (demo_bus (Some demo_group)) "a" demo_body) as [[s' [e|]]| |] eqn:E;
    [discriminate Hn| |discriminate Hn..]. clear Hn.
  destruct (publish_via_loops (demo_bus (Some demo_group)) demo_group "a" demo_body [42] s'
    demo_looped demo_with_group eq_refl E) as (g' & H1 & _ & _ & H2).
  exists s', g'. split; [reflexivity|]. split; [exact H1|]. rewrite H2. vm_compute. reflexivity.
Defined.

Lemma send_via_loops_never_succeeds_witness :
  exists s' err, Send (demo_bus (Some demo_group)) "a" demo_body = Returns (s', err) /\ err <> None.
Proof.
  pose proof demo_send_error as Hn.
  destruct (Send (demo_bus (Some demo_group)) "a" demo_body) as [[s' err]| |] eqn:E; [|discriminate Hn..].
  exists s', err. split; [reflexivity|].
  exact (proj1 (send_via_loops_never_succeeds (demo_bus (Some demo_group)) demo_group "a" demo_body [42] 2 s' err
    demo_looped demo_with_group eq_refl demo_pick E)).
Defined.

Lemma publish_after_close_returns_nil_witness :
  Publish (Close (demo_bus None)) "a" demo_body = Returns (Close (demo_bus None), None).
Proof.
  exact (proj2 (publish_after_close_returns_nil (demo_bus None) "a" demo_body [42] demo_plain eq_refl)).
Defined.

Lemma request_reply_roundtrip_witness :
  exists s1 p s2 msg s3 s4 s5 reply,
    request_begin (demo_bus None) "a" demo_body 1000 "reply.1" true = Ret (s1, Ok p) /\
    process_one s1 0 CtxLive false = Returns (s2, Ok (Some (1, msg))) /\ mBody msg = [42] /\
    Reply s2 msg (BodyValue 43 : body unit Z) = Returns (s3, None) /\
    process_one s3 (replyConsumer p) CtxLive false = Returns (s4, Ok None) /\
    request_finish s4 p CtxLive false = Returns (s5, Ok reply) /\ mBody reply = [43].
Proof.
  destruct (request_reply_roundtrip (demo_bus None) "a" demo_body (BodyValue 43) 1000 "reply.1" [42] [43] 0 [2; 3]%nat
    (mkConsumer "a" (mkMailbox [] false false 100 0) (Some (HUser 1)) false) 1 demo_plain demo_no_group
    ltac:(rewrite demo_counter; lia) eq_refl eq_refl ltac:(discriminate) demo_no_reply demo_registered demo_cell
    eq_refl eq_refl eq_refl)
    as (s1 & p & s2 & msg & s3 & s4 & s5 & reply & H1 & H2 & H3 & H4 & H5 & H6 & H7 & _).
  exists s1, p, s2, msg, s3, s4, s5, reply. split_and!; assumption.
Defined.

Lemma request_leaks_entry_witness :
  exists s1 p s2 r, request_begin (demo_bus None) "a" demo_body 1000 "reply.1" true = Ret (s1, Ok p) /\
    request_finish s1 p CtxDeadlineExceeded true = Returns (s2, r) /\
    dom (consumers s2) = {["reply.1"%string]} ∪ dom (consumers (demo_bus None)).
Proof.
  destruct (request_begin (demo_bus None) "a" demo_body 1000 "reply.1" true) as [[s1 [p|e]]|] eqn:E1;
    [|vm_compute in E1; discriminate E1..].
  destruct (request_finish s1 p CtxDeadlineExceeded true) as [[s2 r]| |] eqn:E2;
    [|vm_compute in E1; injection E1 as <- <-; vm_compute in E2; discriminate E2..].
  exists s1, p, s2, r. split; [reflexivity|]. split; [exact E2|].
  exact (proj1 (request_leaks_entry (demo_bus None) "a" demo_body 1000 "reply.1" true s1 p _ _ s2 r demo_plain E1 E2)).
Defined.
