(* ===== verification/Breaker.v ===== *)
(** * Circuit breaker (pkg/core/resilience/breaker/breaker.go)

    The state of [breakerManager] and its operations.  Every reading of the
    clock is an argument (nanoseconds), callbacks are returned as a log of the
    calls made, and the protected function is represented by the error it
    returns.  The operations are taken one at a time: executions may overlap
    while their functions run, but not inside [allowExecution], [recordSuccess]
    or [recordFailure].  The last part splits [allowExecution] into its atomic
    steps and shows what happens when admissions overlap too. *)
From S2P Require Import Prelude.

Inductive State : Type :=
| StateClosed
| StateOpen
| StateHalfOpen.

#[export] Instance State_eq_dec : EqDecision State.
Proof. solve_decision. Defined.

Definition State_String (s : State) : string :=
  match s with
  | StateClosed => "CLOSED"
  | StateOpen => "OPEN"
  | StateHalfOpen => "HALF_OPEN"
  end.

(** The callback fields of [Config] matter only by being set or nil. *)
Record Config : Type := mkConfig {
  FailureThreshold : Z;
  SuccessThreshold : Z;
  Timeout : Z;
  HalfOpenMaxRequests : Z;
  OnStateChanged : bool;
  OnStateChangedAsync : bool;
  OnOpened : bool;
  OnOpenedAsync : bool;
  OnClosed : bool;
  OnClosedAsync : bool;
  OnHalfOpened : bool;
  OnHalfOpenedAsync : bool;
  OnExecutionRejected : bool;
  OnExecutionRejectedAsync : bool
}.

Definition with_numbers (c : Config) (ft st to ho : Z) : Config :=
  {| FailureThreshold := ft; SuccessThreshold := st; Timeout := to; HalfOpenMaxRequests := ho;
     OnStateChanged := OnStateChanged c; OnStateChangedAsync := OnStateChangedAsync c;
     OnOpened := OnOpened c; OnOpenedAsync := OnOpenedAsync c;
     OnClosed := OnClosed c; OnClosedAsync := OnClosedAsync c;
     OnHalfOpened := OnHalfOpened c; OnHalfOpenedAsync := OnHalfOpenedAsync c;
     OnExecutionRejected := OnExecutionRejected c;
     OnExecutionRejectedAsync := OnExecutionRejectedAsync c |}.

Definition DefaultConfig : Config :=
  {| FailureThreshold := 5; SuccessThreshold := 1; Timeout := 60 * 1000000000;
     HalfOpenMaxRequests := 1; OnStateChanged := false; OnStateChangedAsync := false;
     OnOpened := false; OnOpenedAsync := false; OnClosed := false; OnClosedAsync := false;
     OnHalfOpened := false; OnHalfOpenedAsync := false;
     OnExecutionRejected := false; OnExecutionRejectedAsync := false |}.

(** A numeric field that is not positive is replaced by the fallback's. *)
Definition normalize (fallback c : Config) : Config :=
  let pick f := if f c <=? 0 then f fallback else f c in
  with_numbers c (pick FailureThreshold) (pick SuccessThreshold)
    (pick Timeout) (pick HalfOpenMaxRequests).

(** ** Callbacks *)

Inductive callback : Type :=
| CbStateChanged (async : bool) (from to : State)
| CbOpened (async : bool)
| CbClosed (async : bool)
| CbHalfOpened (async : bool)
| CbExecutionRejected (async : bool).

Definition emit (on onAsync : bool) (cb : bool -> callback) : list callback :=
  (if on then [cb false] else []) ++ (if onAsync then [cb true] else []).

Definition onStateChanged (from to : State) (c : Config) : list callback :=
  emit (OnStateChanged c) (OnStateChangedAsync c) (fun a => CbStateChanged a from to).

Definition onOpened (c : Config) : list callback :=
  emit (OnOpened c) (OnOpenedAsync c) CbOpened.

Definition onClosed (c : Config) : list callback :=
  emit (OnClosed c) (OnClosedAsync c) CbClosed.

Definition onHalfOpened (c : Config) : list callback :=
  emit (OnHalfOpened c) (OnHalfOpenedAsync c) CbHalfOpened.

Definition onExecutionRejected (c : Config) : list callback :=
  emit (OnExecutionRejected c) (OnExecutionRejectedAsync c) CbExecutionRejected.

(** ** The manager

    A [time.Time] is [None] when it is the zero time. *)
Record breakerManager : Type := mkBreaker {
  config : Config;
  state : State;
  consecutiveFailures : Z;
  consecutiveSuccesses : Z;
  halfOpenRequests : Z;
  lastFailureTime : option Z;
  lastSuccessTime : option Z;
  lastStateChangeTime : option Z;
  TotalExecutions : Z;
  TotalAllowed : Z;
  TotalRejected : Z;
  TotalSuccessful : Z;
  TotalFailed : Z
}.

Definition NewManagerWithConfig (c : Config) (now : Z) : breakerManager :=
  {| config := normalize DefaultConfig c; state := StateClosed;
     consecutiveFailures := 0; consecutiveSuccesses := 0; halfOpenRequests := 0;
     lastFailureTime := None; lastSuccessTime := None; lastStateChangeTime := Some now;
     TotalExecutions := 0; TotalAllowed := 0; TotalRejected := 0;
     TotalSuccessful := 0; TotalFailed := 0 |}.

(** The fields that decide admission. *)
Definition set_circuit (m : breakerManager) (st : State) (cf cs ho : Z)
    (lastChange : option Z) : breakerManager :=
  {| config := config m; state := st; consecutiveFailures := cf; consecutiveSuccesses := cs;
     halfOpenRequests := ho; lastFailureTime := lastFailureTime m;
     lastSuccessTime := lastSuccessTime m; lastStateChangeTime := lastChange;
     TotalExecutions := TotalExecutions m; TotalAllowed := TotalAllowed m;
     TotalRejected := TotalRejected m; TotalSuccessful := TotalSuccessful m;
     TotalFailed := TotalFailed m |}.

Definition set_times (m : breakerManager) (lastFailure lastSuccess : option Z) : breakerManager :=
  {| config := config m; state := state m; consecutiveFailures := consecutiveFailures m;
     consecutiveSuccesses := consecutiveSuccesses m; halfOpenRequests := halfOpenRequests m;
     lastFailureTime := lastFailure; lastSuccessTime := lastSuccess;
     lastStateChangeTime := lastStateChangeTime m;
     TotalExecutions := TotalExecutions m; TotalAllowed := TotalAllowed m;
     TotalRejected := TotalRejected m; TotalSuccessful := TotalSuccessful m;
     TotalFailed := TotalFailed m |}.

(** Add to the five counters of [stats]. *)
Definition count (m : breakerManager) (ex al rej suc fai : Z) : breakerManager :=
  {| config := config m; state := state m; consecutiveFailures := consecutiveFailures m;
     consecutiveSuccesses := consecutiveSuccesses m; halfOpenRequests := halfOpenRequests m;
     lastFailureTime := lastFailureTime m; lastSuccessTime := lastSuccessTime m;
     lastStateChangeTime := lastStateChangeTime m;
     TotalExecutions := TotalExecutions m +i64 ex; TotalAllowed := TotalAllowed m +i64 al;
     TotalRejected := TotalRejected m +i64 rej; TotalSuccessful := TotalSuccessful m +i64 suc;
     TotalFailed := TotalFailed m +i64 fai |}.

(** [a.After(b)] *)
Definition after (a b : option Z) : bool :=
  match a, b with
  | Some x, Some y => y <? x
  | Some _, None => true
  | None, _ => false
  end.

Definition transitionTime (m : breakerManager) : option Z :=
  if after (lastStateChangeTime m) (lastFailureTime m) then lastStateChangeTime m
  else lastFailureTime m.

(** The [StateHalfOpen] case of [allowExecution]. *)
Definition admit_half_open (m : breakerManager) (c : Config) : bool * breakerManager :=
  if i32 (HalfOpenMaxRequests c) <=? halfOpenRequests m then (false, m)
  else (true, set_circuit m (state m) (consecutiveFailures m) (consecutiveSuccesses m)
                (halfOpenRequests m +i32 1) (lastStateChangeTime m)).

(** [since] is the reading in [time.Since], [now] the later one stored as the
    time of the state change. *)
Definition allowExecution (m : breakerManager) (c : Config) (since now : Z) :
    bool * breakerManager * list callback :=
  match state m with
  | StateClosed => (true, m, [])
  | StateOpen =>
      match transitionTime m with
      | Some t =>
          if Timeout c <=? since - t then
            let m := set_circuit m StateHalfOpen 0 0 0 (Some now) in
            (admit_half_open m c,
             onStateChanged StateOpen StateHalfOpen c ++ onHalfOpened c)
          else (false, m, [])
      | None => (false, m, [])
      end
  | StateHalfOpen => (admit_half_open m c, [])
  end.

Definition recordSuccess (m : breakerManager) (c : Config) (now1 now2 : Z) :
    breakerManager * list callback :=
  let m := count m 0 0 0 1 0 in
  let m := set_circuit m (state m) 0 (consecutiveSuccesses m +i32 1)
             (halfOpenRequests m) (lastStateChangeTime m) in
  let m := set_times m (lastFailureTime m) (Some now1) in
  match state m with
  | StateHalfOpen =>
      if i32 (SuccessThreshold c) <=? consecutiveSuccesses m then
        (set_circuit m StateClosed 0 0 0 (Some now2),
         onStateChanged StateHalfOpen StateClosed c ++ onClosed c)
      else (m, [])
  | StateClosed | StateOpen => (m, [])
  end.

Definition recordFailure (m : breakerManager) (c : Config) (now1 now2 : Z) :
    breakerManager * list callback :=
  let m := count m 0 0 0 0 1 in
  let m := set_circuit m (state m) (consecutiveFailures m +i32 1) 0
             (halfOpenRequests m) (lastStateChangeTime m) in
  let m := set_times m (Some now1) (lastSuccessTime m) in
  match state m with
  | StateClosed =>
      if i32 (FailureThreshold c) <=? consecutiveFailures m then
        (set_circuit m StateOpen (consecutiveFailures m) (consecutiveSuccesses m)
           (halfOpenRequests m) (Some now2),
         onStateChanged StateClosed StateOpen c ++ onOpened c)
      else (m, [])
  | StateHalfOpen =>
      (set_circuit m StateOpen (consecutiveFailures m) 0 0 (Some now2),
       onStateChanged StateHalfOpen StateOpen c ++ onOpened c)
  | StateOpen => (m, [])
  end.

Definition Reset (m : breakerManager) (now : Z) : breakerManager * list callback :=
  match state m with
  | StateClosed => (m, [])
  | st => (set_circuit m StateClosed 0 0 0 (Some now),
           onStateChanged st StateClosed (config m) ++ onClosed (config m))
  end.

Definition AllowWithConfig (m : breakerManager) (ctxNil : bool) (c : Config) (since now : Z) :
    bool * breakerManager * list callback :=
  if ctxNil then (false, m, [])
  else allowExecution m (normalize (config m) c) since now.

Definition Success (m : breakerManager) (now1 now2 : Z) := recordSuccess m (config m) now1 now2.

Definition Failure (m : breakerManager) (now1 now2 : Z) := recordFailure m (config m) now1 now2.

(** ** Execution *)

Inductive exec_error : Type :=
| NIL_CONTEXT
| NIL_FUNCTION
| CIRCUIT_OPEN (st : State)   (** the state named in the message *)
| FN_ERROR (e : Z).           (** what the protected function returned *)

(** [fnErr] is the error the protected function returns ([None] for nil); the
    four times are the clock readings in order. *)
Definition ExecuteWithConfig (m : breakerManager) (ctxNil fnNil : bool) (fnErr : option Z)
    (c : Config) (since now now1 now2 : Z) :
    breakerManager * list callback * option exec_error :=
  if ctxNil then (m, [], Some NIL_CONTEXT)
  else if fnNil then (m, [], Some NIL_FUNCTION)
  else
    let c := normalize (config m) c in
    let m := count m 1 0 0 0 0 in
    match allowExecution m c since now with
    | (false, m, log) =>
        let m := count m 0 0 1 0 0 in
        (m, log ++ onExecutionRejected c, Some (CIRCUIT_OPEN (state m)))
    | (true, m, log) =>
        let m := count m 0 1 0 0 0 in
        match fnErr with
        | None =>
            let '(m, log') := recordSuccess m c now1 now2 in (m, log ++ log', None)
        | Some e =>
            let '(m, log') := recordFailure m c now1 now2 in (m, log ++ log', Some (FN_ERROR e))
        end
    end.

Definition Execute (m : breakerManager) (ctxNil fnNil : bool) (fnErr : option Z)
    (since now now1 now2 : Z) :=
  ExecuteWithConfig m ctxNil fnNil fnErr (config m) since now now1 now2.

(** ** Runs

    A run performs admissions, recorded outcomes and resets in any order, as
    executions whose functions overlap do. *)
Inductive op : Type :=
| OpAllow (since now : Z)
| OpSuccess (now1 now2 : Z)
| OpFailure (now1 now2 : Z)
| OpReset (now : Z).

Definition apply_op (m : breakerManager) (o : op) : breakerManager * list callback :=
  match o with
  | OpAllow since now => let '(_, m', log) := allowExecution m (config m) since now in (m', log)
  | OpSuccess n1 n2 => Success m n1 n2
  | OpFailure n1 n2 => Failure m n1 n2
  | OpReset now => Reset m now
  end.

Definition run_ops (m : breakerManager) (ops : list op) : breakerManager :=
  fold_left (fun m o => (apply_op m o).1) ops m.

(** One call of [Execute]: what the function returns and the clock readings. *)
Record call : Type := mkCall {
  fn_err : option Z;
  t_since : Z;
  t_now : Z;
  t_rec1 : Z;
  t_rec2 : Z
}.

Definition exec_call (m : breakerManager) (k : call) : breakerManager * option exec_error :=
  let '(m', _, r) := Execute m false false (fn_err k) (t_since k) (t_now k) (t_rec1 k) (t_rec2 k) in
  (m', r).

(** Successive executions, with their results. *)
Fixpoint exec_calls (m : breakerManager) (ks : list call) :
    breakerManager * list (option exec_error) :=
  match ks with
  | [] => (m, [])
  | k :: ks =>
      let '(m1, r) := exec_call m k in
      let '(m2, rs) := exec_calls m1 ks in
      (m2, r :: rs)
  end.

(** ** The invariant *)

Definition config_ok (c : Config) : Prop :=
  0 < FailureThreshold c <= max_i32 /\ 0 < SuccessThreshold c <= max_i32 /\
  0 < HalfOpenMaxRequests c <= max_i32 /\ 0 < Timeout c.

Definition breaker_inv (m : breakerManager) : Prop :=
  config_ok (config m) /\
  lastStateChangeTime m <> None /\
  match state m with
  | StateClosed => 0 <= consecutiveFailures m < FailureThreshold (config m)
  | StateHalfOpen =>
      0 <= halfOpenRequests m <= HalfOpenMaxRequests (config m) /\
      consecutiveFailures m = 0 /\
      0 <= consecutiveSuccesses m < SuccessThreshold (config m)
  | StateOpen => True
  end.

Lemma config_ok_i32 c :
  config_ok c ->
  i32 (FailureThreshold c) = FailureThreshold c /\
  i32 (SuccessThreshold c) = SuccessThreshold c /\
  i32 (HalfOpenMaxRequests c) = HalfOpenMaxRequests c.
Proof. intros (H1 & H2 & H3 & _). split_and!; apply i32_id; widths; lia. Qed.

Lemma normalize_self c : config_ok c -> normalize c c = c.
Proof.
  intros _. unfold normalize, with_numbers. destruct c; simpl. f_equal; by destruct (_ <=? 0).
Qed.

Lemma normalize_ok fallback c :
  config_ok fallback ->
  FailureThreshold c <= max_i32 -> SuccessThreshold c <= max_i32 ->
  HalfOpenMaxRequests c <= max_i32 -> config_ok (normalize fallback c).
Proof.
  intros (H1 & H2 & H3 & H4) ? ? ?. unfold config_ok, normalize; simpl.
  repeat zcase; lia.
Qed.

Lemma DefaultConfig_ok : config_ok DefaultConfig.
Proof. unfold config_ok; simpl. widths. lia. Qed.

Lemma NewManager_inv c now :
  FailureThreshold c <= max_i32 -> SuccessThreshold c <= max_i32 ->
  HalfOpenMaxRequests c <= max_i32 -> breaker_inv (NewManagerWithConfig c now).
Proof.
  intros. pose proof (normalize_ok DefaultConfig c DefaultConfig_ok) as Hok.
  split; [by apply Hok|]. split; [done|]. simpl. destruct Hok; try done. simpl in *. lia.
Qed.

Lemma admit_half_open_inv m :
  state m = StateHalfOpen -> breaker_inv m -> breaker_inv (admit_half_open m (config m)).2.
Proof.
  intros Hst (Hok & Hl & Hs). pose proof (config_ok_i32 _ Hok) as (_ & _ & EH).
  unfold admit_half_open. rewrite EH. zcase; [done|]. rewrite Hst in Hs.
  unfold breaker_inv; simpl. rewrite Hst. rewrite i32_id by (destruct Hok as (_&_&?&_); widths; lia).
  split_and!; try done; lia.
Qed.

Lemma apply_op_inv m o : breaker_inv m -> breaker_inv (apply_op m o).1.
Proof.
  intros Hm. pose proof Hm as (Hok & Hl & Hs).
  pose proof (config_ok_i32 _ Hok) as (EF & ES & EH).
  destruct o as [since now|n1 n2|n1 n2|now]; simpl.
  - unfold allowExecution. destruct (state m) eqn:Hst; [done| |].
    + destruct (transitionTime m); [|done]. zcase; [|done].
      set (m' := set_circuit m StateHalfOpen 0 0 0 (Some now)).
      assert (breaker_inv m') as Hm'.
      { split; [done|]. split; [done|]. simpl. destruct Hok as (?&?&?&?). lia. }
      pose proof (admit_half_open_inv m' eq_refl Hm') as Hadm.
      simpl in Hadm. by destruct (admit_half_open m' (config m)).
    + pose proof (admit_half_open_inv m Hst Hm) as Hadm.
      by destruct (admit_half_open m (config m)).
  - unfold Success, recordSuccess; simpl. rewrite ES. destruct (state m) eqn:Hst; simpl.
    + unfold breaker_inv; simpl; rewrite ?Hst. split_and!; try done; destruct Hok; lia.
    + unfold breaker_inv; simpl; rewrite ?Hst. done.
    + rewrite i32_id by (destruct Hok as (_&?&_&_); widths; lia).
      zcase; unfold breaker_inv; simpl; [|rewrite ?Hst]; split_and!; try done; destruct Hok; lia.
  - unfold Failure, recordFailure; simpl. rewrite EF. destruct (state m) eqn:Hst; simpl.
    + rewrite i32_id by (destruct Hok as (?&_); widths; lia).
      zcase; unfold breaker_inv; simpl; [done|rewrite ?Hst]. split_and!; try done; lia.
    + unfold breaker_inv; simpl; rewrite ?Hst. done.
    + done.
  - unfold Reset. destruct (state m) eqn:Hst; simpl; [done| |];
      unfold breaker_inv; simpl; split_and!; try done; destruct Hok; lia.
Qed.

Lemma run_ops_inv ops m : breaker_inv m -> breaker_inv (run_ops m ops).
Proof.
  revert m. induction ops as [|o ops IH]; intros m Hm; [done|]. apply IH. by apply apply_op_inv.
Qed.

(** ** The circuit a caller sees

    The specification of a breaker: what has been counted since the circuit
    took its present state, and nothing else.  The calls name the
    configuration they are made with, as [ExecuteWithConfig] and
    [AllowWithConfig] do. *)
Inductive circuit : Type :=
| Passing (failures : Z)                (** closed: failures since the last success *)
| Tripped (opened lastFailure : Z)      (** open: when it opened, when the last failure came *)
| Probing (admitted succeeded : Z).     (** half open: executions admitted, successes recorded *)

Inductive request : Type :=
| Admit (c : Config) (since now : Z)
| Succeeded (c : Config) (now1 now2 : Z)
| Failed (c : Config) (now1 now2 : Z)
| ResetCircuit (now : Z).

(** The circuit after a request, and the answer of an admission; [d] is the
    manager's configuration. *)
Definition circuit_step (d : Config) (s : circuit) (r : request) : circuit * option bool :=
  match r with
  | Admit c since _ =>
      let c := normalize d c in
      match s with
      | Passing _ => (s, Some true)
      | Tripped t u =>
          if since <? Z.max t u + Timeout c then (s, Some false) else (Probing 1 0, Some true)
      | Probing a k =>
          if a <? HalfOpenMaxRequests c then (Probing (a + 1) k, Some true) else (s, Some false)
      end
  | Succeeded c _ _ =>
      (match s with
       | Passing _ => Passing 0
       | Tripped t u => s
       | Probing a k =>
           if k + 1 <? SuccessThreshold (normalize d c) then Probing a (k + 1) else Passing 0
       end, None)
  | Failed c now1 now2 =>
      (match s with
       | Passing f =>
           if f + 1 <? FailureThreshold (normalize d c) then Passing (f + 1) else Tripped now2 now1
       | Tripped t _ => Tripped t now1
       | Probing _ _ => Tripped now2 now1
       end, None)
  | ResetCircuit _ => (match s with Passing f => Passing f | _ => Passing 0 end, None)
  end.

(** The same request to the manager. *)
Definition serve (m : breakerManager) (r : request) : breakerManager * option bool :=
  match r with
  | Admit c since now => let '(ok, m', _) := AllowWithConfig m false c since now in (m', Some ok)
  | Succeeded c n1 n2 => ((recordSuccess m (normalize (config m) c) n1 n2).1, None)
  | Failed c n1 n2 => ((recordFailure m (normalize (config m) c) n1 n2).1, None)
  | ResetCircuit now => ((Reset m now).1, None)
  end.

(** The state after some requests and the answers, in order. *)
Definition answers {S} (step : S -> request -> S * option bool) (s : S) (rs : list request) :
    S * list (option bool) :=
  fold_left (fun '(s, out) r => let '(s', a) := step s r in (s', out ++ [a])) rs (s, []).

(** The thresholds of a configuration fit the counters they are compared with. *)
Definition config_fits (c : Config) : Prop :=
  FailureThreshold c <= max_i32 /\ SuccessThreshold c <= max_i32 /\
  HalfOpenMaxRequests c <= max_i32.

Definition request_fits (r : request) : Prop :=
  match r with
  | Admit c _ _ | Succeeded c _ _ | Failed c _ _ => config_fits c
  | ResetCircuit _ => True
  end.

(** The manager's fields show the circuit. *)
Definition shows (m : breakerManager) (s : circuit) : Prop :=
  match s with
  | Passing f => state m = StateClosed /\ consecutiveFailures m = f /\ 0 <= f < max_i32
  | Tripped t u =>
      state m = StateOpen /\ lastStateChangeTime m = Some t /\ lastFailureTime m = Some u
  | Probing a k =>
      state m = StateHalfOpen /\ halfOpenRequests m = a /\ consecutiveSuccesses m = k /\
      0 <= a <= max_i32 /\ 0 <= k < max_i32
  end.

(** The configuration of a call: its thresholds are positive and survive the
    conversion to int32. *)
Lemma call_config d c :
  config_ok d -> config_fits c ->
  let c' := normalize d c in
  0 < FailureThreshold c' <= max_i32 /\ 0 < SuccessThreshold c' <= max_i32 /\
  0 < HalfOpenMaxRequests c' <= max_i32 /\
  i32 (FailureThreshold c') = FailureThreshold c' /\
  i32 (SuccessThreshold c') = SuccessThreshold c' /\
  i32 (HalfOpenMaxRequests c') = HalfOpenMaxRequests c'.
Proof.
  intros Hd (H1 & H2 & H3). cbv zeta.
  pose proof (normalize_ok d c Hd H1 H2 H3) as Hc.
  pose proof (config_ok_i32 _ Hc). destruct Hc as (?&?&?&_). tauto.
Qed.

Lemma transitionTime_max m t u :
  lastStateChangeTime m = Some t -> lastFailureTime m = Some u ->
  transitionTime m = Some (Z.max t u).
Proof.
  intros Ht Hu. unfold transitionTime. rewrite Ht, Hu. simpl. zcase; f_equal; lia.
Qed.

Lemma admit_shows d m s c since now :
  config m = d -> config_ok d -> config_fits c -> shows m s ->
  let '(m', a) := serve m (Admit c since now) in
  let '(s', b) := circuit_step d s (Admit c since now) in
  config m' = d /\ shows m' s' /\ a = b.
Proof.
  intros Hc Hd Hf Hs. destruct (call_config d c Hd Hf) as (_ & _ & Hh & _ & _ & EH).
  unfold serve, AllowWithConfig, circuit_step. rewrite Hc.
  set (n := normalize d c) in *. clearbody n. destruct s as [f|t u|a k]; simpl in Hs.
  - destruct Hs as (Hst & Hs). unfold allowExecution. rewrite Hst. done.
  - destruct Hs as (Hst & Ht & Hu). unfold allowExecution. rewrite Hst.
    rewrite (transitionTime_max m t u Ht Hu).
    destruct (Z.leb_spec (Timeout n) (since - Z.max t u)); zcase; try lia; [|done].
    unfold admit_half_open; simpl. rewrite EH.
    destruct (Z.leb_spec (HalfOpenMaxRequests n) 0); [lia|]. simpl.
    split_and!; try done; widths; lia.
  - destruct Hs as (Hst & Ha & Hk & Hr). unfold allowExecution, admit_half_open.
    rewrite Hst, EH, Ha.
    destruct (Z.leb_spec (HalfOpenMaxRequests n) a); zcase; try lia; [done|]. simpl.
    rewrite i32_id by (widths; lia). split_and!; try done; lia.
Qed.

Lemma outcome_shows d m s r :
  match r with Succeeded _ _ _ | Failed _ _ _ => True | _ => False end ->
  config m = d -> config_ok d -> request_fits r -> shows m s ->
  let '(m', a) := serve m r in
  let '(s', b) := circuit_step d s r in
  config m' = d /\ shows m' s' /\ a = b.
Proof.
  intros Hr Hc Hd Hf Hs. destruct r as [|c n1 n2|c n1 n2|]; try done; clear Hr;
    destruct (call_config d c Hd Hf) as (? & ? & _ & EF & ES & _);
    unfold serve, recordSuccess, recordFailure, circuit_step; rewrite Hc;
    set (n := normalize d c) in *; clearbody n; destruct s as [f|t u|a k]; simpl in *.
  - destruct Hs as (Hst & Hs). rewrite Hst. simpl. split_and!; try done; widths; lia.
  - destruct Hs as (Hst & Ht & Hu). rewrite Hst. done.
  - destruct Hs as (Hst & Ha & Hk & Hr). rewrite Hst, ES, Hk. rewrite i32_id by (widths; lia).
    destruct (Z.leb_spec (SuccessThreshold n) (k + 1)); zcase; try lia; simpl; rewrite ?Hst;
      split_and!; try done; widths; lia.
  - destruct Hs as (Hst & Hf' & Hr). rewrite Hst, EF, Hf'. rewrite i32_id by (widths; lia).
    destruct (Z.leb_spec (FailureThreshold n) (f + 1)); zcase; try lia; simpl; rewrite ?Hst;
      split_and!; try done; lia.
  - destruct Hs as (Hst & Ht & Hu). rewrite Hst. done.
  - destruct Hs as (Hst & Ha & Hk & Hr). rewrite Hst. done.
Qed.

Lemma serve_shows d m s r :
  config m = d -> config_ok d -> request_fits r -> shows m s ->
  let '(m', a) := serve m r in
  let '(s', b) := circuit_step d s r in
  config m' = d /\ shows m' s' /\ a = b.
Proof.
  intros Hc Hd Hf Hs. destruct r as [c since now|c n1 n2|c n1 n2|now].
  - by apply admit_shows.
  - by apply outcome_shows.
  - by apply outcome_shows.
  - unfold serve, circuit_step, Reset. destruct s as [f|t u|a k]; simpl in Hs;
      destruct Hs as (Hst & Hs); rewrite Hst; simpl; split_and!; try done; widths; lia.
Qed.

Lemma answers_snoc {S} (step : S -> request -> S * option bool) s rs r :
  answers step s (rs ++ [r]) =
  let '(s1, out) := answers step s rs in let '(s2, a) := step s1 r in (s2, out ++ [a]).
Proof. unfold answers. rewrite fold_left_app. simpl. by destruct (fold_left _ rs _). Qed.

(** C21. A breaker asked for admissions, told outcomes and reset in any order, one
    call at a time, each call with a configuration of its own, answers every
    admission as the circuit does that counts from the history alone: while
    closed it admits everything and opens at the failure that makes
    FailureThreshold of them since the last success; while open it refuses
    until Timeout has passed since the later of its opening and the last
    failure; while half open it admits HalfOpenMaxRequests executions in all,
    closes at the SuccessThreshold-th success and opens again at the first
    failure.  The fields of the manager are the counts of that circuit. *)
Theorem breaker_refines_circuit c now rs :
  config_fits c -> Forall request_fits rs ->
  let '(m, out) := answers serve (NewManagerWithConfig c now) rs in
  let '(s, out') := answers (circuit_step (normalize DefaultConfig c)) (Passing 0) rs in
  shows m s /\ out = out'.
Proof.
  intros Hc Hrs. set (d := normalize DefaultConfig c).
  assert (config_ok d) as Hd by (apply normalize_ok; [apply DefaultConfig_ok|apply Hc..]).
  enough (let '(m, out) := answers serve (NewManagerWithConfig c now) rs in
          let '(s, out') := answers (circuit_step d) (Passing 0) rs in
          config m = d /\ shows m s /\ out = out') as H.
  { destruct (answers serve _ rs), (answers _ _ rs). apply H. }
  induction rs as [|r rs IH] using rev_ind.
  - simpl. split_and!; try done; widths; lia.
  - apply Forall_app in Hrs as [Hrs Hr]. apply Forall_cons in Hr as [Hr _]. specialize (IH Hrs).
    rewrite !answers_snoc.
    destruct (answers serve _ rs) as [m out], (answers _ _ rs) as [s out'].
    destruct IH as (Hm & Hs & ->). pose proof (serve_shows d m s r Hm Hd Hr Hs) as H.
    destruct (serve m r) as [m' a], (circuit_step d s r) as [s' b].
    destruct H as (? & ? & ->). done.
Qed.

(** Two failures open the circuit, the timeout lets two probes through and no
    third, and two successes close it. *)
Lemma breaker_refines_circuit_witness :
  let c := with_numbers DefaultConfig 2 2 10 2 in
  let rs := [Failed c 1 1; Failed c 2 2; Admit c 5 5; Admit c 12 12; Admit c 13 13; Admit c 14 14;
             Succeeded c 15 15; Succeeded c 16 16] in
  shows (answers serve (NewManagerWithConfig c 0) rs).1 (Passing 0) /\
  (answers serve (NewManagerWithConfig c 0) rs).2 =
    [None; None; Some false; Some true; Some true; Some false; None; None].
Proof.
  pose proof (breaker_refines_circuit (with_numbers DefaultConfig 2 2 10 2) 0
    (let c := with_numbers DefaultConfig 2 2 10 2 in
     [Failed c 1 1; Failed c 2 2; Admit c 5 5; Admit c 12 12; Admit c 13 13; Admit c 14 14;
      Succeeded c 15 15; Succeeded c 16 16])
    ltac:(repeat split; vm_compute; discriminate)
    ltac:(repeat constructor; vm_compute; discriminate)) as H.
  cbv zeta in H |- *. destruct (answers serve _ _) as [m out].
  vm_compute in H. destruct H as [H ->]. split; [|reflexivity]. vm_compute. exact H.
Defined.

(** ** When the circuit opens *)

(** Outcomes recorded one after the other: [true] for a failure. *)
Definition outcome_op (o : bool * Z * Z) : op :=
  let '(failed, n1, n2) := o in if failed then OpFailure n1 n2 else OpSuccess n1 n2.

(** Failures since the last success. *)
Definition streak (os : list bool) : Z :=
  fold_left (fun n (failed : bool) => if failed then n + 1 else 0) os 0.

Lemma streak_snoc os b : streak (os ++ [b]) = if b then streak os + 1 else 0.
Proof. unfold streak. by rewrite fold_left_app. Qed.

Lemma run_ops_snoc m ops o : run_ops m (ops ++ [o]) = (apply_op (run_ops m ops) o).1.
Proof. unfold run_ops. by rewrite fold_left_app. Qed.

Lemma outcome_in_closed m failed n1 n2 :
  breaker_inv m -> state m = StateClosed ->
  let m' := (apply_op m (outcome_op (failed, n1, n2))).1 in
  config m' = config m /\
  state m' = (if failed && (FailureThreshold (config m) <=? consecutiveFailures m + 1)
              then StateOpen else StateClosed) /\
  consecutiveFailures m' = (if failed then consecutiveFailures m + 1 else 0).
Proof.
  intros (Hok & _ & Hs) Hst. rewrite Hst in Hs.
  pose proof (config_ok_i32 _ Hok) as (EF & ES & EH).
  destruct failed; simpl.
  - unfold Failure, recordFailure; simpl. rewrite Hst, EF.
    rewrite i32_id by (destruct Hok as (?&_); widths; lia). by zcase.
  - unfold Success, recordSuccess; simpl. by rewrite Hst.
Qed.

Lemma outcome_in_open m failed n1 n2 :
  state m = StateOpen -> state (apply_op m (outcome_op (failed, n1, n2))).1 = StateOpen.
Proof.
  intros Hst. destruct failed; simpl; unfold Failure, Success, recordFailure, recordSuccess; simpl;
    by rewrite Hst.
Qed.

Lemma run_outcomes m os :
  breaker_inv m -> state m = StateClosed -> consecutiveFailures m = 0 ->
  let m' := run_ops m (map outcome_op os) in
  let fs := map (fun o => o.1.1) os in
  (state m' = StateClosed /\ config m' = config m /\ consecutiveFailures m' = streak fs /\
   breaker_inv m' /\
   (forall k, (k <= length fs)%nat -> streak (take k fs) < FailureThreshold (config m))) \/
  (state m' = StateOpen /\
   exists k, (k <= length fs)%nat /\ FailureThreshold (config m) <= streak (take k fs)).
Proof.
  intros Hm Hst Hcf. induction os as [|[[b n1] n2] os IH] using rev_ind; cbv zeta in *.
  - left. split_and!; try done. simpl. intros k Hk. rewrite take_nil. destruct Hm as ((?&_)&_&_).
    unfold streak; simpl. lia.
  - rewrite !map_app. cbn [map fst]. rewrite run_ops_snoc. set (m1 := run_ops m (map outcome_op os)) in *.
    set (fs := map (fun o => o.1.1) os) in *.
    destruct IH as [(H1 & H2 & H3 & H4 & H5)|(H1 & k & Hk & H2)].
    + destruct (outcome_in_closed m1 b n1 n2 H4 H1) as (E1 & E2 & E3).
      rewrite H2, H3 in *. rewrite E2.
      destruct (b && (FailureThreshold (config m) <=? streak fs + 1)) eqn:Hb.
      * right. split; [done|]. exists (length (fs ++ [b])). split; [done|].
        rewrite firstn_all, streak_snoc. apply andb_prop in Hb as [-> Hle%Z.leb_le]. done.
      * left. split_and!; try done.
        -- by rewrite streak_snoc.
        -- by apply apply_op_inv.
        -- intros k. rewrite length_app; simpl. intros Hk.
           destruct (decide (k <= length fs)%nat).
           { rewrite take_app_le by done. by apply H5. }
           rewrite take_ge by (rewrite length_app; simpl; lia). rewrite streak_snoc.
           destruct b; [simpl in Hb; apply Z.leb_gt in Hb; lia|]. destruct Hm as ((?&_)&_). lia.
    + right. split; [by apply outcome_in_open|]. exists k. rewrite length_app; simpl.
      split; [lia|]. by rewrite take_app_le.
Qed.

(** Starting closed, a sequence of recorded outcomes leaves the circuit open
    exactly when it contains FailureThreshold failures in a row. *)
Theorem opens_iff_failure_streak m os :
  breaker_inv m -> state m = StateClosed -> consecutiveFailures m = 0 ->
  let fs := map (fun o => o.1.1) os in
  state (run_ops m (map outcome_op os)) = StateOpen <->
  exists k, (k <= length fs)%nat /\ FailureThreshold (config m) <= streak (take k fs).
Proof.
  intros Hm Hst Hcf fs.
  destruct (run_outcomes m os Hm Hst Hcf) as [(H1 & _ & _ & _ & H5)|(H1 & H2)]; [|tauto].
  rewrite H1. split; [done|]. intros (k & Hk & Hle). specialize (H5 k Hk). unfold fs in Hle. lia.
Qed.

Lemma opens_iff_failure_streak_witness :
  state (run_ops (NewManagerWithConfig (with_numbers DefaultConfig 2 1 10 1) 0)
    (map outcome_op [(true, 1, 1); (false, 2, 2); (true, 3, 3); (true, 4, 4)])) = StateOpen.
Proof.
  apply (opens_iff_failure_streak (NewManagerWithConfig (with_numbers DefaultConfig 2 1 10 1) 0)
    [(true, 1, 1); (false, 2, 2); (true, 3, 3); (true, 4, 4)]).
  - apply NewManager_inv; vm_compute; discriminate.
  - reflexivity.
  - reflexivity.
  - exists 4%nat. vm_compute. split; [lia|discriminate].
Defined.

(** ** The gate of an open circuit *)

(** An open circuit admits an execution exactly when Timeout has passed since
    the later of the last failure and the last state change; before that
    nothing changes, and at that moment the circuit becomes half open with a
    single probe counted. *)
Theorem open_gate m since now :
  breaker_inv m -> state m = StateOpen ->
  exists t, transitionTime m = Some t /\
    (forall x, lastFailureTime m = Some x -> x <= t) /\
    (forall x, lastStateChangeTime m = Some x -> x <= t) /\
    let '(ok, m', _) := allowExecution m (config m) since now in
    if since - t <? Timeout (config m) then ok = false /\ m' = m
    else ok = true /\ state m' = StateHalfOpen /\ halfOpenRequests m' = 1 /\
         consecutiveSuccesses m' = 0 /\ lastStateChangeTime m' = Some now.
Proof.
  intros (Hok & Hl & _) Hst. pose proof (config_ok_i32 _ Hok) as (_ & _ & EH).
  unfold allowExecution. rewrite Hst. unfold transitionTime.
  destruct (lastStateChangeTime m) as [tc|]; [|done]. simpl.
  assert (exists t, (if match lastFailureTime m with Some y => y <? tc | None => true end
    then Some tc else lastFailureTime m) = Some t /\
    (forall x, lastFailureTime m = Some x -> x <= t) /\
    (forall x, Some tc = Some x -> x <= t)) as (t & -> & H1 & H2).
  { destruct (lastFailureTime m) as [tf|]; [zcase|]; eexists; (split; [done|]);
      split; intros x [= <-]; lia. }
  exists t. split_and!; try done. unfold admit_half_open; simpl. rewrite EH.
  destruct (Z.leb_spec (Timeout (config m)) (since - t)); zcase; try lia; [|done].
  destruct (Z.leb_spec (HalfOpenMaxRequests (config m)) 0) as [|_].
  - destruct Hok as (_&_&?&_). lia.
  - done.
Qed.

Definition tripped : breakerManager :=
  run_ops (NewManagerWithConfig (with_numbers DefaultConfig 2 3 10 2) 0)
    [OpFailure 1 1; OpFailure 2 2].

Lemma tripped_inv : breaker_inv tripped.
Proof. apply run_ops_inv, NewManager_inv; vm_compute; discriminate. Qed.

Lemma open_gate_witness :
  exists t, transitionTime tripped = Some t /\ t = 2 /\
    (allowExecution tripped (config tripped) 11 11).1.1 = false.
Proof.
  destruct (open_gate tripped 11 11 tripped_inv eq_refl) as (t & Ht & _ & _ & H).
  exists t. vm_compute in Ht. injection Ht as <-.
  split; [reflexivity|]. split; [reflexivity|]. vm_compute in H. vm_compute. apply H.
Defined.

(** ** Half open: recovery and exhaustion *)

(** [exec_call] in terms of the three units it is made of. *)
Lemma exec_call_unfold m k :
  breaker_inv m ->
  exec_call m k =
  let '(ok, m1, _) := allowExecution (count m 1 0 0 0 0) (config m) (t_since k) (t_now k) in
  if ok then
    let m2 := count m1 0 1 0 0 0 in
    match fn_err k with
    | None => ((recordSuccess m2 (config m) (t_rec1 k) (t_rec2 k)).1, None)
    | Some e => ((recordFailure m2 (config m) (t_rec1 k) (t_rec2 k)).1, Some (FN_ERROR e))
    end
  else (count m1 0 0 1 0 0, Some (CIRCUIT_OPEN (state m1))).
Proof.
  intros (Hok & _). unfold exec_call, Execute, ExecuteWithConfig. cbv iota.
  rewrite (normalize_self _ Hok).
  destruct (allowExecution (count m 1 0 0 0 0) (config m) (t_since k) (t_now k)) as [[[] m1] log];
    [|done].
  destruct (fn_err k) as [e|].
  - by destruct (recordFailure (count m1 0 1 0 0 0) (config m) (t_rec1 k) (t_rec2 k)).
  - by destruct (recordSuccess (count m1 0 1 0 0 0) (config m) (t_rec1 k) (t_rec2 k)).
Qed.

Lemma allowExecution_config m c since now :
  config (allowExecution m c since now).1.2 = config m.
Proof.
  unfold allowExecution, admit_half_open. destruct (state m); [done| |].
  - destruct (transitionTime m); [|done]. repeat (zcase; simpl); done.
  - by zcase.
Qed.

Lemma exec_call_inv m k : breaker_inv m -> breaker_inv (exec_call m k).1.
Proof.
  intros Hm. rewrite exec_call_unfold by done.
  assert (breaker_inv (count m 1 0 0 0 0)) as H0 by exact Hm.
  pose proof (apply_op_inv _ (OpAllow (t_since k) (t_now k)) H0) as H1.
  pose proof (allowExecution_config (count m 1 0 0 0 0) (config m) (t_since k) (t_now k)) as Hc.
  simpl in H1, Hc.
  destruct (allowExecution (count m 1 0 0 0 0) (config m) (t_since k) (t_now k)) as [[ok m1] log].
  simpl in *. destruct ok; [|exact H1]. rewrite <- Hc.
  assert (breaker_inv (count m1 0 1 0 0 0)) as H2 by exact H1.
  destruct (fn_err k) as [e|]; simpl.
  - apply (apply_op_inv _ (OpFailure (t_rec1 k) (t_rec2 k)) H2).
  - apply (apply_op_inv _ (OpSuccess (t_rec1 k) (t_rec2 k)) H2).
Qed.

(** A successful probe, from a circuit that is half open after admission. *)
Definition probe_result (m m' : breakerManager) (h : Z) : Prop :=
  config m' = config m /\
  (if SuccessThreshold (config m) <=? h then state m' = StateClosed
   else state m' = StateHalfOpen /\ halfOpenRequests m' = h /\ consecutiveSuccesses m' = h).

Lemma record_probe m h n1 n2 :
  config_ok (config m) -> state m = StateHalfOpen ->
  halfOpenRequests m = h -> consecutiveSuccesses m = h - 1 -> 1 <= h <= max_i32 ->
  probe_result m (recordSuccess m (config m) n1 n2).1 h.
Proof.
  intros Hok Hst Hh Hcs Hr. pose proof (config_ok_i32 _ Hok) as (_ & ES & _).
  unfold recordSuccess, probe_result; simpl. rewrite Hst, ES, Hcs.
  rewrite i32_id by (widths; lia). replace (h - 1 + 1) with h by lia.
  zcase; simpl; [done|]. by rewrite ?Hst.
Qed.

Lemma exec_half_open_success m k h :
  breaker_inv m -> state m = StateHalfOpen -> fn_err k = None ->
  halfOpenRequests m = h -> consecutiveSuccesses m = h -> h < HalfOpenMaxRequests (config m) ->
  (exec_call m k).2 = None /\ probe_result m (exec_call m k).1 (h + 1).
Proof.
  intros Hm Hst Hfn Hh Hcs Hlt. pose proof Hm as (Hok & _ & Hs). rewrite Hst in Hs.
  pose proof (config_ok_i32 _ Hok) as (_ & _ & EH).
  rewrite exec_call_unfold by done. unfold allowExecution. simpl. rewrite Hst.
  unfold admit_half_open; simpl. rewrite EH.
  destruct (Z.leb_spec (HalfOpenMaxRequests (config m)) (halfOpenRequests m)); [lia|].
  rewrite Hfn. simpl. split; [done|].
  rewrite i32_id by (destruct Hok as (_&_&?&_); widths; lia).
  match goal with |- probe_result _ (recordSuccess ?x _ _ _).1 _ =>
    apply (record_probe x (h + 1)); simpl; try done; try lia end.
  destruct Hok as (_&_&?&_). widths. lia.
Qed.

Lemma exec_open_success m k t :
  breaker_inv m -> state m = StateOpen -> fn_err k = None ->
  transitionTime m = Some t -> Timeout (config m) <= t_since k - t ->
  (exec_call m k).2 = None /\ probe_result m (exec_call m k).1 1.
Proof.
  intros Hm Hst Hfn Ht Hto. pose proof Hm as (Hok & _).
  pose proof (config_ok_i32 _ Hok) as (_ & _ & EH).
  rewrite exec_call_unfold by done. unfold allowExecution. simpl. rewrite Hst.
  change (transitionTime (count m 1 0 0 0 0)) with (transitionTime m). rewrite Ht.
  destruct (Z.leb_spec (Timeout (config m)) (t_since k - t)); [|lia].
  unfold admit_half_open; simpl. rewrite EH.
  destruct (Z.leb_spec (HalfOpenMaxRequests (config m)) 0).
  { destruct Hok as (_&_&?&_). lia. }
  rewrite Hfn. simpl. split; [done|].
  match goal with |- probe_result _ (recordSuccess ?x _ _ _).1 _ =>
    apply (record_probe x 1); simpl; try done; try lia end.
Qed.

(** Consecutive successful probes of a half-open circuit. *)
Lemma half_open_run ks m h :
  breaker_inv m -> state m = StateHalfOpen ->
  halfOpenRequests m = h -> consecutiveSuccesses m = h ->
  Forall (fun k => fn_err k = None) ks -> ks <> [] ->
  h + Z.of_nat (length ks) <= HalfOpenMaxRequests (config m) ->
  h + Z.of_nat (length ks) <= SuccessThreshold (config m) ->
  (exec_calls m ks).2 = replicate (length ks) None /\
  breaker_inv (exec_calls m ks).1 /\
  probe_result m (exec_calls m ks).1 (h + Z.of_nat (length ks)).
Proof.
  revert m h. induction ks as [|k ks IH]; [done|].
  intros m h Hm Hst Hh Hcs [Hk Hks]%Forall_cons _ Hmax Hsuc. cbn [exec_calls length replicate].
  destruct (exec_half_open_success m k h) as [Hr Hp]; try done; [simpl in *; lia|].
  pose proof (exec_call_inv m k Hm) as Hm1.
  destruct (exec_call m k) as [m1 r]; simpl in Hr, Hp, Hm1; subst r.
  destruct ks as [|k' ks]; [simpl; replace (h + 1) with (h + Z.of_nat 1) in Hp by lia; done|].
  destruct Hp as [Hc Hp]. destruct (Z.leb_spec (SuccessThreshold (config m)) (h + 1)) as [Hle|Hgt].
  { simpl in *. lia. }
  destruct Hp as (Hst1 & Hh1 & Hcs1).
  destruct (IH m1 (h + 1)) as (E1 & E2 & E3); try done; rewrite ?Hc; try (simpl in *; lia).
  destruct (exec_calls m1 (k' :: ks)) as [m2 rs]. simpl in E1, E2, E3 |- *. subst rs.
  split; [done|]. split; [done|]. unfold probe_result in *. rewrite Hc in E3.
  replace (h + Z.of_nat (S (S (length ks)))) with (h + 1 + Z.of_nat (S (length ks))) by lia. done.
Qed.

(** Successful probes of an open circuit whose timeout has passed. *)
Lemma open_run k ks m t :
  breaker_inv m -> state m = StateOpen ->
  transitionTime m = Some t -> Timeout (config m) <= t_since k - t ->
  Forall (fun k => fn_err k = None) (k :: ks) ->
  Z.of_nat (length (k :: ks)) <= HalfOpenMaxRequests (config m) ->
  Z.of_nat (length (k :: ks)) <= SuccessThreshold (config m) ->
  (exec_calls m (k :: ks)).2 = replicate (length (k :: ks)) None /\
  breaker_inv (exec_calls m (k :: ks)).1 /\
  probe_result m (exec_calls m (k :: ks)).1 (Z.of_nat (length (k :: ks))).
Proof.
  intros Hm Hst Ht Hto [Hk Hks]%Forall_cons Hmax Hsuc. cbn [exec_calls length replicate].
  destruct (exec_open_success m k t) as [Hr Hp]; try done.
  pose proof (exec_call_inv m k Hm) as Hm1.
  destruct (exec_call m k) as [m1 r]; simpl in Hr, Hp, Hm1; subst r.
  destruct ks as [|k' ks]; [done|]. destruct Hp as [Hc Hp].
  destruct (Z.leb_spec (SuccessThreshold (config m)) 1) as [Hle|Hgt]; [simpl in *; lia|].
  destruct Hp as (Hst1 & Hh1 & Hcs1).
  destruct (half_open_run (k' :: ks) m1 1) as (E1 & E2 & E3); try done; rewrite ?Hc;
    try (simpl in *; lia).
  destruct (exec_calls m1 (k' :: ks)) as [m2 rs]. simpl in E1, E2, E3 |- *. subst rs.
  split; [done|]. split; [done|]. unfold probe_result in *. rewrite Hc in E3.
  replace (Z.of_nat (S (S (length ks)))) with (1 + Z.of_nat (S (length ks))) by lia. done.
Qed.

Lemma exec_calls_app m ks1 ks2 :
  exec_calls m (ks1 ++ ks2) =
  let '(m1, r1) := exec_calls m ks1 in
  let '(m2, r2) := exec_calls m1 ks2 in (m2, r1 ++ r2).
Proof.
  revert m. induction ks1 as [|k ks IH]; intros m; simpl.
  - by destruct (exec_calls m ks2).
  - destruct (exec_call m k) as [m1 r]. rewrite IH.
    destruct (exec_calls m1 ks) as [m2 rs]. by destruct (exec_calls m2 ks2).
Qed.

(** An open circuit whose timeout has passed, with SuccessThreshold at most
    HalfOpenMaxRequests, recovers: SuccessThreshold successful executions all
    return nil and close it. *)
Theorem open_circuit_recovers k ks m t :
  breaker_inv m -> state m = StateOpen ->
  transitionTime m = Some t -> Timeout (config m) <= t_since k - t ->
  SuccessThreshold (config m) <= HalfOpenMaxRequests (config m) ->
  Forall (fun k => fn_err k = None) (k :: ks) ->
  Z.of_nat (length (k :: ks)) = SuccessThreshold (config m) ->
  let '(m', rs) := exec_calls m (k :: ks) in
  state m' = StateClosed /\ Forall (fun r => r = None) rs /\ length rs = length (k :: ks).
Proof.
  intros Hm Hst Ht Hto Hle Hks Hlen.
  destruct (open_run k ks m t) as (E1 & _ & E2); try done; try lia.
  destruct (exec_calls m (k :: ks)) as [m' rs]. cbn [fst snd] in E1, E2.
  destruct E2 as [_ E2]. rewrite Hlen, Z.leb_refl in E2. subst rs.
  split; [done|]. split; [|by rewrite length_replicate]. by apply Forall_replicate.
Qed.

Definition tripped22 : breakerManager :=
  run_ops (NewManagerWithConfig (with_numbers DefaultConfig 2 2 10 2) 0)
    [OpFailure 1 1; OpFailure 2 2].

Lemma open_circuit_recovers_witness :
  state (exec_calls tripped22 [mkCall None 12 12 13 13; mkCall None 14 14 15 15]).1 = StateClosed.
Proof.
  assert (breaker_inv tripped22) as Hi by (apply run_ops_inv, NewManager_inv; vm_compute; discriminate).
  pose proof (open_circuit_recovers (mkCall None 12 12 13 13) [mkCall None 14 14 15 15]
    tripped22 2 Hi eq_refl eq_refl ltac:(vm_compute; discriminate)
    ltac:(vm_compute; discriminate) ltac:(repeat constructor) eq_refl) as H.
  destruct (exec_calls tripped22 _) as [m' rs]. apply H.
Defined.

(** A half-open circuit with all its probes admitted rejects every execution. *)
Lemma exhausted_stays ks m :
  breaker_inv m -> state m = StateHalfOpen ->
  halfOpenRequests m = HalfOpenMaxRequests (config m) ->
  state (exec_calls m ks).1 = StateHalfOpen /\
  (exec_calls m ks).2 = replicate (length ks) (Some (CIRCUIT_OPEN StateHalfOpen)).
Proof.
  revert m. induction ks as [|k ks IH]; intros m Hm Hst Hho; [done|]. cbn [exec_calls length replicate].
  pose proof (exec_call_inv m k Hm) as Hm1. pose proof Hm as (Hok & _).
  pose proof (config_ok_i32 _ Hok) as (_ & _ & EH).
  assert (exec_call m k =
    (count (count m 1 0 0 0 0) 0 0 1 0 0, Some (CIRCUIT_OPEN StateHalfOpen))) as E.
  { rewrite exec_call_unfold by done. unfold allowExecution, admit_half_open. simpl.
    rewrite Hst, EH, Hho, Z.leb_refl. simpl. by rewrite Hst. }
  rewrite E in *. simpl in Hm1.
  destruct (IH (count (count m 1 0 0 0 0) 0 0 1 0 0)) as [E1 E2]; try done.
  destruct (exec_calls _ ks) as [m2 rs]; simpl in *. by subst rs.
Qed.

(** With HalfOpenMaxRequests below SuccessThreshold the circuit never closes by
    itself: once the HalfOpenMaxRequests probes have succeeded, every later
    execution is rejected with CIRCUIT_OPEN and the state stays half open,
    however much time passes. *)
Theorem half_open_exhausted k ks later m t :
  breaker_inv m -> state m = StateOpen ->
  transitionTime m = Some t -> Timeout (config m) <= t_since k - t ->
  HalfOpenMaxRequests (config m) < SuccessThreshold (config m) ->
  Forall (fun k => fn_err k = None) (k :: ks) ->
  Z.of_nat (length (k :: ks)) = HalfOpenMaxRequests (config m) ->
  let '(m', rs) := exec_calls m ((k :: ks) ++ later) in
  state m' = StateHalfOpen /\
  rs = replicate (length (k :: ks)) None ++
       replicate (length later) (Some (CIRCUIT_OPEN StateHalfOpen)).
Proof.
  intros Hm Hst Ht Hto Hlt Hks Hlen. rewrite exec_calls_app.
  destruct (open_run k ks m t) as (E1 & Hm' & E2); try done; try lia.
  destruct (exec_calls m (k :: ks)) as [m1 r1]. cbn [fst snd] in E1, Hm', E2. subst r1.
  destruct E2 as [Ec E2]. rewrite Hlen in E2.
  destruct (Z.leb_spec (SuccessThreshold (config m)) (HalfOpenMaxRequests (config m))); [lia|].
  destruct E2 as (Hs & Hh & _).
  destruct (exhausted_stays later m1) as [F1 F2]; try done; [by rewrite Ec|].
  destruct (exec_calls m1 later) as [m2 r2]. cbn [fst snd] in F1, F2. by subst r2.
Qed.

Lemma half_open_exhausted_witness :
  state (exec_calls tripped ([mkCall None 12 12 13 13; mkCall None 14 14 15 15] ++
    [mkCall None 1000 1000 1001 1001])).1 = StateHalfOpen.
Proof.
  pose proof (half_open_exhausted (mkCall None 12 12 13 13) [mkCall None 14 14 15 15]
    [mkCall None 1000 1000 1001 1001] tripped 2 tripped_inv eq_refl eq_refl
    ltac:(vm_compute; discriminate) eq_refl ltac:(repeat constructor) eq_refl) as H.
  destruct (exec_calls tripped _) as [m' rs]. apply H.
Defined.

(** ** Accounting *)

Definition is_rejected (r : option exec_error) : bool :=
  match r with Some (CIRCUIT_OPEN _) => true | _ => false end.

Definition is_failed (r : option exec_error) : bool :=
  match r with Some (FN_ERROR _) => true | _ => false end.

Definition is_ok (r : option exec_error) : bool :=
  match r with None => true | _ => false end.

(** The number of results that satisfy [p]. *)
Definition tally (p : option exec_error -> bool) (rs : list (option exec_error)) : Z :=
  Z.of_nat (length (List.filter p rs)).

Definition stats_add (m m' : breakerManager) (ex al rej suc fai : Z) : Prop :=
  TotalExecutions m' = TotalExecutions m +i64 ex /\ TotalAllowed m' = TotalAllowed m +i64 al /\
  TotalRejected m' = TotalRejected m +i64 rej /\ TotalSuccessful m' = TotalSuccessful m +i64 suc /\
  TotalFailed m' = TotalFailed m +i64 fai.

Lemma allowExecution_stats m c since now ok m' log :
  allowExecution m c since now = (ok, m', log) ->
  TotalExecutions m' = TotalExecutions m /\ TotalAllowed m' = TotalAllowed m /\
  TotalRejected m' = TotalRejected m /\ TotalSuccessful m' = TotalSuccessful m /\
  TotalFailed m' = TotalFailed m.
Proof.
  unfold allowExecution, admit_half_open. intros E.
  destruct (state m); [by simplify_eq| |].
  - destruct (transitionTime m) as [t|]; [|by simplify_eq].
    repeat zcase_in E; by simplify_eq/=.
  - zcase_in E; by simplify_eq/=.
Qed.

Lemma exec_call_stats m k :
  breaker_inv m ->
  let '(m', r) := exec_call m k in
  stats_add m m' 1 (Z.b2z (negb (is_rejected r))) (Z.b2z (is_rejected r))
    (Z.b2z (is_ok r)) (Z.b2z (is_failed r)).
Proof.
  intros Hm. rewrite exec_call_unfold by done.
  destruct (allowExecution (count m 1 0 0 0 0) (config m) (t_since k) (t_now k))
    as [[ok m1] log] eqn:E.
  apply allowExecution_stats in E as (E1 & E2 & E3 & E4 & E5). simpl in *.
  destruct ok; [destruct (fn_err k); unfold recordFailure, recordSuccess; simpl; destruct (state m1); simpl|];
    try zcase; unfold stats_add; simpl; rewrite E1, E2, E3, E4, E5; split_and!; wrap_eq.
Qed.

Lemma exec_calls_stats ks m :
  breaker_inv m ->
  let '(m', rs) := exec_calls m ks in
  stats_add m m' (Z.of_nat (length ks)) (tally (fun r => negb (is_rejected r)) rs)
    (tally is_rejected rs) (tally is_ok rs) (tally is_failed rs) \/ ks = [].
Proof.
  revert m. induction ks as [|k ks IH]; intros m Hm; cbn [exec_calls]; [by right|].
  pose proof (exec_call_stats m k Hm) as H1. pose proof (exec_call_inv m k Hm) as Hm1.
  destruct (exec_call m k) as [m1 r]. specialize (IH m1 Hm1).
  destruct (exec_calls m1 ks) as [m2 rs] eqn:E. left. destruct IH as [H2 | ->].
  - destruct H1 as (A1 & A2 & A3 & A4 & A5), H2 as (B1 & B2 & B3 & B4 & B5).
    unfold stats_add, tally in *. rewrite B1, B2, B3, B4, B5, A1, A2, A3, A4, A5.
    cbn [length List.filter]. rewrite Nat2Z.inj_succ.
    destruct r as [[]|]; cbn [is_rejected is_ok is_failed negb Z.b2z length];
      rewrite ?Nat2Z.inj_succ; split_and!; wrap_eq.
  - simpl in E. simplify_eq. unfold tally. cbn [List.filter length].
    by destruct r as [[]|].
Qed.

(** After any sequence of executions of a new breaker the statistics are the
    counts of the results the callers saw: executions, rejections (CIRCUIT_OPEN),
    admissions (every other result), successes (nil) and failures (the
    function's own error), each as a 64-bit counter. *)
Theorem breaker_stats_exact c now k ks :
  FailureThreshold c <= max_i32 -> SuccessThreshold c <= max_i32 ->
  HalfOpenMaxRequests c <= max_i32 ->
  let '(m, rs) := exec_calls (NewManagerWithConfig c now) (k :: ks) in
  TotalExecutions m = i64 (Z.of_nat (length (k :: ks))) /\
  TotalRejected m = i64 (tally is_rejected rs) /\
  TotalAllowed m = i64 (tally (fun r => negb (is_rejected r)) rs) /\
  TotalSuccessful m = i64 (tally is_ok rs) /\
  TotalFailed m = i64 (tally is_failed rs).
Proof.
  intros ? ? ?. pose proof (exec_calls_stats (k :: ks) (NewManagerWithConfig c now)) as Hs.
  destruct (exec_calls _ (k :: ks)) as [m rs].
  destruct Hs as [(E1 & E2 & E3 & E4 & E5)|?]; [by apply NewManager_inv| |done].
  rewrite E1, E2, E3, E4, E5. done.
Qed.

Lemma breaker_stats_exact_witness :
  let '(m, rs) := exec_calls (NewManagerWithConfig (with_numbers DefaultConfig 1 1 10 1) 0)
    [mkCall (Some 7) 1 1 2 2; mkCall None 3 3 4 4] in
  TotalRejected m = i64 (tally is_rejected rs).
Proof.
  pose proof (breaker_stats_exact (with_numbers DefaultConfig 1 1 10 1) 0
    (mkCall (Some 7) 1 1 2 2) [mkCall None 3 3 4 4] ltac:(vm_compute; discriminate)
    ltac:(vm_compute; discriminate) ltac:(vm_compute; discriminate)) as H.
  destruct (exec_calls _ _) as [m rs]. apply H.
Defined.

(** ** Overlapping admissions

    [allowExecution] in its atomic steps; only the fields it uses are kept. *)
Inductive admission : Type :=
| AdState                      (** about to load the state *)
| AdTimes                      (** open: about to read the times and the clock *)
| AdSwap                       (** the timeout has passed: about to swap the state *)
| AdLost                       (** the swap failed: about to load the state again *)
| AdReset                      (** won the swap: about to reset the counters *)
| AdLoad                       (** half open: about to load [halfOpenRequests] *)
| AdAdd                        (** below the maximum: about to increment it *)
| AdDone (ok : bool).

(** One step of a call at [p] when the clock reads [now]. *)
Definition admission_step (m : breakerManager) (p : admission) (now : Z) :
    option (breakerManager * admission) :=
  let c := config m in
  match p with
  | AdState =>
      Some (m, match state m with
               | StateClosed => AdDone true
               | StateOpen => AdTimes
               | StateHalfOpen => AdLoad
               end)
  | AdTimes =>
      Some (m, match transitionTime m with
               | Some t => if Timeout c <=? now - t then AdSwap else AdDone false
               | None => AdDone false
               end)
  | AdSwap =>
      match state m with
      | StateOpen =>
          Some (set_circuit m StateHalfOpen (consecutiveFailures m) (consecutiveSuccesses m)
                  (halfOpenRequests m) (lastStateChangeTime m), AdReset)
      | _ => Some (m, AdLost)
      end
  | AdLost =>
      Some (m, match state m with StateHalfOpen => AdLoad | _ => AdDone false end)
  | AdReset => Some (set_circuit m (state m) 0 0 0 (Some now), AdLoad)
  | AdLoad =>
      Some (m, if i32 (HalfOpenMaxRequests c) <=? halfOpenRequests m then AdDone false else AdAdd)
  | AdAdd =>
      Some (set_circuit m (state m) (consecutiveFailures m) (consecutiveSuccesses m)
              (halfOpenRequests m +i32 1) (lastStateChangeTime m), AdDone true)
  | AdDone _ => None
  end.

Fixpoint run_admissions (m : breakerManager) (ps : list admission) (sched : list (nat * Z)) :
    option (breakerManager * list admission) :=
  match sched with
  | [] => Some (m, ps)
  | (i, now) :: sched =>
      match ps !! i with
      | None => None
      | Some p =>
          match admission_step m p now with
          | None => None
          | Some (m', p') => run_admissions m' (<[i := p']> ps) sched
          end
      end
  end.

(** A call that runs alone steps through to what [allowExecution] computes. *)
Lemma admission_alone m now :
  breaker_inv m -> state m <> StateClosed ->
  exists sched m' ok, Forall (fun w => w = (0%nat, now)) sched /\
    run_admissions m [AdState] sched = Some (m', [AdDone ok]) /\
    allowExecution m (config m) now now = (ok, m', (allowExecution m (config m) now now).2).
Proof.
  intros Hm Hst. unfold allowExecution, admit_half_open.
  destruct (state m) eqn:Es; [done| |].
  - destruct (transitionTime m) as [t|] eqn:Et.
    + destruct (Z.leb_spec (Timeout (config m)) (now - t)) as [Hle|Hgt].
      * exists (replicate 6 (0%nat, now)). pose proof Hm as (Hok & _).
        pose proof (config_ok_i32 _ Hok) as (_ & _ & EH). destruct Hok as (_ & _ & ? & _).
        cbn [replicate run_admissions lookup list_lookup admission_step]. rewrite Es. simpl. rewrite Et.
        destruct (Z.leb_spec (Timeout (config m)) (now - t)); [|lia]. simpl. rewrite Es. simpl.
        rewrite EH. destruct (Z.leb_spec (HalfOpenMaxRequests (config m)) 0); [lia|].
        simpl. eexists _, _. split; [repeat constructor|]. split; [reflexivity|]. reflexivity.
      * exists (replicate 2 (0%nat, now)). simpl. rewrite Es. simpl. rewrite Et.
        destruct (Z.leb_spec (Timeout (config m)) (now - t)); [lia|].
        eexists _, _. split; [repeat constructor|]. split; reflexivity.
    + exists (replicate 2 (0%nat, now)). simpl. rewrite Es. simpl. rewrite Et.
      eexists _, _. split; [repeat constructor|]. split; reflexivity.
  - destruct (Z.leb_spec (i32 (HalfOpenMaxRequests (config m))) (halfOpenRequests m)) as [Hle|Hgt].
    + exists (replicate 2 (0%nat, now)). simpl. rewrite Es. simpl.
      destruct (Z.leb_spec (i32 (HalfOpenMaxRequests (config m))) (halfOpenRequests m)); [|lia].
      eexists _, _. split; [repeat constructor|]. split; reflexivity.
    + exists (replicate 3 (0%nat, now)). simpl. rewrite Es. simpl.
      destruct (Z.leb_spec (i32 (HalfOpenMaxRequests (config m))) (halfOpenRequests m)); [lia|].
      simpl. eexists _, _. split; [repeat constructor|]. split; [reflexivity|].
      by rewrite Es.
Qed.

(** The load and the increment of halfOpenRequests are separate: two admissions
    that overlap in a half-open circuit with room for one probe are both
    admitted. *)
Theorem half_open_race_over_admits :
  exists m sched m', breaker_inv m /\ state m = StateOpen /\ HalfOpenMaxRequests (config m) = 1 /\
    run_admissions m [AdState; AdState] sched = Some (m', [AdDone true; AdDone true]) /\
    state m' = StateHalfOpen /\ halfOpenRequests m' = 2.
Proof.
  exists (run_ops (NewManagerWithConfig (with_numbers DefaultConfig 1 1 10 1) 0) [OpFailure 1 1]).
  exists [(0%nat, 11); (0%nat, 11); (0%nat, 11); (0%nat, 11); (1%nat, 11); (0%nat, 11); (1%nat, 11);
          (0%nat, 11); (1%nat, 11)].
  eexists. split; [apply run_ops_inv, NewManager_inv; vm_compute; discriminate|].
  split; [reflexivity|]. split; [reflexivity|]. split; [vm_compute; reflexivity|]. done.
Qed.
