(* ===== verification/Limiter.v ===== *)
(** * Token bucket rate limiter (pkg/core/resilience/limiter/limiter.go)

    The bucket is [tokens] and [lastRefill]; every reading of the clock is an
    argument (nanoseconds).  The first part takes [consumeToken] as one step, as
    when calls do not overlap; the last part splits it into its atomic steps and
    lets calls overlap.  [waitForToken] runs over the observations it makes, one
    [tick] per iteration of its loop. *)
From Stdlib Require Import Sorting.Sorted.
From S2P Require Import Prelude.

(** The callbacks of [Config] are observers only and are left out. *)
Record Config : Type := mkConfig {
  Rate : Z;
  Interval : Z;
  Burst : Z
}.

Definition DefaultConfig : Config := {| Rate := 10; Interval := 1000000000; Burst := 0 |}.

(** [NewManagerWithConfig] normalises against the defaults, the [WithConfig]
    methods against the manager's own configuration. *)
Definition normalize (fallback c : Config) : Config :=
  let rate := if Rate c <=? 0 then Rate fallback else Rate c in
  {| Rate := rate;
     Interval := if Interval c <=? 0 then Interval fallback else Interval c;
     Burst := if Burst c <=? 0 then rate else Burst c |}.

Record limiterManager : Type := mkLimiter {
  config : Config;
  tokens : Z;
  lastRefill : Z;
  TotalExecutions : Z;
  TotalAllowed : Z;
  TotalRateLimited : Z;
  TotalSuccessful : Z;
  TotalFailed : Z;
  LastExecutionTime : option Z
}.

Definition NewManagerWithConfig (c : Config) (now : Z) : limiterManager :=
  let c := normalize DefaultConfig c in
  {| config := c; tokens := Burst c; lastRefill := now;
     TotalExecutions := 0; TotalAllowed := 0; TotalRateLimited := 0;
     TotalSuccessful := 0; TotalFailed := 0; LastExecutionTime := None |}.

Definition set_bucket (m : limiterManager) (tk last : Z) : limiterManager :=
  {| config := config m; tokens := tk; lastRefill := last;
     TotalExecutions := TotalExecutions m; TotalAllowed := TotalAllowed m;
     TotalRateLimited := TotalRateLimited m; TotalSuccessful := TotalSuccessful m;
     TotalFailed := TotalFailed m; LastExecutionTime := LastExecutionTime m |}.

Definition count (m : limiterManager) (ex al lim suc fai : Z) : limiterManager :=
  {| config := config m; tokens := tokens m; lastRefill := lastRefill m;
     TotalExecutions := TotalExecutions m +i64 ex; TotalAllowed := TotalAllowed m +i64 al;
     TotalRateLimited := TotalRateLimited m +i64 lim;
     TotalSuccessful := TotalSuccessful m +i64 suc; TotalFailed := TotalFailed m +i64 fai;
     LastExecutionTime := LastExecutionTime m |}.

Definition set_last (m : limiterManager) (now : Z) : limiterManager :=
  {| config := config m; tokens := tokens m; lastRefill := lastRefill m;
     TotalExecutions := TotalExecutions m; TotalAllowed := TotalAllowed m;
     TotalRateLimited := TotalRateLimited m; TotalSuccessful := TotalSuccessful m;
     TotalFailed := TotalFailed m; LastExecutionTime := Some now |}.

(** The time per token, one millisecond when the division gives zero; [Z.quot]
    is Go's division. *)
Definition refillRate (c : Config) : Z :=
  let r := Z.quot (Interval c) (Rate c) in
  if r <=? 0 then 1000000 else r.

(** The new token count and refill time, or [None] when nothing is refilled. *)
Definition refill_amount (c : Config) (current last now : Z) : option Z :=
  let elapsed := now - last in
  if elapsed <? Interval c then None
  else
    let tokensToAdd := Z.quot elapsed (refillRate c) in
    if tokensToAdd <=? 0 then None
    else
      let newTokens := current +i64 tokensToAdd in
      Some (if Burst c <? newTokens then Burst c else newTokens).

Definition refillTokens (m : limiterManager) (c : Config) (now : Z) : limiterManager :=
  match refill_amount c (tokens m) (lastRefill m) now with
  | None => m
  | Some newTokens => set_bucket m newTokens now
  end.

(** Without a concurrent writer the compare-and-swap succeeds at once. *)
Definition consumeToken (m : limiterManager) (c : Config) (now : Z) : bool * limiterManager :=
  let m := refillTokens m c now in
  if tokens m <=? 0 then (false, m)
  else (true, set_bucket m (tokens m - 1) (lastRefill m)).

Definition AllowWithConfig (m : limiterManager) (ctxNil : bool) (c : Config) (now : Z) :
    bool * limiterManager :=
  if ctxNil then (false, m) else consumeToken m (normalize (config m) c) now.

Definition Allow (m : limiterManager) (ctxNil : bool) (now : Z) :=
  AllowWithConfig m ctxNil (config m) now.

(** ** Waiting *)

(** What one iteration of the wait loop sees: the context when it is polled, the
    clock in [consumeToken], and the context when the second select returns
    ([CtxLive] when the timer fires). *)
Record tick : Type := mkTick {
  poll : ctx_status;
  clock : Z;
  wake : ctx_status
}.

Definition next_wait (c : Config) (waitTime : Z) : Z :=
  let w := i64 (waitTime * 2) in
  if Interval c <? w then Interval c else w.

(** The result is [None] while the call is still waiting after the given ticks. *)
Fixpoint wait_loop (m : limiterManager) (c : Config) (waitTime : Z) (ts : list tick) :
    option (ctx_status * limiterManager) :=
  match ts with
  | [] => None
  | t :: ts =>
      if ctx_done (poll t) then Some (poll t, m)
      else
        let '(ok, m) := consumeToken m c (clock t) in
        if ok then Some (CtxLive, m)
        else if ctx_done (wake t) then Some (wake t, m)
        else wait_loop m c (next_wait c waitTime) ts
  end.

(** [Some (CtxLive, m)] is a nil error, the other statuses are [ctx.Err()]. *)
Definition waitForToken (m : limiterManager) (c : Config) (now : Z) (ts : list tick) :
    option (ctx_status * limiterManager) :=
  let '(ok, m) := consumeToken m c now in
  if ok then Some (CtxLive, m)
  else wait_loop m c (refillRate c) ts.

Inductive limiter_error : Type :=
| NIL_CONTEXT
| NIL_FUNCTION
| CONTEXT_TIMEOUT
| CONTEXT_CANCELED
| FN_ERROR (e : Z).

Definition WaitWithConfig (m : limiterManager) (ctxNil : bool) (c : Config) (now : Z)
    (ts : list tick) : option (result limiter_error ctx_status * limiterManager) :=
  if ctxNil then Some (Err NIL_CONTEXT, m)
  else
    match waitForToken m (normalize (config m) c) now ts with
    | None => None
    | Some (st, m) => Some (Ok st, m)
    end.

(** [fnErr] is what the function returns, [now1] the clock of the first
    [consumeToken], [now2] and [ts] those of [waitForToken], [now3] the clock
    after the function. *)
Definition ExecuteWithConfig (m : limiterManager) (ctxNil fnNil : bool) (fnErr : option Z)
    (c : Config) (now1 now2 : Z) (ts : list tick) (now3 : Z) :
    option (limiterManager * option limiter_error) :=
  if ctxNil then Some (m, Some NIL_CONTEXT)
  else if fnNil then Some (m, Some NIL_FUNCTION)
  else
    let c := normalize (config m) c in
    let m := count m 1 0 0 0 0 in
    let admitted :=
      let '(ok, m) := consumeToken m c now1 in
      if ok then Some (CtxLive, m) else waitForToken m c now2 ts in
    match admitted with
    | None => None
    | Some (CtxDeadlineExceeded, m) => Some (count m 0 0 1 0 0, Some CONTEXT_TIMEOUT)
    | Some (CtxCanceled, m) => Some (count m 0 0 1 0 0, Some CONTEXT_CANCELED)
    | Some (CtxLive, m) =>
        let m := set_last (count m 0 1 0 0 0) now3 in
        match fnErr with
        | None => Some (count m 0 0 0 1 0, None)
        | Some e => Some (count m 0 0 0 0 1, Some (FN_ERROR e))
        end
    end.

Definition Execute (m : limiterManager) (ctxNil fnNil : bool) (fnErr : option Z)
    (now1 now2 : Z) (ts : list tick) (now3 : Z) :=
  ExecuteWithConfig m ctxNil fnNil fnErr (config m) now1 now2 ts now3.

(** [Stats] refills before it reads the bucket. *)
Definition Stats (m : limiterManager) (now : Z) : limiterManager := refillTokens m (config m) now.

(** ** The bucket *)

(** Sizes for which no 64-bit sum of the limiter overflows. *)
Definition config_ok (c : Config) : Prop :=
  0 < Rate c /\ 0 < Interval c < 2 ^ 62 /\ 0 < Burst c <= 2 ^ 61.

Definition bucket_ok (m : limiterManager) : Prop :=
  config_ok (config m) /\ 0 <= tokens m <= Burst (config m).

Lemma normalize_idem c : config_ok c -> normalize c c = c.
Proof.
  intros (H1 & H2 & H3). destruct c; unfold normalize; simpl in *. repeat zcase; lia || done.
Qed.

Lemma refillRate_pos c : 0 < refillRate c.
Proof. unfold refillRate. zcase; lia. Qed.

(** A refill adds one token per [refillRate] elapsed, as far as the bucket holds. *)
Lemma refill_amount_spec c current last now :
  config_ok c -> 0 <= current <= Burst c -> 0 <= now - last <= 2 ^ 62 ->
  match refill_amount c current last now with
  | None => now - last < Interval c \/ now - last < refillRate c
  | Some n =>
      Interval c <= now - last /\ 1 <= (now - last) / refillRate c /\
      n = Z.min (Burst c) (current + (now - last) / refillRate c)
  end.
Proof.
  intros (H1 & H2 & H3) Hc Hn. pose proof (refillRate_pos c) as Hr. unfold refill_amount.
  destruct (Z.ltb_spec (now - last) (Interval c)); [lia|].
  rewrite Z.quot_div_nonneg by lia.
  assert (0 <= (now - last) / refillRate c <= now - last).
  { split; [apply Z.div_pos; lia|]. apply Z.div_le_upper_bound; nia. }
  destruct (Z.leb_spec ((now - last) / refillRate c) 0) as [Hz|Hz].
  - right. assert ((now - last) / refillRate c = 0) as Hz' by lia.
    apply Z.div_small_iff in Hz'; lia.
  - split; [lia|]. split; [lia|].
    rewrite i64_id by (widths; change (2^61) with 2305843009213693952 in *;
      change (2^62) with 4611686018427387904 in *; lia).
    zcase; lia.
Qed.

Lemma consumeToken_spec m now :
  bucket_ok m -> 0 <= now - lastRefill m <= 2 ^ 62 ->
  let '(ok, m') := consumeToken m (config m) now in
  bucket_ok m' /\ config m' = config m /\ lastRefill m <= lastRefill m' <= now /\
  tokens m' + Z.b2z ok <=
    tokens m + (lastRefill m' - lastRefill m) / refillRate (config m) /\
  (ok = false -> tokens m' = 0 /\ tokens m = 0 /\ lastRefill m' = lastRefill m).
Proof.
  intros (Hok & Ht) Hn. unfold consumeToken, refillTokens.
  pose proof (refill_amount_spec (config m) (tokens m) (lastRefill m) now Hok Ht Hn) as Hs.
  destruct (refill_amount _ _ _ _) as [n|].
  - destruct Hs as (_ & Hge & ->). cbn [tokens set_bucket lastRefill].
    assert (Hok' := Hok). destruct Hok' as (_ & _ & ?).
    zcase; [lia|]. unfold bucket_ok; simpl. split_and!; try done; try lia.
  - pose proof (refillRate_pos (config m)).
    zcase; unfold bucket_ok; simpl; rewrite Z.sub_diag, Z.div_0_l by lia;
      split_and!; try done; lia.
Qed.

(** ** The rate *)

(** Successive non-overlapping calls of [Allow] at the given times, with the
    number of calls admitted. *)
Fixpoint allow_calls (m : limiterManager) (ts : list Z) : Z * limiterManager :=
  match ts with
  | [] => (0, m)
  | t :: ts =>
      let '(ok, m) := Allow m false t in
      let '(n, m) := allow_calls m ts in
      (Z.b2z ok + n, m)
  end.

Lemma div_add_le a b r : 0 < r -> a / r + b / r <= (a + b) / r.
Proof.
  intros Hr. apply Z.div_le_lower_bound; [done|].
  pose proof (Z.mul_div_le a r Hr). pose proof (Z.mul_div_le b r Hr). lia.
Qed.

Lemma Allow_eq m now : bucket_ok m -> Allow m false now = consumeToken m (config m) now.
Proof. intros [Hok _]. unfold Allow, AllowWithConfig. by rewrite normalize_idem. Qed.

Lemma allow_calls_budget ts m T :
  bucket_ok m -> T - lastRefill m <= 2 ^ 62 ->
  StronglySorted Z.le (lastRefill m :: ts) -> Forall (fun t => t <= T) ts ->
  let '(n, m') := allow_calls m ts in
  bucket_ok m' /\ config m' = config m /\ lastRefill m <= lastRefill m' /\
  lastRefill m' <= Z.max (lastRefill m) T /\
  tokens m' + n <= tokens m + (lastRefill m' - lastRefill m) / refillRate (config m).
Proof.
  revert m. induction ts as [|t ts IH]; intros m Hm HT Hs Hle; cbn [allow_calls].
  { rewrite Z.sub_diag, Z.div_0_l by (pose proof (refillRate_pos (config m)); lia).
    split_and!; try done; lia. }
  apply Forall_cons in Hle as [Ht Hle]. 
  apply StronglySorted_inv in Hs as [Hs [Hlt _]%Forall_cons].
  apply StronglySorted_inv in Hs as [Hs Hts].
  rewrite Allow_eq by done. pose proof (consumeToken_spec m t Hm) as Hc.
  destruct (consumeToken m (config m) t) as [ok m1].
  destruct Hc as (Hm1 & Ec & Hl & Hb & _); [lia|].
  specialize (IH m1 Hm1). rewrite Ec in IH.
  destruct (allow_calls m1 ts) as [n m2].
  destruct IH as (Hm2 & Ec2 & Hl2 & HT2 & Hb2); [lia| |done|].
  { constructor; [done|]. eapply Forall_impl; [exact Hts|]. simpl. intros. lia. }
  split_and!; try done; try lia; try congruence.
  - pose proof (div_add_le (lastRefill m1 - lastRefill m) (lastRefill m2 - lastRefill m1)
      (refillRate (config m)) (refillRate_pos _)) as Hd.
    replace (lastRefill m1 - lastRefill m + (lastRefill m2 - lastRefill m1))
      with (lastRefill m2 - lastRefill m) in Hd by lia. lia.
Qed.

(** Over non-overlapping calls up to time T the limiter admits at most the tokens
    it held plus one per [refillRate] elapsed since its last refill. *)
Theorem limiter_rate_bound m ts T :
  bucket_ok m -> lastRefill m <= T <= lastRefill m + 2 ^ 62 ->
  StronglySorted Z.le (lastRefill m :: ts) -> Forall (fun t => t <= T) ts ->
  (allow_calls m ts).1 <= tokens m + (T - lastRefill m) / refillRate (config m).
Proof.
  intros Hm HT Hs Hle. pose proof (allow_calls_budget ts m T Hm) as Hb.
  destruct (allow_calls m ts) as [n m']. destruct Hb as ((_ & Ht) & _ & Hl & HT' & Hb); try done; [lia|].
  simpl. assert ((lastRefill m' - lastRefill m) / refillRate (config m) <=
    (T - lastRefill m) / refillRate (config m)).
  { apply Z.div_le_mono; [apply refillRate_pos|lia]. }
  lia.
Qed.

Definition limiter2 : limiterManager := NewManagerWithConfig (mkConfig 2 10 0) 0.

Lemma limiter_rate_bound_witness :
  (allow_calls limiter2 [1; 2; 3; 11; 12; 13]).1 <= 2 + 13 / 5.
Proof.
  apply (limiter_rate_bound limiter2 [1; 2; 3; 11; 12; 13] 13).
  - vm_compute. repeat split; discriminate.
  - vm_compute. split; discriminate.
  - repeat constructor; vm_compute; discriminate.
  - repeat constructor; vm_compute; discriminate.
Defined.

(** ** Waiting ends *)

(** A call made a full interval after the last refill is admitted. *)
Lemma consume_after_interval m now :
  bucket_ok m -> Rate (config m) <= Interval (config m) ->
  Interval (config m) <= now - lastRefill m <= 2 ^ 62 ->
  (consumeToken m (config m) now).1 = true.
Proof.
  intros (Hok & Ht) Hr Hn. unfold consumeToken, refillTokens.
  pose proof (refill_amount_spec (config m) (tokens m) (lastRefill m) now Hok Ht) as Hs.
  destruct (refill_amount _ _ _ _) as [n|]; cbn [tokens set_bucket].
  - destruct Hs as (_ & Hge & ->); [destruct Hok; lia|]. destruct Hok as (_ & _ & ?). zcase; [lia|done].
  - destruct Hs as [?|Hs]; [destruct Hok; lia|lia|]. exfalso.
    destruct Hok as (? & ? & ?). unfold refillRate in Hs. rewrite Z.quot_div_nonneg in Hs by lia.
    assert (1 <= Interval (config m) / Rate (config m)) by (apply Z.div_le_lower_bound; lia).
    assert (Interval (config m) / Rate (config m) <= Interval (config m))
      by (apply Z.div_le_upper_bound; nia).
    zcase_in Hs; lia.
Qed.

(** The ticks of a wait that is not cancelled: each iteration starts at least the
    wait time after the previous one. *)
Fixpoint timed (c : Config) (start waitTime : Z) (ts : list tick) : Prop :=
  match ts with
  | [] => True
  | t :: ts =>
      poll t = CtxLive /\ wake t = CtxLive /\ start <= clock t /\
      timed c (clock t + waitTime) (next_wait c waitTime) ts
  end.

Lemma next_wait_spec c w :
  config_ok c -> 0 < w < 2 ^ 62 -> next_wait c w = Z.min (Interval c) (2 * w).
Proof.
  intros _ Hw. unfold next_wait. change (2 ^ 62) with 4611686018427387904 in Hw.
  rewrite i64_id by (widths; lia). zcase; lia.
Qed.

(** The time spent in [n] waits that start with [w]. *)
Fixpoint total_wait (c : Config) (w : Z) (n : nat) : Z :=
  match n with
  | O => 0
  | S n => w + total_wait c (next_wait c w) n
  end.

Lemma total_wait_nonneg c w n : config_ok c -> 0 < w <= Interval c -> 0 <= total_wait c w n.
Proof.
  intros Hok. revert w. induction n as [|n IH]; intros w Hw; simpl; [done|].
  destruct Hok as (?&?&?). specialize (IH (next_wait c w)).
  rewrite next_wait_spec in * by (done || lia). lia.
Qed.

(** Doubling makes the waits cover an interval after logarithmically many. *)
Lemma total_wait_grows c w n :
  config_ok c -> 0 < w <= Interval c ->
  Z.min (Interval c) ((2 ^ Z.of_nat n - 1) * w) <= total_wait c w n.
Proof.
  intros Hok. revert w. induction n as [|n IH]; intros w Hw; cbn [total_wait].
  { simpl. lia. }
  assert (Hok' := Hok). destruct Hok' as (?&?&?). specialize (IH (next_wait c w)).
  pose proof (total_wait_nonneg c (next_wait c w) n Hok) as Hnn.
  rewrite next_wait_spec in * by (done || lia).
  rewrite Nat2Z.inj_succ, Z.pow_succ_r by lia.
  assert (1 <= 2 ^ Z.of_nat n) by (apply (Z.pow_le_mono_r 2 0); lia).
  destruct (Z.le_gt_cases (2 * w) (Interval c)).
  - replace (Z.min (Interval c) (2 * w)) with (2 * w) in * by lia. lia.
  - replace (Z.min (Interval c) (2 * w)) with (Interval c) in * by lia. specialize (IH ltac:(lia)).
    destruct (decide (n = 0%nat)) as [->|Hn]; [simpl in *; lia|].
    assert (2 <= 2 ^ Z.of_nat n) by (apply (Z.pow_le_mono_r 2 1); lia). nia.
Qed.

Lemma wait_loop_ends ts m start w :
  bucket_ok m -> Rate (config m) <= Interval (config m) -> ts <> [] ->
  lastRefill m <= start -> 0 < w <= Interval (config m) ->
  timed (config m) start w ts -> Forall (fun t => clock t <= lastRefill m + 2 ^ 62) ts ->
  Interval (config m) <= start - lastRefill m + total_wait (config m) w (pred (length ts)) ->
  exists m', wait_loop m (config m) w ts = Some (CtxLive, m').
Proof.
  revert m start w. induction ts as [|t ts IH]; intros m start w Hm Hr Hne Hs Hw Ht Hcl Hi; [done|].
  cbn [timed wait_loop] in *. destruct Ht as (-> & -> & Hst & Ht). cbn [ctx_done].
  apply Forall_cons in Hcl as [Hc1 Hcl].
  destruct (decide (Interval (config m) <= clock t - lastRefill m)) as [Hge|Hlt].
  { pose proof (consume_after_interval m (clock t) Hm Hr) as Hc.
    destruct (consumeToken m (config m) (clock t)) as [ok m1]. simpl in Hc. rewrite Hc by lia. eauto. }
  pose proof (consumeToken_spec m (clock t) Hm ltac:(lia)) as Hc.
  destruct (consumeToken m (config m) (clock t)) as [[] m1]; [eauto|].
  destruct Hc as (Hm1 & Ec & _ & _ & (_ & _ & El)); [done|].
  destruct ts as [|t' ts]; [simpl in Hi; lia|].
  rewrite <- Ec in *. apply (IH m1 (clock t + w) (next_wait (config m1) w)); try done; rewrite ?El; try done.
  - lia.
  - destruct Hm1 as ((?&?&?)&_). rewrite next_wait_spec by (done || lia). lia.
  - cbn [pred length total_wait] in Hi |- *. lia.
Qed.

(** A wait that is not cancelled gets a token after logarithmically many polls in
    the rate, whatever the bucket held: the doubling waits cover an interval,
    and a full interval after the last refill there is a token. *)
Theorem waitForToken_returns m now ts :
  bucket_ok m -> Rate (config m) <= Interval (config m) -> lastRefill m <= now ->
  Forall (fun t => clock t <= lastRefill m + 2 ^ 62) (mkTick CtxLive now CtxLive :: ts) ->
  timed (config m) now (refillRate (config m)) ts ->
  2 * Rate (config m) + 1 <= 2 ^ Z.of_nat (pred (length ts)) ->
  exists m', waitForToken m (config m) now ts = Some (CtxLive, m').
Proof.
  intros Hm Hr Hl [Hc1 Hcl]%Forall_cons Ht Hn. simpl in Hc1.
  assert (Hok := Hm). destruct Hok as [Hok _]. assert (Hok' := Hok). destruct Hok' as (H1 & H2 & H3).
  unfold waitForToken. pose proof (consumeToken_spec m now Hm ltac:(lia)) as Hc.
  destruct (consumeToken m (config m) now) as [[] m1]; [eauto|].
  destruct Hc as (Hm1 & Ec & _ & _ & (_ & _ & El)); [done|].
  set (c := config m) in *. remember (Interval c / Rate c) as q eqn:Hq.
  assert (1 <= q) by (subst q; apply Z.div_le_lower_bound; lia).
  assert (q <= Interval c) by (subst q; apply Z.div_le_upper_bound; nia).
  assert (refillRate c = q) as Eq.
  { unfold refillRate. rewrite Z.quot_div_nonneg, <- Hq by lia. zcase; lia. }
  assert (Interval c < 2 * Rate c * q).
  { pose proof (Z.div_mod (Interval c) (Rate c)). pose proof (Z.mod_pos_bound (Interval c) (Rate c)).
    rewrite <- Hq in *. nia. }
  rewrite Eq in *. rewrite <- Ec. apply (wait_loop_ends ts m1 now q); rewrite ?Ec, ?El; try done.
  - intros ->. simpl in Hn. lia.
  - lia.
  - pose proof (total_wait_grows c q (pred (length ts)) Hok). nia.
Qed.

Lemma waitForToken_returns_witness :
  exists m', waitForToken (consumeToken (consumeToken limiter2 (config limiter2) 1).2
      (config limiter2) 2).2 (config limiter2) 3
      [mkTick CtxLive 3 CtxLive; mkTick CtxLive 8 CtxLive; mkTick CtxLive 18 CtxLive;
       mkTick CtxLive 28 CtxLive] = Some (CtxLive, m').
Proof.
  apply (waitForToken_returns (consumeToken (consumeToken limiter2 (config limiter2) 1).2
    (config limiter2) 2).2 3).
  - vm_compute. repeat split; discriminate.
  - vm_compute. discriminate.
  - vm_compute. discriminate.
  - repeat constructor; vm_compute; discriminate.
  - vm_compute. repeat split; discriminate.
  - vm_compute. discriminate.
Defined.

(** ** Overlapping calls

    [consumeToken] is not one step: the refill runs under [mu] but loads and
    stores [tokens] separately, and the loop loads and then swaps.  A call is at
    one of these points. *)
Inductive pc : Type :=
| PcRefill                         (** before [mu.Lock] *)
| PcStore (newTokens now : Z)      (** [mu] held, [tokens] loaded *)
| PcLoad                           (** at the head of the loop *)
| PcCas (current : Z)              (** about to swap *)
| PcDone (ok : bool).

Record shared : Type := mkShared {
  sTokens : Z;
  sLastRefill : Z;
  sLocked : bool;
  calls : list pc
}.

Definition new_shared (c : Config) (now : Z) (n : nat) : shared :=
  {| sTokens := Burst c; sLastRefill := now; sLocked := false; calls := replicate n PcRefill |}.

(** One atomic step of the call at [p] when the clock reads [now]; [None] when it
    cannot move (the mutex is held, or it has returned). *)
Definition call_step (c : Config) (s : shared) (p : pc) (now : Z) :
    option (Z * Z * bool * pc) :=
  match p with
  | PcRefill =>
      if sLocked s then None
      else match refill_amount c (sTokens s) (sLastRefill s) now with
           | None => Some (sTokens s, sLastRefill s, false, PcLoad)
           | Some n => Some (sTokens s, sLastRefill s, true, PcStore n now)
           end
  | PcStore n t => Some (n, t, false, PcLoad)
  | PcLoad =>
      Some (sTokens s, sLastRefill s, sLocked s,
            if sTokens s <=? 0 then PcDone false else PcCas (sTokens s))
  | PcCas cur =>
      if sTokens s =? cur then Some (cur - 1, sLastRefill s, sLocked s, PcDone true)
      else Some (sTokens s, sLastRefill s, sLocked s, PcLoad)
  | PcDone _ => None
  end.

Definition sched_step (c : Config) (s : shared) (who : nat * Z) : option shared :=
  match calls s !! who.1 with
  | None => None
  | Some p =>
      match call_step c s p who.2 with
      | None => None
      | Some (tk, last, locked, p') =>
          Some {| sTokens := tk; sLastRefill := last; sLocked := locked;
                  calls := <[who.1 := p']> (calls s) |}
      end
  end.

(** Run a schedule: which call moves and what the clock then reads. *)
Fixpoint run_sched (c : Config) (s : shared) (sched : list (nat * Z)) : option shared :=
  match sched with
  | [] => Some s
  | w :: sched =>
      match sched_step c s w with
      | None => None
      | Some s' => run_sched c s' sched
      end
  end.

Definition admitted (s : shared) : Z :=
  Z.of_nat (length (List.filter (fun p => match p with PcDone true => true | _ => false end) (calls s))).

Definition pc_ok (c : Config) (lo hi : Z) (p : pc) : Prop :=
  match p with
  | PcStore n t => 0 <= n <= Burst c /\ lo <= t <= hi
  | PcCas cur => 0 < cur <= Burst c
  | _ => True
  end.

Definition shared_ok (c : Config) (lo hi : Z) (s : shared) : Prop :=
  0 <= sTokens s <= Burst c /\ lo <= sLastRefill s <= hi /\ Forall (pc_ok c lo hi) (calls s).

Lemma refill_amount_range c current last now n :
  config_ok c -> 0 <= current <= Burst c -> now - last <= 2 ^ 62 ->
  refill_amount c current last now = Some n -> 0 <= n <= Burst c.
Proof.
  intros Hok Hc Hn E. assert (0 <= now - last).
  { destruct Hok as (_ & ? & _). unfold refill_amount in E. zcase_in E; [done|lia]. }
  pose proof (refill_amount_spec c current last now Hok Hc ltac:(lia)) as Hs. rewrite E in Hs.
  destruct Hs as (_ & ? & ->). destruct Hok as (_ & _ & ?). lia.
Qed.

Lemma sched_step_ok c lo hi s who s' :
  config_ok c -> hi - lo <= 2 ^ 62 -> lo <= who.2 <= hi ->
  shared_ok c lo hi s -> sched_step c s who = Some s' -> shared_ok c lo hi s'.
Proof.
  intros Hc Hr Hw (Ht & Hl & Hp) E. unfold sched_step in E.
  destruct (calls s !! who.1) as [p|] eqn:Ep; [|done].
  pose proof (Forall_lookup_1 _ _ _ _ Hp Ep) as Hpc. unfold call_step in E.
  destruct p as [|n t| |cur|ok]; simpl in Hpc; try done.
  - destruct (sLocked s); [done|].
    destruct (refill_amount _ _ _ _) as [n|] eqn:En; simplify_eq; split_and!; try done; simpl; try lia;
      apply Forall_insert; try done; simpl.
    split; [|done]. eapply refill_amount_range; [done| |  |exact En]; lia.
  - simplify_eq. split_and!; simpl; try lia. by apply Forall_insert.
  - simplify_eq. split_and!; simpl; try lia. apply Forall_insert; [done|].
    zcase; simpl; [done|lia].
  - zcase_in E; simplify_eq; (split_and!; simpl; try lia); by apply Forall_insert.
Qed.

(** In every interleaving of overlapping calls the bucket holds between zero and
    Burst tokens. *)
Theorem limiter_tokens_in_range c lo n sched s' :
  config_ok c -> Forall (fun w => lo <= w.2 <= lo + 2 ^ 62) sched ->
  run_sched c (new_shared c lo n) sched = Some s' -> 0 <= sTokens s' <= Burst c.
Proof.
  intros Hc Hs Hrun.
  assert (shared_ok c lo (lo + 2 ^ 62) (new_shared c lo n)) as Hi.
  { destruct Hc as (_ & _ & ?). split_and!; simpl; try lia. by apply Forall_replicate. }
  revert Hi Hrun. generalize (new_shared c lo n).
  induction Hs as [|w sched Hw Hs IH]; intros s Hi Hrun; simpl in Hrun.
  - simplify_eq. apply Hi.
  - destruct (sched_step c s w) as [s1|] eqn:E; [|done]. apply (IH s1); [|done].
    eapply sched_step_ok; [done| |exact Hw|exact Hi|exact E]. lia.
Qed.

(** Four calls on a bucket of two: the second passes its refill early and swaps
    between the load and the store of the third call's refill. *)
Definition race_config : Config := {| Rate := 1; Interval := 10; Burst := 2 |}.

Definition race_sched : list (nat * Z) :=
  [(0%nat, 1); (0%nat, 1); (0%nat, 1);   (* call 0 takes one token *)
   (1%nat, 2);   (* call 1 finds nothing to refill *)
   (2%nat, 10);   (* call 2 loads 1, will store 2 *)
   (1%nat, 10); (1%nat, 10);   (* call 1 takes the other token *)
   (2%nat, 10); (2%nat, 10); (2%nat, 10);   (* call 2 stores 2 and takes one *)
   (3%nat, 10); (3%nat, 10); (3%nat, 10)].   (* call 3 takes one *)

Lemma limiter_tokens_in_range_witness :
  exists s', run_sched race_config (new_shared race_config 0 4) race_sched = Some s' /\
    0 <= sTokens s' <= 2.
Proof.
  eexists. split; [vm_compute; reflexivity|].
  apply (limiter_tokens_in_range race_config 0 4 race_sched).
  - vm_compute. repeat split; discriminate.
  - repeat constructor; vm_compute; discriminate.
  - vm_compute. reflexivity.
Defined.

(** The decrement of a call that swaps between the load and the store of another
    call's refill is lost: overlapping calls can be admitted beyond the tokens
    the bucket held plus those the elapsed time earned. *)
Theorem limiter_race_over_admits :
  exists c sched s' T,
    config_ok c /\ Forall (fun w => 0 <= w.2 <= T) sched /\
    run_sched c (new_shared c 0 4) sched = Some s' /\
    Burst c + T / refillRate c < admitted s'.
Proof.
  exists race_config, race_sched. eexists. exists 10. split_and!.
  - vm_compute. repeat split; discriminate.
  - repeat constructor; vm_compute; discriminate.
  - vm_compute. reflexivity.
  - vm_compute. reflexivity.
Qed.
