(* ===== verification/Retry.v ===== *)
(** * Retries (pkg/core/resilience/retry: retry.go, backoff.go, predicate.go)

    Error values and the predicates on them, the backoff strategies behind their
    interface, and the retry loop.  What the loop observes in an attempt (the
    context when polled, what the function returned, the context while backing
    off, the clock) is a record given per attempt; its effects are returned as a
    log.  The exponential strategy computes with floating point and a random
    generator and is not modelled: the loop is proved against the interface. *)
From Stdlib Require Import Ascii.
From S2P Require Import Prelude.

(** ** Errors and predicates *)

(** A non-nil [error]: its message (ASCII), the identities [errors.Is] finds by
    unwrapping it, and what its [Temporary] method answers if it has one. *)
Record error : Type := mkError {
  msg : string;
  chain : list Z;
  temporary : option bool
}.

(** The identity of [context.DeadlineExceeded]. *)
Definition deadline_exceeded_id : Z := 0.

Definition errors_Is (e : error) (target : Z) : bool := existsb (Z.eqb target) (chain e).

Definition to_lower (a : ascii) : ascii :=
  let n := nat_of_ascii a in
  if (65 <=? n)%nat && (n <=? 90)%nat then ascii_of_nat (n + 32) else a.

Fixpoint ToLower (s : string) : string :=
  match s with
  | EmptyString => EmptyString
  | String a s => String (to_lower a) (ToLower s)
  end.

Fixpoint Contains (s sub : string) : bool :=
  String.prefix sub s ||
  match s with
  | EmptyString => false
  | String _ s' => Contains s' sub
  end.

(** A predicate is called with an error that may be nil ([None]). *)
Definition RetryPredicate : Type := option error -> bool.

Definition AlwaysRetry : RetryPredicate := fun _ => true.

Definition NeverRetry : RetryPredicate := fun _ => false.

Definition message_has (words : list string) (e : error) : bool :=
  existsb (Contains (ToLower (msg e))) words.

Definition RetryOnTimeout : RetryPredicate := fun err =>
  match err with
  | None => false
  | Some e =>
      if errors_Is e deadline_exceeded_id then true
      else message_has ["timeout"; "deadline exceeded"; "timed out"]%string e
  end.

Definition RetryOnTemporary : RetryPredicate := fun err =>
  match err with
  | None => false
  | Some e =>
      if match temporary e with Some true => true | _ => false end then true
      else message_has ["temporary"; "retry"; "busy"]%string e
  end.

Definition RetryOnNetworkError : RetryPredicate := fun err =>
  match err with
  | None => false
  | Some e => message_has ["network"; "connection"; "dial"; "refused"; "reset"]%string e
  end.

Definition RetryOnErrorType (target : Z) : RetryPredicate := fun err =>
  match err with
  | None => false
  | Some e => errors_Is e target
  end.

Definition RetryOnErrorMessage (substrings : list string) : RetryPredicate := fun err =>
  match err with
  | None => false
  | Some e => existsb (fun substr => Contains (ToLower (msg e)) (ToLower substr)) substrings
  end.

Fixpoint RetryOnAny (predicates : list RetryPredicate) : RetryPredicate := fun err =>
  match predicates with
  | [] => false
  | p :: ps => if p err then true else RetryOnAny ps err
  end.

Fixpoint RetryOnAll (predicates : list RetryPredicate) : RetryPredicate := fun err =>
  match predicates with
  | [] => true
  | p :: ps => if negb (p err) then false else RetryOnAll ps err
  end.

Definition RetryOnNot (p : RetryPredicate) : RetryPredicate := fun err => negb (p err).

(** ** Backoff strategies *)

Class BackoffStrategy (B : Type) : Type := Delay : B -> Z -> Z.

(** What the retry loop may rely on: a strategy never asks for more than [cap]. *)
Class BoundedBackoff (B : Type) `{BackoffStrategy B} (cap : B -> Z) : Prop :=
  Delay_le : forall b attempt, Delay b attempt <= cap b.

Record FixedBackoff : Type := mkFixed { DelayDuration : Z }.

Definition NewFixedBackoff (delay : Z) : FixedBackoff := {| DelayDuration := delay |}.

Definition FixedBackoff_Delay (f : FixedBackoff) (attempt : Z) : Z := DelayDuration f.

#[export] Instance FixedBackoff_strategy : BackoffStrategy FixedBackoff := FixedBackoff_Delay.

Record LinearBackoff : Type := mkLinear {
  InitialDelay : Z;
  MaxDelay : Z;
  Increment : Z
}.

Definition NewLinearBackoff (initialDelay maxDelay increment : Z) : LinearBackoff :=
  {| InitialDelay := initialDelay; MaxDelay := maxDelay;
     Increment := if increment =? 0 then initialDelay else increment |}.

Definition LinearBackoff_Delay (l : LinearBackoff) (attempt : Z) : Z :=
  let delay := InitialDelay l +i64 i64 (attempt * Increment l) in
  if MaxDelay l <? delay then MaxDelay l else delay.

#[export] Instance LinearBackoff_strategy : BackoffStrategy LinearBackoff := LinearBackoff_Delay.

#[export] Instance FixedBackoff_bounded : BoundedBackoff FixedBackoff DelayDuration.
Proof. intros b a. reflexivity. Qed.

#[export] Instance LinearBackoff_bounded : BoundedBackoff LinearBackoff MaxDelay.
Proof. intros b a. unfold Delay, LinearBackoff_strategy, LinearBackoff_Delay. zcase; lia. Qed.

(** ** The retry loop *)

Record Stats : Type := mkStats {
  TotalExecutions : Z;
  TotalSuccesses : Z;
  TotalFailures : Z;
  TotalRetries : Z;
  LastExecutionTime : option Z
}.

Definition count (s : Stats) (ex suc fai ret : Z) : Stats :=
  {| TotalExecutions := TotalExecutions s +i64 ex; TotalSuccesses := TotalSuccesses s +i64 suc;
     TotalFailures := TotalFailures s +i64 fai; TotalRetries := TotalRetries s +i64 ret;
     LastExecutionTime := LastExecutionTime s |}.

Definition set_last (s : Stats) (now : Z) : Stats :=
  {| TotalExecutions := TotalExecutions s; TotalSuccesses := TotalSuccesses s;
     TotalFailures := TotalFailures s; TotalRetries := TotalRetries s;
     LastExecutionTime := Some now |}.

(** A nil [Backoff] or [Predicate] is [None]; [Timeout] acts only through the
    status of the derived context, which is observed. *)
Record Config (B : Type) : Type := mkConfig {
  MaxRetries : Z;
  Backoff : option B;
  Predicate : option RetryPredicate;
  Timeout : Z
}.
Arguments mkConfig {B}.
Arguments MaxRetries {B}.
Arguments Backoff {B}.
Arguments Predicate {B}.
Arguments Timeout {B}.

(** What one attempt observes. *)
Record attempt_obs : Type := mkAttempt {
  poll : ctx_status;
  fn_result : option error;
  wake : ctx_status;      (** [CtxLive] when the backoff timer fires *)
  ended : Z               (** the clock, when the loop returns in this attempt *)
}.

Inductive retry_error : Type :=
| NIL_CONTEXT
| NIL_RETRIABLE
| INVALID_CONFIG
| CONTEXT_TIMEOUT
| CONTEXT_CANCELED
| FN_ERROR (e : error)
| MAX_RETRIES_EXCEEDED (lastErr : option error).

Inductive event : Type :=
| Called (attempt : nat)
| Retrying (attempt : nat) (e : error)   (** [OnRetry] and [OnRetryAsync] *)
| BackedOff (delay : Z).

Definition ctx_error (c : ctx_status) : retry_error :=
  match c with CtxDeadlineExceeded => CONTEXT_TIMEOUT | _ => CONTEXT_CANCELED end.

Section retry.
Context {B : Type} `{BackoffStrategy B}.
(** [DefaultConfig().Backoff] *)
Context (default_backoff : B).

(** [n] attempts are left, [attempt] is the loop variable. *)
Fixpoint retry_loop (maxRetries : Z) (backoff : B) (predicate : RetryPredicate)
    (obs : nat -> attempt_obs) (final : Z) (n attempt : nat) (lastErr : option error)
    (s : Stats) : Stats * list event * option retry_error :=
  match n with
  | O => (set_last (count s 0 0 1 0) final, [], Some (MAX_RETRIES_EXCEEDED lastErr))
  | S n =>
      let o := obs attempt in
      if ctx_done (poll o) then
        (set_last (count s 0 0 1 0) (ended o), [], Some (ctx_error (poll o)))
      else
        let s := count s 1 0 0 0 in
        match fn_result o with
        | None => (set_last (count s 0 1 0 0) (ended o), [Called attempt], None)
        | Some e =>
            if negb (predicate (Some e)) then
              (set_last (count s 0 0 1 0) (ended o), [Called attempt], Some (FN_ERROR e))
            else if Z.of_nat attempt <? maxRetries then
              let s := count s 0 0 0 1 in
              let delay := Delay backoff (Z.of_nat attempt) in
              if ctx_done (wake o) then
                (set_last (count s 0 0 1 0) (ended o), [Called attempt; Retrying attempt e],
                 Some (ctx_error (wake o)))
              else
                let '(s, log, r) :=
                  retry_loop maxRetries backoff predicate obs final n (S attempt) (Some e) s in
                (s, Called attempt :: Retrying attempt e :: BackedOff delay :: log, r)
            else
              let '(s, log, r) :=
                retry_loop maxRetries backoff predicate obs final n (S attempt) (Some e) s in
              (s, Called attempt :: log, r)
        end
  end.

Definition ExecuteWithConfig (s : Stats) (ctxNil fnNil : bool) (c : Config B)
    (obs : nat -> attempt_obs) (final : Z) : Stats * list event * option retry_error :=
  if ctxNil then (s, [], Some NIL_CONTEXT)
  else if fnNil then (s, [], Some NIL_RETRIABLE)
  else if MaxRetries c <? 0 then (s, [], Some INVALID_CONFIG)
  else
    let backoff := match Backoff c with Some b => b | None => default_backoff end in
    let predicate := match Predicate c with Some p => p | None => AlwaysRetry end in
    let maxAttempts := MaxRetries c +i64 1 in
    retry_loop (MaxRetries c) backoff predicate obs final (Z.to_nat maxAttempts) 0 None s.
End retry.

(** ** What the loop does *)

Section retry_proofs.
Context {B : Type} `{BackoffStrategy B}.
Implicit Types (backoff : B) (predicate : RetryPredicate) (obs : nat -> attempt_obs).

(** Attempt [j] fails with an error worth retrying and its backoff completes. *)
Definition passes predicate obs (j : nat) : Prop :=
  poll (obs j) = CtxLive /\ wake (obs j) = CtxLive /\
  exists e, fn_result (obs j) = Some e /\ predicate (Some e) = true.

(** The loop ends in attempt [k] with result [r], having called the function
    [calls] times. *)
Inductive stops (maxRetries : Z) predicate obs (k : nat) : option retry_error -> nat -> Prop :=
| StopPoll :
    ctx_done (poll (obs k)) = true ->
    stops maxRetries predicate obs k (Some (ctx_error (poll (obs k)))) k
| StopSuccess :
    poll (obs k) = CtxLive -> fn_result (obs k) = None ->
    stops maxRetries predicate obs k None (S k)
| StopFatal e :
    poll (obs k) = CtxLive -> fn_result (obs k) = Some e -> predicate (Some e) = false ->
    stops maxRetries predicate obs k (Some (FN_ERROR e)) (S k)
| StopBackoff e :
    poll (obs k) = CtxLive -> fn_result (obs k) = Some e -> predicate (Some e) = true ->
    Z.of_nat k < maxRetries -> ctx_done (wake (obs k)) = true ->
    stops maxRetries predicate obs k (Some (ctx_error (wake (obs k)))) (S k)
| StopExhausted e :
    poll (obs k) = CtxLive -> fn_result (obs k) = Some e -> predicate (Some e) = true ->
    Z.of_nat k = maxRetries ->
    stops maxRetries predicate obs k (Some (MAX_RETRIES_EXCEEDED (Some e))) (S k).

Fixpoint calls_of (log : list event) : list nat :=
  match log with
  | [] => []
  | Called a :: log => a :: calls_of log
  | _ :: log => calls_of log
  end.

Fixpoint delays_of (log : list event) : list Z :=
  match log with
  | [] => []
  | BackedOff d :: log => d :: delays_of log
  | _ :: log => delays_of log
  end.

Fixpoint retries_of (log : list event) : list nat :=
  match log with
  | [] => []
  | Retrying a _ :: log => a :: retries_of log
  | _ :: log => retries_of log
  end.

Lemma ctx_done_false c : ctx_done c = false -> c = CtxLive.
Proof. by destruct c. Qed.

Lemma retry_loop_spec maxRetries backoff predicate obs final n a lastErr s :
  Z.of_nat (n + a) = maxRetries + 1 -> (0 < n)%nat ->
  let '(_, log, r) := retry_loop maxRetries backoff predicate obs final n a lastErr s in
  exists k calls, (a <= k)%nat /\ Z.of_nat k <= maxRetries /\
    (forall j, (a <= j < k)%nat -> passes predicate obs j) /\
    stops maxRetries predicate obs k r calls /\ (a <= calls)%nat /\
    calls_of log = seq a (calls - a).
Proof.
  revert a lastErr s. induction n as [|n IH]; intros a lastErr s Hn Hpos; [lia|]. cbn [retry_loop].
  destruct (ctx_done (poll (obs a))) eqn:Hp.
  { exists a, a. rewrite Nat.sub_diag. split_and!; try lia; try done.
    by constructor. }
  apply ctx_done_false in Hp.
  destruct (fn_result (obs a)) as [e|] eqn:Hf; cbv zeta.
  2:{ exists a, (S a). replace (S a - a)%nat with 1%nat by lia.
      split_and!; try lia; try done. by constructor. }
  destruct (predicate (Some e)) eqn:Hpr; cbn [negb].
  2:{ exists a, (S a). replace (S a - a)%nat with 1%nat by lia.
      split_and!; try lia; try done. by constructor. }
  destruct (Z.ltb_spec (Z.of_nat a) maxRetries) as [Hlt|Hge].
  - destruct (ctx_done (wake (obs a))) eqn:Hw.
    { exists a, (S a). replace (S a - a)%nat with 1%nat by lia.
      split_and!; try lia; try done. by econstructor. }
    apply ctx_done_false in Hw.
    specialize (IH (S a) (Some e) (count (count s 1 0 0 0) 0 0 0 1)).
    destruct (retry_loop _ _ _ _ _ n (S a) _ _) as [[s' log] r].
    destruct IH as (k & calls & H1 & H2 & H3 & H4 & H5 & H6); [lia..|].
    exists k, calls. split_and!; try lia; try done.
    + intros j Hj. destruct (decide (j = a)) as [->|]; [|apply H3; lia].
      split_and!; eauto.
    + simpl. rewrite H6. by replace (calls - a)%nat with (S (calls - S a)) by lia.
  - assert (n = 0%nat) as -> by lia. cbn [retry_loop]. exists a, (S a).
    replace (S a - a)%nat with 1%nat by lia. split_and!; try lia; try done.
    apply StopExhausted; try done. lia.
Qed.

Definition returned_nil (r : option retry_error) : bool :=
  match r with None => true | Some _ => false end.

Definition stats_add (s s' : Stats) (ex suc fai ret : Z) : Prop :=
  TotalExecutions s' = TotalExecutions s +i64 ex /\
  TotalSuccesses s' = TotalSuccesses s +i64 suc /\
  TotalFailures s' = TotalFailures s +i64 fai /\
  TotalRetries s' = TotalRetries s +i64 ret.

Lemma retry_loop_stats maxRetries backoff predicate obs final n a lastErr s :
  let '(s', log, r) := retry_loop maxRetries backoff predicate obs final n a lastErr s in
  stats_add s s' (Z.of_nat (length (calls_of log))) (Z.b2z (returned_nil r))
    (Z.b2z (negb (returned_nil r))) (Z.of_nat (length (retries_of log))).
Proof.
  revert a lastErr s. induction n as [|n IH]; intros a lastErr s; cbn [retry_loop]; [done|].
  destruct (ctx_done (poll (obs a))); [done|].
  destruct (fn_result (obs a)) as [e|]; cbv zeta.
  2:{ unfold stats_add; simpl. split_and!; wrap_eq. }
  destruct (negb (predicate (Some e))).
  { unfold stats_add; simpl. split_and!; wrap_eq. }
  destruct (Z.of_nat a <? maxRetries).
  - destruct (ctx_done (wake (obs a))).
    { unfold stats_add; simpl. split_and!; wrap_eq. }
    specialize (IH (S a) (Some e) (count (count s 1 0 0 0) 0 0 0 1)).
    destruct (retry_loop _ _ _ _ _ n (S a) _ _) as [[s' log] r].
    destruct IH as (E1 & E2 & E3 & E4). unfold stats_add. rewrite E1, E2, E3, E4.
    cbn [calls_of retries_of length count TotalExecutions TotalSuccesses TotalFailures TotalRetries].
    split_and!; wrap_eq.
  - specialize (IH (S a) (Some e) (count s 1 0 0 0)).
    destruct (retry_loop _ _ _ _ _ n (S a) _ _) as [[s' log] r].
    destruct IH as (E1 & E2 & E3 & E4). unfold stats_add. rewrite E1, E2, E3, E4.
    cbn [calls_of retries_of length count TotalExecutions TotalSuccesses TotalFailures TotalRetries].
    split_and!; wrap_eq.
Qed.

(** The backoffs of a run are those of consecutive attempts. *)
Lemma retry_loop_delays maxRetries backoff predicate obs final n a lastErr s :
  let '(_, log, _) := retry_loop maxRetries backoff predicate obs final n a lastErr s in
  exists d, delays_of log = map (fun j => Delay backoff (Z.of_nat j)) (seq a d) /\
    Z.of_nat d <= Z.max 0 (maxRetries - Z.of_nat a) /\ (d <= n)%nat.
Proof.
  revert a lastErr s. induction n as [|n IH]; intros a lastErr s; cbn [retry_loop].
  { exists 0%nat. split_and!; [done|lia..]. }
  destruct (ctx_done (poll (obs a))); [exists 0%nat; split_and!; [done|lia..]|].
  destruct (fn_result (obs a)) as [e|]; cbv zeta; [|exists 0%nat; split_and!; [done|lia..]].
  destruct (negb (predicate (Some e))); [exists 0%nat; split_and!; [done|lia..]|].
  destruct (Z.ltb_spec (Z.of_nat a) maxRetries) as [Hlt|Hge].
  - destruct (ctx_done (wake (obs a))); [exists 0%nat; split_and!; [done|lia..]|].
    specialize (IH (S a) (Some e) (count (count s 1 0 0 0) 0 0 0 1)).
    destruct (retry_loop _ _ _ _ _ n (S a) _ _) as [[s' log] r].
    destruct IH as (d & E & Hd & Hn). exists (S d). cbn [delays_of seq map]. rewrite E.
    split_and!; [done|lia..].
  - specialize (IH (S a) (Some e) (count s 1 0 0 0)).
    destruct (retry_loop _ _ _ _ _ n (S a) _ _) as [[s' log] r].
    destruct IH as (d & E & Hd & Hn). assert (d = 0%nat) as -> by lia.
    exists 0%nat. split_and!; [exact E|lia..].
Qed.
End retry_proofs.

Arguments stops maxRetries predicate obs k r calls : rename.

(** What an execution does: attempts are made in order, each one after the
    previous failed with a retryable error and its backoff completed, until the
    first attempt that succeeds, fails for good, sees the context done, or is
    the last one allowed; the result is that attempt's, and the function is
    called at most MaxRetries + 1 times. *)
Theorem retry_outcome {B} `{BackoffStrategy B} (default : B) s (c : Config B) obs final :
  0 <= MaxRetries c < max_i64 ->
  let predicate := match Predicate c with Some p => p | None => AlwaysRetry end in
  let '(_, log, r) := ExecuteWithConfig default s false false c obs final in
  exists k calls, Z.of_nat k <= MaxRetries c /\
    (forall j, (j < k)%nat -> passes predicate obs j) /\
    stops (MaxRetries c) predicate obs k r calls /\ calls_of log = seq 0 calls.
Proof.
  intros Hm predicate. unfold ExecuteWithConfig. destruct (Z.ltb_spec (MaxRetries c) 0); [lia|].
  rewrite i64_id by (widths; lia).
  match goal with |- context [retry_loop _ ?b _ _ _ ?n 0%nat None _] =>
    pose proof (retry_loop_spec (MaxRetries c) b predicate obs final n 0 None s) as Hs end.
  fold predicate. destruct (retry_loop _ _ _ _ _ _ _ _ _) as [[s' log] r].
  destruct Hs as (k & calls & _ & Hk & Hp & Hst & _ & Hc); [lia..|].
  exists k, calls. rewrite Nat.sub_0_r in Hc. split_and!; try done. intros j Hj. apply Hp. lia.
Qed.

Definition flaky (fails : nat) (k : nat) : attempt_obs :=
  {| poll := CtxLive; wake := CtxLive; ended := Z.of_nat k;
     fn_result := if (k <? fails)%nat then Some (mkError "busy" [] None) else None |}.

Definition no_stats : Stats := mkStats 0 0 0 0 None.

Lemma retry_outcome_witness :
  let '(_, log, r) := ExecuteWithConfig (mkFixed 5) no_stats false false
    (mkConfig 3 None (Some RetryOnTemporary) 0) (flaky 2) 9 in
  exists k calls, Z.of_nat k <= 3 /\
    stops 3 RetryOnTemporary (flaky 2) k r calls /\ calls_of log = seq 0 calls.
Proof.
  pose proof (retry_outcome (mkFixed 5) no_stats (mkConfig 3 None (Some RetryOnTemporary) 0)
    (flaky 2) 9 ltac:(vm_compute; repeat split; discriminate)) as H. cbv zeta in H.
  destruct (ExecuteWithConfig _ _ _ _ _ _ _) as [[s' log] r].
  destruct H as (k & calls & Hk & _ & Hs & Hc). exists k, calls. simpl in *. split_and!; assumption.
Defined.

(** An execution that passes the argument checks counts every call of the
    function and every retry, and exactly one success or one failure. *)
Theorem retry_stats_exact {B} `{BackoffStrategy B} (default : B) s (c : Config B) obs final :
  0 <= MaxRetries c ->
  let '(s', log, r) := ExecuteWithConfig default s false false c obs final in
  stats_add s s' (Z.of_nat (length (calls_of log))) (Z.b2z (returned_nil r))
    (Z.b2z (negb (returned_nil r))) (Z.of_nat (length (retries_of log))).
Proof.
  intros Hm. unfold ExecuteWithConfig. destruct (Z.ltb_spec (MaxRetries c) 0); [lia|].
  apply retry_loop_stats.
Qed.

Lemma retry_stats_exact_witness :
  let '(s', log, r) := ExecuteWithConfig (mkFixed 5) no_stats false false
    (mkConfig 3 None None 0) (flaky 2) 9 in
  TotalExecutions s' = i64 (Z.of_nat (length (calls_of log))).
Proof.
  pose proof (retry_stats_exact (mkFixed 5) no_stats (mkConfig 3 None None 0) (flaky 2) 9
    ltac:(vm_compute; discriminate)) as H.
  destruct (ExecuteWithConfig _ _ _ _ _ _ _) as [[s' log] r]. apply H.
Defined.

(** With any strategy that never asks for more than its cap, an execution backs
    off at most MaxRetries times, each time as the strategy says for that
    attempt, and for at most MaxRetries times the cap altogether. *)
Theorem retry_backoff_bounded {B} `{BackoffStrategy B} (cap : B -> Z) `{!BoundedBackoff B cap}
    (default : B) s (c : Config B) obs final :
  0 <= MaxRetries c -> 0 <= cap match Backoff c with Some b => b | None => default end ->
  let b := match Backoff c with Some b => b | None => default end in
  let '(_, log, _) := ExecuteWithConfig default s false false c obs final in
  (exists d, Z.of_nat d <= MaxRetries c /\
     delays_of log = map (fun j => Delay b (Z.of_nat j)) (seq 0 d)) /\
  sumZ (delays_of log) <= MaxRetries c * cap b.
Proof.
  intros Hm Hcap b. unfold ExecuteWithConfig. destruct (Z.ltb_spec (MaxRetries c) 0); [lia|].
  fold b in Hcap |- *.
  match goal with |- context [retry_loop ?x ?b ?p ?o ?f ?n ?a ?e ?s] =>
    pose proof (retry_loop_delays x b p o f n a e s) as Hs;
    destruct (retry_loop x b p o f n a e s) as [[s' log] r] end.
  destruct Hs as (d & E & Hd & _). split; [exists d; split; [lia|done]|]. rewrite E.
  pose proof (sumZ_fmap_upper (fun j => Delay b (Z.of_nat j)) (seq 0 d) (cap b)) as Hsum.
  rewrite length_seq in Hsum. cbv [fmap] in Hsum. change (@list_fmap nat Z) with (@map nat Z) in Hsum.
  specialize (Hsum (fun j => Delay_le b (Z.of_nat j))). nia.
Qed.

Lemma retry_backoff_bounded_witness :
  let '(_, log, _) := ExecuteWithConfig (NewLinearBackoff 10 25 0) no_stats false false
    (mkConfig 3 None None 0) (flaky 4) 9 in
  sumZ (delays_of log) <= 3 * 25.
Proof.
  pose proof (retry_backoff_bounded MaxDelay (NewLinearBackoff 10 25 0) no_stats
    (mkConfig 3 None None 0) (flaky 4) 9 ltac:(vm_compute; discriminate)
    ltac:(vm_compute; discriminate)) as H. cbv zeta in H.
  destruct (ExecuteWithConfig _ _ _ _ _ _ _) as [[s' log] r]. apply H.
Defined.

(** With MaxRetries at the largest int, MaxRetries + 1 wraps around: the function
    is never called, and the execution reports exhausted retries without any
    underlying error. *)
Theorem retry_max_int_never_calls {B} `{BackoffStrategy B} (default : B) s b p timeout obs final :
  let '(_, log, r) :=
    ExecuteWithConfig default s false false (mkConfig max_i64 b p timeout) obs final in
  log = [] /\ r = Some (MAX_RETRIES_EXCEEDED None).
Proof. done. Qed.
