(* ===== verification/Bulkhead.v ===== *)
(** * Bulkhead (pkg/core/resilience/bulkhead/bulkhead.go)

    A transition system: any number of executions, the queue processor and the
    goroutines that run functions, moving one atomic step at a time.  An action
    names who moves and, where the code selects, which case was ready. *)
From S2P Require Import Prelude.

Record Config : Type := mkConfig {
  MaxConcurrency : Z;
  MaxQueueSize : Z;
  QueueTimeout : Z
}.

Definition DefaultConfig : Config :=
  {| MaxConcurrency := 10; MaxQueueSize := 0; QueueTimeout := 0 |}.

Definition normalize (c : Config) : Config :=
  {| MaxConcurrency := if MaxConcurrency c <=? 0 then MaxConcurrency DefaultConfig else MaxConcurrency c;
     MaxQueueSize := if MaxQueueSize c <? 0 then 0 else MaxQueueSize c;
     QueueTimeout := QueueTimeout c |}.

Inductive exec_result : Type :=
| Nil
| FnError (e : Z)
| BULKHEAD_FULL
| CONTEXT_TIMEOUT
| CONTEXT_CANCELED.

#[export] Instance exec_result_eq_dec : EqDecision exec_result.
Proof. solve_decision. Defined.

Definition ctx_result (c : ctx_status) : exec_result :=
  match c with CtxDeadlineExceeded => CONTEXT_TIMEOUT | _ => CONTEXT_CANCELED end.

Definition fn_result (e : option Z) : exec_result :=
  match e with None => Nil | Some e => FnError e end.

(** Where a caller of [Execute] is. *)
Inductive caller : Type :=
| CSelect                     (** at the first select *)
| CEnqueue                    (** the semaphore was full: at the queue select *)
| CQueued                     (** sent to the queue, not yet counted *)
| CWaiting                    (** waiting for the result *)
| CRunning                    (** runs its function itself *)
| CReturned (r : exec_result).

(** An execution: its caller and its result channel (one slot). *)
Record execution : Type := mkExec {
  at_ : caller;
  resultCh : option exec_result
}.

(** [executeWithSemaphore], from acquiring the semaphore to its return. *)
Inductive phase : Type :=
| WAcquired
| WRunning
| WDone (r : exec_result)     (** the function returned and was counted *)
| WSent (r : exec_result)     (** the result was offered to the channel *)
| WReleased (r : exec_result) (** the semaphore was released *)
| WExited.

Record worker : Type := mkWorker {
  owner : nat;                (** the execution it runs *)
  direct : bool;              (** run by the caller itself, without a channel *)
  ph : phase
}.

Inductive processor : Type :=
| PIdle
| PHolding (i : nat)
| PStopped.

Record bulkheadManager : Type := mkBulkhead {
  config : Config;
  semaphore : Z;
  queue : list nat;
  currentConcurrency : Z;
  stopChan : bool;
  proc : processor;
  execs : list execution;
  workers : list worker;
  TotalExecutions : Z;
  TotalAccepted : Z;
  TotalRejected : Z;
  TotalSuccessful : Z;
  TotalFailed : Z;
  CurrentQueueSize : Z
}.

(** The queue processor runs only when the queue exists; without one [doneChan]
    is closed at once. *)
Definition NewManagerWithConfig (c : Config) : bulkheadManager :=
  let c := normalize c in
  {| config := c; semaphore := 0; queue := []; currentConcurrency := 0; stopChan := false;
     proc := if 0 <? MaxQueueSize c then PIdle else PStopped;
     execs := []; workers := []; TotalExecutions := 0; TotalAccepted := 0; TotalRejected := 0;
     TotalSuccessful := 0; TotalFailed := 0; CurrentQueueSize := 0 |}.

(** ** Updates *)

Definition upd_sem (m : bulkheadManager) (sem conc : Z) : bulkheadManager :=
  {| config := config m; semaphore := sem; queue := queue m; currentConcurrency := conc;
     stopChan := stopChan m; proc := proc m; execs := execs m; workers := workers m;
     TotalExecutions := TotalExecutions m; TotalAccepted := TotalAccepted m;
     TotalRejected := TotalRejected m; TotalSuccessful := TotalSuccessful m;
     TotalFailed := TotalFailed m; CurrentQueueSize := CurrentQueueSize m |}.

Definition upd_queue (m : bulkheadManager) (q : list nat) (p : processor) (stop : bool) :
    bulkheadManager :=
  {| config := config m; semaphore := semaphore m; queue := q;
     currentConcurrency := currentConcurrency m; stopChan := stop; proc := p;
     execs := execs m; workers := workers m;
     TotalExecutions := TotalExecutions m; TotalAccepted := TotalAccepted m;
     TotalRejected := TotalRejected m; TotalSuccessful := TotalSuccessful m;
     TotalFailed := TotalFailed m; CurrentQueueSize := CurrentQueueSize m |}.

Definition upd_procs (m : bulkheadManager) (es : list execution) (ws : list worker) :
    bulkheadManager :=
  {| config := config m; semaphore := semaphore m; queue := queue m;
     currentConcurrency := currentConcurrency m; stopChan := stopChan m; proc := proc m;
     execs := es; workers := ws;
     TotalExecutions := TotalExecutions m; TotalAccepted := TotalAccepted m;
     TotalRejected := TotalRejected m; TotalSuccessful := TotalSuccessful m;
     TotalFailed := TotalFailed m; CurrentQueueSize := CurrentQueueSize m |}.

Definition count (m : bulkheadManager) (ex acc rej suc fai qs : Z) : bulkheadManager :=
  {| config := config m; semaphore := semaphore m; queue := queue m;
     currentConcurrency := currentConcurrency m; stopChan := stopChan m; proc := proc m;
     execs := execs m; workers := workers m;
     TotalExecutions := TotalExecutions m +i64 ex; TotalAccepted := TotalAccepted m +i64 acc;
     TotalRejected := TotalRejected m +i64 rej; TotalSuccessful := TotalSuccessful m +i64 suc;
     TotalFailed := TotalFailed m +i64 fai; CurrentQueueSize := CurrentQueueSize m +i64 qs |}.

Definition set_exec (m : bulkheadManager) (i : nat) (e : execution) : bulkheadManager :=
  upd_procs m (<[i := e]> (execs m)) (workers m).

Definition set_worker (m : bulkheadManager) (w : nat) (x : worker) (p : phase) : bulkheadManager :=
  upd_procs m (execs m) (<[w := mkWorker (owner x) (direct x) p]> (workers m)).

(** Acquire the semaphore and start [executeWithSemaphore] for execution [i]. *)
Definition acquire (m : bulkheadManager) (i : nat) (dir : bool) : bulkheadManager :=
  let m := upd_sem m (semaphore m + 1) (currentConcurrency m) in
  upd_procs m (execs m) (workers m ++ [mkWorker i dir WAcquired]).

(** A non-blocking send: nothing happens when the slot is taken. *)
Definition offer (m : bulkheadManager) (i : nat) (r : exec_result) : bulkheadManager :=
  match execs m !! i with
  | Some e => set_exec m i (mkExec (at_ e) (Some (default r (resultCh e))))
  | None => m
  end.

Definition has_slot (m : bulkheadManager) : bool := semaphore m <? MaxConcurrency (config m).

Definition queuing (m : bulkheadManager) : bool := 0 <? MaxQueueSize (config m).

(** ** Steps *)

Inductive action : Type :=
| AExecute                          (** a call passes the nil checks *)
| ASelectAcquire (i : nat)
| ASelectDone (i : nat) (c : ctx_status)
| ASelectDefault (i : nat)
| AEnqueue (i : nat)
| ACounted (i : nat)
| AReceive (i : nat)
| AWaitDone (i : nat) (c : ctx_status)
| APop
| AProcAcquire
| AProcTimeout
| AProcDone
| AProcStop
| AStop
| AEnter (w : nat)
| AFinish (w : nat) (e : option Z)
| ASend (w : nat)
| ARelease (w : nat)
| AExit (w : nat).

(** The steps of a caller: [executeWithoutQueue] and [executeWithQueue]. *)
Definition caller_step (m : bulkheadManager) (a : action) (i : nat) (e : execution) :
    option bulkheadManager :=
  let move c := set_exec m i (mkExec c (resultCh e)) in
  let return_ m r := set_exec m i (mkExec (CReturned r) (resultCh e)) in
  match a, at_ e with
  | ASelectAcquire _, CSelect =>
      if has_slot m then Some (acquire (move CRunning) i true) else None
  | ASelectDone _ c, CSelect =>
      if ctx_done c then Some (return_ (count m 0 0 1 0 0 0) (ctx_result c)) else None
  | ASelectDefault _, CSelect =>
      if has_slot m then None
      else if queuing m then Some (move CEnqueue)
      else Some (return_ (count m 0 0 1 0 0 0) BULKHEAD_FULL)
  | AEnqueue _, CEnqueue =>
      if Z.of_nat (length (queue m)) <? MaxQueueSize (config m) then
        let m := move CQueued in
        Some (upd_queue m (queue m ++ [i]) (proc m) (stopChan m))
      else Some (return_ (count m 0 0 1 0 0 0) BULKHEAD_FULL)
  | ACounted _, CQueued => Some (count (move CWaiting) 0 0 0 0 0 1)
  | AReceive _, CWaiting =>
      match resultCh e with
      | Some r => Some (count (set_exec m i (mkExec (CReturned r) None)) 0 0 0 0 0 (-1))
      | None => None
      end
  | AWaitDone _ c, CWaiting =>
      if ctx_done c then Some (return_ (count m 0 0 1 0 0 (-1)) (ctx_result c)) else None
  | _, _ => None
  end.

(** The steps of [queueProcessor] when it holds execution [i]. *)
Definition holding_step (m : bulkheadManager) (a : action) (i : nat) : option bulkheadManager :=
  let idle m := upd_queue m (queue m) PIdle (stopChan m) in
  match a with
  | AProcAcquire => if has_slot m then Some (acquire (idle m) i false) else None
  | AProcTimeout =>
      if 0 <? QueueTimeout (config m) then
        Some (offer (idle (count m 0 0 1 0 0 0)) i CONTEXT_TIMEOUT)
      else None
  | AProcDone => Some (offer (idle (count m 0 0 1 0 0 0)) i CONTEXT_CANCELED)
  | AProcStop =>
      if stopChan m then
        let m := count m 0 0 1 0 0 0 in
        Some (offer (upd_queue m (queue m) PStopped true) i BULKHEAD_FULL)
      else None
  | _ => None
  end.

(** The steps of [executeWithSemaphore]. *)
Definition worker_step (m : bulkheadManager) (a : action) (w : nat) (x : worker) :
    option bulkheadManager :=
  match a, ph x with
  | AEnter _, WAcquired =>
      let m := upd_sem m (semaphore m) (currentConcurrency m +i32 1) in
      Some (set_worker (count m 0 1 0 0 0 0) w x WRunning)
  | AFinish _ e, WRunning =>
      let m := match e with None => count m 0 0 0 1 0 0 | Some _ => count m 0 0 0 0 1 0 end in
      Some (set_worker m w x (WDone (fn_result e)))
  | ASend _, WDone r =>
      let m := if direct x then m else offer m (owner x) r in
      Some (set_worker m w x (WSent r))
  | ARelease _, WSent r =>
      Some (set_worker (upd_sem m (semaphore m - 1) (currentConcurrency m)) w x (WReleased r))
  | AExit _, WReleased r =>
      let m := upd_sem m (semaphore m) (currentConcurrency m +i32 (-1)) in
      let m := set_worker m w x WExited in
      if direct x then
        match execs m !! owner x with
        | Some e => Some (set_exec m (owner x) (mkExec (CReturned r) (resultCh e)))
        | None => Some m
        end
      else Some m
  | _, _ => None
  end.

Definition step (m : bulkheadManager) (a : action) : option bulkheadManager :=
  match a with
  | AExecute => Some (upd_procs (count m 1 0 0 0 0 0) (execs m ++ [mkExec CSelect None]) (workers m))
  | ASelectAcquire i | ASelectDone i _ | ASelectDefault i | AEnqueue i | ACounted i
  | AReceive i | AWaitDone i _ =>
      match execs m !! i with Some e => caller_step m a i e | None => None end
  | AEnter w | AFinish w _ | ASend w | ARelease w | AExit w =>
      match workers m !! w with Some x => worker_step m a w x | None => None end
  | APop =>
      match proc m, queue m with
      | PIdle, i :: q => Some (upd_queue m q (PHolding i) (stopChan m))
      | _, _ => None
      end
  | AProcAcquire | AProcTimeout | AProcDone =>
      match proc m with PHolding i => holding_step m a i | _ => None end
  | AProcStop =>
      match proc m with
      | PHolding i => holding_step m a i
      | PIdle => if stopChan m then Some (upd_queue m (queue m) PStopped true) else None
      | PStopped => None
      end
  | AStop => Some (upd_queue m (queue m) (proc m) true)
  end.

Fixpoint run (m : bulkheadManager) (acts : list action) : option bulkheadManager :=
  match acts with
  | [] => Some m
  | a :: acts => match step m a with Some m' => run m' acts | None => None end
  end.

(** ** At most MaxConcurrency functions run *)

(** The worker holds the semaphore. *)
Definition holds (x : worker) : Z :=
  match ph x with WAcquired | WRunning | WDone _ | WSent _ => 1 | _ => 0 end.

Definition is_running (x : worker) : Z :=
  match ph x with WRunning => 1 | _ => 0 end.

(** The number of protected functions being executed. *)
Definition running (m : bulkheadManager) : Z := sumZ (is_running <$> workers m).

Definition sem_inv (m : bulkheadManager) : Prop :=
  0 < MaxConcurrency (config m) /\ 0 <= MaxQueueSize (config m) /\
  semaphore m = sumZ (holds <$> workers m) /\ semaphore m <= MaxConcurrency (config m) /\
  Z.of_nat (length (queue m)) <= MaxQueueSize (config m).

Lemma running_le_holds l : sumZ (is_running <$> l) <= sumZ (holds <$> l).
Proof. apply sumZ_fmap_le. intros x. unfold is_running, holds. destruct (ph x); lia. Qed.

Lemma acquire_sem_inv m i d : sem_inv m -> has_slot m = true -> sem_inv (acquire m i d).
Proof.
  intros (H1 & H2 & H3 & H4 & H5) Hs%Z.ltb_lt. unfold sem_inv, acquire; simpl.
  rewrite fmap_app, sumZ_app. change (sumZ (holds <$> [mkWorker i d WAcquired])) with 1.
  split_and!; lia.
Qed.

Lemma offer_same m i r :
  config (offer m i r) = config m /\ semaphore (offer m i r) = semaphore m /\
  workers (offer m i r) = workers m /\ queue (offer m i r) = queue m /\
  proc (offer m i r) = proc m.
Proof. unfold offer. by destruct (execs m !! i). Qed.

Lemma sem_inv_ext m m' :
  config m' = config m -> semaphore m' = semaphore m -> workers m' = workers m ->
  queue m' = queue m -> sem_inv m -> sem_inv m'.
Proof. unfold sem_inv. by intros -> -> -> ->. Qed.

Lemma offer_sem_inv m i r : sem_inv m -> sem_inv (offer m i r).
Proof. destruct (offer_same m i r) as (?&?&?&?&_). by apply sem_inv_ext. Qed.

Lemma set_worker_sem_inv m w x p sem :
  sem_inv m -> workers m !! w = Some x ->
  sem = semaphore m - holds x + holds (mkWorker (owner x) (direct x) p) ->
  holds (mkWorker (owner x) (direct x) p) <= holds x ->
  sem_inv (set_worker (upd_sem m sem (currentConcurrency m)) w x p).
Proof.
  intros (H1 & H2 & H3 & H4 & H5) Hw -> Hle. unfold sem_inv, set_worker; simpl.
  rewrite (sumZ_fmap_insert _ _ _ _ _ Hw). split_and!; lia.
Qed.

Lemma caller_step_sem_inv m a i e m' :
  sem_inv m -> caller_step m a i e = Some m' -> sem_inv m'.
Proof.
  intros Hm E. unfold caller_step in E.
  destruct a, (at_ e); try done.
  - destruct (has_slot m) eqn:Hs; [|done]. injection E as <-. by apply acquire_sem_inv.
  - destruct (ctx_done c); [|done]. by injection E as <-.
  - destruct (has_slot m); [done|]. destruct (queuing m); by injection E as <-.
  - zcase_in E; injection E as <-; [|done]. destruct Hm as (H1 & H2 & H3 & H4 & H5).
    unfold sem_inv; simpl. rewrite length_app; simpl. split_and!; try done; lia.
  - by injection E as <-.
  - destruct (resultCh e); [|done]. by injection E as <-.
  - destruct (ctx_done c); [|done]. by injection E as <-.
Qed.

Lemma worker_step_sem_inv m a w x m' :
  sem_inv m -> workers m !! w = Some x -> worker_step m a w x = Some m' -> sem_inv m'.
Proof.
  intros Hm Hw E. unfold worker_step in E.
  destruct a, (ph x) eqn:Hp; try done.
  - injection E as <-. refine (sem_inv_ext _ _ _ _ _ _ (set_worker_sem_inv m w x WRunning _ Hm Hw eq_refl _));
      simpl; unfold holds; simpl; rewrite ?Hp; try done; lia.
  - injection E as <-. refine (sem_inv_ext _ _ _ _ _ _ (set_worker_sem_inv m w x (WDone (fn_result e)) _ Hm Hw eq_refl _));
      destruct e; simpl; unfold holds; simpl; rewrite ?Hp; try done; lia.
  - injection E as <-. set (m1 := if direct x then m else offer m (owner x) r).
    assert (sem_inv m1) as Hm1 by (unfold m1; destruct (direct x); [done|by apply offer_sem_inv]).
    assert (workers m1 !! w = Some x) as Hw1.
    { unfold m1. destruct (direct x); [done|]. by destruct (offer_same m (owner x) r) as (_&_&->&_). }
    refine (sem_inv_ext _ _ _ _ _ _ (set_worker_sem_inv m1 w x (WSent r) _ Hm1 Hw1 eq_refl _));
      simpl; unfold holds; simpl; rewrite ?Hp; try done; lia.
  - injection E as <-. refine (sem_inv_ext _ _ _ _ _ _ (set_worker_sem_inv m w x (WReleased r) _ Hm Hw eq_refl _));
      simpl; unfold holds; simpl; rewrite ?Hp; try done; lia.
  - assert (sem_inv (set_worker (upd_sem m (semaphore m) (currentConcurrency m +i32 (-1))) w x WExited)) as Hx.
    { refine (sem_inv_ext _ _ _ _ _ _ (set_worker_sem_inv m w x WExited _ Hm Hw eq_refl _));
        simpl; unfold holds; simpl; rewrite ?Hp; try done; lia. }
    destruct (direct x); [|by injection E as <-].
    destruct (execs _ !! owner x); by injection E as <-.
Qed.

Lemma step_sem_inv m a m' : sem_inv m -> step m a = Some m' -> sem_inv m'.
Proof.
  intros Hm E. unfold step in E.
  destruct a;
    try (destruct (execs m !! i) as [e|]; [|done]; eapply caller_step_sem_inv; eassumption);
    try (destruct (workers m !! w) as [x|] eqn:Hw; [|done]; eapply worker_step_sem_inv; eassumption).
  - by injection E as <-.
  - destruct (proc m); try done. destruct (queue m) as [|i q] eqn:Hq; [done|]. injection E as <-.
    destruct Hm as (H1 & H2 & H3 & H4 & H5). rewrite Hq in H5. unfold sem_inv; simpl in *.
    split_and!; try done; lia.
  - destruct (proc m) as [|i|]; try done. simpl in E. destruct (has_slot m) eqn:Hs; [|done].
    injection E as <-. by apply acquire_sem_inv.
  - destruct (proc m) as [|i|]; try done. simpl in E. zcase_in E; [|done].
    injection E as <-. by apply offer_sem_inv.
  - destruct (proc m) as [|i|]; try done. injection E as <-. by apply offer_sem_inv.
  - destruct (proc m) as [|i|]; try done; simpl in E; destruct (stopChan m); try done; injection E as <-;
      [done|by apply offer_sem_inv].
  - by injection E as <-.
Qed.

Lemma new_sem_inv c : sem_inv (NewManagerWithConfig c).
Proof.
  unfold sem_inv; simpl. unfold sumZ; simpl. repeat zcase; lia.
Qed.

Lemma run_invariant (I : bulkheadManager -> Prop) m acts m' :
  (forall x a y, I x -> step x a = Some y -> I y) -> I m -> run m acts = Some m' -> I m'.
Proof.
  intros HI. revert m. induction acts as [|a acts IH]; intros m Hm E; simpl in E; [by simplify_eq|].
  destruct (step m a) as [m1|] eqn:E1; [|done]. eauto.
Qed.

(** The executions waiting for a slot: those in the channel and the one the
    queue processor has taken out of it and holds until a slot is free. *)
Definition held (p : processor) : list nat :=
  match p with PHolding i => [i] | _ => [] end.

Definition waiting_for_slot (m : bulkheadManager) : list nat := held (proc m) ++ queue m.

(** The processor takes an execution in hand only from the channel. *)
Lemma step_held m a m' :
  step m a = Some m' ->
  config m' = config m /\ (held (proc m') = held (proc m) \/ held (proc m') = [] \/ queue m <> []).
Proof.
  intros E. unfold step in E. destruct a.
  all: try (destruct (execs m !! i) as [e|]; [|done]; unfold caller_step in E;
    destruct (at_ e); try done; repeat (case_match; try done); injection E as <-; by auto).
  all: try (destruct (workers m !! w) as [x|] eqn:Hw; [|done]; unfold worker_step in E;
    destruct (ph x); try done).
  all: try (injection E as <-; by auto).
  - destruct (proc m); try done. destruct (queue m) as [|i q] eqn:Hq; [done|]. injection E as <-.
    split; [done|]. by right; right.
  - destruct (proc m) as [|i|]; try done. simpl in E. destruct (has_slot m); [|done].
    injection E as <-. auto.
  - destruct (proc m) as [|i|]; try done. simpl in E. zcase_in E; [|done]. injection E as <-.
    match goal with |- context [offer ?m i ?r] => destruct (offer_same m i r) as (-> & _ & _ & _ & ->) end. auto.
  - destruct (proc m) as [|i|]; try done. injection E as <-.
    match goal with |- context [offer ?m i ?r] => destruct (offer_same m i r) as (-> & _ & _ & _ & ->) end. auto.
  - destruct (proc m) as [|i|]; try done; simpl in E; destruct (stopChan m); try done; injection E as <-; [by auto|].
    match goal with |- context [offer ?m i ?r] => destruct (offer_same m i r) as (-> & _ & _ & _ & ->) end. auto.
  - injection E as <-. destruct e; by auto.
  - injection E as <-. simpl. destruct (direct x); [by auto|].
    destruct (offer_same m (owner x) r) as (-> & _ & _ & _ & ->). auto.
  - destruct (direct x); [|injection E as <-; by auto].
    destruct (execs _ !! owner x); injection E as <-; by auto.
Qed.

Definition held_inv (m : bulkheadManager) : Prop :=
  sem_inv m /\ (MaxQueueSize (config m) = 0 -> held (proc m) = []).

Lemma step_held_inv m a m' : held_inv m -> step m a = Some m' -> held_inv m'.
Proof.
  intros [Hs Hh] E. split; [by eapply step_sem_inv|].
  destruct (step_held _ _ _ E) as (-> & [->|[->|Hq]]); [done|done|].
  intros H0. destruct Hs as (_ & _ & _ & _ & Hlen). destruct (queue m); [done|]. simpl in Hlen. lia.
Qed.

Lemma new_held_none c :
  MaxQueueSize (config (NewManagerWithConfig c)) = 0 -> held (proc (NewManagerWithConfig c)) = [].
Proof. intros _. simpl. by destruct (0 <? _). Qed.

(** C6. However executions, the queue processor, timeouts, cancellations and Stop
    interleave, at most MaxConcurrency protected functions run at a time and the
    semaphore never holds more than that.  The channel never holds more than
    MaxQueueSize executions, but the processor holds one more in its hand, so the
    executions waiting for a slot are at most MaxQueueSize + 1; without a queue
    nothing waits. *)
Theorem bulkhead_concurrency_bound c acts m :
  run (NewManagerWithConfig c) acts = Some m ->
  running m <= semaphore m <= MaxConcurrency (config m) /\
  Z.of_nat (length (queue m)) <= MaxQueueSize (config m) /\
  Z.of_nat (length (waiting_for_slot m)) <= MaxQueueSize (config m) + 1 /\
  (MaxQueueSize (config m) = 0 -> waiting_for_slot m = []).
Proof.
  intros E. destruct (run_invariant held_inv _ _ _ step_held_inv
    (conj (new_sem_inv c) (new_held_none c)) E) as ((_ & _ & Hs & H4 & H5) & Hh).
  unfold waiting_for_slot. split_and!; try done.
  - rewrite Hs. apply running_le_holds.
  - rewrite length_app. destruct (proc m); simpl; lia.
  - intros H0. rewrite Hh by done. simpl. destruct (queue m); [done|]. simpl in H5. lia.
Qed.

Definition one_slot : Config := {| MaxConcurrency := 1; MaxQueueSize := 2; QueueTimeout := 0 |}.

(** Two executions: the first runs, the second queues and is taken by the
    processor. *)
Definition two_execs : list action :=
  [AExecute; AExecute; ASelectAcquire 0; AEnter 0; ASelectDefault 1; AEnqueue 1; ACounted 1; APop].

Lemma bulkhead_concurrency_bound_witness :
  exists m, run (NewManagerWithConfig one_slot) two_execs = Some m /\
    running m <= semaphore m <= 1 /\ Z.of_nat (length (waiting_for_slot m)) <= 3.
Proof.
  eexists. split; [vm_compute; reflexivity|].
  match goal with |- _ <= semaphore ?m <= _ /\ _ =>
    destruct (bulkhead_concurrency_bound one_slot two_execs m) as (H1 & _ & H2 & _);
      [vm_compute; reflexivity|] end.
  split; [exact H1|exact H2].
Defined.

(** With one slot and a queue of two, three more executions wait: two in the
    channel and one in the processor's hand. *)
Definition one_over_acts : list action :=
  two_execs ++ [AExecute; ASelectDefault 2; AEnqueue 2; ACounted 2;
                AExecute; ASelectDefault 3; AEnqueue 3; ACounted 3].

(** The bound is reached: MaxQueueSize + 1 callers wait for a slot, none of them
    answered and none of them running. *)
Theorem bulkhead_queue_one_over :
  exists m, run (NewManagerWithConfig one_slot) one_over_acts = Some m /\
    waiting_for_slot m = [1; 2; 3]%nat /\ MaxQueueSize (config m) = 2 /\
    Forall (fun i => execs m !! i = Some (mkExec CWaiting None)) (waiting_for_slot m).
Proof.
  eexists. split; [vm_compute; reflexivity|]. split_and!; try reflexivity.
  repeat constructor.
Qed.

(** ** No execution is lost or run twice *)

(** Every execution that reached the queue or a slot is in one of these places. *)
Definition located (m : bulkheadManager) : list nat :=
  queue m ++ held (proc m) ++ (owner <$> workers m).

Definition placed (c : caller) : Prop :=
  match c with CSelect | CEnqueue => False | _ => True end.

(** A worker that will still offer its result. *)
Definition pending (x : worker) : Prop :=
  direct x = false /\ match ph x with WAcquired | WRunning | WDone _ => True | _ => False end.

Definition accounted (m : bulkheadManager) (i : nat) (e : execution) : Prop :=
  i ∈ queue m \/ proc m = PHolding i \/ resultCh e <> None \/
  exists x, x ∈ workers m /\ owner x = i /\ pending x.

Definition loc_inv (m : bulkheadManager) : Prop :=
  NoDup (located m) /\
  (forall i, i ∈ located m -> exists e, execs m !! i = Some e /\ placed (at_ e)) /\
  (forall i e, execs m !! i = Some e -> at_ e = CQueued \/ at_ e = CWaiting -> accounted m i e).

Lemma new_loc_inv c : loc_inv (NewManagerWithConfig c).
Proof.
  assert (located (NewManagerWithConfig c) = []) as E.
  { unfold located; simpl. by destruct (0 <? _). }
  split; [rewrite E; constructor|]. split; [|by intros [|?] ? ?].
  rewrite E. intros i Hi. by apply elem_of_nil in Hi.
Qed.

(** Moving an execution that stays placed, keeps or fills its channel, and is
    not newly queued. *)
Lemma set_exec_loc_inv m i e e' :
  loc_inv m -> execs m !! i = Some e ->
  (placed (at_ e) -> placed (at_ e')) ->
  (at_ e' = CQueued \/ at_ e' = CWaiting ->
     (at_ e = CQueued \/ at_ e = CWaiting) /\ (resultCh e' = None -> resultCh e = None)) ->
  loc_inv (set_exec m i e').
Proof.
  intros (H1 & H2 & H3) He Hp Hq. split; [done|]. split.
  - intros j Hj. destruct (H2 j Hj) as (ej & Hej & Hpj). simpl.
    destruct (decide (i = j)) as [->|Hne].
    + exists e'. rewrite list_lookup_insert_eq by (by eapply lookup_lt_Some). simplify_eq. auto.
    + exists ej. by rewrite list_lookup_insert_ne.
  - intros j ej Hej Hat. simpl in Hej. destruct (decide (i = j)) as [->|Hne].
    + rewrite list_lookup_insert_eq in Hej by (by eapply lookup_lt_Some). simplify_eq.
      destruct (Hq Hat) as [Hq1 Hq2]. destruct (H3 _ _ He Hq1) as [?|[?|[Hr|?]]]; unfold accounted; simpl; eauto.
      right; right; left. intros Hn. by apply Hr, Hq2.
    + rewrite list_lookup_insert_ne in Hej by done. apply (H3 _ _ Hej Hat).
Qed.

Lemma loc_inv_ext m m' :
  queue m' = queue m -> proc m' = proc m -> workers m' = workers m -> execs m' = execs m ->
  loc_inv m -> loc_inv m'.
Proof. unfold loc_inv, located, accounted. by intros -> -> -> ->. Qed.

Lemma offer_loc_inv m i r : loc_inv m -> loc_inv (offer m i r).
Proof.
  intros Hm. unfold offer. destruct (execs m !! i) as [e|] eqn:He; [|done].
  eapply set_exec_loc_inv; [done|exact He|done|]. intros Hat. split; [done|].
  by destruct (resultCh e).
Qed.

(** A worker changes phase; if its result was still to come, it now is in the
    channel or still to come. *)
Lemma set_worker_loc_inv m w x p :
  loc_inv m -> workers m !! w = Some x ->
  (pending x -> pending (mkWorker (owner x) (direct x) p) \/
     forall e, execs m !! owner x = Some e -> resultCh e <> None) ->
  loc_inv (set_worker m w x p).
Proof.
  intros (H1 & H2 & H3) Hw Hp.
  assert (located (set_worker m w x p) = located m) as El.
  { unfold located; simpl. rewrite list_fmap_insert, list_insert_id; [done|]. simpl.
    by rewrite list_lookup_fmap, Hw. }
  split; [by rewrite El|]. split; [by rewrite El|].
  intros i e He Hat. simpl in He. destruct (H3 i e He Hat) as [?|[?|[?|(y & Hy & Ho & Hpy)]]];
    unfold accounted; simpl; eauto.
  apply list_elem_of_lookup in Hy as [v Hv]. destruct (decide (w = v)) as [->|Hne].
  - simplify_eq. destruct (Hp Hpy) as [Hp'|Hr]; [|eauto].
    right; right; right. eexists. split; [|split; [|exact Hp']]; [|done].
    apply list_elem_of_lookup. exists v. apply list_lookup_insert_eq. by eapply lookup_lt_Some.
  - right; right; right. exists y. split; [|done]. apply list_elem_of_lookup. exists v.
    by rewrite list_lookup_insert_ne.
Qed.

Lemma unplaced_not_located m i e :
  loc_inv m -> execs m !! i = Some e -> ~ placed (at_ e) -> i ∉ located m.
Proof. intros (_ & H2 & _) He Hp Hi. destruct (H2 i Hi) as (e' & He' & ?). by simplify_eq. Qed.

(** An execution that was nowhere enters the located ones, through the queue or
    as a worker of its own. *)
Lemma place_loc_inv m m' i e c :
  loc_inv m -> execs m !! i = Some e -> ~ placed (at_ e) -> placed c ->
  proc m' = proc m -> execs m' = <[i := mkExec c (resultCh e)]> (execs m) ->
  (queue m' = queue m ++ [i] /\ workers m' = workers m \/
   queue m' = queue m /\ workers m' = workers m ++ [mkWorker i true WAcquired] /\ c = CRunning) ->
  loc_inv m'.
Proof.
  intros Hm He Hnp Hpc Ep Ee Hcase. pose proof (unplaced_not_located m i e Hm He Hnp) as Hni.
  destruct Hm as (H1 & H2 & H3).
  assert (located m' ≡ₚ i :: located m) as El.
  { unfold located. rewrite Ep. destruct Hcase as [[-> ->]|(-> & -> & _)].
    - rewrite <- app_assoc. symmetry. apply Permutation_middle.
    - rewrite fmap_app. cbn [fmap list_fmap owner]. rewrite !app_assoc. symmetry. apply Permutation_cons_append. }
  split; [rewrite El; by constructor|]. split.
  - intros j Hj. rewrite El in Hj. rewrite Ee. destruct (decide (i = j)) as [->|Hne].
    + eexists. rewrite list_lookup_insert_eq by (by eapply lookup_lt_Some). by split.
    + rewrite list_lookup_insert_ne by done. apply H2. apply elem_of_cons in Hj as [->|?]; done.
  - intros j ej Hej Hat. rewrite Ee in Hej. destruct (decide (i = j)) as [->|Hne].
    + rewrite list_lookup_insert_eq in Hej by (by eapply lookup_lt_Some). simplify_eq.
      destruct Hcase as [[Eq _]|(_ & _ & ->)]; [|by destruct Hat].
      left. rewrite Eq. in_list.
    + rewrite list_lookup_insert_ne in Hej by done.
      destruct (H3 j ej Hej Hat) as [?|[?|[?|(x & ? & ?)]]]; unfold accounted; rewrite Ep.
      * left. destruct Hcase as [[-> _]|(-> & _ & _)]; in_list.
      * auto.
      * auto.
      * right; right; right. exists x. split; [|done].
        destruct Hcase as [[_ ->]|(_ & -> & _)]; in_list.
Qed.

Lemma holding_located m i : proc m = PHolding i -> i ∈ located m.
Proof. intros Hp. unfold located. rewrite Hp. in_list. Qed.

(** The processor starts a worker for the execution it holds. *)
Lemma acquire_held_loc_inv m i stop :
  loc_inv m -> proc m = PHolding i -> loc_inv (acquire (upd_queue m (queue m) PIdle stop) i false).
Proof.
  intros (H1 & H2 & H3) Hp.
  assert (located (acquire (upd_queue m (queue m) PIdle stop) i false) ≡ₚ located m) as El.
  { unfold located; simpl. rewrite Hp, fmap_app. simpl. apply Permutation_app_head.
    symmetry. apply Permutation_cons_append. }
  split; [by rewrite El|]. split; [intros j Hj; rewrite El in Hj; by apply H2|].
  intros j e He Hat. simpl in He.
  destruct (H3 j e He Hat) as [?|[Hj|[?|(x & ? & ?)]]]; unfold accounted; simpl; auto.
  - rewrite Hp in Hj. injection Hj as <-. right; right; right.
    eexists. split; [apply elem_of_app; right; apply list_elem_of_singleton; reflexivity|]. done.
  - right; right; right. exists x. split; [|done]. in_list.
Qed.

(** The processor gives up the execution it holds, offering it an error. *)
Lemma give_up_loc_inv m i r p stop :
  loc_inv m -> proc m = PHolding i -> held p = [] ->
  loc_inv (offer (upd_queue m (queue m) p stop) i r).
Proof.
  intros (H1 & H2 & H3) Hp Hh. destruct (H2 i (holding_located m i Hp)) as (e & He & Hpl).
  unfold offer; simpl. rewrite He.
  assert (forall j, j ∈ queue m ++ (owner <$> workers m) -> j ∈ located m) as Hsub.
  { intros j. unfold located. in_list. }
  split.
  { unfold located; simpl. rewrite Hh. simpl. apply (sublist_NoDup _ _ H1).
    unfold located. apply sublist_app; [done|]. by apply sublist_inserts_l. }
  split.
  - intros j Hj. unfold located in Hj; simpl in Hj. rewrite Hh in Hj. apply Hsub in Hj. simpl.
    destruct (decide (i = j)) as [->|Hne].
    + eexists. rewrite list_lookup_insert_eq by (by eapply lookup_lt_Some). done.
    + rewrite list_lookup_insert_ne by done. by apply H2.
  - intros j ej Hej Hat. simpl in Hej. destruct (decide (i = j)) as [->|Hne].
    + rewrite list_lookup_insert_eq in Hej by (by eapply lookup_lt_Some). simplify_eq.
      right; right; left. done.
    + rewrite list_lookup_insert_ne in Hej by done.
      destruct (H3 j ej Hej Hat) as [?|[Hj|[?|?]]]; unfold accounted; simpl; auto.
      rewrite Hp in Hj. congruence.
Qed.

Lemma caller_step_loc_inv m a i e m' :
  loc_inv m -> execs m !! i = Some e -> caller_step m a i e = Some m' -> loc_inv m'.
Proof.
  intros Hm He E. unfold caller_step in E.
  destruct a, (at_ e) eqn:Hat; try done.
  - destruct (has_slot m); [|done]. injection E as <-.
    eapply (place_loc_inv m _ i e CRunning); try done; [rewrite Hat; simpl; tauto|]. by right.
  - destruct (ctx_done c); [|done]. injection E as <-.
    apply (set_exec_loc_inv (count m 0 0 1 0 0 0) i e); try done. simpl. by intros [?|?].
  - destruct (has_slot m); [done|]. destruct (queuing m); injection E as <-;
      (eapply (set_exec_loc_inv); [|exact He| |]; [done|by rewrite Hat|by intros [?|?]]).
  - zcase_in E; injection E as <-.
    + eapply (place_loc_inv m _ i e CQueued); try done; [rewrite Hat; simpl; tauto|]. by left.
    + apply (set_exec_loc_inv (count m 0 0 1 0 0 0) i e); try done. simpl. by intros [?|?].
  - injection E as <-. eapply (set_exec_loc_inv m i e); try done. rewrite Hat. simpl. auto.
  - destruct (resultCh e) as [r|] eqn:Hr; [|done]. injection E as <-.
    eapply (set_exec_loc_inv m i e); try done. simpl. by intros [?|?].
  - destruct (ctx_done c); [|done]. injection E as <-.
    apply (set_exec_loc_inv (count m 0 0 1 0 0 (-1)) i e); try done. simpl. by intros [?|?].
Qed.

Lemma worker_step_loc_inv m a w x m' :
  loc_inv m -> workers m !! w = Some x -> worker_step m a w x = Some m' -> loc_inv m'.
Proof.
  intros Hm Hw E. unfold worker_step in E.
  destruct a, (ph x) eqn:Hp; try done.
  - injection E as <-. apply set_worker_loc_inv; [exact Hm|exact Hw|].
    intros [Hd _]. left. by split.
  - injection E as <-. apply set_worker_loc_inv; [by destruct e|by destruct e|].
    intros [Hd _]. left. by split.
  - injection E as <-. apply set_worker_loc_inv.
    + destruct (direct x); [done|by apply offer_loc_inv].
    + destruct (direct x); [done|]. by destruct (offer_same m (owner x) r) as (_&_&->&_).
    + intros [Hd _]. right. rewrite Hd. intros e. unfold offer.
      destruct (execs m !! owner x) as [e0|] eqn:He0; [|by rewrite He0]. simpl.
      rewrite list_lookup_insert_eq by (by eapply lookup_lt_Some). by intros [= <-].
  - injection E as <-. apply set_worker_loc_inv; [exact Hm|exact Hw|].
    intros [_ Hx]. by rewrite Hp in Hx.
  - assert (loc_inv (set_worker (upd_sem m (semaphore m) (currentConcurrency m +i32 (-1))) w x WExited)) as Hx.
    { apply set_worker_loc_inv; [exact Hm|exact Hw|]. intros [_ Hx]. by rewrite Hp in Hx. }
    destruct (direct x); [|by injection E as <-].
    destruct (execs _ !! owner x) as [e|] eqn:He; injection E as <-; [|done].
    eapply set_exec_loc_inv; [exact Hx|exact He|done|]. by intros [?|?].
Qed.

Lemma step_loc_inv m a m' : loc_inv m -> step m a = Some m' -> loc_inv m'.
Proof.
  intros Hm E. unfold step in E.
  destruct a;
    try (destruct (execs m !! i) as [e|] eqn:He; [|done]; eapply caller_step_loc_inv; eassumption);
    try (destruct (workers m !! w) as [x|] eqn:Hw; [|done]; eapply worker_step_loc_inv; eassumption).
  - injection E as <-. destruct Hm as (H1 & H2 & H3). split; [done|]. split.
    + intros i Hi. destruct (H2 i Hi) as (e & He & Hp). exists e. split; [|done]. simpl.
      by apply lookup_app_l_Some.
    + intros i e He Hat. simpl in He. apply lookup_app_Some in He as [He|[_ He]]; [by apply (H3 i e)|].
      apply list_lookup_singleton_Some in He as [_ <-]. by destruct Hat.
  - destruct (proc m) eqn:Hp; try done. destruct (queue m) as [|i q] eqn:Hq; [done|]. injection E as <-.
    destruct Hm as (H1 & H2 & H3).
    assert (located (upd_queue m q (PHolding i) (stopChan m)) ≡ₚ located m) as El.
    { unfold located; simpl. rewrite Hp, Hq. simpl. by rewrite Permutation_middle. }
    split; [by rewrite El|]. split; [intros j Hj; rewrite El in Hj; by apply H2|].
    intros j e He Hat. destruct (H3 j e He Hat) as [Hj|[Hj|[?|?]]]; unfold accounted; simpl; auto.
    + rewrite Hq in Hj. apply elem_of_cons in Hj as [->|?]; auto.
    + by rewrite Hp in Hj.
  - destruct (proc m) as [|i|] eqn:Hp; try done. simpl in E. destruct (has_slot m); [|done].
    injection E as <-. by apply acquire_held_loc_inv.
  - destruct (proc m) as [|i|] eqn:Hp; try done. simpl in E. zcase_in E; [|done].
    injection E as <-. by apply (give_up_loc_inv (count m 0 0 1 0 0 0)).
  - destruct (proc m) as [|i|] eqn:Hp; try done. injection E as <-.
    by apply (give_up_loc_inv (count m 0 0 1 0 0 0)).
  - destruct (proc m) as [|i|] eqn:Hp; try done; simpl in E; destruct (stopChan m); try done; injection E as <-.
    + destruct Hm as (H1 & H2 & H3). unfold loc_inv, located in *; simpl. rewrite Hp in H1, H2.
      split_and!; try done. intros i e He Hat.
      destruct (H3 i e He Hat) as [?|[Hx|[?|?]]]; unfold accounted; simpl; auto. by rewrite Hp in Hx.
    + by apply (give_up_loc_inv (count m 0 0 1 0 0 0)).
  - injection E as <-. by eapply loc_inv_ext; [..|exact Hm].
Qed.

Lemma run_loc_inv c acts m : run (NewManagerWithConfig c) acts = Some m -> loc_inv m.
Proof. apply run_invariant; [exact step_loc_inv|apply new_loc_inv]. Qed.

(** No execution runs twice and none is lost: in every interleaving the owners of
    the workers are distinct, and a caller that waits for a queued execution has
    it in the queue, in the processor's hand, in a worker that will still offer
    its result, or has the result in its channel. *)
Theorem bulkhead_runs_once_never_loses c acts m :
  run (NewManagerWithConfig c) acts = Some m ->
  NoDup (owner <$> workers m) /\
  forall i e, execs m !! i = Some e -> at_ e = CWaiting -> accounted m i e.
Proof.
  intros (H1 & _ & H3)%run_loc_inv. split; [|eauto].
  unfold located in H1. apply NoDup_app in H1 as (_ & _ & H1). by apply NoDup_app in H1 as (_ & _ & H1).
Qed.

Lemma bulkhead_runs_once_never_loses_witness :
  exists m, run (NewManagerWithConfig one_slot) two_execs = Some m /\
    accounted m 1 (mkExec CWaiting None).
Proof.
  eexists. split; [vm_compute; reflexivity|].
  eapply (bulkhead_runs_once_never_loses one_slot two_execs); vm_compute; reflexivity.
Defined.

(** ** After Stop *)

(** Execution [i] waits in the queue of a stopped processor. *)
Definition stranded (i : nat) (m : bulkheadManager) : Prop :=
  loc_inv m /\ proc m = PStopped /\ i ∈ queue m /\ execs m !! i = Some (mkExec CWaiting None).

Lemma stranded_not_owner i m x : stranded i m -> x ∈ workers m -> owner x <> i.
Proof.
  intros ((H1 & _) & _ & Hi & _) Hx <-. unfold located in H1. apply NoDup_app in H1 as (_ & H1 & _).
  apply (H1 (owner x) Hi). apply elem_of_app. right. by apply list_elem_of_fmap_2.
Qed.

Lemma offer_other m j i r : j <> i -> execs (offer m j r) !! i = execs m !! i.
Proof.
  intros Hne. unfold offer. destruct (execs m !! j); [|done]. simpl. by rewrite list_lookup_insert_ne.
Qed.

Lemma stranded_step i m a m' :
  (forall c, a <> AWaitDone i c) -> stranded i m -> step m a = Some m' -> stranded i m'.
Proof.
  intros Ha Hm E. pose proof Hm as (Hl & Hp & Hi & He).
  split; [by eapply step_loc_inv|]. unfold step in E.
  destruct a; rewrite ?Hp in E; try done.
  1: { injection E as <-. split_and!; try done. by apply lookup_app_l_Some. }
  1-7: destruct (execs m !! i0) as [e|] eqn:He0; [|done]; unfold caller_step in E;
    destruct (at_ e) eqn:Hat; try done; destruct (decide (i0 = i)) as [->|Hne];
    simplify_eq; try done.
  all: try (exfalso; by apply (Ha c)).
  1-8: repeat (case_match; try done); simplify_eq; split_and!; simpl; try done; try in_list;
    by rewrite list_lookup_insert_ne.
  all: destruct (workers m !! w) as [x|] eqn:Hw; [|done].
  all: pose proof (stranded_not_owner i m x Hm ltac:(by eapply list_elem_of_lookup_2)) as Hown.
  all: unfold worker_step in E; destruct (ph x); try done; try (injection E as <-; done).
  - injection E as <-. by destruct e.
  - injection E as <-. destruct (direct x); [done|].
    destruct (offer_same m (owner x) r) as (_ & _ & _ & Eq & Ep).
    split_and!; simpl; [by rewrite Ep|by rewrite Eq|]. by rewrite offer_other.
  - destruct (direct x); [|by injection E as <-].
    destruct (execs _ !! owner x); injection E as <-; split_and!; simpl; try done.
    by rewrite list_lookup_insert_ne.
Qed.

(** One execution runs and another is queued when Stop closes the channel; the
    processor sees it first. *)
Definition stopped_acts : list action :=
  [AExecute; AExecute; ASelectAcquire 0; AEnter 0; ASelectDefault 1; AEnqueue 1; ACounted 1;
   AStop; AProcStop].

(** Stop does not drain the queue: an execution queued when the processor stops
    is never run and its caller never gets a result; it returns only if its own
    context is done. *)
Theorem bulkhead_stop_strands_queued :
  exists c acts m i,
    run (NewManagerWithConfig c) acts = Some m /\
    forall acts' m', (forall ctx, AWaitDone i ctx ∉ acts') -> run m acts' = Some m' ->
      execs m' !! i = Some (mkExec CWaiting None) /\ Forall (fun x => owner x <> i) (workers m').
Proof.
  exists one_slot, stopped_acts. eexists. exists 1%nat. split; [vm_compute; reflexivity|].
  intros acts' m' Ha Hrun.
  match type of Hrun with run ?m _ = _ => assert (stranded 1 m) as Hs end.
  { split; [by apply (run_loc_inv one_slot stopped_acts)|]. split_and!; try done. by left. }
  assert (stranded 1 m') as Hs'; [|split; [apply Hs'|]].
  - revert Hs Hrun. generalize dependent m'. 
    match goal with |- forall m', stranded 1 ?m -> _ => generalize m end.
    induction acts' as [|a acts' IH]; intros m m' Hs Hrun; simpl in Hrun; [by simplify_eq|].
    destruct (step m a) as [m1|] eqn:E; [|done]. apply (IH ltac:(intros ctx Hc; apply (Ha ctx); by right) m1); [|done].
    eapply stranded_step; [|exact Hs|exact E]. intros ctx ->. apply (Ha ctx). by left.
  - apply Forall_forall. intros x Hx. by eapply stranded_not_owner.
Qed.

(** ** Rejections are counted twice *)

(** The queued caller's context is done: the caller counts a rejection, and so
    does the processor that holds it. *)
Definition double_acts : list action :=
  two_execs ++ [AWaitDone 1 CtxCanceled; AProcDone].

(** A queued execution whose context is cancelled counts two rejections: the
    totals of accepted and rejected executions exceed the executions made. *)
Theorem bulkhead_double_rejection :
  exists c acts m,
    run (NewManagerWithConfig c) acts = Some m /\
    TotalExecutions m = 2 /\ TotalAccepted m = 1 /\ TotalRejected m = 2.
Proof.
  exists one_slot, double_acts. eexists. split; [vm_compute; reflexivity|]. done.
Qed.
