(* ===== verification/Rate.v ===== *)
(** * Rate tracker (pkg/core/resilience/rate/rate.go)

    A ring of event counters.  The rate itself is the total divided by the
    length of the window in floating point; the model gives the total and the
    window it stands for. *)
From S2P Require Import Prelude.

Record Config : Type := mkConfig {
  Window : Z;         (** nanoseconds *)
  Granularity : Z
}.

Definition DefaultConfig : Config := mkConfig 1000000000 10.

Record rateManager : Type := mkRate {
  config : Config;
  buckets : list Z;
  currentIdx : nat;
  bucketSize : Z;
  lastUpdate : Z;
  totalEvents : Z;
  firstEvent : option Z;
  lastEvent : option Z
}.

Definition normalize (c : Config) : Config :=
  mkConfig (if Window c <=? 0 then Window DefaultConfig else Window c)
    (if Granularity c <=? 0 then Granularity DefaultConfig else Granularity c).

Definition NewManagerWithConfig (c : Config) (now : Z) : rateManager :=
  let c := normalize c in
  let b := Window c / Granularity c in
  {| config := c; buckets := replicate (Z.to_nat (Granularity c)) 0; currentIdx := 0;
     bucketSize := if b <=? 0 then 1000000 else b; lastUpdate := now; totalEvents := 0;
     firstEvent := None; lastEvent := None |}.

Definition set_buckets (m : rateManager) (bs : list Z) (i : nat) : rateManager :=
  {| config := config m; buckets := bs; currentIdx := i; bucketSize := bucketSize m;
     lastUpdate := lastUpdate m; totalEvents := totalEvents m; firstEvent := firstEvent m;
     lastEvent := lastEvent m |}.

Definition set_lastUpdate (m : rateManager) (now : Z) : rateManager :=
  {| config := config m; buckets := buckets m; currentIdx := currentIdx m; bucketSize := bucketSize m;
     lastUpdate := now; totalEvents := totalEvents m; firstEvent := firstEvent m; lastEvent := lastEvent m |}.

(** One turn of the loop that advances the ring. *)
Definition advance1 (m : rateManager) : rateManager :=
  let i := ((currentIdx m + 1) mod Z.to_nat (Granularity (config m)))%nat in
  set_buckets m (<[i := 0]> (buckets m)) i.

Definition updateBuckets (m : rateManager) (now : Z) : rateManager :=
  let elapsed := now - lastUpdate m in
  if elapsed <? bucketSize m then m
  else
    let n := elapsed / bucketSize m in
    let m :=
      if Granularity (config m) <=? n
      then set_buckets m (replicate (length (buckets m)) 0) 0
      else Nat.iter (Z.to_nat n) advance1 m in
    set_lastUpdate m now.

(** [now1] is the clock at the call; the context is not nil. *)
Definition RecordN (m : rateManager) (n now : Z) : rateManager :=
  if n <=? 0 then m
  else
    let m := {| config := config m; buckets := buckets m; currentIdx := currentIdx m;
                bucketSize := bucketSize m; lastUpdate := lastUpdate m;
                totalEvents := totalEvents m +i64 n;
                firstEvent := match firstEvent m with None => Some now | f => f end;
                lastEvent := Some now |} in
    let m := updateBuckets m now in
    let i := currentIdx m in
    set_buckets m (<[i := (default 0 (buckets m !! i)) +i64 n]> (buckets m)) i.

Definition Record_ (m : rateManager) (now : Z) : rateManager := RecordN m 1 now.

Definition bucketsInWindow (m : rateManager) (window : Z) : Z :=
  let w := if window <=? 0 then Window (config m) else window in
  let n := w / bucketSize m in
  let n := if Granularity (config m) <? n then Granularity (config m) else n in
  if n <=? 0 then 1 else n.

(** The index the loop reads: [k] buckets of the window, the [i]th of them. *)
Definition window_idx (m : rateManager) (k i : Z) : nat :=
  Z.to_nat ((Z.of_nat (currentIdx m) - k + 1 + i + Granularity (config m)) mod Granularity (config m)).

Definition sum_i64 (l : list Z) : Z := fold_left (fun t c => t +i64 c) l 0.

(** The new state, the total and the window it covers. *)
Definition RateWithWindow (m : rateManager) (window now : Z) : rateManager * Z * Z :=
  let m := updateBuckets m now in
  let k := bucketsInWindow m window in
  let total :=
    if Granularity (config m) <=? k then sum_i64 (buckets m)
    else sum_i64 ((fun i => default 0 (buckets m !! window_idx m k (Z.of_nat i))) <$> seq 0 (Z.to_nat k)) in
  (m, total, k * bucketSize m).

Definition Rate (m : rateManager) (now : Z) : rateManager * Z * Z :=
  RateWithWindow m (Window (config m)) now.

(** ** The ring as a queue of buckets, newest first *)

Definition gran (m : rateManager) : nat := Z.to_nat (Granularity (config m)).

Definition ring_ok (m : rateManager) : Prop :=
  0 < Granularity (config m) /\ 0 < bucketSize m /\ length (buckets m) = gran m /\
  (currentIdx m < gran m)%nat.

(** The bucket [i] steps back. *)
Definition back (m : rateManager) (i : nat) : Z :=
  default 0 (buckets m !! ((currentIdx m + gran m - i) mod gran m)%nat).

Lemma back_idx g c i : (c < g)%nat -> (i < g)%nat ->
  ((c + g - i) mod g = if decide (i <= c) then c - i else c + g - i)%nat.
Proof.
  intros Hc Hi. case_decide.
  - replace (c + g - i)%nat with ((c - i) + 1 * g)%nat by lia. rewrite Nat.Div0.mod_add. apply Nat.mod_small. lia.
  - apply Nat.mod_small. lia.
Qed.

Lemma advance1_ok m : ring_ok m -> ring_ok (advance1 m).
Proof.
  intros (Hg & Hb & Hl & Hi). unfold ring_ok, advance1, gran in *; simpl. rewrite length_insert.
  split_and!; try done. apply Nat.mod_upper_bound. lia.
Qed.

Lemma advance1_back m i : ring_ok m -> (i < gran m)%nat ->
  back (advance1 m) i = match i with O => 0 | S j => back m j end.
Proof.
  intros (Hg & Hb & Hl & Hc) Hi. unfold back, advance1, gran in *; simpl in *.
  set (g := Z.to_nat (Granularity (config m))) in *.
  set (c' := ((currentIdx m + 1) mod g)%nat).
  assert (c' = if decide (currentIdx m + 1 = g)%nat then 0%nat else (currentIdx m + 1)%nat) as Ec'.
  { unfold c'. case_decide as E; [rewrite E; apply Nat.Div0.mod_same|apply Nat.mod_small; lia]. }
  assert (c' < g)%nat by (apply Nat.mod_upper_bound; lia).
  rewrite back_idx by done. destruct i as [|j].
  - rewrite decide_True by lia. rewrite Nat.sub_0_r, list_lookup_insert_eq by lia. done.
  - rewrite back_idx by lia. rewrite list_lookup_insert_ne.
    + f_equal. f_equal. rewrite Ec'. repeat case_decide; lia.
    + repeat case_decide; lia.
Qed.

Lemma iter_advance k m : ring_ok m ->
  ring_ok (Nat.iter k advance1 m) /\ config (Nat.iter k advance1 m) = config m /\
  bucketSize (Nat.iter k advance1 m) = bucketSize m /\ lastUpdate (Nat.iter k advance1 m) = lastUpdate m /\
  forall i, (i < gran m)%nat ->
    back (Nat.iter k advance1 m) i = if decide (i < k)%nat then 0 else back m (i - k).
Proof.
  intros Hok. induction k as [|k (IH1 & IH2 & IH3 & IH4 & IH5)]; simpl.
  { split_and!; try done. intros i Hi. by rewrite Nat.sub_0_r. }
  split_and!; try done; [by apply advance1_ok|]. intros i Hi.
  rewrite advance1_back; [|done|unfold gran in *; by rewrite IH2].
  destruct i as [|i]; [by rewrite decide_True by lia|]. rewrite IH5 by lia.
  repeat case_decide; try lia; done.
Qed.

(** ** Which events are counted *)

(** Times and counts. *)
Notation events := (list (Z * Z)).

Definition weight (l : events) : Z := sumZ (snd <$> l).

(** Bucket [i] steps back holds the events [kept !! i]; [u] is the last update,
    [b] the size of a bucket. *)
Definition aged (b u : Z) (i : nat) (l : events) : Prop :=
  Forall (fun e => (Z.of_nat i - 1) * b < u - e.1 <= 2 * Z.of_nat i * b) l.

Definition older (age now : Z) (l : events) : Prop := Forall (fun e => age < now - e.1) l.

Definition rate_inv (m : rateManager) (hist : events) (kept : list events) (dropped : events) : Prop :=
  ring_ok m /\ length kept = gran m /\
  (forall i l, kept !! i = Some l ->
     back m i = i64 (weight l) /\ aged (bucketSize m) (lastUpdate m) i l) /\
  older ((Granularity (config m) - 1) * bucketSize m) (lastUpdate m) dropped /\
  hist ≡ₚ concat kept ++ dropped.

Lemma older_later age now now' l : now <= now' -> older age now l -> older age now' l.
Proof. intros Hn Hl. eapply Forall_impl; [exact Hl|]. intros e. simpl. lia. Qed.

Lemma concat_older b u i l age now :
  (forall j x, l !! j = Some x -> aged b u (i + j) x) -> 0 < b ->
  age + b < Z.of_nat i * b + (now - u) + 1 -> older age now (concat l).
Proof.
  intros Hl Hb Hage. apply Forall_concat, Forall_lookup. intros j x Hj.
  eapply Forall_impl; [exact (Hl j x Hj)|]. intros e [He _]. cbv beta in *.
  assert (Z.of_nat i * b <= Z.of_nat (i + j) * b) by nia. nia.
Qed.

Lemma concat_nils {A} n : concat (replicate n (@nil A)) = [].
Proof. by induction n. Qed.

Lemma update_inv m hist kept dropped now :
  rate_inv m hist kept dropped -> lastUpdate m <= now ->
  exists kept' dropped', rate_inv (updateBuckets m now) hist kept' dropped' /\
    config (updateBuckets m now) = config m /\ bucketSize (updateBuckets m now) = bucketSize m /\
    lastUpdate (updateBuckets m now) <= now < lastUpdate (updateBuckets m now) + bucketSize m.
Proof.
  intros (Hr & Hlen & Hk & Hd & Hp) Hnow. unfold updateBuckets.
  pose proof Hr as (Hg & Hb & Hbl & Hc).
  destruct (Z.ltb_spec (now - lastUpdate m) (bucketSize m)) as [Hlt|Hge].
  { exists kept, dropped. split; [by split_and!|]. split_and!; try done; lia. }
  set (n := (now - lastUpdate m) / bucketSize m).
  pose proof (Z.div_mod (now - lastUpdate m) (bucketSize m) ltac:(lia)) as Hdm.
  pose proof (Z.mod_pos_bound (now - lastUpdate m) (bucketSize m) Hb) as Hmod. fold n in Hdm.
  assert (1 <= n) by (unfold n; apply Z.div_le_lower_bound; lia).
  destruct (Z.leb_spec (Granularity (config m)) n) as [Hfull|Hpart].
  - exists (replicate (gran m) []), (dropped ++ concat kept). split.
    + split_and!; simpl; try done.
      * unfold ring_ok, gran in *; simpl. rewrite length_replicate. split_and!; try done. lia.
      * by rewrite length_replicate.
      * intros i l Hi. apply lookup_replicate in Hi as [-> Hi]. split; [|by constructor].
        unfold back; simpl. rewrite lookup_replicate_2; [done|]. rewrite Hbl. unfold gran in *; simpl in *.
        apply Nat.mod_upper_bound. lia.
      * apply Forall_app. split; [by eapply older_later|].
        apply (concat_older (bucketSize m) (lastUpdate m) 0); [by apply Hk|done|nia].
      * rewrite concat_nils, Hp. solve_Permutation.
    + simpl. split_and!; try done; lia.
  - destruct (iter_advance (Z.to_nat n) m Hr) as (I1 & I2 & I3 & I4 & I5).
    exists (replicate (Z.to_nat n) [] ++ take (gran m - Z.to_nat n) kept),
      (dropped ++ concat (drop (gran m - Z.to_nat n) kept)).
    assert (Z.to_nat n < gran m)%nat as Hng by (unfold gran; lia). split.
    + split_and!; try (by destruct I1 as (? & ? & ? & ?)).
      * rewrite length_app, length_replicate, length_take. unfold gran in *; simpl. rewrite I2. lia.
      * intros i l Hi. unfold back in *; simpl. fold (back (Nat.iter (Z.to_nat n) advance1 m) i).
        change (gran (set_lastUpdate (Nat.iter (Z.to_nat n) advance1 m) now))
          with (gran (Nat.iter (Z.to_nat n) advance1 m)).
        assert (i < gran m)%nat as Hig.
        { apply lookup_lt_Some in Hi. rewrite length_app, length_replicate, length_take in Hi. lia. }
        rewrite I5 by done. rewrite I3. apply lookup_app_Some in Hi as [Hi|[Hge' Hi]].
        -- apply lookup_replicate in Hi as [-> Hi]. rewrite decide_True by done. split; [done|by constructor].
        -- rewrite length_replicate in *. rewrite decide_False by lia.
           apply lookup_take_Some in Hi as [Hi _]. destruct (Hk _ _ Hi) as [-> Ha]. split; [done|].
           eapply Forall_impl; [exact Ha|]. intros e He. cbv beta in *.
           assert (Z.of_nat (i - Z.to_nat n) = Z.of_nat i - n) as E by lia. rewrite E in He. nia.
      * simpl. rewrite I2, I3. apply Forall_app. split; [by eapply older_later|].
        apply (concat_older (bucketSize m) (lastUpdate m) (gran m - Z.to_nat n)); [|done|].
        -- intros j x Hj. rewrite lookup_drop in Hj. by apply Hk.
        -- unfold gran in *. assert (Z.of_nat (Z.to_nat (Granularity (config m)) - Z.to_nat n) =
             Granularity (config m) - n) as -> by lia. nia.
      * rewrite concat_app, concat_nils. simpl. rewrite Hp.
        rewrite <- (take_drop (gran m - Z.to_nat n) kept) at 1. rewrite concat_app. solve_Permutation.
    + simpl. rewrite I2, I3. split_and!; try done; lia.
Qed.

Lemma weight_cons e l : weight (e :: l) = e.2 + weight l.
Proof. done. Qed.

Lemma back_set m i x : ring_ok m -> (i < gran m)%nat ->
  back (set_buckets m (<[currentIdx m := x]> (buckets m)) (currentIdx m)) i =
    if decide (i = 0)%nat then x else back m i.
Proof.
  intros (Hg & Hb & Hl & Hc) Hi. unfold back, gran in *; simpl in *. rewrite back_idx by done.
  destruct (decide (i = 0%nat)) as [->|E].
  - rewrite decide_True by lia. by rewrite Nat.sub_0_r, list_lookup_insert_eq by lia.
  - rewrite list_lookup_insert_ne; [done|]. case_decide; lia.
Qed.

Lemma record_inv m hist kept dropped n now :
  rate_inv m hist kept dropped -> lastUpdate m <= now -> 0 < n ->
  exists kept' dropped', rate_inv (RecordN m n now) ((now, n) :: hist) kept' dropped' /\
    lastUpdate (RecordN m n now) <= now /\ config (RecordN m n now) = config m /\
    bucketSize (RecordN m n now) = bucketSize m.
Proof.
  intros Hinv Hnow Hn. unfold RecordN. destruct (Z.leb_spec n 0); [lia|].
  match goal with |- context [updateBuckets ?x now] => set (m0 := x) end.
  assert (rate_inv m0 hist kept dropped) as H0 by exact Hinv.
  destruct (update_inv m0 hist kept dropped now H0 Hnow) as (kept1 & dropped1 & H1 & Ec & Eb & Hu).
  set (m1 := updateBuckets m0 now) in *. destruct H1 as (Hr & Hlen & Hk & Hd & Hp).
  pose proof Hr as (Hg & Hb & Hbl & Hc).
  destruct kept1 as [|l0 kept1]; [simpl in Hlen; unfold gran in *; lia|].
  exists (((now, n) :: l0) :: kept1), dropped1. split; [|simpl; split_and!; try done; lia].
  assert (default 0 (buckets m1 !! currentIdx m1) = i64 (weight l0)) as E0.
  { destruct (Hk 0%nat l0 eq_refl) as [<- _]. unfold back, gran in *. rewrite back_idx by lia.
    rewrite decide_True by lia. by rewrite Nat.sub_0_r. }
  split_and!.
  - unfold ring_ok, gran in *; simpl. rewrite length_insert. by split_and!.
  - done.
  - intros i l Hi. rewrite back_set; [|done|].
    2:{ apply lookup_lt_Some in Hi. simpl in *. rewrite <- Hlen. done. }
    simpl. destruct i as [|i]; simpl in Hi.
    + injection Hi as <-. rewrite decide_True by done. rewrite E0, weight_cons, i64_absorb. simpl.
      split; [f_equal; lia|]. constructor; [simpl; rewrite Eb; lia|]. by destruct (Hk 0%nat l0 eq_refl).
    + rewrite decide_False by done. by apply (Hk (S i)).
  - done.
  - simpl. by rewrite Hp.
Qed.

(** A clock that does not go back. *)
Fixpoint clocked (last : Z) (ops : events) : Prop :=
  match ops with
  | [] => True
  | e :: ops => last <= e.1 /\ clocked e.1 ops
  end.

Definition record_all (m : rateManager) (ops : events) : rateManager :=
  fold_left (fun m e => RecordN m e.2 e.1) ops m.

Definition last_time (start : Z) (ops : events) : Z := List.last (map fst ops) start.

Lemma record_all_inv ops m hist kept dropped start :
  rate_inv m hist kept dropped -> lastUpdate m <= start -> clocked start ops ->
  Forall (fun e => 0 < e.2) ops ->
  exists kept' dropped', rate_inv (record_all m ops) (rev ops ++ hist) kept' dropped' /\
    lastUpdate (record_all m ops) <= last_time start ops /\ config (record_all m ops) = config m /\
    bucketSize (record_all m ops) = bucketSize m.
Proof.
  revert m hist kept dropped start.
  induction ops as [|[t n] ops IH]; intros m hist kept dropped start Hinv Hu Hcl Hpos.
  { exists kept, dropped. by split_and!. }
  destruct Hcl as [Ht Hcl]. apply Forall_cons in Hpos as [Hn Hpos]. simpl in *.
  destruct (record_inv m hist kept dropped n t Hinv ltac:(lia) Hn) as (k1 & d1 & H1 & Hu1 & Ec & Eb).
  destruct (IH (RecordN m n t) _ k1 d1 t H1 Hu1 Hcl Hpos) as (k2 & d2 & H2 & Hu2 & Ec2 & Eb2).
  exists k2, d2. rewrite <- app_assoc. simpl. split_and!; try congruence; try done.
  unfold last_time in *. simpl. destruct ops as [|e ops]; [done|].
  assert (forall x y l, List.last (map fst (e :: l)) x = List.last (map fst (e :: l)) y) as Hany.
  { clear. intros x y l. revert e. induction l as [|f l IHl]; intros e; [done|]. apply (IHl f). }
  by rewrite (Hany start t).
Qed.

Lemma new_inv c now : rate_inv (NewManagerWithConfig c now) [] (replicate (Z.to_nat (Granularity (normalize c))) []) [].
Proof.
  assert (0 < Granularity (normalize c)) as Hg by (unfold normalize; simpl; zcrush).
  split_and!; simpl; try done.
  - unfold ring_ok, gran; simpl in *. rewrite length_replicate. split_and!; try done; try lia. zcrush.
  - by rewrite length_replicate.
  - intros i l [-> Hi]%lookup_replicate. split; [|by constructor]. unfold back, gran; simpl.
    rewrite lookup_replicate_2; [done|]. apply Nat.mod_upper_bound. simpl in Hg. lia.
  - constructor.
  - by rewrite concat_nils.
Qed.

(** ** The totals *)

Lemma sum_i64_spec l : sum_i64 l = i64 (sumZ l).
Proof.
  unfold sum_i64. assert (forall t, fold_left (fun t c => t +i64 c) l (i64 t) = i64 (t + sumZ l)) as H.
  { induction l as [|x l IH]; intros t; [simpl; unfold sumZ; simpl; f_equal; lia|].
    simpl. rewrite i64_absorb, IH. unfold sumZ; simpl. f_equal. lia. }
  apply (H 0).
Qed.

Lemma sumZ_perm l l' : l ≡ₚ l' -> sumZ l = sumZ l'.
Proof. unfold sumZ. induction 1; simpl; lia. Qed.

(** The [k] newest buckets, as the loop reads them. *)
Lemma window_back m k i : ring_ok m -> (i < k)%nat -> (k <= gran m)%nat ->
  default 0 (buckets m !! window_idx m (Z.of_nat k) (Z.of_nat i)) = back m (k - 1 - i).
Proof.
  intros (Hg & Hb & Hl & Hc) Hi Hk. unfold back, window_idx, gran in *. f_equal. f_equal.
  rewrite back_idx by lia.
  replace (Z.of_nat (currentIdx m) - Z.of_nat k + 1 + Z.of_nat i + Granularity (config m))
    with (Z.of_nat (currentIdx m + Z.to_nat (Granularity (config m)) - (k - 1 - i))) by lia.
  rewrite <- (Z2Nat.id (Granularity (config m))) at 2 by lia. rewrite <- Nat2Z.inj_mod, Nat2Z.id.
  by rewrite back_idx by lia.
Qed.

Lemma all_buckets m : ring_ok m -> sumZ (buckets m) = sumZ (back m <$> seq 0 (gran m)).
Proof.
  intros (Hg & Hb & Hl & Hc). apply sumZ_perm.
  assert (buckets m = (fun i => default 0 (buckets m !! i)) <$> seq 0 (gran m)) as Hall.
  { apply list_eq. intros i. rewrite list_lookup_fmap. destruct (decide (i < gran m)%nat) as [Hi|Hi].
    - rewrite lookup_seq_lt by done. simpl. destruct (lookup_lt_is_Some_2 (buckets m) i) as [x Hx]; [lia|].
      by rewrite Hx.
    - rewrite lookup_seq_ge, lookup_ge_None_2 by lia. done. }
  assert ((fun i => ((currentIdx m + gran m - i) mod gran m)%nat) <$> seq 0 (gran m) ≡ₚ seq 0 (gran m)) as Hrot.
  { apply submseteq_length_Permutation; [apply NoDup_submseteq|by rewrite length_fmap].
    - apply NoDup_fmap_2_strong; [|apply NoDup_seq]. intros x y Hx%elem_of_seq Hy%elem_of_seq.
      rewrite !back_idx by lia. repeat case_decide; lia.
    - intros x (i & -> & Hi%elem_of_seq)%list_elem_of_fmap. apply elem_of_seq.
      pose proof (Nat.mod_upper_bound (currentIdx m + gran m - i) (gran m)). lia. }
  rewrite Hall at 1. etransitivity; [apply fmap_Permutation; symmetry; exact Hrot|]. by rewrite <- list_fmap_compose.
Qed.

(** What RateWithWindow adds up: the buckets less than [k] steps back. *)
Lemma total_back m k : ring_ok m -> 1 <= k <= Granularity (config m) ->
  (if Granularity (config m) <=? k then sum_i64 (buckets m)
   else sum_i64 ((fun i => default 0 (buckets m !! window_idx m k (Z.of_nat i))) <$> seq 0 (Z.to_nat k))) =
  i64 (sumZ (back m <$> seq 0 (Z.to_nat k))).
Proof.
  intros Hr Hk. destruct (Z.leb_spec (Granularity (config m)) k) as [Hge|Hlt]; rewrite sum_i64_spec.
  - rewrite all_buckets by done. unfold gran. by replace k with (Granularity (config m)) by lia.
  - f_equal. apply sumZ_perm.
    assert ((fun i => default 0 (buckets m !! window_idx m k (Z.of_nat i))) <$> seq 0 (Z.to_nat k) =
      back m <$> ((fun i => Z.to_nat k - 1 - i)%nat <$> seq 0 (Z.to_nat k))) as ->.
    { rewrite <- list_fmap_compose. apply list_fmap_ext. intros j x Hx. apply lookup_seq in Hx as [-> Hj]. simpl.
      rewrite <- (Z2Nat.id k) at 1 by lia. apply window_back; [done|lia|unfold gran; lia]. }
    apply fmap_Permutation. apply submseteq_length_Permutation; [apply NoDup_submseteq|by rewrite length_fmap].
    + apply NoDup_fmap_2_strong; [|apply NoDup_seq]. intros x y Hx%elem_of_seq Hy%elem_of_seq. lia.
    + intros x (i & -> & Hi%elem_of_seq)%list_elem_of_fmap. apply elem_of_seq. lia.
Qed.

Lemma backs_weight m kept (k : nat) :
  (forall i l, kept !! i = Some l -> back m i = i64 (weight l)) -> (k <= length kept)%nat ->
  i64 (sumZ (back m <$> seq 0 k)) = i64 (weight (concat (take k kept))).
Proof.
  intros Hk. induction k as [|k IH]; intros Hlen; [done|].
  destruct (lookup_lt_is_Some_2 kept k) as [l Hl]; [lia|].
  rewrite seq_S, fmap_app, sumZ_app, (take_S_r _ _ _ Hl), concat_app. simpl. rewrite app_nil_r.
  unfold weight in *. rewrite fmap_app, sumZ_app. rewrite (Hk k l Hl). unfold sumZ at 2; simpl.
  rewrite Z.add_0_r, Z.add_comm, i64_absorb, Z.add_comm. apply i64_add_cong, IH. lia.
Qed.

(** C28. Record events one after the other, then ask for the rate over any window.
    The total is, up to 64-bit wrap-around, the number of a set of the events
    recorded: with the window rounded to k buckets of b nanoseconds, it contains
    every event of the last (k - 1) b nanoseconds and none that is (2 k - 1) b
    old.  The upper bound is not k b because advancing the ring drops the part
    of a bucket that has already elapsed. *)
Theorem rate_window c start ops now window :
  clocked start ops -> last_time start ops <= now -> Forall (fun e => 0 < e.2) ops ->
  let m := record_all (NewManagerWithConfig c start) ops in
  let k := bucketsInWindow (updateBuckets m now) window in
  let b := bucketSize (NewManagerWithConfig c start) in
  exists counted others total,
    (RateWithWindow m window now).1.2 = total /\ (RateWithWindow m window now).2 = k * b /\
    ops ≡ₚ counted ++ others /\ total = i64 (weight counted) /\
    Forall (fun e => now - e.1 < (2 * k - 1) * b) counted /\
    Forall (fun e => (k - 1) * b < now - e.1) others.
Proof.
  intros Hcl Hlast Hpos m k b.
  destruct (record_all_inv ops (NewManagerWithConfig c start) [] _ [] start (new_inv c start) ltac:(done) Hcl Hpos)
    as (kept & dropped & Hinv & Hu & Ec & Eb). fold m in Hinv, Hu, Ec, Eb. rewrite app_nil_r in Hinv.
  destruct (update_inv m _ kept dropped now Hinv ltac:(lia)) as (kept' & dropped' & Hinv' & Ec' & Eb' & Hu').
  set (m' := updateBuckets m now) in *. destruct Hinv' as (Hr & Hlen & Hk & Hd & Hp).
  assert (bucketSize m' = b) as Ebb by (unfold b; congruence). rewrite Ebb in *. rewrite Eb in Hu'.
  pose proof Hr as (Hg & Hb & _).
  assert (1 <= k <= Granularity (config m')) as Hkr.
  { unfold k, bucketsInWindow. repeat zcase; lia. }
  exists (concat (take (Z.to_nat k) kept')), (concat (drop (Z.to_nat k) kept') ++ dropped').
  eexists. split; [reflexivity|]. unfold RateWithWindow. fold m' k. simpl. split_and!.
  - by rewrite Ebb.
  - rewrite app_assoc, <- concat_app, take_drop, <- Hp. apply Permutation_rev.
  - rewrite total_back by done. apply backs_weight; [apply Hk|]. unfold gran in *. lia.
  - apply Forall_concat, Forall_lookup. intros i l [Hi Hlt]%lookup_take_Some.
    destruct (Hk i l Hi) as [_ Ha]. eapply Forall_impl; [exact Ha|]. intros e He. cbv beta in *.
    assert (Z.of_nat i <= k - 1) by lia. rewrite ?Ebb in *. nia.
  - apply Forall_app. split.
    + eapply (concat_older b (lastUpdate m') (Z.to_nat k)); [|lia|].
      * intros j x Hj. rewrite lookup_drop in Hj. destruct (Hk _ _ Hj) as [_ Ha]. by rewrite ?Ebb in Ha.
      * nia.
    + rewrite ?Ebb in Hd. eapply Forall_impl; [exact Hd|]. intros e He. cbv beta in *. nia.
Qed.

Lemma rate_window_witness :
  let m := record_all (NewManagerWithConfig (mkConfig 100 10) 0) [(3, 1); (22, 2); (41, 3)] in
  exists counted others total,
    (RateWithWindow m 100 50).1.2 = total /\ total = i64 (weight counted) /\
    [(3, 1); (22, 2); (41, 3)] ≡ₚ counted ++ others.
Proof.
  destruct (rate_window (mkConfig 100 10) 0 [(3, 1); (22, 2); (41, 3)] 50 100) as (x & y & z & H1 & _ & H2 & H3 & _).
  - simpl. lia.
  - vm_compute. discriminate.
  - repeat constructor.
  - exists x, y, z. split; [exact H1|]. split; [exact H3|exact H2].
Defined.

(** One event every 19 nanoseconds into ten buckets of 10: the tracker still
    counts an event that is 171 nanoseconds old as one of the last 100. *)
Theorem rate_overcounts :
  let ops := (fun i => (19 * Z.of_nat i, 1)) <$> seq 0 10 in
  let '(_, total, w) := Rate (record_all (NewManagerWithConfig (mkConfig 100 10) 0) ops) 171 in
  total = 10 /\ w = 100 /\ weight (List.filter (fun e => 171 - e.1 <? 100) ops) = 6.
Proof. vm_compute. split_and!; reflexivity. Qed.
