(* ===== verification/Hedge.v ===== *)
(** * Hedged execution (pkg/core/resilience/hedge/hedge.go)

    One call of ExecuteWithConfig: a goroutine per function behind a semaphore, a
    goroutine that closes the result channel when all of them are done, and the
    caller that collects results.  Each moves one atomic operation at a time; what
    a function returns, and when the caller's context is cancelled, is chosen by
    the schedule.  Callbacks and the time of the last execution are left out. *)
From S2P Require Import Prelude.

Record Config : Type := mkConfig {
  MaxConcurrency : Z;
  CancelRemainingOnSuccess : bool
}.

Definition DefaultConfig : Config := mkConfig 3 true.

Record Stats : Type := mkStats {
  TotalExecutions : Z;
  TotalHedgeAttempts : Z;
  TotalHedgeSuccesses : Z;
  TotalHedgeFailures : Z;
  TotalAllHedgesFailed : Z;
  TotalCancelled : Z
}.

(** The counters to add to: executions, attempts, successes, failures, all failed, cancelled. *)
Definition count (st : Stats) (e a s f al c : Z) : Stats :=
  mkStats (TotalExecutions st +i64 e) (TotalHedgeAttempts st +i64 a) (TotalHedgeSuccesses st +i64 s)
    (TotalHedgeFailures st +i64 f) (TotalAllHedgesFailed st +i64 al) (TotalCancelled st +i64 c).

(** The defaults ExecuteWithConfig sets. *)
Definition normalize (c : Config) (n : nat) : Config :=
  let k := if MaxConcurrency c <=? 0 then MaxConcurrency DefaultConfig else MaxConcurrency c in
  mkConfig (if Z.of_nat n <? k then Z.of_nat n else k) (CancelRemainingOnSuccess c).

(** Where a hedge goroutine is; errors are numbers, [None] is nil. *)
Inductive pc : Type :=
| Acquire                      (** before the semaphore *)
| Check                        (** before the look at the context *)
| Attempt                      (** before the attempt is counted *)
| Calling                      (** in the function *)
| Returned (e : option Z)      (** before the second look at the context *)
| Once                         (** before once.Do *)
| CountSuccess
| SendSuccess
| CountFailure (e : Z)
| SendFailure (e : Z)
| Release                      (** before the semaphore is released *)
| Leaving                      (** before wg.Done *)
| Exited.

#[export] Instance pc_eq_dec : EqDecision pc.
Proof. solve_decision. Defined.

(** Where the caller is: [successReceived] and [errorMap], or what it returned. *)
Inductive mpc : Type :=
| Collect (success : bool) (errorMap : gmap nat Z)
| DrainRest (success : bool) (errorMap : gmap nat Z)
| Process (success : bool) (errorMap : gmap nat Z)
| ReturnNil
| ReturnAllFailed (errors : list Z).

Record hedge : Type := mkHedge {
  config : Config;
  stats : Stats;
  parentDone : bool;                       (** the caller's context *)
  cancelled : bool;                        (** cancel was called *)
  successIndex : option nat;
  semaphore : Z;
  resultCh : list (nat * option Z);
  resultClosed : bool;
  resultChanClosed : bool;
  main : mpc;
  threads : list pc;
  returned : list (nat * option Z)         (** what the functions returned, in order *)
}.

Definition ctxDone (h : hedge) : bool := parentDone h || cancelled h.

Definition set_stats (h : hedge) (st : Stats) : hedge :=
  mkHedge (config h) st (parentDone h) (cancelled h) (successIndex h) (semaphore h) (resultCh h)
    (resultClosed h) (resultChanClosed h) (main h) (threads h) (returned h).

Definition set_semaphore (h : hedge) (k : Z) : hedge :=
  mkHedge (config h) (stats h) (parentDone h) (cancelled h) (successIndex h) k (resultCh h)
    (resultClosed h) (resultChanClosed h) (main h) (threads h) (returned h).

Definition set_ch (h : hedge) (l : list (nat * option Z)) : hedge :=
  mkHedge (config h) (stats h) (parentDone h) (cancelled h) (successIndex h) (semaphore h) l
    (resultClosed h) (resultChanClosed h) (main h) (threads h) (returned h).

Definition set_closed (h : hedge) (a b : bool) : hedge :=
  mkHedge (config h) (stats h) (parentDone h) (cancelled h) (successIndex h) (semaphore h) (resultCh h)
    a b (main h) (threads h) (returned h).

Definition set_main (h : hedge) (m : mpc) : hedge :=
  mkHedge (config h) (stats h) (parentDone h) (cancelled h) (successIndex h) (semaphore h) (resultCh h)
    (resultClosed h) (resultChanClosed h) m (threads h) (returned h).

Definition set_thread (h : hedge) (i : nat) (p : pc) : hedge :=
  mkHedge (config h) (stats h) (parentDone h) (cancelled h) (successIndex h) (semaphore h) (resultCh h)
    (resultClosed h) (resultChanClosed h) (main h) (<[i := p]> (threads h)) (returned h).

Definition set_cancelled (h : hedge) : hedge :=
  mkHedge (config h) (stats h) (parentDone h) true (successIndex h) (semaphore h) (resultCh h)
    (resultClosed h) (resultChanClosed h) (main h) (threads h) (returned h).

Definition set_parent (h : hedge) : hedge :=
  mkHedge (config h) (stats h) true (cancelled h) (successIndex h) (semaphore h) (resultCh h)
    (resultClosed h) (resultChanClosed h) (main h) (threads h) (returned h).

(** once.Do: the first success stores its index and cancels. *)
Definition once_do (h : hedge) (i : nat) : hedge :=
  match successIndex h with
  | Some _ => h
  | None =>
      mkHedge (config h) (stats h) (parentDone h) true (Some i) (semaphore h) (resultCh h)
        (resultClosed h) (resultChanClosed h) (main h) (threads h) (returned h)
  end.

Definition log_return (h : hedge) (i : nat) (e : option Z) : hedge :=
  mkHedge (config h) (stats h) (parentDone h) (cancelled h) (successIndex h) (semaphore h) (resultCh h)
    (resultClosed h) (resultChanClosed h) (main h) (threads h) (returned h ++ [(i, e)]).

(** The channel holds as many results as there are functions. *)
Definition has_room (h : hedge) : bool := (length (resultCh h) <? length (threads h))%nat.

(** What the schedule decides in a goroutine: which case of a select, what the
    function returns. *)
Inductive choice : Type :=
| Go
| PickDone
| Answer (e : option Z).

(** The last look at the context decides what happens to a returned value. *)
Definition after_call (h : hedge) (e : option Z) : hedge * pc :=
  let next := match e with
              | Some err => CountFailure err
              | None => if CancelRemainingOnSuccess (config h) then Once else CountSuccess
              end in
  if CancelRemainingOnSuccess (config h) && ctxDone h
  then (set_stats h (count (stats h) 0 0 0 0 0 1), match e with Some _ => Release | None => next end)
  else (h, next).

(** One operation of goroutine [i]; [None] is a goroutine that blocks. *)
Definition hedge_go (h : hedge) (i : nat) (p : pc) (c : choice) : option (outcome (hedge * pc)) :=
  match p, c with
  | Acquire, Go =>
      if semaphore h <? MaxConcurrency (config h)
      then Some (Ret (set_semaphore h (semaphore h + 1),
                      if CancelRemainingOnSuccess (config h) then Check else Attempt))
      else None
  | Check, Go =>
      if ctxDone h then Some (Ret (set_stats h (count (stats h) 0 0 0 0 0 1), Release))
      else Some (Ret (h, Attempt))
  | Attempt, Go => Some (Ret (set_stats h (count (stats h) 0 1 0 0 0 0), Calling))
  | Calling, Answer e => Some (Ret (log_return h i e, Returned e))
  | Returned e, Go => Some (Ret (after_call h e))
  | Once, Go => Some (Ret (once_do h i, CountSuccess))
  | CountSuccess, Go => Some (Ret (set_stats h (count (stats h) 0 0 1 0 0 0), SendSuccess))
  | SendSuccess, Go =>
      if resultClosed h then Some Panic
      else Some (Ret (if has_room h then set_ch h (resultCh h ++ [(i, None)]) else h, Release))
  | CountFailure e, Go => Some (Ret (set_stats h (count (stats h) 0 0 0 1 0 0), SendFailure e))
  | SendFailure e, Go =>
      if resultClosed h then Some Panic
      else if has_room h then Some (Ret (set_ch h (resultCh h ++ [(i, Some e)]), Release)) else None
  | SendFailure e, PickDone => if ctxDone h then Some (Ret (h, Release)) else None
  | Release, Go => Some (Ret (set_semaphore h (semaphore h - 1), Leaving))
  | Leaving, Go => Some (Ret (h, Exited))
  | _, _ => None
  end.

(** A result in the loops of the caller. *)
Definition note (success : bool) (m : gmap nat Z) (r : nat * option Z) : bool * gmap nat Z :=
  match r with
  | (_, None) => (true, m)
  | (i, Some e) => (success, <[i := e]> m)
  end.

(** The errors in the order of the functions. *)
Definition ordered (n : nat) (m : gmap nat Z) : list Z := omap (fun i => m !! i) (seq 0 n).

(** One operation of the caller; [closed] chooses the second case of its select.
    Returning runs the deferred cancel. *)
Definition main_go (h : hedge) (closed : bool) : option hedge :=
  match main h with
  | Collect s m =>
      if closed then if resultChanClosed h then Some (set_main h (DrainRest s m)) else None
      else match resultCh h with
           | [] => if resultClosed h then Some (set_main h (Process s m)) else None
           | r :: rest =>
               let '(s', m') := note s m r in
               if negb s && s' && CancelRemainingOnSuccess (config h)
               then Some (set_main (set_cancelled (set_ch h rest)) ReturnNil)
               else Some (set_main (set_ch h rest) (Collect s' m'))
           end
  | DrainRest s m =>
      match resultCh h with
      | [] => if resultClosed h then Some (set_main h (Process s m)) else None
      | r :: rest => let '(s', m') := note s m r in Some (set_main (set_ch h rest) (DrainRest s' m'))
      end
  | Process true _ => Some (set_main (set_cancelled h) ReturnNil)
  | Process false m =>
      Some (set_main (set_cancelled (set_stats h (count (stats h) 0 0 0 0 1 0)))
              (ReturnAllFailed (ordered (length (threads h)) m)))
  | ReturnNil | ReturnAllFailed _ => None
  end.

Definition all_exited (h : hedge) : bool := forallb (fun p => bool_decide (p = Exited)) (threads h).

Inductive action : Type :=
| Thread (i : nat) (c : choice)
| Main (closed : bool)
| CloseResults          (** the goroutine that waits for the group: close(resultCh) *)
| CloseSignal           (** then close(resultChanClosed) *)
| Drain                 (** the goroutine that empties the channel after an early return *)
| CancelParent.

Definition hstep (h : hedge) (a : action) : option (outcome hedge) :=
  match a with
  | Thread i c =>
      p ← threads h !! i;
      o ← hedge_go h i p c;
      Some ('(h', p') ← o; Ret (set_thread h' i p'))
  | Main b => h' ← main_go h b; Some (Ret h')
  | CloseResults =>
      if all_exited h && negb (resultClosed h) then Some (Ret (set_closed h true (resultChanClosed h))) else None
  | CloseSignal =>
      if resultClosed h && negb (resultChanClosed h) then Some (Ret (set_closed h true true)) else None
  | Drain =>
      match main h, resultCh h with
      | ReturnNil, _ :: rest =>
          if CancelRemainingOnSuccess (config h) then Some (Ret (set_ch h rest)) else None
      | _, _ => None
      end
  | CancelParent => if parentDone h then None else Some (Ret (set_parent h))
  end.

Fixpoint run (h : hedge) (acts : list action) : option (outcome hedge) :=
  match acts with
  | [] => Some (Ret h)
  | a :: acts =>
      match hstep h a with
      | Some (Ret h') => run h' acts
      | o => o
      end
  end.

Inductive hedge_error : Type :=
| ErrCodeNilContext
| ErrCodeNilFunction.

(** The checks of the call and its start; a function is [None] when it is nil. *)
Definition ExecuteWithConfig {F} (ctx_nil : bool) (functions : list (option F)) (c : Config) (st : Stats)
    (parent : bool) : result hedge_error hedge :=
  if ctx_nil then Err ErrCodeNilContext
  else if (length functions =? 0)%nat then Err ErrCodeNilFunction
  else if existsb (fun f => match f with None => true | Some _ => false end) functions then Err ErrCodeNilFunction
  else Ok (mkHedge (normalize c (length functions)) (count st 1 0 0 0 0 0) parent false None 0 [] false false
             (Collect false ∅) (replicate (length functions) Acquire) []).

(** ** The invariant *)

Definition holds (p : pc) : Z :=
  match p with Acquire | Leaving | Exited => 0 | _ => 1 end.

Definition passed (p : pc) : bool :=
  match p with Release | Leaving | Exited => true | _ => false end.

(** Some function has returned nil. *)
Definition succeeded (h : hedge) : Prop := exists j, (j, None) ∈ returned h.

Definition got_success (m : mpc) : bool :=
  match m with Collect s _ | DrainRest s _ | Process s _ => s | ReturnNil => true | ReturnAllFailed _ => false end.

Definition known (m : mpc) : gmap nat Z :=
  match m with Collect _ e | DrainRest _ e | Process _ e => e | _ => ∅ end.

Definition gave_up (m : mpc) : Prop := exists l, m = ReturnAllFailed l.

(** A goroutine may only go without reporting its error for one of these reasons. *)
Definition excused (h : hedge) : Prop := parentDone h = true \/ succeeded h \/ gave_up (main h).

Definition reported (h : hedge) (i : nat) : Prop :=
  exists e, (i, Some e) ∈ returned h /\ ((i, Some e) ∈ resultCh h \/ known (main h) !! i = Some e).

Definition thread_ok (h : hedge) (i : nat) (p : pc) : Prop :=
  (passed p = false -> forall e, (i, e) ∉ resultCh h) /\
  match p with
  | Acquire | Check | Attempt | Calling => forall e, (i, e) ∉ returned h
  | Returned e => (i, e) ∈ returned h
  | Once | CountSuccess | SendSuccess => (i, None) ∈ returned h
  | CountFailure e | SendFailure e => (i, Some e) ∈ returned h
  | Release | Leaving | Exited =>
      (excused h \/ reported h i) /\
      ((i, None) ∈ returned h -> (i, None) ∈ resultCh h \/ got_success (main h) = true)
  end.

Definition map_ok (h : hedge) (m : gmap nat Z) : Prop :=
  forall i e, m !! i = Some e -> (i, Some e) ∈ returned h /\ (i < length (threads h))%nat.

Definition main_ok (h : hedge) : Prop :=
  match main h with
  | Collect s m | DrainRest s m => map_ok h m /\ (s = true -> succeeded h)
  | Process s m => map_ok h m /\ (s = true -> succeeded h) /\ resultClosed h = true /\ resultCh h = []
  | ReturnNil => succeeded h
  | ReturnAllFailed errors =>
      resultClosed h = true /\ ~ succeeded h /\
      exists m, map_ok h m /\ errors = ordered (length (threads h)) m /\
        (parentDone h = false -> forall i, (i < length (threads h))%nat -> is_Some (m !! i))
  end.

Record hedge_ok (h : hedge) : Prop := {
  ok_max : 1 <= MaxConcurrency (config h);
  ok_sem : semaphore h = sumZ (holds <$> threads h) /\ semaphore h <= MaxConcurrency (config h);
  ok_threads : forall i p, threads h !! i = Some p -> thread_ok h i p;
  ok_ch : NoDup (resultCh h).*1 /\
          forall i e, (i, e) ∈ resultCh h -> (i, e) ∈ returned h /\ (i < length (threads h))%nat;
  ok_returned : NoDup (returned h).*1 /\ forall i e, (i, e) ∈ returned h -> (i < length (threads h))%nat;
  ok_closed : (resultClosed h = true -> Forall (eq Exited) (threads h)) /\
              (resultChanClosed h = true -> resultClosed h = true);
  ok_ctx : cancelled h = true -> excused h;
  ok_main : main_ok h
}.

Lemma all_exited_spec h : all_exited h = true <-> Forall (eq Exited) (threads h).
Proof.
  unfold all_exited. rewrite forallb_forall, Forall_forall. setoid_rewrite <- list_elem_of_In.
  split; intros H p Hp; specialize (H p Hp); [by apply bool_decide_eq_true in H|by apply bool_decide_eq_true].
Qed.

(** The room for a goroutine that has not reported. *)
Lemma room_to_send h i p : hedge_ok h -> threads h !! i = Some p -> passed p = false -> has_room h = true.
Proof.
  intros Hok Hi Hp. unfold has_room. apply Nat.ltb_lt.
  destruct (ok_threads _ Hok i p Hi) as [Hnot _]. destruct (ok_ch _ Hok) as [Hnd Hin].
  assert (length (i :: (resultCh h).*1) <= length (seq 0 (length (threads h))))%nat as Hle.
  { apply submseteq_length, NoDup_submseteq.
    - constructor; [|done]. intros ([j e] & -> & He)%list_elem_of_fmap. by apply (Hnot Hp e).
    - intros j [->|Hj]%elem_of_cons; apply elem_of_seq.
      + apply lookup_lt_Some in Hi. lia.
      + apply list_elem_of_fmap in Hj as ([k e] & -> & He). apply Hin in He as [_ He]. simpl. lia. }
  simpl in Hle. rewrite length_fmap, length_seq in Hle. lia.
Qed.

(** What one operation of a goroutine does to the shared state. *)
Definition ch_grows (h h' : hedge) (i : nat) (p p' : pc) : Prop :=
  resultCh h' = resultCh h \/
  passed p = false /\ passed p' = true /\ exists e, resultCh h' = resultCh h ++ [(i, e)] /\ (i, e) ∈ returned h.

Ltac go_cases H :=
  repeat match type of H with
  | context [match ?x with _ => _ end] => destruct x eqn:?; simpl in H; try discriminate H
  end; injection H as <- <-.

Lemma go_shared h i p c h' p' : hedge_go h i p c = Some (Ret (h', p')) ->
  config h' = config h /\ parentDone h' = parentDone h /\ main h' = main h /\ threads h' = threads h /\
  resultClosed h' = resultClosed h /\ resultChanClosed h' = resultChanClosed h.
Proof.
  destruct p, c; simpl; unfold after_call; intros H; try discriminate H; go_cases H; try done.
  unfold once_do. by case_match.
Qed.

Lemma go_semaphore h i p c h' p' : hedge_go h i p c = Some (Ret (h', p')) ->
  semaphore h' = semaphore h + holds p' - holds p /\
  (semaphore h <= MaxConcurrency (config h) -> semaphore h' <= MaxConcurrency (config h)).
Proof.
  destruct p, c; simpl; unfold after_call, once_do; intros H; try discriminate H; go_cases H; simpl;
    repeat case_match; simpl; lia.
Qed.

Lemma go_history h i p c h' p' : hedge_go h i p c = Some (Ret (h', p')) -> thread_ok h i p ->
  (cancelled h' = cancelled h \/ p = Once) /\
  (returned h' = returned h \/ p = Calling /\ exists e, returned h' = returned h ++ [(i, e)]) /\
  ch_grows h h' i p p'.
Proof.
  unfold ch_grows. destruct p, c; simpl; unfold after_call, once_do; intros H Ht; try discriminate H; go_cases H; simpl;
    try (split_and!; by eauto); destruct Ht as [_ Ht]; split_and!; eauto 8.
Qed.

(** [h'] is [h] after an operation of goroutine [i], its program counter apart. *)
Definition after_go (h h' : hedge) (i : nat) : Prop :=
  parentDone h' = parentDone h /\ main h' = main h /\
  exists rl cl, returned h' = returned h ++ rl /\ resultCh h' = resultCh h ++ cl /\
    (forall r, r ∈ rl \/ r ∈ cl -> r.1 = i).

Lemma go_after h i p c h' p' : hedge_go h i p c = Some (Ret (h', p')) -> thread_ok h i p -> after_go h h' i.
Proof.
  intros H Ht. destruct (go_shared _ _ _ _ _ _ H) as (_ & Ep & Em & _).
  destruct (go_history _ _ _ _ _ _ H Ht) as (_ & Hr & Hc). split_and!; [done..|].
  destruct Hr as [Hr|(_ & e & Hr)]; destruct Hc as [Hc|(_ & _ & e' & Hc & _)].
  - exists [], []. rewrite !app_nil_r. split_and!; try done. intros r [Hx|Hx]; by apply elem_of_nil in Hx.
  - exists [], [(i, e')]. rewrite app_nil_r. split_and!; try done.
    intros r [Hx|Hx]; [by apply elem_of_nil in Hx|by apply list_elem_of_singleton in Hx as ->].
  - exists [(i, e)], []. rewrite app_nil_r. split_and!; try done.
    intros r [Hx|Hx]; [by apply list_elem_of_singleton in Hx as ->|by apply elem_of_nil in Hx].
  - exists [(i, e)], [(i, e')]. split_and!; try done.
    intros r [Hx|Hx]; by apply list_elem_of_singleton in Hx as ->.
Qed.

Lemma after_keeps h h' i r : after_go h h' i ->
  (r ∈ returned h -> r ∈ returned h') /\ (r ∈ resultCh h -> r ∈ resultCh h').
Proof. intros (_ & _ & rl & cl & -> & -> & _). split; intros H; apply elem_of_app; by left. Qed.

Lemma after_other h h' i j e : after_go h h' i -> j <> i ->
  ((j, e) ∈ returned h' -> (j, e) ∈ returned h) /\ ((j, e) ∈ resultCh h' -> (j, e) ∈ resultCh h).
Proof.
  intros (_ & _ & rl & cl & -> & -> & Hi) Hj. split; intros [H|H]%elem_of_app; try done.
  - destruct Hj. by apply (Hi (j, e)); left.
  - destruct Hj. by apply (Hi (j, e)); right.
Qed.

Lemma after_excused h h' i : after_go h h' i -> excused h -> excused h'.
Proof.
  intros Ha. pose proof Ha as (Ep & Em & _). unfold excused, succeeded. rewrite Ep, Em.
  intros [H|[[j H]|H]]; [by left| |by right; right]. right; left. exists j. by apply (after_keeps h h' i).
Qed.

Lemma after_reported h h' i j : after_go h h' i -> reported h j -> reported h' j.
Proof.
  intros Ha. pose proof Ha as (_ & Em & _). unfold reported. rewrite Em. intros (e & H1 & H2).
  pose proof (after_keeps h h' i (j, Some e) Ha) as [Hr Hc]. exists e. split; [auto|]. destruct H2; auto.
Qed.

Lemma thread_ok_other h h' i j q : after_go h h' i -> j <> i -> thread_ok h j q -> thread_ok h' j q.
Proof.
  intros Ha Hj [H1 H2]. pose proof Ha as (_ & Em & _).
  assert (forall e, (j, e) ∈ returned h -> (j, e) ∈ returned h') as Hk by (intros e; apply (after_keeps h h' i); done).
  split.
  - intros Hp e He. apply (H1 Hp e). by apply (after_other h h' i).
  - destruct q; auto; try (intros e He; apply (H2 e); by apply (after_other h h' i)).
    all: destruct H2 as [He Hn]; split;
      [destruct He; [left; by eapply after_excused|right; by eapply after_reported]|].
    all: rewrite Em; intros Hin; apply (after_other h h' i) in Hin; [|done..]; destruct (Hn Hin); [left|by right];
      by apply (after_keeps h h' i).
Qed.

Lemma thread_ok_set h i p j q : thread_ok (set_thread h i p) j q <-> thread_ok h j q.
Proof. done. Qed.

Lemma fst_unique {A} (l : list (nat * A)) i a b : NoDup l.*1 -> (i, a) ∈ l -> (i, b) ∈ l -> a = b.
Proof.
  intros Hnd [x Hx]%list_elem_of_lookup [y Hy]%list_elem_of_lookup.
  assert (x = y) as ->; [|congruence].
  eapply NoDup_lookup; [exact Hnd| |]; rewrite list_lookup_fmap; [by rewrite Hx|by rewrite Hy].
Qed.

Lemma ctx_excused h : hedge_ok h -> ctxDone h = true -> excused h.
Proof. intros Hok [H|H]%orb_true_iff; [by left|by apply (ok_ctx _ Hok)]. Qed.

(** A goroutine that leaves with its error unreported, and one that leaves with it. *)
Lemma leave_excused h i e : hedge_ok h -> ctxDone h = true -> (i, Some e) ∈ returned h ->
  (excused h \/ reported h i) /\ ((i, None) ∈ returned h -> (i, None) ∈ resultCh h \/ got_success (main h) = true).
Proof.
  intros Hok Hc He. split; [left; by apply ctx_excused|]. intros Hn.
  by pose proof (fst_unique _ _ _ _ (proj1 (ok_returned _ Hok)) He Hn).
Qed.

Lemma own_thread_ok h i p c h' p' : hedge_ok h -> threads h !! i = Some p ->
  hedge_go h i p c = Some (Ret (h', p')) -> thread_ok h' i p'.
Proof.
  intros Hok Hi H. pose proof (ok_threads _ Hok i p Hi) as Ht.
  pose proof (room_to_send h i p Hok Hi) as Hroom. destruct Ht as [Hch Ht].
  destruct p, c; simpl in H; try discriminate H; unfold after_call in H.
  - go_cases H; by split.
  - go_cases H; split; try done. split; [left; by apply (ctx_excused h)|]. intros Hn. by apply Ht in Hn.
  - go_cases H; by split.
  - go_cases H. split; [done|]. apply elem_of_app. right. by apply list_elem_of_singleton.
  - go_cases H; try by split.
    split; [done|]. apply andb_true_iff in Heqb as [_ Hc]. by eapply (leave_excused h i).
  - injection H as <- <-. unfold once_do. case_match; by split.
  - injection H as <- <-. by split.
  - rewrite (Hroom eq_refl) in H. go_cases H. split; [done|]. split; [left; right; left; by exists i|].
    intros _. left. apply elem_of_app. right. by apply list_elem_of_singleton.
  - injection H as <- <-. by split.
  - go_cases H. split; [done|]. split.
    + right. exists e. split; [done|]. left. apply elem_of_app. right. by apply list_elem_of_singleton.
    + intros Hn. by pose proof (fst_unique _ _ _ _ (proj1 (ok_returned _ Hok)) Ht Hn).
  - go_cases H. split; [done|]. by eapply leave_excused.
  - injection H as <- <-. by split.
  - injection H as <- <-. by split.
Qed.

Lemma NoDup_snoc_fst {A} (l : list (nat * A)) i a : NoDup l.*1 -> (forall b, (i, b) ∉ l) -> NoDup (l ++ [(i, a)]).*1.
Proof.
  intros Hnd Hi. rewrite fmap_app. apply NoDup_app. split_and!; [done| |apply NoDup_singleton].
  intros j Hj ->%list_elem_of_singleton. apply list_elem_of_fmap in Hj as ([k b] & Hk & Hb). simpl in Hk. subst. by apply (Hi b).
Qed.

Lemma main_ok_go h h' i : after_go h h' i -> threads h' = threads h -> resultClosed h' = resultClosed h ->
  ~ Forall (eq Exited) (threads h) -> (resultClosed h = true -> Forall (eq Exited) (threads h)) ->
  main_ok h -> main_ok h'.
Proof.
  intros Ha Et Er Hn Hcl. pose proof Ha as (Ep & Em & _). unfold main_ok, map_ok, succeeded.
  rewrite Em, Et, Er.
  assert (forall r, r ∈ returned h -> r ∈ returned h') as Hk by (intros r; apply (after_keeps h h' i); done).
  destruct (main h).
  - intros [H1 H2]. split; [intros j e Hj; destruct (H1 j e Hj); auto|]. intros Hs. destruct (H2 Hs) as [j Hj]. eauto.
  - intros [H1 H2]. split; [intros j e Hj; destruct (H1 j e Hj); auto|]. intros Hs. destruct (H2 Hs) as [j Hj]. eauto.
  - intros (_ & _ & Hc & _). by destruct Hn; apply Hcl.
  - intros [j Hj]. eauto.
  - intros (Hc & _). by destruct Hn; apply Hcl.
Qed.

Lemma hedge_thread_ok h i p c h' p' : hedge_ok h -> threads h !! i = Some p ->
  hedge_go h i p c = Some (Ret (h', p')) -> hedge_ok (set_thread h' i p').
Proof.
  intros Hok Hi H. pose proof (ok_threads _ Hok i p Hi) as Ht.
  destruct (go_shared _ _ _ _ _ _ H) as (Ec & Ep & Em & Et & Er & Es).
  destruct (go_semaphore _ _ _ _ _ _ H) as [Hs1 Hs2]. destruct (go_history _ _ _ _ _ _ H Ht) as (Hca & Hre & Hgr).
  pose proof (go_after _ _ _ _ _ _ H Ht) as Ha. pose proof (own_thread_ok _ _ _ _ _ _ Hok Hi H) as Hown.
  assert (p <> Exited) as Hne by (intros ->; by destruct c).
  assert (~ Forall (eq Exited) (threads h)) as Hnot.
  { intros HF. rewrite Forall_lookup in HF. by apply Hne; symmetry; apply (HF i). }
  assert (i < length (threads h))%nat as Hlt by (by eapply lookup_lt_Some).
  destruct (ok_sem _ Hok) as [Hsem Hmax]. destruct (ok_ch _ Hok) as [Hnd Hin].
  split; simpl; rewrite ?length_insert, ?Et, ?Ec.
  - apply (ok_max _ Hok).
  - rewrite (sumZ_fmap_insert holds (threads h) i p' p) by done. lia.
  - intros j q Hj. apply list_lookup_insert_Some in Hj as [(-> & -> & _)|[Hji Hj]]; [by apply thread_ok_set|].
    apply thread_ok_set. eapply thread_ok_other; [exact Ha|done|by apply (ok_threads _ Hok)].
  - destruct Hgr as [Hgr|(Hp & Hp' & e & Hgr & He)]; rewrite Hgr.
    + split; [done|]. intros j e He. destruct (Hin j e He). split; [by apply (after_keeps h h' i)|done].
    + split; [apply NoDup_snoc_fst; [done|]; intros b; by apply Ht|].
      intros j b [Hb|Hb]%elem_of_app.
      * destruct (Hin j b Hb). split; [by apply (after_keeps h h' i)|done].
      * apply list_elem_of_singleton in Hb as [= -> ->]. split; [by apply (after_keeps h h' i)|done].
  - destruct (ok_returned _ Hok) as [Hnr Hlr].
    destruct Hre as [Hre|(-> & e & Hre)]; rewrite Hre; [done|]. split; [apply NoDup_snoc_fst; [done|apply Ht]|].
    intros j b [Hb|Hb]%elem_of_app; [by eapply Hlr|]. by apply list_elem_of_singleton in Hb as [= -> ->].
  - rewrite Er, Es. destruct (ok_closed _ Hok) as [H1 H2]. split; [|done]. intros Hc. by destruct Hnot; apply H1.
  - intros Hc. destruct Hca as [Hca| ->].
    + rewrite Hca in Hc. apply (after_excused h h' i Ha). by apply (ok_ctx _ Hok).
    + right; left. exists i. apply (after_keeps h h' i); [done|]. apply Ht.
  - assert (main_ok h') as Hm.
    { eapply main_ok_go; try done; [apply (ok_closed _ Hok)|apply (ok_main _ Hok)]. }
    unfold main_ok, map_ok in *. simpl. rewrite length_insert. exact Hm.
Qed.

(** ** The caller *)

(** [h'] is [h] after the caller took a result, or moved on. *)
Definition after_main (h h' : hedge) : Prop :=
  config h' = config h /\ parentDone h' = parentDone h /\ semaphore h' = semaphore h /\ threads h' = threads h /\
  returned h' = returned h /\ resultClosed h' = resultClosed h /\ resultChanClosed h' = resultChanClosed h /\
  suffix (resultCh h') (resultCh h).

Lemma main_after h b h' : main_go h b = Some h' -> after_main h h'.
Proof.
  unfold main_go, after_main. intros H.
  destruct (resultCh h) as [|r rest] eqn:E, (main h) as [s m|s m|[] m| |l];
    repeat (case_match; simplify_eq/=); simplify_eq/=; rewrite ?E; split_and!; try done; by exists [r].
Qed.

Lemma suffix_elem {A} (l k : list A) x : suffix l k -> x ∈ l -> x ∈ k.
Proof. intros [z ->] H. apply elem_of_app. by right. Qed.

(** Rebuilding the invariant: only what depends on the caller and the channel
    has to be shown. *)
Lemma main_step_ok h h' : hedge_ok h -> after_main h h' ->
  (excused h -> excused h') -> (cancelled h' = true -> excused h') ->
  (forall j, (j < length (threads h))%nat -> reported h j -> excused h' \/ reported h' j) ->
  (forall j, (j, None) ∈ returned h -> (j, None) ∈ resultCh h \/ got_success (main h) = true ->
     (j, None) ∈ resultCh h' \/ got_success (main h') = true) ->
  main_ok h' -> hedge_ok h'.
Proof.
  intros Hok (Ec & Ep & Es & Et & Er & Ecl & Ecs & Hsub) He Hca Hrep Hn Hm.
  split; rewrite ?Ec, ?Ep, ?Es, ?Et, ?Er, ?Ecl, ?Ecs; try apply Hok; try done.
  - intros j q Hj. pose proof (lookup_lt_Some _ _ _ Hj) as Hlt. destruct (ok_threads _ Hok j q Hj) as [H1 H2]. split.
    + intros Hp e Hin. apply (H1 Hp e). by eapply suffix_elem.
    + rewrite Er. destruct q; try done; destruct H2 as [H2 H3]; split.
      1, 3, 5: destruct H2; [left; by apply He|by apply Hrep].
      all: intros Hin; by apply Hn, H3.
  - destruct (ok_ch _ Hok) as [Hnd Hin]. split.
    + destruct Hsub as [z Hz]. rewrite Hz, fmap_app in Hnd. by apply NoDup_app in Hnd as (_ & _ & Hnd).
    + intros i e H. apply Hin. by eapply suffix_elem.
Qed.

Lemma note_spec s m r s' m' : note s m r = (s', m') ->
  (s' = true <-> s = true \/ r.2 = None) /\
  (forall i e, m' !! i = Some e -> m !! i = Some e \/ r = (i, Some e)) /\
  (forall i, is_Some (m !! i) -> is_Some (m' !! i)) /\ (forall i e, r = (i, Some e) -> m' !! i = Some e).
Proof.
  destruct r as [k [e|]]; intros [= <- <-]; simpl; split_and!.
  - split; [by left|]. by intros [?|?].
  - intros i x. destruct (decide (i = k)) as [->|Hne]; [rewrite lookup_insert_eq; intros [= ->]; by right|].
    rewrite lookup_insert_ne by done. by left.
  - intros i. destruct (decide (i = k)) as [->|Hne]; [rewrite lookup_insert_eq; by eauto|by rewrite lookup_insert_ne].
  - intros i x [= -> ->]. apply lookup_insert_eq.
  - split; [by right|done].
  - intros i x. by left.
  - done.
  - done.
Qed.

Lemma after_succeeded h h' : after_main h h' -> succeeded h -> succeeded h'.
Proof. unfold succeeded. by intros (_ & _ & _ & _ & -> & _). Qed.

(** The caller returns nil. *)
Lemma return_nil_ok h h' : hedge_ok h -> after_main h h' -> succeeded h -> main h' = ReturnNil -> hedge_ok h'.
Proof.
  intros Hok Ha Hs Em. pose proof (after_succeeded _ _ Ha Hs) as Hs'.
  assert (excused h') as He by (by right; left).
  apply (main_step_ok h); try done; try (by intros; left).
  - intros. right. by rewrite Em.
  - unfold main_ok. by rewrite Em.
Qed.

(** The caller keeps what it knows and does not touch the channel. *)
Lemma move_ok h h' : hedge_ok h -> after_main h h' -> resultCh h' = resultCh h -> cancelled h' = cancelled h ->
  known (main h') = known (main h) -> got_success (main h') = got_success (main h) -> ~ gave_up (main h) ->
  main_ok h' -> hedge_ok h'.
Proof.
  intros Hok Ha Ech Eca Ek Eg Hg Hm. pose proof Ha as (_ & Ep & _ & _ & Er & _).
  assert (excused h -> excused h') as He.
  { unfold excused, succeeded. rewrite Ep, Er. intros [?|[?|?]]; [by left|by right; left|done]. }
  apply (main_step_ok h); try done.
  - rewrite Eca. intros Hc. by apply He, (ok_ctx _ Hok).
  - intros j _. unfold reported. rewrite Er, Ech, Ek. by right.
  - intros j Hj. by rewrite Ech, Eg.
Qed.

(** The caller takes a result and goes on. *)
Lemma hedge_take_ok h h' r rest s' m' : hedge_ok h -> after_main h h' -> resultCh h = r :: rest -> resultCh h' = rest ->
  note (got_success (main h)) (known (main h)) r = (s', m') -> map_ok h (known (main h)) ->
  (got_success (main h) = true -> succeeded h) -> ~ gave_up (main h) -> cancelled h' = cancelled h ->
  main h' = Collect s' m' \/ main h' = DrainRest s' m' -> hedge_ok h'.
Proof.
  intros Hok Ha Ech Ech' Hnote Hmap Hsuc Hg Eca Hm. pose proof Ha as (_ & Ep & _ & Et & Er & _).
  destruct (note_spec _ _ _ _ _ Hnote) as (Hs & Hm1 & Hm2 & Hm3).
  assert (known (main h') = m' /\ got_success (main h') = s') as [Ek Eg] by (by destruct Hm as [-> | ->]).
  assert (r ∈ resultCh h) as Hr by (rewrite Ech; by left).
  assert (r ∈ returned h /\ (r.1 < length (threads h))%nat) as [Hrr Hrl] by (destruct r; by apply (ok_ch _ Hok)).
  assert (excused h -> excused h') as He.
  { unfold excused, succeeded. rewrite Ep, Er. intros [?|[?|?]]; [by left|by right; left|done]. }
  assert (map_ok h' m') as Hmap'.
  { intros i e Hi. rewrite Er, Et. destruct (Hm1 i e Hi) as [H| ->]; [by apply Hmap|done]. }
  apply (main_step_ok h); try done.
  - rewrite Eca. intros Hc. by apply He, (ok_ctx _ Hok).
  - intros j _ (e & Hj & Hk). right. unfold reported. rewrite Er, Ek, Ech'. rewrite Ech in Hk.
    destruct Hk as [[Hk|Hk]%elem_of_cons|Hk]; [exists e; auto|exists e; auto|].
    destruct (Hm2 j) as [x Hx]; [by eauto|]. exists x. split; [|by right]. by apply Hmap' in Hx as [Hx _]; rewrite Er in Hx.
  - intros j Hj. rewrite Ech, Ech', Eg. intros [[Hk|Hk]%elem_of_cons|Hk]; [|by left|].
    + right. apply Hs. right. by rewrite <- Hk.
    + right. apply Hs. by left.
  - assert (s' = true -> succeeded h') as Hs'.
    { intros Hx. apply Hs in Hx as [Hx|Hx]; [by apply (after_succeeded h), Hsuc|].
      exists r.1. rewrite Er. by destruct r as [k e]; simpl in *; subst. }
    unfold main_ok. destruct Hm as [-> | ->]; done.
Qed.

Lemma exited_reports h j : hedge_ok h -> resultClosed h = true -> (j < length (threads h))%nat ->
  (excused h \/ reported h j) /\ ((j, None) ∈ returned h -> (j, None) ∈ resultCh h \/ got_success (main h) = true).
Proof.
  intros Hok Hc Hj. destruct (lookup_lt_is_Some_2 (threads h) j Hj) as [q Hq].
  pose proof (proj1 (ok_closed _ Hok) Hc) as HF. rewrite Forall_lookup in HF. specialize (HF j q Hq). subst q.
  apply (ok_threads _ Hok j _ Hq).
Qed.

(** The caller gives up: every goroutine has reported. *)
Lemma give_up_ok h h' m : hedge_ok h -> after_main h h' -> main h = Process false m ->
  main h' = ReturnAllFailed (ordered (length (threads h)) m) -> hedge_ok h'.
Proof.
  intros Hok Ha Em Em'. pose proof Ha as (_ & Ep & _ & Et & Er & Ecl & _).
  pose proof (ok_main _ Hok) as Hm. unfold main_ok in Hm. rewrite Em in Hm. destruct Hm as (Hmap & _ & Hc & Hch).
  assert (forall j, (j, None) ∉ returned h) as Hno.
  { intros j Hj. pose proof (proj2 (ok_returned _ Hok) j _ Hj) as Hlt.
    destruct (exited_reports h j Hok Hc Hlt) as [_ Hx]. rewrite Em, Hch in Hx.
    destruct (Hx Hj) as [H|H]; [by apply elem_of_nil in H|done]. }
  assert (excused h') as He by (right; right; unfold gave_up; eauto).
  apply (main_step_ok h); try done; try (by intros; left).
  - intros j Hj. by destruct (Hno j).
  - unfold main_ok. rewrite Em', Ecl, Et, Ep. split_and!; [done| |].
    + intros [j Hj]. rewrite Er in Hj. by apply (Hno j).
    + exists m. split_and!; [|done|].
      * intros i e Hi. rewrite Er, Et. by apply Hmap.
      * intros Hp i Hi. destruct (exited_reports h i Hok Hc Hi) as [[[Hx|[[j Hx]|[l Hx]]]|(e & _ & Hx)] _].
        -- congruence.
        -- by destruct (Hno j).
        -- congruence.
        -- rewrite Em, Hch in Hx. destruct Hx as [Hx|Hx]; [by apply elem_of_nil in Hx|by exists e].
Qed.

Lemma main_go_ok h b h' : hedge_ok h -> main_go h b = Some h' -> hedge_ok h'.
Proof.
  intros Hok H. pose proof (main_after _ _ _ H) as Ha. pose proof (ok_main _ Hok) as Hm.
  unfold main_ok in Hm. unfold main_go in H.
  destruct (main h) as [s m|s m|[] m| |l] eqn:Em; try discriminate H.
  - destruct b; [case_match; [|done]; injection H as <-|].
    { apply (move_ok h); rewrite ?Em; try done. by intros [? ?]. }
    destruct (resultCh h) as [|r rest] eqn:Ech.
    { case_match; [|done]. injection H as <-. apply (move_ok h); rewrite ?Em; try done; [by intros [? ?]|].
      unfold main_ok; simpl. split_and!; try done; apply Hm. }
    destruct (note s m r) as [s' m'] eqn:Hn. destruct (negb s && s' && CancelRemainingOnSuccess (config h)) eqn:Hc.
    + injection H as <-. apply (return_nil_ok h); try done.
      apply andb_true_iff in Hc as [[Hs Hs']%andb_true_iff _]. apply negb_true_iff in Hs. subst s s'.
      assert (r ∈ resultCh h) as Hr by (rewrite Ech; by left). destruct r as [k e]. apply (ok_ch _ Hok) in Hr as [Hr _].
      destruct e; simplify_eq/=. by exists k.
    + injection H as <-. eapply (hedge_take_ok h); rewrite ?Em; try done; try apply Hm; [by intros [? ?]|by left].
  - destruct (resultCh h) as [|r rest] eqn:Ech.
    { case_match; [|done]. injection H as <-. apply (move_ok h); rewrite ?Em; try done; [by intros [? ?]|].
      unfold main_ok; simpl. split_and!; try done; apply Hm. }
    destruct (note s m r) as [s' m'] eqn:Hn. injection H as <-.
    eapply (hedge_take_ok h); rewrite ?Em; try done; try apply Hm; [by intros [? ?]|by right].
  - injection H as <-. apply (return_nil_ok h); try done. by apply Hm.
  - injection H as <-. by eapply (give_up_ok h).
Qed.

Lemma hstep_ok h a h' : hedge_ok h -> hstep h a = Some (Ret h') -> hedge_ok h'.
Proof.
  intros Hok H. destruct a as [i c|b| | | |]; simpl in H.
  - destruct (threads h !! i) as [p|] eqn:Hi; [|done]. simpl in H.
    destruct (hedge_go h i p c) as [[[h1 p1]|]|] eqn:Hg; simplify_eq/=. by eapply hedge_thread_ok.
  - destruct (main_go h b) as [h1|] eqn:Hg; simplify_eq/=. by eapply main_go_ok.
  - case_match eqn:E; [|done]. injection H as <-. apply andb_true_iff in E as [E _]. apply all_exited_spec in E.
    destruct Hok as [H1 H2 H3 H4 H5 H6 H7 H8]. split; simpl; try done. unfold main_ok in *; simpl.
    destruct (main h); try done; [by destruct H8 as (? & ? & ? & ?)|by destruct H8 as (? & ? & ?)].
  - case_match eqn:E; [|done]. injection H as <-. apply andb_true_iff in E as [E _].
    destruct Hok as [H1 H2 H3 H4 H5 H6 H7 H8]. split; simpl; try done; [|].
    + split; [|done]. intros _. by apply H6.
    + unfold main_ok in *; simpl. destruct (main h); try done; [by destruct H8 as (? & ? & ? & ?)|by destruct H8 as (? & ? & ?)].
  - destruct (main h) eqn:Em; try done. destruct (resultCh h) as [|r rest] eqn:Ech; [done|]. case_match; [|done].
    injection H as <-. apply (return_nil_ok h); try done.
    + unfold after_main. simpl. split_and!; try done. rewrite Ech. by exists [r].
    + pose proof (ok_main _ Hok) as Hm. unfold main_ok in Hm. by rewrite Em in Hm.
  - destruct (parentDone h) eqn:Ep; [done|]. injection H as <-. destruct Hok as [H1 H2 H3 H4 H5 H6 H7 H8].
    assert (excused (set_parent h)) as He by (by left). split; simpl; try done.
    + intros i p Hi. destruct (H3 i p Hi) as [Ha Hb]. split; [done|]. destruct p; try done; (split; [by left|apply Hb]).
    + unfold main_ok in *; simpl. destruct (main h); try done. destruct H8 as (? & ? & m & ? & ? & _). split_and!; try done.
      exists m. by split_and!.
Qed.

Lemma hedge_start_ok {F} (fs : list (option F)) c st parent h :
  ExecuteWithConfig false fs c st parent = Ok h -> hedge_ok h /\ length (threads h) = length fs.
Proof.
  unfold ExecuteWithConfig. simpl. destruct (length fs =? 0)%nat eqn:E; [done|]. case_match; [done|]. intros [= <-].
  apply Nat.eqb_neq in E. split; [|apply length_replicate]. split; simpl; try done.
  - unfold normalize; simpl. repeat zcase; lia.
  - rewrite fmap_replicate. simpl. rewrite sumZ_replicate_0. split; [done|]. unfold normalize; simpl. repeat zcase; lia.
  - intros i p [-> _]%lookup_replicate. split; [|]; intros; by apply not_elem_of_nil.
  - split; [constructor|]. by intros i e ?%elem_of_nil.
  - split; [constructor|]. by intros i e ?%elem_of_nil.
Qed.

(** No operation panics: the channel is closed only after the last send. *)
Lemma hstep_safe h a : hedge_ok h -> hstep h a <> Some Panic.
Proof.
  intros Hok H. destruct a as [i c|b| | | |]; simpl in H.
  - destruct (threads h !! i) as [p|] eqn:Hi; [|done]. simpl in H.
    destruct (hedge_go h i p c) as [[[h1 p1]|]|] eqn:Hg; simplify_eq/=.
    assert (resultClosed h = true /\ p <> Exited) as [Hc Hp].
    { destruct p, c; simpl in Hg; repeat case_match; simplify_eq/=; done. }
    apply (ok_closed _ Hok) in Hc. rewrite Forall_lookup in Hc. by destruct (Hc i p Hi).
  - by destruct (main_go h b).
  - by case_match.
  - by case_match.
  - by repeat case_match.
  - by case_match.
Qed.

Lemma run_hedge_ok acts h h' : hedge_ok h -> run h acts = Some (Ret h') -> hedge_ok h'.
Proof.
  revert h. induction acts as [|a acts IH]; intros h Hok H; simpl in H; [by injection H as <-|].
  destruct (hstep h a) as [[h1|]|] eqn:E; try done. eapply IH; [by eapply hstep_ok|done].
Qed.

Lemma run_hedge_safe acts h : hedge_ok h -> run h acts <> Some Panic.
Proof.
  revert h. induction acts as [|a acts IH]; intros h Hok H; simpl in H; [done|].
  destruct (hstep h a) as [[h1|]|] eqn:E; try done; [by eapply IH; [by eapply hstep_ok|]|by apply (hstep_safe h a)].
Qed.

(** ** What the caller gets *)

Lemma hstep_static h a h' : hedge_ok h -> hstep h a = Some (Ret h') ->
  config h' = config h /\ length (threads h') = length (threads h).
Proof.
  intros Hok H. destruct a as [i c|b| | | |]; simpl in H.
  - destruct (threads h !! i) as [p|] eqn:Hi; [|done]. simpl in H.
    destruct (hedge_go h i p c) as [[[h1 p1]|]|] eqn:Hg; simplify_eq/=.
    apply go_shared in Hg as (-> & _ & _ & -> & _). by rewrite length_insert.
  - destruct (main_go h b) as [h1|] eqn:Hg; simplify_eq/=. by apply main_after in Hg as (-> & _ & _ & -> & _).
  - case_match; by simplify_eq/=.
  - case_match; by simplify_eq/=.
  - repeat case_match; by simplify_eq/=.
  - case_match; by simplify_eq/=.
Qed.

Lemma run_static acts h h' : hedge_ok h -> run h acts = Some (Ret h') ->
  config h' = config h /\ length (threads h') = length (threads h).
Proof.
  revert h. induction acts as [|a acts IH]; intros h Hok H; simpl in H; [by injection H as <-|].
  destruct (hstep h a) as [[h1|]|] eqn:E; try done.
  destruct (hstep_static _ _ _ Hok E) as [<- <-]. eapply IH; [by eapply hstep_ok|done].
Qed.

Lemma ordered_total n m : (forall i, (i < n)%nat -> is_Some (m !! i)) ->
  length (ordered n m) = n /\ forall i, (i < n)%nat -> ordered n m !! i = m !! i.
Proof.
  intros H. induction n as [|n IH]; [split; [done|lia]|].
  destruct IH as [Hl Hi]; [intros i Hi; apply H; lia|]. destruct (H n) as [e He]; [lia|].
  assert (ordered (S n) m = ordered n m ++ [e]) as ->.
  { unfold ordered. rewrite seq_S, omap_app. simpl. by rewrite He. }
  rewrite length_app. simpl. split; [lia|]. intros i Hlt. destruct (decide (i = n)) as [->|Hne].
  - rewrite lookup_app_r by lia. by rewrite Hl, Nat.sub_diag.
  - rewrite lookup_app_l by lia. apply Hi. lia.
Qed.

Definition running (h : hedge) : Z := sumZ ((fun p => if bool_decide (p = Calling) then 1 else 0) <$> threads h).

(** C8. However the goroutines, the closer, the caller and the cancellation of the
    caller's context interleave: nothing panics; at most MaxConcurrency functions
    run at a time; the call returns nil only when a function has returned nil; it
    reports that all failed only when none has, the errors are errors the
    functions returned, and unless the context was cancelled they are the errors
    of all functions, in order. *)
Theorem hedge_sound {F} (fs : list (option F)) c st parent h0 acts :
  ExecuteWithConfig false fs c st parent = Ok h0 ->
  run h0 acts <> Some Panic /\
  forall h, run h0 acts = Some (Ret h) ->
    running h <= MaxConcurrency (normalize c (length fs)) /\
    (main h = ReturnNil -> exists i, (i, None) ∈ returned h) /\
    forall errors, main h = ReturnAllFailed errors ->
      (forall i, (i, None) ∉ returned h) /\
      (forall e, e ∈ errors -> exists i, (i, Some e) ∈ returned h) /\
      (parentDone h = false -> length errors = length fs /\
         forall i e, errors !! i = Some e -> (i, Some e) ∈ returned h).
Proof.
  intros H0. pose proof H0 as Hinit. apply hedge_start_ok in H0 as [Hok Hlen]. split; [by apply run_hedge_safe|]. intros h Hrun.
  pose proof (run_hedge_ok _ _ _ Hok Hrun) as Hh. destruct (run_static _ _ _ Hok Hrun) as [Ec El]. rewrite Hlen in El.
  pose proof (ok_main _ Hh) as Hm. unfold main_ok in Hm. split_and!.
  - assert (config h = normalize c (length fs)) as <-.
    { rewrite Ec. unfold ExecuteWithConfig in Hinit. repeat case_match; by simplify_eq/=. }
    destruct (ok_sem _ Hh) as [Hs Hle]. unfold running. etrans; [|exact Hle]. rewrite Hs. apply sumZ_fmap_le.
    intros p. case_bool_decide as E; [by rewrite E|]. by destruct p.
  - intros Em. by rewrite Em in Hm.
  - intros errors Em. rewrite Em in Hm. destruct Hm as (_ & Hno & m & Hmap & -> & Hall). split_and!.
    + intros i Hi. apply Hno. by exists i.
    + intros e (i & _ & Hi)%list_elem_of_omap. exists i. by apply Hmap.
    + intros Hp. destruct (ordered_total _ _ (Hall Hp)) as [Hl Hi]. rewrite El in *. split; [done|].
      intros i e He. assert (i < length fs)%nat by (apply lookup_lt_Some in He; lia). rewrite Hi in He by done. by apply Hmap.
Qed.

(** ** The call returns *)

Definition rank (p : pc) : Z :=
  match p with
  | Acquire => 11 | Check => 10 | Attempt => 9 | Calling => 8 | Returned _ => 7 | Once => 6
  | CountSuccess | CountFailure _ => 5 | SendSuccess | SendFailure _ => 4
  | Release => 2 | Leaving => 1 | Exited => 0
  end.

Definition main_rank (m : mpc) : Z :=
  match m with Collect _ _ => 3 | DrainRest _ _ => 2 | Process _ _ => 1 | ReturnNil | ReturnAllFailed _ => 0 end.

Definition left_over (b : bool) : Z := if b then 0 else 1.

Definition measure (h : hedge) : Z :=
  sumZ (rank <$> threads h) + Z.of_nat (length (resultCh h)) + main_rank (main h) +
  left_over (resultClosed h) + left_over (resultChanClosed h) + left_over (parentDone h).

Lemma measure_nonneg h : 0 <= measure h.
Proof.
  unfold measure, left_over. assert (0 <= sumZ (rank <$> threads h)).
  { apply sumZ_nonneg, Forall_fmap, Forall_forall. intros p _. destruct p; simpl; lia. }
  destruct (main h), (resultClosed h), (resultChanClosed h), (parentDone h); simpl; lia.
Qed.

Lemma go_measure h i p c h' p' : hedge_go h i p c = Some (Ret (h', p')) ->
  rank p' + Z.of_nat (length (resultCh h')) < rank p + Z.of_nat (length (resultCh h)).
Proof.
  destruct p, c; simpl; unfold after_call, once_do; intros H; try discriminate H; go_cases H;
    repeat case_match; simpl; rewrite ?length_app; simpl; lia.
Qed.

Lemma main_measure h b h' : main_go h b = Some h' ->
  main_rank (main h') + Z.of_nat (length (resultCh h')) < main_rank (main h) + Z.of_nat (length (resultCh h)).
Proof.
  unfold main_go. intros H. destruct (resultCh h) as [|r rest] eqn:E, (main h) as [s m|s m|[] m| |l];
    repeat (case_match; simplify_eq/=); simplify_eq/=; rewrite ?E; simpl; lia.
Qed.

Lemma hstep_measure h a h' : hstep h a = Some (Ret h') -> measure h' < measure h.
Proof.
  intros H. destruct a as [i c|b| | | |]; simpl in H.
  - destruct (threads h !! i) as [p|] eqn:Hi; [|done]. simpl in H.
    destruct (hedge_go h i p c) as [[[h1 p1]|]|] eqn:Hg; simplify_eq/=.
    pose proof (go_measure _ _ _ _ _ _ Hg). apply go_shared in Hg as (_ & Ep & Em & Et & Er & Es).
    unfold measure; simpl. rewrite Et, Em, Er, Es, Ep, (sumZ_fmap_insert rank (threads h) i p1 p) by done. lia.
  - destruct (main_go h b) as [h1|] eqn:Hg; simplify_eq/=.
    pose proof (main_measure _ _ _ Hg). apply main_after in Hg as (_ & Ep & _ & Et & _ & Er & Es & _).
    unfold measure. rewrite Et, Er, Es, Ep. lia.
  - case_match eqn:E; [|done]. injection H as <-. apply andb_true_iff in E as [_ E%negb_true_iff].
    unfold measure; simpl. rewrite E. simpl. lia.
  - case_match eqn:E; [|done]. injection H as <-. apply andb_true_iff in E as [Hc E%negb_true_iff].
    unfold measure; simpl. rewrite E, Hc. simpl. lia.
  - destruct (main h) eqn:Em; try done. destruct (resultCh h) eqn:E; [done|]. case_match; [|done]. injection H as <-.
    unfold measure; simpl. rewrite E, Em. simpl. lia.
  - destruct (parentDone h) eqn:E; [done|]. injection H as <-. unfold measure; simpl. rewrite E. simpl. lia.
Qed.

Lemma run_measure acts h h' : run h acts = Some (Ret h') -> measure h' + Z.of_nat (length acts) <= measure h.
Proof.
  revert h. induction acts as [|a acts IH]; intros h H; simpl in H; [injection H as <-; simpl; lia|].
  destruct (hstep h a) as [[h1|]|] eqn:E; try done. apply hstep_measure in E. apply IH in H. simpl. lia.
Qed.

(** The steps of the call's own goroutines: not the return of a function, nor
    the cancellation of the caller's context, nor what runs after the return. *)
Definition own_action (a : action) : bool :=
  match a with
  | Thread _ (Answer _) | Drain | CancelParent => false
  | Thread _ (Go | PickDone) | Main _ | CloseResults | CloseSignal => true
  end.

(** A step of its own is possible, or a function has not returned. *)
Definition can_move (h : hedge) : Prop :=
  (exists i, threads h !! i = Some Calling) \/
  exists a h', own_action a = true /\ hstep h a = Some (Ret h').

(** A goroutine that is past the semaphore, and one of several before it. *)
Lemma go_enabled h i p : hedge_ok h -> threads h !! i = Some p -> p <> Exited ->
  (p = Acquire -> semaphore h < MaxConcurrency (config h)) -> can_move h.
Proof.
  intros Hok Hi Hp Ha. destruct (decide (p = Calling)) as [->|Hcall]; [left; eauto|right]. pose proof (room_to_send h i p Hok Hi) as Hroom.
  assert (resultClosed h = false) as Hc.
  { destruct (resultClosed h) eqn:E; [|done]. apply (ok_closed _ Hok) in E. rewrite Forall_lookup in E.
    by destruct Hp; rewrite (E i p Hi). }
  assert (exists h' p', hedge_go h i p Go = Some (Ret (h', p'))) as (h' & p' & Hg).
  { destruct p; try (destruct Hp; done); try (destruct Hcall; done); simpl;
      rewrite ?Hc, ?(Hroom eq_refl); eauto.
    - apply Z.ltb_lt in Ha; [|done]. rewrite Ha. eauto.
    - destruct (ctxDone h); eauto.
    - destruct (after_call h e). eauto. }
  exists (Thread i Go), (set_thread h' i p'). split; [done|]. simpl. rewrite Hi. simpl. by rewrite Hg.
Qed.

Lemma threads_enabled h : hedge_ok h -> ~ Forall (eq Exited) (threads h) -> can_move h.
Proof.
  intros Hok Hn.
  destruct (decide (Exists (fun p => p <> Exited /\ p <> Acquire) (threads h))) as [He|He].
  - apply Exists_exists in He as (p & [i Hi]%list_elem_of_lookup & Hp & Hq).
    by apply (go_enabled h i p Hok Hi Hp).
  - assert (sumZ (holds <$> threads h) = 0) as H0.
    { apply not_Exists_Forall in He; [|apply _]. clear - He. induction (threads h) as [|p l IH]; [done|].
      apply Forall_cons in He as [Hp He]. rewrite sumZ_fmap_cons, IH by done.
      destruct p; try done; by destruct Hp. }
    apply not_Forall_Exists in Hn; [|apply _]. apply Exists_exists in Hn as (p & [i Hi]%list_elem_of_lookup & Hp).
    apply (go_enabled h i p Hok Hi); [congruence|].
    intros _. rewrite (proj1 (ok_sem _ Hok)), H0. pose proof (ok_max _ Hok). lia.
Qed.

Definition returned_to_caller (h : hedge) : Prop := main h = ReturnNil \/ exists l, main h = ReturnAllFailed l.

Lemma main_enabled h : resultClosed h = true -> returned_to_caller h \/ can_move h.
Proof.
  intros Hc. destruct (main h) as [s m|s m|[] m| |l] eqn:Em.
  5: by left; left.
  5: by left; right; eauto.
  all: right; right; exists (Main false); simpl; unfold main_go; rewrite Em, ?Hc; try (by eauto).
  all: destruct (resultCh h) as [|r rest]; [by eauto|]; destruct (note s m r) as [s' m']; repeat case_match; eauto.
Qed.

(** C22. The call returns once its functions do: whatever they return, every
    schedule has at most 11 n + 6 steps, and as long as the caller has not been
    answered a function that was called has not returned yet or one of the
    call's own goroutines (a hedge goroutine outside its function, the closer,
    the caller) can move, without the caller's context being cancelled. *)
Theorem hedge_returns {F} (fs : list (option F)) c st parent h0 acts h :
  ExecuteWithConfig false fs c st parent = Ok h0 -> run h0 acts = Some (Ret h) ->
  (length acts <= 11 * length fs + 6)%nat /\
  (returned_to_caller h \/ can_move h).
Proof.
  intros H0 Hrun. pose proof (hedge_start_ok _ _ _ _ _ H0) as [Hok Hlen]. split.
  - apply run_measure in Hrun. pose proof (measure_nonneg h).
    assert (measure h0 <= 11 * Z.of_nat (length fs) + 6); [|lia].
    unfold ExecuteWithConfig in H0. repeat case_match; simplify_eq/=. unfold measure; simpl.
    rewrite fmap_replicate. simpl. clear. assert (sumZ (replicate (length fs) 11) = 11 * Z.of_nat (length fs)) as ->.
    { induction (length fs) as [|k IH]; [done|]. simpl replicate. unfold sumZ in *; simpl. rewrite IH. lia. }
    destruct parent; simpl; lia.
  - pose proof (run_hedge_ok _ _ _ Hok Hrun) as Hh. destruct (resultClosed h) eqn:Hc; [by apply main_enabled|]. right.
    destruct (all_exited h) eqn:He.
    + right. exists CloseResults. simpl. rewrite He, Hc. eauto.
    + apply threads_enabled; [done|]. intros HF. apply all_exited_spec in HF. congruence.
Qed.

(** Two functions, one at a time: the first fails, the second succeeds. *)
Definition demo_call : result hedge_error hedge :=
  ExecuteWithConfig false [Some tt; Some tt] (mkConfig 1 true) (mkStats 0 0 0 0 0 0) false.

Definition one (i : nat) (e : option Z) (k : nat) : list action :=
  Thread i Go :: Thread i Go :: Thread i Go :: Thread i (Answer e) :: replicate k (Thread i Go).

Definition demo_run : list action := one 0 (Some 7) 5 ++ one 1 None 6 ++ [Main false; Main false].

Lemma hedge_sound_witness : exists h0 h, demo_call = Ok h0 /\ run h0 demo_run = Some (Ret h) /\
  main h = ReturnNil /\ exists i, (i, None) ∈ returned h.
Proof.
  destruct demo_call as [h0|] eqn:E; [|discriminate E]. pose proof E as E'. vm_compute in E'. injection E' as E'.
  destruct (run h0 demo_run) as [[h|]|] eqn:Hr; [|subst h0; vm_compute in Hr; discriminate Hr..].
  assert (main h = ReturnNil) as Hm by (subst h0; vm_compute in Hr; by injection Hr as <-).
  exists h0, h. split_and!; try done.
  by apply (hedge_sound [Some tt; Some tt] (mkConfig 1 true) (mkStats 0 0 0 0 0 0) false h0 demo_run E).
Defined.

Lemma hedge_returns_witness : exists h0 h, demo_call = Ok h0 /\ run h0 (one 0 (Some 7) 5) = Some (Ret h) /\
  Z.of_nat (length (one 0 (Some 7) 5)) <= 28 /\ can_move h.
Proof.
  destruct demo_call as [h0|] eqn:E; [|discriminate E]. pose proof E as E'. vm_compute in E'. injection E' as E'.
  destruct (run h0 (one 0 (Some 7) 5)) as [[h|]|] eqn:Hr; [|subst h0; vm_compute in Hr; discriminate Hr..].
  destruct (hedge_returns [Some tt; Some tt] (mkConfig 1 true) (mkStats 0 0 0 0 0 0) false h0 _ h E Hr) as [H1 H2].
  exists h0, h. split_and!; try done. destruct H2 as [H2|H2]; [|done]. exfalso. subst h0. vm_compute in Hr.
  injection Hr as <-. destruct H2 as [H2|[l H2]]; discriminate H2.
Defined.

(** A call under a cancelled context calls no function and reports that all of
    them failed, with no error to show; both are counted as cancelled because of
    a success. *)
Theorem cancelled_call_reports_all_failed :
  match ExecuteWithConfig false [Some tt; Some tt] DefaultConfig (mkStats 0 0 0 0 0 0) true with
  | Ok h0 =>
      match run h0 [Thread 0 Go; Thread 0 Go; Thread 0 Go; Thread 0 Go; Thread 1 Go; Thread 1 Go; Thread 1 Go;
                    Thread 1 Go; CloseResults; Main false; Main false] with
      | Some (Ret h) => main h = ReturnAllFailed [] /\ returned h = [] /\ TotalAllHedgesFailed (stats h) = 1 /\
                        TotalCancelled (stats h) = 2
      | _ => False
      end
  | Err _ => False
  end.
Proof. vm_compute. by split_and!. Qed.

(** A function that succeeds after another has is counted both as a success and
    as cancelled. *)
Theorem late_success_counted_twice :
  match ExecuteWithConfig false [Some tt; Some tt] DefaultConfig (mkStats 0 0 0 0 0 0) false with
  | Ok h0 =>
      match run h0 (one 0 None 0 ++ one 1 None 0 ++ replicate 6 (Thread 0 Go) ++ replicate 6 (Thread 1 Go)) with
      | Some (Ret h) => TotalHedgeAttempts (stats h) = 2 /\ TotalHedgeSuccesses (stats h) = 2 /\
                        TotalCancelled (stats h) = 1
      | _ => False
      end
  | Err _ => False
  end.
Proof. vm_compute. by split_and!. Qed.
