(* ===== verification/Fallback.v ===== *)
(** * Fallbacks (pkg/core/resilience/fallback: fallback.go, predicate.go)

    The predicates on errors and the manager that runs a primary function and
    then its fallbacks.  A function transforms a world and returns an error or
    nil; callbacks are events. *)
From S2P Require Import Prelude Retry.

(** ** Predicates (predicate.go); a nil predicate is [None] *)

Definition FallbackPredicate : Type := option error -> bool.

Definition AlwaysFallback : FallbackPredicate := fun err => match err with None => false | Some _ => true end.

Definition NeverFallback : FallbackPredicate := fun _ => false.

Definition FallbackOnTimeout : FallbackPredicate := fun err =>
  match err with
  | None => false
  | Some e =>
      if errors_Is e deadline_exceeded_id then true
      else message_has ["timeout"; "deadline exceeded"; "timed out"]%string e
  end.

Definition FallbackOnTemporary : FallbackPredicate := fun err =>
  match err with
  | None => false
  | Some e =>
      if match temporary e with Some true => true | _ => false end then true
      else message_has ["temporary"; "retry"; "busy"]%string e
  end.

Definition FallbackOnNetworkError : FallbackPredicate := fun err =>
  match err with
  | None => false
  | Some e => message_has ["network"; "connection"; "dial"; "refused"; "reset"; "unreachable"]%string e
  end.

(** [errors.Is] of nil and a target that is not nil is false. *)
Definition FallbackOnErrorType (target : Z) : FallbackPredicate := fun err =>
  match err with None => false | Some e => errors_Is e target end.

Definition FallbackOnErrorMessage (substring : string) : FallbackPredicate := fun err =>
  match err with None => false | Some e => Contains (ToLower (msg e)) (ToLower substring) end.

Definition FallbackOnAny (predicates : list (option FallbackPredicate)) : FallbackPredicate := fun err =>
  existsb (fun p => match p with Some p => p err | None => false end) predicates.

Definition FallbackOnAll (predicates : list (option FallbackPredicate)) : FallbackPredicate := fun err =>
  match predicates with
  | [] => false
  | _ => forallb (fun p => match p with Some p => p err | None => false end) predicates
  end.

Definition FallbackOnNot (p : option FallbackPredicate) : FallbackPredicate := fun err =>
  match p with
  | None => match err with None => false | Some _ => true end
  | Some p => negb (p err)
  end.

(** ** The manager (fallback.go) *)

Record Stats : Type := mkStats {
  TotalExecutions : Z;
  TotalPrimarySuccesses : Z;
  TotalPrimaryFailures : Z;
  TotalFallbackAttempts : Z;
  TotalFallbackSuccesses : Z;
  TotalFallbackFailures : Z;
  TotalAllFallbacksExhausted : Z
}.

(** Executions, primary successes and failures; attempts, successes and failures
    of fallbacks; exhaustions. *)
Definition count (s : Stats) (e ps pf fa fs ff ex : Z) : Stats :=
  mkStats (TotalExecutions s +i64 e) (TotalPrimarySuccesses s +i64 ps) (TotalPrimaryFailures s +i64 pf)
    (TotalFallbackAttempts s +i64 fa) (TotalFallbackSuccesses s +i64 fs) (TotalFallbackFailures s +i64 ff)
    (TotalAllFallbacksExhausted s +i64 ex).

(** What the callbacks are called with. *)
Inductive event : Type :=
| PrimaryError (e : error)
| FallbackAttempted (i : nat)
| FallbackSucceeded (i : nat)
| FallbackFailed (i : nat) (e : error)
| AllFallbacksExhausted (e : error) (errs : list error).

Inductive fallback_error : Type :=
| ErrCodeNilContext
| ErrCodeNilPrimaryFunction
| ErrPlain (e : error)
| ErrCodeAllFallbacksExhausted (n : nat) (primaryErr : error) (fallbackErrors : list error).

Section manager.
Context {W : Type}.

(** An executable acts on the world and returns an error or nil. *)
Definition Executable : Type := W -> option error * W.

(** [Observer]: the callbacks are configured, all of them or none. *)
Record Config : Type := mkConfig {
  Fallbacks : list (option Executable);
  Predicate : option FallbackPredicate;
  Observer : bool
}.

Definition DefaultConfig : Config := mkConfig [] None false.

Definition emit (c : Config) (e : event) : list event := if Observer c then [e] else [].

(** The loop over the fallbacks, from index [i] with the errors so far. *)
Fixpoint fallback_loop (c : Config) (primaryErr : error) (st : Stats) (i : nat) (fs : list (option Executable))
    (errs : list error) (w : W) : option fallback_error * Stats * list event * W :=
  match fs with
  | [] =>
      (Some (ErrCodeAllFallbacksExhausted (length (Fallbacks c)) primaryErr errs),
       count st 0 0 0 0 0 0 1, emit c (AllFallbacksExhausted primaryErr errs), w)
  | None :: fs => fallback_loop c primaryErr st (S i) fs errs w
  | Some fallback :: fs =>
      let st := count st 0 0 0 1 0 0 0 in
      match fallback w with
      | (None, w) => (None, count st 0 0 0 0 1 0 0, emit c (FallbackAttempted i) ++ emit c (FallbackSucceeded i), w)
      | (Some e, w) =>
          let '(r, st, evs, w) := fallback_loop c primaryErr (count st 0 0 0 0 0 1 0) (S i) fs (errs ++ [e]) w in
          (r, st, emit c (FallbackAttempted i) ++ emit c (FallbackFailed i e) ++ evs, w)
      end
  end.

Definition ExecuteWithConfig (st : Stats) (ctx_nil : bool) (primary : option Executable) (c : Config) (w : W) :
    option fallback_error * Stats * list event * W :=
  if ctx_nil then (Some ErrCodeNilContext, st, [], w)
  else
    match primary with
    | None => (Some ErrCodeNilPrimaryFunction, st, [], w)
    | Some primary =>
        let st := count st 1 0 0 0 0 0 0 in
        match primary w with
        | (None, w) => (None, count st 0 1 0 0 0 0 0, [], w)
        | (Some e, w) =>
            let st := count st 0 0 1 0 0 0 0 in
            let evs := emit c (PrimaryError e) in
            if match Predicate c with Some p => negb (p (Some e)) | None => false end
            then (Some (ErrPlain e), st, evs, w)
            else if (length (Fallbacks c) =? 0)%nat then (Some (ErrPlain e), st, evs, w)
            else let '(r, st, evs', w) := fallback_loop c e st 0 (Fallbacks c) [] w in (r, st, evs ++ evs', w)
        end
    end.

Definition Execute (st : Stats) (ctx_nil : bool) (primary : option Executable) (w : W) :=
  ExecuteWithConfig st ctx_nil primary DefaultConfig w.

Definition ExecuteWithFallback (st : Stats) (ctx_nil : bool) (primary fallback : option Executable) (w : W) :=
  ExecuteWithConfig st ctx_nil primary (mkConfig [fallback] None false) w.

(** ** Outcome *)

(** [fs], run one after the other from [w], all fail with [errs] and leave [w']. *)
Inductive all_fail : list Executable -> W -> list error -> W -> Prop :=
| fail_nil w : all_fail [] w [] w
| fail_cons f fs w e w1 errs w2 :
    f w = (Some e, w1) -> all_fail fs w1 errs w2 -> all_fail (f :: fs) w (e :: errs) w2.

Definition present (fs : list (option Executable)) : list Executable := omap id fs.

(** What the loop does: some fallback succeeds after those before it failed, or all fail. *)
Lemma loop_outcome c p st i fs errs w r st' evs w' :
  fallback_loop c p st i fs errs w = (r, st', evs, w') ->
  (r = None /\ exists before f after errs' w1, present fs = before ++ f :: after /\
     all_fail before w errs' w1 /\ f w1 = (None, w')) \/
  (exists errs', r = Some (ErrCodeAllFallbacksExhausted (length (Fallbacks c)) p (errs ++ errs')) /\
     all_fail (present fs) w errs' w').
Proof.
  revert st i errs w r st' evs w'. induction fs as [|[f|] fs IH]; intros st i errs w r st' evs w' H; simpl in H.
  - injection H as <- <- <- <-. right. exists []. rewrite app_nil_r. split; [done|constructor].
  - destruct (f w) as [[e|] w1] eqn:Ef.
    + destruct (fallback_loop _ _ _ (S i) fs _ w1) as [[[r1 st1] evs1] w2] eqn:El. injection H as <- <- <- <-.
      destruct (IH _ _ _ _ _ _ _ _ El) as [(-> & before & g & after & errs' & w3 & Hp & Hf & Hg)|(errs' & -> & Hf)].
      * left. split; [done|]. exists (f :: before), g, after, (e :: errs'), w3. simpl. rewrite Hp.
        split_and!; try done. by econstructor.
      * right. exists (e :: errs'). rewrite <- app_assoc. split; [done|]. by econstructor.
    + injection H as <- <- <- <-. left. split; [done|]. exists [], f, (present fs), [], w. split_and!; try done. constructor.
  - by apply (IH _ _ _ _ _ _ _ _ H).
Qed.

(** One execution of the primary; its error is returned as it is when the
    predicate refuses it or there is no fallback; otherwise the fallbacks that are
    not nil run in order, on the world the ones before left, until the first that
    succeeds, and when all fail the error lists theirs in order. *)
Theorem fallback_outcome st primary c w r st' evs w' :
  ExecuteWithConfig st false (Some primary) c w = (r, st', evs, w') ->
  (r = None /\ primary w = (None, w')) \/
  exists e w1, primary w = (Some e, w1) /\
    let allowed := match Predicate c with Some p => p (Some e) | None => true end in
    (r = Some (ErrPlain e) /\ w' = w1 /\ (allowed = false \/ Fallbacks c = [])) \/
    (allowed = true /\ r = None /\ exists before f after errs w2,
       present (Fallbacks c) = before ++ f :: after /\ all_fail before w1 errs w2 /\ f w2 = (None, w')) \/
    (allowed = true /\ exists errs, r = Some (ErrCodeAllFallbacksExhausted (length (Fallbacks c)) e errs) /\
       all_fail (present (Fallbacks c)) w1 errs w').
Proof.
  unfold ExecuteWithConfig. destruct (primary w) as [[e|] w1] eqn:Ep; [|intros [= <- <- <- <-]; by left].
  intros H. right. exists e, w1. split; [done|]. cbv zeta.
  set (allowed := match Predicate c with Some p => p (Some e) | None => true end).
  replace (match Predicate c with Some p => negb (p (Some e)) | None => false end) with (negb allowed) in H
    by (unfold allowed; by destruct (Predicate c)).
  destruct allowed; simpl in H; [|injection H as <- <- <- <-; left; by auto].
  destruct (Nat.eqb_spec (length (Fallbacks c)) 0) as [H0|H0].
  - injection H as <- <- <- <-. left. split_and!; auto. right. by apply length_zero_iff_nil.
  - destruct (fallback_loop _ _ _ _ _ _ _) as [[[r1 st1] evs1] w2] eqn:El. injection H as <- <- <- <-. right.
    destruct (loop_outcome _ _ _ _ _ _ _ _ _ _ _ El) as [[Hr Hx]|Hx]; [left|right]; auto.
Qed.
End manager.
Arguments Config : clear implicits.

(** A world of three flags: the first fallback is nil, the second fails, the third works. *)
Definition broken (e : error) : Executable (W := list nat) := fun w => (Some e, w ++ [0%nat]).

Definition working (n : nat) : Executable (W := list nat) := fun w => (None, w ++ [n]).

Definition oops : error := mkError "dial tcp: connection refused" [] None.

Lemma fallback_outcome_witness :
  exists st' evs,
    ExecuteWithConfig (mkStats 0 0 0 0 0 0 0) false (Some (broken oops))
      (mkConfig [None; Some (broken oops); Some (working 3)] (Some FallbackOnNetworkError) true) [] =
      (None, st', evs, [0; 0; 3]%nat) /\
    exists e w1, broken oops [] = (Some e, w1) /\ FallbackOnNetworkError (Some e) = true.
Proof.
  eexists _, _. split; [reflexivity|].
  destruct (fallback_outcome (mkStats 0 0 0 0 0 0 0) (broken oops)
    (mkConfig [None; Some (broken oops); Some (working 3)] (Some FallbackOnNetworkError) true) [] None _ _ _ eq_refl)
    as [[_ H]|(e & w1 & H & H')]; [discriminate H|].
  exists e, w1. split; [exact H|]. destruct H' as [(H' & _)|[(H' & _)|(H' & _)]]; [discriminate H'|exact H'..].
Defined.

(** With only nil fallbacks nothing is tried, yet the call reports them exhausted
    and the caller does not get the error of the primary itself. *)
Theorem nil_fallbacks_hide_the_error :
  let '(r, st, _, _) := ExecuteWithFallback (mkStats 0 0 0 0 0 0 0) false (Some (broken oops)) None [] in
  r = Some (ErrCodeAllFallbacksExhausted 1 oops []) /\ TotalFallbackAttempts st = 0 /\ TotalAllFallbacksExhausted st = 1.
Proof. by vm_compute. Qed.
