(* ===== verification/Timeout.v ===== *)
(** * Timeouts (pkg/core/resilience/timeout/timeout.go)

    The manager runs a function in a goroutine and waits for its answer or for
    the end of the timeout context; what it sees there is given to the model. *)
From S2P Require Import Prelude.

(** The errors that matter here: the two of package context and any other. *)
Inductive fn_error : Type := DeadlineExceeded | Canceled | OtherError (e : Z).

#[export] Instance fn_error_eq_dec : EqDecision fn_error.
Proof. solve_decision. Defined.

Inductive timeout_error : Type :=
| ErrCodeNilContext
| ErrCodeNilFunction
| ErrCodeInvalidTimeout
| ErrCodeTimeoutExceeded
| ErrCodeContextCanceled
| FnError (e : fn_error).

Record Stats : Type := mkStats {
  TotalExecutions : Z;
  TotalSuccesses : Z;
  TotalTimeouts : Z;
  TotalCancellations : Z
}.

Definition count (s : Stats) (e su ti ca : Z) : Stats :=
  mkStats (TotalExecutions s +i64 e) (TotalSuccesses s +i64 su) (TotalTimeouts s +i64 ti) (TotalCancellations s +i64 ca).

(** What the select ends with: the result of the function, with the status of
    the timeout context looked at afterwards, or the context itself. *)
Inductive waited : Type :=
| Completed (err : option fn_error) (ctx : ctx_status)
| ContextFirst (expired : bool).

(** What the call sees: the context when it starts, the time to its deadline if
    it has one, the end of the wait, and, without timeout, the function's answer
    with the context after it. *)
Record seen : Type := mkSeen {
  at_start : ctx_status;
  until_deadline : option Z;
  wait : waited;
  plain : option fn_error * ctx_status
}.

(** A function that has completed. *)
Definition completed (s : Stats) (err : option fn_error) (ctx : ctx_status) : option timeout_error * Stats * bool :=
  let s := count s 1 0 0 0 in
  match err with
  | None => (None, count s 0 1 0 0, false)
  | Some e =>
      if bool_decide (ctx = CtxDeadlineExceeded) then (Some ErrCodeTimeoutExceeded, count s 0 0 1 0, true)
      else if bool_decide (ctx = CtxCanceled) then (Some ErrCodeContextCanceled, count s 0 0 0 1, false)
      else if bool_decide (e = DeadlineExceeded) then (Some ErrCodeTimeoutExceeded, count s 0 0 1 0, true)
      else if bool_decide (e = Canceled) then (Some ErrCodeContextCanceled, count s 0 0 0 1, false)
      else (Some (FnError e), s, false)
  end.

Definition executeWithoutTimeout (s : Stats) (v : seen) : option timeout_error * Stats * bool :=
  let '(err, ctx) := plain v in
  let s := count s 1 0 0 0 in
  match err with
  | None => (None, count s 0 1 0 0, false)
  | Some e =>
      if bool_decide (e = Canceled) || bool_decide (ctx = CtxCanceled) then (Some ErrCodeContextCanceled, count s 0 0 0 1, false)
      else if bool_decide (e = DeadlineExceeded) || bool_decide (ctx = CtxDeadlineExceeded)
           then (Some ErrCodeTimeoutExceeded, count s 0 0 1 0, false)
      else (Some (FnError e), s, false)
  end.

(** The last component tells whether the timeout callbacks are called. *)
Definition ExecuteWithConfig (s : Stats) (ctx_nil fn_nil : bool) (timeout : Z) (v : seen) :
    option timeout_error * Stats * bool :=
  if ctx_nil then (Some ErrCodeNilContext, s, false)
  else if fn_nil then (Some ErrCodeNilFunction, s, false)
  else if ctx_done (at_start v) then
    (Some (if bool_decide (at_start v = CtxDeadlineExceeded) then ErrCodeTimeoutExceeded else ErrCodeContextCanceled),
     count s 0 0 0 1, false)
  else if timeout <? 0 then (Some ErrCodeInvalidTimeout, s, false)
  else
    let go :=
      match wait v with
      | Completed err ctx => completed s err ctx
      | ContextFirst true => (Some ErrCodeTimeoutExceeded, count (count s 1 0 0 0) 0 0 1 0, true)
      | ContextFirst false => (Some ErrCodeContextCanceled, count (count s 1 0 0 0) 0 0 0 1, false)
      end in
    if timeout =? 0 then
      match until_deadline v with
      | Some t => if t <=? 0 then (Some ErrCodeTimeoutExceeded, count s 0 0 1 0, false) else go
      | None => executeWithoutTimeout s v
      end
    else go.

Definition ExecuteWithTimeout (s : Stats) (ctx_nil fn_nil : bool) (timeout : Z) (v : seen) :=
  ExecuteWithConfig s ctx_nil fn_nil timeout v.

Definition Execute (s : Stats) (ctx_nil fn_nil : bool) (v : seen) := ExecuteWithConfig s ctx_nil fn_nil 0 v.

(** The answer the caller waited for, when it got one. *)
Definition answer (timeout : Z) (v : seen) : option (option fn_error) :=
  if (timeout =? 0) && match until_deadline v with None => true | _ => false end then Some (fst (plain v))
  else match wait v with Completed err _ => Some err | ContextFirst _ => None end.

Lemma i64_idem a : i64 (i64 a) = i64 a.
Proof. pose proof (i64_absorb a 0) as E. by rewrite !Z.add_0_r in E. Qed.

Ltac timeout_leaf :=
  simplify_eq/=; split_and!;
  [ split; [intros; simplify_eq/=; split_and!; try done; intros; simplify_eq/=; lia
           |intros; destruct_and?; simplify_eq/=; try done; lia || naive_solver lia]
  | done
  | intros; rewrite ?Z.add_0_r, ?i64_idem; done
  | done ].

(** A call returns nil exactly when it may start and the function's answer, nil,
    arrives before the end of the context; then, and only then, one success is
    counted.  Callbacks are called only for a timeout. *)
Theorem timeout_success s ctx_nil fn_nil timeout v r s' cb :
  ExecuteWithConfig s ctx_nil fn_nil timeout v = (r, s', cb) ->
  (r = None <-> ctx_nil = false /\ fn_nil = false /\ ctx_done (at_start v) = false /\ 0 <= timeout /\
     (timeout = 0 -> forall t, until_deadline v = Some t -> 0 < t) /\ answer timeout v = Some None) /\
  (r = None -> s' = count (count s 1 0 0 0) 0 1 0 0) /\
  (r <> None -> i64 (TotalSuccesses s') = i64 (TotalSuccesses s)) /\
  (cb = true -> r = Some ErrCodeTimeoutExceeded).
Proof.
  unfold ExecuteWithConfig, answer, completed, executeWithoutTimeout. intros H.
  destruct ctx_nil; [timeout_leaf|]. destruct fn_nil; [timeout_leaf|].
  destruct (ctx_done (at_start v)) eqn:Hc; [timeout_leaf|].
  destruct (Z.ltb_spec timeout 0); [timeout_leaf|].
  destruct (Z.eqb_spec timeout 0) as [->|Ht]; simpl in *.
  - destruct (until_deadline v) as [t|] eqn:Hu.
    + destruct (Z.leb_spec t 0); [timeout_leaf|]. destruct (wait v) as [[e|] ctx|[]]; repeat case_bool_decide; timeout_leaf.
    + destruct (plain v) as [[e|] ctx]; simpl in *; repeat case_match; timeout_leaf.
  - destruct (wait v) as [[e|] ctx|[]]; repeat case_bool_decide; timeout_leaf.
Qed.

Lemma timeout_success_witness :
  let v := mkSeen CtxLive (Some 50) (Completed None CtxLive) (None, CtxLive) in
  exists s', ExecuteWithConfig (mkStats 0 0 0 0) false false 10 v = (None, s', false) /\ s' = mkStats 1 1 0 0.
Proof.
  intros v. eexists. split; [reflexivity|].
  destruct (timeout_success (mkStats 0 0 0 0) false false 10 v None _ false eq_refl) as (_ & H & _).
  etrans; [exact (H eq_refl)|reflexivity].
Defined.

(** A context that has expired is counted as a cancellation when it is found
    done at the start, but as a timeout when only its deadline shows it. *)
Theorem expired_context_counted_as_cancellation t w p :
  ExecuteWithConfig (mkStats 0 0 0 0) false false t (mkSeen CtxDeadlineExceeded (Some (-1)) w p) =
    (Some ErrCodeTimeoutExceeded, mkStats 0 0 0 1, false) /\
  ExecuteWithConfig (mkStats 0 0 0 0) false false 0 (mkSeen CtxLive (Some (-1)) w p) =
    (Some ErrCodeTimeoutExceeded, mkStats 0 0 1 0, false).
Proof. done. Qed.
