(* ===== verification/Backoff.v ===== *)
(** * Backoff waits (pkg/core/resilience/backoff/backoff.go)

    The strategies, the delay of an attempt and the wait for it, which the timer
    or the context ends. *)
From S2P Require Import Prelude.

(** The strategies of this package; the exponential one computes in floating
    point and is represented by any other function. *)
Inductive Strategy : Type :=
| Fixed (delay : Z)
| Linear (initial max increment : Z)
| OtherStrategy (f : Z -> Z).

Definition NewFixedBackoff (delay : Z) : Strategy := Fixed (if delay <? 0 then 0 else delay).

Definition NewLinearBackoff (initial max increment : Z) : Strategy :=
  let initial := if initial <? 0 then 0 else initial in
  let max := if max <? 0 then 0 else max in
  Linear initial max (if increment <=? 0 then initial else increment).

(** A maximum that is not positive does not cap. *)
Definition capped (max delay : Z) : Z := if (0 <? max) && (max <? delay) then max else delay.

Definition Delay (s : Strategy) (attempt : Z) : Z :=
  match s with
  | Fixed d => d
  | Linear initial max increment =>
      let attempt := if attempt <? 0 then 0 else attempt in
      capped max (initial +i64 i64 (attempt * increment))
  | OtherStrategy f => f attempt
  end.

(** A nil strategy is [None]; [OnBackoff] tells whether a callback is set. *)
Record Config : Type := mkConfig {
  CStrategy : option Strategy;
  MaxAttempts : Z;
  MaxDelay : Z;
  OnBackoff : bool
}.

Definition NewManagerWithStrategy (s : option Strategy) : Strategy :=
  match s with Some s => s | None => NewFixedBackoff 1000000000 end.

Definition DelayWithConfig (m : Strategy) (attempt : Z) (c : Config) : Z :=
  capped (MaxDelay c) (Delay (default m (CStrategy c)) attempt).

Inductive backoff_error : Type :=
| ErrCodeNilContext
| ErrCodeInvalidConfig
| ErrCodeContextTimeout
| ErrCodeContextCanceled.

(** The answer, the time waited for when a wait was begun, and the callback.
    [ctx] is what ends the wait: [CtxLive] for the timer. *)
Definition WaitWithConfig (m : Strategy) (ctx_nil : bool) (attempt : Z) (c : Config) (ctx : ctx_status) :
    option backoff_error * option Z * list (Z * Z) :=
  if ctx_nil then (Some ErrCodeNilContext, None, [])
  else
    let delay := DelayWithConfig m attempt c in
    if (0 <? MaxAttempts c) && (MaxAttempts c <=? attempt) then (Some ErrCodeInvalidConfig, None, [])
    else if delay <=? 0 then (None, None, [])
    else
      (match ctx with
       | CtxLive => None
       | CtxDeadlineExceeded => Some ErrCodeContextTimeout
       | CtxCanceled => Some ErrCodeContextCanceled
       end, Some delay, if OnBackoff c then [(attempt, delay)] else []).

Definition Wait (m : Strategy) (ctx_nil : bool) (attempt : Z) (ctx : ctx_status) :=
  WaitWithConfig m ctx_nil attempt (mkConfig (Some m) 0 0 false) ctx.

Lemma capped_spec max d : capped max d <= d /\ (0 < max -> capped max d <= max) /\ (0 < d -> 0 < capped max d).
Proof. unfold capped. destruct (Z.ltb_spec 0 max), (Z.ltb_spec max d); simpl; lia. Qed.

(** While the product and the sum stay within 64 bits the linear strategy waits
    for the delay of the attempt capped by both maxima, at most MaxAttempts times;
    the attempts before the last allowed one never fail by themselves. *)
Theorem linear_wait initial max increment attempt c r d cb :
  0 <= initial -> 0 < increment -> 0 <= attempt -> initial + attempt * increment <= max_i64 ->
  WaitWithConfig (NewLinearBackoff initial max increment) false attempt
    (mkConfig None (MaxAttempts c) (MaxDelay c) (OnBackoff c)) CtxLive = (r, d, cb) ->
  (r = None <-> (MaxAttempts c <= 0 \/ attempt < MaxAttempts c)) /\
  forall t, d = Some t -> 0 < t <= initial + attempt * increment /\
    (0 < max -> t <= max) /\ (0 < MaxDelay c -> t <= MaxDelay c).
Proof.
  intros Hi Hinc Ha Hfit. unfold WaitWithConfig, DelayWithConfig, NewLinearBackoff. simpl.
  assert (0 <= attempt * increment) by nia.
  destruct (Z.ltb_spec initial 0); [lia|]. destruct (Z.leb_spec increment 0); [lia|]. destruct (Z.ltb_spec attempt 0); [lia|].
  rewrite (i64_id (attempt * increment)), i64_id by (unfold min_i64; lia).
  set (d1 := capped (if max <? 0 then 0 else max) _). set (d2 := capped _ d1).
  pose proof (capped_spec (if max <? 0 then 0 else max) (initial + attempt * increment)) as Hc1. fold d1 in Hc1.
  pose proof (capped_spec (MaxDelay c) d1) as Hc2. fold d2 in Hc2. clearbody d2 d1.
  destruct (Z.ltb_spec max 0), (Z.ltb_spec 0 (MaxAttempts c)), (Z.leb_spec (MaxAttempts c) attempt);
    simpl; repeat zcase; intros [= <- <- <-]; (split; [split; intros; try done; lia|intros t Ht; simplify_eq; lia]).
Qed.

Lemma linear_wait_witness :
  WaitWithConfig (NewLinearBackoff 10 100 20) false 3 (mkConfig None 5 60 true) CtxLive = (None, Some 60, [(3, 60)]) /\ 60 <= 100.
Proof.
  split; [reflexivity|].
  destruct (linear_wait 10 100 20 3 (mkConfig None 5 60 true) None (Some 60) [(3, 60)]) as [_ H]; try reflexivity;
    [discriminate..|]. apply (H 60 eq_refl). reflexivity.
Defined.

(** Past that range the product wraps around: the delay is negative, the cap is
    not applied and the wait is skipped. *)
Theorem linear_overflow_skips_the_wait :
  let hour := 3600000000000 in
  WaitWithConfig (NewLinearBackoff hour (24 * hour) hour) false 2562047 (mkConfig None 0 0 true) CtxLive = (None, None, []).
Proof. reflexivity. Qed.
