(* ===== verification/StateManager.v ===== *)
(** * Runtime state manager (pkg/core/runtime/state/state.go)

    [Transition], [Start] and [Stop] hold the manager's mutex throughout and are
    functions of the manager's state; clock readings and what the callback of
    [Start] or [Stop] does are arguments, and the callbacks invoked are returned
    as a log.  [Wait] and [WaitForState] do not hold the mutex; the second part
    is a transition system of waiters and transitions. *)
From S2P Require Import Prelude.

(** A [State] is a string; the six constants and any other one. *)
Inductive State : Type :=
| StateInitial
| StateStarting
| StateRunning
| StateStopping
| StateStopped
| StateError
| OtherState (s : string).

#[export] Instance State_eq_dec : EqDecision State.
Proof. solve_decision. Defined.

Definition Valid (s : State) : bool :=
  match s with OtherState _ => false | _ => true end.

Definition IsTerminal (s : State) : bool :=
  match s with StateStopped | StateError => true | _ => false end.

Definition IsActive (s : State) : bool :=
  match s with StateStarting | StateRunning => true | _ => false end.

Definition validTransitions (from : State) : list State :=
  match from with
  | StateInitial => [StateStarting; StateError]
  | StateStarting => [StateRunning; StateError; StateStopping]
  | StateRunning => [StateStopping; StateError]
  | StateStopping => [StateStopped; StateError]
  | StateStopped => [StateStarting; StateError]
  | StateError => [StateInitial; StateStarting]
  | OtherState _ => []
  end.

Definition isValidTransition (from to : State) : bool :=
  if bool_decide (from = to) then true else bool_decide (to ∈ validTransitions from).

(** The two callback fields matter by being set or nil. *)
Record Config : Type := mkConfig {
  InitialState : option State;      (** [None] for the empty string *)
  OnStateChange : bool;
  OnStateChangeAsync : bool;
  TransitionTimeout : Z;
  HistorySize : Z;
  ValidateTransitions : bool
}.

Definition DefaultConfig : Config :=
  {| InitialState := Some StateInitial; OnStateChange := false; OnStateChangeAsync := false;
     TransitionTimeout := 0; HistorySize := 10; ValidateTransitions := true |}.

Record Transition_record : Type := mkTransition {
  From : State;
  To : State;
  Timestamp : Z;
  Error : option Z
}.

Record stateManager : Type := mkManager {
  config : Config;
  currentState : State;
  callbacks : list nat;
  history : list Transition_record;
  transitionCount : Z;
  startTime : option Z;
  stopTime : option Z;
  lastTransition : option Transition_record
}.

Inductive callback : Type :=
| CbConfig (from to : State)
| CbRegistered (id : nat) (from to : State)
| CbConfigAsync (from to : State).

Definition recordTransition (m : stateManager) (from to : State) (err : option Z) (now : Z) :
    stateManager :=
  {| config := config m; currentState := currentState m; callbacks := callbacks m;
     history := push_history (HistorySize (config m)) (mkTransition from to now err) (history m);
     transitionCount := transitionCount m; startTime := startTime m; stopTime := stopTime m;
     lastTransition := lastTransition m |}.

Definition NewManager (c : Config) (now : Z) : stateManager :=
  let init := default StateInitial (InitialState c) in
  let c := {| InitialState := Some init; OnStateChange := OnStateChange c;
              OnStateChangeAsync := OnStateChangeAsync c;
              TransitionTimeout := TransitionTimeout c; HistorySize := HistorySize c;
              ValidateTransitions := ValidateTransitions c |} in
  let m := {| config := c; currentState := init; callbacks := []; history := [];
              transitionCount := 0; startTime := None; stopTime := None; lastTransition := None |} in
  if 0 <? HistorySize c then recordTransition m init init None now else m.

Definition notifyCallbacks (m : stateManager) (from to : State) : list callback :=
  (if OnStateChange (config m) then [CbConfig from to] else []) ++
  ((fun id => CbRegistered id from to) <$> callbacks m) ++
  (if OnStateChangeAsync (config m) then [CbConfigAsync from to] else []).

(** [t1] is the transition's own timestamp, [t2] the later one in the history. *)
Definition transitionLocked (m : stateManager) (from to : State) (err : option Z) (t1 t2 : Z) :
    stateManager * list callback :=
  let tr := mkTransition from to t1 err in
  let m := {| config := config m; currentState := to; callbacks := callbacks m;
              history := history m; transitionCount := transitionCount m +i64 1;
              startTime := if bool_decide (to = StateStarting) then Some t1 else startTime m;
              stopTime := if bool_decide (to = StateStarting) then stopTime m
                          else if bool_decide (to = StateStopped) then Some t1 else stopTime m;
              lastTransition := Some tr |} in
  let m := recordTransition m from to err t2 in
  (m, notifyCallbacks m from to).

Inductive state_error : Type :=
| NIL_CONTEXT
| INVALID_STATE
| INVALID_TRANSITION
| TRANSITION_TIMEOUT
| CALLBACK_ERROR (e : Z).

Definition Transition (m : stateManager) (to : State) (t1 t2 : Z) :
    stateManager * list callback * option state_error :=
  if negb (Valid to) then (m, [], Some INVALID_STATE)
  else
    let current := currentState m in
    if ValidateTransitions (config m) && negb (isValidTransition current to) then
      (m, [], Some INVALID_TRANSITION)
    else
      let '(m, log) := transitionLocked m current to None t1 t2 in (m, log, None).

(** What the callback given to [Start] or [Stop] does: nil, or it returns, or the
    timer fires first (possible only with a TransitionTimeout). *)
Inductive hook : Type :=
| NoHook
| HookReturns (err : option Z)
| HookTimesOut.

Definition hook_error (h : hook) : option (state_error * Z) :=
  match h with
  | NoHook | HookReturns None => None
  | HookReturns (Some e) => Some (CALLBACK_ERROR e, e)
  | HookTimesOut => Some (TRANSITION_TIMEOUT, -1)
  end.

(** The two transitions of [Start] and [Stop]: through [mid], the hook, then to
    [StateError] or [target]. *)
Definition two_phase (m : stateManager) (mid target : State) (h : hook) (t1 t2 t3 t4 : Z) :
    stateManager * list callback * option state_error :=
  let '(m, log1) := transitionLocked m (currentState m) mid None t1 t2 in
  match hook_error h with
  | Some (err, code) =>
      let '(m, log2) := transitionLocked m mid StateError (Some code) t3 t4 in
      (m, log1 ++ log2, Some err)
  | None =>
      let '(m, log2) := transitionLocked m mid target None t3 t4 in (m, log1 ++ log2, None)
  end.

Definition Start (m : stateManager) (ctxNil : bool) (onStart : hook) (t1 t2 t3 t4 : Z) :
    stateManager * list callback * option state_error :=
  if ctxNil then (m, [], Some NIL_CONTEXT)
  else
    match currentState m with
    | StateInitial | StateStopped => two_phase m StateStarting StateRunning onStart t1 t2 t3 t4
    | _ => (m, [], Some INVALID_TRANSITION)
    end.

Definition Stop (m : stateManager) (onStop : hook) (t1 t2 t3 t4 : Z) :
    stateManager * list callback * option state_error :=
  match currentState m with
  | StateStopped | StateError => (m, [], None)
  | StateRunning | StateStarting => two_phase m StateStopping StateStopped onStop t1 t2 t3 t4
  | _ => (m, [], Some INVALID_TRANSITION)
  end.

(** [cb] is [None] for a nil callback. *)
Definition register_callback (m : stateManager) (cb : option nat) : stateManager :=
  match cb with
  | None => m
  | Some id =>
      {| config := config m; currentState := currentState m; callbacks := callbacks m ++ [id];
         history := history m; transitionCount := transitionCount m; startTime := startTime m;
         stopTime := stopTime m; lastTransition := lastTransition m |}
  end.

(** The uptime computed by [Stats]. *)
Definition uptime (m : stateManager) (now : Z) : Z :=
  match currentState m, startTime m, stopTime m with
  | StateRunning, Some s, _ => now - s
  | _, Some s, Some e => e - s
  | _, _, _ => 0
  end.

(** ** The history *)

Inductive op : Type :=
| OpTransition (to : State) (t1 t2 : Z)
| OpStart (ctxNil : bool) (h : hook) (t1 t2 t3 t4 : Z)
| OpStop (h : hook) (t1 t2 t3 t4 : Z)
| OpOnStateChange (cb : option nat).

Definition apply_op (m : stateManager) (o : op) : stateManager :=
  match o with
  | OpTransition to t1 t2 => (Transition m to t1 t2).1.1
  | OpStart n h t1 t2 t3 t4 => (Start m n h t1 t2 t3 t4).1.1
  | OpStop h t1 t2 t3 t4 => (Stop m h t1 t2 t3 t4).1.1
  | OpOnStateChange cb => register_callback m cb
  end.

Definition run_ops (m : stateManager) (ops : list op) : stateManager := fold_left apply_op ops m.

(** The next transition starts where this one ended. *)
Definition follows (a b : Transition_record) : Prop := To a = From b.

Definition valid_record (t : Transition_record) : Prop := isValidTransition (From t) (To t) = true.

Definition history_ok (m : stateManager) : Prop :=
  0 < HistorySize (config m) /\ ValidateTransitions (config m) = true /\
  chained follows (history m) /\ Forall valid_record (history m) /\
  Z.of_nat (length (history m)) <= HistorySize (config m) /\
  exists t, last (history m) = Some t /\ To t = currentState m.

(** A transition from the current state along the table keeps the history. *)
Lemma transitionLocked_ok m to err t1 t2 :
  history_ok m -> isValidTransition (currentState m) to = true ->
  history_ok (transitionLocked m (currentState m) to err t1 t2).1.
Proof.
  intros (H1 & H2 & H3 & H4 & H5 & t & H6 & H7) Hv. unfold history_ok; simpl.
  rewrite !push_history_cases. destruct (Z.leb_spec (HistorySize (config m)) 0); [lia|].
  set (k := if _ <=? _ then _ else _).
  split_and!; try done.
  - apply chained_snoc; [by apply chained_drop|]. simpl. intros y Hy.
    assert (last (history m) = Some y) as E.
    { by apply last_drop_le in Hy. }
    rewrite H6 in E. by injection E as <-.
  - apply Forall_app. split; [by apply Forall_drop|]. by apply Forall_singleton.
  - rewrite length_app, length_drop; simpl. unfold k.
    destruct (Z.leb_spec (HistorySize (config m)) (Z.of_nat (length (history m)))); lia.
  - eexists. rewrite last_snoc. done.
Qed.

Lemma valid_edge from to :
  to ∈ validTransitions from -> isValidTransition from to = true.
Proof. unfold isValidTransition. intros. by repeat case_bool_decide. Qed.

Lemma two_phase_ok m mid target h t1 t2 t3 t4 :
  history_ok m -> isValidTransition (currentState m) mid = true ->
  isValidTransition mid target = true -> isValidTransition mid StateError = true ->
  history_ok (two_phase m mid target h t1 t2 t3 t4).1.1.
Proof.
  intros Hm H1 H2 H3. unfold two_phase.
  pose proof (transitionLocked_ok m mid None t1 t2 Hm H1) as Hm1.
  assert (currentState (transitionLocked m (currentState m) mid None t1 t2).1 = mid) as Hc by done.
  destruct (transitionLocked m (currentState m) mid None t1 t2) as [m1 log1]. simpl in Hm1, Hc.
  destruct (hook_error h) as [[err code]|].
  - pose proof (transitionLocked_ok m1 StateError (Some code) t3 t4 Hm1) as Hm2.
    rewrite Hc in Hm2. by apply Hm2.
  - pose proof (transitionLocked_ok m1 target None t3 t4 Hm1) as Hm2.
    rewrite Hc in Hm2. by apply Hm2.
Qed.

Lemma apply_op_history_ok m o : history_ok m -> history_ok (apply_op m o).
Proof.
  intros Hm. pose proof Hm as (_ & Hval & _). destruct o; simpl.
  - unfold Transition. destruct (Valid to); [|done]. simpl. rewrite Hval.
    destruct (isValidTransition (currentState m) to) eqn:Hv; [|done]. by apply transitionLocked_ok.
  - unfold Start. destruct ctxNil; [done|].
    destruct (currentState m) eqn:Hs; try done; apply two_phase_ok; rewrite ?Hs; done.
  - unfold Stop. destruct (currentState m) eqn:Hs; try done; apply two_phase_ok; rewrite ?Hs; done.
  - by destruct cb.
Qed.

Lemma new_manager_history_ok c now :
  0 < HistorySize c -> ValidateTransitions c = true -> history_ok (NewManager c now).
Proof.
  intros Hh Hv. unfold NewManager; simpl. destruct (Z.ltb_spec 0 (HistorySize c)); [|lia].
  unfold history_ok; simpl. rewrite push_history_cases.
  destruct (Z.leb_spec (HistorySize c) 0); [lia|]. rewrite drop_nil. simpl.
  split_and!; try done; try lia.
  - apply Forall_singleton. unfold valid_record, isValidTransition. by case_bool_decide.
  - by eexists.
Qed.

(** With validation and a history, whatever operations are performed: the history
    is an unbroken chain of transitions of the table, it ends in the current
    state, and it never exceeds HistorySize. *)
Theorem state_history_is_valid_chain c now ops :
  0 < HistorySize c -> ValidateTransitions c = true ->
  history_ok (run_ops (NewManager c now) ops).
Proof.
  intros Hh Hv. pose proof (new_manager_history_ok c now Hh Hv) as Hm. revert Hm.
  generalize (NewManager c now). induction ops as [|o ops IH]; intros m Hm; [done|].
  apply IH. by apply apply_op_history_ok.
Qed.

Lemma state_history_is_valid_chain_witness :
  history_ok (run_ops (NewManager DefaultConfig 0)
    [OpStart false (HookReturns None) 1 1 2 2; OpTransition StateInitial 3 3;
     OpStop NoHook 4 4 5 5]).
Proof. apply state_history_is_valid_chain; reflexivity. Defined.

(** ** Start and Stop *)

(** Where a hook leads. *)
Definition after_hook (h : hook) (target : State) : State :=
  match hook_error h with Some _ => StateError | None => target end.

Lemma two_phase_final m mid target h t1 t2 t3 t4 :
  let '(m', _, r) := two_phase m mid target h t1 t2 t3 t4 in
  currentState m' = after_hook h target /\
  r = option_map fst (hook_error h) /\
  transitionCount m' = i64 (transitionCount m + 2).
Proof.
  unfold two_phase, after_hook; simpl. destruct (hook_error h) as [[err code]|]; simpl; split_and!; try done; wrap_eq.
Qed.

(** The whole of Start and Stop: Start succeeds only from initial or stopped and
    ends running, or in error with the hook's error; Stop is idempotent once
    stopped or failed, ends stopped or in error from running or starting, and is
    refused otherwise; refusals change nothing. *)
Theorem start_stop_spec m h t1 t2 t3 t4 :
  (let '(m', _, r) := Start m false h t1 t2 t3 t4 in
   if bool_decide (currentState m = StateInitial \/ currentState m = StateStopped) then
     currentState m' = after_hook h StateRunning /\
     r = option_map fst (hook_error h)
   else m' = m /\ r = Some INVALID_TRANSITION) /\
  (let '(m', _, r) := Stop m h t1 t2 t3 t4 in
   if IsTerminal (currentState m) then m' = m /\ r = None
   else if IsActive (currentState m) then
     currentState m' = after_hook h StateStopped /\
     r = option_map fst (hook_error h)
   else m' = m /\ r = Some INVALID_TRANSITION).
Proof.
  split.
  - unfold Start. pose proof (two_phase_final m StateStarting StateRunning h t1 t2 t3 t4) as Ht.
    destruct (two_phase _ _ _ _ _ _ _ _) as [[m' log] r].
    destruct (currentState m) eqn:Hs; case_bool_decide as Hb; try done;
      try (by destruct Hb as [?|?]); try tauto; try (exfalso; apply Hb; tauto).
  - unfold Stop. pose proof (two_phase_final m StateStopping StateStopped h t1 t2 t3 t4) as Ht.
    destruct (two_phase _ _ _ _ _ _ _ _) as [[m' log] r].
    destruct (currentState m) eqn:Hs; simpl; tauto.
Qed.

(** A restart that fails leaves the stop time of the previous run before the new
    start time: Stats then reports a negative uptime. *)
Theorem uptime_negative_after_failed_restart :
  exists ops now, uptime (run_ops (NewManager DefaultConfig 0) ops) now < 0.
Proof.
  exists [OpStart false NoHook 1 1 2 2; OpStop NoHook 3 3 4 4;
     OpStart false (HookReturns (Some 7)) 10 10 11 11], 12. vm_compute. reflexivity.
Qed.

(** ** Waiters

    [Wait] and [WaitForState] read the state, register a fresh unbuffered channel
    and then block on it; [notifyWaiters] sends without blocking, so a send
    reaches only a waiter that already blocks.  A waiter's channel is its index. *)

Inductive wait_pc : Type :=
| WtCheck
| WtRegister                 (** the check found another state *)
| WtSelect                   (** registered, not yet at the select *)
| WtBlocked
| WtReturned (r : ctx_status).   (** [CtxLive] for nil *)

Record waiter : Type := mkWaiter {
  targets : list State;      (** one state, or stopped and error for [Wait] *)
  at_ : wait_pc
}.

Record wait_sys : Type := mkWait {
  cur : State;
  registered : State -> list nat;    (** the [waiters] map *)
  ws : list waiter
}.

Definition Wait_targets : list State := [StateStopped; StateError].

Definition upd (f : State -> list nat) (s : State) (v : list nat) : State -> list nat :=
  fun s' => if bool_decide (s' = s) then v else f s'.

Definition set_waiter (y : wait_sys) (i : nat) (w : waiter) (p : wait_pc) : wait_sys :=
  {| cur := cur y; registered := registered y; ws := <[i := mkWaiter (targets w) p]> (ws y) |}.

Definition register_channel (f : State -> list nat) (ts : list State) (i : nat) : State -> list nat :=
  fold_left (fun f s => upd f s (f s ++ [i])) ts f.

Definition removeChannel (channels : list nat) (ch : nat) : list nat :=
  List.filter (fun c => negb (Nat.eqb c ch)) channels.

Definition remove_channels (f : State -> list nat) (ts : list State) (i : nat) : State -> list nat :=
  fold_left (fun f s => upd f s (removeChannel (f s) i)) ts f.

(** The non-blocking send to channel [i]. *)
Definition try_send (l : list waiter) (i : nat) : list waiter :=
  match l !! i with
  | Some w => match at_ w with
              | WtBlocked => <[i := mkWaiter (targets w) (WtReturned CtxLive)]> l
              | _ => l
              end
  | None => l
  end.

Definition notifyWaiters (y : wait_sys) (s : State) : wait_sys :=
  {| cur := cur y; registered := upd (registered y) s [];
     ws := fold_left try_send (registered y s) (ws y) |}.

Inductive wait_action : Type :=
| WCall (ts : list State)            (** a new call *)
| WStep (i : nat)
| WCtxDone (i : nat) (c : ctx_status)
| WTransition (to : State).

Definition wait_step (y : wait_sys) (a : wait_action) : option wait_sys :=
  match a with
  | WCall ts => Some {| cur := cur y; registered := registered y; ws := ws y ++ [mkWaiter ts WtCheck] |}
  | WStep i =>
      match ws y !! i with
      | None => None
      | Some w =>
          match at_ w with
          | WtCheck =>
              Some (set_waiter y i w (if bool_decide (cur y ∈ targets w) then WtReturned CtxLive
                                      else WtRegister))
          | WtRegister =>
              Some {| cur := cur y; registered := register_channel (registered y) (targets w) i;
                      ws := <[i := mkWaiter (targets w) WtSelect]> (ws y) |}
          | WtSelect => Some (set_waiter y i w WtBlocked)
          | _ => None
          end
      end
  | WCtxDone i c =>
      match ws y !! i with
      | None => None
      | Some w =>
          match at_ w with
          | WtSelect | WtBlocked =>
              if ctx_done c then
                Some {| cur := cur y; registered := remove_channels (registered y) (targets w) i;
                        ws := <[i := mkWaiter (targets w) (WtReturned c)]> (ws y) |}
              else None
          | _ => None
          end
      end
  | WTransition to =>
      Some (notifyWaiters {| cur := to; registered := registered y; ws := ws y |} to)
  end.

Fixpoint wait_run (y : wait_sys) (acts : list wait_action) : option wait_sys :=
  match acts with
  | [] => Some y
  | a :: acts => match wait_step y a with Some y' => wait_run y' acts | None => None end
  end.

Definition new_wait (s : State) : wait_sys := {| cur := s; registered := fun _ => []; ws := [] |}.

(** *** Registration *)

Lemma upd_eq f s v : upd f s v s = v.
Proof. unfold upd. by rewrite bool_decide_eq_true_2. Qed.

Lemma upd_ne f s v s' : s' <> s -> upd f s v s' = f s'.
Proof. intros. unfold upd. by rewrite bool_decide_eq_false_2. Qed.

Lemma elem_of_register f ts i s j :
  j ∈ register_channel f ts i s <-> j ∈ f s \/ (j = i /\ s ∈ ts).
Proof.
  revert f. induction ts as [|t ts IH]; intros f; simpl.
  - rewrite elem_of_nil. tauto.
  - rewrite IH, elem_of_cons. destruct (decide (s = t)) as [->|Hne].
    + rewrite upd_eq, elem_of_app, list_elem_of_singleton. tauto.
    + rewrite upd_ne by done. tauto.
Qed.

Lemma elem_of_removeChannel l i j : j ∈ removeChannel l i <-> j ∈ l /\ j <> i.
Proof.
  unfold removeChannel. rewrite !list_elem_of_In, List.filter_In, negb_true_iff, Nat.eqb_neq. done.
Qed.

Lemma elem_of_remove_channels f ts i s j :
  j ∈ remove_channels f ts i s <-> j ∈ f s /\ (j <> i \/ s ∉ ts).
Proof.
  revert f. induction ts as [|t ts IH]; intros f; simpl.
  - rewrite elem_of_nil. tauto.
  - rewrite IH, elem_of_cons. destruct (decide (s = t)) as [->|Hne].
    + rewrite upd_eq, elem_of_removeChannel. tauto.
    + rewrite upd_ne by done. tauto.
Qed.

(** *** Sends *)

(** A channel that is not sent to, or whose waiter does not block, is unchanged;
    a blocked one that is sent to returns. *)
Lemma notify_lookup l chs i w :
  l !! i = Some w ->
  fold_left try_send chs l !! i =
    Some (if bool_decide (i ∈ chs) then
            match at_ w with WtBlocked => mkWaiter (targets w) (WtReturned CtxLive) | _ => w end
          else w).
Proof.
  revert l w. induction chs as [|c chs IH]; intros l w Hi; cbn [fold_left].
  { rewrite bool_decide_eq_false_2 by (by apply not_elem_of_nil). done. }
  destruct (decide (c = i)) as [->|Hne].
  - rewrite (bool_decide_eq_true_2 (i ∈ i :: chs)) by (by left). unfold try_send at 2. rewrite Hi.
    destruct (at_ w) eqn:Hat; try (rewrite (IH _ _ Hi); case_bool_decide; rewrite ?Hat; done).
    erewrite IH by (apply list_lookup_insert_eq; by eapply lookup_lt_Some). simpl. by case_bool_decide.
  - assert (try_send l c !! i = Some w) as Hi'.
    { unfold try_send. destruct (l !! c) as [wc|]; [|done].
      destruct (at_ wc); try done. by rewrite list_lookup_insert_ne. }
    rewrite (IH _ _ Hi'). f_equal.
    assert (bool_decide (i ∈ c :: chs) = bool_decide (i ∈ chs)) as ->; [|done].
    apply bool_decide_ext. rewrite elem_of_cons. split; [intros [?|?]; [congruence|done]|auto].
Qed.

(** A step that does not involve waiter [i]. *)
Definition leaves (i : nat) (a : wait_action) : Prop :=
  forall c, a <> WCtxDone i c.

Lemma other_waiter_step y i w a y' :
  ws y !! i = Some w -> a <> WStep i -> leaves i a -> (forall to, a <> WTransition to) ->
  wait_step y a = Some y' ->
  ws y' !! i = Some w /\ cur y' = cur y /\
  (forall s, i ∈ registered y' s <-> i ∈ registered y s).
Proof.
  intros Hi Hs Hl Ht E. destruct a as [ts|j|j c|to]; simpl in E.
  - injection E as <-. split; [by apply lookup_app_l_Some|done].
  - assert (j <> i) by congruence. destruct (ws y !! j) as [wj|]; [|done].
    destruct (at_ wj); try done; injection E as <-; simpl; rewrite list_lookup_insert_ne by done;
      (split; [done|]); (split; [done|]); [done| |done].
    intros s. rewrite elem_of_register. split; [intros [?|[? _]]; [done|congruence]|auto].
  - assert (j <> i) by (intros ->; by apply (Hl c)). destruct (ws y !! j) as [wj|]; [|done].
    assert (forall s, i ∈ remove_channels (registered y) (targets wj) j s <-> i ∈ registered y s).
    { intros s. rewrite elem_of_remove_channels. split; [by intros []|]. intros. split; [done|left; congruence]. }
    destruct (at_ wj); try done; (destruct (ctx_done c); [|done]); injection E as <-; simpl;
      by rewrite list_lookup_insert_ne.
  - by destruct (Ht to).
Qed.

Lemma transition_registered y to i s :
  i ∈ registered (notifyWaiters {| cur := to; registered := registered y; ws := ws y |} to) s <->
  i ∈ registered y s /\ s <> to.
Proof.
  simpl. destruct (decide (s = to)) as [->|Hne].
  - rewrite upd_eq, elem_of_nil. tauto.
  - rewrite upd_ne by done. tauto.
Qed.

(** *** Parked waiters are woken *)

(** Waiter [i] blocks and is registered for the states it waits for. *)
Definition parked (i : nat) (ts : list State) (y : wait_sys) : Prop :=
  ws y !! i = Some (mkWaiter ts WtBlocked) /\ forall s, i ∈ registered y s <-> s ∈ ts.

Definition returned (i : nat) (y : wait_sys) : Prop :=
  exists w, ws y !! i = Some w /\ at_ w = WtReturned CtxLive.

Lemma step_blocked y i w y' : ws y !! i = Some w -> at_ w = WtBlocked -> wait_step y (WStep i) <> Some y'.
Proof. intros Hi Hat. simpl. by rewrite Hi, Hat. Qed.

Lemma transition_lookup y to y' i w :
  wait_step y (WTransition to) = Some y' -> ws y !! i = Some w ->
  ws y' !! i = Some (if bool_decide (i ∈ registered y to) then
      match at_ w with WtBlocked => mkWaiter (targets w) (WtReturned CtxLive) | _ => w end else w).
Proof. intros [= <-] Hi. simpl. by apply notify_lookup. Qed.

Lemma returned_step i y a y' : returned i y -> wait_step y a = Some y' -> returned i y'.
Proof.
  intros (w & Hi & Hat) E. destruct a as [ts|j|j c|to].
  - injection E as <-. exists w. split; [by apply lookup_app_l_Some|done].
  - simpl in E. destruct (decide (j = i)) as [->|Hne]; [by rewrite Hi, Hat in E|].
    destruct (ws y !! j) as [wj|]; [|done]. exists w.
    destruct (at_ wj); try done; injection E as <-; simpl; by rewrite list_lookup_insert_ne.
  - simpl in E. destruct (decide (j = i)) as [->|Hne]; [by rewrite Hi, Hat in E|].
    destruct (ws y !! j) as [wj|]; [|done]. exists w.
    destruct (at_ wj); try done; (destruct (ctx_done c); [|done]); injection E as <-; simpl;
      by rewrite list_lookup_insert_ne.
  - eexists. split; [by apply (transition_lookup y to y' i w)|]. rewrite Hat. by case_bool_decide.
Qed.

Lemma parked_step i ts y a y' :
  parked i ts y -> leaves i a -> wait_step y a = Some y' ->
  match a with
  | WTransition to => if bool_decide (to ∈ ts) then returned i y' else parked i ts y'
  | _ => parked i ts y'
  end.
Proof.
  intros [Hi Hr] Hl E.
  assert (a <> WStep i) as Hs by (intros ->; by eapply step_blocked in E).
  assert ((forall to, a <> WTransition to) -> parked i ts y') as Hother.
  { intros Ht. destruct (other_waiter_step y i _ a y' Hi Hs Hl Ht E) as (H1 & _ & H3).
    split; [done|]. intros s. by rewrite H3. }
  destruct a as [ts'|j|j c|to]; try (apply Hother; congruence).
  case_bool_decide as Hto; pose proof (transition_lookup y to y' i _ E Hi) as Hi'; simpl in Hi'.
  - eexists. split; [exact Hi'|]. by rewrite bool_decide_eq_true_2 by (by apply Hr).
  - injection E as <-. split.
    + rewrite Hi'. by rewrite bool_decide_eq_false_2 by (by rewrite Hr).
    + intros s. rewrite transition_registered, Hr. split; [tauto|]. intros Hin. split; [done|congruence].
Qed.

(** The three steps of a call that nothing interrupts park it. *)
Definition parking (i : nat) : list wait_action := [WStep i; WStep i; WStep i].

(** A waiter that has blocked before the state it waits for is reached, with its
    registration still in place, returns nil as soon as a transition reaches one
    of its states, whatever else happens before and after, unless its context
    ends. *)
Theorem parked_waiter_is_woken i ts acts y y' :
  parked i ts y -> Forall (leaves i) acts ->
  (exists to, to ∈ ts /\ WTransition to ∈ acts) ->
  wait_run y acts = Some y' -> returned i y'.
Proof.
  revert y. induction acts as [|a acts IH]; intros y Hp Hl Hto E.
  { destruct Hto as (to & _ & Hin). by apply elem_of_nil in Hin. }
  apply Forall_cons in Hl as [Ha Hl]. simpl in E. destruct (wait_step y a) as [y1|] eqn:E1; [|done].
  assert (forall z, returned i z -> wait_run z acts = Some y' -> returned i y') as Hret.
  { clear. induction acts as [|a acts IH]; intros z Hz E; simpl in E; [by simplify_eq|].
    destruct (wait_step z a) as [z1|] eqn:Ez; [|done]. eapply IH; [|done]. by eapply returned_step. }
  pose proof (parked_step i ts y a y1 Hp Ha E1) as Hstep.
  destruct Hto as (to & Hin & Hacts).
  destruct a as [ts'|j|j c|to']; try (apply (IH y1); try done; exists to; split; [done|];
    apply elem_of_cons in Hacts as [?|?]; [done|done]).
  case_bool_decide; [by eapply Hret|]. apply (IH y1); try done. exists to. split; [done|].
  apply elem_of_cons in Hacts as [[= ->]|?]; done.
Qed.

Lemma parked_waiter_is_woken_witness :
  exists y, wait_run (new_wait StateInitial) (WCall [StateRunning] :: parking 0) = Some y /\
  exists y', wait_run y [WTransition StateStarting; WTransition StateRunning] = Some y' /\
    returned 0 y'.
Proof.
  eexists. split; [vm_compute; reflexivity|]. eexists. split; [reflexivity|].
  eapply (parked_waiter_is_woken 0 [StateRunning] [WTransition StateStarting; WTransition StateRunning]);
    [| | |reflexivity].
  - split; [reflexivity|]. intros s. destruct s; vm_compute; split; intros H;
      solve [constructor | inversion H; subst; (inversion H2 || constructor)].
  - repeat constructor; intros c; discriminate.
  - exists StateRunning. split; [left|right; left].
Defined.

(** *** The lost wake-up *)

(** Waiter [i] blocks and no state knows its channel. *)
Definition deaf (i : nat) (y : wait_sys) : Prop :=
  (exists ts, ws y !! i = Some (mkWaiter ts WtBlocked)) /\ forall s, i ∉ registered y s.

Lemma deaf_step i y a y' : deaf i y -> leaves i a -> wait_step y a = Some y' -> deaf i y'.
Proof.
  intros [[ts Hi] Hr] Hl E.
  assert (a <> WStep i) as Hs by (intros ->; by eapply step_blocked in E).
  assert ((forall to, a <> WTransition to) -> deaf i y') as Hother.
  { intros Ht. destruct (other_waiter_step y i _ a y' Hi Hs Hl Ht E) as (H1 & _ & H3).
    split; [by exists ts|]. intros s. by rewrite H3. }
  destruct a as [ts'|j|j c|to]; try (apply Hother; congruence).
  pose proof (transition_lookup y to y' i _ E Hi) as Hi'.
  rewrite bool_decide_eq_false_2 in Hi' by apply Hr. split; [by exists ts|].
  injection E as <-. intros s. rewrite transition_registered. intros [Hx _]. by apply (Hr s).
Qed.

(** A transition to the awaited state between a call's registration and its
    select is lost: the send finds no receiver and the registration is deleted,
    so the call blocks although its state was reached, and no later transition,
    not even to that state, wakes it. *)
Theorem wait_lost_wakeup :
  exists acts y, wait_run (new_wait StateStarting) acts = Some y /\ cur y = StateRunning /\
    ws y !! 0%nat = Some (mkWaiter [StateRunning] WtBlocked) /\
    forall acts' y', Forall (leaves 0) acts' -> wait_run y acts' = Some y' ->
      exists ts, ws y' !! 0%nat = Some (mkWaiter ts WtBlocked).
Proof.
  exists [WCall [StateRunning]; WStep 0; WStep 0; WTransition StateRunning; WStep 0].
  eexists. split; [vm_compute; reflexivity|]. split; [done|]. split; [done|].
  intros acts' y' Hl Hrun.
  match type of Hrun with wait_run ?y _ = _ => assert (deaf 0 y) as Hd end.
  { split; [by eexists|]. intros s Hs. destruct s; vm_compute in Hs; inversion Hs. }
  assert (deaf 0 y') as [Hd' _]; [|done]. revert Hd Hrun.
  match goal with |- deaf 0 ?y -> _ => generalize y end.
  induction Hl as [|a acts' Ha Hl IH]; intros y Hd Hrun; simpl in Hrun; [by simplify_eq|].
  destruct (wait_step y a) as [y1|] eqn:E; [|done]. apply (IH y1); [|done]. by eapply deaf_step.
Qed.
