(* ===== verification/Quota.v ===== *)
(** * Quotas (pkg/core/runtime/quota/quota.go)

    The registry of quotas as a finite map, each operation atomic (the code holds
    the quota's mutex), clock readings as arguments. *)
From S2P Require Import Prelude.

Inductive QuotaType : Type :=
| QuotaTypeRequests
| QuotaTypeMemory
| QuotaTypeCPU
| QuotaTypeCustom
| QuotaTypeOther (s : string).

Record Quota : Type := mkQuota {
  Name : string;
  Type_ : QuotaType;
  Limit : Z;
  Window : Z;
  Usage : Z;
  LastReset : Z;
  LastUpdate : Z;
  RegisteredAt : Z;
  qTotalAcquired : Z;
  qTotalReleased : Z;
  qTotalExceeded : Z
}.

Inductive EventType : Type := EvReset | EvExceeded.

Record Event : Type := mkEvent {
  eName : string;
  eType : QuotaType;
  eEventType : EventType;
  eLimit : Z;
  eUsage : Z;
  eTimestamp : Z
}.

(** Callbacks are observers only; AutoResetInterval only decides how often
    [ResetAll] is called. *)
Record Config : Type := mkConfig {
  HistorySize : Z;
  AutoResetInterval : Z;
  EnableMetrics : bool
}.

Definition DefaultConfig : Config :=
  {| HistorySize := 0; AutoResetInterval := 0; EnableMetrics := false |}.

Record quotaManager : Type := mkQuotaManager {
  config : Config;
  quotas : gmap string Quota;
  TotalQuotas : Z;
  TotalAcquired : Z;
  TotalExceeded : Z;
  TotalReleased : Z;
  TotalReset : Z;
  LastEventTime : option Z;
  history : list Event;
  running : bool
}.

Inductive quota_error : Type :=
| NIL_CONTEXT
| INVALID_QUOTA
| QUOTA_EXISTS
| QUOTA_NOT_FOUND.

Definition NewManager (c : Config) : quotaManager :=
  let c := {| HistorySize := if HistorySize c <? 0 then 0 else HistorySize c;
              AutoResetInterval := AutoResetInterval c; EnableMetrics := EnableMetrics c |} in
  {| config := c; quotas := ∅; TotalQuotas := 0; TotalAcquired := 0; TotalExceeded := 0;
     TotalReleased := 0; TotalReset := 0; LastEventTime := None; history := [];
     running := 0 <? AutoResetInterval c |}.

Definition set_quotas (m : quotaManager) (qs : gmap string Quota) (total : Z) : quotaManager :=
  {| config := config m; quotas := qs; TotalQuotas := total; TotalAcquired := TotalAcquired m;
     TotalExceeded := TotalExceeded m; TotalReleased := TotalReleased m; TotalReset := TotalReset m;
     LastEventTime := LastEventTime m; history := history m; running := running m |}.

Definition count (m : quotaManager) (acq exc rel res : Z) : quotaManager :=
  {| config := config m; quotas := quotas m; TotalQuotas := TotalQuotas m;
     TotalAcquired := TotalAcquired m +i64 acq; TotalExceeded := TotalExceeded m +i64 exc;
     TotalReleased := TotalReleased m +i64 rel; TotalReset := TotalReset m +i64 res;
     LastEventTime := LastEventTime m; history := history m; running := running m |}.

Definition recordEvent (m : quotaManager) (e : Event) : quotaManager :=
  if HistorySize (config m) <=? 0 then m
  else
    {| config := config m; quotas := quotas m; TotalQuotas := TotalQuotas m;
       TotalAcquired := TotalAcquired m; TotalExceeded := TotalExceeded m;
       TotalReleased := TotalReleased m; TotalReset := TotalReset m;
       LastEventTime := Some (eTimestamp e);
       history := push_history (HistorySize (config m)) e (history m); running := running m |}.

Definition put (m : quotaManager) (name : string) (q : Quota) : quotaManager :=
  set_quotas m (<[name := q]> (quotas m)) (TotalQuotas m).

Definition set_usage (q : Quota) (usage lastReset lastUpdate acq rel exc : Z) : Quota :=
  {| Name := Name q; Type_ := Type_ q; Limit := Limit q; Window := Window q; Usage := usage;
     LastReset := lastReset; LastUpdate := lastUpdate; RegisteredAt := RegisteredAt q;
     qTotalAcquired := qTotalAcquired q +i64 acq; qTotalReleased := qTotalReleased q +i64 rel;
     qTotalExceeded := qTotalExceeded q +i64 exc |}.

(** ** Registration *)

(** [opts] are functions on the new quota. *)
Definition Register (m : quotaManager) (name : string) (qt : QuotaType) (limit window : Z)
    (opts : list (Quota -> Quota)) (now : Z) : quotaManager * option quota_error :=
  if bool_decide (name = EmptyString) then (m, Some INVALID_QUOTA)
  else if limit <? 0 then (m, Some INVALID_QUOTA)
  else if window <? 0 then (m, Some INVALID_QUOTA)
  else
    match quotas m !! name with
    | Some _ => (m, Some QUOTA_EXISTS)
    | None =>
        let quota := {| Name := name; Type_ := qt; Limit := limit; Window := window; Usage := 0;
                        LastReset := now; LastUpdate := now; RegisteredAt := now;
                        qTotalAcquired := 0; qTotalReleased := 0; qTotalExceeded := 0 |} in
        let quota := fold_left (fun q opt => opt q) opts quota in
        (set_quotas m (<[name := quota]> (quotas m)) (TotalQuotas m +i64 1), None)
    end.

Definition Unregister (m : quotaManager) (name : string) : quotaManager * option quota_error :=
  if bool_decide (name = EmptyString) then (m, Some INVALID_QUOTA)
  else
    match quotas m !! name with
    | None => (m, Some QUOTA_NOT_FOUND)
    | Some _ => (set_quotas m (delete name (quotas m)) (TotalQuotas m -i64 1), None)
    end.

Definition Clear (m : quotaManager) : quotaManager := set_quotas m ∅ 0.

(** ** Acquire and release *)

(** The window check at the head of [Acquire]. *)
Definition expired (q : Quota) (now : Z) : bool :=
  (0 <? Window q) && (Window q <=? now - LastReset q).

Definition reset_event (name : string) (q : Quota) (now : Z) : Event :=
  {| eName := name; eType := Type_ q; eEventType := EvReset; eLimit := Limit q; eUsage := 0;
     eTimestamp := now |}.

(** The remaining quota reported with a usage: -1 for an unlimited quota. *)
Definition remaining_of (q : Quota) (usage : Z) : Z :=
  if 0 <? Limit q then
    let remaining := Limit q -i64 usage in if remaining <? 0 then 0 else remaining
  else -1.

(** [Acquire] after the window check: [usage] and [last] are the quota's usage and
    last reset by then. *)
Definition acquire_within (m : quotaManager) (name : string) (q : Quota) (usage last amount now : Z) :
    quotaManager * result quota_error (bool * Z * Z) :=
  let metrics (n : Z) := if EnableMetrics (config m) then n else 0 in
  let newUsage := usage +i64 amount in
  if (0 <? Limit q) && (Limit q <? newUsage) then
    let m := put (count m 0 1 0 0) name (set_usage q usage last now 0 0 (metrics 1)) in
    let m := recordEvent m {| eName := name; eType := Type_ q; eEventType := EvExceeded;
                              eLimit := Limit q; eUsage := usage; eTimestamp := now |} in
    (m, Ok (false, usage, Limit q -i64 usage))
  else
    let m := put (count m 1 0 0 0) name (set_usage q newUsage last now (metrics 1) 0 0) in
    (m, Ok (true, newUsage, remaining_of q newUsage)).

(** The results are the verdict, the usage and the remaining quota. *)
Definition Acquire (m : quotaManager) (ctxNil : bool) (name : string) (amount now : Z) :
    quotaManager * result quota_error (bool * Z * Z) :=
  if ctxNil then (m, Err NIL_CONTEXT)
  else if bool_decide (name = EmptyString) then (m, Err INVALID_QUOTA)
  else if amount <? 0 then (m, Err INVALID_QUOTA)
  else
    match quotas m !! name with
    | None => (m, Err QUOTA_NOT_FOUND)
    | Some q =>
        if expired q now then
          acquire_within (recordEvent m (reset_event name q now)) name q 0 now amount now
        else acquire_within m name q (Usage q) (LastReset q) amount now
    end.

Definition Release (m : quotaManager) (name : string) (amount now : Z) :
    quotaManager * option quota_error :=
  if bool_decide (name = EmptyString) then (m, Some INVALID_QUOTA)
  else if amount <? 0 then (m, Some INVALID_QUOTA)
  else
    match quotas m !! name with
    | None => (m, Some QUOTA_NOT_FOUND)
    | Some q =>
        let metrics (n : Z) := if EnableMetrics (config m) then n else 0 in
        let newUsage := Usage q -i64 amount in
        let newUsage := if newUsage <? 0 then 0 else newUsage in
        (put (count m 0 0 1 0) name (set_usage q newUsage (LastReset q) now 0 (metrics 1) 0), None)
    end.

Definition Reset (m : quotaManager) (name : string) (now : Z) : quotaManager * option quota_error :=
  if bool_decide (name = EmptyString) then (m, Some INVALID_QUOTA)
  else
    match quotas m !! name with
    | None => (m, Some QUOTA_NOT_FOUND)
    | Some q =>
        let m := put (count m 0 0 0 1) name (set_usage q 0 now now 0 0 0) in
        (recordEvent m (reset_event name q now), None)
    end.

(** [names] is the order in which the map was iterated, each with the clock of
    its reset; the result is the number of errors. *)
Fixpoint ResetAll (m : quotaManager) (names : list (string * Z)) : quotaManager * Z :=
  match names with
  | [] => (m, 0)
  | (name, now) :: names =>
      let '(m, err) := Reset m name now in
      let '(m, errs) := ResetAll m names in
      (m, errs + match err with Some _ => 1 | None => 0 end)
  end.

(** ** Queries *)

Definition GetUsage (m : quotaManager) (name : string) : result quota_error Z :=
  if bool_decide (name = EmptyString) then Err INVALID_QUOTA
  else match quotas m !! name with
       | None => Err QUOTA_NOT_FOUND
       | Some q => Ok (Usage q)
       end.

Definition GetRemaining (m : quotaManager) (name : string) : result quota_error Z :=
  if bool_decide (name = EmptyString) then Err INVALID_QUOTA
  else match quotas m !! name with
       | None => Err QUOTA_NOT_FOUND
       | Some q => Ok (remaining_of q (Usage q))
       end.

(** The quota with its remaining amount, the fields of [QuotaInfo]. *)
Definition GetQuota (m : quotaManager) (name : string) : result quota_error (Quota * Z) :=
  if bool_decide (name = EmptyString) then Err INVALID_QUOTA
  else match quotas m !! name with
       | None => Err QUOTA_NOT_FOUND
       | Some q => Ok (q, remaining_of q (Usage q))
       end.

(** Exceeded, acquired and released counts of [QuotaStat]. *)
Definition QuotaStats (m : quotaManager) (name : string) :
    result quota_error (Quota * Z * (Z * Z * Z)) :=
  if bool_decide (name = EmptyString) then Err INVALID_QUOTA
  else match quotas m !! name with
       | None => Err QUOTA_NOT_FOUND
       | Some q =>
           let from_history := Z.of_nat (length (List.filter (fun e =>
             bool_decide (eName e = name) &&
             match eEventType e with EvExceeded => true | EvReset => false end) (history m))) in
           Ok (q, remaining_of q (Usage q),
               if EnableMetrics (config m)
               then (qTotalExceeded q, qTotalAcquired q, qTotalReleased q)
               else (from_history, 0, 0))
       end.

Definition Stop (m : quotaManager) : quotaManager :=
  {| config := config m; quotas := quotas m; TotalQuotas := TotalQuotas m;
     TotalAcquired := TotalAcquired m; TotalExceeded := TotalExceeded m;
     TotalReleased := TotalReleased m; TotalReset := TotalReset m;
     LastEventTime := LastEventTime m; history := history m; running := false |}.

(** ** The limit is respected *)

Inductive op : Type :=
| OpRegister (name : string) (qt : QuotaType) (limit window now : Z)
| OpUnregister (name : string)
| OpAcquire (name : string) (amount now : Z)
| OpRelease (name : string) (amount now : Z)
| OpReset (name : string) (now : Z)
| OpResetAll (names : list (string * Z))
| OpClear
| OpStop.

Definition apply_op (m : quotaManager) (o : op) : quotaManager :=
  match o with
  | OpRegister name qt limit window now => (Register m name qt limit window [] now).1
  | OpUnregister name => (Unregister m name).1
  | OpAcquire name amount now => (Acquire m false name amount now).1
  | OpRelease name amount now => (Release m name amount now).1
  | OpReset name now => (Reset m name now).1
  | OpResetAll names => (ResetAll m names).1
  | OpClear => Clear m
  | OpStop => Stop m
  end.

Definition run_ops (m : quotaManager) (ops : list op) : quotaManager := fold_left apply_op ops m.

(** Amounts and limits whose sum does not overflow int64. *)
Definition op_ok (o : op) : Prop :=
  match o with
  | OpRegister _ _ limit _ _ => limit <= 2 ^ 62
  | OpAcquire _ amount _ | OpRelease _ amount _ => amount < 2 ^ 62
  | _ => True
  end.

Definition quota_ok (name : string) (q : Quota) : Prop :=
  Name q = name /\ 0 <= Limit q <= 2 ^ 62 /\ (0 < Limit q -> 0 <= Usage q <= Limit q).

Definition manager_ok (m : quotaManager) : Prop :=
  map_Forall quota_ok (quotas m) /\
  TotalQuotas m = i64 (Z.of_nat (size (quotas m))) /\
  Z.of_nat (length (history m)) <= Z.max 0 (HistorySize (config m)).

Lemma recordEvent_same m e :
  quotas (recordEvent m e) = quotas m /\ TotalQuotas (recordEvent m e) = TotalQuotas m /\
  config (recordEvent m e) = config m.
Proof. unfold recordEvent. by zcase. Qed.

Lemma recordEvent_ok m e : manager_ok m -> manager_ok (recordEvent m e).
Proof.
  intros (H1 & H2 & H3). destruct (recordEvent_same m e) as (E1 & E2 & E3).
  unfold manager_ok. rewrite E1, E2, E3. split_and!; try done.
  unfold recordEvent. zcase; [done|]. simpl. by apply push_history_bound.
Qed.

(** Replacing a registered quota by one with an allowed usage. *)
Lemma put_ok m name q q' :
  manager_ok m -> quotas m !! name = Some q -> quota_ok name q' -> manager_ok (put m name q').
Proof.
  intros (H1 & H2 & H3) Hq Hok. split_and!; simpl; try done.
  - by apply map_Forall_insert_2.
  - rewrite H2. by rewrite map_size_insert_Some by done.
Qed.

Lemma count_ok m a b c d : manager_ok m -> manager_ok (count m a b c d).
Proof. done. Qed.

Lemma Reset_ok m name now : manager_ok m -> manager_ok (Reset m name now).1.
Proof.
  intros Hm. unfold Reset. case_bool_decide; [done|].
  destruct (quotas m !! name) as [q|] eqn:Hq; [|done]. apply recordEvent_ok.
  eapply put_ok; [by apply count_ok|exact Hq|].
  destruct Hm as (H1 & _). destruct (H1 _ _ Hq) as (? & ? & ?). unfold quota_ok; simpl. split_and!; lia || done.
Qed.

Lemma ResetAll_ok names m : manager_ok m -> manager_ok (ResetAll m names).1.
Proof.
  revert m. induction names as [|[name now] names IH]; intros m Hm; [done|]. simpl.
  pose proof (Reset_ok m name now Hm) as H1. destruct (Reset m name now) as [m1 err].
  specialize (IH m1 H1). by destruct (ResetAll m1 names).
Qed.

Lemma acquire_within_ok m name q usage last amount now :
  manager_ok m -> quotas m !! name = Some q -> quota_ok name q ->
  (0 < Limit q -> 0 <= usage <= Limit q) -> 0 <= amount < 2 ^ 62 ->
  manager_ok (acquire_within m name q usage last amount now).1.
Proof.
  intros Hm Hq (Hn & Hl & _) Hus Ha. unfold acquire_within.
  change (2 ^ 62) with 4611686018427387904 in *.
  destruct (Z.ltb_spec 0 (Limit q)); simpl.
  - rewrite i64_id by (widths; lia). zcase; simpl.
    + apply recordEvent_ok. eapply put_ok; [by apply count_ok|exact Hq|].
      unfold quota_ok; simpl. split_and!; try done; lia.
    + eapply put_ok; [by apply count_ok|exact Hq|]. unfold quota_ok; simpl. split_and!; try done; lia.
  - eapply put_ok; [by apply count_ok|exact Hq|]. unfold quota_ok; simpl. split_and!; try done; lia.
Qed.

Lemma Acquire_ok m name amount now :
  manager_ok m -> amount < 2 ^ 62 -> manager_ok (Acquire m false name amount now).1.
Proof.
  intros Hm Ha. unfold Acquire. case_bool_decide; [done|].
  destruct (Z.ltb_spec amount 0); [done|].
  destruct (quotas m !! name) as [q|] eqn:Hq; [|done].
  pose proof (proj1 Hm _ _ Hq) as Hok. pose proof Hok as (_ & _ & Hu).
  destruct (expired q now); apply acquire_within_ok; try done; try lia.
  - by apply recordEvent_ok.
  - by destruct (recordEvent_same m (reset_event name q now)) as (-> & _).
Qed.

Lemma apply_op_ok m o : manager_ok m -> op_ok o -> manager_ok (apply_op m o).
Proof.
  intros Hm Ho. pose proof Hm as (H1 & H2 & H3). destruct o; simpl in *.
  - unfold Register. case_bool_decide; [done|]. repeat (zcase; [done|]).
    destruct (quotas m !! name) as [q|] eqn:Hq; [done|]. split_and!; simpl; try done.
    + apply map_Forall_insert_2; [|done]. unfold quota_ok; simpl. split_and!; lia || done.
    + rewrite H2, map_size_insert_None by done. wrap_eq.
  - unfold Unregister. case_bool_decide; [done|]. destruct (quotas m !! name) as [q|] eqn:Hq; [|done].
    split_and!; simpl; try done.
    + by apply map_Forall_delete.
    + rewrite H2, map_size_delete_Some by done.
      assert (size (quotas m) <> 0%nat).
      { intros Hz%map_size_empty_inv. by rewrite Hz in Hq. }
      rewrite <- Z.add_opp_r. wrap_eq.
  - by apply Acquire_ok.
  - unfold Release. case_bool_decide; [done|]. destruct (Z.ltb_spec amount 0); [done|].
    destruct (quotas m !! name) as [q|] eqn:Hq; [|done]. destruct (H1 _ _ Hq) as (? & ? & Hu).
    eapply put_ok; [by apply count_ok|exact Hq|]. unfold quota_ok; simpl.
    change (2 ^ 62) with 4611686018427387904 in *. split_and!; try done; try lia.
    intros Hpos. specialize (Hu Hpos). rewrite i64_id by (widths; lia). zcase; lia.
  - by apply Reset_ok.
  - by apply ResetAll_ok.
  - split_and!; simpl; try done.
  - done.
Qed.

Lemma run_ops_ok ops m : Forall op_ok ops -> manager_ok m -> manager_ok (run_ops m ops).
Proof.
  intros Hops. revert m. induction Hops as [|o ops Ho Hops IH]; intros m Hm; [done|].
  apply IH. by apply apply_op_ok.
Qed.

Lemma NewManager_ok c : manager_ok (NewManager c).
Proof. split_and!; simpl; [apply map_Forall_empty|done|]. lia. Qed.

(** C34. In every sequence of operations whose amounts and limits stay below half of
    the int64 range: a limited quota's usage is between zero and its limit, the
    quota is filed under its own name, TotalQuotas counts the registered quotas,
    and the history never exceeds HistorySize. *)
Theorem quota_limits_respected c ops :
  Forall op_ok ops -> manager_ok (run_ops (NewManager c) ops).
Proof. intros Hops. apply run_ops_ok; [done|apply NewManager_ok]. Qed.

Lemma quota_limits_respected_witness :
  manager_ok (run_ops (NewManager DefaultConfig)
    [OpRegister "api" QuotaTypeRequests 3 10 0; OpAcquire "api" 2 1; OpAcquire "api" 2 2;
     OpRelease "api" 1 3; OpUnregister "gone"; OpResetAll [("api"%string, 4)]]).
Proof. apply quota_limits_respected. repeat constructor; vm_compute; discriminate. Defined.

(** ** Acquire exactly *)

(** The usage [Acquire] starts from: zero when the window has passed. *)
Definition effective_usage (q : Quota) (now : Z) : Z := if expired q now then 0 else Usage q.

Lemma acquire_within_exact m name q usage last amount now :
  quota_ok name q -> 0 < Limit q -> 0 <= usage <= Limit q -> 0 <= amount < 2 ^ 62 ->
  let '(m', r) := acquire_within m name q usage last amount now in
  exists q', quotas m' !! name = Some q' /\
    (forall other, other <> name -> quotas m' !! other = quotas m !! other) /\
    if usage + amount <=? Limit q
    then Usage q' = usage + amount /\ r = Ok (true, usage + amount, Limit q - usage - amount)
    else Usage q' = usage /\ r = Ok (false, usage, Limit q - usage).
Proof.
  intros (_ & Hl & _) Hlim Hus Ha. unfold acquire_within, remaining_of.
  change (2 ^ 62) with 4611686018427387904 in *.
  rewrite (i64_id (usage + amount)), (i64_id (Limit q - usage)) by (widths; lia).
  destruct (Z.ltb_spec 0 (Limit q)); [|lia]. simpl.
  destruct (Z.ltb_spec (Limit q) (usage + amount)), (Z.leb_spec (usage + amount) (Limit q)); try lia.
  - match goal with |- context [recordEvent ?m ?e] => destruct (recordEvent_same m e) as (-> & _) end.
    eexists. split; [apply lookup_insert_eq|]. split; [|done].
    intros other Hne. by apply lookup_insert_ne.
  - rewrite (i64_id (Limit q - (usage + amount))) by (widths; lia).
    destruct (Z.ltb_spec (Limit q - (usage + amount)) 0); [lia|].
    eexists. split; [apply lookup_insert_eq|]. split; [intros other Hne; by apply lookup_insert_ne|].
    split; [done|]. f_equal. f_equal. lia.
Qed.

(** Acquire on a limited quota: it succeeds exactly when the usage (zero after
    the window) plus the amount is within the limit; then the usage grows by the
    amount and the rest is reported; otherwise usage stays and the refusal
    reports what is left.  No other quota changes. *)
Theorem acquire_exact m name amount now q :
  manager_ok m -> quotas m !! name = Some q -> name <> EmptyString ->
  0 < Limit q -> 0 <= amount < 2 ^ 62 ->
  let usage := effective_usage q now in
  let '(m', r) := Acquire m false name amount now in
  exists q', quotas m' !! name = Some q' /\
    (forall other, other <> name -> quotas m' !! other = quotas m !! other) /\
    if usage + amount <=? Limit q
    then Usage q' = usage + amount /\ r = Ok (true, usage + amount, Limit q - usage - amount)
    else Usage q' = usage /\ r = Ok (false, usage, Limit q - usage).
Proof.
  intros Hm Hq Hne Hlim Ha. cbv zeta. pose proof (proj1 Hm _ _ Hq) as Hok.
  unfold Acquire. rewrite bool_decide_eq_false_2 by done.
  destruct (Z.ltb_spec amount 0); [lia|]. rewrite Hq. unfold effective_usage.
  destruct (expired q now).
  - pose proof (acquire_within_exact (recordEvent m (reset_event name q now)) name q 0 now amount now Hok)
      as Hx. destruct (recordEvent_same m (reset_event name q now)) as (E & _). rewrite E in Hx.
    apply Hx; lia.
  - destruct Hok as (? & ? & ?). apply acquire_within_exact; try done; lia.
Qed.

Definition api_quota : quotaManager :=
  run_ops (NewManager DefaultConfig) [OpRegister "api" QuotaTypeRequests 3 10 0; OpAcquire "api" 2 1].

Lemma acquire_exact_witness :
  (Acquire api_quota false "api" 1 2).2 = Ok (true, 3, 0).
Proof.
  assert (manager_ok api_quota) as Hm
    by (apply run_ops_ok; [repeat constructor; vm_compute; discriminate|apply NewManager_ok]).
  pose proof (acquire_exact api_quota "api" 1 2
    (mkQuota "api" QuotaTypeRequests 3 10 2 0 1 0 0 0 0) Hm eq_refl ltac:(discriminate)
    ltac:(reflexivity) ltac:(vm_compute; split; [discriminate|reflexivity])) as H.
  cbv zeta in H. destruct (Acquire api_quota false "api" 1 2) as [m' r].
  destruct H as (q' & _ & _ & H). apply H.
Defined.

(** ** Overflow *)

(** The sum of usage and amount is computed in int64 without a check: an amount
    near the maximum is granted on a limited quota that is already in use, and
    leaves a negative usage that then admits far more than the limit. *)
Theorem quota_overflow_bypasses_limit :
  exists m name amount,
    m = run_ops (NewManager DefaultConfig)
          [OpRegister name QuotaTypeRequests 100 0 0; OpAcquire name 1 1] /\
    let '(m', r) := Acquire m false name amount 2 in
    (exists u rem, r = Ok (true, u, rem) /\ u < 0) /\
    exists big, 100 < big /\ (exists u rem, (Acquire m' false name big 3).2 = Ok (true, u, rem)).
Proof.
  eexists _, "api"%string, max_i64. split; [reflexivity|].
  destruct (Acquire _ false "api" max_i64 2) as [m' r] eqn:E. vm_compute in E.
  injection E as <- <-. split; [by do 2 eexists|]. exists 1000. split; [done|].
  do 2 eexists. vm_compute. reflexivity.
Qed.
