(* ===== verification/Registry.v ===== *)
(** * Component registry (pkg/core/runtime/registry/registry.go)

    Components by name with their metadata, registered and unregistered one by
    one or many at once, and listed in several orders.  A component is its
    identity.  The order in which a Go map is iterated is an argument wherever the
    code iterates one.  The lock makes each operation one step; RegisterMany and
    UnregisterMany are sequences of steps. *)
From stdpp Require Import sorting strings.
From S2P Require Import Prelude.

Record ComponentInfo : Type := mkInfo {
  Name : string;
  Component : Z;
  Priority : Z;
  Metadata : gmap string Z;
  RegisteredAt : Z;
  LastAccessTime : option Z;     (** [None]: the zero time *)
  AccessCount : Z
}.

(** The options of the package. *)
Inductive Option_ : Type :=
| WithPriority (priority : Z)
| WithMetadata (metadata : gmap string Z)
| WithMetadataKey (key : string) (value : Z).

Definition apply_option (info : ComponentInfo) (o : Option_) : ComponentInfo :=
  match o with
  | WithPriority p =>
      mkInfo (Name info) (Component info) p (Metadata info) (RegisteredAt info) (LastAccessTime info) (AccessCount info)
  | WithMetadata m =>
      mkInfo (Name info) (Component info) (Priority info) (m ∪ Metadata info) (RegisteredAt info) (LastAccessTime info)
        (AccessCount info)
  | WithMetadataKey k v =>
      mkInfo (Name info) (Component info) (Priority info) (<[k := v]> (Metadata info)) (RegisteredAt info)
        (LastAccessTime info) (AccessCount info)
  end.

(** A nil validator is [None]; it answers whether the component passes. *)
Record Config : Type := mkConfig {
  AllowOverwrite : bool;
  MaxComponents : Z;
  Validator : option (string -> Z -> bool)
}.

Definition DefaultConfig : Config := mkConfig false 0 None.

Inductive notification : Type :=
| OnRegister (name : string) (component : Z)
| OnUnregister (name : string) (component : Z)
| OnAccess (name : string) (component : Z).

Record registryManager : Type := mkRegistry {
  config : Config;
  components : gmap string ComponentInfo;
  totalRegistered : Z;
  totalUnregistered : Z;
  totalAccesses : Z;
  lastRegisterTime : option Z;
  lastUnregisterTime : option Z;
  lastAccessTime : option Z;
  notified : list notification          (** the callbacks called, in order *)
}.

Definition NewManager (c : Config) : registryManager := mkRegistry c ∅ 0 0 0 None None None [].

Inductive registry_error : Type :=
| ErrCodeEmptyName
| ErrCodeNilComponent
| ErrCodeValidationFailed
| ErrCodeAlreadyExists
| ErrCodeMaxComponents
| ErrCodeNotFound.

Definition exists_in (r : registryManager) (name : string) : bool := bool_decide (is_Some (components r !! name)).

(** The checks of [Register] once the lock is held. *)
Definition register_refused (r : registryManager) (name : string) : option registry_error :=
  if exists_in r name && negb (AllowOverwrite (config r)) then Some ErrCodeAlreadyExists
  else if (0 <? MaxComponents (config r)) && (MaxComponents (config r) <=? Z.of_nat (size (components r)))
          && negb (exists_in r name) then Some ErrCodeMaxComponents
  else None.

Definition Register (r : registryManager) (name : string) (component : option Z) (opts : list Option_) (now : Z) :
    registryManager * option registry_error :=
  if bool_decide (name = EmptyString) then (r, Some ErrCodeEmptyName)
  else
    match component with
    | None => (r, Some ErrCodeNilComponent)
    | Some c =>
        if match Validator (config r) with Some v => negb (v name c) | None => false end
        then (r, Some ErrCodeValidationFailed)
        else
          match register_refused r name with
          | Some e => (r, Some e)
          | None =>
              let info := fold_left apply_option opts (mkInfo name c 0 ∅ now None 0) in
              (mkRegistry (config r) (<[name := info]> (components r)) (totalRegistered r +i64 1) (totalUnregistered r)
                 (totalAccesses r) (Some now) (lastUnregisterTime r) (lastAccessTime r)
                 (notified r ++ [OnRegister name c]), None)
          end
    end.

Definition Unregister (r : registryManager) (name : string) (now : Z) : registryManager * option registry_error :=
  if bool_decide (name = EmptyString) then (r, Some ErrCodeEmptyName)
  else
    match components r !! name with
    | None => (r, Some ErrCodeNotFound)
    | Some info =>
        (mkRegistry (config r) (delete name (components r)) (totalRegistered r) (totalUnregistered r +i64 1)
           (totalAccesses r) (lastRegisterTime r) (Some now) (lastAccessTime r)
           (notified r ++ [OnUnregister name (Component info)]), None)
    end.

Definition touch (info : ComponentInfo) (now : Z) : ComponentInfo :=
  mkInfo (Name info) (Component info) (Priority info) (Metadata info) (RegisteredAt info) (Some now)
    (AccessCount info +i64 1).

Definition Get (r : registryManager) (name : string) (now : Z) : registryManager * option Z :=
  if bool_decide (name = EmptyString) then (r, None)
  else
    match components r !! name with
    | None => (r, None)
    | Some info =>
        (mkRegistry (config r) (<[name := touch info now]> (components r)) (totalRegistered r) (totalUnregistered r)
           (totalAccesses r +i64 1) (lastRegisterTime r) (lastUnregisterTime r) (Some now)
           (notified r ++ [OnAccess name (Component info)]), Some (Component info))
    end.

Definition GetComponentInfo (r : registryManager) (name : string) : result registry_error ComponentInfo :=
  if bool_decide (name = EmptyString) then Err ErrCodeEmptyName
  else match components r !! name with None => Err ErrCodeNotFound | Some info => Ok info end.

Definition Count (r : registryManager) : Z := Z.of_nat (size (components r)).

Definition Exists_ (r : registryManager) (name : string) : bool :=
  if bool_decide (name = EmptyString) then false else exists_in r name.

(** Listings; [order] is the map in the order it is iterated. *)
Definition ListComponents (order : list (string * ComponentInfo)) : list ComponentInfo := snd <$> order.

Definition List_ (order : list (string * ComponentInfo)) : list string := fst <$> order.

Definition Filter_ (filter : ComponentInfo -> bool) (order : list (string * ComponentInfo)) : list ComponentInfo :=
  List.filter filter (ListComponents order).

Definition Find_ (filter : ComponentInfo -> bool) (order : list (string * ComponentInfo)) : option ComponentInfo :=
  List.find filter (ListComponents order).

Inductive SortBy : Type :=
| SortByName
| SortByPriority
| SortByRegistrationTime
| SortByAccessTime
| SortByAccessCount.

Definition time_after (a b : option Z) : bool :=
  match a, b with
  | Some a, Some b => b <? a
  | Some _, None => true
  | None, _ => false
  end.

(** The comparisons handed to sort.Slice. *)
Definition less (by_ : SortBy) (x y : ComponentInfo) : bool :=
  match by_ with
  | SortByName => String.ltb (Name x) (Name y)
  | SortByPriority =>
      if negb (Priority x =? Priority y) then Priority x <? Priority y else RegisteredAt x <? RegisteredAt y
  | SortByRegistrationTime => RegisteredAt x <? RegisteredAt y
  | SortByAccessTime => time_after (LastAccessTime x) (LastAccessTime y)
  | SortByAccessCount => AccessCount y <? AccessCount x
  end.

Definition not_after (by_ : SortBy) (x y : ComponentInfo) : Prop := less by_ y x = false.

#[export] Instance not_after_dec by_ : RelDecision (not_after by_).
Proof. intros x y. unfold not_after. apply _. Defined.

(** sort.Slice sorts the copies; which of two equal ones comes first is not
    specified and is here the order of iteration. *)
Definition ListSorted (by_ : SortBy) (order : list (string * ComponentInfo)) : list string :=
  Name <$> merge_sort (not_after by_) (ListComponents order).

Definition Clear (r : registryManager) (order : list (string * ComponentInfo)) : registryManager :=
  mkRegistry (config r) ∅ (totalRegistered r) (totalUnregistered r) (totalAccesses r) (lastRegisterTime r)
    (lastUnregisterTime r) (lastAccessTime r)
    (notified r ++ ((fun p => OnUnregister p.1 (Component p.2)) <$> order)).

(** Undo the registrations of this call. *)
Definition rollback (r : registryManager) (registered : list string) (now : Z) : registryManager :=
  fold_left (fun r name => (Unregister r name now).1) registered r.

(** [RegisterMany] over its argument in iteration order; [registered] are the
    names so far. *)
Fixpoint register_loop (r : registryManager) (cs : list (string * option Z)) (opts : list Option_)
    (registered : list string) (now : Z) : registryManager * option registry_error :=
  match cs with
  | [] => (r, None)
  | (name, c) :: cs =>
      let wasExisting := Exists_ r name in
      match Register r name c opts now with
      | (r, Some e) => (rollback r registered now, Some e)
      | (r, None) =>
          register_loop r cs opts
            (if negb wasExisting || AllowOverwrite (config r) then registered ++ [name] else registered) now
      end
  end.

Definition RegisterMany (r : registryManager) (cs : list (string * option Z)) (opts : list Option_) (now : Z) :=
  register_loop r cs opts [] now.

(** The registry and the errors collected so far. *)
Definition unregister_each (now : Z) (acc : registryManager * list registry_error) (name : string) :
    registryManager * list registry_error :=
  let '(r, e) := Unregister acc.1 name now in (r, acc.2 ++ match e with Some e => [e] | None => [] end).

Definition UnregisterMany (r : registryManager) (names : list string) (now : Z) :
    registryManager * list registry_error :=
  fold_left (unregister_each now) names (r, []).

(** ** Registering many *)

Lemma options_keep opts info : Name (fold_left apply_option opts info) = Name info /\
  Component (fold_left apply_option opts info) = Component info.
Proof.
  revert info. induction opts as [|o opts IH]; intros info; [done|]. simpl. destruct (IH (apply_option info o)) as [-> ->].
  by destruct o.
Qed.

(** What a successful registration stores. *)
Lemma Register_ok r name c opts now r' : Register r name c opts now = (r', None) ->
  name <> EmptyString /\ config r' = config r /\ register_refused r name = None /\
  exists x info, c = Some x /\ Component info = x /\ Name info = name /\ components r' = <[name := info]> (components r) /\
    totalRegistered r' = totalRegistered r +i64 1 /\ totalUnregistered r' = totalUnregistered r.
Proof.
  unfold Register. case_bool_decide; [done|]. destruct c as [x|]; [|done]. case_match; [done|].
  destruct (register_refused r name) eqn:E; [done|]. intros [= <-]. simpl. split_and!; try done.
  destruct (options_keep opts (mkInfo name x 0 ∅ now None 0)) as [Hn Hc]. eauto 10.
Qed.

Lemma Register_err r name c opts now r' e : Register r name c opts now = (r', Some e) -> r' = r.
Proof. unfold Register. repeat case_match; naive_solver. Qed.

Lemma Unregister_components r name now : name <> EmptyString ->
  components (Unregister r name now).1 = delete name (components r).
Proof.
  intros Hn. unfold Unregister. rewrite bool_decide_false by done.
  destruct (components r !! name) eqn:E; simpl; [done|]. by rewrite delete_id.
Qed.

Lemma rollback_lookup r names now k : Forall (fun n => n <> EmptyString) names ->
  components (rollback r names now) !! k = if bool_decide (k ∈ names) then None else components r !! k.
Proof.
  unfold rollback. revert r. induction names as [|n names IH]; intros r Hne.
  { rewrite bool_decide_false; [done|apply not_elem_of_nil]. }
  cbn [fold_left]. apply Forall_cons in Hne as [Hn Hne]. rewrite IH, Unregister_components by done.
  repeat case_bool_decide; try done; try set_solver.
  - destruct (decide (k = n)) as [->|Hk]; [by rewrite lookup_delete_eq|set_solver].
  - rewrite lookup_delete_ne by set_solver. done.
Qed.

(** [r] holds the components of [r0] and those of the names registered since. *)
Definition since (r0 r : registryManager) (registered : list string) : Prop :=
  config r = config r0 /\ Forall (fun n => n <> EmptyString) registered /\
  forall k, if bool_decide (k ∈ registered) then components r0 !! k = None else components r !! k = components r0 !! k.

Lemma register_loop_spec r0 r cs opts registered now r' e : AllowOverwrite (config r0) = false ->
  since r0 r registered -> (forall p, p ∈ cs -> p.1 ∉ registered) -> NoDup cs.*1 ->
  register_loop r cs opts registered now = (r', e) ->
  match e with
  | Some _ => components r' = components r0
  | None => since r0 r' (registered ++ cs.*1) /\
      (forall k, k ∈ registered -> components r' !! k = components r !! k) /\
      forall name c, (name, c) ∈ cs -> exists x info, c = Some x /\ components r' !! name = Some info /\
        Name info = name /\ Component info = x
  end.
Proof.
  intros Ho. revert r registered. induction cs as [|[name c] cs IH]; intros r registered Hs Hfresh Hnd H; simpl in H.
  { injection H as <- <-. rewrite app_nil_r. split_and!; try done. by intros name c ?%elem_of_nil. }
  destruct (Register r name c opts now) as [r1 [err|]] eqn:Hr.
  - injection H as <- <-. rewrite (Register_err _ _ _ _ _ _ _ Hr). destruct Hs as (_ & Hne & Hk).
    apply map_eq. intros k. rewrite rollback_lookup by done. specialize (Hk k). by case_bool_decide.
  - destruct (Register_ok _ _ _ _ _ _ Hr) as (Hname & Hcfg & Href & x & info & Ec & Ex & En & Hcomp & _).
    destruct Hs as (Hc0 & Hne & Hk). rewrite fmap_cons in Hnd. apply NoDup_cons in Hnd as [Hni Hnd].
    assert (name ∉ registered) as Hnr by (apply (Hfresh (name, c)); by left).
    assert (components r !! name = None) as Hnone.
    { unfold register_refused, exists_in in Href. rewrite Hc0, Ho in Href.
      destruct (components r !! name); [|done]. by rewrite bool_decide_true in Href by eauto. }
    assert (Exists_ r name = false) as Hex.
    { unfold Exists_, exists_in. rewrite bool_decide_false by done. rewrite Hnone. by apply bool_decide_false; intros []. }
    rewrite Hex, Hcfg in H. simpl in H. apply IH in H.
    + destruct e; [done|]. destruct H as (Hs' & Hold & Hnew). simpl. rewrite <- app_assoc in Hs'. split_and!; [done| |].
      * intros k Hk'. rewrite Hold by (apply elem_of_app; by left). rewrite Hcomp.
        apply lookup_insert_ne. intros ->. done.
      * intros n d [Hd|Hd]%elem_of_cons; [|by apply Hnew]. injection Hd as -> ->. exists x, info. split_and!; try done.
        rewrite Hold by (apply elem_of_app; right; by apply list_elem_of_singleton). rewrite Hcomp. apply lookup_insert_eq.
    + split_and!; [congruence| |].
      * apply Forall_app. split; [done|]. by constructor.
      * intros k. specialize (Hk k). rewrite Hcomp. destruct (decide (k = name)) as [->|Hkn].
        -- rewrite bool_decide_true by (apply elem_of_app; right; by apply list_elem_of_singleton).
           rewrite bool_decide_false in Hk by done. congruence.
        -- rewrite lookup_insert_ne by done. repeat case_bool_decide; try done; set_solver.
    + intros p Hp [Hq|Hq]%elem_of_app; [by apply (Hfresh p); [by right|]|].
      apply list_elem_of_singleton in Hq. apply Hni. rewrite <- Hq. apply list_elem_of_fmap. by exists p.
    + done.
Qed.

(** Without overwriting, RegisterMany registers all its components or none: when
    it fails the registry is as before, when it succeeds every component of the
    call is found and every other is as before.  [cs] is the argument, a map, in
    the order of its iteration. *)
Theorem register_many_all_or_nothing r cs opts now r' e :
  AllowOverwrite (config r) = false -> NoDup cs.*1 -> RegisterMany r cs opts now = (r', e) ->
  match e with
  | Some _ => components r' = components r
  | None =>
      (forall k, k ∉ cs.*1 -> components r' !! k = components r !! k) /\
      forall name c, (name, c) ∈ cs -> components r !! name = None /\
        exists x info, c = Some x /\ components r' !! name = Some info /\ Name info = name /\ Component info = x
  end.
Proof.
  intros Ho Hnd H.
  assert (since r r []) as Hs.
  { split_and!; [done|done|]. intros k. rewrite bool_decide_false; [done|apply not_elem_of_nil]. }
  apply (register_loop_spec r r cs opts [] now r' e Ho Hs (fun p _ => not_elem_of_nil _) Hnd) in H.
  destruct e; [done|]. destruct H as ((_ & _ & Hk) & _ & Hnew). simpl in Hk. split.
  - intros k Hni. specialize (Hk k). by rewrite bool_decide_false in Hk.
  - intros name c Hin. split; [|by apply Hnew]. specialize (Hk name). rewrite bool_decide_true in Hk; [done|].
    apply list_elem_of_fmap. by exists (name, c).
Qed.

Lemma register_many_all_or_nothing_witness :
  let r := (Register (NewManager (mkConfig false 2 None)) "db" (Some 1) [] 5).1 in
  exists r', RegisterMany r [("cache"%string, Some 2); ("bus"%string, Some 3)] [] 6 = (r', Some ErrCodeMaxComponents) /\
    components r' = components r.
Proof.
  intros r. eexists. split; [vm_compute; reflexivity|].
  refine (register_many_all_or_nothing r [("cache"%string, Some 2); ("bus"%string, Some 3)] [] 6 _ (Some ErrCodeMaxComponents) _ _ _).
  - reflexivity.
  - repeat constructor; set_solver.
  - vm_compute. reflexivity.
Defined.

(** With overwriting the rollback unregisters what it had overwritten: the
    component registered before the call is gone. *)
Theorem rollback_drops_overwritten :
  let r := (Register (NewManager (mkConfig true 0 None)) "db" (Some 1) [] 5).1 in
  let '(r', e) := RegisterMany r [("db"%string, Some 2); ("bus"%string, None)] [] 6 in
  e = Some ErrCodeNilComponent /\ (Get r "db" 7).2 = Some 1 /\ (Get r' "db" 7).2 = None.
Proof. by vm_compute. Qed.

(** ** Any sequence of operations *)

Inductive op : Type :=
| OpRegister (name : string) (c : option Z) (opts : list Option_) (now : Z)
| OpUnregister (name : string) (now : Z)
| OpGet (name : string) (now : Z)
| OpRegisterMany (cs : list (string * option Z)) (opts : list Option_) (now : Z)
| OpUnregisterMany (names : list string) (now : Z)
| OpClear.

Definition apply_op (r : registryManager) (o : op) : registryManager :=
  match o with
  | OpRegister name c opts now => (Register r name c opts now).1
  | OpUnregister name now => (Unregister r name now).1
  | OpGet name now => (Get r name now).1
  | OpRegisterMany cs opts now => (RegisterMany r cs opts now).1
  | OpUnregisterMany names now => (UnregisterMany r names now).1
  | OpClear => Clear r (map_to_list (components r))
  end.

(** What every operation keeps: names, the limit, and, while nothing is
    overwritten or cleared, the balance of the counters. *)
Definition reg_ok (exact : bool) (r : registryManager) : Prop :=
  (forall k info, components r !! k = Some info -> Name info = k /\ k <> EmptyString) /\
  (0 < MaxComponents (config r) -> Z.of_nat (size (components r)) <= MaxComponents (config r)) /\
  (exact = true -> AllowOverwrite (config r) = false /\
     i64 (totalRegistered r) = i64 (totalUnregistered r + Z.of_nat (size (components r)))).

Lemma register_reg_ok x r name c opts now : reg_ok x r -> reg_ok x (Register r name c opts now).1.
Proof.
  intros Hok. destruct (Register r name c opts now) as [r' [e|]] eqn:H; [by rewrite (Register_err _ _ _ _ _ _ _ H)|].
  destruct (Register_ok _ _ _ _ _ _ H) as (Hn & Hc & Href & y & info & -> & Hy & Hname & Hcomp & Ht & Hu).
  destruct Hok as (H1 & H2 & H3). simpl. unfold reg_ok. rewrite Hc, Hcomp, Ht, Hu.
  unfold register_refused, exists_in in Href. split_and!.
  - intros k i. destruct (decide (k = name)) as [->|Hk]; [rewrite lookup_insert_eq; intros [= <-]; done|].
    rewrite lookup_insert_ne by done. apply H1.
  - intros Hm. specialize (H2 Hm). destruct (components r !! name) as [i|] eqn:E.
    + by rewrite map_size_insert_Some by (by rewrite E).
    + rewrite map_size_insert_None by done. rewrite bool_decide_false in Href by (by intros []). simpl in Href.
      rewrite andb_true_r in Href. destruct (Z.ltb_spec 0 (MaxComponents (config r))); [|lia]. simpl in Href.
      destruct (Z.leb_spec (MaxComponents (config r)) (Z.of_nat (size (components r)))); [done|lia].
  - intros Hx. destruct (H3 Hx) as [Ho Hb]. split; [done|]. rewrite Ho in Href.
    destruct (components r !! name) as [i|] eqn:E; [by rewrite bool_decide_true in Href by eauto|].
    rewrite map_size_insert_None by done.
    replace (totalUnregistered r + Z.of_nat (S (size (components r))))
      with (totalUnregistered r + Z.of_nat (size (components r)) + 1) by lia.
    rewrite <- (Z.add_0_r (totalRegistered r +i64 1)), i64_absorb, Z.add_0_r. by apply i64_add_cong.
Qed.

Lemma unregister_reg_ok x r name now : reg_ok x r -> reg_ok x (Unregister r name now).1.
Proof.
  intros (H1 & H2 & H3). unfold Unregister. case_bool_decide; [done|].
  destruct (components r !! name) as [info|] eqn:E; [|done]. unfold reg_ok; simpl.
  assert (size (components r) = S (size (delete name (components r)))) as Hsz.
  { rewrite map_size_delete_Some by eauto. assert (size (components r) <> 0%nat); [|lia].
    apply map_size_ne_0_lookup. eauto. }
  split_and!.
  - intros k i [_ Hk]%lookup_delete_Some. by apply H1.
  - intros Hm. specialize (H2 Hm). lia.
  - intros Hx. destruct (H3 Hx) as [Ho Hb]. split; [done|]. rewrite Hb, Hsz.
    replace (totalUnregistered r + Z.of_nat (S (size (delete name (components r)))))
      with (totalUnregistered r + 1 + Z.of_nat (size (delete name (components r)))) by lia.
    by rewrite i64_absorb.
Qed.

Lemma get_reg_ok x r name now : reg_ok x r -> reg_ok x (Get r name now).1.
Proof.
  intros (H1 & H2 & H3). unfold Get. case_bool_decide; [done|].
  destruct (components r !! name) as [info|] eqn:E; [|done]. unfold reg_ok; simpl.
  rewrite map_size_insert_Some by (by rewrite E). split_and!; try done.
  intros k i. destruct (decide (k = name)) as [->|Hk]; [rewrite lookup_insert_eq; intros [= <-]; by apply (H1 name info)|].
  rewrite lookup_insert_ne by done. apply H1.
Qed.

Lemma rollback_reg_ok x r names now : reg_ok x r -> reg_ok x (rollback r names now).
Proof. unfold rollback. revert r. induction names as [|n names IH]; intros r H; [done|]. by apply IH, unregister_reg_ok. Qed.

Lemma register_loop_reg_ok x r cs opts registered now : reg_ok x r -> reg_ok x (register_loop r cs opts registered now).1.
Proof.
  revert r registered. induction cs as [|[n c] cs IH]; intros r registered H; [done|]. cbn [register_loop].
  pose proof (register_reg_ok x r n c opts now H) as H'. destruct (Register r n c opts now) as [r1 [e|]]; simpl in *.
  - by apply rollback_reg_ok.
  - by apply IH.
Qed.

Lemma unregister_many_reg_ok x r names now : reg_ok x r -> reg_ok x (UnregisterMany r names now).1.
Proof.
  unfold UnregisterMany. intros H. change r with (r, @nil registry_error).1 in H. revert H. generalize (r, @nil registry_error).
  induction names as [|n names IH]; intros acc H; [done|]. cbn [fold_left]. apply IH. unfold unregister_each.
  pose proof (unregister_reg_ok x acc.1 n now H). by destruct (Unregister acc.1 n now).
Qed.

Lemma Register_config r name c opts now : config (Register r name c opts now).1 = config r.
Proof. unfold Register. by repeat case_match. Qed.

Lemma Unregister_config r name now : config (Unregister r name now).1 = config r.
Proof. unfold Unregister. by repeat case_match. Qed.

Lemma rollback_config r names now : config (rollback r names now) = config r.
Proof.
  unfold rollback. revert r. induction names as [|n names IH]; intros r; [done|]. simpl. by rewrite IH, Unregister_config.
Qed.

Lemma register_loop_config r cs opts registered now : config (register_loop r cs opts registered now).1 = config r.
Proof.
  revert r registered. induction cs as [|[n c] cs IH]; intros r registered; [done|]. cbn [register_loop].
  pose proof (Register_config r n c opts now). destruct (Register r n c opts now) as [r1 [e|]]; simpl in *.
  - by rewrite rollback_config.
  - by rewrite IH.
Qed.

Lemma unregister_many_config r names now : config (UnregisterMany r names now).1 = config r.
Proof.
  unfold UnregisterMany. change r with (r, @nil registry_error).1 at 2. generalize (r, @nil registry_error).
  induction names as [|n names IH]; intros acc; [done|]. cbn [fold_left]. rewrite IH. unfold unregister_each.
  pose proof (Unregister_config acc.1 n now). by destruct (Unregister acc.1 n now).
Qed.

Lemma op_config r o : config (apply_op r o) = config r.
Proof.
  destruct o; simpl; auto using Register_config, Unregister_config, register_loop_config, unregister_many_config.
  - unfold Get. by repeat case_match.
  - apply register_loop_config.
Qed.

Definition clears (o : op) : bool := match o with OpClear => true | _ => false end.

Lemma op_reg_ok x r o : (x = true -> clears o = false) -> reg_ok x r -> reg_ok x (apply_op r o).
Proof.
  intros Hx H. destruct o; simpl; auto using register_reg_ok, unregister_reg_ok, get_reg_ok, register_loop_reg_ok, unregister_many_reg_ok.
  - by apply register_loop_reg_ok.
  - destruct x; [by specialize (Hx eq_refl)|]. split_and!; simpl; [by intros k i ?%lookup_empty_Some|rewrite map_size_empty; lia|done].
Qed.

Lemma run_reg_ok c ops x : (x = true -> AllowOverwrite c = false /\ existsb clears ops = false) ->
  reg_ok x (fold_left apply_op ops (NewManager c)) /\ config (fold_left apply_op ops (NewManager c)) = c.
Proof.
  intros Hx. assert (reg_ok x (NewManager c)) as H0.
  { split_and!; simpl; [by intros k i ?%lookup_empty_Some|rewrite map_size_empty; lia|]. intros Ht. by destruct (Hx Ht). }
  assert (x = true -> existsb clears ops = false) as Hc by (intros Ht; by apply Hx). clear Hx.
  assert (config (NewManager c) = c) as Hcfg by done. revert H0 Hcfg. generalize (NewManager c).
  induction ops as [|o ops IH]; intros r H0 Hcfg; [done|]. cbn [fold_left].
  assert (x = true -> clears o = false /\ existsb clears ops = false) as Hc' by (intros Ht; by apply orb_false_iff, Hc).
  apply IH; [intros Ht; by apply Hc'|apply op_reg_ok; [|done]; intros Ht; by apply Hc'|by rewrite op_config].
Qed.

(** After any operations, one at a time: every component is stored under its own
    name and never under the empty one, there are never more than MaxComponents,
    and as long as nothing is overwritten or cleared the components registered
    minus those unregistered (in 64 bits) are the components present. *)
Theorem registry_invariant c ops :
  let r := fold_left apply_op ops (NewManager c) in
  (forall k info, components r !! k = Some info -> Name info = k /\ k <> EmptyString) /\
  (0 < MaxComponents c -> Count r <= MaxComponents c) /\
  (AllowOverwrite c = false -> existsb clears ops = false ->
     i64 (totalRegistered r) = i64 (totalUnregistered r + Count r)).
Proof.
  intros r. destruct (run_reg_ok c ops false) as [(H1 & H2 & _) Hc]; [done|]. fold r in H1, H2, Hc. split_and!; [done| |].
  - intros Hm. rewrite Hc in H2. by apply H2.
  - intros Ho Hcl. destruct (run_reg_ok c ops true) as [(_ & _ & H) _]; [done|]. by apply H.
Qed.

Lemma registry_invariant_witness :
  let ops := [OpRegister "db" (Some 1) [] 1; OpRegister "bus" (Some 2) [WithPriority 3] 2; OpGet "db" 3; OpUnregister "db" 4] in
  let r := fold_left apply_op ops (NewManager (mkConfig false 2 None)) in
  Count r <= 2 /\ i64 (totalRegistered r) = i64 (totalUnregistered r + Count r).
Proof.
  intros ops r. destruct (registry_invariant (mkConfig false 2 None) ops) as (_ & H1 & H2).
  split; [apply H1; reflexivity|apply H2; reflexivity].
Defined.

(** ** Listings *)

Lemma name_not_after x y : not_after SortByName x y <-> String.le (Name x) (Name y).
Proof.
  unfold not_after, String.le, less, String.ltb, String.leb. rewrite String.compare_antisym.
  by destruct (String.compare (Name x) (Name y)).
Qed.

#[export] Instance not_after_total by_ : Total (not_after by_).
Proof.
  intros x y. destruct by_.
  - rewrite !name_not_after. apply total, _.
  - unfold not_after, less. repeat (zcase; simpl); auto; lia.
  - unfold not_after, less. repeat (zcase; simpl); auto; lia.
  - unfold not_after, less, time_after. destruct (LastAccessTime x), (LastAccessTime y); auto. repeat zcase; auto; lia.
  - unfold not_after, less. repeat (zcase; simpl); auto; lia.
Qed.

#[export] Instance not_after_trans by_ : Transitive (not_after by_).
Proof.
  intros x y z. destruct by_.
  - rewrite !name_not_after. apply transitivity.
  - unfold not_after, less. repeat (zcase; simpl); try done; lia.
  - unfold not_after, less. repeat (zcase; simpl); try done; lia.
  - unfold not_after, less, time_after. destruct (LastAccessTime x), (LastAccessTime y), (LastAccessTime z); try done.
    repeat zcase; try done; lia.
  - unfold not_after, less. repeat (zcase; simpl); try done; lia.
Qed.

(** A listing names every component once, each after none that sorts behind it,
    in whatever order the map is iterated; by name, the listing does not depend on
    that order. *)
Theorem list_sorted_correct c ops by_ order :
  let r := fold_left apply_op ops (NewManager c) in
  order ≡ₚ map_to_list (components r) ->
  ListSorted by_ order ≡ₚ (map_to_list (components r)).*1 /\ NoDup (ListSorted by_ order) /\
  (exists infos, ListSorted by_ order = Name <$> infos /\ StronglySorted (not_after by_) infos) /\
  (by_ = SortByName -> ListSorted by_ order = ListSorted by_ (map_to_list (components r))).
Proof.
  intros r Hord. destruct (run_reg_ok c ops false) as [(Hnames & _) _]; [done|]. fold r in Hnames.
  assert (forall order', order' ≡ₚ map_to_list (components r) ->
    ListSorted by_ order' ≡ₚ (map_to_list (components r)).*1) as Hperm.
  { intros order' Ho. unfold ListSorted, ListComponents. rewrite merge_sort_Permutation, Ho, <- list_fmap_compose.
    apply Permutation_refl', list_fmap_ext. intros i [k info] Hi. apply list_elem_of_lookup_2, elem_of_map_to_list in Hi.
    by apply (Hnames k info). }
  split_and!.
  - by apply Hperm.
  - rewrite (Hperm order Hord). apply NoDup_fst_map_to_list.
  - exists (merge_sort (not_after by_) (ListComponents order)). split; [done|]. apply StronglySorted_merge_sort; apply _.
  - intros ->. assert (forall order', Sorted String.le (ListSorted SortByName order')) as Hsort.
    { intros order'. unfold ListSorted. apply (Sorted_fmap Name (not_after SortByName) String.le); [|apply Sorted_merge_sort, _].
      intros x y. by rewrite name_not_after. }
    apply (Sorted_unique String.le); [apply Hsort..|]. rewrite !Hperm; done.
Qed.

Lemma list_sorted_correct_witness :
  let ops := [OpRegister "db" (Some 1) [] 1; OpRegister "bus" (Some 2) [WithPriority 3] 2] in
  let r := fold_left apply_op ops (NewManager DefaultConfig) in
  ListSorted SortByName (reverse (map_to_list (components r))) = ["bus"; "db"]%string /\
  ListSorted SortByName (reverse (map_to_list (components r))) = ListSorted SortByName (map_to_list (components r)).
Proof.
  intros ops r. split; [vm_compute; reflexivity|].
  apply (list_sorted_correct DefaultConfig ops SortByName); [|reflexivity]. apply reverse_Permutation.
Defined.
