(* ===== verification/Drain.v ===== *)
(** * Draining (pkg/core/runtime/drain/drain.go)

    The drainer with its registered components, and its calls as goroutines that
    interleave: [DrainAll], sequential or parallel, [Drain] of one component,
    registration and [Reset].  Every atomic operation on the counters and every
    critical section is a step.  What a component answers is an argument,
    and the timeout of its context only shows there.  Callbacks only observe and
    are left out. *)
From S2P Require Import Prelude.

(** ** Data *)

(** The errors a component returns, as far as the drainer looks at them. *)
Inductive drain_error : Type :=
| DeadlineExceeded
| Canceled
| OtherError.

#[export] Instance drain_error_eq_dec : EqDecision drain_error.
Proof. solve_decision. Defined.

Definition is_timeout (e : drain_error) : bool :=
  match e with DeadlineExceeded | Canceled => true | OtherError => false end.

Record Config : Type := mkConfig { DefaultTimeout : Z; Parallel : bool }.

Definition second : Z := 1000000000.

Definition DefaultConfig : Config := mkConfig (30 * second) false.

(** A component: its name, and which drainable it is. *)
Record Component : Type := mkComponent { Name : string; Drainable : nat }.

#[export] Instance Component_eq_dec : EqDecision Component.
Proof. solve_decision. Defined.

Record Drainer : Type := mkDrainer {
  config : Config;
  components : list Component;
  TotalDrained : Z;
  TotalFailed : Z;
  TotalTimeouts : Z;
  LastDrainTime : option Z;
  isDraining : bool;
  isDrained : bool
}.

Definition NewDrainer (c : Config) : Drainer :=
  mkDrainer (mkConfig (if DefaultTimeout c =? 0 then 30 * second else DefaultTimeout c) (Parallel c)) [] 0 0 0 None false false.

Definition set_components (d : Drainer) (l : list Component) : Drainer :=
  mkDrainer (config d) l (TotalDrained d) (TotalFailed d) (TotalTimeouts d) (LastDrainTime d) (isDraining d) (isDrained d).

Definition set_counts (d : Drainer) (a b c : Z) : Drainer :=
  mkDrainer (config d) (components d) a b c (LastDrainTime d) (isDraining d) (isDrained d).

Definition set_draining (d : Drainer) (b : bool) : Drainer :=
  mkDrainer (config d) (components d) (TotalDrained d) (TotalFailed d) (TotalTimeouts d) (LastDrainTime d) b (isDrained d).

Definition set_drained (d : Drainer) (b : bool) : Drainer :=
  mkDrainer (config d) (components d) (TotalDrained d) (TotalFailed d) (TotalTimeouts d) (LastDrainTime d) (isDraining d) b.

Definition set_time (d : Drainer) (t : option Z) : Drainer :=
  mkDrainer (config d) (components d) (TotalDrained d) (TotalFailed d) (TotalTimeouts d) t (isDraining d) (isDrained d).

Inductive drainer_error : Type :=
| ErrEmptyName
| ErrNilDrainable
| ErrAlreadyRegistered
| ErrNilContext
| ErrAlreadyDraining
| ErrNotFound
| ErrDrain (errors : list (string * drain_error)).

(** ** Registration *)

Definition find_component (name : string) (l : list Component) : option Component :=
  list_find (fun c => Name c = name) l ≫= fun p => Some p.2.

Definition Register (d : Drainer) (name : string) (drainable : option nat) : Drainer * option drainer_error :=
  if String.eqb name "" then (d, Some ErrEmptyName)
  else match drainable with
       | None => (d, Some ErrNilDrainable)
       | Some x =>
           match find_component name (components d) with
           | Some _ => (d, Some ErrAlreadyRegistered)
           | None => (set_components d (components d ++ [mkComponent name x]), None)
           end
       end.

Fixpoint remove_first (name : string) (l : list Component) : list Component :=
  match l with
  | [] => []
  | c :: l => if String.eqb (Name c) name then l else c :: remove_first name l
  end.

Definition Unregister (d : Drainer) (name : string) : Drainer := set_components d (remove_first name (components d)).

(** ** Calls *)

(** Where the drain of one component is: after the call of [Drain], its counters and
    the list of errors are updated one after the other. *)
Inductive cpc : Type :=
| CWaiting
| CDraining
| CFailed (e : drain_error)
| CNoted (e : drain_error)
| CDone (r : option drain_error).

#[export] Instance cpc_eq_dec : EqDecision cpc.
Proof. solve_decision. Defined.

Definition done (p : cpc) : bool := match p with CDone _ => true | _ => false end.

Notation item := (Component * cpc)%type.

Inductive pc : Type :=
| AllEnter (nilctx : bool)
| AllLoop (items : list item) (errors : list (string * drain_error))
| AllDrained (items : list item) (errors : list (string * drain_error))
| AllTimed (items : list item) (errors : list (string * drain_error))
| AllReturned (items : list item) (r : option drainer_error)
| OneEnter (nilctx : bool) (name : string)
| OneLoop (c : Component) (p : cpc)
| OneReturned (c : Component) (r : option drain_error)
| Returned (r : option drainer_error)
| RegisterEnter (name : string) (drainable : option nat)
| UnregisterEnter (name : string)
| ResetAt (k : nat).

(** [OneLoop] is [Drain], which keeps no list of errors.

    What a scheduled call does: component [i] moves, with its answer where the
    component returns; [Go] is every other step. *)
Inductive choice : Type :=
| Go (now : Z)
| Item (i : nat) (answer : option drain_error).

(** One step of the drain of a component; the last one adds the error to the list. *)
Definition item_step (d : Drainer) (errors : list (string * drain_error)) (x : item) (answer : option drain_error)
    : option (Drainer * list (string * drain_error) * item) :=
  let '(c, p) := x in
  match p with
  | CWaiting => Some (d, errors, (c, CDraining))
  | CDraining =>
      match answer with
      | None => Some (set_counts d (i64 (TotalDrained d + 1)) (TotalFailed d) (TotalTimeouts d), errors, (c, CDone None))
      | Some e => Some (set_counts d (TotalDrained d) (i64 (TotalFailed d + 1)) (TotalTimeouts d), errors, (c, CFailed e))
      end
  | CFailed e =>
      Some (if is_timeout e then set_counts d (TotalDrained d) (TotalFailed d) (i64 (TotalTimeouts d + 1)) else d, errors, (c, CNoted e))
  | CNoted e => Some (d, errors ++ [(Name c, e)], (c, CDone (Some e)))
  | CDone _ => None
  end.

(** In the sequential loop a component moves when all before it are done. *)
Definition may_move (d : Drainer) (items : list item) (i : nat) : bool :=
  Parallel (config d) || forallb (fun x => done x.2) (take i items).

Definition drain_result (errors : list (string * drain_error)) : option drainer_error :=
  match errors with [] => None | _ => Some (ErrDrain errors) end.

Definition call_step (d : Drainer) (p : pc) (ch : choice) : option (Drainer * pc) :=
  match p, ch with
  | AllEnter nilctx, Go _ =>
      if nilctx : bool then Some (d, Returned (Some ErrNilContext))
      else if isDraining d then Some (d, Returned (Some ErrAlreadyDraining))
      else Some (set_draining d true, AllLoop ((fun c => (c, CWaiting)) <$> components d) [])
  | AllLoop items errors, Item i answer =>
      match items !! i with
      | Some x =>
          if may_move d items i
          then match item_step d errors x answer with
               | Some (d', errors', x') => Some (d', AllLoop (<[i := x']> items) errors')
               | None => None
               end
          else None
      | None => None
      end
  | AllLoop items errors, Go _ =>
      if forallb (fun x => done x.2) items then Some (set_drained d true, AllDrained items errors) else None
  | AllDrained items errors, Go now => Some (set_time d (Some now), AllTimed items errors)
  | AllTimed items errors, Go _ => Some (set_draining d false, AllReturned items (drain_result errors))
  | OneEnter nilctx name, Go _ =>
      if nilctx : bool then Some (d, Returned (Some ErrNilContext))
      else match find_component name (components d) with
           | None => Some (d, Returned (Some ErrNotFound))
           | Some c => Some (d, OneLoop c CWaiting)
           end
  | OneLoop c p, Item _ answer =>
      match item_step d [] (c, p) answer with
      | Some (d', _, (_, CDone r)) => Some (d', OneReturned c r)
      | Some (d', _, (_, p')) => Some (d', OneLoop c p')
      | None => None
      end
  | RegisterEnter name x, Go _ => let '(d', r) := Register d name x in Some (d', Returned r)
  | UnregisterEnter name, Go _ => Some (Unregister d name, Returned None)
  | ResetAt 0, Go _ => Some (set_counts d 0 (TotalFailed d) (TotalTimeouts d), ResetAt 1)
  | ResetAt 1, Go _ => Some (set_counts d (TotalDrained d) 0 (TotalTimeouts d), ResetAt 2)
  | ResetAt 2, Go _ => Some (set_counts d (TotalDrained d) (TotalFailed d) 0, ResetAt 3)
  | ResetAt 3, Go _ => Some (set_drained d false, ResetAt 4)
  | ResetAt _, Go _ => Some (set_time d None, Returned None)
  | _, _ => None
  end.

Record system : Type := mkSystem { drainer : Drainer; calls : list pc }.

Definition dstep (s : system) (k : nat) (ch : choice) : option system :=
  match calls s !! k with
  | Some p =>
      match call_step (drainer s) p ch with
      | Some (d, p') => Some (mkSystem d (<[k := p']> (calls s)))
      | None => None
      end
  | None => None
  end.

Inductive dsteps : system -> system -> Prop :=
| steps_refl s : dsteps s s
| steps_snoc s s1 s2 k ch : dsteps s s1 -> dstep s1 k ch = Some s2 -> dsteps s s2.

(** A call that has not begun. *)
Definition entering (p : pc) : bool :=
  match p with
  | AllEnter _ | OneEnter _ _ | RegisterEnter _ _ | UnregisterEnter _ | ResetAt 0 => true
  | _ => false
  end.

Definition start (c : Config) (cs : list pc) : system := mkSystem (NewDrainer c) cs.

(** ** Overlapping calls *)

Definition in_progress (p : pc) : Z :=
  match p with AllLoop _ _ | AllDrained _ _ | AllTimed _ _ => 1 | _ => 0 end.

(** The errors of the components that are done, in the order of the components. *)
Definition failures (items : list item) : list (string * drain_error) :=
  omap (fun x => match x.2 with CDone (Some e) => Some (Name x.1, e) | _ => None end) items.

(** In the sequential loop no component has begun before all earlier ones are done. *)
Definition in_order (items : list item) : Prop :=
  forall i j x y, (i < j)%nat -> items !! i = Some x -> items !! j = Some y -> y.2 <> CWaiting -> done x.2 = true.

Definition all_done (items : list item) : Prop := forall i x, items !! i = Some x -> done x.2 = true.

Definition items_ok (par : bool) (items : list item) (errors : list (string * drain_error)) : Prop :=
  errors ≡ₚ failures items /\ (par = false -> errors = failures items /\ in_order items).

Definition call_ok (par : bool) (p : pc) : Prop :=
  match p with
  | AllLoop items errors => items_ok par items errors
  | AllDrained items errors | AllTimed items errors => items_ok par items errors /\ all_done items
  | AllReturned items r => exists errors, items_ok par items errors /\ all_done items /\ r = drain_result errors
  | _ => True
  end.

Lemma failures_app (l k : list item) : failures (l ++ k) = failures l ++ failures k.
Proof. apply omap_app. Qed.

Lemma failures_waiting (l : list item) : (forall i x, l !! i = Some x -> x.2 = CWaiting) -> failures l = [].
Proof.
  induction l as [|x l IH]; intros H; [done|]. unfold failures. simpl. rewrite (H 0%nat x) by done. apply IH. intros i. apply (H (S i)).
Qed.

(** The errors of an item when it moves. *)
Definition failure (x : item) : list (string * drain_error) := failures [x].

Lemma failures_insert (items : list item) (i : nat) (x y : item) :
  items !! i = Some x ->
  failures items = failures (take i items) ++ failure x ++ failures (drop (S i) items)
  /\ failures (<[i := y]> items) = failures (take i items) ++ failure y ++ failures (drop (S i) items).
Proof.
  intros Hx. split.
  - rewrite <- (take_drop_middle items i x) at 1 by done. rewrite failures_app. f_equal. exact (failures_app [x] _).
  - rewrite insert_take_drop by (by apply lookup_lt_Some in Hx). rewrite failures_app. f_equal. exact (failures_app [y] _).
Qed.

Lemma forallb_take (items : list item) (i j : nat) (x : item) :
  forallb (fun x => done x.2) (take i items) = true -> (j < i)%nat -> items !! j = Some x -> done x.2 = true.
Proof.
  intros H Hj Hx. eapply (proj1 (forallb_forall _ _) H). apply list_elem_of_In, list_elem_of_lookup. exists j. by rewrite lookup_take_lt.
Qed.

Lemma in_order_insert (items : list item) (i : nat) (x y : item) :
  in_order items -> items !! i = Some x -> done x.2 = false -> forallb (fun x => done x.2) (take i items) = true ->
  in_order (<[i := y]> items).
Proof.
  intros Ho Hx Hd Ht a b u v Hab Hu Hv Hw.
  destruct (decide (b = i)) as [->|Hb].
  - rewrite list_lookup_insert_ne in Hu by lia. by eapply forallb_take.
  - rewrite list_lookup_insert_ne in Hv by done. destruct (decide (a = i)) as [->|Ha]; [|rewrite list_lookup_insert_ne in Hu by done; by eapply (Ho a b)].
    assert (done x.2 = true) by (by eapply (Ho i b)). congruence.
Qed.

(** Nothing after an unfinished component has begun. *)
Lemma in_order_waiting (items : list item) (i : nat) (x : item) :
  in_order items -> items !! i = Some x -> done x.2 = false -> failures (drop (S i) items) = [].
Proof.
  intros Ho Hx Hd. apply failures_waiting. intros j y Hy. rewrite lookup_drop in Hy. destruct (decide (y.2 = CWaiting)) as [|Hn]; [done|].
  assert (done x.2 = true) by (eapply (Ho i (S i + j)%nat); [lia|done..]). congruence.
Qed.

Lemma item_step_errors (d d' : Drainer) (errors errors' : list (string * drain_error)) (x y : item) (a : option drain_error) :
  item_step d errors x a = Some (d', errors', y) ->
  done x.2 = false /\ errors' = errors ++ failure y /\ failure x = [] /\ y.1 = x.1 /\ config d' = config d /\ isDraining d' = isDraining d
  /\ components d' = components d.
Proof.
  destruct x as [c []]; unfold item_step; intros; repeat case_match; simplify_eq; unfold failure, failures; simpl; rewrite ?app_nil_r; done.
Qed.

Lemma items_ok_step (d d' : Drainer) (items : list item) (errors errors' : list (string * drain_error)) (i : nat) (x y : item) (a : option drain_error) :
  items_ok (Parallel (config d)) items errors -> items !! i = Some x -> may_move d items i = true ->
  item_step d errors x a = Some (d', errors', y) -> items_ok (Parallel (config d)) (<[i := y]> items) errors'.
Proof.
  intros [Hp Hs] Hx Hm Hst. apply item_step_errors in Hst as (Hd & -> & Hfx & _).
  destruct (failures_insert items i x y Hx) as [E1 E2]. rewrite Hfx in E1. simpl in E1. split.
  - rewrite Hp, E1, E2. rewrite <- app_assoc. apply Permutation_app_head. apply Permutation_app_comm.
  - intros Hpar. destruct (Hs Hpar) as [-> Ho]. unfold may_move in Hm. rewrite Hpar in Hm. simpl in Hm. split.
    + rewrite E1, E2, (in_order_waiting items i x) by done. by rewrite !app_nil_r.
    + by eapply in_order_insert.
Qed.

Lemma call_step_config (d d' : Drainer) (p p' : pc) (ch : choice) : call_step d p ch = Some (d', p') -> config d' = config d.
Proof.
  destruct p as [| | | | | | | | | | |[|[|[|[|k]]]]], ch; simpl; intros; repeat case_match; simplify_eq; try done;
    try (match goal with H : item_step _ _ _ _ = Some _ |- _ => by apply item_step_errors in H as (_ & _ & _ & _ & ? & _) end).
  all: unfold Register in *; repeat case_match; by simplify_eq.
Qed.

Lemma call_step_ok (d d' : Drainer) (p p' : pc) (ch : choice) :
  call_ok (Parallel (config d)) p -> call_step d p ch = Some (d', p') -> call_ok (Parallel (config d)) p'.
Proof.
  intros Hok. destruct p as [| | | | | | | | | | |[|[|[|[|k]]]]], ch; simpl; intros; repeat case_match; simplify_eq; try done.
  - simpl. assert (failures ((fun c => (c, CWaiting)) <$> components d) = []) as Hf.
    { apply failures_waiting. intros i x Hx. rewrite list_lookup_fmap in Hx. destruct (components d !! i); by simplify_eq/=. }
    split; [by rewrite Hf|]. intros _. split; [done|]. intros i j x y _ _ Hy. rewrite list_lookup_fmap in Hy. by destruct (components d !! j); simplify_eq/=.
  - simpl in *. split; [done|]. intros i x Hx. eapply (proj1 (forallb_forall _ _) H0). by apply list_elem_of_In, (list_elem_of_lookup_2 _ i).
  - simpl in *. by eapply items_ok_step.
  - simpl in *. destruct Hok as [Hok Hd]. by exists errors.
Qed.

(** ** The invariant of a run *)

Definition flag (b : bool) : Z := if b then 1 else 0.

Definition names (l : list Component) : list string := Name <$> l.

Definition once (p : pc) : Prop :=
  match p with
  | AllLoop items _ | AllDrained items _ | AllTimed items _ | AllReturned items _ => NoDup (names items.*1)
  | _ => True
  end.

Definition sound_drainer (par : bool) (s : system) : Prop :=
  Parallel (config (drainer s)) = par
  /\ sumZ (in_progress <$> calls s) = flag (isDraining (drainer s))
  /\ NoDup (names (components (drainer s)))
  /\ forall k p, calls s !! k = Some p -> call_ok par p /\ once p.

Lemma find_component_None (name : string) (l : list Component) : find_component name l = None -> name ∉ names l.
Proof.
  unfold find_component, names. intros H Hin. apply list_elem_of_fmap in Hin as (c & -> & Hc).
  destruct (list_find (fun x => Name x = Name c) l) as [[i x]|] eqn:E; [done|]. apply list_find_None in E. rewrite Forall_forall in E. by apply (E c).
Qed.

Lemma remove_first_sublist (name : string) (l : list Component) : remove_first name l `sublist_of` l.
Proof. induction l as [|c l IH]; simpl; [done|]. case_match; [by apply sublist_cons|by apply sublist_skip]. Qed.

Lemma call_step_names (d d' : Drainer) (p p' : pc) (ch : choice) :
  call_step d p ch = Some (d', p') -> NoDup (names (components d)) -> NoDup (names (components d')).
Proof.
  destruct p as [| | | | | | | | |name x|name|[|[|[|[|k]]]]], ch; simpl; intros; repeat case_match; simplify_eq; try done.
  - match goal with H : item_step _ _ _ _ = _ |- _ => apply item_step_errors in H as (_ & _ & _ & _ & _ & _ & Hc) end. by rewrite Hc.
  - match goal with H : Register _ _ _ = _ |- _ => unfold Register in H end. repeat case_match; simplify_eq; try done. simpl. unfold names. rewrite fmap_app.
    apply NoDup_app. split; [done|]. split; [|apply NoDup_singleton]. intros m Hn Hn'. apply list_elem_of_singleton in Hn' as ->.
    by eapply find_component_None.
  - simpl. eapply sublist_NoDup; [done|]. apply fmap_sublist, remove_first_sublist.
Qed.

Lemma call_step_once (d d' : Drainer) (p p' : pc) (ch : choice) :
  NoDup (names (components d)) -> once p -> call_step d p ch = Some (d', p') -> once p'.
Proof.
  intros Hn Ho. destruct p as [| | | | | | | | | | |[|[|[|[|k]]]]], ch; simpl; intros; repeat case_match; simplify_eq; try done; simpl.
  - by rewrite <- list_fmap_compose, list_fmap_id.
  - match goal with H : item_step _ _ _ _ = _ |- _ => apply item_step_errors in H as (_ & _ & _ & Hc & _) end.
    rewrite list_fmap_insert, Hc, list_insert_id; [done|]. 
    match goal with H : items !! i = Some _ |- _ => apply (f_equal (fmap fst)) in H; rewrite <- list_lookup_fmap in H; exact H end.
Qed.

Lemma call_step_flag (d d' : Drainer) (p p' : pc) (ch : choice) :
  call_step d p ch = Some (d', p') -> in_progress p <= flag (isDraining d) ->
  flag (isDraining d') - flag (isDraining d) = in_progress p' - in_progress p.
Proof.
  destruct p as [| | | | | | | | | | |[|[|[|[|k]]]]], ch; simpl; intros; repeat case_match; simplify_eq; simpl; try lia.
  - match goal with H : isDraining _ = true |- _ => rewrite H; simpl; lia end.
  - match goal with H : item_step _ _ _ _ = _ |- _ => apply item_step_errors in H as (_ & _ & _ & _ & _ & Hf & _) end. rewrite Hf. lia.
  - destruct (isDraining d); simpl in *; lia.
  - match goal with H : Register _ _ _ = _ |- _ => unfold Register in H end. repeat case_match; simplify_eq; simpl; lia.
Qed.

Lemma in_progress_nonneg (l : list pc) : 0 <= sumZ (in_progress <$> l).
Proof. apply sumZ_nonneg, Forall_fmap, Forall_true. by intros []. Qed.

Lemma in_progress_le (l : list pc) (k : nat) (p : pc) : l !! k = Some p -> in_progress p <= sumZ (in_progress <$> l).
Proof.
  intros Hk. pose proof (sumZ_fmap_insert in_progress l k (Returned None) p Hk) as E. simpl in E.
  pose proof (in_progress_nonneg (<[k := Returned None]> l)). lia.
Qed.

Lemma sound_dstep (par : bool) (s s' : system) (k : nat) (ch : choice) :
  sound_drainer par s -> dstep s k ch = Some s' -> sound_drainer par s'.
Proof.
  intros (Hc & Hp & Hn & Hok) H. unfold dstep in H. destruct (calls s !! k) as [p|] eqn:Ek; [|done].
  destruct (call_step (drainer s) p ch) as [[d p']|] eqn:E; [|done]. injection H as <-. destruct (Hok k p Ek) as [Hok1 Hon1].
  pose proof (in_progress_le _ _ _ Ek) as Hle. rewrite Hp in Hle.
  split; [simpl; rewrite <- Hc; f_equal; by eapply call_step_config|]. split; [|split].
  - simpl. rewrite (sumZ_fmap_insert _ _ _ _ _ Ek). pose proof (call_step_flag _ _ _ _ _ E Hle). lia.
  - simpl. by eapply call_step_names.
  - intros j q Hj. simpl in Hj. apply list_lookup_insert_Some in Hj as [(-> & -> & _)|[_ Hj]]; [|by apply (Hok j)].
    rewrite <- Hc in *. split; [by eapply call_step_ok|by eapply (call_step_once (drainer s))].
Qed.

Lemma sound_start (c : Config) (cs : list pc) : forallb entering cs = true -> sound_drainer (Parallel c) (start c cs).
Proof.
  intros He. assert (forall k p, cs !! k = Some p -> entering p = true) as Hp.
  { intros k p Hk. eapply (proj1 (forallb_forall _ _) He). by apply list_elem_of_In, (list_elem_of_lookup_2 _ k). }
  split; [done|]. split; [|split; [constructor|]].
  - simpl. induction cs as [|p cs IH]; [done|]. rewrite sumZ_fmap_cons. simpl in He. apply andb_true_iff in He as [He1 He2].
    rewrite IH; [|done|by intros k; apply (Hp (S k))]. by destruct p.
  - intros k p Hk. apply Hp in Hk. by destruct p.
Qed.

(** For any calls of the drainer and any interleaving: at most one DrainAll is under
    way; a DrainAll that has returned drained every component it found registered,
    each exactly once; it returns nil exactly if all of them did, and otherwise the
    errors of those that failed, in the order of registration when it drains them one
    by one, where no component begins before the one before it is done. *)
Theorem drain_all_outcome (c : Config) (cs : list pc) (s : system) :
  forallb entering cs = true -> dsteps (start c cs) s ->
  sumZ (in_progress <$> calls s) <= 1
  /\ (forall k items errors, calls s !! k = Some (AllLoop items errors) -> Parallel c = false -> in_order items)
  /\ forall k items r, calls s !! k = Some (AllReturned items r) ->
       NoDup (names items.*1)
       /\ (forall i x, items !! i = Some x -> exists a, x.2 = CDone a)
       /\ exists errors, r = drain_result errors /\ errors ≡ₚ failures items
            /\ (Parallel c = false -> errors = failures items)
            /\ (r = None <-> forall i x, items !! i = Some x -> x.2 = CDone None).
Proof.
  intros He Hs. assert (sound_drainer (Parallel c) s) as (Hc & Hp & Hn & Hok).
  { remember (start c cs) as s0. induction Hs; subst; [by apply sound_start|]. eapply sound_dstep; eauto. }
  split; [destruct (isDraining (drainer s)); simpl in Hp; lia|]. split.
  { intros k items errors Hk Hpar. destruct (Hok k _ Hk) as [[_ Ho] _]. by apply Ho. }
  intros k items r Hk. destruct (Hok k _ Hk) as [(errors & [Hperm Hseq] & Hd & ->) Hon]. split; [exact Hon|].
  assert (forall i x, items !! i = Some x -> exists a, x.2 = CDone a) as Hdone.
  { intros i x Hx. specialize (Hd i x Hx). destruct x as [? []]; simpl in *; naive_solver. }
  split; [done|]. exists errors. split; [done|]. split; [done|]. split; [by intros; apply Hseq|].
  assert (drain_result errors = None <-> failures items = []) as ->.
  { destruct errors as [|e errors]; simpl; split; try done; [|intros Hf; rewrite Hf in Hperm; by apply Permutation_nil_r in Hperm].
    by symmetry in Hperm; apply Permutation_nil_r in Hperm. }
  clear -Hdone. induction items as [|x items IH]; [by split|]. destruct (Hdone 0%nat x eq_refl) as [a Ha].
  assert (failures (x :: items) = match a with Some e => [(Name x.1, e)] | None => [] end ++ failures items) as ->.
  { unfold failures. simpl. rewrite Ha. by destruct a. }
  split.
  - intros Hf. destruct a as [e|]; [done|]. intros [|i] y Hy; simplify_eq/=; [done|]. eapply (proj1 (IH ltac:(intros j; apply (Hdone (S j)))) Hf i). done.
  - intros H. specialize (H 0%nat x eq_refl) as Hx. rewrite Ha in Hx. simplify_eq. simpl. apply IH; [intros j; apply (Hdone (S j))|]. intros i. apply (H (S i)).
Qed.

(** ** The counters *)

(** What the drain of a component has counted. *)
Definition w_drained (p : cpc) : Z := match p with CDone None => 1 | _ => 0 end.

Definition w_failed (p : cpc) : Z := match p with CFailed _ | CNoted _ | CDone (Some _) => 1 | _ => 0 end.

Definition w_timeout (p : cpc) : Z := match p with CNoted e | CDone (Some e) => flag (is_timeout e) | _ => 0 end.

Definition counted (w : cpc -> Z) (p : pc) : Z :=
  match p with
  | AllLoop items _ | AllDrained items _ | AllTimed items _ | AllReturned items _ => sumZ ((fun x : item => w x.2) <$> items)
  | OneLoop _ p => w p
  | OneReturned _ r => w (CDone r)
  | _ => 0
  end.

(** A counter of the drainer together with what it counts. *)
Record counter : Type := mkCounter { total : Drainer -> Z; weight : cpc -> Z }.

Definition counters : list counter :=
  [mkCounter TotalDrained w_drained; mkCounter TotalFailed w_failed; mkCounter TotalTimeouts w_timeout].

Lemma counters_cases (P : counter -> Prop) :
  P (mkCounter TotalDrained w_drained) -> P (mkCounter TotalFailed w_failed) -> P (mkCounter TotalTimeouts w_timeout) ->
  forall n, n ∈ counters -> P n.
Proof.
  intros H1 H2 H3 n Hn. unfold counters in Hn. apply elem_of_cons in Hn as [->|Hn]; [done|]. apply elem_of_cons in Hn as [->|Hn]; [done|].
  by apply list_elem_of_singleton in Hn as ->.
Qed.

(** The counter stays, or goes up by one with what it counts. *)
Definition counts (t t' w w' : Z) : Prop := (t' = t /\ w' = w) \/ (t' = i64 (t + 1) /\ w' = w + 1).

Lemma item_step_counts (n : counter) (d d' : Drainer) (errors errors' : list (string * drain_error)) (x y : item) (a : option drain_error) :
  n ∈ counters -> item_step d errors x a = Some (d', errors', y) ->
  counts (total n d) (total n d') (weight n x.2) (weight n y.2).
Proof.
  intros Hn H. revert n Hn. unfold counts. destruct x as [c p].
  destruct p as [| |e|e|]; simpl in H; [| |destruct (is_timeout e) eqn:Ee| |]; repeat case_match; simplify_eq;
    apply counters_cases; simpl; rewrite ?Ee; simpl; auto.
Qed.

Lemma call_step_counts (n : counter) (d d' : Drainer) (p p' : pc) (ch : choice) :
  n ∈ counters -> (forall k, p <> ResetAt k) -> call_step d p ch = Some (d', p') ->
  (forall k, p' <> ResetAt k) /\ counts (total n d) (total n d') (counted (weight n) p) (counted (weight n) p').
Proof.
  intros Hn Hr H.
  assert (weight n CWaiting = 0) as H0 by (by revert n Hn; apply counters_cases).
  assert (forall f : Drainer -> Drainer, (forall d, TotalDrained (f d) = TotalDrained d /\ TotalFailed (f d) = TotalFailed d /\ TotalTimeouts (f d) = TotalTimeouts d) ->
    total n (f d) = total n d) as Hf.
  { intros f Hf. destruct (Hf d) as (H1 & H2 & H3). clear -Hn H1 H2 H3. by revert n Hn; apply counters_cases. }
  destruct p as [| | | | | |c p| | |name x|name|k], ch; try done.
  - simpl in H. repeat case_match; simplify_eq; (split; [done|]); left; try done. simpl. split; [by apply (Hf (fun d => set_draining d true))|].
    induction (components d) as [|c l IH]; [done|]. rewrite fmap_cons, sumZ_fmap_cons. simpl. rewrite H0. lia.
  - simpl in H. repeat case_match; simplify_eq. split; [done|]. left. split; [by apply (Hf (fun d => set_drained d true))|done].
  - simpl in H. destruct (items !! i) as [x|] eqn:Ex; [|done]. destruct (may_move d items i); [|done].
    destruct (item_step d errors x answer) as [[[d1 e1] y]|] eqn:E; simplify_eq. split; [done|]. simpl.
    apply (item_step_counts n) in E; [|done]. 
    pose proof (sumZ_fmap_insert (fun x : item => weight n x.2) items i y x Ex) as Es.
    destruct E as [[-> E]|[-> E]]; [left|right]; (split; [done|]); (etransitivity; [exact Es|]); simpl in *; lia.
  - simpl in H. simplify_eq. split; [done|]. left. split; [by apply (Hf (fun d => set_time d (Some now)))|done].
  - simpl in H. simplify_eq. split; [done|]. left. split; [by apply (Hf (fun d => set_draining d false))|done].
  - simpl in H. repeat case_match; simplify_eq; (split; [done|]); by left.
  - unfold call_step in H. destruct (item_step d [] (c, p) answer) as [[[d1 e1] [c' y]]|] eqn:E; [|done]. apply (item_step_counts n) in E; [|done].
    destruct y; simplify_eq; (split; [done|]); exact E.
  - simpl in H. destruct (Register d name x) as [d1 r] eqn:E. simplify_eq. split; [done|]. left. split; [|done].
    unfold Register in E. repeat case_match; simplify_eq; try done. by apply (Hf (fun d => set_components d (components d ++ [mkComponent name n0]))).
  - simpl in H. simplify_eq. split; [done|]. left. split; [by apply (Hf (fun d => Unregister d name))|done].
  - by destruct (Hr k).
  - by destruct (Hr k).
Qed.

(** As long as nobody resets them, in every interleaving the counters are, in 64 bits,
    the numbers of drains that succeeded, that failed, and that failed with an expired
    or cancelled context. *)
Theorem drain_counters (c : Config) (cs : list pc) (s : system) (n : counter) :
  forallb entering cs = true -> (forall k, ResetAt k ∉ cs) -> dsteps (start c cs) s -> n ∈ counters ->
  total n (drainer s) = i64 (sumZ (counted (weight n) <$> calls s)).
Proof.
  intros He Hr Hs Hn.
  enough ((forall k, ResetAt k ∉ calls s) /\ total n (drainer s) = i64 (sumZ (counted (weight n) <$> calls s))) by tauto.
  remember (start c cs) as s0. induction Hs as [s|s s1 s2 k ch _ IH Hst]; subst.
  - split; [done|]. simpl. replace (sumZ _) with 0.
    + by revert n Hn; apply counters_cases.
    + clear -He. induction cs as [|p cs IH]; [done|]. simpl in He. apply andb_true_iff in He as [H1 H2]. rewrite sumZ_fmap_cons, <- IH by done. by destruct p.
  - destruct IH as [IHr IH]; [done|]. unfold dstep in Hst. destruct (calls s1 !! k) as [p|] eqn:Ek; [|done].
    destruct (call_step (drainer s1) p ch) as [[d p']|] eqn:E; [|done]. injection Hst as <-. simpl.
    assert (forall j, p <> ResetAt j) as Hp by (intros j Hj; subst p; by apply (IHr j), (list_elem_of_lookup_2 _ k)).
    destruct (call_step_counts n _ _ _ _ _ Hn Hp E) as [Hr' Hc].
    split.
    + intros j Hj. apply list_elem_of_lookup in Hj as [i Hi]. apply list_lookup_insert_Some in Hi as [(_ & Hi & _)|[_ Hi]]; [by apply (Hr' j)|].
      by apply (IHr j), (list_elem_of_lookup_2 _ i).
    + rewrite (sumZ_fmap_insert _ _ _ _ _ Ek). destruct Hc as [[-> ->]|[-> ->]].
      * rewrite IH. f_equal. lia.
      * rewrite IH, i64_absorb. f_equal. lia.
Qed.

(** ** Every drain returns *)

(** The steps left to a DrainAll that is under way. *)
Definition item_steps (p : cpc) : Z :=
  match p with CWaiting => 4 | CDraining => 3 | CFailed _ => 2 | CNoted _ => 1 | CDone _ => 0 end.

Definition all_steps (p : pc) : Z :=
  match p with
  | AllLoop items _ => 3 + sumZ ((fun x : item => item_steps x.2) <$> items)
  | AllDrained _ _ => 2
  | AllTimed _ _ => 1
  | _ => 0
  end.

Lemma item_step_shorter (d d' : Drainer) (errors errors' : list (string * drain_error)) (x y : item) (a : option drain_error) :
  item_step d errors x a = Some (d', errors', y) -> item_steps y.2 < item_steps x.2.
Proof. destruct x as [c []]; simpl; intros; repeat case_match; simplify_eq; simpl; lia. Qed.

(** The first component that is not done can always move. *)
Lemma first_not_done (d : Drainer) (items : list item) :
  forallb (fun x => done x.2) items = false -> exists i x, items !! i = Some x /\ done x.2 = false /\ may_move d items i = true.
Proof.
  intros H. unfold may_move. enough (exists i x, items !! i = Some x /\ done x.2 = false /\ forallb (fun x => done x.2) (take i items) = true) as (i & x & ? & ? & E).
  { exists i, x. rewrite E, orb_true_r. done. }
  induction items as [|x items IH]; [done|]. simpl in H. destruct (done x.2) eqn:E; [|by exists 0%nat, x].
  destruct (IH H) as (i & y & ? & ? & ?). exists (S i), y. split; [done|]. split; [done|]. simpl. by rewrite E.
Qed.

(** A DrainAll that is under way can always make a step, whatever the components
    answer, and every step it makes brings it closer to its end: it returns as soon as
    its components do. *)
Theorem drain_all_returns (d : Drainer) (p : pc) :
  in_progress p = 1 ->
  0 < all_steps p
  /\ (forall a, exists ch d' p', call_step d p ch = Some (d', p') /\ match ch with Item _ b => b = a | Go _ => True end)
  /\ forall ch d' p', call_step d p ch = Some (d', p') -> all_steps p' < all_steps p.
Proof.
  intros Hp. destruct p as [|items errors|items errors|items errors| | | | | | | |]; try done.
  - assert (0 <= sumZ ((fun x : item => item_steps x.2) <$> items)) as Hnn.
    { apply sumZ_nonneg, Forall_fmap, Forall_true. by intros [? []]. }
    split; [simpl; lia|]. split.
    + intros a. destruct (forallb (fun x => done x.2) items) eqn:E; [exists (Go 0); simpl; rewrite E; eauto|].
      destruct (first_not_done d items E) as (i & x & Hx & Hd & Hm). exists (Item i a). simpl. rewrite Hx, Hm.
      destruct x as [c []]; simpl in Hd |- *; try done; destruct a; eauto.
    + intros ch d' p' H. destruct ch as [now|i a]; simpl in H; [repeat case_match; simplify_eq; simpl; lia|].
      destruct (items !! i) as [x|] eqn:Ex; [|done]. destruct (may_move d items i); [|done].
      destruct (item_step d errors x a) as [[[d1 e1] y]|] eqn:E; simplify_eq. apply item_step_shorter in E. simpl.
      pose proof (sumZ_fmap_insert (fun x : item => item_steps x.2) items i y x Ex) as Es. simpl in *. lia.
  - split; [simpl; lia|]. split; [intros a; exists (Go 0); simpl; eauto|]. intros [] ? ? H; simpl in H; simplify_eq; simpl; lia.
  - split; [simpl; lia|]. split; [intros a; exists (Go 0); simpl; eauto|]. intros [] ? ? H; simpl in H; simplify_eq; simpl; lia.
Qed.

(** ** Concrete runs *)

Definition drun (s : option system) (l : list (nat * choice)) : option system :=
  fold_left (fun s x => s ≫= fun s => dstep s x.1 x.2) l s.

Lemma drun_dsteps (s0 s s' : system) (l : list (nat * choice)) : dsteps s0 s -> drun (Some s) l = Some s' -> dsteps s0 s'.
Proof.
  revert s. induction l as [|[k ch] l IH]; intros s Hs H; [by simplify_eq/=|]. unfold drun in H. simpl in H.
  destruct (dstep s k ch) as [s1|] eqn:E; [|exfalso; clear -H; induction l; simpl in H; [done|by apply IHl]].
  eapply IH; [|exact H]. by eapply steps_snoc.
Qed.

(** Two components, of which the first does not end in time; they are drained while
    another DrainAll is refused. *)
Definition two_components : list pc :=
  [RegisterEnter "db" (Some 0%nat); RegisterEnter "http" (Some 1%nat); AllEnter false; AllEnter false].

Definition drain_both : list (nat * choice) :=
  [(0%nat, Go 0); (1%nat, Go 0); (2%nat, Go 0); (3%nat, Go 0);
   (2%nat, Item 0 None); (2%nat, Item 0 (Some DeadlineExceeded)); (2%nat, Item 0 None); (2%nat, Item 0 None);
   (2%nat, Item 1 None); (2%nat, Item 1 None); (2%nat, Go 0); (2%nat, Go 7); (2%nat, Go 0)].

(** IsDrained is documented to say that all components have been drained; it is set
    whatever they answered. *)
Theorem drained_despite_failure :
  exists s, drun (Some (start DefaultConfig two_components)) drain_both = Some s
    /\ calls s !! 2%nat = Some (AllReturned [(mkComponent "db" 0, CDone (Some DeadlineExceeded)); (mkComponent "http" 1, CDone None)]
                                  (Some (ErrDrain [("db", DeadlineExceeded)])))
    /\ calls s !! 3%nat = Some (Returned (Some ErrAlreadyDraining))
    /\ isDrained (drainer s) = true /\ TotalTimeouts (drainer s) = 1.
Proof. eexists. vm_compute. done. Qed.

Lemma drain_all_outcome_witness :
  exists s, dsteps (start DefaultConfig two_components) s /\ sumZ (in_progress <$> calls s) <= 1.
Proof.
  eexists. assert (dsteps (start DefaultConfig two_components) _) as Hr by (eapply (drun_dsteps _ _ _ drain_both); [apply steps_refl|vm_compute; reflexivity]).
  split; [exact Hr|]. exact (proj1 (drain_all_outcome DefaultConfig two_components _ eq_refl Hr)).
Defined.
