(* ===== verification/Hooks.v ===== *)
(** * Hooks (pkg/core/runtime/hooks/hooks.go)

    The registry of hooks and its calls as goroutines that interleave: executing all
    hooks, those of a priority or one of them, sequentially or in parallel with a
    limit, and registration.  A hook is a location of [heap], since executions work
    on hooks that may be unregistered meanwhile; an asynchronous hook runs in a
    goroutine of its own.  The order of a listing is a choice among the sorted ones,
    as the sort is not stable and starts from a map.  What hooks return and whether
    the deadline of the context has passed are arguments; callbacks only observe and
    are left out. *)
From S2P Require Import Prelude.

(** ** Data *)

Inductive hook_error : Type :=
| ErrDeadline                (** the deadline had passed before the call *)
| ErrReturned (e : nat).     (** what the hook returned *)

Record HookInfo : Type := mkHook {
  Name : string;
  Priority : Z;
  Async : bool;
  RegisteredAt : Z;
  ExecutionCount : Z;
  LastExecutionTime : option Z;
  LastError : option hook_error
}.

Record Config : Type := mkConfig {
  DefaultTimeout : Z;
  StopOnError : bool;
  Parallel : bool;
  MaxConcurrency : Z
}.

Definition DefaultConfig : Config := mkConfig 0 false false 0.

Record registry : Type := mkRegistry {
  config : Config;
  heap : list HookInfo;
  hooks : gmap string nat;
  TotalHooks : Z;
  TotalExecutions : Z;
  TotalSuccesses : Z;
  TotalFailures : Z;
  isExecuting : bool
}.

Definition NewRegistry (c : Config) : registry := mkRegistry c [] ∅ 0 0 0 0 false.

Definition set_hooks (r : registry) (h : list HookInfo) (m : gmap string nat) (n : Z) : registry :=
  mkRegistry (config r) h m n (TotalExecutions r) (TotalSuccesses r) (TotalFailures r) (isExecuting r).

Definition set_heap (r : registry) (h : list HookInfo) : registry := set_hooks r h (hooks r) (TotalHooks r).

Definition set_counts (r : registry) (e s f : Z) : registry :=
  mkRegistry (config r) (heap r) (hooks r) (TotalHooks r) e s f (isExecuting r).

Definition set_executing (r : registry) (b : bool) : registry :=
  mkRegistry (config r) (heap r) (hooks r) (TotalHooks r) (TotalExecutions r) (TotalSuccesses r) (TotalFailures r) b.

Inductive registry_error : Type :=
| ErrEmptyName
| ErrNilHook
| ErrHookExists
| ErrHookNotFound
| ErrNilContext
| ErrInProgress
| ErrHook (x : nat) (e : hook_error)
| ErrHooks (l : list (nat * hook_error)).

(** ** Registration *)

(** [hook] is whether the hook is not nil; priority and async are the options. *)
Definition Register (r : registry) (name : string) (hook : bool) (priority : Z) (async : bool) (now : Z)
    : registry * option registry_error :=
  if String.eqb name "" then (r, Some ErrEmptyName)
  else if negb hook then (r, Some ErrNilHook)
  else match hooks r !! name with
       | Some _ => (r, Some ErrHookExists)
       | None =>
           (set_hooks r (heap r ++ [mkHook name priority async now 0 None None]) (<[name := length (heap r)]> (hooks r))
              (i64 (TotalHooks r + 1)), None)
       end.

Definition Unregister (r : registry) (name : string) : registry * option registry_error :=
  if String.eqb name "" then (r, Some ErrHookNotFound)
  else match hooks r !! name with
       | None => (r, Some ErrHookNotFound)
       | Some _ => (set_hooks r (heap r) (delete name (hooks r)) (i64 (TotalHooks r - 1)), None)
       end.

Definition Clear (r : registry) : registry := set_hooks r (heap r) ∅ 0.

(** ** Listing *)

Definition registered (r : registry) : list nat := (map_to_list (hooks r)).*2.

(** [a] may come before [b]. *)
Definition not_after (h : list HookInfo) (a b : nat) : bool :=
  match h !! a, h !! b with
  | Some x, Some y => (Priority x <? Priority y) || ((Priority x =? Priority y) && (RegisteredAt x <=? RegisteredAt y))
  | _, _ => false
  end.

Fixpoint sortedb (h : list HookInfo) (l : list nat) : bool :=
  match l with
  | [] => true
  | a :: l => forallb (not_after h a) l && sortedb h l
  end.

(** [l] is a possible result of [getHooksSorted]. *)
Definition getHooksSorted (r : registry) (l : list nat) : bool :=
  bool_decide (l ≡ₚ registered r) && sortedb (heap r) l.

Definition has_priority (r : registry) (p : Z) (x : nat) : bool :=
  match heap r !! x with Some i => Priority i =? p | None => false end.

(** A possible order of the hooks of a priority. *)
Definition sorted_priority (r : registry) (p : Z) (l : list nat) : bool :=
  bool_decide (l ≡ₚ filter (fun x => has_priority r p x = true) (registered r)) && sortedb (heap r) l.

(** ** One hook *)

(** [executeHook], and the counters its caller updates after it. *)
Inductive hpc : Type :=
| HStart
| HRunning
| HNoting (e : option hook_error)
| HReturned (e : option hook_error)
| HOutcome (e : option hook_error)
| HDone (e : option hook_error).

#[export] Instance hpc_done_dec (p : hpc) : Decision (exists e, p = HDone e).
Proof. destruct p as [| |e|e|e|e]; [right; by intros [? [=]]..|left; by exists e]. Defined.

(** The goroutine of an asynchronous hook. *)
Inductive apc : Type :=
| ARunning
| ANoting (e : option hook_error)
| AExited.

(** What the environment answers: the time left until the deadline of the context, if
    it has one, what the hook returns, and the time. *)
Record answer : Type := mkAnswer { deadline : option Z; returned : option nat; now : Z }.

Definition passed (a : answer) : bool := match deadline a with Some t => t <=? 0 | None => false end.

Definition timeout (c : Config) (a : answer) : Z := match deadline a with Some t => t | None => DefaultTimeout c end.

Definition count_execution (i : HookInfo) : HookInfo :=
  mkHook (Name i) (Priority i) (Async i) (RegisteredAt i) (i64 (ExecutionCount i + 1)) (LastExecutionTime i) (LastError i).

Definition note_execution (t : Z) (e : option hook_error) (i : HookInfo) : HookInfo :=
  mkHook (Name i) (Priority i) (Async i) (RegisteredAt i) (ExecutionCount i) (Some t) e.

Definition is_async (r : registry) (x : nat) : bool := match heap r !! x with Some i => Async i | None => false end.

(** A goroutine of an asynchronous hook that starts, and whether its context is
    cancelled: with a timeout, executeHook cancels the context when it returns, which
    it does at once. *)
Definition spawned : Type := option (nat * bool).

(** A step of the execution of hook [x]. *)
Definition hook_step (r : registry) (x : nat) (p : hpc) (a : answer) : option (registry * hpc * spawned) :=
  match p with
  | HStart =>
      if passed a then Some (r, HReturned (Some ErrDeadline), None)
      else if is_async r x then Some (r, HReturned None, Some (x, 0 <? timeout (config r) a))
      else Some (r, HRunning, None)
  | HRunning => Some (set_heap r (alter count_execution x (heap r)), HNoting (ErrReturned <$> returned a), None)
  | HNoting e => Some (set_heap r (alter (note_execution (now a) e) x (heap r)), HReturned e, None)
  | HReturned e =>
      Some (match e with
            | Some _ => set_counts r (TotalExecutions r) (TotalSuccesses r) (i64 (TotalFailures r + 1))
            | None => set_counts r (TotalExecutions r) (i64 (TotalSuccesses r + 1)) (TotalFailures r)
            end, HOutcome e, None)
  | HOutcome e => Some (set_counts r (i64 (TotalExecutions r + 1)) (TotalSuccesses r) (TotalFailures r), HDone e, None)
  | HDone _ => None
  end.

Definition async_step (r : registry) (x : nat) (p : apc) (a : answer) : option (registry * apc) :=
  match p with
  | ARunning => Some (set_heap r (alter count_execution x (heap r)), ANoting (ErrReturned <$> returned a))
  | ANoting e => Some (set_heap r (alter (note_execution (now a) e) x (heap r)), AExited)
  | AExited => None
  end.

(** ** Calls *)

(** The goroutine of a hook in a parallel execution, waiting for the semaphore, in
    the hook, and at its end. *)
Inductive wpc : Type :=
| WWaiting
| WHook (p : hpc)
| WExited (e : option hook_error).

(** Where the caller of a parallel execution is. *)
Inductive ppc : Type :=
| PWaiting
| PLeaving (r : option registry_error)
| PReturned (r : option registry_error).

(** [held] is whether the call has set isExecuting, that is, is an [Execute]. *)
Inductive pc : Type :=
| ExecuteEnter (nilctx : bool)
| ExecuteSort
| PriorityEnter (nilctx : bool) (p : Z)
| NameEnter (nilctx : bool) (name : string)
| NameLoop (x : nat) (p : hpc)
| Sequential (held : bool) (finished : list (nat * option hook_error)) (current : hpc) (todo : list nat)
| Leaving (finished : list (nat * option hook_error)) (todo : list nat) (r : option registry_error)
| Finished (finished : list (nat * option hook_error)) (todo : list nat) (r : option registry_error)
| ParallelRun (held : bool) (ws : list (nat * wpc)) (errors : list (nat * hook_error)) (p : ppc)
| RegisterEnter (name : string) (hook : bool) (priority : Z) (async : bool)
| UnregisterEnter (name : string)
| ClearEnter
| AsyncHook (x : nat) (cancelled : bool) (p : apc)
| Returned (r : option registry_error).

Inductive choice : Type :=
| Go (a : answer)
| Order (l : list nat)
| Worker (i : nat) (a : answer).

(** The registry, the call, and the hook whose goroutine starts. *)
Definition outcome_of (r : registry) (p : pc) : option (registry * pc * spawned) := Some (r, p, None).

Definition begin (r : registry) (held : bool) (l : list nat) : pc :=
  match l with
  | [] => if held then Leaving [] [] None else Finished [] [] None
  | _ => if Parallel (config r) then ParallelRun held ((fun x => (x, WWaiting)) <$> l) [] PWaiting
         else Sequential held [] HStart l
  end.

(** The end of the sequential loop. *)
Definition leave (held : bool) (finished : list (nat * option hook_error)) (todo : list nat) (e : option registry_error) : pc :=
  if held then Leaving finished todo e else Finished finished todo e.

Definition holding (w : nat * wpc) : bool := match w.2 with WHook _ => true | _ => false end.

Definition slots_used (ws : list (nat * wpc)) : Z := Z.of_nat (length (filter (fun w => holding w = true) ws)).

Definition may_acquire (r : registry) (ws : list (nat * wpc)) : bool :=
  (MaxConcurrency (config r) <=? 0) || (slots_used ws <? MaxConcurrency (config r)).

(** The wait group counts the hooks that are not asynchronous. *)
Definition waited_for (r : registry) (ws : list (nat * wpc)) : bool :=
  forallb (fun w => is_async r w.1 || match w.2 with WExited _ => true | _ => false end) ws.

Definition parallel_result (r : registry) (errors : list (nat * hook_error)) : option registry_error :=
  match errors with
  | [] => None
  | _ => if StopOnError (config r) then Some (ErrHooks errors) else None
  end.

Definition worker_step (r : registry) (ws : list (nat * wpc)) (errors : list (nat * hook_error)) (x : nat) (w : wpc) (a : answer)
    : option (registry * list (nat * hook_error) * wpc * spawned) :=
  match w with
  | WWaiting => if may_acquire r ws then Some (r, errors, WHook HStart, None) else None
  | WHook (HDone e) => Some (r, errors, WExited e, None)
  | WHook p =>
      match hook_step r x p a with
      | Some (r', p', spawn) =>
          let errors' := match p with HReturned (Some e) => errors ++ [(x, e)] | _ => errors end in
          Some (r', errors', WHook p', spawn)
      | None => None
      end
  | WExited _ => None
  end.

Definition call_step (r : registry) (p : pc) (ch : choice) : option (registry * pc * spawned) :=
  match p, ch with
  | ExecuteEnter nilctx, Go _ =>
      if nilctx : bool then outcome_of r (Returned (Some ErrNilContext))
      else if isExecuting r then outcome_of r (Returned (Some ErrInProgress))
      else outcome_of (set_executing r true) ExecuteSort
  | ExecuteSort, Order l => if getHooksSorted r l then outcome_of r (begin r true l) else None
  | PriorityEnter nilctx prio, Order l =>
      if nilctx : bool then outcome_of r (Returned (Some ErrNilContext))
      else if sorted_priority r prio l then outcome_of r (begin r false l) else None
  | NameEnter nilctx name, Go _ =>
      if nilctx : bool then outcome_of r (Returned (Some ErrNilContext))
      else match hooks r !! name with
           | None => outcome_of r (Returned (Some ErrHookNotFound))
           | Some x => outcome_of r (NameLoop x HStart)
           end
  | NameLoop x (HDone e), Go _ => outcome_of r (Returned (ErrHook x <$> e))
  | NameLoop x p, Go a =>
      match hook_step r x p a with
      | Some (r', p', spawn) => Some (r', NameLoop x p', spawn)
      | None => None
      end
  | Sequential held fin (HDone e) (x :: todo), Go _ =>
      let fin' := fin ++ [(x, e)] in
      match e, StopOnError (config r), todo with
      | Some e', true, _ => outcome_of r (leave held fin' todo (Some (ErrHook x e')))
      | _, _, [] => outcome_of r (leave held fin' [] None)
      | _, _, _ => outcome_of r (Sequential held fin' HStart todo)
      end
  | Sequential held fin p (x :: todo), Go a =>
      match hook_step r x p a with
      | Some (r', p', spawn) => Some (r', Sequential held fin p' (x :: todo), spawn)
      | None => None
      end
  | Leaving fin todo e, Go _ => outcome_of (set_executing r false) (Finished fin todo e)
  | ParallelRun held ws errors q, Worker i a =>
      match ws !! i with
      | Some (x, w) =>
          match worker_step r ws errors x w a with
          | Some (r', errors', w', spawn) => Some (r', ParallelRun held (<[i := (x, w')]> ws) errors' q, spawn)
          | None => None
          end
      | None => None
      end
  | ParallelRun held ws errors PWaiting, Go _ =>
      if waited_for r ws
      then outcome_of r (ParallelRun held ws errors (if held : bool then PLeaving (parallel_result r errors) else PReturned (parallel_result r errors)))
      else None
  | ParallelRun true ws errors (PLeaving e), Go _ => outcome_of (set_executing r false) (ParallelRun true ws errors (PReturned e))
  | RegisterEnter name hook prio async, Go a => let '(r', e) := Register r name hook prio async (now a) in outcome_of r' (Returned e)
  | UnregisterEnter name, Go _ => let '(r', e) := Unregister r name in outcome_of r' (Returned e)
  | ClearEnter, Go _ => outcome_of (Clear r) (Returned None)
  | AsyncHook x b p, Go a =>
      match async_step r x p a with
      | Some (r', p') => outcome_of r' (AsyncHook x b p')
      | None => None
      end
  | _, _ => None
  end.

Record system : Type := mkSystem { reg : registry; calls : list pc }.

Definition hstep (s : system) (k : nat) (ch : choice) : option system :=
  match calls s !! k with
  | Some p =>
      match call_step (reg s) p ch with
      | Some (r, p', spawn) =>
          let cs := <[k := p']> (calls s) in
          Some (mkSystem r (match spawn with Some (x, b) => cs ++ [AsyncHook x b ARunning] | None => cs end))
      | None => None
      end
  | None => None
  end.

Inductive hsteps : system -> system -> Prop :=
| hsteps_refl s : hsteps s s
| hsteps_snoc s s1 s2 k ch : hsteps s s1 -> hstep s1 k ch = Some s2 -> hsteps s s2.

Definition entering (p : pc) : bool :=
  match p with
  | ExecuteEnter _ | PriorityEnter _ _ | NameEnter _ _ | RegisterEnter _ _ _ _ | UnregisterEnter _ | ClearEnter => true
  | _ => false
  end.

Definition start (c : Config) (cs : list pc) : system := mkSystem (NewRegistry c) cs.

(** ** What changes of a hook *)

(** The same hook, apart from what its executions note. *)
Definition same_hook (i j : HookInfo) : Prop :=
  Name j = Name i /\ Priority j = Priority i /\ Async j = Async i /\ RegisteredAt j = RegisteredAt i.

Definition heap_le (h h' : list HookInfo) : Prop := forall x i, h !! x = Some i -> exists j, h' !! x = Some j /\ same_hook i j.

Lemma heap_le_refl (h : list HookInfo) : heap_le h h.
Proof. intros x i Hx. by exists i. Qed.

Lemma heap_le_alter (f : HookInfo -> HookInfo) (x : nat) (h : list HookInfo) : (forall i, same_hook i (f i)) -> heap_le h (alter f x h).
Proof.
  intros Hf y i Hy. destruct (decide (x = y)) as [->|Hne].
  - exists (f i). split; [|apply Hf]. by rewrite list_lookup_alter_eq, Hy.
  - exists i. split; [by rewrite list_lookup_alter_ne|done].
Qed.

Lemma heap_le_app (h k : list HookInfo) : heap_le h (h ++ k).
Proof. intros x i Hx. exists i. split; [by apply lookup_app_l_Some|done]. Qed.

#[local] Hint Resolve heap_le_refl heap_le_app : core.

Lemma not_after_le (h h' : list HookInfo) (a b : nat) : heap_le h h' -> not_after h a b = true -> not_after h' a b = true.
Proof.
  intros Hle. unfold not_after. destruct (h !! a) as [i|] eqn:Ea; [|done]. destruct (h !! b) as [j|] eqn:Eb; [|done].
  destruct (Hle _ _ Ea) as (i' & -> & _ & -> & _ & ->). destruct (Hle _ _ Eb) as (j' & -> & _ & -> & _ & ->). done.
Qed.

Lemma sortedb_le (h h' : list HookInfo) (l : list nat) : heap_le h h' -> sortedb h l = true -> sortedb h' l = true.
Proof.
  intros Hle. induction l as [|a l IH]; simpl; [done|]. rewrite !andb_true_iff. intros [H1 H2]. split; [|by apply IH].
  rewrite forallb_forall in *. intros b Hb. by eapply not_after_le, H1.
Qed.

(** The hooks registered are in the heap, under their names. *)
Definition registry_ok (r : registry) : Prop :=
  forall name x, hooks r !! name = Some x -> exists i, heap r !! x = Some i /\ Name i = name.

Lemma hooks_NoDup (r : registry) : registry_ok r -> NoDup (registered r).
Proof.
  intros Hok. unfold registered. assert (forall p, p ∈ map_to_list (hooks r) -> hooks r !! p.1 = Some p.2) as Hin.
  { intros [n x] Hp. by apply elem_of_map_to_list in Hp. }
  pose proof (NoDup_map_to_list (hooks r)) as Hnd. induction (map_to_list (hooks r)) as [|[n x] l IH]; [constructor|].
  apply NoDup_cons in Hnd as [Hni Hnd]. rewrite fmap_cons. constructor.
  - intros Hx. apply list_elem_of_fmap in Hx as ([m y] & Hy & Hm). simpl in Hy. subst y.
    pose proof (Hin (n, x) (list_elem_of_here _ _)) as H1. pose proof (Hin (m, x) (list_elem_of_further _ _ _ Hm)) as H2. simpl in H1, H2.
    destruct (Hok _ _ H1) as (i & Hi & <-). destruct (Hok _ _ H2) as (j & Hj & <-). simplify_eq. done.
  - apply IH; [|done]. intros p Hp. apply Hin. by apply list_elem_of_further.
Qed.

Lemma registered_heap (r : registry) (x : nat) : registry_ok r -> x ∈ registered r -> is_Some (heap r !! x).
Proof.
  intros Hok Hx. unfold registered in Hx. apply list_elem_of_fmap in Hx as ([n y] & -> & Hp). apply elem_of_map_to_list in Hp.
  destruct (Hok _ _ Hp) as (i & Hi & _). by exists i.
Qed.

Lemma hook_step_frame (r r' : registry) (x : nat) (p p' : hpc) (a : answer) (sp : spawned) :
  hook_step r x p a = Some (r', p', sp) ->
  config r' = config r /\ hooks r' = hooks r /\ heap_le (heap r) (heap r') /\ isExecuting r' = isExecuting r
  /\ match sp with Some (y, b) => 0 < DefaultTimeout (config r) -> b = true | None => True end.
Proof.
  destruct p; simpl; intros; repeat case_match; simplify_eq; simpl; split_and!; try done;
    try (apply heap_le_alter; by intros []).
  unfold timeout, passed in *. intros ?. apply Z.ltb_lt. destruct (deadline a); [by apply Z.leb_gt|done].
Qed.

Lemma async_step_frame (r r' : registry) (x : nat) (p p' : apc) (a : answer) :
  async_step r x p a = Some (r', p') ->
  config r' = config r /\ hooks r' = hooks r /\ heap_le (heap r) (heap r') /\ isExecuting r' = isExecuting r.
Proof. destruct p; simpl; intros; simplify_eq; simpl; split_and!; try done; apply heap_le_alter; by intros []. Qed.

(** ** The invariant *)

Definition flag (b : bool) : Z := if b then 1 else 0.

Definition in_progress (p : pc) : Z :=
  match p with
  | ExecuteSort | Sequential true _ _ _ | Leaving _ _ _ => 1
  | ParallelRun true _ _ (PWaiting | PLeaving _) => 1
  | _ => 0
  end.

(** Hooks in the order of a listing, each of them once. *)
Definition ordered (h : list HookInfo) (l : list nat) : Prop := sortedb h l = true /\ NoDup l.

Definition none_failed (fin : list (nat * option hook_error)) : Prop := Forall (fun f => f.2 = None) fin.

(** The result of a sequential execution: nil after all hooks, or the first error. *)
Definition sequential_result (c : Config) (fin : list (nat * option hook_error)) (todo : list nat) (e : option registry_error) : Prop :=
  match e with
  | None => todo = [] /\ (StopOnError c = true -> none_failed fin)
  | Some err => StopOnError c = true
      /\ exists fin0 x e', fin = fin0 ++ [(x, Some e')] /\ none_failed fin0 /\ err = ErrHook x e'
  end.

(** The error a worker has put on the list. *)
Definition worker_error (w : wpc) : option hook_error :=
  match w with WHook (HOutcome e) | WHook (HDone e) | WExited e => e | _ => None end.

Definition failures (ws : list (nat * wpc)) : list (nat * hook_error) :=
  omap (fun w => (fun e => (w.1, e)) <$> worker_error w.2) ws.

Definition async_in (h : list HookInfo) (x : nat) : bool := match h !! x with Some i => Async i | None => false end.

Definition exited (w : wpc) : bool := match w with WExited _ => true | _ => false end.

(** The result of a parallel execution: when it returns, all hooks that are not
    asynchronous have ended, and [l] are the errors so far, all of theirs included. *)
Definition parallel_left (c : Config) (h : list HookInfo) (ws : list (nat * wpc)) (errors : list (nat * hook_error))
    (e : option registry_error) : Prop :=
  (forall i x w, ws !! i = Some (x, w) -> async_in h x = false -> exited w = true)
  /\ exists l, l `prefix_of` errors
       /\ e = (if StopOnError c then match l with [] => None | _ => Some (ErrHooks l) end else None)
       /\ forall i x e', ws !! i = Some (x, WExited (Some e')) -> async_in h x = false -> (x, e') ∈ l.

Definition parallel_ok (c : Config) (h : list HookInfo) (ws : list (nat * wpc)) (errors : list (nat * hook_error)) (q : ppc) : Prop :=
  match q with PWaiting => True | PLeaving e | PReturned e => parallel_left c h ws errors e end.

Definition pc_ok (c : Config) (h : list HookInfo) (p : pc) : Prop :=
  match p with
  | Sequential _ fin _ todo => todo <> [] /\ ordered h (fin.*1 ++ todo) /\ (StopOnError c = true -> none_failed fin)
  | Leaving fin todo e | Finished fin todo e => ordered h (fin.*1 ++ todo) /\ sequential_result c fin todo e
  | ParallelRun _ ws errors q =>
      (0 < MaxConcurrency c -> slots_used ws <= MaxConcurrency c)
      /\ (forall i x w, ws !! i = Some (x, w) -> is_Some (h !! x)) /\ NoDup ws.*1
      /\ errors ≡ₚ failures ws /\ parallel_ok c h ws errors q
  | AsyncHook _ b _ => 0 < DefaultTimeout c -> b = true
  | _ => True
  end.

Lemma async_in_le (h h' : list HookInfo) (x : nat) : heap_le h h' -> is_Some (h !! x) -> async_in h' x = async_in h x.
Proof. intros Hle [i Hi]. destruct (Hle _ _ Hi) as (j & Hj & _ & _ & Ha & _). unfold async_in. by rewrite Hi, Hj. Qed.

Lemma pc_ok_le (c : Config) (h h' : list HookInfo) (p : pc) : heap_le h h' -> pc_ok c h p -> pc_ok c h' p.
Proof.
  intros Hle. assert (forall l, ordered h l -> ordered h' l) as Ho by (intros l [? ?]; split; [by eapply sortedb_le|done]).
  destruct p as [| | | | |held fin cur todo|fin todo e|fin todo e|held ws errors q| | | | |]; simpl; try done.
  - intros (? & ? & ?); auto.
  - intros [? ?]; auto.
  - intros [? ?]; auto.
  - intros (Hm & Hx & Hn & He & Hq). split; [done|]. split.
    { intros i x w Hi. destruct (Hx i x w Hi) as [j Hj]. destruct (Hle _ _ Hj) as (j' & Hj' & _). by exists j'. }
    split; [done|]. split; [done|]. enough (forall e, parallel_left c h ws errors e -> parallel_left c h' ws errors e) by (destruct q; simpl in *; auto).
    intros e [H1 (l & H2 & H3 & H4)]. split; [intros i x w Hi; rewrite (async_in_le h) by eauto; by eapply H1|].
    exists l. split; [done|]. split; [done|]. intros i x e' Hi. rewrite (async_in_le h) by eauto. by eapply H4.
Qed.

(** ** Where an execution begins *)

Lemma begin_ok (r : registry) (held : bool) (l : list nat) :
  sortedb (heap r) l = true -> NoDup l -> (forall x, x ∈ l -> is_Some (heap r !! x)) -> pc_ok (config r) (heap r) (begin r held l).
Proof.
  intros Hs Hn Hx. unfold begin. destruct l as [|x l].
  { destruct held; simpl; (split; [split; [done|constructor]|]); (split; [done|]); intros _; constructor. }
  set (m := x :: l) in *. assert (m <> []) as Hne by done. clearbody m. destruct (Parallel (config r)).
  - simpl. split; [|split; [|split; [|split; [|done]]]].
    + intros Hm. enough (slots_used ((fun x => (x, WWaiting)) <$> m) = 0) by lia. unfold slots_used. clear.
      induction m as [|y m IH]; [done|]. rewrite fmap_cons, filter_cons_False by done. exact IH.
    + intros i y w Hi. rewrite list_lookup_fmap in Hi. destruct (m !! i) eqn:E; simplify_eq/=. apply Hx. by apply (list_elem_of_lookup_2 _ i).
    + rewrite <- list_fmap_compose. simpl. by rewrite list_fmap_id.
    + enough (failures ((fun x => (x, WWaiting)) <$> m) = []) as -> by done. clear. by induction m.
  - simpl. split; [done|]. split; [done|]. intros _. constructor.
Qed.

(** ** Workers *)

Lemma worker_failures_app (l k : list (nat * wpc)) : failures (l ++ k) = failures l ++ failures k.
Proof. apply omap_app. Qed.

Lemma worker_failures_cons (w : nat * wpc) (l : list (nat * wpc)) : failures (w :: l) = failures [w] ++ failures l.
Proof. exact (worker_failures_app [w] l). Qed.

Lemma worker_failures_insert (ws : list (nat * wpc)) (i : nat) (v w : nat * wpc) :
  ws !! i = Some v ->
  failures ws ≡ₚ failures [v] ++ failures (take i ws ++ drop (S i) ws)
  /\ failures (<[i := w]> ws) ≡ₚ failures [w] ++ failures (take i ws ++ drop (S i) ws).
Proof.
  intros Hv. split.
  - rewrite <- (take_drop_middle ws i v) at 1 by done. rewrite (worker_failures_app _ (v :: _)), (worker_failures_cons v (drop (S i) ws)), !worker_failures_app. rewrite !app_assoc.
    apply Permutation_app_tail, Permutation_app_comm.
  - rewrite insert_take_drop by (by apply lookup_lt_Some in Hv). rewrite (worker_failures_app _ (w :: _)), (worker_failures_cons w (drop (S i) ws)), !worker_failures_app. rewrite !app_assoc.
    apply Permutation_app_tail, Permutation_app_comm.
Qed.

Lemma slots_used_sum (ws : list (nat * wpc)) : slots_used ws = sumZ ((fun w => flag (holding w)) <$> ws).
Proof.
  unfold slots_used. induction ws as [|w ws IH]; [done|]. rewrite sumZ_fmap_cons. destruct (holding w) eqn:E.
  - rewrite filter_cons_True by done. cbn [length flag]. lia.
  - rewrite filter_cons_False by (by rewrite E). cbn [flag]. lia.
Qed.

Lemma slots_used_insert (ws : list (nat * wpc)) (i : nat) (v w : nat * wpc) :
  ws !! i = Some v -> slots_used (<[i := w]> ws) = slots_used ws - flag (holding v) + flag (holding w).
Proof. intros Hv. rewrite !slots_used_sum. by apply (sumZ_fmap_insert (fun w => flag (holding w))). Qed.

Lemma worker_step_hook (r r' : registry) (ws : list (nat * wpc)) (errors errors' : list (nat * hook_error)) (x : nat) (p : hpc) (w' : wpc)
    (a : answer) (sp : spawned) :
  worker_step r ws errors x (WHook p) a = Some (r', errors', w', sp) ->
  (exists e, p = HDone e /\ w' = WExited e /\ r' = r /\ errors' = errors /\ sp = None)
  \/ exists p', (worker_error (WHook p') = match p with HReturned e => e | _ => worker_error (WHook p) end /\ forall e, p <> HDone e)
       /\ w' = WHook p' /\ hook_step r x p a = Some (r', p', sp)
       /\ errors' = errors ++ match p with HReturned (Some e) => [(x, e)] | _ => [] end.
Proof.
  intros H. destruct (decide (exists e, p = HDone e)) as [[e ->]|Hn]; [left; exists e; simpl in H; by simplify_eq|right].
  assert (worker_step r ws errors x (WHook p) a = match hook_step r x p a with
    | Some (r', p', spawn) => Some (r', errors ++ match p with HReturned (Some e) => [(x, e)] | _ => [] end, WHook p', spawn)
    | None => None end) as E by (destruct p as [| |e|[e|]|e|e]; simpl; rewrite ?app_nil_r; try done; destruct Hn; eauto).
  rewrite E in H. destruct (hook_step r x p a) as [[[r1 p1] sp1]|] eqn:Est; [|done]. injection H as -> <- <- ->. exists p1.
  split; [|done]. split; [|intros e ->; eauto]. destruct p; simpl in Est; repeat case_match; by simplify_eq.
Qed.

Lemma worker_step_ok (r r' : registry) (ws : list (nat * wpc)) (errors errors' : list (nat * hook_error)) (x : nat) (w w' : wpc)
    (a : answer) (sp : spawned) :
  worker_step r ws errors x w a = Some (r', errors', w', sp) ->
  config r' = config r /\ hooks r' = hooks r /\ heap_le (heap r) (heap r') /\ isExecuting r' = isExecuting r
  /\ match sp with Some (y, b) => 0 < DefaultTimeout (config r) -> b = true | None => True end
  /\ errors' ++ failures [(x, w)] ≡ₚ errors ++ failures [(x, w')] /\ errors `prefix_of` errors' /\ exited w = false
  /\ (holding (x, w') = true -> holding (x, w) = true \/ may_acquire r ws = true).
Proof.
  intros H. destruct w as [|p|e]; [| |done].
  - simpl in H. destruct (may_acquire r ws) eqn:Em; simplify_eq. simpl. split_and!; auto.
  - destruct (worker_step_hook _ _ _ _ _ _ _ _ _ _ H) as [(e & -> & -> & -> & -> & ->)|(p' & Hp & -> & Hst & He)].
    { simpl. split_and!; auto. }
    apply hook_step_frame in Hst as (H1 & H2 & H3 & H4 & H5). split_and!; try done; [|by rewrite He; apply prefix_app_r|by left].
    rewrite He. by destruct p as [| |e|[e|]|[e|]|e]; destruct Hp as [Hp1 Hp2]; unfold failures; simpl in *; rewrite ?Hp1; simpl; rewrite ?app_nil_r.
Qed.

Lemma parallel_step_ok (r r' : registry) (held : bool) (ws : list (nat * wpc)) (errors errors' : list (nat * hook_error)) (q : ppc)
    (i x : nat) (w w' : wpc) (a : answer) (sp : spawned) :
  pc_ok (config r) (heap r) (ParallelRun held ws errors q) -> ws !! i = Some (x, w) ->
  worker_step r ws errors x w a = Some (r', errors', w', sp) ->
  pc_ok (config r) (heap r') (ParallelRun held (<[i := (x, w')]> ws) errors' q).
Proof.
  intros (Hm & Hx & Hn & He & Hq) Hi Hst. apply worker_step_ok in Hst as (_ & _ & Hle & _ & _ & Hf & Hpre & Hex & Hacq).
  apply (pc_ok_le _ (heap r)); [done|]. simpl. split; [|split; [|split; [|split]]].
  - intros Hmc. specialize (Hm Hmc). rewrite (slots_used_insert ws i (x, w) (x, w') Hi).
    destruct (holding (x, w')) eqn:E; simpl; [|destruct (holding (x, w)); simpl; lia].
    destruct (Hacq eq_refl) as [->|Ha]; [simpl; lia|]. unfold may_acquire in Ha. apply orb_true_iff in Ha as [Ha|Ha].
    + apply Z.leb_le in Ha. lia.
    + apply Z.ltb_lt in Ha. destruct (holding (x, w)); simpl; lia.
  - intros j y v Hj. apply list_lookup_insert_Some in Hj as [(-> & [= <- <-] & _)|[_ Hj]]; eauto.
  - rewrite list_fmap_insert, list_insert_id; [done|]. by rewrite list_lookup_fmap, Hi.
  - destruct (worker_failures_insert ws i (x, w) (x, w') Hi) as [E1 E2]. rewrite E2. rewrite He, E1 in Hf.
    apply (Permutation_app_inv_r (failures [(x, w)])). rewrite Hf.
    rewrite (Permutation_app_comm _ (failures [(x, w')])), (Permutation_app_comm (failures [(x, w)])). by rewrite app_assoc.
  - enough (forall e, parallel_left (config r) (heap r) ws errors e -> parallel_left (config r) (heap r) (<[i := (x, w')]> ws) errors' e)
      by (destruct q; simpl in *; auto).
    intros e [H1 (l & H2 & H3 & H4)]. assert (async_in (heap r) x = false -> False) as Hc by (intros Ha; specialize (H1 _ _ _ Hi Ha); congruence).
    split; [intros j y v Hj Ha; apply list_lookup_insert_Some in Hj as [(-> & ? & _)|[_ Hj]]; [simplify_eq; by destruct Hc|by eapply H1]|].
    exists l. split; [by etransitivity|]. split; [done|]. intros j y e' Hj Ha.
    apply list_lookup_insert_Some in Hj as [(-> & ? & _)|[_ Hj]]; [simplify_eq; by destruct Hc|by eapply H4].
Qed.

(** The end of a parallel execution. *)
Lemma parallel_leave_ok (r : registry) (ws : list (nat * wpc)) (errors : list (nat * hook_error)) :
  errors ≡ₚ failures ws -> waited_for r ws = true ->
  parallel_ok (config r) (heap r) ws errors (PLeaving (parallel_result r errors)).
Proof.
  intros He Hw. simpl. split.
  - intros i x w Hi Ha. assert ((x, w) ∈ ws) as Hin by (by apply (list_elem_of_lookup_2 _ i)).
    pose proof (proj1 (forallb_forall _ _) Hw (x, w) (proj1 (list_elem_of_In _ _) Hin)) as H. unfold is_async in H. unfold async_in in Ha. simpl in H.
    rewrite Ha in H. by destruct w.
  - exists errors. split; [done|]. split; [unfold parallel_result; by destruct errors, (StopOnError (config r))|].
    intros i x e' Hi _. rewrite He. unfold failures. apply list_elem_of_omap. exists (x, WExited (Some e')). split; [|done].
    by apply (list_elem_of_lookup_2 _ i).
Qed.

(** ** The sequential loop *)

Lemma leave_ok (c : Config) (h : list HookInfo) (held : bool) (fin : list (nat * option hook_error)) (todo : list nat) (e : option registry_error) :
  ordered h (fin.*1 ++ todo) -> sequential_result c fin todo e -> pc_ok c h (leave held fin todo e).
Proof. unfold leave. by destruct held. Qed.

Lemma sequential_done_ok (r r' : registry) (held : bool) (fin : list (nat * option hook_error)) (e : option hook_error) (x : nat) (todo : list nat)
    (a : answer) (p' : pc) (sp : spawned) :
  pc_ok (config r) (heap r) (Sequential held fin (HDone e) (x :: todo)) ->
  call_step r (Sequential held fin (HDone e) (x :: todo)) (Go a) = Some (r', p', sp) -> r' = r /\ sp = None /\ pc_ok (config r) (heap r) p'.
Proof.
  intros (_ & Ho & Hf) H. assert (ordered (heap r) ((fin ++ [(x, e)]).*1 ++ todo)) as Ho' by (by rewrite fmap_app, <- app_assoc).
  assert (StopOnError (config r) = true -> e = None -> none_failed (fin ++ [(x, e)])) as Hn.
  { intros Hs ->. apply Forall_app. split; [by apply Hf|]. by apply Forall_singleton. }
  assert (forall e', e = Some e' -> StopOnError (config r) = true -> sequential_result (config r) (fin ++ [(x, e)]) todo (Some (ErrHook x e'))) as Hstop.
  { intros e' -> Hs. split; [done|]. exists fin, x, e'. split; [done|]. split; [by apply Hf|done]. }
  assert ((StopOnError (config r) = true -> e = None) -> StopOnError (config r) = true -> none_failed (fin ++ [(x, e)])) as Hgo by auto.
  simpl in H. unfold outcome_of in H. destruct e as [e|].
  - destruct (StopOnError (config r)) eqn:Es.
    + injection H as <- <- <-. split; [done|]. split; [done|]. apply leave_ok; auto.
    + destruct todo as [|y todo]; injection H as <- <- <-; (split; [done|]); (split; [done|]); [apply leave_ok; [done|]; split; [done|congruence]|].
      split; [done|]. split; [done|congruence].
  - destruct todo as [|y todo]; injection H as <- <- <-; (split; [done|]); (split; [done|]); [apply leave_ok; [done|]; split; [done|auto]|].
    split; [done|]. split; [done|auto].
Qed.

(** ** A step of a call *)

Definition spawn_ok (c : Config) (sp : spawned) : Prop :=
  match sp with Some (y, b) => 0 < DefaultTimeout c -> b = true | None => True end.

Definition step_ok (r r' : registry) (p' : pc) (sp : spawned) : Prop :=
  config r' = config r /\ registry_ok r' /\ heap_le (heap r) (heap r') /\ pc_ok (config r) (heap r') p' /\ spawn_ok (config r) sp.

Lemma registry_ok_le (r r' : registry) : registry_ok r -> hooks r' = hooks r -> heap_le (heap r) (heap r') -> registry_ok r'.
Proof.
  intros Hok Eh Hle name x Hx. rewrite Eh in Hx. destruct (Hok _ _ Hx) as (i & Hi & <-).
  destruct (Hle _ _ Hi) as (j & Hj & Hn & _). eauto.
Qed.

(** Steps that leave hooks and heap alone. *)
Lemma quiet_step (r r' : registry) (p' : pc) :
  registry_ok r -> config r' = config r -> hooks r' = hooks r -> heap r' = heap r -> pc_ok (config r) (heap r) p' -> step_ok r r' p' None.
Proof.
  intros Hok Ec Eh Eq Hp. unfold step_ok. rewrite Ec, Eq. split; [done|]. split; [|split; [apply heap_le_refl|split; done]].
  eapply registry_ok_le; [done|done|]. rewrite Eq. apply heap_le_refl.
Qed.

(** A step of a hook inside a call whose invariant does not depend on where it is. *)
Lemma hook_call_step (r r' : registry) (x : nat) (q q' : hpc) (a : answer) (sp : spawned) (p' : pc) :
  registry_ok r -> hook_step r x q a = Some (r', q', sp) -> pc_ok (config r) (heap r) p' -> step_ok r r' p' sp.
Proof.
  intros Hok H Hp. apply hook_step_frame in H as (Ec & Eh & Hle & _ & Hsp). split; [exact Ec|]. split; [by eapply registry_ok_le|]. split; [exact Hle|]. split; [by eapply pc_ok_le|exact Hsp].
Qed.

Lemma sorted_begin (r : registry) (held : bool) (l k : list nat) :
  registry_ok r -> l ≡ₚ k -> NoDup k -> (forall x, x ∈ k -> x ∈ registered r) -> sortedb (heap r) l = true ->
  pc_ok (config r) (heap r) (begin r held l).
Proof.
  intros Hok Hp Hn Hk Hs. apply begin_ok; [done|by rewrite Hp|]. intros x Hx. apply registered_heap; [done|]. apply Hk. by rewrite <- Hp.
Qed.

Lemma register_ok (r r' : registry) (name : string) (hook : bool) (prio : Z) (async : bool) (t : Z) (e : option registry_error) :
  registry_ok r -> Register r name hook prio async t = (r', e) ->
  registry_ok r' /\ config r' = config r /\ heap_le (heap r) (heap r') /\ isExecuting r' = isExecuting r.
Proof.
  intros Hok H. unfold Register in H. repeat case_match; simplify_eq; try (split_and!; [done|done|apply heap_le_refl|done]).
  split_and!; [|done|apply heap_le_app|done]. intros n x Hx. simpl in *. apply lookup_insert_Some in Hx as [[<- <-]|[_ Hx]].
  - eexists. split; [by apply list_lookup_middle|done].
  - destruct (Hok _ _ Hx) as (i & Hi & <-). exists i. split; [by apply lookup_app_l_Some|done].
Qed.

Lemma unregister_ok (r r' : registry) (name : string) (e : option registry_error) :
  registry_ok r -> Unregister r name = (r', e) ->
  registry_ok r' /\ config r' = config r /\ heap r' = heap r /\ isExecuting r' = isExecuting r.
Proof.
  intros Hok H. unfold Unregister in H. repeat case_match; simplify_eq; try done. split_and!; try done.
  intros m x Hx. simpl in *. apply lookup_delete_Some in Hx as [_ Hx]. by apply Hok.
Qed.

Lemma call_step_sound (r r' : registry) (p p' : pc) (ch : choice) (sp : spawned) :
  registry_ok r -> pc_ok (config r) (heap r) p -> call_step r p ch = Some (r', p', sp) -> step_ok r r' p' sp.
Proof.
  intros Hok Hp H. destruct p as [nilctx| |nilctx prio|nilctx name|x q|held fin q todo|fin todo e|fin todo e|held ws errors q|name hook prio async|name| |x b q|e], ch as [a|l|i a];
    try done; try (by destruct q); try (by destruct q, held); try (by destruct q, todo); unfold call_step, outcome_of in H.
  - repeat case_match; simplify_eq; by apply quiet_step.
  - destruct (getHooksSorted r l) eqn:E; simplify_eq. apply andb_true_iff in E as [E1 E2]. apply bool_decide_eq_true in E1.
    apply quiet_step; try done. eapply sorted_begin; eauto using hooks_NoDup.
  - destruct nilctx; [simplify_eq; by apply quiet_step|]. destruct (sorted_priority r prio l) eqn:E; simplify_eq.
    apply andb_true_iff in E as [E1 E2]. apply bool_decide_eq_true in E1. apply quiet_step; try done.
    eapply sorted_begin; [done|exact E1|by apply NoDup_filter, hooks_NoDup| |done]. intros x Hx. by apply list_elem_of_filter in Hx as [_ ?].
  - repeat case_match; simplify_eq; by apply quiet_step.
  - destruct (decide (exists e, q = HDone e)) as [[e ->]|Hn]; [simplify_eq; by apply quiet_step|].
    assert (exists q', hook_step r x q a = Some (r', q', sp) /\ p' = NameLoop x q') as (q' & Hq & ->).
    { destruct q; try (by destruct Hn; eauto); destruct (hook_step r x _ a) as [[[r1 q1] sp1]|]; simplify_eq; eauto. }
    by eapply hook_call_step.
  - destruct todo as [|x todo]; [by destruct q|].
    destruct (decide (exists e, q = HDone e)) as [[e ->]|Hn].
    { apply (sequential_done_ok r r' held fin e x todo a p' sp) in Hp as (-> & -> & Hp'); [by apply quiet_step|exact H]. }
    assert (exists q', hook_step r x q a = Some (r', q', sp) /\ p' = Sequential held fin q' (x :: todo)) as (q' & Hq & ->).
    { destruct q; try (by destruct Hn; eauto); destruct (hook_step r x _ a) as [[[r1 q1] sp1]|]; simplify_eq; eauto. }
    eapply hook_call_step; [done|exact Hq|exact Hp].
  - simplify_eq. by apply quiet_step.
  - destruct q as [|e|e]; [|destruct held; [simplify_eq|done]|by destruct held].
    + destruct (waited_for r ws) eqn:E; [|by destruct held]. assert (r' = r /\ sp = None /\ p' = ParallelRun held ws errors (if held then PLeaving (parallel_result r errors) else PReturned (parallel_result r errors))) as (-> & -> & ->)
        by (destruct held; by injection H as <- <- <-). apply quiet_step; try done. destruct Hp as (H1 & H2 & H3 & H4 & _).
      pose proof (parallel_leave_ok r ws errors H4 E) as Hl. destruct held; split_and!; done.
    + by apply quiet_step.
  - destruct (ws !! i) as [[x w]|] eqn:Ei; [|by destruct q, held]. destruct (worker_step r ws errors x w a) as [[[[r1 e1] w1] sp1]|] eqn:E; [|by destruct q, held].
    assert (Some (r1, ParallelRun held (<[i := (x, w1)]> ws) e1 q, sp1) = Some (r', p', sp)) as Hs by (by destruct q, held). injection Hs as -> <- ->.
    pose proof (parallel_step_ok _ _ _ _ _ _ _ _ _ _ _ _ _ Hp Ei E) as Hp'. apply worker_step_ok in E as (Ec & Eh & Hle & _ & Hsp & _).
    split; [exact Ec|]. split; [by eapply registry_ok_le|]. split; [exact Hle|]. split; [exact Hp'|exact Hsp].
  - destruct (Register r name hook prio async (now a)) as [r1 e1] eqn:E. simplify_eq. apply register_ok in E as (? & ? & ? & _); [|done]. by split_and!.
  - destruct (Unregister r name) as [r1 e1] eqn:E. simplify_eq. apply unregister_ok in E as (? & ? & Eh & _); [|done].
    split_and!; try done. rewrite Eh. apply heap_le_refl.
  - simplify_eq. split_and!; try done.
  - destruct (async_step r x q a) as [[r1 q1]|] eqn:E; simplify_eq. apply async_step_frame in E as (Ec & Eh & Hle & _).
    split; [exact Ec|]. split; [by eapply registry_ok_le|]. split; [exact Hle|]. split; [exact Hp|done].
Qed.

(** ** One execution at a time, and the counters *)

(** Executions whose outcome is counted and that are not yet counted as executions. *)
Definition half (p : hpc) : Z := match p with HOutcome _ => 1 | _ => 0 end.

Definition half_worker (w : nat * wpc) : Z := match w.2 with WHook p => half p | _ => 0 end.

Definition half_counted (p : pc) : Z :=
  match p with
  | NameLoop _ q | Sequential _ _ q _ => half q
  | ParallelRun _ ws _ _ => sumZ (half_worker <$> ws)
  | _ => 0
  end.

(** How a step changes the counters: not at all, an outcome is counted, or an
    execution whose outcome was counted is. *)
Definition tally (r r' : registry) (d : Z) : Prop :=
  (TotalExecutions r' = TotalExecutions r /\ TotalSuccesses r' = TotalSuccesses r /\ TotalFailures r' = TotalFailures r /\ d = 0)
  \/ (TotalExecutions r' = TotalExecutions r /\ i64 (TotalSuccesses r' + TotalFailures r') = i64 (TotalSuccesses r + TotalFailures r + 1) /\ d = 1)
  \/ (TotalExecutions r' = i64 (TotalExecutions r + 1) /\ TotalSuccesses r' = TotalSuccesses r /\ TotalFailures r' = TotalFailures r /\ d = -1).

Lemma hook_step_tally (r r' : registry) (x : nat) (p p' : hpc) (a : answer) (sp : spawned) :
  hook_step r x p a = Some (r', p', sp) -> tally r r' (half p' - half p).
Proof.
  unfold tally. destruct p as [| |e|e|e|e]; simpl; intros; repeat case_match; simplify_eq; simpl; try (by left); [| |by right; right].
  - right. left. split; [done|]. split; [|done]. rewrite (Z.add_comm (TotalSuccesses r)), i64_absorb. f_equal. lia.
  - right. left. split; [done|]. split; [|done]. rewrite i64_absorb. f_equal. lia.
Qed.

Lemma worker_step_tally (r r' : registry) (ws : list (nat * wpc)) (errors errors' : list (nat * hook_error)) (x : nat) (w w' : wpc)
    (a : answer) (sp : spawned) :
  worker_step r ws errors x w a = Some (r', errors', w', sp) -> tally r r' (half_worker (x, w') - half_worker (x, w)).
Proof.
  intros H. destruct w as [|p|e]; [|apply worker_step_hook in H as [(e & -> & -> & -> & _)|(p' & _ & -> & Hst & _)]|done].
  - simpl in H. destruct (may_acquire r ws); simplify_eq. by left.
  - by left.
  - by apply hook_step_tally in Hst.
Qed.

Lemma half_begin (r : registry) (held : bool) (l : list nat) : half_counted (begin r held l) = 0.
Proof.
  unfold begin. destruct l as [|x l]; [by destruct held|]. destruct (Parallel (config r)); [|done].
  generalize (x :: l). intros m. cbn [half_counted]. rewrite <- list_fmap_compose. induction m as [|y m IH]; [done|]. by rewrite sumZ_fmap_cons, IH.
Qed.

Lemma half_leave (held : bool) fin todo e : half_counted (leave held fin todo e) = 0.
Proof. by destruct held. Qed.

Lemma in_progress_begin (r : registry) (held : bool) (l : list nat) : in_progress (begin r held l) = flag held.
Proof. unfold begin. by destruct l, held, (Parallel (config r)). Qed.

Lemma in_progress_leave (held : bool) fin todo e : in_progress (leave held fin todo e) = flag held.
Proof. by destruct held. Qed.

(** What a step does to the flag and to the counters. *)
Definition books_step (r r' : registry) (p p' : pc) : Prop :=
  (in_progress p <= flag (isExecuting r) -> flag (isExecuting r') - flag (isExecuting r) = in_progress p' - in_progress p)
  /\ tally r r' (half_counted p' - half_counted p).

Lemma books_quiet (r r' : registry) (p p' : pc) :
  isExecuting r' = isExecuting r -> TotalExecutions r' = TotalExecutions r -> TotalSuccesses r' = TotalSuccesses r -> TotalFailures r' = TotalFailures r ->
  in_progress p' = in_progress p -> half_counted p' = half_counted p -> books_step r r' p p'.
Proof. intros E1 E2 E3 E4 E5 E6. split; [rewrite E1, E5; lia|]. left. rewrite E6. split_and!; try done. lia. Qed.

Lemma books_hook (r r' : registry) (x : nat) (q q' : hpc) (a : answer) (sp : spawned) (p p' : pc) :
  hook_step r x q a = Some (r', q', sp) -> in_progress p' = in_progress p -> half_counted p = half q -> half_counted p' = half q' ->
  books_step r r' p p'.
Proof.
  intros H E1 E2 E3. split; [|rewrite E2, E3; by eapply hook_step_tally]. apply hook_step_frame in H as (_ & _ & _ & Ex & _). rewrite Ex, E1. lia.
Qed.

Lemma call_step_books (r r' : registry) (p p' : pc) (ch : choice) (sp : spawned) :
  call_step r p ch = Some (r', p', sp) -> books_step r r' p p'.
Proof.
  intros H. destruct p as [nilctx| |nilctx prio|nilctx name|x q|held fin q todo|fin todo e|fin todo e|held ws errors q|name hook prio async|name| |x b q|e], ch as [a|l|i a];
    try done; try (by destruct q); try (by destruct q, held); try (by destruct q, todo); unfold call_step, outcome_of in H.
  - destruct nilctx; [injection H as <- <- <-; by apply books_quiet|]. destruct (isExecuting r) eqn:Ex; injection H as <- <- <-; [by apply books_quiet|].
    split; [simpl; by rewrite Ex|]. by left.
  - destruct (getHooksSorted r l); [|done]. injection H as <- <- <-. apply books_quiet; try done; [by rewrite in_progress_begin|by rewrite half_begin].
  - destruct nilctx; [injection H as <- <- <-; by apply books_quiet|]. destruct (sorted_priority r prio l); [|done]. injection H as <- <- <-.
    apply books_quiet; try done; [by rewrite in_progress_begin|by rewrite half_begin].
  - repeat case_match; simplify_eq; by apply books_quiet.
  - destruct (decide (exists e, q = HDone e)) as [[e ->]|Hn]; [injection H as <- <- <-; by apply books_quiet|].
    assert (exists q', hook_step r x q a = Some (r', q', sp) /\ p' = NameLoop x q') as (q' & Hq & ->).
    { destruct q; try (by destruct Hn; eauto); destruct (hook_step r x _ a) as [[[r1 q1] sp1]|]; simplify_eq; eauto. }
    by eapply books_hook.
  - destruct todo as [|x todo]; [by destruct q|].
    destruct (decide (exists e, q = HDone e)) as [[e ->]|Hn].
    { assert (r' = r /\ in_progress p' = flag held /\ half_counted p' = 0) as (-> & E1 & E2)
        by (destruct e, (StopOnError (config r)), todo; injection H as <- <- <-; (split; [done|]); by destruct held).
      apply books_quiet; try done; rewrite E1; by destruct held. }
    assert (exists q', hook_step r x q a = Some (r', q', sp) /\ p' = Sequential held fin q' (x :: todo)) as (q' & Hq & ->).
    { destruct q; try (by destruct Hn; eauto); destruct (hook_step r x _ a) as [[[r1 q1] sp1]|]; simplify_eq; eauto. }
    by eapply books_hook.
  - injection H as <- <- <-. split; [|by left]. simpl. destruct (isExecuting r); simpl; lia.
  - destruct q as [|e|e]; [| |by destruct held].
    + destruct (waited_for r ws); [|by destruct held]. destruct held; injection H as <- <- <-; by apply books_quiet.
    + destruct held; [|done]. injection H as <- <- <-. split; [|left; simpl; split_and!; try done; lia]. simpl. destruct (isExecuting r); simpl; lia.
  - destruct (ws !! i) as [[x w]|] eqn:Ei; [|by destruct q, held]. destruct (worker_step r ws errors x w a) as [[[[r1 e1] w1] sp1]|] eqn:E; [|by destruct q, held].
    assert (Some (r1, ParallelRun held (<[i := (x, w1)]> ws) e1 q, sp1) = Some (r', p', sp)) as Hs by (by destruct q, held). injection Hs as -> <- ->.
    split.
    + apply worker_step_ok in E as (_ & _ & _ & Ex & _). rewrite Ex. by intros; destruct held, q; simpl in *; lia.
    + apply worker_step_tally in E. cbn [half_counted]. rewrite (sumZ_fmap_insert half_worker ws i (x, w1) (x, w) Ei).
      replace (sumZ (half_worker <$> ws) - half_worker (x, w) + half_worker (x, w1) - sumZ (half_worker <$> ws)) with (half_worker (x, w1) - half_worker (x, w)) by lia. done.
  - destruct (Register r name hook prio async (now a)) as [r1 e1] eqn:E. simplify_eq. unfold Register in E. repeat case_match; simplify_eq; by apply books_quiet.
  - destruct (Unregister r name) as [r1 e1] eqn:E. simplify_eq. unfold Unregister in E. repeat case_match; simplify_eq; by apply books_quiet.
  - injection H as <- <- <-. by apply books_quiet.
  - destruct q; simpl in H; simplify_eq; by apply books_quiet.
Qed.

(** ** Any interleaving *)

Definition sound_hooks (c : Config) (s : system) : Prop :=
  config (reg s) = c /\ registry_ok (reg s)
  /\ sumZ (in_progress <$> calls s) = flag (isExecuting (reg s))
  /\ i64 (TotalExecutions (reg s) + sumZ (half_counted <$> calls s)) = i64 (TotalSuccesses (reg s) + TotalFailures (reg s))
  /\ forall k p, calls s !! k = Some p -> pc_ok c (heap (reg s)) p.

Lemma in_progress_range (p : pc) : 0 <= in_progress p.
Proof. destruct p as [| | | | |[]| | |[] ? ? []| | | | |]; simpl; lia. Qed.

Lemma executing_le (l : list pc) (k : nat) (p : pc) : l !! k = Some p -> in_progress p <= sumZ (in_progress <$> l).
Proof.
  intros Hk. pose proof (sumZ_fmap_insert in_progress l k (Returned None) p Hk) as E. simpl in E.
  assert (0 <= sumZ (in_progress <$> <[k := Returned None]> l)); [|lia]. apply sumZ_nonneg, Forall_fmap, Forall_true. intros q. apply in_progress_range.
Qed.

Lemma tally_holds (r r' : registry) (d h : Z) :
  tally r r' d -> i64 (TotalExecutions r + h) = i64 (TotalSuccesses r + TotalFailures r) ->
  i64 (TotalExecutions r' + (h + d)) = i64 (TotalSuccesses r' + TotalFailures r').
Proof.
  intros [(-> & -> & -> & ->)|[(-> & -> & ->)|(-> & -> & -> & ->)]] H.
  - by rewrite Z.add_0_r.
  - apply (i64_add_cong _ _ 1) in H. rewrite <- H. f_equal. lia.
  - rewrite i64_absorb, <- H. f_equal. lia.
Qed.

Lemma sound_hstep (c : Config) (s s' : system) (k : nat) (ch : choice) : sound_hooks c s -> hstep s k ch = Some s' -> sound_hooks c s'.
Proof.
  intros (Hc & Hr & Hp & Hh & Hok) H. unfold hstep in H. destruct (calls s !! k) as [p|] eqn:Ek; [|done].
  destruct (call_step (reg s) p ch) as [[[r p'] sp]|] eqn:E; [|done]. injection H as <-.
  pose proof (Hok k p Ek) as Hpk. rewrite <- Hc in Hpk.
  pose proof (executing_le _ _ _ Ek) as Hle. rewrite Hp in Hle.
  destruct (call_step_sound _ _ _ _ _ _ Hr Hpk E) as (Ec & Hr' & Hheap & Hpk' & Hsp). destruct (call_step_books _ _ _ _ _ _ E) as [Hf Ht].
  specialize (Hf Hle). rewrite Hc in Ec, Hpk', Hsp.
  assert (forall (f : pc -> Z), (forall x b q, f (AsyncHook x b q) = 0) ->
    sumZ (f <$> match sp with Some (x, b) => <[k := p']> (calls s) ++ [AsyncHook x b ARunning] | None => <[k := p']> (calls s) end)
    = sumZ (f <$> calls s) - f p + f p') as Hsum.
  { intros f Hf0. rewrite <- (sumZ_fmap_insert f (calls s) k p' p Ek). destruct sp as [[x b]|]; [|done].
    rewrite fmap_app, sumZ_app. simpl. rewrite Hf0. lia. }
  split; [done|]. split; [done|]. split; [|split].
  - cbn [reg calls]. rewrite Hsum by done. lia.
  - cbn [reg calls]. rewrite Hsum by done. replace (sumZ (half_counted <$> calls s) - half_counted p + half_counted p') with
      (sumZ (half_counted <$> calls s) + (half_counted p' - half_counted p)) by lia. by eapply tally_holds.
  - assert (forall j q, <[k := p']> (calls s) !! j = Some q -> pc_ok c (heap r) q) as Hins.
    { intros j q Hj. apply list_lookup_insert_Some in Hj as [(_ & <- & _)|[_ Hj]]; [done|]. eapply pc_ok_le; [exact Hheap|]. by apply (Hok j). }
    intros j q Hj. cbn [reg calls] in *. destruct sp as [[x b]|]; [|by eapply Hins].
    apply lookup_app_Some in Hj as [Hj|[_ Hj]]; [by eapply Hins|]. apply list_lookup_singleton_Some in Hj as [_ <-]. exact Hsp.
Qed.

Lemma sound_hooks_start (c : Config) (cs : list pc) : forallb entering cs = true -> sound_hooks c (start c cs).
Proof.
  intros He. assert (forall k p, cs !! k = Some p -> entering p = true) as Hp.
  { intros k p Hk. eapply (proj1 (forallb_forall _ _) He). by apply list_elem_of_In, (list_elem_of_lookup_2 _ k). }
  assert (forall f : pc -> Z, (forall p, entering p = true -> f p = 0) -> sumZ (f <$> cs) = 0) as Hz.
  { intros f Hf. clear Hp. induction cs as [|p cs IH]; [done|]. simpl in He. apply andb_true_iff in He as [H1 H2].
    rewrite sumZ_fmap_cons, Hf, IH by done. done. }
  split; [done|]. split; [done|]. split; [|split].
  - cbn [start calls reg]. rewrite Hz; [done|]. by intros [].
  - cbn [start calls reg]. rewrite Hz; [done|]. by intros [].
  - intros k p Hk. apply Hp in Hk. by destruct p.
Qed.

Lemma hsteps_sound (c : Config) (cs : list pc) (s : system) : forallb entering cs = true -> hsteps (start c cs) s -> sound_hooks c s.
Proof.
  intros He Hs. remember (start c cs) as s0. induction Hs; subst; [by apply sound_hooks_start|]. eapply sound_hstep; eauto.
Qed.

(** The hooks of a parallel execution whose functions its goroutines are calling.
    A hook that is asynchronous never is one of them: it runs in a goroutine of its
    own, an [AsyncHook]. *)
Definition in_function (w : nat * wpc) : Z := match w.2 with WHook HRunning => 1 | _ => 0 end.

Definition running_hooks (ws : list (nat * wpc)) : Z := sumZ (in_function <$> ws).

Lemma running_hooks_slots (ws : list (nat * wpc)) : running_hooks ws <= slots_used ws.
Proof.
  unfold running_hooks. rewrite slots_used_sum. apply sumZ_fmap_le. intros [x w].
  unfold in_function, holding. destruct w as [|p|]; simpl; try lia. destruct p; simpl; lia.
Qed.


(** With a default timeout every asynchronous hook runs with a context that has been
    cancelled. *)
Theorem async_hooks_run_cancelled (c : Config) (cs : list pc) (s : system) (k x : nat) (b : bool) (p : apc) :
  forallb entering cs = true -> hsteps (start c cs) s -> 0 < DefaultTimeout c ->
  calls s !! k = Some (AsyncHook x b p) -> b = true.
Proof.
  intros He Hs Ht Hk. destruct (hsteps_sound c cs s He Hs) as (_ & _ & _ & _ & Hok). by apply (Hok k _ Hk).
Qed.

(** ** Concrete runs *)

Definition hrun (s : option system) (l : list (nat * choice)) : option system :=
  fold_left (fun s x => s ≫= fun s => hstep s x.1 x.2) l s.

Lemma hrun_hsteps (s0 s s' : system) (l : list (nat * choice)) : hsteps s0 s -> hrun (Some s) l = Some s' -> hsteps s0 s'.
Proof.
  revert s. induction l as [|[k ch] l IH]; intros s Hs H; [by simplify_eq/=|]. unfold hrun in H. simpl in H.
  destruct (hstep s k ch) as [s1|] eqn:E; [|exfalso; clear -H; induction l; simpl in H; [done|by apply IHl]].
  eapply IH; [|exact H]. by eapply hsteps_snoc.
Qed.

(** The hook returns nil, or an error, at a given time. *)
Definition fine (t : Z) : choice := Go (mkAnswer None None t).

Definition bad (t : Z) : choice := Go (mkAnswer None (Some 1%nat) t).

(** A hook of priority 5 registered before one of priority 1, and an execution. *)
Definition two_hooks : list pc :=
  [RegisterEnter "late" true 5 false; RegisterEnter "early" true 1 false; ExecuteEnter false].

Definition run_two : list (nat * choice) :=
  [(0%nat, fine 1); (1%nat, fine 2); (2%nat, fine 3); (2%nat, Order [1%nat; 0%nat])]
  ++ ((fun ch => (2%nat, ch)) <$> [fine 3; bad 4; fine 4; fine 4; fine 4; fine 5]).

(** With StopOnError the error of the first hook ends the execution. *)
Example first_error_ends :
  exists s, hrun (Some (start (mkConfig 0 true false 0) two_hooks)) (run_two ++ [(2%nat, fine 5)]) = Some s
    /\ calls s !! 2%nat = Some (Finished [(1%nat, Some (ErrReturned 1))] [0%nat] (Some (ErrHook 1 (ErrReturned 1)))).
Proof. eexists. vm_compute. done. Qed.


(** Two asynchronous hooks in a parallel execution with one slot: the slot is given back
    when the goroutine of the hook starts, so that both run at a time; the execution
    has returned and counts two successes before either has. *)
Definition async_pair : list pc := [RegisterEnter "a" true 0 true; RegisterEnter "b" true 0 true; ExecuteEnter false].

Definition worker_run (i : nat) : list (nat * choice) :=
  replicate 5 (2%nat, Worker i (mkAnswer None None 3)).

Theorem async_hooks_escape_the_limit :
  exists s, hrun (Some (start (mkConfig 1000 false true 1) async_pair))
      ([(0%nat, fine 1); (1%nat, fine 2); (2%nat, fine 3); (2%nat, Order [0%nat; 1%nat])] ++ worker_run 0 ++ worker_run 1 ++ [(2%nat, fine 3); (2%nat, fine 3)]) = Some s
    /\ calls s !! 3%nat = Some (AsyncHook 0 true ARunning) /\ calls s !! 4%nat = Some (AsyncHook 1 true ARunning)
    /\ TotalSuccesses (reg s) = 2 /\ isExecuting (reg s) = false.
Proof. eexists. vm_compute. done. Qed.

(** What an asynchronous hook returns reaches nobody but the fields of the hook. *)
Theorem async_failure_counts_as_success :
  exists s, hrun (Some (start DefaultConfig [RegisterEnter "a" true 0 true; NameEnter false "a"]))
      ([(0%nat, fine 1)] ++ replicate 5 (1%nat, fine 2) ++ [(2%nat, bad 3); (2%nat, bad 4)]) = Some s
    /\ calls s !! 1%nat = Some (Returned None) /\ TotalSuccesses (reg s) = 1 /\ TotalFailures (reg s) = 0
    /\ LastError <$> heap (reg s) !! 0%nat = Some (Some (ErrReturned 1)).
Proof. eexists. vm_compute. done. Qed.
