(* ===== verification/Health.v ===== *)
(** * Health checks (pkg/core/runtime/health/health.go)

    A check reads the runtime, runs the registered checkers, in parallel or one
    after the other, compares the runtime with the registered thresholds and
    summarises the results.  The maps of checkers and thresholds are walked in an
    order that is an argument; what the checkers answer, what the runtime says and
    when the context is done are arguments too.  In a parallel check every checker
    updates the result in one critical section, so that the order of these is the
    order of the walk.  Durations, texts of errors and callbacks are left out. *)
From S2P Require Import Prelude.

(** ** Data *)

Inductive Status : Type := StatusHealthy | StatusUnhealthy | StatusDegraded | StatusUnknown.

#[export] Instance Status_eq_dec : EqDecision Status.
Proof. solve_decision. Defined.

Record Threshold : Type := mkThreshold {
  MaxGoroutines : Z;
  MaxMemoryAlloc : Z;
  MaxMemorySys : Z;
  MaxGCPause : Z;
  MinNumGC : Z
}.

Record Config : Type := mkConfig {
  CheckTimeout : Z;
  IncludeMemoryCheck : bool;
  IncludeGCCheck : bool;
  ParallelCheck : bool
}.

Definition DefaultConfig : Config := mkConfig (5 * 1000000000) true true true.

Record MemoryHealth : Type := mkMemory { Alloc : Z; Sys : Z; NumGC : Z; MemoryHealthy : bool }.

Record GCHealth : Type := mkGC { MaxPause : Z; GCHealthy : bool }.

Record RuntimeHealth : Type := mkRuntime { NumGoroutines : Z; Memory : option MemoryHealth; GC : option GCHealth }.

(** The messages of a result; that of the memory is never set and is empty. *)
Inductive message : Type :=
| MsgEmpty
| MsgNoChecks
| MsgFailed (n : nat)
| MsgDegraded (n : nat)
| MsgPassed.

Record Result : Type := mkResult {
  Overall : Status;
  Healthy : bool;
  Checks : gmap string Status;
  Runtime : RuntimeHealth;
  Message : message
}.

Record Stats : Type := mkStats { TotalChecks : Z; TotalHealthy : Z; TotalUnhealthy : Z; LastCheckTime : option Z; TotalCheckers : Z; TotalThresholds : Z }.

Record healthManager : Type := mkManager {
  config : Config;
  checkers : gmap string Z;            (** the timeouts of the checkers *)
  thresholds : gmap string Threshold;
  stats : Stats
}.

Definition NewManager (c : Config) : healthManager :=
  mkManager (mkConfig (if CheckTimeout c =? 0 then 5 * 1000000000 else CheckTimeout c) (IncludeMemoryCheck c) (IncludeGCCheck c) (ParallelCheck c))
    ∅ ∅ (mkStats 0 0 0 None 0 0).

Inductive health_error : Type :=
| ErrNilContext
| ErrInvalidChecker
| ErrCheckerExists
| ErrInvalidThreshold
| ErrThresholdExists.

(** ** Registration *)

Definition count_checkers (m : healthManager) (k : gmap string Z) (d : Z) : healthManager :=
  mkManager (config m) k (thresholds m)
    (mkStats (TotalChecks (stats m)) (TotalHealthy (stats m)) (TotalUnhealthy (stats m)) (LastCheckTime (stats m))
       (i64 (TotalCheckers (stats m) + d)) (TotalThresholds (stats m))).

Definition count_thresholds (m : healthManager) (k : gmap string Threshold) (d : Z) : healthManager :=
  mkManager (config m) (checkers m) k
    (mkStats (TotalChecks (stats m)) (TotalHealthy (stats m)) (TotalUnhealthy (stats m)) (LastCheckTime (stats m))
       (TotalCheckers (stats m)) (i64 (TotalThresholds (stats m) + d))).

(** [checker] is whether the function is not nil. *)
Definition RegisterCheckerWithTimeout (m : healthManager) (name : string) (checker : bool) (timeout : Z) : healthManager * option health_error :=
  if String.eqb name "" then (m, Some ErrInvalidChecker)
  else if negb checker then (m, Some ErrInvalidChecker)
  else match checkers m !! name with
       | Some _ => (m, Some ErrCheckerExists)
       | None => (count_checkers m (<[name := timeout]> (checkers m)) 1, None)
       end.

Definition RegisterChecker (m : healthManager) (name : string) (checker : bool) : healthManager * option health_error :=
  RegisterCheckerWithTimeout m name checker 0.

Definition UnregisterChecker (m : healthManager) (name : string) : healthManager :=
  match checkers m !! name with
  | Some _ => count_checkers m (delete name (checkers m)) (-1)
  | None => m
  end.

Definition RegisterThreshold (m : healthManager) (name : string) (t : Threshold) : healthManager * option health_error :=
  if String.eqb name "" then (m, Some ErrInvalidThreshold)
  else match thresholds m !! name with
       | Some _ => (m, Some ErrThresholdExists)
       | None => (count_thresholds m (<[name := t]> (thresholds m)) 1, None)
       end.

Definition UnregisterThreshold (m : healthManager) (name : string) : healthManager :=
  match thresholds m !! name with
  | Some _ => count_thresholds m (delete name (thresholds m)) (-1)
  | None => m
  end.

(** ** Runtime *)

(** What the runtime reports: goroutines, memory and the recent pauses. *)
Record observed : Type := mkObserved { goroutines : Z; alloc : Z; sys : Z; numGC : Z; pauses : list Z }.

Definition max_pause (l : list Z) : Z := fold_left (fun m p => if m <? p then p else m) l 0.

Definition collectRuntimeHealth (c : Config) (o : observed) : RuntimeHealth :=
  mkRuntime (goroutines o)
    (if IncludeMemoryCheck c then Some (mkMemory (alloc o) (sys o) (numGC o) true) else None)
    (if IncludeGCCheck c then Some (mkGC (max_pause (pauses o)) true) else None).

(** ** Checkers *)

(** What ends the wait for a checker: its context, or its answer. *)
Inductive ended : Type := TimedOut | Answered (err : bool).

Definition runCheckerWithInfo (e : ended) : Status :=
  match e with TimedOut => StatusUnknown | Answered true => StatusUnhealthy | Answered false => StatusHealthy end.

(** The result of one checker is stored. *)
Definition record_check (r : Result) (name : string) (st : Status) : Result :=
  mkResult
    (match st with StatusDegraded => if decide (Overall r = StatusHealthy) then StatusDegraded else Overall r | _ => Overall r end)
    (match st with StatusUnhealthy => false | _ => Healthy r end)
    (<[name := st]> (Checks r)) (Runtime r) (Message r).

Definition run_parallel (order : list string) (ans : string -> ended) (r : Result) : Result :=
  fold_left (fun r n => record_check r n (runCheckerWithInfo (ans n))) order r.

(** [gone n]: the context is done before the turn of [n]. *)
Fixpoint run_sequential (order : list string) (gone : string -> bool) (ans : string -> ended) (r : Result) : Result :=
  match order with
  | [] => r
  | n :: l =>
      if gone n then mkResult (Overall r) false (<[n := StatusUnknown]> (Checks r)) (Runtime r) (Message r)
      else run_sequential l gone ans (record_check r n (runCheckerWithInfo (ans n)))
  end.

Definition runCheckers (c : Config) (order : list string) (gone : string -> bool) (ans : string -> ended) (r : Result) : Result :=
  if ParallelCheck c then run_parallel order ans r else run_sequential order gone ans r.

(** ** Thresholds *)

Definition over (limit x : Z) : bool := (0 <? limit) && (limit <? x).

Definition goroutines_over (t : Threshold) (h : RuntimeHealth) : bool := over (MaxGoroutines t) (NumGoroutines h).

Definition memory_over (t : Threshold) (m : MemoryHealth) : bool := over (MaxMemoryAlloc t) (Alloc m) || over (MaxMemorySys t) (Sys m).

Definition gc_stuck (t : Threshold) (m : MemoryHealth) : bool := (0 <? MinNumGC t) && (NumGC m <? MinNumGC t).

Definition pause_over (t : Threshold) (g : GCHealth) : bool := over (MaxGCPause t) (MaxPause g).

(** The status of a threshold, and the marks it leaves on the runtime. *)
Definition checkThreshold (t : Threshold) (h : RuntimeHealth) : Status * RuntimeHealth :=
  let violated :=
    goroutines_over t h
    || match Memory h with Some m => memory_over t m || gc_stuck t m | None => false end
    || match GC h with Some g => pause_over t g | None => false end in
  (if violated then StatusUnhealthy else StatusHealthy,
   mkRuntime (NumGoroutines h)
     ((fun m => mkMemory (Alloc m) (Sys m) (NumGC m) (if memory_over t m then false else MemoryHealthy m)) <$> Memory h)
     ((fun g => mkGC (MaxPause g) (if pause_over t g then false else GCHealthy g)) <$> GC h)).

Definition record_threshold (r : Result) (x : string * Threshold) : Result :=
  let '(st, h) := checkThreshold x.2 (Runtime r) in
  mkResult (Overall r) (match st with StatusUnhealthy => false | _ => Healthy r end) (<[x.1 := st]> (Checks r)) h (Message r).

Definition checkThresholds (order : list (string * Threshold)) (r : Result) : Result := fold_left record_threshold order r.

(** ** The result *)

Definition count_status (st : Status) (m : gmap string Status) : nat := size (filter (fun kv => kv.2 = st) m).

(** The summary of the checks, before the runtime is looked at. *)
Definition summarise (r : Result) : Result :=
  let u := count_status StatusUnhealthy (Checks r) in
  let d := count_status StatusDegraded (Checks r) in
  if (0 <? u)%nat then mkResult StatusUnhealthy false (Checks r) (Runtime r) (MsgFailed u)
  else if (0 <? d)%nat then mkResult StatusDegraded (Healthy r) (Checks r) (Runtime r) (MsgDegraded d)
  else mkResult StatusHealthy (Healthy r) (Checks r) (Runtime r) MsgPassed.

Definition memory_verdict (r : Result) : Result :=
  match Memory (Runtime r) with
  | Some m => if MemoryHealthy m then r else mkResult StatusUnhealthy false (Checks r) (Runtime r) MsgEmpty
  | None => r
  end.

(** The message of the collector, too, is never set. *)
Definition gc_verdict (r : Result) : Result :=
  match GC (Runtime r) with
  | Some g =>
      if GCHealthy g then r
      else mkResult (if decide (Overall r = StatusHealthy) then StatusDegraded else Overall r) (Healthy r) (Checks r) (Runtime r) (Message r)
  | None => r
  end.

Definition determineOverallStatus (r : Result) : Result :=
  if decide (Checks r = ∅) then mkResult StatusUnknown (Healthy r) (Checks r) (Runtime r) MsgNoChecks
  else gc_verdict (memory_verdict (summarise r)).

Definition count_check (m : healthManager) (healthy : bool) (now : Z) : healthManager :=
  let s := stats m in
  mkManager (config m) (checkers m) (thresholds m)
    (mkStats (i64 (TotalChecks s + 1)) (if healthy then i64 (TotalHealthy s + 1) else TotalHealthy s)
       (if healthy then TotalUnhealthy s else i64 (TotalUnhealthy s + 1)) (Some now) (TotalCheckers s) (TotalThresholds s)).

(** The result of a check, given the orders of the two maps. *)
Definition check_result (m : healthManager) (o : observed) (co : list string) (to : list (string * Threshold))
    (gone : string -> bool) (ans : string -> ended) : Result :=
  determineOverallStatus (checkThresholds to (runCheckers (config m) co gone ans
    (mkResult StatusUnknown true ∅ (collectRuntimeHealth (config m) o) MsgEmpty))).

Definition Check_ (m : healthManager) (nilctx : bool) (o : observed) (co : list string) (to : list (string * Threshold))
    (gone : string -> bool) (ans : string -> ended) (now : Z) : healthManager * result health_error Result :=
  if nilctx then (m, Err ErrNilContext)
  else let r := check_result m o co to gone ans in (count_check m (Healthy r) now, Ok r).

Definition IsHealthy (m : healthManager) (nilctx : bool) (o : observed) (co : list string) (to : list (string * Threshold))
    (gone : string -> bool) (ans : string -> ended) (now : Z) : healthManager * result health_error bool :=
  match Check_ m nilctx o co to gone ans now with
  | (m', Ok r) => (m', Ok (Healthy r))
  | (m', Err e) => (m', Err e)
  end.

(** ** Checkers, in any order *)

Definition failed_answer (e : ended) : bool := match e with Answered true => true | _ => false end.

Lemma status_unhealthy (e : ended) : runCheckerWithInfo e = StatusUnhealthy <-> failed_answer e = true.
Proof. by destruct e as [|[]]. Qed.

Lemma record_check_fields (r : Result) (n : string) (e : ended) :
  let r' := record_check r n (runCheckerWithInfo e) in
  Overall r' = Overall r /\ Healthy r' = Healthy r && negb (failed_answer e) /\ Runtime r' = Runtime r.
Proof. destruct e as [|[]]; simpl; rewrite ?andb_true_r, ?andb_false_r; done. Qed.

Lemma run_parallel_fields (order : list string) (ans : string -> ended) (r : Result) :
  let r' := run_parallel order ans r in
  Overall r' = Overall r /\ Healthy r' = Healthy r && forallb (fun n => negb (failed_answer (ans n))) order /\ Runtime r' = Runtime r
  /\ forall n, Checks r' !! n = if decide (n ∈ order) then Some (runCheckerWithInfo (ans n)) else Checks r !! n.
Proof.
  revert r. induction order as [|x order IH]; intros r; simpl.
  - rewrite andb_true_r. split_and!; try done.
  - destruct (IH (record_check r x (runCheckerWithInfo (ans x)))) as (H1 & H2 & H3 & H4).
    destruct (record_check_fields r x (ans x)) as (E1 & E2 & E3). rewrite H1, H2, H3, E1, E2, E3, andb_assoc. split_and!; try done.
    intros n. rewrite H4. destruct (decide (n ∈ order)); [by rewrite decide_True by (by apply list_elem_of_further)|]. simpl.
    destruct (decide (n = x)) as [->|Hne]; [by rewrite lookup_insert_eq, decide_True by (apply list_elem_of_here)|].
    rewrite lookup_insert_ne, decide_False; [done| |done]. intros [->|?]%elem_of_cons; done.
Qed.

(** ** Thresholds, in any order *)

(** The numbers of the runtime, without the marks. *)
Definition numbers (h : RuntimeHealth) : Z * option (Z * Z * Z) * option Z :=
  (NumGoroutines h, (fun m => (Alloc m, Sys m, NumGC m)) <$> Memory h, MaxPause <$> GC h).

Definition violates (t : Threshold) (h : RuntimeHealth) : bool := bool_decide ((checkThreshold t h).1 = StatusUnhealthy).

Lemma violates_numbers (t : Threshold) (h h' : RuntimeHealth) : numbers h = numbers h' -> (checkThreshold t h).1 = (checkThreshold t h').1.
Proof.
  destruct h as [g [[a s n b]|] [[p c]|]], h' as [g' [[a' s' n' b']|] [[p' c']|]]; unfold numbers; simpl; intros; simplify_eq; done.
Qed.

Lemma checkThreshold_numbers (t : Threshold) (h : RuntimeHealth) : numbers (checkThreshold t h).2 = numbers h.
Proof. by destruct h as [g [[a s n b]|] [[p c]|]]. Qed.

(** A mark is left only by a threshold that is violated. *)
Definition marked (h : RuntimeHealth) : bool :=
  match Memory h with Some m => negb (MemoryHealthy m) | None => false end || match GC h with Some g => negb (GCHealthy g) | None => false end.

Lemma checkThreshold_marks (t : Threshold) (h : RuntimeHealth) :
  marked (checkThreshold t h).2 = true -> marked h = true \/ violates t h = true.
Proof.
  unfold violates, marked, checkThreshold. destruct h as [g [[a s n b]|] [[p c]|]]; simpl;
    destruct (goroutines_over t _); simpl; auto; unfold memory_over, pause_over; simpl;
    repeat match goal with |- context [over ?x ?y] => destruct (over x y); simpl; auto end. intros _. right. by rewrite orb_true_r.
Qed.

Lemma record_threshold_fields (r : Result) (x : string * Threshold) :
  let r' := record_threshold r x in
  Overall r' = Overall r /\ Healthy r' = Healthy r && negb (violates x.2 (Runtime r))
  /\ Checks r' = <[x.1 := if violates x.2 (Runtime r) then StatusUnhealthy else StatusHealthy]> (Checks r)
  /\ Runtime r' = (checkThreshold x.2 (Runtime r)).2.
Proof.
  unfold record_threshold, violates. destruct (checkThreshold x.2 (Runtime r)) as [st h] eqn:E. simpl.
  assert (st = StatusHealthy \/ st = StatusUnhealthy) as [->| ->] by (unfold checkThreshold in E; case_match; simplify_eq; auto);
    simpl; rewrite ?andb_true_r, ?andb_false_r; done.
Qed.

Lemma checkThresholds_fields (order : list (string * Threshold)) (r : Result) :
  NoDup order.*1 ->
  let r' := checkThresholds order r in
  Overall r' = Overall r /\ Healthy r' = Healthy r && forallb (fun x => negb (violates x.2 (Runtime r))) order
  /\ (forall n, Checks r' !! n = match list_find (fun x => x.1 = n) order with
                                 | Some (_, x) => Some (if violates x.2 (Runtime r) then StatusUnhealthy else StatusHealthy)
                                 | None => Checks r !! n
                                 end)
  /\ numbers (Runtime r') = numbers (Runtime r)
  /\ (marked (Runtime r') = true -> marked (Runtime r) = true \/ existsb (fun x => violates x.2 (Runtime r)) order = true).
Proof.
  revert r. induction order as [|x order IH]; intros r Hnd; simpl.
  - rewrite andb_true_r. split_and!; auto.
  - apply NoDup_cons in Hnd as [Hni Hnd]. destruct (IH (record_threshold r x) Hnd) as (H1 & H2 & H3 & H4 & H5).
    destruct (record_threshold_fields r x) as (E1 & E2 & E3 & E4).
    assert (numbers (Runtime (record_threshold r x)) = numbers (Runtime r)) as En by (rewrite E4; apply checkThreshold_numbers).
    assert (forall t, violates t (Runtime (record_threshold r x)) = violates t (Runtime r)) as Hv
      by (intros t; unfold violates; by rewrite (violates_numbers t _ _ En)).
    split_and!.
    + by rewrite H1.
    + rewrite H2, E2, <- andb_assoc. f_equal. simpl. f_equal. clear -Hv. induction order as [|y order IHo]; [done|]. simpl. by rewrite Hv, IHo.
    + intros n. rewrite H3. destruct (decide (x.1 = n)) as [<-|Hne].
      * assert (list_find (fun y => y.1 = x.1) order = None) as ->; [|by rewrite E3, lookup_insert_eq].
        apply list_find_None, Forall_forall. intros y Hy Heq. apply Hni. rewrite <- Heq. by apply list_elem_of_fmap_2.
      * rewrite E3, lookup_insert_ne by done. destruct (list_find (fun y => y.1 = n) order) as [[i y]|]; [rewrite Hv|]; done.
    + by rewrite H4.
    + intros Hm. apply H5 in Hm as [Hm|Hm].
      * rewrite E4 in Hm. apply checkThreshold_marks in Hm as [Hm|Hm]; [by left|right]. by rewrite Hm.
      * right. apply orb_true_iff. right. rewrite <- Hm. clear -Hv. induction order as [|y order IHo]; [done|]. simpl. by rewrite Hv, IHo.
Qed.

(** ** The verdict *)

Lemma count_status_spec (st : Status) (m : gmap string Status) :
  (0 <? count_status st m)%nat = true <-> exists n, m !! n = Some st.
Proof.
  unfold count_status. rewrite Nat.ltb_lt. split.
  - intros H. destruct (map_choose (filter (fun kv => kv.2 = st) m)) as (n & s & Hn).
    { intros E. rewrite E, map_size_empty in H. lia. }
    apply map_lookup_filter_Some in Hn as [Hn Hs]. simpl in Hs. subst. eauto.
  - intros [n Hn]. enough (size (filter (fun kv => kv.2 = st) m) <> 0%nat) by lia. apply map_size_non_empty_iff. intros E.
    assert (filter (fun kv => kv.2 = st) m !! n = None) as H by (by rewrite E, lookup_empty). rewrite map_lookup_filter_None in H.
    destruct H as [H|H]; [congruence|]. by apply (H st).
Qed.

(** The status of a recorded check is healthy, unhealthy or unknown, and the marks of
    the runtime come with an unhealthy one: then the verdict follows the checks. *)
Lemma overall_spec (r : Result) :
  Checks r <> ∅ -> (forall n, Checks r !! n <> Some StatusDegraded) ->
  (marked (Runtime r) = true -> exists n, Checks r !! n = Some StatusUnhealthy) ->
  let r' := determineOverallStatus r in
  Checks r' = Checks r
  /\ (Overall r' = StatusUnhealthy <-> exists n, Checks r !! n = Some StatusUnhealthy)
  /\ (Overall r' = StatusHealthy <-> ~ exists n, Checks r !! n = Some StatusUnhealthy)
  /\ (Healthy r' = true <-> Healthy r = true /\ ~ exists n, Checks r !! n = Some StatusUnhealthy).
Proof.
  intros Hne Hd Hm. unfold determineOverallStatus. rewrite decide_False by done. unfold summarise.
  destruct (0 <? count_status StatusUnhealthy (Checks r))%nat eqn:Eu.
  - apply count_status_spec in Eu. unfold memory_verdict, gc_verdict. simpl. repeat (case_match; simpl); naive_solver.
  - assert (~ exists n, Checks r !! n = Some StatusUnhealthy) as Hn by (intros H; apply count_status_spec in H; congruence).
    destruct (0 <? count_status StatusDegraded (Checks r))%nat eqn:Ed; [apply count_status_spec in Ed as [n Hx]; by destruct (Hd n)|].
    assert (marked (Runtime r) = false) as Hmk by (destruct (marked (Runtime r)); [by destruct Hn; apply Hm|done]).
    unfold marked in Hmk. apply orb_false_iff in Hmk as [H1 H2]. unfold memory_verdict, gc_verdict. simpl.
    destruct (Memory (Runtime r)) as [m|]; simpl in *; [apply negb_false_iff in H1; rewrite H1|]; simpl;
      (destruct (GC (Runtime r)) as [g|]; [apply negb_false_iff in H2; rewrite H2|]); simpl; naive_solver.
Qed.

Lemma run_sequential_quiet (order : list string) (gone : string -> bool) (ans : string -> ended) (r : Result) :
  (forall n, gone n = false) -> run_sequential order gone ans r = run_parallel order ans r.
Proof. intros Hg. revert r. induction order as [|n order IH]; intros r; simpl; [done|]. rewrite Hg. apply IH. Qed.

Lemma find_in_map {A} (m : gmap string A) (l : list (string * A)) (n : string) :
  l ≡ₚ map_to_list m -> match list_find (fun x => x.1 = n) l with Some (_, x) => m !! n = Some x.2 | None => m !! n = None end.
Proof.
  intros Hl. destruct (list_find (fun x => x.1 = n) l) as [[i [k x]]|] eqn:E.
  - apply list_find_Some in E as (Hi & <- & _). simpl. apply elem_of_map_to_list. rewrite <- Hl. by apply (list_elem_of_lookup_2 _ i).
  - apply list_find_None in E. destruct (m !! n) as [x|] eqn:Ex; [|done]. apply elem_of_map_to_list in Ex. rewrite <- Hl in Ex.
    rewrite Forall_forall in E. by destruct (E _ Ex).
Qed.

Lemma elem_of_keys {A} (m : gmap string A) (l : list string) (n : string) : l ≡ₚ (map_to_list m).*1 -> n ∈ l <-> is_Some (m !! n).
Proof.
  intros Hl. rewrite Hl, list_elem_of_fmap. split.
  - intros ([k x] & -> & Hx). apply elem_of_map_to_list in Hx. by exists x.
  - intros [x Hx]. exists (n, x). split; [done|]. by apply elem_of_map_to_list.
Qed.

Section Verdict.

Context (m : healthManager) (o : observed) (co : list string) (to : list (string * Threshold)) (gone : string -> bool) (ans : string -> ended).

(** The orders are those of the maps, and the context is not done. *)
Definition walks : Prop :=
  co ≡ₚ (map_to_list (checkers m)).*1 /\ to ≡ₚ map_to_list (thresholds m)
  /\ (ParallelCheck (config m) = true \/ (forall n, gone n = false)).

Definition health : RuntimeHealth := collectRuntimeHealth (config m) o.

(** The result before the summary. *)
Definition collected : Result :=
  checkThresholds to (runCheckers (config m) co gone ans (mkResult StatusUnknown true ∅ health MsgEmpty)).

(** What is recorded under a name. *)
Definition expected (n : string) : option Status :=
  match thresholds m !! n with
  | Some t => Some (if violates t health then StatusUnhealthy else StatusHealthy)
  | None => (fun _ => runCheckerWithInfo (ans n)) <$> checkers m !! n
  end.

Definition all_fine : Prop :=
  (forall n, is_Some (checkers m !! n) -> failed_answer (ans n) = false) /\ (forall n t, thresholds m !! n = Some t -> violates t health = false).

Lemma collected_fields :
  walks ->
  Healthy collected = forallb (fun n => negb (failed_answer (ans n))) co && forallb (fun x => negb (violates x.2 health)) to
  /\ (forall n, Checks collected !! n = expected n)
  /\ (marked (Runtime collected) = true -> existsb (fun x => violates x.2 health) to = true).
Proof.
  intros (Hco & Hto & Hpar). unfold collected. set (r0 := mkResult StatusUnknown true ∅ health MsgEmpty).
  assert (runCheckers (config m) co gone ans r0 = run_parallel co ans r0) as ->.
  { unfold runCheckers. destruct (ParallelCheck (config m)); [done|]. destruct Hpar as [?|?]; [done|by apply run_sequential_quiet]. }
  destruct (run_parallel_fields co ans r0) as (_ & P2 & P3 & P4). set (r1 := run_parallel co ans r0) in *.
  assert (NoDup to.*1) as Hnd by (rewrite Hto; apply NoDup_fst_map_to_list).
  destruct (checkThresholds_fields to r1 Hnd) as (_ & T2 & T3 & _ & T5). rewrite P3 in T2, T3, T5. split; [|split].
  - by rewrite T2, P2.
  - intros n. rewrite T3. unfold expected. pose proof (find_in_map (thresholds m) to n Hto) as Hf. destruct (list_find _ to) as [[i x]|]; rewrite Hf; [done|].
    rewrite P4. pose proof (elem_of_keys (checkers m) co n Hco) as Hk. destruct (decide (n ∈ co)) as [Hin|Hin].
    + apply Hk in Hin as [x ->]. done.
    + destruct (checkers m !! n) eqn:Ex; [by destruct Hin; apply Hk|]. done.
  - intros Hm. apply T5 in Hm as [Hm|Hm]; [|done]. exfalso. unfold marked in Hm. simpl in Hm.
    by destruct (IncludeMemoryCheck (config m)), (IncludeGCCheck (config m)).
Qed.

Lemma collected_healthy : walks -> Healthy collected = true <-> all_fine.
Proof.
  intros Hw. pose proof Hw as (Hco & Hto & _). destruct (collected_fields Hw) as (-> & _). rewrite !andb_true_iff, !forallb_forall. split.
  - intros [H1 H2]. split.
    + intros n Hn. apply negb_true_iff, H1, list_elem_of_In. by apply (elem_of_keys (checkers m)).
    + intros n t Ht. apply negb_true_iff, (H2 (n, t)), list_elem_of_In. rewrite Hto. by apply elem_of_map_to_list.
  - intros [H1 H2]. split.
    + intros n Hn%list_elem_of_In. apply negb_true_iff, H1. by apply (elem_of_keys (checkers m) co).
    + intros [n t] Hn%list_elem_of_In. apply negb_true_iff, (H2 n). rewrite Hto in Hn. by apply elem_of_map_to_list.
Qed.

Lemma unhealthy_not_fine : (exists n, expected n = Some StatusUnhealthy) -> ~ all_fine.
Proof.
  intros [n Hn] [H1 H2]. unfold expected in Hn. destruct (thresholds m !! n) as [t|] eqn:Et; [by rewrite (H2 n t Et) in Hn|].
  destruct (checkers m !! n) as [x|] eqn:Ex; [|done]. simpl in Hn. injection Hn as Hn. apply status_unhealthy in Hn. rewrite H1 in Hn; [done|by exists x].
Qed.

Lemma expected_empty : (forall n, expected n = None) <-> checkers m = ∅ /\ thresholds m = ∅.
Proof.
  unfold expected. split.
  - intros E. split; apply map_eq; intros n; rewrite lookup_empty; specialize (E n); destruct (thresholds m !! n), (checkers m !! n); done.
  - intros [E1 E2] n. by rewrite E1, E2, !lookup_empty.
Qed.

Lemma mark_recorded : walks -> marked (Runtime collected) = true -> exists n, expected n = Some StatusUnhealthy.
Proof.
  intros Hw Hm. pose proof Hw as (_ & Hto & _). apply collected_fields in Hm as ([n t] & Hin & Hv)%existsb_exists; [|done].
  exists n. unfold expected. apply list_elem_of_In in Hin. rewrite Hto in Hin. apply elem_of_map_to_list in Hin. rewrite Hin. simpl in Hv. by rewrite Hv.
Qed.

(** Whatever the order in which the checkers end and the maps are walked, as long as the
    context of a sequential check is not done: every checker and every threshold has its
    result, a threshold hiding a checker of the same name; the check is healthy exactly
    if no checker returned an error and no threshold is violated; and it is unhealthy
    overall exactly if a recorded result is, unknown without checkers and thresholds,
    and healthy otherwise. *)
Theorem check_verdict :
  walks ->
  let r := check_result m o co to gone ans in
  (forall n, Checks r !! n = expected n)
  /\ (Healthy r = true <-> all_fine)
  /\ Overall r <> StatusDegraded
  /\ (Overall r = StatusUnknown <-> checkers m = ∅ /\ thresholds m = ∅)
  /\ (Overall r = StatusUnhealthy <-> exists n, expected n = Some StatusUnhealthy).
Proof.
  intros Hw r. change r with (determineOverallStatus collected). pose proof (collected_healthy Hw) as HH. pose proof (mark_recorded Hw) as HM.
  destruct (collected_fields Hw) as (_ & HC & _). destruct (decide (Checks collected = ∅)) as [E|E].
  - assert (forall n, expected n = None) as Hn by (intros n; by rewrite <- HC, E, lookup_empty).
    unfold determineOverallStatus. rewrite decide_True by done. simpl. split_and!; try done; [by split; [intros _; apply expected_empty|]|].
    split; [done|]. intros [n Hx]. by rewrite Hn in Hx.
  - assert (forall P : option Status -> Prop, (exists n, P (Checks collected !! n)) <-> (exists n, P (expected n))) as Hex
      by (intros P; split; intros [n Hx]; exists n; [by rewrite <- HC|by rewrite HC]).
    destruct (overall_spec collected E) as (O1 & O2 & O3 & O4).
    + intros n. rewrite HC. unfold expected. destruct (thresholds m !! n); [by case_match|]. destruct (checkers m !! n); [|done]. by destruct (ans n) as [|[]].
    + intros Hm. apply (Hex (fun s => s = Some StatusUnhealthy)). by apply HM.
    + rewrite (Hex (fun s => s = Some StatusUnhealthy)) in O2, O3, O4. rewrite O1. split; [done|].
      split; [rewrite O4, HH; pose proof unhealthy_not_fine; tauto|].
      assert (Overall (determineOverallStatus collected) = StatusUnhealthy \/ Overall (determineOverallStatus collected) = StatusHealthy) as Hov.
      { destruct (0 <? count_status StatusUnhealthy (Checks collected))%nat eqn:Eu; [left; apply O2, (Hex (fun s => s = Some StatusUnhealthy)); by apply count_status_spec|].
        right. apply O3. intros Hx. apply (Hex (fun s => s = Some StatusUnhealthy)), count_status_spec in Hx. congruence. }
      split; [by destruct Hov as [Hv|Hv]; rewrite Hv|]. split; [|done]. split; [by destruct Hov as [Hv|Hv]; rewrite Hv|]. intros Hn. destruct E. apply map_eq. intros n. rewrite HC, lookup_empty. by apply expected_empty.
Qed.

End Verdict.

(** ** Statistics *)

Definition health_books (m : healthManager) : Prop :=
  i64 (TotalChecks (stats m)) = i64 (TotalHealthy (stats m) + TotalUnhealthy (stats m))
  /\ i64 (TotalCheckers (stats m)) = i64 (Z.of_nat (size (checkers m)))
  /\ i64 (TotalThresholds (stats m)) = i64 (Z.of_nat (size (thresholds m))).

Inductive health_step (m : healthManager) : healthManager -> Prop :=
| health_register n c t : health_step m (RegisterCheckerWithTimeout m n c t).1
| health_unregister n : health_step m (UnregisterChecker m n)
| health_threshold n t : health_step m (RegisterThreshold m n t).1
| health_unthreshold n : health_step m (UnregisterThreshold m n)
| health_check nc o co to gone ans now : health_step m (Check_ m nc o co to gone ans now).1.

Lemma size_bump {A} (m : gmap string A) (n : string) (x : A) (t : Z) :
  m !! n = None -> i64 t = i64 (Z.of_nat (size m)) -> i64 (i64 (t + 1)) = i64 (Z.of_nat (size (<[n := x]> m))).
Proof.
  intros Hn H. rewrite map_size_insert_None by done. apply (i64_add_cong _ _ 1) in H. rewrite <- (Z.add_0_r (i64 (t + 1))), i64_absorb, Z.add_0_r, H. f_equal. lia.
Qed.

Lemma size_drop {A} (m : gmap string A) (n : string) (t : Z) :
  is_Some (m !! n) -> i64 t = i64 (Z.of_nat (size m)) -> i64 (i64 (t + -1)) = i64 (Z.of_nat (size (delete n m))).
Proof.
  intros [x Hx] H. pose proof (map_size_delete_Some n m (mk_is_Some _ _ Hx)) as Hs.
  assert (size m <> 0%nat) as Hz by (apply map_size_non_empty_iff; intros ->; by rewrite lookup_empty in Hx).
  apply (i64_add_cong _ _ (-1)) in H. rewrite <- (Z.add_0_r (i64 (t + -1))), i64_absorb, Z.add_0_r, H, Hs. f_equal. lia.
Qed.

(** After any registrations and checks, one at a time, the counters are right in 64
    bits: every check is counted as healthy or unhealthy, and the checkers and
    thresholds registered are counted. *)
Theorem health_counters (c : Config) (m : healthManager) : rtc health_step (NewManager c) m -> health_books m.
Proof.
  apply (rtc_invariant health_step health_books); [|done]. clear. intros m m' (H1 & H2 & H3) Hs.
  destruct Hs as [n b t|n|n t|n|nc o co to gone ans now]; simpl.
  - unfold RegisterCheckerWithTimeout. repeat case_match; try done. split_and!; try done. by apply size_bump.
  - unfold UnregisterChecker. case_match eqn:E; [|done]. split_and!; try done. apply size_drop; [by rewrite E|done].
  - unfold RegisterThreshold. repeat case_match; try done. split_and!; try done. by apply size_bump.
  - unfold UnregisterThreshold. case_match eqn:E; [|done]. split_and!; try done. apply size_drop; [by rewrite E|done].
  - unfold Check_. destruct nc; [done|]. simpl. split_and!; try done. unfold count_check. simpl.
    apply (i64_add_cong _ _ 1) in H1. rewrite <- (Z.add_0_r (i64 (TotalChecks _ + 1))), i64_absorb, Z.add_0_r, H1.
    destruct (Healthy _); [rewrite i64_absorb|rewrite (Z.add_comm _ (i64 _)), i64_absorb]; f_equal; lia.
Qed.

(** ** Concrete checks *)

Definition quiet_runtime : observed := mkObserved 10 1000 2000 3 [5].

(** A manager with a checker, in a parallel or a sequential configuration. *)
Definition with_checker (par : bool) : healthManager :=
  (RegisterChecker (NewManager (mkConfig 0 true true par)) "db" true).1.

(** A checker that never answers leaves a parallel check healthy, with the message that
    all checks passed. *)
Theorem timeout_is_healthy :
  let r := check_result (with_checker true) quiet_runtime ["db"] [] (fun _ => false) (fun _ => TimedOut) in
  Healthy r = true /\ Overall r = StatusHealthy /\ Message r = MsgPassed /\ Checks r !! "db" = Some StatusUnknown.
Proof. vm_compute. done. Qed.

(** A sequential check whose context is done is not healthy, but healthy overall, with
    the same message. *)
Theorem done_context_passes :
  let r := check_result (with_checker false) quiet_runtime ["db"] [] (fun _ => true) (fun _ => TimedOut) in
  Healthy r = false /\ Overall r = StatusHealthy /\ Message r = MsgPassed.
Proof. vm_compute. done. Qed.

(** A threshold with the name of a checker hides its failure. *)
Theorem threshold_hides_checker :
  let t := mkThreshold 1000 0 0 0 0 in
  let m := (RegisterThreshold (with_checker true) "db" t).1 in
  let r := check_result m quiet_runtime ["db"] [("db", t)] (fun _ => false) (fun _ => Answered true) in
  Healthy r = false /\ Overall r = StatusHealthy /\ Message r = MsgPassed.
Proof. vm_compute. done. Qed.

(** When memory is over a threshold the message is replaced by that of the memory,
    which nothing sets. *)
Theorem memory_message_lost :
  let t := mkThreshold 0 500 0 0 0 in
  let m := (RegisterThreshold (with_checker true) "memory" t).1 in
  let r := check_result m quiet_runtime ["db"] [("memory", t)] (fun _ => false) (fun _ => Answered false) in
  Overall r = StatusUnhealthy /\ Message r = MsgEmpty.
Proof. vm_compute. done. Qed.

Lemma check_verdict_witness :
  walks (with_checker true) ["db"] [] (fun _ => false)
  /\ let r := check_result (with_checker true) quiet_runtime ["db"] [] (fun _ => false) (fun _ => Answered true) in
     (forall n, Checks r !! n = expected (with_checker true) quiet_runtime (fun _ => Answered true) n).
Proof.
  assert (walks (with_checker true) ["db"] [] (fun _ => false)) as Hw by (split; [by vm_compute|split; [by vm_compute|by left]]).
  split; [exact Hw|]. apply (check_verdict (with_checker true) quiet_runtime ["db"] [] (fun _ => false) (fun _ => Answered true) Hw).
Defined.
