(* ===== verification/Deployment.v ===== *)
(** * Deployment state machine (pkg/core/deployment.go)

    One deployed verticle: the handler of its event loop for the commands start,
    stop and undeploy.  What the verticle's own Start and Stop return, the state
    of the command's context and the clock are given per command; calls of the
    verticle and of the exit notifier are returned as a log. *)
From S2P Require Import Prelude.

Inductive DeploymentState : Type :=
| StatePending
| StateDeploying
| StateRunning
| StateStopping
| StateStopped
| StateFailed
| StateUndeployed.

#[export] Instance DeploymentState_eq_dec : EqDecision DeploymentState.
Proof. solve_decision. Defined.

Definition valid_from (from : DeploymentState) : list DeploymentState :=
  match from with
  | StatePending => [StateDeploying; StateFailed; StateUndeployed]
  | StateDeploying => [StateRunning; StateFailed]
  | StateRunning => [StateStopping]
  | StateStopping => [StateStopped]
  | StateStopped => [StateUndeployed]
  | StateFailed => [StateUndeployed]
  | StateUndeployed => []
  end.

Definition IsValidTransition (from to : DeploymentState) : bool :=
  if bool_decide (from = StateUndeployed) then false else bool_decide (to ∈ valid_from from).

Record StateTransition : Type := mkStateTransition {
  From : DeploymentState;
  To : DeploymentState;
  Timestamp : Z;
  Error : option Z
}.

Record Deployment : Type := mkDeployment {
  onExit : bool;                       (** an exit notifier is set *)
  state : DeploymentState;
  err : option Z;
  startTime : option Z;
  startDuration : Z;
  stateHistory : list StateTransition;
  exited : bool                        (** the event loop has returned *)
}.

(** Append, then keep the last ten. *)
Definition recordStateTransition (d : Deployment) (from to : DeploymentState) (e : option Z)
    (now : Z) : Deployment :=
  let h := stateHistory d ++ [mkStateTransition from to now e] in
  {| onExit := onExit d; state := state d; err := err d; startTime := startTime d;
     startDuration := startDuration d;
     stateHistory := if (10 <? length h)%nat then drop (length h - 10) h else h;
     exited := exited d |}.

Definition NewDeployment (notifier : bool) (now : Z) : Deployment :=
  let d := {| onExit := notifier; state := StatePending; err := None; startTime := None;
              startDuration := 0; stateHistory := []; exited := false |} in
  recordStateTransition d StatePending StatePending None now.

(** [failfast.If(false, ...)] panics. *)
Definition setState (d : Deployment) (newState : DeploymentState) (now : Z) : outcome Deployment :=
  if negb (IsValidTransition (state d) newState) then Panic
  else
    Ret (recordStateTransition
           {| onExit := onExit d; state := newState; err := err d; startTime := startTime d;
              startDuration := startDuration d; stateHistory := stateHistory d;
              exited := exited d |}
           (state d) newState None now).

Definition SetError (d : Deployment) (e : option Z) : Deployment :=
  {| onExit := onExit d; state := state d; err := e; startTime := startTime d;
     startDuration := startDuration d; stateHistory := stateHistory d; exited := exited d |}.

Definition set_start (d : Deployment) (t : option Z) (dur : Z) : Deployment :=
  {| onExit := onExit d; state := state d; err := err d; startTime := t;
     startDuration := dur; stateHistory := stateHistory d; exited := exited d |}.

Definition set_exited (d : Deployment) : Deployment :=
  {| onExit := onExit d; state := state d; err := err d; startTime := startTime d;
     startDuration := startDuration d; stateHistory := stateHistory d; exited := true |}.

(** Put the error into the last entry of the history. *)
Definition mark_last_error (d : Deployment) (e : Z) : Deployment :=
  {| onExit := onExit d; state := state d; err := err d; startTime := startTime d;
     startDuration := startDuration d;
     stateHistory :=
       match last (stateHistory d) with
       | Some t => take (length (stateHistory d) - 1) (stateHistory d)
                     ++ [mkStateTransition (From t) (To t) (Timestamp t) (Some e)]
       | None => []
       end;
     exited := exited d |}.

(** ** The handler *)

Inductive action : Type := ActStart | ActStop | ActUndeploy.

Record cmd : Type := mkCmd {
  act : action;
  ctx : ctx_status;              (** the command's context when it is taken *)
  start_result : option Z;       (** what [Verticle.Start] returns *)
  stop_result : option Z;        (** what [Verticle.Stop] returns *)
  clk : nat -> Z                 (** the clock readings of the handler, in order *)
}.

Inductive effect : Type :=
| CallStart
| CallStop
| Notify (s : DeploymentState) (e : option Z).

Inductive reply : Type :=
| ReplyNil
| ReplyCtx (c : ctx_status)
| ReplyInvalid (from : DeploymentState)
| ReplyErr (e : Z).

Definition reply_of (e : option Z) : reply :=
  match e with None => ReplyNil | Some e => ReplyErr e end.

Definition notify (d : Deployment) (s : DeploymentState) (e : option Z) : list effect :=
  if onExit d then [Notify s e] else [].

Definition do_start (d : Deployment) (c : cmd) : outcome (Deployment * list effect * reply) :=
  d ← setState d StateDeploying (clk c 0);
  let d := set_start d (Some (clk c 1)) (startDuration d) in
  let d := set_start d (Some (clk c 1)) (clk c 2 - clk c 1) in
  match start_result c with
  | Some e =>
      let d := SetError d (Some e) in
      d ← setState d StateFailed (clk c 3);
      let log := notify d StateFailed (Some e) in
      let d := mark_last_error d e in
      Ret (SetError d (Some e), CallStart :: log, ReplyErr e)
  | None =>
      d ← setState d StateRunning (clk c 3);
      Ret (d, [CallStart], ReplyNil)
  end.

(** Stopping, STOPPED and the notification: shared by stop and undeploy. *)
Definition do_stop (d : Deployment) (c : cmd) : outcome (Deployment * list effect) :=
  d ← setState d StateStopping (clk c 0);
  let d := match stop_result c with Some e => SetError d (Some e) | None => d end in
  d ← setState d StateStopped (clk c 1);
  Ret (d, CallStop :: notify d StateStopped (stop_result c)).

(** The final cleanup of undeploy. *)
Definition finish_undeploy (d : Deployment) (c : cmd) (log : list effect) :
    outcome (Deployment * list effect * reply) :=
  if negb (IsValidTransition (state d) StateUndeployed) then Ret (d, log, ReplyInvalid (state d))
  else
    d ← setState d StateUndeployed (clk c 2);
    Ret (set_exited d, log, ReplyNil).

Definition handle (d : Deployment) (c : cmd) : outcome (Deployment * list effect * reply) :=
  if ctx_done (ctx c) then Ret (d, [], ReplyCtx (ctx c))
  else
    match act c with
    | ActStart =>
        if negb (IsValidTransition (state d) StateDeploying) then Ret (d, [], ReplyInvalid (state d))
        else do_start d c
    | ActStop =>
        if negb (IsValidTransition (state d) StateStopping) then Ret (d, [], ReplyInvalid (state d))
        else
          '(d, log) ← do_stop d c; Ret (d, log, reply_of (stop_result c))
    | ActUndeploy =>
        match state d with
        | StateRunning => '(d, log) ← do_stop d c; finish_undeploy d c log
        | StateStopped | StateFailed => finish_undeploy d c []
        | StateUndeployed => Ret (set_exited d, [], ReplyNil)
        | _ => Ret (d, [], ReplyInvalid (state d))
        end
    end.

(** The event loop: it takes commands until it returns. *)
Fixpoint event_loop (d : Deployment) (cs : list cmd) : outcome (Deployment * list effect) :=
  match cs with
  | [] => Ret (d, [])
  | c :: cs =>
      if exited d then Ret (d, [])
      else
        '(d, log, _) ← handle d c;
        '(d, log') ← event_loop d cs;
        Ret (d, log ++ log')
  end.

(** ** The history *)

Definition follows (a b : StateTransition) : Prop := To a = From b.

(** The first entry records the initial state; every other is a transition of
    the table. *)
Definition valid_entry (t : StateTransition) : Prop :=
  (From t = StatePending /\ To t = StatePending) \/ IsValidTransition (From t) (To t) = true.

Definition history_ok (d : Deployment) : Prop :=
  chained follows (stateHistory d) /\ Forall valid_entry (stateHistory d) /\
  (length (stateHistory d) <= 10)%nat /\
  exists t, last (stateHistory d) = Some t /\ To t = state d.

(** The states a deployment is in between commands, with what has happened by
    then: the calls of the verticle and of the notifier so far. *)
Definition log_ok (d : Deployment) (log : list effect) : Prop :=
  match state d with
  | StatePending => log = []
  | StateRunning => log = [CallStart]
  | StateFailed => exists e, err d = Some e /\ log = CallStart :: notify d StateFailed (Some e)
  | StateStopped => exists e, log = CallStart :: CallStop :: notify d StateStopped e
  | StateUndeployed =>
      (exists e, log = CallStart :: notify d StateFailed (Some e)) \/
      (exists e, log = CallStart :: CallStop :: notify d StateStopped e)
  | StateDeploying | StateStopping => False
  end.

Definition deployment_ok (d : Deployment) (log : list effect) : Prop :=
  history_ok d /\ log_ok d log /\ (exited d = true -> state d = StateUndeployed).

(** A transition of the table does not panic and extends the history. *)
Lemma setState_ok d s now :
  history_ok d -> IsValidTransition (state d) s = true ->
  exists d', setState d s now = Ret d' /\ history_ok d' /\ state d' = s /\ err d' = err d /\
    onExit d' = onExit d /\ exited d' = exited d.
Proof.
  intros (Hc & Hv & Hl & t & Ht & HT) Hs. unfold setState. rewrite Hs. simpl.
  eexists. split; [reflexivity|]. split; [|done]. unfold history_ok; simpl.
  set (x := mkStateTransition _ _ _ _).
  assert (chained follows (stateHistory d ++ [x])).
  { apply chained_snoc; [done|]. intros y Hy. rewrite Ht in Hy. by injection Hy as <-. }
  assert (Forall valid_entry (stateHistory d ++ [x])).
  { apply Forall_app. split; [done|]. apply Forall_singleton. by right. }
  rewrite length_app. simpl. destruct (Nat.ltb_spec 10 (length (stateHistory d) + 1)).
  - split_and!; [by apply chained_drop|by apply Forall_drop| |].
    + rewrite length_drop, length_app. simpl. lia.
    + exists x. split; [|done]. rewrite drop_app_le by lia. by rewrite last_snoc.
  - split_and!; try done; [rewrite length_app; simpl; lia|]. exists x. by rewrite last_snoc.
Qed.

Lemma mark_last_error_ok d e : history_ok d -> history_ok (mark_last_error d e).
Proof.
  intros (Hc & Hv & Hl & t & Ht & HT). unfold history_ok, mark_last_error; simpl. rewrite Ht.
  apply last_Some in Ht as [h E]. rewrite E in *. rewrite length_app in *; simpl in *.
  replace (length h + 1 - 1)%nat with (length h) by lia. rewrite take_app_length.
  apply Forall_app in Hv as [Hv1 Hv2]. rewrite Forall_singleton in Hv2. split_and!.
  - apply chained_snoc; [by eapply chained_app_l|]. intros y Hy.
    exact (chained_last follows h t y Hc Hy).
  - apply Forall_app. split; [done|]. apply Forall_singleton. exact Hv2.
  - rewrite length_app; simpl. lia.
  - eexists. rewrite last_snoc. done.
Qed.

(** Step over a [setState] that is a transition of the table. *)
Ltac set_state d' Hh Hs He Ho Hx :=
  match goal with
  | |- context [setState ?d ?s ?now] =>
      destruct (setState_ok d s now) as (d' & -> & Hh & Hs & He & Ho & Hx);
        [| |cbn [mbind outcome_bind]]
  end.

Lemma do_start_ok d c :
  history_ok d -> state d = StatePending -> exited d = false ->
  exists d' log r, do_start d c = Ret (d', log, r) /\ deployment_ok d' log /\ exited d' = false.
Proof.
  intros Hh Hs Hx. unfold do_start. set_state d1 Hh1 Hs1 He1 Ho1 Hx1; [done|by rewrite Hs|].
  destruct (start_result c) as [e|]; set_state d2 Hh2 Hs2 He2 Ho2 Hx2;
    try exact Hh1; try (simpl; by rewrite Hs1); do 3 eexists; (split; [reflexivity|]); simpl in *.
  - assert (history_ok (mark_last_error d2 e)) as Hm by (by apply mark_last_error_ok).
    split; [|congruence]. split; [exact Hm|]. split; [|simpl; congruence].
    unfold log_ok; simpl. rewrite Hs2. by exists e.
  - split; [|congruence]. split; [done|]. split; [|congruence]. unfold log_ok. by rewrite Hs2.
Qed.

Lemma do_stop_ok d c :
  history_ok d -> state d = StateRunning ->
  exists d', do_stop d c = Ret (d', CallStop :: notify d' StateStopped (stop_result c)) /\
    history_ok d' /\ state d' = StateStopped /\ exited d' = exited d /\ onExit d' = onExit d.
Proof.
  intros Hh Hs. unfold do_stop. set_state d1 Hh1 Hs1 He1 Ho1 Hx1; [done|by rewrite Hs|].
  set (d2 := match stop_result c with Some e => SetError d1 (Some e) | None => d1 end).
  assert (history_ok d2 /\ state d2 = StateStopping /\ exited d2 = exited d /\ onExit d2 = onExit d)
    as (Hh2 & Hs2 & Hx2 & Ho2) by (unfold d2; destruct (stop_result c); done).
  set_state d3 Hh3 Hs3 He3 Ho3 Hx3; [done|by rewrite Hs2|]. exists d3. split; [done|].
  split_and!; congruence || done.
Qed.

Lemma finish_undeploy_ok d c log all :
  history_ok d -> state d = StateStopped \/ state d = StateFailed ->
  (exists e, all = CallStart :: notify d StateFailed (Some e)) \/
  (exists e, all = CallStart :: CallStop :: notify d StateStopped e) ->
  exists d' r, finish_undeploy d c log = Ret (d', log, r) /\ deployment_ok d' all.
Proof.
  intros Hh Hs Hall. unfold finish_undeploy.
  assert (IsValidTransition (state d) StateUndeployed = true) as Hv by (by destruct Hs as [-> | ->]).
  rewrite Hv. cbn [negb]. set_state d1 Hh1 Hs1 He1 Ho1 Hx1; [done|done|].
  do 2 eexists. split; [reflexivity|].
  split; [exact Hh1|]. split; [|done]. unfold log_ok; simpl. rewrite Hs1.
  unfold notify in *. simpl. by rewrite Ho1.
Qed.

(** Every command is handled without a panic and leaves a good deployment. *)
Lemma handle_ok d c log :
  deployment_ok d log -> exited d = false ->
  exists d' log' r, handle d c = Ret (d', log', r) /\ deployment_ok d' (log ++ log').
Proof.
  intros (Hh & Hl & Hx) Hex. unfold handle.
  assert (forall r : reply, exists d' log' r',
    Ret (d, [], r) = Ret (d', log', r') /\ deployment_ok d' (log ++ log')) as Hsame.
  { intros r. do 3 eexists. split; [reflexivity|]. rewrite app_nil_r. by split. }
  destruct (ctx_done (ctx c)); [apply Hsame|].
  destruct (act c).
  - destruct (IsValidTransition (state d) StateDeploying) eqn:Hv; [|apply Hsame].
    assert (state d = StatePending) as Hs by (destruct (state d); done).
    unfold log_ok in Hl. rewrite Hs in Hl. subst log.
    destruct (do_start_ok d c Hh Hs Hex) as (d' & log' & r & E & Hok & _). simpl. eauto.
  - destruct (IsValidTransition (state d) StateStopping) eqn:Hv; [|apply Hsame]. cbn [negb].
    assert (state d = StateRunning) as Hs by (destruct (state d); done).
    unfold log_ok in Hl. rewrite Hs in Hl. subst log.
    destruct (do_stop_ok d c Hh Hs) as (d' & E & Hh' & Hs' & Hx' & _). rewrite E.
    do 3 eexists. split; [reflexivity|]. split; [done|]. split; [|congruence].
    unfold log_ok. rewrite Hs'. by eexists.
  - unfold log_ok in Hl. destruct (state d) eqn:Hs; try (apply Hsame); try done.
    + destruct (do_stop_ok d c Hh Hs) as (d' & E & Hh' & Hs' & Hx' & Ho'). rewrite E.
      cbn [mbind outcome_bind]. subst log.
      destruct (finish_undeploy_ok d' c (CallStop :: notify d' StateStopped (stop_result c))
        (CallStart :: CallStop :: notify d' StateStopped (stop_result c)) Hh') as (d2 & r & E2 & Hok2);
        [by left|right; by eexists|]. eauto.
    + destruct Hl as [e ->].
      destruct (finish_undeploy_ok d c [] (CallStart :: CallStop :: notify d StateStopped e) Hh)
        as (d2 & r & E2 & Hok2); [by left|right; by eexists|].
      exists d2, [], r. rewrite app_nil_r. done.
    + destruct Hl as (e & _ & ->).
      destruct (finish_undeploy_ok d c [] (CallStart :: notify d StateFailed (Some e)) Hh)
        as (d2 & r & E2 & Hok2); [by right|left; by eexists|].
      exists d2, [], r. rewrite app_nil_r. done.
    + do 3 eexists. split; [reflexivity|]. rewrite app_nil_r. split; [exact Hh|].
      split; [|done]. unfold log_ok; simpl. by rewrite Hs.
Qed.

Lemma event_loop_ok cs d log :
  deployment_ok d log ->
  exists d' log', event_loop d cs = Ret (d', log') /\ deployment_ok d' (log ++ log').
Proof.
  revert d log. induction cs as [|c cs IH]; intros d log Hok; cbn [event_loop].
  { do 2 eexists. split; [reflexivity|]. by rewrite app_nil_r. }
  destruct (exited d) eqn:Hx.
  { do 2 eexists. split; [reflexivity|]. by rewrite app_nil_r. }
  destruct (handle_ok d c log Hok Hx) as (d1 & l1 & r & -> & Hok1). cbn [mbind outcome_bind].
  destruct (IH d1 (log ++ l1) Hok1) as (d2 & l2 & -> & Hok2). cbn [mbind outcome_bind].
  do 2 eexists. split; [reflexivity|]. by rewrite app_assoc.
Qed.

Lemma NewDeployment_ok n now : deployment_ok (NewDeployment n now) [].
Proof.
  split; [|done]. unfold history_ok; simpl. split_and!; try done.
  - apply Forall_singleton. by left.
  - lia.
  - by eexists.
Qed.

(** C30. Whatever commands arrive, in whatever order, and whatever the verticle does:
    the event loop never panics; between commands the deployment is never left
    deploying or stopping; the verticle's Start is called at most once, Stop at
    most once and only after a successful Start, the notifier exactly once on
    failing or stopping; and the history is a chain of allowed transitions of at
    most ten entries that ends in the current state. *)
Theorem deployment_lifecycle notifier now cs :
  exists d log, event_loop (NewDeployment notifier now) cs = Ret (d, log) /\ deployment_ok d log.
Proof. apply (event_loop_ok cs _ [] (NewDeployment_ok notifier now)). Qed.

(** ** Undeploying before the start *)

(** A deployment that was never started cannot be undeployed: the command is
    refused in PENDING, although the transition table allows it. *)
Theorem pending_cannot_undeploy notifier now cs :
  Forall (fun c => act c = ActUndeploy) cs ->
  IsValidTransition StatePending StateUndeployed = true /\
  exists d, event_loop (NewDeployment notifier now) cs = Ret (d, []) /\ state d = StatePending.
Proof.
  intros Hcs. split; [done|]. generalize (eq_refl : state (NewDeployment notifier now) = StatePending).
  generalize (eq_refl : exited (NewDeployment notifier now) = false).
  generalize (NewDeployment notifier now).
  induction Hcs as [|c cs Hc Hcs IH]; intros d Hx Hs; [by exists d|]. cbn [event_loop]. rewrite Hx.
  assert (exists r, handle d c = Ret (d, [], r)) as [r ->].
  { unfold handle. rewrite Hc, Hs. destruct (ctx_done (ctx c)); by eexists. }
  cbn [mbind outcome_bind]. destruct (IH d Hx Hs) as (d' & -> & Hs'). by exists d'.
Qed.

Lemma pending_cannot_undeploy_witness :
  exists d, event_loop (NewDeployment true 0)
    [mkCmd ActUndeploy CtxLive None None (fun _ => 1)] = Ret (d, []) /\ state d = StatePending.
Proof.
  apply (pending_cannot_undeploy true 0 [mkCmd ActUndeploy CtxLive None None (fun _ => 1)]).
  repeat constructor.
Defined.
