(* ===== verification/Supervisor.v ===== *)
(** * Supervisor (pkg/core/supervisor.go)

    The supervisor against an interface of the platform it runs on: deploying,
    undeploying and asking for a deployment's state.  The order in which Go
    iterates over the children is an argument, as are the clock readings. *)
From S2P Require Import Prelude Deployment.

Inductive RestartStrategy : Type :=
| RestartStrategyOneForOne
| RestartStrategyOneForAll
| RestartStrategyRestForOne
| RestartStrategyOther (s : string).

Inductive RestartType : Type :=
| RestartPermanent
| RestartTransient
| RestartTemporary
| RestartOther (s : string).

#[export] Instance RestartType_eq_dec : EqDecision RestartType.
Proof. solve_decision. Defined.

Record RestartConfig : Type := mkRestartConfig {
  MaxRestarts : Z;
  Within : Z
}.

Record ChildSpec : Type := mkChildSpec {
  ID : string;
  Restart : RestartType
}.

Record SupervisorSpec : Type := mkSupervisorSpec {
  Strategy : RestartStrategy;
  RConfig : RestartConfig;
  Children : list ChildSpec
}.

Record SupervisedChild : Type := mkSupervisedChild {
  Spec : ChildSpec;
  DeploymentID : string;
  ChildState : DeploymentState;
  StartIndex : Z
}.

(** What the supervisor uses of [GoCMD], and of the child's factory: the factory
    and [DeployVerticle] are one call here, with [None] for an error or a nil
    verticle. *)
Class GoCMD (G : Type) : Type := mkGoCMD {
  DeployVerticle : G -> string -> G * option string;
  UndeployVerticle : G -> string -> G;
  GetDeploymentState : G -> string -> option DeploymentState
}.

Record SupervisorVerticle : Type := mkSupervisor {
  spec : SupervisorSpec;
  children : gmap string SupervisedChild;
  restartCount : gmap string (list Z);
  monitoring : bool
}.

Definition NewSupervisor (s : SupervisorSpec) : SupervisorVerticle :=
  {| spec := s; children := ∅; restartCount := ∅; monitoring := false |}.

Definition set_children (sv : SupervisorVerticle) (cs : gmap string SupervisedChild) :
    SupervisorVerticle :=
  {| spec := spec sv; children := cs; restartCount := restartCount sv; monitoring := monitoring sv |}.

Definition set_monitoring (sv : SupervisorVerticle) (b : bool) : SupervisorVerticle :=
  {| spec := spec sv; children := children sv; restartCount := restartCount sv; monitoring := b |}.

(** ** Restart frequency *)

Definition restarts_of (sv : SupervisorVerticle) (childID : string) : list Z :=
  default [] (restartCount sv !! childID).

(** [t.After(now.Add(-Within))] *)
Definition recent (c : RestartConfig) (now t : Z) : bool := now - Within c <? t.

Definition canRestart (sv : SupervisorVerticle) (childID : string) (now : Z) : bool :=
  let config := RConfig (spec sv) in
  if MaxRestarts config =? 0 then true
  else
    let restarts := restarts_of sv childID in
    match restarts with
    | [] => true
    | _ => Z.of_nat (length (List.filter (recent config now) restarts)) <? MaxRestarts config
    end.

Definition recordRestart (sv : SupervisorVerticle) (childID : string) (now : Z) : SupervisorVerticle :=
  let restarts := restarts_of sv childID ++ [now] in
  {| spec := spec sv; children := children sv;
     restartCount := <[childID := List.filter (recent (RConfig (spec sv)) now) restarts]> (restartCount sv);
     monitoring := monitoring sv |}.

Section supervisor.
Context {G : Type} `{GoCMD G}.

(** ** Start and stop *)

(** [undeployChildren], in the order [ids] of the iteration. *)
Definition undeployChildren (sv : SupervisorVerticle) (g : G) (ids : list string) : G :=
  fold_left (fun g id =>
    match children sv !! id with
    | Some c => if bool_decide (DeploymentID c = EmptyString) then g else UndeployVerticle g (DeploymentID c)
    | None => g
    end) ids g.

(** The loop of [Start]: [i] is the index of the next child; the result is the
    supervisor, the platform and whether every child was deployed. *)
Fixpoint deploy_children (sv : SupervisorVerticle) (g : G) (i : Z) (specs : list ChildSpec) :
    SupervisorVerticle * G * bool :=
  match specs with
  | [] => (sv, g, true)
  | s :: specs =>
      match DeployVerticle g (ID s) with
      | (g, None) => (sv, g, false)
      | (g, Some d) =>
          let child := {| Spec := s; DeploymentID := d; ChildState := StatePending; StartIndex := i |} in
          deploy_children (set_children sv (<[ID s := child]> (children sv))) g (i + 1) specs
      end
  end.

(** [order] is the iteration order used if the start has to be undone. *)
Definition Start (sv : SupervisorVerticle) (g : G) (order : list string) :
    SupervisorVerticle * G * bool :=
  match deploy_children sv g 0 (Children (spec sv)) with
  | (sv, g, false) => (sv, undeployChildren sv g order, false)
  | (sv, g, true) => (set_monitoring sv true, g, true)
  end.

Definition Stop (sv : SupervisorVerticle) (g : G) (order : list string) : SupervisorVerticle * G :=
  let sv := set_monitoring sv false in (sv, undeployChildren sv g order).

(** ** Restarts *)

(** Undeploy and redeploy; a child that cannot be redeployed keeps its record. *)
Definition restartChild (sv : SupervisorVerticle) (g : G) (childID : string) : SupervisorVerticle * G :=
  match children sv !! childID with
  | None => (sv, g)
  | Some child =>
      let g := if bool_decide (DeploymentID child = EmptyString) then g
               else UndeployVerticle g (DeploymentID child) in
      match DeployVerticle g (ID (Spec child)) with
      | (g, None) => (sv, g)
      | (g, Some d) =>
          let child := {| Spec := Spec child; DeploymentID := d; ChildState := StatePending;
                          StartIndex := StartIndex child |} in
          (set_children sv (<[childID := child]> (children sv)), g)
      end
  end.

(** The children to restart, in the iteration order [order] of the map. *)
Definition childrenToRestart (sv : SupervisorVerticle) (failedID : string) (child : SupervisedChild)
    (order : list string) : list string :=
  match Strategy (spec sv) with
  | RestartStrategyOneForOne => [failedID]
  | RestartStrategyOneForAll => order
  | RestartStrategyRestForOne =>
      List.filter (fun id =>
        match children sv !! id with
        | Some c => StartIndex child <=? StartIndex c
        | None => false
        end) order
  | RestartStrategyOther _ => []
  end.

(** [now1] is the clock of [canRestart], [now2] that of [recordRestart]. *)
Definition handleChildFailure (sv : SupervisorVerticle) (g : G) (failedID : string)
    (order : list string) (now1 now2 : Z) : SupervisorVerticle * G * list string :=
  match children sv !! failedID with
  | None => (sv, g, [])
  | Some child =>
      if negb (canRestart sv failedID now1) then (set_monitoring sv false, g, [])
      else
        let sv := recordRestart sv failedID now2 in
        let ids := childrenToRestart sv failedID child order in
        let '(sv, g) := fold_left (fun s id => restartChild s.1 s.2 id) ids (sv, g) in
        (sv, g, ids)
  end.

Definition getChildState (g : G) (deploymentID : string) : DeploymentState :=
  match GetDeploymentState g deploymentID with
  | Some s => s
  | None => StateFailed
  end.

(** The first loop of [checkChildren]: refresh the states, collect the failures. *)
Fixpoint collect_failed (sv : SupervisorVerticle) (g : G) (order : list string) :
    SupervisorVerticle * list string :=
  match order with
  | [] => (sv, [])
  | id :: order =>
      match children sv !! id with
      | None => collect_failed sv g order
      | Some child =>
          let s := getChildState g (DeploymentID child) in
          let child' := {| Spec := Spec child; DeploymentID := DeploymentID child; ChildState := s;
                           StartIndex := StartIndex child |} in
          let sv := set_children sv (<[id := child']> (children sv)) in
          let '(sv, failed) := collect_failed sv g order in
          (sv, if bool_decide (s = StateFailed) && negb (bool_decide (Restart (Spec child) = RestartTemporary))
               then id :: failed else failed)
      end
  end.

(** The second loop; each failure is handled with its own clocks and order. *)
Fixpoint handle_failures (sv : SupervisorVerticle) (g : G) (failed : list string)
    (obs : list (list string * Z * Z)) : SupervisorVerticle * G * list (list string) :=
  match failed, obs with
  | id :: failed, (order, now1, now2) :: obs =>
      let '(sv, g, ids) := handleChildFailure sv g id order now1 now2 in
      let '(sv, g, rest) := handle_failures sv g failed obs in
      (sv, g, ids :: rest)
  | _, _ => (sv, g, [])
  end.

Definition checkChildren (sv : SupervisorVerticle) (g : G) (order : list string)
    (obs : list (list string * Z * Z)) : SupervisorVerticle * G * list (list string) :=
  if negb (monitoring sv) then (sv, g, [])
  else
    let '(sv, failed) := collect_failed sv g order in
    handle_failures sv g failed obs.
End supervisor.

(** ** Restart intensity *)

(** A platform that also writes down the children it is asked to deploy. *)
Definition recorder {G} (P : GoCMD G) : GoCMD (G * list string) :=
  {| DeployVerticle := fun '(g, asked) id =>
       let '(g', r) := DeployVerticle g id in ((g', asked ++ [id]), r);
     UndeployVerticle := fun '(g, asked) d => (UndeployVerticle g d, asked);
     GetDeploymentState := fun '(g, _) d => GetDeploymentState g d |}.

(** A failure: the child, the platform as it is then, the iteration order of the
    children, the two clock readings. *)
Record failure (G : Type) : Type := mkFailure {
  failed : string;
  world : G;
  order : list string;
  at1 : Z;
  at2 : Z
}.
Arguments mkFailure {G}.
Arguments failed {G}.
Arguments world {G}.
Arguments order {G}.
Arguments at1 {G}.
Arguments at2 {G}.

(** A deployment asked for: the failure it answers, the child, the time. *)
Record redeployment : Type := mkRedeployment {
  cause : string;
  child_of : string;
  when : Z
}.

Section intensity.
Context {G : Type} {P : GoCMD G}.

(** Handle failures one after the other and log what the platform is asked to
    deploy meanwhile. *)
Fixpoint handle_seq (sv : SupervisorVerticle) (fs : list (failure G)) :
    SupervisorVerticle * list redeployment :=
  match fs with
  | [] => (sv, [])
  | f :: fs =>
      let '(sv, (_, asked), _) :=
        @handleChildFailure _ (recorder P) sv (world f, []) (failed f) (order f) (at1 f) (at2 f) in
      let '(sv, log) := handle_seq sv fs in
      (sv, map (fun id => mkRedeployment (failed f) id (at2 f)) asked ++ log)
  end.

(** The clock never goes back. *)
Fixpoint clocked (last : Z) (fs : list (failure G)) : Prop :=
  match fs with
  | [] => True
  | f :: fs => last <= at1 f <= at2 f /\ clocked (at2 f) fs
  end.

Definition times (id : string) (log : list (string * Z)) : list Z :=
  map snd (List.filter (fun e => bool_decide (e.1 = id)) log).

Definition in_window (c : RestartConfig) (w t : Z) : bool := (w - Within c <? t) && (t <=? w).

Lemma filter_filter_impl {A} (p q : A -> bool) l :
  (forall x, p x = true -> q x = true) -> List.filter p (List.filter q l) = List.filter p l.
Proof.
  intros Hpq. induction l as [|x l IH]; [done|]. simpl. specialize (Hpq x).
  destruct (q x); simpl; rewrite IH; [done|]. destruct (p x); [by specialize (Hpq eq_refl)|done].
Qed.

Lemma length_filter_impl {A} (p q : A -> bool) l :
  (forall x, p x = true -> q x = true) ->
  (length (List.filter p l) <= length (List.filter q l))%nat.
Proof.
  intros Hpq. induction l as [|x l IH]; [done|]. simpl. specialize (Hpq x).
  destruct (p x), (q x); simpl; lia.
Qed.

Lemma times_snoc id log e :
  times id (log ++ [e]) = times id log ++ (if bool_decide (e.1 = id) then [e.2] else []).
Proof. unfold times. rewrite List.filter_app, map_app. simpl. by case_bool_decide. Qed.

(** The redeployments of a child in the window that ends at [w], all of them and
    those one cause asked for. *)
Definition redeployed (c : RestartConfig) (w : Z) (id : string) (log : list redeployment) : Z :=
  Z.of_nat (length (List.filter (fun e => bool_decide (child_of e = id) && in_window c w (when e)) log)).

Definition redeployed_by (c : RestartConfig) (w : Z) (by_ id : string) (log : list redeployment) : Z :=
  redeployed c w id (List.filter (fun e => bool_decide (cause e = by_)) log).

(** Children are kept under their own names. *)
Definition well_keyed (sv : SupervisorVerticle) : Prop :=
  forall id c, children sv !! id = Some c -> ID (Spec c) = id.

(** A restart asks for the child and changes nothing else. *)
Lemma restartChild_asks sv g asked id :
  well_keyed sv ->
  let '(sv', (_, asked')) := @restartChild _ (recorder P) sv (g, asked) id in
  spec sv' = spec sv /\ restartCount sv' = restartCount sv /\ well_keyed sv' /\
  dom (children sv') = dom (children sv) /\
  asked' = asked ++ (if decide (id ∈ dom (children sv)) then [id] else []).
Proof.
  intros Hk. unfold restartChild. destruct (children sv !! id) as [c|] eqn:Hc.
  2: { rewrite decide_False, app_nil_r by (by apply not_elem_of_dom). done. }
  rewrite decide_True by (by apply elem_of_dom). pose proof (Hk _ _ Hc) as Hid.
  match goal with |- context [@DeployVerticle _ _ (if ?b then ?x else ?y) _] =>
    assert (exists g1, (if b then x else y) = (g1, asked)) as [g1 ->] by (case_match; by eauto) end.
  simpl. destruct (DeployVerticle g1 (ID (Spec c))) as [g2 [d|]]; rewrite Hid; [|done].
  simpl. split_and!; try done.
  - intros id' c'. simpl. rewrite lookup_insert_Some. intros [[<- <-]|[? ?]]; [done|by apply Hk].
  - rewrite dom_insert_L. apply elem_of_dom_2 in Hc. set_solver.
Qed.

Lemma restart_fold_asks ids sv g asked :
  well_keyed sv -> NoDup ids ->
  let '(sv', (_, asked')) :=
    fold_left (fun s id => @restartChild _ (recorder P) s.1 s.2 id) ids (sv, (g, asked)) in
  spec sv' = spec sv /\ restartCount sv' = restartCount sv /\ well_keyed sv' /\
  dom (children sv') = dom (children sv) /\
  exists new, asked' = asked ++ new /\ NoDup new /\ new ⊆ ids.
Proof.
  revert sv g asked. induction ids as [|id ids IH]; intros sv g asked Hk Hnd; cbn [fold_left fst snd].
  { split_and!; try done. exists []. rewrite app_nil_r. split_and!; [done|constructor|done]. }
  apply NoDup_cons in Hnd as [Hni Hnd]. pose proof (restartChild_asks sv g asked id Hk) as H1.
  destruct (restartChild sv (g, asked) id) as [sv1 [g1 asked1]]. destruct H1 as (E1 & E2 & Hk1 & E3 & ->).
  specialize (IH sv1 g1 (asked ++ (if decide (id ∈ dom (children sv)) then [id] else [])) Hk1 Hnd).
  destruct (fold_left _ ids _) as [sv2 [g2 asked2]]. destruct IH as (F1 & F2 & Hk2 & F3 & new & -> & Hn & Hs).
  split_and!; try done; try congruence.
  exists ((if decide (id ∈ dom (children sv)) then [id] else []) ++ new). split_and!.
  - by rewrite app_assoc.
  - case_decide; [|done]. simpl. constructor; [|done]. intros Hin. by apply Hni, Hs.
  - case_decide; simpl; set_solver.
Qed.

Lemma childrenToRestart_NoDup sv id c o : NoDup o -> NoDup (childrenToRestart sv id c o).
Proof.
  intros Ho. unfold childrenToRestart. destruct (Strategy (spec sv)); try done.
  - by apply NoDup_singleton.
  - by apply NoDup_ListNoDup, List.NoDup_filter, NoDup_ListNoDup.
  - constructor.
Qed.

(** What the supervisor remembers of the restarts granted so far, and their bound. *)
Definition intensity_inv (c : RestartConfig) (sv : SupervisorVerticle) (past : list (string * Z))
    (last : Z) : Prop :=
  RConfig (spec sv) = c /\
  (forall id now, last <= now ->
     List.filter (recent c now) (restarts_of sv id) = List.filter (recent c now) (times id past)) /\
  (forall id w, Z.of_nat (length (List.filter (in_window c w) (times id past))) <= MaxRestarts c).

Lemma canRestart_count c sv id now past last :
  0 < MaxRestarts c -> intensity_inv c sv past last -> last <= now -> canRestart sv id now = true ->
  Z.of_nat (length (List.filter (recent c now) (times id past))) < MaxRestarts c.
Proof.
  intros Hmax (Hc & Hr & _) Hnow Hcan. unfold canRestart in Hcan. rewrite Hc in Hcan.
  destruct (Z.eqb_spec (MaxRestarts c) 0); [lia|]. rewrite <- Hr by done.
  destruct (restarts_of sv id) as [|x l]; [simpl; lia|]. by apply Z.ltb_lt.
Qed.

Lemma granted_inv c sv id now1 now2 past last sv' :
  0 < MaxRestarts c -> intensity_inv c sv past last -> last <= now1 <= now2 ->
  canRestart sv id now1 = true ->
  spec sv' = spec sv -> restartCount sv' = restartCount (recordRestart sv id now2) ->
  intensity_inv c sv' (past ++ [(id, now2)]) now2.
Proof.
  intros Hmax Hinv Hnow Hcan Es Er.
  pose proof (canRestart_count c sv id now1 past last Hmax Hinv ltac:(lia) Hcan) as Hcount.
  destruct Hinv as (Hc & Hr & Hb). split; [by rewrite Es|]. split.
  - intros id' now Hge. rewrite times_snoc. simpl. unfold restarts_of. rewrite Er. simpl. rewrite Hc.
    case_bool_decide as Hid; [subst id'|].
    + rewrite lookup_insert_eq. simpl.
      rewrite filter_filter_impl.
      2:{ intros x. unfold recent. rewrite !Z.ltb_lt. lia. }
      rewrite !List.filter_app. f_equal. apply Hr. lia.
    + rewrite lookup_insert_ne by done. rewrite app_nil_r. apply Hr. lia.
  - intros id' w. rewrite times_snoc. simpl. case_bool_decide as Hid; [subst id'|by rewrite app_nil_r].
    rewrite List.filter_app, length_app.
    destruct (in_window c w now2) eqn:Hw; simpl; rewrite Hw; simpl.
    + assert (now2 <= w) by (unfold in_window in Hw; apply andb_prop in Hw as [_ Hw%Z.leb_le]; lia).
      pose proof (length_filter_impl (in_window c w) (recent c now1) (times id past)) as Hle.
      assert (length (List.filter (in_window c w) (times id past)) <=
              length (List.filter (recent c now1) (times id past)))%nat.
      { apply Hle. intros x. unfold in_window, recent. rewrite andb_true_iff, !Z.ltb_lt. lia. }
      lia.
    + specialize (Hb id w). lia.
Qed.

(** What one failure leads to: nothing is asked of the platform, or the restart
    was granted and recorded and every child is asked for at most once. *)
Lemma handle_asks sv f :
  well_keyed sv -> NoDup (order f) ->
  let '(sv', (_, asked), _) :=
    @handleChildFailure _ (recorder P) sv (world f, []) (failed f) (order f) (at1 f) (at2 f) in
  spec sv' = spec sv /\ well_keyed sv' /\ dom (children sv') = dom (children sv) /\
  ((asked = [] /\ restartCount sv' = restartCount sv) \/
   (failed f ∈ dom (children sv) /\ canRestart sv (failed f) (at1 f) = true /\
    restartCount sv' = restartCount (recordRestart sv (failed f) (at2 f)) /\ NoDup asked /\
    (Strategy (spec sv) = RestartStrategyOneForOne -> asked ⊆ [failed f]))).
Proof.
  intros Hk Ho. unfold handleChildFailure.
  destruct (children sv !! failed f) as [c|] eqn:Hc; [|split_and!; auto].
  destruct (canRestart sv (failed f) (at1 f)) eqn:Hcan; cbn [negb]; [|split_and!; auto].
  set (sv0 := recordRestart sv (failed f) (at2 f)).
  set (ids := childrenToRestart sv0 (failed f) c (order f)).
  pose proof (restart_fold_asks ids sv0 (world f) [] Hk (childrenToRestart_NoDup _ _ _ _ Ho)) as H1.
  destruct (fold_left _ ids _) as [sv1 [g1 asked]].
  destruct H1 as (E1 & E2 & Hk1 & E3 & new & -> & Hn & Hs). simpl. split_and!; try done. right.
  split_and!; try done; [by apply elem_of_dom_2 in Hc|].
  intros Est. unfold ids, childrenToRestart in Hs. change (spec sv0) with (spec sv) in Hs. by rewrite Est in Hs.
Qed.

(** In a log of redeployments, those of one failure. *)
Lemma redeployed_app c w id l1 l2 : redeployed c w id (l1 ++ l2) = redeployed c w id l1 + redeployed c w id l2.
Proof. unfold redeployed. rewrite List.filter_app, length_app. lia. Qed.

Lemma redeployed_cons c w id e l :
  redeployed c w id (e :: l) =
  Z.b2z (bool_decide (child_of e = id) && in_window c w (when e)) + redeployed c w id l.
Proof. unfold redeployed. simpl. case_match; simpl; lia. Qed.

Lemma redeployed_once c w id by_ t asked :
  NoDup asked ->
  redeployed c w id (map (fun id => mkRedeployment by_ id t) asked) <= Z.b2z (in_window c w t).
Proof.
  intros Hnd. unfold redeployed. destruct (in_window c w t) eqn:Hw.
  - induction Hnd as [|x l Hx Hnd IH]; [simpl; lia|]. simpl. rewrite Hw. case_bool_decide as E; simpl in *; [|lia].
    subst x. assert (List.filter (fun e => bool_decide (child_of e = id) && in_window c w (when e))
      (map (fun id => mkRedeployment by_ id t) l) = []) as ->; [|simpl; lia].
    clear -Hx. induction l as [|y l IH]; [done|]. simpl. apply not_elem_of_cons in Hx as [? ?].
    rewrite bool_decide_eq_false_2 by congruence. by apply IH.
  - induction asked as [|x l IH]; [done|]. simpl. rewrite Hw, andb_false_r. apply IH. by inversion_clear Hnd.
Qed.

Lemma redeployed_by_app c w b id l1 l2 :
  redeployed_by c w b id (l1 ++ l2) = redeployed_by c w b id l1 + redeployed_by c w b id l2.
Proof. unfold redeployed_by. by rewrite List.filter_app, redeployed_app. Qed.

Lemma redeployed_by_map c w b id by_ t asked :
  redeployed_by c w b id (map (fun id => mkRedeployment by_ id t) asked) =
  if bool_decide (by_ = b) then redeployed c w id (map (fun id => mkRedeployment by_ id t) asked) else 0.
Proof.
  unfold redeployed_by. case_bool_decide as E.
  - f_equal. induction asked as [|x l IH]; [done|]. simpl. rewrite bool_decide_eq_true_2 by done. by rewrite IH.
  - induction asked as [|x l IH]; [done|]. simpl. by rewrite bool_decide_eq_false_2 by done.
Qed.

(** The log is bounded by the restarts granted, which are bounded by the limit. *)
Definition log_ok (c : RestartConfig) (sv : SupervisorVerticle) (log : list redeployment)
    (grants : list (string * Z)) : Prop :=
  (forall w b id, redeployed_by c w b id log <=
     Z.of_nat (length (List.filter (in_window c w) (times b grants)))) /\
  Forall (fun e => cause e ∈ dom (children sv)) log /\
  (Strategy (spec sv) = RestartStrategyOneForOne -> Forall (fun e => child_of e = cause e) log).

Lemma times_cons b x t l : times b ((x, t) :: l) = (if bool_decide (x = b) then [t] else []) ++ times b l.
Proof. unfold times. simpl. by case_bool_decide. Qed.

Lemma log_ok_cons c sv sv1 f asked log grants :
  spec sv1 = spec sv -> dom (children sv1) = dom (children sv) ->
  failed f ∈ dom (children sv) -> NoDup asked ->
  (Strategy (spec sv) = RestartStrategyOneForOne -> asked ⊆ [failed f]) ->
  log_ok c sv1 log grants ->
  log_ok c sv (map (fun id => mkRedeployment (failed f) id (at2 f)) asked ++ log)
    ((@failed G f, at2 f) :: grants).
Proof.
  intros Es Ed Hf Hnd Hone (Hb & Hc & Hch). split_and!.
  - intros w b id. rewrite redeployed_by_app, redeployed_by_map, times_cons, List.filter_app, length_app.
    specialize (Hb w b id). pose proof (redeployed_once c w id (failed f) (at2 f) asked Hnd).
    case_bool_decide; simpl; [|lia]. destruct (in_window c w (at2 f)); simpl in *; lia.
  - apply Forall_app. split; [by apply Forall_map, Forall_true|]. by rewrite <- Ed.
  - intros E. apply Forall_app. split; [|apply Hch; by rewrite Es].
    apply Forall_map, Forall_forall. intros x Hx. simpl. specialize (Hone E). set_solver.
Qed.

Lemma handle_seq_inv c fs sv past last :
  0 < MaxRestarts c -> intensity_inv c sv past last -> clocked last fs -> well_keyed sv ->
  Forall (fun f => NoDup (order f)) fs ->
  let '(sv', log) := handle_seq sv fs in
  exists grants last', intensity_inv c sv' (past ++ grants) last' /\ log_ok c sv log grants.
Proof.
  intros Hmax. revert sv past last. induction fs as [|f fs IH]; intros sv past last Hinv Hcl Hk Ho.
  { exists [], last. rewrite app_nil_r. split; [done|]. split_and!; [intros; done|constructor|constructor]. }
  destruct Hcl as [Hnow Hcl]. apply Forall_cons in Ho as [Hof Ho]. cbn [handle_seq].
  pose proof (handle_asks sv f Hk Hof) as Hf.
  destruct (handleChildFailure sv _ _ _ _ _) as [[sv1 [g1 asked]] ids].
  destruct Hf as (Es & Hk1 & Ed & [(-> & Er)|(Hin & Hcan & Er & Hnd & Hone)]).
  - assert (intensity_inv c sv1 past (at2 f)) as Hlater.
    { destruct Hinv as (? & Hr & ?). split; [by rewrite Es|]. split; [|done].
      intros. unfold restarts_of. rewrite Er. apply Hr. lia. }
    specialize (IH sv1 past (at2 f) Hlater Hcl Hk1 Ho). destruct (handle_seq sv1 fs) as [sv2 log].
    destruct IH as (grants & last' & H1 & H2 & H3 & H4). exists grants, last'. split; [done|].
    split_and!; [done|by rewrite <- Ed|by rewrite <- Es].
  - assert (intensity_inv c sv1 (past ++ [(failed f, at2 f)]) (at2 f)) as Hinv1
      by (by eapply (granted_inv c sv (failed f) (at1 f) (at2 f) past last)).
    specialize (IH sv1 _ (at2 f) Hinv1 Hcl Hk1 Ho). destruct (handle_seq sv1 fs) as [sv2 log].
    destruct IH as (grants & last' & H1 & H2). exists ((failed f, at2 f) :: grants), last'.
    rewrite <- app_assoc in H1. split; [done|]. by apply (log_ok_cons c sv sv1).
Qed.

(** Summed over the causes. *)
Lemma redeployed_sum c w id M : forall (L : list string) log,
  Forall (fun e => cause e ∈ L) log -> (forall b, redeployed_by c w b id log <= M) ->
  redeployed c w id log <= M * Z.of_nat (length L).
Proof.
  induction L as [|b L IH]; intros log HL HM.
  - destruct log as [|e log]; [unfold redeployed; simpl; lia|]. apply Forall_cons in HL as [HL _]. set_solver.
  - set (rest := List.filter (fun e => negb (bool_decide (cause e = b))) log).
    assert (redeployed c w id log = redeployed_by c w b id log + redeployed c w id rest) as ->.
    { unfold rest, redeployed_by. clear. induction log as [|e log IH]; [done|].
      rewrite redeployed_cons, IH. simpl.
      destruct (bool_decide (cause e = b)); simpl; rewrite redeployed_cons; lia. }
    assert (forall b', redeployed_by c w b' id rest <= redeployed_by c w b' id log) as Hle.
    { intros b'. unfold rest, redeployed_by, redeployed. apply inj_le.
      clear. induction log as [|e log IH]; [done|]. simpl. repeat (case_bool_decide; simpl); try case_match; simpl; lia. }
    specialize (HM b) as Hb. cbn [length]. rewrite Nat2Z.inj_succ.
    specialize (IH rest). assert (redeployed c w id rest <= M * Z.of_nat (length L)); [|lia]. apply IH.
    + apply Forall_forall. intros e He. unfold rest in He. rewrite list_elem_of_In, filter_In, <- list_elem_of_In in He.
      destruct He as [He Hn]. rewrite Forall_forall in HL. specialize (HL e He).
      apply negb_true_iff, bool_decide_eq_false in Hn. set_solver.
    + intros b'. etrans; [apply Hle|done].
Qed.

Lemma Start_keeps specs sv (g : G) i sv' g' ok :
  deploy_children sv g i specs = (sv', g', ok) -> well_keyed sv ->
  spec sv' = spec sv /\ restartCount sv' = restartCount sv /\ well_keyed sv'.
Proof.
  revert sv g i. induction specs as [|s specs IH]; intros sv g i E Hk; cbn [deploy_children] in E; [by simplify_eq|].
  destruct (DeployVerticle g (ID s)) as [g1 [d|]]; [|by simplify_eq].
  apply IH in E; [done|]. intros id c. simpl. rewrite lookup_insert_Some. intros [[<- <-]|[? ?]]; [done|by apply Hk].
Qed.
End intensity.


(** A platform for examples: it counts the deployments, names them after the
    child, and everything runs. *)
#[local] Instance simple_platform : GoCMD nat :=
  {| DeployVerticle := fun n child => (S n, Some child);
     UndeployVerticle := fun n _ => n;
     GetDeploymentState := fun _ _ => Some StateRunning |}.

Definition demo_spec (st : RestartStrategy) : SupervisorSpec :=
  {| Strategy := st; RConfig := {| MaxRestarts := 2; Within := 100 |};
     Children := [mkChildSpec "db" RestartPermanent; mkChildSpec "cache" RestartTemporary;
                  mkChildSpec "web" RestartTransient] |}.

Definition demo_supervisor (st : RestartStrategy) : SupervisorVerticle :=
  (Start (NewSupervisor (demo_spec st)) 0%nat []).1.1.

Definition demo_failures : list (failure nat) :=
  [mkFailure "db" 3%nat [] 1 2; mkFailure "db" 4%nat [] 3 4; mkFailure "db" 5%nat [] 5 6].


(** ** Strategies *)

Section strategies.
Context {G : Type} `{GoCMD G}.

(** The children after the loop of [Start]: each spec at its own position. *)
Lemma deploy_children_spec specs sv (g : G) i sv' g' :
  deploy_children sv g i specs = (sv', g', true) ->
  NoDup (ID <$> specs) -> (forall s, s ∈ specs -> children sv !! ID s = None) ->
  spec sv' = spec sv /\ restartCount sv' = restartCount sv /\
  (forall id, id ∉ (ID <$> specs) -> children sv' !! id = children sv !! id) /\
  (forall k s, specs !! k = Some s -> exists c, children sv' !! ID s = Some c /\
     Spec c = s /\ StartIndex c = i + Z.of_nat k).
Proof.
  revert sv g i. induction specs as [|s specs IH]; intros sv g i E Hnd Hfresh; cbn [deploy_children] in E.
  { simplify_eq. split_and!; done. }
  destruct (DeployVerticle g (ID s)) as [g1 [d|]]; [|done].
  rewrite fmap_cons in Hnd. apply NoDup_cons in Hnd as [Hns Hnd].
  destruct (IH _ _ _ E Hnd) as (E1 & E2 & E3 & E4).
  { intros t Ht. simpl. rewrite lookup_insert_ne; [apply Hfresh; by right|].
    intros Heq. apply Hns. rewrite Heq. by apply list_elem_of_fmap_2. }
  split_and!; try done.
  - intros id Hid. rewrite fmap_cons, not_elem_of_cons in Hid. destruct Hid as [Hid1 Hid2].
    rewrite E3 by done. simpl. by rewrite lookup_insert_ne by done.
  - intros [|k] t Hk; simpl in Hk.
    + simplify_eq. rewrite E3 by done. simpl. rewrite lookup_insert_eq. eexists. split; [done|].
      simpl. split; [done|lia].
    + destruct (E4 k t Hk) as (c & ? & ? & ?). exists c. split_and!; try done. lia.
Qed.

Lemma Start_children sv (g : G) order sv' g' :
  Start sv g order = (sv', g', true) -> children sv = ∅ ->
  NoDup (ID <$> Children (spec sv)) ->
  spec sv' = spec sv /\
  (forall k s, Children (spec sv) !! k = Some s -> exists c, children sv' !! ID s = Some c /\
     Spec c = s /\ StartIndex c = Z.of_nat k).
Proof.
  unfold Start. destruct (deploy_children sv g 0 (Children (spec sv))) as [[sv1 g1] []] eqn:E; [|done].
  intros Heq Hc Hnd. simplify_eq.
  destruct (deploy_children_spec _ _ _ _ _ _ E Hnd) as (E1 & _ & _ & E4).
  { intros. by rewrite Hc, lookup_empty. }
  split; [done|]. intros k s Hk. destruct (E4 k s Hk) as (c & ? & ? & ?). by exists c.
Qed.

End strategies.

(** A predicate that holds from position [k] on selects the suffix. *)
Lemma filter_suffix {A} (p : A -> bool) l k :
  (forall i x, l !! i = Some x -> p x = bool_decide (k <= i)%nat) -> List.filter p l = drop k l.
Proof.
  revert k. induction l as [|x l IH]; intros k Hp; [by rewrite drop_nil|]. simpl.
  rewrite (Hp 0%nat x eq_refl). destruct k as [|k].
  - simpl. f_equal. rewrite (IH 0%nat); [by rewrite drop_0|].
    intros i y Hi. by apply (Hp (S i)).
  - rewrite bool_decide_eq_false_2 by lia. simpl. apply IH. intros i y Hi.
    rewrite (Hp (S i) y Hi). apply bool_decide_ext. lia.
Qed.

Lemma filter_perm {A} (p : A -> bool) l l' : l ≡ₚ l' -> List.filter p l ≡ₚ List.filter p l'.
Proof.
  induction 1 as [|x l l' _ IH|x y l|l l' l'' _ IH1 _ IH2]; simpl; try done.
  - destruct (p x); [by constructor|done].
  - destruct (p x), (p y); try done. by constructor.
  - by rewrite IH1.
Qed.

(** The restarts a strategy asks for when the child at position [k] fails. *)
Definition expected_restarts (s : SupervisorSpec) (k : nat) : list string :=
  let ids := ID <$> Children s in
  match Strategy s with
  | RestartStrategyOneForOne => take 1 (drop k ids)
  | RestartStrategyOneForAll => ids
  | RestartStrategyRestForOne => drop k ids
  | RestartStrategyOther _ => []
  end.

(** When the child at position k of the specification fails for the first time
    after a successful Start, the supervisor restarts exactly the children its
    strategy names: that child, all of them, or that child and those started
    after it. *)
Theorem strategy_restarts_exactly {G} `{GoCMD G} s (g g1 g2 : G) o sv k cs order n1 n2 :
  NoDup (ID <$> Children s) -> Start (NewSupervisor s) g o = (sv, g1, true) ->
  Children s !! k = Some cs -> order ≡ₚ (ID <$> Children s) ->
  (handleChildFailure sv g2 (ID cs) order n1 n2).2 ≡ₚ expected_restarts s k.
Proof.
  intros Hnd Hstart Hk Hord.
  destruct (Start_children _ _ _ _ _ Hstart eq_refl Hnd) as (Es & Hch). simpl in Es, Hch.
  destruct (Hch k cs Hk) as (c & Hc & _ & Hi). unfold handleChildFailure. rewrite Hc.
  assert (restartCount sv = ∅) as Hrc.
  { unfold Start in Hstart. destruct (deploy_children _ g 0 _) as [[sv1 g3] []] eqn:E; [|done].
    simplify_eq. simpl. eapply deploy_children_spec in E as (_ & -> & _); try done. }
  assert (canRestart sv (ID cs) n1 = true) as ->.
  { unfold canRestart, restarts_of. rewrite Hrc, lookup_empty. simpl. by zcase. }
  cbn [negb]. destruct (fold_left _ _ _) as [sv' g']. unfold childrenToRestart, expected_restarts. simpl.
  rewrite Es. destruct (Strategy s); simpl; try done.
  - assert ((ID <$> Children s) !! k = Some (ID cs)) as Hid by (by rewrite list_lookup_fmap, Hk).
    by rewrite (drop_S _ _ _ Hid).
  - rewrite (filter_perm _ _ _ Hord). erewrite filter_suffix; [done|]. cbv beta.
    intros i x Hx. rewrite list_lookup_fmap in Hx. destruct (Children s !! i) as [t|] eqn:Ht; [|done].
    injection Hx as <-. destruct (Hch i t Ht) as (ct & -> & _ & ->). rewrite Hi.
    case_bool_decide; [apply Z.leb_le; lia|apply Z.leb_gt; lia].
Qed.

Lemma strategy_restarts_exactly_witness :
  exists sv, Start (NewSupervisor (demo_spec RestartStrategyRestForOne)) 0%nat [] = (sv, 3%nat, true) /\
    (handleChildFailure sv 3%nat "cache" ["web"; "db"; "cache"]%string 1 2).2 ≡ₚ ["cache"; "web"]%string.
Proof.
  eexists. split; [vm_compute; reflexivity|].
  apply (strategy_restarts_exactly (demo_spec RestartStrategyRestForOne) 0%nat 3%nat 3%nat [] _ 1%nat
    (mkChildSpec "cache" RestartTemporary)).
  - apply (bool_decide_unpack _). vm_compute. exact I.
  - vm_compute. reflexivity.
  - reflexivity.
  - vm_compute. apply (Permutation_cons_append ["db"; "cache"]%string "web"%string).
Defined.

(** A temporary child is documented as never restarted; it is restarted whenever
    another child fails under one-for-all, or an earlier one under rest-for-one. *)
Theorem temporary_child_is_restarted :
  exists sv id c, demo_supervisor RestartStrategyOneForAll = sv /\
    children sv !! id = Some c /\ Restart (Spec c) = RestartTemporary /\
    id ∈ (handleChildFailure sv 3%nat "db" ["db"; "cache"; "web"]%string 1 2).2.
Proof.
  eexists _, "cache"%string, _. split; [reflexivity|]. split; [vm_compute; reflexivity|].
  split; [reflexivity|]. vm_compute. by right; left.
Qed.
