(* ===== verification/Links.v ===== *)
(** * Links and monitors (pkg/core/link.go)

    The manager of exit signals between deployments.  Maps of maps are finite
    maps of finite sets; the order in which Go iterates over them is not fixed,
    so the signals of one exit are determined up to their order. *)
From S2P Require Import Prelude Deployment.

Record MonitorRef : Type := mkMonitorRef {
  monitorerID : string;
  targetID : string;
  ref : Z
}.

#[export] Instance MonitorRef_eq_dec : EqDecision MonitorRef.
Proof. solve_decision. Defined.

#[export] Instance MonitorRef_countable : Countable MonitorRef.
Proof.
  refine (inj_countable' (fun r => (monitorerID r, targetID r, ref r))
    (fun t => mkMonitorRef t.1.1 t.1.2 t.2) _). by intros [].
Defined.

Record ExitSignal : Type := mkExitSignal {
  SFrom : string;
  SState : DeploymentState;
  SErr : option Z
}.

Record LinkManager : Type := mkLinkManager {
  links : gmap string (gset string);
  monitorsByTarget : gmap string (gset MonitorRef);
  monitorRefs : gmap MonitorRef string;
  nextRef : Z
}.

Definition NewLinkManager : LinkManager := mkLinkManager ∅ ∅ ∅ 1.

Inductive link_error : Type := INVALID_ID | INVALID_LINK.

Definition exitAddress (deploymentID : string) : string := ("core.exit." ++ deploymentID)%string.

(** A nil inner map is created on the first insertion and dropped when it
    becomes empty. *)
Definition addTo {K V} `{Countable K, Countable V} (m : gmap K (gset V)) (a : K) (b : V) : gmap K (gset V) :=
  <[a := {[b]} ∪ default ∅ (m !! a)]> m.

Definition removeFrom {K V} `{Countable K, Countable V} (m : gmap K (gset V)) (a : K) (b : V) : gmap K (gset V) :=
  match m !! a with
  | None => m
  | Some s =>
      let s := s ∖ {[b]} in
      if bool_decide (s = ∅) then delete a m else <[a := s]> m
  end.

Definition addLink (m : gmap string (gset string)) (a b : string) : gmap string (gset string) :=
  addTo m a b.

Definition removeLink (m : gmap string (gset string)) (a b : string) : gmap string (gset string) :=
  removeFrom m a b.

Definition set_links (m : LinkManager) (l : gmap string (gset string)) : LinkManager :=
  mkLinkManager l (monitorsByTarget m) (monitorRefs m) (nextRef m).

Definition Link (m : LinkManager) (selfID target : string) : LinkManager * option link_error :=
  if bool_decide (selfID = EmptyString) || bool_decide (target = EmptyString) then (m, Some INVALID_ID)
  else if bool_decide (selfID = target) then (m, Some INVALID_LINK)
  else (set_links m (addLink (addLink (links m) selfID target) target selfID), None).

Definition Unlink (m : LinkManager) (selfID target : string) : LinkManager :=
  set_links m (removeLink (removeLink (links m) selfID target) target selfID).

Definition Monitor (m : LinkManager) (selfID target : string) : LinkManager * result link_error MonitorRef :=
  if bool_decide (selfID = EmptyString) || bool_decide (target = EmptyString) then (m, Err INVALID_ID)
  else
    let r := mkMonitorRef selfID target (nextRef m) in
    (mkLinkManager (links m) (addTo (monitorsByTarget m) target r) (<[r := target]> (monitorRefs m))
       (u64 (nextRef m + 1)), Ok r).

Definition Demonitor (m : LinkManager) (r : MonitorRef) : LinkManager :=
  match monitorRefs m !! r with
  | None => m
  | Some t =>
      mkLinkManager (links m) (removeFrom (monitorsByTarget m) t r) (delete r (monitorRefs m)) (nextRef m)
  end.

Definition linked_peers (m : LinkManager) (id : string) : gset string := default ∅ (links m !! id).

Definition monitors_of (m : LinkManager) (id : string) : gset MonitorRef :=
  default ∅ (monitorsByTarget m !! id).

(** The publishes of one exit: linked peers first, then monitors. *)
Definition NotifyExit (m : LinkManager) (id : string) (s : DeploymentState) (e : option Z) :
    list (string * ExitSignal) :=
  let signal := mkExitSignal id s e in
  ((fun peer => (exitAddress peer, signal)) <$> elements (linked_peers m id)) ++
  ((fun r => (exitAddress (monitorerID r), signal)) <$> elements (monitors_of m id)).

(** ** The operations as a transition system *)

Inductive link_op : Type :=
| OpLink (a b : string)
| OpUnlink (a b : string)
| OpMonitor (a b : string)
| OpDemonitor (r : MonitorRef).

Definition apply_op (m : LinkManager) (o : link_op) : LinkManager :=
  match o with
  | OpLink a b => (Link m a b).1
  | OpUnlink a b => Unlink m a b
  | OpMonitor a b => (Monitor m a b).1
  | OpDemonitor r => Demonitor m r
  end.

(** ** Sets of pairs *)

Section pairs.
Context {K V : Type} `{Countable K, Countable V}.

(** The pairs stored, and that no empty inner map is kept. *)
Definition stored (m : gmap K (gset V)) (a : K) (b : V) : Prop := b ∈ default (∅ : gset V) (m !! a).

Definition no_empty (m : gmap K (gset V)) : Prop := forall a s, m !! a = Some s -> s <> ∅.

Lemma stored_addTo (m : gmap K (gset V)) a b x y :
  stored (addTo m a b) x y <-> (x = a /\ y = b) \/ stored m x y.
Proof.
  unfold stored, addTo. destruct (decide (x = a)) as [->|Hx].
  - rewrite lookup_insert_eq. simpl. set_solver.
  - rewrite lookup_insert_ne by done. naive_solver.
Qed.

Lemma stored_removeFrom (m : gmap K (gset V)) a b x y :
  stored (removeFrom m a b) x y <-> stored m x y /\ ~ (x = a /\ y = b).
Proof.
  unfold stored, removeFrom. destruct (m !! a) as [s|] eqn:E.
  - destruct (decide (x = a)) as [->|Hx].
    + rewrite E. case_bool_decide as Hs; rewrite ?lookup_delete_eq, ?lookup_insert_eq; simpl; set_solver.
    + case_bool_decide; rewrite ?lookup_delete_ne, ?lookup_insert_ne by done; naive_solver.
  - split; [|tauto]. intros Hy. split; [done|]. intros [-> ->]. rewrite E in Hy. simpl in Hy. set_solver.
Qed.

Lemma no_empty_addTo (m : gmap K (gset V)) a b : no_empty m -> no_empty (addTo m a b).
Proof.
  intros Hm x s. unfold addTo. rewrite lookup_insert_Some. intros [[<- <-]|[? ?]]; [set_solver|eauto].
Qed.

Lemma no_empty_removeFrom (m : gmap K (gset V)) a b : no_empty m -> no_empty (removeFrom m a b).
Proof.
  intros Hm x s. unfold removeFrom. destruct (m !! a) eqn:E; [|eauto].
  case_bool_decide as Hs.
  - rewrite lookup_delete_Some. intros [_ ?]. eauto.
  - rewrite lookup_insert_Some. intros [[<- <-]|[_ ?]]; eauto.
Qed.
End pairs.

(** ** The abstract specification

    Links are a symmetric irreflexive relation, monitors a finite set of
    references with the next fresh number; the operations add and remove. *)

Record spec : Type := mkSpec {
  linked : string -> string -> Prop;
  monitoring : gset MonitorRef;
  fresh : Z
}.

Definition spec_op (S : spec) (o : link_op) : spec :=
  match o with
  | OpLink a b =>
      if bool_decide (a = EmptyString) || bool_decide (b = EmptyString) || bool_decide (a = b) then S
      else mkSpec (fun x y => (x = a /\ y = b) \/ (x = b /\ y = a) \/ linked S x y) (monitoring S) (fresh S)
  | OpUnlink a b =>
      mkSpec (fun x y => linked S x y /\ ~ (x = a /\ y = b) /\ ~ (x = b /\ y = a)) (monitoring S) (fresh S)
  | OpMonitor a b =>
      if bool_decide (a = EmptyString) || bool_decide (b = EmptyString) then S
      else mkSpec (linked S) ({[mkMonitorRef a b (fresh S)]} ∪ monitoring S) (u64 (fresh S + 1))
  | OpDemonitor r => mkSpec (linked S) (monitoring S ∖ {[r]}) (fresh S)
  end.

Definition spec_init : spec := mkSpec (fun _ _ => False) ∅ 1.

(** The manager's maps represent the specification's state. *)
Definition represents (m : LinkManager) (S : spec) : Prop :=
  (forall a b, stored (links m) a b <-> linked S a b) /\
  (forall t r, stored (monitorsByTarget m) t r <-> r ∈ monitoring S /\ targetID r = t) /\
  (forall r t, monitorRefs m !! r = Some t <-> r ∈ monitoring S /\ targetID r = t) /\
  nextRef m = fresh S /\ no_empty (links m) /\ no_empty (monitorsByTarget m).

Lemma represents_init : represents NewLinkManager spec_init.
Proof.
  unfold represents, stored, no_empty; simpl. split_and!; try done; intros; rewrite ?lookup_empty; simpl;
    set_solver.
Qed.

Lemma represents_links m S l l' :
  represents m S -> (forall a b, stored l a b <-> l' a b) -> no_empty l ->
  represents (set_links m l) (mkSpec l' (monitoring S) (fresh S)).
Proof. intros (? & ? & ? & ? & ? & ?) Hl Hn. by split_and!. Qed.

(** Every operation refines its specification. *)
Lemma apply_op_refines m S o : represents m S -> represents (apply_op m o) (spec_op S o).
Proof.
  intros HR. pose proof HR as (Hl & Hm & Hr & Hn & He1 & He2). destruct o as [a b|a b|a b|r]; simpl.
  - unfold Link. destruct (bool_decide (a = EmptyString) || bool_decide (b = EmptyString)); [done|].
    simpl. destruct (bool_decide (a = b)); [done|]. simpl. apply represents_links; [done| |].
    + intros x y. unfold addLink. rewrite !stored_addTo, Hl. tauto.
    + by do 2 apply no_empty_addTo.
  - apply represents_links; [done| |].
    + intros x y. unfold removeLink. rewrite !stored_removeFrom, Hl. tauto.
    + by do 2 apply no_empty_removeFrom.
  - unfold Monitor. destruct (_ || _); [done|]. simpl. split_and!; simpl; try done.
    + intros t r. rewrite stored_addTo, Hm, Hn, elem_of_union, elem_of_singleton.
      split; [intros [[-> ->]|[? ?]]; auto|intros [[->|?] <-]; auto].
    + intros r t. rewrite lookup_insert_Some, Hr, Hn, elem_of_union, elem_of_singleton.
      split; [intros [[<- <-]|(? & ? & ?)]; auto|].
      intros [[->|?] <-]; [by left|]. destruct (decide (mkMonitorRef a b (fresh S) = r)) as [<-|]; auto.
    + by rewrite Hn.
    + by apply no_empty_addTo.
  - unfold Demonitor. destruct (monitorRefs m !! r) as [t|] eqn:E; simpl.
    + apply Hr in E as [Hin Ht]. split_and!; simpl; try done.
      * intros x y. rewrite stored_removeFrom, Hm, elem_of_difference, elem_of_singleton. naive_solver.
      * intros x y. rewrite lookup_delete_Some, Hr, elem_of_difference, elem_of_singleton. naive_solver.
      * by apply no_empty_removeFrom.
    + assert (r ∉ monitoring S) as Hnot.
      { intros Hin. assert (monitorRefs m !! r = Some (targetID r)) by (by apply Hr). congruence. }
      assert (monitoring S ∖ {[r]} = monitoring S) as Heq by set_solver.
      split_and!; simpl; try done; by rewrite Heq.
Qed.

(** Linking is symmetric and never with oneself. *)
Definition symmetric_links (S : spec) : Prop :=
  (forall a b, linked S a b -> linked S b a) /\ (forall a, ~ linked S a a).

Lemma spec_op_symmetric S o : symmetric_links S -> symmetric_links (spec_op S o).
Proof.
  intros [Hs Hi]. destruct o as [a b|a b|a b|r]; simpl; [| | |done].
  - destruct (bool_decide (a = EmptyString) || bool_decide (b = EmptyString)); [done|]. simpl.
    case_bool_decide; [done|]. split; simpl; naive_solver.
  - split; simpl; naive_solver.
  - by destruct (_ || _).
Qed.

Lemma links_represent ops :
  represents (fold_left apply_op ops NewLinkManager) (fold_left spec_op ops spec_init) /\
  symmetric_links (fold_left spec_op ops spec_init).
Proof.
  assert (represents NewLinkManager spec_init /\ symmetric_links spec_init) as H0
    by (split; [apply represents_init|split; by repeat intro]).
  revert H0. generalize NewLinkManager spec_init. induction ops as [|o ops IH]; intros m0 S0 [? ?]; [done|].
  simpl. apply IH. split; [by apply apply_op_refines|by apply spec_op_symmetric].
Qed.

(** C32. After any sequence of operations the manager represents the specification
    that the same operations produce; so an exit is signalled exactly once to
    every deployment linked to the one that exits, and once for every monitor on
    it that was not removed, and links hold in both directions. *)
Theorem links_refine ops id s e :
  let m := fold_left apply_op ops NewLinkManager in
  let S := fold_left spec_op ops spec_init in
  represents m S /\ symmetric_links S /\
  exists peers mons,
    NotifyExit m id s e =
      ((fun p => (exitAddress p, mkExitSignal id s e)) <$> peers) ++
      ((fun r => (exitAddress (monitorerID r), mkExitSignal id s e)) <$> mons) /\
    NoDup peers /\ NoDup mons /\
    (forall p, p ∈ peers <-> linked S id p) /\
    (forall r, r ∈ mons <-> r ∈ monitoring S /\ targetID r = id).
Proof.
  intros m S. destruct (links_represent ops) as [HR HS]. fold m S in HR, HS.
  split; [done|]. split; [done|]. destruct HR as (Hl & Hm & _).
  exists (elements (linked_peers m id)), (elements (monitors_of m id)).
  split; [done|]. split; [apply NoDup_elements|]. split; [apply NoDup_elements|]. split.
  - intros p. rewrite elem_of_elements. apply Hl.
  - intros r. rewrite elem_of_elements. apply Hm.
Qed.

(** References are numbered apart as long as the counter does not wrap. *)
Lemma fresh_bound ops :
  Z.of_nat (length ops) < 2 ^ 64 - 1 ->
  let S := fold_left spec_op ops spec_init in
  1 <= fresh S <= 1 + Z.of_nat (length ops) /\ forall r, r ∈ monitoring S -> ref r < fresh S.
Proof.
  induction ops as [|o ops IH] using rev_ind; intros Hlen; cbv zeta.
  { simpl. split; [lia|]. set_solver. }
  rewrite length_app in Hlen; simpl in Hlen. destruct IH as [Hf Hr]; [lia|].
  rewrite fold_left_app, length_app; simpl. set (S := fold_left spec_op ops spec_init) in *.
  destruct o as [a b|a b|a b|r]; simpl.
  - destruct (_ || _ || _); simpl; (split; [lia|done]).
  - split; [lia|done].
  - destruct (_ || _); simpl; [split; [lia|done]|]. unfold u64. rewrite Z.mod_small by lia. split; [lia|].
    intros r. rewrite elem_of_union, elem_of_singleton. intros [->|Hin]; simpl; [lia|].
    specialize (Hr r Hin). lia.
  - split; [lia|]. intros x. rewrite elem_of_difference. intros [Hin _]. auto.
Qed.

(** Removing the monitor that was just created restores the monitors. *)
Theorem monitor_demonitor ops a b m' r :
  let m := fold_left apply_op ops NewLinkManager in
  Z.of_nat (length ops) < 2 ^ 64 - 1 -> Monitor m a b = (m', Ok r) ->
  monitorRefs (Demonitor m' r) = monitorRefs m /\
  forall t, monitors_of (Demonitor m' r) t = monitors_of m t.
Proof.
  intros m Hlen Hmon.
  destruct (links_represent ops) as [(_ & Hm & Hr & Hn & _) _]. fold m in Hm, Hr, Hn.
  destruct (fresh_bound ops Hlen) as [_ Hfresh].
  unfold Monitor in Hmon. destruct (_ || _); [done|]. simplify_eq.
  set (r := mkMonitorRef a b (nextRef m)) in *.
  assert (r ∉ monitoring (fold_left spec_op ops spec_init)) as Hnew
    by (intros Hin; specialize (Hfresh r Hin); simpl in Hfresh; lia).
  unfold Demonitor; simpl. rewrite lookup_insert_eq. simpl. split.
  - rewrite delete_insert_eq. apply delete_id. destruct (monitorRefs m !! r) as [t|] eqn:E; [|done].
    by apply Hr in E as [? _].
  - intros t. unfold monitors_of. apply set_eq. intros x.
    change (stored (removeFrom (addTo (monitorsByTarget m) b r) b r) t x <-> stored (monitorsByTarget m) t x).
    rewrite stored_removeFrom, stored_addTo, Hm. naive_solver.
Qed.

Lemma monitor_demonitor_witness :
  exists m' r, Monitor (fold_left apply_op [OpMonitor "a" "b"]%string NewLinkManager) "c" "b" = (m', Ok r) /\
    forall t, monitors_of (Demonitor m' r) t =
      monitors_of (fold_left apply_op [OpMonitor "a" "b"]%string NewLinkManager) t.
Proof.
  eexists _, _. split; [reflexivity|].
  apply (monitor_demonitor [OpMonitor "a" "b"]%string "c" "b"); reflexivity.
Defined.

(** Linking asks nothing of the platform: any two different identities can be
    linked, deployed or not, and from then on an exit of either is signalled to
    the other and to nobody else. *)
Theorem link_signals_both_ways a b s s' e e' :
  a <> EmptyString -> b <> EmptyString -> a <> b ->
  let m := (Link NewLinkManager a b).1 in
  (Link NewLinkManager a b).2 = None /\
  NotifyExit m a s e = [(exitAddress b, mkExitSignal a s e)] /\
  NotifyExit m b s' e' = [(exitAddress a, mkExitSignal b s' e')].
Proof.
  intros Ha Hb Hab m. unfold m, Link. rewrite !bool_decide_eq_false_2 by done. simpl. split; [done|].
  unfold NotifyExit, linked_peers, monitors_of, addLink, addTo; simpl.
  rewrite lookup_empty. simpl. rewrite !(lookup_insert_ne _ a b) by done. rewrite lookup_empty. simpl.
  rewrite lookup_insert_eq, (lookup_insert_ne _ b a) by done. rewrite lookup_insert_eq, !lookup_empty. simpl.
  rewrite elements_empty. rewrite !union_empty_r_L, !elements_singleton. done.
Qed.

Lemma link_signals_both_ways_witness :
  NotifyExit (Link NewLinkManager "a" "b").1 "a" StateFailed None =
    [(exitAddress "b", mkExitSignal "a" StateFailed None)].
Proof.
  apply (link_signals_both_ways "a" "b" StateFailed StateStopped None None); discriminate.
Defined.
