(* ===== verification/Platform.v ===== *)
(** * The platform (pkg/core/platform.go)

    The registry of deployments and its operations DeployVerticle,
    UndeployVerticle and Close as interleaved steps: callers, the goroutines
    Close starts, and the event loop of every deployment (Deployment.v), with
    its command channel of one slot.  What verticles return, timeouts, clocks
    and the cancellation of the parent context are choices of the environment.
    The second part runs the supervisor (Supervisor.v) on this platform. *)
From S2P Require Import Prelude Deployment Supervisor Links.

(** A command in a deployment's channel: what, and whose reply channel. *)
Record dcmd : Type := mkDcmd {
  daction : action;
  sender : nat
}.

(** A deployment and its event loop: [busy] is the command being handled, with
    the state of its context when it was taken. *)
Record dep : Type := mkDep {
  machine : Deployment;
  cmdChan : option dcmd;
  busy : option (dcmd * ctx_status)
}.

Inductive platform_error : Type :=
| INVALID_VERTICLE
| INVALID_DEPLOYMENT_ID
| DEPLOYMENT_NOT_FOUND
| RootDone (c : ctx_status)
| StartTimeout
| Refused (r : reply).

(** Where a call is. *)
Inductive pc : Type :=
| DeployNew (nil_verticle : bool)
| DeploySend (id : string)
| DeployWait (id : string) (r : option reply)     (** with its reply channel of one slot *)
| DeployDelete (id : string) (e : platform_error)
| DeployReturned (id : string) (e : option platform_error)
| UndeployLookup (id : string)
| UndeploySend (id : string)
| UndeployWait (id : string) (r : option reply)
| UndeployDelete (id : string)
| UndeployReturned (e : option platform_error)
| CloseLock
| CloseWait (spawned : list nat)
| CloseCancel
| CloseReturned
| CloserSend (id : string)          (** a goroutine of [Close] *)
| CloserWait (id : string) (r : option reply)
| CloserDone.

Record gocmd : Type := mkGocmd {
  deployments : gset string;             (** the keys of the map *)
  deps : gmap string dep;                (** every deployment ever created *)
  linkManager : LinkManager;
  root : ctx_status;                     (** [rootCtx] *)
  gclosed : bool;
  threads : list pc;
  effects : list (string * effect);      (** calls of verticles and notifiers *)
  signals : list (string * ExitSignal)   (** what was published on exits *)
}.

Definition NewGoCMD (ts : list pc) : gocmd :=
  mkGocmd ∅ ∅ NewLinkManager CtxLive false ts [] [].

Definition set_deployments (g : gocmd) (m : gset string) : gocmd :=
  mkGocmd m (deps g) (linkManager g) (root g) (gclosed g) (threads g) (effects g) (signals g).

Definition set_deps (g : gocmd) (m : gmap string dep) : gocmd :=
  mkGocmd (deployments g) m (linkManager g) (root g) (gclosed g) (threads g) (effects g) (signals g).

Definition set_root (g : gocmd) (c : ctx_status) : gocmd :=
  mkGocmd (deployments g) (deps g) (linkManager g) c (gclosed g) (threads g) (effects g) (signals g).

Definition set_threads (g : gocmd) (ts : list pc) : gocmd :=
  mkGocmd (deployments g) (deps g) (linkManager g) (root g) (gclosed g) ts (effects g) (signals g).

(** [cmd.reply <- r]: nobody reads it when the call has gone on without it. *)
Definition receive (p : pc) (r : reply) : pc :=
  match p with
  | DeployWait id None => DeployWait id (Some r)
  | UndeployWait id None => UndeployWait id (Some r)
  | CloserWait id None => CloserWait id (Some r)
  | p => p
  end.

Definition post_reply (g : gocmd) (i : nat) (r : reply) : gocmd :=
  set_threads g (alter (fun p => receive p r) i (threads g)).

Definition add_effects (g : gocmd) (id : string) (es : list effect) : gocmd :=
  mkGocmd (deployments g) (deps g) (linkManager g) (root g) (gclosed g) (threads g)
    (effects g ++ ((fun e => (id, e)) <$> es)) (signals g).

(** [onDeploymentExit] for every notification of a handled command. *)
Definition onDeploymentExit (g : gocmd) (id : string) (e : effect) : list (string * ExitSignal) :=
  match e with Notify s err => NotifyExit (linkManager g) id s err | _ => [] end.

Definition add_signals (g : gocmd) (id : string) (es : list effect) : gocmd :=
  mkGocmd (deployments g) (deps g) (linkManager g) (root g) (gclosed g) (threads g)
    (effects g) (signals g ++ (es ≫= onDeploymentExit g id)).

(** ** Select *)

Inductive choice : Type :=
| PickNew (id : string) (now : Z)   (** a fresh deployment *)
| PickSend
| PickDone                          (** the root context is done *)
| PickTimeout
| PickReply.

(** Sending a command: the channel is closed once the event loop has left. *)
Definition send_cmd (g : gocmd) (id : string) (a : action) (i : nat) : option (outcome gocmd) :=
  match deps g !! id with
  | None => None
  | Some d =>
      if exited (machine d) then Some Panic
      else match cmdChan d with
           | Some _ => None
           | None => Some (Ret (set_deps g (<[id := mkDep (machine d) (Some (mkDcmd a i)) (busy d)]> (deps g))))
           end
  end.

Definition move (o : option (outcome gocmd)) (p : pc) : option (outcome (gocmd * pc)) :=
  match o with
  | Some (Ret g) => Some (Ret (g, p))
  | Some Panic => Some Panic
  | None => None
  end.

(** ** The callers *)

Definition deploy_step (g : gocmd) (i : nat) (p : pc) (c : choice) : option (outcome (gocmd * pc)) :=
  match p, c with
  | DeployNew true, _ => Some (Ret (g, DeployReturned EmptyString (Some INVALID_VERTICLE)))
  | DeployNew false, PickNew id now =>
      if bool_decide (deps g !! id = None)
      then Some (Ret (set_deployments (set_deps g (<[id := mkDep (NewDeployment true now) None None]> (deps g)))
                        ({[id]} ∪ deployments g), DeploySend id))
      else None
  | DeploySend id, PickSend => move (send_cmd g id ActStart i) (DeployWait id None)
  | DeploySend id, PickDone =>
      if ctx_done (root g) then Some (Ret (g, DeployReturned EmptyString (Some (RootDone (root g))))) else None
  | DeployWait id rep, PickReply =>
      match rep with
      | Some ReplyNil => Some (Ret (g, DeployReturned id None))
      | Some r => Some (Ret (g, DeployDelete id (Refused r)))
      | None => None
      end
  | DeployWait id _, PickTimeout => Some (Ret (g, DeployDelete id StartTimeout))
  | DeployDelete id e, _ =>
      Some (Ret (set_deployments g (deployments g ∖ {[id]}), DeployReturned id (Some e)))
  | _, _ => None
  end.

Definition undeploy_step (g : gocmd) (i : nat) (p : pc) (c : choice) : option (outcome (gocmd * pc)) :=
  match p, c with
  | UndeployLookup id, _ =>
      Some (Ret (g,
        if bool_decide (id = EmptyString) then UndeployReturned (Some INVALID_DEPLOYMENT_ID)
        else if bool_decide (id ∈ deployments g) then UndeploySend id
        else UndeployReturned (Some DEPLOYMENT_NOT_FOUND)))
  | UndeploySend id, PickSend => move (send_cmd g id ActUndeploy i) (UndeployWait id None)
  | UndeploySend id, PickDone =>
      if ctx_done (root g) then Some (Ret (g, UndeployReturned (Some (RootDone (root g))))) else None
  | UndeploySend id, PickTimeout => Some (Ret (g, UndeployDelete id))
  | UndeployWait id rep, PickReply =>
      match rep with
      | Some ReplyNil => Some (Ret (g, UndeployDelete id))
      | Some r => Some (Ret (g, UndeployReturned (Some (Refused r))))
      | None => None
      end
  | UndeployWait id _, PickTimeout => Some (Ret (g, UndeployDelete id))
  | UndeployDelete id, _ => Some (Ret (set_deployments g (deployments g ∖ {[id]}), UndeployReturned None))
  | _, _ => None
  end.

(** [Close]: empty the map, undeploy everything in goroutines of their own, wait
    for them or time out, cancel the root context.  Closing the event bus is the
    bus's own operation. *)
Definition close_step (g : gocmd) (i : nat) (p : pc) (c : choice) : option (outcome (gocmd * pc)) :=
  match p, c with
  | CloseLock, _ =>
      if gclosed g then Some (Ret (g, CloseReturned))
      else
        let ids := elements (deployments g) in
        Some (Ret (mkGocmd ∅ (deps g) (linkManager g) (root g) true
                     (threads g ++ (CloserSend <$> ids)) (effects g) (signals g),
                   CloseWait (seq (length (threads g)) (length ids))))
  | CloseWait ws, PickReply =>
      if forallb (fun w => match threads g !! w with Some CloserDone => true | _ => false end) ws
      then Some (Ret (g, CloseCancel)) else None
  | CloseWait ws, PickTimeout => Some (Ret (g, CloseCancel))
  | CloseCancel, _ =>
      Some (Ret (set_root g (if ctx_done (root g) then root g else CtxCanceled), CloseReturned))
  | CloserSend id, PickSend => move (send_cmd g id ActUndeploy i) (CloserWait id None)
  | CloserSend id, PickTimeout => Some (Ret (g, CloserDone))
  | CloserWait id rep, PickReply =>
      match rep with Some _ => Some (Ret (g, CloserDone)) | None => None end
  | CloserWait id _, PickTimeout => Some (Ret (g, CloserDone))
  | _, _ => None
  end.

Definition thread_step (g : gocmd) (i : nat) (p : pc) (c : choice) : option (outcome (gocmd * pc)) :=
  match p with
  | DeployNew _ | DeploySend _ | DeployWait _ _ | DeployDelete _ _ => deploy_step g i p c
  | UndeployLookup _ | UndeploySend _ | UndeployWait _ _ | UndeployDelete _ => undeploy_step g i p c
  | CloseLock | CloseWait _ | CloseCancel | CloserSend _ | CloserWait _ _ => close_step g i p c
  | DeployReturned _ _ | UndeployReturned _ | CloseReturned | CloserDone => None
  end.

(** ** The event loops *)

(** Take the command and look at its context. *)
Definition loop_take (g : gocmd) (id : string) : option gocmd :=
  d ← deps g !! id;
  if exited (machine d) then None
  else
    match busy d, cmdChan d with
    | None, Some c => Some (set_deps g (<[id := mkDep (machine d) None (Some (c, root g))]> (deps g)))
    | _, _ => None
    end.

(** What the verticle and the clock answer while a command is handled. *)
Record answers : Type := mkAnswers {
  on_start : option Z;
  on_stop : option Z;
  clock : nat -> Z
}.

Definition loop_finish (g : gocmd) (id : string) (a : answers) : option (outcome gocmd) :=
  d ← deps g !! id;
  '(c, cx) ← busy d;
  Some ('(m, es, r) ← handle (machine d) (mkCmd (daction c) cx (on_start a) (on_stop a) (clock a));
        Ret (post_reply (add_signals (add_effects (set_deps g (<[id := mkDep m (cmdChan d) None]> (deps g)))
               id es) id es) (sender c) r)).

(** ** The system *)

Inductive gact : Type :=
| Thread (i : nat) (c : choice)
| Take (id : string)
| Finish (id : string) (a : answers)
| CancelParent.

Definition gstep (g : gocmd) (a : gact) : option (outcome gocmd) :=
  match a with
  | Thread i c =>
      p ← threads g !! i;
      o ← thread_step g i p c;
      Some ('(g', p') ← o; Ret (set_threads g' (<[i := p']> (threads g'))))
  | Take id => g' ← loop_take g id; Some (Ret g')
  | Finish id a => loop_finish g id a
  | CancelParent => Some (Ret (set_root g (if ctx_done (root g) then root g else CtxCanceled)))
  end.

Fixpoint run (g : gocmd) (acts : list gact) : option (outcome gocmd) :=
  match acts with
  | [] => Some (Ret g)
  | a :: acts =>
      match gstep g a with
      | Some (Ret g') => run g' acts
      | Some Panic => Some Panic
      | None => None
      end
  end.

(** ** Invariant *)

Definition effects_of (g : gocmd) (id : string) : list effect :=
  snd <$> filter (fun x => x.1 = id) (effects g).

(** The commands on their way to an event loop or in its hands. *)
Definition flights (d : dep) : list dcmd :=
  option_list (cmdChan d) ++ option_list (fst <$> busy d).

(** Where the sender of a command in flight can be; [m] is the registry. *)
Definition start_pc (m : gset string) (id : string) (p : pc) : Prop :=
  match p with
  | DeployWait id' None | DeployDelete id' _ => id' = id
  | DeployReturned _ _ => id ∉ m
  | _ => False
  end.

Definition undeploy_pc (m : gset string) (id : string) (p : pc) : Prop :=
  match p with
  | UndeployWait id' None | UndeployDelete id' => id' = id
  | CloserWait id' None => id' = id /\ id ∉ m
  | UndeployReturned _ | CloserDone => id ∉ m
  | _ => False
  end.

(** The caller that is about to take a failed, or an undeployed, deployment out
    of the registry. *)
Definition failed_pc (id : string) (p : pc) : Prop :=
  match p with
  | DeployWait id' (Some ReplyNil) => False
  | DeployWait id' (Some _) | DeployDelete id' _ => id' = id
  | _ => False
  end.

Definition undeployed_pc (id : string) (p : pc) : Prop :=
  match p with
  | UndeployWait id' (Some ReplyNil) | UndeployDelete id' => id' = id
  | _ => False
  end.

Definition flight_ok (g : gocmd) (id : string) (c : dcmd) : Prop :=
  exists p, threads g !! sender c = Some p /\
    match daction c with
    | ActStart => start_pc (deployments g) id p
    | ActUndeploy => undeploy_pc (deployments g) id p
    | ActStop => False
    end.

Definition some_thread (g : gocmd) (P : pc -> Prop) : Prop := exists j p, threads g !! j = Some p /\ P p.

(** Why a registered deployment is in its state. *)
Definition explained (g : gocmd) (id : string) (d : dep) : Prop :=
  match state (machine d) with
  | StatePending => some_thread g (eq (DeploySend id)) \/ ActStart ∈ (daction <$> flights d)
  | StateRunning => True
  | StateFailed => some_thread g (failed_pc id)
  | StateUndeployed => some_thread g (undeployed_pc id)
  | _ => False
  end.

Definition closer_id (p : pc) : option string :=
  match p with CloserSend id | CloserWait id _ => Some id | _ => None end.

Definition loop_ok (g : gocmd) (id : string) (d : dep) : Prop :=
  deployment_ok (machine d) (effects_of g id) /\
  (busy d <> None -> exited (machine d) = false) /\
  (forall c, c ∈ flights d -> flight_ok g id c) /\
  (forall c c' cx, cmdChan d = Some c -> busy d = Some (c', cx) -> sender c <> sender c').

Definition live_ok (g : gocmd) : Prop :=
  (forall id d c cx, deps g !! id = Some d -> busy d = Some (c, cx) -> cx = CtxLive) /\
  (forall id d, deps g !! id = Some d -> id ∈ deployments g -> explained g id d).

Definition platform_ok (g : gocmd) : Prop :=
  deployments g ⊆ dom (deps g) /\
  (forall id d, deps g !! id = Some d -> loop_ok g id d) /\
  (forall id e, (id, e) ∈ effects g -> id ∈ dom (deps g)) /\
  (forall j p id, threads g !! j = Some p -> closer_id p = Some id -> id ∉ deployments g /\ id ∈ dom (deps g)) /\
  (root g = CtxLive -> live_ok g).

(** *** Steps that leave the deployments alone *)

(** A goroutine goes from [q] to [q'] without dropping what others rely on. *)
Definition pc_ok (m : gset string) (live : Prop) (q q' : pc) : Prop :=
  forall id,
    (start_pc m id q -> start_pc m id q') /\ (undeploy_pc m id q -> undeploy_pc m id q') /\
    (failed_pc id q -> failed_pc id q' \/ id ∉ m) /\ (undeployed_pc id q -> undeployed_pc id q' \/ id ∉ m) /\
    (q = DeploySend id -> q' = DeploySend id \/ ~ live).

Lemma pc_ok_refl m live q : pc_ok m live q q.
Proof. intros id. split_and!; auto. Qed.

Lemma start_pc_mono m m' id p : m' ⊆ m -> start_pc m id p -> start_pc m' id p.
Proof. intros Hm. destruct p; simpl; try done. set_solver. Qed.

Lemma undeploy_pc_mono m m' id p : m' ⊆ m -> undeploy_pc m id p -> undeploy_pc m' id p.
Proof. intros Hm. destruct p; simpl; try done; repeat case_match; set_solver. Qed.

Lemma quiet_ok g g' :
  platform_ok g -> deps g' = deps g -> effects g' = effects g -> deployments g' ⊆ deployments g ->
  (root g' = CtxLive -> root g = CtxLive) ->
  (forall j q, threads g !! j = Some q -> exists q', threads g' !! j = Some q' /\
     pc_ok (deployments g') (root g' = CtxLive) q q') ->
  (forall j p id, threads g' !! j = Some p -> closer_id p = Some id ->
     id ∉ deployments g' /\ id ∈ dom (deps g)) ->
  platform_ok g'.
Proof.
  intros (H1 & H2 & H3 & H4 & H5) Ed Ee Hm Hr Hpc Hcl. split_and!.
  - rewrite Ed. set_solver.
  - intros id d Hd. rewrite Ed in Hd. destruct (H2 id d Hd) as (A & B & C & D).
    split; [unfold effects_of; by rewrite Ee|]. split; [done|]. split; [|done].
    intros c Hc. destruct (C c Hc) as (p & Hp & Hk). destruct (Hpc _ _ Hp) as (p' & Hp' & Hok).
    exists p'. split; [done|]. destruct (Hok id) as (Hs & Hu & _).
    destruct (daction c); [|done|]; eauto using start_pc_mono, undeploy_pc_mono.
  - by rewrite Ed, Ee.
  - by rewrite Ed.
  - intros Hl. destruct (H5 (Hr Hl)) as [L1 L2]. split; [by rewrite Ed|].
    intros id d Hd Hin. rewrite Ed in Hd. specialize (L2 id d Hd (Hm id Hin)). unfold explained in *.
    destruct (state (machine d)); try done.
    + destruct L2 as [(j & p & Hj & <-)|?]; [left|by right].
      destruct (Hpc j _ Hj) as (p' & Hp' & Hok). destruct (Hok id) as (_ & _ & _ & _ & Hs).
      destruct (Hs eq_refl) as [->|]; [|done]. by exists j, (DeploySend id).
    + destruct L2 as (j & p & Hj & Hf). destruct (Hpc j p Hj) as (p' & Hp' & Hok).
      destruct (Hok id) as (_ & _ & Hs & _). destruct (Hs Hf); [|done]. by exists j, p'.
    + destruct L2 as (j & p & Hj & Hf). destruct (Hpc j p Hj) as (p' & Hp' & Hok).
      destruct (Hok id) as (_ & _ & _ & Hs & _). destruct (Hs Hf); [|done]. by exists j, p'.
Qed.

(** The case of one goroutine moving, the others staying. *)
Lemma quiet_move g g' i p p' :
  platform_ok g -> threads g !! i = Some p ->
  deps g' = deps g -> effects g' = effects g -> deployments g' ⊆ deployments g ->
  (root g' = CtxLive -> root g = CtxLive) -> threads g' = <[i := p']> (threads g) ->
  pc_ok (deployments g') (root g' = CtxLive) p p' ->
  (forall id, closer_id p' = Some id -> closer_id p = Some id) ->
  platform_ok g'.
Proof.
  intros Hok Hi Ed Ee Hm Hr Et Hpc Hcl. pose proof (lookup_lt_Some _ _ _ Hi). eapply quiet_ok; try done.
  - intros j q Hj. rewrite Et. destruct (decide (j = i)) as [->|Hne].
    + simplify_eq. rewrite list_lookup_insert_eq by done. eauto.
    + rewrite list_lookup_insert_ne by done. exists q. split; [done|]. apply pc_ok_refl.
  - destruct Hok as (_ & _ & _ & H4 & _). intros j q id Hj Hq. rewrite Et in Hj.
    apply list_lookup_insert_Some in Hj as [(-> & <- & _)|[_ Hj]].
    + destruct (H4 j p id Hi (Hcl id Hq)). set_solver.
    + destruct (H4 j q id Hj Hq). set_solver.
Qed.

(** *** A new deployment *)

Lemma effects_of_fresh g id : (forall x e, (x, e) ∈ effects g -> x ∈ dom (deps g)) -> deps g !! id = None ->
  effects_of g id = [].
Proof.
  intros He Hid. unfold effects_of.
  destruct (filter (fun x => x.1 = id) (effects g)) as [|[x e] l] eqn:E; [done|].
  assert ((x, e) ∈ filter (fun x => x.1 = id) (effects g)) as Hin by (rewrite E; by left).
  apply list_elem_of_filter in Hin as [Hx Hin]. simpl in Hx. subst x.
  specialize (He _ _ Hin). apply elem_of_dom in He as [? ?]. congruence.
Qed.

Lemma new_ok g i id now :
  platform_ok g -> threads g !! i = Some (DeployNew false) -> deps g !! id = None ->
  platform_ok (set_threads (set_deployments
    (set_deps g (<[id := mkDep (NewDeployment true now) None None]> (deps g))) ({[id]} ∪ deployments g))
    (<[i := DeploySend id]> (threads g))).
Proof.
  intros (H1 & H2 & H3 & H4 & H5) Hi Hid. pose proof (lookup_lt_Some _ _ _ Hi) as Hlt.
  assert (forall j q, threads g !! j = Some q -> q <> DeployNew false -> j <> i) as Hne
    by (intros j q Hj Hq ->; congruence).
  assert (forall x p, id <> x -> start_pc (deployments g) x p -> start_pc ({[id]} ∪ deployments g) x p) as Hs.
  { intros x p Hx. destruct p; simpl; try done. set_solver. }
  assert (forall x p, id <> x -> undeploy_pc (deployments g) x p -> undeploy_pc ({[id]} ∪ deployments g) x p) as Hu.
  { intros x p Hx. destruct p; simpl; try done; repeat case_match; set_solver. }
  split_and!; simpl.
  - rewrite dom_insert_L. set_solver.
  - intros x d. rewrite lookup_insert_Some. intros [[<- <-]|[Hx Hd]].
    + split_and!; simpl; try done.
      * change (deployment_ok (NewDeployment true now) (effects_of g id)).
        rewrite (effects_of_fresh g id) by done. apply NewDeployment_ok.
      * by intros c ?%elem_of_nil.
    + destruct (H2 x d Hd) as (A & B & C & D). split_and!; try done.
      intros c Hc. destruct (C c Hc) as (p & Hp & Hk). exists p. simpl. split.
      * rewrite list_lookup_insert_ne; [done|]. intros ->. rewrite Hi in Hp. simplify_eq.
        by destruct (daction c).
      * destruct (daction c); eauto.
  - intros x e Hx. rewrite dom_insert_L. specialize (H3 _ _ Hx). set_solver.
  - intros j p x. rewrite list_lookup_insert_Some. intros [(-> & <- & _)|[_ Hj]] Hp; [done|].
    destruct (H4 j p x Hj Hp) as [? Hx]. rewrite dom_insert_L. apply elem_of_dom in Hx as [? Hx].
    assert (x <> id) by congruence. set_solver.
  - intros Hl. destruct (H5 Hl) as [L1 L2]. split; simpl.
    + intros x d c cx. rewrite lookup_insert_Some. intros [[<- <-]|[Hx Hd]]; [done|eauto].
    + intros x d. rewrite lookup_insert_Some. intros [[<- <-]|[Hx Hd]] Hin.
      * left. exists i, (DeploySend id). simpl. by rewrite list_lookup_insert_eq.
      * assert (x ∈ deployments g) as Hin' by set_solver. specialize (L2 x d Hd Hin').
        unfold explained, some_thread in *. simpl.
        destruct (state (machine d)); try done;
          [destruct L2 as [(j & p & Hj & Hp)|?]; [left|by right]|..];
          try destruct L2 as (j & p & Hj & Hp); exists j, p; (split; [|done]);
          rewrite list_lookup_insert_ne; try done; intros ->; by simplify_eq.
Qed.

(** *** Sending a command *)

Definition sending_pc (p : pc) : bool :=
  match p with DeploySend _ | UndeploySend _ | CloserSend _ => true | _ => false end.

Lemma sending_not_flight m p :
  sending_pc p = true -> forall id, ~ start_pc m id p /\ ~ undeploy_pc m id p /\ ~ failed_pc id p /\ ~ undeployed_pc id p.
Proof. destruct p; try done; intros _ ?; simpl; tauto. Qed.

Lemma send_cmd_ok g id a i p p' g' :
  platform_ok g -> threads g !! i = Some p -> sending_pc p = true -> closer_id p' = closer_id p ->
  send_cmd g id a i = Some (Ret g') ->
  match a with
  | ActStart => start_pc (deployments g) id p'
  | ActUndeploy => undeploy_pc (deployments g) id p'
  | ActStop => False
  end ->
  (forall x, p = DeploySend x -> x = id /\ a = ActStart) ->
  platform_ok (set_threads g' (<[i := p']> (threads g'))).
Proof.
  intros (H1 & H2 & H3 & H4 & H5) Hi Hp Hcl Hsend Hk Hds. pose proof (lookup_lt_Some _ _ _ Hi) as Hlt.
  unfold send_cmd in Hsend. destruct (deps g !! id) as [d|] eqn:Hd; [|done].
  destruct (exited (machine d)); [done|]. destruct (cmdChan d) eqn:Hch; [done|]. simplify_eq.
  set (d' := mkDep (machine d) (Some (mkDcmd a i)) (busy d)).
  pose proof (sending_not_flight (deployments g) p Hp) as Hnot.
  assert (forall x c, flight_ok g x c ->
    sender c <> i /\ threads (set_threads (set_deps g (<[id := d']> (deps g))) (<[i := p']> (threads g))) !! sender c =
      threads g !! sender c) as Hfl.
  { intros x c (q & Hq & Hc). assert (sender c <> i) as Hne.
    { intros E. rewrite E, Hi in Hq. simplify_eq. destruct (Hnot x) as (? & ? & _). by destruct (daction c). }
    split; [done|]. simpl. by rewrite list_lookup_insert_ne. }
  assert (forall x c, flight_ok g x c ->
    flight_ok (set_threads (set_deps g (<[id := d']> (deps g))) (<[i := p']> (threads g))) x c) as Hfl'.
  { intros x c Hc. destruct (Hfl x c Hc) as [_ E]. destruct Hc as (q & Hq & Hc). exists q.
    by rewrite E. }
  split_and!; simpl.
  - rewrite dom_insert_L. set_solver.
  - intros x y. rewrite lookup_insert_Some. intros [[<- <-]|[Hx Hy]].
    + destruct (H2 id d Hd) as (A & B & C & D). split_and!; simpl; try done.
      * intros c. unfold flights; simpl. rewrite elem_of_cons. intros [->|Hc].
        -- exists p'. simpl. rewrite list_lookup_insert_eq by done. by destruct a.
        -- apply Hfl', C. unfold flights. by rewrite Hch.
      * intros c c' cx [= <-] Hb. simpl. apply not_eq_sym. apply (Hfl id). apply C. unfold flights.
        rewrite Hch, Hb. simpl. by left.
    + destruct (H2 x y Hy) as (A & B & C & D). split_and!; try done. intros c Hc. by apply Hfl', C.
  - intros x e Hx. rewrite dom_insert_L. specialize (H3 _ _ Hx). set_solver.
  - intros j q x. rewrite list_lookup_insert_Some, dom_insert_L. intros [(-> & <- & _)|[_ Hj]] Hq.
    + rewrite Hcl in Hq. destruct (H4 j p x Hi Hq). set_solver.
    + destruct (H4 j q x Hj Hq). set_solver.
  - intros Hl. destruct (H5 Hl) as [L1 L2]. split; simpl.
    + intros x y c cx. rewrite lookup_insert_Some. intros [[<- <-]|[Hx Hy]]; simpl; eauto.
    + intros x y. rewrite lookup_insert_Some.
      assert (forall (P : pc -> Prop), ~ P p -> some_thread g P ->
        some_thread (set_threads (set_deps g (<[id := d']> (deps g))) (<[i := p']> (threads g))) P) as Hth.
      { intros P HP (j & q & Hj & Hq). exists j, q. simpl. rewrite list_lookup_insert_ne; [done|].
        intros ->. by simplify_eq. }
      intros [[<- <-]|[Hx Hy]] Hin.
      * specialize (L2 id d Hd Hin). unfold explained in *. simpl in *.
        destruct (state (machine d)); try done; try (apply Hth; [apply (Hnot id)|done]).
        destruct L2 as [L2|L2].
        -- destruct L2 as (j & q & Hj & <-). destruct (decide (j = i)) as [->|Hne].
           ++ simplify_eq. destruct (Hds id eq_refl) as [_ ->]. right. unfold flights; simpl. by left.
           ++ left. exists j, (DeploySend id). simpl. by rewrite list_lookup_insert_ne.
        -- right. unfold flights in *. rewrite Hch in L2. simpl in *. by right.
      * specialize (L2 x y Hy Hin). unfold explained in *. simpl in *.
        destruct (state (machine y)); try done; try (apply Hth; [apply (Hnot x)|done]).
        destruct L2 as [L2|L2]; [left|by right]. apply Hth; [|done]. intros E.
        destruct (Hds x (eq_sym E)). congruence.
Qed.

(** *** The callers *)

(** A goroutine moves and nothing else changes but the registry shrinking. *)
Ltac quiet Hok Hi :=
  eapply (quiet_move _ _ _ _ _ Hok Hi); simpl;
  [done|done|set_solver|done|done| |try done];
  intros ?; simpl; split_and!; try done; try (by intros; simplify_eq); set_solver.

Lemma move_inv o p g' p' : move o p = Some (Ret (g', p')) -> o = Some (Ret g') /\ p' = p.
Proof. destruct o as [[]|]; simpl; [|done|done]. by intros [= -> ->]. Qed.

Lemma deploy_step_ok g i p c g' p' :
  platform_ok g -> threads g !! i = Some p -> deploy_step g i p c = Some (Ret (g', p')) ->
  platform_ok (set_threads g' (<[i := p']> (threads g'))).
Proof.
  intros Hok Hi Hst. destruct p as [[]|id|id rep|id e| | | | | | | | | | | | |]; destruct c; simpl in Hst; try done;
    simplify_eq; try (quiet Hok Hi).
  - case_bool_decide as Hid; [|done]. simplify_eq. exact (new_ok g i id now Hok Hi Hid).
  - apply move_inv in Hst as [Hs ->]. eapply send_cmd_ok; try done. by intros x [= ->].
  - destruct (ctx_done (root g)) eqn:Hr; [|done]. simplify_eq.
    eapply (quiet_move _ _ _ _ _ Hok Hi); simpl; try done. intros ?; simpl. split_and!; try done.
    intros _. right. intros E. by rewrite E in Hr.
  - destruct rep as [[]|]; simplify_eq; quiet Hok Hi.
  - destruct rep as [[]|]; simplify_eq; quiet Hok Hi.
Qed.

Lemma undeploy_step_ok g i p c g' p' :
  platform_ok g -> threads g !! i = Some p -> undeploy_step g i p c = Some (Ret (g', p')) ->
  platform_ok (set_threads g' (<[i := p']> (threads g'))).
Proof.
  intros Hok Hi Hst. destruct p as [| | | | |id|id|id rep|id| | | | | | | |]; destruct c; simpl in Hst; try done;
    simplify_eq; try (quiet Hok Hi).
  all: try (case_bool_decide; [|case_bool_decide]; quiet Hok Hi).
  - apply move_inv in Hst as [Hs ->]. by eapply send_cmd_ok.
  - destruct (ctx_done (root g)) eqn:Hr; [|done]. simplify_eq. quiet Hok Hi.
  - destruct rep as [[]|]; simplify_eq; quiet Hok Hi.
  - destruct rep as [[]|]; simplify_eq; quiet Hok Hi.
Qed.

Lemma close_lock_ok g i ids :
  platform_ok g -> threads g !! i = Some CloseLock -> ids = elements (deployments g) ->
  let g' := mkGocmd ∅ (deps g) (linkManager g) (root g) true (threads g ++ (CloserSend <$> ids)) (effects g) (signals g) in
  platform_ok (set_threads g' (<[i := CloseWait (seq (length (threads g)) (length ids))]> (threads g'))).
Proof.
  intros Hok Hi -> g'. pose proof (lookup_lt_Some _ _ _ Hi) as Hlt.
  eapply (quiet_ok g); simpl; try done; try (apply empty_subseteq).
  - intros j q Hj. destruct (decide (j = i)) as [->|Hne].
    + simplify_eq. rewrite list_lookup_insert_eq by (rewrite length_app; lia).
      eexists. split; [done|]. intros id; simpl. by split_and!.
    + rewrite list_lookup_insert_ne by done. rewrite lookup_app_l by (by eapply lookup_lt_Some).
      exists q. split; [done|]. apply pc_ok_refl.
  - destruct Hok as (H1 & _ & _ & H4 & _).
    intros j q id Hj Hq. apply list_lookup_insert_Some in Hj as [(-> & <- & _)|[_ Hj]]; [done|].
    split; [set_solver|]. apply lookup_app_Some in Hj as [Hj|[_ Hj]]; [by destruct (H4 j q id Hj Hq)|].
    apply list_lookup_fmap_Some in Hj as (x & -> & Hx). simplify_eq/=. apply H1, elem_of_elements.
    by eapply list_elem_of_lookup_2.
Qed.

Lemma close_step_ok g i p c g' p' :
  platform_ok g -> threads g !! i = Some p -> close_step g i p c = Some (Ret (g', p')) ->
  platform_ok (set_threads g' (<[i := p']> (threads g'))).
Proof.
  intros Hok Hi Hst. pose proof Hok as (_ & _ & _ & H4 & _).
  destruct p as [| | | | | | | | | | |ws| | |id|id rep|]; destruct c; simpl in Hst; try done; simplify_eq;
    try (quiet Hok Hi).
  all: try (destruct (gclosed g); simplify_eq; [quiet Hok Hi|by apply close_lock_ok]).
  all: try (eapply (quiet_move _ _ _ _ _ Hok Hi); simpl; try done;
    first [by destruct (root g)|intros ?; simpl; by split_and!]).
  - destruct (forallb _ ws); simplify_eq. quiet Hok Hi.
  - apply move_inv in Hst as [Hs ->]. destruct (H4 i _ id Hi eq_refl). eapply send_cmd_ok; try done. 
  - destruct (H4 i _ id Hi eq_refl) as [Hid _]. eapply (quiet_move _ _ _ _ _ Hok Hi); simpl; try done.
    intros x; simpl. split_and!; try done. destruct rep; [done|]. by intros [_ ?].
  - destruct (H4 i _ id Hi eq_refl) as [Hid _]. destruct rep; simplify_eq.
    eapply (quiet_move _ _ _ _ _ Hok Hi); simpl; try done.
Qed.

Lemma thread_step_ok g i p c g' p' :
  platform_ok g -> threads g !! i = Some p -> thread_step g i p c = Some (Ret (g', p')) ->
  platform_ok (set_threads g' (<[i := p']> (threads g'))).
Proof.
  intros Hok Hi Hst. destruct p; cbn [thread_step] in Hst; try done;
    first [by eapply deploy_step_ok|by eapply undeploy_step_ok|by eapply close_step_ok].
Qed.

(** *** The event loops *)

Lemma take_ok g id g' : platform_ok g -> loop_take g id = Some g' -> platform_ok g'.
Proof.
  intros (H1 & H2 & H3 & H4 & H5) Ht. unfold loop_take in Ht.
  destruct (deps g !! id) as [d|] eqn:Hd; simplify_eq/=. destruct (exited (machine d)) eqn:Hx; [done|].
  destruct (busy d) eqn:Hb; [done|]. destruct (cmdChan d) as [c|] eqn:Hc; simplify_eq.
  set (d' := mkDep (machine d) None (Some (c, root g))).
  assert (flights d' = flights d) as Hf by (unfold flights; simpl; by rewrite Hb, Hc).
  split_and!; simpl.
  - rewrite dom_insert_L. set_solver.
  - intros x y. rewrite lookup_insert_Some. intros [[<- <-]|[Hx' Hy]].
    + destruct (H2 id d Hd) as (A & B & C & D). split_and!; try done. by rewrite Hf.
    + by apply (H2 x y).
  - intros x e Hx'. rewrite dom_insert_L. specialize (H3 _ _ Hx'). set_solver.
  - intros j q x Hj Hq. rewrite dom_insert_L. destruct (H4 j q x Hj Hq). set_solver.
  - intros Hl. destruct (H5 Hl) as [L1 L2]. split; simpl.
    + intros x y c' cx. rewrite lookup_insert_Some. intros [[<- <-]|[Hx' Hy]]; simpl; [|eauto].
      by intros [= <- <-].
    + intros x y. rewrite lookup_insert_Some. intros [[<- <-]|[Hx' Hy]] Hin; [|by apply (L2 x y)].
      specialize (L2 id d Hd Hin). unfold explained in *. by rewrite Hf.
Qed.

(** The outcome of a command in each state. *)
Lemma handle_start_live d c d' es r :
  history_ok d -> act c = ActStart -> ctx c = CtxLive -> handle d c = Ret (d', es, r) ->
  (state d' = StateRunning /\ r = ReplyNil) \/ (state d' = StateFailed /\ r <> ReplyNil) \/
  (d' = d /\ r <> ReplyNil /\ state d <> StatePending).
Proof.
  intros Hh Ha Hc. unfold handle. rewrite Hc, Ha. simpl.
  destruct (IsValidTransition (state d) StateDeploying) eqn:Hv; simpl.
  2:{ intros [= <- <- <-]. right; right. split_and!; try done. intros E. by rewrite E in Hv. }
  unfold do_start. set_state d1 Hh1 Hs1 He1 Ho1 Hx1; [done|done|].
  destruct (start_result c) as [e|]; set_state d2 Hh2 Hs2 He2 Ho2 Hx2;
    try exact Hh1; try (simpl; by rewrite Hs1); intros E; simplify_eq; simpl; auto.
Qed.

Lemma handle_undeploy_live d c d' es r :
  history_ok d -> act c = ActUndeploy -> ctx c = CtxLive -> handle d c = Ret (d', es, r) ->
  (state d' = StateUndeployed /\ r = ReplyNil) \/ (d' = d /\ r <> ReplyNil).
Proof.
  intros Hh Ha Hc. unfold handle. rewrite Hc, Ha. simpl.
  assert (forall d0 log d1 es1 r1, history_ok d0 -> IsValidTransition (state d0) StateUndeployed = true ->
    finish_undeploy d0 c log = Ret (d1, es1, r1) -> state d1 = StateUndeployed /\ r1 = ReplyNil) as Hfin.
  { intros d0 log d1 es1 r1 Hh0 Hv. unfold finish_undeploy. rewrite Hv. cbn [negb].
    set_state d2 Hh2 Hs2 He2 Ho2 Hx2; [done|done|]. intros E. by simplify_eq. }
  destruct (state d) eqn:Hs; try (intros [= <- <- <-]; by right).
  - destruct (do_stop_ok d c Hh Hs) as (d1 & -> & Hh1 & Hs1 & _). cbn [mbind outcome_bind]. intros E.
    left. eapply Hfin; [exact Hh1|by rewrite Hs1|exact E].
  - intros E. left. eapply Hfin; [exact Hh|by rewrite Hs|exact E].
  - intros E. left. eapply Hfin; [exact Hh|by rewrite Hs|exact E].
  - intros [= <- <- <-]. by left.
Qed.

Lemma effects_of_add g id es x :
  effects_of (add_effects g id es) x = effects_of g x ++ (if bool_decide (id = x) then es else []).
Proof.
  unfold effects_of, add_effects; simpl. rewrite filter_app, fmap_app. f_equal.
  case_bool_decide as E; induction es as [|e es IH]; try done; rewrite fmap_cons.
  - rewrite filter_cons_True by done. rewrite fmap_cons. simpl. by f_equal.
  - rewrite filter_cons_False by done. done.
Qed.

(** A reply changes only a goroutine that waits for the same deployment. *)
Lemma receive_pc m id c p r :
  match daction c with
  | ActStart => start_pc m id p | ActUndeploy => undeploy_pc m id p | ActStop => False
  end ->
  (forall x, (x <> id -> start_pc m x p -> start_pc m x (receive p r)) /\
     (x <> id -> undeploy_pc m x p -> undeploy_pc m x (receive p r)) /\
     (failed_pc x p -> failed_pc x (receive p r)) /\ (undeployed_pc x p -> undeployed_pc x (receive p r)) /\
     (p = DeploySend x -> receive p r = DeploySend x)) /\ closer_id (receive p r) = closer_id p.
Proof.
  intros Hp. destruct p as [| |x0 [|]| | | | |x0 [|]| | | | | | | |x0 [|]|]; simpl in *; try (split; [|done]; by intros x; split_and!).
  all: split; [|done]; intros x; split_and!; try done; destruct (daction c); try done; try congruence.
  all: try (intros Hx [? ?]; destruct Hp; congruence).
Qed.

(** After a command handled with a live context the registered deployment is
    explained again: the reply turns the sender into the caller that takes a
    failed or undeployed deployment out of the registry. *)
Lemma handled_explained g g' id d c p m' es r a :
  history_ok (machine d) -> busy d = Some (c, CtxLive) -> id ∈ deployments g ->
  threads g' !! sender c = Some (receive p r) ->
  match daction c with
  | ActStart => start_pc (deployments g) id p | ActUndeploy => undeploy_pc (deployments g) id p | ActStop => False
  end ->
  (forall P : pc -> Prop, (P p -> P (receive p r)) -> some_thread g P -> some_thread g' P) ->
  handle (machine d) (mkCmd (daction c) CtxLive (on_start a) (on_stop a) (clock a)) = Ret (m', es, r) ->
  explained g id d -> explained g' id (mkDep m' (cmdChan d) None).
Proof.
  intros Hhist Hb Hin Ht Hpk Hsome Hh L2. destruct (receive_pc _ _ c _ r Hpk) as [Hrec _].
  destruct (Hrec id) as (_ & _ & F1 & F2 & F3). unfold explained, flights in *; simpl.
  rewrite Hb in L2; simpl in L2. rewrite app_nil_r. rewrite fmap_app in L2; simpl in L2.
  assert (m' = machine d -> (state (machine d) = StatePending -> daction c <> ActStart) ->
    match state m' with
    | StatePending => some_thread g' (eq (DeploySend id)) \/ ActStart ∈ (daction <$> option_list (cmdChan d))
    | StateRunning => True | StateFailed => some_thread g' (failed_pc id)
    | StateUndeployed => some_thread g' (undeployed_pc id) | _ => False end) as Hsame.
  { intros -> Hns. destruct (state (machine d)); try done; try (by apply Hsome).
    destruct L2 as [L2|L2]; [left; apply Hsome; [|done]; intros <-; symmetry; by apply F3|].
    apply elem_of_app in L2 as [L2|L2]; [by right|]. apply list_elem_of_singleton in L2.
    by destruct (Hns eq_refl). }
  destruct (daction c) eqn:Hac; [|done|].
  - destruct (handle_start_live _ (mkCmd ActStart CtxLive (on_start a) (on_stop a) (clock a)) _ _ _
      Hhist eq_refl eq_refl Hh) as [[-> _]|[[-> Hr]|(E & Hr & Hns)]]; [done| |].
    + exists (sender c), (receive p r). split; [done|].
      destruct p as [| |x0 [|]| | | | |x0 [|]| | | | | | | |x0 [|]|]; simpl in *; try done. by destruct r.
    + apply Hsame; [done|]. by intros ?.
  - destruct (handle_undeploy_live _ (mkCmd ActUndeploy CtxLive (on_start a) (on_stop a) (clock a)) _ _ _
      Hhist eq_refl eq_refl Hh) as [[-> ->]|[E Hr]]; [|by apply Hsame].
    exists (sender c), (receive p ReplyNil). split; [done|].
    destruct p as [| |x0 [|]| | | | |x0 [|]| | | | | | | |x0 [|]|]; simpl in *; try done. by destruct Hpk.
Qed.

Lemma finish_ok g id a o :
  platform_ok g -> loop_finish g id a = Some o -> exists g', o = Ret g' /\ platform_ok g'.
Proof.
  intros (H1 & H2 & H3 & H4 & H5) Hf. unfold loop_finish in Hf.
  destruct (deps g !! id) as [d|] eqn:Hd; simplify_eq/=.
  destruct (busy d) as [[c cx]|] eqn:Hb; simplify_eq/=.
  destruct (H2 id d Hd) as (A & B & C & D).
  set (k := mkCmd (daction c) cx (on_start a) (on_stop a) (clock a)).
  destruct (handle_ok (machine d) k _ A) as (m' & es & r & Hh & Hok'); [apply B; congruence|].
  rewrite Hh. cbn [mbind outcome_bind]. eexists. split; [reflexivity|].
  assert (flight_ok g id c) as (p & Hp & Hpk) by (apply C; unfold flights; rewrite Hb; apply elem_of_app; right; by left).
  destruct (receive_pc _ _ c _ r Hpk) as [Hrec Hcid].
  set (g1 := set_deps g (<[id := mkDep m' (cmdChan d) None]> (deps g))).
  set (g' := post_reply (add_signals (add_effects g1 id es) id es) (sender c) r).
  assert (forall j q, threads g !! j = Some q -> threads g' !! j =
    Some (if decide (j = sender c) then receive q r else q)) as Hth.
  { intros j q Hj. unfold g'. simpl. destruct (decide (j = sender c)) as [->|Hne].
    - by rewrite list_lookup_alter_eq, Hj.
    - by rewrite list_lookup_alter_ne. }
  assert (forall q : pc, threads g !! sender c = Some q -> threads g' !! sender c = Some (receive q r)) as Hth_sender.
  { intros q Hq. rewrite (Hth _ _ Hq). by rewrite decide_True. }
  assert (forall x y, flight_ok g x y -> (x <> id \/ sender y <> sender c) -> flight_ok g' x y) as Hfl.
  { intros x y (q & Hq & Hk) Hne. eexists. split; [by apply Hth|].
    case_decide as E; [|exact Hk]. rewrite E, Hp in Hq. simplify_eq. destruct Hne as [Hne|]; [|done].
    destruct (Hrec x) as (? & ? & _). destruct (daction y); auto. }
  assert (forall P : pc -> Prop, (P p -> P (receive p r)) -> some_thread g P -> some_thread g' P) as Hsome.
  { intros P HP (j & q & Hj & Hq). eexists _, _. split; [by apply Hth|]. case_decide as E; [|done].
    subst j. rewrite Hp in Hj. simplify_eq. auto. }
  split_and!; simpl.
  - rewrite dom_insert_L. set_solver.
  - intros x y. rewrite lookup_insert_Some. unfold loop_ok.
    replace (effects_of g' x) with (effects_of (add_effects g1 id es) x) by done. rewrite effects_of_add.
    intros [[<- <-]|[Hx Hy]].
    + rewrite bool_decide_eq_true_2 by done. split_and!; try done.
      intros y Hy. unfold flights in Hy. simpl in Hy. rewrite app_nil_r in Hy.
      apply Hfl; [apply C; unfold flights; set_solver|]. right. apply (D y c cx); [|done].
      by destruct (cmdChan d); simpl in Hy; [apply list_elem_of_singleton in Hy as ->|apply elem_of_nil in Hy].
    + rewrite bool_decide_eq_false_2 by done. rewrite app_nil_r.
      destruct (H2 x y Hy) as (A' & B' & C' & D'). split_and!; try done. intros z Hz. apply Hfl; auto.
  - intros x e. rewrite dom_insert_L, elem_of_app. intros [Hx|Hx]; [specialize (H3 _ _ Hx); set_solver|].
    apply list_elem_of_fmap in Hx as (? & ? & _). simplify_eq. set_solver.
  - intros j q x Hj Hq. rewrite dom_insert_L.
    assert (exists q0, threads g !! j = Some q0 /\ closer_id q0 = Some x) as (q0 & Hq0 & Hcx).
    { destruct (threads g !! j) as [q0|] eqn:E.
      - exists q0. split; [done|]. pose proof (Hth j q0 E) as Ht. unfold g' in Ht; simpl in Ht.
        rewrite Ht in Hj. simplify_eq. case_decide as Ej; [|done]. subst j. rewrite Hp in E. simplify_eq.
        by rewrite Hcid in Hq.
      - apply lookup_ge_None_1 in E. apply lookup_lt_Some in Hj. rewrite length_alter in Hj. lia. }
    destruct (H4 j q0 x Hq0 Hcx). set_solver.
  - intros Hl. destruct (H5 Hl) as [L1 L2]. pose proof (L1 id d c cx Hd Hb) as ->. split; simpl.
    + intros x y c' cx'. rewrite lookup_insert_Some. intros [[<- <-]|[Hx Hy]]; simpl; [done|eauto].
    + intros x y. rewrite lookup_insert_Some. intros [[<- <-]|[Hx Hy]] Hin.
      2:{ specialize (L2 x y Hy Hin). unfold explained in *. destruct (Hrec x) as (_ & _ & F1 & F2 & F3).
          destruct (state (machine y)); try done; try (by apply Hsome).
          destruct L2 as [L2|L2]; [left|by right]. apply Hsome; [|done]. intros <-. symmetry. by apply F3. }
      destruct A as [Hhist _].
      exact (handled_explained g g' id d c p m' es r a Hhist Hb Hin (Hth_sender p Hp) Hpk Hsome Hh (L2 id d Hd Hin)).
Qed.

(** *** All steps *)

Lemma platform_step_ok g a g' : platform_ok g -> gstep g a = Some (Ret g') -> platform_ok g'.
Proof.
  intros Hok Hst. destruct a as [i c|id|id an|]; simpl in Hst.
  - destruct (threads g !! i) as [p|] eqn:Hi; simplify_eq/=.
    destruct (thread_step g i p c) as [[[g1 p']|]|] eqn:E; simplify_eq/=. by eapply thread_step_ok.
  - destruct (loop_take g id) as [g1|] eqn:E; simplify_eq/=. by eapply take_ok.
  - destruct (finish_ok g id an _ Hok Hst) as (g1 & [= ->] & ?). done.
  - simplify_eq. destruct Hok as (H1 & H2 & H3 & H4 & H5). split_and!; try done. simpl.
    by destruct (root g).
Qed.

(** The calls as they begin. *)
Definition starts (p : pc) : bool :=
  match p with DeployNew _ | UndeployLookup _ | CloseLock => true | _ => false end.

Lemma NewGoCMD_ok ts : forallb starts ts = true -> platform_ok (NewGoCMD ts).
Proof.
  intros Hts. rewrite forallb_forall in Hts. split_and!; simpl; try done.
  - by intros id e ?%elem_of_nil.
  - intros j p id Hj. assert (starts p = true) as Hp; [|by destruct p].
    apply Hts, list_elem_of_In. by eapply list_elem_of_lookup_2.
Qed.

Lemma run_platform_ok acts g g' : platform_ok g -> run g acts = Some (Ret g') -> platform_ok g'.
Proof.
  revert g. induction acts as [|a acts IH]; intros g Hg Hr; simpl in Hr; [by simplify_eq|].
  destruct (gstep g a) as [[g1|]|] eqn:E; simplify_eq. eauto using platform_step_ok.
Qed.

(** The caller that is changing a registered deployment. *)
Definition working_on (id : string) (p : pc) : Prop :=
  match p with
  | DeploySend id' | DeployWait id' _ | DeployDelete id' _ | UndeployWait id' _ | UndeployDelete id' => id' = id
  | _ => False
  end.

Lemma explained_working g id d :
  (forall c, c ∈ flights d -> flight_ok g id c) -> id ∈ deployments g -> explained g id d ->
  state (machine d) = StateRunning \/ some_thread g (working_on id).
Proof.
  intros HC Hin Hex. unfold explained in Hex. destruct (state (machine d)); auto; try done; right.
  - destruct Hex as [(j & p & Hj & <-)|Hex]; [by exists j, (DeploySend id)|].
    apply list_elem_of_fmap in Hex as (c & Hc & Hcf). destruct (HC c Hcf) as (p & Hp & Hk).
    rewrite <- Hc in Hk. exists (sender c), p. split; [done|]. by destruct p as [| |? [|]| | | | | | | | | | | | | |].
  - destruct Hex as (j & p & Hj & Hp). exists j, p. split; [done|].
    by destruct p as [| |? [[]|]| | | | | | | | | | | | | |].
  - destruct Hex as (j & p & Hj & Hp). exists j, p. split; [done|].
    by destruct p as [| | | | | | |? [[]|]| | | | | | | | |].
Qed.

(** C5. Under every interleaving of deployments, undeployments, Close and the event
    loops: the verticle of each deployment is started at most once and stopped at
    most once, after a successful start, with the exits notified; and as long as
    the root context is live, every deployment listed in the registry is running,
    unless some call is just deploying it or undeploying it. *)
Theorem registry_lists_running ts acts g :
  forallb starts ts = true -> run (NewGoCMD ts) acts = Some (Ret g) ->
  (forall id d, deps g !! id = Some d -> deployment_ok (machine d) (effects_of g id)) /\
  (root g = CtxLive -> forall id, id ∈ deployments g ->
     exists d, deps g !! id = Some d /\
       (state (machine d) = StateRunning \/ some_thread g (working_on id))).
Proof.
  intros Hts Hr. destruct (run_platform_ok _ _ _ (NewGoCMD_ok ts Hts) Hr) as (H1 & H2 & _ & _ & H5). split.
  - intros id d Hd. by destruct (H2 id d Hd).
  - intros Hl id Hin. destruct (proj1 (elem_of_dom _ _) (H1 id Hin)) as [d Hd]. exists d. split; [done|].
    destruct (H5 Hl) as [_ L2]. destruct (H2 id d Hd) as (_ & _ & C & _). apply explained_working; auto.
Qed.

Definition quick : answers := mkAnswers None None (fun n => Z.of_nat n).

Definition failing : answers := mkAnswers (Some 1) None (fun n => Z.of_nat n).

(** A whole deployment by goroutine [i]. *)
Definition deploy_acts (i : nat) (id : string) (a : answers) : list gact :=
  [Thread i (PickNew id 0); Thread i PickSend; Take id; Finish id a; Thread i PickReply].

Lemma registry_lists_running_witness :
  exists g, run (NewGoCMD [DeployNew false]) (deploy_acts 0 "d1" quick) = Some (Ret g) /\
    "d1"%string ∈ deployments g /\
    exists d, deps g !! "d1"%string = Some d /\
      (state (machine d) = StateRunning \/ some_thread g (working_on "d1")).
Proof.
  eexists. split; [vm_compute; reflexivity|]. split; [apply (bool_decide_unpack _); vm_compute; exact I|].
  apply (registry_lists_running [DeployNew false] (deploy_acts 0 "d1" quick) _ eq_refl ltac:(vm_compute; reflexivity)).
  - vm_compute. reflexivity.
  - apply (bool_decide_unpack _); vm_compute; exact I.
Defined.

(** ** After the cancellation of the root context *)

Definition no_live_command (g : gocmd) : Prop :=
  ctx_done (root g) = true /\
  forall id d c cx, deps g !! id = Some d -> busy d = Some (c, cx) -> ctx_done cx = true.

Lemma thread_step_quiet g i p c g' p' :
  thread_step g i p c = Some (Ret (g', p')) ->
  effects g' = effects g /\ (ctx_done (root g) = true -> ctx_done (root g') = true) /\
  (forall id d, deps g' !! id = Some d -> busy d = None \/ exists d0, deps g !! id = Some d0 /\ busy d0 = busy d).
Proof.
  assert (forall id a i g1, send_cmd g id a i = Some (Ret g1) ->
    effects g1 = effects g /\ root g1 = root g /\
    (forall x d, deps g1 !! x = Some d -> busy d = None \/ exists d0, deps g !! x = Some d0 /\ busy d0 = busy d)) as Hsend.
  { intros id a k g1. unfold send_cmd. destruct (deps g !! id) as [d|] eqn:Hd; [|done].
    destruct (exited _); [done|]. destruct (cmdChan d); [done|]. intros [= <-]. split_and!; try done.
    intros x y. simpl. rewrite lookup_insert_Some. intros [[<- <-]|[_ Hy]]; eauto. }
  intros Hst. destruct p; cbn [thread_step] in Hst; try done; destruct c;
    unfold deploy_step, undeploy_step, close_step in Hst; repeat case_match; simplify_eq;
    try (apply move_inv in Hst as [Hs ->]; destruct (Hsend _ _ _ _ Hs) as (? & -> & ?); by split_and!);
    split_and!; try done; eauto; try congruence; simpl; repeat case_match; try done.
  intros x d. rewrite lookup_insert_Some. intros [[<- <-]|[_ Hy]]; eauto.
Qed.

Lemma gstep_cancelled g a g' :
  no_live_command g -> gstep g a = Some (Ret g') -> no_live_command g' /\ effects g' = effects g.
Proof.
  intros [Hr Hb] Hst. destruct a as [i c|id|id an|]; simpl in Hst.
  - destruct (threads g !! i) as [p|]; simplify_eq/=.
    destruct (thread_step g i p c) as [[[g1 p']|]|] eqn:E; simplify_eq/=.
    destruct (thread_step_quiet _ _ _ _ _ _ E) as (He & Hr1 & Hd). split; [|done]. split; [by apply Hr1|].
    simpl. intros id d k cx Hx Hk. destruct (Hd id d Hx) as [|(d0 & Hd0 & Eq)]; [congruence|].
    eapply Hb; [exact Hd0|]. by rewrite Eq.
  - unfold loop_take in Hst. destruct (deps g !! id) as [d|] eqn:Hd; simplify_eq/=.
    destruct (exited (machine d)); [done|]. destruct (busy d) eqn:Hbd; [done|].
    destruct (cmdChan d); simplify_eq/=. split; [|done]. split; [done|]. simpl.
    intros x y k cx. rewrite lookup_insert_Some. intros [[<- <-]|[_ Hy]]; simpl; [|eauto].
    by intros [= <- <-].
  - unfold loop_finish in Hst. destruct (deps g !! id) as [d|] eqn:Hd; simplify_eq/=.
    destruct (busy d) as [[k cx]|] eqn:Hbd; simplify_eq/=. unfold handle in Hst; simpl in Hst.
    rewrite (Hb id d k cx Hd Hbd) in Hst. simpl in Hst. simplify_eq. split.
    + split; [done|]. simpl. intros x y k' cx'. rewrite lookup_insert_Some.
      intros [[<- <-]|[_ Hy]]; simpl; [done|eauto].
    + simpl. by rewrite app_nil_r.
  - simplify_eq. split; [|done]. split; [|done]. simpl. by rewrite Hr.
Qed.

(** Once the root context is done, commands are refused: whatever happens then,
    Close included, no verticle is started and none is stopped any more. *)
Theorem cancelled_platform_stops_nothing g acts g' :
  no_live_command g -> run g acts = Some (Ret g') -> effects g' = effects g.
Proof.
  revert g. induction acts as [|a acts IH]; intros g Hg Hr; simpl in Hr; [by simplify_eq|].
  destruct (gstep g a) as [[g1|]|] eqn:E; simplify_eq.
  destruct (gstep_cancelled _ _ _ Hg E) as [Hg1 He]. rewrite <- He. eauto.
Qed.

(** Close after the parent context was cancelled: it returns, and the verticle
    that was running has not been stopped. *)
Lemma cancelled_platform_stops_nothing_witness :
  exists g g', run (NewGoCMD [DeployNew false; CloseLock]) (deploy_acts 0 "d1" quick ++ [CancelParent]) = Some (Ret g) /\
    run g [Thread 1 PickReply; Thread 2 PickSend; Take "d1"; Finish "d1" quick; Thread 2 PickReply;
           Thread 1 PickReply; Thread 1 PickReply] = Some (Ret g') /\
    threads g' = [DeployReturned "d1" None; CloseReturned; CloserDone] /\
    (state ∘ machine <$> deps g' !! "d1"%string) = Some StateRunning /\
    effects g' = effects g /\ effects g = [("d1"%string, CallStart)].
Proof.
  eexists _, _. split; [vm_compute; reflexivity|]. split; [vm_compute; reflexivity|].
  split; [reflexivity|]. split; [vm_compute; reflexivity|]. split; [|reflexivity].
  eapply (cancelled_platform_stops_nothing _ [Thread 1 PickReply; Thread 2 PickSend; Take "d1"; Finish "d1" quick;
    Thread 2 PickReply; Thread 1 PickReply; Thread 1 PickReply]); [|vm_compute; reflexivity].
  split; [reflexivity|]. intros id d c cx Hd Hb. simpl in Hd.
  destruct (decide (id = "d1"%string)) as [->|Hne].
  - vm_compute in Hd. injection Hd as <-. discriminate Hb.
  - exfalso. revert Hd. clear -Hne. intros Hd. apply (elem_of_dom_2 (D := gset string)) in Hd.
    assert (id ∈ ({["d1"%string]} : gset string)) as Hin; [|by apply elem_of_singleton in Hin].
    revert Hd. match goal with |- id ∈ ?S -> _ => assert (S = {["d1"%string]}) as -> end; [|done].
    apply (bool_decide_unpack _). vm_compute. exact I.
Defined.

(** Two overlapping undeployments of one deployment: the second sends on the
    channel the event loop has closed, which panics. *)
Theorem overlapping_undeploys_panic :
  run (NewGoCMD [DeployNew false; UndeployLookup "d1"; UndeployLookup "d1"])
    (deploy_acts 0 "d1" quick ++ [Thread 1 PickReply; Thread 2 PickReply; Thread 1 PickSend; Take "d1";
       Finish "d1" quick; Thread 1 PickReply; Thread 1 PickReply; Thread 2 PickSend]) = Some Panic.
Proof. vm_compute. reflexivity. Qed.

(** ** Deployments nobody can reach *)

Definition reaches (id : string) (p : pc) : Prop :=
  match p with DeploySend id' | UndeploySend id' | CloserSend id' => id' = id | _ => False end.

(** No command is on its way and nobody can send one. *)
Definition abandoned (g : gocmd) (id : string) (d : dep) : Prop :=
  deps g !! id = Some d /\ flights d = [] /\ id ∉ deployments g /\
  forall j p, threads g !! j = Some p -> ~ reaches id p.

Lemma send_cmd_other g x a i g' id : x <> id -> send_cmd g x a i = Some (Ret g') ->
  deps g' !! id = deps g !! id /\ deployments g' = deployments g /\ threads g' = threads g.
Proof.
  intros Hx. unfold send_cmd. destruct (deps g !! x); [|done]. destruct (exited _); [done|].
  destruct (cmdChan _); [done|]. intros [= <-]. simpl. by rewrite lookup_insert_ne.
Qed.

Lemma thread_step_abandoned g i p c g' p' id d :
  abandoned g id d -> threads g !! i = Some p -> thread_step g i p c = Some (Ret (g', p')) ->
  deps g' !! id = Some d /\ id ∉ deployments g' /\ ~ reaches id p' /\
  (forall j q, threads g' !! j = Some q -> ~ reaches id q).
Proof.
  intros (Hd & Hf & Hn & Hth) Hi Hst. pose proof (Hth i p Hi) as Hp.
  destruct p; cbn [thread_step] in Hst; try done; destruct c; unfold deploy_step, undeploy_step, close_step in Hst;
    repeat case_match; simplify_eq;
    try (apply move_inv in Hst as [Hs ->]; simpl in Hp;
         destruct (send_cmd_other _ _ _ _ _ id Hp Hs) as (-> & -> & ->); simpl; split_and!; auto);
    simpl; split_and!; try done; try set_solver; try (intros ->; set_solver).
  all: try (repeat case_bool_decide; simpl; try done; intros ->; done).
  all: try (intros j q [Hj|[_ Hj]]%lookup_app_Some; [by apply (Hth j)|];
    apply list_lookup_fmap_Some in Hj as (x & -> & Hx); simpl; intros ->;
    apply Hn, elem_of_elements; by eapply list_elem_of_lookup_2).
  all: try (case_bool_decide; simplify_eq; simpl; rewrite ?lookup_insert_ne by congruence; done).
  all: try (repeat case_bool_decide; simplify_eq; simpl; congruence).
  all: case_bool_decide; simplify_eq; set_solver.
Qed.

Lemma gstep_abandoned g a g' id d : abandoned g id d -> gstep g a = Some (Ret g') -> abandoned g' id d.
Proof.
  intros Hab Hst. pose proof Hab as (Hd & Hf & Hn & Hth).
  assert (forall x y, deps g !! x = Some y -> flights y <> [] -> x <> id) as Hother
    by (intros x y Hx Hy ->; simplify_eq).
  destruct a as [i c|x|x an|]; simpl in Hst.
  - destruct (threads g !! i) as [p|] eqn:Hi; simplify_eq/=.
    destruct (thread_step g i p c) as [[[g1 p']|]|] eqn:E; simplify_eq/=.
    destruct (thread_step_abandoned _ _ _ _ _ _ _ _ Hab Hi E) as (? & ? & Hp' & Ht).
    split_and!; try done. intros j q [(-> & <- & _)|[_ Hj]]%list_lookup_insert_Some; eauto.
  - unfold loop_take in Hst. destruct (deps g !! x) as [y|] eqn:Hy; simplify_eq/=.
    destruct (exited _); [done|]. destruct (busy y); [done|]. destruct (cmdChan y) eqn:Hc; simplify_eq/=.
    assert (x <> id) by (eapply Hother; [done|]; unfold flights; by rewrite Hc).
    split_and!; try done. simpl. by rewrite lookup_insert_ne.
  - unfold loop_finish in Hst. destruct (deps g !! x) as [y|] eqn:Hy; simplify_eq/=.
    destruct (busy y) as [[k cx]|] eqn:Hb; simplify_eq/=.
    assert (x <> id) by (eapply Hother; [done|]; unfold flights; rewrite Hb; by destruct (cmdChan y)).
    destruct (handle _ _) as [[[m es] r]|]; simplify_eq/=.
    split_and!; try done; simpl; [by rewrite lookup_insert_ne|].
    intros j q Hj. assert (exists q0, threads g !! j = Some q0 /\ (q = q0 \/ q = receive q0 r)) as (q0 & Hq0 & Hq).
    { destruct (decide (j = sender k)) as [->|Hne].
      - rewrite list_lookup_alter_eq in Hj. apply fmap_Some in Hj as (q0 & ? & ->). eauto.
      - rewrite list_lookup_alter_ne in Hj by done. eauto. }
    destruct Hq as [->| ->]; [by eapply Hth|]. specialize (Hth j q0 Hq0).
    by destruct q0 as [| |? [|]| | | | |? [|]| | | | | | | |? [|]|].
  - simplify_eq. by split_and!.
Qed.

(** A deployment that left the registry with its event loop idle is never
    touched again: its loop runs for ever, and its verticle is never stopped. *)
Theorem abandoned_for_ever g acts g' id d :
  abandoned g id d -> run g acts = Some (Ret g') -> deps g' !! id = Some d.
Proof.
  revert g. induction acts as [|a acts IH]; intros g Hg Hr; simpl in Hr.
  { simplify_eq. by destruct Hg. }
  destruct (gstep g a) as [[g1|]|] eqn:E; simplify_eq. eauto using gstep_abandoned.
Qed.

(** Every failed start leaves such a deployment, and so does a start that
    succeeds after DeployVerticle has given up waiting. *)
Lemma abandoned_for_ever_witness :
  (exists g d, run (NewGoCMD [DeployNew false]) (deploy_acts 0 "d1" failing ++ [Thread 0 PickReply]) = Some (Ret g) /\
     threads g = [DeployReturned "d1" (Some (Refused (ReplyErr 1)))] /\ exited (machine d) = false /\
     forall acts g', run g acts = Some (Ret g') -> deps g' !! "d1"%string = Some d) /\
  (exists g d, run (NewGoCMD [DeployNew false])
       [Thread 0 (PickNew "d1" 0); Thread 0 PickSend; Take "d1"; Thread 0 PickTimeout; Thread 0 PickReply;
        Finish "d1" quick] = Some (Ret g) /\
     threads g = [DeployReturned "d1" (Some StartTimeout)] /\ state (machine d) = StateRunning /\
     forall acts g', run g acts = Some (Ret g') -> deps g' !! "d1"%string = Some d).
Proof.
  split; eexists _, _; (split; [vm_compute; reflexivity|]); (split; [reflexivity|]);
    (split; [|intros acts g' Hr; refine (abandoned_for_ever _ acts g' _ _ _ Hr);
      split; [vm_compute; reflexivity|]; split; [reflexivity|];
      split; [apply (bool_decide_unpack _); vm_compute; exact I|];
      intros [|j] p Hp; [injection Hp as <-; exact (fun H => H)|by destruct j]]); reflexivity.
Defined.

(** ** The supervisor on this platform *)

(** The state the map gives; the transient states of a command being handled
    are not shown. *)
Definition GetState (g : gocmd) (id : string) : option DeploymentState :=
  if bool_decide (id = EmptyString) then None
  else if bool_decide (id ∈ deployments g) then state ∘ machine <$> deps g !! id else None.

(** The calls of one goroutine run to their end with nothing in between; the
    identity of a new deployment and the answers of its verticle come from a
    supply. *)
Record world : Type := mkWorld {
  platform : gocmd;
  supply : list (string * answers)
}.

Definition run_or_stay (g : gocmd) (acts : list gact) : gocmd :=
  match run g acts with Some (Ret g') => g' | _ => g end.

Definition deploy_alone (w : world) (child : string) : world * option string :=
  match supply w with
  | [] => (w, None)
  | (id, a) :: rest =>
      let i := length (threads (platform w)) in
      let g := set_threads (platform w) (threads (platform w) ++ [DeployNew false]) in
      let g := run_or_stay g (deploy_acts i id a) in
      match threads g !! i with
      | Some (DeployReturned id None) => (mkWorld g rest, Some id)
      | _ => (mkWorld (run_or_stay g [Thread i PickReply]) rest, None)
      end
  end.

Definition undeploy_alone (w : world) (id : string) : world :=
  let i := length (threads (platform w)) in
  let g := set_threads (platform w) (threads (platform w) ++ [UndeployLookup id]) in
  let g := run_or_stay g [Thread i PickReply] in
  let g := run_or_stay g [Thread i PickSend; Take id; Finish id quick; Thread i PickReply; Thread i PickReply] in
  mkWorld g (supply w).

#[export] Instance world_gocmd : GoCMD world :=
  {| DeployVerticle := deploy_alone;
     UndeployVerticle := undeploy_alone;
     GetDeploymentState := fun w id => GetState (platform w) id |}.

(** A call of DeployVerticle that has its success reply. *)
Definition deployed_pc (p : pc) : option string :=
  match p with DeployWait id (Some ReplyNil) | DeployReturned id None => Some id | _ => None end.

Definition deployed_ok (g : gocmd) : Prop :=
  forall j p id, threads g !! j = Some p -> deployed_pc p = Some id ->
    exists d, deps g !! id = Some d /\ (state (machine d) = StateRunning \/ state (machine d) = StateUndeployed).

Lemma thread_step_machines g i p c g' p' :
  thread_step g i p c = Some (Ret (g', p')) ->
  (forall id d, deps g !! id = Some d -> exists d', deps g' !! id = Some d' /\ machine d' = machine d) /\
  (forall id, deployed_pc p' = Some id -> deployed_pc p = Some id) /\
  (forall j q, threads g' !! j = Some q -> threads g !! j = Some q \/ deployed_pc q = None).
Proof.
  assert (forall id a i g1, send_cmd g id a i = Some (Ret g1) -> threads g1 = threads g /\
    forall x d, deps g !! x = Some d -> exists d', deps g1 !! x = Some d' /\ machine d' = machine d) as Hsend.
  { intros id a k g1. unfold send_cmd. destruct (deps g !! id) as [d|] eqn:Hd; [|done].
    destruct (exited _); [done|]. destruct (cmdChan d); [done|]. intros [= <-]. split; [done|].
    intros x y Hx. simpl. destruct (decide (id = x)) as [->|Hne].
    - rewrite lookup_insert_eq. simplify_eq. by eexists.
    - rewrite lookup_insert_ne by done. eauto. }
  intros Hst. destruct p; cbn [thread_step] in Hst; try done; destruct c;
    unfold deploy_step, undeploy_step, close_step in Hst; repeat case_match; simplify_eq;
    try (apply move_inv in Hst as [Hs ->]; destruct (Hsend _ _ _ _ Hs) as (-> & ?); split_and!; by eauto);
    simpl; split_and!; eauto; try done; repeat case_bool_decide; simplify_eq; try done.
  all: try (intros j q [Hj|[_ Hj]]%lookup_app_Some; [by left|right];
    by apply list_lookup_fmap_Some in Hj as (x & -> & Hx)).
  all: intros x d Hx; rewrite lookup_insert_ne by congruence; eauto.
Qed.

(** A running deployment stays running until it is undeployed. *)
Lemma handle_keeps d c d' es r :
  history_ok d -> act c <> ActStop -> handle d c = Ret (d', es, r) ->
  (state d = StateRunning \/ state d = StateUndeployed -> state d' = StateRunning \/ state d' = StateUndeployed) /\
  (act c = ActStart -> r = ReplyNil -> state d' = StateRunning).
Proof.
  intros Hh Ha H. destruct (ctx_done (ctx c)) eqn:Hc.
  { unfold handle in H. rewrite Hc in H. by simplify_eq. }
  assert (ctx c = CtxLive) as Hl by (by destruct (ctx c)).
  destruct (act c) eqn:Hact; [|done|].
  - destruct (handle_start_live _ _ _ _ _ Hh Hact Hl H) as [[-> ->]|[[Hs Hr]|(-> & Hr & Hs)]]; split; auto; try done.
    intros Hd. exfalso. unfold handle in H. rewrite Hc, Hact in H.
    destruct Hd as [E|E]; rewrite E in H; simpl in H; simplify_eq; congruence.
  - destruct (handle_undeploy_live _ _ _ _ _ Hh Hact Hl H) as [[-> ->]|[-> Hr]]; split; auto; done.
Qed.

Lemma gstep_deployed g a g' :
  platform_ok g -> deployed_ok g -> gstep g a = Some (Ret g') -> deployed_ok g'.
Proof.
  intros (_ & H2 & _) Hdep Hst. destruct a as [i c|x|x an|]; simpl in Hst.
  - destruct (threads g !! i) as [p|] eqn:Hi; simplify_eq/=.
    destruct (thread_step g i p c) as [[[g1 p']|]|] eqn:E; simplify_eq/=.
    destruct (thread_step_machines _ _ _ _ _ _ E) as (Hm & Hp & Hth).
    assert (forall j q id, threads g !! j = Some q -> deployed_pc q = Some id -> exists d, deps g1 !! id = Some d /\
      (state (machine d) = StateRunning \/ state (machine d) = StateUndeployed)) as Hold.
    { intros j q id Hj Hq. destruct (Hdep j q id Hj Hq) as (d & Hd & Hs).
      destruct (Hm id d Hd) as (d' & Hd' & Em). exists d'. by rewrite Em. }
    intros j q id [(-> & <- & _)|[_ Hj]]%list_lookup_insert_Some Hq; [by eapply Hold; [|apply Hp]|].
    destruct (Hth j q Hj); [eauto|congruence].
  - unfold loop_take in Hst. destruct (deps g !! x) as [y|] eqn:Hy; simplify_eq/=.
    destruct (exited _); [done|]. destruct (busy y); [done|]. destruct (cmdChan y) eqn:Hc; simplify_eq/=.
    intros j q id Hj Hq. destruct (Hdep j q id Hj Hq) as (d0 & Hd & Hs). simpl.
    destruct (decide (x = id)) as [->|]; [|rewrite lookup_insert_ne by done; eauto].
    rewrite lookup_insert_eq. simplify_eq. by eexists.
  - unfold loop_finish in Hst. destruct (deps g !! x) as [y|] eqn:Hy; simplify_eq/=.
    destruct (busy y) as [[k cx]|] eqn:Hb; simplify_eq/=.
    destruct (H2 x y Hy) as ([Hhist _] & _ & C & _).
    destruct (handle _ _) as [[[m es] r]|] eqn:Hh; simplify_eq/=.
    assert (flight_ok g x k) as (p & Hp & Hpk) by (apply C; unfold flights; rewrite Hb; apply elem_of_app; right; by left).
    assert (daction k <> ActStop) as Hns by (intros E; by rewrite E in Hpk).
    destruct (fun H => handle_keeps _ _ _ _ _ Hhist H Hh) as [Hkeep Hnew]; [done|].
    simpl in Hnew. intros j q id Hj Hq. simpl.
    assert (threads g !! j = Some q \/ (p = DeployWait id None /\ r = ReplyNil)) as [Hj'|[-> ->]].
    { simpl in Hj. destruct (decide (j = sender k)) as [->|Hne].
      - rewrite list_lookup_alter_eq, Hp in Hj. simpl in Hj. simplify_eq.
        destruct p as [| |? [|]| | | | |? [|]| | | | | | | |? [|]|]; simpl in *; auto; try done.
        destruct r; simplify_eq. by right.
      - rewrite list_lookup_alter_ne in Hj by done. by left. }
    + destruct (Hdep j q id Hj' Hq) as (d & Hd & Hs). destruct (decide (x = id)) as [->|].
      * rewrite lookup_insert_eq. simplify_eq. eexists. split; [done|]. by apply Hkeep.
      * rewrite lookup_insert_ne by done. eauto.
    + destruct (daction k) eqn:Hk; simpl in Hpk; try done. subst id. rewrite lookup_insert_eq.
      eexists. split; [done|]. left. by apply Hnew.
  - by simplify_eq.
Qed.

Lemma run_deployed acts g g' :
  platform_ok g -> deployed_ok g -> run g acts = Some (Ret g') -> deployed_ok g'.
Proof.
  revert g. induction acts as [|a acts IH]; intros g Hg Hd Hr; simpl in Hr; [by simplify_eq|].
  destruct (gstep g a) as [[g1|]|] eqn:E; simplify_eq. eauto using platform_step_ok, gstep_deployed.
Qed.

(** The supervisor looks for the state FAILED.  A deployment that was deployed
    successfully never has it, under any interleaving: to the supervisor a child
    looks failed only when it is no longer in the registry, that is when somebody
    has undeployed it.  A verticle that breaks down while running is never
    restarted. *)
Theorem supervisor_sees_only_missing ts acts g j id :
  forallb starts ts = true -> run (NewGoCMD ts) acts = Some (Ret g) ->
  threads g !! j = Some (DeployReturned id None) -> id <> EmptyString ->
  getChildState (mkWorld g []) id = StateFailed <-> id ∉ deployments g.
Proof.
  intros Hts Hr Hj Hid.
  assert (deployed_ok (NewGoCMD ts)) as H0.
  { rewrite forallb_forall in Hts. intros k p x Hk Hp. assert (starts p = true) as Hs; [|by destruct p].
    apply Hts, list_elem_of_In. by eapply list_elem_of_lookup_2. }
  destruct (run_deployed _ _ _ (NewGoCMD_ok ts Hts) H0 Hr j _ id Hj eq_refl) as (d & Hd & Hs).
  unfold getChildState, GetDeploymentState; simpl. unfold GetState.
  rewrite bool_decide_eq_false_2 by done. case_bool_decide as Hin; [|done].
  rewrite Hd. simpl. split; [|done]. by destruct Hs as [-> | ->].
Qed.

Lemma supervisor_sees_only_missing_witness :
  exists g, run (NewGoCMD [DeployNew false]) (deploy_acts 0 "d1" quick) = Some (Ret g) /\
    (getChildState (mkWorld g []) "d1" = StateFailed <-> "d1"%string ∉ deployments g).
Proof.
  eexists. split; [vm_compute; reflexivity|].
  apply (supervisor_sees_only_missing [DeployNew false] (deploy_acts 0 "d1" quick) _ 0%nat);
    [reflexivity|vm_compute; reflexivity|reflexivity|discriminate].
Defined.

(** Two children on this platform: they run, a check restarts nothing; when one
    is undeployed behind the supervisor's back, the next check restarts it. *)
Example supervised_platform :
  let w0 := mkWorld (NewGoCMD []) [("d1", quick); ("d2", quick); ("d3", quick); ("d4", quick)]%string in
  let spec := mkSupervisorSpec RestartStrategyOneForOne (mkRestartConfig 3 100)
                [mkChildSpec "db" RestartPermanent; mkChildSpec "web" RestartPermanent] in
  let '(sv, w1, ok) := Start (NewSupervisor spec) w0 [] in
  let '(sv1, w2, r1) := checkChildren sv w1 ["db"; "web"]%string [] in
  let '(sv2, w3, r2) := checkChildren sv1 (undeploy_alone w2 "d1") ["db"; "web"]%string [([], 1, 2)] in
  ok = true /\ r1 = [] /\ r2 = [["db"]]%string /\ elements (deployments (platform w3)) = ["d3"; "d2"]%string.
Proof. vm_compute. split_and!; reflexivity. Qed.

(** ** Diagnostics *)

Inductive HealthStatus : Type := HealthStatusHealthy | HealthStatusDegraded | HealthStatusUnhealthy.

Record SystemDiagnostic : Type := mkSystemDiagnostic {
  TotalDeployments : nat;
  DeploymentsByState : DeploymentState -> nat;
  SystemHealth : HealthStatus
}.

Definition DeploymentCount (g : gocmd) : nat := size (deployments g).

Definition count_state (g : gocmd) (s : DeploymentState) : nat :=
  length (filter (fun id => (state ∘ machine <$> deps g !! id) = Some s) (elements (deployments g))).

Definition GetSystemDiagnostic (g : gocmd) : SystemDiagnostic :=
  {| TotalDeployments := length (elements (deployments g));
     DeploymentsByState := count_state g;
     SystemHealth :=
       if (0 <? count_state g StateFailed)%nat then HealthStatusUnhealthy
       else if (0 <? count_state g StateStopping)%nat then HealthStatusDegraded
       else HealthStatusHealthy |}.

Lemma count_state_pos g s : (0 <? count_state g s)%nat = true ->
  exists id d, id ∈ deployments g /\ deps g !! id = Some d /\ state (machine d) = s.
Proof.
  unfold count_state. intros Hlt%Nat.ltb_lt.
  destruct (filter _ (elements (deployments g))) as [|id l] eqn:E; [simpl in Hlt; lia|].
  assert (id ∈ id :: l) as Hin by left. rewrite <- E in Hin.
  apply list_elem_of_filter in Hin as [Hs Hin%elem_of_elements].
  destruct (deps g !! id) as [d|] eqn:Hd; simpl in Hs; [|done]. exists id, d. by simplify_eq.
Qed.

(** While the root context is live the platform reports anything but healthy
    only while some call is at work on a deployment: failed starts leave the
    registry, so a failure is not visible in a diagnostic taken at rest. *)
Theorem healthy_at_rest ts acts g :
  forallb starts ts = true -> run (NewGoCMD ts) acts = Some (Ret g) -> root g = CtxLive ->
  (forall id, ~ some_thread g (working_on id)) ->
  SystemHealth (GetSystemDiagnostic g) = HealthStatusHealthy /\
  DeploymentsByState (GetSystemDiagnostic g) StateRunning = DeploymentCount g.
Proof.
  intros Hts Hr Hl Hrest. destruct (run_platform_ok _ _ _ (NewGoCMD_ok ts Hts) Hr) as (H1 & H2 & _ & _ & H5).
  assert (forall id, id ∈ deployments g -> (state ∘ machine <$> deps g !! id) = Some StateRunning) as Hrun.
  { intros id Hin. destruct (proj1 (elem_of_dom _ _) (H1 id Hin)) as [d Hd]. rewrite Hd. simpl. f_equal.
    destruct (H5 Hl) as [_ L2]. destruct (H2 id d Hd) as (_ & _ & C & _).
    destruct (explained_working g id d C Hin (L2 id d Hd Hin)); [done|]. by destruct (Hrest id). }
  assert (forall s, s <> StateRunning -> (0 <? count_state g s)%nat = false) as Hzero.
  { intros s Hs. destruct (0 <? count_state g s)%nat eqn:E; [|done].
    apply count_state_pos in E as (id & d & Hin & Hd & E). specialize (Hrun id Hin). rewrite Hd in Hrun.
    simpl in Hrun. congruence. }
  simpl. rewrite !Hzero by done. split; [done|]. unfold count_state, DeploymentCount, size, set_size.
  simpl. f_equal. assert (forall id, id ∈ elements (deployments g) ->
    (state ∘ machine <$> deps g !! id) = Some StateRunning) as Hall
    by (intros id Hin%elem_of_elements; auto).
  revert Hall. generalize (elements (deployments g)). clear. induction l as [|x l IH]; intros Hall; [done|].
  rewrite filter_cons_True by (apply Hall; left). f_equal. apply IH. intros id Hin. apply Hall. by right.
Qed.

Lemma healthy_at_rest_witness :
  exists g, run (NewGoCMD [DeployNew false; DeployNew false])
      (deploy_acts 0 "d1" quick ++ deploy_acts 1 "d2" failing ++ [Thread 1 PickReply]) = Some (Ret g) /\
    SystemHealth (GetSystemDiagnostic g) = HealthStatusHealthy.
Proof.
  eexists. split; [vm_compute; reflexivity|].
  apply (healthy_at_rest [DeployNew false; DeployNew false]
    (deploy_acts 0 "d1" quick ++ deploy_acts 1 "d2" failing ++ [Thread 1 PickReply]) _ eq_refl
    ltac:(vm_compute; reflexivity) eq_refl).
  intros id (j & p & Hj & Hp). destruct j as [|[|j]]; [injection Hj as <-|injection Hj as <-|discriminate Hj];
    exact Hp.
Defined.
