(* ===== verification/Codec.v ===== *)
(** * Bytes: integers at fixed widths, buffers, separators

    Shared by the components that read and write binary data (the trading
    protocol, the VPN protocol, the append log) or split text at separators
    (the router, the cron parser).  A byte is an integer below 256. *)
From Stdlib Require Ascii String.
From S2P Require Import Prelude.

(** The bytes of a string literal. *)
Definition lit (s : String.string) : list Z :=
  map (fun c => Z.of_N (Ascii.N_of_ascii c)) (String.list_ascii_of_string s).

Definition is_byte (b : Z) : Prop := 0 <= b < 256.

(** ** Little and big endian (package encoding/binary) *)

(** [n] bytes of [z], least significant first. *)
Fixpoint le_bytes (n : nat) (z : Z) : list Z :=
  match n with
  | O => []
  | S n => z mod 256 :: le_bytes n (z / 256)
  end.

Fixpoint le_value (bs : list Z) : Z :=
  match bs with
  | [] => 0
  | b :: bs => b + 256 * le_value bs
  end.

Definition be_bytes (n : nat) (z : Z) : list Z := rev (le_bytes n z).

Definition be_value (bs : list Z) : Z := le_value (rev bs).

Lemma length_le_bytes n z : length (le_bytes n z) = n.
Proof. revert z. induction n as [|n IH]; intros z; simpl; [done|by rewrite IH]. Qed.

Lemma length_be_bytes n z : length (be_bytes n z) = n.
Proof. unfold be_bytes. by rewrite length_rev, length_le_bytes. Qed.

Lemma le_bytes_are_bytes n z : Forall is_byte (le_bytes n z).
Proof.
  revert z. induction n as [|n IH]; intros z; simpl; constructor; [|apply IH].
  apply Z.mod_pos_bound. lia.
Qed.

Lemma le_value_bytes n z : le_value (le_bytes n z) = z mod 256 ^ Z.of_nat n.
Proof.
  revert z. induction n as [|n IH]; intros z; cbn [le_bytes le_value]; [by rewrite Z.mod_1_r|].
  rewrite IH, Nat2Z.inj_succ, Z.pow_succ_r by lia.
  rewrite (Z.rem_mul_r z 256 (256 ^ Z.of_nat n)) by lia. done.
Qed.

Lemma le_value_small n z : 0 <= z < 256 ^ Z.of_nat n -> le_value (le_bytes n z) = z.
Proof. intros Hz. rewrite le_value_bytes. by apply Z.mod_small. Qed.

Lemma be_value_small n z : 0 <= z < 256 ^ Z.of_nat n -> be_value (be_bytes n z) = z.
Proof. intros Hz. unfold be_value, be_bytes. rewrite rev_involutive. by apply le_value_small. Qed.

Lemma le_bytes_value bs : Forall is_byte bs -> le_bytes (length bs) (le_value bs) = bs.
Proof.
  induction 1 as [|b bs Hb Hbs IH]; cbn [length le_bytes le_value]; [done|]. unfold is_byte in Hb.
  replace (b + 256 * le_value bs) with (b + le_value bs * 256) by lia.
  rewrite Z.mod_add, Z.mod_small, Z.div_add, Z.div_small, Z.add_0_l by lia. by rewrite IH.
Qed.

Lemma le_value_range bs : Forall is_byte bs -> 0 <= le_value bs < 256 ^ Z.of_nat (length bs).
Proof.
  induction 1 as [|b bs Hb Hbs IH]; cbn [length le_value]; [done|]. unfold is_byte in Hb.
  rewrite Nat2Z.inj_succ, Z.pow_succ_r by lia. lia.
Qed.

Lemma le_value_inj bs bs' :
  Forall is_byte bs -> Forall is_byte bs' -> length bs = length bs' -> le_value bs = le_value bs' -> bs = bs'.
Proof.
  intros H H' Hl Hv. rewrite <- (le_bytes_value bs H), <- (le_bytes_value bs' H'). by rewrite Hl, Hv.
Qed.

Lemma be_bytes_value bs : Forall is_byte bs -> be_bytes (length bs) (be_value bs) = bs.
Proof.
  intros Hb. unfold be_bytes, be_value. rewrite <- (length_rev bs), le_bytes_value; [apply rev_involutive|].
  by apply Forall_rev.
Qed.

Lemma be_value_range bs : Forall is_byte bs -> 0 <= be_value bs < 256 ^ Z.of_nat (length bs).
Proof.
  intros Hb. unfold be_value. rewrite <- (length_rev bs). apply le_value_range. by apply Forall_rev.
Qed.

(** ** Signed integers through their unsigned representation *)

(** [uint64(x)] and [int64(x)] *)
Lemma i64_u64 z : min_i64 <= z <= max_i64 -> i64 (u64 z) = z.
Proof.
  intros Hz. rewrite <- (i64_id z Hz) at 2. unfold i64, u64, wrap_signed.
  by rewrite Zplus_mod_idemp_l.
Qed.

Lemma u64_256 z : 0 <= u64 z < 256 ^ Z.of_nat 8.
Proof. apply u64_range. Qed.

(** ** Slices of a buffer *)

(** [data[i:j]] *)
Definition sub {A} (data : list A) (i j : nat) : list A := take (j - i) (drop i data).

(** [copy(b[i:], bs)] for a [bs] that fits. *)
Definition put {A} (b : list A) (i : nat) (bs : list A) : list A :=
  take i b ++ bs ++ drop (i + length bs) b.

Lemma put_at {A} (pre old post bs : list A) i :
  i = length pre -> length old = length bs -> put (pre ++ old ++ post) i bs = pre ++ bs ++ post.
Proof.
  intros -> Hl. unfold put. rewrite take_app_length. do 2 f_equal. rewrite <- Hl, app_assoc.
  apply drop_app_length'. by rewrite length_app.
Qed.

Lemma sub_at {A} (pre mid post : list A) i j :
  i = length pre -> j = (length pre + length mid)%nat -> sub (pre ++ mid ++ post) i j = mid.
Proof.
  intros -> ->. unfold sub. rewrite drop_app_length.
  replace (length pre + length mid - length pre)%nat with (length mid) by lia. apply take_app_length.
Qed.

Lemma length_put {A} (b bs : list A) i :
  (i + length bs <= length b)%nat -> length (put b i bs) = length b.
Proof.
  intros Hl. unfold put. rewrite !length_app, length_take, length_drop. lia.
Qed.

(** ** Splitting at a separator (strings.Split, bytes.Split with a one-byte separator) *)

Section split.
Context {A : Type} `{EqDecision A} (sep : A).

Fixpoint split_on (l : list A) : list (list A) :=
  match l with
  | [] => [[]]
  | x :: l =>
      if decide (x = sep) then [] :: split_on l
      else match split_on l with
           | p :: ps => (x :: p) :: ps
           | [] => [[x]]
           end
  end.

Fixpoint join (ps : list (list A)) : list A :=
  match ps with
  | [] => []
  | [p] => p
  | p :: ps => p ++ sep :: join ps
  end.

Lemma split_on_ne l : split_on l <> [].
Proof. destruct l as [|x l]; simpl; [done|]. destruct (decide _); [done|]. by destruct (split_on l). Qed.

Lemma join_cons_cons x p ps : join ((x :: p) :: ps) = x :: join (p :: ps).
Proof. by destruct ps. Qed.

Lemma join_split l : join (split_on l) = l.
Proof.
  induction l as [|x l IH]; [done|]. simpl. pose proof (split_on_ne l).
  destruct (decide (x = sep)) as [->|_]; destruct (split_on l) as [|p ps]; try done.
  - simpl in *. by rewrite IH.
  - by rewrite join_cons_cons, IH.
Qed.

Lemma split_free l : Forall (fun p => sep ∉ p) (split_on l).
Proof.
  induction l as [|x l IH]; simpl; [constructor; [apply not_elem_of_nil|done]|].
  destruct (decide (x = sep)); [constructor; [apply not_elem_of_nil|done]|].
  destruct (split_on l) as [|p ps]; [constructor; [|done]|]; [rewrite list_elem_of_singleton; by intros ->|].
  apply Forall_cons in IH as [Hp Hps]. constructor; [|done]. rewrite not_elem_of_cons. by split; [intros ->|].
Qed.

Lemma split_app_sep p l : sep ∉ p -> split_on (p ++ sep :: l) = p :: split_on l.
Proof.
  induction p as [|x p IH]; intros Hp; simpl; [by rewrite decide_True|].
  apply not_elem_of_cons in Hp as [Hx Hp]. rewrite decide_False by done. by rewrite IH.
Qed.

Lemma split_piece p : sep ∉ p -> split_on p = [p].
Proof.
  induction p as [|x p IH]; intros Hp; [done|]. apply not_elem_of_cons in Hp as [Hx Hp]. simpl.
  rewrite decide_False by done. by rewrite IH.
Qed.

Lemma split_join ps : ps <> [] -> Forall (fun p => sep ∉ p) ps -> split_on (join ps) = ps.
Proof.
  induction ps as [|p ps IH]; [done|]. intros _ Hf. apply Forall_cons in Hf as [Hp Hf].
  destruct ps as [|q ps]; [by apply split_piece|].
  change (join (p :: q :: ps)) with (p ++ sep :: join (q :: ps)).
  rewrite split_app_sep by done. f_equal. by apply IH.
Qed.
End split.

(** ** White space of Unicode in UTF-8 (unicode.IsSpace), of one, two or three bytes *)

Definition space1 (a : Z) : bool := ((9 <=? a) && (a <=? 13)) || (a =? 32).

Definition space2 (a b : Z) : bool := (a =? 0xC2) && ((b =? 0x85) || (b =? 0xA0)).

Definition space3 (a b c : Z) : bool :=
  ((a =? 0xE1) && (b =? 0x9A) && (c =? 0x80)) ||
  ((a =? 0xE2) && (b =? 0x80) &&
     (((0x80 <=? c) && (c <=? 0x8A)) || (c =? 0xA8) || (c =? 0xA9) || (c =? 0xAF))) ||
  ((a =? 0xE2) && (b =? 0x81) && (c =? 0x9F)) ||
  ((a =? 0xE3) && (b =? 0x80) && (c =? 0x80)).

(** [strings.Fields]: the pieces between runs of white space. *)
Definition flush_field (cur : list Z) (fs : list (list Z)) : list (list Z) :=
  match cur with [] => fs | _ => rev cur :: fs end.

Fixpoint fields_from (cur : list Z) (l : list Z) : list (list Z) :=
  match l with
  | [] => flush_field cur []
  | a :: l1 =>
      if space1 a then flush_field cur (fields_from [] l1)
      else match l1 with
           | [] => flush_field (a :: cur) []
           | b :: l2 =>
               if space2 a b then flush_field cur (fields_from [] l2)
               else match l2 with
                    | [] => fields_from (a :: cur) l1
                    | c :: l3 =>
                        if space3 a b c then flush_field cur (fields_from [] l3)
                        else fields_from (a :: cur) l1
                    end
           end
  end.

Definition Fields (s : list Z) : list (list Z) := fields_from [] s.
