(* ===== verification/TradeProtocol.v ===== *)
(** * Trading wire protocol (pkg/hft/protocol/binary.go)

    Messages are records, encoded by the same sequence of writes at fixed
    offsets into a pooled buffer whose old contents are an argument; a decoder
    returns the message it has filled in, also when it fails.  The checksum is
    the reflected CRC-32 of package hash/crc32, one bit at a time. *)
From S2P Require Import Prelude Codec.

(** ** CRC-32 *)

Definition crc_poly : Z := 0xEDB88320.

Definition crc_bit (c : Z) : Z :=
  if Z.odd c then Z.lxor (Z.shiftr c 1) crc_poly else Z.shiftr c 1.

Definition crc_byte (c b : Z) : Z := Nat.iter 8 crc_bit (Z.lxor c b).

Definition crc_init : Z := 0xFFFFFFFF.

Definition ChecksumIEEE (data : list Z) : Z := Z.lxor (fold_left crc_byte data crc_init) crc_init.

(** The check value of the polynomial: the checksum of the digits 1 to 9. *)
Example crc_check : ChecksumIEEE [49; 50; 51; 52; 53; 54; 55; 56; 57] = 0xCBF43926.
Proof. vm_compute. reflexivity. Qed.

(** ** Messages *)

Definition MsgTypeNewOrder : Z := 1.

Definition MsgTypeMarketData : Z := 5.

Record MessageHeader : Type := mkHeader {
  Length : Z;
  MsgType : Z;
  HFlags : Z;
  Timestamp : Z;
  SeqNum : Z
}.

(** [Side], [OrderType] and [TimeInForce] are bytes on the wire. *)
Record NewOrderMessage : Type := mkNewOrder {
  Header : MessageHeader;
  OrderID : Z;
  Price : Z;
  Quantity : Z;
  SymbolID : Z;
  Side : Z;
  OType : Z;
  TIF : Z;
  Flags : Z;
  ClientOrderID : list Z
}.

Record MarketDataMessage : Type := mkMarketData {
  MHeader : MessageHeader;
  MSymbolID : Z;
  BidPrice : Z;
  BidQty : Z;
  AskPrice : Z;
  AskQty : Z;
  LastPrice : Z;
  LastQty : Z
}.

Inductive protocol_error : Type :=
| InvalidLength
| ChecksumMismatch
| InvalidType
| BufferOverflow.

(** The fields fit their Go types. *)
Definition header_ok (h : MessageHeader) : Prop :=
  0 <= Length h < 2 ^ 32 /\ 0 <= MsgType h < 2 ^ 16 /\ 0 <= HFlags h < 2 ^ 16 /\
  min_i64 <= Timestamp h <= max_i64 /\ 0 <= SeqNum h < 2 ^ 64.

Definition NewOrder_ok (m : NewOrderMessage) : Prop :=
  header_ok (Header m) /\ 0 <= OrderID m < 2 ^ 64 /\ min_i64 <= Price m <= max_i64 /\
  min_i64 <= Quantity m <= max_i64 /\ 0 <= SymbolID m < 2 ^ 32 /\ is_byte (Side m) /\
  is_byte (OType m) /\ is_byte (TIF m) /\ is_byte (Flags m) /\
  Forall is_byte (ClientOrderID m) /\ length (ClientOrderID m) = 16%nat.

Definition MarketData_ok (m : MarketDataMessage) : Prop :=
  header_ok (MHeader m) /\ 0 <= MSymbolID m < 2 ^ 32 /\ min_i64 <= BidPrice m <= max_i64 /\
  min_i64 <= BidQty m <= max_i64 /\ min_i64 <= AskPrice m <= max_i64 /\
  min_i64 <= AskQty m <= max_i64 /\ min_i64 <= LastPrice m <= max_i64 /\
  min_i64 <= LastQty m <= max_i64.

(** ** Encoding *)

(** A sequence of writes into a buffer. *)
Definition puts (b : list Z) (ws : list (nat * list Z)) : list Z :=
  fold_left (fun b '(i, bs) => put b i bs) ws b.

Definition header_writes (len ty : Z) (h : MessageHeader) : list (nat * list Z) :=
  [(0%nat, le_bytes 4 len); (4%nat, le_bytes 2 ty); (6%nat, le_bytes 2 (HFlags h));
   (8%nat, le_bytes 8 (u64 (Timestamp h))); (16%nat, le_bytes 8 (SeqNum h))].

Definition NewOrder_payload (m : NewOrderMessage) : list (nat * list Z) :=
  [(24%nat, le_bytes 8 (OrderID m)); (32%nat, le_bytes 8 (u64 (Price m)));
   (40%nat, le_bytes 8 (u64 (Quantity m))); (48%nat, le_bytes 4 (SymbolID m));
   (52%nat, [Side m]); (53%nat, [OType m]); (54%nat, [TIF m]); (55%nat, [Flags m]);
   (56%nat, ClientOrderID m)].

(** [pooled] is the content of the buffer the pool hands out. *)
Definition NewOrder_MarshalBinary (m : NewOrderMessage) (pooled : list Z) : list Z :=
  let b := take 80 pooled in
  let b := puts b (header_writes 76 MsgTypeNewOrder (Header m) ++ NewOrder_payload m) in
  put b 72 (le_bytes 4 (ChecksumIEEE (sub b 0 72))).

Definition MarketData_payload (m : MarketDataMessage) : list (nat * list Z) :=
  [(24%nat, le_bytes 4 (MSymbolID m)); (32%nat, le_bytes 8 (u64 (BidPrice m)));
   (40%nat, le_bytes 8 (u64 (BidQty m))); (48%nat, le_bytes 8 (u64 (AskPrice m)));
   (56%nat, le_bytes 8 (u64 (AskQty m))); (64%nat, le_bytes 8 (u64 (LastPrice m)));
   (72%nat, le_bytes 8 (u64 (LastQty m)))].

Definition MarketData_MarshalBinary (m : MarketDataMessage) (pooled : list Z) : list Z :=
  let b := take 84 pooled in
  let b := puts b (header_writes 84 MsgTypeMarketData (MHeader m) ++ MarketData_payload m) in
  put b 80 (le_bytes 4 (ChecksumIEEE (sub b 0 80))).

(** ** Decoding *)

Definition read_header (data : list Z) : MessageHeader :=
  {| Length := le_value (sub data 0 4); MsgType := le_value (sub data 4 6);
     HFlags := le_value (sub data 6 8); Timestamp := i64 (le_value (sub data 8 16));
     SeqNum := le_value (sub data 16 24) |}.

Definition byte_at (data : list Z) (i : nat) : Z := nth i data 0.

Definition NewOrder_UnmarshalBinary (m : NewOrderMessage) (data : list Z) :
    NewOrderMessage * option protocol_error :=
  if (length data <? 76)%nat then (m, Some InvalidLength)
  else if negb (le_value (sub data 72 76) =? ChecksumIEEE (sub data 0 72)) then (m, Some ChecksumMismatch)
  else
    let h := read_header data in
    if negb (MsgType h =? MsgTypeNewOrder) then
      ({| Header := h; OrderID := OrderID m; Price := Price m; Quantity := Quantity m;
          SymbolID := SymbolID m; Side := Side m; OType := OType m; TIF := TIF m; Flags := Flags m;
          ClientOrderID := ClientOrderID m |}, Some InvalidType)
    else
      ({| Header := h; OrderID := le_value (sub data 24 32); Price := i64 (le_value (sub data 32 40));
          Quantity := i64 (le_value (sub data 40 48)); SymbolID := le_value (sub data 48 52);
          Side := byte_at data 52; OType := byte_at data 53; TIF := byte_at data 54;
          Flags := byte_at data 55; ClientOrderID := sub data 56 72 |}, None).

Definition MarketData_UnmarshalBinary (m : MarketDataMessage) (data : list Z) :
    MarketDataMessage * option protocol_error :=
  if (length data <? 84)%nat then (m, Some InvalidLength)
  else if negb (le_value (sub data 80 84) =? ChecksumIEEE (sub data 0 80)) then (m, Some ChecksumMismatch)
  else
    let h := read_header data in
    if negb (MsgType h =? MsgTypeMarketData) then
      ({| MHeader := h; MSymbolID := MSymbolID m; BidPrice := BidPrice m; BidQty := BidQty m;
          AskPrice := AskPrice m; AskQty := AskQty m; LastPrice := LastPrice m; LastQty := LastQty m |},
       Some InvalidType)
    else
      ({| MHeader := h; MSymbolID := le_value (sub data 24 28); BidPrice := i64 (le_value (sub data 32 40));
          BidQty := i64 (le_value (sub data 40 48)); AskPrice := i64 (le_value (sub data 48 56));
          AskQty := i64 (le_value (sub data 56 64)); LastPrice := i64 (le_value (sub data 64 72));
          LastQty := i64 (le_value (sub data 72 80)) |}, None).

(** ** Batches *)

Record BatchEncoder : Type := mkBatch { buf : list Z; offset : nat }.

Definition NewBatchEncoder (capacity : nat) : BatchEncoder := mkBatch (replicate capacity 0) 0.

(** [copy(e.buf[e.offset:], data)] stops at the end of the buffer. *)
Definition EncodeNewOrder (e : BatchEncoder) (m : NewOrderMessage) (pooled : list Z) :
    BatchEncoder * option protocol_error :=
  if (length (buf e) <? offset e + 76)%nat then (e, Some BufferOverflow)
  else
    let data := NewOrder_MarshalBinary m pooled in
    (mkBatch (put (buf e) (offset e) (take (length (buf e) - offset e) data)) (offset e + 76), None).

Definition Bytes (e : BatchEncoder) : list Z := take (offset e) (buf e).

Definition Reset (e : BatchEncoder) : BatchEncoder := mkBatch (buf e) 0.

(** ** The checksum detects a damaged byte *)

Lemma lxor_range n a b : 0 <= n -> 0 <= a < 2 ^ n -> 0 <= b < 2 ^ n -> 0 <= Z.lxor a b < 2 ^ n.
Proof.
  intros Hn Ha Hb. assert (0 <= Z.lxor a b) as H0 by (apply Z.lxor_nonneg; lia). split; [done|].
  assert (forall z i, 0 <= z < 2 ^ n -> n <= i -> Z.testbit z i = false) as Hbit.
  { intros z i Hz. apply Z.bounded_iff_bits_nonneg; lia. }
  apply Z.bounded_iff_bits_nonneg; [done..|]. intros i Hi. by rewrite Z.lxor_spec, !Hbit.
Qed.

Lemma lxor_cancel_r a b c : Z.lxor a c = Z.lxor b c -> a = b.
Proof.
  intros H. apply (f_equal (fun z => Z.lxor z c)) in H. by rewrite !Z.lxor_assoc, !Z.lxor_nilpotent, !Z.lxor_0_r in H.
Qed.

Lemma lxor_cancel_l a b c : Z.lxor c a = Z.lxor c b -> a = b.
Proof. rewrite !(Z.lxor_comm c). apply lxor_cancel_r. Qed.

Lemma half_range c : 0 <= c < 2 ^ 32 -> 0 <= Z.shiftr c 1 < 2 ^ 31.
Proof.
  intros Hc. rewrite Z.shiftr_div_pow2 by lia. change (2 ^ 1) with 2.
  split; [apply Z.div_pos; lia|apply Z.div_lt_upper_bound; [lia|]]. change (2 * 2 ^ 31) with (2 ^ 32). lia.
Qed.

Lemma crc_bit_range c : 0 <= c < 2 ^ 32 -> 0 <= crc_bit c < 2 ^ 32.
Proof.
  intros Hc. pose proof (half_range c Hc). unfold crc_bit. destruct (Z.odd c); [|widths; lia].
  apply lxor_range; [lia|widths; lia|done].
Qed.

(** The bit that was shifted out is the top bit of the result. *)
Lemma crc_bit_top c : 0 <= c < 2 ^ 32 -> Z.testbit (crc_bit c) 31 = Z.odd c.
Proof.
  intros Hc. pose proof (half_range c Hc) as Hh.
  assert (Z.testbit (Z.shiftr c 1) 31 = false) as Hb.
  { apply (proj1 (Z.bounded_iff_bits_nonneg 31 (Z.shiftr c 1) ltac:(lia) ltac:(lia))); lia. }
  unfold crc_bit. destruct (Z.odd c); [rewrite Z.lxor_spec|]; by rewrite Hb.
Qed.

Lemma crc_bit_inj c c' :
  0 <= c < 2 ^ 32 -> 0 <= c' < 2 ^ 32 -> crc_bit c = crc_bit c' -> c = c'.
Proof.
  intros Hc Hc' E. assert (Z.odd c = Z.odd c') as Ho by (by rewrite <- !crc_bit_top, E).
  unfold crc_bit in E. rewrite <- Ho in E.
  assert (Z.shiftr c 1 = Z.shiftr c' 1) as Hs.
  { destruct (Z.odd c); [|done]. by apply lxor_cancel_r in E. }
  rewrite <- !Z.div2_spec in Hs. rewrite (Z.div2_odd c), (Z.div2_odd c'), Hs, Ho. done.
Qed.

Lemma crc_bits_spec n c c' :
  0 <= c < 2 ^ 32 -> 0 <= c' < 2 ^ 32 ->
  0 <= Nat.iter n crc_bit c < 2 ^ 32 /\ (Nat.iter n crc_bit c = Nat.iter n crc_bit c' -> c = c').
Proof.
  intros Hc Hc'. assert (forall x, 0 <= x < 2 ^ 32 -> 0 <= Nat.iter n crc_bit x < 2 ^ 32) as Hr.
  { intros x Hx. induction n as [|n IH]; simpl; [done|by apply crc_bit_range]. }
  split; [by apply Hr|]. clear Hr. induction n as [|n IH]; simpl; [done|]. intros E. apply IH.
  apply crc_bit_inj; [..|exact E]; clear IH E; induction n as [|n IH]; simpl; try done; by apply crc_bit_range.
Qed.

Lemma crc_byte_range c b : 0 <= c < 2 ^ 32 -> is_byte b -> 0 <= crc_byte c b < 2 ^ 32.
Proof.
  intros Hc Hb. assert (0 <= Z.lxor c b < 2 ^ 32) as H.
  { apply lxor_range; [lia|done|]. unfold is_byte in Hb. widths. lia. }
  exact (proj1 (crc_bits_spec 8 _ _ H H)).
Qed.

Lemma crc_byte_inj c c' b b' :
  0 <= c < 2 ^ 32 -> 0 <= c' < 2 ^ 32 -> is_byte b -> is_byte b' ->
  crc_byte c b = crc_byte c' b' -> Z.lxor c b = Z.lxor c' b'.
Proof.
  intros Hc Hc' Hb Hb'. apply crc_bits_spec; (apply lxor_range; [lia|done|]); unfold is_byte in *; widths; lia.
Qed.

Lemma crc_fold_inj bs c c' :
  0 <= c < 2 ^ 32 -> 0 <= c' < 2 ^ 32 -> Forall is_byte bs ->
  fold_left crc_byte bs c = fold_left crc_byte bs c' -> c = c'.
Proof.
  intros Hc Hc' Hbs. revert c c' Hc Hc'. induction Hbs as [|b bs Hb Hbs IH]; intros c c' Hc Hc' E; [done|].
  simpl in E. apply IH in E; [|by apply crc_byte_range..].
  apply crc_byte_inj in E; [|done..]. by apply lxor_cancel_r in E.
Qed.

Lemma crc_fold_range bs c :
  0 <= c < 2 ^ 32 -> Forall is_byte bs -> 0 <= fold_left crc_byte bs c < 2 ^ 32.
Proof.
  intros Hc Hbs. revert c Hc. induction Hbs as [|b bs Hb Hbs IH]; intros c Hc; simpl; [done|].
  apply IH. by apply crc_byte_range.
Qed.

Lemma ChecksumIEEE_range bs : Forall is_byte bs -> 0 <= ChecksumIEEE bs < 2 ^ 32.
Proof. intros Hbs. apply lxor_range; [lia| |done]. by apply crc_fold_range. Qed.

(** Two byte sequences that differ in exactly one byte have different checksums. *)
Lemma ChecksumIEEE_one_byte pre b b' post :
  Forall is_byte pre -> is_byte b -> is_byte b' -> Forall is_byte post -> b <> b' ->
  ChecksumIEEE (pre ++ b :: post) <> ChecksumIEEE (pre ++ b' :: post).
Proof.
  intros Hpre Hb Hb' Hpost Hne E. unfold ChecksumIEEE in E. apply lxor_cancel_r in E.
  rewrite !fold_left_app in E. simpl in E.
  assert (0 <= fold_left crc_byte pre crc_init < 2 ^ 32) as Hr by (by apply crc_fold_range).
  apply crc_fold_inj in E; [|by apply crc_byte_range..|done].
  apply crc_byte_inj in E; [|done..]. by apply lxor_cancel_l in E.
Qed.

(** ** Layout *)

Definition bytes_of (ws : list (nat * list Z)) : list Z := concat (ws.*2).

Fixpoint contiguous (off : nat) (ws : list (nat * list Z)) : Prop :=
  match ws with
  | [] => True
  | (i, bs) :: ws => i = off /\ contiguous (off + length bs) ws
  end.

Lemma puts_contiguous ws pre rest :
  contiguous (length pre) ws -> (length (bytes_of ws) <= length rest)%nat ->
  puts (pre ++ rest) ws = pre ++ bytes_of ws ++ drop (length (bytes_of ws)) rest.
Proof.
  revert pre rest. induction ws as [|[i bs] ws IH]; intros pre rest Hc Hl; [done|].
  destruct Hc as [-> Hc]. change (bytes_of ((length pre, bs) :: ws)) with (bs ++ bytes_of ws) in *.
  rewrite length_app in Hl |- *. cbn [puts fold_left].
  rewrite <- (take_drop (length bs) rest) at 1. rewrite put_at by (done || (rewrite length_take; lia)).
  rewrite app_assoc. fold (puts ((pre ++ bs) ++ drop (length bs) rest) ws). rewrite IH.
  - rewrite <- !app_assoc, drop_drop. done.
  - by rewrite length_app.
  - rewrite length_drop. lia.
Qed.

Lemma puts_start ws b :
  contiguous 0 ws -> (length (bytes_of ws) <= length b)%nat ->
  puts b ws = bytes_of ws ++ drop (length (bytes_of ws)) b.
Proof. apply (puts_contiguous ws []). Qed.

Definition NewOrder_body (m : NewOrderMessage) : list Z :=
  bytes_of (header_writes 76 MsgTypeNewOrder (Header m) ++ NewOrder_payload m).

(** The 80 bytes returned: body, checksum, and four stale bytes of the pooled buffer. *)
Lemma NewOrder_layout m pooled :
  length (ClientOrderID m) = 16%nat -> (80 <= length pooled)%nat ->
  length (NewOrder_body m) = 72%nat /\
  NewOrder_MarshalBinary m pooled =
    NewOrder_body m ++ le_bytes 4 (ChecksumIEEE (NewOrder_body m)) ++ drop 76 (take 80 pooled).
Proof.
  intros Hid Hp. set (ws := header_writes 76 MsgTypeNewOrder (Header m) ++ NewOrder_payload m).
  change (NewOrder_body m) with (bytes_of ws).
  assert (length (bytes_of ws) = 72%nat) as Hlen by (cbn; rewrite length_app, Hid; done).
  split; [done|]. unfold NewOrder_MarshalBinary. fold ws.
  rewrite puts_start; [|cbn; tauto|rewrite Hlen, length_take; lia]. rewrite Hlen.
  assert (sub (bytes_of ws ++ drop 72 (take 80 pooled)) 0 72 = bytes_of ws) as ->.
  { unfold sub. rewrite drop_0. by apply take_app_length'. }
  set (crc := le_bytes 4 _). rewrite <- (take_drop 4 (drop 72 (take 80 pooled))), drop_drop.
  rewrite put_at; [done|done|]. rewrite length_take, length_drop, length_take.
  unfold crc. rewrite length_le_bytes. lia.
Qed.

Definition MarketData_body (m : MarketDataMessage) (padding : list Z) : list Z :=
  bytes_of (header_writes 84 MsgTypeMarketData (MHeader m)) ++ le_bytes 4 (MSymbolID m) ++ padding ++
  bytes_of (drop 1 (MarketData_payload m)).

(** The padding at 28 is whatever the pooled buffer held. *)
Lemma MarketData_layout m pooled :
  (84 <= length pooled)%nat ->
  let body := MarketData_body m (sub pooled 28 32) in
  length body = 80%nat /\
  MarketData_MarshalBinary m pooled = body ++ le_bytes 4 (ChecksumIEEE body).
Proof.
  intros Hp body. assert (length (sub pooled 28 32) = 4%nat) as Hpad.
  { unfold sub. rewrite length_take, length_drop. lia. }
  assert (length body = 80%nat) as Hlen.
  { unfold body, MarketData_body. by rewrite !length_app, Hpad. }
  split; [done|]. unfold MarketData_MarshalBinary.
  set (ws1 := header_writes 84 MsgTypeMarketData (MHeader m) ++ [(24%nat, le_bytes 4 (MSymbolID m))]).
  set (ws2 := drop 1 (MarketData_payload m)).
  change (header_writes 84 MsgTypeMarketData (MHeader m) ++ MarketData_payload m) with (ws1 ++ ws2).
  unfold puts. rewrite fold_left_app. fold (puts (take 84 pooled) ws1).
  rewrite puts_start; [|cbn; tauto|change (length (bytes_of ws1)) with 28%nat; rewrite length_take; lia].
  change (length (bytes_of ws1)) with 28%nat.
  assert (drop 28 (take 84 pooled) = sub pooled 28 32 ++ drop 32 (take 84 pooled)) as ->.
  { rewrite <- (take_drop 4 (drop 28 (take 84 pooled))), drop_drop. f_equal. unfold sub.
    by rewrite !take_drop_commute, take_take. }
  rewrite app_assoc. set (b2 := fold_left _ ws2 _).
  change b2 with (puts ((bytes_of ws1 ++ sub pooled 28 32) ++ drop 32 (take 84 pooled)) ws2). clear b2.
  rewrite puts_contiguous.
  2: { rewrite length_app, Hpad. cbn. tauto. }
  2: { rewrite length_drop, length_take. change (length (bytes_of ws2)) with 48%nat. lia. }
  change (length (bytes_of ws2)) with 48%nat. rewrite drop_drop.
  assert ((bytes_of ws1 ++ sub pooled 28 32) ++ bytes_of ws2 ++ drop (32 + 48) (take 84 pooled) =
    body ++ drop 80 (take 84 pooled)) as ->.
  { unfold body, MarketData_body. rewrite <- !app_assoc. done. }
  assert (sub (body ++ drop 80 (take 84 pooled)) 0 80 = body) as ->.
  { unfold sub. rewrite drop_0. by apply take_app_length'. }
  set (crc := le_bytes 4 _). rewrite <- (app_nil_r (drop _ _)).
  rewrite put_at; [by rewrite app_nil_r|done|]. unfold crc. rewrite length_drop, length_take, length_le_bytes. lia.
Qed.

(** ** Decoding what was encoded *)

Lemma header_read len ty h rest :
  0 <= len < 2 ^ 32 -> 0 <= ty < 2 ^ 16 -> header_ok h ->
  read_header (bytes_of (header_writes len ty h) ++ rest) =
    mkHeader len ty (HFlags h) (Timestamp h) (SeqNum h).
Proof.
  intros Hl Ht (_ & _ & Hf & Hs & Hq). unfold read_header.
  change (sub (bytes_of (header_writes len ty h) ++ rest) 0 4) with (le_bytes 4 len).
  change (sub (bytes_of (header_writes len ty h) ++ rest) 4 6) with (le_bytes 2 ty).
  change (sub (bytes_of (header_writes len ty h) ++ rest) 6 8) with (le_bytes 2 (HFlags h)).
  change (sub (bytes_of (header_writes len ty h) ++ rest) 8 16) with (le_bytes 8 (u64 (Timestamp h))).
  change (sub (bytes_of (header_writes len ty h) ++ rest) 16 24) with (le_bytes 8 (SeqNum h)).
  rewrite !le_value_small by (done || apply u64_256). by rewrite i64_u64.
Qed.

(** The message as the decoder sees it: length and type are the encoder's. *)
Definition NewOrder_wire (m : NewOrderMessage) : NewOrderMessage :=
  {| Header := mkHeader 76 MsgTypeNewOrder (HFlags (Header m)) (Timestamp (Header m)) (SeqNum (Header m));
     OrderID := OrderID m; Price := Price m; Quantity := Quantity m; SymbolID := SymbolID m;
     Side := Side m; OType := OType m; TIF := TIF m; Flags := Flags m; ClientOrderID := ClientOrderID m |}.

Definition MarketData_wire (m : MarketDataMessage) : MarketDataMessage :=
  {| MHeader := mkHeader 84 MsgTypeMarketData (HFlags (MHeader m)) (Timestamp (MHeader m)) (SeqNum (MHeader m));
     MSymbolID := MSymbolID m; BidPrice := BidPrice m; BidQty := BidQty m; AskPrice := AskPrice m;
     AskQty := AskQty m; LastPrice := LastPrice m; LastQty := LastQty m |}.

Lemma bytes_of_are_bytes ws : Forall (fun w => Forall is_byte w.2) ws -> Forall is_byte (bytes_of ws).
Proof. intros H. induction H as [|w ws Hw Hws IH]; [constructor|]. by apply Forall_app. Qed.

Lemma NewOrder_body_bytes m : NewOrder_ok m -> Forall is_byte (NewOrder_body m).
Proof.
  intros (_ & _ & _ & _ & _ & H1 & H2 & H3 & H4 & H5 & _). apply bytes_of_are_bytes.
  unfold header_writes, NewOrder_payload. cbn [app].
  repeat (apply Forall_cons; split; cbn [snd]; [solve [apply le_bytes_are_bytes | done | by apply Forall_singleton]|]). constructor.
Qed.

Lemma NewOrder_fields m rest :
  NewOrder_ok m ->
  let data := NewOrder_body m ++ rest in
  read_header data = Header (NewOrder_wire m) /\ le_value (sub data 24 32) = OrderID m /\
  i64 (le_value (sub data 32 40)) = Price m /\ i64 (le_value (sub data 40 48)) = Quantity m /\
  le_value (sub data 48 52) = SymbolID m /\ byte_at data 52 = Side m /\ byte_at data 53 = OType m /\
  byte_at data 54 = TIF m /\ byte_at data 55 = Flags m /\ sub data 56 72 = ClientOrderID m.
Proof.
  intros (Hh & H1 & H2 & H3 & H4 & _ & _ & _ & _ & _ & Hid) data. unfold data.
  destruct m as [h oid pr qty sid sd ty tif fl cid]. cbn [Header OrderID Price Quantity SymbolID ClientOrderID] in *.
  do 16 (destruct cid as [|? cid]; [done|]). destruct cid; [|done].
  set (m := mkNewOrder _ _ _ _ _ _ _ _ _ _). split.
  - unfold NewOrder_body, bytes_of. rewrite fmap_app, concat_app, <- app_assoc. by apply header_read.
  - change (sub (NewOrder_body m ++ rest) 24 32) with (le_bytes 8 oid).
    change (sub (NewOrder_body m ++ rest) 32 40) with (le_bytes 8 (u64 pr)).
    change (sub (NewOrder_body m ++ rest) 40 48) with (le_bytes 8 (u64 qty)).
    change (sub (NewOrder_body m ++ rest) 48 52) with (le_bytes 4 sid).
    rewrite !le_value_small by (done || apply u64_256). rewrite !i64_u64 by done. split_and!; reflexivity.
Qed.

(** A new order message decodes to itself, whatever the pooled buffer held and
    whatever the target held before: only length and type are the encoder's. *)
Theorem NewOrder_roundtrip m m0 pooled :
  NewOrder_ok m -> (80 <= length pooled)%nat ->
  NewOrder_UnmarshalBinary m0 (NewOrder_MarshalBinary m pooled) = (NewOrder_wire m, None).
Proof.
  intros Hm Hp. pose proof Hm as (_ & _ & _ & _ & _ & _ & _ & _ & _ & _ & Hid).
  destruct (NewOrder_layout m pooled Hid Hp) as [Hlen ->]. set (crc := le_bytes 4 _). set (stale := drop 76 _).
  pose proof (ChecksumIEEE_range _ (NewOrder_body_bytes m Hm)) as Hcrc.
  unfold NewOrder_UnmarshalBinary. rewrite !length_app, Hlen. unfold crc at 1. rewrite length_le_bytes.
  destruct (Nat.ltb_spec (72 + (4 + length stale)) 76) as [Hlt|_]; [lia|].
  rewrite (sub_at (NewOrder_body m) crc stale) by (rewrite ?Hlen; unfold crc; by rewrite ?length_le_bytes).
  rewrite (sub_at [] (NewOrder_body m) (crc ++ stale)) by (done || by rewrite Hlen).
  unfold crc at 1. rewrite le_value_small by done. rewrite Z.eqb_refl.
  destruct (NewOrder_fields m (crc ++ stale) Hm) as (-> & -> & -> & -> & -> & -> & -> & -> & -> & ->). done.
Qed.

Lemma NewOrder_roundtrip_witness :
  exists m, NewOrder_UnmarshalBinary m (NewOrder_MarshalBinary
    (mkNewOrder (mkHeader 0 0 3 (-5) 9) 7 (-100) 50 12 1 0 2 255 (replicate 16 65)) (replicate 1024 171)) =
    (m, None) /\ Price m = -100.
Proof.
  eexists. split.
  - apply NewOrder_roundtrip; [|vm_compute; lia].
    repeat (split; try (vm_compute; intuition congruence)). repeat constructor; vm_compute; intuition congruence.
  - reflexivity.
Defined.

(** The 76 bytes of a message that matter. *)
Definition NewOrder_frame (m : NewOrderMessage) : list Z :=
  NewOrder_body m ++ le_bytes 4 (ChecksumIEEE (NewOrder_body m)).

Lemma NewOrder_frame_length m : NewOrder_ok m -> length (NewOrder_frame m) = 76%nat.
Proof.
  intros (_ & _ & _ & _ & _ & _ & _ & _ & _ & _ & Hid). unfold NewOrder_frame.
  destruct (NewOrder_layout m (replicate 80 0) Hid) as [Hl _]; [by rewrite length_replicate|].
  by rewrite length_app, Hl, length_le_bytes.
Qed.

Lemma NewOrder_frame_marshal m pooled :
  NewOrder_ok m -> (80 <= length pooled)%nat ->
  NewOrder_MarshalBinary m pooled = NewOrder_frame m ++ drop 76 (take 80 pooled).
Proof.
  intros (_ & _ & _ & _ & _ & _ & _ & _ & _ & _ & Hid) Hp.
  destruct (NewOrder_layout m pooled Hid Hp) as [_ ->]. unfold NewOrder_frame. by rewrite <- app_assoc.
Qed.

(** The checksum test of the decoder. *)
Lemma NewOrder_checksum_fails m0 body crc rest :
  length body = 72%nat -> length crc = 4%nat -> le_value crc <> ChecksumIEEE body ->
  NewOrder_UnmarshalBinary m0 (body ++ crc ++ rest) = (m0, Some ChecksumMismatch).
Proof.
  intros Hb Hc Hne. unfold NewOrder_UnmarshalBinary. rewrite !length_app, Hb, Hc.
  destruct (Nat.ltb_spec (72 + (4 + length rest)) 76) as [Hlt|_]; [lia|].
  rewrite (sub_at body crc rest) by (by rewrite ?Hb, ?Hc).
  rewrite (sub_at [] body (crc ++ rest)) by (done || by rewrite Hb).
  by destruct (Z.eqb_spec (le_value crc) (ChecksumIEEE body)).
Qed.

(** C38. Damage to any single byte of an encoded order, checksum included, is
    detected: the decoder reports a checksum mismatch and leaves its target alone. *)
Theorem NewOrder_damage_detected m m0 pooled i b :
  NewOrder_ok m -> (80 <= length pooled)%nat -> (i < 76)%nat -> is_byte b ->
  nth i (NewOrder_MarshalBinary m pooled) 0 <> b ->
  NewOrder_UnmarshalBinary m0 (<[i := b]> (NewOrder_MarshalBinary m pooled)) = (m0, Some ChecksumMismatch).
Proof.
  intros Hm Hp Hi Hb Hne. pose proof Hm as (_ & _ & _ & _ & _ & _ & _ & _ & _ & _ & Hid).
  destruct (NewOrder_layout m pooled Hid Hp) as [Hlen E]. rewrite E in Hne |- *. clear E.
  set (body := NewOrder_body m) in *. pose proof (NewOrder_body_bytes m Hm : Forall is_byte body) as Hbytes.
  pose proof (ChecksumIEEE_range _ Hbytes) as Hcrc. set (rest := drop 76 _).
  destruct (decide (i < 72)%nat) as [Hi72|Hi72].
  - rewrite insert_app_l by lia. rewrite app_nth1 in Hne by lia.
    destruct (lookup_lt_is_Some_2 body i ltac:(lia)) as [x Hx].
    rewrite (nth_lookup_Some _ _ _ _ Hx) in Hne.
    apply NewOrder_checksum_fails; [by rewrite length_insert|apply length_le_bytes|].
    rewrite le_value_small by done. apply list_elem_of_split_length in Hx as (pre & post & Hbody & ->).
    rewrite Hbody in Hbytes |- *. apply Forall_app in Hbytes as [Hpre [Hx Hpost]%Forall_cons].
    rewrite insert_app_r_alt, Nat.sub_diag by lia. simpl. by apply ChecksumIEEE_one_byte.
  - rewrite insert_app_r_alt by lia. rewrite app_nth2 in Hne by lia. rewrite Hlen in *.
    set (crc := le_bytes 4 _) in *. assert (length crc = 4%nat) as Hc by apply length_le_bytes.
    rewrite insert_app_l by lia. rewrite app_nth1 in Hne by lia.
    apply NewOrder_checksum_fails; [done|by rewrite length_insert|].
    intros Heq. rewrite <- (le_value_small 4 (ChecksumIEEE body)) in Heq by done. fold crc in Heq.
    apply le_value_inj in Heq; [|by apply Forall_insert; [apply le_bytes_are_bytes|]|apply le_bytes_are_bytes|by rewrite length_insert].
    apply Hne. rewrite <- Heq. apply nth_lookup_Some. apply list_lookup_insert_eq. lia.
Qed.

Lemma NewOrder_damage_detected_witness :
  NewOrder_UnmarshalBinary (mkNewOrder (mkHeader 0 0 0 0 0) 0 0 0 0 0 0 0 0 [])
    (<[41%nat := 0]> (NewOrder_MarshalBinary
      (mkNewOrder (mkHeader 0 0 3 (-5) 9) 7 (-100) 500 12 1 0 2 255 (replicate 16 65)) (replicate 1024 171)))
  = (mkNewOrder (mkHeader 0 0 0 0 0) 0 0 0 0 0 0 0 0 [], Some ChecksumMismatch).
Proof.
  apply NewOrder_damage_detected; [|vm_compute; lia|lia|vm_compute; intuition congruence|vm_compute; congruence].
  repeat (split; try (vm_compute; intuition congruence)). repeat constructor; vm_compute; intuition congruence.
Defined.

Lemma MarketData_body_bytes m padding :
  MarketData_ok m -> Forall is_byte padding -> Forall is_byte (MarketData_body m padding).
Proof.
  intros _ Hp. unfold MarketData_body. apply Forall_app. split; [|apply Forall_app; split; [apply le_bytes_are_bytes|]].
  - apply bytes_of_are_bytes. unfold header_writes.
    repeat (apply Forall_cons; split; cbn [snd]; [apply le_bytes_are_bytes|]). constructor.
  - apply Forall_app. split; [done|]. apply bytes_of_are_bytes. unfold MarketData_payload. cbn [drop].
    repeat (apply Forall_cons; split; cbn [snd]; [apply le_bytes_are_bytes|]). constructor.
Qed.

Lemma MarketData_fields m padding rest :
  MarketData_ok m -> length padding = 4%nat ->
  let data := MarketData_body m padding ++ rest in
  read_header data = MHeader (MarketData_wire m) /\ le_value (sub data 24 28) = MSymbolID m /\
  i64 (le_value (sub data 32 40)) = BidPrice m /\ i64 (le_value (sub data 40 48)) = BidQty m /\
  i64 (le_value (sub data 48 56)) = AskPrice m /\ i64 (le_value (sub data 56 64)) = AskQty m /\
  i64 (le_value (sub data 64 72)) = LastPrice m /\ i64 (le_value (sub data 72 80)) = LastQty m.
Proof.
  intros (Hh & H1 & H2 & H3 & H4 & H5 & H6 & H7) Hp data. unfold data. clear data.
  do 4 (destruct padding as [|? padding]; [done|]). destruct padding; [|done].
  set (b := MarketData_body m _ ++ rest). split.
  - unfold b, MarketData_body. rewrite <- app_assoc. by apply header_read.
  - change (sub b 24 28) with (le_bytes 4 (MSymbolID m)).
    change (sub b 32 40) with (le_bytes 8 (u64 (BidPrice m))).
    change (sub b 40 48) with (le_bytes 8 (u64 (BidQty m))).
    change (sub b 48 56) with (le_bytes 8 (u64 (AskPrice m))).
    change (sub b 56 64) with (le_bytes 8 (u64 (AskQty m))).
    change (sub b 64 72) with (le_bytes 8 (u64 (LastPrice m))).
    change (sub b 72 80) with (le_bytes 8 (u64 (LastQty m))).
    rewrite !le_value_small by (done || apply u64_256). rewrite !i64_u64 by done. done.
Qed.

(** A market data message decodes to itself; the padding, which carries stale
    bytes of the pool, is covered by the checksum and ignored. *)
Theorem MarketData_roundtrip m m0 pooled :
  MarketData_ok m -> (84 <= length pooled)%nat -> Forall is_byte pooled ->
  MarketData_UnmarshalBinary m0 (MarketData_MarshalBinary m pooled) = (MarketData_wire m, None).
Proof.
  intros Hm Hp Hb. assert (length (sub pooled 28 32) = 4%nat) as Hpad.
  { unfold sub. rewrite length_take, length_drop. lia. }
  assert (Forall is_byte (sub pooled 28 32)) as Hpb by (by apply Forall_take, Forall_drop).
  destruct (MarketData_layout m pooled Hp) as [Hlen ->]. set (body := MarketData_body m _) in *.
  pose proof (ChecksumIEEE_range _ (MarketData_body_bytes m _ Hm Hpb)) as Hcrc. fold body in Hcrc.
  set (crc := le_bytes 4 _). assert (length crc = 4%nat) as Hc by apply length_le_bytes.
  unfold MarketData_UnmarshalBinary. rewrite length_app, Hlen, Hc. simpl Nat.ltb. cbv iota.
  rewrite <- (app_nil_r crc).
  rewrite (sub_at body crc []) by (by rewrite ?Hlen, ?Hc).
  rewrite (sub_at [] body (crc ++ [])) by (done || by rewrite Hlen).
  unfold crc at 1. rewrite le_value_small by done. rewrite Z.eqb_refl.
  pose proof (MarketData_fields m _ (crc ++ []) Hm Hpad) as HF. cbv zeta in HF. fold body in HF.
  destruct HF as (-> & -> & -> & -> & -> & -> & -> & ->). done.
Qed.

(** ** Batches *)

Lemma EncodeNewOrder_spec e m pooled :
  NewOrder_ok m -> (80 <= length pooled)%nat -> (offset e + 76 <= length (buf e))%nat ->
  exists e', EncodeNewOrder e m pooled = (e', None) /\ offset e' = (offset e + 76)%nat /\
    length (buf e') = length (buf e) /\ Bytes e' = Bytes e ++ NewOrder_frame m.
Proof.
  intros Hm Hp Hr. unfold EncodeNewOrder. destruct (Nat.ltb_spec (length (buf e)) (offset e + 76)); [lia|].
  eexists. split; [done|]. cbn [offset buf]. rewrite NewOrder_frame_marshal by done.
  pose proof (NewOrder_frame_length m Hm) as Hf. set (stale := drop 76 _).
  assert (length stale = 4%nat) as Hs by (unfold stale; rewrite length_drop, length_take; lia).
  set (k := (length (buf e) - offset e)%nat).
  assert (length (take k (NewOrder_frame m ++ stale)) <= k)%nat as Hk by (rewrite length_take; lia).
  split_and!; [done|apply length_put; lia|].
  unfold Bytes. cbn [offset buf]. unfold put.
  rewrite take_app_ge by (rewrite length_take; lia). f_equal. rewrite length_take_le by lia.
  replace (offset e + 76 - offset e)%nat with 76%nat by lia.
  rewrite (take_app_le _ _ 76).
  2: { rewrite length_take, length_app, Hf, Hs. unfold k. lia. }
  rewrite take_take, Nat.min_l by (unfold k; lia). by apply take_app_length'.
Qed.

Fixpoint encode_all (e : BatchEncoder) (ms : list (NewOrderMessage * list Z)) :
    BatchEncoder * list (option protocol_error) :=
  match ms with
  | [] => (e, [])
  | (m, pooled) :: ms =>
      let '(e, err) := EncodeNewOrder e m pooled in
      let '(e, errs) := encode_all e ms in (e, err :: errs)
  end.

Lemma encode_all_spec ms : forall e,
  Forall (fun mp => NewOrder_ok mp.1 /\ (80 <= length mp.2)%nat) ms ->
  (offset e + 76 * length ms <= length (buf e))%nat ->
  exists e', encode_all e ms = (e', replicate (length ms) None) /\
    Bytes e' = Bytes e ++ concat (map (fun mp => NewOrder_frame mp.1) ms).
Proof.
  induction ms as [|[m pooled] ms IH]; intros e Hf Hr; cbn [encode_all length map concat replicate].
  - exists e. by rewrite app_nil_r.
  - apply Forall_cons in Hf as [[Hm Hp] Hf]. cbn [length fst snd] in *.
    destruct (EncodeNewOrder_spec e m pooled Hm Hp) as (e1 & -> & Ho & Hl & Hb); [lia|].
    destruct (IH e1 Hf) as (e2 & -> & He2); [lia|]. exists e2. split; [done|]. by rewrite He2, Hb, app_assoc.
Qed.

(** Decoding one frame, wherever it stands. *)
Lemma NewOrder_frame_decodes m m0 :
  NewOrder_ok m -> NewOrder_UnmarshalBinary m0 (NewOrder_frame m) = (NewOrder_wire m, None).
Proof.
  intros Hm. pose proof Hm as (_ & _ & _ & _ & _ & _ & _ & _ & _ & _ & Hid).
  destruct (NewOrder_layout m (replicate 80 0) Hid) as [Hlen _]; [by rewrite length_replicate|].
  pose proof (ChecksumIEEE_range _ (NewOrder_body_bytes m Hm)) as Hcrc.
  unfold NewOrder_UnmarshalBinary. rewrite NewOrder_frame_length by done. simpl Nat.ltb. cbv iota.
  unfold NewOrder_frame. set (crc := le_bytes 4 _). rewrite <- (app_nil_r crc).
  rewrite (sub_at (NewOrder_body m) crc []) by (rewrite ?Hlen; unfold crc; by rewrite ?length_le_bytes).
  rewrite (sub_at [] (NewOrder_body m) (crc ++ [])) by (done || by rewrite Hlen).
  unfold crc at 1. rewrite le_value_small by done. rewrite Z.eqb_refl.
  destruct (NewOrder_fields m (crc ++ []) Hm) as (-> & -> & -> & -> & -> & -> & -> & -> & -> & ->). done.
Qed.

Lemma chunk_of_concat {A} n (ls : list (list A)) k l :
  Forall (fun l => length l = n) ls -> ls !! k = Some l ->
  sub (concat ls) (n * k) (n * (k + 1)) = l.
Proof.
  intros Hf. revert k. induction Hf as [|x ls Hx Hf IH]; intros [|k] Hk; simplify_eq/=.
  - unfold sub. rewrite Nat.mul_0_r, drop_0. apply take_app_length'. lia.
  - rewrite <- (IH k Hk). unfold sub. rewrite drop_app_ge by lia. f_equal; [lia|]. f_equal. lia.
Qed.

(** A batch that fits its buffer is encoded without error, and cutting the
    encoder's bytes into records of 76 decodes every order of the batch, in order. *)
Theorem batch_roundtrip ms capacity :
  Forall (fun mp => NewOrder_ok mp.1 /\ (80 <= length mp.2)%nat) ms ->
  (76 * length ms <= capacity)%nat ->
  exists e, encode_all (NewBatchEncoder capacity) ms = (e, replicate (length ms) None) /\
    length (Bytes e) = (76 * length ms)%nat /\
    forall k m pooled m0, ms !! k = Some (m, pooled) ->
      NewOrder_UnmarshalBinary m0 (sub (Bytes e) (76 * k) (76 * (k + 1))) = (NewOrder_wire m, None).
Proof.
  intros Hf Hc. destruct (encode_all_spec ms (NewBatchEncoder capacity) Hf) as (e & -> & He).
  { cbn. rewrite length_replicate. lia. }
  exists e. split; [done|]. change (Bytes (NewBatchEncoder capacity)) with (take 0 (replicate capacity 0)) in He.
  rewrite take_0, app_nil_l in He. rewrite He.
  assert (Forall (fun l => length l = 76%nat) (map (fun mp => NewOrder_frame mp.1) ms)) as Hfl.
  { apply Forall_fmap. eapply Forall_impl; [exact Hf|]. intros [m p] [Hm _]. by apply NewOrder_frame_length. }
  split.
  - clear -Hfl. induction ms as [|m ms IH]; [done|]. cbn [map concat length] in *.
    apply Forall_cons in Hfl as [Hl Hfl]. rewrite length_app, (IH Hfl), Hl. lia.
  - intros k m pooled m0 Hk. rewrite (chunk_of_concat 76 _ k (NewOrder_frame m)); [|done|].
    + apply NewOrder_frame_decodes. by destruct (proj1 (Forall_lookup _ _) Hf _ _ Hk).
    + apply (list_lookup_fmap_Some_2 (fun mp => NewOrder_frame mp.1) _ _ _ Hk).
Qed.

Lemma batch_roundtrip_witness :
  let m i := mkNewOrder (mkHeader 0 0 3 (-5) i) i (-100) 50 12 1 0 2 255 (replicate 16 65) in
  exists e, encode_all (NewBatchEncoder 160) [(m 1, replicate 1024 0); (m 2, replicate 1024 1)] =
    (e, [None; None]) /\ length (Bytes e) = 152%nat.
Proof.
  intros m.
  assert (forall i, 0 <= i < 10 -> NewOrder_ok (m i)) as Hok.
  { intros i Hi. repeat (split; try (cbn; unfold is_byte, min_i64, max_i64; lia)). repeat constructor; lia. }
  destruct (batch_roundtrip [(m 1, replicate 1024 0); (m 2, replicate 1024 1)] 160) as (e & He & Hl & _).
  - apply Forall_cons. split; [split; [apply Hok; lia|cbn [snd]; rewrite length_replicate; lia]|].
    apply Forall_singleton. split; [apply Hok; lia|cbn [snd]; rewrite length_replicate; lia].
  - cbn. lia.
  - exists e. split; [exact He|exact Hl].
Defined.

(** ** Encoding what was decoded *)

Lemma sub_bytes data i j : Forall is_byte data -> Forall is_byte (sub data i j).
Proof. intros H. unfold sub. by apply Forall_take, Forall_drop. Qed.

Lemma sub_length {A} (data : list A) i j : (j <= length data)%nat -> length (sub data i j) = (j - i)%nat.
Proof. intros H. unfold sub. rewrite length_take, length_drop. lia. Qed.

(** A number read from some bytes is written back as these bytes. *)
Lemma le_bytes_sub data n i j :
  Forall is_byte data -> (j <= length data)%nat -> (j - i = n)%nat ->
  le_bytes n (le_value (sub data i j)) = sub data i j.
Proof.
  intros Hb Hj <-. rewrite <- (sub_length data i j Hj). by apply le_bytes_value, sub_bytes.
Qed.

Lemma le_bytes_sub_i64 data i j :
  Forall is_byte data -> (j <= length data)%nat -> (j - i = 8)%nat ->
  le_bytes 8 (u64 (i64 (le_value (sub data i j)))) = sub data i j.
Proof.
  intros Hb Hj E. pose proof (le_value_range _ (sub_bytes data i j Hb)) as Hr.
  rewrite (sub_length data i j Hj), E in Hr.
  assert (u64 (i64 (le_value (sub data i j))) = le_value (sub data i j)) as ->.
  { unfold u64, i64, wrap_signed. change (256 ^ Z.of_nat 8) with (2 ^ 64) in Hr.
    rewrite Zminus_mod_idemp_l, Z.add_simpl_r. by apply Z.mod_small. }
  by apply le_bytes_sub.
Qed.

Lemma byte_at_sub data i l : (i < length data)%nat -> byte_at data i :: l = sub data i (S i) ++ l.
Proof.
  intros Hi. unfold byte_at, sub. replace (S i - i)%nat with 1%nat by lia.
  destruct (lookup_lt_is_Some_2 data i Hi) as [x Hx].
  rewrite (drop_S _ _ _ Hx). cbn. f_equal. by apply nth_lookup_Some.
Qed.

Lemma sub_join {A} (data : list A) i j k : (i <= j <= k)%nat -> sub data i j ++ sub data j k = sub data i k.
Proof.
  intros H. unfold sub. replace (k - i)%nat with (j - i + (k - j))%nat by lia.
  rewrite <- take_take_drop, drop_drop. by replace (i + (j - i))%nat with j by lia.
Qed.

(** The bytes of an accepted order, field by field. *)
Lemma NewOrder_accepted m0 data m :
  Forall is_byte data -> NewOrder_UnmarshalBinary m0 data = (m, None) ->
  (76 <= length data)%nat /\ length (ClientOrderID m) = 16%nat /\ Length (Header m) = le_value (sub data 0 4) /\
  NewOrder_body m = le_bytes 4 76 ++ sub data 4 72 /\ sub data 72 76 = le_bytes 4 (ChecksumIEEE (sub data 0 72)).
Proof.
  intros Hb. unfold NewOrder_UnmarshalBinary. destruct (Nat.ltb_spec (length data) 76) as [|Hlen]; [done|].
  destruct (Z.eqb_spec (le_value (sub data 72 76)) (ChecksumIEEE (sub data 0 72))) as [Hcrc|]; cbn [negb]; [|done].
  destruct (Z.eqb_spec (MsgType (read_header data)) MsgTypeNewOrder) as [Hty|]; cbn [negb]; [|done].
  intros [= <-]. cbn [ClientOrderID Header]. split; [done|]. split; [rewrite sub_length; lia|]. split; [done|]. split.
  - unfold NewOrder_body, bytes_of, header_writes, NewOrder_payload.
    cbn [app fmap list_fmap snd concat Header OrderID Price Quantity SymbolID Side OType TIF Flags ClientOrderID].
    unfold read_header in *. cbn [HFlags Timestamp SeqNum MsgType] in *. rewrite app_nil_r. f_equal. rewrite <- Hty.
    rewrite !le_bytes_sub_i64, !le_bytes_sub, !byte_at_sub by (done || lia).
    rewrite !app_assoc, !sub_join by lia. done.
  - rewrite <- Hcrc. symmetry. apply le_bytes_sub; done || lia.
Qed.

(** C40. The codec of new orders, in both directions.  An order in its Go types
    encodes, whatever the pooled buffer held, to bytes that decode to it, with
    length and type as the encoder sets them and whatever the target held.  And
    bytes that decode to an order, with the length field the encoder writes (the
    decoder does not look at it), are what that order encodes to, all 76 of them:
    no two messages on the wire decode to the same order. *)
Theorem NewOrder_codec (pooled : list Z) (m0 : NewOrderMessage) :
  (80 <= length pooled)%nat ->
  (forall m, NewOrder_ok m ->
     NewOrder_UnmarshalBinary m0 (NewOrder_MarshalBinary m pooled) = (NewOrder_wire m, None)) /\
  (forall data m, Forall is_byte data -> NewOrder_UnmarshalBinary m0 data = (m, None) -> Length (Header m) = 76 ->
     take 76 (NewOrder_MarshalBinary m pooled) = take 76 data).
Proof.
  intros Hp. split; [intros m Hm; by apply NewOrder_roundtrip|]. intros data m Hb Hdec Hlen.
  destruct (NewOrder_accepted m0 data m Hb Hdec) as (Hl & Hid & Hn & Hbody & Hcrc).
  assert (NewOrder_body m = sub data 0 72) as E.
  { rewrite Hbody, <- (sub_join data 0 4 72) by lia. f_equal. rewrite <- (le_bytes_sub data 4 0 4) by (done || lia).
    by rewrite <- Hn, Hlen. }
  destruct (NewOrder_layout m pooled Hid Hp) as [Hbl ->]. rewrite E, <- Hcrc, app_assoc, sub_join by lia.
  rewrite take_app_le by (rewrite sub_length; lia). rewrite take_ge by (rewrite sub_length; lia). unfold sub. by rewrite drop_0.
Qed.

(** A stored frame, decoded and encoded again. *)
Lemma NewOrder_codec_witness :
  let m := mkNewOrder (mkHeader 76 1 3 (-5) 9) 7 (-100) 50 12 1 0 2 255 (replicate 16 65) in
  let data := NewOrder_MarshalBinary m (replicate 80 0) in
  let m0 := mkNewOrder (mkHeader 0 0 0 0 0) 0 0 0 0 0 0 0 0 (replicate 16 0) in
  take 76 (NewOrder_MarshalBinary (NewOrder_UnmarshalBinary m0 data).1 (replicate 1024 171)) = take 76 data.
Proof.
  cbv zeta.
  refine (proj2 (NewOrder_codec (replicate 1024 171) (mkNewOrder (mkHeader 0 0 0 0 0) 0 0 0 0 0 0 0 0 (replicate 16 0)) _)
    _ _ _ _ _).
  - vm_compute. lia.
  - vm_compute. repeat constructor; discriminate.
  - vm_compute. reflexivity.
  - vm_compute. reflexivity.
Defined.
