(* ===== verification/VpnProtocol.v ===== *)
(** * VPN packets (pkg/vpn/protocol.go)

    Packets as records, big endian on the wire behind a header of 16 bytes.
    Go strings are their bytes; the clock reading of a constructor is its
    argument [now] (nanoseconds, an int64). *)
From S2P Require Import Prelude Codec.

Module Vpn.

(** ** Packets *)

Definition PacketTypeControlHandshake : Z := 0x01.

Definition PacketTypeControlAuth : Z := 0x02.

Definition PacketTypeControlConfig : Z := 0x03.

Definition PacketTypeControlKeepAlive : Z := 0x04.

Definition PacketTypeControlDisconnect : Z := 0x05.

Definition PacketTypeData : Z := 0x10.

Definition PacketTypeACK : Z := 0x11.

Record VPNPacket : Type := mkPacket {
  Type_ : Z;
  Version : Z;
  Length : Z;
  Sequence : Z;
  Timestamp : Z;
  Data : list Z
}.

Inductive packet_error : Type :=
| TooShort (n : nat)
| LengthMismatch (expected : Z) (got : nat)
| DataTooLarge (n : nat)
| NotAuthPacket
| InvalidAuthFormat.

Definition ParsePacket (data : list Z) : VPNPacket + packet_error :=
  if (length data <? 16)%nat then inr (TooShort (length data))
  else
    let p := {| Type_ := nth 0 data 0; Version := nth 1 data 0; Length := be_value (sub data 2 4);
                Sequence := be_value (sub data 4 8); Timestamp := be_value (sub data 8 16);
                Data := [] |} in
    if negb (Length p =? Z.of_nat (length data)) then inr (LengthMismatch (Length p) (length data))
    else
      inl (if (16 <? length data)%nat
           then {| Type_ := Type_ p; Version := Version p; Length := Length p; Sequence := Sequence p;
                   Timestamp := Timestamp p; Data := drop 16 data |}
           else p).

Definition Serialize (p : VPNPacket) : list Z + packet_error :=
  if 65535 - 16 <? Z.of_nat (length (Data p)) then inr (DataTooLarge (length (Data p)))
  else
    let len := Z.of_nat (16 + length (Data p)) mod 2 ^ 16 in
    let buf := replicate (Z.to_nat len) 0 in
    let buf := put buf 0 [Type_ p] in
    let buf := put buf 1 [Version p] in
    let buf := put buf 2 (be_bytes 2 len) in
    let buf := put buf 4 (be_bytes 4 (Sequence p)) in
    let buf := put buf 8 (be_bytes 8 (Timestamp p)) in
    inl (if (0 <? length (Data p))%nat then put buf 16 (Data p) else buf).

(** ** Constructors *)

Section create.
Context (now : Z).

Definition create (ty : Z) (sequence : Z) (data : list Z) : VPNPacket :=
  {| Type_ := ty; Version := 1; Length := 0; Sequence := sequence; Timestamp := u64 now; Data := data |}.

Definition CreateHandshakePacket (sequence : Z) : VPNPacket :=
  create PacketTypeControlHandshake sequence (lit "HANDSHAKE").

Definition CreateAuthResponseWithSalt (sequence : Z) (salt : list Z) : VPNPacket :=
  create PacketTypeControlAuth sequence salt.

Definition CreateAuthPacket (username password : list Z) (sequence : Z) : VPNPacket :=
  create PacketTypeControlAuth sequence (username ++ lit ":" ++ password).

Definition CreateKeepAlivePacket (sequence : Z) : VPNPacket :=
  create PacketTypeControlKeepAlive sequence (lit "KEEPALIVE").

Definition CreateDataPacket (data : list Z) (sequence : Z) : VPNPacket :=
  create PacketTypeData sequence data.

Definition CreateDisconnectPacket (sequence : Z) (reason : list Z) : VPNPacket :=
  create PacketTypeControlDisconnect sequence reason.

Definition CreateACKPacket (sequence : Z) : VPNPacket := create PacketTypeACK sequence (lit "ACK").

(** The loop over the items with its index test [i > 0]. *)
Definition comma_list (items : list (list Z)) : list Z :=
  fold_left (fun acc '(i, s) => (if (0 <? i)%nat then acc ++ lit "," else acc) ++ s)
    (imap pair items) [].

Definition CreateConfigResponsePacket (sequence : Z) (dnsServers routes : list (list Z)) : VPNPacket :=
  create PacketTypeControlConfig sequence
    (lit "DNS=" ++ comma_list dnsServers ++ lit " ROUTES=" ++ comma_list routes).
End create.

(** ** Reading packets *)

(** [strings.TrimSpace].  [trim] removes white space in front, the bytes of a
    character coming in the order [two], [three] expect. *)
Fixpoint trim (two : Z -> Z -> bool) (three : Z -> Z -> Z -> bool) (l : list Z) : list Z :=
  match l with
  | [] => []
  | a :: l1 =>
      if space1 a then trim two three l1
      else match l1 with
           | [] => l
           | b :: l2 =>
               if two a b then trim two three l2
               else match l2 with
                    | [] => l
                    | c :: l3 => if three a b c then trim two three l3 else l
                    end
           end
  end.

Definition TrimSpace (s : list Z) : list Z :=
  rev (trim (fun b a => space2 a b) (fun c b a => space3 a b c) (rev (trim space2 space3 s))).

Definition splitAndTrim (s : list Z) (sep : Z) : list (list Z) := map TrimSpace (split_on sep s).

Definition has_prefix (p s : list Z) : bool := bool_decide (take (length p) s = p).

Definition nonempty (s : list Z) : bool := negb (bool_decide (s = [])).

Definition ParseConfigResponse (data : list Z) : list (list Z) * list (list Z) :=
  fold_left
    (fun '(dns, routes) part =>
       let dns := if has_prefix (lit "DNS=") part && (4 <? length part)%nat
                  then dns ++ List.filter nonempty (splitAndTrim (drop 4 part) 44) else dns in
       let routes := if has_prefix (lit "ROUTES=") part && (7 <? length part)%nat
                     then routes ++ List.filter nonempty (splitAndTrim (drop 7 part) 44) else routes in
       (dns, routes))
    (splitAndTrim data 32) ([], []).

Definition ParseAuthData (packet : VPNPacket) : (list Z * list Z) + packet_error :=
  if negb (Type_ packet =? PacketTypeControlAuth) then inr NotAuthPacket
  else match split_on 58 (Data packet) with
       | [u; p] => inl (u, p)
       | _ => inr InvalidAuthFormat
       end.

Definition IsControlPacket (packet : VPNPacket) : bool := Type_ packet <? PacketTypeData.

Definition IsDataPacket (packet : VPNPacket) : bool := PacketTypeData <=? Type_ packet.

(** The fields fit their Go types. *)
Definition packet_ok (p : VPNPacket) : Prop :=
  is_byte (Type_ p) /\ is_byte (Version p) /\ 0 <= Length p < 2 ^ 16 /\ 0 <= Sequence p < 2 ^ 32 /\
  0 <= Timestamp p < 2 ^ 64 /\ Forall is_byte (Data p).

(** ** The wire format *)

Definition frame (p : VPNPacket) : list Z :=
  [Type_ p; Version p] ++ be_bytes 2 (16 + Z.of_nat (length (Data p))) ++
  be_bytes 4 (Sequence p) ++ be_bytes 8 (Timestamp p) ++ Data p.

Lemma length_frame p : length (frame p) = (16 + length (Data p))%nat.
Proof. unfold frame. rewrite !length_app, !length_be_bytes. simpl. lia. Qed.

(** The writes in offset order cover the buffer. *)
Lemma put_next {A} (pre bs rest : list A) i :
  i = length pre -> (length bs <= length rest)%nat ->
  put (pre ++ rest) i bs = (pre ++ bs) ++ drop (length bs) rest.
Proof.
  intros -> Hl. rewrite <- (take_drop (length bs) rest) at 1.
  rewrite put_at by (done || (rewrite length_take_le; done)). by rewrite app_assoc.
Qed.

Lemma Serialize_frame p :
  Z.of_nat (length (Data p)) <= 65535 - 16 -> Serialize p = inl (frame p).
Proof.
  intros Hl. unfold Serialize. destruct (Z.ltb_spec (65535 - 16) (Z.of_nat (length (Data p)))); [lia|].
  rewrite Z.mod_small by lia. rewrite Nat2Z.id.
  replace (Z.of_nat (16 + length (Data p))) with (16 + Z.of_nat (length (Data p))) by lia.
  unfold frame. set (bl := be_bytes 2 _). set (bq := be_bytes 4 _). set (bt := be_bytes 8 _).
  assert (length bl = 2%nat) as Hbl by apply length_be_bytes.
  assert (length bq = 4%nat) as Hbq by apply length_be_bytes.
  assert (length bt = 8%nat) as Hbt by apply length_be_bytes.
  rewrite <- (app_nil_l (replicate _ _)). set (n := length (Data p)).
  do 5 (rewrite put_next;
    [|rewrite ?length_app, ?Hbl, ?Hbq, ?Hbt; done
     |rewrite ?length_drop, length_replicate, ?Hbl, ?Hbq, ?Hbt; cbn [length]; lia]).
  rewrite !drop_drop, drop_replicate, Hbl, Hbq, Hbt.
  replace (16 + n - _)%nat with n by (cbn [length]; lia).
  f_equal. destruct (Nat.ltb_spec 0 n) as [Hn|Hn].
  - rewrite put_next; [|by rewrite !length_app, Hbl, Hbq, Hbt|by rewrite length_replicate].
    rewrite drop_ge by (rewrite length_replicate; done). rewrite app_nil_r. by rewrite <- !app_assoc.
  - assert (n = 0%nat) as Hz by lia. rewrite Hz. unfold n in Hz. apply length_zero_iff_nil in Hz. rewrite Hz.
    cbn [replicate]. by rewrite !app_nil_r, <- !app_assoc.
Qed.

(** Length is the frame's. *)
Definition with_length (p : VPNPacket) : VPNPacket :=
  {| Type_ := Type_ p; Version := Version p; Length := 16 + Z.of_nat (length (Data p));
     Sequence := Sequence p; Timestamp := Timestamp p; Data := Data p |}.

Lemma ParsePacket_frame p :
  packet_ok p -> Z.of_nat (length (Data p)) <= 65535 - 16 -> ParsePacket (frame p) = inl (with_length p).
Proof.
  intros (Hty & Hv & _ & Hs & Ht & Hd) Hl. unfold ParsePacket. rewrite length_frame.
  destruct (Nat.ltb_spec (16 + length (Data p)) 16); [lia|]. unfold frame.
  set (bl := be_bytes 2 _). set (bq := be_bytes 4 _). set (bt := be_bytes 8 _).
  assert (length bl = 2%nat) as Hbl by apply length_be_bytes.
  assert (length bq = 4%nat) as Hbq by apply length_be_bytes.
  assert (length bt = 8%nat) as Hbt by apply length_be_bytes.
  rewrite (sub_at [Type_ p; Version p] bl) by (done || by rewrite Hbl).
  replace (drop 16 _) with (Data p).
  2: { rewrite !app_assoc. symmetry. apply drop_app_length'. by rewrite !length_app, Hbl, Hbq, Hbt. }
  assert (sub ([Type_ p; Version p] ++ bl ++ bq ++ bt ++ Data p) 4 8 = bq) as ->.
  { rewrite (app_assoc _ bl). apply sub_at; rewrite length_app, Hbl, ?Hbq; done. }
  assert (sub ([Type_ p; Version p] ++ bl ++ bq ++ bt ++ Data p) 8 16 = bt) as ->.
  { rewrite (app_assoc _ bl), (app_assoc _ bq). apply sub_at; rewrite !length_app, Hbl, Hbq, ?Hbt; done. }
  unfold bl, bq, bt. rewrite !be_value_small by lia. cbn [nth app Type_ Version Length Sequence Timestamp].
  replace (Z.of_nat (16 + length (Data p))) with (16 + Z.of_nat (length (Data p))) by lia.
  rewrite Z.eqb_refl. cbn [negb]. unfold with_length. f_equal.
  destruct (Nat.ltb_spec 16 (16 + length (Data p))); [done|].
  destruct (Data p); [done|simpl in *; lia].
Qed.

(** Every packet whose fields fit their types is serialized, unless its data
    exceeds 65519 bytes, and what is serialized parses back to the packet with
    its length filled in. *)
Theorem Serialize_ParsePacket p :
  packet_ok p ->
  (Z.of_nat (length (Data p)) <= 65519 /\
   exists bs, Serialize p = inl bs /\ ParsePacket bs = inl (with_length p)) \/
  (65519 < Z.of_nat (length (Data p)) /\ Serialize p = inr (DataTooLarge (length (Data p)))).
Proof.
  intros Hp. destruct (Z.le_gt_cases (Z.of_nat (length (Data p))) 65519) as [Hl|Hl]; [left|right].
  - split; [done|]. exists (frame p). split; [by apply Serialize_frame|by apply ParsePacket_frame].
  - split; [lia|]. unfold Serialize. by destruct (Z.ltb_spec (65535 - 16) (Z.of_nat (length (Data p)))); [|lia].
Qed.

Lemma Serialize_ParsePacket_witness :
  exists bs, Serialize (CreateDataPacket 77 [1; 2; 255] 9) = inl bs /\
    exists p, ParsePacket bs = inl p /\ Data p = [1; 2; 255].
Proof.
  destruct (Serialize_ParsePacket (CreateDataPacket 77 [1; 2; 255] 9)) as [(_ & bs & H1 & H2)|[H _]].
  - repeat (split; try (vm_compute; intuition congruence)). repeat constructor; vm_compute; congruence.
  - exists bs. split; [exact H1|]. eexists. split; [exact H2|reflexivity].
  - vm_compute in H. congruence.
Defined.

(** ** Packets that parse are in the canonical form *)

Lemma ParsePacket_bytes z z0 z1 z2 z3 z4 z5 z6 z7 z8 z9 z10 z11 z12 z13 z14 d :
  let data := [z; z0; z1; z2; z3; z4; z5; z6; z7; z8; z9; z10; z11; z12; z13; z14] ++ d in
  ParsePacket data =
    if be_value [z1; z2] =? Z.of_nat (length data)
    then inl (mkPacket z z0 (be_value [z1; z2]) (be_value [z3; z4; z5; z6])
                (be_value [z7; z8; z9; z10; z11; z12; z13; z14]) d)
    else inr (LengthMismatch (be_value [z1; z2]) (length data)).
Proof.
  intros data. unfold ParsePacket, data.
  change (sub _ 2 4) with [z1; z2]. change (sub _ 4 8) with [z3; z4; z5; z6].
  change (sub _ 8 16) with [z7; z8; z9; z10; z11; z12; z13; z14]. cbn [Length].
  set (v := be_value [z1; z2]). set (n := Z.of_nat _). destruct (v =? n); [|done]. by destruct d.
Qed.

Ltac all_bytes := repeat first [apply Forall_nil_2 | apply Forall_cons_2; [assumption|]].

(** Parsing loses nothing: the packet an accepted frame parses to serializes to
    the same bytes, so no two frames parse to one packet, and its fields fit
    their types. *)
Theorem ParsePacket_Serialize data p :
  Forall is_byte data -> ParsePacket data = inl p -> Serialize p = inl data /\ packet_ok p.
Proof.
  intros Hb Hp. assert (16 <= length data)%nat as Hl.
  { unfold ParsePacket in Hp. by destruct (Nat.ltb_spec (length data) 16). }
  do 16 (destruct data as [|? data]; [simpl in Hl; lia|]).
  repeat match goal with H : Forall _ (_ :: _) |- _ => apply Forall_cons in H as [? H] end.
  clear Hl. rename data into d. pose proof (ParsePacket_bytes z z0 z1 z2 z3 z4 z5 z6 z7 z8 z9 z10 z11 z12 z13 z14 d) as E.
  cbn [app] in E. rewrite E in Hp. clear E.
  match type of Hp with (if _ =? Z.of_nat ?k then _ else _) = _ => replace k with (16 + length d)%nat in Hp by done end.
  destruct (Z.eqb_spec (be_value [z1; z2]) (Z.of_nat (16 + length d))) as [Elen|]; [|done].
  assert (be_value [z1; z2] < 2 ^ 16) as Hlt.
  { apply (be_value_range [z1; z2]). all_bytes. }
  injection Hp as <-.
  split.
  - rewrite Serialize_frame by (cbn [Data]; lia). f_equal. unfold frame. cbn [Type_ Version Data Sequence Timestamp].
    replace (16 + Z.of_nat (length d)) with (be_value [z1; z2]) by lia.
    change (be_bytes 2 ?z) with (be_bytes (length [z1; z2]) z).
    change (be_bytes 4 ?z) with (be_bytes (length [z3; z4; z5; z6]) z).
    change (be_bytes 8 ?z) with (be_bytes (length [z7; z8; z9; z10; z11; z12; z13; z14]) z).
    rewrite !be_bytes_value by all_bytes. done.
  - split_and!; cbn [Type_ Version Data Sequence Timestamp Length]; try assumption.
    all: match goal with |- _ < _ => idtac | |- _ <= _ => idtac end.
    all: first [apply (be_value_range [z1; z2]) | apply (be_value_range [z3; z4; z5; z6])
               | apply (be_value_range [z7; z8; z9; z10; z11; z12; z13; z14])]; all_bytes.
Qed.

Lemma ParsePacket_Serialize_witness :
  exists p, ParsePacket (frame (CreateACKPacket 5 3)) = inl p /\
    Serialize p = inl (frame (CreateACKPacket 5 3)) /\ packet_ok p.
Proof.
  eexists. split; [vm_compute; reflexivity|].
  apply ParsePacket_Serialize; [|vm_compute; reflexivity].
  vm_compute. repeat constructor; congruence.
Defined.

(** ** Credentials *)

Lemma length_split_on (sep : Z) l : length (split_on sep l) = S (length (filter (sep =.) l)).
Proof.
  induction l as [|x l IH]; [done|]. cbn [split_on]. rewrite filter_cons.
  pose proof (split_on_ne sep l). destruct (decide (x = sep)) as [->|Hx].
  - rewrite decide_True by done. cbn [length]. by rewrite IH.
  - rewrite decide_False by congruence. by destruct (split_on sep l).
Qed.

Lemma length_filter_in (sep : Z) l : sep ∈ l -> (1 <= length (filter (sep =.) l))%nat.
Proof.
  intros Hin. destruct (filter (sep =.) l) eqn:E; [|simpl; lia].
  assert (sep ∈ filter (sep =.) l) as Hf by (by apply list_elem_of_filter). rewrite E in Hf. by apply elem_of_nil in Hf.
Qed.

(** An authentication packet gives back the credentials it was made from,
    except when the name or the password contains the separator: then the
    packet the client builds is rejected as malformed. *)
Theorem ParseAuthData_Create now u p sequence :
  ParseAuthData (CreateAuthPacket now u p sequence) =
    if decide (58 ∈ u ++ p) then inr InvalidAuthFormat else inl (u, p).
Proof.
  unfold ParseAuthData. cbn [CreateAuthPacket create Type_ Data]. rewrite Z.eqb_refl. cbn [negb].
  change (u ++ lit ":" ++ p) with (u ++ 58 :: p). destruct (decide (58 ∈ u ++ p)) as [Hin|Hn].
  - assert (3 <= length (split_on 58%Z (u ++ 58%Z :: p)))%nat as Hl.
    { rewrite length_split_on, filter_app, length_app, filter_cons_True by done. cbn [length].
      apply elem_of_app in Hin as [Hin|Hin]; apply length_filter_in in Hin; lia. }
    destruct (split_on 58 (u ++ 58 :: p)) as [|a [|b [|c l]]]; simpl in Hl; try lia. done.
  - apply not_elem_of_app in Hn as [Hu Hp]. by rewrite split_app_sep, split_piece.
Qed.

(** ** Pushed configuration *)

(** An address or a route: printable ASCII, no comma. *)
Definition plain (s : list Z) : Prop := s <> [] /\ Forall (fun b => 33 <= b <= 126 /\ b <> 44) s.

Lemma trim_graphic two three l :
  (forall a b, 33 <= a <= 126 -> two a b = false) -> (forall a b c, 33 <= a <= 126 -> three a b c = false) ->
  Forall (fun b => 33 <= b <= 126) l -> trim two three l = l.
Proof.
  intros H2 H3 Hl. destruct Hl as [|a l Ha Hl]; [done|]. cbn [trim].
  assert (space1 a = false) as -> by (unfold space1; lia).
  destruct l as [|b l]; [done|]. rewrite H2 by done. destruct l; [done|]. by rewrite H3.
Qed.

Lemma TrimSpace_graphic l : Forall (fun b => 33 <= b <= 126) l -> TrimSpace l = l.
Proof.
  intros Hl. unfold TrimSpace.
  rewrite (trim_graphic space2 space3 l); [|unfold space2; lia|unfold space3; lia|done].
  rewrite trim_graphic; [apply rev_involutive|unfold space2; lia|unfold space3; lia|by apply Forall_rev].
Qed.

Lemma comma_list_join items : comma_list items = join 44 items.
Proof.
  unfold comma_list. destruct items as [|s items]; [done|]. cbn [imap fold_left Nat.ltb Nat.leb app].
  enough (forall k acc, fold_left (fun acc '(i, s) => (if (0 <? i)%nat then acc ++ lit "," else acc) ++ s)
    (imap (fun i x => (S (k + i), x)) items) acc = acc ++ concat (map (cons 44) items)) as H.
  { etrans; [exact (H 0%nat s)|]. clear H. revert s. induction items as [|t items IH]; intros s; [apply app_nil_r|].
    change (join 44 (s :: t :: items)) with (s ++ 44 :: join 44 (t :: items)). rewrite <- IH. done. }
  induction items as [|t items IH]; intros k acc; [by rewrite app_nil_r|]. cbn [imap fold_left map concat].
  change (0 <? S (k + 0))%nat with true. cbv iota.
  rewrite (imap_ext _ (fun i x => (S (S k + i), x))) by (intros; simpl; do 2 f_equal; lia).
  rewrite IH. change (lit ",") with [44]. by rewrite <- !app_assoc.
Qed.
Lemma graphic_join items : Forall plain items -> Forall (fun b => 33 <= b <= 126) (join 44 items).
Proof.
  induction 1 as [|s items [Hn Hp] Hf IH]; [constructor|].
  assert (Forall (fun b => 33 <= b <= 126) s) as Hs by (eapply Forall_impl; [exact Hp|]; by intros ? []).
  destruct items as [|t items]; [done|].
  change (Forall (fun b => 33 <= b <= 126) (s ++ 44 :: join 44 (t :: items))).
  apply Forall_app. split; [done|]. constructor; [lia|done].
Qed.

(** The items of one list come back from their comma separated text. *)
Lemma items_back items :
  Forall plain items ->
  (if (0 <? length (join 44%Z items))%nat
   then List.filter nonempty (splitAndTrim (join 44 items) 44) else []) = items.
Proof.
  intros Hf. destruct items as [|s items]; [done|].
  assert (0 < length (join 44%Z (s :: items)))%nat as Hl.
  { apply Forall_cons in Hf as [[Hs _] _]. destruct s; [done|]. destruct items; simpl; lia. }
  destruct (Nat.ltb_spec 0 (length (join 44%Z (s :: items)))); [|lia]. unfold splitAndTrim.
  rewrite split_join; [|done|].
  - clear -Hf. induction Hf as [|s' l [Hn Hp] Hf IH]; [done|]. cbn [map List.filter].
    rewrite TrimSpace_graphic, IH by (eapply Forall_impl; [exact Hp|]; by intros ? []).
    unfold nonempty. by rewrite bool_decide_eq_false_2.
  - eapply Forall_impl; [exact Hf|]. intros t [_ Ht] Hin. rewrite Forall_forall in Ht.
    by destruct (Ht 44 Hin).
Qed.

(** The configuration a server pushes parses to the name servers and routes it
    was made from. *)
Theorem ParseConfigResponse_Create now sequence dns routes :
  Forall plain dns -> Forall plain routes ->
  ParseConfigResponse (Data (CreateConfigResponsePacket now sequence dns routes)) = (dns, routes).
Proof.
  intros Hd Hr. cbn [CreateConfigResponsePacket create Data]. rewrite !comma_list_join.
  set (D := join 44 dns). set (R := join 44 routes).
  change (lit "DNS=" ++ D ++ lit " ROUTES=" ++ R) with ((lit "DNS=" ++ D) ++ 32 :: (lit "ROUTES=" ++ R)).
  assert (forall l, Forall (fun b => 33 <= b <= 126) l -> 32 ∉ l) as Hno.
  { intros l Hl Hin. rewrite Forall_forall in Hl. specialize (Hl 32 Hin). lia. }
  assert (Forall (fun b => 33 <= b <= 126) (lit "DNS=" ++ D)) as HgD.
  { apply Forall_app. split; [vm_compute; repeat constructor; congruence|by apply graphic_join]. }
  assert (Forall (fun b => 33 <= b <= 126) (lit "ROUTES=" ++ R)) as HgR.
  { apply Forall_app. split; [vm_compute; repeat constructor; congruence|by apply graphic_join]. }
  unfold ParseConfigResponse. unfold splitAndTrim at 3.
  rewrite split_app_sep, split_piece by auto. cbn [map fold_left]. rewrite !TrimSpace_graphic by done.
  pose proof (items_back dns Hd) as E1. pose proof (items_back routes Hr) as E2. fold D in E1. fold R in E2.
  change (has_prefix (lit "ROUTES=") (lit "DNS=" ++ D)) with (bool_decide (take 7 (lit "DNS=" ++ D) = lit "ROUTES=")).
  rewrite (bool_decide_eq_false_2 (take 7 (lit "DNS=" ++ D) = lit "ROUTES=")) by (intros E; discriminate E).
  change (has_prefix (lit "DNS=") (lit "ROUTES=" ++ R)) with false.
  change (has_prefix (lit "DNS=") (lit "DNS=" ++ D)) with true.
  change (has_prefix (lit "ROUTES=") (lit "ROUTES=" ++ R)) with true.
  rewrite !length_app. change (length (lit "DNS=")) with 4%nat. change (length (lit "ROUTES=")) with 7%nat.
  change (drop 4 (lit "DNS=" ++ D)) with D. change (drop 7 (lit "ROUTES=" ++ R)) with R.
  cbn [andb app]. change (4 <? 4 + length D)%nat with (0 <? length D)%nat.
  change (7 <? 7 + length R)%nat with (0 <? length R)%nat. by rewrite E1, E2.
Qed.

Lemma ParseConfigResponse_Create_witness :
  ParseConfigResponse (Data (CreateConfigResponsePacket 0 1 [lit "8.8.8.8"; lit "8.8.4.4"] [lit "10.8.0.0/24"])) =
    ([lit "8.8.8.8"; lit "8.8.4.4"], [lit "10.8.0.0/24"]).
Proof.
  apply ParseConfigResponse_Create; vm_compute; repeat constructor; congruence.
Defined.

(** A packet is a control packet or a data packet, never both. *)
Lemma control_xor_data p : IsControlPacket p = negb (IsDataPacket p).
Proof. unfold IsControlPacket, IsDataPacket. lia. Qed.
End Vpn.
