(* ===== verification/LogSegment.v ===== *)
(** * Segment files of the append log (pkg/appendlog/fs_store.go)

    A segment is the list of its bytes.  A record is framed as its offset (8
    bytes), the length of its data (4 bytes), both little endian, and the data.
    The readers stop silently at the first record that is not complete. *)
From stdpp Require Import sorting.
From S2P Require Import Prelude Codec.

Record LogRecord : Type := mkRecord { Offset : Z; RData : list Z }.

#[export] Instance LogRecord_eq_dec : EqDecision LogRecord.
Proof. solve_decision. Defined.

(** The header and data [appendToDisk] writes. *)
Definition record_header (offset : Z) (data : list Z) : list Z :=
  le_bytes 8 offset ++ le_bytes 4 (u32 (Z.of_nat (length data))).

Definition encode_record (r : LogRecord) : list Z := record_header (Offset r) (RData r) ++ RData r.

Definition encode_records (rs : list LogRecord) : list Z := concat (map encode_record rs).

(** A record the format can hold. *)
Definition record_ok (r : LogRecord) : Prop :=
  0 <= Offset r < 2 ^ 64 /\ Z.of_nat (length (RData r)) < 2 ^ 32.

(** ** Readers *)

(** [io.ReadFull] of [n] bytes from the file: the bytes and what is left, or nothing
    (EOF, ErrUnexpectedEOF) when the file ends before. *)
Definition ReadFull (n : nat) (f : list Z) : option (list Z * list Z) :=
  if (length f <? n)%nat then None else Some (take n f, drop n f).

(** [io.CopyN(io.Discard, f, n)]: what is left, or nothing (EOF) when fewer bytes
    could be copied. *)
Definition CopyN_discard (f : list Z) (n : Z) : option (list Z) :=
  let copied := Z.min n (Z.of_nat (length f)) in
  if copied <? n then None else Some (drop (Z.to_nat copied) f).

(** One turn of the loop of [readSegmentRange]: the record and the rest of the file. *)
Definition read_record (f : list Z) : option (LogRecord * list Z) :=
  '(hdr, f) ← ReadFull 12 f;
  let off := le_value (sub hdr 0 8) in
  let n := le_value (sub hdr 8 12) in
  '(data, f) ← ReadFull (Z.to_nat n) f;
  Some (mkRecord off data, f).

(** One turn of the loop of [scanSegmentMaxOffset]: the offset and the rest. *)
Definition skip_record (f : list Z) : option (Z * list Z) :=
  '(hdr, f) ← ReadFull 12 f;
  let off := le_value (sub hdr 0 8) in
  let n := le_value (sub hdr 8 12) in
  f ← CopyN_discard f n;
  Some (off, f).

(** The loops; every turn consumes at least the 12 bytes of a header, so the
    length of the file is enough fuel. *)
Fixpoint scan_loop (fuel : nat) (bs : list Z) (mx : Z) : Z :=
  match fuel with
  | O => mx
  | S fuel =>
      match skip_record bs with
      | None => mx
      | Some (off, rest) => scan_loop fuel rest (if mx <? off then off else mx)
      end
  end.

Definition scanSegmentMaxOffset (bs : list Z) : Z := scan_loop (length bs) bs 0.

Fixpoint range_loop (fuel : nat) (bs : list Z) (from : Z) (limit : nat) (out : list LogRecord) : list LogRecord :=
  match fuel with
  | O => out
  | S fuel =>
      if (length out <? limit)%nat then
        match read_record bs with
        | None => out
        | Some (r, rest) =>
            range_loop fuel rest from limit (if Offset r <? from then out else out ++ [r])
        end
      else out
  end.

Definition readSegmentRange (bs : list Z) (from : Z) (limit : nat) : list LogRecord :=
  if (limit <=? 0)%nat then [] else range_loop (length bs) bs from limit [].

(** [Read] over the segments in order of their ids. *)
Fixpoint read_segments (segs : list (list Z)) (from : Z) (limit : nat) (out : list LogRecord) : list LogRecord :=
  match segs with
  | [] => out
  | bs :: segs =>
      let recs := readSegmentRange bs from (limit - length out) in
      let out := out ++ recs in
      if (limit <=? length out)%nat then out
      else read_segments segs (match last recs with Some r => u64 (Offset r + 1) | None => from end) limit out
  end.

(** ** What a segment holds *)

(** All records the range reader finds in a file. *)
Fixpoint records_loop (fuel : nat) (bs : list Z) : list LogRecord :=
  match fuel with
  | O => []
  | S fuel => match read_record bs with None => [] | Some (r, rest) => r :: records_loop fuel rest end
  end.

Definition segment_records (bs : list Z) : list LogRecord := records_loop (length bs) bs.

(** A tail no record can be read from: empty, or a record cut short. *)
Definition torn (tail : list Z) : Prop := read_record tail = None.

Lemma length_header off data : length (record_header off data) = 12%nat.
Proof. unfold record_header. by rewrite length_app, !length_le_bytes. Qed.

Lemma length_encode_record r : length (encode_record r) = (12 + length (RData r))%nat.
Proof. unfold encode_record. by rewrite length_app, length_header. Qed.

Lemma ReadFull_app a b : ReadFull (length a) (a ++ b) = Some (a, b).
Proof.
  unfold ReadFull. rewrite length_app. destruct (Nat.ltb_spec (length a + length b) (length a)); [lia|].
  by rewrite take_app_length, drop_app_length.
Qed.

Lemma ReadFull_Some n f a b : ReadFull n f = Some (a, b) -> f = a ++ b /\ length a = n.
Proof.
  unfold ReadFull. destruct (Nat.ltb_spec (length f) n); [done|]. intros [= <- <-].
  split; [by rewrite take_drop|]. rewrite length_take. lia.
Qed.

(** Reading inverts writing, whatever follows. *)
Lemma read_encode_record r rest : record_ok r -> read_record (encode_record r ++ rest) = Some (r, rest).
Proof.
  intros [Ho Hd]. unfold read_record, encode_record. rewrite <- app_assoc.
  assert (ReadFull 12 (record_header (Offset r) (RData r) ++ RData r ++ rest) =
    Some (record_header (Offset r) (RData r), RData r ++ rest)) as ->.
  { rewrite <- (length_header (Offset r) (RData r)) at 1. apply ReadFull_app. }
  cbn [mbind option_bind]. unfold record_header.
  set (bo := le_bytes 8 _). set (bn := le_bytes 4 _).
  assert (length bo = 8%nat) as Hbo by apply length_le_bytes.
  assert (length bn = 4%nat) as Hbn by apply length_le_bytes.
  assert (sub (bo ++ bn) 0 8 = bo) as -> by (apply (sub_at [] bo); by rewrite ?Hbo).
  assert (sub (bo ++ bn) 8 12 = bn) as ->.
  { rewrite <- (app_nil_r bn) at 1. apply sub_at; by rewrite ?Hbo, ?Hbn. }
  unfold bo, bn, u32. rewrite (le_value_small 8 (Offset r)) by done.
  rewrite Z.mod_small, (le_value_small 4) by (change (256 ^ Z.of_nat 4) with (2 ^ 32); lia).
  rewrite Nat2Z.id, ReadFull_app. cbn [mbind option_bind]. by destruct r.
Qed.

Lemma length_sub {A} (l : list A) i j : (i <= j <= length l)%nat -> length (sub l i j) = (j - i)%nat.
Proof. intros H. unfold sub. rewrite length_take, length_drop. lia. Qed.

Lemma Forall_sub {A} (P : A -> Prop) (l : list A) i j : Forall P l -> Forall P (sub l i j).
Proof. intros H. unfold sub. by apply Forall_take, Forall_drop. Qed.

Lemma sub_halves (hdr : list Z) : length hdr = 12%nat -> sub hdr 0 8 ++ sub hdr 8 12 = hdr.
Proof.
  intros Hl. unfold sub. cbn [Nat.sub drop]. rewrite (take_ge (drop 8 hdr)) by (rewrite length_drop; lia).
  apply take_drop.
Qed.

(** What was read is, byte for byte, what the writer writes for that record. *)
Lemma read_record_encoded bs r rest :
  Forall is_byte bs -> read_record bs = Some (r, rest) ->
  bs = encode_record r ++ rest /\ record_ok r /\ Forall is_byte rest.
Proof.
  intros Hb H. unfold read_record in H. destruct (ReadFull 12 bs) as [[hdr f]|] eqn:E1; [|done]. cbn [mbind option_bind] in H.
  destruct (ReadFull _ f) as [[data f']|] eqn:E2; [|done]. cbn [mbind option_bind] in H. injection H as <- <-.
  apply ReadFull_Some in E1 as [-> Hl]. apply ReadFull_Some in E2 as [-> Hd].
  apply Forall_app in Hb as [Hh Hb]. apply Forall_app in Hb as [_ Hr].
  pose proof (le_value_range _ (Forall_sub _ _ 0 8 Hh)) as R1. pose proof (le_value_range _ (Forall_sub _ _ 8 12 Hh)) as R2.
  rewrite length_sub in R1, R2 by lia. change (256 ^ Z.of_nat (8 - 0)) with (2 ^ 64) in R1.
  change (256 ^ Z.of_nat (12 - 8)) with (2 ^ 32) in R2.
  assert (Z.of_nat (length data) = le_value (sub hdr 8 12)) as Hn by lia.
  split_and!; [|unfold record_ok; cbn [Offset RData]; lia|done]. unfold encode_record, record_header. cbn [Offset RData].
  rewrite Hn. unfold u32. rewrite Z.mod_small by lia.
  pose proof (le_bytes_value _ (Forall_sub _ _ 0 8 Hh)) as B1. pose proof (le_bytes_value _ (Forall_sub _ _ 8 12 Hh)) as B2.
  rewrite length_sub in B1, B2 by lia. cbn [Nat.sub] in B1, B2. rewrite B1, B2, sub_halves by done. by rewrite app_assoc.
Qed.

Lemma read_record_length bs r rest : read_record bs = Some (r, rest) -> (length rest + 12 <= length bs)%nat.
Proof.
  unfold read_record. destruct (ReadFull 12 bs) as [[hdr f]|] eqn:E1; [|done]. cbn.
  destruct (ReadFull _ f) as [[data f']|] eqn:E2; [|done]. cbn. intros [= _ <-].
  apply ReadFull_Some in E1 as [-> Hl]. apply ReadFull_Some in E2 as [-> _]. rewrite !length_app. lia.
Qed.

(** Skipping the data instead of reading it takes the same turn. *)
Lemma skip_read_record bs :
  Forall is_byte bs -> skip_record bs = match read_record bs with Some (r, rest) => Some (Offset r, rest) | None => None end.
Proof.
  intros Hb. unfold skip_record, read_record. destruct (ReadFull 12 bs) as [[hdr f]|] eqn:E1; [|done]. cbn [mbind option_bind].
  apply ReadFull_Some in E1 as [-> Hl]. apply Forall_app in Hb as [Hh _].
  pose proof (le_value_range _ (Forall_sub _ _ 8 12 Hh)) as [R _]. set (n := le_value _) in *.
  unfold ReadFull, CopyN_discard. destruct (Nat.ltb_spec (length f) (Z.to_nat n)).
  - destruct (Z.ltb_spec (Z.min n (Z.of_nat (length f))) n); [done|lia].
  - destruct (Z.ltb_spec (Z.min n (Z.of_nat (length f))) n); [lia|]. cbn [mbind option_bind].
    replace (Z.min n (Z.of_nat (length f))) with n by lia. done.
Qed.

(** Any fuel beyond the length of the file gives the same records. *)
Lemma records_loop_fuel f1 : forall f2 bs,
  (length bs <= f1)%nat -> (length bs <= f2)%nat -> records_loop f1 bs = records_loop f2 bs.
Proof.
  induction f1 as [|f1 IH]; intros [|f2] bs H1 H2; cbn [records_loop]; [done| | |].
  - assert (read_record bs = None) as ->; [|done]. destruct bs; [done|simpl in H1; lia].
  - assert (read_record bs = None) as ->; [|done]. destruct bs; [done|simpl in H2; lia].
  - destruct (read_record bs) as [[r rest]|] eqn:E; [|done]. apply read_record_length in E. f_equal. apply IH; lia.
Qed.

Lemma segment_records_read bs :
  segment_records bs =
    match read_record bs with None => [] | Some (r, rest) => r :: segment_records rest end.
Proof.
  unfold segment_records at 1. destruct bs as [|b bs]; [done|]. cbn [length records_loop].
  destruct (read_record (b :: bs)) as [[r rest]|] eqn:E; [|done]. apply read_record_length in E.
  f_equal. apply records_loop_fuel; simpl in E; lia.
Qed.

(** The records of a file that was written and possibly cut: every record that
    is there in full, and nothing of a cut one. *)
Lemma segment_records_encode rs tail :
  Forall record_ok rs -> torn tail -> segment_records (encode_records rs ++ tail) = rs.
Proof.
  intros Hrs Ht. induction Hrs as [|r rs Hr Hrs IH].
  - rewrite segment_records_read. change (encode_records [] ++ tail) with tail. by rewrite Ht.
  - change (encode_records (r :: rs)) with (encode_record r ++ encode_records rs).
    rewrite <- app_assoc, segment_records_read, read_encode_record by done. by rewrite IH.
Qed.

Lemma encode_records_app rs rs' : encode_records (rs ++ rs') = encode_records rs ++ encode_records rs'.
Proof. unfold encode_records. by rewrite map_app, concat_app. Qed.

Lemma torn_nil : torn [].
Proof. done. Qed.

(** A proper prefix of a record is torn. *)
Lemma torn_prefix r n : record_ok r -> (n < length (encode_record r))%nat -> torn (take n (encode_record r)).
Proof.
  intros Hr Hn. unfold torn. destruct (read_record (take n (encode_record r))) as [[r' rest]|] eqn:E; [|done]. exfalso.
  (* a record read from the prefix would also be read from the whole *)
  assert (read_record (take n (encode_record r) ++ drop n (encode_record r)) = Some (r', rest ++ drop n (encode_record r))) as E2.
  { revert E. generalize (take n (encode_record r)), (drop n (encode_record r)). intros a b E. unfold read_record in *.
    destruct (ReadFull 12 a) as [[hdr f]|] eqn:E1; [|done]. cbn in E. apply ReadFull_Some in E1 as [-> Hl].
    rewrite <- app_assoc, <- Hl, ReadFull_app, Hl. cbn. destruct (ReadFull _ f) as [[data f']|] eqn:E1; [|done]. cbn in E.
    injection E as <- <-. apply ReadFull_Some in E1 as [-> Hd]. by rewrite <- app_assoc, <- Hd, ReadFull_app. }
  pose proof (read_encode_record r [] Hr) as E3. rewrite app_nil_r in E3. rewrite take_drop, E3 in E2.
  assert (rest ++ drop n (encode_record r) = []) as E4 by congruence. apply app_nil in E4 as [_ E4].
  apply (f_equal length) in E4. rewrite length_drop in E4. change (length (@nil Z)) with 0%nat in E4. lia.
Qed.

(** A file that was cut anywhere reads as a prefix of its records. *)
Lemma segment_records_cut rs n :
  Forall record_ok rs ->
  exists k, segment_records (take n (encode_records rs)) = take k rs /\ (n >= length (encode_records rs) -> k = length rs)%nat.
Proof.
  intros Hrs. revert n. induction Hrs as [|r rs Hr Hrs IH]; intros n.
  - exists 0%nat. split; [|done]. unfold encode_records. cbn. by rewrite take_nil.
  - change (encode_records (r :: rs)) with (encode_record r ++ encode_records rs).
    destruct (decide (n < length (encode_record r))%nat) as [Hn|Hn].
    + exists 0%nat. rewrite length_app. split; [|lia]. rewrite take_app_le by lia.
      rewrite segment_records_read. by rewrite (torn_prefix r n Hr Hn).
    + destruct (IH (n - length (encode_record r))%nat) as (k & E & Hk). exists (S k). rewrite length_app.
      split; [|cbn [length]; intros; f_equal; apply Hk; lia].
      rewrite take_app_ge by lia. rewrite segment_records_read, read_encode_record by done.
      cbn [take]. by rewrite E.
Qed.

(** ** The readers against what the file holds *)

Definition at_or_after (from : Z) (r : LogRecord) : bool := negb (Offset r <? from).

Lemma range_loop_spec fuel : forall bs from limit out,
  (length bs <= fuel)%nat -> (length out <= limit)%nat ->
  range_loop fuel bs from limit out =
    out ++ take (limit - length out) (List.filter (at_or_after from) (segment_records bs)).
Proof.
  induction fuel as [|fuel IH]; intros bs from limit out Hf Ho.
  - destruct bs; [|simpl in Hf; lia]. cbn. by rewrite take_nil, app_nil_r.
  - cbn [range_loop]. destruct (Nat.ltb_spec (length out) limit) as [Hl|Hl].
    + rewrite segment_records_read. destruct (read_record bs) as [[r rest]|] eqn:E.
      * apply read_record_length in E. cbn [List.filter]. unfold at_or_after at 1.
        destruct (Offset r <? from); cbn [negb]; rewrite IH by (rewrite ?length_app; simpl; lia); [done|].
        rewrite length_app, <- app_assoc. cbn [length].
        replace (limit - length out)%nat with (S (limit - (length out + 1))) by lia. done.
      * cbn [List.filter]. by rewrite take_nil, app_nil_r.
    + replace (limit - length out)%nat with 0%nat by lia. by rewrite app_nil_r.
Qed.

(** Reading a range of a segment, whatever its bytes: the first [limit] of its
    records at or after [from]. *)
Lemma readSegmentRange_take bs from limit :
  readSegmentRange bs from limit = take limit (List.filter (at_or_after from) (segment_records bs)).
Proof.
  unfold readSegmentRange. destruct (Nat.leb_spec limit 0) as [Hl|Hl].
  - by replace limit with 0%nat by lia.
  - rewrite range_loop_spec by (simpl; lia). by rewrite Nat.sub_0_r.
Qed.

Lemma scan_loop_spec fuel : forall bs mx,
  Forall is_byte bs ->
  (length bs <= fuel)%nat -> scan_loop fuel bs mx = fold_left Z.max (map Offset (segment_records bs)) mx.
Proof.
  induction fuel as [|fuel IH]; intros bs mx Hb Hf.
  - by destruct bs; [|simpl in Hf; lia].
  - cbn [scan_loop]. rewrite segment_records_read, skip_read_record by done.
    destruct (read_record bs) as [[r rest]|] eqn:E; [|done].
    destruct (read_record_encoded _ _ _ Hb E) as (_ & _ & Hb'). apply read_record_length in E.
    rewrite IH by (done || lia). cbn [map fold_left]. f_equal. destruct (Z.ltb_spec mx (Offset r)); lia.
Qed.

Lemma fold_max_ge l : forall m, m <= fold_left Z.max l m.
Proof. induction l as [|x l IH]; intros m; cbn [fold_left]; [lia|]. specialize (IH (Z.max m x)). lia. Qed.

Lemma fold_max_bound l x : forall m, x ∈ l -> x <= fold_left Z.max l m.
Proof.
  induction l as [|y l IH]; intros m Hx; [by apply elem_of_nil in Hx|]. cbn [fold_left].
  apply elem_of_cons in Hx as [->|Hx]; [|by apply IH]. pose proof (fold_max_ge l (Z.max m y)). lia.
Qed.

Lemma fold_max_in l : forall m, fold_left Z.max l m = m \/ fold_left Z.max l m ∈ l.
Proof.
  induction l as [|y l IH]; intros m; [by left|]. cbn [fold_left].
  destruct (IH (Z.max m y)) as [->|Hin]; [|right; by apply elem_of_cons; right].
  destruct (Z.max_spec m y) as [[_ ->]|[_ ->]]; [right; apply elem_of_cons; by left|by left].
Qed.

(** The scan finds the largest offset of the segment. *)
Lemma scanSegmentMaxOffset_spec bs :
  Forall is_byte bs -> scanSegmentMaxOffset bs = fold_left Z.max (map Offset (segment_records bs)) 0.
Proof. intros Hb. by apply scan_loop_spec. Qed.

(** Any bytes are the writer's encoding of some records followed by a rest that
    does not begin with an encoded record; the range reader finds these records. *)
Lemma segment_decomposes bs :
  Forall is_byte bs ->
  exists tail, bs = encode_records (segment_records bs) ++ tail /\ Forall record_ok (segment_records bs) /\ torn tail.
Proof.
  remember (length bs) as n eqn:En. revert bs En. induction n as [n IH] using lt_wf_ind. intros bs -> Hb.
  rewrite segment_records_read. destruct (read_record bs) as [[r rest]|] eqn:E.
  - destruct (read_record_encoded _ _ _ Hb E) as (Eb & Hr & Hrest). pose proof (read_record_length _ _ _ E) as Hlen.
    destruct (IH (length rest) ltac:(lia) rest eq_refl Hrest) as (tail & Et & Hok & Ht). exists tail.
    split; [|split; [by constructor|done]]. rewrite Eb. change (encode_records (r :: ?rs)) with (encode_record r ++ encode_records rs).
    rewrite <- app_assoc. by rewrite <- Et.
  - exists bs. split_and!; [done|constructor|done].
Qed.

(** C37. Whatever bytes a segment file holds, they are the encodings, as appendToDisk
    writes them, of some records, followed by a rest that does not begin with an
    encoded record (nothing, or a record cut short), and the two readers, which
    parse the file separately, agree on these records: reading a range gives the
    first [limit] of them at or after [from], and the recovery scan gives the largest
    of their offsets. *)
Theorem segment_readers_agree bs :
  Forall is_byte bs ->
  exists rs tail,
    bs = encode_records rs ++ tail /\ Forall record_ok rs /\
    (forall r rest, record_ok r -> tail <> encode_record r ++ rest) /\
    (forall from limit, readSegmentRange bs from limit = take limit (List.filter (at_or_after from) rs)) /\
    scanSegmentMaxOffset bs = fold_left Z.max (map Offset rs) 0.
Proof.
  intros Hb. destruct (segment_decomposes bs Hb) as (tail & Eb & Hok & Ht). exists (segment_records bs), tail.
  split_and!; [done|done| |intros; apply readSegmentRange_take|by apply scanSegmentMaxOffset_spec].
  intros r rest Hr ->. unfold torn in Ht. by rewrite read_encode_record in Ht.
Qed.

(** Two records and the first 13 bytes of a third. *)
Lemma segment_readers_agree_witness :
  let bs := encode_records [mkRecord 5 [7; 8]; mkRecord 9 [1]] ++ take 13 (encode_record (mkRecord 300 [4; 4])) in
  readSegmentRange bs 6 10 = [mkRecord 9 [1]] /\
  exists rs tail, bs = encode_records rs ++ tail /\ scanSegmentMaxOffset bs = fold_left Z.max (map Offset rs) 0.
Proof.
  cbv zeta. split; [vm_compute; reflexivity|].
  destruct (segment_readers_agree (encode_records [mkRecord 5 [7; 8]; mkRecord 9 [1]] ++ take 13 (encode_record (mkRecord 300 [4; 4]))))
    as (rs & tail & E & _ & _ & _ & Es).
  { apply (bool_decide_unpack (Forall is_byte _)). vm_compute. exact I. }
  exists rs, tail. split; [exact E|exact Es].
Defined.

(** ** Reading across segments *)

Definition increasing (rs : list LogRecord) : Prop := StronglySorted Z.lt (map Offset rs).

Lemma increasing_app rs rs' :
  increasing (rs ++ rs') ->
  increasing rs /\ increasing rs' /\ forall a b, a ∈ rs -> b ∈ rs' -> Offset a < Offset b.
Proof.
  unfold increasing. rewrite map_app. induction rs as [|r rs IH]; cbn [map app].
  - intros H. split_and!; [constructor|done|]. intros a b Ha. by apply elem_of_nil in Ha.
  - intros H. apply StronglySorted_inv in H as [H Hall]. destruct (IH H) as (H1 & H2 & H3).
    apply Forall_app in Hall as [Ha1 Ha2]. split_and!; [by constructor|done|].
    intros a b Ha Hb. apply elem_of_cons in Ha as [->|Ha]; [|by apply H3].
    rewrite Forall_forall in Ha2. apply Ha2. by apply list_elem_of_fmap_2.
Qed.

Lemma filter_all_ge from from' rs :
  (forall r, r ∈ rs -> from <= Offset r /\ from' <= Offset r) ->
  List.filter (at_or_after from) rs = List.filter (at_or_after from') rs.
Proof.
  induction rs as [|r rs IH]; intros H; [done|]. cbn [List.filter].
  destruct (H r) as [H1 H2]; [by apply elem_of_cons; left|].
  assert (at_or_after from r = true) as -> by (unfold at_or_after; lia).
  assert (at_or_after from' r = true) as -> by (unfold at_or_after; lia).
  f_equal. apply IH. intros x Hx. apply H. by apply elem_of_cons; right.
Qed.

Lemma filter_in from rs r : r ∈ List.filter (at_or_after from) rs -> r ∈ rs /\ from <= Offset r.
Proof.
  rewrite !list_elem_of_In, filter_In. unfold at_or_after. intros [H1 H2]. split; [done|lia].
Qed.

(** While offsets increase through the segments, the loop over the segments
    reads the first [limit] records at or after [from] of the whole log. *)
Lemma read_segments_spec segs : forall from limit out,
  let log := concat (map segment_records segs) in
  increasing log -> Forall (fun r => 0 <= Offset r < 2 ^ 64 - 1) log -> (length out <= limit)%nat ->
  read_segments segs from limit out =
    out ++ take (limit - length out) (List.filter (at_or_after from) log).
Proof.
  induction segs as [|bs segs IH]; intros from limit out log Hinc Hr Ho; unfold log in *; clear log.
  - cbn. by rewrite take_nil, app_nil_r.
  - cbn [read_segments map concat] in *. rewrite readSegmentRange_take.
    apply increasing_app in Hinc as (_ & Hinc & Hlt). apply Forall_app in Hr as [Hr1 Hr2].
    set (here := segment_records bs) in *. set (rest := concat _) in *.
    rewrite List.filter_app, take_app.
    set (recs := take (limit - length out) (List.filter (at_or_after from) here)).
    rewrite length_app. destruct (Nat.leb_spec limit (length out + length recs)) as [Hfull|Hpart].
    + f_equal. replace (limit - length out - _)%nat with 0%nat; [by rewrite app_nil_r|].
      unfold recs in Hfull. rewrite length_take in Hfull. lia.
    + assert (recs = List.filter (at_or_after from) here) as Erecs.
      { apply take_ge. unfold recs in Hpart. rewrite length_take in Hpart. lia. }
      rewrite IH by (done || (rewrite length_app; lia)). rewrite <- Erecs, length_app, <- !app_assoc.
      do 2 f_equal. fold rest. replace (limit - (length out + length recs))%nat with (limit - length out - length recs)%nat by lia.
      f_equal. destruct (last recs) as [r|] eqn:El; [|done].
      apply last_Some_elem_of in El. rewrite Erecs in El. apply filter_in in El as [Hin Hge].
      rewrite Forall_forall in Hr1. destruct (Hr1 r Hin). unfold u64. rewrite Z.mod_small by lia.
      apply filter_all_ge. intros x Hx. specialize (Hlt r x Hin Hx). lia.
Qed.
