(* ===== verification/AppendLog.v ===== *)
(** * Append-only log store (pkg/appendlog/fs_store.go)

    The store with its queue, its buffered writer and the files of its
    directory; appenders, the flush loop and [Close] interleave at their atomic
    actions (a critical section of [mu], an atomic operation, a channel
    operation).  File operations do not fail, and [Read] sees the files at one
    moment; what a crash leaves is a prefix of the active file. *)
From stdpp Require Import sorting.
From S2P Require Import Prelude Codec LogSegment.

Inductive Durability : Type :=
| DurabilityMemory
| DurabilityFsync.

#[export] Instance Durability_eq_dec : EqDecision Durability.
Proof. solve_decision. Defined.

Record FSStoreConfig : Type := mkConfig {
  MaxSegmentBytes : Z;
  MaxBufferedBytes : Z;
  DurabilityMode : Durability
}.

Inductive log_error : Type :=
| ErrClosed
| ErrInvalidData
| ErrBackpressure
| ErrInvalidReadArg.

(** [who] identifies the appender that holds the other end of [ackCh]. *)
Record appendReq : Type := mkReq { roffset : Z; rdata : list Z; who : nat }.

Record fsStore : Type := mkStore {
  cfg : FSStoreConfig;
  closed : bool;
  nextOffset : Z;
  activeID : Z;
  activeBuf : list Z;
  activeSize : Z;
  appendCh_nil : bool;
  queue : list appendReq;
  ch_closed : bool;
  bufferedBytes : Z;
  writtenBytes : Z;
  appendedRecords : Z;
  rejectedAppends : Z;
  dir : list (Z * list Z)
}.

(** ** Files *)

(** The directory maps segment ids to contents, in the order of creation. *)
Definition file (d : list (Z * list Z)) (id : Z) : list Z :=
  match list_find (fun e => e.1 = id) d with Some (_, e) => e.2 | None => [] end.

(** [os.OpenFile(.., O_CREATE|O_RDWR|O_APPEND)] *)
Definition file_open (d : list (Z * list Z)) (id : Z) : list (Z * list Z) :=
  match list_find (fun e => e.1 = id) d with Some _ => d | None => d ++ [(id, [])] end.

Definition file_write (d : list (Z * list Z)) (id : Z) (bs : list Z) : list (Z * list Z) :=
  map (fun e => if e.1 =? id then (e.1, e.2 ++ bs) else e) d.

Definition seg_le (a b : Z * list Z) : Prop := a.1 <= b.1.

#[export] Instance seg_le_dec : RelDecision seg_le.
Proof. intros a b. unfold seg_le. apply _. Defined.

(** [sort.Slice] by id *)
Definition listSegments (d : list (Z * list Z)) : list (Z * list Z) := merge_sort seg_le d.

(** ** The buffered writer (package bufio, 256 KiB) *)

Definition bufio_size : Z := Z.shiftl 256 10.

Definition lenZ {A} (l : list A) : Z := Z.of_nat (length l).

(** [Write]: while the bytes do not fit, fill and flush, or write through when
    nothing is buffered.  After one flush the buffer is empty. *)
Definition bw_write (d : list (Z * list Z)) (id : Z) (buf p : list Z) : list (Z * list Z) * list Z :=
  if lenZ p <=? bufio_size - lenZ buf then (d, buf ++ p)
  else if lenZ buf =? 0 then (file_write d id p, [])
  else
    let n := Z.to_nat (bufio_size - lenZ buf) in
    let d := file_write d id (buf ++ take n p) in
    let p := drop n p in
    if lenZ p <=? bufio_size then (d, p) else (file_write d id p, []).

Definition with_files (s : fsStore) (d : list (Z * list Z)) (buf : list Z) : fsStore :=
  mkStore (cfg s) (closed s) (nextOffset s) (activeID s) buf (activeSize s) (appendCh_nil s) (queue s)
    (ch_closed s) (bufferedBytes s) (writtenBytes s) (appendedRecords s) (rejectedAppends s) d.

Definition bw_flush (s : fsStore) : fsStore :=
  with_files s (file_write (dir s) (activeID s) (activeBuf s)) [].

(** ** Opening *)

(** [openOrRecover] on the directory as it is found. *)
Definition openOrRecover (c : FSStoreConfig) (d : list (Z * list Z)) : fsStore :=
  let segments := listSegments d in
  let '(maxID, maxOffset) :=
    fold_left (fun '(maxID, maxOffset) '(id, bs) =>
      (if maxID <? id then id else maxID,
       let off := scanSegmentMaxOffset bs in if maxOffset <? off then off else maxOffset))
      segments (0, 0) in
  let active := if (maxID =? 0) && (length segments =? 0)%nat then 1 else maxID in
  let d := file_open d active in
  mkStore c false (u64 (maxOffset + 1)) active [] (lenZ (file d active)) false [] false 0 0 0 0 d.

Definition NewFSStore (c : FSStoreConfig) (d : list (Z * list Z)) : fsStore :=
  let c := {| MaxSegmentBytes := if MaxSegmentBytes c <=? 0 then Z.shiftl 64 20 else MaxSegmentBytes c;
              MaxBufferedBytes := if MaxBufferedBytes c <=? 0 then Z.shiftl 8 20 else MaxBufferedBytes c;
              DurabilityMode := DurabilityMode c |} in
  openOrRecover c d.

(** ** Segments: rotation, persisting, syncing, reading *)

(** In [DurabilityFsync] mode the closed file is synced too; syncing has no
    effect on contents. *)
Definition rotateLocked (s : fsStore) : fsStore :=
  let s := bw_flush s in
  mkStore (cfg s) (closed s) (nextOffset s) (activeID s + 1) [] 0 (appendCh_nil s) (queue s)
    (ch_closed s) (bufferedBytes s) (writtenBytes s) (appendedRecords s) (rejectedAppends s)
    (file_open (dir s) (activeID s + 1)).

Definition Rotate (s : fsStore) : fsStore * option log_error :=
  if closed s then (s, Some ErrClosed) else (rotateLocked s, None).

Definition Sync (s : fsStore) : fsStore * option log_error :=
  if closed s then (s, Some ErrClosed) else (bw_flush s, None).

Definition max_uint32 : Z := 2 ^ 32 - 1.

Definition appendToDisk (s : fsStore) (offset : Z) (data : list Z) : fsStore * option log_error :=
  if max_uint32 <? lenZ data then (s, Some ErrInvalidData)
  else
    let hdr := record_header offset data in
    if closed s then (s, Some ErrClosed)
    else
      let s := if MaxSegmentBytes (cfg s) <? activeSize s + lenZ hdr + lenZ data then rotateLocked s else s in
      let '(d, buf) := bw_write (dir s) (activeID s) (activeBuf s) hdr in
      let '(d, buf) := bw_write d (activeID s) buf data in
      let n := lenZ hdr + lenZ data in
      let s := mkStore (cfg s) (closed s) (nextOffset s) (activeID s) buf (activeSize s + n)
                 (appendCh_nil s) (queue s) (ch_closed s) (bufferedBytes s) (writtenBytes s + n)
                 (appendedRecords s) (rejectedAppends s) d in
      let s := if Z.shiftl 256 10 <? lenZ (activeBuf s) then bw_flush s else s in
      match DurabilityMode (cfg s) with
      | DurabilityFsync => (bw_flush s, None)
      | DurabilityMemory => (s, None)
      end.

Definition Read (s : fsStore) (from limit : Z) : list LogRecord + log_error :=
  if limit <=? 0 then inr ErrInvalidReadArg
  else inl (read_segments (map snd (listSegments (dir s))) from (Z.to_nat limit) []).

Record Stats : Type := mkStats {
  BufferedBytes : Z;
  WrittenBytes : Z;
  AppendedRecords : Z;
  RejectedAppends : Z
}.

Definition Stats_ (s : fsStore) : Stats :=
  mkStats (bufferedBytes s) (writtenBytes s) (appendedRecords s) (rejectedAppends s).

(** ** The appender, one atomic action at a time *)

Definition chan_capacity : nat := 1024.

(** The program counter of one call of [Append]. *)
Inductive appender : Type :=
| AStart (data : list Z)
| AOpen (data : list Z)
| AReserved (data : list Z)
| ANumbered (data : list Z) (offset : Z)
| AWaiting (offset : Z)
| ADone (r : Z * option log_error)
| APanicked (data : list Z).

Definition with_counters (s : fsStore) (off buffered appended rejected : Z) (q : list appendReq) : fsStore :=
  mkStore (cfg s) (closed s) off (activeID s) (activeBuf s) (activeSize s) (appendCh_nil s) q
    (ch_closed s) buffered (writtenBytes s) appended rejected (dir s).

(** The compare-and-swap loop is one action: it retries until nobody
    intervenes. *)
Definition append_step (s : fsStore) (i : nat) (a : appender) : fsStore * appender :=
  match a with
  | AStart data =>
      if (length data =? 0)%nat then (s, ADone (0, Some ErrInvalidData))
      else if closed s || appendCh_nil s then (s, ADone (0, Some ErrClosed))
      else (s, AOpen data)
  | AOpen data =>
      if MaxBufferedBytes (cfg s) <? bufferedBytes s + lenZ data
      then (with_counters s (nextOffset s) (bufferedBytes s) (appendedRecords s) (rejectedAppends s + 1) (queue s),
            ADone (0, Some ErrBackpressure))
      else (with_counters s (nextOffset s) (bufferedBytes s + lenZ data) (appendedRecords s) (rejectedAppends s) (queue s),
            AReserved data)
  | AReserved data =>
      (with_counters s (u64 (nextOffset s + 1)) (bufferedBytes s) (appendedRecords s) (rejectedAppends s) (queue s),
       ANumbered data (nextOffset s))
  | ANumbered data offset =>
      if ch_closed s then (s, APanicked data)
      else if (length (queue s) <? chan_capacity)%nat then
        (with_counters s (nextOffset s) (bufferedBytes s) (appendedRecords s + 1) (rejectedAppends s)
           (queue s ++ [mkReq offset data i]),
         match DurabilityMode (cfg s) with
         | DurabilityMemory => ADone (offset, None)
         | DurabilityFsync => AWaiting offset
         end)
      else
        (with_counters s (nextOffset s) (bufferedBytes s - lenZ data) (appendedRecords s) (rejectedAppends s + 1) (queue s),
         ADone (0, Some ErrBackpressure))
  | AWaiting _ | ADone _ | APanicked _ => (s, a)
  end.

(** ** The flush loop and [Close] *)

Inductive flusher : Type :=
| FIdle
| FPersisted (req : appendReq) (err : option log_error)
| FDone.

Inductive closer : Type :=
| COpen
| CMarked
| CWaiting
| CClosed.

Record logsys : Type := mkSys {
  store : fsStore;
  appenders : list appender;
  flush : flusher;
  close : closer
}.

(** The acknowledgement reaches the appender that waits for it. *)
Definition ack (asl : list appender) (i : nat) (err : option log_error) : list appender :=
  match asl !! i with
  | Some (AWaiting off) => <[i := ADone (off, err)]> asl
  | _ => asl
  end.

(** One turn of [flushLoop]: take a request and persist it, then account for it
    and acknowledge it; leave when the channel is closed and drained. *)
Definition flush_step (y : logsys) : logsys :=
  let s := store y in
  match flush y with
  | FIdle =>
      match queue s with
      | req :: q =>
          let s := with_counters s (nextOffset s) (bufferedBytes s) (appendedRecords s) (rejectedAppends s) q in
          let '(s, err) := appendToDisk s (roffset req) (rdata req) in
          mkSys s (appenders y) (FPersisted req err) (close y)
      | [] => if ch_closed s then mkSys s (appenders y) FDone (close y) else y
      end
  | FPersisted req err =>
      let s := with_counters s (nextOffset s) (bufferedBytes s - lenZ (rdata req)) (appendedRecords s)
                 (rejectedAppends s) (queue s) in
      let asl := match DurabilityMode (cfg s) with
                 | DurabilityFsync => ack (appenders y) (who req) err
                 | DurabilityMemory => appenders y
                 end in
      mkSys s asl FIdle (close y)
  | FDone => y
  end.

Definition close_step (y : logsys) : logsys :=
  let s := store y in
  match close y with
  | COpen =>
      if closed s then y
      else mkSys (mkStore (cfg s) true (nextOffset s) (activeID s) (activeBuf s) (activeSize s) true (queue s)
                    (ch_closed s) (bufferedBytes s) (writtenBytes s) (appendedRecords s) (rejectedAppends s) (dir s))
             (appenders y) (flush y) CMarked
  | CMarked =>
      mkSys (mkStore (cfg s) (closed s) (nextOffset s) (activeID s) (activeBuf s) (activeSize s) (appendCh_nil s)
               (queue s) true (bufferedBytes s) (writtenBytes s) (appendedRecords s) (rejectedAppends s) (dir s))
        (appenders y) (flush y) CWaiting
  | CWaiting =>
      match flush y with
      | FDone => mkSys (bw_flush s) (appenders y) (flush y) CClosed
      | _ => y
      end
  | CClosed => y
  end.

(** ** Interleavings *)

Inductive log_event : Type :=
| EAppend (i : nat)
| EFlush
| EClose
| ERotate
| ESync.

Definition log_exec (y : logsys) (e : log_event) : logsys :=
  match e with
  | EAppend i =>
      match appenders y !! i with
      | Some a => let '(s, a) := append_step (store y) i a in
                  mkSys s (<[i := a]> (appenders y)) (flush y) (close y)
      | None => y
      end
  | EFlush => flush_step y
  | EClose => close_step y
  | ERotate => mkSys (Rotate (store y)).1 (appenders y) (flush y) (close y)
  | ESync => mkSys (Sync (store y)).1 (appenders y) (flush y) (close y)
  end.

Definition log_run (y : logsys) (es : list log_event) : logsys := fold_left log_exec es y.

(** A store opened on a directory, with appends to be made. *)
Definition log_init (c : FSStoreConfig) (d : list (Z * list Z)) (datas : list (list Z)) : logsys :=
  mkSys (NewFSStore c d) (map AStart datas) FIdle COpen.


(** ** The files as a list of records *)

Definition framed (bs : list Z) (rs : list LogRecord) : Prop := bs = encode_records rs /\ Forall record_ok rs.

(** The directory holds the records [rss] in sealed segments and [rs] in the
    active one, part of it still in the writer's buffer. *)
Definition holds (s : fsStore) (rss : list (list LogRecord)) (rs : list LogRecord) : Prop :=
  exists pre c,
    dir s = pre ++ [(activeID s, c)] /\ StronglySorted Z.lt (map fst (dir s)) /\
    Forall2 (fun e rs => framed e.2 rs) pre rss /\ framed (c ++ activeBuf s) rs /\
    activeSize s = lenZ (c ++ activeBuf s) /\ lenZ (activeBuf s) <= bufio_size.

Lemma sorted_fresh (l : list Z) x : StronglySorted Z.lt (l ++ [x]) -> Forall (fun y => y < x) l.
Proof.
  induction l as [|y l IH]; [constructor|]. intros H. apply StronglySorted_inv in H as [H Hall].
  constructor; [|by apply IH]. apply Forall_app in Hall as [_ Hall]. by inv Hall.
Qed.

Lemma sorted_snoc (l : list Z) x :
  StronglySorted Z.lt l -> Forall (fun y => y < x) l -> StronglySorted Z.lt (l ++ [x]).
Proof.
  induction 1 as [|y l Hs IH Hall]; intros Hf; cbn [app]; [repeat constructor|].
  apply Forall_cons in Hf as [Hy Hf]. constructor; [by apply IH|]. apply Forall_app. split; [done|].
  by apply Forall_singleton.
Qed.

Lemma file_write_last pre id c bs :
  StronglySorted Z.lt (map fst (pre ++ [(id, c)])) ->
  file_write (pre ++ [(id, c)]) id bs = pre ++ [(id, c ++ bs)].
Proof.
  rewrite map_app. intros Hs. apply sorted_fresh in Hs. unfold file_write. rewrite map_app. cbn [map fst snd].
  rewrite Z.eqb_refl. f_equal. induction pre as [|e pre IH]; [done|]. cbn [map] in *.
  apply Forall_cons in Hs as [He Hs]. rewrite IH by done.
  destruct (Z.eqb_spec e.1 id) as [Heq|]; [|done]. simpl in He, Hs. lia.
Qed.

Lemma file_open_new d id : Forall (fun y => y < id) (map fst d) -> file_open d id = d ++ [(id, [])].
Proof.
  intros Hf. unfold file_open.
  destruct (list_find _ d) as [[i e]|] eqn:E; [|done].
  apply list_find_Some in E as (Hi & He & _). rewrite Forall_forall in Hf.
  assert (e.1 < id); [|lia]. apply Hf. apply list_elem_of_fmap_2. by eapply list_elem_of_lookup_2.
Qed.

Lemma map_fst_last (pre : list (Z * list Z)) id c c' :
  map fst (pre ++ [(id, c)]) = map fst (pre ++ [(id, c')]).
Proof. by rewrite !map_app. Qed.

(** Writing through the buffer: file and buffer together grow by what is written. *)
Lemma bw_write_spec pre id c buf p :
  StronglySorted Z.lt (map fst (pre ++ [(id, c)])) -> lenZ buf <= bufio_size ->
  exists c' buf', bw_write (pre ++ [(id, c)]) id buf p = (pre ++ [(id, c')], buf') /\
    c' ++ buf' = c ++ buf ++ p /\ lenZ buf' <= bufio_size.
Proof.
  intros Hs Hb. unfold bw_write. destruct (Z.leb_spec (lenZ p) (bufio_size - lenZ buf)) as [Hp|Hp].
  { exists c, (buf ++ p). split; [done|]. split; [done|]. unfold lenZ in *. rewrite length_app. lia. }
  destruct (Z.eqb_spec (lenZ buf) 0) as [Hz|Hz].
  { exists (c ++ p), []. rewrite file_write_last by done. split; [done|].
    assert (buf = []) as -> by (destruct buf; [done|unfold lenZ in Hz; simpl in Hz; lia]).
    split; [by rewrite app_nil_r|]. done. }
  set (n := Z.to_nat _). rewrite file_write_last by done.
  destruct (Z.leb_spec (lenZ (drop n p)) bufio_size) as [Hd|Hd].
  - exists (c ++ buf ++ take n p), (drop n p). split; [done|]. split; [|done].
    by rewrite <- !app_assoc, take_drop.
  - rewrite file_write_last by (by rewrite (map_fst_last pre id _ c)).
    exists ((c ++ buf ++ take n p) ++ drop n p), []. split; [done|]. split; [|done].
    by rewrite app_nil_r, <- !app_assoc, take_drop.
Qed.

Lemma framed_snoc bs rs off data :
  framed bs rs -> 0 <= off < 2 ^ 64 -> lenZ data < 2 ^ 32 ->
  framed (bs ++ record_header off data ++ data) (rs ++ [mkRecord off data]).
Proof.
  intros [-> Hrs] Ho Hd. split.
  - rewrite encode_records_app. f_equal. unfold encode_records. cbn. unfold encode_record. cbn. by rewrite app_nil_r.
  - apply Forall_app. split; [done|]. by apply Forall_singleton.
Qed.

Lemma framed_nil : framed [] [].
Proof. split; [done|constructor]. Qed.

Lemma bw_flush_holds s rss rs : holds s rss rs -> holds (bw_flush s) rss rs.
Proof.
  intros (pre & c & Hd & Hs & Hpre & Hc & Hsz & Hb). exists pre, (c ++ activeBuf s).
  rewrite Hd in Hs. cbn. rewrite Hd, file_write_last, app_nil_r by done. split_and!; try done.
  by rewrite (map_fst_last pre _ _ c).
Qed.

Lemma rotateLocked_holds s rss rs : holds s rss rs -> holds (rotateLocked s) (rss ++ [rs]) [].
Proof.
  intros H. apply bw_flush_holds in H as (pre & c & Hd & Hs & Hpre & Hc & _ & _).
  unfold rotateLocked. change (activeBuf (bw_flush s)) with (@nil Z) in Hc. rewrite app_nil_r in Hc.
  set (s1 := bw_flush s) in *. clearbody s1.
  assert (Forall (fun y => y < activeID s1 + 1) (map fst (dir s1))) as Hlt.
  { rewrite Hd in Hs |- *. rewrite map_app in Hs |- *. apply sorted_fresh in Hs. apply Forall_app. split.
    - eapply Forall_impl; [exact Hs|]. simpl. lia.
    - apply Forall_singleton. simpl. lia. }
  exists (dir s1), []. cbn. rewrite file_open_new by done. split_and!; try done.
  - rewrite map_app. by apply sorted_snoc.
  - rewrite Hd. apply Forall2_app; [done|]. repeat constructor; apply Hc.
Qed.

(** ** Persisting appends one record to the log *)

Lemma appendToDisk_holds s rss rs offset data :
  holds s rss rs -> 0 <= offset < 2 ^ 64 -> closed s = false -> lenZ data <= max_uint32 ->
  exists rss' rs', holds (appendToDisk s offset data).1 rss' rs' /\
    (appendToDisk s offset data).2 = None /\
    concat rss' ++ rs' = concat rss ++ rs ++ [mkRecord offset data] /\
    (DurabilityMode (cfg s) = DurabilityFsync -> activeBuf (appendToDisk s offset data).1 = []).
Proof.
  intros H Ho Hc Hd. unfold appendToDisk. unfold max_uint32 in *.
  destruct (Z.ltb_spec (2 ^ 32 - 1) (lenZ data)); [lia|]. rewrite Hc.
  set (full := MaxSegmentBytes (cfg s) <? _). set (s1 := if full then rotateLocked s else s).
  assert (exists rss1 rs1, holds s1 rss1 rs1 /\ concat rss1 ++ rs1 = concat rss ++ rs) as (rss1 & rs1 & H1 & E1).
  { unfold s1. destruct full; [|by exists rss, rs]. exists (rss ++ [rs]), []. split; [by apply rotateLocked_holds|].
    rewrite concat_app, app_nil_r. cbn. by rewrite app_nil_r. }
  assert (DurabilityMode (cfg s) = DurabilityMode (cfg s1)) as Edur by (unfold s1; by destruct full).
  clearbody s1. rewrite Edur. clear H Edur full. destruct H1 as (pre & c & Hdir & Hs & Hpre & Hf & Hsz & Hb). rewrite Hdir in Hs |- *.
  destruct (bw_write_spec pre (activeID s1) c (activeBuf s1) (record_header offset data) Hs Hb) as (c1 & b1 & -> & E2 & Hb1).
  assert (StronglySorted Z.lt (map fst (pre ++ [(activeID s1, c1)]))) as Hs1 by (by rewrite (map_fst_last _ _ _ c)).
  destruct (bw_write_spec pre (activeID s1) c1 b1 data Hs1 Hb1) as (c2 & b2 & -> & E3 & Hb2).
  set (s2 := mkStore _ _ _ _ _ _ _ _ _ _ _ _ _ _).
  assert (holds s2 rss1 (rs1 ++ [mkRecord offset data])) as H2.
  { exists pre, c2. unfold s2. cbn [dir activeID activeBuf activeSize]. split_and!; try done.
    - by rewrite (map_fst_last _ _ _ c).
    - rewrite E3, app_assoc, E2, <- !app_assoc, app_assoc. apply framed_snoc; [done|done|lia].
    - rewrite E3, app_assoc, E2, Hsz. unfold lenZ. rewrite !length_app. lia. }
  assert (cfg s2 = cfg s1) as Ecfg by done. clearbody s2.
  set (s3 := if _ <? _ then _ else s2).
  assert (holds s3 rss1 (rs1 ++ [mkRecord offset data])) as H3
    by (unfold s3; destruct (_ <? _); [by apply bw_flush_holds|done]).
  assert (cfg s3 = cfg s1) as Ecfg3 by (unfold s3; by destruct (_ <? _)). clearbody s3.
  exists rss1, (rs1 ++ [mkRecord offset data]). rewrite Ecfg3, app_assoc, E1, <- app_assoc.
  destruct (DurabilityMode (cfg s1)); cbn [fst snd]; [done|]. split; [by apply bw_flush_holds|done].
Qed.

(** Nothing is written after the store is marked closed, or for oversized data. *)
Lemma appendToDisk_refused s offset data :
  closed s = true \/ max_uint32 < lenZ data ->
  exists err, appendToDisk s offset data = (s, Some err).
Proof.
  intros H. unfold appendToDisk. destruct (Z.ltb_spec max_uint32 (lenZ data)); [by eexists|].
  destruct H as [->|]; [by eexists|lia].
Qed.

(** ** The abstract log *)

(** Everything handed to the writer, buffered or not, and what the files hold. *)
Definition log_of (s : fsStore) : list LogRecord :=
  concat (map (fun e => segment_records (if e.1 =? activeID s then e.2 ++ activeBuf s else e.2)) (dir s)).

Definition on_disk (d : list (Z * list Z)) : list LogRecord :=
  concat (map (fun e => segment_records e.2) (listSegments d)).

Lemma seg_le_order : Transitive seg_le /\ Total seg_le.
Proof. split; unfold seg_le; [intros a b c; lia|intros a b; lia]. Qed.

Lemma listSegments_sorted d : StronglySorted Z.lt (map fst d) -> listSegments d = d.
Proof.
  intros Hs. destruct seg_le_order as [HT HL]. unfold listSegments.
  eapply (StronglySorted_unique_strong seg_le).
  - intros a b Ha Hb Hab Hba. assert (a.1 = b.1) as E by (unfold seg_le in *; lia).
    rewrite merge_sort_Permutation in Ha.
    apply list_elem_of_lookup in Ha as [i Hi]. apply list_elem_of_lookup in Hb as [j Hj].
    enough (i = j) by congruence. clear -Hs Hi Hj E. revert i j Hi Hj.
    induction d as [|x d IH]; intros [|i] [|j] Hi Hj; simplify_eq/=; try done; try (apply f_equal);
      apply StronglySorted_inv in Hs as [Hs Hall]; rewrite Forall_forall in Hall.
    + assert (a.1 < b.1); [|lia]. apply Hall. apply list_elem_of_fmap_2. by eapply list_elem_of_lookup_2.
    + assert (b.1 < a.1); [|lia]. apply Hall. apply list_elem_of_fmap_2. by eapply list_elem_of_lookup_2.
    + by apply IH.
  - by apply StronglySorted_merge_sort.
  - clear -Hs. induction d as [|x d IH]; [constructor|]. cbn in Hs. apply StronglySorted_inv in Hs as [Hs Hall].
    constructor; [by apply IH|]. rewrite Forall_fmap in Hall. eapply Forall_impl; [exact Hall|].
    unfold seg_le. simpl. lia.
  - apply merge_sort_Permutation.
Qed.

Lemma sealed_records pre rss :
  Forall2 (fun (e : Z * list Z) rs => framed e.2 rs) pre rss -> map (fun e => segment_records e.2) pre = rss.
Proof.
  induction 1 as [|e rs pre rss [Ee He] Hf IH]; [done|]. cbn [map]. rewrite IH, Ee. f_equal.
  rewrite <- (app_nil_r (encode_records rs)). by apply segment_records_encode.
Qed.

Lemma holds_log s rss rs : holds s rss rs -> log_of s = concat rss ++ rs.
Proof.
  intros (pre & c & Hd & Hs & Hpre & [Ec Hc] & _ & _). unfold log_of. rewrite Hd, map_app, concat_app. cbn [map].
  cbn [fst snd]. rewrite Z.eqb_refl, Ec. f_equal.
  - rewrite <- (sealed_records _ _ Hpre). f_equal. rewrite Hd, map_app in Hs. apply sorted_fresh in Hs. clear -Hs.
    induction pre as [|e pre IH]; [done|]. cbn [map] in *. apply Forall_cons in Hs as [He Hs].
    rewrite IH by done. destruct (Z.eqb_spec e.1 (activeID s)) as [E|]; [|done]. cbn in He. lia.
  - cbn. rewrite app_nil_r, <- (app_nil_r (encode_records rs)). by apply segment_records_encode.
Qed.

(** The files hold a prefix of the log, all of it when nothing is buffered. *)
Lemma holds_disk s rss rs :
  holds s rss rs ->
  exists k, on_disk (dir s) = concat rss ++ take k rs /\ (activeBuf s = [] -> k = length rs).
Proof.
  intros (pre & c & Hd & Hs & Hpre & [Ec Hc] & _ & _). unfold on_disk. rewrite listSegments_sorted by done.
  rewrite Hd, map_app, concat_app, (sealed_records _ _ Hpre). cbn [map concat snd]. rewrite app_nil_r.
  assert (c = take (length c) (encode_records rs)) as E by (by rewrite <- Ec, take_app_length).
  destruct (segment_records_cut rs (length c) Hc) as (k & Ek & Hk). exists k. split; [by rewrite E, Ek|].
  intros Hb. apply Hk. rewrite Hb, app_nil_r in Ec. rewrite Ec. lia.
Qed.

(** ** Recovery *)

Lemma recover_fold l : forall a b,
  fold_left (fun '(maxID, maxOffset) '(id, bs) =>
      (if maxID <? id then id else maxID,
       let off := scanSegmentMaxOffset bs in if maxOffset <? off then off else maxOffset)) l (a, b) =
  (fold_left Z.max (map fst l) a, fold_left Z.max (map (fun e => scanSegmentMaxOffset e.2) l) b).
Proof.
  induction l as [|[id bs] l IH]; intros a b; [done|]. cbn [fold_left map fst snd]. rewrite IH.
  f_equal; f_equal; destruct (Z.ltb_spec a id), (Z.ltb_spec b (scanSegmentMaxOffset bs)); lia.
Qed.

(** Whatever the directory holds, torn files included, the store numbers new
    records above every record that can be read. *)
Theorem recovery_offsets_fresh c d r :
  Forall (fun e => Forall is_byte e.2) d ->
  Forall (fun r => Offset r < 2 ^ 64 - 1) (on_disk d) -> r ∈ on_disk d ->
  Offset r < nextOffset (NewFSStore c d) < 2 ^ 64.
Proof.
  intros Hbytes Hall Hr. unfold NewFSStore, openOrRecover. rewrite recover_fold. cbn [nextOffset].
  assert (forall e, In e (listSegments d) -> Forall is_byte e.2) as Hby.
  { intros e He%list_elem_of_In. rewrite Forall_forall in Hbytes. apply Hbytes.
    by rewrite <- (merge_sort_Permutation seg_le d). }
  unfold on_disk in *. set (segs := listSegments d) in *. set (m := fold_left Z.max (map (fun e => _ e.2) segs) 0).
  assert (Offset r <= m) as Hm.
  { apply list_elem_of_In, in_concat in Hr as (l & Hl & Hin). apply in_map_iff in Hl as (e & <- & He).
    etrans; [|apply (fold_max_bound _ (scanSegmentMaxOffset e.2))].
    - rewrite scanSegmentMaxOffset_spec by (by apply Hby). apply fold_max_bound. apply list_elem_of_In. by apply in_map.
    - apply list_elem_of_In. apply in_map_iff. by exists e. }
  assert (0 <= m < 2 ^ 64 - 1) as Hb.
  { split; [apply fold_max_ge|]. unfold m. destruct (fold_max_in (map (fun e => scanSegmentMaxOffset e.2) segs) 0) as [->|Hin]; [done|].
    apply list_elem_of_In, in_map_iff in Hin as (e & <- & He). rewrite scanSegmentMaxOffset_spec by (by apply Hby).
    destruct (fold_max_in (map Offset (segment_records e.2)) 0) as [->|Hin]; [done|].
    apply list_elem_of_In, in_map_iff in Hin as (x & <- & Hx). rewrite Forall_forall in Hall. apply Hall.
    apply list_elem_of_In, in_concat. exists (segment_records e.2). split; [|done]. apply in_map_iff. by exists e. }
  unfold u64. rewrite Z.mod_small by lia. lia.
Qed.

(** ** Runs *)

(** A directory as a store leaves it: segments numbered from 1, every file made
    of whole records. *)
Definition clean (d : list (Z * list Z)) (rss : list (list LogRecord)) : Prop :=
  StronglySorted Z.lt (map fst d) /\ Forall (fun id => 1 <= id) (map fst d) /\
  Forall2 (fun e rs => framed e.2 rs) d rss.

Lemma fold_max_last ids id : Forall (fun y => y < id) ids -> 0 < id -> fold_left Z.max (ids ++ [id]) 0 = id.
Proof.
  intros Hall Hid. rewrite fold_left_app. cbn [fold_left]. rewrite Forall_forall in Hall.
  destruct (fold_max_in ids 0) as [->|Hin]; [lia|]. specialize (Hall _ Hin). cbn in Hall. lia.
Qed.

Lemma file_open_known pre id c : file_open (pre ++ [(id, c)]) id = pre ++ [(id, c)].
Proof.
  unfold file_open. destruct (list_find _ _) eqn:E; [done|]. apply list_find_None in E.
  apply Forall_app in E as [_ E]. by inv E.
Qed.

Lemma file_last pre id c : StronglySorted Z.lt (map fst (pre ++ [(id, c)])) -> file (pre ++ [(id, c)]) id = c.
Proof.
  rewrite map_app. intros Hs%sorted_fresh. unfold file.
  assert (list_find (fun e : Z * list Z => e.1 = id) (pre ++ [(id, c)]) = Some (length pre, (id, c))) as ->; [|done].
  apply list_find_Some. split_and!; [by rewrite list_lookup_middle|done|].
  intros j y Hj Hlt E. rewrite lookup_app_l in Hj by done. rewrite Forall_fmap, Forall_forall in Hs.
  apply list_elem_of_lookup_2, Hs in Hj. cbn in Hj. lia.
Qed.

Lemma NewFSStore_holds c d rss :
  clean d rss -> exists rss' rs', holds (NewFSStore c d) rss' rs' /\ concat rss' ++ rs' = concat rss.
Proof.
  intros (Hs & Hid & Hf). unfold NewFSStore, openOrRecover. rewrite recover_fold, listSegments_sorted by done.
  destruct d as [|e d _] using rev_ind.
  - inv Hf. exists [], []. split; [|done]. exists [], []. cbn. split_and!; try done; repeat constructor.
  - destruct e as [id bs]. apply Forall2_app_inv_l in Hf as (rss1 & rss2 & Hf1 & Hf2 & ->). inv Hf2.
    match goal with H : Forall2 _ [] _ |- _ => inv H end.
    exists rss1, y. split; [|by rewrite concat_app; cbn; rewrite app_nil_r].
    assert (fold_left Z.max (map fst (d ++ [(id, bs)])) 0 = id) as ->.
    { rewrite map_app in *. apply Forall_app in Hid as [_ Hid]. apply fold_max_last; [by apply sorted_fresh|].
      inv Hid. cbn in *. lia. }
    replace (length (d ++ [(id, bs)]) =? 0)%nat with false by (rewrite length_app; symmetry; apply Nat.eqb_neq; simpl; lia).
    rewrite andb_false_r, file_open_known. exists d, bs. cbn. rewrite file_last, app_nil_r by done. split_and!; done.
Qed.

Definition numbered_ok (a : appender) : Prop :=
  match a with ANumbered _ off => 0 <= off < 2 ^ 64 | _ => True end.

Record sys_ok (y : logsys) : Prop := {
  ok_files : exists rss rs, holds (store y) rss rs;
  ok_next : 0 <= nextOffset (store y) < 2 ^ 64;
  ok_numbered : Forall numbered_ok (appenders y);
  ok_queue : Forall (fun r => 0 <= roffset r < 2 ^ 64) (queue (store y))
}.

(** The record a step persists: a flush step that takes a request from the
    queue of an open store. *)
Definition persists (y : logsys) (e : log_event) : list LogRecord :=
  match e, flush y, queue (store y) with
  | EFlush, FIdle, req :: _ =>
      if closed (store y) || (max_uint32 <? lenZ (rdata req)) then []
      else [mkRecord (roffset req) (rdata req)]
  | _, _, _ => []
  end.

(** Only the files, the active segment and its buffer matter to [holds]. *)
Lemma holds_same s s' rss rs :
  dir s' = dir s -> activeID s' = activeID s -> activeBuf s' = activeBuf s -> activeSize s' = activeSize s ->
  holds s rss rs -> holds s' rss rs.
Proof. unfold holds. by intros -> -> -> ->. Qed.

Lemma append_step_frame s i a :
  let '(s', a') := append_step s i a in
  dir s' = dir s /\ activeID s' = activeID s /\ activeBuf s' = activeBuf s /\ activeSize s' = activeSize s /\
  cfg s' = cfg s /\ closed s' = closed s /\ ch_closed s' = ch_closed s /\
  (0 <= nextOffset s < 2 ^ 64 -> 0 <= nextOffset s' < 2 ^ 64 /\ (numbered_ok a -> numbered_ok a')) /\
  (numbered_ok a -> Forall (fun r => 0 <= roffset r < 2 ^ 64) (queue s) -> Forall (fun r => 0 <= roffset r < 2 ^ 64) (queue s')).
Proof.
  pose proof (u64_range (nextOffset s + 1)). destruct a; cbn [append_step]; repeat case_match; simplify_eq/=; split_and!; try done; intros; try done.
  all: apply Forall_app; split; [done|]; by apply Forall_singleton.
Qed.

Lemma flush_step_ok y :
  sys_ok y -> sys_ok (flush_step y) /\ log_of (store (flush_step y)) = log_of (store y) ++ persists y EFlush.
Proof.
  intros [(rss & rs & Hh) Hn Ha Hq]. pose proof (holds_log _ _ _ Hh) as El. unfold flush_step, persists.
  destruct (flush y) as [|req err|].
  - destruct (queue (store y)) as [|req q] eqn:Eq.
    { rewrite app_nil_r. destruct (ch_closed (store y)); (split; [constructor; cbn; rewrite ?Eq; eauto|done]). }
    apply Forall_cons in Hq as [Hr Hq]. set (s := with_counters _ _ _ _ _ _).
    assert (holds s rss rs) as Hs by (by eapply holds_same; [..|exact Hh]).
    destruct (decide (closed s = true \/ max_uint32 < lenZ (rdata req))) as [Hbad|Hgood].
    + destruct (appendToDisk_refused s (roffset req) (rdata req) Hbad) as [err ->].
      change (closed (store y)) with (closed s). replace (closed s || _) with true.
      2: { destruct Hbad as [->|Hbig]; [done|]. destruct (Z.ltb_spec max_uint32 (lenZ (rdata req))); [by rewrite orb_true_r|lia]. }
      rewrite app_nil_r. split; [|done]. constructor; cbn; eauto.
    + assert (closed s = false /\ lenZ (rdata req) <= max_uint32) as [Hc Hl].
      { split; [apply not_true_is_false; tauto|lia]. }
      destruct (appendToDisk_holds s rss rs (roffset req) (rdata req) Hs Hr Hc Hl) as (rss' & rs' & H' & _ & E & _).
      assert (nextOffset (appendToDisk s (roffset req) (rdata req)).1 = nextOffset s /\
              queue (appendToDisk s (roffset req) (rdata req)).1 = queue s) as [En Eq'].
      { unfold appendToDisk. rewrite Hc. destruct (_ <? _); [done|].
        destruct (_ <? _); repeat case_match; done. }
      destruct (appendToDisk s (roffset req) (rdata req)) as [s' err]. cbn [fst] in *.
      change (closed (store y)) with (closed s). rewrite Hc. cbn [orb store].
      destruct (Z.ltb_spec max_uint32 (lenZ (rdata req))); [lia|]. split.
      * constructor; cbn; rewrite ?En, ?Eq'; eauto.
      * rewrite (holds_log _ _ _ H'), El, E. by rewrite app_assoc.
  - rewrite app_nil_r. split; [|done]. constructor; cbn; [|done| |done].
    + exists rss, rs. by eapply holds_same; [..|exact Hh].
    + destruct (DurabilityMode _); [done|]. unfold ack. destruct (appenders y !! who req) as [[]|]; try done.
      by apply Forall_insert.
  - rewrite app_nil_r. split; [|done]. constructor; eauto.
Qed.

Lemma log_exec_ok y e :
  sys_ok y -> sys_ok (log_exec y e) /\ log_of (store (log_exec y e)) = log_of (store y) ++ persists y e.
Proof.
  intros Hy. destruct e as [i| | | |]; [|by apply flush_step_ok|..]; cbn [persists]; rewrite app_nil_r;
    destruct Hy as [(rss & rs & Hh) Hn Ha Hq]; pose proof (holds_log _ _ _ Hh) as El.
  - cbn [log_exec]. destruct (appenders y !! i) as [a|] eqn:Ea; [|split; [constructor; eauto|done]].
    pose proof (append_step_frame (store y) i a) as F. destruct (append_step (store y) i a) as [s' a'].
    destruct F as (E1 & E2 & E3 & E4 & _ & _ & _ & F1 & F2). destruct (F1 Hn) as [Hn' Ha'].
    assert (numbered_ok a) as Hna by (rewrite Forall_forall in Ha; by eapply Ha, list_elem_of_lookup_2).
    assert (holds s' rss rs) as Hh' by (by eapply holds_same; [..|exact Hh]).
    split; [|cbn [store]; by rewrite (holds_log _ _ _ Hh'), El]. constructor; cbn; eauto.
    apply Forall_insert; auto.
  - cbn [log_exec]. unfold close_step. destruct (close y); [destruct (closed (store y))| |destruct (flush y)|];
      try (split; [constructor; cbn; eauto|done]).
    apply bw_flush_holds in Hh. split; [|cbn [store]; by rewrite (holds_log _ _ _ Hh), El]. constructor; cbn; eauto.
  - cbn [log_exec Rotate]. unfold Rotate. destruct (closed (store y)); cbn [fst]; [split; [constructor; cbn; eauto|done]|].
    apply rotateLocked_holds in Hh. split; [constructor; cbn; eauto|].
    cbn [store]. rewrite (holds_log _ _ _ Hh), El, concat_app. cbn. by rewrite !app_nil_r.
  - cbn [log_exec Sync]. unfold Sync. destruct (closed (store y)); cbn [fst]; [split; [constructor; cbn; eauto|done]|].
    apply bw_flush_holds in Hh. split; [constructor; cbn; eauto|].
    cbn [store]. by rewrite (holds_log _ _ _ Hh), El.
Qed.

Lemma log_init_ok c d rss datas :
  clean d rss ->
  sys_ok (log_init c d datas) /\ log_of (store (log_init c d datas)) = concat rss.
Proof.
  intros Hc. destruct (NewFSStore_holds c d rss Hc) as (rss' & rs' & Hh & E). split.
  - constructor; cbn [log_init store appenders].
    + eauto.
    + unfold NewFSStore, openOrRecover. rewrite recover_fold. cbn [nextOffset]. apply u64_range.
    + apply Forall_fmap, Forall_forall. done.
    + unfold NewFSStore, openOrRecover. rewrite recover_fold. constructor.
  - cbn [log_init store]. by rewrite (holds_log _ _ _ Hh).
Qed.

Lemma log_run_ok y es : sys_ok y -> sys_ok (log_run y es).
Proof. revert y. induction es as [|e es IH]; intros y Hy; [done|]. apply IH. by apply log_exec_ok. Qed.

Lemma log_run_snoc y es e : log_run y (es ++ [e]) = log_exec (log_run y es) e.
Proof. unfold log_run. by rewrite fold_left_app. Qed.

(** C18. Opened on an empty directory or one an orderly shutdown left ([clean]:
    segments numbered from 1, each made of whole records), and as long as file
    operations do not fail, the store implements an append-only list of records
    under every interleaving of appenders, flush loop, rotation, syncing and
    closing: the log starts as what the directory holds, every step leaves it
    alone or adds the one record it persists, and the files always hold a prefix
    of it.  On a directory with a torn record it does not: see
    append_after_torn_tail_is_lost. *)
Theorem log_refines_list c d rss datas es e :
  clean d rss ->
  let y := log_run (log_init c d datas) es in
  log_of (store (log_init c d datas)) = concat rss /\
  log_of (store (log_exec y e)) = log_of (store y) ++ persists y e /\
  on_disk (dir (store y)) `prefix_of` log_of (store y).
Proof.
  intros Hc y. destruct (log_init_ok c d rss datas Hc) as [Hok E]. split; [done|].
  pose proof (log_run_ok _ es Hok) as Hy. fold y in Hy. split; [by apply log_exec_ok|].
  destruct Hy as [(rss' & rs & Hh) _ _ _]. rewrite (holds_log _ _ _ Hh).
  destruct (holds_disk _ _ _ Hh) as (k & -> & _). exists (drop k rs). by rewrite <- app_assoc, take_drop.
Qed.

Lemma log_refines_list_witness :
  let y := log_run (log_init (mkConfig 30 1000 DurabilityMemory) [] [[7]; [8; 9]])
             [EAppend 0; EAppend 0; EAppend 0; EAppend 0] in
  log_of (store (log_exec y EFlush)) = log_of (store y) ++ [mkRecord 1 [7]].
Proof.
  intros y. refine (proj1 (proj2 (log_refines_list (mkConfig 30 1000 DurabilityMemory) [] [] [[7]; [8; 9]]
    [EAppend 0; EAppend 0; EAppend 0; EAppend 0] EFlush _))).
  repeat constructor.
Defined.

(** After [Sync] everything that was persisted can be read from the files. *)
Theorem sync_makes_durable c d rss datas es :
  clean d rss ->
  let y := log_run (log_init c d datas) es in
  closed (store y) = false ->
  on_disk (dir (store (log_exec y ESync))) = log_of (store y).
Proof.
  intros Hc y Hcl. pose proof (log_run_ok _ es (proj1 (log_init_ok c d rss datas Hc))) as [(rss' & rs & Hh) _ _ _].
  fold y in Hh. cbn [log_exec]. unfold Sync. rewrite Hcl. cbn [fst store]. apply bw_flush_holds in Hh as Hh'.
  destruct (holds_disk _ _ _ Hh') as (k & -> & Hk). rewrite Hk by done. rewrite take_ge by done.
  by rewrite (holds_log _ _ _ Hh).
Qed.

Lemma sync_makes_durable_witness :
  let y := log_run (log_init (mkConfig 30 1000 DurabilityMemory) [] [[7]])
             [EAppend 0; EAppend 0; EAppend 0; EAppend 0; EFlush] in
  on_disk (dir (store (log_exec y ESync))) = [mkRecord 1 [7]].
Proof.
  intros y. etrans; [refine (sync_makes_durable (mkConfig 30 1000 DurabilityMemory) [] [] [[7]]
    [EAppend 0; EAppend 0; EAppend 0; EAppend 0; EFlush] _ _)|].
  - repeat constructor.
  - reflexivity.
  - vm_compute. reflexivity.
Defined.

(** ** Backpressure *)

Definition reserved (a : appender) : Z :=
  match a with
  | AReserved data | ANumbered data _ | APanicked data => lenZ data
  | _ => 0
  end.

Definition in_flight (f : flusher) : Z :=
  match f with FPersisted req _ => lenZ (rdata req) | _ => 0 end.

(** The bytes of all records between their reservation and the end of their
    turn in the flush loop. *)
Definition pending_bytes (y : logsys) : Z :=
  sumZ (reserved <$> appenders y) + sumZ (lenZ <$> (rdata <$> queue (store y))) + in_flight (flush y).

Definition accounted (y : logsys) : Prop :=
  bufferedBytes (store y) = pending_bytes y /\
  bufferedBytes (store y) <= MaxBufferedBytes (cfg (store y)) /\
  (length (queue (store y)) <= chan_capacity)%nat.

Lemma appendToDisk_frame s offset data :
  let s' := (appendToDisk s offset data).1 in
  bufferedBytes s' = bufferedBytes s /\ queue s' = queue s /\ cfg s' = cfg s /\ nextOffset s' = nextOffset s /\
  closed s' = closed s.
Proof. unfold appendToDisk. repeat case_match; done. Qed.

#[local] Arguments sumZ : simpl never.

Lemma appends_change y i a a' s' :
  appenders y !! i = Some a ->
  pending_bytes (mkSys s' (<[i := a']> (appenders y)) (flush y) (close y)) =
    sumZ (reserved <$> appenders y) - reserved a + reserved a' +
    sumZ (lenZ <$> (rdata <$> queue s')) + in_flight (flush y).
Proof. intros Ha. unfold pending_bytes. cbn. by rewrite (sumZ_fmap_insert _ _ _ _ _ Ha). Qed.

Lemma ack_reserved asl i err : sumZ (reserved <$> ack asl i err) = sumZ (reserved <$> asl).
Proof.
  unfold ack. destruct (asl !! i) as [[]|] eqn:E; try done. rewrite (sumZ_fmap_insert _ _ _ _ _ E). cbn. lia.
Qed.

Lemma lenZ_nonneg {A} (l : list A) : 0 <= lenZ l.
Proof. unfold lenZ. lia. Qed.

Lemma log_exec_accounted y e : accounted y -> accounted (log_exec y e).
Proof.
  intros (Hb & Hm & Hq). destruct e as [i| | | |]; cbn [log_exec].
  - destruct (appenders y !! i) as [a|] eqn:Ea; [|done].
    assert (forall s' a', bufferedBytes s' <= MaxBufferedBytes (cfg s') -> (length (queue s') <= chan_capacity)%nat ->
      bufferedBytes s' = sumZ (reserved <$> appenders y) - reserved a + reserved a' +
        sumZ (lenZ <$> (rdata <$> queue s')) + in_flight (flush y) ->
      accounted (mkSys s' (<[i := a']> (appenders y)) (flush y) (close y))) as Hstep.
    { intros s' a' H1 H2 H3. split_and!; [|done..]. by rewrite (appends_change _ _ _ _ _ Ea). }
    unfold pending_bytes in Hb. destruct a as [data|data|data|data off| | |data]; cbn [append_step].
    + repeat case_match; simplify_eq; apply Hstep; cbn in *; try done; lia.
    + destruct (Z.ltb_spec (MaxBufferedBytes (cfg (store y))) (bufferedBytes (store y) + lenZ data));
        apply Hstep; cbn in *; try done; lia.
    + apply Hstep; cbn in *; try done; lia.
    + destruct (ch_closed (store y)); [apply Hstep; cbn in *; try done; lia|].
      destruct (Nat.ltb_spec (length (queue (store y))) chan_capacity).
      * apply Hstep; cbn [with_counters bufferedBytes cfg queue]; [done|rewrite length_app; simpl; lia|].
        rewrite !fmap_app, sumZ_app. cbn [fmap list_fmap rdata]. unfold sumZ at 3. cbn [foldr].
        destruct (DurabilityMode _); cbn [reserved] in *; lia.
      * pose proof (lenZ_nonneg data). apply Hstep; cbn in *; try done; lia.
    + apply Hstep; cbn in *; try done; lia.
    + apply Hstep; cbn in *; try done; lia.
    + apply Hstep; cbn in *; try done; lia.
  - unfold flush_step. destruct (flush y) as [|req err|] eqn:Ef.
    + destruct (queue (store y)) as [|req q] eqn:Eq.
      { destruct (ch_closed (store y)); [|by split_and!; rewrite ?Eq].
        unfold accounted, pending_bytes in *. cbn. rewrite Ef, Eq in *. cbn in *. split_and!; [lia|done|lia]. }
      set (s := with_counters _ _ _ _ _ _). pose proof (appendToDisk_frame s (roffset req) (rdata req)) as F.
      destruct (appendToDisk s (roffset req) (rdata req)) as [s' err].
      destruct F as (F1 & F2 & F3 & _). cbn [fst] in *. unfold accounted, pending_bytes in *. cbn [store flush appenders in_flight].
      rewrite F1, F2, F3. cbn [s with_counters bufferedBytes queue cfg]. rewrite Ef, Eq in Hb. cbn in Hb, Hq.
      change (sumZ (?x :: ?l)) with (x + sumZ l) in Hb.
      split_and!; [lia|done|simpl in Hq; lia].
    + unfold accounted, pending_bytes in *. cbn [store flush appenders in_flight with_counters bufferedBytes queue cfg].
      rewrite Ef in Hb. cbn [in_flight] in Hb. pose proof (lenZ_nonneg (rdata req)).
      split_and!; [|lia|done]. destruct (DurabilityMode _); rewrite ?ack_reserved; lia.
    + done.
  - unfold close_step. destruct (close y); [destruct (closed (store y)); done| |destruct (flush y) eqn:Ef; try done|done].
    + done.
    + unfold accounted, pending_bytes in *. cbn in *. by rewrite Ef in *.
  - unfold Rotate. by destruct (closed (store y)).
  - unfold Sync. by destruct (closed (store y)).
Qed.

(** In every interleaving the buffered bytes are exactly those of the records on
    their way to disk, and neither they nor the queue exceed their limits. *)
Theorem backpressure_bound c d datas es :
  let y := log_run (log_init c d datas) es in
  bufferedBytes (store y) = pending_bytes y /\
  0 <= bufferedBytes (store y) <= MaxBufferedBytes (cfg (store y)) /\
  (length (queue (store y)) <= chan_capacity)%nat.
Proof.
  intros y. assert (accounted y) as (Hb & Hm & Hq).
  { unfold y. generalize es. intros es'. unfold log_run. rewrite <- fold_left_rev_right.
    induction (rev es') as [|e l IH]; cbn [foldr]; [|by apply log_exec_accounted].
    unfold accounted, pending_bytes, log_init, NewFSStore, openOrRecover. rewrite recover_fold. cbn. split_and!; [|destruct (Z.leb_spec (MaxBufferedBytes c) 0); [done|lia]|apply Nat.le_0_l].
    induction datas as [|x xs IH]; [done|]. cbn [map fmap list_fmap] in *. unfold sumZ in *. cbn in *. lia. }
  split_and!; [done| |done|done]. rewrite Hb. unfold pending_bytes.
  assert (0 <= in_flight (flush y)) by (destruct (flush y); cbn; try apply lenZ_nonneg; lia).
  assert (0 <= sumZ (reserved <$> appenders y)).
  { apply sumZ_nonneg, Forall_fmap, Forall_forall. intros [] _; cbn; try apply lenZ_nonneg; lia. }
  assert (0 <= sumZ (lenZ <$> (rdata <$> queue (store y)))).
  { apply sumZ_nonneg, Forall_fmap, Forall_forall. intros z _. apply lenZ_nonneg. }
  lia.
Qed.

(** ** Acknowledged in fsync mode means on disk *)

Definition flight (f : flusher) : list appendReq := match f with FPersisted req _ => [req] | _ => [] end.

Definition data_ok (datas : list (list Z)) (i : nat) (a : appender) (log : list LogRecord) : Prop :=
  match a with
  | AStart data | AOpen data | AReserved data | ANumbered data _ | APanicked data => datas !! i = Some data
  | AWaiting _ => True
  | ADone (off, None) => exists data, datas !! i = Some data /\ mkRecord off data ∈ log
  | ADone (_, Some _) => True
  end.

Record fsync_ok (datas : list (list Z)) (y : logsys) : Prop := {
  fs_mode : DurabilityMode (cfg (store y)) = DurabilityFsync;
  fs_buf : activeBuf (store y) = [];
  fs_apps : forall i a, appenders y !! i = Some a -> data_ok datas i a (log_of (store y));
  fs_reqs : Forall (fun r => appenders y !! who r = Some (AWaiting (roffset r)) /\ datas !! who r = Some (rdata r))
              (flight (flush y) ++ queue (store y));
  fs_nodup : NoDup (who <$> flight (flush y) ++ queue (store y));
  fs_done : forall req, flush y = FPersisted req None -> mkRecord (roffset req) (rdata req) ∈ log_of (store y)
}.

Lemma data_ok_grow datas i a log log' : log `prefix_of` log' -> data_ok datas i a log -> data_ok datas i a log'.
Proof.
  intros [k ->]. destruct a as [| | | | |[off [err|]]|]; cbn; try done. intros (data & H1 & H2).
  exists data. split; [done|]. apply elem_of_app. by left.
Qed.

(** Steps that only touch the files keep the invariant if the log does not shrink. *)
Lemma fsync_ok_files datas y s' cl :
  fsync_ok datas y -> cfg s' = cfg (store y) -> activeBuf s' = [] -> queue s' = queue (store y) ->
  log_of (store y) `prefix_of` log_of s' -> fsync_ok datas (mkSys s' (appenders y) (flush y) cl).
Proof.
  intros [H1 H2 H3 H4 H5 H6] Ec Eb Eq Hp. constructor; cbn; rewrite ?Ec, ?Eq; try done.
  - intros i a Ha. eapply data_ok_grow; [exact Hp|]. by apply H3.
  - intros req Hf. destruct Hp as [k Hk]. rewrite Hk. apply elem_of_app. left. by apply H6.
Qed.

Lemma append_step_fsync datas y i a :
  fsync_ok datas y -> appenders y !! i = Some a ->
  let '(s', a') := append_step (store y) i a in
  log_of s' = log_of (store y) -> fsync_ok datas (mkSys s' (<[i := a']> (appenders y)) (flush y) (close y)).
Proof.
  intros H Ha. destruct (append_step (store y) i a) as [s' a'] eqn:E. intros El.
  pose proof (append_step_frame (store y) i a) as F. rewrite E in F.
  destruct F as (_ & _ & Eb & _ & Ec & _). destruct H as [H1 H2 H3 H4 H5 H6]. pose proof (H3 i a Ha) as Hd.
  assert (i < length (appenders y))%nat as Hi by (by eapply lookup_lt_Some).
  assert (forall P, Forall (fun r => appenders y !! who r = Some (AWaiting (roffset r)) /\ P r) (flight (flush y) ++ queue (store y)) ->
    (forall off, a <> AWaiting off) ->
    Forall (fun r => <[i := a']> (appenders y) !! who r = Some (AWaiting (roffset r)) /\ P r) (flight (flush y) ++ queue (store y))) as Hkeep.
  { intros P HP Hn. eapply Forall_impl; [exact HP|]. intros r [Hr HPr]. split; [|done].
    destruct (decide (i = who r)) as [->|Hne]; [|by rewrite list_lookup_insert_ne].
    exfalso. apply (Hn (roffset r)). congruence. }
  assert (data_ok datas i a' (log_of (store y)) /\
    ((queue s' = queue (store y) /\ (a' = a \/ forall off, a <> AWaiting off)) \/
     (exists data off, a = ANumbered data off /\ a' = AWaiting off /\ queue s' = queue (store y) ++ [mkReq off data i])))
    as [Hd' Hq].
  { destruct a as [data|data|data|data off|off|[off er]|data]; cbn [append_step] in E; rewrite ?H1 in E;
      repeat case_match; simplify_eq/=; split; try done; eauto 10. }
  constructor; cbn [store appenders flush]; rewrite ?Ec, ?Eb, ?El; try done.
  - intros j b Hb. destruct (decide (i = j)) as [<-|Hne].
    + rewrite list_lookup_insert_eq in Hb by done. by simplify_eq.
    + rewrite list_lookup_insert_ne in Hb by done. by apply H3.
  - destruct Hq as [[-> [->|Hn]]|(data & off & -> & -> & ->)].
    + by rewrite list_insert_id.
    + by apply Hkeep.
    + rewrite app_assoc. apply Forall_app. split; [by apply Hkeep|]. apply Forall_singleton. cbn.
      split; [by apply list_lookup_insert_eq|done].
  - destruct Hq as [[-> _]|(data & off & -> & -> & ->)]; [done|].
    rewrite app_assoc, fmap_app. apply NoDup_app. split_and!; [done| |apply NoDup_singleton].
    intros j (r & -> & Hr)%list_elem_of_fmap Hj. apply list_elem_of_singleton in Hj.
    rewrite Forall_forall in H4. destruct (H4 r Hr) as [Hw _]. rewrite Hj in Hw. cbn in Hw. by simplify_eq.
Qed.

Lemma flush_step_fsync datas y : sys_ok y -> fsync_ok datas y -> fsync_ok datas (flush_step y).
Proof.
  intros Hok H. pose proof (proj2 (flush_step_ok y Hok)) as El. destruct Hok as [(rss & rs & Hh) Hn Ha Hq].
  unfold flush_step in *. unfold persists in El. destruct (flush y) as [|req err|] eqn:Ef.
  - destruct (queue (store y)) as [|req q] eqn:Eq.
    { destruct (ch_closed (store y)); [|done]. destruct H as [H1 H2 H3 H4 H5 H6].
      constructor; cbn; rewrite ?Eq; try done; constructor. }
    set (s := with_counters _ _ _ _ _ _) in *. apply Forall_cons in Hq as [Hr Hq].
    assert (holds s rss rs) as Hs by (by eapply holds_same; [..|exact Hh]).
    pose proof (appendToDisk_frame s (roffset req) (rdata req)) as (F1 & F2 & F3 & F4 & F5).
    destruct (appendToDisk s (roffset req) (rdata req)) as [s' err] eqn:E. cbn [fst store] in *.
    destruct H as [H1 H2 H3 H4 H5 H6]. rewrite Ef, Eq in *. cbn [flight app] in *.
    assert (activeBuf s' = [] /\ (err = None -> mkRecord (roffset req) (rdata req) ∈ log_of s')) as [Hb Hin].
    { destruct (decide (closed s = true \/ max_uint32 < lenZ (rdata req))) as [Hbad|Hgood].
      - destruct (appendToDisk_refused s (roffset req) (rdata req) Hbad) as [er Er]. rewrite E in Er. by simplify_eq.
      - assert (closed s = false /\ lenZ (rdata req) <= max_uint32) as [Hc Hl].
        { split; [apply not_true_is_false; tauto|lia]. }
        destruct (appendToDisk_holds s rss rs (roffset req) (rdata req) Hs Hr Hc Hl) as (rss' & rs' & Hh' & _ & Ec & Hb).
        rewrite E in Hh', Hb. cbn [fst] in *. split; [by apply Hb|]. intros _.
        rewrite (holds_log _ _ _ Hh'), Ec. apply elem_of_app. right. apply elem_of_app. right. by apply list_elem_of_singleton. }
    constructor; cbn [store appenders flush flight app]; rewrite ?F3, ?F2; try done.
    + intros i a Hia. eapply data_ok_grow; [|by apply H3]. by eexists.
    + intros r [= <- Herr]. by apply Hin.
  - cbn [store] in *. rewrite app_nil_r in El. destruct H as [H1 H2 H3 H4 H5 H6].
    rewrite Ef in H4, H5. cbn [flight app] in *. apply Forall_cons in H4 as [[Hw Hd] H4].
    rewrite fmap_cons in H5. apply NoDup_cons in H5 as [Hni H5]. cbn [with_counters cfg]. rewrite H1.
    unfold ack. rewrite Hw. constructor; cbn [store appenders flush flight app with_counters cfg activeBuf queue];
      rewrite ?El; try done.
    + intros i a Hia. destruct (decide (who req = i)) as [<-|Hne].
      * rewrite list_lookup_insert_eq in Hia by (by eapply lookup_lt_Some). simplify_eq. destruct err as [e|]; [done|].
        exists (rdata req). split; [done|]. by apply H6.
      * rewrite list_lookup_insert_ne in Hia by done. by apply H3.
    + rewrite Forall_forall in *. intros r Hr. destruct (H4 r Hr) as [Hw' Hd']. split; [|done].
      rewrite list_lookup_insert_ne; [done|]. intros Heq. apply Hni. rewrite Heq. by apply list_elem_of_fmap_2.
  - done.
Qed.

Lemma log_exec_fsync datas y e : sys_ok y -> fsync_ok datas y -> fsync_ok datas (log_exec y e).
Proof.
  intros Hok H. pose proof (proj2 (log_exec_ok y e Hok)) as El. destruct e as [i| | | |]; cbn [log_exec persists] in *.
  - rewrite app_nil_r in El. destruct (appenders y !! i) as [a|] eqn:Ea; [|done].
    pose proof (append_step_fsync datas y i a H Ea) as Hs. destruct (append_step (store y) i a) as [s' a']. by apply Hs.
  - by apply flush_step_fsync.
  - rewrite app_nil_r in El. unfold close_step in *.
    destruct (close y); [destruct (closed (store y)) eqn:Ecl| |destruct (flush y) eqn:Ef|]; try done.
    1,2: apply fsync_ok_files; try done; apply H.
    rewrite <- Ef. apply fsync_ok_files; try done. cbn [store] in El. by rewrite El.
  - rewrite app_nil_r in El. unfold Rotate in *. destruct (closed (store y)); cbn [fst store] in *.
    + apply fsync_ok_files; try done. apply H.
    + apply fsync_ok_files; try done. by rewrite El.
  - rewrite app_nil_r in El. unfold Sync in *. destruct (closed (store y)); cbn [fst store] in *.
    + apply fsync_ok_files; try done. apply H.
    + apply fsync_ok_files; try done. by rewrite El.
Qed.

(** [Read] over increasing offsets. *)
Lemma Read_take s from limit :
  0 < limit -> increasing (on_disk (dir s)) -> Forall (fun r => 0 <= Offset r < 2 ^ 64 - 1) (on_disk (dir s)) ->
  Read s from limit = inl (take (Z.to_nat limit) (List.filter (at_or_after from) (on_disk (dir s)))).
Proof.
  intros Hl Hi Hr. unfold Read. destruct (Z.leb_spec limit 0); [lia|]. unfold on_disk in *.
  rewrite <- (map_map snd segment_records) in Hi, Hr |- *.
  rewrite read_segments_spec by (done || (simpl; lia)). cbn [length app]. by rewrite Nat.sub_0_r.
Qed.

Lemma segment_records_length bs : (length (segment_records bs) <= length bs)%nat.
Proof.
  remember (length bs) as n eqn:En. revert bs En. induction n as [n IH] using lt_wf_ind. intros bs ->.
  rewrite segment_records_read. destruct (read_record bs) as [[r rest]|] eqn:E; [|simpl; lia].
  apply read_record_length in E. specialize (IH (length rest) ltac:(lia) rest eq_refl). simpl. lia.
Qed.

Lemma filter_length_le (p : LogRecord -> bool) rs : (length (List.filter p rs) <= length rs)%nat.
Proof. induction rs as [|r rs IH]; [done|]. cbn [List.filter length]. destruct (p r); simpl; lia. Qed.

Lemma in_filter_from r rs : r ∈ rs -> r ∈ List.filter (at_or_after (Offset r)) rs.
Proof.
  rewrite !list_elem_of_In, filter_In. intros Hr. split; [done|]. unfold at_or_after.
  by destruct (Z.ltb_spec (Offset r) (Offset r)); [lia|].
Qed.

(** A record on disk is found by the segment reader in one of the files. *)
Lemma on_disk_segment d r :
  r ∈ on_disk d -> exists id bs, (id, bs) ∈ d /\ r ∈ readSegmentRange bs (Offset r) (length bs).
Proof.
  intros Hr%list_elem_of_In. unfold on_disk in Hr. apply in_concat in Hr as (l & Hl & Hr).
  apply in_map_iff in Hl as ([id bs] & <- & He). exists id, bs. split.
  - apply list_elem_of_In in He. by rewrite <- (merge_sort_Permutation seg_le d).
  - apply list_elem_of_In in Hr. rewrite readSegmentRange_take.
    rewrite take_ge by (etrans; [apply filter_length_le|apply segment_records_length]). by apply in_filter_from.
Qed.

(** In a log with increasing offsets, the first record at or after the offset of a
    record is that record. *)
Lemma first_from_offset r rs :
  increasing rs -> r ∈ rs -> take 1 (List.filter (at_or_after (Offset r)) rs) = [r].
Proof.
  intros Hi Hr. apply list_elem_of_split in Hr as (l1 & l2 & ->).
  apply increasing_app in Hi as (_ & _ & Hlt). rewrite List.filter_app. cbn [List.filter].
  assert (List.filter (at_or_after (Offset r)) l1 = []) as ->.
  { assert (forall x, x ∈ l1 -> Offset x < Offset r) as Hl by (intros x Hx; apply Hlt; [done|by left]). clear Hlt.
    induction l1 as [|x l1 IH]; [done|]. cbn [List.filter]. unfold at_or_after at 1.
    destruct (Z.ltb_spec (Offset x) (Offset r)) as [|Hge]; [apply IH; intros z Hz; apply Hl; by right|].
    specialize (Hl x ltac:(by left)). lia. }
  cbn [app]. unfold at_or_after at 1. by destruct (Z.ltb_spec (Offset r) (Offset r)); [lia|].
Qed.

(** C25. In fsync mode, on an empty directory or one an orderly shutdown left
    ([clean]), as long as file operations do not fail, and in every interleaving:
    when [Append] has returned an offset without error, one of the files in the
    directory holds the record with that offset and exactly the data that were
    appended, and the segment reader finds it there.  [Read] from that offset
    returns it first whenever the offsets on disk increase (concurrent appends can
    disorder them: see concurrent_appends_hide_a_record; a torn directory loses
    the record: see append_after_torn_tail_is_lost). *)
Theorem fsync_ack_is_durable c d rss datas es i off :
  clean d rss -> DurabilityMode c = DurabilityFsync ->
  let y := log_run (log_init c d datas) es in
  appenders y !! i = Some (ADone (off, None)) ->
  exists data, datas !! i = Some data /\
    (exists id bs, (id, bs) ∈ dir (store y) /\
       mkRecord off data ∈ readSegmentRange bs off (length bs)) /\
    (increasing (on_disk (dir (store y))) -> Forall (fun r => 0 <= Offset r < 2 ^ 64 - 1) (on_disk (dir (store y))) ->
       Read (store y) off 1 = inl [mkRecord off data]).
Proof.
  intros Hc Hm y Hi. destruct (log_init_ok c d rss datas Hc) as [Hok _].
  assert (sys_ok y /\ fsync_ok datas y) as [Hy Hf].
  { unfold y, log_run. clear Hi y. assert (fsync_ok datas (log_init c d datas)) as H0.
    { unfold log_init, NewFSStore, openOrRecover. rewrite recover_fold. constructor; cbn; try done; [|constructor..].
      intros j a Ha. apply list_lookup_fmap_Some in Ha as (x & -> & Hx). done. }
    revert H0 Hok. generalize (log_init c d datas). induction es as [|e es IH]; intros y0 H0 Hok0; cbn; [done|].
    apply IH; [by apply log_exec_fsync|by apply log_exec_ok]. }
  pose proof (fs_apps _ _ Hf i _ Hi) as (data & Hd & Hin). exists data. split; [done|].
  destruct Hy as [(rss' & rs & Hh) _ _ _]. rewrite (holds_log _ _ _ Hh) in Hin.
  assert (mkRecord off data ∈ on_disk (dir (store y))) as Hon.
  { destruct (holds_disk _ _ _ Hh) as (k & -> & Hk). rewrite Hk by apply Hf. by rewrite take_ge. }
  split; [by apply on_disk_segment|]. intros Hinc Hoff. rewrite Read_take by (done || lia). f_equal.
  by apply (first_from_offset (mkRecord off data)).
Qed.

Lemma fsync_ack_is_durable_witness :
  let y := log_run (log_init (mkConfig 30 1000 DurabilityFsync) [] [[7]; [8; 9]])
             [EAppend 1; EAppend 1; EAppend 1; EAppend 1; EFlush; EFlush] in
  exists data, [[7]; [8; 9]] !! 1%nat = Some data /\
    (exists id bs, (id, bs) ∈ dir (store y) /\ mkRecord 1 data ∈ readSegmentRange bs 1 (length bs)) /\
    (increasing (on_disk (dir (store y))) -> Forall (fun r => 0 <= Offset r < 2 ^ 64 - 1) (on_disk (dir (store y))) ->
       Read (store y) 1 1 = inl [mkRecord 1 data]).
Proof.
  intros y. apply (fsync_ack_is_durable (mkConfig 30 1000 DurabilityFsync) [] [] [[7]; [8; 9]]
    [EAppend 1; EAppend 1; EAppend 1; EAppend 1; EFlush; EFlush]).
  - repeat constructor.
  - reflexivity.
  - vm_compute. reflexivity.
Defined.

(** ** What is lost *)

(** Once [Close] has marked the store closed, no later step adds to the log:
    requests still in the queue, although acknowledged in memory mode, are
    dropped by the flush loop that [Close] waits for. *)
Lemma log_exec_closed y e : closed (store y) = true -> closed (store (log_exec y e)) = true.
Proof.
  intros Hc. destruct e as [i| | | |]; cbn [log_exec].
  - destruct (appenders y !! i) as [a|]; [|done]. pose proof (append_step_frame (store y) i a) as F.
    destruct (append_step (store y) i a) as [s' a']. destruct F as (_ & _ & _ & _ & _ & F & _). cbn. by rewrite F.
  - unfold flush_step. destruct (flush y); [|done..]. destruct (queue (store y)) as [|req q]; [by destruct (ch_closed (store y))|].
    set (s := with_counters _ _ _ _ _ _). pose proof (appendToDisk_frame s (roffset req) (rdata req)) as (_ & _ & _ & _ & F).
    destruct (appendToDisk s (roffset req) (rdata req)). cbn in *. by rewrite F.
  - unfold close_step. destruct (close y); [by rewrite Hc|done|by destruct (flush y)|done].
  - unfold Rotate. by rewrite Hc.
  - unfold Sync. by rewrite Hc.
Qed.

Theorem close_drops_queue c d rss datas es es' :
  clean d rss ->
  let y := log_run (log_init c d datas) es in
  closed (store y) = true -> log_of (store (log_run y es')) = log_of (store y).
Proof.
  intros Hc y Hcl. pose proof (log_run_ok _ es (proj1 (log_init_ok c d rss datas Hc))) as Hok. fold y in Hok.
  clearbody y. revert y Hok Hcl. induction es' as [|e es' IH]; intros y Hok Hcl; [done|].
  change (log_run y (e :: es')) with (log_run (log_exec y e) es').
  destruct (log_exec_ok y e Hok) as [Hok' E]. rewrite IH; [|done|by apply log_exec_closed].
  rewrite E. unfold persists. rewrite Hcl. destruct e, (flush y), (queue (store y)); by rewrite app_nil_r.
Qed.

(** An append that returned offset 1 without error, then an orderly [Close]:
    the record is nowhere. *)
Lemma close_drops_queue_witness :
  let y := log_run (log_init (mkConfig 4096 1000 DurabilityMemory) [] [[7; 7; 7]])
             [EAppend 0; EAppend 0; EAppend 0; EAppend 0; EClose] in
  let y' := log_run y [EClose; EFlush; EFlush; EFlush; EClose] in
  appenders y' = [ADone (1, None)] /\ close y' = CClosed /\ log_of (store y') = [].
Proof.
  intros y y'. split; [vm_compute; reflexivity|]. split; [vm_compute; reflexivity|].
  etrans; [apply (close_drops_queue (mkConfig 4096 1000 DurabilityMemory) [] [] [[7; 7; 7]]
    [EAppend 0; EAppend 0; EAppend 0; EAppend 0; EClose])|].
  - repeat constructor.
  - reflexivity.
  - vm_compute. reflexivity.
Defined.

(** ** Reading the log back *)

(** While offsets increase along the files, [Read] returns the first [limit]
    records at or after [from] of everything that is on disk. *)
Theorem Read_spec s from limit :
  0 < limit -> increasing (on_disk (dir s)) -> Forall (fun r => 0 <= Offset r < 2 ^ 64 - 1) (on_disk (dir s)) ->
  Read s from limit = inl (take (Z.to_nat limit) (List.filter (at_or_after from) (on_disk (dir s)))).
Proof. apply Read_take. Qed.

Lemma Read_spec_witness :
  let s := NewFSStore (mkConfig 40 1000 DurabilityMemory)
             [(2, encode_records [mkRecord 3 [5]]); (1, encode_records [mkRecord 1 [7]; mkRecord 2 [9; 9]])] in
  Read s 2 10 = inl [mkRecord 2 [9; 9]; mkRecord 3 [5]].
Proof.
  intros s. assert (on_disk (dir s) = [mkRecord 1 [7]; mkRecord 2 [9; 9]; mkRecord 3 [5]]) as E
    by (vm_compute; reflexivity).
  rewrite Read_spec; rewrite ?E; [vm_compute; reflexivity|lia| |].
  - repeat constructor.
  - repeat (apply Forall_cons; split; [cbn; lia|]). constructor.
Defined.

(** Two appenders take their numbers in one order and enqueue in the other, and
    the segment is full after one record: both appends succeed, both records
    are on disk, and reading from the start finds only one of them. *)
Example concurrent_appends_hide_a_record :
  let y := log_run (log_init (mkConfig 40 1000 DurabilityMemory) [] [replicate 20 1; replicate 20 2])
    [EAppend 0; EAppend 0; EAppend 0; EAppend 1; EAppend 1; EAppend 1; EAppend 1; EAppend 0;
     EFlush; EFlush; EFlush; EFlush; ESync] in
  appenders y = [ADone (1, None); ADone (2, None)] /\
  on_disk (dir (store y)) = [mkRecord 2 (replicate 20 2); mkRecord 1 (replicate 20 1)] /\
  Read (store y) 0 10 = inl [mkRecord 2 (replicate 20 2)].
Proof. vm_compute. split_and!; reflexivity. Qed.

(** A crash left a record cut short; the store reopens after the last whole
    record, appends behind the cut one and acknowledges, and the new record is
    not readable, now or after another restart. *)
Example append_after_torn_tail_is_lost :
  let d := [(1, encode_records [mkRecord 1 [7]] ++ take 15 (encode_record (mkRecord 2 (replicate 20 8))))] in
  let y := log_run (log_init (mkConfig 4096 1000 DurabilityFsync) d [[9; 9]])
             [EAppend 0; EAppend 0; EAppend 0; EAppend 0; EFlush; EFlush] in
  appenders y = [ADone (2, None)] /\ Read (store y) 0 10 = inl [mkRecord 1 [7]] /\
  Read (NewFSStore (mkConfig 4096 1000 DurabilityFsync) (dir (store y))) 0 10 = inl [mkRecord 1 [7]].
Proof. vm_compute. split_and!; reflexivity. Qed.

(** An append that passed the test for a closed store before [Close] sends on
    the closed channel: a panic. *)
Example append_racing_close_panics :
  let y := log_run (log_init (mkConfig 4096 1000 DurabilityMemory) [] [[7]])
             [EAppend 0; EClose; EClose; EAppend 0; EAppend 0; EAppend 0] in
  appenders y = [APanicked [7]].
Proof. vm_compute. reflexivity. Qed.

(** The flush that is meant to shorten the window of loss is never taken: the
    buffer cannot hold more than its size. *)
Lemma background_flush_is_dead pre id c buf p :
  StronglySorted Z.lt (map fst (pre ++ [(id, c)])) -> lenZ buf <= bufio_size ->
  (Z.shiftl 256 10 <? lenZ (bw_write (pre ++ [(id, c)]) id buf p).2) = false.
Proof.
  intros Hs Hb. destruct (bw_write_spec pre id c buf p Hs Hb) as (c' & buf' & -> & _ & Hb').
  apply Z.ltb_ge. exact Hb'.
Qed.
