(* ===== verification/OrderBook.v ===== *)
(** * Order matching (pkg/hft/matching/order.go, orderbook.go)

    Orders and price levels live in a heap and are linked by pointers as in the
    code: a doubly linked list of orders per level, one map from prices to
    levels per side, and pointers to the best level of each side.  A nil
    dereference is [Panic].  Fields that are only carried along (symbol, client
    id, timestamps) are left out; the trades handed to the callback are logged.
    The location of a price level that the pool hands out is an argument. *)
From S2P Require Import Prelude.

Module Matching.

Definition SideBuy : Z := 0.

Definition SideSell : Z := 1.

Definition OrderTypeLimit : Z := 0.

Definition OrderTypeMarket : Z := 1.

Definition TIFIOC : Z := 1.

Definition TIFFOK : Z := 2.

Definition StatusNew : Z := 0.

Definition StatusPartial : Z := 1.

Definition StatusFilled : Z := 2.

Definition StatusCanceled : Z := 3.

Abbreviation ptr := positive (only parsing).

Record Order : Type := mkOrder {
  ID : Z;
  Side : Z;
  Type_ : Z;
  Price : Z;
  Quantity : Z;
  FilledQty : Z;
  LeavesQty : Z;
  Status : Z;
  TimeInForce : Z;
  next : option ptr;
  prev : option ptr
}.

Record PriceLevel : Type := mkLevel {
  LPrice : Z;
  TotalQty : Z;
  Orders : option ptr;
  Count : Z;
  lnext : option ptr;
  lprev : option ptr
}.

Record Trade : Type := mkTrade {
  BuyOrderID : Z;
  SellOrderID : Z;
  TPrice : Z;
  TQuantity : Z
}.

Record OrderBook : Type := mkBook {
  bestBid : option ptr;
  bestAsk : option ptr;
  bids : gmap Z ptr;
  asks : gmap Z ptr;
  orders : gmap Z ptr;
  totalTrades : Z;
  totalVolume : Z;
  lastTradePrice : Z;
  sequence : Z;
  oheap : gmap ptr Order;
  lheap : gmap ptr PriceLevel;
  trades : list Trade
}.

Inductive book_error : Type :=
| NilOrder
| InvalidQuantity
| OrderNotFound.

Definition NewOrderBook : OrderBook :=
  mkBook None None ∅ ∅ ∅ 0 0 0 0 ∅ ∅ [].

(** ** Memory *)

Definition set_oheap (b : OrderBook) (h : gmap ptr Order) : OrderBook :=
  mkBook (bestBid b) (bestAsk b) (bids b) (asks b) (orders b) (totalTrades b) (totalVolume b)
    (lastTradePrice b) (sequence b) h (lheap b) (trades b).

Definition set_lheap (b : OrderBook) (h : gmap ptr PriceLevel) : OrderBook :=
  mkBook (bestBid b) (bestAsk b) (bids b) (asks b) (orders b) (totalTrades b) (totalVolume b)
    (lastTradePrice b) (sequence b) (oheap b) h (trades b).

Definition set_orders (b : OrderBook) (m : gmap Z ptr) : OrderBook :=
  mkBook (bestBid b) (bestAsk b) (bids b) (asks b) m (totalTrades b) (totalVolume b)
    (lastTradePrice b) (sequence b) (oheap b) (lheap b) (trades b).

Definition set_sides (b : OrderBook) (bb ba : option ptr) (bs as_ : gmap Z ptr) : OrderBook :=
  mkBook bb ba bs as_ (orders b) (totalTrades b) (totalVolume b)
    (lastTradePrice b) (sequence b) (oheap b) (lheap b) (trades b).

(** Dereferencing; a nil pointer panics. *)
Definition get_order (b : OrderBook) (p : option ptr) : outcome Order :=
  match p with
  | Some x => match oheap b !! x with Some o => Ret o | None => Panic end
  | None => Panic
  end.

Definition get_level (b : OrderBook) (p : option ptr) : outcome PriceLevel :=
  match p with
  | Some x => match lheap b !! x with Some l => Ret l | None => Panic end
  | None => Panic
  end.

Definition put_order (b : OrderBook) (x : ptr) (o : Order) : OrderBook := set_oheap b (<[x := o]> (oheap b)).

Definition put_level (b : OrderBook) (x : ptr) (l : PriceLevel) : OrderBook := set_lheap b (<[x := l]> (lheap b)).

(** ** Orders *)

Definition IsBuy (o : Order) : bool := Side o =? SideBuy.

Definition IsMarket (o : Order) : bool := Type_ o =? OrderTypeMarket.

Definition CanMatch (o : Order) (otherPrice otherSide otherType : Z) : bool :=
  if Side o =? otherSide then false
  else if IsMarket o || (otherType =? OrderTypeMarket) then true
  else if IsBuy o then otherPrice <=? Price o
  else Price o <=? otherPrice.

Definition Fill (o : Order) (qty : Z) : Order :=
  if (qty <=? 0) || (LeavesQty o <? qty) then o
  else
    let leaves := LeavesQty o -i64 qty in
    mkOrder (ID o) (Side o) (Type_ o) (Price o) (Quantity o) (FilledQty o +i64 qty) leaves
      (if leaves =? 0 then StatusFilled else StatusPartial) (TimeInForce o) (next o) (prev o).

Definition set_links (o : Order) (nx pv : option ptr) : Order :=
  mkOrder (ID o) (Side o) (Type_ o) (Price o) (Quantity o) (FilledQty o) (LeavesQty o) (Status o)
    (TimeInForce o) nx pv.

Definition set_status (o : Order) (st : Z) : Order :=
  mkOrder (ID o) (Side o) (Type_ o) (Price o) (Quantity o) (FilledQty o) (LeavesQty o) st
    (TimeInForce o) (next o) (prev o).

(** ** Price levels *)

Definition IsEmpty (l : PriceLevel) : bool := match Orders l with None => true | Some _ => false end.

Definition set_level (l : PriceLevel) (total : Z) (hd : option ptr) (count : Z) : PriceLevel :=
  mkLevel (LPrice l) total hd count (lnext l) (lprev l).

(** [for tail.next != nil]: the last order of a list; each order is visited once. *)
Fixpoint find_tail (fuel : nat) (b : OrderBook) (t : ptr) : outcome ptr :=
  match fuel with
  | O => Panic
  | S fuel =>
      o ← get_order b (Some t);
      match next o with None => Ret t | Some t' => find_tail fuel b t' end
  end.

Definition PriceLevel_AddOrder (b : OrderBook) (lp : ptr) (x : ptr) : outcome OrderBook :=
  l ← get_level b (Some lp);
  o ← get_order b (Some x);
  b ← match Orders l with
      | None => Ret (put_level (put_order b x (set_links o None None)) lp (set_level l (TotalQty l) (Some x) (Count l)))
      | Some hd =>
          t ← find_tail (S (size (oheap b))) b hd;
          to ← get_order b (Some t);
          let b := put_order b t (set_links to (Some x) (prev to)) in
          o ← get_order b (Some x);
          Ret (put_order b x (set_links o None (Some t)))
      end;
  l ← get_level b (Some lp);
  o ← get_order b (Some x);
  Ret (put_level b lp (set_level l (TotalQty l +i64 LeavesQty o) (Orders l) (i32 (Count l + 1)))).

Definition RemoveOrder (b : OrderBook) (lp : ptr) (x : ptr) : outcome (OrderBook * bool) :=
  o ← get_order b (Some x);
  b ← match prev o with
      | Some p => po ← get_order b (Some p); Ret (put_order b p (set_links po (next o) (prev po)))
      | None => l ← get_level b (Some lp); Ret (put_level b lp (set_level l (TotalQty l) (next o) (Count l)))
      end;
  o ← get_order b (Some x);
  b ← match next o with
      | Some n => no ← get_order b (Some n); Ret (put_order b n (set_links no (next no) (prev o)))
      | None => Ret b
      end;
  o ← get_order b (Some x);
  l ← get_level b (Some lp);
  let l := set_level l (TotalQty l -i64 LeavesQty o) (Orders l) (i32 (Count l - 1)) in
  let b := put_level b lp l in
  Ret (put_order b x (set_links o None None), IsEmpty l).

(** The pools' [Get] and [Put] reset the level. *)
Definition GetPriceLevel (b : OrderBook) (lp : ptr) (price : Z) : OrderBook :=
  put_level b lp (mkLevel price 0 None 0 None None).

Definition PutPriceLevel (b : OrderBook) (lp : ptr) : OrderBook :=
  put_level b lp (mkLevel 0 0 None 0 None None).

(** ** Best prices *)

(** The loops over the maps, whose order does not matter to a strict maximum. *)
Definition level_fold (b : OrderBook) (m : gmap Z ptr) (init : Z) (better : Z -> Z -> bool) : option ptr :=
  (fold_left (fun '(best, cur) '(_, lp) =>
     match lheap b !! lp with
     | Some l => if negb (IsEmpty l) && better (LPrice l) cur then (Some lp, LPrice l) else (best, cur)
     | None => (best, cur)
     end) (map_to_list m) (None, init)).1.

Definition updateBestBid (b : OrderBook) : OrderBook :=
  set_sides b (level_fold b (bids b) 0 (fun p cur => cur <? p)) (bestAsk b) (bids b) (asks b).

Definition updateBestAsk (b : OrderBook) : OrderBook :=
  set_sides b (bestBid b) (level_fold b (asks b) max_i64 (fun p cur => p <? cur)) (bids b) (asks b).

Definition updateBestPrices (b : OrderBook) (isBuy : bool) (lp : ptr) : outcome OrderBook :=
  l ← get_level b (Some lp);
  if isBuy then
    match bestBid b with
    | None => Ret (set_sides b (Some lp) (bestAsk b) (bids b) (asks b))
    | Some bb => lb ← get_level b (Some bb);
                 Ret (if LPrice lb <? LPrice l then set_sides b (Some lp) (bestAsk b) (bids b) (asks b) else b)
    end
  else
    match bestAsk b with
    | None => Ret (set_sides b (bestBid b) (Some lp) (bids b) (asks b))
    | Some ba => la ← get_level b (Some ba);
                 Ret (if LPrice l <? LPrice la then set_sides b (bestBid b) (Some lp) (bids b) (asks b) else b)
    end.

(** ** The book *)

Definition canMatchImmediately (b : OrderBook) (o : Order) : outcome bool :=
  if IsBuy o then
    match bestAsk b with
    | None => Ret false
    | Some ba => l ← get_level b (Some ba); Ret (IsMarket o || (LPrice l <=? Price o))
    end
  else
    match bestBid b with
    | None => Ret false
    | Some bb => l ← get_level b (Some bb); Ret (IsMarket o || (Price o <=? LPrice l))
    end.

Definition minInt64 (a b : Z) : Z := if a <? b then a else b.

Definition createTrade (aggressor resting : Order) (qty price : Z) : Trade :=
  if IsBuy aggressor then mkTrade (ID aggressor) (ID resting) price qty
  else mkTrade (ID resting) (ID aggressor) price qty.

Definition record_trade (b : OrderBook) (t : Trade) : OrderBook :=
  mkBook (bestBid b) (bestAsk b) (bids b) (asks b) (orders b) (u64 (totalTrades b + 1))
    (totalVolume b +i64 TQuantity t) (TPrice t) (sequence b) (oheap b) (lheap b) (trades b ++ [t]).

(** One turn of the loop over the orders of a level, and the loop. *)
Definition match_one (b : OrderBook) (x : ptr) (lp : ptr) (r : ptr) : outcome OrderBook :=
  o ← get_order b (Some x);
  ro ← get_order b (Some r);
  let matchQty := minInt64 (LeavesQty o) (LeavesQty ro) in
  let matchPrice := Price ro in
  let b := put_order b x (Fill o matchQty) in
  ro ← get_order b (Some r);
  let b := put_order b r (Fill ro matchQty) in
  l ← get_level b (Some lp);
  let b := put_level b lp (set_level l (TotalQty l +i64 (- matchQty)) (Orders l) (Count l)) in
  o ← get_order b (Some x);
  ro ← get_order b (Some r);
  let b := record_trade b (createTrade o ro matchQty matchPrice) in
  if LeavesQty ro =? 0 then
    '(b, _) ← RemoveOrder b lp r;
    Ret (set_orders b (delete (ID ro) (orders b)))
  else Ret b.

(** [cur] is the iterator; [Next] advances it before the order is touched. *)
Fixpoint match_level (fuel : nat) (b : OrderBook) (x : ptr) (lp : ptr) (cur : option ptr) : outcome OrderBook :=
  match fuel with
  | O => Ret b
  | S fuel =>
      match cur with
      | None => Ret b
      | Some r =>
          o ← get_order b (Some x);
          if 0 <? LeavesQty o then
            ro ← get_order b (Some r);
            let nx := next ro in
            b ← match_one b x lp r;
            match_level fuel b x lp nx
          else Ret b
      end
  end.

(** The level's side is read from its first order; the caller's level is empty. *)
Definition removeEmptyPriceLevel (b : OrderBook) (lp : ptr) : outcome OrderBook :=
  l ← get_level b (Some lp);
  o ← get_order b (Orders l);
  let b := if IsBuy o
           then updateBestBid (set_sides b (bestBid b) (bestAsk b) (delete (LPrice l) (bids b)) (asks b))
           else updateBestAsk (set_sides b (bestBid b) (bestAsk b) (bids b) (delete (LPrice l) (asks b))) in
  Ret (PutPriceLevel b lp).

Fixpoint match_loop (fuel : nat) (b : OrderBook) (x : ptr) (opposite : option ptr) : outcome OrderBook :=
  match fuel with
  | O => Ret b
  | S fuel =>
      match opposite with
      | None => Ret b
      | Some lp =>
          o ← get_order b (Some x);
          if 0 <? LeavesQty o then
            l ← get_level b (Some lp);
            ok ← (if IsMarket o then Ret true
                  else ho ← get_order b (Orders l); Ret (CanMatch o (LPrice l) (Side ho) 0));
            if ok : bool then
              b ← match_level (S (size (oheap b))) b x lp (Orders l);
              l ← get_level b (Some lp);
              if IsEmpty l then
                b ← removeEmptyPriceLevel b lp;
                match_loop fuel b x (if IsBuy o then bestAsk b else bestBid b)
              else Ret b
            else Ret b
          else Ret b
      end
  end.

Definition matchOrder (b : OrderBook) (x : ptr) : outcome OrderBook :=
  o ← get_order b (Some x);
  b ← match_loop (S (size (bids b) + size (asks b))) b x (if IsBuy o then bestAsk b else bestBid b);
  o ← get_order b (Some x);
  let o := if (TimeInForce o =? TIFIOC) && (0 <? LeavesQty o) then set_status o StatusCanceled else o in
  let o := if (TimeInForce o =? TIFFOK) && (FilledQty o <? Quantity o) then set_status o StatusCanceled else o in
  Ret (put_order b x o).

(** The level of the order's price, taken from the pool if there is none. *)
Definition level_for (b : OrderBook) (o : Order) (fresh : ptr) : OrderBook * ptr :=
  match (if IsBuy o then bids b else asks b) !! Price o with
  | Some lp => (b, lp)
  | None =>
      let b := GetPriceLevel b fresh (Price o) in
      (if IsBuy o then set_sides b (bestBid b) (bestAsk b) (<[Price o := fresh]> (bids b)) (asks b)
       else set_sides b (bestBid b) (bestAsk b) (bids b) (<[Price o := fresh]> (asks b)), fresh)
  end.

Definition addToBook (b : OrderBook) (x : ptr) (fresh : ptr) : outcome OrderBook :=
  o ← get_order b (Some x);
  let '(b, lp) := level_for b o fresh in
  b ← PriceLevel_AddOrder b lp x;
  updateBestPrices b (IsBuy o) lp.

Definition removeFromBook (b : OrderBook) (x : ptr) : outcome OrderBook :=
  o ← get_order b (Some x);
  match (if IsBuy o then bids b else asks b) !! Price o with
  | None => Ret b
  | Some lp =>
      '(b, isEmpty) ← RemoveOrder b lp x;
      if isEmpty : bool then
        let b := if IsBuy o then set_sides b (bestBid b) (bestAsk b) (delete (Price o) (bids b)) (asks b)
                 else set_sides b (bestBid b) (bestAsk b) (bids b) (delete (Price o) (asks b)) in
        let b := PutPriceLevel b lp in
        Ret (if IsBuy o then updateBestBid b else updateBestAsk b)
      else Ret b
  end.

(** The values [AddOrder] sets before matching. *)
Definition init_order (o : Order) (id : Z) : Order :=
  mkOrder id (Side o) (Type_ o) (Price o) (Quantity o) 0 (Quantity o) StatusNew (TimeInForce o) (next o) (prev o).

Definition AddOrder (b : OrderBook) (order : option ptr) (fresh : ptr) : outcome (OrderBook * option book_error) :=
  match order with
  | None => Ret (b, Some NilOrder)
  | Some x =>
      o ← get_order b (Some x);
      if Quantity o <=? 0 then Ret (b, Some InvalidQuantity)
      else
        let id := u64 (sequence b + 1) in
        let o := init_order o id in
        let b := mkBook (bestBid b) (bestAsk b) (bids b) (asks b) (<[id := x]> (orders b)) (totalTrades b)
                   (totalVolume b) (lastTradePrice b) id (<[x := o]> (oheap b)) (lheap b) (trades b) in
        now ← (if IsMarket o then Ret true else canMatchImmediately b o);
        b ← (if now : bool then matchOrder b x else Ret b);
        o ← get_order b (Some x);
        b ← (if (0 <? LeavesQty o) && (Type_ o =? OrderTypeLimit) then addToBook b x fresh else Ret b);
        Ret (b, None)
  end.

Definition CancelOrder (b : OrderBook) (orderID : Z) : outcome (OrderBook * option book_error) :=
  match orders b !! orderID with
  | None => Ret (b, Some OrderNotFound)
  | Some x =>
      b ← removeFromBook b x;
      o ← get_order b (Some x);
      let b := put_order b x (set_status o StatusCanceled) in
      Ret (set_orders b (delete orderID (orders b)), None)
  end.

(** ** Queries *)

Definition GetBBO (b : OrderBook) : outcome (Z * Z * Z * Z) :=
  '(bp, bq) ← match bestBid b with None => Ret (0, 0) | Some l => l ← get_level b (Some l); Ret (LPrice l, TotalQty l) end;
  '(ap, aq) ← match bestAsk b with None => Ret (0, 0) | Some l => l ← get_level b (Some l); Ret (LPrice l, TotalQty l) end;
  Ret (bp, bq, ap, aq).

(** The walk along the ladder of levels. *)
Fixpoint depth (levels : nat) (b : OrderBook) (link : PriceLevel -> option ptr) (cur : option ptr) : outcome (list (Z * Z)) :=
  match levels, cur with
  | S levels, Some _ =>
      l ← get_level b cur;
      rest ← depth levels b link (link l);
      Ret ((LPrice l, TotalQty l) :: rest)
  | _, _ => Ret []
  end.

Definition GetDepth (b : OrderBook) (levels : Z) : outcome (list (Z * Z) * list (Z * Z)) :=
  bs ← depth (Z.to_nat levels) b lprev (bestBid b);
  as_ ← depth (Z.to_nat levels) b lnext (bestAsk b);
  Ret (bs, as_).

(** ** Scenarios *)

(** A client's order, before the book numbers it. *)
Definition new_order (side type price qty tif : Z) : Order :=
  mkOrder 0 side type price qty 0 0 0 tif None None.

Inductive request : Type :=
| Submit (x : positive) (o : Order) (fresh : positive)
| Cancel (id : Z).

Definition serve (b : OrderBook) (r : request) : outcome OrderBook :=
  match r with
  | Submit x o fresh => '(b, _) ← AddOrder (put_order b x o) (Some x) fresh; Ret b
  | Cancel id => '(b, _) ← CancelOrder b id; Ret b
  end.

Fixpoint serve_all (b : OrderBook) (rs : list request) : outcome OrderBook :=
  match rs with
  | [] => Ret b
  | r :: rs => b ← serve b r; serve_all b rs
  end.

(** The queue of order ids and quantities of a level, in priority order. *)
Fixpoint queue_from (fuel : nat) (b : OrderBook) (cur : option positive) : list (Z * Z) :=
  match fuel, cur with
  | S fuel, Some x =>
      match oheap b !! x with
      | Some o => (ID o, LeavesQty o) :: queue_from fuel b (next o)
      | None => []
      end
  | _, _ => []
  end.

Definition queue_at (b : OrderBook) (m : gmap Z positive) (price : Z) : list (Z * Z) :=
  match m !! price with
  | Some lp => match lheap b !! lp with
               | Some l => queue_from (size (oheap b)) b (Orders l)
               | None => []
               end
  | None => []
  end.
End Matching.
