(* ===== verification/OrderBookSafety.v ===== *)
(** * Order matching: the book as queues

    The pointer structure of [OrderBook] represents one FIFO queue of resting
    orders per price and side.  The operations refine operations on these
    queues, or panic, and the theorems say exactly when. *)
From S2P Require Import Prelude OrderBook.

Import Matching.

(** ** Linked lists *)

(** A resting order and its open quantity. *)
Abbreviation entry := (positive * Z)%type (only parsing).

Definition hd_or (ls : list entry) (q : option positive) : option positive :=
  match ls with [] => q | e :: _ => Some e.1 end.

Definition lst_or (p : option positive) (ls : list entry) : option positive :=
  match last ls with None => p | Some e => Some e.1 end.

(** The order at [x] rests on this side at this price with [n] open. *)
Definition entry_ok (reg : gmap Z positive) (side price : Z) (e : entry) (o : Order) : Prop :=
  Side o = side /\ Price o = price /\ LeavesQty o = e.2 /\ 0 < e.2 /\ 0 <= FilledQty o /\
  FilledQty o + e.2 = Quantity o /\ Quantity o <= max_i64 /\ reg !! ID o = Some e.1.

Fixpoint seg (reg : gmap Z positive) (side price : Z) (h : gmap positive Order)
    (p : option positive) (ls : list entry) (q : option positive) : Prop :=
  match ls with
  | [] => True
  | e :: rest =>
      exists o, h !! e.1 = Some o /\ entry_ok reg side price e o /\ prev o = p /\ next o = hd_or rest q /\
        seg reg side price h (Some e.1) rest q
  end.

Lemma hd_or_app l1 l2 q : hd_or (l1 ++ l2) q = hd_or l1 (hd_or l2 q).
Proof. by destruct l1. Qed.

Lemma lst_or_cons p e ls : lst_or p (e :: ls) = lst_or (Some e.1) ls.
Proof. unfold lst_or. rewrite last_cons. by destruct (last ls). Qed.

Lemma lst_or_app p l1 l2 : lst_or p (l1 ++ l2) = lst_or (lst_or p l1) l2.
Proof. unfold lst_or. rewrite last_app. by destruct (last l2). Qed.

Lemma lst_or_nil l : lst_or None l = None -> l = [].
Proof. unfold lst_or. destruct (last l) eqn:E; [done|]. intros _. by apply last_None. Qed.

Section seg.
Context (side price : Z).

Lemma seg_app reg h p l1 l2 q :
  seg reg side price h p (l1 ++ l2) q <->
  seg reg side price h p l1 (hd_or l2 q) /\ seg reg side price h (lst_or p l1) l2 q.
Proof.
  revert p. induction l1 as [|e l1 IH]; intros p; cbn [app seg]; [tauto|].
  rewrite lst_or_cons, hd_or_app. split.
  - intros (o & H1 & H2 & H3 & H4 & H5). apply IH in H5 as [H5 H6]. split; [|done]. exists o. done.
  - intros [(o & H1 & H2 & H3 & H4 & H5) H6]. exists o. split_and!; try done. apply IH. done.
Qed.

(** The list depends only on the memory of its orders. *)
Lemma seg_frame reg h h' p ls q :
  (forall e, e ∈ ls -> h' !! e.1 = h !! e.1) -> seg reg side price h p ls q -> seg reg side price h' p ls q.
Proof.
  revert p. induction ls as [|e ls IH]; intros p Hf; cbn [seg]; [done|]. intros (o & H1 & H2).
  exists o. rewrite Hf by (apply elem_of_cons; by left). split; [done|]. split_and!; try apply H2.
  apply IH; [|apply H2]. intros e' He'. apply Hf. apply elem_of_cons. by right.
Qed.

Lemma seg_insert reg h p ls q x o :
  x ∉ ls.*1 -> seg reg side price h p ls q -> seg reg side price (<[x := o]> h) p ls q.
Proof.
  intros Hx. apply seg_frame. intros e He. apply lookup_insert_ne. intros ->. apply Hx. by apply list_elem_of_fmap_2.
Qed.

Lemma seg_lookup reg h p ls q e :
  seg reg side price h p ls q -> e ∈ ls -> exists o, h !! e.1 = Some o /\ entry_ok reg side price e o.
Proof.
  revert p. induction ls as [|e' ls IH]; intros p; [by intros _ ?%elem_of_nil|].
  intros (o & H1 & H2 & _ & _ & H5) [->|He]%elem_of_cons; [by exists o|]. by eapply IH.
Qed.

(** Registration of other orders does not matter. *)
Lemma seg_reg reg reg' h p ls q :
  (forall e i, e ∈ ls -> reg !! i = Some e.1 -> reg' !! i = Some e.1) ->
  seg reg side price h p ls q -> seg reg' side price h p ls q.
Proof.
  revert p. induction ls as [|e ls IH]; intros p Hr; [done|]. intros (o & H1 & H2 & H3 & H4 & H5).
  exists o. split_and!; try done.
  - unfold entry_ok in *. destruct H2 as (?&?&?&?&?&?&?&?). split_and!; try done.
    apply Hr; [apply elem_of_cons; by left|done].
  - apply IH; [|done]. intros e' i He'. apply Hr. apply elem_of_cons. by right.
Qed.

Lemma entry_ok_links reg e o nx pv : entry_ok reg side price e (set_links o nx pv) <-> entry_ok reg side price e o.
Proof. done. Qed.

(** Changing the pointer that leaves the last order. *)
Lemma seg_relink_last reg h p pre e o q q' :
  NoDup (pre ++ [e]).*1 -> h !! e.1 = Some o -> seg reg side price h p (pre ++ [e]) q ->
  seg reg side price (<[e.1 := set_links o q' (prev o)]> h) p (pre ++ [e]) q'.
Proof.
  rewrite fmap_app, NoDup_app. intros (_ & Hnd & _) Ho Hs. apply seg_app in Hs as [Hs1 Hs2].
  apply seg_app. split.
  - apply seg_insert; [|done]. intros Hin. by eapply Hnd; [|apply list_elem_of_singleton].
  - destruct Hs2 as (o' & H1 & H2 & H3 & H4 & _). assert (o' = o) as -> by congruence. exists (set_links o q' (prev o)).
    rewrite lookup_insert_eq. split_and!; try done.
Qed.

(** Changing the pointer back from the first order. *)
Lemma seg_relink_first reg h p p' e post o q :
  NoDup (e :: post).*1 -> h !! e.1 = Some o -> seg reg side price h p (e :: post) q ->
  seg reg side price (<[e.1 := set_links o (next o) p']> h) p' (e :: post) q.
Proof.
  rewrite fmap_cons, NoDup_cons. intros [Hni _] Ho (o' & H1 & H2 & H3 & H4 & H5).
  assert (o' = o) as -> by congruence. exists (set_links o (next o) p'). rewrite lookup_insert_eq. split_and!; try done. by apply seg_insert.
Qed.
End seg.

(** ** Levels *)

(** Everything about an order but its place in a list. *)
Definition data (o : Order) : Order := set_links o None None.

Definition open_qty (ls : list entry) : Z := sumZ ls.*2.

Definition level_rep (b : OrderBook) (lp : positive) (side price : Z) (ls : list entry) : Prop :=
  exists l, lheap b !! lp = Some l /\ LPrice l = price /\ Orders l = hd_or ls None /\
    TotalQty l = i64 (open_qty ls) /\ Count l = i32 (Z.of_nat (length ls)) /\ lnext l = None /\ lprev l = None /\
    NoDup ls.*1 /\ seg (orders b) side price (oheap b) None ls None.

(** Books that differ only in memory. *)
Definition same_book (b b' : OrderBook) : Prop :=
  bestBid b' = bestBid b /\ bestAsk b' = bestAsk b /\ bids b' = bids b /\ asks b' = asks b /\
  orders b' = orders b /\ totalTrades b' = totalTrades b /\ totalVolume b' = totalVolume b /\
  lastTradePrice b' = lastTradePrice b /\ sequence b' = sequence b /\ trades b' = trades b.

Lemma same_book_trans b1 b2 b3 : same_book b1 b2 -> same_book b2 b3 -> same_book b1 b3.
Proof. unfold same_book. intuition congruence. Qed.

Lemma data_insert (h : gmap positive Order) x o o' :
  h !! x = Some o -> data o' = data o -> data <$> <[x := o']> h = data <$> h.
Proof.
  intros Hx Hd. rewrite fmap_insert, Hd. apply insert_id. by rewrite lookup_fmap, Hx.
Qed.

Lemma wrap_absorb w a b : wrap_signed w (wrap_signed w a + b) = wrap_signed w (a + b).
Proof.
  unfold wrap_signed. f_equal.
  replace ((a + 2 ^ (w - 1)) mod 2 ^ w - 2 ^ (w - 1) + b + 2 ^ (w - 1)) with ((a + 2 ^ (w - 1)) mod 2 ^ w + b) by lia.
  rewrite Zplus_mod_idemp_l. f_equal. lia.
Qed.

Lemma i32_absorb a b : i32 (i32 a + b) = i32 (a + b).
Proof. apply wrap_absorb. Qed.

Lemma get_order_some b x o : oheap b !! x = Some o -> get_order b (Some x) = Ret o.
Proof. unfold get_order. by intros ->. Qed.

Lemma get_level_some b x l : lheap b !! x = Some l -> get_level b (Some x) = Ret l.
Proof. unfold get_level. by intros ->. Qed.

Lemma ret_bind {A B} (a : A) (f : A -> outcome B) : (Ret a ≫= f) = f a.
Proof. done. Qed.

(** Walking to the end of a list. *)
Lemma find_tail_spec b side price e ls : forall p fuel,
  seg (orders b) side price (oheap b) p (e :: ls) None -> (length ls < fuel)%nat ->
  exists t, find_tail fuel b e.1 = Ret t /\ lst_or None (e :: ls) = Some t.
Proof.
  revert e. induction ls as [|e' ls IH]; intros e p [|fuel] Hs Hf; try (simpl in Hf; lia);
    destruct Hs as (o & H1 & _ & _ & H4 & H5); cbn [find_tail]; rewrite (get_order_some _ _ _ H1), ret_bind, H4; cbn [hd_or].
  - by exists e.1.
  - destruct (IH e' (Some e.1) fuel) as (t & -> & E); [done|simpl in Hf; lia|]. exists t. split; [done|].
    rewrite !lst_or_cons. by rewrite lst_or_cons in E.
Qed.

(** A list of distinct orders is no longer than the memory. *)
Lemma seg_size reg side price h p ls q : NoDup ls.*1 -> seg reg side price h p ls q -> (length ls <= size h)%nat.
Proof.
  intros Hnd Hs. rewrite <- (length_fmap fst), <- (size_list_to_set (C := gset positive)) by done.
  rewrite <- size_dom. apply subseteq_size. intros x Hx. apply elem_of_list_to_set, list_elem_of_fmap in Hx as (e & -> & He).
  destruct (seg_lookup _ _ _ _ _ _ _ _ Hs He) as (o & Ho & _). by apply elem_of_dom.
Qed.

(** ** Adding to and removing from a level *)

Lemma lookup_data (h h' : gmap positive Order) x o :
  data <$> h' = data <$> h -> h !! x = Some o -> exists o', h' !! x = Some o' /\ data o' = data o.
Proof.
  intros E Hx. assert ((data <$> h') !! x = Some (data o)) as H by (by rewrite E, lookup_fmap, Hx).
  apply lookup_fmap_Some in H as (o' & Ho & Hx'). by exists o'.
Qed.

Lemma data_fields o o' :
  data o' = data o -> ID o' = ID o /\ Side o' = Side o /\ Type_ o' = Type_ o /\ Price o' = Price o /\
    Quantity o' = Quantity o /\ FilledQty o' = FilledQty o /\ LeavesQty o' = LeavesQty o /\
    TimeInForce o' = TimeInForce o.
Proof. unfold data, set_links. intros E. by injection E. Qed.

(** The order joins the end of the queue. *)
Lemma PriceLevel_AddOrder_spec b lp side price ls x o :
  level_rep b lp side price ls -> oheap b !! x = Some o -> x ∉ ls.*1 ->
  entry_ok (orders b) side price (x, LeavesQty o) o ->
  exists b', PriceLevel_AddOrder b lp x = Ret b' /\ level_rep b' lp side price (ls ++ [(x, LeavesQty o)]) /\
    same_book b b' /\ data <$> oheap b' = data <$> oheap b /\
    (forall y, y ∉ x :: ls.*1 -> oheap b' !! y = oheap b !! y) /\
    (forall l, l <> lp -> lheap b' !! l = lheap b !! l).
Proof.
  intros (l & Hl & Hp & Ho & Ht & Hc & Hn1 & Hn2 & Hnd & Hs) Hx Hni Hok.
  assert (forall l' b1, lheap b1 !! lp = Some l' -> oheap b1 !! x = Some (set_links o None (lst_or None ls)) ->
    LPrice l' = price -> Orders l' = hd_or (ls ++ [(x, LeavesQty o)]) None -> TotalQty l' = TotalQty l -> Count l' = Count l ->
    lnext l' = None -> lprev l' = None ->
    orders b1 = orders b -> seg (orders b) side price (oheap b1) None (ls ++ [(x, LeavesQty o)]) None ->
    level_rep (put_level b1 lp (set_level l' (TotalQty l' +i64 LeavesQty o) (Orders l') (i32 (Count l' + 1)))) lp side price
      (ls ++ [(x, LeavesQty o)])) as Hfin.
  { intros l' b1 Hl' Hx' E1 E2 E3 E4 E5 E6 E7 Hs'.
    exists (set_level l' (TotalQty l' +i64 LeavesQty o) (Orders l') (i32 (Count l' + 1))).
    cbn. rewrite lookup_insert_eq. split_and!; try done.
    - rewrite E3, Ht. unfold open_qty. rewrite fmap_app, sumZ_app. cbn. wrap_eq.
    - rewrite E4, Hc, i32_absorb, length_app. cbn. f_equal. lia.
    - rewrite fmap_app. apply NoDup_app. split_and!; [done| |apply NoDup_singleton].
      intros y Hy Hy'. apply list_elem_of_singleton in Hy'. by subst.
    - by rewrite E7. }
  unfold PriceLevel_AddOrder. rewrite (get_level_some _ _ _ Hl), ret_bind, (get_order_some _ _ _ Hx), ret_bind, Ho.
  destruct ls as [|e ls _] using rev_ind.
  - cbn [hd_or]. rewrite ret_bind. set (b1 := put_level _ _ _).
    assert (lheap b1 !! lp = Some (set_level l (TotalQty l) (Some x) (Count l))) as Hl1 by apply lookup_insert_eq.
    assert (oheap b1 !! x = Some (set_links o None None)) as Hx1 by apply lookup_insert_eq.
    rewrite (get_level_some _ _ _ Hl1), ret_bind, (get_order_some _ _ _ Hx1), ret_bind.
    eexists. split; [done|]. split_and!.
    + apply (Hfin _ b1 Hl1 Hx1); try done. cbn. exists (set_links o None None). rewrite lookup_insert_eq. done.
    + done.
    + cbn. by apply (data_insert _ _ o).
    + intros y Hy. cbn. apply lookup_insert_ne. intros ->. apply Hy. apply elem_of_cons. by left.
    + intros l' Hne. cbn. by rewrite !lookup_insert_ne.
  - assert (hd_or (ls ++ [e]) None = Some (hd e (ls ++ [e])).1) as Ehd by (by destruct ls).
    rewrite Ehd.
    assert (exists e0 ls0, ls ++ [e] = e0 :: ls0) as (e1 & ls0 & E0) by (destruct ls; eauto).
    rewrite E0 in Ehd |- *. cbn [hd].
    destruct (find_tail_spec b side price e1 ls0 None (S (size (oheap b)))) as (t & -> & Et).
    { by rewrite <- E0. }
    { assert (length (e1 :: ls0) <= size (oheap b))%nat; [|simpl in *; lia]. rewrite <- E0. by eapply seg_size. }
    rewrite <- E0, lst_or_app in Et. cbn in Et. injection Et as <-. rewrite ret_bind, <- !E0.
    destruct (seg_lookup _ _ _ _ _ _ _ e Hs) as (to & Hto & Htok); [apply elem_of_app; right; by apply list_elem_of_singleton|].
    rewrite (get_order_some _ _ _ Hto), ret_bind.
    assert (x <> e.1) as Hxe.
    { intros ->. apply Hni. rewrite fmap_app. apply elem_of_app. right. by apply list_elem_of_singleton. }
    set (b1 := put_order b e.1 _).
    assert (oheap b1 !! x = Some o) as Hx1 by (cbn; by rewrite lookup_insert_ne).
    rewrite (get_order_some _ _ _ Hx1), !ret_bind. set (b2 := put_order b1 x _).
    assert (lheap b2 !! lp = Some l) as Hl2 by done.
    assert (oheap b2 !! x = Some (set_links o None (Some e.1))) as Hx2 by apply lookup_insert_eq.
    rewrite (get_level_some _ _ _ Hl2), ret_bind, (get_order_some _ _ _ Hx2), ret_bind.
    eexists. split; [done|]. split_and!.
    + apply (Hfin l b2 Hl2); try done.
      * rewrite Hx2, lst_or_app. done.
      * by rewrite Ho, E0.
      * apply seg_app. split.
        -- cbn [hd_or fst]. apply seg_insert; [done|]. by eapply seg_relink_last.
        -- rewrite lst_or_app. cbn. exists (set_links o None (Some e.1)). rewrite lookup_insert_eq. done.
    + done.
    + cbn. rewrite (data_insert _ x o) by done. by apply (data_insert _ _ to).
    + intros y Hy. cbn. apply not_elem_of_cons in Hy as [Hy1 Hy2]. rewrite !lookup_insert_ne; [done| |done].
      intros <-. apply Hy2. rewrite fmap_app. apply elem_of_app. right. by apply list_elem_of_singleton.
    + intros l' Hne. cbn. by rewrite lookup_insert_ne.
Qed.


(** A level with the order [x] anywhere in its list; nothing is said about the
    open quantity of [x], which may be used up. *)
Record level_at (b : OrderBook) (lp : positive) (side price : Z) (pre : list entry) (x : positive) (o : Order)
    (post : list entry) (l : PriceLevel) : Prop := {
  la_level : lheap b !! lp = Some l;
  la_price : LPrice l = price;
  la_head : Orders l = hd_or pre (Some x);
  la_total : TotalQty l = i64 (open_qty (pre ++ post) + LeavesQty o);
  la_count : Count l = i32 (Z.of_nat (length (pre ++ post)) + 1);
  la_links : lnext l = None /\ lprev l = None;
  la_nodup : NoDup (x :: (pre ++ post).*1);
  la_order : oheap b !! x = Some o /\ prev o = lst_or None pre /\ next o = hd_or post None;
  la_pre : seg (orders b) side price (oheap b) None pre (Some x);
  la_post : seg (orders b) side price (oheap b) (Some x) post None
}.

Lemma level_rep_at b lp side price pre x n post :
  level_rep b lp side price (pre ++ (x, n) :: post) ->
  exists l o, level_at b lp side price pre x o post l /\ entry_ok (orders b) side price (x, n) o.
Proof.
  intros (l & Hl & Hp & Ho & Ht & Hc & Hn1 & Hn2 & Hnd & Hs). apply seg_app in Hs as [Hs1 Hs2].
  destruct Hs2 as (o & H1 & H2 & H3 & H4 & H5). exists l, o. split; [|done].
  pose proof H2 as (_ & _ & Hlv & _). cbn in Hlv. constructor; try done.
  - by rewrite Ho, hd_or_app.
  - rewrite Ht, Hlv. unfold open_qty. rewrite !fmap_app, fmap_cons, !sumZ_app.
    change (sumZ (?a :: ?r)) with (a + sumZ r). cbn [snd]. f_equal. lia.
  - rewrite Hc, !length_app. cbn. f_equal. lia.
  - rewrite fmap_app in Hnd |- *. cbn in Hnd. by rewrite <- Permutation_middle in Hnd.
Qed.

(** The heap after the unlinking of [x]: first step, the pointer of the
    predecessor or the head of the level. *)
Lemma unlink_prev b lp side price pre x o post l :
  level_at b lp side price pre x o post l ->
  exists b1 l1,
    match prev o with
    | Some p => po ← get_order b (Some p); Ret (put_order b p (set_links po (next o) (prev po)))
    | None => l ← get_level b (Some lp); Ret (put_level b lp (set_level l (TotalQty l) (next o) (Count l)))
    end = Ret b1 /\
    lheap b1 !! lp = Some l1 /\ l1 = set_level l (TotalQty l) (hd_or pre (hd_or post None)) (Count l) /\
    oheap b1 !! x = Some o /\ seg (orders b) side price (oheap b1) None pre (hd_or post None) /\
    seg (orders b) side price (oheap b1) (Some x) post None /\ same_book b b1 /\
    data <$> oheap b1 = data <$> oheap b /\
    (forall y, y ∉ pre.*1 -> oheap b1 !! y = oheap b !! y) /\ (forall l, l <> lp -> lheap b1 !! l = lheap b !! l).
Proof.
  intros [Hl Hp Ho Ht Hc Hlk Hnd (Hx & Hpv & Hnx) Hpre Hpost]. rewrite Hpv, Hnx.
  destruct pre as [|[p np] pre _] using rev_ind.
  - cbn [lst_or last hd_or]. rewrite (get_level_some _ _ _ Hl), ret_bind. eexists _, _. split; [done|]. cbn.
    rewrite lookup_insert_eq. split_and!; try done. intros l' Hne. by rewrite lookup_insert_ne.
  - rewrite lst_or_app. cbn [lst_or last fst].
    assert ((p, np) ∈ pre ++ [(p, np)]) as Hin by (apply elem_of_app; right; by apply list_elem_of_singleton).
    destruct (seg_lookup _ _ _ _ _ _ _ _ Hpre Hin) as (po & Hpo & Hok). cbn in Hpo.
    rewrite (get_order_some _ _ _ Hpo), ret_bind. apply NoDup_cons in Hnd as [Hxn Hnd]. rewrite fmap_app in Hxn, Hnd.
    apply not_elem_of_app in Hxn as [Hxn1 Hxn2]. apply NoDup_app in Hnd as (Hnd1 & Hnd2 & Hnd3).
    assert (p <> x) as Hpx. { intros ->. apply Hxn1. by apply (list_elem_of_fmap_2 fst _ (x, np)). }
    eexists _, l. split; [done|]. cbn. split_and!; try done.
    + destruct l. cbn in *. rewrite Ho. unfold set_level. cbn. f_equal. by rewrite !hd_or_app.
    + by rewrite lookup_insert_ne.
    + apply (seg_relink_last side price _ _ None pre (p, np) po (Some x)); try done.
    + apply seg_insert; [|done]. apply Hnd2. by apply (list_elem_of_fmap_2 fst _ (p, np)).
    + by apply (data_insert _ _ po).
    + intros y Hy. apply lookup_insert_ne. intros <-. apply Hy. by apply (list_elem_of_fmap_2 fst _ (p, np)).
Qed.

Lemma RemoveOrder_spec b lp side price pre x o post l :
  level_at b lp side price pre x o post l ->
  exists b', RemoveOrder b lp x = Ret (b', match pre ++ post with [] => true | _ => false end) /\
    level_rep b' lp side price (pre ++ post) /\
    same_book b b' /\ data <$> oheap b' = data <$> oheap b /\
    (forall y, y ∉ x :: (pre ++ post).*1 -> oheap b' !! y = oheap b !! y) /\
    (forall l, l <> lp -> lheap b' !! l = lheap b !! l).
Proof.
  intros H. destruct (unlink_prev _ _ _ _ _ _ _ _ _ H) as (b1 & l1 & E1 & Hl1 & El1 & Hx1 & Hpre1 & Hpost1 & Hsb1 & Hd1 & Hf1 & Hlf1).
  destruct H as [Hl Hp Ho Ht Hc Hlk Hnd (Hx & Hpv & Hnx) Hpre Hpost].
  unfold RemoveOrder. rewrite (get_order_some _ _ _ Hx), ret_bind, E1, ret_bind, (get_order_some _ _ _ Hx1), ret_bind.
  apply NoDup_cons in Hnd as [Hxn Hnd]. rewrite fmap_app in Hxn, Hnd. apply not_elem_of_app in Hxn as [Hxn1 Hxn2].
  apply NoDup_app in Hnd as (Hnd1 & Hnd2 & Hnd3).
  assert (exists b2, match next o with
      | Some n => no ← get_order b1 (Some n); Ret (put_order b1 n (set_links no (next no) (prev o)))
      | None => Ret b1
      end = Ret b2 /\ lheap b2 = lheap b1 /\ oheap b2 !! x = Some o /\
      seg (orders b) side price (oheap b2) None (pre ++ post) None /\ same_book b1 b2 /\
      data <$> oheap b2 = data <$> oheap b1 /\ (forall y, y ∉ post.*1 -> oheap b2 !! y = oheap b1 !! y))
    as (b2 & -> & Hl2 & Hx2 & Hs2 & Hsb2 & Hd2 & Hf2).
  { rewrite Hnx, Hpv. destruct post as [|[n nn] post]; cbn [hd_or fst].
    - exists b1. split_and!; try done. by rewrite app_nil_r.
    - destruct (seg_lookup _ _ _ _ _ _ _ (n, nn) Hpost1) as (no & Hno & Hok); [apply elem_of_cons; by left|]. cbn in Hno.
      rewrite (get_order_some _ _ _ Hno), ret_bind. eexists. split; [done|]. cbn. split_and!; try done.
      + rewrite lookup_insert_ne; [done|]. intros <-. apply Hxn2. apply elem_of_cons. by left.
      + apply seg_app. split.
        * cbn [hd_or fst]. apply seg_insert; [|done]. intros Hin. eapply Hnd2; [exact Hin|]. apply elem_of_cons. by left.
        * apply (seg_relink_first side price _ _ (Some x) _ (n, nn)); done.
      + by apply (data_insert _ _ no).
      + intros y Hy. apply lookup_insert_ne. intros <-. apply Hy. apply elem_of_cons. by left. }
  rewrite ret_bind, (get_order_some _ _ _ Hx2), ret_bind. rewrite <- Hl2 in Hl1. rewrite (get_level_some _ _ _ Hl1), ret_bind.
  rewrite El1. cbn [set_level TotalQty Orders Count]. eexists. split.
  { do 2 f_equal. unfold IsEmpty. cbn. rewrite <- hd_or_app. by destruct (pre ++ post). }
  split_and!.
  - eexists. cbn. rewrite lookup_insert_eq. split; [done|]. cbn. rewrite <- hd_or_app.
    destruct Hsb1 as (_ & _ & _ & _ & Eo1 & _), Hsb2 as (_ & _ & _ & _ & Eo2 & _). split_and!; try done; try apply Hlk.
    + rewrite Ht. unfold Z.sub. rewrite i64_absorb. f_equal. lia.
    + rewrite Hc. unfold Z.sub. rewrite i32_absorb. f_equal. lia.
    + rewrite fmap_app. apply NoDup_app. done.
    + rewrite Eo2, Eo1. apply seg_insert; [|done]. rewrite fmap_app. apply not_elem_of_app. done.
  - destruct Hsb1 as (?&?&?&?&?&?&?&?&?&?), Hsb2 as (?&?&?&?&?&?&?&?&?&?).
    unfold same_book. cbn. split_and!; congruence.
  - cbn. rewrite (data_insert _ x o) by done. by rewrite Hd2.
  - intros y Hy. apply not_elem_of_cons in Hy as [Hy1 Hy2]. rewrite fmap_app in Hy2. apply not_elem_of_app in Hy2 as [Hy2 Hy3].
    cbn. rewrite lookup_insert_ne by done. by rewrite Hf2, Hf1.
  - intros l' Hne. cbn. rewrite lookup_insert_ne by done. rewrite Hl2. by apply Hlf1.
Qed.

(** ** Matching at one price *)

(** Quantity [q] against a queue, first come first served: what remains of the
    queue, and the executions in order. *)
Fixpoint consume (q : Z) (ls : list entry) : list entry :=
  match ls with
  | [] => []
  | (x, n) :: rest => if q <=? 0 then ls else if n <=? q then consume (q - n) rest else (x, n - q) :: rest
  end.

Fixpoint fills (q : Z) (ls : list entry) : list entry :=
  match ls with
  | [] => []
  | (x, n) :: rest => if q <=? 0 then [] else (x, Z.min q n) :: fills (q - n) rest
  end.

Definition id_of (b : OrderBook) (x : positive) : Z := match oheap b !! x with Some o => ID o | None => 0 end.

Definition trade_of (b : OrderBook) (x : positive) (buy : bool) (price : Z) (f : entry) : Trade :=
  if buy then mkTrade (id_of b x) (id_of b f.1) price f.2 else mkTrade (id_of b f.1) (id_of b x) price f.2.

(** Open and filled quantities add up. *)
Definition balanced (o : Order) : Prop :=
  0 <= FilledQty o /\ 0 <= LeavesQty o /\ FilledQty o + LeavesQty o = Quantity o /\ Quantity o <= max_i64.

Lemma Fill_spec o k :
  balanced o -> 0 < k <= LeavesQty o ->
  Fill o k = mkOrder (ID o) (Side o) (Type_ o) (Price o) (Quantity o) (FilledQty o + k) (LeavesQty o - k)
    (if LeavesQty o - k =? 0 then StatusFilled else StatusPartial) (TimeInForce o) (next o) (prev o).
Proof.
  intros (H1 & H2 & H3 & H4) Hk. unfold Fill.
  destruct (Z.leb_spec k 0); [lia|]. destruct (Z.ltb_spec (LeavesQty o) k); [lia|]. cbn [orb].
  rewrite !i64_id by (widths; lia). done.
Qed.

(** What a step against level [lp] with the orders [ls] leaves alone. *)
Record mframe (b b' : OrderBook) (x lp : positive) (ls : list entry) : Prop := {
  mf_sides : bestBid b' = bestBid b /\ bestAsk b' = bestAsk b /\ bids b' = bids b /\ asks b' = asks b /\ sequence b' = sequence b;
  mf_levels : forall l, l <> lp -> lheap b' !! l = lheap b !! l;
  mf_orders : forall y, y ∉ x :: ls.*1 -> oheap b' !! y = oheap b !! y;
  mf_ids : forall y, id_of b' y = id_of b y;
  mf_reg : forall i y, y ∉ ls.*1 -> orders b !! i = Some y -> orders b' !! i = Some y;
  mf_reg' : forall i y, orders b' !! i = Some y -> orders b !! i = Some y
}.

Lemma mframe_refl b x lp ls : mframe b b x lp ls.
Proof. by constructor. Qed.

Lemma mframe_trans b1 b2 b3 x lp ls ls' :
  (forall y, y ∈ ls'.*1 -> y ∈ ls.*1) ->
  mframe b1 b2 x lp ls -> mframe b2 b3 x lp ls' -> mframe b1 b3 x lp ls.
Proof.
  intros Hsub [A1 A2 A3 A4 A5 A6] [B1 B2 B3 B4 B5 B6]. constructor.
  - split_and!; etrans; [apply B1|apply A1|apply B1|apply A1|apply B1|apply A1|apply B1|apply A1|apply B1|apply A1].
  - intros l Hl. by rewrite B2, A2.
  - intros y Hy. apply not_elem_of_cons in Hy as [Hy1 Hy2].
    rewrite B3, A3; [done|by apply not_elem_of_cons|]. apply not_elem_of_cons. split; [done|]. intros Hin. apply Hy2, Hsub, Hin.
  - intros y. by rewrite B4, A4.
  - intros i y Hy Hi. apply B5; [|by apply A5]. intros Hin. apply Hy, Hsub, Hin.
  - intros i y Hi. by apply A6, B6.
Qed.

Lemma id_of_data b b' : data <$> oheap b' = data <$> oheap b -> forall y, id_of b' y = id_of b y.
Proof.
  intros E y. unfold id_of. assert ((data <$> oheap b') !! y = (data <$> oheap b) !! y) as H by (by rewrite E).
  rewrite !lookup_fmap in H. destruct (oheap b' !! y), (oheap b !! y); try done. cbn in H. by injection H as [= ? ?].
Qed.

(** One execution against the first order of the queue. *)
Lemma match_one_spec b x lp side price r n rest o :
  level_rep b lp side price ((r, n) :: rest) -> oheap b !! x = Some o -> x ∉ r :: rest.*1 ->
  balanced o -> 0 < LeavesQty o ->
  let k := Z.min (LeavesQty o) n in
  exists b', match_one b x lp r = Ret b' /\
    level_rep b' lp side price (if n <=? LeavesQty o then rest else (r, n - LeavesQty o) :: rest) /\
    oheap b' !! x = Some (Fill o k) /\ mframe b b' x lp ((r, n) :: rest) /\
    trades b' = trades b ++ [trade_of b x (IsBuy o) price (r, k)] /\ totalVolume b' = totalVolume b +i64 k /\
    (exists ro, oheap b !! r = Some ro /\ next ro = hd_or rest None).
Proof.
  intros Hlv Hx Hxn Hbal Hq k. pose proof (level_rep_at b lp side price [] r n rest Hlv) as (l & ro & Hat & Hok).
  pose proof Hat as [Hl Hp Hhd Ht Hc Hlk Hnd (Hr & Hpv & Hnx) _ Hpost]. cbn [app] in *.
  destruct Hok as (Es & Ep & El & Hn & Hf & Hsum & Hmax & Hreg). cbn in El, Hn, Hsum, Hreg.
  apply not_elem_of_cons in Hxn as [Hxr Hxrest].
  assert (minInt64 (LeavesQty o) (LeavesQty ro) = k) as Ek.
  { unfold minInt64, k. rewrite El. destruct (Z.ltb_spec (LeavesQty o) n); lia. }
  assert (balanced ro) as Hbro by (unfold balanced; lia).
  unfold match_one. rewrite (get_order_some _ _ _ Hx), ret_bind, (get_order_some _ _ _ Hr), ret_bind, Ek, Ep. cbn [Z.add].
  set (b1 := put_order b x (Fill o k)).
  assert (oheap b1 !! r = Some ro) as Hr1 by (cbn; by rewrite lookup_insert_ne).
  rewrite (get_order_some _ _ _ Hr1), ret_bind. set (b2 := put_order b1 r (Fill ro k)).
  assert (lheap b2 !! lp = Some l) as Hl2 by done. rewrite (get_level_some _ _ _ Hl2), ret_bind.
  set (l3 := set_level l (TotalQty l +i64 (- k)) (Orders l) (Count l)). set (b3 := put_level b2 lp l3).
  assert (oheap b3 !! x = Some (Fill o k)) as Hx3 by (cbn; rewrite lookup_insert_ne by done; apply lookup_insert_eq).
  assert (oheap b3 !! r = Some (Fill ro k)) as Hr3 by apply lookup_insert_eq.
  rewrite (get_order_some _ _ _ Hx3), ret_bind, (get_order_some _ _ _ Hr3), ret_bind.
  rewrite (Fill_spec ro k) in Hr3 |- * by (done || lia). set (ro' := mkOrder _ _ _ _ _ _ _ _ _ _ _) in *.
  set (t := createTrade (Fill o k) ro' k price).
  assert (t = trade_of b x (IsBuy o) price (r, k)) as Et.
  { unfold t, createTrade, trade_of, id_of. cbn [fst snd]. rewrite Hx, Hr, Fill_spec by (done || lia). done. }
  set (b4 := record_trade b3 t).
  assert (forall y, id_of b4 y = id_of b y) as Hids.
  { intros y. unfold id_of. cbn. destruct (decide (y = r)) as [->|Hyr]; [by rewrite lookup_insert_eq, Hr, Fill_spec by (done || lia)|].
    rewrite lookup_insert_ne by done. destruct (decide (y = x)) as [->|Hyx]; [by rewrite lookup_insert_eq, Hx, Fill_spec by (done || lia)|].
    by rewrite lookup_insert_ne. }
  assert (level_at b4 lp side price [] r ro' rest l3) as Hat4.
  { constructor; cbn; try done.
    - apply lookup_insert_eq.
    - rewrite Ht. change (foldr Z.add 0 rest.*2) with (open_qty rest). wrap_eq.
    - apply seg_insert; [|by apply seg_insert]. by apply NoDup_cons in Hnd as [? _]. }
  cbn [LeavesQty ro']. rewrite El. destruct (Z.leb_spec n (LeavesQty o)) as [Hle|Hgt].
  - replace (n - k =? 0) with true by lia. destruct (RemoveOrder_spec _ _ _ _ _ _ _ _ _ Hat4) as (b5 & -> & Hlv5 & Hsb5 & Hd5 & Hf5 & Hlf5).
    rewrite ret_bind. eexists. split; [done|]. destruct Hsb5 as (E1 & E2 & E3 & E4 & E5 & E6 & E7 & E8 & E9 & E10).
    assert (oheap b5 !! x = Some (Fill o k)) as Hx5.
    { rewrite Hf5; [done|]. cbn [app]. by apply not_elem_of_cons. }
    split_and!.
    + destruct Hlv5 as (l5 & ? & ? & ? & ? & ? & ? & ? & Hnd5 & Hs5). exists l5. split_and!; try done.
      eapply seg_reg; [|exact Hs5]. cbn [set_orders orders]. intros e i He Hi. rewrite E5 in Hi |- *.
      rewrite lookup_delete_ne; [done|]. intros <-. cbn in Hi. rewrite Hreg in Hi. injection Hi as ->.
      apply NoDup_cons in Hnd as [Hni _]. apply Hni. by apply list_elem_of_fmap_2.
    + done.
    + constructor; cbn [set_orders bestBid bestAsk bids asks sequence lheap oheap orders].
      * done.
      * intros l' Hne. rewrite Hlf5 by done. cbn. by rewrite lookup_insert_ne.
      * intros y Hy. rewrite fmap_cons in Hy. apply not_elem_of_cons in Hy as [Hy1 Hy2].
        rewrite Hf5 by done. apply not_elem_of_cons in Hy2 as [Hy2 _]. cbn in *. by rewrite !lookup_insert_ne.
      * intros y. transitivity (id_of b5 y); [done|]. by rewrite (id_of_data _ _ Hd5).
      * intros i y Hy Hi. rewrite E5. cbn. rewrite lookup_delete_ne; [done|]. intros <-. cbn in Hi. rewrite Hreg in Hi.
        injection Hi as <-. apply Hy. apply elem_of_cons. by left.
      * intros i y Hi. rewrite E5 in Hi. cbn in Hi. by apply lookup_delete_Some in Hi as [_ ?].
    + cbn [set_orders trades]. rewrite E10. cbn. by rewrite Et.
    + cbn [set_orders totalVolume]. rewrite E7. cbn. rewrite Et. unfold trade_of. by destruct (IsBuy o).
    + by exists ro.
  - replace (n - k =? 0) with false by lia. eexists. split; [done|]. split_and!.
    + exists l3. pose proof Hat4 as [Hl4 Hp4 Hhd4 Ht4 Hc4 Hlk4 Hnd4 (Hr4 & Hpv4 & Hnx4) _ Hpost4]. cbn [app] in *.
      split_and!; try done.
      * rewrite Ht4. cbn [LeavesQty ro']. unfold open_qty. rewrite fmap_cons. change (sumZ (?a :: ?c)) with (a + sumZ c). cbn [snd].
        f_equal. lia.
      * rewrite Hc4. cbn [length]. f_equal. lia.
      * apply Hlk.
      * apply Hlk.
      * exists ro'. split; [done|]. split; [|done]. unfold entry_ok. cbn. lia || (split_and!; try done; lia).
    + done.
    + constructor; cbn; try done.
      * intros l' Hne. by rewrite lookup_insert_ne.
      * intros y Hy. apply not_elem_of_cons in Hy as [Hy1 Hy2]. apply not_elem_of_cons in Hy2 as [Hy2 _].
        cbn in *. by rewrite !lookup_insert_ne.
    + cbn. by rewrite Et.
    + cbn. rewrite Et. unfold trade_of. by destruct (IsBuy o).
    + by exists ro.
Qed.

(** The same order, filled further. *)
Definition filled_by (o o' : Order) (k : Z) : Prop :=
  ID o' = ID o /\ Side o' = Side o /\ Type_ o' = Type_ o /\ Price o' = Price o /\ Quantity o' = Quantity o /\
  TimeInForce o' = TimeInForce o /\ LeavesQty o' = LeavesQty o - k /\ FilledQty o' = FilledQty o + k.

Lemma filled_by_refl o : filled_by o o (open_qty []).
Proof. unfold filled_by, open_qty, sumZ. cbn. split_and!; try done; lia. Qed.

Lemma match_level_stop fuel b x lp cur o :
  oheap b !! x = Some o -> LeavesQty o <= 0 -> match_level fuel b x lp cur = Ret b.
Proof.
  intros Hx Hl. destruct fuel, cur; try done. cbn [match_level]. rewrite (get_order_some _ _ _ Hx), ret_bind.
  by destruct (Z.ltb_spec 0 (LeavesQty o)); [lia|].
Qed.

Lemma open_qty_cons e ls : open_qty (e :: ls) = e.2 + open_qty ls.
Proof. done. Qed.

Lemma fills_stop q ls : q <= 0 -> fills q ls = [].
Proof. intros Hq. destruct ls as [|[x n] ls]; [done|]. cbn. by destruct (Z.leb_spec q 0); [|lia]. Qed.

Lemma fills_total q ls :
  0 <= q -> Forall (fun e => 0 < e.2) ls -> open_qty (fills q ls) = Z.min q (open_qty ls).
Proof.
  intros Hq Hf. revert q Hq. induction Hf as [|[x n] ls Hn Hf IH]; intros q Hq; [cbn; lia|]. cbn [fills].
  rewrite open_qty_cons. cbn [snd] in *. assert (0 <= open_qty ls) as H0.
  { apply sumZ_nonneg, Forall_fmap. eapply Forall_impl; [exact Hf|]. cbn. lia. }
  destruct (Z.leb_spec q 0); [cbn; lia|]. rewrite open_qty_cons. cbn [snd].
  destruct (Z.le_gt_cases n q); [rewrite IH by lia; lia|]. rewrite fills_stop by lia. cbn. lia.
Qed.

(** The quantity left in the queue, and the queue is used up exactly when the
    order asks for all of it. *)
Lemma consume_total q ls :
  0 <= q -> Forall (fun e => 0 < e.2) ls ->
  open_qty (consume q ls) = open_qty ls - open_qty (fills q ls) /\ Forall (fun e => 0 < e.2) (consume q ls).
Proof.
  intros Hq Hf. revert q Hq. induction Hf as [|[x n] ls Hn Hf IH]; intros q Hq; [done|]. cbn [consume fills].
  cbn [snd] in *. destruct (Z.leb_spec q 0).
  - split; [cbn; lia|by constructor].
  - destruct (Z.leb_spec n q).
    + destruct (IH (q - n)) as [E H']; [lia|]. split; [|done]. rewrite E, !open_qty_cons. cbn [snd]. lia.
    + rewrite (fills_stop (q - n)) by lia. split; [|constructor; [cbn; lia|done]].
      rewrite !open_qty_cons. cbn. unfold open_qty. cbn. lia.
Qed.

Lemma consume_nil q ls : 0 <= q -> Forall (fun e => 0 < e.2) ls -> ls <> [] -> consume q ls = [] <-> open_qty ls <= q.
Proof.
  intros Hq Hf Hne. destruct (consume_total q ls Hq Hf) as [E Hpos]. rewrite (fills_total q ls Hq Hf) in E. split.
  - intros Hc. rewrite Hc in E. cbn in E. lia.
  - intros Hle. assert (open_qty (consume q ls) = 0) as Hz by lia. destruct (consume q ls) as [|[x n] l]; [done|].
    apply Forall_cons in Hpos as [Hn Hpos]. rewrite open_qty_cons in Hz.
    assert (0 <= open_qty l). { apply sumZ_nonneg, Forall_fmap. eapply Forall_impl; [exact Hpos|]. cbn. lia. }
    cbn in *. lia.
Qed.

Lemma seg_positive reg side price h p ls q : seg reg side price h p ls q -> Forall (fun e => 0 < e.2) ls.
Proof.
  revert p. induction ls as [|e ls IH]; intros p; [constructor|]. intros (o & _ & (_ & _ & _ & H & _) & _ & _ & Hs).
  constructor; [done|]. by eapply IH.
Qed.

Lemma trade_of_frame b b' x lp ls buy price :
  mframe b b' x lp ls -> forall f, trade_of b' x buy price f = trade_of b x buy price f.
Proof. intros [_ _ _ Hid _ _] f. unfold trade_of. by rewrite !Hid. Qed.

(** The loop over a level executes the incoming order against the queue in
    order of arrival, and stops when either is used up. *)
Lemma match_level_spec side price x lp ls : forall fuel b o,
  level_rep b lp side price ls -> oheap b !! x = Some o -> x ∉ ls.*1 -> balanced o -> (length ls <= fuel)%nat ->
  exists b' o', match_level fuel b x lp (hd_or ls None) = Ret b' /\
    level_rep b' lp side price (consume (LeavesQty o) ls) /\ oheap b' !! x = Some o' /\ balanced o' /\
    filled_by o o' (open_qty (fills (LeavesQty o) ls)) /\ mframe b b' x lp ls /\
    trades b' = trades b ++ map (trade_of b x (IsBuy o) price) (fills (LeavesQty o) ls) /\
    i64 (totalVolume b') = i64 (totalVolume b + open_qty (fills (LeavesQty o) ls)).
Proof.
  induction ls as [|[r n] rest IH]; intros fuel b o Hlv Hx Hxn Hbal Hf.
  - exists b, o. split; [by destruct fuel|]. cbn [consume fills map].
    split_and!; try done; try apply filled_by_refl; try (by rewrite app_nil_r).
    cbn. f_equal. lia.
  - cbn [consume fills]. destruct (Z.leb_spec (LeavesQty o) 0) as [Hq|Hq].
    + exists b, o. rewrite (match_level_stop _ _ _ _ _ o) by done.
      split_and!; try done; try apply filled_by_refl; try (by rewrite app_nil_r). cbn. f_equal. lia.
    + destruct fuel as [|fuel]; [simpl in Hf; lia|]. cbn [hd_or fst match_level].
      rewrite (get_order_some _ _ _ Hx), ret_bind. destruct (Z.ltb_spec 0 (LeavesQty o)); [|lia].
      destruct (match_one_spec b x lp side price r n rest o Hlv Hx Hxn Hbal Hq) as (b1 & E1 & Hlv1 & Hx1 & Hm1 & Ht1 & Hv1 & ro & Hro & Hnx).
      rewrite (get_order_some _ _ _ Hro), ret_bind, E1, ret_bind, Hnx. set (k := Z.min (LeavesQty o) n) in *.
      assert (0 < n) as Hn. { destruct Hlv as (l & _ & _ & _ & _ & _ & _ & _ & _ & Hs). apply seg_positive in Hs. by inv Hs. }
      rewrite Fill_spec in Hx1 by (done || lia). set (o1 := mkOrder _ _ _ _ _ _ _ _ _ _ _) in Hx1.
      assert (balanced o1) as Hb1 by (unfold balanced in *; cbn; lia).
      cbn [fmap list_fmap] in Hxn. apply not_elem_of_cons in Hxn as [Hxr Hxrest].
      rewrite open_qty_cons. cbn [snd].
      destruct (Z.leb_spec n (LeavesQty o)) as [Hle|Hgt].
      * assert (LeavesQty o1 = LeavesQty o - n) as El1 by (cbn; lia).
        destruct (IH fuel b1 o1 Hlv1 Hx1 Hxrest Hb1) as (b2 & o2 & E2 & Hlv2 & Hx2 & Hb2 & Hfb & Hm2 & Ht2 & Hv2); [simpl in Hf; lia|].
        rewrite El1 in *. exists b2, o2. split_and!; try done.
        -- destruct Hfb as (F1 & F2 & F3 & F4 & F5 & F6 & F7 & F8). unfold filled_by. rewrite F1, F2, F3, F4, F5, F6, F7, F8. cbn. split_and!; try done; lia.
        -- eapply mframe_trans; [|exact Hm1|exact Hm2]. intros y Hy. apply elem_of_cons. by right.
        -- rewrite Ht2, Ht1, <- app_assoc. cbn [map app]. do 2 f_equal.
           change (IsBuy o1) with (IsBuy o). apply map_ext. intros f. by eapply trade_of_frame.
        -- rewrite Hv2, Hv1. wrap_eq.
      * rewrite (match_level_stop _ _ _ _ _ o1) by (done || (cbn; lia)). exists b1, o1.
        rewrite (fills_stop (LeavesQty o - n)) by lia. split_and!; try done.
        -- unfold filled_by. cbn. split_and!; try done; lia.
        -- rewrite Hv1, <- (Z.add_0_r (totalVolume b +i64 k)), i64_absorb. f_equal. cbn. lia.
Qed.

(** ** The whole book *)

Definition side_map (b : OrderBook) (buy : bool) : gmap Z positive := if buy then bids b else asks b.

Definition side_best (b : OrderBook) (buy : bool) : option positive := if buy then bestBid b else bestAsk b.

Definition side_of (buy : bool) : Z := if buy then SideBuy else SideSell.

(** Bids are ranked by price, asks by the opposite. *)
Definition rank (buy : bool) (p : Z) : Z := if buy then p else - p.

Record side_rep (b : OrderBook) (buy : bool) (Q : gmap Z (list entry)) : Prop := {
  sr_dom : forall p lp, side_map b buy !! p = Some lp -> is_Some (Q !! p);
  sr_levels : forall p ls, Q !! p = Some ls ->
    ls <> [] /\ exists lp, side_map b buy !! p = Some lp /\ level_rep b lp (side_of buy) p ls;
  sr_best : match side_best b buy with
            | None => side_map b buy = ∅
            | Some lp => exists p, side_map b buy !! p = Some lp /\
                forall p', is_Some (side_map b buy !! p') -> rank buy p' <= rank buy p
            end;
  sr_prices : forall p, is_Some (side_map b buy !! p) -> 0 < p < max_i64
}.

(** The queues of both sides, as [true] for bids and [false] for asks. *)
Abbreviation queues := (bool -> gmap Z (list entry)) (only parsing).

Record book_rep (b : OrderBook) (Q : queues) : Prop := {
  br_sides : forall buy, side_rep b buy (Q buy);
  br_uncrossed : forall p p', is_Some (bids b !! p) -> is_Some (asks b !! p') -> p < p';
  br_ids : forall i, is_Some (orders b !! i) -> 1 <= i <= sequence b;
  br_seq : 0 <= sequence b
}.

Definition upd (Q : queues) (buy : bool) (q : gmap Z (list entry)) : queues :=
  fun buy' => if Bool.eqb buy' buy then q else Q buy'.

Lemma level_rep_frame b b' lp side p ls :
  lheap b' !! lp = lheap b !! lp -> (forall y, y ∈ ls.*1 -> oheap b' !! y = oheap b !! y) ->
  (forall i y, y ∈ ls.*1 -> orders b !! i = Some y -> orders b' !! i = Some y) ->
  level_rep b lp side p ls -> level_rep b' lp side p ls.
Proof.
  intros El Eo Er (l & Hl & H1 & H2 & H3 & H4 & H5 & H6 & Hnd & Hs). exists l. rewrite El. split_and!; try done.
  eapply seg_reg; [|eapply seg_frame; [|exact Hs]].
  - intros e i He. apply Er. by apply list_elem_of_fmap_2.
  - intros e He. apply Eo. by apply list_elem_of_fmap_2.
Qed.

(** An order is in at most one queue, a level serves one price of one side. *)
Lemma level_rep_side b lp side p ls y n :
  level_rep b lp side p ls -> (y, n) ∈ ls -> exists o, oheap b !! y = Some o /\ Side o = side /\ Price o = p.
Proof.
  intros (l & _ & _ & _ & _ & _ & _ & _ & _ & Hs) Hin. destruct (seg_lookup _ _ _ _ _ _ _ _ Hs Hin) as (o & Ho & Hok).
  exists o. split; [done|]. by destruct Hok as (? & ? & _).
Qed.

Lemma queues_disjoint b lp lp' side side' p p' ls ls' y :
  level_rep b lp side p ls -> level_rep b lp' side' p' ls' -> y ∈ ls.*1 -> y ∈ ls'.*1 -> side = side' /\ p = p'.
Proof.
  intros H H' ([y1 n] & -> & Hy)%list_elem_of_fmap ([y2 n'] & Ey & Hy')%list_elem_of_fmap. cbn in Ey. subst y2.
  destruct (level_rep_side _ _ _ _ _ _ _ H Hy) as (o & Ho & <- & <-).
  destruct (level_rep_side _ _ _ _ _ _ _ H' Hy') as (o' & Ho' & <- & <-). cbn in *. by simplify_eq.
Qed.

Lemma levels_disjoint b lp side side' p p' ls ls' :
  level_rep b lp side p ls -> level_rep b lp side' p' ls' -> ls <> [] -> ls' <> [] -> side = side' /\ p = p'.
Proof.
  intros H H' Hne Hne'. pose proof H as (l & Hl & _ & Ho & _). pose proof H' as (l' & Hl' & _ & Ho' & _).
  assert (l' = l) as -> by congruence. destruct ls as [|e ls]; [done|]. destruct ls' as [|e' ls']; [done|].
  rewrite Ho in Ho'. cbn in Ho'. injection Ho' as E.
  apply (queues_disjoint b lp lp side side' p p' (e :: ls) (e' :: ls') e.1 H H');
    apply elem_of_cons; left; [done|congruence].
Qed.

Lemma side_of_inj buy buy' : side_of buy = side_of buy' -> buy = buy'.
Proof. by destruct buy, buy'. Qed.

(** ** Best prices *)

Definition better (buy : bool) (p c : Z) : bool := if buy then c <? p else p <? c.

Definition fold_best (b : OrderBook) (buy : bool) (l : list (Z * positive)) (acc : option positive * Z) :=
  fold_left (fun '(best, cur) '(_, lp) =>
     match lheap b !! lp with
     | Some l => if negb (IsEmpty l) && better buy (LPrice l) cur then (Some lp, LPrice l) else (best, cur)
     | None => (best, cur)
     end) l acc.

Lemma level_fold_list b (buy : bool) (l : list (Z * positive)) : forall best cur,
  (forall e, e ∈ l -> exists lv, lheap b !! e.2 = Some lv /\ LPrice lv = e.1 /\ IsEmpty lv = false) ->
  let r := fold_best b buy l (best, cur) in
  rank buy cur <= rank buy r.2 /\ (forall e, e ∈ l -> rank buy e.1 <= rank buy r.2) /\
  (r = (best, cur) \/ exists lp, (r.2, lp) ∈ l /\ r.1 = Some lp /\ rank buy cur < rank buy r.2).
Proof.
  induction l as [|[p lp] l IH]; intros best cur Hl.
  - cbn. split_and!; [lia|by intros e ?%elem_of_nil|by left].
  - destruct (Hl (p, lp)) as (lv & Hlv & Ep & He); [apply elem_of_cons; by left|]. cbn in Hlv, Ep.
    assert (forall e, e ∈ l -> exists lv, lheap b !! e.2 = Some lv /\ LPrice lv = e.1 /\ IsEmpty lv = false) as Hl'.
    { intros e Hin. apply Hl. apply elem_of_cons. by right. }
    assert (fold_best b buy ((p, lp) :: l) (best, cur) =
      fold_best b buy l (if better buy p cur then (Some lp, p) else (best, cur))) as ->.
    { unfold fold_best. cbn [fold_left]. by rewrite Hlv, He, Ep. }
    destruct (better buy p cur) eqn:Eb.
    + destruct (IH (Some lp) p Hl') as (H1 & H2 & H3).
      assert (rank buy cur < rank buy p) as Hlt by (unfold better in Eb; destruct buy; cbn in *; lia).
      cbv zeta. split_and!; [lia| |].
      * intros e Hin. apply elem_of_cons in Hin as [->|Hin]; [done|by apply H2].
      * right. destruct H3 as [->|(lp' & Hin & E & Hlt')].
        -- exists lp. split; [apply elem_of_cons; by left|done].
        -- exists lp'. split; [apply elem_of_cons; by right|]. split; [done|lia].
    + destruct (IH best cur Hl') as (H1 & H2 & H3).
      assert (rank buy p <= rank buy cur) as Hle by (unfold better in Eb; destruct buy; cbn in *; lia).
      cbv zeta. split_and!; [done| |].
      * intros e Hin. apply elem_of_cons in Hin as [->|Hin]; [cbn [fst]; lia|by apply H2].
      * destruct H3 as [->|(lp' & Hin & E & Hlt')]; [by left|]. right. exists lp'.
        split; [apply elem_of_cons; by right|done].
Qed.

(** Recomputing the best level of a side finds it. *)
Lemma level_fold_best b (buy : bool) (m : gmap Z positive) :
  (forall p lp, m !! p = Some lp -> 0 < p < max_i64 /\ exists lv, lheap b !! lp = Some lv /\ LPrice lv = p /\ IsEmpty lv = false) ->
  match level_fold b m (if buy then 0 else max_i64) (better buy) with
  | None => m = ∅
  | Some lp => exists p, m !! p = Some lp /\ forall p', is_Some (m !! p') -> rank buy p' <= rank buy p
  end.
Proof.
  intros Hm. unfold level_fold. set (init := if buy then 0 else max_i64).
  destruct (level_fold_list b buy (map_to_list m) None init) as (H1 & H2 & H3).
  { intros [p lp] Hin. apply elem_of_map_to_list in Hin. by destruct (Hm p lp Hin). }
  fold (fold_best b buy (map_to_list m) (None, init)). set (r := fold_best _ _ _ _) in *. destruct H3 as [E|(lp & Hin & E & Hlt)].
  - rewrite E. cbn. apply map_to_list_empty_iff. destruct (map_to_list m) as [|[p lp] l] eqn:El; [done|].
    specialize (H2 (p, lp)). rewrite E in H2. cbn in H2.
    assert ((p, lp) ∈ map_to_list m) as Hin by (rewrite El; apply elem_of_cons; by left).
    apply elem_of_map_to_list, Hm in Hin as [Hp _]. exfalso. destruct buy; cbn in *; specialize (H2 ltac:(apply elem_of_cons; by left)); lia.
  - rewrite E. exists r.2. split; [by apply elem_of_map_to_list|]. intros p' [lp' Hp'].
    apply (H2 (p', lp')). by apply elem_of_map_to_list.
Qed.

(** ** Resting and cancelling *)

(** No queue holds the order. *)
Definition not_resting (Q : queues) (x : positive) : Prop :=
  forall buy p ls, Q buy !! p = Some ls -> x ∉ ls.*1.

Definition unused_level (b : OrderBook) (lp : positive) : Prop :=
  forall buy p, side_map b buy !! p <> Some lp.

Lemma upd_same Q buy q : upd Q buy q buy = q.
Proof. unfold upd. by rewrite Bool.eqb_reflx. Qed.

Lemma upd_other Q buy q : upd Q buy q (negb buy) = Q (negb buy).
Proof. by destruct buy. Qed.

(** A side whose levels are untouched. *)
Lemma side_rep_frame b b' buy Q :
  side_rep b buy Q -> side_map b' buy = side_map b buy -> side_best b' buy = side_best b buy ->
  (forall p ls lp, Q !! p = Some ls -> side_map b buy !! p = Some lp -> level_rep b lp (side_of buy) p ls ->
     level_rep b' lp (side_of buy) p ls) ->
  side_rep b' buy Q.
Proof.
  intros [H1 H2 H3 H4] Em Eb Hlv. constructor; rewrite ?Em, ?Eb; try done.
  intros p ls Hp. destruct (H2 p ls Hp) as (Hne & lp & Hlp & Hrep). split; [done|]. exists lp. split; [done|]. by eapply Hlv.
Qed.

Lemma updateBestPrices_spec b buy lp l :
  lheap b !! lp = Some l ->
  match side_best b buy with
  | None => True
  | Some lb => exists l', lheap b !! lb = Some l'
  end ->
  exists b', updateBestPrices b buy lp = Ret b' /\
    side_best b' buy = match side_best b buy with
                       | None => Some lp
                       | Some lb => match lheap b !! lb with
                                    | Some l' => if better buy (LPrice l) (LPrice l') then Some lp else Some lb
                                    | None => Some lb
                                    end
                       end /\
    side_best b' (negb buy) = side_best b (negb buy) /\ bids b' = bids b /\ asks b' = asks b /\ orders b' = orders b /\
    oheap b' = oheap b /\ lheap b' = lheap b /\ sequence b' = sequence b /\ trades b' = trades b.
Proof.
  intros Hl Hb. unfold updateBestPrices. rewrite (get_level_some _ _ _ Hl), ret_bind.
  destruct buy; cbn [side_best negb better] in *.
  - destruct (bestBid b) as [lb|] eqn:Eb; [|eexists; split; [done|]; cbn; done]. destruct Hb as [l' Hl'].
    rewrite (get_level_some _ _ _ Hl'), ret_bind, Hl'. eexists. split; [done|].
    destruct (LPrice l' <? LPrice l) eqn:E; cbn; rewrite ?E; split_and!; try done; congruence.
  - destruct (bestAsk b) as [lb|] eqn:Eb; [|eexists; split; [done|]; cbn; done]. destruct Hb as [l' Hl'].
    rewrite (get_level_some _ _ _ Hl'), ret_bind, Hl'. eexists. split; [done|].
    destruct (LPrice l <? LPrice l') eqn:E; cbn; rewrite ?E; split_and!; try done; congruence.
Qed.

(** The level an order joins: the existing one of its price, or a new empty one. *)
Lemma addToBook_level b Q x o fresh :
  book_rep b Q -> oheap b !! x = Some o -> unused_level b fresh ->
  let buy := IsBuy o in
  let ls := default [] (Q buy !! Price o) in
  exists b1 lp,
    level_for b o fresh = (b1, lp) /\
    level_rep b1 lp (side_of buy) (Price o) ls /\
    side_map b1 buy = <[Price o := lp]> (side_map b buy) /\ side_map b1 (negb buy) = side_map b (negb buy) /\
    (forall s, side_best b1 s = side_best b s) /\ oheap b1 = oheap b /\ orders b1 = orders b /\
    sequence b1 = sequence b /\ trades b1 = trades b /\ (forall l, l <> lp -> lheap b1 !! l = lheap b !! l) /\
    (forall s p ls' lp', Q s !! p = Some ls' -> side_map b s !! p = Some lp' -> level_rep b lp' (side_of s) p ls' ->
       (s, p) <> (buy, Price o) -> lp' <> lp) /\
    (forall l, side_map b buy !! Price o = Some l -> l = lp).
Proof.
  intros Hb Hx Hfr buy ls. unfold ls, level_for. change (if IsBuy o then bids b else asks b) with (side_map b buy).
  change (IsBuy o) with buy.
  destruct (br_sides b Q Hb buy) as [S1 S2 S3 S4].
  destruct (side_map b buy !! Price o) as [lp|] eqn:El.
  - destruct (S1 _ _ El) as [ls0 E0]. destruct (S2 _ _ E0) as (Hne & lp' & El' & Hrep).
    assert (lp' = lp) as -> by congruence. exists b, lp. rewrite E0, (insert_id (side_map b buy)) by done. cbn [default id]. split_and!; try done.
    2: congruence.
    intros s p ls' lp' Hp Hlp Hrep' Hneq ->. destruct (sr_levels _ _ _ (br_sides b Q Hb s) _ _ Hp) as (Hne' & _).
    destruct (levels_disjoint _ _ _ _ _ _ _ _ Hrep Hrep' Hne Hne') as [Es Ep]. apply side_of_inj in Es. by subst.
  - assert (Q buy !! Price o = None) as E0.
    { destruct (Q buy !! Price o) as [ls0|] eqn:E0; [|done]. destruct (S2 _ _ E0) as (_ & lp & Hlp & _). congruence. }
    rewrite E0. cbn [default]. eexists _, fresh. split; [done|].
    destruct buy; cbn; split_and!; try done.
    all: try (intros [|]; done).
    all: try (intros l Hne; by rewrite lookup_insert_ne).
    all: try (eexists; cbn; rewrite lookup_insert_eq; split_and!; try done; constructor).
    all: intros s p ls' lp' Hp Hlp _ _ ->; by apply (Hfr s p).
Qed.

Lemma addToBook_spec b Q x o fresh :
  book_rep b Q -> oheap b !! x = Some o -> not_resting Q x -> unused_level b fresh ->
  let buy := IsBuy o in
  entry_ok (orders b) (side_of buy) (Price o) (x, LeavesQty o) o -> 0 < Price o < max_i64 ->
  (forall p, is_Some (side_map b (negb buy) !! p) -> rank buy (Price o) < rank buy p) ->
  exists b', addToBook b x fresh = Ret b' /\
    book_rep b' (upd Q buy (<[Price o := default [] (Q buy !! Price o) ++ [(x, LeavesQty o)]]> (Q buy))) /\
    data <$> oheap b' = data <$> oheap b /\ orders b' = orders b /\ sequence b' = sequence b /\ trades b' = trades b.
Proof.
  intros Hb Hx Hnr Hfr buy Hok Hpr Hunc.
  destruct (addToBook_level b Q x o fresh Hb Hx Hfr) as (b1 & lp & E1 & Hrep1 & Em1 & Eo1 & Eb1 & Eh1 & Er1 & Es1 & Et1 & Hlf1 & Hdl & Hex).
  fold buy in Hrep1, Em1, Eo1, Hdl, Hex. unfold addToBook. rewrite (get_order_some _ _ _ Hx), ret_bind. fold buy. rewrite E1.
  set (ls := default [] (Q buy !! Price o)) in *.
  assert (x ∉ ls.*1) as Hxn.
  { unfold ls. destruct (Q buy !! Price o) as [ls0|] eqn:E0; [by eapply Hnr|apply not_elem_of_nil]. }
  destruct (PriceLevel_AddOrder_spec b1 lp (side_of buy) (Price o) ls x o) as (b2 & E2 & Hrep2 & Hsb2 & Hd2 & Hf2 & Hlf2); try done.
  { by rewrite Eh1. }
  { by rewrite Er1. }
  rewrite E2, ret_bind. destruct Hsb2 as (A1 & A2 & A3 & A4 & A5 & _ & _ & _ & A9 & A10).
  assert (forall s, side_map b2 s = side_map b1 s) as Em2 by (intros [|]; done).
  assert (forall s, side_best b2 s = side_best b s) as Eb2.
  { intros s. rewrite <- Eb1. by destruct s. }
  (* every other queue is untouched *)
  assert (forall s p ls' lp', Q s !! p = Some ls' -> side_map b s !! p = Some lp' -> level_rep b lp' (side_of s) p ls' ->
     (s, p) <> (buy, Price o) -> level_rep b2 lp' (side_of s) p ls') as Hother.
  { intros s p ls' lp' Hp Hlp Hrep Hneq. eapply level_rep_frame; [..|exact Hrep].
    - rewrite Hlf2, Hlf1; [done|by eapply Hdl..].
    - intros y Hy. rewrite Hf2, Eh1; [done|]. apply not_elem_of_cons. split.
      + intros ->. by eapply Hnr.
      + intros Hy'. unfold ls in Hy'. destruct (Q buy !! Price o) as [ls0|] eqn:E0; [|by apply elem_of_nil in Hy'].
        destruct (sr_levels _ _ _ (br_sides b Q Hb buy) _ _ E0) as (_ & lp0 & _ & Hrep0).
        destruct (queues_disjoint _ _ _ _ _ _ _ _ _ _ Hrep Hrep0 Hy Hy') as [Es Ep]. apply side_of_inj in Es. by subst.
    - intros i y _. by rewrite A5, Er1. }
  pose proof Hrep2 as (l2 & Hl2 & Hp2 & _).
  assert (match side_best b buy with
          | None => side_map b buy = ∅
          | Some lb => exists p l', side_map b buy !! p = Some lb /\ lheap b2 !! lb = Some l' /\ LPrice l' = p /\
              forall p', is_Some (side_map b buy !! p') -> rank buy p' <= rank buy p
          end) as Hbest.
  { pose proof (sr_best _ _ _ (br_sides b Q Hb buy)) as Hbest. destruct (side_best b buy) as [lb|]; [|done].
    destruct Hbest as (p & Hp & Hmax). exists p. destruct (decide (p = Price o)) as [->|Hne].
    - exists l2. by rewrite (Hex lb Hp) in Hp |- *.
    - destruct (sr_dom _ _ _ (br_sides b Q Hb buy) _ _ Hp) as [ls' Hls'].
      destruct (sr_levels _ _ _ (br_sides b Q Hb buy) _ _ Hls') as (_ & lb' & Hlb & Hrep).
      assert (lb' = lb) as -> by congruence.
      destruct (Hother buy p ls' lb Hls' Hp Hrep) as (l' & Hl' & Hp' & _); [congruence|]. by exists l'. }
  destruct (updateBestPrices_spec b2 buy lp l2 Hl2) as (b3 & E3 & Ebest & Ebo & B3 & B4 & B5 & B6 & B7 & B8 & B9).
  { rewrite Eb2. destruct (side_best b buy) as [lb|]; [|done]. destruct Hbest as (p & l' & _ & Hl' & _). by exists l'. }
  rewrite E3. exists b3. rewrite B6, B5, B8, B9, Hd2, Eh1, A5, Er1, A9, Es1, A10, Et1. split_and!; try done.
  assert (forall s, side_map b3 s = side_map b1 s) as Em3 by (intros s; rewrite <- Em2; destruct s; done).
  assert (forall l' s p' ls', level_rep b2 l' s p' ls' -> level_rep b3 l' s p' ls') as Hr3.
  { intros l' s p' ls'. apply level_rep_frame; [by rewrite B7|by intros; rewrite B6|by intros ? ? _; rewrite B5]. }
  constructor.
  - intros s. destruct (decide (s = buy)) as [->|Hs].
    + rewrite upd_same. constructor; rewrite ?Em3, ?Em1.
      * intros p lp' Hp. destruct (decide (p = Price o)) as [->|Hne]; [rewrite lookup_insert_eq; by eexists|].
        rewrite lookup_insert_ne in Hp by done. rewrite lookup_insert_ne by done. by eapply sr_dom; [apply br_sides|].
      * intros p ls' Hp. destruct (decide (p = Price o)) as [->|Hne].
        -- rewrite lookup_insert_eq in Hp. rewrite lookup_insert_eq. injection Hp as <-. split; [by destruct ls|]. exists lp. split; [done|]. by apply Hr3.
        -- rewrite lookup_insert_ne in Hp by done. rewrite lookup_insert_ne by done.
           destruct (sr_levels _ _ _ (br_sides b Q Hb buy) _ _ Hp) as (Hne' & lp' & Hlp' & Hrep). split; [done|].
           exists lp'. split; [done|]. apply Hr3. eapply Hother; try done. congruence.
      * rewrite Ebest, Eb2. destruct (side_best b buy) as [lb|].
        -- destruct Hbest as (p & l' & Hp & Hl' & Ep & Hmax). rewrite Hl', Hp2, Ep.
           destruct (better buy (Price o) p) eqn:Ebt.
           ++ exists (Price o). split; [apply lookup_insert_eq|]. intros p' Hp'.
              destruct (decide (p' = Price o)) as [->|Hne]; [done|]. rewrite lookup_insert_ne in Hp' by done.
              specialize (Hmax _ Hp'). unfold better, rank in *. destruct buy; lia.
           ++ exists p. split.
              { destruct (decide (p = Price o)) as [->|Hne]; [rewrite lookup_insert_eq; by rewrite (Hex lb Hp)|by rewrite lookup_insert_ne]. }
              intros p' Hp'. destruct (decide (p' = Price o)) as [->|Hne]; [unfold better, rank in *; destruct buy; lia|].
              rewrite lookup_insert_ne in Hp' by done. by apply Hmax.
        -- exists (Price o). split; [apply lookup_insert_eq|]. intros p' [v Hp'].
           destruct (decide (p' = Price o)) as [->|Hne]; [done|]. rewrite lookup_insert_ne, Hbest, lookup_empty in Hp' by done. done.
      * intros p Hp. destruct (decide (p = Price o)) as [->|Hne]; [done|]. rewrite lookup_insert_ne in Hp by done.
        by eapply sr_prices; [apply br_sides|].
    + assert (s = negb buy) as -> by (by destruct s, buy). rewrite upd_other.
      eapply side_rep_frame; [apply (br_sides b Q Hb)|by rewrite Em3|by rewrite Ebo, Eb2|].
      intros p ls' lp' Hp Hlp Hrep. apply Hr3. eapply Hother; try done. by destruct buy.
  - intros p p' Hp Hp'. pose proof (br_uncrossed b Q Hb) as Hu.
    change (bids b3) with (side_map b3 true) in Hp. change (asks b3) with (side_map b3 false) in Hp'.
    rewrite Em3 in Hp, Hp'. destruct buy; cbn [negb] in *.
    + rewrite Eo1 in Hp'. rewrite Em1 in Hp. destruct (decide (p = Price o)) as [->|Hne].
      * specialize (Hunc _ Hp'). cbn in Hunc. lia.
      * rewrite lookup_insert_ne in Hp by done. by apply Hu.
    + rewrite Eo1 in Hp. rewrite Em1 in Hp'. destruct (decide (p' = Price o)) as [->|Hne].
      * specialize (Hunc _ Hp). cbn in Hunc. lia.
      * rewrite lookup_insert_ne in Hp' by done. by apply Hu.
  - intros i. rewrite B5, A5, Er1, B8, A9, Es1. apply (br_ids b Q Hb).
  - rewrite B8, A9, Es1. apply (br_seq b Q Hb).
Qed.

Definition put_queue (Q : gmap Z (list entry)) (p : Z) (ls : list entry) : gmap Z (list entry) :=
  match ls with [] => delete p Q | _ => <[p := ls]> Q end.

(** Other queues share neither levels nor orders with a given one. *)
Lemma other_queues b Q buy p lp ls :
  book_rep b Q -> Q buy !! p = Some ls -> level_rep b lp (side_of buy) p ls ->
  forall s p' ls' lp', Q s !! p' = Some ls' -> level_rep b lp' (side_of s) p' ls' -> (s, p') <> (buy, p) ->
    lp' <> lp /\ forall y, y ∈ ls'.*1 -> y ∉ ls.*1.
Proof.
  intros Hb Hls Hrep s p' ls' lp' Hls' Hrep' Hne. split.
  - intros ->. destruct (sr_levels _ _ _ (br_sides b Q Hb s) _ _ Hls') as [N1 _].
    destruct (sr_levels _ _ _ (br_sides b Q Hb buy) _ _ Hls) as [N2 _].
    destruct (levels_disjoint _ _ _ _ _ _ _ _ Hrep Hrep' N2 N1) as [E1 E2]. apply side_of_inj in E1. by subst.
  - intros y Hy Hy'. destruct (queues_disjoint _ _ _ _ _ _ _ _ _ _ Hrep Hrep' Hy' Hy) as [E1 E2].
    apply side_of_inj in E1. by subst.
Qed.

(** Replacing the queue of one price, best level and emptiness included. *)
Lemma book_rep_update b b' Q buy p lp ls ls' :
  book_rep b Q -> Q buy !! p = Some ls -> side_map b buy !! p = Some lp ->
  side_map b' buy = (match ls' with [] => delete p (side_map b buy) | _ => side_map b buy end) ->
  side_map b' (negb buy) = side_map b (negb buy) -> side_best b' (negb buy) = side_best b (negb buy) ->
  (ls' <> [] -> level_rep b' lp (side_of buy) p ls' /\ side_best b' buy = side_best b buy) ->
  (ls' = [] -> side_best b' buy = level_fold b' (side_map b' buy) (if buy then 0 else max_i64) (better buy)) ->
  (forall s p' lo lp', Q s !! p' = Some lo -> side_map b s !! p' = Some lp' -> level_rep b lp' (side_of s) p' lo ->
     (s, p') <> (buy, p) -> level_rep b' lp' (side_of s) p' lo) ->
  (forall i, is_Some (orders b' !! i) -> is_Some (orders b !! i)) -> sequence b' = sequence b ->
  book_rep b' (upd Q buy (put_queue (Q buy) p ls')).
Proof.
  intros Hb Hls Hlp Em Emo Ebo Hne Hnil Hother Hreg Hseq.
  pose proof (br_sides b Q Hb buy) as [S1 S2 S3 S4].
  assert (forall p', is_Some (side_map b' buy !! p') -> is_Some (side_map b buy !! p')) as Hsub.
  { intros p' Hp'. rewrite Em in Hp'. destruct ls'; [|done]. destruct (decide (p' = p)) as [->|Hn]; [by eexists|].
    by rewrite lookup_delete_ne in Hp'. }
  assert (forall p' lo, p' <> p -> Q buy !! p' = Some lo -> lo <> [] /\ exists lp', side_map b' buy !! p' = Some lp' /\ level_rep b' lp' (side_of buy) p' lo) as Hlv.
  { intros p' lo Hn Hp'. destruct (S2 p' lo Hp') as (Hl & lp' & Hlp' & Hrep). split; [done|]. exists lp'. split.
    - rewrite Em. destruct ls'; [by rewrite lookup_delete_ne|done].
    - eapply Hother; try done. congruence. }
  constructor.
  - intros s. destruct (decide (s = buy)) as [->|Hs].
    + rewrite upd_same. constructor.
      * intros p' lp' Hp'. unfold put_queue. rewrite Em in Hp'. destruct ls' as [|e ls'].
        -- destruct (decide (p' = p)) as [->|Hn]; [by rewrite lookup_delete_eq in Hp'|].
           rewrite lookup_delete_ne in Hp' by done. rewrite lookup_delete_ne by done. by eapply S1.
        -- destruct (decide (p' = p)) as [->|Hn]; [rewrite lookup_insert_eq; by eexists|].
           rewrite lookup_insert_ne by done. by eapply S1.
      * intros p' lo Hp'. unfold put_queue in Hp'. destruct ls' as [|e ls'].
        -- destruct (decide (p' = p)) as [->|Hn]; [by rewrite lookup_delete_eq in Hp'|].
           rewrite lookup_delete_ne in Hp' by done. by apply Hlv.
        -- destruct (decide (p' = p)) as [->|Hn].
           ++ rewrite lookup_insert_eq in Hp'. injection Hp' as <-. split; [done|]. exists lp. rewrite Em.
              split; [done|]. by apply Hne.
           ++ rewrite lookup_insert_ne in Hp' by done. by apply Hlv.
      * destruct ls' as [|e ls'].
        -- rewrite Hnil by done. apply level_fold_best. intros p' lp' Hp'. rewrite Em in Hp'.
           destruct (decide (p' = p)) as [->|Hn]; [by rewrite lookup_delete_eq in Hp'|].
           rewrite lookup_delete_ne in Hp' by done. split; [apply S4; by eexists|].
           destruct (S1 _ _ Hp') as [lo Hlo]. destruct (Hlv p' lo Hn Hlo) as (Hnn & lp2 & Hlp2 & l & Hl & HLp & Hhd & _).
           rewrite Em, lookup_delete_ne in Hlp2 by done. assert (lp2 = lp') as -> by congruence. exists l.
           split_and!; try done. unfold IsEmpty. rewrite Hhd. by destruct lo.
        -- destruct (Hne ltac:(done)) as [_ ->]. by rewrite Em.
      * intros p' Hp'. by apply S4, Hsub.
    + assert (s = negb buy) as -> by (by destruct s, buy). rewrite upd_other.
      eapply side_rep_frame; [apply (br_sides b Q Hb)|done|done|].
      intros p' lo lp' Hp' Hlp' Hrep. eapply Hother; try done. by destruct buy.
  - intros p1 p2 H1 H2. apply (br_uncrossed b Q Hb).
    + destruct buy; [by apply Hsub|]. cbn in Emo. by rewrite <- Emo.
    + destruct buy; [|by apply Hsub]. cbn in Emo. by rewrite <- Emo.
  - intros i Hi. rewrite Hseq. by apply (br_ids b Q Hb), Hreg.
  - rewrite Hseq. apply (br_seq b Q Hb).
Qed.

(** Removing a resting order takes it out of its queue, wherever it stands. *)
Lemma removeFromBook_spec b Q buy p pre x n post :
  book_rep b Q -> Q buy !! p = Some (pre ++ (x, n) :: post) ->
  exists b', removeFromBook b x = Ret b' /\ book_rep b' (upd Q buy (put_queue (Q buy) p (pre ++ post))) /\
    data <$> oheap b' = data <$> oheap b /\ orders b' = orders b /\ sequence b' = sequence b /\ trades b' = trades b.
Proof.
  intros Hb Hls. destruct (sr_levels _ _ _ (br_sides b Q Hb buy) _ _ Hls) as (_ & lp & Hlp & Hrep).
  destruct (level_rep_at _ _ _ _ _ _ _ _ Hrep) as (l & o & Hat & Hok). pose proof Hok as (Es & Ep & _).
  pose proof (la_order _ _ _ _ _ _ _ _ _ Hat) as (Hx & _).
  assert (IsBuy o = buy) as Ebuy by (unfold IsBuy; rewrite Es; by destruct buy).
  unfold removeFromBook. rewrite (get_order_some _ _ _ Hx), ret_bind, Ebuy, Ep.
  change (if buy then bids b else asks b) with (side_map b buy). rewrite Hlp.
  destruct (RemoveOrder_spec _ _ _ _ _ _ _ _ _ Hat) as (b1 & E1 & Hrep1 & Hsb & Hd & Hf & Hlf). rewrite E1, ret_bind.
  destruct Hsb as (A1 & A2 & A3 & A4 & A5 & A6 & A7 & A8 & A9 & A10).
  pose proof (other_queues b Q buy p lp _ Hb Hls Hrep) as Hoq.
  assert (forall bx, (forall l, l <> lp -> lheap bx !! l = lheap b !! l) -> oheap bx = oheap b1 -> orders bx = orders b ->
    forall s p' lo lp', Q s !! p' = Some lo -> side_map b s !! p' = Some lp' -> level_rep b lp' (side_of s) p' lo ->
     (s, p') <> (buy, p) -> level_rep bx lp' (side_of s) p' lo) as Hother.
  { intros bx Hl Ho Hr s p' lo lp' H1 H2 H3 H4. destruct (Hoq s p' lo lp' H1 H3 H4) as [N1 N2].
    eapply level_rep_frame; [by apply Hl| |by intros; rewrite Hr|exact H3].
    intros y Hy. rewrite Ho, Hf; [done|]. specialize (N2 y Hy). intros Hin. apply N2. rewrite fmap_app, fmap_cons.
    apply elem_of_app. apply elem_of_cons in Hin as [->|Hin]; [right; by apply elem_of_cons; left|].
    rewrite fmap_app in Hin. apply elem_of_app in Hin as [?|?]; [by left|right; apply elem_of_cons; by right]. }
  destruct (pre ++ post) as [|e rest] eqn:Epp.
  - eexists. split; [done|]. split_and!.
    + eapply (book_rep_update b _ Q buy p lp _ [] Hb Hls Hlp); try done.
      * destruct buy; cbn; by rewrite ?A3, ?A4.
      * destruct buy; cbn; by rewrite ?A3, ?A4.
      * destruct buy; cbn; by rewrite ?A1, ?A2.
      * intros _. by destruct buy.
      * apply Hother; destruct buy; cbn; try done; intros l' Hne; rewrite lookup_insert_ne by done; by apply Hlf.
      * destruct buy; cbn; by rewrite A5.
      * by destruct buy.
    + by destruct buy.
    + by destruct buy.
    + by destruct buy.
    + by destruct buy.
  - exists b1. split; [done|]. split_and!; try done.
    eapply (book_rep_update b _ Q buy p lp _ (e :: rest) Hb Hls Hlp); try done.
    + by destruct buy.
    + by destruct buy.
    + by destruct buy.
    + intros _. split; [done|]. by destruct buy.
    + by apply Hother.
    + by rewrite A5.
Qed.

(** Changes to orders that do not rest leave the queues alone. *)
Lemma book_rep_heap b b' Q x :
  book_rep b Q -> not_resting Q x ->
  (forall s, side_map b' s = side_map b s) -> (forall s, side_best b' s = side_best b s) -> lheap b' = lheap b ->
  (forall y, y <> x -> oheap b' !! y = oheap b !! y) ->
  (forall i y, y <> x -> orders b !! i = Some y -> orders b' !! i = Some y) ->
  (forall i, is_Some (orders b' !! i) -> 1 <= i <= sequence b') -> 0 <= sequence b' ->
  book_rep b' Q.
Proof.
  intros Hb Hnr Em Eb El Eo Er Hids Hseq. constructor; try done.
  - intros s. eapply side_rep_frame; [apply (br_sides b Q Hb)|done|done|].
    intros p ls lp Hp Hlp. apply level_rep_frame; [by rewrite El| |].
    + intros y Hy. apply Eo. intros ->. by eapply Hnr.
    + intros i y Hy. apply Er. intros ->. by eapply Hnr.
  - intros p p'. change (bids b') with (side_map b' true). change (asks b') with (side_map b' false).
    rewrite !Em. apply (br_uncrossed b Q Hb).
Qed.

Lemma not_resting_removed b Q buy p pre x n post :
  book_rep b Q -> Q buy !! p = Some (pre ++ (x, n) :: post) ->
  not_resting (upd Q buy (put_queue (Q buy) p (pre ++ post))) x.
Proof.
  intros Hb Hls s p' ls Hp'. destruct (sr_levels _ _ _ (br_sides b Q Hb buy) _ _ Hls) as (_ & lp & Hlp & Hrep).
  pose proof (other_queues b Q buy p lp _ Hb Hls Hrep) as Hoq.
  assert (x ∈ (pre ++ (x, n) :: post).*1) as Hxin.
  { rewrite fmap_app. apply elem_of_app. right. apply elem_of_cons. by left. }
  assert (forall s p' ls, Q s !! p' = Some ls -> (s, p') <> (buy, p) -> x ∉ ls.*1) as Hout.
  { intros s0 p0 ls0 H0 Hne Hin. destruct (sr_levels _ _ _ (br_sides b Q Hb s0) _ _ H0) as (_ & lp0 & _ & Hrep0).
    destruct (Hoq s0 p0 ls0 lp0 H0 Hrep0 Hne) as [_ N]. by apply (N x). }
  assert (x ∉ (pre ++ post).*1) as Hself.
  { destruct Hrep as (l & _ & _ & _ & _ & _ & _ & _ & Hnd & _). rewrite fmap_app, fmap_cons in Hnd.
    rewrite <- Permutation_middle, NoDup_cons in Hnd. rewrite fmap_app. by destruct Hnd. }
  destruct (decide (s = buy)) as [->|Hs].
  - rewrite upd_same in Hp'. unfold put_queue in Hp'. destruct (decide (p' = p)) as [->|Hne].
    + destruct (pre ++ post); [by rewrite lookup_delete_eq in Hp'|]. rewrite lookup_insert_eq in Hp'. by injection Hp' as <-.
    + apply (Hout buy p'); [|congruence]. destruct (pre ++ post); [by rewrite lookup_delete_ne in Hp'|by rewrite lookup_insert_ne in Hp'].
  - assert (s = negb buy) as -> by (by destruct s, buy). rewrite upd_other in Hp'. eapply Hout; [exact Hp'|].
    by destruct buy.
Qed.

(** C29. Cancelling a resting order removes exactly that order from the book: its
    queue keeps the order of the others, an emptied price disappears, best
    prices are right again, and the order is marked cancelled. *)
Theorem CancelOrder_refines b Q buy p pre x n post o :
  book_rep b Q -> Q buy !! p = Some (pre ++ (x, n) :: post) -> oheap b !! x = Some o ->
  exists b' o', CancelOrder b (ID o) = Ret (b', None) /\
    book_rep b' (upd Q buy (put_queue (Q buy) p (pre ++ post))) /\
    oheap b' !! x = Some o' /\ Status o' = StatusCanceled /\ orders b' !! ID o = None /\ trades b' = trades b.
Proof.
  intros Hb Hls Hx. destruct (sr_levels _ _ _ (br_sides b Q Hb buy) _ _ Hls) as (_ & lp & Hlp & Hrep).
  assert (orders b !! ID o = Some x) as Hreg.
  { destruct (level_rep_at _ _ _ _ _ _ _ _ Hrep) as (l & o1 & Hat & Hok). pose proof (la_order _ _ _ _ _ _ _ _ _ Hat) as (Hx' & _).
    assert (o1 = o) as -> by congruence. apply Hok. }
  destruct (removeFromBook_spec b Q buy p pre x n post Hb Hls) as (b1 & E1 & Hb1 & Hd & Er & Es & Et).
  destruct (lookup_data _ _ _ _ Hd Hx) as (o1 & Hx1 & _).
  unfold CancelOrder. rewrite Hreg, E1, ret_bind, (get_order_some _ _ _ Hx1), ret_bind. eexists _, _. split; [done|].
  split_and!.
  - eapply book_rep_heap; [exact Hb1|by eapply not_resting_removed|by intros []..|done| | | |].
    + intros y Hy. cbn. by rewrite lookup_insert_ne.
    + intros i y Hy Hi. cbn. rewrite lookup_delete_ne; [done|]. intros <-. rewrite Er in Hi. congruence.
    + intros i [y Hi]. cbn in Hi. apply lookup_delete_Some in Hi as [_ Hi]. apply (br_ids _ _ Hb1). by eexists.
    + apply (br_seq _ _ Hb1).
  - cbn. apply lookup_insert_eq.
  - done.
  - cbn. apply lookup_delete_eq.
  - done.
Qed.

(** ** New orders *)

(** A well-formed request: known side, a quantity, and a price if it can rest. *)
Definition valid_request (o : Order) : Prop :=
  (Side o = SideBuy \/ Side o = SideSell) /\ 0 < Quantity o <= max_i64 /\
  (Type_ o = OrderTypeLimit -> 0 < Price o < max_i64).

(** The book after the order has been numbered and registered. *)
Definition registered (b : OrderBook) (x : positive) (o : Order) : OrderBook :=
  let id := u64 (sequence b + 1) in
  mkBook (bestBid b) (bestAsk b) (bids b) (asks b) (<[id := x]> (orders b)) (totalTrades b)
    (totalVolume b) (lastTradePrice b) id (<[x := init_order o id]> (oheap b)) (lheap b) (trades b).

Lemma registered_rep b Q x o :
  book_rep b Q -> not_resting Q x -> sequence b + 1 < 2 ^ 64 -> book_rep (registered b x o) Q.
Proof.
  intros Hb Hnr Hs. pose proof (br_seq b Q Hb) as H0. assert (u64 (sequence b + 1) = sequence b + 1) as Eu.
  { unfold u64. apply Z.mod_small. lia. }
  eapply book_rep_heap; [exact Hb|exact Hnr|by intros []|by intros []|done| | | |]; cbn; rewrite ?Eu.
  - intros y Hy. by rewrite lookup_insert_ne.
  - intros i y Hy Hi. rewrite lookup_insert_ne; [done|]. intros <-. pose proof (br_ids b Q Hb (sequence b + 1) ltac:(by eexists)). lia.
  - intros i [y Hi]. apply lookup_insert_Some in Hi as [[<- _]|[_ Hi]]; [lia|].
    pose proof (br_ids b Q Hb i ltac:(by eexists)). lia.
  - lia.
Qed.

(** The test for an immediate match: the best price of the other side. *)
Lemma canMatch_spec b Q o :
  book_rep b Q ->
  let buy := IsBuy o in
  canMatchImmediately b o = Ret (match side_best b (negb buy) with
    | None => false
    | Some lp => match lheap b !! lp with
                 | Some l => IsMarket o || (rank buy (LPrice l) <=? rank buy (Price o))
                 | None => false
                 end
    end).
Proof.
  intros Hb buy. unfold canMatchImmediately. fold buy. pose proof (sr_best _ _ _ (br_sides b Q Hb (negb buy))) as Hbest.
  assert (forall lp, side_best b (negb buy) = Some lp -> exists l, lheap b !! lp = Some l) as Hl.
  { intros lp E. rewrite E in Hbest. destruct Hbest as (p & Hp & _).
    destruct (sr_dom _ _ _ (br_sides b Q Hb _) _ _ Hp) as [ls Hls].
    destruct (sr_levels _ _ _ (br_sides b Q Hb _) _ _ Hls) as (_ & lp' & Hlp' & l & Hl & _). exists l. congruence. }
  destruct buy; cbn [negb side_best rank] in *.
  - destruct (bestAsk b) as [lp|]; [|done]. destruct (Hl lp eq_refl) as [l El].
    by rewrite (get_level_some _ _ _ El), ret_bind, El.
  - destruct (bestBid b) as [lp|]; [|done]. destruct (Hl lp eq_refl) as [l El].
    rewrite (get_level_some _ _ _ El), ret_bind, El. do 2 f_equal. lia.
Qed.

(** The queue at the best price of a side. *)
Definition best_at (Q : queues) (s : bool) (p : Z) (ls : list entry) : Prop :=
  Q s !! p = Some ls /\ forall p', is_Some (Q s !! p') -> rank s p' <= rank s p.

(** An order reaches price [p] of the other side. *)
Definition crosses (o : Order) (p : Z) : Prop :=
  IsMarket o = true \/ rank (IsBuy o) p <= rank (IsBuy o) (Price o).

Lemma best_level b Q s p ls :
  book_rep b Q -> best_at Q s p ls ->
  exists lp l, side_best b s = Some lp /\ side_map b s !! p = Some lp /\ lheap b !! lp = Some l /\ LPrice l = p /\
    Orders l = hd_or ls None /\ level_rep b lp (side_of s) p ls /\ ls <> [].
Proof.
  intros Hb [Hls Hmax]. destruct (br_sides b Q Hb s) as [S1 S2 S3 S4].
  destruct (S2 p ls Hls) as (Hne & lp & Hlp & Hrep). pose proof Hrep as (l & Hl & Hp & Hhd & _).
  exists lp, l. split_and!; try done. destruct (side_best b s) as [lb|]; [|by rewrite S3, lookup_empty in Hlp].
  destruct S3 as (p0 & Hp0 & Hmax0). specialize (Hmax0 p ltac:(by eexists)). specialize (Hmax p0 (S1 _ _ Hp0)).
  assert (p0 = p) as -> by (destruct s; cbn in *; lia). congruence.
Qed.

(** Matching at the best price of the other side, up to the point where the
    level is looked at again. *)
Lemma matchOrder_level b Q x o p ls :
  book_rep b Q -> not_resting Q x -> oheap b !! x = Some o -> balanced o -> 0 < LeavesQty o ->
  (Side o = SideBuy \/ Side o = SideSell) -> best_at Q (negb (IsBuy o)) p ls -> crosses o p ->
  exists b1 o1 lp,
    matchOrder b x = (b ← (if bool_decide (consume (LeavesQty o) ls = []) then Panic else Ret b1);
      o ← get_order b (Some x);
      let o := if (TimeInForce o =? TIFIOC) && (0 <? LeavesQty o) then set_status o StatusCanceled else o in
      let o := if (TimeInForce o =? TIFFOK) && (FilledQty o <? Quantity o) then set_status o StatusCanceled else o in
      Ret (put_order b x o)) /\
    side_map b (negb (IsBuy o)) !! p = Some lp /\ level_rep b lp (side_of (negb (IsBuy o))) p ls /\
    level_rep b1 lp (side_of (negb (IsBuy o))) p (consume (LeavesQty o) ls) /\ oheap b1 !! x = Some o1 /\ balanced o1 /\
    filled_by o o1 (open_qty (fills (LeavesQty o) ls)) /\ mframe b b1 x lp ls /\
    trades b1 = trades b ++ map (trade_of b x (IsBuy o) p) (fills (LeavesQty o) ls).
Proof.
  intros Hb Hnr Hx Hbal Hq Hside Hbest Hcr.
  destruct (best_level b Q _ p ls Hb Hbest) as (lp & l & Ebest & Hlp & Hl & Hp & Hhd & Hrep & Hne).
  assert (x ∉ ls.*1) as Hxn by (by eapply Hnr, Hbest).
  destruct (match_level_spec (side_of (negb (IsBuy o))) p x lp ls (S (size (oheap b))) b o) as
    (b1 & o1 & E1 & Hrep1 & Hx1 & Hb1 & Hfb & Hmf & Ht & _); try done.
  { destruct Hrep as (l' & _ & _ & _ & _ & _ & _ & _ & Hnd & Hs). apply seg_size in Hs; [lia|done]. }
  exists b1, o1, lp. split_and!; try done. unfold matchOrder. rewrite (get_order_some _ _ _ Hx), ret_bind. f_equal.
  replace (if IsBuy o then bestAsk b else bestBid b) with (side_best b (negb (IsBuy o))) by (by destruct (IsBuy o)).
  rewrite Ebest. cbn [match_loop]. rewrite (get_order_some _ _ _ Hx), ret_bind.
  destruct (Z.ltb_spec 0 (LeavesQty o)); [|lia]. rewrite (get_level_some _ _ _ Hl), ret_bind.
  assert ((if IsMarket o then Ret true else ho ← get_order b (Orders l); Ret (CanMatch o (LPrice l) (Side ho) 0)) = Ret true) as ->.
  { destruct (IsMarket o) eqn:Em; [done|]. destruct Hcr as [?|Hcr]; [congruence|]. rewrite Hhd.
    destruct ls as [|[y n] ls]; [done|]. cbn [hd_or fst].
    destruct (level_rep_side _ _ _ _ _ y n Hrep) as (ho & Hho & Es & _); [apply elem_of_cons; by left|].
    rewrite (get_order_some _ _ _ Hho), ret_bind, Es, Hp. unfold CanMatch. rewrite Em. f_equal.
    unfold IsBuy in *. destruct Hside as [Hs|Hs]; rewrite Hs in *; cbn in *; lia. }
  rewrite ret_bind, Hhd, E1, ret_bind. destruct Hrep1 as (l1 & Hl1 & _ & Hhd1 & _).
  rewrite (get_level_some _ _ _ Hl1), ret_bind. unfold IsEmpty. rewrite Hhd1.
  destruct (consume (LeavesQty o) ls) as [|e rest] eqn:Ec; cbn [hd_or].
  - rewrite bool_decide_eq_true_2 by done. unfold removeEmptyPriceLevel. by rewrite (get_level_some _ _ _ Hl1), ret_bind, Hhd1.
  - by rewrite bool_decide_eq_false_2.
Qed.

(** What [AddOrder] does before matching. *)
Lemma AddOrder_start b x o fresh :
  oheap b !! x = Some o -> 0 < Quantity o ->
  AddOrder b (Some x) fresh =
    (let b0 := registered b x o in
     let o0 := init_order o (u64 (sequence b + 1)) in
     now ← (if IsMarket o0 then Ret true else canMatchImmediately b0 o0);
     b ← (if now : bool then matchOrder b0 x else Ret b0);
     o ← get_order b (Some x);
     b ← (if (0 <? LeavesQty o) && (Type_ o =? OrderTypeLimit) then addToBook b x fresh else Ret b);
     Ret (b, None)).
Proof.
  intros Hx Hq. unfold AddOrder. rewrite (get_order_some _ _ _ Hx), ret_bind.
  by destruct (Z.leb_spec (Quantity o) 0); [lia|].
Qed.

(** The decision to match, for an order that reaches the best price. *)
Lemma AddOrder_crosses b Q x o fresh p ls :
  book_rep b Q -> not_resting Q x -> sequence b + 1 < 2 ^ 64 -> oheap b !! x = Some o -> valid_request o ->
  best_at Q (negb (IsBuy o)) p ls -> crosses o p ->
  AddOrder b (Some x) fresh =
    (b ← matchOrder (registered b x o) x;
     o ← get_order b (Some x);
     b ← (if (0 <? LeavesQty o) && (Type_ o =? OrderTypeLimit) then addToBook b x fresh else Ret b);
     Ret (b, None)).
Proof.
  intros Hb Hnr Hseq Hx (Hs & Hq & _) Hbest Hcr. rewrite (AddOrder_start b x o) by (done || lia). cbv zeta.
  set (o0 := init_order o _). set (b0 := registered b x o).
  assert ((if IsMarket o0 then Ret true else canMatchImmediately b0 o0) = Ret true) as ->; [|done].
  destruct (IsMarket o0) eqn:Em; [done|]. pose proof (registered_rep b Q x o Hb Hnr Hseq) as Hb0.
  rewrite (canMatch_spec b0 Q o0 Hb0). change (IsBuy o0) with (IsBuy o).
  destruct (best_level b0 Q _ p ls Hb0 Hbest) as (lp & l & -> & _ & Hl & Hp & _). rewrite Hl, Em, Hp. cbn [orb].
  destruct Hcr as [Hm|Hcr]; [change (IsMarket o0) with (IsMarket o) in Em; congruence|]. f_equal.
  change (Price o0) with (Price o). lia.
Qed.

(** An order that reaches the best price and asks for less than is there is
    filled at once: it trades at the resting price with the resting orders in
    order of arrival, the queue keeps what is left of it, nothing else in the
    book changes, and the order does not rest. *)
Lemma AddOrder_trades b Q x o fresh p ls :
  book_rep b Q -> not_resting Q x -> sequence b + 1 < 2 ^ 64 -> oheap b !! x = Some o -> valid_request o ->
  best_at Q (negb (IsBuy o)) p ls -> crosses o p -> Quantity o < open_qty ls ->
  exists b' o', AddOrder b (Some x) fresh = Ret (b', None) /\
    book_rep b' (upd Q (negb (IsBuy o)) (<[p := consume (Quantity o) ls]> (Q (negb (IsBuy o))))) /\
    trades b' = trades b ++ map (trade_of (registered b x o) x (IsBuy o) p) (fills (Quantity o) ls) /\
    oheap b' !! x = Some o' /\ LeavesQty o' = 0 /\ FilledQty o' = Quantity o /\ open_qty (fills (Quantity o) ls) = Quantity o.
Proof.
  intros Hb Hnr Hseq Hx Hv Hbest Hcr Hlt. rewrite (AddOrder_crosses b Q x o fresh p ls) by done.
  pose proof (registered_rep b Q x o Hb Hnr Hseq) as Hb0. set (b0 := registered b x o) in *. set (o0 := init_order o (u64 (sequence b + 1))).
  destruct Hv as (Hs & Hq & _). assert (oheap b0 !! x = Some o0) as Hx0 by apply lookup_insert_eq.
  destruct (matchOrder_level b0 Q x o0 p ls Hb0 Hnr Hx0) as (b1 & o1 & lp & -> & Hlp & Hrep & Hrep1 & Hx1 & Hb1 & Hfb & Hmf & Ht); try done.
  { unfold balanced. cbn. lia. } { cbn. lia. }
  change (LeavesQty o0) with (Quantity o) in *. change (IsBuy o0) with (IsBuy o) in *.
  assert (Forall (fun e => 0 < e.2) ls) as Hpos by (destruct Hrep as (? & _ & _ & _ & _ & _ & _ & _ & _ & Hsg); by eapply seg_positive).
  assert (ls <> []) as Hne by (intros ->; cbn in Hlt; lia).
  assert (consume (Quantity o) ls <> []) as Hcne by (rewrite (consume_nil (Quantity o)) by (done || lia); lia).
  assert (open_qty (fills (Quantity o) ls) = Quantity o) as Efill by (rewrite fills_total by (done || lia); lia).
  rewrite bool_decide_eq_false_2, ret_bind, (get_order_some _ _ _ Hx1), ret_bind by done.
  destruct Hfb as (F1 & F2 & F3 & F4 & F5 & F6 & F7 & F8). rewrite Efill in *. change (LeavesQty o0) with (Quantity o) in F7.
  change (FilledQty o0) with 0 in F8. change (Quantity o0) with (Quantity o) in F5.
  cbv zeta. replace (0 <? LeavesQty o1) with false by lia. rewrite andb_false_r. cbv iota.
  replace (FilledQty o1 <? Quantity o1) with false by lia. rewrite andb_false_r. cbv iota. rewrite ret_bind. set (b2 := put_order b1 x o1).
  assert (oheap b2 !! x = Some o1) as Hx2 by apply lookup_insert_eq.
  rewrite (get_order_some _ _ _ Hx2), ret_bind. replace (0 <? LeavesQty o1) with false by lia. cbn [andb]. rewrite ret_bind.
  exists b2, o1. split; [done|]. split_and!; [|done|done|lia|lia|done].
  assert (forall y, oheap b2 !! y = oheap b1 !! y) as Eh2.
  { intros y. cbn. destruct (decide (y = x)) as [->|Hy]; [by rewrite lookup_insert_eq|by rewrite lookup_insert_ne]. }
  replace (<[p := consume (Quantity o) ls]> (Q (negb (IsBuy o)))) with (put_queue (Q (negb (IsBuy o))) p (consume (Quantity o) ls))
    by (unfold put_queue; by destruct (consume (Quantity o) ls)).
  destruct Hmf as [(M1 & M2 & M3 & M4 & M5) Ml Mo Mi Mr Mr'].
  eapply (book_rep_update b0 b2 Q _ p lp ls _ Hb0 (proj1 Hbest) Hlp); try done.
  - destruct (consume (Quantity o) ls); [done|]. by destruct (IsBuy o).
  - by destruct (IsBuy o).
  - by destruct (IsBuy o).
  - intros _. split; [|by destruct (IsBuy o)]. apply (level_rep_frame b1 b2); [done| |by intros|exact Hrep1]. intros y _. apply Eh2.
  - intros s p' lo lp' H1 H2 H3 H4. destruct (other_queues b0 Q _ p lp ls Hb0 (proj1 Hbest) Hrep s p' lo lp' H1 H3 H4) as [N1 N2].
    eapply level_rep_frame; [by apply Ml| | |exact H3].
    + intros y Hy. rewrite Eh2. apply Mo. apply not_elem_of_cons. split; [|by apply N2]. intros ->. by eapply Hnr.
    + intros i y Hy. apply Mr. by apply N2.
  - intros i [y Hi]. exists y. by apply Mr'.
Qed.

(** An order that reaches the best price and asks for all of it or more
    panics: the level is looked up through its first order after its last
    order has been removed. *)
Lemma AddOrder_panics b Q x o fresh p ls :
  book_rep b Q -> not_resting Q x -> sequence b + 1 < 2 ^ 64 -> oheap b !! x = Some o -> valid_request o ->
  best_at Q (negb (IsBuy o)) p ls -> crosses o p -> open_qty ls <= Quantity o ->
  AddOrder b (Some x) fresh = Panic.
Proof.
  intros Hb Hnr Hseq Hx Hv Hbest Hcr Hle. rewrite (AddOrder_crosses b Q x o fresh p ls) by done.
  pose proof (registered_rep b Q x o Hb Hnr Hseq) as Hb0. set (b0 := registered b x o) in *. set (o0 := init_order o (u64 (sequence b + 1))).
  destruct Hv as (Hs & Hq & _). assert (oheap b0 !! x = Some o0) as Hx0 by apply lookup_insert_eq.
  destruct (matchOrder_level b0 Q x o0 p ls Hb0 Hnr Hx0) as (b1 & o1 & lp & -> & Hlp & Hrep & _); try done.
  { unfold balanced. cbn. lia. } { cbn. lia. }
  change (LeavesQty o0) with (Quantity o).
  assert (Forall (fun e => 0 < e.2) ls) as Hpos by (destruct Hrep as (? & _ & _ & _ & _ & _ & _ & _ & _ & Hsg); by eapply seg_positive).
  assert (ls <> []) as Hne by (by destruct (best_level b0 Q _ p ls Hb0 Hbest) as (? & ? & _ & _ & _ & _ & _ & _ & ?)).
  rewrite bool_decide_eq_true_2; [done|]. apply consume_nil; try done; lia.
Qed.

(** A limit order that reaches no price of the other side joins the end of the
    queue of its price, whatever its time in force; no trade happens and all
    other queues stay as they are. *)
Lemma AddOrder_rests b Q x o fresh :
  book_rep b Q -> not_resting Q x -> sequence b + 1 < 2 ^ 64 -> oheap b !! x = Some o -> valid_request o ->
  Type_ o = OrderTypeLimit -> unused_level b fresh ->
  (forall p, is_Some (Q (negb (IsBuy o)) !! p) -> rank (IsBuy o) (Price o) < rank (IsBuy o) p) ->
  exists b', AddOrder b (Some x) fresh = Ret (b', None) /\ trades b' = trades b /\
    book_rep b' (upd Q (IsBuy o)
      (<[Price o := default [] (Q (IsBuy o) !! Price o) ++ [(x, Quantity o)]]> (Q (IsBuy o)))).
Proof.
  intros Hb Hnr Hseq Hx (Hs & Hq & Hpr) Hty Hfr Hnc. rewrite (AddOrder_start b x o) by (done || lia). cbv zeta.
  pose proof (registered_rep b Q x o Hb Hnr Hseq) as Hb0. set (o0 := init_order o _). set (b0 := registered b x o) in *.
  assert (IsMarket o0 = false) as Em by (unfold IsMarket; cbn; by rewrite Hty).
  assert (forall p, is_Some (side_map b0 (negb (IsBuy o)) !! p) -> rank (IsBuy o) (Price o) < rank (IsBuy o) p) as Hnc'.
  { intros p [lp Hp]. apply Hnc. by eapply sr_dom; [apply (br_sides b0 Q Hb0)|]. }
  rewrite Em, (canMatch_spec b0 Q o0 Hb0). change (IsBuy o0) with (IsBuy o). rewrite Em. cbn [orb].
  assert (match side_best b0 (negb (IsBuy o)) with
    | Some lp => match lheap b0 !! lp with Some l => rank (IsBuy o) (LPrice l) <=? rank (IsBuy o) (Price o0) | None => false end
    | None => false end = false) as ->.
  { pose proof (sr_best _ _ _ (br_sides b0 Q Hb0 (negb (IsBuy o)))) as Hbest.
    destruct (side_best b0 (negb (IsBuy o))) as [lp|]; [|done]. destruct Hbest as (p & Hp & _).
    destruct (sr_dom _ _ _ (br_sides b0 Q Hb0 _) _ _ Hp) as [ls Hls].
    destruct (sr_levels _ _ _ (br_sides b0 Q Hb0 _) _ _ Hls) as (_ & lp' & Hlp' & l & Hl & Ep & _).
    assert (lp' = lp) as -> by congruence. rewrite Hl, Ep. specialize (Hnc' p ltac:(by eexists)).
    change (Price o0) with (Price o). lia. }
  rewrite !ret_bind. assert (oheap b0 !! x = Some o0) as Hx0 by apply lookup_insert_eq.
  rewrite (get_order_some _ _ _ Hx0), ret_bind. change (LeavesQty o0) with (Quantity o). change (Type_ o0) with (Type_ o).
  rewrite Hty. replace (0 <? Quantity o) with true by lia. cbn [andb Z.eqb OrderTypeLimit].
  destruct (addToBook_spec b0 Q x o0 fresh Hb0 Hx0 Hnr) as (b' & E & Hb' & _ & _ & _ & Et); try done.
  - unfold entry_ok. cbn. split_and!; try done; try lia.
    + change (IsBuy o0) with (IsBuy o). unfold IsBuy. by destruct Hs as [->| ->].
    + apply lookup_insert_eq.
  - by apply Hpr.
  - rewrite E, ret_bind. exists b'. split; [done|]. by rewrite Et.
Qed.

Lemma NewOrderBook_rep : book_rep NewOrderBook (fun _ => ∅).
Proof.
  constructor; cbn; try done.
  - intros []; constructor; cbn; try done; intros p; rewrite lookup_empty; try done; by intros [].
  - intros p p'. rewrite lookup_empty. by intros [].
  - intros i. rewrite lookup_empty. by intros [].
Qed.

(** An order that cannot rest and reaches nothing changes no queue. *)
Lemma AddOrder_void b Q x o fresh :
  book_rep b Q -> not_resting Q x -> sequence b + 1 < 2 ^ 64 -> oheap b !! x = Some o -> valid_request o ->
  Type_ o <> OrderTypeLimit ->
  (forall p, is_Some (Q (negb (IsBuy o)) !! p) -> IsMarket o = false /\ rank (IsBuy o) (Price o) < rank (IsBuy o) p) ->
  exists b', AddOrder b (Some x) fresh = Ret (b', None) /\ trades b' = trades b /\ book_rep b' Q.
Proof.
  intros Hb Hnr Hseq Hx (Hs & Hq & _) Hty Hnc. rewrite (AddOrder_start b x o) by (done || lia). cbv zeta.
  pose proof (registered_rep b Q x o Hb Hnr Hseq) as Hb0. set (o0 := init_order o _). set (b0 := registered b x o) in *.
  assert (oheap b0 !! x = Some o0) as Hx0 by apply lookup_insert_eq.
  assert ((Type_ o0 =? OrderTypeLimit) = false) as Etype by (change (Type_ o0) with (Type_ o); lia).
  destruct (IsMarket o0) eqn:Em.
  - rewrite ret_bind. assert (side_best b0 (negb (IsBuy o)) = None) as Ebest.
    { pose proof (sr_best _ _ _ (br_sides b0 Q Hb0 (negb (IsBuy o)))) as Hbest.
      destruct (side_best b0 (negb (IsBuy o))) as [lp|]; [|done]. destruct Hbest as (p & Hp & _).
      destruct (sr_dom _ _ _ (br_sides b0 Q Hb0 _) _ _ Hp) as [ls Hls]. destruct (Hnc p ltac:(by eexists)) as [Hm _].
      change (IsMarket o0) with (IsMarket o) in Em. congruence. }
    unfold matchOrder. rewrite (get_order_some _ _ _ Hx0), ret_bind.
    replace (if IsBuy o0 then bestAsk b0 else bestBid b0) with (side_best b0 (negb (IsBuy o)))
      by (change (IsBuy o0) with (IsBuy o); by destruct (IsBuy o)).
    rewrite Ebest. cbn [match_loop]. rewrite ret_bind, (get_order_some _ _ _ Hx0), ret_bind. cbv zeta. rewrite ret_bind.
    set (o1 := if (TimeInForce o0 =? TIFIOC) && _ then _ else o0). set (o2 := if (TimeInForce o1 =? TIFFOK) && _ then _ else o1).
    assert (Type_ o2 = Type_ o0) as Et by (unfold o2, o1; repeat case_match; done). clearbody o2.
    assert (oheap (put_order b0 x o2) !! x = Some o2) as Hx2 by apply lookup_insert_eq.
    rewrite (get_order_some _ _ _ Hx2), ret_bind, Et, Etype, andb_false_r, ret_bind.
    eexists. split; [done|]. split; [done|].
    eapply (book_rep_heap b0 _ Q x); [done|done|by intros []..|done| |done| |].
    + intros y Hy. cbn. by rewrite lookup_insert_ne.
    + apply (br_ids _ _ Hb0).
    + apply (br_seq _ _ Hb0).
  - rewrite (canMatch_spec b0 Q o0 Hb0). change (IsBuy o0) with (IsBuy o). rewrite Em. cbn [orb].
    assert (match side_best b0 (negb (IsBuy o)) with
      | Some lp => match lheap b0 !! lp with Some l => rank (IsBuy o) (LPrice l) <=? rank (IsBuy o) (Price o0) | None => false end
      | None => false end = false) as ->.
    { destruct (side_best b0 (negb (IsBuy o))) as [lp|] eqn:Ebest; [|done].
      pose proof (sr_best _ _ _ (br_sides b0 Q Hb0 (negb (IsBuy o)))) as Hbest. rewrite Ebest in Hbest. destruct Hbest as (p & Hp & _).
      destruct (sr_dom _ _ _ (br_sides b0 Q Hb0 _) _ _ Hp) as [ls Hls].
      destruct (sr_levels _ _ _ (br_sides b0 Q Hb0 _) _ _ Hls) as (_ & lp' & Hlp' & l & Hl & Ep & _).
      assert (lp' = lp) as -> by congruence. rewrite Hl, Ep. destruct (Hnc p ltac:(by eexists)) as [_ Hr].
      change (Price o0) with (Price o). lia. }
    rewrite !ret_bind, (get_order_some _ _ _ Hx0), ret_bind, Etype, andb_false_r, ret_bind.
    by exists b0.
Qed.

(** ** The specification of [AddOrder] on queues *)

(** What a new order does to the queues: the new queues and the executions with
    their price, or [None] for a panic. *)
Inductive add_spec (Q : queues) (x : positive) (o : Order) : option (queues * list entry * Z) -> Prop :=
| spec_rest :
    Type_ o = OrderTypeLimit ->
    (forall p, is_Some (Q (negb (IsBuy o)) !! p) -> rank (IsBuy o) (Price o) < rank (IsBuy o) p) ->
    add_spec Q x o (Some (upd Q (IsBuy o)
      (<[Price o := default [] (Q (IsBuy o) !! Price o) ++ [(x, Quantity o)]]> (Q (IsBuy o))), [], 0))
| spec_void :
    Type_ o <> OrderTypeLimit ->
    (forall p, is_Some (Q (negb (IsBuy o)) !! p) -> IsMarket o = false /\ rank (IsBuy o) (Price o) < rank (IsBuy o) p) ->
    add_spec Q x o (Some (Q, [], 0))
| spec_trade p ls :
    best_at Q (negb (IsBuy o)) p ls -> crosses o p -> Quantity o < open_qty ls ->
    add_spec Q x o (Some (upd Q (negb (IsBuy o)) (<[p := consume (Quantity o) ls]> (Q (negb (IsBuy o)))),
                          fills (Quantity o) ls, p))
| spec_panic p ls :
    best_at Q (negb (IsBuy o)) p ls -> crosses o p -> open_qty ls <= Quantity o -> add_spec Q x o None.

(** C2. [AddOrder] refines the specification: it ends exactly as the queues say,
    with the trades of price-time priority, and keeps the pointer structure a
    faithful picture of the new queues. *)
Theorem AddOrder_refines b Q x o fresh r :
  book_rep b Q -> not_resting Q x -> sequence b + 1 < 2 ^ 64 -> oheap b !! x = Some o -> valid_request o ->
  unused_level b fresh -> add_spec Q x o r ->
  match r with
  | Some (Q', fs, p) =>
      exists b', AddOrder b (Some x) fresh = Ret (b', None) /\ book_rep b' Q' /\
        trades b' = trades b ++ map (trade_of (registered b x o) x (IsBuy o) p) fs
  | None => AddOrder b (Some x) fresh = Panic
  end.
Proof.
  intros Hb Hnr Hseq Hx Hv Hfr [Hty Hnc|Hty Hnc|p ls Hbest Hcr Hlt|p ls Hbest Hcr Hle].
  - destruct (AddOrder_rests b Q x o fresh) as (b' & E & Et & Hb'); try done. exists b'. by rewrite Et, app_nil_r.
  - destruct (AddOrder_void b Q x o fresh) as (b' & E & Et & Hb'); try done. exists b'. by rewrite Et, app_nil_r.
  - destruct (AddOrder_trades b Q x o fresh p ls) as (b' & o' & E & Hb' & Et & _); try done. by exists b'.
  - by apply (AddOrder_panics b Q x o fresh p ls).
Qed.

(** The specification leaves no order undecided. *)
Theorem add_spec_total b Q x o : book_rep b Q -> exists r, add_spec Q x o r.
Proof.
  intros Hb. pose proof (br_sides b Q Hb (negb (IsBuy o))) as [S1 S2 S3 _].
  assert ((exists p ls, best_at Q (negb (IsBuy o)) p ls) \/ (forall p, Q (negb (IsBuy o)) !! p = None)) as [(p & ls & Hbest)|Hnone].
  { destruct (side_best b (negb (IsBuy o))) as [lp|].
    - left. destruct S3 as (p & Hp & Hmax). destruct (S1 _ _ Hp) as [ls Hls]. exists p, ls. split; [done|].
      intros p' [ls' Hp']. destruct (S2 _ _ Hp') as (_ & lp' & Hlp' & _). apply Hmax. by eexists.
    - right. intros p. destruct (Q (negb (IsBuy o)) !! p) as [ls|] eqn:E; [|done].
      destruct (S2 _ _ E) as (_ & lp & Hlp & _). by rewrite S3, lookup_empty in Hlp. }
  - assert (crosses o p \/ (IsMarket o = false /\ rank (IsBuy o) (Price o) < rank (IsBuy o) p)) as [Hcr|[Hm Hnc]].
    { unfold crosses. destruct (IsMarket o); [by left; left|]. destruct (Z.le_gt_cases (rank (IsBuy o) p) (rank (IsBuy o) (Price o))); [left; by right|by right]. }
    + destruct (Z.lt_ge_cases (Quantity o) (open_qty ls)); eexists; [by eapply spec_trade|by eapply spec_panic].
    + assert (forall p', is_Some (Q (negb (IsBuy o)) !! p') -> rank (IsBuy o) (Price o) < rank (IsBuy o) p') as Hall.
      { intros p' Hp'. destruct Hbest as [_ Hmax]. specialize (Hmax p' Hp'). destruct (IsBuy o); cbn in *; lia. }
      destruct (decide (Type_ o = OrderTypeLimit)); eexists; [by apply spec_rest|]. apply spec_void; [done|]. eauto.
  - destruct (decide (Type_ o = OrderTypeLimit)); eexists; [apply spec_rest|apply spec_void]; try done;
      intros p [ls Hp]; by rewrite Hnone in Hp.
Qed.

(** ** Queries *)

(** The quote is the price and the open quantity of the best queue of each
    side, and the book is never crossed. *)
Theorem GetBBO_spec b Q :
  book_rep b Q ->
  exists bp bq ap aq, GetBBO b = Ret (bp, bq, ap, aq) /\
    (bestBid b = None /\ bp = 0 /\ bq = 0 \/ exists ls, best_at Q true bp ls /\ bq = i64 (open_qty ls)) /\
    (bestAsk b = None /\ ap = 0 /\ aq = 0 \/ exists ls, best_at Q false ap ls /\ aq = i64 (open_qty ls)) /\
    (bestBid b <> None -> bestAsk b <> None -> bp < ap).
Proof.
  intros Hb.
  assert (forall s, (side_best b s = None) \/ exists lp l ls, side_best b s = Some lp /\ lheap b !! lp = Some l /\
    side_map b s !! LPrice l = Some lp /\ best_at Q s (LPrice l) ls /\ TotalQty l = i64 (open_qty ls)) as Hside.
  { intros s. destruct (br_sides b Q Hb s) as [S1 S2 S3 _]. destruct (side_best b s) as [lp|]; [right|by left].
    destruct S3 as (p & Hp & Hmax). destruct (S1 _ _ Hp) as [ls Hls].
    destruct (S2 _ _ Hls) as (_ & lp' & Hlp' & l & Hl & Ep & _ & Et & _). assert (lp' = lp) as -> by congruence. subst p.
    exists lp, l, ls. refine (conj eq_refl (conj Hl (conj Hp (conj (conj Hls _) Et)))). intros p' [ls' Hp']. destruct (S2 _ _ Hp') as (_ & lp' & Hq & _). apply Hmax. by eexists. }
  unfold GetBBO. destruct (Hside true) as [Eb|(lb & l & ls & Eb & Hl & Hm & Hbest & Ht)], (Hside false) as [Ea|(la & l' & ls' & Ea & Hl' & Hm' & Hbest' & Ht')];
    cbn in Eb, Ea; rewrite Eb, Ea, ?(get_level_some _ _ _ Hl), ?(get_level_some _ _ _ Hl'), ?ret_bind; do 4 eexists; (split; [done|]);
    (split_and!; [| |try done]); eauto 10.
  intros _ _. by apply (br_uncrossed b Q Hb); eexists.
Qed.

(** Levels are never linked to one another, so the depth of a side is its best
    level and no more, however many levels are asked for. *)
Theorem GetDepth_shows_one_level b Q levels :
  book_rep b Q ->
  exists bs as_, GetDepth b levels = Ret (bs, as_) /\ (length bs <= 1)%nat /\ (length as_ <= 1)%nat.
Proof.
  intros Hb.
  assert (forall n s link, (forall l, link l = lnext l) \/ (forall l, link l = lprev l) ->
    exists ds, depth n b link (side_best b s) = Ret ds /\ (length ds <= 1)%nat) as Hd.
  { intros [|n] s link Hlink; [exists []; split; [done|simpl; lia]|]. destruct (br_sides b Q Hb s) as [S1 S2 S3 _].
    destruct (side_best b s) as [lp|]; [|exists []; split; [done|simpl; lia]]. destruct S3 as (p & Hp & _).
    destruct (S1 _ _ Hp) as [ls Hls]. destruct (S2 _ _ Hls) as (_ & lp' & Hlp' & l & Hl & _ & _ & _ & _ & Hn & Hv & _).
    assert (lp' = lp) as -> by congruence. cbn [depth]. rewrite (get_level_some _ _ _ Hl), ret_bind.
    assert (link l = None) as -> by (destruct Hlink as [->| ->]; done).
    exists [(LPrice l, TotalQty l)]. split; [by destruct n|simpl; lia]. }
  unfold GetDepth. destruct (Hd (Z.to_nat levels) true lprev) as (bs & E1 & L1); [by right|].
  destruct (Hd (Z.to_nat levels) false lnext) as (as_ & E2 & L2); [by left|]. cbn [side_best] in E1, E2.
  rewrite E1, ret_bind, E2, ret_bind. by exists bs, as_.
Qed.

(** ** A book with one ask *)

Definition sell10 : Order := new_order SideSell OrderTypeLimit 100 10 0.

Definition one_ask_queues : queues := upd (fun _ => ∅) false {[100 := [(1%positive, 10)]]}.

Lemma one_ask_rep : exists b, serve_all NewOrderBook [Submit 1 sell10 1] = Ret b /\ book_rep b one_ask_queues.
Proof.
  destruct (AddOrder_rests (put_order NewOrderBook 1 sell10) (fun _ => ∅) 1 sell10 1) as (b & E & _ & Hb).
  - eapply (book_rep_heap NewOrderBook _ _ 1); try (by intros []); try done; try apply NewOrderBook_rep.
  - by intros [].
  - done.
  - reflexivity.
  - split; [by right|]. by split.
  - done.
  - by intros [] p.
  - intros p. rewrite lookup_empty. by intros [].
  - exists b. split; [|exact Hb]. cbn [serve_all serve]. by rewrite E.
Qed.

(** The same with a buyer's order in memory. *)
Lemma one_ask_buyer o :
  exists b, (b ← serve_all NewOrderBook [Submit 1 sell10 1]; Ret (put_order b 2 o)) = Ret b /\ book_rep b one_ask_queues /\
    not_resting one_ask_queues 2 /\ sequence b = 1 /\ oheap b !! 2%positive = Some o /\ unused_level b 2.
Proof.
  destruct one_ask_rep as (b & E & Hb). rewrite E. eexists. split; [done|].
  assert (not_resting one_ask_queues 2) as Hnr.
  { intros s p ls Hp. unfold one_ask_queues, upd in Hp. destruct s; cbv beta iota in Hp; cbn [Bool.eqb] in Hp.
    - by rewrite lookup_empty in Hp.
    - apply lookup_singleton_Some in Hp as [_ <-]. cbn. rewrite list_elem_of_singleton. done. }
  assert (sequence b = 1 /\ bids b = ∅ /\ asks b = {[100 := 1%positive]}) as (E1 & E2 & E3).
  { vm_compute in E. injection E as <-. done. }
  split_and!; try done.
  - eapply (book_rep_heap b _ _ 2); [exact Hb|done|by intros []..|done| |done|apply (br_ids _ _ Hb)|apply (br_seq _ _ Hb)].
    intros y Hy. cbn. by rewrite lookup_insert_ne.
  - apply lookup_insert_eq.
  - intros [] p; cbn; rewrite ?E2, ?E3, ?lookup_empty; [done|]. intros [_ ?]%lookup_singleton_Some. done.
Qed.

Lemma one_ask_best : best_at one_ask_queues false 100 [(1%positive, 10)].
Proof.
  split; [reflexivity|]. intros p' [ls Hp']. unfold one_ask_queues, upd in Hp'. cbn [Bool.eqb] in Hp'.
  apply lookup_singleton_Some in Hp' as [<- _]. done.
Qed.

Lemma AddOrder_refines_witness :
  let o := new_order SideBuy OrderTypeLimit 105 4 0 in
  exists b, (b ← serve_all NewOrderBook [Submit 1 sell10 1]; Ret (put_order b 2 o)) = Ret b /\
    exists b', AddOrder b (Some 2%positive) 2 = Ret (b', None) /\
      trades b' = trades b ++ map (trade_of (registered b 2 o) 2 true 100) [(1%positive, 4)].
Proof.
  intros o. destruct (one_ask_buyer o) as (b & E & Hb & Hnr & Hs & Ho & Hf). exists b. split; [exact E|].
  destruct (AddOrder_refines b one_ask_queues 2 o 2 (Some (upd one_ask_queues false
    (<[100 := consume 4 [(1%positive, 10)]]> (one_ask_queues false)), [(1%positive, 4)], 100)) Hb Hnr) as (b' & E' & _ & Ht).
  - rewrite Hs. reflexivity.
  - exact Ho.
  - split; [by left|]. split; [vm_compute; split; congruence|]. intros _. vm_compute. split; congruence.
  - exact Hf.
  - apply (spec_trade one_ask_queues 2 o 100 [(1%positive, 10)] one_ask_best); [right; vm_compute; congruence|reflexivity].
  - exists b'. split; [exact E'|exact Ht].
Defined.

Lemma add_spec_total_witness : exists r, add_spec (fun _ => ∅) 1 sell10 r.
Proof. apply (add_spec_total NewOrderBook). apply NewOrderBook_rep. Defined.

Lemma CancelOrder_refines_witness :
  exists b o b' o', serve_all NewOrderBook [Submit 1 sell10 1] = Ret b /\ oheap b !! 1%positive = Some o /\
    CancelOrder b (ID o) = Ret (b', None) /\ oheap b' !! 1%positive = Some o' /\ Status o' = StatusCanceled.
Proof.
  destruct one_ask_rep as (b & E & Hb).
  destruct (oheap b !! 1%positive) as [o|] eqn:Ho.
  - destruct (CancelOrder_refines b one_ask_queues false 100 [] 1 10 [] o Hb) as (b' & o' & H1 & _ & H2 & H3 & _).
    + reflexivity.
    + exact Ho.
    + exists b, o, b', o'. done.
  - exfalso. vm_compute in E. injection E as <-. discriminate Ho.
Defined.

Lemma GetBBO_spec_witness :
  exists b bp bq ap aq, serve_all NewOrderBook [Submit 1 sell10 1] = Ret b /\ GetBBO b = Ret (bp, bq, ap, aq).
Proof.
  destruct one_ask_rep as (b & E & Hb). destruct (GetBBO_spec b one_ask_queues Hb) as (bp & bq & ap & aq & H & _).
  exists b, bp, bq, ap, aq. split; [exact E|exact H].
Defined.

Lemma GetDepth_shows_one_level_witness :
  exists b bs as_, serve_all NewOrderBook [Submit 1 sell10 1] = Ret b /\ GetDepth b 5 = Ret (bs, as_) /\ (length as_ <= 1)%nat.
Proof.
  destruct one_ask_rep as (b & E & Hb). destruct (GetDepth_shows_one_level b one_ask_queues 5 Hb) as (bs & as_ & H & _ & H2).
  exists b, bs, as_. split; [exact E|]. split; [exact H|exact H2].
Defined.

(** ** What goes wrong *)

(** Buying all of the best level panics. *)
Example buying_a_level_panics :
  serve_all NewOrderBook [Submit 1 sell10 1; Submit 2 (new_order SideBuy OrderTypeLimit 105 10 0) 2] = Panic.
Proof. vm_compute. reflexivity. Qed.

(** A filled buyer stays registered; cancelling it later empties the level of its
    price, and another client's order is gone from the book although it is open. *)
Example cancelling_a_filled_order_wipes_a_level :
  match serve_all NewOrderBook [Submit 1 sell10 1; Submit 2 (new_order SideBuy OrderTypeLimit 105 5 0) 2; Cancel 1;
          Submit 3 (new_order SideBuy OrderTypeLimit 105 7 0) 2] with
  | Ret b =>
      queue_at b (bids b) 105 = [(3, 7)] /\
      match serve b (Cancel 2) with
      | Ret b' => queue_at b' (bids b') 105 = [] /\ bestBid b' = None /\ orders b' !! 3 = Some 3%positive /\
                  (LeavesQty <$> oheap b' !! 3%positive) = Some 7
      | Panic => False
      end
  | Panic => False
  end.
Proof. vm_compute. split_and!; reflexivity. Qed.

(** An order marked immediate-or-cancel or fill-or-kill that reaches nothing rests
    in the book like any other. *)
Example ioc_order_rests :
  match serve_all NewOrderBook [Submit 1 (new_order SideBuy OrderTypeLimit 100 5 TIFIOC) 1;
          Submit 2 (new_order SideBuy OrderTypeLimit 100 6 TIFFOK) 2] with
  | Ret b => queue_at b (bids b) 100 = [(1, 5); (2, 6)]
  | Panic => False
  end.
Proof. vm_compute. reflexivity. Qed.
