(* ===== verification/Cron.v ===== *)
(** * Cron schedules (pkg/scheduler/cron.go, schedule.go)

    Expressions are byte strings.  An instant is a minute of UTC (seconds play no
    part: [next] starts from the minute after the given time), read in a
    location whose clocks change at most once; the calendar of package time is
    modelled with its leap years, and [time.Date] with its two looks at the
    zone.  The zero time is [None]. *)
From S2P Require Import Prelude Codec.

(** ** The calendar *)

Record civil : Type := mkCivil {
  year : Z;
  month : Z;
  day : Z;
  hour : Z;
  minute : Z
}.

Definition leap (y : Z) : bool :=
  (y mod 4 =? 0) && (negb (y mod 100 =? 0) || (y mod 400 =? 0)).

Definition days_in (y m : Z) : Z :=
  if m =? 2 then (if leap y then 29 else 28)
  else if (m =? 4) || (m =? 6) || (m =? 9) || (m =? 11) then 30 else 31.

(** Days before a year and before a month of it. *)
Definition days_before_year (y : Z) : Z := 365 * (y - 1) + (y - 1) / 4 - (y - 1) / 100 + (y - 1) / 400.

Definition days_before_month (y m : Z) : Z :=
  sumZ (map (fun k => days_in y (Z.of_nat k)) (seq 1 (Z.to_nat (m - 1)))).

(** 1 January of year 1 is day 1, a Monday. *)
Definition day_number (y m d : Z) : Z := days_before_year y + days_before_month y m + d.

Definition Weekday (c : civil) : Z := day_number (year c) (month c) (day c) mod 7.

(** Minutes on one scale, to compare times. *)
Definition minutes (c : civil) : Z :=
  (day_number (year c) (month c) (day c) * 24 + hour c) * 60 + minute c.

Definition valid (c : civil) : Prop :=
  1 <= year c /\ 1 <= month c <= 12 /\ 1 <= day c <= days_in (year c) (month c) /\ 0 <= hour c < 24 /\ 0 <= minute c < 60.

(** The wall clock a month, a day, an hour further, each at its start, and a
    minute further. *)
Definition next_month (c : civil) : civil :=
  if month c =? 12 then mkCivil (year c + 1) 1 1 0 0 else mkCivil (year c) (month c + 1) 1 0 0.

Definition next_day (c : civil) : civil :=
  if day c =? days_in (year c) (month c) then next_month c
  else mkCivil (year c) (month c) (day c + 1) 0 0.

Definition next_hour (c : civil) : civil :=
  if hour c =? 23 then next_day c else mkCivil (year c) (month c) (day c) (hour c + 1) 0.

Definition next_minute (c : civil) : civil :=
  if minute c =? 59 then next_hour c else mkCivil (year c) (month c) (day c) (hour c) (minute c + 1).

(** The date of a day number: the year is found from a guess below it. *)
Fixpoint find_year (fuel : nat) (y d : Z) : Z :=
  match fuel with
  | O => y
  | S fuel => if days_before_year (y + 1) <? d then find_year fuel (y + 1) d else y
  end.

Fixpoint find_month (fuel : nat) (y m d : Z) : Z * Z :=
  match fuel with
  | O => (m, d)
  | S fuel => if days_in y m <? d then find_month fuel y (m + 1) (d - days_in y m) else (m, d)
  end.

(** The calendar at a place of the scale of [minutes]. *)
Definition civil_of (k : Z) : civil :=
  let d := k / 1440 in
  let y := find_year 4 ((d - 1) * 400 / 146097) d in
  let '(m, dd) := find_month 11 y 1 (d - days_before_year y) in
  mkCivil y m dd (k mod 1440 / 60) (k mod 60).

(** ** Locations

    The offset to UTC, in minutes, before and from an instant. *)
Record Location : Type := mkLocation {
  changed : Z;
  before : Z;
  after : Z
}.

Definition offset (z : Location) (u : Z) : Z := if u <? changed z then before z else after z.

(** The wall clock of an instant. *)
Definition civil_at (z : Location) (u : Z) : civil := civil_of (u + offset z u).

(** [time.Date] in a location: the offset in force at the wall clock read as UTC,
    and when the instant that gives is on the other side of the change, the
    offset there. *)
Definition Date (z : Location) (c : civil) : Z :=
  let unix := minutes c in
  let off := offset z unix in
  if off =? 0 then unix
  else
    let utc := unix - off in
    if bool_decide ((utc <? changed z) = (unix <? changed z)) then utc else unix - offset z utc.

(** ** Fields *)

Record cronField : Type := mkField { values : gset Z; any : bool }.

Record cronSchedule : Type := mkSchedule {
  fminute : cronField;
  fhour : cronField;
  fday : cronField;
  fmonth : cronField;
  fweekday : cronField
}.

Definition matches (cf : cronField) (value : Z) : bool :=
  if any cf then true else bool_decide (value ∈ values cf).

(** ** The search *)

(** The day test: either field when both are given, else the one that is. *)
Definition day_ok (cs : cronSchedule) (c : civil) : bool :=
  let dayMatches := matches (fday cs) (day c) in
  let weekdayMatches := matches (fweekday cs) (Weekday c) in
  if negb (any (fday cs)) && negb (any (fweekday cs)) then dayMatches || weekdayMatches
  else if negb (any (fday cs)) then dayMatches
  else if negb (any (fweekday cs)) then weekdayMatches
  else true.

(** The moves of the loop. *)
Definition to_month (z : Location) (u : Z) : Z := Date z (next_month (civil_at z u)).

(** [AddDate] keeps the time of day; the second [Date] is at midnight. *)
Definition to_day (z : Location) (u : Z) : Z :=
  let c := civil_at z u in
  let n := next_day c in
  let c' := civil_at z (Date z (mkCivil (year n) (month n) (day n) (hour c) (minute c))) in
  Date z (mkCivil (year c') (month c') (day c') 0 0).

Definition to_hour (z : Location) (u : Z) : Z :=
  let c := civil_at z (u + 60) in Date z (mkCivil (year c) (month c) (day c) (hour c) 0).

Fixpoint next_loop (attempts : nat) (z : Location) (cs : cronSchedule) (u : Z) : option Z :=
  match attempts with
  | O => None
  | S attempts =>
      let current := civil_at z u in
      if negb (matches (fmonth cs) (month current)) then next_loop attempts z cs (to_month z u)
      else if negb (day_ok cs current) then next_loop attempts z cs (to_day z u)
      else if negb (matches (fhour cs) (hour current)) then next_loop attempts z cs (to_hour z u)
      else if negb (matches (fminute cs) (minute current)) then next_loop attempts z cs (u + 1)
      else Some u
  end.

Definition maxAttempts : Z := 365 * 24 * 60.

(** [from] is the minute the given time is truncated to. *)
Definition next (z : Location) (cs : cronSchedule) (from : Z) : option Z :=
  next_loop (Z.to_nat maxAttempts) z cs (from + 1).

(** ** Parsing *)

Inductive cron_error : Type :=
| FieldCount (n : nat)
| InvalidStepFormat
| InvalidStepValue
| StepNotPositive
| InvalidRangeFormat
| InvalidRangeBound
| RangeOutOfBounds
| InvalidValue
| ValueOutOfBounds.

Definition is_digit (b : Z) : bool := (48 <=? b) && (b <=? 57).

Fixpoint digits (acc : Z) (l : list Z) : Z :=
  match l with
  | [] => acc
  | b :: l => if is_digit b then digits (acc * 10 + (b - 48)) l else acc
  end.

(** [fmt.Sscanf(s, "%d", &v)] on a string without white space: an optional sign,
    at least one digit, the number must fit an int64; what follows is ignored. *)
Definition Sscanf_d (s : list Z) : option Z :=
  let '(neg, l) := match s with
                   | 45 :: l => (true, l)
                   | 43 :: l => (false, l)
                   | _ => (false, s)
                   end in
  match l with
  | b :: _ =>
      if is_digit b then
        let v := if neg : bool then - digits 0 l else digits 0 l in
        if (min_i64 <=? v) && (v <=? max_i64) then Some v else None
      else None
  | [] => None
  end.

(** [for i := start; i <= last; i += step] with the sum in an int64.  The bounds
    are below 60, so a loop whose sum does not overflow ends within the fuel
    ([step_loop_spec]); after an overflow the loop of the code goes on below the
    bound far beyond the fuel. *)
Fixpoint step_loop (fuel : nat) (i last step : Z) (acc : gset Z) : gset Z :=
  match fuel with
  | O => acc
  | S fuel => if i <=? last then step_loop fuel (i +i64 step) last step ({[i]} ∪ acc) else acc
  end.

Definition loop_fuel : nat := 128.

Definition contains (b : Z) (s : list Z) : bool := bool_decide (b ∈ s).

Definition out_of_range (start stop min max : Z) : bool :=
  (start <? min) || (max <? start) || (stop <? min) || (max <? stop) || (stop <? start).

(** A range such as 1-5, for both places that read one. *)
Definition parse_range (s : list Z) (min max : Z) : (Z * Z) + cron_error :=
  match split_on 45 s with
  | [a; b] =>
      match Sscanf_d a with
      | None => inr InvalidRangeBound
      | Some start =>
          match Sscanf_d b with
          | None => inr InvalidRangeBound
          | Some stop => if out_of_range start stop min max then inr RangeOutOfBounds else inl (start, stop)
          end
      end
  | _ => inr InvalidRangeFormat
  end.

(** The list form; the pieces have no white space to trim. *)
Fixpoint parse_list (parts : list (list Z)) (min max : Z) (acc : gset Z) : gset Z + cron_error :=
  match parts with
  | [] => inl acc
  | p :: parts =>
      match Sscanf_d p with
      | None => inr InvalidValue
      | Some v => if (v <? min) || (max <? v) then inr ValueOutOfBounds
                  else parse_list parts min max ({[v]} ∪ acc)
      end
  end.

Definition parseField (field : list Z) (min max : Z) : cronField + cron_error :=
  if bool_decide (field = lit "*") then inl (mkField ∅ true)
  else if contains 47 field then
    match split_on 47 field with
    | [rangePart; stepPart] =>
        match Sscanf_d stepPart with
        | None => inr InvalidStepValue
        | Some step =>
            if step <=? 0 then inr StepNotPositive
            else if bool_decide (rangePart = lit "*") then inl (mkField (step_loop loop_fuel min max step ∅) false)
            else if contains 45 rangePart then
              match parse_range rangePart min max with
              | inl (start, stop) => inl (mkField (step_loop loop_fuel start stop step ∅) false)
              | inr e => inr e
              end
            else
              match Sscanf_d rangePart with
              | None => inr InvalidValue
              | Some start =>
                  if (start <? min) || (max <? start) then inr ValueOutOfBounds
                  else inl (mkField (step_loop loop_fuel start max step ∅) false)
              end
        end
    | _ => inr InvalidStepFormat
    end
  else if contains 45 field then
    match parse_range field min max with
    | inl (start, stop) => inl (mkField (step_loop loop_fuel start stop 1 ∅) false)
    | inr e => inr e
    end
  else if contains 44 field then
    match parse_list (split_on 44 field) min max ∅ with
    | inl vs => inl (mkField vs false)
    | inr e => inr e
    end
  else
    match Sscanf_d field with
    | None => inr InvalidValue
    | Some v => if (v <? min) || (max <? v) then inr ValueOutOfBounds else inl (mkField {[v]} false)
    end.

Definition parseCron (expression : list Z) : cronSchedule + cron_error :=
  match Fields expression with
  | [p0; p1; p2; p3; p4] =>
      match parseField p0 0 59 with inr e => inr e | inl mi =>
      match parseField p1 0 23 with inr e => inr e | inl ho =>
      match parseField p2 1 31 with inr e => inr e | inl da =>
      match parseField p3 1 12 with inr e => inr e | inl mo =>
      match parseField p4 0 7 with inr e => inr e | inl we =>
        inl (mkSchedule mi ho da mo we)
      end end end end end
  | parts => inr (FieldCount (length parts))
  end.

(** ** Calendar arithmetic *)

Lemma days_in_range y m : 28 <= days_in y m <= 31.
Proof. unfold days_in. repeat case_match; lia. Qed.

Lemma days_before_month_1 y : days_before_month y 1 = 0.
Proof. done. Qed.

Lemma days_before_month_succ y m :
  1 <= m -> days_before_month y (m + 1) = days_before_month y m + days_in y m.
Proof.
  intros Hm. unfold days_before_month. replace (Z.to_nat (m + 1 - 1)) with (Z.to_nat (m - 1) + 1)%nat by lia.
  rewrite seq_app, map_app, sumZ_app. cbn [seq map]. unfold sumZ at 2. cbn [foldr].
  replace (Z.of_nat (1 + Z.to_nat (m - 1))) with m by lia. lia.
Qed.

Lemma days_before_month_mono y m m' : 1 <= m <= m' -> days_before_month y m <= days_before_month y m'.
Proof.
  intros [Hm Hle]. replace m' with (m + Z.of_nat (Z.to_nat (m' - m))) by lia.
  induction (Z.to_nat (m' - m)) as [|k IH]; [rewrite Z.add_0_r; lia|].
  replace (m + Z.of_nat (S k)) with (m + Z.of_nat k + 1) by lia.
  rewrite days_before_month_succ by lia. pose proof (days_in_range y (m + Z.of_nat k)). lia.
Qed.

Lemma days_before_month_nonneg y m : 1 <= m -> 0 <= days_before_month y m.
Proof. intros Hm. pose proof (days_before_month_mono y 1 m). rewrite days_before_month_1 in *. lia. Qed.

(** A year is the sum of its months. *)
Lemma days_before_year_succ y : days_before_year (y + 1) = days_before_year y + days_before_month y 13.
Proof.
  unfold days_before_year. change (days_before_month y 13) with
    (31 + (days_in y 2 + (31 + (30 + (31 + (30 + (31 + (31 + (30 + (31 + (30 + (31 + 0)))))))))))).
  unfold days_in, leap. cbn [Z.eqb]. replace (y + 1 - 1) with y by lia.
  destruct (Z.eqb_spec (y mod 4) 0), (Z.eqb_spec (y mod 100) 0), (Z.eqb_spec (y mod 400) 0); cbn [andb orb negb Pos.eqb];
    Z.div_mod_to_equations; lia.
Qed.

Lemma days_before_year_mono y y' : y <= y' -> days_before_year y <= days_before_year y'.
Proof.
  intros Hle. replace y' with (y + Z.of_nat (Z.to_nat (y' - y))) by lia.
  induction (Z.to_nat (y' - y)) as [|k IH]; [rewrite Z.add_0_r; lia|].
  replace (y + Z.of_nat (S k)) with (y + Z.of_nat k + 1) by lia.
  rewrite days_before_year_succ. pose proof (days_before_month_nonneg (y + Z.of_nat k) 13). lia.
Qed.

(** Where the month of a time ends. *)
Definition month_base (c : civil) : Z := days_before_year (year c) + days_before_month (year c) (month c).

Lemma minutes_eq c : minutes c = ((month_base c + day c) * 24 + hour c) * 60 + minute c.
Proof. reflexivity. Qed.

Lemma next_month_minutes c :
  valid c -> minutes (next_month c) = (month_base c + days_in (year c) (month c) + 1) * 1440.
Proof.
  intros (_ & Hm & _). unfold next_month. rewrite minutes_eq. unfold month_base.
  destruct (Z.eqb_spec (month c) 12) as [E|E]; cbn [year month day hour minute].
  - rewrite days_before_year_succ, days_before_month_1, E.
    replace 13 with (12 + 1) by lia. rewrite days_before_month_succ by lia. lia.
  - rewrite days_before_month_succ by lia. lia.
Qed.

Lemma minutes_in_month c :
  valid c -> (month_base c + 1) * 1440 <= minutes c < minutes (next_month c).
Proof.
  intros Hv. rewrite next_month_minutes by done. destruct Hv as (_ & _ & Hd & Hh & Hmi). rewrite minutes_eq. lia.
Qed.

(** A later month begins after the end of this one. *)
Lemma later_month c c' :
  valid c -> valid c' -> year c < year c' \/ (year c = year c' /\ month c < month c') ->
  minutes (next_month c) <= (month_base c' + 1) * 1440.
Proof.
  intros Hc Hc' Hlt. rewrite next_month_minutes by done. destruct Hc as (_ & Hm & _), Hc' as (_ & Hm' & _).
  unfold month_base. destruct Hlt as [Hy|[Hy Hmm]].
  - pose proof (days_before_year_mono (year c + 1) (year c') ltac:(lia)) as H1. rewrite days_before_year_succ in H1.
    pose proof (days_before_month_mono (year c) (month c + 1) 13 ltac:(lia)) as H2. rewrite days_before_month_succ in H2 by lia.
    pose proof (days_before_month_nonneg (year c') (month c') ltac:(lia)). lia.
  - rewrite <- Hy. pose proof (days_before_month_mono (year c) (month c + 1) (month c') ltac:(lia)) as H2.
    rewrite days_before_month_succ in H2 by lia. lia.
Qed.

Lemma same_month c c' :
  valid c -> valid c' -> minutes c <= minutes c' < minutes (next_month c) -> year c' = year c /\ month c' = month c.
Proof.
  intros Hc Hc' Hb. pose proof (minutes_in_month c Hc). pose proof (minutes_in_month c' Hc').
  assert (~ (year c < year c' \/ (year c = year c' /\ month c < month c'))) as H1
    by (intros Hlt; pose proof (later_month c c' Hc Hc' Hlt); lia).
  assert (~ (year c' < year c \/ (year c' = year c /\ month c' < month c))) as H2
    by (intros Hlt; pose proof (later_month c' c Hc' Hc Hlt); lia).
  lia.
Qed.

Lemma next_month_valid c : valid c -> valid (next_month c).
Proof.
  intros (Hy & Hm & _). unfold next_month. destruct (Z.eqb_spec (month c) 12); unfold valid; cbn.
  - pose proof (days_in_range (year c + 1) 1). lia.
  - pose proof (days_in_range (year c) (month c + 1)). lia.
Qed.

Lemma next_day_spec c :
  valid c -> valid (next_day c) /\ minutes (next_day c) = (month_base c + day c + 1) * 1440.
Proof.
  intros Hc. unfold next_day. destruct (Z.eqb_spec (day c) (days_in (year c) (month c))) as [E|E].
  - split; [by apply next_month_valid|]. rewrite next_month_minutes by done. lia.
  - destruct Hc as (Hy & Hm & Hd & _). split; [unfold valid; cbn; lia|]. rewrite minutes_eq. unfold month_base. cbn. lia.
Qed.

Lemma next_hour_spec c :
  valid c -> valid (next_hour c) /\ minutes (next_hour c) = ((month_base c + day c) * 24 + hour c + 1) * 60.
Proof.
  intros Hc. unfold next_hour. destruct (Z.eqb_spec (hour c) 23) as [E|E].
  - destruct (next_day_spec c Hc) as [Hv ->]. split; [done|lia].
  - destruct Hc as (Hy & Hm & Hd & Hh & _). split; [unfold valid; cbn; lia|]. rewrite minutes_eq. unfold month_base. cbn. lia.
Qed.

(** A minute later. *)
Lemma next_minute_spec c : valid c -> valid (next_minute c) /\ minutes (next_minute c) = minutes c + 1.
Proof.
  intros Hc. unfold next_minute. destruct (Z.eqb_spec (minute c) 59) as [E|E].
  - destruct (next_hour_spec c Hc) as [Hv ->]. split; [done|]. rewrite minutes_eq. lia.
  - destruct Hc as (Hy & Hm & Hd & Hh & Hmi). split; [unfold valid; cbn; lia|]. rewrite !minutes_eq. unfold month_base. cbn. lia.
Qed.

Lemma same_day c c' :
  valid c -> valid c' -> minutes c <= minutes c' < minutes (next_day c) ->
  year c' = year c /\ month c' = month c /\ day c' = day c.
Proof.
  intros Hc Hc' Hb. destruct (next_day_spec c Hc) as [_ E]. pose proof (next_month_minutes c Hc) as En.
  destruct (same_month c c' Hc Hc') as [Hy Hm].
  { destruct Hc as (_ & _ & Hd & _). lia. }
  split_and!; try done. rewrite E in Hb. rewrite (minutes_eq c), (minutes_eq c') in Hb. unfold month_base in *. rewrite Hy, Hm in Hb.
  destruct Hc as (_ & _ & _ & Hh & Hmi), Hc' as (_ & _ & _ & Hh' & Hmi'). lia.
Qed.

Lemma same_hour c c' :
  valid c -> valid c' -> minutes c <= minutes c' < minutes (next_hour c) ->
  year c' = year c /\ month c' = month c /\ day c' = day c /\ hour c' = hour c.
Proof.
  intros Hc Hc' Hb. destruct (next_hour_spec c Hc) as [_ E]. destruct (next_day_spec c Hc) as [_ Ed].
  destruct (same_day c c' Hc Hc') as (Hy & Hm & Hd).
  { destruct Hc as (_ & _ & _ & Hh & _). lia. }
  split_and!; try done. rewrite E in Hb. rewrite (minutes_eq c), (minutes_eq c') in Hb. unfold month_base in *. rewrite Hy, Hm, Hd in Hb.
  destruct Hc as (_ & _ & _ & _ & Hmi), Hc' as (_ & _ & _ & _ & Hmi'). lia.
Qed.

(** Times are determined by their place on the scale. *)
Lemma minutes_inj c c' : valid c -> valid c' -> minutes c = minutes c' -> c = c'.
Proof.
  intros Hc Hc' E. destruct (same_hour c c' Hc Hc') as (Hy & Hm & Hd & Hh).
  { destruct (next_hour_spec c Hc) as [_ Eh]. rewrite Eh, <- E. rewrite minutes_eq. destruct Hc as (_ & _ & _ & _ & Hmi). lia. }
  rewrite !minutes_eq in E. unfold month_base in E. rewrite Hy, Hm, Hd, Hh in E.
  destruct c, c'. cbn in *. f_equal; lia || done.
Qed.

(** ** The search on the wall clock *)

Definition cron_matches (cs : cronSchedule) (c : civil) : bool :=
  matches (fmonth cs) (month c) && day_ok cs c && matches (fhour cs) (hour c) && matches (fminute cs) (minute c).

(** The search on the wall clock of a location whose clocks never change. *)
Fixpoint wall_loop (attempts : nat) (cs : cronSchedule) (current : civil) : option civil :=
  match attempts with
  | O => None
  | S attempts =>
      if negb (matches (fmonth cs) (month current)) then wall_loop attempts cs (next_month current)
      else if negb (day_ok cs current) then wall_loop attempts cs (next_day current)
      else if negb (matches (fhour cs) (hour current)) then wall_loop attempts cs (next_hour current)
      else if negb (matches (fminute cs) (minute current)) then wall_loop attempts cs (next_minute current)
      else Some current
  end.

(** Every minute of that wall clock. *)
Fixpoint wall_scan (n : nat) (cs : cronSchedule) (c : civil) : option civil :=
  match n with
  | O => None
  | S n => if cron_matches cs c then Some c else wall_scan n cs (next_minute c)
  end.

(** One turn of the search: it stops at a match, or moves on past times that do
    not match. *)
Lemma wall_loop_turn n cs c :
  valid c ->
  (cron_matches cs c = true /\ wall_loop (S n) cs c = Some c) \/
  (exists c1, wall_loop (S n) cs c = wall_loop n cs c1 /\ valid c1 /\ minutes c < minutes c1 /\
     forall c', valid c' -> minutes c <= minutes c' < minutes c1 -> cron_matches cs c' = false).
Proof.
  intros Hc. cbn [wall_loop]. unfold cron_matches.
  destruct (matches (fmonth cs) (month c)) eqn:Em; cbn [negb andb].
  2: { right. exists (next_month c). split; [done|]. split; [by apply next_month_valid|].
       split; [by apply minutes_in_month|]. intros c' Hc' Hb. destruct (same_month c c' Hc Hc' Hb) as [_ ->]. by rewrite Em. }
  destruct (day_ok cs c) eqn:Ed; cbn [negb andb].
  2: { right. exists (next_day c). destruct (next_day_spec c Hc) as [Hv E]. split; [done|]. split; [done|]. split.
       - rewrite E, minutes_eq. destruct Hc as (_ & _ & _ & ? & ?). lia.
       - intros c' Hc' Hb. destruct (same_day c c' Hc Hc' Hb) as (Hy & Hm & Hd).
         assert (day_ok cs c' = false) as ->; [|by rewrite andb_false_r].
         rewrite <- Ed. unfold day_ok, Weekday. by rewrite Hy, Hm, Hd. }
  destruct (matches (fhour cs) (hour c)) eqn:Eh; cbn [negb andb].
  2: { right. exists (next_hour c). destruct (next_hour_spec c Hc) as [Hv E]. split; [done|]. split; [done|]. split.
       - rewrite E, minutes_eq. destruct Hc as (_ & _ & _ & ? & ?). lia.
       - intros c' Hc' Hb. destruct (same_hour c c' Hc Hc' Hb) as (_ & _ & _ & ->). by rewrite Eh, andb_false_r. }
  destruct (matches (fminute cs) (minute c)) eqn:Emi; cbn [negb]; [by left|].
  right. exists (next_minute c). destruct (next_minute_spec c Hc) as [Hv E]. split; [done|]. split; [done|]. split; [lia|].
  intros c' Hc' Hb. assert (c = c') as <- by (apply minutes_inj; try done; lia). by rewrite Emi, andb_false_r.
Qed.

Lemma wall_loop_sound cs n : forall c r,
  valid c -> wall_loop n cs c = Some r ->
  valid r /\ cron_matches cs r = true /\ minutes c <= minutes r /\
  forall c', valid c' -> minutes c <= minutes c' < minutes r -> cron_matches cs c' = false.
Proof.
  induction n as [|n IH]; intros c r Hc Hr; [done|].
  destruct (wall_loop_turn n cs c Hc) as [[Hm E]|(c1 & E & Hc1 & Hlt & Hskip)]; rewrite E in Hr.
  - injection Hr as <-. split_and!; try done. intros c' _ Hb. lia.
  - destruct (IH c1 r Hc1 Hr) as (Hv & Hm & Hle & Hno). split_and!; try done; [lia|].
    intros c' Hc' Hb. destruct (Z.lt_ge_cases (minutes c') (minutes c1)); [apply Hskip|apply Hno]; try done; lia.
Qed.

Lemma wall_loop_complete cs n : forall c r,
  valid c -> valid r -> cron_matches cs r = true -> minutes c <= minutes r < minutes c + Z.of_nat n ->
  exists r', wall_loop n cs c = Some r'.
Proof.
  induction n as [|n IH]; intros c r Hc Hr Hm Hb; [lia|].
  destruct (wall_loop_turn n cs c Hc) as [[_ E]|(c1 & E & Hc1 & Hlt & Hskip)]; rewrite E; [by exists c|].
  apply (IH c1 r Hc1 Hr Hm). split; [|lia]. destruct (Z.lt_ge_cases (minutes r) (minutes c1)); [|lia].
  rewrite Hskip in Hm; [done|done|lia].
Qed.

Lemma wall_scan_spec cs n : forall c r,
  valid c -> wall_scan n cs c = Some r ->
  valid r /\ cron_matches cs r = true /\ minutes c <= minutes r < minutes c + Z.of_nat n /\
  forall c', valid c' -> minutes c <= minutes c' < minutes r -> cron_matches cs c' = false.
Proof.
  induction n as [|n IH]; intros c r Hc Hr; [done|]. cbn [wall_scan] in Hr.
  destruct (cron_matches cs c) eqn:Em.
  - injection Hr as <-. split_and!; try done; try lia.
  - destruct (next_minute_spec c Hc) as [Hv E]. destruct (IH _ r Hv Hr) as (Hvr & Hm & Hb & Hno). split_and!; try done; try lia.
    intros c' Hc' Hb'. destruct (decide (minutes c' = minutes c)) as [Eq|Hne].
    + by rewrite (minutes_inj c' c Hc' Hc Eq).
    + apply Hno; [done|lia].
Qed.

Lemma wall_loop_scan cs n c r :
  valid c -> wall_scan n cs c = Some r -> wall_loop n cs c = Some r.
Proof.
  intros Hv Hr. destruct (wall_scan_spec cs _ _ r Hv Hr) as (Hvr & Hm & Hb & Hno).
  destruct (wall_loop_complete cs _ _ r Hv Hvr Hm Hb) as [r' E]. rewrite E. f_equal.
  destruct (wall_loop_sound cs _ _ r' Hv E) as (Hvr' & Hm' & Hle' & Hno').
  apply minutes_inj; try done. destruct (Z.lt_trichotomy (minutes r') (minutes r)) as [Hlt|[Heq|Hgt]]; [|done|].
  - by rewrite Hno in Hm' by (done || lia).
  - by rewrite Hno' in Hm by (done || lia).
Qed.

(** ** The calendar of an instant *)

Lemma find_year_spec fuel : forall y d,
  days_before_year y < d -> d <= days_before_year (y + 1 + Z.of_nat fuel) ->
  let y' := find_year fuel y d in y <= y' /\ days_before_year y' < d <= days_before_year (y' + 1).
Proof.
  induction fuel as [|fuel IH]; intros y d Hlo Hhi; cbn [find_year].
  - split; [lia|]. by replace (y + 1 + Z.of_nat 0) with (y + 1) in Hhi by lia.
  - destruct (Z.ltb_spec (days_before_year (y + 1)) d) as [Hlt|Hge]; [|split; [lia|done]].
    destruct (IH (y + 1) d) as [H1 H2]; [done| |split; [lia|done]].
    by replace (y + 1 + 1 + Z.of_nat fuel) with (y + 1 + Z.of_nat (S fuel)) by lia.
Qed.

Lemma find_month_spec fuel : forall y m d,
  1 <= m -> m + Z.of_nat fuel = 12 -> 1 <= d ->
  d <= days_before_month y 13 - days_before_month y m ->
  let '(m', d') := find_month fuel y m d in
  1 <= m' <= 12 /\ 1 <= d' <= days_in y m' /\
  days_before_month y m' + d' = days_before_month y m + d.
Proof.
  induction fuel as [|fuel IH]; intros y m d Hm Hf Hd Hle; cbn [find_month].
  - assert (m = 12) as -> by lia. replace 13 with (12 + 1) in Hle by lia.
    rewrite days_before_month_succ in Hle by lia. lia.
  - destruct (Z.ltb_spec (days_in y m) d) as [Hlt|Hge]; [|split_and!; lia].
    pose proof (days_before_month_succ y m Hm) as E.
    specialize (IH y (m + 1) (d - days_in y m)).
    destruct (find_month fuel y (m + 1) (d - days_in y m)) as [m' d']. lia.
Qed.

(** The day numbers of the calendar begin at 1. *)
Lemma civil_of_spec k : 1440 <= k -> valid (civil_of k) /\ minutes (civil_of k) = k.
Proof.
  intros Hk. unfold civil_of. set (d := k / 1440). assert (1 <= d) by (unfold d; Z.div_mod_to_equations; lia).
  set (g := (d - 1) * 400 / 146097).
  assert (days_before_year g < d /\ d <= days_before_year (g + 1 + Z.of_nat 4)) as [Hlo Hhi].
  { unfold days_before_year, g. split; Z.div_mod_to_equations; lia. }
  destruct (find_year_spec 4 g d Hlo Hhi) as [Hg Hy]. cbv zeta in Hg, Hy.
  set (y := find_year 4 g d) in *. rewrite days_before_year_succ in Hy.
  assert (1 <= y) as Hy1.
  { destruct (Z.lt_ge_cases y 1) as [Hlt|]; [|lia]. exfalso.
    pose proof (days_before_year_mono (y + 1) 1 ltac:(lia)) as Hmo.
    rewrite days_before_year_succ in Hmo. change (days_before_year 1) with 0 in Hmo. lia. }
  pose proof (find_month_spec 11 y 1 (d - days_before_year y)) as Hmo.
  rewrite days_before_month_1 in Hmo.
  destruct (find_month 11 y 1 (d - days_before_year y)) as [m dd].
  destruct Hmo as (Hm & Hd & E); [lia..|].
  assert (k mod 1440 / 60 * 60 + k mod 60 = k mod 1440) by (Z.div_mod_to_equations; lia).
  split; [unfold valid; cbn [year month day hour minute]; Z.div_mod_to_equations; lia|].
  rewrite minutes_eq. unfold month_base; cbn [year month day hour minute].
  replace (days_before_year y + days_before_month y m + dd) with d by lia.
  unfold d. Z.div_mod_to_equations. lia.
Qed.

Lemma civil_of_minutes c : valid c -> civil_of (minutes c) = c.
Proof.
  intros Hc. assert (1440 <= minutes c) as Hle.
  { destruct Hc as (Hy & Hm & Hd & Hh & Hmi). rewrite minutes_eq. unfold month_base.
    pose proof (days_before_year_mono 1 (year c) ltac:(lia)) as H1. change (days_before_year 1) with 0 in H1.
    pose proof (days_before_month_nonneg (year c) (month c) ltac:(lia)). lia. }
  destruct (civil_of_spec _ Hle) as [Hv E]. by apply minutes_inj.
Qed.

(** ** A location whose clocks never change *)

Definition fixed_offset (z : Location) : Prop := before z = after z.

Lemma fixed_offset_eq z u : fixed_offset z -> offset z u = after z.
Proof. intros Hz. unfold offset. case_match; [exact Hz|done]. Qed.

Section Fixed.
Context (z : Location) (Hz : fixed_offset z).

Lemma Date_fixed c : Date z c = minutes c - after z.
Proof using Hz.
  unfold Date. rewrite !fixed_offset_eq by done. destruct (Z.eqb_spec (after z) 0); [lia|].
  by case_bool_decide.
Qed.

Lemma civil_at_fixed u c : valid c -> u + after z = minutes c -> civil_at z u = c.
Proof using Hz. intros Hc E. unfold civil_at. rewrite fixed_offset_eq, E by done. by apply civil_of_minutes. Qed.

Lemma civil_at_Date c : valid c -> civil_at z (Date z c) = c.
Proof using Hz. intros Hc. apply civil_at_fixed; [done|]. rewrite Date_fixed. lia. Qed.

(** Each move of the loop is the move of the wall clock. *)
Lemma moves_fixed u c :
  valid c -> u + after z = minutes c ->
  to_month z u + after z = minutes (next_month c) /\
  to_day z u + after z = minutes (next_day c) /\
  to_hour z u + after z = minutes (next_hour c) /\
  u + 1 + after z = minutes (next_minute c).
Proof using Hz.
  intros Hc E. pose proof (civil_at_fixed u c Hc E) as Ec.
  destruct (next_day_spec c Hc) as [Hd Ed]. destruct (next_hour_spec c Hc) as [Hh Eh].
  destruct (next_minute_spec c Hc) as [_ Em]. split_and!; [| | |lia].
  - unfold to_month. rewrite Ec, Date_fixed. lia.
  - unfold to_day. rewrite Ec. cbv zeta. set (n := next_day c) in *.
    rewrite civil_at_Date. 2: { unfold valid in *; cbn; tauto. }
    cbn [year month day hour minute]. rewrite Date_fixed.
    assert (mkCivil (year n) (month n) (day n) 0 0 = n) as ->; [|lia].
    unfold n, next_day, next_month. by repeat case_match.
  - unfold to_hour. set (n := next_hour c) in *.
    assert (civil_at z (u + 60) = mkCivil (year n) (month n) (day n) (hour n) (minute c)) as ->.
    { apply civil_at_fixed; [unfold valid in *; cbn; tauto|].
      rewrite minutes_eq in Eh. rewrite minutes_eq. unfold month_base in *; cbn [year month day hour minute].
      assert (minute n = 0) as E0 by (unfold n, next_hour, next_day, next_month; by repeat case_match).
      rewrite minutes_eq in E. unfold month_base in *. lia. }
    cbn [year month day hour minute]. rewrite Date_fixed.
    assert (mkCivil (year n) (month n) (day n) (hour n) 0 = n) as ->; [|lia].
    unfold n, next_hour, next_day, next_month. by repeat case_match.
Qed.

Lemma next_loop_fixed cs n : forall u c,
  valid c -> u + after z = minutes c ->
  next_loop n z cs u = (fun r => minutes r - after z) <$> wall_loop n cs c.
Proof using Hz.
  induction n as [|n IH]; intros u c Hc E; [done|]. cbn [next_loop wall_loop].
  rewrite (civil_at_fixed u c Hc E). destruct (moves_fixed u c Hc E) as (E1 & E2 & E3 & E4).
  repeat case_match; try done; [apply IH..|simpl; f_equal; lia]; try done.
  - by apply next_month_valid.
  - by apply next_day_spec.
  - by apply next_hour_spec.
  - by apply next_minute_spec.
Qed.
End Fixed.

(** The reference: look at every minute. *)
Fixpoint first_match (n : nat) (z : Location) (cs : cronSchedule) (u : Z) : option Z :=
  match n with
  | O => None
  | S n => if cron_matches cs (civil_at z u) then Some u else first_match n z cs (u + 1)
  end.

Lemma first_match_fixed z cs n : fixed_offset z -> forall u c,
  valid c -> u + after z = minutes c ->
  first_match n z cs u = (fun r => minutes r - after z) <$> wall_scan n cs c.
Proof.
  intros Hz. induction n as [|n IH]; intros u c Hc E; [done|]. cbn [first_match wall_scan].
  rewrite (civil_at_fixed z Hz u c Hc E). case_match; [simpl; f_equal; lia|].
  destruct (moves_fixed z Hz u c Hc E) as (_ & _ & _ & E4). apply IH; [by apply next_minute_spec|done].
Qed.

(** The scan finds the first match. *)
Lemma wall_scan_finds cs n : forall c r,
  valid c -> valid r -> cron_matches cs r = true ->
  (forall c', valid c' -> minutes c <= minutes c' < minutes r -> cron_matches cs c' = false) ->
  minutes c <= minutes r < minutes c + Z.of_nat n -> wall_scan n cs c = Some r.
Proof.
  induction n as [|n IH]; intros c r Hc Hr Hm Hno Hb; [lia|]. cbn [wall_scan].
  destruct (Z.eq_dec (minutes c) (minutes r)) as [E|Hne].
  - apply minutes_inj in E as ->; [|done..]. by rewrite Hm.
  - rewrite Hno by (done || lia). destruct (next_minute_spec c Hc) as [Hv E].
    apply IH; try done; [|lia]. intros c' Hc' Hb'. apply Hno; [done|lia].
Qed.

(** The number of attempts as an unknown, so that it is never computed. *)
Lemma attempts_abstract :
  exists n, (forall z cs from, next z cs from = next_loop n z cs (from + 1)) /\
    (forall z cs u, first_match (Z.to_nat maxAttempts) z cs u = first_match n z cs u).
Proof. exists (Z.to_nat maxAttempts). split; reflexivity. Qed.

(** C27. In a location whose clocks never change (UTC, say), from any time of the
    calendar, the search that skips months, days and hours agrees with the scan
    of every minute: what the scan finds in [maxAttempts] minutes is the answer,
    and an answer is what the scan finds when it goes that far. *)
Theorem next_agrees_with_scan z cs from :
  fixed_offset z -> 1440 <= from + after z ->
  (forall r, first_match (Z.to_nat maxAttempts) z cs (from + 1) = Some r -> next z cs from = Some r) /\
  (forall r, next z cs from = Some r ->
     from < r /\ first_match (Z.to_nat (r - from)) z cs (from + 1) = Some r).
Proof.
  intros Hz Hf. destruct attempts_abstract as (n & En & Ef). rewrite En, Ef.
  destruct (civil_of_spec (from + 1 + after z) ltac:(lia)) as [Hv E].
  set (c := civil_of (from + 1 + after z)) in *.
  rewrite (next_loop_fixed z Hz cs n _ c Hv (eq_sym E)), (first_match_fixed z cs n Hz _ c Hv (eq_sym E)).
  split; intros r Hr; apply fmap_Some in Hr as (w & Hw & ->).
  - by rewrite (wall_loop_scan cs n c w Hv Hw).
  - destruct (wall_loop_sound cs n c w Hv Hw) as (Hwv & Hm & Hle & Hno). split; [lia|].
    rewrite (first_match_fixed z cs _ Hz _ c Hv (eq_sym E)), (wall_scan_finds cs _ c w); try done. lia.
Qed.

Definition UTC : Location := mkLocation 0 0 0.

Lemma next_agrees_with_scan_witness :
  exists cs, parseCron (lit "30 9-17/4 * * 1-5") = inl cs /\
    next UTC cs (minutes (mkCivil 2024 12 31 23 58)) = Some (minutes (mkCivil 2025 1 1 9 30)).
Proof.
  destruct (parseCron (lit "30 9-17/4 * * 1-5")) as [cs|e] eqn:E; [|vm_compute in E; discriminate E].
  exists cs. split; [reflexivity|]. apply next_agrees_with_scan.
  - reflexivity.
  - vm_compute. discriminate.
  - vm_compute in E. injection E as <-. vm_compute. reflexivity.
Defined.

(** ** Clocks that change *)

(** A move that stays where it is uses up the attempts. *)
Lemma next_loop_stuck n z cs u :
  matches (fmonth cs) (month (civil_at z u)) = true -> day_ok cs (civil_at z u) = true ->
  matches (fhour cs) (hour (civil_at z u)) = false -> to_hour z u = u -> next_loop n z cs u = None.
Proof.
  intros Hm Hd Hh Hu. induction n as [|n IH]; [done|]. cbn [next_loop]. by rewrite Hm, Hd, Hh, Hu.
Qed.

(** New York on 3 November 2024: at 06:00 UTC the clocks go from UTC-4 back to
    UTC-5. *)
Definition NewYork : Location := mkLocation (minutes (mkCivil 2024 11 3 6 0)) (-240) (-300).

(** When the clocks go back the search does not get past the repeated hour: an
    hour after the first 01:00 it is 01:00 again, which [time.Date] takes for
    the first one.  Asked at 00:59 for the next 05:00, [next] gives the zero
    time, although 05:00 is five hours and one minute away. *)
Theorem fall_back_stops_schedule :
  exists cs, parseCron (lit "0 5 * * *") = inl cs /\
    let from := minutes (mkCivil 2024 11 3 4 59) in
    civil_at NewYork from = mkCivil 2024 11 3 0 59 /\
    next NewYork cs from = None /\
    first_match 400 NewYork cs (from + 1) = Some (minutes (mkCivil 2024 11 3 10 0)).
Proof.
  destruct (parseCron (lit "0 5 * * *")) as [cs|e] eqn:E; [|vm_compute in E; discriminate E].
  exists cs. vm_compute in E. injection E as <-. split; [reflexivity|]. cbv zeta.
  split; [vm_compute; reflexivity|]. split; [|vm_compute; reflexivity].
  destruct attempts_abstract as (n & En & _). rewrite En.
  apply next_loop_stuck; vm_compute; reflexivity.
Qed.

Lemma next_loop_matches n z cs : forall u r,
  next_loop n z cs u = Some r -> cron_matches cs (civil_at z r) = true.
Proof.
  induction n as [|n IH]; intros u r Hr; [done|]. cbn [next_loop] in Hr. unfold cron_matches.
  destruct (matches (fmonth cs) (month (civil_at z u))) eqn:E1; cbn [negb] in Hr; [|by eapply IH].
  destruct (day_ok cs (civil_at z u)) eqn:E2; cbn [negb] in Hr; [|by eapply IH].
  destruct (matches (fhour cs) (hour (civil_at z u))) eqn:E3; cbn [negb] in Hr; [|by eapply IH].
  destruct (matches (fminute cs) (minute (civil_at z u))) eqn:E4; cbn [negb] in Hr; [|by eapply IH].
  injection Hr as <-. by rewrite E1, E2, E3, E4.
Qed.

(** ** Sunday as 7 *)

(** The weekday of a time is 0 to 6, so a schedule whose weekday field is 7 alone
    never runs, although 7 is accepted and documented as Sunday. *)
Theorem weekday_7_never_runs z cs from :
  any (fday cs) = true -> any (fweekday cs) = false -> values (fweekday cs) = {[7]} -> next z cs from = None.
Proof.
  intros Hd Hw Hv. destruct attempts_abstract as (n & En & _). rewrite En.
  destruct (next_loop n z cs (from + 1)) as [r|] eqn:E; [|done]. exfalso.
  apply next_loop_matches in E as Hm. unfold cron_matches, day_ok, matches in Hm.
  rewrite Hd, Hw in Hm. cbn [negb andb] in Hm. rewrite Hv in Hm.
  assert (Weekday (civil_at z r) < 7) by (apply Z.mod_pos_bound; lia).
  rewrite (bool_decide_eq_false_2 (Weekday (civil_at z r) ∈ {[7]})) in Hm by (intros Hin%elem_of_singleton; lia).
  by rewrite andb_false_r in Hm.
Qed.

Lemma weekday_7_never_runs_witness :
  exists cs, parseCron (lit "0 9 * * 7") = inl cs /\ next NewYork cs (minutes (mkCivil 2024 3 1 0 0)) = None.
Proof.
  destruct (parseCron (lit "0 9 * * 7")) as [cs|e] eqn:E; [|vm_compute in E; discriminate E].
  exists cs. split; [reflexivity|]. apply weekday_7_never_runs.
  - vm_compute in E. injection E as <-. reflexivity.
  - vm_compute in E. injection E as <-. reflexivity.
  - vm_compute in E. injection E as <-. reflexivity.
Defined.

(** ** What a field accepts *)

(** The loop over a range collects exactly the values a step apart. *)
Lemma step_loop_spec fuel : forall i last step acc v,
  0 <= i -> last < 100 -> 0 < step <= 2 ^ 62 -> last - i < Z.of_nat fuel ->
  v ∈ step_loop fuel i last step acc <-> v ∈ acc \/ (i <= v <= last /\ (v - i) mod step = 0).
Proof.
  induction fuel as [|fuel IH]; intros i last step acc v Hi Hl Hs Hf; cbn [step_loop].
  - split; [by left|]. intros [?|[? _]]; [done|lia].
  - destruct (Z.leb_spec i last) as [Hle|Hgt].
    2: { split; [by left|]. intros [?|[? _]]; [done|lia]. }
    rewrite i64_id by (widths; lia). rewrite IH by lia. rewrite elem_of_union, elem_of_singleton. split.
    + intros [[->|Hin]|[Hb Hm]]; [right|by left|right].
      * split; [lia|]. by rewrite Z.sub_diag, Z.mod_0_l by lia.
      * split; [lia|]. replace (v - i) with (v - (i + step) + 1 * step) by lia. by rewrite Z.mod_add by lia.
    + intros [Hin|[Hb Hm]]; [left; by right|]. destruct (decide (v = i)) as [->|Hne]; [left; by left|]. right.
      assert (step <= v - i) as Hge.
      { destruct (Z.lt_ge_cases (v - i) step); [|lia]. rewrite Z.mod_small in Hm by lia. lia. }
      split; [lia|]. replace (v - (i + step)) with (v - i + (-1) * step) by lia. by rewrite Z.mod_add by lia.
Qed.

Lemma parse_range_bounds s min max a b :
  parse_range s min max = inl (a, b) -> min <= a <= max /\ min <= b <= max /\ a <= b.
Proof.
  unfold parse_range. destruct (split_on 45 s) as [|x [|y [|z l]]]; try done.
  destruct (Sscanf_d x) as [u|]; [|done]. destruct (Sscanf_d y) as [w|]; [|done].
  destruct (out_of_range u w min max) eqn:E; [done|]. intros [= <- <-]. unfold out_of_range in E. lia.
Qed.

Lemma parse_list_bounds parts min max : forall acc vs,
  parse_list parts min max acc = inl vs -> (forall v, v ∈ acc -> min <= v <= max) -> forall v, v ∈ vs -> min <= v <= max.
Proof.
  induction parts as [|p parts IH]; intros acc vs Hp Hacc v Hv; cbn [parse_list] in Hp.
  - injection Hp as <-. by apply Hacc.
  - destruct (Sscanf_d p) as [w|]; [|done]. destruct ((w <? min) || (max <? w)) eqn:E; [done|].
    eapply (IH _ vs Hp); [|done]. intros u Hu. apply elem_of_union in Hu as [Hu%elem_of_singleton|Hu]; [lia|by apply Hacc].
Qed.

(** The step, if the field has one, is below 2^62. *)
Definition sane_step (field : list Z) : Prop :=
  forall a b step, split_on 47 field = [a; b] -> Sscanf_d b = Some step -> step <= 2 ^ 62.

Lemma inl_inj {A B} (a a' : A) : inl (B := B) a = inl a' -> a' = a.
Proof. by injection 1. Qed.

(** A field that parses is the wildcard or a set of values within its bounds. *)
Theorem parseField_bounds field min max cf :
  0 <= min -> max < 100 -> sane_step field -> parseField field min max = inl cf ->
  any cf = true \/ (any cf = false /\ forall v, v ∈ values cf -> min <= v <= max).
Proof.
  intros Hmin Hmax Hss Hp. unfold parseField in Hp. destruct (bool_decide (field = lit "*")).
  { apply inl_inj in Hp as ->. by left. }
  assert (forall a b step, min <= a -> b <= max -> 0 < step <= 2 ^ 62 ->
    forall v, v ∈ step_loop loop_fuel a b step ∅ -> min <= v <= max) as Hstep.
  { intros a b step Ha Hb Hst v Hv. apply step_loop_spec in Hv; try lia; [|unfold loop_fuel; lia]. destruct Hv as [Hv%elem_of_empty|[? _]]; [done|lia]. }
  right. destruct (contains 47 field).
  - destruct (split_on 47 field) as [|rp [|sp [|z l]]] eqn:Es; try done.
    destruct (Sscanf_d sp) as [step|] eqn:Esp; [|done]. pose proof (Hss _ _ _ Es Esp) as Hle.
    destruct (Z.leb_spec step 0); [done|]. destruct (bool_decide (rp = lit "*")).
    { apply inl_inj in Hp as ->. split; [done|]. apply (Hstep min max step); lia. }
    destruct (contains 45 rp).
    + destruct (parse_range rp min max) as [[a b]|e] eqn:Er; [|done]. apply inl_inj in Hp as ->. split; [done|].
      apply parse_range_bounds in Er. apply (Hstep a b step); lia.
    + destruct (Sscanf_d rp) as [a|]; [|done]. destruct ((a <? min) || (max <? a)) eqn:Eo; [done|]. apply inl_inj in Hp as ->.
      split; [done|]. apply (Hstep a max step); lia.
  - destruct (contains 45 field).
    + destruct (parse_range field min max) as [[a b]|e] eqn:Er; [|done]. apply inl_inj in Hp as ->. split; [done|].
      apply parse_range_bounds in Er. apply (Hstep a b 1); lia.
    + destruct (contains 44 field).
      * destruct (parse_list _ min max ∅) as [vs|e] eqn:El; [|done]. apply inl_inj in Hp as ->. split; [done|].
        eapply parse_list_bounds; [exact El|]. intros v Hv. by apply elem_of_empty in Hv.
      * destruct (Sscanf_d field) as [v|]; [|done]. destruct ((v <? min) || (max <? v)) eqn:Eo; [done|]. apply inl_inj in Hp as ->.
        split; [done|]. cbn [values]. intros w Hw%elem_of_singleton. lia.
Qed.

Lemma parseField_bounds_witness :
  exists cf, parseField (lit "10-40/7") 0 59 = inl cf /\
    (any cf = true \/ (any cf = false /\ forall v, v ∈ values cf -> 0 <= v <= 59)).
Proof.
  destruct (parseField (lit "10-40/7") 0 59) as [cf|e] eqn:E; [|vm_compute in E; discriminate E].
  exists cf. split; [reflexivity|]. apply (parseField_bounds (lit "10-40/7")); [lia|lia| |exact E].
  intros a b step Hs Hb. vm_compute in Hs. injection Hs as <- <-. vm_compute in Hb. injection Hb as <-. lia.
Defined.

(** Names of months and days, documented, are refused; text after a number is
    ignored; a huge step wraps around into the field's range. *)
Example cron_names_refused : parseCron (lit "0 9 * JAN *") = inr InvalidValue /\ parseCron (lit "0 9 * * SUN") = inr InvalidValue.
Proof. vm_compute. split; reflexivity. Qed.

Example cron_trailing_text_ignored : parseField (lit "5x") 0 59 = parseField (lit "5") 0 59.
Proof. vm_compute. reflexivity. Qed.

Example cron_step_overflows :
  match parseField (lit "59/9223372036854775807") 0 59 with
  | inl cf => matches cf 59 = true /\ matches cf 57 = true
  | inr _ => False
  end.
Proof. vm_compute. split; reflexivity. Qed.
