(* ===== verification/Cache.v ===== *)
(** * Caches (pkg/cache/cache.go, memory.go, multi.go)

    The memory cache as a finite map of entries with expiration times, and the
    multi-level cache as a client of the interface [Cache]: its theorems hold
    for any backends that keep the promises of [CacheLaws], which allow an
    operation to fail; the memory cache discharges them, and so does a backend
    that is down.  Every call takes the reading of the clock it makes.  The calls
    of the multi-level cache, and the propagations its hits start, go through the
    levels one at a time and interleave. *)
From S2P Require Import Prelude.

Inductive cache_error : Type :=
| EmptyKey
| KeyTooLong
| NilValue
| NegativeTTL
| KeyNotFound
| KeyExpired
| BackendError (code : Z).     (** of another backend *)

Definition ValidateKey (key : string) : option cache_error :=
  if bool_decide (key = EmptyString) then Some EmptyKey
  else if (250 <? String.length key)%nat then Some KeyTooLong
  else None.

Definition ValidateTTL (ttl : Z) : option cache_error := if ttl <? 0 then Some NegativeTTL else None.

(** ** The interface *)

Class Cache (C : Type) : Type := mkCache {
  cGet : C -> Z -> string -> C * result cache_error (list Z);
  cSet : C -> Z -> string -> option (list Z) -> Z -> C * option cache_error;
  cDelete : C -> string -> C * option cache_error;
  cClear : C -> C * option cache_error;
  cExists : C -> Z -> string -> result cache_error bool;
  cGetTTL : C -> Z -> string -> result cache_error Z
}.

(** What a cache holds: values, and when each ends.  A [Get] answers with what is
    held and not over, an operation touches only its key, whatever it returns,
    and a [Delete] that returns nil has removed the key. *)
Class CacheLaws (C : Type) `{Cache C} : Type := mkCacheLaws {
  contents : C -> gmap string (list Z * option Z);
  get_law : forall c now key v, (cGet c now key).2 = Ok v ->
    exists e, contents c !! key = Some (v, e) /\ (forall t, e = Some t -> now <= t);
  get_shrinks : forall c now key k e, contents (cGet c now key).1 !! k = Some e -> contents c !! k = Some e;
  set_frame : forall c now key v ttl k,
    contents (cSet c now key v ttl).1 !! k = contents c !! k \/
    (k = key /\ exists v', v = Some v' /\
       contents (cSet c now key v ttl).1 !! k = Some (v', if 0 <? ttl then Some (now + ttl) else None));
  delete_frame : forall c key k,
    contents (cDelete c key).1 !! k = contents c !! k \/ contents (cDelete c key).1 !! k = None;
  delete_ok : forall c key,
    ((cDelete c key).2 = None /\ contents (cDelete c key).1 !! key = None) \/
    exists e, (cDelete c key).2 = Some e;
  clear_frame : forall c k,
    contents (cClear c).1 !! k = contents c !! k \/ contents (cClear c).1 !! k = None
}.

(** ** The memory cache *)

Record cacheEntry : Type := mkEntry { value : list Z; expiresAt : option Z }.

Record MemoryCache : Type := mkMemory {
  data : gmap string cacheEntry;
  hits : Z;
  misses : Z
}.

Definition NewMemoryCache : MemoryCache := mkMemory ∅ 0 0.

Definition recordHit (mc : MemoryCache) : MemoryCache := mkMemory (data mc) (hits mc +i64 1) (misses mc).

Definition recordMiss (mc : MemoryCache) : MemoryCache := mkMemory (data mc) (hits mc) (misses mc +i64 1).

Definition set_data (mc : MemoryCache) (d : gmap string cacheEntry) : MemoryCache := mkMemory d (hits mc) (misses mc).

(** [!expiresAt.IsZero() && now.After(expiresAt)] *)
Definition expired (e : cacheEntry) (now : Z) : bool :=
  match expiresAt e with Some t => t <? now | None => false end.

(** [Get] reads the entry under the read lock and, if it has expired, deletes the
    key in a second critical section. *)
Definition Get_load (mc : MemoryCache) (key : string) : option cacheEntry := data mc !! key.

Definition Get_finish (mc : MemoryCache) (now : Z) (key : string) (entry : option cacheEntry) :
    MemoryCache * result cache_error (list Z) :=
  match entry with
  | None => (recordMiss mc, Err KeyNotFound)
  | Some e =>
      if expired e now then (recordMiss (set_data mc (delete key (data mc))), Err KeyExpired)
      else (recordHit mc, Ok (value e))
  end.

Definition Get (mc : MemoryCache) (now : Z) (key : string) : MemoryCache * result cache_error (list Z) :=
  match ValidateKey key with
  | Some err => (recordMiss mc, Err err)
  | None => Get_finish mc now key (Get_load mc key)
  end.

(** A nil slice is [None]. *)
Definition Set_ (mc : MemoryCache) (now : Z) (key : string) (v : option (list Z)) (ttl : Z) :
    MemoryCache * option cache_error :=
  match ValidateKey key with
  | Some err => (mc, Some err)
  | None =>
      match v with
      | None => (mc, Some NilValue)
      | Some v =>
          match ValidateTTL ttl with
          | Some err => (mc, Some err)
          | None => (set_data mc (<[key := mkEntry v (if 0 <? ttl then Some (now + ttl) else None)]> (data mc)), None)
          end
      end
  end.

Definition Delete (mc : MemoryCache) (key : string) : MemoryCache * option cache_error :=
  match ValidateKey key with
  | Some err => (mc, Some err)
  | None => (set_data mc (delete key (data mc)), None)
  end.

Definition Clear (mc : MemoryCache) : MemoryCache := set_data mc ∅.

Definition Exists (mc : MemoryCache) (now : Z) (key : string) : result cache_error bool :=
  match ValidateKey key with
  | Some err => Err err
  | None => match data mc !! key with
            | None => Ok false
            | Some e => Ok (negb (expired e now))
            end
  end.

Definition GetTTL (mc : MemoryCache) (now : Z) (key : string) : result cache_error Z :=
  match ValidateKey key with
  | Some err => Err err
  | None =>
      match data mc !! key with
      | None => Err KeyNotFound
      | Some e => match expiresAt e with
                  | Some t => if t <? now then Err KeyExpired else Ok (t - now)
                  | None => Ok 0
                  end
      end
  end.

Record Stats : Type := mkStats { Hits : Z; Misses : Z; Size : Z; MemoryUsage : Z }.

Definition Stats_ (mc : MemoryCache) : Stats :=
  mkStats (hits mc) (misses mc) (Z.of_nat (size (data mc)))
    (i64 (sumZ (map (fun e => Z.of_nat (length (value e.2)) + 100) (map_to_list (data mc))))).

#[export] Instance memory_cache : Cache MemoryCache := mkCache _ Get Set_ Delete (fun mc => (Clear mc, None)) Exists GetTTL.

(** ** The multi-level cache

    The levels are distinct objects, so that a level is named by its position.
    A call works on one level at a time and holds no lock in between; [Get] and
    the start of the propagation are separate too.  Any number of calls and
    propagations are under way, in any order.  Contexts are not nil, and so are
    the levels after construction. *)

Section multi.
Context {C : Type} `{Cache C}.

(** [None] for a nil level. *)
Definition NewMultiCache (cs : list (option C)) : outcome (list C) :=
  match cs with
  | [] => Panic
  | _ => match mapM id cs with Some l => Ret l | None => Panic end
  end.
End multi.

(** What a call returned; the error of a [Get] or [GetTTL] with no level is nil. *)
Inductive answer : Type :=
| Value (key : string) (v : list Z)
| GetFailed (err : option cache_error)
| Done (err : option cache_error)
| ExistsIs (r : result cache_error bool)
| TTLIs (r : result (option cache_error) Z)
| Propagated.

(** Where a call or a propagation is: the next level, and the last error. *)
Inductive pc : Type :=
| GetAt (key : string) (level : nat) (lastErr : option cache_error)
| GetHit (key : string) (v : list Z) (level : nat)      (** before [go propagateToOthers] *)
| SetAt (key : string) (v : list Z) (ttl : Z) (level : nat) (lastErr : option cache_error)
| DeleteAt (key : string) (level : nat) (lastErr : option cache_error)
| ClearAt (level : nat) (lastErr : option cache_error)
| ExistsAt (key : string) (level : nat)
| TTLAt (key : string) (level : nat) (lastErr : option cache_error)
| PropagateAt (key : string) (v : list Z) (source level : nat)
| Returned (a : answer).

(** The checks of each call. *)
Definition Multi_Get (key : string) : pc :=
  match ValidateKey key with Some err => Returned (GetFailed (Some err)) | None => GetAt key 0 None end.

Definition Multi_Set (key : string) (v : option (list Z)) (ttl : Z) : pc :=
  match ValidateKey key with
  | Some err => Returned (Done (Some err))
  | None =>
      match v with
      | None => Returned (Done (Some NilValue))
      | Some v =>
          match ValidateTTL ttl with
          | Some err => Returned (Done (Some err))
          | None => SetAt key v ttl 0 None
          end
      end
  end.

Definition Multi_Delete (key : string) : pc :=
  match ValidateKey key with Some err => Returned (Done (Some err)) | None => DeleteAt key 0 None end.

Definition Multi_Clear : pc := ClearAt 0 None.

Definition Multi_Exists (key : string) : pc :=
  match ValidateKey key with Some err => Returned (ExistsIs (Err err)) | None => ExistsAt key 0 end.

Definition Multi_GetTTL (key : string) : pc :=
  match ValidateKey key with Some err => Returned (TTLIs (Err (Some err))) | None => TTLAt key 0 None end.

Definition propagateToOthers (key : string) (v : list Z) (source : nat) : pc := PropagateAt key v source 0.

(** The last error so far. *)
Definition last_err (err lastErr : option cache_error) : option cache_error :=
  match err with Some e => Some e | None => lastErr end.

Section steps.
Context {C : Type} `{Cache C}.

(** One level's turn, or the return when there is no further level: the level as
    it is left, where the call goes on, and the goroutine it starts. *)
Definition level_step (c : option C) (now : Z) (p : pc) : option C * pc * list pc :=
  match p, c with
  | GetAt key i e, None => (None, Returned (GetFailed e), [])
  | GetAt key i e, Some c =>
      match cGet c now key with
      | (c', Ok v) => (Some c', GetHit key v i, [])
      | (c', Err e') => (Some c', GetAt key (S i) (Some e'), [])
      end
  | GetHit key v i, _ => (c, Returned (Value key v), [propagateToOthers key v i])
  | SetAt key v ttl i e, None => (None, Returned (Done e), [])
  | SetAt key v ttl i e, Some c =>
      let '(c', err) := cSet c now key (Some v) ttl in (Some c', SetAt key v ttl (S i) (last_err err e), [])
  | DeleteAt key i e, None => (None, Returned (Done e), [])
  | DeleteAt key i e, Some c =>
      let '(c', err) := cDelete c key in (Some c', DeleteAt key (S i) (last_err err e), [])
  | ClearAt i e, None => (None, Returned (Done e), [])
  | ClearAt i e, Some c => let '(c', err) := cClear c in (Some c', ClearAt (S i) (last_err err e), [])
  | ExistsAt key i, None => (None, Returned (ExistsIs (Ok false)), [])
  | ExistsAt key i, Some c =>
      (Some c, match cExists c now key with Ok true => Returned (ExistsIs (Ok true)) | _ => ExistsAt key (S i) end, [])
  | TTLAt key i e, None => (None, Returned (TTLIs (Err e)), [])
  | TTLAt key i e, Some c =>
      (Some c, match cGetTTL c now key with
               | Ok t => Returned (TTLIs (Ok t))
               | Err e' => TTLAt key (S i) (Some e')
               end, [])
  | PropagateAt key v src i, None => (None, Returned Propagated, [])
  | PropagateAt key v src i, Some c =>
      (Some (if (i =? src)%nat then c else (cSet c now key (Some v) 0).1), PropagateAt key v src (S i), [])
  | Returned a, _ => (c, Returned a, [])
  end.

Definition level (p : pc) : nat :=
  match p with
  | GetAt _ i _ | GetHit _ _ i | SetAt _ _ _ i _ | DeleteAt _ i _ | ClearAt i _ | ExistsAt _ i | TTLAt _ i _
  | PropagateAt _ _ _ i => i
  | Returned _ => 0
  end.

Record MultiCache : Type := mkMulti {
  caches : list C;
  threads : list pc
}.

Definition put (cs : list C) (i : nat) (c : option C) : list C :=
  match c with Some c => <[i := c]> cs | None => cs end.

(** Goroutine [i] moves when the clock reads [now]. *)
Definition mstep (m : MultiCache) (i : nat) (now : Z) : option MultiCache :=
  p ← threads m !! i;
  match p with
  | Returned _ => None
  | _ =>
      let '(c, p', new) := level_step (caches m !! level p) now p in
      Some (mkMulti (put (caches m) (level p) c) (<[i := p']> (threads m) ++ new))
  end.

(** A client begins a call, or a goroutine moves. *)
Inductive action : Type :=
| Begin (p : pc)
| Move (i : nat) (now : Z).

Definition act (m : MultiCache) (a : action) : option MultiCache :=
  match a with
  | Begin p => Some (mkMulti (caches m) (threads m ++ [p]))
  | Move i now => mstep m i now
  end.

Fixpoint mrun (m : MultiCache) (acts : list action) : option MultiCache :=
  match acts with
  | [] => Some m
  | a :: acts => m' ← act m a; mrun m' acts
  end.
End steps.
Arguments MultiCache C : clear implicits.

(** ** The memory cache keeps the promises *)

Definition memory_contents (mc : MemoryCache) : gmap string (list Z * option Z) :=
  (fun e => (value e, expiresAt e)) <$> data mc.

Lemma memory_contents_lookup mc key :
  memory_contents mc !! key = (fun e => (value e, expiresAt e)) <$> data mc !! key.
Proof. unfold memory_contents. apply lookup_fmap. Qed.

Lemma Get_data mc now key :
  data (Get mc now key).1 = data mc \/
  (ValidateKey key = None /\ data (Get mc now key).1 = delete key (data mc) /\
   exists e, data mc !! key = Some e /\ expired e now = true).
Proof.
  unfold Get, Get_finish, Get_load. destruct (ValidateKey key); [by left|].
  destruct (data mc !! key) as [e|] eqn:E; [|by left]. destruct (expired e now) eqn:Ex; [|by left].
  right. split; [done|]. split; [done|]. by exists e.
Qed.

#[export] Instance memory_cache_laws : CacheLaws MemoryCache.
Proof.
  refine (mkCacheLaws _ _ memory_contents _ _ _ _ _ _); cbn [cGet cSet cDelete cClear memory_cache].
  - intros mc now key v. rewrite memory_contents_lookup. unfold Get, Get_finish, Get_load.
    destruct (ValidateKey key); [done|]. destruct (data mc !! key) as [e|]; [|done].
    destruct (expired e now) eqn:Ex; [done|]. cbn. intros [= <-]. eexists. split; [done|].
    unfold expired in Ex. intros t Et. rewrite Et in Ex. lia.
  - intros mc now key k e. rewrite !memory_contents_lookup.
    destruct (Get_data mc now key) as [->|(_ & -> & _)]; [done|].
    destruct (decide (k = key)) as [->|Hne]; [by rewrite lookup_delete_eq|by rewrite lookup_delete_ne].
  - intros mc now key v ttl k. unfold Set_. destruct (ValidateKey key); [by left|]. destruct v as [v|]; [|by left].
    destruct (ValidateTTL ttl); [by left|]. cbn [fst]. rewrite !memory_contents_lookup. unfold set_data. cbn [data].
    destruct (decide (k = key)) as [->|Hne]; [|left; by rewrite lookup_insert_ne].
    right. split; [done|]. eexists. by rewrite lookup_insert_eq.
  - intros mc key k. unfold Delete. destruct (ValidateKey key); [by left|]. cbn [fst]. rewrite !memory_contents_lookup. unfold set_data. cbn [data].
    destruct (decide (k = key)) as [->|Hne]; [right; by rewrite lookup_delete_eq|left; by rewrite lookup_delete_ne].
  - intros mc key. unfold Delete. destruct (ValidateKey key); [by right; eexists|]. left. split; [done|].
    cbn [fst]. rewrite memory_contents_lookup. unfold set_data. cbn [data]. by rewrite lookup_delete_eq.
  - intros mc k. right. unfold memory_contents. cbn. by rewrite fmap_empty, lookup_empty.
Defined.

(** ** The multi-level cache over any backend *)

(** The calls a client can begin. *)
Inductive mcall : Type :=
| CallGet (key : string)
| CallSet (key : string) (v : option (list Z)) (ttl : Z)
| CallDelete (key : string)
| CallClear
| CallExists (key : string)
| CallGetTTL (key : string).

Definition call_pc (c : mcall) : pc :=
  match c with
  | CallGet key => Multi_Get key
  | CallSet key v ttl => Multi_Set key v ttl
  | CallDelete key => Multi_Delete key
  | CallClear => Multi_Clear
  | CallExists key => Multi_Exists key
  | CallGetTTL key => Multi_GetTTL key
  end.

(** A schedule: calls begun and goroutines moved. *)
Definition schedule : Type := list (mcall + nat * Z).

Definition actions (l : schedule) : list action :=
  map (fun a => match a with inl c => Begin (call_pc c) | inr (i, now) => Move i now end) l.

(** Calls of [Set], and of [Get] or [Set], of the key. *)
Definition begins_set (key : string) (a : mcall + nat * Z) : bool :=
  match a with inl (CallSet k _ _) => bool_decide (k = key) | _ => false end.

Definition begins_access (key : string) (a : mcall + nat * Z) : bool :=
  match a with inl (CallSet k _ _ | CallGet k) => bool_decide (k = key) | _ => false end.

(** A goroutine that has a value of the key to write or to return, and one that
    may come to have it. *)
Definition carries (key : string) (p : pc) : Prop :=
  match p with GetHit k _ _ | SetAt k _ _ _ _ | PropagateAt k _ _ _ => k = key | _ => False end.

Definition accesses (key : string) (p : pc) : Prop :=
  match p with GetAt k _ _ => k = key | _ => carries key p end.

Section multi_laws.
Context {C : Type} `{HL : CacheLaws C}.

(** No operation but a write of the key makes a level hold it. *)
Lemma level_step_absent c now p key c' p' new :
  level_step (Some c) now p = (Some c', p', new) -> ~ carries key p ->
  contents c !! key = None -> contents c' !! key = None.
Proof.
  intros E Hp Hc. destruct p as [k i e|k v i|k v ttl i e|k i e|i e|k i|k i e|k v src i|a]; cbn in E, Hp.
  - pose proof (get_shrinks c now k key) as Hs. destruct (cGet c now k) as [c1 [v|e']]; simplify_eq; cbn in Hs;
      destruct (contents c' !! key) as [x|]; try done; by rewrite (Hs x eq_refl) in Hc.
  - by simplify_eq.
  - destruct (set_frame c now k (Some v) ttl key) as [Hs|[-> _]]; [|done].
    destruct (cSet c now k (Some v) ttl); simplify_eq. cbn in Hs. by rewrite Hs.
  - destruct (delete_frame c k key) as [Hs|Hs]; destruct (cDelete c k); simplify_eq; cbn in Hs; by rewrite Hs.
  - destruct (clear_frame c key) as [Hs|Hs]; destruct (cClear c); simplify_eq; cbn in Hs; by rewrite Hs.
  - by simplify_eq.
  - by simplify_eq.
  - simplify_eq. case_match; [done|]. destruct (set_frame c now k (Some v) 0 key) as [Hs|[-> _]]; [|done]. by rewrite Hs.
  - by simplify_eq.
Qed.

(** A turn that takes no value and starts nothing. *)
Ltac empty_handed := simplify_eq; split_and!; [cbn; tauto|done|done].

(** Nor does a goroutine come to carry the key from a level without it. *)
Lemma level_step_carries c now p key c' p' new :
  level_step c now p = (c', p', new) -> ~ carries key p ->
  (forall k i e, p = GetAt k i e -> k = key -> forall c0, c = Some c0 -> contents c0 !! key = None) ->
  ~ carries key p' /\ Forall (fun q => ~ carries key q) new /\
  (forall v, p' = Returned (Value key v) -> p = Returned (Value key v)).
Proof.
  intros E Hp Hg. destruct p as [k i e|k v i|k v ttl i e|k i e|i e|k i|k i e|k v src i|a]; cbn in E, Hp.
  - destruct c as [c|]; [|empty_handed]. pose proof (get_law c now k) as Hl.
    destruct (cGet c now k) as [c1 [v|e']]; simplify_eq; [|empty_handed].
    split_and!; [|done|done]. cbn. intros ->. destruct (Hl v eq_refl) as (x & Hx & _).
    by rewrite (Hg _ _ _ eq_refl eq_refl c eq_refl) in Hx.
  - destruct c as [c|]; simplify_eq; (split_and!; [intros []|by apply Forall_singleton|]); intros v0 E; by simplify_eq.
  - destruct c as [c|]; [|empty_handed]. destruct (cSet c now k (Some v) ttl); empty_handed.
  - destruct c as [c|]; [|empty_handed]. destruct (cDelete c k); empty_handed.
  - destruct c as [c|]; [|empty_handed]. destruct (cClear c); empty_handed.
  - destruct c as [c|]; [|empty_handed]. destruct (cExists c now k) as [[]|]; empty_handed.
  - destruct c as [c|]; [|empty_handed]. destruct (cGetTTL c now k) as [|]; empty_handed.
  - destruct c as [c|]; empty_handed.
  - empty_handed.
Qed.

(** No level holds the key and nobody carries it. *)
Definition gone (key : string) (m : MultiCache C) : Prop :=
  Forall (fun c => contents c !! key = None) (caches m) /\ Forall (fun p => ~ carries key p) (threads m).

Lemma put_absent key cs i c c' now p p' new :
  Forall (fun c => contents c !! key = None) cs -> ~ carries key p -> cs !! i = c ->
  level_step c now p = (c', p', new) -> Forall (fun c => contents c !! key = None) (put cs i c').
Proof.
  intros Hcs Hp Hi E. destruct c as [c|].
  - rewrite Forall_lookup in Hcs. pose proof (Hcs i c Hi) as Hc. destruct c' as [c'|]; [|by apply Forall_lookup].
    cbn. apply Forall_insert; [by apply Forall_lookup|]. by eapply level_step_absent.
  - destruct c' as [c'|]; [|done]. exfalso. destruct p; cbn in E; by simplify_eq.
Qed.

Lemma mstep_gone key m i now m' :
  gone key m -> mstep m i now = Some m' ->
  gone key m' /\ (length (threads m) <= length (threads m'))%nat /\
  forall j v, threads m' !! j = Some (Returned (Value key v)) -> threads m !! j = Some (Returned (Value key v)).
Proof.
  intros [Hc Ht] E. unfold mstep in E. destruct (threads m !! i) as [p|] eqn:Hi; [|done]. cbn in E.
  destruct (level_step (caches m !! level p) now p) as [[c p'] new] eqn:El.
  pose proof (proj1 (Forall_lookup _ _) Ht i p Hi) as Hp.
  assert (m' = mkMulti (put (caches m) (level p) c) (<[i := p']> (threads m) ++ new)) as ->
    by (destruct p; by simplify_eq).
  destruct (level_step_carries _ _ _ key _ _ _ El Hp) as (H1 & H2 & H3).
  { intros k j e -> <- c0 Hc0. rewrite Forall_lookup in Hc. by apply (Hc j). }
  pose proof (lookup_lt_Some _ _ _ Hi) as Hlt. split_and!.
  - split; cbn [caches threads]; [exact (put_absent _ _ _ _ _ _ _ _ _ Hc Hp eq_refl El)|]. apply Forall_app. split; [by apply Forall_insert|done].
  - cbn. rewrite length_app, length_insert. lia.
  - cbn. intros j v Hj. apply lookup_app_Some in Hj as [Hj|[_ Hj]].
    + apply list_lookup_insert_Some in Hj as [(<- & E' & _)|[_ Hj]]; [|done]. by rewrite Hi, (H3 v E').
    + exfalso. destruct p; cbn in El; repeat case_match; simplify_eq; try done.
      by destruct (j - _)%nat as [|[|]]; cbn in Hj.
Qed.

Lemma mrun_gone key l m m' :
  gone key m -> Forall (fun a => begins_set key a = false) l -> mrun m (actions l) = Some m' ->
  forall j v, threads m' !! j = Some (Returned (Value key v)) -> threads m !! j = Some (Returned (Value key v)).
Proof.
  revert m. induction l as [|a l IH]; intros m Hg Hl E j v Hj; cbn in E; [by simplify_eq|].
  apply Forall_cons in Hl as [Ha Hl]. destruct a as [c|[i now]]; cbn in E.
  - apply (IH _) with (j := j) (v := v) in E; try done.
    + cbn in E. apply lookup_app_Some in E as [E|[_ E]]; [done|]. exfalso.
      apply list_lookup_singleton_Some in E as [_ E].
      destruct c; cbn in E; unfold Multi_Get, Multi_Set, Multi_Delete, Multi_Exists, Multi_GetTTL in E;
        repeat case_match; done.
    + destruct Hg as [Hc Ht]. split; [done|]. cbn. apply Forall_app. split; [done|]. apply Forall_singleton.
      destruct c; cbn in Ha |- *; unfold Multi_Get, Multi_Set, Multi_Delete, Multi_Exists, Multi_GetTTL;
        repeat case_match; cbn; try tauto. by apply bool_decide_eq_false in Ha.
  - destruct (mstep m i now) as [m1|] eqn:Es; [|done]. cbn in E.
    destruct (mstep_gone key m i now m1 Hg Es) as (Hg1 & _ & H3). apply H3. by apply (IH m1).
Qed.

(** While goroutine [d] deletes the key, with nobody else at it: what it has
    passed no longer holds it. *)
Definition deleting (key : string) (d : nat) (m : MultiCache C) : Prop :=
  Forall (fun p => ~ accesses key p) (threads m) /\
  match threads m !! d with
  | Some (DeleteAt k i None) =>
      k = key /\ forall j c, (j < i)%nat -> caches m !! j = Some c -> contents c !! key = None
  | Some (DeleteAt _ _ (Some _)) | Some (Returned (Done (Some _))) => True
  | Some (Returned (Done None)) => Forall (fun c => contents c !! key = None) (caches m)
  | _ => False
  end.

Lemma accesses_carries key p : ~ accesses key p -> ~ carries key p.
Proof. destruct p; cbn; tauto. Qed.

Lemma level_step_accesses c now p key c' p' new :
  level_step c now p = (c', p', new) -> ~ accesses key p ->
  ~ accesses key p' /\ Forall (fun q => ~ accesses key q) new.
Proof.
  intros E Hp. destruct p, c; cbn in E, Hp; repeat case_match; simplify_eq; cbn;
    split; try done; try tauto; by repeat constructor.
Qed.

(** Another goroutine's turn leaves the cleaned levels clean. *)
Lemma put_clean key cs n i c c' now p p' new :
  (forall j x, (j < n)%nat -> cs !! j = Some x -> contents x !! key = None) ->
  ~ carries key p -> cs !! i = c -> level_step c now p = (c', p', new) ->
  forall j x, (j < n)%nat -> put cs i c' !! j = Some x -> contents x !! key = None.
Proof.
  intros Hn Hp Hi E j x Hj Hx. destruct c' as [c'|]; [|by eapply Hn]. cbn in Hx.
  apply list_lookup_insert_Some in Hx as [(<- & <- & Hlt)|[_ Hx]]; [|by eapply Hn].
  apply lookup_lt_is_Some in Hlt as [y Hy]. rewrite Hy in Hi. subst c. eapply level_step_absent; [done|done|by eapply Hn].
Qed.

Lemma mstep_deleting key d m i now m' :
  deleting key d m -> mstep m i now = Some m' -> deleting key d m'.
Proof.
  intros [Ht Hd] E. unfold mstep in E. destruct (threads m !! i) as [p|] eqn:Hi; [|done]. cbn in E.
  destruct (level_step (caches m !! level p) now p) as [[c p'] new] eqn:El.
  pose proof (proj1 (Forall_lookup _ _) Ht i p Hi) as Hp.
  assert (m' = mkMulti (put (caches m) (level p) c) (<[i := p']> (threads m) ++ new)) as ->
    by (destruct p; by simplify_eq).
  destruct (level_step_accesses _ _ _ key _ _ _ El Hp) as [H1 H2]. apply accesses_carries in Hp as Hq.
  pose proof (lookup_lt_Some _ _ _ Hi) as Hlt. split; cbn.
  { apply Forall_app. split; [by apply Forall_insert|done]. }
  destruct (decide (i = d)) as [->|Hne].
  - rewrite lookup_app_l by (by rewrite length_insert). rewrite list_lookup_insert_eq by done. rewrite Hi in Hd.
    destruct p as [| | |k n [e|]| | | | |[| |[e|]| | |]]; try done; cbn in El, E.
    + destruct (caches m !! n) as [c0|]; [|by simplify_eq]. destruct (cDelete c0 k) as [c1 []]; by simplify_eq.
    + destruct Hd as [-> Hd]. destruct (caches m !! n) as [c0|] eqn:Hn.
      * destruct (delete_ok c0 key) as [[Ok1 Ok2]|[e Herr]].
        -- destruct (cDelete c0 key) as [c1 e1]; cbn in Ok1, Ok2; subst e1. simplify_eq. cbn. split; [done|].
           intros j x Hj Hx. apply list_lookup_insert_Some in Hx as [(<- & <- & _)|[Hjn Hx]]; [done|].
           eapply Hd; [|done]. cbn in *. lia.
        -- destruct (cDelete c0 key) as [c1 e1]; cbn in Herr; subst e1. by simplify_eq.
      * simplify_eq. cbn. apply Forall_lookup. intros j x Hx. apply (Hd j x); [|done].
        apply lookup_ge_None in Hn. apply lookup_lt_Some in Hx. lia.
  - pose proof (put_clean key (caches m)) as Hput.
    assert ((<[i:=p']> (threads m) ++ new) !! d = threads m !! d) as ->.
    { destruct (threads m !! d) as [q|] eqn:Hdq; [|done].
      rewrite lookup_app_l by (rewrite length_insert; by eapply lookup_lt_Some). by rewrite list_lookup_insert_ne. }
    destruct (threads m !! d) as [[| | |k n [e|]| | | | |[| |[e|]| | |]]|]; try done.
    + destruct Hd as [-> Hd]. split; [done|]. exact (Hput _ _ _ _ _ _ _ _ Hd Hq eq_refl El).
    + exact (put_absent _ _ _ _ _ _ _ _ _ Hd Hq eq_refl El).
Qed.

Lemma mrun_deleting key d l m m' :
  deleting key d m -> Forall (fun a => begins_access key a = false) l -> mrun m (actions l) = Some m' ->
  deleting key d m'.
Proof.
  revert m. induction l as [|a l IH]; intros m Hg Hl E; cbn in E; [by simplify_eq|].
  apply Forall_cons in Hl as [Ha Hl]. destruct a as [c|[i now]]; cbn in E.
  - apply (IH _) in E; try done. destruct Hg as [Ht Hd]. split; cbn.
    + apply Forall_app. split; [done|]. apply Forall_singleton.
      destruct c; cbn in Ha |- *; unfold Multi_Get, Multi_Set, Multi_Delete, Multi_Exists, Multi_GetTTL;
        repeat case_match; cbn; try tauto; by apply bool_decide_eq_false in Ha.
    + destruct (threads m !! d) as [q|] eqn:Hdq; [|done]. by rewrite (lookup_app_l_Some _ _ _ _ Hdq).
  - destruct (mstep m i now) as [m1|] eqn:Es; [|done]. cbn in E. apply (IH m1); try done. by eapply mstep_deleting.
Qed.

(** C39. Over any backends that keep the promises of the interface, which may
    refuse any operation, with any number of calls and propagations under way,
    each going through the levels one at a time: a key whose Delete returns nil,
    and which while it ran no call of Get or Set and no propagation was at work
    on, stays deleted.  Whatever calls, propagations and deletions follow, no Get
    returns a value of the key unless it is set again. *)
Theorem multi_deleted_stays_deleted (m0 m1 m2 : MultiCache C) (d : nat) (key : string) (during afterwards : schedule) :
  threads m0 !! d = Some (Multi_Delete key) -> Forall (fun p => ~ accesses key p) (threads m0) ->
  Forall (fun a => begins_access key a = false) during -> mrun m0 (actions during) = Some m1 ->
  threads m1 !! d = Some (Returned (Done None)) ->
  Forall (fun a => begins_set key a = false) afterwards -> mrun m1 (actions afterwards) = Some m2 ->
  forall i v, threads m2 !! i = Some (Returned (Value key v)) -> threads m1 !! i = Some (Returned (Value key v)).
Proof.
  intros Hd Hq Hdur Hrun Hdone Haft Hrun2.
  assert (deleting key d m0) as Hdel.
  { split; [done|]. rewrite Hd. unfold Multi_Delete. destruct (ValidateKey key); [done|]. split; [done|lia]. }
  apply (mrun_deleting key d during m0 m1 Hdel Hdur) in Hrun as [Ht Hc]. rewrite Hdone in Hc.
  intros i v. apply (mrun_gone key afterwards m1 m2); try done. split; [done|].
  eapply Forall_impl; [exact Ht|]. apply accesses_carries.
Qed.
End multi_laws.

Definition moves (i n : nat) (now : Z) : schedule := replicate n (inr (i, now)).

(** Two memory levels, and a call that runs alone to its end. *)
Definition two_levels : MultiCache MemoryCache := mkMulti [NewMemoryCache; NewMemoryCache] [].

(** A key is set and a Delete of it and a Get of another key are begun; they run
    interleaved; then the key is read. *)
Definition demo_begun : MultiCache MemoryCache :=
  default two_levels (mrun two_levels (actions ([inl (CallSet "a" (Some [1]) 0)] ++ moves 0 3 1 ++
    [inl (CallDelete "a"); inl (CallGet "b")]))).

Definition demo_during : schedule := moves 1 2 2 ++ moves 2 3 2 ++ moves 1 1 3.

Definition demo_deleted : MultiCache MemoryCache := default two_levels (mrun demo_begun (actions demo_during)).

Definition demo_read : MultiCache MemoryCache :=
  default two_levels (mrun demo_deleted (actions (inl (CallGet "a") :: moves 3 3 4))).

Lemma multi_deleted_stays_deleted_witness :
  threads demo_read !! 3%nat = Some (Returned (GetFailed (Some KeyNotFound))) /\
  forall i v, threads demo_read !! i = Some (Returned (Value "a" v)) ->
    threads demo_deleted !! i = Some (Returned (Value "a" v)).
Proof.
  split; [vm_compute; reflexivity|].
  apply (multi_deleted_stays_deleted demo_begun demo_deleted demo_read 1%nat "a" demo_during
    (inl (CallGet "a") :: moves 3 3 4)).
  - vm_compute; reflexivity.
  - vm_compute. repeat constructor; intros Hx; first [discriminate Hx|destruct Hx].
  - repeat constructor.
  - vm_compute; reflexivity.
  - vm_compute; reflexivity.
  - repeat constructor.
  - vm_compute; reflexivity.
Defined.

(** A Get that has read the value when the Delete comes, and starts its
    propagation afterwards, brings the key back. *)
Example propagation_resurrects_a_key :
  exists m, mrun two_levels (actions ([inl (CallSet "k" (Some [1]) 0)] ++ moves 0 3 1 ++
      [inl (CallGet "k")] ++ moves 1 1 2 ++ [inl (CallDelete "k")] ++ moves 2 3 3 ++
      moves 1 1 4 ++ moves 3 3 5 ++ [inl (CallGet "k")] ++ moves 4 3 6)) = Some m /\
    threads m !! 2%nat = Some (Returned (Done None)) /\ threads m !! 4%nat = Some (Returned (Value "k" [1])).
Proof. eexists. split; [vm_compute; reflexivity|]. split; reflexivity. Qed.

(** A hit is propagated without time to live: an entry stored for ten time units
    and read once is still there a thousand units later. *)
Example propagation_forgets_the_ttl :
  let set_and_get := [inl (CallSet "k" (Some [1]) 10)] ++ moves 0 3 0 ++ [inl (CallGet "k")] ++ moves 1 2 5 in
  (exists m, mrun two_levels (actions (set_and_get ++ [inl (CallGet "k")] ++ moves 3 3 1000)) = Some m /\
     threads m !! 3%nat = Some (Returned (GetFailed (Some KeyExpired)))) /\
  (exists m, mrun two_levels (actions (set_and_get ++ moves 2 3 6 ++ [inl (CallGet "k")] ++ moves 3 3 1000)) = Some m /\
     threads m !! 3%nat = Some (Returned (Value "k" [1]))).
Proof. split; (eexists; split; [vm_compute; reflexivity|reflexivity]). Qed.

(** ** A backend that fails

    The memory cache behind a connection that may be down, which the laws
    allow. *)
Record RemoteCache : Type := mkRemote { inner : MemoryCache; down : bool }.

Definition unavailable {A} (rc : RemoteCache) (f : MemoryCache -> MemoryCache * A) (failed : A) : RemoteCache * A :=
  if down rc then (rc, failed) else let '(mc, r) := f (inner rc) in (mkRemote mc (down rc), r).

#[export] Instance remote_cache : Cache RemoteCache := {|
  cGet rc now key := unavailable rc (fun mc => Get mc now key) (Err (BackendError 1));
  cSet rc now key v ttl := unavailable rc (fun mc => Set_ mc now key v ttl) (Some (BackendError 1));
  cDelete rc key := unavailable rc (fun mc => Delete mc key) (Some (BackendError 1));
  cClear rc := unavailable rc (fun mc => (Clear mc, None)) (Some (BackendError 1));
  cExists rc now key := if down rc then Err (BackendError 1) else Exists (inner rc) now key;
  cGetTTL rc now key := if down rc then Err (BackendError 1) else GetTTL (inner rc) now key |}.

#[export] Instance remote_cache_laws : CacheLaws RemoteCache.
Proof.
  refine (mkCacheLaws _ _ (fun rc => memory_contents (inner rc)) _ _ _ _ _ _); cbn; unfold unavailable;
    intros rc; destruct (down rc).
  - done.
  - intros now key v. pose proof (get_law (inner rc) now key v) as Hg. cbn in Hg. by destruct (Get (inner rc) now key).
  - done.
  - intros now key k e. pose proof (get_shrinks (inner rc) now key k e) as Hg. cbn in Hg.
    by destruct (Get (inner rc) now key).
  - by left.
  - intros now key v ttl k. pose proof (set_frame (inner rc) now key v ttl k) as Hs. cbn in Hs.
    by destruct (Set_ (inner rc) now key v ttl).
  - by left.
  - intros key k. pose proof (delete_frame (inner rc) key k) as Hs. cbn in Hs. by destruct (Delete (inner rc) key).
  - by right; eexists.
  - intros key. pose proof (delete_ok (inner rc) key) as Hs. cbn in Hs. by destruct (Delete (inner rc) key).
  - by left.
  - intros k. exact (clear_frame (inner rc) k).
Defined.

(** ** Counting hits and misses *)

Inductive memop : Type :=
| CGet (now : Z) (key : string)
| CSet (now : Z) (key : string) (v : option (list Z)) (ttl : Z)
| CDelete (key : string)
| CClear.

Definition memstep (mc : MemoryCache) (o : memop) : MemoryCache :=
  match o with
  | CGet now key => (Get mc now key).1
  | CSet now key v ttl => (Set_ mc now key v ttl).1
  | CDelete key => (Delete mc key).1
  | CClear => Clear mc
  end.

Definition memrun (mc : MemoryCache) (os : list memop) : MemoryCache := foldl memstep mc os.

(** The value a key has after the calls [os], read backwards: the last call that
    sets the key successfully or removes it decides, and a [Get] that finds it
    expired removes it. *)
Definition mem_spec_step (key : string) (cur : option (list Z * option Z)) (o : memop) : option (list Z * option Z) :=
  match o with
  | CGet now k =>
      match cur with
      | Some (v, Some t) => if bool_decide (k = key) && (t <? now) then None else cur
      | _ => cur
      end
  | CSet now k (Some v) ttl =>
      if bool_decide (k = key) && (0 <=? ttl) then Some (v, if 0 <? ttl then Some (now + ttl) else None) else cur
  | CSet _ _ None _ => cur
  | CDelete k => if bool_decide (k = key) then None else cur
  | CClear => None
  end.

Definition mem_spec (key : string) (os : list memop) : option (list Z * option Z) :=
  foldl (mem_spec_step key) None os.

Definition is_CGet (o : memop) : bool := match o with CGet _ _ => true | _ => false end.

Lemma memstep_spec key mc o :
  ValidateKey key = None -> memory_contents (memstep mc o) !! key = mem_spec_step key (memory_contents mc !! key) o.
Proof.
  intros Hk. rewrite !memory_contents_lookup. destruct o as [now k|now k v ttl|k|]; cbn [memstep mem_spec_step].
  - unfold Get, Get_finish, Get_load. case_bool_decide as Hkk.
    + subst k. rewrite Hk. destruct (data mc !! key) as [[v [t|]]|] eqn:E; cbn; [|by rewrite E..].
      unfold expired. cbn. destruct (t <? now); cbn; [by rewrite lookup_delete_eq|by rewrite E].
    + assert (H : data (Get mc now k).1 !! key = data mc !! key).
      { destruct (Get_data mc now k) as [->|(_ & -> & _)]; [done|by rewrite lookup_delete_ne]. }
      unfold Get, Get_finish, Get_load in H. rewrite H. by destruct (data mc !! key) as [[v [t|]]|].
  - unfold Set_, ValidateTTL. destruct v as [v|]; [|by destruct (ValidateKey k)]. case_bool_decide as Hkk; cbn.
    + subst k. rewrite Hk. destruct (Z.ltb_spec ttl 0), (Z.leb_spec 0 ttl); try lia; [done|]. cbn.
      by rewrite lookup_insert_eq.
    + destruct (ValidateKey k); [done|]. destruct (ttl <? 0); [done|]. cbn. by rewrite lookup_insert_ne.
  - unfold Delete. case_bool_decide as Hkk.
    + subst k. rewrite Hk. cbn. by rewrite lookup_delete_eq.
    + destruct (ValidateKey k); [done|]. cbn. by rewrite lookup_delete_ne.
  - cbn. by rewrite lookup_empty.
Qed.

Lemma memrun_spec key os :
  ValidateKey key = None -> memory_contents (memrun NewMemoryCache os) !! key = mem_spec key os.
Proof.
  intros Hk. unfold memrun, mem_spec. induction os as [|o os IH] using rev_ind.
  { by rewrite memory_contents_lookup. }
  rewrite !foldl_app. cbn. by rewrite memstep_spec, IH.
Qed.

(** After any sequence of calls the memory cache behaves as one independent cell
    per key: [Get], [Exists] and [GetTTL] answer from the last successful [Set]
    of that key that no [Delete], [Clear] or expired [Get] has undone, whatever
    happened to the other keys. *)
Theorem memory_cache_refines (os : list memop) (key : string) (now : Z) :
  ValidateKey key = None ->
  let mc := memrun NewMemoryCache os in
  match mem_spec key os with
  | None => (Get mc now key).2 = Err KeyNotFound /\ Exists mc now key = Ok false /\ GetTTL mc now key = Err KeyNotFound
  | Some (v, None) => (Get mc now key).2 = Ok v /\ Exists mc now key = Ok true /\ GetTTL mc now key = Ok 0
  | Some (v, Some t) =>
      if t <? now
      then (Get mc now key).2 = Err KeyExpired /\ Exists mc now key = Ok false /\ GetTTL mc now key = Err KeyExpired
      else (Get mc now key).2 = Ok v /\ Exists mc now key = Ok true /\ GetTTL mc now key = Ok (t - now)
  end.
Proof.
  intros Hk mc. rewrite <- (memrun_spec key os Hk), memory_contents_lookup. fold mc.
  unfold Get, Exists, GetTTL, Get_finish, Get_load, expired. rewrite Hk.
  destruct (data mc !! key) as [[v [t|]]|]; cbn; [|done|done]. by destruct (t <? now).
Qed.

Lemma memory_cache_refines_witness :
  (Get (memrun NewMemoryCache [CSet 0 "k"%string (Some [7]) 10; CDelete "j"%string]) 10 "k"%string).2 = Ok [7].
Proof.
  exact (proj1 (memory_cache_refines [CSet 0 "k"%string (Some [7]) 10; CDelete "j"%string] "k"%string 10 eq_refl)).
Defined.

(** Every [Get], refused keys included, counts one hit or one miss. *)
Theorem memory_hits_misses (os : list memop) :
  i64 (hits (memrun NewMemoryCache os) + misses (memrun NewMemoryCache os)) =
  i64 (Z.of_nat (length (List.filter is_CGet os))).
Proof.
  unfold memrun. induction os as [|o os IH] using rev_ind; [done|].
  rewrite foldl_app, List.filter_app, length_app. cbn [foldl]. set (mc := foldl memstep NewMemoryCache os) in *.
  clearbody mc. destruct o as [now k|now k v ttl|k|]; cbn [List.filter is_CGet length memstep].
  - rewrite Nat2Z.inj_add. cbn.
    assert (H : forall a b n, i64 (a + b) = i64 n ->
      i64 ((a +i64 1) + b) = i64 (n + 1) /\ i64 (a + (b +i64 1)) = i64 (n + 1)).
    { intros a b n E. apply (i64_add_cong _ _ 1) in E. rewrite <- E, i64_absorb, (Z.add_comm a (_ +i64 1)), i64_absorb.
      split; f_equal; lia. }
    destruct (H _ _ _ IH) as [H1 H2]. unfold Get, Get_finish.
    destruct (ValidateKey k); [done|]. destruct (Get_load mc k) as [e|]; [|done]. by destruct (expired e now).
  - rewrite Nat.add_0_r. unfold Set_. destruct (ValidateKey k); [done|]. destruct v; [|done]. by destruct (ValidateTTL ttl).
  - rewrite Nat.add_0_r. unfold Delete. by destruct (ValidateKey k).
  - by rewrite Nat.add_0_r.
Qed.

(** ** Where the caches fall short *)

(** [Get] deletes an expired key without looking again: a [Set] that runs
    between its two critical sections is undone. *)
Theorem get_drops_a_concurrent_set (mc : MemoryCache) (now : Z) (key : string) (e : cacheEntry) (v : list Z) (ttl : Z) :
  ValidateKey key = None -> 0 <= ttl -> data mc !! key = Some e -> expired e now = true ->
  let entry := Get_load mc key in
  let mc1 := (Set_ mc now key (Some v) ttl).1 in
  let mc2 := (Get_finish mc1 now key entry).1 in
  (Set_ mc now key (Some v) ttl).2 = None /\ (Get mc2 now key).2 = Err KeyNotFound.
Proof.
  intros Hk Ht Hd Hx. cbn zeta. unfold Get_load, Get_finish. rewrite Hd, Hx.
  unfold Set_, ValidateTTL, Get, Get_finish, Get_load. rewrite Hk. destruct (Z.ltb_spec ttl 0); [lia|].
  split; [done|]. cbn. by rewrite lookup_delete_eq.
Qed.

Lemma get_drops_a_concurrent_set_witness :
  let mc := (Set_ NewMemoryCache 0 "k"%string (Some [1]) 10).1 in
  (Get (Get_finish (Set_ mc 11 "k"%string (Some [2]) 10).1 11 "k"%string (Get_load mc "k"%string)).1 11 "k"%string).2
    = Err KeyNotFound.
Proof.
  refine (proj2 (get_drops_a_concurrent_set (Set_ NewMemoryCache 0 "k"%string (Some [1]) 10).1 11 "k"%string
    (mkEntry [1] (Some 10)) [2] 10 _ _ _ _)); [done|lia|done|done].
Defined.
