(* ===== verification/Workflow.v ===== *)
(** * The workflow engine (pkg/workflow/engine.go, types.go, registry.go, nodes.go)

    An execution of a workflow runs one goroutine per node execution.  A
    goroutine is a list of instructions, each one critical section or one
    decision of [executeNode], [handleMergeInput], [markNodeInactive],
    [checkExecutionComplete], [completeExecution] or [CancelExecution]; a step
    picks a goroutine and runs its first instruction on the shared engine.  What
    a node handler answers, when a timer fires and when a context ends come with
    the step.  Execution ids are [uuid] values, so the merge states keyed by
    "execution:node" are keyed by the pair. *)
From S2P Require Import Prelude.

(** ** Values *)

#[local] Set Warnings "-register-all".

(** Decoded JSON: what [interface{}] holds here. *)
Inductive value : Type :=
| VNil
| VBool (b : bool)
| VInt (n : Z)
| VStr (s : string)
| VList (l : list value)
| VMap (m : list (string * value)).

Fixpoint vget (m : list (string * value)) (k : string) : option value :=
  match m with
  | [] => None
  | (k', v) :: m => if bool_decide (k' = k) then Some v else vget m k
  end.

Fixpoint vput (m : list (string * value)) (k : string) (v : value) : list (string * value) :=
  match m with
  | [] => [(k, v)]
  | (k', v') :: m => if bool_decide (k' = k) then (k, v) :: m else (k', v') :: vput m k v
  end.

Definition vput_all (m kvs : list (string * value)) : list (string * value) :=
  foldl (fun m kv => vput m kv.1 kv.2) m kvs.

(** ** Definitions of workflows *)

Record NodeDefinition : Type := mkNode {
  ID : string;
  Type_ : string;
  Config : list (string * value);
  Next : list string;
  OnError : list string;
  TrueNext : list string;
  FalseNext : list string;
  RetryCount : Z
}.

Record WorkflowDefinition : Type := mkDef {
  WID : string;
  Nodes : list NodeDefinition;
  WVariables : list (string * value)
}.

Inductive register_error : Type :=
| WorkflowIDRequired
| NoNodes
| NodeIDRequired
| UnknownNode (node next : string).

(** The three loops over the references of a node. *)
Fixpoint unknown_ref (ids : list string) (node : string) (refs : list string) : option register_error :=
  match refs with
  | [] => None
  | next :: refs => if bool_decide (next ∈ ids) then unknown_ref ids node refs else Some (UnknownNode node next)
  end.

Definition check_node (ids : list string) (n : NodeDefinition) : option register_error :=
  match unknown_ref ids (ID n) (Next n) with
  | Some e => Some e
  | None =>
      match unknown_ref ids (ID n) (TrueNext n) with
      | Some e => Some e
      | None => unknown_ref ids (ID n) (FalseNext n)
      end
  end.

Fixpoint check_nodes (ids : list string) (ns : list NodeDefinition) : option register_error :=
  match ns with
  | [] => None
  | n :: ns => match check_node ids n with Some e => Some e | None => check_nodes ids ns end
  end.

Definition validate (def : WorkflowDefinition) : option register_error :=
  if bool_decide (WID def = EmptyString) then Some WorkflowIDRequired
  else match Nodes def with
       | [] => Some NoNodes
       | _ =>
           if existsb (fun n => bool_decide (ID n = EmptyString)) (Nodes def) then Some NodeIDRequired
           else check_nodes (map ID (Nodes def)) (Nodes def)
       end.

Definition is_trigger (t : string) : bool :=
  bool_decide (t = "webhook"%string) || bool_decide (t = "schedule"%string) ||
  bool_decide (t = "event"%string) || bool_decide (t = "manual"%string).

Definition points_to (id : string) (n : NodeDefinition) : bool :=
  bool_decide (id ∈ Next n) || bool_decide (id ∈ TrueNext n) || bool_decide (id ∈ FalseNext n).

Definition isStartNode (node : NodeDefinition) (def : WorkflowDefinition) : bool :=
  is_trigger (Type_ node) || negb (existsb (points_to (ID node)) (Nodes def)).

Fixpoint find_node (ns : list NodeDefinition) (id : string) : option NodeDefinition :=
  match ns with
  | [] => None
  | n :: ns => if bool_decide (ID n = id) then Some n else find_node ns id
  end.

Definition findNode (def : WorkflowDefinition) (id : string) : option NodeDefinition := find_node (Nodes def) id.

(** ** Node outputs *)

Record NodeOutput : Type := mkOutput {
  Data : value;
  NextNodes : list string;
  Stop : bool
}.

Definition determineNextNodes (node : NodeDefinition) (out : NodeOutput) : list string :=
  match NextNodes out with
  | _ :: _ => NextNodes out
  | [] =>
      match Data out with
      | VMap m =>
          match vget m "_conditionResult" with
          | Some (VBool true) => TrueNext node
          | Some (VBool false) => FalseNext node
          | _ => Next node
          end
      | _ => Next node
      end
  end.

(** ** Built-in node handlers *)

(** The part of a node's input the handlers use; the variables belong to the
    execution's context. *)
Record NodeInput : Type := mkInput {
  in_data : value;
  in_config : list (string * value)
}.

Definition pass (v : value) : NodeOutput := mkOutput v [] false.

Definition noOpHandler (i : NodeInput) : NodeOutput := pass (in_data i).

(** The output and the variables. *)
Definition setHandler (i : NodeInput) (vars : list (string * value)) : NodeOutput * list (string * value) :=
  match vget (in_config i) "values" with
  | Some (VMap values) =>
      match vget (in_config i) "storeInVariables" with
      | Some (VBool true) => (pass (in_data i), vput_all vars values)
      | _ => (pass (VMap (vput_all (match in_data i with VMap m => m | _ => [] end) values)), vars)
      end
  | _ => (pass (in_data i), vars)
  end.

Definition variableHandler (i : NodeInput) (vars : list (string * value)) : NodeOutput * list (string * value) :=
  match vget (in_config i) "values" with
  | Some (VMap values) => (pass (in_data i), vput_all vars values)
  | _ => (pass (in_data i), vars)
  end.

(** What [conditionHandler] returns once the condition is evaluated to [res]. *)
Definition conditionOutput (res : bool) (i : NodeInput) : NodeOutput :=
  pass (VMap [("_conditionResult"%string, VBool res); ("_originalData"%string, in_data i)]).

(** The strings branch of [contains]. *)
Definition contains_str (a e : string) : bool :=
  (0 <? String.length a)%nat && (0 <? String.length e)%nat &&
  (bool_decide (a = e) ||
   (String.length e <? String.length a)%nat &&
   (bool_decide (String.substring 0 (String.length e) a = e) ||
    bool_decide (String.substring (String.length a - String.length e) (String.length e) a = e))).

Definition isEmpty (v : value) : bool :=
  match v with
  | VNil => true
  | VStr s => bool_decide (s = EmptyString)
  | VList l => match l with [] => true | _ => false end
  | VMap m => match m with [] => true | _ => false end
  | _ => false
  end.

Definition errorHandler (i : NodeInput) : string :=
  match vget (in_config i) "message" with
  | Some (VStr m) => if bool_decide (m = EmptyString) then "workflow error"%string else m
  | _ => "workflow error"%string
  end.

Definition loopHandler (i : NodeInput) : NodeOutput :=
  let items :=
    match vget (in_config i) "items" with
    | Some (VStr f) =>
        match in_data i with
        | VMap m => match vget m f with Some (VList l) => l | _ => [] end
        | _ => []
        end
    | _ => match in_data i with VList l => l | _ => [] end
    end in
  match items with
  | [] => pass (in_data i)
  | _ => pass (VMap [("_loopItems"%string, VList items); ("_loopIndex"%string, VInt 0);
                     ("_loopTotal"%string, VInt (Z.of_nat (length items))); ("_originalData"%string, in_data i)])
  end.

Definition splitHandler (i : NodeInput) : NodeOutput :=
  pass (VMap [("_parallel"%string, VBool true); ("_originalData"%string, in_data i)]).

Definition mergeHandler (i : NodeInput) : NodeOutput :=
  let mode := match vget (in_config i) "mode" with
              | Some (VStr m) => if bool_decide (m = EmptyString) then "waitAll"%string else m
              | _ => "waitAll"%string
              end in
  pass (VMap [("_merge"%string, VBool true); ("_mergeMode"%string, VStr mode); ("_originalData"%string, in_data i)]).

Fixpoint strings_of (l : list value) : list string :=
  match l with [] => [] | VStr s :: l => s :: strings_of l | _ :: l => strings_of l end.

(** What [switchHandler] selects once the field's value is printed as [valueStr]. *)
Definition switchNext (i : NodeInput) (valueStr : string) : list string :=
  let cases := match vget (in_config i) "cases" with Some (VMap m) => m | _ => [] end in
  match vget cases valueStr with
  | Some (VList l) => strings_of l
  | Some _ => []
  | None => match vget (in_config i) "default" with Some (VList l) => strings_of l | _ => [] end
  end.

(** ** The engine *)

Inductive ExecutionStatus : Type :=
| Pending
| Running
| Completed
| Failed
| Cancelled.

#[export] Instance ExecutionStatus_eq_dec : EqDecision ExecutionStatus.
Proof. solve_decision. Defined.

(** [ExecutionState] with its [ExecutionContext].  An error is the node and the message. *)
Record ExecutionState : Type := mkExec {
  WorkflowID : string;
  Status : ExecutionStatus;
  EndTime : option Z;
  Error : option nat;
  Input : list (string * value);
  Variables : list (string * value);
  NodeOutputs : gmap string value;
  Errors : list (string * string)
}.

Record mergeState : Type := mkMerge {
  expectedInputs : Z;
  receivedInputs : Z;
  mdata : list value
}.

(** What a goroutine does next. *)
Inductive instr : Type :=
| IStart (nodes : list NodeDefinition) (input : value)
| IMarkGo (n : NodeDefinition) (input : value)
| IGo (n : NodeDefinition) (input : value)
| IBegin (n : NodeDefinition) (input : value)
| ILoop (n : NodeDefinition) (input : value) (i : Z)
| ICall (n : NodeDefinition) (input : value) (i : Z)
| IBackoff (n : NodeDefinition) (input : value) (i : Z)
| IFail (n : NodeDefinition) (input : value) (msg : string)
| IErrNext (ids : list string) (input : value)
| IRecord (id msg : string)
| IStore (n : NodeDefinition) (out : option NodeOutput)
| INext (ids : list string) (data : value)
| IMerge (n : NodeDefinition) (data : value)
| IMarkInactive (id : string)
| ICheck
| ICheckActive
| ICheckErrors
| IComplete (errors : nat)
| ICancelCtx
| ICleanCtx
| ICleanActive
| ICleanMerge.

(** The context it watches, the execution and the definition it works for. *)
Record goroutine : Type := mkG {
  gctx : string;
  gexec : string;
  gdef : WorkflowDefinition;
  prog : list instr
}.

(** [execContexts] are the executions whose cancel function is kept; [cancelled]
    are the contexts that are done, an execution's context being named by its id.
    [calls] lists the handler calls made: context, execution and node.  [wedged]: a
    goroutine panicked while it held [mu], which is never released. *)
Record Engine : Type := mkEngine {
  workflows : gmap string WorkflowDefinition;
  executions : gmap string ExecutionState;
  mergeStates : gmap (string * string) mergeState;
  activeNodes : gmap string (gset string);
  execContexts : gset string;
  cancelled : gset string;
  registry : gset string;
  threads : list goroutine;
  calls : list (string * string * string);
  wedged : bool
}.

Definition NewEngine (types : gset string) : Engine :=
  mkEngine ∅ ∅ ∅ ∅ ∅ ∅ types [] [] false.

Definition set_workflows (e : Engine) x := mkEngine x (executions e) (mergeStates e) (activeNodes e) (execContexts e) (cancelled e) (registry e) (threads e) (calls e) (wedged e).
Definition set_executions (e : Engine) x := mkEngine (workflows e) x (mergeStates e) (activeNodes e) (execContexts e) (cancelled e) (registry e) (threads e) (calls e) (wedged e).
Definition set_mergeStates (e : Engine) x := mkEngine (workflows e) (executions e) x (activeNodes e) (execContexts e) (cancelled e) (registry e) (threads e) (calls e) (wedged e).
Definition set_activeNodes (e : Engine) x := mkEngine (workflows e) (executions e) (mergeStates e) x (execContexts e) (cancelled e) (registry e) (threads e) (calls e) (wedged e).
Definition set_execContexts (e : Engine) x := mkEngine (workflows e) (executions e) (mergeStates e) (activeNodes e) x (cancelled e) (registry e) (threads e) (calls e) (wedged e).
Definition set_cancelled (e : Engine) x := mkEngine (workflows e) (executions e) (mergeStates e) (activeNodes e) (execContexts e) x (registry e) (threads e) (calls e) (wedged e).
Definition set_registry (e : Engine) x := mkEngine (workflows e) (executions e) (mergeStates e) (activeNodes e) (execContexts e) (cancelled e) x (threads e) (calls e) (wedged e).
Definition set_threads (e : Engine) x := mkEngine (workflows e) (executions e) (mergeStates e) (activeNodes e) (execContexts e) (cancelled e) (registry e) x (calls e) (wedged e).
Definition set_calls (e : Engine) x := mkEngine (workflows e) (executions e) (mergeStates e) (activeNodes e) (execContexts e) (cancelled e) (registry e) (threads e) x (wedged e).
Definition set_wedged (e : Engine) := mkEngine (workflows e) (executions e) (mergeStates e) (activeNodes e) (execContexts e) (cancelled e) (registry e) (threads e) (calls e) true.

(** ** The critical sections *)

Definition upd_exec (e : Engine) (ex : string) (f : ExecutionState -> ExecutionState) : Engine :=
  set_executions e (alter f ex (executions e)).

Definition with_error (id msg : string) (s : ExecutionState) : ExecutionState :=
  mkExec (WorkflowID s) (Status s) (EndTime s) (Error s) (Input s) (Variables s) (NodeOutputs s) (Errors s ++ [(id, msg)]).

Definition with_output (id : string) (v : value) (s : ExecutionState) : ExecutionState :=
  mkExec (WorkflowID s) (Status s) (EndTime s) (Error s) (Input s) (Variables s) (<[id := v]> (NodeOutputs s)) (Errors s).

Definition with_variables (vars : list (string * value)) (s : ExecutionState) : ExecutionState :=
  mkExec (WorkflowID s) (Status s) (EndTime s) (Error s) (Input s) vars (NodeOutputs s) (Errors s).

Definition with_status (st : ExecutionStatus) (now : Z) (err : option nat) (s : ExecutionState) : ExecutionState :=
  mkExec (WorkflowID s) st (Some now) err (Input s) (Variables s) (NodeOutputs s) (Errors s).

Definition recordError (e : Engine) (ex id msg : string) : Engine := upd_exec e ex (with_error id msg).

Definition active (e : Engine) (ex : string) : gset string := default ∅ (activeNodes e !! ex).

Definition markNodeActive (e : Engine) (ex id : string) : Engine :=
  set_activeNodes e (<[ex := {[id]} ∪ active e ex]> (activeNodes e)).

(** The first half of [markNodeInactive]; the check that follows is [ICheck]. *)
Definition unmark (e : Engine) (ex id : string) : Engine :=
  set_activeNodes e (alter (fun s => s ∖ {[id]}) ex (activeNodes e)).

Definition clean_merge (ex : string) (m : gmap (string * string) mergeState) : gmap (string * string) mergeState :=
  filter (fun kv => kv.1.1 <> ex) m.

Definition count_refs (id : string) (refs : list string) : Z :=
  Z.of_nat (length (List.filter (fun r => bool_decide (r = id)) refs)).

Definition expected_inputs (def : WorkflowDefinition) (id : string) : Z :=
  sumZ (map (fun n => count_refs id (Next n) + count_refs id (TrueNext n) + count_refs id (FalseNext n)) (Nodes def)).

Definition merge_mode (n : NodeDefinition) : string :=
  match vget (Config n) "mode" with Some (VStr m) => m | _ => "waitAll"%string end.

(** The critical section of [handleMergeInput]: the new merge states, and the
    collected inputs when the merge node is to run. *)
Definition handleMergeInput (ms : gmap (string * string) mergeState) (ex : string) (def : WorkflowDefinition)
    (node : NodeDefinition) (data : value) : gmap (string * string) mergeState * option (list value) :=
  let key := (ex, ID node) in
  let st := default (mkMerge (expected_inputs def (ID node)) 0 []) (ms !! key) in
  let st := mkMerge (expectedInputs st) (receivedInputs st + 1) (mdata st ++ [data]) in
  let mode := merge_mode node in
  let proceed :=
    if bool_decide (mode = "waitAll"%string) then expectedInputs st <=? receivedInputs st
    else if bool_decide (mode = "waitAny"%string) then 1 <=? receivedInputs st
    else false in
  if proceed then (delete key ms, Some (mdata st)) else (<[key := st]> ms, None).

(** ** Instructions *)

(** What happens outside: the handler's answer with the variables it leaves (a
    nil output is [None]), the back-off timer, or nothing; and the time. *)
Inductive label : Type :=
| LRun (now : Z)
| LHandler (vars : list (string * value)) (res : result string (option NodeOutput))
| LTimer.

Definition retries (n : NodeDefinition) : Z := if RetryCount n =? 0 then 1 else RetryCount n.

Definition ctx_is_done (e : Engine) (g : goroutine) : bool := bool_decide (gctx g ∈ cancelled e).

(** The goroutine of [go e.executeNode(...)]: every path of the body ends by
    marking the node inactive. *)
Definition executeNode (ctx ex : string) (def : WorkflowDefinition) (n : NodeDefinition) (input : value) : goroutine :=
  mkG ctx ex def [IBegin n input; IMarkInactive (ID n)].

(** The three reads of [checkExecutionComplete]: the status, the active nodes and
    the errors recorded. *)
Definition check_status (e : Engine) (ex : string) : list instr :=
  match executions e !! ex with
  | Some s => if bool_decide (Status s = Running) then [ICheckActive] else []
  | None => []
  end.

Definition check_active (e : Engine) (ex : string) : list instr :=
  if bool_decide (active e ex = ∅) then [ICheckErrors] else [].

Definition check_errors (e : Engine) (ex : string) : list instr :=
  [IComplete (match executions e !! ex with Some s => length (Errors s) | None => 0%nat end)].

(** The first critical section of [completeExecution], for [k] errors. *)
Definition completeExecution (e : Engine) (ex : string) (k : nat) (now : Z) : Engine :=
  upd_exec e ex (match k with
                 | O => fun s => with_status Completed now (Error s) s
                 | _ => with_status Failed now (Some k)
                 end).

(** The instructions whose critical section is one of [mu]. *)
Definition takes_mu (x : instr) : bool :=
  match x with
  | IFail _ _ _ | IRecord _ _ | IStore _ _ | ICheck | IComplete _ => true
  | _ => false
  end.

(** The engine after the first instruction, what replaces it, and the goroutine
    it starts.  [None]: it cannot run with this label. *)
Definition exec_instr (e : Engine) (g : goroutine) (x : instr) (l : label) : option (Engine * list instr * list goroutine) :=
  let ex := gexec g in
  match x, l with
  | IStart [] _, LRun _ => Some (e, [], [])
  | IStart (n :: ns) input, LRun _ =>
      Some (e, (if isStartNode n (gdef g) then [IMarkGo n input] else []) ++ [IStart ns input], [])
  | IMarkGo n input, LRun _ => Some (markNodeActive e ex (ID n), [IGo n input], [])
  | IGo n input, LRun _ => Some (e, [], [executeNode (gctx g) ex (gdef g) n input])
  | IBegin n input, LRun _ =>
      Some (e, if ctx_is_done e g then []
               else if bool_decide (Type_ n ∈ registry e) then [ILoop n input 0]
               else [IRecord (ID n) ("unknown node type: " ++ Type_ n)], [])
  | ILoop n input i, LRun _ =>
      if i <? retries n then
        if ctx_is_done e g then Some (e, [], [])
        else Some (set_calls e (calls e ++ [(gctx g, ex, ID n)]), [ICall n input i], [])
      else Some (e, [IStore n None], [])
  | ICall n input i, LHandler vars res =>
      let e := upd_exec e ex (with_variables vars) in
      match res with
      | Ok out => Some (e, [IStore n out], [])
      | Err msg => Some (e, [if i <? retries n - 1 then IBackoff n input i else IFail n input msg], [])
      end
  | IBackoff n input i, LTimer => Some (e, [ILoop n input (i + 1)], [])
  | IBackoff n input i, LRun _ => if ctx_is_done e g then Some (e, [], []) else None
  | IFail n input msg, LRun _ =>
      Some (recordError e ex (ID n) msg, [match OnError n with [] => ICheck | _ => IErrNext (OnError n) input end], [])
  | IErrNext [] _, LRun _ => Some (e, [], [])
  | IErrNext (id :: ids) input, LRun _ =>
      Some (e, match findNode (gdef g) id with Some n => [IMarkGo n input] | None => [] end ++ [IErrNext ids input], [])
  | IRecord id msg, LRun _ => Some (recordError e ex id msg, [], [])
  | IStore n None, LRun _ =>
      (* output.Data of a nil output panics with mu held; the deferred call marks the
         node inactive and then waits for mu *)
      Some (set_wedged e, [], [])
  | IStore n (Some out), LRun _ =>
      let e := upd_exec e ex (with_output (ID n) (Data out)) in
      Some (e, if Stop out then [IComplete 0]
               else match determineNextNodes n out with
                    | [] => [ICheck]
                    | ids => [INext ids (Data out)]
                    end, [])
  | INext [] _, LRun _ => Some (e, [], [])
  | INext (id :: ids) data, LRun _ =>
      if ctx_is_done e g then Some (e, [], [])
      else Some (e, match findNode (gdef g) id with
                    | Some n => [if bool_decide (Type_ n = "merge"%string) then IMerge n data else IMarkGo n data]
                    | None => []
                    end ++ [INext ids data], [])
  | IMerge n data, LRun _ =>
      let '(ms, fire) := handleMergeInput (mergeStates e) ex (gdef g) n data in
      Some (set_mergeStates e ms, match fire with Some vs => [IGo n (VList vs)] | None => [] end, [])
  | IMarkInactive id, LRun _ => Some (unmark e ex id, [ICheck], [])
  | ICheck, LRun _ => Some (e, check_status e ex, [])
  | ICheckActive, LRun _ => Some (e, check_active e ex, [])
  | ICheckErrors, LRun _ => Some (e, check_errors e ex, [])
  | IComplete k, LRun now =>
      match executions e !! ex with
      | None => Some (e, [], [])
      | Some _ => Some (completeExecution e ex k now, [ICleanCtx; ICleanActive; ICleanMerge], [])
      end
  | ICancelCtx, LRun _ =>
      Some (if bool_decide (ex ∈ execContexts e)
            then set_execContexts (set_cancelled e ({[ex]} ∪ cancelled e)) (execContexts e ∖ {[ex]})
            else e, [], [])
  | ICleanCtx, LRun _ => Some (set_execContexts e (execContexts e ∖ {[ex]}), [], [])
  | ICleanActive, LRun _ => Some (set_activeNodes e (delete ex (activeNodes e)), [], [])
  | ICleanMerge, LRun _ => Some (set_mergeStates e (clean_merge ex (mergeStates e)), [], [])
  | _, _ => None
  end.

Definition set_prog (g : goroutine) (p : list instr) : goroutine := mkG (gctx g) (gexec g) (gdef g) p.

(** Goroutine [i] runs its first instruction, unless it needs [mu] and a panic left
    it locked. *)
Definition step (e : Engine) (i : nat) (l : label) : option Engine :=
  match threads e !! i with
  | Some g =>
      match prog g with
      | [] => None
      | x :: rest =>
          if wedged e && takes_mu x then None else
          match exec_instr e g x l with
          | Some (e', repl, new) => Some (set_threads e' (<[i := set_prog g (repl ++ rest)]> (threads e) ++ new))
          | None => None
          end
      end
  | None => None
  end.

(** ** The calls of clients *)

Definition RegisterNodeHandler (e : Engine) (t : string) : Engine := set_registry e ({[t]} ∪ registry e).

Definition RegisterWorkflow (e : Engine) (def : WorkflowDefinition) : Engine * option register_error :=
  match validate def with
  | Some err => (e, Some err)
  | None => (set_workflows e (<[WID def := def]> (workflows e)), None)
  end.

(** [id] is the new [uuid]; the loop over the start nodes is left to the caller's
    goroutine. *)
Definition startExecution (e : Engine) (id : string) (workflowID : string) (input : value) : Engine * option string :=
  match workflows e !! workflowID with
  | None => (e, None)
  | Some def =>
      let data := match input with VMap m => m | v => [("input"%string, v)] end in
      let st := mkExec workflowID Running None None data (WVariables def) ∅ [] in
      let e := set_execContexts e ({[id]} ∪ execContexts e) in
      let e := set_executions e (<[id := st]> (executions e)) in
      let e := set_activeNodes e (<[id := ∅]> (activeNodes e)) in
      (set_threads e (threads e ++ [mkG id id def [IStart (Nodes def) input]]), Some id)
  end.

(** A message to a node's address, for the definition its consumer was
    registered with, under the message's context. *)
Definition handleNodeExecution (e : Engine) (ctx ex : string) (def : WorkflowDefinition) (n : NodeDefinition)
    (data : value) : Engine * bool :=
  match executions e !! ex with
  | None => (e, false)
  | Some _ => (set_threads e (threads e ++ [executeNode ctx ex def n data]), true)
  end.

Inductive cancel_error : Type :=
| ExecutionNotFound
| NotRunning.

Definition CancelExecution (e : Engine) (ex : string) (now : Z) : Engine * option cancel_error :=
  match executions e !! ex with
  | None => (e, Some ExecutionNotFound)
  | Some s =>
      if bool_decide (Status s = Running) then
        let e := upd_exec e ex (fun s => with_status Cancelled now (Error s) s) in
        (set_threads e (threads e ++ [mkG ex ex (mkDef "" [] []) [ICancelCtx; ICleanActive; ICleanMerge]]), None)
      else (e, Some NotRunning)
  end.

Definition is_old (now maxAge : Z) (s : ExecutionState) : bool :=
  negb (bool_decide (Status s = Running)) && negb (bool_decide (Status s = Pending)) &&
  match EndTime s with Some t => maxAge <? now - t | None => false end.

Definition CleanupOldExecutions (e : Engine) (now maxAge : Z) : Engine * Z :=
  let old := filter (fun kv => is_old now maxAge kv.2 = true) (executions e) in
  let ids := dom old in
  let e1 := set_executions e (filter (fun kv => kv.1 ∉ ids) (executions e)) in
  let e2 := set_execContexts e1 (execContexts e ∖ ids) in
  let e3 := set_activeNodes e2 (filter (fun kv => kv.1 ∉ ids) (activeNodes e)) in
  (set_mergeStates e3 (filter (fun kv => kv.1.1 ∉ ids) (mergeStates e)), Z.of_nat (size old)).

(** What the world does to the engine. *)
Inductive op : Type :=
| OHandler (t : string)
| ORegister (def : WorkflowDefinition)
| OStart (id workflowID : string) (input : value)
| ONode (ctx ex : string) (def : WorkflowDefinition) (n : NodeDefinition) (data : value)
| OCancel (ex : string) (now : Z)
| OParent (ctx : string)
| OCleanup (now maxAge : Z)
| OStep (i : nat) (l : label).

(** The calls that take [mu]. *)
Definition op_takes_mu (o : op) : bool :=
  match o with
  | ORegister _ | OStart _ _ _ | ONode _ _ _ _ _ | OCancel _ _ | OCleanup _ _ => true
  | _ => false
  end.

Definition apply_op (e : Engine) (o : op) : option Engine :=
  if wedged e && op_takes_mu o then None else
  match o with
  | OHandler t => Some (RegisterNodeHandler e t)
  | ORegister def => Some (RegisterWorkflow e def).1
  | OStart id w input => Some (startExecution e id w input).1
  | ONode ctx ex def n data => Some (handleNodeExecution e ctx ex def n data).1
  | OCancel ex now => Some (CancelExecution e ex now).1
  | OParent ctx => Some (set_cancelled e ({[ctx]} ∪ cancelled e))
  | OCleanup now maxAge => Some (CleanupOldExecutions e now maxAge).1
  | OStep i l => step e i l
  end.

Fixpoint run_ops (e : Engine) (os : list op) : option Engine :=
  match os with
  | [] => Some e
  | o :: os => match apply_op e o with Some e => run_ops e os | None => None end
  end.
