(* ===== verification/WorkflowSafety.v ===== *)
(** * The workflow engine: completion, cancellation, merging and termination

    Theorems about every interleaving of the goroutines of Workflow.v with the
    calls of clients: no execution is left running when its goroutines are done,
    a cancelled context starts no handler, a merge node gets all its inputs, and
    the executions of an acyclic workflow end. *)
From S2P Require Import Prelude Workflow.

(** ** Registration *)

Lemma unknown_ref_spec ids node refs : unknown_ref ids node refs = None <-> Forall (fun r => r ∈ ids) refs.
Proof.
  induction refs as [|r refs IH]; cbn; [by split|]. case_bool_decide; rewrite Forall_cons; naive_solver.
Qed.

Definition refs (n : NodeDefinition) : list string := Next n ++ TrueNext n ++ FalseNext n.

Lemma check_nodes_spec ids ns : check_nodes ids ns = None <-> Forall (fun n => Forall (fun r => r ∈ ids) (refs n)) ns.
Proof.
  induction ns as [|n ns IH]; cbn; [by split|]. rewrite Forall_cons, <- IH. unfold refs, check_node.
  rewrite !Forall_app, <- !(unknown_ref_spec ids (ID n)).
  destruct (unknown_ref ids (ID n) (Next n)), (unknown_ref ids (ID n) (TrueNext n)),
    (unknown_ref ids (ID n) (FalseNext n)); naive_solver.
Qed.

Lemma find_node_spec ns id : 
  match find_node ns id with
  | Some n => n ∈ ns /\ ID n = id
  | None => id ∉ map ID ns
  end.
Proof.
  induction ns as [|n ns IH]; cbn; [by apply not_elem_of_nil|]. case_bool_decide as E; [split; [left|done]|].
  destruct (find_node ns id); [split; [right|]; apply IH|]. apply not_elem_of_cons. naive_solver.
Qed.

(** [RegisterWorkflow] accepts exactly the definitions with an id, at least one
    node, no unnamed node and no dangling reference; every reference of an
    accepted definition is then found by [findNode]. *)
Theorem RegisterWorkflow_accepts (e : Engine) (def : WorkflowDefinition) :
  ((RegisterWorkflow e def).2 = None <->
    WID def <> EmptyString /\ Nodes def <> [] /\ Forall (fun n => ID n <> EmptyString) (Nodes def) /\
    Forall (fun n => Forall (fun r => r ∈ map ID (Nodes def)) (refs n)) (Nodes def)) /\
  ((RegisterWorkflow e def).2 = None ->
    workflows (RegisterWorkflow e def).1 !! WID def = Some def /\
    forall n r, n ∈ Nodes def -> r ∈ refs n -> exists m, findNode def r = Some m /\ ID m = r) /\
  ((RegisterWorkflow e def).2 <> None -> (RegisterWorkflow e def).1 = e).
Proof.
  assert (Hv : validate def = None <->
    WID def <> EmptyString /\ Nodes def <> [] /\ Forall (fun n => ID n <> EmptyString) (Nodes def) /\
    Forall (fun n => Forall (fun r => r ∈ map ID (Nodes def)) (refs n)) (Nodes def)).
  { rewrite <- check_nodes_spec. unfold validate. case_bool_decide as Ew; [naive_solver|].
    destruct (Nodes def) as [|n ns] eqn:En; [naive_solver|]. rewrite <- En in *.
    destruct (existsb _ (Nodes def)) eqn:Ee.
    - apply existsb_exists in Ee as (m & Hm & Hb). apply bool_decide_eq_true in Hb.
      split; [done|]. intros (_ & _ & Hf & _). rewrite Forall_forall in Hf. apply list_elem_of_In in Hm. naive_solver.
    - assert (Hf : Forall (fun n => ID n <> EmptyString) (Nodes def)).
      { apply Forall_forall. intros m Hm E. apply not_true_iff_false in Ee. apply Ee, existsb_exists.
        exists m. split; [by apply list_elem_of_In|by apply bool_decide_eq_true]. }
      rewrite En in *. naive_solver. }
  unfold RegisterWorkflow. destruct (validate def) eqn:E; cbn; [naive_solver|].
  split; [by rewrite <- Hv|]. split; [|done]. intros _. split; [by rewrite lookup_insert_eq|].
  intros n r Hn Hr. destruct Hv as [Hv _]. destruct (Hv eq_refl) as (_ & _ & _ & Hf).
  rewrite Forall_forall in Hf. specialize (Hf n Hn). rewrite Forall_forall in Hf. specialize (Hf r Hr).
  pose proof (find_node_spec (Nodes def) r) as Hs. unfold findNode. destruct (find_node _ _) as [m|]; [|done]. naive_solver.
Qed.

(** ** No execution is left running *)

Definition status (e : Engine) (ex : string) : option ExecutionStatus := Status <$> executions e !! ex.

Definition has_start (def : WorkflowDefinition) : bool := existsb (fun n => isStartNode n def) (Nodes def).

(** The instruction starts a node or ends by marking one inactive. *)
Definition obliging (def : WorkflowDefinition) (x : instr) : bool :=
  match x with
  | IMarkInactive _ | IGo _ _ | IMarkGo _ _ => true
  | IStart ns _ => existsb (fun n => isStartNode n def) ns
  | _ => false
  end.

Definition obliged (ex : string) (g : goroutine) : Prop :=
  gexec g = ex /\ exists x, x ∈ prog g /\ obliging (gdef g) x = true.

Definition checking_instr (x : instr) : bool :=
  match x with ICheck | ICheckActive | ICheckErrors | IComplete _ => true | _ => false end.

Definition checking (ex : string) (g : goroutine) : Prop :=
  gexec g = ex /\ exists x, x ∈ prog g /\ checking_instr x = true.

(** The goroutine will take the mark of node [id] away. *)
Definition clears (id : string) (x : instr) : bool :=
  match x with IMarkInactive k => bool_decide (k = id) | IGo n _ => bool_decide (ID n = id) | _ => false end.

Definition owes (ex id : string) (g : goroutine) : Prop :=
  gexec g = ex /\ exists x, x ∈ prog g /\ clears id x = true.

Definition marks_owed (ex : string) (e : Engine) : Prop :=
  forall id, id ∈ active e ex -> exists g, g ∈ threads e /\ owes ex id g.

Definition will_check (ex : string) (e : Engine) : Prop :=
  (exists g, g ∈ threads e /\ obliged ex g) \/ (active e ex = ∅ /\ exists g, g ∈ threads e /\ checking ex g).

Definition live (ex : string) (e : Engine) : Prop :=
  status e ex = Some Running -> marks_owed ex e /\ will_check ex e.

Lemma owes_obliged ex id g : owes ex id g -> obliged ex g.
Proof. intros (Hg & x & Hx & Hc). split; [done|]. exists x. split; [done|]. by destruct x. Qed.

Lemma goroutine_step_inv e i l e' :
  step e i l = Some e' ->
  exists g x rest e1 repl new,
    threads e !! i = Some g /\ prog g = x :: rest /\ exec_instr e g x l = Some (e1, repl, new) /\
    e' = set_threads e1 (<[i := set_prog g (repl ++ rest)]> (threads e) ++ new).
Proof.
  unfold step. destruct (threads e !! i) as [g|] eqn:Eg; [|done].
  destruct (prog g) as [|x rest] eqn:Ep; [done|]. destruct (wedged e && takes_mu x); [done|].
  destruct (exec_instr e g x l) as [[[e1 repl] new]|] eqn:Ex; [|done]. intros [= <-]. naive_solver.
Qed.

(** Every instruction with its label, one goal each. *)
Ltac exec_cases H :=
  unfold exec_instr, check_status, check_active, check_errors, completeExecution in H;
  repeat (case_match; try discriminate); simplify_eq; cbn in *.

Lemma status_upd e ex f k :
  (forall s, Status (f s) = Status s) -> status (upd_exec e ex f) k = status e k.
Proof.
  intros Hf. unfold status, upd_exec. cbn. destruct (decide (k = ex)) as [->|Hne].
  - rewrite lookup_alter_eq. destruct (executions e !! ex); cbn; [by rewrite Hf|done].
  - by rewrite lookup_alter_ne.
Qed.

Lemma status_upd_ne e ex f k : k <> ex -> status (upd_exec e ex f) k = status e k.
Proof. intros Hne. unfold status, upd_exec. cbn. by rewrite lookup_alter_ne. Qed.

Lemma exec_instr_other e g x l e1 repl new ex :
  exec_instr e g x l = Some (e1, repl, new) -> gexec g <> ex ->
  status e1 ex = status e ex /\ active e1 ex = active e ex.
Proof.
  intros H Hne. exec_cases H;
    unfold recordError; rewrite ?status_upd_ne by done;
    unfold active, markNodeActive, unmark, handleMergeInput in *; cbn in *;
    rewrite ?lookup_insert_ne, ?lookup_alter_ne, ?lookup_delete_ne by done; try done;
    repeat case_match; simplify_eq; by cbn.
Qed.

Lemma exec_instr_status e g x l e1 repl new :
  exec_instr e g x l = Some (e1, repl, new) ->
  status e1 (gexec g) = status e (gexec g) \/
  (exists k, x = IComplete k) /\ status e1 (gexec g) <> Some Running.
Proof.
  intros H. exec_cases H; try (left; unfold recordError; by rewrite ?status_upd); try (left; repeat case_match; done);
    right; (split; [by eexists|]); unfold status, upd_exec; cbn; rewrite lookup_alter_eq;
    destruct (executions e !! gexec g); done.
Qed.

Lemma exec_instr_threads e g x l e1 repl new :
  exec_instr e g x l = Some (e1, repl, new) ->
  threads e1 = threads e /\
  (new = [] \/ exists n input, x = IGo n input /\ new = [executeNode (gctx g) (gexec g) (gdef g) n input]).
Proof. intros H. exec_cases H; (split; [repeat case_match; done|]); naive_solver. Qed.

(** What one instruction of [ex] does to the bookkeeping of completion. *)
Lemma exec_instr_marks e g x l e1 repl new id :
  exec_instr e g x l = Some (e1, repl, new) -> id ∈ active e1 (gexec g) ->
  (id ∈ active e (gexec g) /\ clears id x = false) \/ (exists y, y ∈ repl /\ clears id y = true) \/
  (exists g', g' ∈ new /\ owes (gexec g) id g').
Proof.
  intros H Hin. destruct (clears id x) eqn:Ec.
  - destruct x; try done; destruct l; try done; cbn in H; simplify_eq; cbn in Ec; apply bool_decide_eq_true in Ec; subst id.
    + right. right. eexists. split; [left|]. split; [done|]. eexists. split; [right; left|]. by apply bool_decide_eq_true.
    + exfalso. unfold active, unmark in Hin. cbn in Hin. rewrite lookup_alter_eq in Hin.
      destruct (activeNodes e !! gexec g); cbn in Hin; set_solver.
  - exec_cases H; unfold recordError, upd_exec, active, markNodeActive, unmark in *; cbn in *;
      try (by left); try (repeat case_match; simplify_eq; cbn in *; by left).
    + rewrite lookup_insert_eq in Hin. cbn in Hin. apply elem_of_union in Hin as [Hin|Hin]; [|by left].
      right. left. eexists. split; [left|]. cbn. apply bool_decide_eq_true. set_solver.
    + left. split; [|done]. rewrite lookup_alter_eq in Hin. destruct (activeNodes e !! gexec g); cbn in *; set_solver.
    + rewrite lookup_delete_eq in Hin. cbn in Hin. set_solver.
Qed.

Lemma exec_instr_obliging e g x l e1 repl new :
  exec_instr e g x l = Some (e1, repl, new) -> obliging (gdef g) x = true ->
  (exists y, y ∈ repl /\ obliging (gdef g) y = true) \/ (exists g', g' ∈ new /\ obliged (gexec g) g') \/
  ICheck ∈ repl.
Proof.
  intros H Ho. destruct x as [[|n ns] input| | | | | | | | | | | | | | | | | | | | |]; try done; destruct l; try done;
    cbn in H; simplify_eq.
  - left. cbn in Ho. apply orb_true_iff in Ho as [->|Ho].
    + eexists. split; [left|done].
    + eexists. split; [apply elem_of_app; right; left|done].
  - left. eexists. split; [left|done].
  - right. left. eexists. split; [left|]. split; [done|]. eexists. split; [right; left|done].
  - right. right. left.
Qed.

Lemma exec_instr_empty e g x l e1 repl new :
  exec_instr e g x l = Some (e1, repl, new) -> active e (gexec g) = ∅ ->
  active e1 (gexec g) = ∅ \/ exists y, y ∈ repl /\ obliging (gdef g) y = true.
Proof.
  intros H Ha. exec_cases H; unfold recordError, upd_exec, active, markNodeActive, unmark in *; cbn in *;
    try (by left); try (repeat case_match; simplify_eq; cbn in *; by left).
  - right. eexists. split; [left|done].
  - left. rewrite lookup_alter_eq. destruct (activeNodes e !! gexec g); cbn in *; set_solver.
  - left. by rewrite lookup_delete_eq.
Qed.

Lemma exec_instr_checking e g x l e1 repl new :
  exec_instr e g x l = Some (e1, repl, new) -> checking_instr x = true ->
  active e (gexec g) = ∅ -> status e (gexec g) = Some Running -> status e1 (gexec g) = Some Running ->
  exists y, y ∈ repl /\ checking_instr y = true.
Proof.
  intros H Hc Ha Hs Hs1. destruct x; try done; destruct l; try done;
    unfold exec_instr, check_status, check_active, check_errors, completeExecution in H; cbn in H.
  - injection H as <- <- <-. unfold status in Hs. destruct (executions e !! gexec g) as [s|]; [|done]. cbn in Hs.
    rewrite bool_decide_true by congruence. eexists. split; [left|done].
  - injection H as <- <- <-. rewrite bool_decide_true by done. eexists. split; [left|done].
  - injection H as <- <- <-. eexists. split; [left|done].
  - exfalso. unfold status in Hs, Hs1. destruct (executions e !! gexec g) as [s|] eqn:E; [|done]. simplify_eq.
    unfold upd_exec in Hs1. cbn in Hs1. rewrite lookup_alter_eq, E in Hs1. by destruct errors.
Qed.

(** How a step rearranges the goroutines: the others stay, the one that ran keeps
    the rest of its instructions, and the new ones join. *)
Section rearranged.
Context (ts : list goroutine) (i : nat) (g : goroutine) (x : instr) (rest repl : list instr) (new : list goroutine).
Hypothesis Hi : ts !! i = Some g.
Hypothesis Hp : prog g = x :: rest.

Let ts' : list goroutine := <[i := set_prog g (repl ++ rest)]> ts ++ new.

Lemma rearranged_other g0 : g0 ∈ ts -> g0 = g \/ g0 ∈ ts'.
Proof.
  intros H0. apply list_elem_of_lookup in H0 as [j Hj]. destruct (decide (j = i)) as [->|Hne]; [left; congruence|].
  right. apply elem_of_app. left. apply list_elem_of_lookup. exists j. by rewrite list_lookup_insert_ne.
Qed.

Lemma rearranged_self : set_prog g (repl ++ rest) ∈ ts'.
Proof.
  apply elem_of_app. left. apply list_elem_of_lookup. exists i. apply list_lookup_insert_eq, lookup_lt_is_Some. by exists g.
Qed.

Lemma rearranged_new g0 : g0 ∈ new -> g0 ∈ ts'.
Proof. intros H0. apply elem_of_app. by right. Qed.

(** A property "some instruction satisfies [P]" survives unless it rested on the
    instruction that ran. *)
Lemma rearranged_keeps (P : WorkflowDefinition -> instr -> bool) ex :
  (exists g0, g0 ∈ ts /\ gexec g0 = ex /\ exists y, y ∈ prog g0 /\ P (gdef g0) y = true) ->
  (exists g0, g0 ∈ ts' /\ gexec g0 = ex /\ exists y, y ∈ prog g0 /\ P (gdef g0) y = true) \/
  (gexec g = ex /\ P (gdef g) x = true).
Proof.
  intros (g0 & H0 & He & y & Hy & HP). destruct (rearranged_other g0 H0) as [->|H0']; [|left; naive_solver].
  rewrite Hp in Hy. apply elem_of_cons in Hy as [->|Hy]; [by right|]. left. eexists. split; [apply rearranged_self|].
  split; [done|]. exists y. split; [|done]. cbn. apply elem_of_app. by right.
Qed.

Lemma rearranged_gains (P : WorkflowDefinition -> instr -> bool) :
  (exists y, y ∈ repl /\ P (gdef g) y = true) ->
  exists g0, g0 ∈ ts' /\ gexec g0 = gexec g /\ exists y, y ∈ prog g0 /\ P (gdef g0) y = true.
Proof.
  intros (y & Hy & HP). eexists. split; [apply rearranged_self|]. split; [done|]. exists y. split; [|done].
  cbn. apply elem_of_app. by left.
Qed.
End rearranged.

Section live_exec_step.
Context (e : Engine) (i : nat) (l : label) (g : goroutine) (x : instr) (rest repl : list instr).
Context (e1 : Engine) (new : list goroutine).
Hypothesis Hi : threads e !! i = Some g.
Hypothesis Hp : prog g = x :: rest.
Hypothesis Hx : exec_instr e g x l = Some (e1, repl, new).

Let ts' : list goroutine := <[i := set_prog g (repl ++ rest)]> (threads e) ++ new.

Lemma marks_owed_step : marks_owed (gexec g) e -> marks_owed (gexec g) (set_threads e1 ts').
Proof.
  intros Hm id Hid. destruct (exec_instr_marks _ _ _ _ _ _ _ _ Hx Hid) as [[Hid0 Hc]|[Hy|(g' & Hg' & Ho)]].
  - destruct (rearranged_keeps (threads e) i g x rest repl new Hi Hp (fun _ => clears id) (gexec g) (Hm id Hid0))
      as [?|[_ ?]]; [done|congruence].
  - exact (rearranged_gains (threads e) i g rest repl new Hi (fun _ => clears id) Hy).
  - exists g'. split; [by apply rearranged_new|done].
Qed.

Lemma will_check_step :
  marks_owed (gexec g) e -> will_check (gexec g) e ->
  status e (gexec g) = Some Running -> status e1 (gexec g) = Some Running ->
  will_check (gexec g) (set_threads e1 ts').
Proof.
  intros Hm Hw Hr0 Hr. pose proof (marks_owed_step Hm) as Hm'.
  pose proof (rearranged_gains (threads e) i g rest repl new Hi obliging) as Hgain.
  destruct Hw as [Hob|[Ha Hck]].
  - destruct (rearranged_keeps (threads e) i g x rest repl new Hi Hp obliging (gexec g) Hob) as [?|[_ Hox]]; [by left|].
    destruct (exec_instr_obliging _ _ _ _ _ _ _ Hx Hox) as [Hy|[(g' & Hg' & Ho)|Hc]]; [left; by apply Hgain| |].
    { left. exists g'. split; [by apply rearranged_new|done]. }
    destruct (decide (active e1 (gexec g) = ∅)) as [Ha|Ha].
    + right. split; [done|]. apply (rearranged_gains (threads e) i g rest repl new Hi (fun _ => checking_instr)).
      by exists ICheck.
    + left. apply set_choose_L in Ha as [id Hid]. destruct (Hm' id Hid) as (g0 & H0 & Ho).
      exists g0. split; [done|]. by eapply owes_obliged.
  - destruct (exec_instr_empty _ _ _ _ _ _ _ Hx Ha) as [Ha1|Hy]; [|left; by apply Hgain].
    right. split; [done|].
    destruct (rearranged_keeps (threads e) i g x rest repl new Hi Hp (fun _ => checking_instr) (gexec g) Hck)
      as [?|[_ Hcx]]; [done|].
    apply (rearranged_gains (threads e) i g rest repl new Hi (fun _ => checking_instr)).
    eapply exec_instr_checking; eauto.
Qed.

Lemma live_step_other ex : gexec g <> ex -> live ex e -> live ex (set_threads e1 ts').
Proof.
  intros Hne Hl Hr. destruct (exec_instr_other _ _ _ _ _ _ _ ex Hx Hne) as [Es Ea].
  change (status e1 ex = Some Running) in Hr. rewrite Es in Hr. destruct (Hl Hr) as [Hm Hw].
  unfold marks_owed, will_check. change (active (set_threads e1 ts') ex) with (active e1 ex). rewrite Ea. split.
  - intros id Hid. destruct (rearranged_keeps (threads e) i g x rest repl new Hi Hp (fun _ => clears id) ex (Hm id Hid))
      as [?|[? _]]; [done|congruence].
  - destruct Hw as [Hob|[Ha Hck]].
    + destruct (rearranged_keeps (threads e) i g x rest repl new Hi Hp obliging ex Hob) as [?|[? _]]; [by left|congruence].
    + right. split; [done|].
      destruct (rearranged_keeps (threads e) i g x rest repl new Hi Hp (fun _ => checking_instr) ex Hck)
        as [?|[? _]]; [done|congruence].
Qed.
End live_exec_step.

Lemma live_exec_step ex e i l e' : step e i l = Some e' -> live ex e -> live ex e'.
Proof.
  intros Hst Hl. destruct (goroutine_step_inv _ _ _ _ Hst) as (g & x & rest & e1 & repl & new & Hi & Hp & Hx & ->).
  destruct (decide (gexec g = ex)) as [<-|Hne]; [|by eapply live_step_other].
  intros Hr. cbn in Hr. destruct (exec_instr_status _ _ _ _ _ _ _ Hx) as [Es|[_ Hn]]; [|done].
  assert (Hr0 : status e (gexec g) = Some Running) by (rewrite <- Es; exact Hr).
  destruct (Hl Hr0) as [Hm Hw]. split; [by eapply marks_owed_step|by eapply will_check_step].
Qed.

(** Clients that register only workflows with a start node. *)
Definition op_ok (o : op) : Prop := match o with ORegister def => has_start def = true | _ => True end.

Definition engine_ok (e : Engine) : Prop :=
  (forall id def, workflows e !! id = Some def -> has_start def = true) /\ forall ex, live ex e.

Lemma live_more e e' ts ex :
  status e' ex = status e ex -> active e' ex = active e ex -> threads e' = threads e ++ ts ->
  live ex e -> live ex e'.
Proof.
  intros Es Ea Et Hl Hr. rewrite Es in Hr. destruct (Hl Hr) as [Hm Hw].
  assert (Hin : forall g, g ∈ threads e -> g ∈ threads e') by (intros g Hg; rewrite Et; apply elem_of_app; by left).
  unfold marks_owed, will_check. rewrite Ea. split.
  - intros id Hid. destruct (Hm id Hid) as (g & Hg & Ho). eauto.
  - destruct Hw as [(g & Hg & Ho)|(Hemp & g & Hg & Ho)]; [left|right]; eauto.
Qed.

Lemma step_workflows e i l e' : step e i l = Some e' -> workflows e' = workflows e.
Proof.
  intros Hst. destruct (goroutine_step_inv _ _ _ _ Hst) as (g & x & rest & e1 & repl & new & Hi & Hp & Hx & ->). cbn.
  clear Hst. exec_cases Hx; repeat case_match; done.
Qed.

Lemma live_startExecution e id w input ex :
  (forall id def, workflows e !! id = Some def -> has_start def = true) -> live ex e ->
  live ex (startExecution e id w input).1.
Proof.
  intros Hw Hl. unfold startExecution. destruct (workflows e !! w) as [def|] eqn:Ew; [|done].
  apply Hw in Ew. cbn [fst]. destruct (decide (ex = id)) as [->|Hne].
  - intros _. split.
    + intros k Hk. unfold active in Hk. cbn in Hk. rewrite lookup_insert_eq in Hk. by apply not_elem_of_empty in Hk.
    + left. eexists. split; [cbn; apply elem_of_app; right; left|]. split; [done|]. eexists. split; [left|done].
  - eapply (live_more e); [| |reflexivity|exact Hl].
    + unfold status. cbn. by rewrite lookup_insert_ne.
    + unfold active. cbn. by rewrite lookup_insert_ne.
Qed.

Lemma live_CancelExecution e k now ex : live ex e -> live ex (CancelExecution e k now).1.
Proof.
  intros Hl. unfold CancelExecution. destruct (executions e !! k) as [s|] eqn:Ek; [|done].
  case_bool_decide; [|done]. cbn [fst]. destruct (decide (ex = k)) as [->|Hne].
  - intros Hr. unfold status in Hr. cbn in Hr. by rewrite lookup_alter_eq, Ek in Hr.
  - eapply (live_more e); [| |reflexivity|exact Hl]; [|done]. unfold status. cbn. by rewrite lookup_alter_ne.
Qed.

Lemma live_CleanupOldExecutions e now maxAge ex : live ex e -> live ex (CleanupOldExecutions e now maxAge).1.
Proof.
  intros Hl Hr. unfold status, CleanupOldExecutions in Hr. cbn in Hr.
  set (old := dom (filter (fun kv => is_old now maxAge kv.2 = true) (executions e))) in *.
  assert (Hno : ex ∉ old /\ executions e !! ex = Some (default (mkExec "" Pending None None [] [] ∅ []) (executions e !! ex))).
  { destruct (filter _ (executions e) !! ex) as [s|] eqn:E; [|done]. apply map_lookup_filter_Some in E as [-> E]. done. }
  destruct Hno as [Hno Hs].
  eapply (live_more e _ []); [| |by rewrite app_nil_r|exact Hl|].
  - unfold status. cbn. fold old. f_equal. rewrite Hs. by apply map_lookup_filter_Some.
  - unfold active. cbn. fold old. f_equal. destruct (activeNodes e !! ex) eqn:E.
    + by apply map_lookup_filter_Some.
    + apply map_lookup_filter_None. by left.
  - exact Hr.
Qed.

Lemma engine_ok_op e o e' : op_ok o -> apply_op e o = Some e' -> engine_ok e -> engine_ok e'.
Proof.
  intros Ho Ha [Hw Hl]. unfold apply_op in Ha. destruct (wedged e && op_takes_mu o); [done|].
  destruct o; simplify_eq.
  - split; [done|]. intros ex. by apply (live_more e _ []); [| |rewrite app_nil_r|].
  - unfold RegisterWorkflow. destruct (validate def); [done|]. split.
    + intros id d. cbn. rewrite lookup_insert_Some. naive_solver.
    + intros ex. by apply (live_more e _ []); [| |rewrite app_nil_r|].
  - split; [|intros; by apply live_startExecution]. intros k d. unfold startExecution.
    destruct (workflows e !! workflowID); apply Hw.
  - unfold handleNodeExecution. destruct (executions e !! ex); [|done]. split; [done|].
    intros k. by eapply (live_more e).
  - split; [|intros; by apply live_CancelExecution]. unfold CancelExecution. by repeat case_match.
  - split; [done|]. intros ex. by apply (live_more e _ []); [| |rewrite app_nil_r|].
  - split; [done|]. intros. by apply live_CleanupOldExecutions.
  - split; [by rewrite (step_workflows _ _ _ _ Ha)|]. intros. by eapply live_exec_step.
Qed.

Lemma engine_run_ok os : forall e e', Forall op_ok os -> run_ops e os = Some e' -> engine_ok e -> engine_ok e'.
Proof.
  induction os as [|o os IH]; intros e e' Hf Hr Hok; cbn in Hr; [by simplify_eq|]. inversion Hf; subst.
  destruct (apply_op e o) as [e1|] eqn:Ea; [|done]. eapply IH; eauto using engine_ok_op.
Qed.

Lemma NewEngine_ok types : engine_ok (NewEngine types).
Proof. split; [intros id def; cbn; by rewrite lookup_empty|]. intros ex Hr. unfold status in Hr. cbn in Hr. by rewrite lookup_empty in Hr. Qed.

(** All goroutines have ended. *)
Definition quiescent (e : Engine) : Prop := Forall (fun g => prog g = []) (threads e).

Lemma engine_ok_quiescent e ex : engine_ok e -> quiescent e -> status e ex <> Some Running.
Proof.
  intros [_ Hl] Hq Hr. destruct (Hl ex Hr) as [_ [(g & Hg & _ & x & Hx & _)|[_ (g & Hg & _ & x & Hx & _)]]];
    unfold quiescent in Hq; rewrite Forall_forall in Hq; rewrite (Hq g Hg) in Hx; by apply elem_of_nil in Hx.
Qed.

(** C4. Whatever the clients do and however the goroutines interleave, once every
    goroutine has ended no execution is left running: each one has completed,
    failed or been cancelled.  The workflows are required to have a start node. *)
Theorem no_execution_left_running (types : gset string) (os : list op) (e : Engine) (ex : string) :
  Forall op_ok os -> run_ops (NewEngine types) os = Some e -> quiescent e -> status e ex <> Some Running.
Proof. intros Hf Hr Hq. eapply engine_ok_quiescent; [|done]. eapply engine_run_ok; eauto using NewEngine_ok. Qed.

Definition one_node : WorkflowDefinition := mkDef "w" [mkNode "a" "noop" [] [] [] [] [] 0] [].

Definition steps (i k : nat) : list op := repeat (OStep i (LRun 7)) k.

Lemma no_execution_left_running_witness :
  exists e, run_ops (NewEngine {["noop"%string]})
    ([ORegister one_node; OStart "x" "w" VNil] ++ steps 0 4 ++ steps 1 2 ++
     [OStep 1 (LHandler [] (Ok (Some (mkOutput VNil [] false))))] ++ steps 1 11) = Some e /\
  status e "x" <> Some Running.
Proof.
  eexists. split; [vm_compute; reflexivity|].
  eapply (no_execution_left_running {["noop"%string]}
    ([ORegister one_node; OStart "x" "w" VNil] ++ steps 0 4 ++ steps 1 2 ++
     [OStep 1 (LHandler [] (Ok (Some (mkOutput VNil [] false))))] ++ steps 1 11)); [|vm_compute; reflexivity|].
  - repeat (constructor; try exact I).
  - vm_compute. repeat constructor.
Defined.

(** ** Cancellation *)

(** The handler calls made under a context. *)
Definition calls_of (ctx : string) (e : Engine) : list (string * string * string) :=
  List.filter (fun c => bool_decide (c.1.1 = ctx)) (calls e).

Lemma exec_instr_cancelled e g x l e1 repl new ctx :
  exec_instr e g x l = Some (e1, repl, new) -> ctx ∈ cancelled e ->
  ctx ∈ cancelled e1 /\ calls_of ctx e1 = calls_of ctx e.
Proof.
  intros H Hc. exec_cases H; unfold calls_of, recordError, upd_exec in *; cbn in *;
    try (split; [done|reflexivity]); try (repeat case_match; simplify_eq; cbn; (split; [set_solver|done])).
  split; [done|]. rewrite List.filter_app. cbn. case_bool_decide as E; [|by rewrite app_nil_r].
  subst ctx. unfold ctx_is_done in *. by rewrite bool_decide_true in *.
Qed.

Lemma apply_op_cancelled e o e' ctx :
  apply_op e o = Some e' -> ctx ∈ cancelled e -> ctx ∈ cancelled e' /\ calls_of ctx e' = calls_of ctx e.
Proof.
  intros Ha Hc. unfold apply_op in Ha. destruct (wedged e && op_takes_mu o); [done|].
  destruct o; simplify_eq; try (split; [done|done]).
  - unfold RegisterWorkflow. by repeat case_match.
  - unfold startExecution. by repeat case_match.
  - unfold handleNodeExecution. by repeat case_match.
  - unfold CancelExecution. by repeat case_match.
  - cbn. split; [set_solver|done].
  - destruct (goroutine_step_inv _ _ _ _ Ha) as (g & x & rest & e1 & repl & new & Hi & Hp & Hx & ->).
    by destruct (exec_instr_cancelled _ _ _ _ _ _ _ _ Hx Hc).
Qed.

Lemma run_ops_cancelled os ctx : forall e e',
  run_ops e os = Some e' -> ctx ∈ cancelled e -> ctx ∈ cancelled e' /\ calls_of ctx e' = calls_of ctx e.
Proof.
  induction os as [|o os IH]; intros e e' Hr Hc; cbn in Hr; [by simplify_eq|].
  destruct (apply_op e o) as [e1|] eqn:Ea; [|done]. destruct (apply_op_cancelled _ _ _ _ Ea Hc) as [Hc1 E1].
  destruct (IH _ _ Hr Hc1) as [? ?]. split; [done|congruence].
Qed.

(** Cancelling a running execution sets its status to cancelled, and once the
    call has closed the execution's context no node handler of it is called any
    more, whatever else happens. *)
Theorem cancel_stops_the_handlers (e : Engine) (ex : string) (now : Z) (s : ExecutionState) :
  wedged e = false -> executions e !! ex = Some s -> Status s = Running -> ex ∈ execContexts e ->
  let e1 := (CancelExecution e ex now).1 in
  (CancelExecution e ex now).2 = None /\ status e1 ex = Some Cancelled /\
  exists e2, step e1 (length (threads e)) (LRun now) = Some e2 /\ ex ∈ cancelled e2 /\
    forall os e3, run_ops e2 os = Some e3 -> calls_of ex e3 = calls_of ex e2.
Proof.
  intros Hcr He Hs Hx. unfold CancelExecution. rewrite He, bool_decide_true by done. cbn [fst snd].
  split; [done|]. split; [unfold status; cbn; by rewrite lookup_alter_eq, He|].
  unfold step. cbn [wedged threads set_threads upd_exec set_executions]. rewrite list_lookup_middle by done.
  cbn [prog takes_mu]. rewrite Hcr. cbn [andb exec_instr gexec]. cbn [execContexts set_threads upd_exec set_executions]. rewrite bool_decide_true by done.
  eexists. split; [reflexivity|]. cbn [cancelled set_threads set_execContexts set_cancelled]. split; [set_solver|].
  intros os e3 Hr. eapply run_ops_cancelled; [exact Hr|]. cbn. set_solver.
Qed.

Lemma cancel_stops_the_handlers_witness :
  exists e s, executions e !! "x"%string = Some s /\ (CancelExecution e "x" 9).2 = None.
Proof.
  assert (H : exists e, run_ops (NewEngine {["noop"%string]}) [ORegister one_node; OStart "x" "w" VNil] = Some e)
    by (eexists; vm_compute; reflexivity).
  pose (e := default (NewEngine ∅) (run_ops (NewEngine {["noop"%string]}) [ORegister one_node; OStart "x" "w" VNil])).
  pose (s := default (mkExec "" Pending None None [] [] ∅ []) (executions e !! "x"%string)).
  exists e, s. split; [reflexivity|].
  refine (proj1 (cancel_stops_the_handlers e "x" 9 s _ _ _ _)); [reflexivity|reflexivity|reflexivity|].
  apply (bool_decide_unpack _). vm_compute. exact I.
Defined.

(** ** Merging *)

(** One input arriving at a merge node of an execution. *)
Record arrival : Type := mkArrival { aex : string; adef : WorkflowDefinition; anode : NodeDefinition; aval : value }.

(** The merge states after the arrivals, and the runs started: key and inputs. *)
Fixpoint merge_run (ms : gmap (string * string) mergeState) (l : list arrival) :
    gmap (string * string) mergeState * list ((string * string) * list value) :=
  match l with
  | [] => (ms, [])
  | a :: l =>
      let '(ms, fire) := handleMergeInput ms (aex a) (adef a) (anode a) (aval a) in
      let '(ms, runs) := merge_run ms l in
      (ms, match fire with Some vs => ((aex a, ID (anode a)), vs) :: runs | None => runs end)
  end.

Definition inputs_for (key : string * string) (l : list arrival) : list value :=
  map aval (List.filter (fun a => bool_decide ((aex a, ID (anode a)) = key)) l).

Definition runs_of (key : string * string) (runs : list ((string * string) * list value)) : list (list value) :=
  map snd (List.filter (fun r => bool_decide (r.1 = key)) runs).

Section merging.
Context (key : string * string) (def : WorkflowDefinition) (node : NodeDefinition).
Hypothesis Hmode : merge_mode node = "waitAll"%string.

Definition merge_need : Z := Z.max 1 (expected_inputs def (ID node)).

(** The stored state of the merge node: what arrived since it last ran. *)
Definition stored (ms : gmap (string * string) mergeState) (vs : list value) : Prop :=
  match ms !! key with
  | None => vs = []
  | Some st => st = mkMerge (expected_inputs def (ID node)) (Z.of_nat (length vs)) vs /\
               Z.of_nat (length vs) < merge_need
  end.

Lemma stored_other ms ex d n v vs :
  (ex, ID n) <> key -> stored ms vs -> stored (handleMergeInput ms ex d n v).1 vs.
Proof.
  intros Hne. unfold stored, handleMergeInput. cbv zeta.
  match goal with |- context [if ?b then (delete _ _, _) else _] => destruct b end; cbn; [by rewrite lookup_delete_ne|by rewrite lookup_insert_ne].
Qed.

Lemma stored_self ms ex v vs :
  (ex, ID node) = key -> stored ms vs ->
  match (handleMergeInput ms ex def node v).2 with
  | Some ws => ws = vs ++ [v] /\ Z.of_nat (length ws) = merge_need /\ stored (handleMergeInput ms ex def node v).1 []
  | None => stored (handleMergeInput ms ex def node v).1 (vs ++ [v])
  end.
Proof.
  intros Hk Hs. unfold handleMergeInput. rewrite Hk, Hmode, bool_decide_true by done.
  assert (Hst : default (mkMerge (expected_inputs def (ID node)) 0 []) (ms !! key) =
    mkMerge (expected_inputs def (ID node)) (Z.of_nat (length vs)) vs /\ Z.of_nat (length vs) < merge_need).
  { unfold stored in Hs. destruct (ms !! key); [done|]. subst vs. split; [done|]. unfold merge_need. cbn. lia. }
  destruct Hst as [-> Hlt]. cbn. unfold stored, merge_need in *. destruct (Z.leb_spec (expected_inputs def (ID node)) (Z.of_nat (length vs) + 1)); cbn.
  - rewrite lookup_delete_eq, length_app. cbn. split; [done|]. split; [lia|done].
  - rewrite lookup_insert_eq, length_app. cbn. split; [f_equal; lia|lia].
Qed.

Lemma merge_run_spec l : forall ms vs,
  Forall (fun a => (aex a, ID (anode a)) = key -> adef a = def /\ anode a = node) l -> stored ms vs ->
  exists rem, stored (merge_run ms l).1 rem /\
    vs ++ inputs_for key l = concat (runs_of key (merge_run ms l).2) ++ rem /\
    Forall (fun ws => Z.of_nat (length ws) = merge_need) (runs_of key (merge_run ms l).2).
Proof.
  induction l as [|a l IH]; intros ms vs Hf Hs; cbn.
  { exists vs. rewrite app_nil_r. split; [done|]. by split. }
  inversion Hf as [|? ? Ha Hf']; subst. unfold inputs_for, runs_of in *. cbn.
  destruct (decide ((aex a, ID (anode a)) = key)) as [Hk|Hk].
  - destruct (Ha Hk) as [-> Hn]. rewrite Hn in *.
    pose proof (stored_self ms (aex a) (aval a) vs Hk Hs) as Hst.
    destruct (handleMergeInput ms (aex a) def node (aval a)) as [ms1 [ws|]]; cbn in Hst.
    + destruct Hst as (-> & Hlen & Hst). destruct (IH ms1 [] Hf' Hst) as (rem & H1 & H2 & H3).
      destruct (merge_run ms1 l) as [ms2 runs]. cbn in *. rewrite !bool_decide_true by done. cbn.
      exists rem. split; [done|]. split; [|by constructor]. rewrite <- app_assoc, <- H2, <- app_assoc. done.
    + destruct (IH ms1 (vs ++ [aval a]) Hf' Hst) as (rem & H1 & H2 & H3).
      destruct (merge_run ms1 l) as [ms2 runs]. cbn in *. rewrite !bool_decide_true by done. cbn.
      exists rem. split; [done|]. split; [|done]. by rewrite <- H2, <- app_assoc.
  - pose proof (stored_other ms (aex a) (adef a) (anode a) (aval a) vs Hk Hs) as Hst.
    destruct (handleMergeInput ms (aex a) (adef a) (anode a) (aval a)) as [ms1 fire]; cbn in Hst.
    destruct (IH ms1 vs Hf' Hst) as (rem & H1 & H2 & H3). exists rem.
    destruct (merge_run ms1 l) as [ms2 runs]. cbn in *. rewrite bool_decide_false by done.
    destruct fire; cbn; rewrite ?bool_decide_false by done; done.
Qed.
End merging.

(** A merge node in mode waitAll runs with exactly one input per incoming
    reference (at least one), in arrival order, however the arrivals of other
    merge nodes and executions are interleaved with its own: no input is lost,
    duplicated or handed to another run. *)
Theorem merge_waits_for_all (ex : string) (def : WorkflowDefinition) (node : NodeDefinition) (l : list arrival) :
  merge_mode node = "waitAll"%string ->
  Forall (fun a => (aex a, ID (anode a)) = (ex, ID node) -> adef a = def /\ anode a = node) l ->
  let key := (ex, ID node) in
  let runs := runs_of key (merge_run ∅ l).2 in
  Forall (fun ws => Z.of_nat (length ws) = Z.max 1 (expected_inputs def (ID node))) runs /\
  exists rem, inputs_for key l = concat runs ++ rem /\ Z.of_nat (length rem) < Z.max 1 (expected_inputs def (ID node)).
Proof.
  intros Hm Hf. cbn zeta.
  destruct (merge_run_spec (ex, ID node) def node Hm l ∅ [] Hf) as (rem & H1 & H2 & H3).
  { unfold stored. by rewrite lookup_empty. }
  split; [done|]. exists rem. split; [done|]. unfold stored, merge_need in H1.
  destruct ((merge_run ∅ l).1 !! _); [by destruct H1|]. subst rem. cbn. lia.
Qed.

Definition merge_node : NodeDefinition := mkNode "m" "merge" [] [] [] [] [] 0.

Definition diamond : WorkflowDefinition :=
  mkDef "d" [mkNode "a" "split" [] ["b"; "c"]%string [] [] [] 0; mkNode "b" "noop" [] ["m"%string] [] [] [] 0;
             mkNode "c" "noop" [] ["m"%string] [] [] [] 0; merge_node] [].

Lemma merge_waits_for_all_witness :
  let l := [mkArrival "x" diamond merge_node (VInt 1); mkArrival "y" diamond merge_node (VInt 5);
            mkArrival "x" diamond merge_node (VInt 2)] in
  (merge_run ∅ l).2 = [(("x", "m")%string, [VInt 1; VInt 2])] /\
  exists rem, inputs_for ("x", "m")%string l = concat (runs_of ("x", "m")%string (merge_run ∅ l).2) ++ rem.
Proof.
  cbn zeta. split; [vm_compute; reflexivity|].
  destruct (merge_waits_for_all "x" diamond merge_node
    [mkArrival "x" diamond merge_node (VInt 1); mkArrival "y" diamond merge_node (VInt 5);
     mkArrival "x" diamond merge_node (VInt 2)]) as (_ & rem & H & _); [reflexivity| |by exists rem].
  repeat constructor.
Defined.

(** ** Where the engine falls short *)

(** The data a condition node passes on keeps its verdict, so a node that hands
    its data on unchanged is routed by that verdict again: its own [Next] is
    ignored, and without branches of its own the workflow stops there. *)
Theorem condition_verdict_hijacks_next (n : NodeDefinition) (res : bool) (i : NodeInput) (config : list (string * value)) :
  TrueNext n = [] -> FalseNext n = [] ->
  determineNextNodes n (noOpHandler (mkInput (Data (conditionOutput res i)) config)) = [].
Proof. intros Ht Hf. unfold determineNextNodes. cbn. by destruct res. Qed.

Lemma condition_verdict_hijacks_next_witness :
  let n := mkNode "n" "noop" [] ["m"%string] [] [] [] 0 in
  Next n = ["m"%string] /\
  determineNextNodes n (noOpHandler (mkInput (Data (conditionOutput true (mkInput VNil []))) [])) = [].
Proof. cbn zeta. split; [reflexivity|]. apply condition_verdict_hijacks_next; reflexivity. Defined.

(** A node that only [OnError] lists refer to is a start node. *)
Theorem error_handler_is_started (def : WorkflowDefinition) (h : NodeDefinition) :
  Forall (fun n => ID h ∉ refs n) (Nodes def) -> isStartNode h def = true.
Proof.
  intros Hf. unfold isStartNode. apply orb_true_iff. right. apply negb_true_iff, not_true_iff_false.
  intros Hex. apply existsb_exists in Hex as (n & Hn & Hp). rewrite Forall_forall in Hf. apply list_elem_of_In in Hn.
  specialize (Hf n Hn). unfold points_to in Hp. unfold refs in Hf. rewrite !elem_of_app in Hf.
  apply orb_true_iff in Hp as [Hp|Hp]; [apply orb_true_iff in Hp as [Hp|Hp]|];
    apply bool_decide_eq_true in Hp; naive_solver.
Qed.

Lemma error_handler_is_started_witness :
  let h := mkNode "h" "noop" [] [] [] [] [] 0 in
  isStartNode h (mkDef "w" [mkNode "a" "noop" [] [] ["h"%string] [] [] 0; h] []) = true.
Proof. cbn zeta. apply error_handler_is_started. repeat constructor; apply not_elem_of_nil. Defined.

(** The mode append, which the node's documentation names, never fires. *)
Theorem merge_append_never_fires ms ex def node data :
  merge_mode node = "append"%string -> (handleMergeInput ms ex def node data).2 = None.
Proof. intros Hm. unfold handleMergeInput. by rewrite Hm. Qed.

Lemma merge_append_never_fires_witness :
  (handleMergeInput ∅ "x" diamond (mkNode "m" "merge" [("mode"%string, VStr "append")] [] [] [] [] 0) VNil).2 = None.
Proof. apply merge_append_never_fires. reflexivity. Defined.

Definition answer (v : value) (stop : bool) : label := LHandler [] (Ok (Some (mkOutput v [] stop))).

(** A merge node is not marked active, so the execution completes when the node
    that delivers the last input ends, before the merge node has run; its context
    is dropped without being cancelled. *)
Example completed_before_the_merge_runs :
  exists e e', run_ops (NewEngine {["noop"; "split"; "merge"]}%string)
    ([ORegister diamond; OStart "x" "d" VNil] ++ steps 0 7 ++
     steps 1 2 ++ [OStep 1 (answer VNil false)] ++ steps 1 11 ++
     steps 2 2 ++ [OStep 2 (answer (VInt 1) false)] ++ steps 2 7 ++
     steps 3 2 ++ [OStep 3 (answer (VInt 2) false)] ++ steps 3 11) = Some e /\
  status e "x" = Some Completed /\ ("x", "x", "m")%string ∉ calls e /\
  "x"%string ∉ cancelled e /\ "x"%string ∉ execContexts e /\
  run_ops e (steps 4 2) = Some e' /\ ("x", "x", "m")%string ∈ calls e'.
Proof.
  eexists. eexists. split; [vm_compute; reflexivity|]. split; [vm_compute; reflexivity|].
  split; [apply (bool_decide_unpack _); vm_compute; exact I|].
  split; [apply (bool_decide_unpack _); vm_compute; exact I|].
  split; [apply (bool_decide_unpack _); vm_compute; exact I|].
  split; [vm_compute; reflexivity|]. apply (bool_decide_unpack _); vm_compute; exact I.
Qed.

(** A handler that is running when its execution is cancelled and answers with
    [Stop] turns the cancelled execution into a completed one. *)
Example stop_overwrites_cancelled :
  exists e e', run_ops (NewEngine {["noop"%string]})
    ([ORegister one_node; OStart "x" "w" VNil] ++ steps 0 4 ++ steps 1 2 ++ [OCancel "x" 5] ++ steps 2 3) = Some e /\
  status e "x" = Some Cancelled /\
  run_ops e ([OStep 1 (answer VNil true)] ++ steps 1 2) = Some e' /\ status e' "x" = Some Completed.
Proof.
  eexists. eexists. split; [vm_compute; reflexivity|]. split; [reflexivity|]. split; [vm_compute; reflexivity|reflexivity].
Qed.

(** A negative [RetryCount] skips the handler; dereferencing the nil output panics with
    the engine's lock held.  The deferred completion check waits for that lock, so
    the panic never ends the process: the execution stays running, no goroutine can
    move, and every call that needs the lock waits for ever. *)
Example negative_retries_hang :
  exists e, run_ops (NewEngine {["noop"%string]})
    ([ORegister (mkDef "w" [mkNode "a" "noop" [] [] [] [] [] (-1)] []); OStart "x" "w" VNil] ++ steps 0 4 ++ steps 1 4)
    = Some e /\ wedged e = true /\ calls e = [] /\ status e "x" = Some Running /\ ~ quiescent e /\
    (forall i l, step e i l = None) /\ (forall o, op_takes_mu o = true -> apply_op e o = None).
Proof.
  eexists. split; [vm_compute; reflexivity|]. split; [reflexivity|]. split; [reflexivity|]. split; [reflexivity|].
  split; [intros Hq; inversion Hq as [|? ? _ Hq']; inversion Hq' as [|? ? Hp _]; discriminate Hp|]. split.
  - intros i l. destruct i as [|[|i]]; reflexivity.
  - intros o Ho. unfold apply_op. by rewrite Ho.
Qed.

(** A workflow whose nodes form a cycle without a trigger starts nothing and stays
    running for ever. *)
Example cycle_stays_running :
  exists e, run_ops (NewEngine {["noop"%string]})
    ([ORegister (mkDef "w" [mkNode "a" "noop" [] ["b"%string] [] [] [] 0; mkNode "b" "noop" [] ["a"%string] [] [] [] 0] []);
      OStart "x" "w" VNil] ++ steps 0 3) = Some e /\
  quiescent e /\ status e "x" = Some Running.
Proof. eexists. split; [vm_compute; reflexivity|]. split; [repeat constructor|reflexivity]. Qed.

(** The operator contains finds prefixes and suffixes only. *)
Example contains_misses_the_middle :
  contains_str "hello world" "hello" = true /\ contains_str "hello world" "lo wo" = false.
Proof. vm_compute. done. Qed.
