(* ===== verification/WorkflowTermination.v ===== *)
(** * The workflow engine: executions of acyclic workflows end

    A numeric measure of the work the goroutines of Workflow.v have left.  It
    decreases with every step when the references of the nodes, and the nodes a
    handler asks for, go down in some rank; with the completion invariant of
    WorkflowSafety.v, every maximal run then leaves all executions finished. *)
From S2P Require Import Prelude Workflow WorkflowSafety.

Section acyclic.
(** A rank of node ids, a bound on fan-out and one on attempts. *)
Context (rank : string -> nat) (b R : nat).

Definition downhill (n : NodeDefinition) (ids : list string) : Prop :=
  (length ids <= b)%nat /\ Forall (fun id => (rank id < rank (ID n))%nat) ids.

Definition attempts (n : NodeDefinition) : nat := Z.to_nat (retries n).

Record node_ok (n : NodeDefinition) : Prop := mkNodeOk {
  next_down : downhill n (Next n);
  true_down : downhill n (TrueNext n);
  false_down : downhill n (FalseNext n);
  error_down : downhill n (OnError n);
  retry_nonneg : 0 <= RetryCount n;
  attempts_le : (attempts n <= R)%nat
}.

Definition def_ok (def : WorkflowDefinition) : Prop := Forall node_ok (Nodes def).

Definition output_ok (n : NodeDefinition) (out : option NodeOutput) : Prop :=
  match out with Some o => downhill n (NextNodes o) | None => False end.

Definition instr_ok (x : instr) : Prop :=
  match x with
  | IStart ns _ => Forall node_ok ns
  | IMarkGo n _ | IGo n _ | IBegin n _ | IFail n _ _ | IMerge n _ => node_ok n
  | ILoop n _ i | ICall n _ i => node_ok n /\ 0 <= i < retries n
  | IBackoff n _ i => node_ok n /\ 0 <= i < retries n - 1
  | IStore n out => node_ok n /\ output_ok n out
  | _ => True
  end.

Definition thread_ok (g : goroutine) : Prop := def_ok (gdef g) /\ Forall instr_ok (prog g).

(** A handler answers with an output that routes downhill, or with an error. *)
Definition label_ok (x : instr) (l : label) : Prop :=
  match x, l with ICall n _ _, LHandler _ (Ok out) => output_ok n out | _, _ => True end.

Definition gstep (e e' : Engine) : Prop :=
  exists i l g x rest, threads e !! i = Some g /\ prog g = x :: rest /\ label_ok x l /\ step e i l = Some e'.

(** ** The measure *)

(** The most a reference of a node of rank [r] can cost. *)
Fixpoint fan (r : nat) : nat :=
  match r with O => 0 | S r => 3 + (21 + (1 + b * fan r) + 3 * R) end%nat.

Definition dispatch (n : NodeDefinition) : nat := 1 + b * fan (rank (ID n)).

Definition node_weight (n : NodeDefinition) : nat := 21 + dispatch n + 3 * attempts n.

Definition ids_weight (ids : list string) : nat := sum_list_with (fun id => fan (S (rank id))) ids.

Definition weight (x : instr) : nat :=
  match x with
  | IStart ns _ => 1 + sum_list_with (fun n => 3 + node_weight n) ns
  | IMarkGo n _ | IMerge n _ => 2 + node_weight n
  | IGo n _ => 1 + node_weight n
  | IBegin n _ => 13 + dispatch n + 3 * attempts n
  | ILoop n _ i => 12 + dispatch n + 3 * Z.to_nat (retries n - i)
  | ICall n _ i => 11 + dispatch n + 3 * Z.to_nat (retries n - i)
  | IBackoff n _ i => 10 + dispatch n + 3 * Z.to_nat (retries n - i)
  | IFail n _ _ | IStore n _ => 10 + dispatch n
  | IErrNext ids _ | INext ids _ => 1 + ids_weight ids
  | IRecord _ _ | ICancelCtx | ICleanCtx | ICleanActive | ICleanMerge => 1
  | IComplete _ => 4
  | ICheckErrors => 5
  | ICheckActive => 6
  | ICheck => 7
  | IMarkInactive _ => 8
  end%nat.

Definition prog_weight (p : list instr) : nat := sum_list_with weight p.

Definition total (ts : list goroutine) : nat := sum_list_with (fun g => prog_weight (prog g)) ts.

Lemma fan_mono r r' : (r <= r')%nat -> (fan r <= fan r')%nat.
Proof.
  revert r'. induction r as [|r IH]; intros [|r'] Hle; cbn [fan]; [lia..|].
  assert (fan r <= fan r')%nat by (apply IH; lia). nia.
Qed.

Lemma downhill_weight n ids : downhill n ids -> (1 + ids_weight ids <= dispatch n)%nat.
Proof.
  intros [Hl Hf]. unfold dispatch.
  assert (ids_weight ids <= length ids * fan (rank (ID n)))%nat; [|nia].
  clear Hl. unfold ids_weight. induction Hf as [|id ids Hid Hf IH]; cbn [sum_list_with length]; [lia|].
  pose proof (fan_mono (S (rank id)) (rank (ID n)) ltac:(lia)). lia.
Qed.

Lemma node_weight_fan n : node_ok n -> (3 + node_weight n <= fan (S (rank (ID n))))%nat.
Proof. intros [_ _ _ _ _ Ha]. unfold node_weight, dispatch. cbn [fan]. nia. Qed.

Lemma prog_weight_app p q : prog_weight (p ++ q) = (prog_weight p + prog_weight q)%nat.
Proof. unfold prog_weight. apply sum_list_with_app. Qed.

Lemma findNode_ok def id n : def_ok def -> findNode def id = Some n -> node_ok n /\ ID n = id.
Proof.
  intros Hd Hf. pose proof (find_node_spec (Nodes def) id) as Hs. unfold findNode in Hf. rewrite Hf in Hs.
  destruct Hs as [Hin Hid]. split; [|done]. unfold def_ok in Hd. rewrite Forall_forall in Hd. auto.
Qed.

Lemma determineNextNodes_down n out : node_ok n -> downhill n (NextNodes out) -> downhill n (determineNextNodes n out).
Proof. intros [? ? ? ? _ _] ?. unfold determineNextNodes. repeat case_match; done. Qed.

Lemma retries_pos n : 0 <= RetryCount n -> 0 < retries n.
Proof. intros H. unfold retries. destruct (Z.eqb_spec (RetryCount n) 0); lia. Qed.

(** Closes the four parts of the lemma below. *)
Ltac parts :=
  cbn [app]; repeat first [done | apply Forall_nil_2 | apply Forall_cons_2 | split];
  unfold prog_weight; cbn [sum_list_with weight prog executeNode instr_ok]; repeat split; try done; try lia;
  unfold ids_weight, node_weight, attempts in *; cbn [sum_list_with fan] in *; try lia.

(** One instruction: what replaces it is well formed and weighs less. *)
Lemma exec_instr_decreases e g x l e1 repl new :
  def_ok (gdef g) -> instr_ok x -> label_ok x l -> exec_instr e g x l = Some (e1, repl, new) ->
  Forall instr_ok repl /\ Forall thread_ok new /\ (prog_weight repl + total new < weight x)%nat /\ wedged e1 = wedged e.
Proof.
  intros Hd Hx Hl H. unfold prog_weight, total.
  destruct x as [[|n ns] input|n input|n input|n input|n input i|n input i|n input i|n input msg|[|id ids] input|id msg
    |n [out|]|[|id ids] data|n data|id| | | |k| | | |]; destruct l as [now|vars res|]; try done;
    unfold exec_instr, check_status, check_active, check_errors, completeExecution in H; cbn in H, Hx, Hl.
  - injection H as <- <- <-. parts.
  - injection H as <- <- <-. inversion Hx; subst. destruct (isStartNode n (gdef g)); parts.
  - injection H as <- <- <-. parts.
  - injection H as <- <- <-. parts.
  - injection H as <- <- <-. pose proof (retries_pos n (retry_nonneg n Hx)). destruct (ctx_is_done e g); [|case_bool_decide];
      parts.
  - destruct Hx as [Hn Hi]. destruct (Z.ltb_spec i (retries n)) as [Hlt|]; [|lia].
    destruct (ctx_is_done e g); injection H as <- <- <-; parts.
  - destruct Hx as [Hn Hi]. destruct res as [out|msg]; [|destruct (Z.ltb_spec i (retries n - 1)) as [Hlt|]];
      injection H as <- <- <-; parts.
  - destruct (ctx_is_done e g); [|done]. injection H as <- <- <-. parts.
  - destruct Hx as [Hn Hi]. injection H as <- <- <-. parts.
  - injection H as <- <- <-. pose proof (downhill_weight n _ (error_down n Hx)) as Hw.
    destruct (OnError n); parts.
  - injection H as <- <- <-. parts.
  - injection H as <- <- <-. destruct (findNode (gdef g) id) as [m|] eqn:Ef.
    + destruct (findNode_ok _ _ _ Hd Ef) as [Hm <-]. pose proof (node_weight_fan m Hm).
      parts.
    + parts.
  - injection H as <- <- <-. parts.
  - destruct Hx as [Hn Ho]. injection H as <- <- <-. pose proof (downhill_weight n _ (determineNextNodes_down n out Hn Ho)) as Hw.
    destruct (Stop out); [|destruct (determineNextNodes n out)]; parts.
  - by destruct Hx.
  - injection H as <- <- <-. parts.
  - destruct (ctx_is_done e g); injection H as <- <- <-; [parts|].
    destruct (findNode (gdef g) id) as [m|] eqn:Ef.
    + destruct (findNode_ok _ _ _ Hd Ef) as [Hm <-]. pose proof (node_weight_fan m Hm).
      case_bool_decide; parts.
    + parts.
  - destruct (handleMergeInput _ _ _ _ _) as [ms [vs|]]; injection H as <- <- <-;
      parts.
  - injection H as <- <- <-. parts.
  - injection H as <- <- <-. repeat case_match; parts.
  - injection H as <- <- <-. repeat case_match; parts.
  - injection H as <- <- <-. parts.
  - destruct (executions e !! gexec g); injection H as <- <- <-; parts.
  - injection H as <- <- <-. parts; by case_bool_decide.
  - injection H as <- <- <-. parts.
  - injection H as <- <- <-. parts.
  - injection H as <- <- <-. parts.
Qed.

(** ** Runs *)

Definition all_ok (e : Engine) : Prop := wedged e = false /\ Forall thread_ok (threads e).

Lemma total_insert ts i g g' :
  ts !! i = Some g -> (total (<[i := g']> ts) + prog_weight (prog g) = total ts + prog_weight (prog g'))%nat.
Proof.
  intros Hi. rewrite <- (take_drop_middle ts i g Hi) at 2. rewrite insert_take_drop by (by eapply lookup_lt_Some).
  unfold total. rewrite !sum_list_with_app. cbn [sum_list_with]. lia.
Qed.

Lemma gstep_ok e e' : all_ok e -> gstep e e' -> all_ok e' /\ (total (threads e') < total (threads e))%nat.
Proof.
  intros [Hc Hf] (i & l & g & x & rest & Hi & Hp & Hl & Hst).
  destruct (goroutine_step_inv _ _ _ _ Hst) as (g0 & x0 & rest0 & e1 & repl & new & Hi0 & Hp0 & Hx & ->).
  simplify_eq. assert (x0 = x /\ rest0 = rest) as [-> ->] by (split; congruence).
  pose proof (Forall_lookup_1 _ _ _ _ Hf Hi) as [Hd Hok]. rewrite Hp in Hok. inversion Hok as [|? ? Hx0 Hrest]; subst.
  destruct (exec_instr_decreases _ _ _ _ _ _ _ Hd Hx0 Hl Hx) as (Hr & Hn & Hw & Hcr).
  split; [split; [cbn; congruence|]|].
  - cbn. apply Forall_app. split; [|done]. apply Forall_insert; [done|]. split; [done|]. by apply Forall_app.
  - cbn [threads set_threads]. pose proof (total_insert (threads e) i g (set_prog g (repl ++ rest)) Hi) as Ht.
    cbn [prog set_prog] in Ht. rewrite prog_weight_app, Hp in Ht. unfold prog_weight in *. cbn [sum_list_with] in Ht.
    unfold total in *. rewrite sum_list_with_app. lia.
Qed.

Lemma gstep_op e e' : gstep e e' -> exists o, op_ok o /\ apply_op e o = Some e'.
Proof.
  intros (i & l & g & x & rest & _ & _ & _ & Hst). exists (OStep i l). split; [done|].
  unfold apply_op. by rewrite andb_false_r.
Qed.

Lemma exec_instr_progress e g x : 
  exists l r, label_ok x l /\ exec_instr e g x l = Some r.
Proof.
  destruct x as [[|n ns] input|n input|n input|n input|n input i|n input i|n input i|n input msg|[|id ids] input|id msg
    |n [out|]|[|id ids] data|n data|id| | | |k| | | |];
    try (exists (LRun 0); eexists; split; [exact I|reflexivity]).
  - exists (LRun 0). cbn. destruct (i <? retries n), (ctx_is_done e g); eauto.
  - exists (LHandler [] (Err "")). cbn. eauto.
  - exists LTimer. cbn. eauto.
  - exists (LRun 0). cbn. destruct (ctx_is_done e g); eauto.
  - exists (LRun 0). cbn. destruct (handleMergeInput _ _ _ _ _). eauto.
  - exists (LRun 0). cbn. destruct (executions e !! gexec g); eauto.
Qed.

Lemma gstep_progress e : wedged e = false -> ~ quiescent e -> exists e', gstep e e'.
Proof.
  intros Hc Hq. unfold quiescent in Hq.
  assert (Hex : Exists (fun g => prog g <> []) (threads e)).
  { apply not_Forall_Exists in Hq; [done|]. intros g. destruct (prog g); [by left|by right]. }
  apply Exists_exists in Hex as (g & Hg & Hne). apply list_elem_of_lookup in Hg as [i Hi].
  destruct (prog g) as [|x rest] eqn:Hp; [done|].
  destruct (exec_instr_progress e g x) as (l & [[e1 repl] new] & Hl & Hx).
  eexists. exists i, l, g, x, rest. do 3 (split; [done|]). unfold step. by rewrite Hi, Hp, Hc, Hx.
Qed.

(** C20. The executions of acyclic workflows end: when the references of every node and
    the nodes its handlers ask for go down in some rank, when no node has a negative
    RetryCount, and when no handler returns a nil output without an error, no
    schedule makes more steps than the measure of the state it starts from; as long
    as a goroutine is unfinished some step is possible; and when none is, no
    execution is running.  The engine's lock is never left held on the way.  The
    conditions on retries and outputs are needed: see
    WorkflowSafety.negative_retries_hang. *)
Theorem acyclic_executions_end (e : Engine) :
  all_ok e -> engine_ok e ->
  (forall n e', nsteps gstep n e e' -> (n <= total (threads e))%nat) /\
  (forall e', rtc gstep e e' -> (forall e'', ~ gstep e' e'') ->
     wedged e' = false /\ quiescent e' /\ forall ex, status e' ex <> Some Running).
Proof.
  intros Hok He. split.
  - intros n e' Hn. induction Hn as [|n e1 e2 e3 H12 H23 IH]; [lia|].
    destruct (gstep_ok _ _ Hok H12) as [Hok2 Hlt]. destruct (gstep_op _ _ H12) as (o & Ho & Ha).
    pose proof (IH Hok2 (engine_ok_op _ _ _ Ho Ha He)). lia.
  - intros e' Hr Hstuck. induction Hr as [e|e1 e2 e3 H12 H23 IH].
    + destruct Hok as [Hc _]. split; [done|].
      assert (Hq : quiescent e).
      { destruct (decide (quiescent e)) as [|Hq]; [done|]. destruct (gstep_progress e Hc Hq) as [e'' H'']. by destruct (Hstuck e''). }
      split; [done|]. intros ex. by apply engine_ok_quiescent.
    + destruct (gstep_op _ _ H12) as (o & Ho & Ha). apply IH; [by eapply gstep_ok|by eapply engine_ok_op|done].
Qed.
End acyclic.

(** A diamond that joins in a merge node has rank 2, 1, 1, 0. *)
Definition diamond_rank (id : string) : nat :=
  if bool_decide (id = "a"%string) then 2 else if bool_decide (id = "m"%string) then 0 else 1.

Definition diamond_started : Engine :=
  default (NewEngine ∅) (run_ops (NewEngine {["noop"; "split"; "merge"]}%string) [ORegister diamond; OStart "x" "d" VNil]).

Lemma acyclic_executions_end_witness :
  status diamond_started "x" = Some Running /\
  forall n e', nsteps (gstep diamond_rank 2) n diamond_started e' ->
    (n <= total diamond_rank 2 1 (threads diamond_started))%nat.
Proof.
  split; [vm_compute; reflexivity|].
  refine (proj1 (acyclic_executions_end diamond_rank 2 1 diamond_started _ _)).
  - split; [reflexivity|]. vm_compute. repeat constructor; cbn; try lia; vm_compute; lia.
  - eapply (engine_run_ok [ORegister diamond; OStart "x" "d" VNil] (NewEngine {["noop"; "split"; "merge"]}%string));
      [|reflexivity|apply NewEngine_ok].
    repeat constructor.
Defined.
