(* ===== verification/Router.v ===== *)
(** * Routers (pkg/web/fast_router.go, router.go)

    Paths and patterns are byte strings cut at '/'.  A handler is a function of
    the route parameters and of the state of the request; what fasthttp or
    net/http writes when a handler fails or no route matches is the outcome.
    The matching loops are proved to implement a relation on segments. *)
From S2P Require Import Prelude Codec.

Definition slash : Z := 47.
Definition colon : Z := 58.
Definition star : Z := 42.

(** [strings.Split(s, "/")] *)
Definition segments (s : list Z) : list (list Z) := split_on slash s.

(** [strings.HasPrefix] and [strings.TrimPrefix] for a one-byte prefix. *)
Definition has_prefix (c : Z) (s : list Z) : bool := match s with x :: _ => x =? c | [] => false end.

Definition trim_prefix (c : Z) (s : list Z) : list Z :=
  match s with x :: s' => if x =? c then s' else s | [] => [] end.

Notation params := (gmap (list Z) (list Z)).

Section router.
Context {St E : Type}.

Definition handler : Type := params -> St -> St * option E.
Definition middleware : Type := handler -> handler.

(** What the client gets: the handler's own response, or an error response. *)
Inductive reply : Type :=
| Handled
| InternalError (e : E)
| NotFound.

(** [for i := len(ms) - 1; i >= 0; i-- { h = ms[i](h) }] *)
Definition wrap_all (ms : list middleware) (h : handler) : handler := foldl (fun h m => m h) h (rev ms).

(** ** The fasthttp router *)

Record fastRoute : Type := mkFastRoute {
  method : list Z;
  path : list Z;
  rhandler : handler;
  rmiddleware : list middleware
}.

Record FastRouter : Type := mkFastRouter {
  routes : list fastRoute;
  gmiddleware : list middleware;
  defaultHandler : option handler
}.

Definition NewFastRouter : FastRouter := mkFastRouter [] [] None.

Definition RouteFastWith (r : FastRouter) (m p : list Z) (h : handler) (ms : list middleware) : FastRouter :=
  mkFastRouter (routes r ++ [mkFastRoute m p h ms]) (gmiddleware r) (defaultHandler r).

Definition RouteFast (r : FastRouter) (m p : list Z) (h : handler) : FastRouter := RouteFastWith r m p h [].

Definition UseFast (r : FastRouter) (ms : list middleware) : FastRouter :=
  mkFastRouter (routes r) (gmiddleware r ++ ms) (defaultHandler r).

Definition SetDefaultHandler (r : FastRouter) (h : option handler) : FastRouter :=
  mkFastRouter (routes r) (gmiddleware r) h.

(** The loop of [matchPath] from part [i] of the pattern on. *)
Fixpoint match_loop (rest : list (list Z)) (i : nat) (patternParts pathParts : list (list Z)) : bool :=
  match rest with
  | [] => (length patternParts =? length pathParts)%nat
  | part :: rest =>
      if has_prefix star part then true
      else if has_prefix colon part then
        if (length pathParts <=? i)%nat then false else match_loop rest (S i) patternParts pathParts
      else match pathParts !! i with
           | None => false
           | Some s => if bool_decide (part = s) then match_loop rest (S i) patternParts pathParts else false
           end
  end.

Definition matchPath (pattern p : list Z) : bool :=
  match_loop (segments pattern) 0 (segments pattern) (segments p).

Fixpoint extract_loop (rest : list (list Z)) (i : nat) (pathParts : list (list Z)) (ps : params) : params :=
  match rest with
  | [] => ps
  | part :: rest =>
      if has_prefix star part then
        if (i <? length pathParts)%nat then <[trim_prefix star part := join slash (drop i pathParts)]> ps else ps
      else
        let ps := if has_prefix colon part
                  then match pathParts !! i with Some s => <[trim_prefix colon part := s]> ps | None => ps end
                  else ps in
        extract_loop rest (S i) pathParts ps
  end.

Definition extractParams (pattern p : list Z) (ps : params) : params :=
  extract_loop (segments pattern) 0 (segments p) ps.

Fixpoint serve_loop (rs : list fastRoute) (gm : list middleware) (m p : list Z) : option (params * handler) :=
  match rs with
  | [] => None
  | rt :: rs =>
      if bool_decide (method rt = m) && matchPath (path rt) p
      then Some (extractParams (path rt) p ∅, wrap_all gm (wrap_all (rmiddleware rt) (rhandler rt)))
      else serve_loop rs gm m p
  end.

Definition run_handler (h : handler) (ps : params) (s : St) : St * reply :=
  match h ps s with
  | (s, None) => (s, Handled)
  | (s, Some e) => (s, InternalError e)
  end.

(** [ctx.Params] is empty when the request arrives. *)
Definition ServeFastHTTP (r : FastRouter) (m p : list Z) (s : St) : St * reply :=
  match serve_loop (routes r) (gmiddleware r) m p with
  | Some (ps, h) => run_handler h ps s
  | None =>
      match defaultHandler r with
      | Some h => run_handler (wrap_all (gmiddleware r) h) ∅ s
      | None => (s, NotFound)
      end
  end.

(** ** The net/http router *)

Record route : Type := mkRoute { hmethod : list Z; hpath : list Z; hhandler : handler }.

Record router : Type := mkRouter { hroutes : list route; hmiddleware : list middleware }.

Definition NewRouter : router := mkRouter [] [].

(** The middleware in place is applied when the route is registered. *)
Definition Route (r : router) (m p : list Z) (h : handler) : router :=
  mkRouter (hroutes r ++ [mkRoute m p (wrap_all (hmiddleware r) h)]) (hmiddleware r).

Definition Use (r : router) (mw : middleware) : router := mkRouter (hroutes r) (hmiddleware r ++ [mw]).

Fixpoint parts_match (patternParts pathParts : list (list Z)) (i : nat) : bool :=
  match patternParts with
  | [] => true
  | part :: rest =>
      if has_prefix colon part then parts_match rest pathParts (S i)
      else match pathParts !! i with
           | Some s => if bool_decide (part = s) then parts_match rest pathParts (S i) else false
           | None => false
           end
  end.

Definition http_matchPath (pattern p : list Z) : bool :=
  if (length (segments pattern) =? length (segments p))%nat then parts_match (segments pattern) (segments p) 0 else false.

Fixpoint http_extract (patternParts pathParts : list (list Z)) (i : nat) (ps : params) : params :=
  match patternParts with
  | [] => ps
  | part :: rest =>
      http_extract rest pathParts (S i)
        (if has_prefix colon part
         then match pathParts !! i with Some s => <[trim_prefix colon part := s]> ps | None => ps end
         else ps)
  end.

Definition http_extractParams (pattern p : list Z) : params := http_extract (segments pattern) (segments p) 0 ∅.

Fixpoint http_serve (rs : list route) (m p : list Z) : option (params * handler) :=
  match rs with
  | [] => None
  | rt :: rs =>
      if bool_decide (hmethod rt = m) && http_matchPath (hpath rt) p
      then Some (http_extractParams (hpath rt) p, hhandler rt)
      else http_serve rs m p
  end.

Definition ServeHTTP (r : router) (m p : list Z) (s : St) : St * reply :=
  match http_serve (hroutes r) m p with
  | Some (ps, h) => run_handler h ps s
  | None => (s, NotFound)
  end.
End router.
Arguments fastRoute : clear implicits.
Arguments FastRouter : clear implicits.
Arguments handler : clear implicits.
Arguments middleware : clear implicits.
Arguments reply : clear implicits.
Arguments route : clear implicits.
Arguments router : clear implicits.

(** ** What a pattern means *)

Inductive seg : Type :=
| Lit (s : list Z)
| Param (name : list Z)
| Wild (name : list Z).

Definition seg_of (part : list Z) : seg :=
  if has_prefix star part then Wild (trim_prefix star part)
  else if has_prefix colon part then Param (trim_prefix colon part)
  else Lit part.

(** The segments of a path follow the pattern and bind its parameters. *)
Inductive follows : list seg -> list (list Z) -> list (list Z * list Z) -> Prop :=
| follows_end : follows [] [] []
| follows_lit s segs parts bs : follows segs parts bs -> follows (Lit s :: segs) (s :: parts) bs
| follows_param n segs p parts bs : follows segs parts bs -> follows (Param n :: segs) (p :: parts) ((n, p) :: bs)
| follows_wild n segs p parts : follows (Wild n :: segs) (p :: parts) [(n, join slash (p :: parts))]
| follows_wild_none n segs : follows (Wild n :: segs) [] [].

Definition bind_all (ps : params) (bs : list (list Z * list Z)) : params := foldl (fun ps b => <[b.1 := b.2]> ps) ps bs.

Lemma match_loop_spec rest : forall i pat parts,
  (i + length rest = length pat)%nat -> (i <= length parts)%nat ->
  match_loop rest i pat parts = true <-> exists bs, follows (map seg_of rest) (drop i parts) bs.
Proof.
  induction rest as [|part rest IH]; intros i pat parts Hlen Hi; cbn in Hlen; cbn [match_loop map].
  { rewrite Nat.eqb_eq. split.
    - intros E. exists []. rewrite drop_ge by lia. constructor.
    - intros [bs Hb]. assert (drop i parts = []) as Hd by (by inversion Hb).
      apply (f_equal length) in Hd. rewrite length_drop in Hd. cbn in Hd. lia. }
  unfold seg_of at 1. destruct (has_prefix star part).
  { split; [intros _|done]. destruct (drop i parts); eexists; constructor. }
  destruct (parts !! i) as [s|] eqn:Es.
  - rewrite (drop_S _ _ _ Es). pose proof (lookup_lt_Some _ _ _ Es). destruct (has_prefix colon part).
    + destruct (Nat.leb_spec (length parts) i); [lia|]. rewrite IH by lia. split; intros [bs Hb]; [by eexists; constructor|].
      inversion Hb; subst. by eexists.
    + case_bool_decide as Ep; [rewrite IH by lia; subst s|]; split; try done; intros [bs Hb]; [by eexists; constructor| |];
        inversion Hb; subst; [by eexists|done].
  - apply lookup_ge_None in Es. rewrite drop_ge by lia. destruct (has_prefix colon part).
    + destruct (Nat.leb_spec (length parts) i); [|lia]. split; [done|]. intros [bs Hb]. inversion Hb.
    + split; [done|]. intros [bs Hb]. inversion Hb.
Qed.

Lemma extract_loop_spec rest : forall i parts ps bs,
  follows (map seg_of rest) (drop i parts) bs -> extract_loop rest i parts ps = bind_all ps bs.
Proof.
  induction rest as [|part rest IH]; intros i parts ps bs Hb; cbn [extract_loop map] in *.
  { by inversion Hb. }
  unfold seg_of in Hb at 1. destruct (has_prefix star part).
  { destruct (Nat.ltb_spec i (length parts)) as [Hlt|Hge].
    - destruct (lookup_lt_is_Some_2 parts i Hlt) as [s Es]. rewrite (drop_S _ _ _ Es) in *. by inversion Hb.
    - rewrite drop_ge in Hb by lia. by inversion Hb. }
  destruct (parts !! i) as [s|] eqn:Es.
  - rewrite (drop_S _ _ _ Es) in Hb. destruct (has_prefix colon part); inversion Hb; subst;
      by erewrite IH by eassumption.
  - apply lookup_ge_None in Es. rewrite drop_ge in Hb by lia. destruct (has_prefix colon part); inversion Hb.
Qed.

(** C33. The fasthttp router's [matchPath] decides exactly whether a path follows the
    pattern, segment by segment, and [extractParams] then stores exactly the
    bindings, the later one where a name occurs twice. *)
Theorem matchPath_spec (pattern p : list Z) :
  (matchPath pattern p = true <-> exists bs, follows (map seg_of (segments pattern)) (segments p) bs) /\
  forall ps bs, follows (map seg_of (segments pattern)) (segments p) bs -> extractParams pattern p ps = bind_all ps bs.
Proof.
  split; [apply match_loop_spec; lia|]. intros ps bs Hb. by apply extract_loop_spec.
Qed.

(** ** Filling a pattern and reading it back *)

Definition no_wild (pattern : list Z) : bool := forallb (fun part => negb (has_prefix star part)) (segments pattern).

Definition fill_part (σ : list Z -> list Z) (part : list Z) : list Z :=
  if has_prefix colon part then σ (trim_prefix colon part) else part.

(** The path a pattern stands for when its parameters have values. *)
Definition fill (pattern : list Z) (σ : list Z -> list Z) : list Z :=
  join slash (map (fill_part σ) (segments pattern)).

Lemma follows_fill σ parts :
  forallb (fun part => negb (has_prefix star part)) parts = true ->
  exists bs, follows (map seg_of parts) (map (fill_part σ) parts) bs /\
    Forall (fun b => b.2 = σ b.1) bs /\
    forall part, part ∈ parts -> has_prefix colon part = true -> trim_prefix colon part ∈ map fst bs.
Proof.
  induction parts as [|part parts IH]; intros Hw; cbn in *.
  { exists []. split; [constructor|]. split; [constructor|]. intros ? H. by apply elem_of_nil in H. }
  apply andb_true_iff in Hw as [Hw1 Hw2]. apply negb_true_iff in Hw1. destruct (IH Hw2) as (bs & Hb & Hv & Hn).
  unfold seg_of at 1, fill_part at 1. rewrite Hw1. destruct (has_prefix colon part) eqn:Hc.
  - eexists. split; [by constructor|]. split; [by constructor|]. intros q Hq Hqc. cbn.
    apply elem_of_cons in Hq as [->|Hq]; [left|right; auto].
  - eexists. split; [by constructor|]. split; [done|]. intros q Hq Hqc. apply elem_of_cons in Hq as [->|Hq]; [congruence|auto].
Qed.

Lemma bind_all_lookup σ bs : forall ps n,
  Forall (fun b => b.2 = σ b.1) bs -> (n ∈ map fst bs \/ ps !! n = Some (σ n)) -> bind_all ps bs !! n = Some (σ n).
Proof.
  induction bs as [|[k v] bs IH]; intros ps n Hf Hin; cbn in *.
  { destruct Hin as [H|H]; [by apply elem_of_nil in H|done]. }
  inversion Hf as [|? ? Hv Hf']; subst. cbn in Hv. subst v. apply IH; [done|].
  destruct (decide (k = n)) as [->|Hne]; [right; by rewrite lookup_insert_eq|].
  rewrite lookup_insert_ne by done. destruct Hin as [Hin|Hin]; [|by right].
  apply elem_of_cons in Hin as [->|Hin]; [done|by left].
Qed.

Lemma segments_fill pattern σ :
  (forall n, slash ∉ σ n) -> segments (fill pattern σ) = map (fill_part σ) (segments pattern).
Proof.
  intros Hσ. unfold segments at 1, fill. apply split_join.
  - pose proof (split_on_ne slash pattern). unfold segments. by destruct (split_on slash pattern).
  - apply Forall_map, Forall_impl with (P := fun p => slash ∉ p); [apply split_free|].
    intros part Hp. cbn. unfold fill_part. by destruct (has_prefix colon part).
Qed.

(** A path made from a pattern by giving its parameters values without a slash
    matches the pattern, and the router hands exactly those values back. *)
Theorem fill_roundtrip (pattern : list Z) (σ : list Z -> list Z) :
  no_wild pattern = true -> (forall n, slash ∉ σ n) ->
  matchPath pattern (fill pattern σ) = true /\
  forall part, part ∈ segments pattern -> has_prefix colon part = true ->
    extractParams pattern (fill pattern σ) ∅ !! trim_prefix colon part = Some (σ (trim_prefix colon part)).
Proof.
  intros Hw Hσ. destruct (follows_fill σ (segments pattern) Hw) as (bs & Hb & Hv & Hn).
  rewrite <- (segments_fill pattern σ Hσ) in Hb. split.
  - apply match_loop_spec; [lia..|]. by exists bs.
  - intros part Hp Hc. unfold extractParams. rewrite (extract_loop_spec _ 0 _ ∅ bs Hb).
    apply bind_all_lookup; [done|]. left. auto.
Qed.

Lemma fill_roundtrip_witness :
  let σ := fun n => n ++ lit "42" in
  fill (lit "/users/:id/posts") σ = lit "/users/id42/posts" /\
  matchPath (lit "/users/:id/posts") (fill (lit "/users/:id/posts") (fun _ => lit "42")) = true.
Proof.
  cbn zeta. split; [vm_compute; reflexivity|].
  refine (proj1 (fill_roundtrip (lit "/users/:id/posts") (fun _ => lit "42") _ _)); [vm_compute; reflexivity|].
  intros n. apply (bool_decide_unpack _). vm_compute. exact I.
Defined.

(** ** The two routers agree *)

Lemma parts_match_loop rest : forall i pat parts,
  forallb (fun part => negb (has_prefix star part)) rest = true ->
  (i + length rest = length pat)%nat -> length pat = length parts ->
  parts_match rest parts i = match_loop rest i pat parts.
Proof.
  induction rest as [|part rest IH]; intros i pat parts Hw Hl He; cbn in Hl; cbn [parts_match match_loop].
  { by rewrite He, Nat.eqb_refl. }
  cbn in Hw. apply andb_true_iff in Hw as [Hw1 Hw2]. apply negb_true_iff in Hw1. rewrite Hw1.
  destruct (has_prefix colon part).
  - destruct (Nat.leb_spec (length parts) i); [lia|]. apply IH; [done|lia|done].
  - destruct (parts !! i); [|done]. case_bool_decide; [|done]. apply IH; [done|lia|done].
Qed.

Lemma follows_length segs parts bs :
  Forall (fun s => match s with Wild _ => False | _ => True end) segs -> follows segs parts bs -> length segs = length parts.
Proof. intros Hf Hb. induction Hb; inversion Hf; subst; cbn; auto; done. Qed.

Lemma no_wild_segs parts :
  forallb (fun part => negb (has_prefix star part)) parts = true ->
  Forall (fun s => match s with Wild _ => False | _ => True end) (map seg_of parts).
Proof.
  induction parts as [|part parts IH]; intros Hw; cbn in *; constructor.
  - apply andb_true_iff in Hw as [Hw _]. apply negb_true_iff in Hw. unfold seg_of. rewrite Hw. by destruct (has_prefix colon part).
  - apply IH. by apply andb_true_iff in Hw as [_ ?].
Qed.

Lemma http_extract_loop rest : forall i parts ps,
  forallb (fun part => negb (has_prefix star part)) rest = true ->
  http_extract rest parts i ps = extract_loop rest i parts ps.
Proof.
  induction rest as [|part rest IH]; intros i parts ps Hw; cbn in *; [done|].
  apply andb_true_iff in Hw as [Hw1 Hw2]. apply negb_true_iff in Hw1. rewrite Hw1. by apply IH.
Qed.

(** On patterns without a wildcard the net/http router and the fasthttp router
    match the same paths and extract the same parameters. *)
Theorem routers_agree (pattern p : list Z) :
  no_wild pattern = true ->
  http_matchPath pattern p = matchPath pattern p /\ http_extractParams pattern p = extractParams pattern p ∅.
Proof.
  intros Hw. split; [|by apply http_extract_loop]. unfold http_matchPath, matchPath.
  destruct (Nat.eqb_spec (length (segments pattern)) (length (segments p))) as [E|Hne].
  - by apply parts_match_loop.
  - symmetry. apply not_true_iff_false. intros Hm. apply match_loop_spec in Hm as [bs Hb]; [|lia..].
    apply follows_length in Hb; [|by apply no_wild_segs]. rewrite length_map in Hb. done.
Qed.

Lemma routers_agree_witness :
  http_matchPath (lit "/a/:b") (lit "/a/") = matchPath (lit "/a/:b") (lit "/a/") /\ matchPath (lit "/a/:b") (lit "/a/") = true.
Proof. split; [|vm_compute; reflexivity]. refine (proj1 (routers_agree _ _ _)). vm_compute. reflexivity. Defined.

(** ** Serving *)

Section serving.
Context {St E : Type}.
Implicit Types (rt : fastRoute St E).

Definition takes (m p : list Z) rt : bool := bool_decide (method rt = m) && matchPath (path rt) p.

(** The middleware [m1; m2; ...] around [h] is [m1 (m2 (... h))]. *)
Lemma wrap_all_foldr (ms : list (middleware St E)) (h : handler St E) : wrap_all ms h = foldr (fun m h => m h) h ms.
Proof. unfold wrap_all. induction ms as [|m ms IH]; [done|]. cbn [rev foldr]. by rewrite foldl_app, IH. Qed.

(** The request goes to the first registered route of its method that matches,
    with that route's parameters, inside its own middleware, inside the global
    middleware, the first registered outermost; without one, to the default
    handler inside the global middleware, or to a 404. *)
Theorem ServeFastHTTP_spec (r : FastRouter St E) (m p : list Z) (s : St) :
  (forall before rt after, routes r = before ++ rt :: after ->
     forallb (fun rt => negb (takes m p rt)) before = true -> takes m p rt = true ->
     ServeFastHTTP r m p s =
       run_handler (foldr (fun m h => m h) (rhandler rt) (gmiddleware r ++ rmiddleware rt)) (extractParams (path rt) p ∅) s) /\
  (forallb (fun rt => negb (takes m p rt)) (routes r) = true ->
     ServeFastHTTP r m p s =
       match defaultHandler r with
       | Some h => run_handler (foldr (fun m h => m h) h (gmiddleware r)) ∅ s
       | None => (s, NotFound)
       end).
Proof.
  assert (Hskip : forall before rs, forallb (fun rt => negb (takes m p rt)) before = true ->
    serve_loop (before ++ rs) (gmiddleware r) m p = serve_loop rs (gmiddleware r) m p).
  { induction before as [|b before IH]; intros rs Hb; cbn in *; [done|]. apply andb_true_iff in Hb as [Hb1 Hb2].
    apply negb_true_iff in Hb1. unfold takes in Hb1. rewrite Hb1. auto. }
  unfold ServeFastHTTP. split.
  - intros before rt after Er Hb Ht. rewrite Er, Hskip by done. cbn. unfold takes in Ht. rewrite Ht.
    by rewrite !wrap_all_foldr, foldr_app.
  - intros Hb. rewrite <- (app_nil_r (routes r)), Hskip by done. cbn. destruct (defaultHandler r); [|done].
    by rewrite wrap_all_foldr.
Qed.
End serving.

(** ** Differences *)

(** Middleware added after a route still wraps it in the fasthttp router, and does
    not in the net/http router. *)
Example late_middleware :
  let h : handler (list Z) unit := fun _ s => (s, None) in
  let mw : middleware (list Z) unit := fun h ps s => h ps (1 :: s) in
  ServeFastHTTP (UseFast (RouteFast NewFastRouter (lit "GET") (lit "/") h) [mw]) (lit "GET") (lit "/") [] = ([1], Handled) /\
  ServeHTTP (Use (Route NewRouter (lit "GET") (lit "/") h) mw) (lit "GET") (lit "/") [] = ([], Handled).
Proof. vm_compute. done. Qed.

(** A wildcard matches nothing at all, and a parameter matches an empty segment. *)
Example generous_matches :
  matchPath (lit "/files/*path") (lit "/files") = true /\
  extractParams (lit "/files/*path") (lit "/files") ∅ !! lit "path" = None /\
  extractParams (lit "/users/:id") (lit "/users/") ∅ !! lit "id" = Some [].
Proof. vm_compute. done. Qed.
