(* ===== verification/Kson.v ===== *)
(** * Configuration syntax (pkg/kson/kson.go)

    The recursive-descent parser (documents, keys, inline objects, arrays, quoted
    and bare scalars), dotted paths into nested maps, and the typed accessors.
    The parser's state is the rest of the source and the line number; a loop that
    may not end takes fuel, and [None] is a call that has not returned.  Sources
    are ASCII.  A map is an association list in order of insertion.  The
    environment, strconv.ParseFloat and the formatting of values are parameters. *)
From Stdlib Require Import Ascii String.
From S2P Require Import Prelude Retry.
Local Open Scope string_scope.
Local Open Scope Z_scope.

(** ** Values *)

(** A float64 is kept as the text it was read from. *)
Inductive value : Type :=
| VNull
| VBool (b : bool)
| VInt (z : Z)
| VFloat (text : string)
| VStr (s : string)
| VArr (l : list value)
| VObj (m : list (string * value)).

Definition map_ : Type := list (string * value).

Fixpoint lookup_key (m : map_) (k : string) : option value :=
  match m with
  | [] => None
  | (k', v) :: m => if String.eqb k k' then Some v else lookup_key m k
  end.

Fixpoint set_key (m : map_) (k : string) (v : value) : map_ :=
  match m with
  | [] => [(k, v)]
  | (k', v') :: m => if String.eqb k k' then (k, v) :: m else (k', v') :: set_key m k v
  end.

(** ** Characters *)

Definition nl : ascii := "010".
Definition cr : ascii := "013".
Definition tab : ascii := "009".

Definition is_blank (c : ascii) : bool := Ascii.eqb c " " || Ascii.eqb c tab.

Definition is_eol (c : ascii) : bool := Ascii.eqb c nl || Ascii.eqb c cr.

Definition between (lo hi c : ascii) : bool :=
  (nat_of_ascii lo <=? nat_of_ascii c)%nat && (nat_of_ascii c <=? nat_of_ascii hi)%nat.

Definition is_digit (c : ascii) : bool := between "0" "9" c.

Definition isKeyByte (c : ascii) : bool :=
  between "a" "z" c || between "A" "Z" c || is_digit c ||
  Ascii.eqb c "_" || Ascii.eqb c "-" || Ascii.eqb c "." || Ascii.eqb c "/".

(** unicode.IsSpace on ASCII. *)
Definition is_space (c : ascii) : bool := between tab cr c || Ascii.eqb c " ".

(** strings.TrimRightFunc. *)
Fixpoint TrimRight (s : string) : string :=
  match s with
  | EmptyString => EmptyString
  | String c s =>
      match TrimRight s with
      | EmptyString => if is_space c then EmptyString else String c EmptyString
      | t => String c t
      end
  end.

Definition to_upper (a : ascii) : ascii :=
  let n := nat_of_ascii a in
  if (97 <=? n)%nat && (n <=? 122)%nat then ascii_of_nat (n - 32) else a.

(** strings.ToUpper(strings.ReplaceAll(key, ".", "_")). *)
Fixpoint env_name (key : string) : string :=
  match key with
  | EmptyString => EmptyString
  | String c key => String (if Ascii.eqb c "." then "_" else to_upper c)%char (env_name key)
  end.

(** ** os.Expand *)

Definition isShellSpecialVar (c : ascii) : bool :=
  existsb (Ascii.eqb c) ["*"; "#"; "$"; "@"; "!"; "?"; "-"]%char || is_digit c.

Definition isAlphaNum (c : ascii) : bool :=
  Ascii.eqb c "_" || is_digit c || between "a" "z" c || between "A" "Z" c.

(** The characters up to a closing brace, and what follows it. *)
Fixpoint to_brace (s : string) : option (string * string) :=
  match s with
  | EmptyString => None
  | String c s =>
      if Ascii.eqb c "}" then Some (EmptyString, s)
      else match to_brace s with Some (n, r) => Some (String c n, r) | None => None end
  end.

Fixpoint span (f : ascii -> bool) (s : string) : string * string :=
  match s with
  | EmptyString => (EmptyString, EmptyString)
  | String c s' => if f c then let '(a, b) := span f s' in (String c a, b) else (EmptyString, s)
  end.

(** getShellName after a dollar: the name ([None]: bad syntax, to be eaten), the
    rest.  A special variable in braces is found by the scan as well. *)
Definition getShellName (s : string) : option string * string :=
  match s with
  | EmptyString => (Some EmptyString, s)
  | String c s' =>
      if Ascii.eqb c "{" then
        match to_brace s' with
        | Some (EmptyString, r) => (None, r)
        | Some (n, r) => (Some n, r)
        | None => (None, s')
        end
      else if isShellSpecialVar c then (Some (String c EmptyString), s')
      else let '(n, r) := span isAlphaNum s in (Some n, r)
  end.

Fixpoint expand (fuel : nat) (mapping : string -> string) (s : string) : string :=
  match fuel with
  | O => s
  | S fuel =>
      match s with
      | EmptyString => EmptyString
      | String c s' =>
          if Ascii.eqb c "$" && negb (String.eqb s' EmptyString) then
            match getShellName s' with
            | (None, r) => expand fuel mapping r
            | (Some EmptyString, r) => String c (expand fuel mapping r)
            | (Some n, r) => mapping n ++ expand fuel mapping r
            end
          else String c (expand fuel mapping s')
      end
  end.

(** ** Scalars *)

Fixpoint parse_digits (s : string) (acc : Z) : option Z :=
  match s with
  | EmptyString => Some acc
  | String c s =>
      if is_digit c then parse_digits s (10 * acc + Z.of_nat (nat_of_ascii c - 48)) else None
  end.

(** strconv.ParseInt(s, 10, 64). *)
Definition ParseInt (s : string) : option Z :=
  let '(neg, digits) :=
    match s with
    | String "-" r => (true, r)
    | String "+" r => (false, r)
    | _ => (false, s)
    end in
  match digits with
  | EmptyString => None
  | _ =>
      match parse_digits digits 0 with
      | Some n => let z := if neg then - n else n in
                  if (min_i64 <=? z) && (z <=? max_i64) then Some z else None
      | None => None
      end
  end.

Section parser.
(** os.Getenv, and whether strconv.ParseFloat accepts a text. *)
Variable Getenv : string -> string.
Variable ParseFloat : string -> bool.

Definition expandEnv (s : string) : string := expand (String.length s) Getenv s.

Definition inferType (s : string) : value :=
  let l := ToLower s in
  if existsb (String.eqb l) ["true"; "yes"; "on"] then VBool true
  else if existsb (String.eqb l) ["false"; "no"; "off"] then VBool false
  else if existsb (String.eqb l) ["null"; "~"; "nil"] then VNull
  else
    match ParseInt s with
    | Some i => VInt i
    | None => if ParseFloat s then VFloat s else VStr s
    end.

(** ** The parser *)

Record parser : Type := mkParser {
  rest : string;
  line : Z
}.

(** The errors with the line they name. *)
Inductive kson_error : Type :=
| InvalidKeyChar (line : Z)
| EmptyKey (line : Z)
| ExpectedEquals (line : Z)
| ExpectedColon (line : Z)
| UnterminatedObject (line : Z)
| UnterminatedArray (line : Z)
| UnterminatedString (line : Z)
| EmptyObjectKey (line : Z)
| KeyConflict (line : Z).

Fixpoint skip_while (f : ascii -> bool) (s : string) : string :=
  match s with
  | EmptyString => EmptyString
  | String c s' => if f c then skip_while f s' else s
  end.

(** skipBlanks and skipInline. *)
Definition skipInline (p : parser) : parser := mkParser (skip_while is_blank (rest p)) (line p).

(** Both line ends count as a line. *)
Fixpoint skip_blanks_newlines (s : string) (l : Z) : parser :=
  match s with
  | EmptyString => mkParser EmptyString l
  | String c s' =>
      if is_eol c then skip_blanks_newlines s' (l + 1)
      else if is_blank c then skip_blanks_newlines s' l
      else mkParser s l
  end.

Definition skipBlanksAndNewlines (p : parser) : parser := skip_blanks_newlines (rest p) (line p).

Definition skipToEOL (p : parser) : parser :=
  mkParser (skip_while (fun c => negb (Ascii.eqb c nl)) (rest p)) (line p).

Definition advance (p : parser) : parser :=
  match rest p with
  | EmptyString => p
  | String c s => mkParser s (if Ascii.eqb c nl then line p + 1 else line p)
  end.

Definition expect (p : parser) (c : ascii) : option parser :=
  match rest p with
  | String d s => if Ascii.eqb d c then Some (mkParser s (line p)) else None
  | EmptyString => None
  end.

(** The loop of [key]: [None] is an invalid character. *)
Fixpoint key_loop (s : string) : option (string * string) :=
  match s with
  | EmptyString => Some (EmptyString, EmptyString)
  | String c s' =>
      if Ascii.eqb c "=" || is_blank c || is_eol c then Some (EmptyString, s)
      else if isKeyByte c then match key_loop s' with Some (k, r) => Some (String c k, r) | None => None end
      else None
  end.

Definition key (p : parser) : result kson_error (string * parser) :=
  match key_loop (rest p) with
  | None => Err (InvalidKeyChar (line p))
  | Some (EmptyString, _) => Err (EmptyKey (line p))
  | Some (k, r) => Ok (k, mkParser r (line p))
  end.

Definition escaped (c : ascii) : ascii :=
  if Ascii.eqb c "n" then nl else if Ascii.eqb c "t" then tab else if Ascii.eqb c "r" then cr else c.

(** After the opening quote. *)
Fixpoint quoted_loop (delim : ascii) (s : string) (l : Z) : result kson_error (string * parser) :=
  let push c (r : result kson_error (string * parser)) :=
    match r with Ok (t, p) => Ok (String c t, p) | Err e => Err e end in
  match s with
  | EmptyString => Err (UnterminatedString l)
  | String c s' =>
      if Ascii.eqb c delim then Ok (EmptyString, mkParser s' l)
      else if Ascii.eqb c "\" then
        match s' with
        | String d s'' => push (escaped d) (quoted_loop delim s'' l)
        | EmptyString => push c (quoted_loop delim s' l)
        end
      else push c (quoted_loop delim s' (if Ascii.eqb c nl then l + 1 else l))
  end.

Definition quoted (delim : ascii) (p : parser) : result kson_error (string * parser) :=
  match rest p with
  | EmptyString => Err (UnterminatedString (line p))
  | String _ s =>
      match quoted_loop delim s (line p) with
      | Ok (t, p) => Ok (expandEnv t, p)
      | Err e => Err e
      end
  end.

(** The raw text of a bare scalar, with the number of open [${]. *)
Fixpoint scalar_loop (s : string) (inBrace : nat) : string * string :=
  match s with
  | EmptyString => (EmptyString, EmptyString)
  | String c s' =>
      let take1 r := (String c (fst r), snd r) in
      if Ascii.eqb c "$" then
        match s' with
        | String d s'' =>
            if Ascii.eqb d "{" then let r := scalar_loop s'' (S inBrace) in (String c (String d (fst r)), snd r)
            else take1 (scalar_loop s' inBrace)
        | EmptyString => take1 (scalar_loop s' inBrace)
        end
      else if Ascii.eqb c "}" then
        match inBrace with
        | S k => take1 (scalar_loop s' k)
        | O => (EmptyString, s)
        end
      else if (inBrace =? 0)%nat && (Ascii.eqb c "#" || Ascii.eqb c "," || Ascii.eqb c "]") then (EmptyString, s)
      else if is_eol c then (EmptyString, s)
      else take1 (scalar_loop s' inBrace)
  end.

Definition scalar (p : parser) : value * parser :=
  let '(raw, r) := scalar_loop (rest p) 0 in
  (inferType (expandEnv (TrimRight raw)), mkParser r (line p)).

Definition bareObjectKey (p : parser) : result kson_error (string * parser) :=
  let '(k, r) := span (fun c => negb (Ascii.eqb c ":" || is_blank c)) (rest p) in
  match k with
  | EmptyString => Err (EmptyObjectKey (line p))
  | _ => Ok (k, mkParser r (line p))
  end.

Definition is_quote (c : ascii) : bool := Ascii.eqb c (ascii_of_nat 34) || Ascii.eqb c "'".

Definition object_key (c : ascii) (p : parser) : result kson_error (string * parser) :=
  if is_quote c then quoted c p else bareObjectKey p.

Fixpoint value_ (fuel : nat) (p : parser) : option (result kson_error (value * parser)) :=
  match fuel with
  | O => None
  | S fuel =>
      match rest p with
      | EmptyString => Some (Ok (VStr EmptyString, p))
      | String c s =>
          if Ascii.eqb c nl then Some (Ok (VStr EmptyString, p))
          else if Ascii.eqb c "{" then object_loop fuel [] (mkParser s (line p))
          else if Ascii.eqb c "[" then array_loop fuel [] (mkParser s (line p))
          else if is_quote c then
            Some (match quoted c p with Ok (t, p) => Ok (VStr t, p) | Err e => Err e end)
          else Some (Ok (scalar p))
      end
  end
with object_loop (fuel : nat) (obj : map_) (p : parser) : option (result kson_error (value * parser)) :=
  match fuel with
  | O => None
  | S fuel =>
      let p := skipBlanksAndNewlines p in
      match rest p with
      | EmptyString => Some (Err (UnterminatedObject (line p)))
      | String c s =>
          if Ascii.eqb c "}" then Some (Ok (VObj obj, mkParser s (line p)))
          else if Ascii.eqb c "," then object_loop fuel obj (mkParser s (line p))
          else
            match object_key c p with
            | Err e => Some (Err e)
            | Ok (k, p) =>
                match expect (skipInline p) ":" with
                | None => Some (Err (ExpectedColon (line p)))
                | Some p =>
                    match value_ fuel (skipInline p) with
                    | None => None
                    | Some (Err e) => Some (Err e)
                    | Some (Ok (v, p)) => object_loop fuel (set_key obj k v) (skipInline p)
                    end
                end
            end
      end
  end
with array_loop (fuel : nat) (arr : list value) (p : parser) : option (result kson_error (value * parser)) :=
  match fuel with
  | O => None
  | S fuel =>
      let p := skipBlanksAndNewlines p in
      match rest p with
      | EmptyString => Some (Err (UnterminatedArray (line p)))
      | String c s =>
          if Ascii.eqb c "]" then Some (Ok (VArr arr, mkParser s (line p)))
          else if Ascii.eqb c "," then array_loop fuel arr (mkParser s (line p))
          else
            match value_ fuel p with
            | None => None
            | Some (Err e) => Some (Err e)
            | Some (Ok (v, p)) => array_loop fuel (arr ++ [v])%list (skipInline p)
            end
      end
  end.

(** ** Dotted paths *)

(** The segments between the dots. *)
Fixpoint segments (key : string) : list string :=
  match key with
  | EmptyString => [EmptyString]
  | String c key =>
      if Ascii.eqb c "." then EmptyString :: segments key
      else match segments key with
           | h :: t => String c h :: t
           | [] => [String c EmptyString]
           end
  end.

(** [setNested] by segments: the map is left as it is when a segment on the way
    is not a map. *)
Fixpoint set_path (m : map_) (path : list string) (v : value) : option map_ :=
  match path with
  | [] => Some m
  | [k] => Some (set_key m k v)
  | h :: t =>
      match lookup_key m h with
      | None => match set_path [] t v with Some sub => Some (set_key m h (VObj sub)) | None => None end
      | Some (VObj sub) => match set_path sub t v with Some sub => Some (set_key m h (VObj sub)) | None => None end
      | Some _ => None
      end
  end.

Definition setNested (m : map_) (key : string) (v : value) : option map_ := set_path m (segments key) v.

(** Missing and null are both nil. *)
Fixpoint get_path (m : map_) (path : list string) : value :=
  match path with
  | [] => VNull
  | [k] => default VNull (lookup_key m k)
  | h :: t =>
      match lookup_key m h with
      | Some (VObj sub) => get_path sub t
      | _ => VNull
      end
  end.

Definition Get (m : map_) (path : string) : value := get_path m (segments path).

(** ** Documents *)

Definition override (key : string) (v : value) : value :=
  let o := Getenv ("KSON_" ++ env_name key) in
  if String.eqb o EmptyString then v else inferType o.

Definition at_comment (p : parser) : bool :=
  match rest p with String c _ => Ascii.eqb c "#" | EmptyString => false end.

(** The end of an entry: blanks, a comment, one line end. *)
Definition end_entry (p : parser) : parser :=
  let p := skipInline p in
  let p := if at_comment p then skipToEOL p else p in
  match rest p with
  | String c _ => if is_eol c then advance p else p
  | EmptyString => p
  end.

Fixpoint document (fuel : nat) (out : map_) (p : parser) : option (result kson_error map_) :=
  match fuel with
  | O => None
  | S fuel =>
      let p := skipInline p in
      match rest p with
      | EmptyString => Some (Ok out)
      | String c _ =>
          if Ascii.eqb c "#" then document fuel out (skipToEOL p)
          else if is_eol c then document fuel out (advance p)
          else
            match key p with
            | Err e => Some (Err e)
            | Ok (k, p) =>
                match expect (skipInline p) "=" with
                | None => Some (Err (ExpectedEquals (line p)))
                | Some p =>
                    match value_ fuel (skipInline p) with
                    | None => None
                    | Some (Err e) => Some (Err e)
                    | Some (Ok (v, p)) =>
                        match setNested out k (override k v) with
                        | None => Some (Err (KeyConflict (line p)))
                        | Some out => document fuel out (end_entry p)
                        end
                    end
                end
            end
      end
  end.

(** Twice the length and a little more is enough unless the parser never ends. *)
Definition Parse (src : string) : option (result kson_error map_) :=
  document (2 * String.length src + 4) [] (mkParser src 1).
End parser.

(** ** Accessors *)

Definition GetString (format : value -> string) (m : map_) (path def : string) : string :=
  match Get m path with
  | VNull => def
  | VStr s => s
  | v => format v
  end.

Definition GetInt (float_to_int : string -> Z) (m : map_) (path : string) (def : Z) : Z :=
  match Get m path with
  | VInt i => i
  | VFloat f => float_to_int f
  | VStr s => default def (ParseInt s)
  | _ => def
  end.

Definition GetBool (m : map_) (path : string) (def : bool) : bool :=
  match Get m path with
  | VBool b => b
  | VStr s =>
      let l := ToLower s in
      if existsb (String.eqb l) ["true"; "yes"; "on"; "1"] then true
      else if existsb (String.eqb l) ["false"; "no"; "off"; "0"] then false
      else def
  | VInt i => negb (i =? 0)
  | _ => def
  end.

Definition GetMap (m : map_) (path : string) : option map_ :=
  match Get m path with VObj sub => Some sub | _ => None end.

(** ** Laws of nested keys *)

Lemma lookup_set_eq m k v : lookup_key (set_key m k v) k = Some v.
Proof.
  induction m as [|[k' v'] m IH]; simpl; [by rewrite String.eqb_refl|].
  destruct (String.eqb k k') eqn:E; simpl; [by rewrite String.eqb_refl|by rewrite E].
Qed.

Lemma lookup_set_ne m k k' v : k' <> k -> lookup_key (set_key m k v) k' = lookup_key m k'.
Proof.
  intros Hne. apply String.eqb_neq in Hne as Hb. induction m as [|[k1 v1] m IH]; simpl; [by rewrite Hb|].
  destruct (String.eqb_spec k k1) as [<-|E]; simpl; [by rewrite Hb|by rewrite IH].
Qed.

Lemma segments_cons key : exists h t, segments key = h :: t.
Proof.
  induction key as [|c key (h & t & IH)]; simpl; [eauto|]. destruct (Ascii.eqb c "."); [eauto|]. rewrite IH. eauto.
Qed.

(** One step of a path that goes on. *)
Lemma set_path_step m h k t v : set_path m (h :: k :: t) v =
  match lookup_key m h with
  | None => match set_path [] (k :: t) v with Some sub => Some (set_key m h (VObj sub)) | None => None end
  | Some (VObj sub) => match set_path sub (k :: t) v with Some sub => Some (set_key m h (VObj sub)) | None => None end
  | Some _ => None
  end.
Proof. done. Qed.

Lemma get_path_step m h k t : get_path m (h :: k :: t) =
  match lookup_key m h with Some (VObj sub) => get_path sub (k :: t) | _ => VNull end.
Proof. done. Qed.

(** The map below [h], empty when there is none. *)
Definition below (m : map_) (h : string) : map_ := match lookup_key m h with Some (VObj sub) => sub | _ => [] end.

Lemma set_path_below m h k t v m' : set_path m (h :: k :: t) v = Some m' ->
  exists sub, set_path (below m h) (k :: t) v = Some sub /\ m' = set_key m h (VObj sub).
Proof.
  rewrite set_path_step. unfold below. destruct (lookup_key m h) as [[]|]; try done.
  all: destruct (set_path _ (k :: t) v) as [sub|]; [intros [= <-]; by exists sub|done].
Qed.

Lemma get_path_nil p : get_path [] p = VNull.
Proof. by destruct p as [|h [|k t]]. Qed.

Lemma get_path_below m h k t : get_path m (h :: k :: t) = get_path (below m h) (k :: t).
Proof. rewrite get_path_step. unfold below. destruct (lookup_key m h) as [[]|]; try done; by rewrite get_path_nil. Qed.

Lemma set_get_path path m v m' : path <> [] -> set_path m path v = Some m' -> get_path m' path = v.
Proof.
  revert m m'. induction path as [|h [|k t] IH]; intros m m' Hne H; [done| |].
  - injection H as <-. simpl. by rewrite lookup_set_eq.
  - apply set_path_below in H as (sub & Hs & ->). rewrite get_path_below. unfold below. rewrite lookup_set_eq.
    by eapply IH.
Qed.

Lemma set_path_frame path m v m' q : set_path m path v = Some m' ->
  ~ path `prefix_of` q -> ~ q `prefix_of` path -> get_path m' q = get_path m q.
Proof.
  revert m m' q. induction path as [|h [|k t] IH]; intros m m' q H H1 H2.
  - by destruct H1; apply prefix_nil.
  - injection H as <-. destruct q as [|h' [|k' t']].
    + by destruct H2; apply prefix_nil.
    + simpl. rewrite lookup_set_ne; [done|]. intros ->. by destruct H1.
    + rewrite !get_path_step, lookup_set_ne; [done|]. intros ->. destruct H1. apply (prefix_cons h). apply prefix_nil.
  - apply set_path_below in H as (sub & Hs & ->). destruct q as [|h' q].
    { by destruct H2; apply prefix_nil. }
    destruct (decide (h' = h)) as [->|Hne].
    + destruct q as [|k' t']; [destruct H2; apply (prefix_cons h), prefix_nil|].
      rewrite !get_path_below. unfold below at 1. rewrite lookup_set_eq. eapply IH; [exact Hs| |].
      * intros Hp. by apply H1, prefix_cons.
      * intros Hp. by apply H2, prefix_cons.
    + destruct q as [|k' t']; simpl; by rewrite lookup_set_ne.
Qed.

(** Setting a dotted key and getting it back gives the value set; a key of which
    neither extends the other keeps its value. *)
Theorem nested_set_get m k v m' :
  setNested m k v = Some m' ->
  Get m' k = v /\
  forall q, ~ segments k `prefix_of` segments q -> ~ segments q `prefix_of` segments k -> Get m' q = Get m q.
Proof.
  intros H. destruct (segments_cons k) as (h & t & Hk). split.
  - eapply set_get_path; [|exact H]. by rewrite Hk.
  - intros q. by apply set_path_frame with (v := v).
Qed.

Lemma nested_set_get_witness :
  exists m', setNested [("db", VObj [("host", VStr "a")])] "db.pool.max" (VInt 8) = Some m' /\
    Get m' "db.pool.max" = VInt 8 /\ Get m' "db.host" = VStr "a".
Proof.
  eexists. split; [reflexivity|].
  destruct (nested_set_get [("db", VObj [("host", VStr "a")])] "db.pool.max" (VInt 8) _ eq_refl) as [H1 H2].
  split; [exact H1|]. apply (H2 "db.host"); intros [k Hk]; discriminate Hk.
Defined.

(** ** A parser that does not end *)

Lemma array_at_comment_hangs env pf fuel arr p s l : skipBlanksAndNewlines p = mkParser (String "#" s) l ->
  array_loop env pf fuel arr p = None.
Proof.
  revert arr p. induction fuel as [|fuel IH]; intros arr p Hp; [done|].
  cbn [array_loop]. rewrite Hp. destruct fuel as [|fuel]; [done|]. by apply IH.
Qed.

(** A comment inside an array is never skipped: the element there is empty and
    nothing is consumed, so the parser collects empty elements for ever. *)
Theorem comment_in_array_hangs env pf fuel :
  document env pf fuel [] (mkParser "tags = [auth, # first
  wallet]" 1) = None.
Proof.
  destruct fuel as [|[|[|[|[|fuel]]]]]; [reflexivity..|].
  enough (value_ env pf (S (S (S (S fuel)))) (mkParser "[auth, # first
  wallet]" 1) = None) as H.
  { change (document env pf (S (S (S (S (S fuel))))) [] _) with
      (match value_ env pf (S (S (S (S fuel)))) (mkParser "[auth, # first
  wallet]" 1) with
       | None => None
       | Some (Err e) => Some (Err e)
       | Some (Ok (v, p)) =>
           match setNested [] "tags" (override env pf "tags" v) with
           | None => Some (Err (KeyConflict (line p)))
           | Some out => document env pf (S (S (S (S fuel)))) out (end_entry p)
           end
       end). by rewrite H. }
  change (value_ env pf (S (S (S (S fuel)))) _) with
    (array_loop env pf (S fuel) [fst (scalar env pf (mkParser "auth, # first
  wallet]" 1))] (mkParser " # first
  wallet]" 1)).
  by eapply array_at_comment_hangs.
Qed.

(** ** Sources on which the parser ends *)

Fixpoint all_chars (f : ascii -> bool) (s : string) : bool :=
  match s with EmptyString => true | String c s => f c && all_chars f s end.

(** [s] is what is left of [t]. *)
Inductive suf (s : string) : string -> Prop :=
| suf_refl : suf s s
| suf_step c t : suf s t -> suf s (String c t).

Lemma suf_trans s t u : suf s t -> suf t u -> suf s u.
Proof. intros H1 H2. induction H2; [done|by constructor]. Qed.

Lemma suf_length s t : suf s t -> (String.length s <= String.length t)%nat.
Proof. induction 1; simpl; lia. Qed.

Lemma suf_chars f s t : suf s t -> all_chars f t = true -> all_chars f s = true.
Proof. induction 1; simpl; [done|]. intros [_ H']%andb_true_iff. auto. Qed.

Lemma suf_tail c s t : suf (String c s) t -> suf s t.
Proof. intros H. eapply suf_trans; [|exact H]. repeat constructor. Qed.

#[local] Hint Constructors suf : kson.
#[local] Hint Resolve suf_trans : kson.

Lemma skip_while_suf f s : suf (skip_while f s) s.
Proof. induction s as [|c s IH]; simpl; [constructor|]. destruct (f c); auto with kson. Qed.

Lemma skip_bn_suf s l : suf (rest (skip_blanks_newlines s l)) s.
Proof. revert l. induction s as [|c s IH]; intros l; simpl; [constructor|]. destruct (is_eol c), (is_blank c); simpl; auto with kson. Qed.

Lemma span_suf f s : suf (snd (span f s)) s /\ (fst (span f s) <> EmptyString -> forall c s', s = String c s' -> suf (snd (span f s)) s').
Proof.
  induction s as [|c s [IH _]]; simpl; [split; [constructor|done]|]. destruct (f c); simpl.
  - destruct (span f s); simpl in *. split; [by constructor|]. by intros _ c' s' [= -> ->].
  - split; [constructor|done].
Qed.

Lemma key_loop_suf s k r : key_loop s = Some (k, r) -> suf r s /\ (k <> EmptyString -> forall c s', s = String c s' -> suf r s').
Proof.
  revert k. induction s as [|c s IH]; simpl; intros k; [intros [= <- <-]; split; [constructor|done]|].
  destruct (_ || _ || _); [intros [= <- <-]; split; [constructor|done]|]. destruct (isKeyByte c); [|done].
  destruct (key_loop s) as [[k' r']|]; [|done]. intros [= <- <-]. destruct (IH k' eq_refl) as [H _].
  split; [by constructor|]. by intros _ c' s' [= -> ->].
Qed.

Lemma quoted_loop_suf delim s l t p : quoted_loop delim s l = Ok (t, p) -> suf (rest p) s.
Proof.
  revert l t p. induction s as [s IH] using (well_founded_induction (well_founded_ltof _ String.length)). intros l t p.
  destruct s as [|c s]; simpl; [done|]. destruct (Ascii.eqb c delim); [intros [= <- <-]; simpl; auto with kson|].
  destruct (Ascii.eqb c "\").
  - destruct s as [|d s]; [done|].
    destruct (quoted_loop delim s l) as [[t' p']|] eqn:E; [|done]. intros [= <- <-].
    apply IH in E; [auto with kson|]. unfold ltof; simpl; lia.
  - destruct (quoted_loop delim s _) as [[t' p']|] eqn:E; [|done]. intros [= <- <-].
    apply IH in E; [auto with kson|]. unfold ltof; simpl; lia.
Qed.

Definition stops (c : ascii) : bool :=
  is_eol c || Ascii.eqb c "#" || Ascii.eqb c "," || Ascii.eqb c "]" || Ascii.eqb c "}".

Lemma scalar_loop_suf s k : suf (snd (scalar_loop s k)) s.
Proof.
  revert k. induction s as [s IH] using (well_founded_induction (well_founded_ltof _ String.length)). intros k.
  assert (forall s' k, (String.length s' < String.length s)%nat -> suf (snd (scalar_loop s' k)) s') as IH' by (intros; by apply IH).
  clear IH. destruct s as [|c s]; simpl; [constructor|].
  destruct (Ascii.eqb c "$").
  - destruct s as [|d s]; [simpl; auto with kson|]. destruct (Ascii.eqb d "{"); cbn [snd].
    + constructor. constructor. apply IH'. simpl. lia.
    + constructor. apply IH'. simpl. lia.
  - destruct (Ascii.eqb c "}"); [destruct k; [constructor|]|].
    + constructor. apply IH'. simpl. lia.
    + destruct (_ && _); [constructor|]. destruct (is_eol c); [constructor|]. constructor. apply IH'. simpl. lia.
Qed.

Lemma scalar_loop_progress c s : stops c = false -> suf (snd (scalar_loop (String c s) 0)) s.
Proof.
  unfold stops. intros [[[[H1 H2]%orb_false_iff H3]%orb_false_iff H4]%orb_false_iff H5]%orb_false_iff. simpl.
  rewrite H5, H2, H3, H4, H1. simpl. destruct (Ascii.eqb c "$"); [|apply scalar_loop_suf].
  destruct s as [|d s]; [constructor|]. destruct (Ascii.eqb d "{"); [constructor|]; apply scalar_loop_suf.
Qed.

Lemma end_entry_suf p : suf (rest (end_entry p)) (rest p).
Proof.
  unfold end_entry. pose proof (skip_while_suf is_blank (rest p)) as H1.
  change (skip_while is_blank (rest p)) with (rest (skipInline p)) in H1. set (q := skipInline p) in *.
  assert (suf (rest (if at_comment q then skipToEOL q else q)) (rest p)) as H2.
  { destruct (at_comment q); [|done]. eapply suf_trans; [apply skip_while_suf|done]. }
  set (r := if at_comment q then skipToEOL q else q) in *.
  destruct (rest r) as [|c s] eqn:Er; [by rewrite Er|]. destruct (is_eol c); [|by rewrite Er].
  unfold advance. rewrite Er. simpl. by eapply suf_tail.
Qed.

Section fuel.
Variable Getenv : string -> string.
Variable ParseFloat : string -> bool.

Notation val := (value_ Getenv ParseFloat).
Notation obj_loop := (object_loop Getenv ParseFloat).
Notation arr_loop := (array_loop Getenv ParseFloat).

(** The equations of the three mutually recursive functions. *)
Lemma value_S fuel p : val (S fuel) p =
  match rest p with
  | EmptyString => Some (Ok (VStr EmptyString, p))
  | String c s =>
      if Ascii.eqb c nl then Some (Ok (VStr EmptyString, p))
      else if Ascii.eqb c "{" then obj_loop fuel [] (mkParser s (line p))
      else if Ascii.eqb c "[" then arr_loop fuel [] (mkParser s (line p))
      else if is_quote c then
        Some (match quoted Getenv c p with Ok (t, p) => Ok (VStr t, p) | Err e => Err e end)
      else Some (Ok (scalar Getenv ParseFloat p))
  end.
Proof. reflexivity. Qed.

Lemma object_loop_S fuel obj p : obj_loop (S fuel) obj p =
  (let p := skipBlanksAndNewlines p in
  match rest p with
  | EmptyString => Some (Err (UnterminatedObject (line p)))
  | String c s =>
      if Ascii.eqb c "}" then Some (Ok (VObj obj, mkParser s (line p)))
      else if Ascii.eqb c "," then obj_loop fuel obj (mkParser s (line p))
      else
        match object_key Getenv c p with
        | Err e => Some (Err e)
        | Ok (k, p) =>
            match expect (skipInline p) ":" with
            | None => Some (Err (ExpectedColon (line p)))
            | Some p =>
                match val fuel (skipInline p) with
                | None => None
                | Some (Err e) => Some (Err e)
                | Some (Ok (v, p)) => obj_loop fuel (set_key obj k v) (skipInline p)
                end
            end
        end
  end).
Proof. reflexivity. Qed.

Lemma array_loop_S fuel arr p : arr_loop (S fuel) arr p =
  (let p := skipBlanksAndNewlines p in
  match rest p with
  | EmptyString => Some (Err (UnterminatedArray (line p)))
  | String c s =>
      if Ascii.eqb c "]" then Some (Ok (VArr arr, mkParser s (line p)))
      else if Ascii.eqb c "," then arr_loop fuel arr (mkParser s (line p))
      else
        match val fuel p with
        | None => None
        | Some (Err e) => Some (Err e)
        | Some (Ok (v, p)) => arr_loop fuel (arr ++ [v])%list (skipInline p)
        end
  end).
Proof. reflexivity. Qed.

(** No array, or nothing an element could be stuck at. *)
Definition safe (s : string) : Prop :=
  all_chars (fun c => negb (Ascii.eqb c "[")) s = true \/
  all_chars (fun c => negb (Ascii.eqb c "#") && negb (Ascii.eqb c "}")) s = true.

Lemma suf_safe s t : suf s t -> safe t -> safe s.
Proof. intros H [?|?]; [left|right]; by eapply suf_chars. Qed.

Lemma scalar_rest p : rest (snd (scalar Getenv ParseFloat p)) = snd (scalar_loop (rest p) 0).
Proof. unfold scalar. by destruct (scalar_loop (rest p) 0). Qed.

Lemma quoted_suf c d p s t p' : rest p = String d s -> quoted Getenv c p = Ok (t, p') -> suf (rest p') s.
Proof.
  unfold quoted. intros ->. destruct (quoted_loop c s (line p)) as [[t1 p1]|] eqn:E; [|done]. intros [= <- <-].
  by eapply quoted_loop_suf.
Qed.

Lemma object_key_suf c p s k p' : rest p = String c s -> object_key Getenv c p = Ok (k, p') -> suf (rest p') s.
Proof.
  intros Hp. unfold object_key. destruct (is_quote c); [by apply quoted_suf with (d := c)|].
  unfold bareObjectKey. destruct (span _ (rest p)) as [a r] eqn:E. destruct a as [|x a]; [done|]. intros [= <- <-]. simpl.
  pose proof (proj2 (span_suf (fun c => negb (Ascii.eqb c ":" || is_blank c)) (rest p))) as H. rewrite E in H. by eapply H.
Qed.

Lemma expect_suf p c p' : expect p c = Some p' -> exists d, rest p = String d (rest p') /\ line p' = line p.
Proof. unfold expect. destruct (rest p) as [|d s]; [done|]. destruct (Ascii.eqb d c); [|done]. intros [= <-]. by exists d. Qed.

Notation len p := (String.length (rest p)).

Definition value_ends (fuel : nat) : Prop := forall p, safe (rest p) -> (2 * len p + 1 <= fuel)%nat ->
  exists r, val fuel p = Some r /\ forall v p', r = Ok (v, p') -> suf (rest p') (rest p) /\
    forall c s, rest p = String c s -> stops c = false -> suf (rest p') s.

Definition object_ends (fuel : nat) : Prop := forall obj p, safe (rest p) -> (2 * len p + 2 <= fuel)%nat ->
  exists r, obj_loop fuel obj p = Some r /\ forall v p', r = Ok (v, p') -> suf (rest p') (rest p).

Definition array_ends (fuel : nat) : Prop := forall arr p, all_chars (fun c => negb (Ascii.eqb c "#") && negb (Ascii.eqb c "}")) (rest p) = true ->
  (2 * len p + 2 <= fuel)%nat ->
  exists r, arr_loop fuel arr p = Some r /\ forall v p', r = Ok (v, p') -> suf (rest p') (rest p).

Lemma value_ends_S fuel : object_ends fuel -> array_ends fuel -> value_ends (S fuel).
Proof.
  intros Ho Ha p Hs Hf. rewrite value_S. destruct (rest p) as [|c s] eqn:Hp.
  { eexists. split; [reflexivity|]. intros v p' [= <- <-]. rewrite Hp. split; [constructor|done]. }
  simpl in Hf. pose proof (suf_safe s (String c s) ltac:(auto with kson) Hs) as Hs'.
  destruct (Ascii.eqb c nl) eqn:Hn.
  { eexists. split; [reflexivity|]. intros v p' [= <- <-]. rewrite Hp. split; [constructor|].
    intros d t [= <- <-]. unfold stops, is_eol. by rewrite Hn. }
  destruct (Ascii.eqb c "{").
  { destruct (Ho [] (mkParser s (line p))) as (r & Hr & H); [done|simpl; lia|]. exists r. split; [done|].
    intros v p' Hv. apply H in Hv. simpl in Hv. split; [auto with kson|]. by intros d t [= <- <-]. }
  destruct (Ascii.eqb c "[") eqn:Hb.
  { assert (all_chars (fun c => negb (Ascii.eqb c "#") && negb (Ascii.eqb c "}")) s = true) as Hall.
    { destruct Hs as [Hs|Hs]; simpl in Hs; [by rewrite Hb in Hs|]. by apply andb_true_iff in Hs as [_ Hs]. }
    destruct (Ha [] (mkParser s (line p))) as (r & Hr & H); [done|simpl; lia|]. exists r. split; [done|].
    intros v p' Hv. apply H in Hv. simpl in Hv. split; [auto with kson|]. by intros d t [= <- <-]. }
  destruct (is_quote c).
  { eexists. split; [reflexivity|]. intros v p'. destruct (quoted Getenv c p) as [[t q]|] eqn:Hq; [|done]. intros [= <- <-].
    apply (quoted_suf c c p s) in Hq; [|done]. split; [auto with kson|]. by intros d u [= <- <-]. }
  eexists. split; [reflexivity|]. intros v p' [= Hv]. assert (p' = snd (scalar Getenv ParseFloat p)) as -> by (by rewrite Hv).
  rewrite scalar_rest, Hp. split; [apply scalar_loop_suf|]. intros d t [= <- <-]. apply scalar_loop_progress.
Qed.

Lemma object_ends_S fuel : value_ends fuel -> object_ends fuel -> object_ends (S fuel).
Proof.
  intros Hv Ho obj p Hs Hf. rewrite object_loop_S. pose proof (skip_bn_suf (rest p) (line p)) as Hq.
  change (skip_blanks_newlines (rest p) (line p)) with (skipBlanksAndNewlines p) in Hq.
  cbv zeta. set (q := skipBlanksAndNewlines p) in *. pose proof (suf_length _ _ Hq).
  destruct (rest q) as [|c s] eqn:Eq; [eexists; split; [reflexivity|done]|]. cbn [String.length] in *.
  pose proof (suf_tail _ _ _ Hq) as Hs1. pose proof (suf_safe _ _ Hs1 Hs) as Hsafe.
  destruct (Ascii.eqb c "}"); [eexists; split; [reflexivity|]; by intros v p' [= <- <-]|].
  destruct (Ascii.eqb c ",").
  { destruct (Ho obj (mkParser s (line q))) as (r & -> & H'); [done|simpl; lia|]. exists r. split; [done|].
    intros v p' Hr. apply H' in Hr. eauto with kson. }
  destruct (object_key Getenv c q) as [[k p1]|] eqn:Ek; [|eexists; split; [reflexivity|done]].
  apply (object_key_suf c q s) in Ek; [|done].
  destruct (expect (skipInline p1) ":") as [p2|] eqn:Ee; [|eexists; split; [reflexivity|done]].
  apply expect_suf in Ee as (d & Ee & _). pose proof (skip_while_suf is_blank (rest p1)) as SH1.
  change (rest (skipInline p1)) with (skip_while is_blank (rest p1)) in Ee. rewrite Ee in SH1.
  pose proof (skip_while_suf is_blank (rest p2)) as SH2.
  assert (suf (rest p2) s) as SH3 by (eapply suf_trans; [by eapply suf_tail|done]).
  assert (suf (rest (skipInline p2)) s) as SH4 by (simpl; by eapply suf_trans).
  pose proof (suf_length _ _ SH4). pose proof (suf_length _ _ Ek).
  destruct (Hv (skipInline p2)) as (r & -> & Hr); [by eapply suf_safe|lia|].
  destruct r as [[v p3]|]; [|eexists; split; [reflexivity|done]]. destruct (Hr v p3 eq_refl) as [SH5 _].
  pose proof (skip_while_suf is_blank (rest p3)) as SH6.
  assert (suf (rest (skipInline p3)) s) as SH7 by (simpl; eauto with kson). pose proof (suf_length _ _ SH7).
  destruct (Ho (set_key obj k v) (skipInline p3)) as (r & -> & Hr'); [by eapply suf_safe|lia|].
  exists r. split; [done|]. intros w p' Hw. apply Hr' in Hw. eauto with kson.
Qed.

Lemma array_ends_S fuel : value_ends fuel -> array_ends fuel -> array_ends (S fuel).
Proof.
  intros Hv Ha arr p Hs Hf. rewrite array_loop_S. pose proof (skip_bn_suf (rest p) (line p)) as Hq.
  change (skip_blanks_newlines (rest p) (line p)) with (skipBlanksAndNewlines p) in Hq.
  assert (forall c s, rest (skipBlanksAndNewlines p) = String c s -> is_eol c = false) as Heol.
  { unfold skipBlanksAndNewlines. clear. generalize (line p). induction (rest p) as [|c s IH]; intros l c' s'; simpl; [done|].
    destruct (is_eol c) eqn:E1; [by apply IH|]. destruct (is_blank c); [by apply IH|]. simpl. by intros [= <- <-]. }
  cbv zeta. set (q := skipBlanksAndNewlines p) in *. pose proof (suf_length _ _ Hq).
  destruct (rest q) as [|c s] eqn:Eq; [eexists; split; [reflexivity|done]|]. cbn [String.length] in *.
  pose proof (suf_tail _ _ _ Hq) as Hs1. pose proof (suf_chars _ _ _ Hs1 Hs) as Hall. pose proof (suf_chars _ _ _ Hq Hs) as Hc.
  destruct (Ascii.eqb c "]") eqn:Hb; [eexists; split; [reflexivity|]; by intros v p' [= <- <-]|].
  destruct (Ascii.eqb c ",") eqn:Hcm.
  { destruct (Ha arr (mkParser s (line q))) as (r & -> & H'); [done|simpl; lia|]. exists r. split; [done|].
    intros v p' Hr. apply H' in Hr. eauto with kson. }
  destruct (Hv q) as (r & -> & Hr); [right; by rewrite Eq|rewrite Eq; simpl; lia|].
  destruct r as [[v p3]|]; [|eexists; split; [reflexivity|done]].
  destruct (Hr v p3 eq_refl) as [_ Hprog]. simpl in Hc. apply andb_true_iff in Hc as [[Hh Hbr]%andb_true_iff _].
  apply negb_true_iff in Hh, Hbr. specialize (Hprog c s Eq). unfold stops in Hprog. rewrite Hh, Hcm, Hb, Hbr, (Heol c s eq_refl) in Hprog.
  specialize (Hprog eq_refl). pose proof (skip_while_suf is_blank (rest p3)) as SH6.
  assert (suf (rest (skipInline p3)) s) as SH7 by (simpl; eauto with kson). pose proof (suf_length _ _ SH7).
  destruct (Ha (arr ++ [v])%list (skipInline p3)) as (r & -> & Hr'); [by eapply suf_chars|lia|].
  exists r. split; [done|]. intros w p' Hw. apply Hr' in Hw. eauto with kson.
Qed.

Lemma parser_ends fuel : value_ends fuel /\ object_ends fuel /\ array_ends fuel.
Proof.
  induction fuel as [|fuel (H1 & H2 & H3)].
  - split_and!; intros ?; intros; lia.
  - split_and!; [by apply value_ends_S|by apply object_ends_S|by apply array_ends_S].
Qed.

Lemma document_ends fuel out p : safe (rest p) -> (2 * len p + 3 <= fuel)%nat ->
  exists r, document Getenv ParseFloat fuel out p = Some r.
Proof.
  revert out p. induction fuel as [|fuel IH]; intros out p Hs Hf; [lia|]. cbn [document].
  pose proof (skip_while_suf is_blank (rest p)) as Hq. change (skip_while is_blank (rest p)) with (rest (skipInline p)) in Hq.
  set (q := skipInline p) in *. pose proof (suf_length _ _ Hq). pose proof (suf_safe _ _ Hq Hs) as Hsq.
  destruct (rest q) as [|c s] eqn:Eq; [by eauto|]. cbn [String.length] in *.
  assert (forall p', suf (rest p') s -> exists r, document Getenv ParseFloat fuel out p' = Some r) as Hgo.
  { intros p' Hp'. apply IH; [eapply suf_safe; [|exact Hsq]; auto with kson|]. apply suf_length in Hp'. lia. }
  destruct (Ascii.eqb c "#") eqn:Hh.
  { apply Hgo. apply Ascii.eqb_eq in Hh as ->. unfold skipToEOL. change (suf (skip_while (fun c => negb (Ascii.eqb c nl)) (rest q)) s).
    rewrite Eq. cbn. apply skip_while_suf. }
  destruct (is_eol c); [apply Hgo; unfold advance; rewrite Eq; constructor|].
  unfold key. destruct (key_loop (rest q)) as [[k r]|] eqn:Ek; [|by eauto]. destruct k as [|kc k]; [by eauto|].
  pose proof (proj2 (key_loop_suf _ _ _ Ek) ltac:(done) c s Eq) as Hr.
  destruct (expect (skipInline (mkParser r (line q))) "=") as [p2|] eqn:Ee; [|by eauto].
  apply expect_suf in Ee as (d & Ee & _). pose proof (skip_while_suf is_blank r) as Hr1.
  change (rest (skipInline (mkParser r (line q)))) with (skip_while is_blank r) in Ee. rewrite Ee in Hr1.
  pose proof (skip_while_suf is_blank (rest p2)) as Hr2.
  assert (suf (rest (skipInline p2)) s) as Hr3.
  { simpl. eapply suf_trans; [exact Hr2|]. eapply suf_trans; [by eapply suf_tail|done]. }
  pose proof (suf_length _ _ Hr3).
  destruct (parser_ends fuel) as (Hv & _ & _).
  destruct (Hv (skipInline p2)) as (o & -> & Ho); [eapply suf_safe; [|exact Hsq]; auto with kson|lia|].
  destruct o as [[v p3]|]; [|by eauto]. destruct (Ho v p3 eq_refl) as [Hp3 _].
  destruct (setNested out _ _) as [out'|]; [|by eauto].
  assert (suf (rest (end_entry p3)) s) as He.
  { eapply suf_trans; [|eapply suf_trans; [exact Hp3|exact Hr3]]. apply end_entry_suf. }
  apply IH; [eapply suf_safe; [|exact Hsq]; auto with kson|]. apply suf_length in He. lia.
Qed.
End fuel.

(** A source without arrays, or without comments and closing braces, has an
    answer: Parse returns a document or an error on it, whatever the environment. *)
Theorem parse_returns env pf src :
  safe src -> exists r, Parse env pf src = Some r.
Proof. intros Hs. apply document_ends; [done|simpl; lia]. Qed.

Lemma parse_returns_witness : exists r, Parse (fun _ => EmptyString) (fun _ => false) "tags = [auth, [wallet]" = Some r.
Proof. apply parse_returns. right. reflexivity. Defined.

(** ** Round trip

    A reference printer: every value whose strings have no dollar can be written
    so that the parser reads it back. *)

Definition digit (n : Z) : ascii := ascii_of_nat (48 + Z.to_nat n).

Fixpoint print_digits (fuel : nat) (n : Z) (acc : string) : string :=
  match fuel with
  | O => acc
  | S fuel =>
      let acc := String (digit (n mod 10)) acc in
      if n <? 10 then acc else print_digits fuel (n / 10) acc
  end.

Definition print_int (z : Z) : string :=
  if z <? 0 then String "-" (print_digits 19 (- z) EmptyString) else print_digits 19 z EmptyString.

Definition quote : ascii := ascii_of_nat 34.

Fixpoint print_chars (s : string) : string :=
  match s with
  | EmptyString => EmptyString
  | String c s =>
      if Ascii.eqb c nl then String "\" (String "n" (print_chars s))
      else if Ascii.eqb c quote || Ascii.eqb c "\" then String "\" (String c (print_chars s))
      else String c (print_chars s)
  end.

Definition print_str (s : string) : string := String quote (print_chars s ++ String quote EmptyString).

Fixpoint print_value (v : value) : string :=
  match v with
  | VNull => "null"
  | VBool b => if b then "true" else "false"
  | VInt z => print_int z
  | VFloat t => t
  | VStr s => print_str s
  | VArr l => "[" ++ List.fold_right (fun v acc => print_value v ++ "," ++ acc) "]" l
  | VObj m => "{" ++ List.fold_right (fun kv acc => print_str (fst kv) ++ ":" ++ print_value (snd kv) ++ "," ++ acc) "}" m
  end%string.

Definition plain (s : string) : bool := all_chars (fun c => negb (Ascii.eqb c "$")) s.

(** What the printer handles: 64-bit integers, no floats, no dollars, distinct keys. *)
Fixpoint printable (v : value) : Prop :=
  match v with
  | VNull | VBool _ => True
  | VInt z => min_i64 <= z <= max_i64
  | VFloat _ => False
  | VStr s => plain s = true
  | VArr l => List.fold_right (fun v P => printable v /\ P) True l
  | VObj m => NoDup (map fst m) /\ List.fold_right (fun kv P => plain (fst kv) = true /\ printable (snd kv) /\ P) True m
  end.

(** How deep and how long the loops go. *)
Fixpoint cost (v : value) : nat :=
  match v with
  | VArr l => 2 + List.fold_right (fun v n => cost v + 2 + n)%nat O l
  | VObj m => 2 + List.fold_right (fun kv n => cost (snd kv) + 2 + n)%nat O m
  | _ => 1
  end.

Section value_induction.
Variable P : value -> Prop.
Hypothesis Pnull : P VNull.
Hypothesis Pbool : forall b, P (VBool b).
Hypothesis Pint : forall z, P (VInt z).
Hypothesis Pfloat : forall t, P (VFloat t).
Hypothesis Pstr : forall s, P (VStr s).
Hypothesis Parr : forall l, Forall P l -> P (VArr l).
Hypothesis Pobj : forall m, Forall (fun kv => P (snd kv)) m -> P (VObj m).

Fixpoint value_nested_ind (v : value) : P v :=
  match v with
  | VNull => Pnull
  | VBool b => Pbool b
  | VInt z => Pint z
  | VFloat t => Pfloat t
  | VStr s => Pstr s
  | VArr l => Parr l ((fix go l : Forall P l :=
      match l with [] => @List.Forall_nil _ P | v :: l => @List.Forall_cons _ P v l (value_nested_ind v) (go l) end) l)
  | VObj m => Pobj m ((fix go m : Forall (fun kv => P (snd kv)) m :=
      match m with [] => @List.Forall_nil _ _ | kv :: m => @List.Forall_cons _ (fun kv => P (snd kv)) kv m (value_nested_ind (snd kv)) (go m) end) m)
  end.
End value_induction.

Lemma app_assoc_s (a b c : string) : ((a ++ b) ++ c = a ++ (b ++ c))%string.
Proof. induction a as [|x a IH]; [done|]. exact (f_equal (String x) IH). Qed.

Lemma expand_plain env fuel s : plain s = true -> expand fuel env s = s.
Proof.
  revert s. induction fuel as [|fuel IH]; intros s; [done|]. destruct s as [|c s]; [done|]. unfold plain. simpl.
  intros [H1%negb_true_iff H2]%andb_true_iff. rewrite H1. simpl. by rewrite IH.
Qed.

Lemma app_cons_s c (s t : string) : (String c s ++ t = String c (s ++ t))%string.
Proof. reflexivity. Qed.

(** Quoted strings. *)
Lemma quoted_print s r l : quoted_loop quote (print_chars s ++ String quote r) l = Ok (s, mkParser r l).
Proof.
  induction s as [|c s IH]; [done|]. cbn [print_chars].
  destruct (Ascii.eqb_spec c nl) as [->|Hn]; [cbn; rewrite !app_cons_s; cbn; by rewrite IH|].
  destruct (Ascii.eqb_spec c quote) as [->|Hq]; [cbn; rewrite !app_cons_s; cbn; by rewrite IH|].
  destruct (Ascii.eqb_spec c "\") as [->|Hb]; [cbn; rewrite !app_cons_s; cbn; by rewrite IH|].
  apply Ascii.eqb_neq in Hn, Hq, Hb. cbn. rewrite app_cons_s. cbn [quoted_loop]. by rewrite Hq, Hb, Hn, IH.
Qed.

Lemma quoted_value env s r l : plain s = true -> quoted env quote (mkParser (print_str s ++ r) l) = Ok (s, mkParser r l).
Proof.
  intros Hp. unfold quoted, print_str. rewrite app_cons_s, app_assoc_s, app_cons_s. cbn [rest]. rewrite quoted_print.
  cbn. unfold expandEnv. by rewrite expand_plain.
Qed.

(** Bare scalars. *)
Definition bare (c : ascii) : bool := negb (stops c) && negb (Ascii.eqb c "$") && negb (is_space c).

Lemma all_chars_impl (f g : ascii -> bool) s : (forall c, f c = true -> g c = true) -> all_chars f s = true -> all_chars g s = true.
Proof. intros H. induction s as [|c s IH]; simpl; [done|]. intros [H1 H2]%andb_true_iff. by rewrite H, IH. Qed.

Lemma scalar_loop_bare t d r : all_chars bare t = true -> d = ","%char \/ d = nl ->
  scalar_loop (t ++ String d r) 0 = (t, String d r).
Proof.
  intros Ht Hd. induction t as [|c t IH]; [by destruct Hd as [-> | ->]|].
  simpl in Ht. apply andb_true_iff in Ht as [Hc Ht]. specialize (IH Ht). rewrite app_cons_s. cbn [scalar_loop].
  unfold bare, stops in Hc. rewrite !negb_orb in Hc.
  apply andb_true_iff in Hc as [[Hc Hdo]%andb_true_iff _].
  apply andb_true_iff in Hc as [[[[H1 H2]%andb_true_iff H3]%andb_true_iff H4]%andb_true_iff H5].
  apply negb_true_iff in Hdo, H1, H2, H3, H4, H5. rewrite Hdo, H5, H2, H3, H4, H1. cbn. by rewrite IH.
Qed.

Lemma trim_bare t : all_chars bare t = true -> TrimRight t = t.
Proof.
  induction t as [|c t IH]; [done|]. simpl. intros [Hc Ht]%andb_true_iff. rewrite (IH Ht).
  unfold bare in Hc. apply andb_true_iff in Hc as [_ Hc%negb_true_iff]. rewrite Hc. by destruct t.
Qed.

Lemma scalar_bare env pf t d r l : all_chars bare t = true -> d = ","%char \/ d = nl ->
  scalar env pf (mkParser (t ++ String d r) l) = (inferType pf t, mkParser (String d r) l).
Proof.
  intros Ht Hd. unfold scalar. cbn [rest line]. rewrite scalar_loop_bare by done. rewrite trim_bare by done.
  unfold expandEnv. rewrite expand_plain; [done|]. eapply all_chars_impl; [|exact Ht]. unfold bare. intros c.
  by intros [[_ ?]%andb_true_iff _]%andb_true_iff.
Qed.

(** Integers. *)
Lemma digit_spec n : 0 <= n < 10 -> is_digit (digit n) = true /\ Z.of_nat (nat_of_ascii (digit n) - 48) = n.
Proof.
  intros H. rewrite <- (Z2Nat.id n) by lia. assert (Z.to_nat n < 10)%nat as Hk by lia. revert Hk. generalize (Z.to_nat n).
  intros k Hk. do 10 (destruct k as [|k]; [split; reflexivity|]). lia.
Qed.

Lemma print_digits_spec fuel n acc a : 0 <= n < 10 ^ Z.of_nat (S fuel) ->
  exists k, 0 <= k /\ parse_digits (print_digits (S fuel) n acc) a = parse_digits acc (a * 10 ^ k + n) /\
    (all_chars is_digit acc = true -> all_chars is_digit (print_digits (S fuel) n acc) = true) /\
    exists c s, print_digits (S fuel) n acc = String c s /\ is_digit c = true.
Proof.
  revert n acc. induction fuel as [|fuel IH]; intros n acc Hn.
  - cbn [print_digits]. assert (n < 10) by lia. rewrite (proj2 (Z.ltb_lt n 10)) by lia.
    pose proof (Z.mod_small n 10 ltac:(lia)) as Hm. rewrite Hm. pose proof (digit_spec n ltac:(lia)) as [Hi Hd]. exists 1. cbn [parse_digits all_chars]. rewrite Hi, Hd.
    split_and!; [lia|f_equal; lia|done|eauto].
  - assert (0 <= n mod 10 < 10) as Hr by (apply Z.mod_pos_bound; lia).
    pose proof (digit_spec _ Hr) as [Hi Hd].
    change (print_digits (S (S fuel)) n acc) with
      (let acc := String (digit (n mod 10)) acc in if n <? 10 then acc else print_digits (S fuel) (n / 10) acc). cbv zeta.
    destruct (Z.ltb_spec n 10).
    + exists 1. cbn [parse_digits all_chars]. rewrite Hi, Hd. split_and!; [lia| |done|eauto].
      rewrite Z.mod_small by lia. f_equal. lia.
    + destruct (IH (n / 10) (String (digit (n mod 10)) acc)) as (k & Hk & H1 & H2 & H3).
      { replace (Z.of_nat (S (S fuel))) with (Z.of_nat (S fuel) + 1) in Hn by lia. rewrite Z.pow_add_r in Hn by lia.
        split; [apply Z.div_pos; lia|apply Z.div_lt_upper_bound; lia]. }
      exists (k + 1). rewrite H1. cbn [parse_digits all_chars] in *. rewrite Hi, Hd in *. split_and!; [lia| |auto|done].
      f_equal. rewrite Z.pow_add_r by lia. pose proof (Z.div_mod n 10 ltac:(lia)). lia.
Qed.

Lemma ParseInt_digits c s neg n : is_digit c = true -> parse_digits (String c s) 0 = Some n ->
  min_i64 <= (if neg : bool then - n else n) <= max_i64 ->
  ParseInt (if neg then String "-" (String c s) else String c s) = Some (if neg then - n else n).
Proof.
  intros Hc Hp Hr. unfold ParseInt.
  destruct neg.
  - rewrite Hp. rewrite (proj2 (Z.leb_le _ _)), (proj2 (Z.leb_le _ _)) by lia. done.
  - assert (match String c s with String "-" r => (true, r) | String "+" r => (false, r) | _ => (false, String c s) end =
            (false, String c s)) as ->.
    { clear - Hc. destruct c as [[] [] [] [] [] [] [] []]; try done; discriminate Hc. }
    rewrite Hp. rewrite (proj2 (Z.leb_le _ _)), (proj2 (Z.leb_le _ _)) by lia. done.
Qed.

Lemma number_is_no_word c s ws : is_digit c = true \/ c = "-"%char ->
  ws ∈ [["true"; "yes"; "on"]; ["false"; "no"; "off"]; ["null"; "~"; "nil"]] ->
  existsb (String.eqb (ToLower (String c s))) ws = false.
Proof.
  intros Hc Hw. destruct c as [[] [] [] [] [] [] [] []]; (destruct Hc as [Hc|Hc]; [|]; try discriminate Hc);
    repeat (apply elem_of_cons in Hw as [->|Hw]; [reflexivity|]); by apply elem_of_nil in Hw.
Qed.

Lemma infer_number pf t c s z : t = String c s -> is_digit c = true \/ c = "-"%char -> ParseInt t = Some z -> inferType pf t = VInt z.
Proof.
  intros -> Hc Hp. unfold inferType. cbv zeta. rewrite !(number_is_no_word c s) by (done || in_list). by rewrite Hp.
Qed.

(** What is read back from a printed integer. *)
Lemma print_int_spec pf z : min_i64 <= z <= max_i64 ->
  inferType pf (print_int z) = VInt z /\ all_chars bare (print_int z) = true /\
  exists c s, print_int z = String c s /\ (is_digit c = true \/ c = "-"%char).
Proof.
  intros Hz. unfold print_int.
  assert (forall c, is_digit c = true -> bare c = true) as Hbare.
  { intros c. destruct c as [[] [] [] [] [] [] [] []]; intros H; try done; discriminate H. }
  destruct (Z.ltb_spec z 0).
  - destruct (print_digits_spec 18 (- z) EmptyString 0) as (k & _ & H1 & H2 & c & s & H3 & H4); [unfold min_i64 in Hz; lia|].
    rewrite H3 in *. split_and!; [|change (all_chars bare (String c s) = true); apply (all_chars_impl is_digit); auto|eauto].
    apply (infer_number pf _ "-" (String c s)); [done|by right|].
    rewrite (ParseInt_digits c s true (- z)); [f_equal; lia|done|rewrite H1; cbn; f_equal; lia|lia].
  - destruct (print_digits_spec 18 z EmptyString 0) as (k & _ & H1 & H2 & c & s & H3 & H4); [unfold max_i64 in Hz; lia|].
    rewrite H3 in *. split_and!; [|apply (all_chars_impl is_digit); auto|eauto].
    apply (infer_number pf _ c s); [done|by left|].
    by rewrite (ParseInt_digits c s false z); [|done|rewrite H1; cbn; f_equal; lia|lia].
Qed.

(** ** The values *)

Definition opens (c : ascii) : bool := Ascii.eqb c nl || Ascii.eqb c "{" || Ascii.eqb c "[" || is_quote c.

Lemma value_scalar env pf fuel t c s v d r l : t = String c s -> opens c = false -> all_chars bare t = true ->
  inferType pf t = v -> d = ","%char \/ d = nl ->
  value_ env pf (S fuel) (mkParser (t ++ String d r) l) = Some (Ok (v, mkParser (String d r) l)).
Proof.
  intros -> Ho Hb Hv Hd. rewrite value_S. pose proof (scalar_bare env pf _ d r l Hb Hd) as Hs. rewrite Hv in Hs.
  unfold opens in Ho. rewrite !orb_false_iff in Ho. destruct Ho as [[[H1 H2] H3] H4].
  rewrite app_cons_s in *. cbn [rest]. by rewrite H1, H2, H3, H4, Hs.
Qed.

Lemma number_opens c : is_digit c = true \/ c = "-"%char -> opens c = false.
Proof. intros [H| ->]; [|done]. destruct c as [[] [] [] [] [] [] [] []]; try done; discriminate H. Qed.

(** The first character of a printed value starts an element. *)
Lemma print_value_head v : printable v -> exists c s, print_value v = String c s /\
  is_eol c = false /\ is_blank c = false /\ Ascii.eqb c "]" = false /\ Ascii.eqb c "," = false.
Proof.
  destruct v; simpl; intros Hp.
  - by eexists _, _.
  - destruct b; by eexists _, _.
  - destruct (print_int_spec (fun _ => false) z Hp) as (_ & _ & c & s & -> & Hc). exists c, s. split; [done|].
    destruct Hc as [Hc| ->]; [|done]. destruct c as [[] [] [] [] [] [] [] []]; try done; discriminate Hc.
  - done.
  - by eexists _, _.
  - by eexists _, _.
  - by eexists _, _.
Qed.

Definition reads_back (v : value) : Prop := forall env pf fuel d r l, printable v -> (cost v <= fuel)%nat ->
  d = ","%char \/ d = nl ->
  value_ env pf fuel (mkParser (print_value v ++ String d r) l) = Some (Ok (v, mkParser (String d r) l)).

Definition elements (l : list value) : string :=
  List.fold_right (fun v acc => print_value v ++ "," ++ acc)%string "]" l.

Definition entries (m : map_) : string :=
  List.fold_right (fun kv acc => print_str (fst kv) ++ ":" ++ print_value (snd kv) ++ "," ++ acc)%string "}" m.

Lemma skip_bn_head c s ln : is_eol c = false -> is_blank c = false ->
  skipBlanksAndNewlines (mkParser (String c s) ln) = mkParser (String c s) ln.
Proof. intros H1 H2. unfold skipBlanksAndNewlines. simpl. by rewrite H1, H2. Qed.

Lemma skip_inline_head c s ln : is_blank c = false -> skipInline (mkParser (String c s) ln) = mkParser (String c s) ln.
Proof. intros H. unfold skipInline. simpl. by rewrite H. Qed.

Definition steps {A} (f : A -> nat) (l : list A) : nat := List.fold_right (fun x n => f x + 2 + n)%nat O l.

Lemma array_reads env pf l fuel arr r ln :
  Forall reads_back l -> List.fold_right (fun v P => printable v /\ P) True l -> (steps cost l + 1 <= fuel)%nat ->
  array_loop env pf fuel arr (mkParser (elements l ++ r) ln) = Some (Ok (VArr (arr ++ l)%list, mkParser r ln)).
Proof.
  revert fuel arr. induction l as [|v l IH]; intros fuel arr Hr Hp Hf; simpl in Hf.
  - destruct fuel as [|fuel]; [lia|]. rewrite array_loop_S. simpl elements. rewrite app_cons_s, app_nil_r.
    rewrite skip_bn_head by done. done.
  - destruct fuel as [|[|fuel]]; [lia..|]. apply Forall_cons in Hr as [Hv Hr]. destruct Hp as [Hpv Hp].
    change (elements (v :: l)) with (print_value v ++ "," ++ elements l)%string. rewrite !app_assoc_s, app_cons_s.
    change (EmptyString ++ elements l ++ r)%string with (elements l ++ r)%string.
    destruct (print_value_head v Hpv) as (c & s & Hc & H1 & H2 & H3 & H4).
    rewrite array_loop_S. assert (forall t, skipBlanksAndNewlines (mkParser (print_value v ++ t) ln) = mkParser (print_value v ++ t) ln) as ->.
    { intros t. rewrite Hc, app_cons_s. by apply skip_bn_head. }
    cbv zeta. cbn [rest line]. rewrite Hc at 1. rewrite app_cons_s. rewrite H3, H4.
    rewrite Hv by (done || lia || by left). rewrite skip_inline_head by done.
    rewrite array_loop_S, skip_bn_head by done. cbn -[array_loop elements]. rewrite IH by (done || lia).
    by rewrite <- app_assoc.
Qed.

Lemma set_key_fresh m k v : k ∉ map fst m -> set_key m k v = (m ++ [(k, v)])%list.
Proof.
  induction m as [|[k' v'] m IH]; simpl; [done|]. intros [Hk Hm]%not_elem_of_cons.
  apply String.eqb_neq in Hk. by rewrite Hk, IH.
Qed.

Lemma object_reads env pf m fuel obj r ln :
  Forall (fun kv => reads_back (snd kv)) m ->
  List.fold_right (fun kv P => plain (fst kv) = true /\ printable (snd kv) /\ P) True m ->
  NoDup (map fst (obj ++ m)%list) -> (steps (cost ∘ snd) m + 1 <= fuel)%nat ->
  object_loop env pf fuel obj (mkParser (entries m ++ r) ln) = Some (Ok (VObj (obj ++ m)%list, mkParser r ln)).
Proof.
  revert fuel obj. induction m as [|[k v] m IH]; intros fuel obj Hr Hp Hnd Hf; simpl in Hf.
  - destruct fuel as [|fuel]; [lia|]. rewrite object_loop_S. simpl entries. rewrite app_cons_s, app_nil_r.
    rewrite skip_bn_head by done. done.
  - destruct fuel as [|[|fuel]]; [lia..|]. apply Forall_cons in Hr as [Hv Hr]. destruct Hp as (Hk & Hpv & Hp). cbn [fst snd] in *.
    change (entries ((k, v) :: m)) with (print_str k ++ ":" ++ print_value v ++ "," ++ entries m)%string.
    rewrite !app_assoc_s, !app_cons_s. change (EmptyString ++ entries m ++ r)%string with (entries m ++ r)%string.
    change (EmptyString ++ print_value v ++ String "," (entries m ++ r))%string with (print_value v ++ String "," (entries m ++ r))%string.
    set (tail := String ":" (print_value v ++ String "," (entries m ++ r))%string).
    rewrite object_loop_S. assert (skipBlanksAndNewlines (mkParser (print_str k ++ tail) ln) = mkParser (print_str k ++ tail) ln) as ->.
    { unfold print_str. rewrite app_cons_s. by apply skip_bn_head. }
    cbv zeta. cbn [rest line]. change (print_str k ++ tail)%string with (String quote ((print_chars k ++ String quote EmptyString) ++ tail))%string at 1.
    cbv iota beta. change (Ascii.eqb quote "}") with false. change (Ascii.eqb quote ",") with false. unfold object_key.
    change (is_quote quote) with true. cbv iota. rewrite quoted_value by done. unfold tail.
    rewrite skip_inline_head by done. cbn [expect rest line]. change (Ascii.eqb ":" ":") with true. cbv iota.
    destruct (print_value_head v Hpv) as (c & s & Hc & H1 & H2 & H3 & H4).
    assert (forall t, skipInline (mkParser (print_value v ++ t) ln) = mkParser (print_value v ++ t) ln) as ->.
    { intros t. rewrite Hc, app_cons_s. by apply skip_inline_head. }
    rewrite Hv by (done || lia || by left). rewrite skip_inline_head by done.
    rewrite set_key_fresh.
    2: { rewrite map_app in Hnd. apply NoDup_app in Hnd as (_ & Hnd & _). intros Hin. apply (Hnd k Hin). by left. }
    rewrite object_loop_S, skip_bn_head by done. cbn -[object_loop entries]. rewrite IH; [by rewrite <- app_assoc|done..| |lia].
    by rewrite <- app_assoc.
Qed.

Lemma value_reads_back v : reads_back v.
Proof.
  induction v as [|b|z|t|s|l IH|m IH] using value_nested_ind; intros env pf fuel d r ln Hp Hf Hd.
  - destruct fuel as [|fuel]; [simpl in Hf; lia|]. by eapply (value_scalar env pf fuel "null").
  - destruct fuel as [|fuel]; [simpl in Hf; lia|]. destruct b; [by eapply (value_scalar env pf fuel "true")|].
    by eapply (value_scalar env pf fuel "false").
  - destruct fuel as [|fuel]; [simpl in Hf; lia|]. destruct (print_int_spec pf z Hp) as (H1 & H2 & c & s & H3 & H4).
    eapply value_scalar; [exact H3|by apply number_opens|done..].
  - done.
  - destruct fuel as [|fuel]; [simpl in Hf; lia|]. rewrite value_S. cbn [print_value].
    pose proof (quoted_value env s (String d r) ln Hp) as Hq.
    change (print_str s ++ String d r)%string with (String quote ((print_chars s ++ String quote EmptyString) ++ String d r))%string in *.
    cbn -[quoted]. change "034"%char with quote in *. by rewrite Hq.
  - destruct fuel as [|fuel]; [simpl in Hf; lia|]. rewrite value_S. cbn [print_value].
    change (List.fold_right _ "]" l) with (elements l). rewrite app_assoc_s.
    change ("[" ++ elements l ++ String d r)%string with (String "[" (elements l ++ String d r))%string.
    cbn -[array_loop elements].
    rewrite (array_reads env pf l fuel [] (String d r) ln IH Hp); [done|]. unfold steps. simpl in Hf. lia.
  - destruct fuel as [|fuel]; [simpl in Hf; lia|]. rewrite value_S. cbn [print_value]. destruct Hp as [Hnd Hp].
    change (List.fold_right _ "}" m) with (entries m). rewrite app_assoc_s.
    change ("{" ++ entries m ++ String d r)%string with (String "{" (entries m ++ String d r))%string.
    cbn -[object_loop entries].
    rewrite (object_reads env pf m fuel [] (String d r) ln IH Hp Hnd); [done|]. unfold steps, compose. simpl in Hf. lia.
Qed.

(** ** Documents *)

Definition print_document (m : map_) : string :=
  List.fold_right (fun kv acc => fst kv ++ "=" ++ print_value (snd kv) ++ String nl acc)%string EmptyString m.

(** A key of one segment. *)
Definition key_ok (k : string) : bool :=
  negb (String.eqb k EmptyString) && all_chars (fun c => isKeyByte c && negb (Ascii.eqb c ".")) k.

Lemma key_byte_cases c : isKeyByte c = true ->
  Ascii.eqb c "=" = false /\ is_blank c = false /\ is_eol c = false /\ Ascii.eqb c "#" = false.
Proof. destruct c as [[] [] [] [] [] [] [] []]; intros H; try (split_and!; reflexivity); discriminate H. Qed.

Lemma key_loop_key k r : all_chars (fun c => isKeyByte c && negb (Ascii.eqb c ".")) k = true ->
  key_loop (k ++ String "=" r) = Some (k, String "=" r).
Proof.
  induction k as [|c k IH]; [done|]. cbn [all_chars]. intros [[Hc _]%andb_true_iff Hk]%andb_true_iff.
  rewrite app_cons_s. cbn [key_loop]. destruct (key_byte_cases c Hc) as (-> & -> & -> & _). cbn [orb]. by rewrite Hc, IH.
Qed.

Lemma segments_key k : all_chars (fun c => isKeyByte c && negb (Ascii.eqb c ".")) k = true -> segments k = [k].
Proof.
  induction k as [|c k IH]; [done|]. cbn [all_chars]. intros [[_ Hc%negb_true_iff]%andb_true_iff Hk]%andb_true_iff.
  cbn [segments]. by rewrite Hc, IH.
Qed.

Lemma length_app_s (a b : string) : String.length (a ++ b) = (String.length a + String.length b)%nat.
Proof. induction a as [|c a IH]; [done|]. rewrite app_cons_s. simpl. by rewrite IH. Qed.

(** The text is long enough to pay for the loops. *)
Lemma cost_length v : printable v -> (cost v <= 2 * String.length (print_value v))%nat.
Proof.
  induction v as [|b|z|t|s|l IH|m IH] using value_nested_ind; intros Hp.
  - simpl. lia.
  - destruct b; simpl; lia.
  - destruct (print_int_spec (fun _ => false) z Hp) as (_ & _ & c & s & E & _).
    change (1 <= 2 * String.length (print_int z))%nat. rewrite E. simpl. lia.
  - done.
  - change (1 <= 2 * S (String.length (print_chars s ++ String quote EmptyString)))%nat. lia.
  - assert (steps cost l <= 2 * String.length (elements l))%nat as H.
    { induction l as [|v l IHl]; [simpl; lia|]. apply Forall_cons in IH as [Hv IH]. destruct Hp as [Hpv Hp].
      specialize (IHl IH Hp). specialize (Hv Hpv).
      change (elements (v :: l)) with (print_value v ++ String "," (elements l))%string. rewrite length_app_s.
      change (steps cost (v :: l)) with (cost v + 2 + steps cost l)%nat. simpl. lia. }
    change (2 + steps cost l <= 2 * S (String.length (elements l)))%nat. lia.
  - destruct Hp as [_ Hp]. assert (steps (cost ∘ snd) m <= 2 * String.length (entries m))%nat as H.
    { induction m as [|[k v] m IHm]; [simpl; lia|]. apply Forall_cons in IH as [Hv IH]. destruct Hp as (_ & Hpv & Hp).
      specialize (IHm IH Hp). specialize (Hv Hpv). cbn [snd] in Hv.
      change (entries ((k, v) :: m)) with (print_str k ++ String ":" (print_value v ++ String "," (entries m)))%string.
      rewrite !length_app_s. change (steps (cost ∘ snd) ((k, v) :: m)) with (cost v + 2 + steps (cost ∘ snd) m)%nat.
      cbn [String.length]. rewrite length_app_s. simpl. lia. }
    change (2 + steps (cost ∘ snd) m <= 2 * S (String.length (entries m)))%nat. lia.
Qed.

Lemma document_reads env pf m fuel out ln :
  Forall (fun kv => key_ok (fst kv) = true /\ printable (snd kv) /\ env ("KSON_" ++ env_name (fst kv))%string = EmptyString) m ->
  NoDup (map fst (out ++ m)%list) -> (2 * String.length (print_document m) + 1 <= fuel)%nat ->
  document env pf fuel out (mkParser (print_document m) ln) = Some (Ok (out ++ m)%list).
Proof.
  revert fuel out ln. induction m as [|[k v] m IH]; intros fuel out ln Hm Hnd Hf.
  { destruct fuel as [|fuel]; [lia|]. by rewrite app_nil_r. }
  destruct fuel as [|fuel]; [lia|]. apply Forall_cons in Hm as [(Hk & Hv & He) Hm]. cbn [fst snd] in *.
  change (print_document ((k, v) :: m)) with (k ++ String "=" (print_value v ++ String nl (print_document m)))%string in *.
  set (tail := (print_value v ++ String nl (print_document m))%string) in *.
  apply andb_true_iff in Hk as [Hk0%negb_true_iff%String.eqb_neq Hk].
  destruct k as [|c k]; [done|]. pose proof Hk as Hc. cbn [all_chars] in Hc.
  apply andb_true_iff in Hc as [[Hc _]%andb_true_iff _]. destruct (key_byte_cases c Hc) as (_ & Hb & Heol & Hh).
  cbn [document]. rewrite !(app_cons_s c k). rewrite (skip_inline_head c) by done. cbv zeta. cbn [rest].
  rewrite Hh, Heol. unfold key. cbn [rest line]. rewrite <- app_cons_s, key_loop_key by done.
  rewrite skip_inline_head by done. cbn [expect rest line]. change (Ascii.eqb "=" "=") with true. cbv iota.
  destruct (print_value_head v Hv) as (d & s & Hd & _ & Hd2 & _ & _).
  assert (skipInline (mkParser tail ln) = mkParser tail ln) as ->.
  { unfold tail. rewrite Hd, app_cons_s. by apply skip_inline_head. }
  pose proof (cost_length v Hv) as Hcost. rewrite length_app_s in Hf. cbn [String.length] in Hf. unfold tail in Hf.
  rewrite length_app_s in Hf. cbn [String.length] in Hf.
  unfold tail. rewrite value_reads_back by (done || lia || by right).
  unfold override. rewrite He. cbn [String.eqb]. unfold setNested. rewrite segments_key by done. cbn [set_path].
  rewrite set_key_fresh.
  2: { rewrite map_app in Hnd. apply NoDup_app in Hnd as (_ & Hnd & _). intros Hin. apply (Hnd _ Hin). by left. }
  change (end_entry (mkParser (String nl (print_document m)) ln)) with (mkParser (print_document m) (ln + 1)).
  rewrite IH; [by rewrite <- app_assoc|done| |lia]. by rewrite <- app_assoc.
Qed.

(** C23. A document of distinct keys, each one segment of key bytes (no dot), with
    values nested from objects, arrays, strings without dollars, booleans, nulls
    and 64-bit integers, written by the reference printer above (the repository
    has a reader only), is read back by Parse exactly as it was, provided the
    environment holds no KSON_<KEY> override for one of its top-level keys (an
    override wins, as documented). *)
Theorem kson_roundtrip env pf m :
  NoDup (map fst m) ->
  Forall (fun kv => key_ok (fst kv) = true /\ printable (snd kv) /\ env ("KSON_" ++ env_name (fst kv))%string = EmptyString) m ->
  Parse env pf (print_document m) = Some (Ok m).
Proof. intros Hnd Hm. unfold Parse. rewrite document_reads; [done|done|done|lia]. Qed.

Lemma kson_roundtrip_witness :
  Parse (fun _ => EmptyString) (fun _ => false) (print_document
    [("host"%string, VStr "a # b"); ("smtp"%string, VObj [("port"%string, VInt 465); ("tags"%string, VArr [VBool true; VNull])])])
  = Some (Ok [("host"%string, VStr "a # b"); ("smtp"%string, VObj [("port"%string, VInt 465); ("tags"%string, VArr [VBool true; VNull])])]).
Proof.
  apply kson_roundtrip.
  - repeat constructor; set_solver.
  - repeat constructor; try reflexivity; try discriminate; set_solver.
Defined.
