(* ===== verification/Scheduler.v ===== *)
(** * The scheduler (pkg/scheduler/scheduler.go, schedule.go)

    The scheduler's loop, the goroutines that execute due tasks and the calls of
    clients as operations on one state.  The loop takes a snapshot of the tasks
    at every tick and then looks at the entries one by one; an execution takes
    its steps (count, run, compute the next time, remove) separately.  Times are
    integers; the zero time is [None].  A cron schedule is any function from a
    time to the next one (Cron.v models the parser and the search). *)
From S2P Require Import Prelude.

(** ** Schedule specifications *)

(** A delay specification is an object with a used flag, here an index into the
    flags of the state: it may be shared by several tasks. *)
Inductive ScheduleSpec : Type :=
| CronSpec (next : Z -> option Z)
| IntervalSpec (interval : Z)
| DelaySpec (flag : nat) (delay : Z).

Definition Interval (interval : Z) : outcome ScheduleSpec :=
  if interval <=? 0 then Panic else Ret (IntervalSpec interval).

Definition Delay (flag : nat) (delay : Z) : outcome ScheduleSpec :=
  if delay <=? 0 then Panic else Ret (DelaySpec flag delay).

Definition IsRecurring (sp : ScheduleSpec) : bool := match sp with DelaySpec _ _ => false | _ => true end.

(** The used flags after the call, and the next time. *)
Definition Next (used : gset nat) (sp : ScheduleSpec) (from : Z) : gset nat * option Z :=
  match sp with
  | CronSpec next => (used, next from)
  | IntervalSpec d => (used, Some (from + d))
  | DelaySpec k d => if bool_decide (k ∈ used) then (used, None) else ({[k]} ∪ used, Some (from + d))
  end.

(** ** The state *)

Record scheduledTaskEntry : Type := mkEntry {
  spec : ScheduleSpec;
  nextRun : option Z;
  lastRun : option Z;
  runCount : Z
}.

(** Where an execution of a task stands. *)
Inductive phase : Type :=
| Spawned
| Executing
| Executed
| Rescheduled.

Record execution : Type := mkExecution { eid : string; enow : Z; ephase : phase }.

Inductive loop_state : Type :=
| NotStarted
| Idle
| Ticking (now : Z) (rest : list string)
| Exited.

(** [entries] keeps every entry ever made (executions hold pointers to entries
    that are no longer in [tasks]); [runs] lists the executions begun. *)
Record scheduler : Type := mkScheduler {
  used : gset nat;
  entries : gmap string scheduledTaskEntry;
  tasks : gset string;
  started : bool;
  stopped : bool;
  ctx_done : bool;
  loop : loop_state;
  wg : Z;
  live : list execution;
  runs : list (string * Z)
}.

Definition NewScheduler : scheduler := mkScheduler ∅ ∅ ∅ false false false NotStarted 0 [] [].

Inductive sched_error : Type :=
| SchedulerStopped
| AlreadyStarted
| EmptyID
| TaskNotFound.

(** [id] is the new uuid. *)
Definition Schedule (s : scheduler) (id : string) (sp : ScheduleSpec) (now : Z) : scheduler * option sched_error :=
  if stopped s then (s, Some SchedulerStopped)
  else
    let '(u, next) := Next (used s) sp now in
    (mkScheduler u (<[id := mkEntry sp next None 0]> (entries s)) ({[id]} ∪ tasks s) (started s) (stopped s) (ctx_done s)
       (loop s) (wg s) (live s) (runs s), None).

Definition remove_task (s : scheduler) (id : string) : scheduler :=
  mkScheduler (used s) (entries s) (tasks s ∖ {[id]}) (started s) (stopped s) (ctx_done s) (loop s) (wg s) (live s) (runs s).

Definition Unschedule (s : scheduler) (id : string) : scheduler * option sched_error :=
  if bool_decide (id = EmptyString) then (s, Some EmptyID)
  else if bool_decide (id ∈ tasks s) then (remove_task s id, None)
  else (s, Some TaskNotFound).

Definition Start (s : scheduler) : scheduler * option sched_error :=
  if started s then (s, Some AlreadyStarted)
  else if stopped s then (s, Some SchedulerStopped)
  else (mkScheduler (used s) (entries s) (tasks s) true (stopped s) (ctx_done s) Idle (wg s + 1) (live s) (runs s), None).

(** The first half of [Stop]; it then waits until [wg] is zero. *)
Definition Stop_cancel (s : scheduler) : scheduler :=
  mkScheduler (used s) (entries s) (tasks s) (started s) true (if stopped s then ctx_done s else true) (loop s) (wg s) (live s) (runs s).

Definition with_loop (s : scheduler) (l : loop_state) (w : Z) (ex : list execution) : scheduler :=
  mkScheduler (used s) (entries s) (tasks s) (started s) (stopped s) (ctx_done s) l w ex (runs s).

Definition with_entry (s : scheduler) (u : gset nat) (id : string) (f : scheduledTaskEntry -> scheduledTaskEntry)
    (ex : list execution) (rs : list (string * Z)) : scheduler :=
  mkScheduler u (alter f id (entries s)) (tasks s) (started s) (stopped s) (ctx_done s) (loop s) (wg s) ex rs.

Definition due (s : scheduler) (id : string) (now : Z) : bool :=
  match entries s !! id with
  | Some e => match nextRun e with Some t => t <=? now | None => false end
  | None => false
  end.

(** ** The loop and the executions *)

Inductive sop : Type :=
| SSchedule (id : string) (sp : ScheduleSpec) (now : Z)
| SUnschedule (id : string)
| SStart
| SStop
| SCtx
| STick (now : Z) (ids : list string)
| SDue
| SExit
| SBegin (i : nat)
| SReturn (i : nat)
| SNext (i : nat)
| SRemove (i : nat).

Definition set_phase (s : scheduler) (i : nat) (e : execution) (p : phase) : list execution :=
  <[i := mkExecution (eid e) (enow e) p]> (live s).

(** One step of the loop or of an execution, or a call; [SCtx] ends the context
    the scheduler was started with.  At a tick the snapshot
    of the tasks is taken in an order the map iteration chooses. *)
Definition sstep (s : scheduler) (o : sop) : option scheduler :=
  match o with
  | SSchedule id sp now => Some (Schedule s id sp now).1
  | SUnschedule id => Some (Unschedule s id).1
  | SStart => Some (Start s).1
  | SStop => Some (Stop_cancel s)
  | SCtx => Some (mkScheduler (used s) (entries s) (tasks s) (started s) (stopped s) true (loop s) (wg s) (live s) (runs s))
  | STick now ids =>
      match loop s with
      | Idle => if bool_decide (NoDup ids /\ list_to_set ids = tasks s) then Some (with_loop s (Ticking now ids) (wg s) (live s)) else None
      | _ => None
      end
  | SDue =>
      match loop s with
      | Ticking now [] => Some (with_loop s Idle (wg s) (live s))
      | Ticking now (id :: rest) =>
          if due s id now then Some (with_loop s (Ticking now rest) (wg s + 1) (live s ++ [mkExecution id now Spawned]))
          else Some (with_loop s (Ticking now rest) (wg s) (live s))
      | _ => None
      end
  | SExit => match loop s with Idle => if ctx_done s then Some (with_loop s Exited (wg s - 1) (live s)) else None | _ => None end
  | SBegin i =>
      match live s !! i with
      | Some (mkExecution id now Spawned as e) =>
          Some (with_entry s (used s) id (fun en => mkEntry (spec en) (nextRun en) (Some now) (runCount en +i64 1))
                  (set_phase s i e Executing) (runs s ++ [(id, now)]))
      | _ => None
      end
  | SReturn i =>
      match live s !! i with
      | Some (mkExecution id now Executing as e) => Some (with_loop s (loop s) (wg s) (set_phase s i e Executed))
      | _ => None
      end
  | SNext i =>
      match live s !! i with
      | Some (mkExecution id now Executed as e) =>
          match entries s !! id with
          | Some en =>
              let '(u, next) := if IsRecurring (spec en) then Next (used s) (spec en) now else (used s, None) in
              Some (with_entry s u id (fun en => mkEntry (spec en) next (lastRun en) (runCount en))
                      (set_phase s i e Rescheduled) (runs s))
          | None => None
          end
      | _ => None
      end
  | SRemove i =>
      match live s !! i with
      | Some (mkExecution id now Rescheduled) =>
          let s' := match entries s !! id with
                    | Some en => if IsRecurring (spec en) then s else remove_task s id
                    | None => s
                    end in
          Some (with_loop s' (loop s) (wg s - 1) (delete i (live s)))
      | _ => None
      end
  end.

Fixpoint srun (s : scheduler) (os : list sop) : option scheduler :=
  match os with
  | [] => Some s
  | o :: os => match sstep s o with Some s => srun s os | None => None end
  end.

(** What [List] reports of an entry: next run, last run and count. *)
Definition List_ (s : scheduler) : gmap string scheduledTaskEntry := filter (fun kv => kv.1 ∈ tasks s) (entries s).

(** ** Bookkeeping *)

Definition running (l : loop_state) : Z := match l with Idle | Ticking _ _ => 1 | _ => 0 end.

Definition times_of (id : string) (rs : list (string * Z)) : list Z :=
  map snd (List.filter (fun r => bool_decide (r.1 = id)) rs).

Lemma times_of_snoc id rs k t : times_of id (rs ++ [(k, t)]) = times_of id rs ++ (if bool_decide (k = id) then [t] else []).
Proof. unfold times_of. rewrite List.filter_app, map_app. cbn. by case_bool_decide. Qed.

(** The ids of [Schedule] are fresh. *)
Definition fresh_op (s : scheduler) (o : sop) : bool :=
  match o with SSchedule id _ _ => bool_decide (entries s !! id = None) | _ => true end.

Fixpoint fresh_ops (s : scheduler) (os : list sop) : bool :=
  match os with
  | [] => true
  | o :: os => fresh_op s o && match sstep s o with Some s => fresh_ops s os | None => true end
  end.

(** Each enabled step, one goal each. *)
Ltac sched_cases H :=
  unfold sstep in H; repeat (case_match; try discriminate); simplify_eq; cbn in *.

Lemma times_of_none id rs : id ∉ map fst rs -> times_of id rs = [].
Proof.
  induction rs as [|[k t] rs IH]; intros Hn; [done|]. cbn in *. apply not_elem_of_cons in Hn as [Hk Hn].
  unfold times_of in *. cbn. rewrite bool_decide_false by done. auto.
Qed.

Lemma Exists_live_insert (l : list execution) i e p (P : string -> Prop) :
  l !! i = Some e -> Exists (fun e => P (eid e)) (<[i := mkExecution (eid e) (enow e) p]> l) -> Exists (fun e => P (eid e)) l.
Proof.
  intros Hi. rewrite !Exists_exists. intros (x & Hx & Hp). apply list_elem_of_lookup in Hx as [j Hj].
  destruct (decide (j = i)) as [->|Hne].
  - rewrite list_lookup_insert_eq in Hj by (by eapply lookup_lt_Some). simplify_eq. exists e. split; [|done].
    by eapply list_elem_of_lookup_2.
  - rewrite list_lookup_insert_ne in Hj by done. exists x. split; [|done]. by eapply list_elem_of_lookup_2.
Qed.

Lemma Exists_live_delete (l : list execution) i (P : execution -> Prop) : Exists P (delete i l) -> Exists P l.
Proof.
  rewrite !Exists_exists. intros (x & Hx & Hp). exists x. split; [|done]. by eapply list_elem_of_delete_inv.
Qed.

Lemma sstep_wg s o s' :
  sstep s o = Some s' -> wg s = running (loop s) + Z.of_nat (length (live s)) -> (loop s <> NotStarted -> started s = true) ->
  wg s' = running (loop s') + Z.of_nat (length (live s')) /\ (loop s' <> NotStarted -> started s' = true).
Proof.
  intros H Hw Hs. destruct o; cbn in H; unfold Schedule, Unschedule, Start in *;
    repeat (case_match; try discriminate); simplify_eq; cbn [fst] in *; try (split; [done|done]);
    unfold with_loop, with_entry, set_phase; cbn [wg loop live started running] in *;
    rewrite ?length_insert, ?length_app; cbn [length]; try (split; [lia|done]).
  - rewrite H0. by split.
  - destruct (loop s); cbn in *; [split; [lia|done]|..]; by specialize (Hs ltac:(done)).
  - split; [lia|]. intros _. by apply Hs.
  - split; [lia|]. intros _. by apply Hs.
  - split; [lia|]. intros _. by apply Hs.
  - split; [lia|]. intros _. by apply Hs.
  - split; [lia|]. intros _. by apply Hs.
  - split; [|exact Hs]. pose proof (lookup_lt_Some _ _ _ H0). rewrite length_delete by done. lia.
  - split; [|exact Hs]. pose proof (lookup_lt_Some _ _ _ H0). rewrite length_delete by done. lia.
  - split; [|exact Hs]. pose proof (lookup_lt_Some _ _ _ H0). rewrite length_delete by done. lia.
Qed.

Definition known (s : scheduler) (id : string) : Prop :=
  id ∈ tasks s \/ Exists (fun e => eid e = id) (live s) \/ id ∈ map fst (runs s).

Definition loop_ids (l : loop_state) : list string := match l with Ticking _ rest => rest | _ => [] end.

(** Everything the scheduler can still run, or has run, has an entry. *)
Definition all_known (s : scheduler) : Prop := forall id, known s id -> is_Some (entries s !! id).

Lemma due_entry s id now : due s id now = true -> is_Some (entries s !! id).
Proof. unfold due. by destruct (entries s !! id). Qed.

Lemma sstep_known s o s' : sstep s o = Some s' -> all_known s -> all_known s'.
Proof.
  intros H Hk id. unfold all_known, known in *.
  destruct o; cbn in H; unfold Schedule, Unschedule, Start in *; repeat (case_match; try discriminate); simplify_eq;
    cbn in *; rewrite ?lookup_alter_is_Some; try by apply Hk.
  - intros Hid. destruct (decide (id = id0)) as [->|Hne]; [by rewrite lookup_insert_eq|].
    rewrite lookup_insert_ne by done. apply Hk. set_solver.
  - intros Hid. apply Hk. set_solver.
  - rewrite Exists_app, Exists_cons, Exists_nil. cbn. intros [H|[[H|[<-|[]]]|H]]; [by apply Hk; auto..| |by apply Hk; auto].
    by eapply due_entry.
  - rewrite map_app, elem_of_app. cbn. rewrite list_elem_of_singleton.
    intros [H|[H|[H| ->]]]; [by apply Hk; auto| |by apply Hk; auto|].
    + apply Hk. right. left. by eapply (Exists_live_insert _ _ _ _ (fun x => x = id)) in H.
    + apply Hk. right. left. apply Exists_exists. eexists. split; [by eapply list_elem_of_lookup_2|done].
  - intros [H|[H|H]]; [by apply Hk; auto| |by apply Hk; auto]. apply Hk. right. left.
    by eapply (Exists_live_insert _ _ _ _ (fun x => x = id)) in H.
  - intros [H|[H|H]]; [by apply Hk; auto| |by apply Hk; auto]. apply Hk. right. left.
    by eapply (Exists_live_insert _ _ _ _ (fun x => x = id)) in H.
  - intros [H|[H|H]]; [by apply Hk; auto| |by apply Hk; auto]. apply Hk. right. left.
    by eapply (Exists_live_insert _ _ _ _ (fun x => x = id)) in H.
  - intros [H|[H|H]]; [by apply Hk; auto| |by apply Hk; auto]. apply Hk. right. left. by eapply Exists_live_delete.
  - intros [H|[H|H]]; [apply Hk; set_solver| |by apply Hk; auto]. apply Hk. right. left. by eapply Exists_live_delete.
  - intros [H|[H|H]]; [by apply Hk; auto| |by apply Hk; auto]. apply Hk. right. left. by eapply Exists_live_delete.
Qed.

Definition counts_ok (s : scheduler) : Prop :=
  forall id en, entries s !! id = Some en -> runCount en = i64 (Z.of_nat (length (times_of id (runs s)))).

Lemma sstep_counts s o s' : fresh_op s o = true -> sstep s o = Some s' -> all_known s -> counts_ok s -> counts_ok s'.
Proof.
  intros Hf H Hk Hc id en. unfold counts_ok in *.
  destruct o; cbn in H, Hf; unfold Schedule, Unschedule, Start in *; repeat (case_match; try discriminate); simplify_eq;
    cbn [entries runs fst with_entry with_loop remove_task] in *; try by apply Hc.
  - apply bool_decide_eq_true in Hf.
    destruct (decide (id = id0)) as [->|Hne]; [|rewrite lookup_insert_ne by done; apply Hc].
    rewrite lookup_insert_eq. intros [= <-]. cbn [runCount]. rewrite times_of_none; [done|]. intros Hin.
    destruct (Hk id0) as [? ?]; [by right; right|congruence].
  - rewrite times_of_snoc, length_app. destruct (decide (id = eid0)) as [->|Hne].
    + rewrite lookup_alter_eq, bool_decide_true by done. destruct (entries s !! eid0) eqn:E; [|done].
      intros [= <-]. cbn [runCount]. rewrite (Hc _ _ E), i64_absorb. f_equal. cbn [length]. lia.
    + rewrite lookup_alter_ne, bool_decide_false by done. cbn [length]. rewrite Nat.add_0_r. apply Hc.
  - destruct (decide (id = eid0)) as [->|Hne]; [|rewrite lookup_alter_ne by done; apply Hc].
    rewrite lookup_alter_eq. destruct (entries s !! eid0) eqn:E; [|done]. intros [= <-]. cbn [runCount]. by apply Hc.
  - destruct (decide (id = eid0)) as [->|Hne]; [|rewrite lookup_alter_ne by done; apply Hc].
    rewrite lookup_alter_eq. destruct (entries s !! eid0) eqn:E; [|done]. intros [= <-]. cbn [runCount]. by apply Hc.
Qed.

Record books_ok (s : scheduler) : Prop := mkBooks {
  wg_ok : wg s = running (loop s) + Z.of_nat (length (live s));
  started_ok : loop s <> NotStarted -> started s = true;
  known_ok : all_known s;
  count_ok : counts_ok s
}.

Lemma books_new : books_ok NewScheduler.
Proof.
  split; [done|done| |].
  - intros id. unfold known. cbn. rewrite Exists_nil. intros [H|[[]|H]]; [set_solver|by apply elem_of_nil in H].
  - intros id en. cbn. by rewrite lookup_empty.
Qed.

Lemma srun_books os : forall s s', fresh_ops s os = true -> srun s os = Some s' -> books_ok s -> books_ok s'.
Proof.
  induction os as [|o os IH]; intros s s' Hf Hr Hb; cbn in *; [by simplify_eq|]. apply andb_true_iff in Hf as [Hf1 Hf2].
  destruct (sstep s o) as [s1|] eqn:E; [|done]. apply (IH s1 s' Hf2 Hr). destruct Hb as [Hw Hs Hk Hc].
  destruct (sstep_wg s o s1 E Hw Hs). split; [done|done|by eapply sstep_known|by eapply sstep_counts].
Qed.

(** The wait group counts the scheduler's loop and the executions under way, and
    every entry's run count is the number of executions begun, as a 64-bit
    integer: whatever clients do and however ticks and executions interleave. *)
Theorem scheduler_books (os : list sop) (s : scheduler) :
  fresh_ops NewScheduler os = true -> srun NewScheduler os = Some s ->
  wg s = running (loop s) + Z.of_nat (length (live s)) /\
  forall id en, entries s !! id = Some en -> runCount en = i64 (Z.of_nat (length (times_of id (runs s)))).
Proof. intros Hf Hr. destruct (srun_books os _ _ Hf Hr books_new) as [? _ _ ?]. by split. Qed.

(** A task every ten time units, run at its first tick. *)
Definition demo_ops : list sop :=
  [SSchedule "t" (IntervalSpec 10) 0; SStart; STick 10 ["t"%string]; SDue; SDue; SBegin 0; SReturn 0; SNext 0; SRemove 0].

Lemma scheduler_books_witness :
  exists s, srun NewScheduler demo_ops = Some s /\ wg s = running (loop s) + Z.of_nat (length (live s)) /\ wg s = 1.
Proof.
  eexists. split; [vm_compute; reflexivity|]. split; [|reflexivity].
  refine (proj1 (scheduler_books demo_ops _ _ _)); vm_compute; reflexivity.
Defined.

(** ** Stopping *)

Definition dead (s : scheduler) : Prop := stopped s = true /\ running (loop s) = 0 /\ live s = [].

Lemma sstep_dead s o s' : dead s -> sstep s o = Some s' -> dead s' /\ runs s' = runs s.
Proof.
  intros (Hs & Hl & He) H. unfold dead. destruct o; cbn in H; unfold Schedule, Unschedule, Start in *; rewrite ?Hs, ?He in H;
    repeat (case_match; try discriminate); simplify_eq; cbn in *; try done; rewrite ?lookup_nil in *; try discriminate.
Qed.

Lemma srun_dead os : forall s s', dead s -> srun s os = Some s' -> dead s' /\ runs s' = runs s.
Proof.
  induction os as [|o os IH]; intros s s' Hd Hr; cbn in *; [by simplify_eq|].
  destruct (sstep s o) as [s1|] eqn:E; [|done]. destruct (sstep_dead _ _ _ Hd E) as [Hd1 E1].
  destruct (IH _ _ Hd1 Hr) as [? ?]. split; [done|congruence].
Qed.

(** When [Stop] returns, that is when the scheduler is stopped and the wait group
    is zero, the loop has ended, no execution is under way, and none will ever
    begin again, whatever is called afterwards. *)
Theorem stop_is_final (os os' : list sop) (s s' : scheduler) :
  fresh_ops NewScheduler os = true -> srun NewScheduler os = Some s -> stopped s = true -> wg s = 0 ->
  srun s os' = Some s' -> live s' = [] /\ runs s' = runs s.
Proof.
  intros Hf Hr Hs Hw Hr'. destruct (srun_books os _ _ Hf Hr books_new) as [Hwg _ _ _].
  assert (Hd : dead s).
  { split; [done|]. destruct (live s) as [|e l], (loop s); cbn in *; try done; lia. }
  destruct (srun_dead os' _ _ Hd Hr') as [(_ & _ & ?) ?]. done.
Qed.

Lemma stop_is_final_witness :
  exists s, srun NewScheduler (demo_ops ++ [SStop; SExit]) = Some s /\ wg s = 0 /\
    exists s', srun s [SStart; SUnschedule "t"] = Some s' /\ live s' = [] /\ runs s' = runs s.
Proof.
  eexists. split; [vm_compute; reflexivity|]. split; [reflexivity|]. eexists. split; [vm_compute; reflexivity|].
  refine (stop_is_final (demo_ops ++ [SStop; SExit]) [SStart; SUnschedule "t"] _ _ _ _ _ _ _);
    vm_compute; reflexivity.
Defined.

(** ** Spacing of the runs of an interval task *)

Definition of_id (id : string) (l : list execution) : list execution :=
  List.filter (fun e => bool_decide (eid e = id)) l.

Lemma of_id_app id l k : of_id id (l ++ k) = of_id id l ++ of_id id k.
Proof. apply List.filter_app. Qed.

Lemma of_id_split id l i e :
  l !! i = Some e -> of_id id l = of_id id (take i l) ++ of_id id [e] ++ of_id id (drop (S i) l).
Proof. intros Hi. rewrite <- !of_id_app. cbn. by rewrite take_drop_middle. Qed.

Lemma of_id_insert id l i e p :
  l !! i = Some e ->
  of_id id (<[i := mkExecution (eid e) (enow e) p]> l) =
  of_id id (take i l) ++ of_id id [mkExecution (eid e) (enow e) p] ++ of_id id (drop (S i) l).
Proof.
  intros Hi. rewrite insert_take_drop by (by eapply lookup_lt_Some). by rewrite <- !of_id_app.
Qed.

Lemma of_id_delete id l i : of_id id (delete i l) = of_id id (take i l) ++ of_id id (drop (S i) l).
Proof. by rewrite <- of_id_app, delete_take_drop. Qed.

Section spacing.
Context (id : string) (d : Z).

(** Ticks look at the task only while no execution of it is under way. *)
Definition calm (s : scheduler) (o : sop) : Prop :=
  match o with
  | SDue => match loop s with Ticking _ (k :: _) => k = id -> of_id id (live s) = [] | _ => True end
  | SSchedule k _ _ => k <> id
  | _ => True
  end.

Fixpoint calm_ops (s : scheduler) (os : list sop) : Prop :=
  match os with
  | [] => True
  | o :: os => calm s o /\ match sstep s o with Some s => calm_ops s os | None => True end
  end.

Definition after_last (h : list Z) (t : Z) : Prop := forall l, last h = Some l -> l + d <= t.

(** The one execution under way, the times of the runs so far and the entry. *)
Definition spaced (s : scheduler) : Prop :=
  exists en, entries s !! id = Some en /\ spec en = IntervalSpec d /\
    chained (fun a b => a + d <= b) (times_of id (runs s)) /\
    match of_id id (live s) with
    | [] => exists n, nextRun en = Some n /\ after_last (times_of id (runs s)) n
    | [e] =>
        match ephase e with
        | Spawned => after_last (times_of id (runs s)) (enow e)
        | Executing | Executed => last (times_of id (runs s)) = Some (enow e)
        | Rescheduled => last (times_of id (runs s)) = Some (enow e) /\ nextRun en = Some (enow e + d)
        end
    | _ => False
    end.

Lemma of_id_other i l e p :
  l !! i = Some e -> eid e <> id ->
  of_id id (<[i := mkExecution (eid e) (enow e) p]> l) = of_id id l /\ of_id id (delete i l) = of_id id l.
Proof.
  intros Hi Hne. rewrite (of_id_insert id l i e p Hi), of_id_delete, (of_id_split id l i e Hi). cbn.
  by rewrite bool_decide_false.
Qed.

Lemma of_id_single i l e x :
  l !! i = Some e -> eid e = id -> of_id id l = [x] ->
  x = e /\ forall p, of_id id (<[i := mkExecution (eid e) (enow e) p]> l) = [mkExecution (eid e) (enow e) p] /\
                     of_id id (delete i l) = [].
Proof.
  intros Hi He Hl. rewrite (of_id_split id l i e Hi) in Hl. cbn in Hl. rewrite bool_decide_true in Hl by done.
  destruct (of_id id (take i l)) as [|a A] eqn:EA; [|destruct A; by simplify_list_eq].
  destruct (of_id id (drop (S i) l)) as [|b B] eqn:EB; [|by simplify_list_eq]. cbn in Hl. injection Hl as <-.
  split; [done|]. intros p. rewrite (of_id_insert id l i e p Hi), of_id_delete, EA, EB. cbn.
  by rewrite bool_decide_true.
Qed.

Lemma spaced_live s i e :
  spaced s -> live s !! i = Some e -> eid e = id -> of_id id (live s) = [e].
Proof.
  intros (en & _ & _ & _ & Hm) Hi He. destruct (of_id id (live s)) as [|x [|y l]] eqn:E; [|by destruct (of_id_single i _ e x Hi He E) as [-> _]|done].
  exfalso. rewrite (of_id_split id _ i e Hi) in E. cbn in E. rewrite bool_decide_true in E by done.
  by destruct (of_id id (take i (live s))).
Qed.

(** Only the entry, the runs and the executions of the task matter. *)
Lemma spaced_same s s' :
  entries s' !! id = entries s !! id -> times_of id (runs s') = times_of id (runs s) ->
  of_id id (live s') = of_id id (live s) -> spaced s -> spaced s'.
Proof. unfold spaced. by intros -> -> ->. Qed.

Lemma spaced_due s now rest k :
  loop s = Ticking now (k :: rest) -> due s k now = true -> (k = id -> of_id id (live s) = []) -> spaced s ->
  spaced (with_loop s (Ticking now rest) (wg s + 1) (live s ++ [mkExecution k now Spawned])).
Proof.
  intros _ Hd Hc Hs. destruct (decide (k = id)) as [->|Hne].
  - destruct Hs as (en & He & Hsp & Hch & Hm). rewrite (Hc eq_refl) in Hm. destruct Hm as (n & Hn & Ha).
    exists en. cbn [entries live runs with_loop]. do 3 (split; [done|]). rewrite of_id_app, (Hc eq_refl). cbn. rewrite bool_decide_true by done. cbn.
    unfold due in Hd. rewrite He, Hn in Hd. apply Z.leb_le in Hd. intros l Hl. specialize (Ha l Hl). lia.
  - apply (spaced_same s); [done|done| |done]. cbn [live with_loop]. rewrite of_id_app. cbn. rewrite bool_decide_false by done. apply app_nil_r.
Qed.

Lemma spaced_begin s i k now :
  live s !! i = Some (mkExecution k now Spawned) -> spaced s ->
  spaced (with_entry s (used s) k (fun en => mkEntry (spec en) (nextRun en) (Some now) (runCount en +i64 1))
            (set_phase s i (mkExecution k now Spawned) Executing) (runs s ++ [(k, now)])).
Proof.
  intros Hi Hs. destruct (decide (k = id)) as [->|Hne].
  - pose proof (spaced_live s i _ Hs Hi eq_refl) as Hl. destruct (of_id_single i _ _ _ Hi eq_refl Hl) as [_ Hp].
    destruct Hs as (en & He & Hsp & Hch & Hm). rewrite Hl in Hm. cbn in Hm. unfold spaced. cbn [entries with_entry live runs].
    unfold set_phase. rewrite (proj1 (Hp _)), lookup_alter_eq, He, times_of_snoc, bool_decide_true by done. cbn.
    eexists. split; [done|]. split; [done|]. split; [by apply chained_snoc|]. apply last_snoc.
  - apply (spaced_same s); [| | |done]; cbn [entries runs live with_entry].
    + by rewrite lookup_alter_ne.
    + rewrite times_of_snoc, bool_decide_false by done. apply app_nil_r.
    + exact (proj1 (of_id_other i _ _ Executing Hi Hne)).
Qed.

Lemma spaced_return s i k now :
  live s !! i = Some (mkExecution k now Executing) -> spaced s ->
  spaced (with_loop s (loop s) (wg s) (set_phase s i (mkExecution k now Executing) Executed)).
Proof.
  intros Hi Hs. destruct (decide (k = id)) as [->|Hne].
  - pose proof (spaced_live s i _ Hs Hi eq_refl) as Hl. destruct (of_id_single i _ _ _ Hi eq_refl Hl) as [_ Hp].
    destruct Hs as (en & He & Hsp & Hch & Hm). rewrite Hl in Hm. unfold spaced. cbn [entries with_loop live runs].
    unfold set_phase. rewrite (proj1 (Hp _)). exists en. done.
  - apply (spaced_same s); [done|done| |done]. exact (proj1 (of_id_other i _ _ Executed Hi Hne)).
Qed.

Lemma spaced_next s i k now en u next :
  live s !! i = Some (mkExecution k now Executed) -> entries s !! k = Some en ->
  (if IsRecurring (spec en) then Next (used s) (spec en) now else (used s, None)) = (u, next) -> spaced s ->
  spaced (with_entry s u k (fun en => mkEntry (spec en) next (lastRun en) (runCount en))
            (set_phase s i (mkExecution k now Executed) Rescheduled) (runs s)).
Proof.
  intros Hi Hen Hn Hs. destruct (decide (k = id)) as [->|Hne].
  - pose proof (spaced_live s i _ Hs Hi eq_refl) as Hl. destruct (of_id_single i _ _ _ Hi eq_refl Hl) as [_ Hp].
    destruct Hs as (en' & He & Hsp & Hch & Hm). rewrite Hl in Hm. cbn in Hm.
    assert (en' = en) as -> by congruence. rewrite Hsp in Hn. cbn in Hn. injection Hn as _ <-.
    unfold spaced. cbn [entries with_entry live runs].
    unfold set_phase. rewrite (proj1 (Hp _)), lookup_alter_eq, He. cbn. by eexists.
  - apply (spaced_same s); [|done| |done]; cbn [entries live with_entry].
    + by rewrite lookup_alter_ne.
    + exact (proj1 (of_id_other i _ _ Rescheduled Hi Hne)).
Qed.

Lemma spaced_remove s i k now w ts :
  live s !! i = Some (mkExecution k now Rescheduled) -> spaced s ->
  spaced (mkScheduler (used s) (entries s) ts (started s) (stopped s) (ctx_done s) (loop s) w (delete i (live s)) (runs s)).
Proof.
  intros Hi Hs. destruct (decide (k = id)) as [->|Hne].
  - pose proof (spaced_live s i _ Hs Hi eq_refl) as Hl. destruct (of_id_single i _ _ _ Hi eq_refl Hl) as [_ Hp].
    destruct Hs as (en & He & Hsp & Hch & Hm). rewrite Hl in Hm. cbn in Hm. destruct Hm as [Hm Hn].
    exists en. cbn [entries live runs]. do 3 (split; [done|]). rewrite (proj2 (Hp Spawned)). eexists. split; [done|].
    intros l Hlast. assert (l = now) as -> by congruence. lia.
  - apply (spaced_same s); [done|done| |done]. exact (proj2 (of_id_other i _ _ Spawned Hi Hne)).
Qed.

Lemma sstep_spaced s o s' : calm s o -> sstep s o = Some s' -> spaced s -> spaced s'.
Proof.
  intros Hc H Hs. destruct o; cbn in H, Hc; unfold Schedule, Unschedule, Start in *;
    repeat (case_match; try discriminate); simplify_eq; cbn [fst] in *; try exact Hs;
    try (by apply (spaced_same s)).
  - apply (spaced_same s); [|done|done|done]. cbn. by rewrite lookup_insert_ne.
  - by apply spaced_due.
  - by apply spaced_begin.
  - by apply spaced_return.
  - eapply spaced_next; [done|done| |done]. match goal with HR : IsRecurring _ = _ |- _ => by rewrite HR end.
  - eapply spaced_next; [done|done| |done]. match goal with HR : IsRecurring _ = _ |- _ => by rewrite HR end.
  - exact (spaced_remove s i _ _ (wg s - 1) (tasks s) H0 Hs).
  - exact (spaced_remove s i _ _ (wg s - 1) (tasks s ∖ {[eid0]}) H0 Hs).
  - exact (spaced_remove s i _ _ (wg s - 1) (tasks s) H0 Hs).
Qed.

Lemma srun_spaced os : forall s s', calm_ops s os -> srun s os = Some s' -> spaced s -> spaced s'.
Proof.
  induction os as [|o os IH]; intros s s' Hc Hr Hs; cbn in *; [by simplify_eq|]. destruct Hc as [Hc1 Hc2].
  destruct (sstep s o) as [s1|] eqn:E; [|done]. eapply IH; eauto using sstep_spaced.
Qed.
End spacing.

(** As long as no tick looks at an interval task while an execution of it is
    under way, two consecutive runs of it are at least the interval apart,
    whatever the ticks, the other tasks and the clients do. *)
Theorem interval_runs_are_spaced (s0 : scheduler) (id : string) (d now : Z) (os : list sop) (s : scheduler) :
  all_known s0 -> entries s0 !! id = None -> stopped s0 = false ->
  let s1 := (Schedule s0 id (IntervalSpec d) now).1 in
  calm_ops id s1 os -> srun s1 os = Some s -> chained (fun a b => a + d <= b) (times_of id (runs s)).
Proof.
  intros Hk Hn Hst. cbn zeta. intros Hc Hr.
  assert (Hs1 : spaced id d (Schedule s0 id (IntervalSpec d) now).1).
  { assert (Hno : ~ known s0 id) by (intros Hkn; destruct (Hk id Hkn); congruence). unfold known in Hno.
    unfold Schedule. rewrite Hst. cbn [fst Next]. eexists. cbn [entries runs live]. rewrite lookup_insert_eq. split; [done|]. split; [done|].
    rewrite times_of_none by tauto. split; [done|].
    assert (Hl : of_id id (live s0) = []).
    { destruct (of_id id (live s0)) as [|e l] eqn:E; [done|]. exfalso. apply Hno. right. left. apply Exists_exists. exists e.
      assert (Hin : In e (of_id id (live s0))) by (rewrite E; by left). apply filter_In in Hin as [Hin Hb].
      split; [by apply list_elem_of_In|by apply bool_decide_eq_true in Hb]. }
    rewrite Hl. eexists. split; [done|]. by intros l Hl'. }
  by destruct (srun_spaced id d os _ _ Hc Hr Hs1) as (en & _ & _ & ? & _).
Qed.

Lemma interval_runs_are_spaced_witness :
  exists s, srun (Schedule NewScheduler "t" (IntervalSpec 10) 0).1
      [SStart; STick 10 ["t"%string]; SDue; SDue; SBegin 0; SReturn 0; SNext 0; SRemove 0;
       STick 15 ["t"%string]; SDue; SDue; STick 21 ["t"%string]; SDue; SDue; SBegin 0] = Some s /\
    times_of "t" (runs s) = [10; 21] /\ chained (fun a b => a + 10 <= b) (times_of "t" (runs s)).
Proof.
  eexists. split; [vm_compute; reflexivity|]. split; [vm_compute; reflexivity|].
  refine (interval_runs_are_spaced NewScheduler "t" 10 0
    [SStart; STick 10 ["t"%string]; SDue; SDue; SBegin 0; SReturn 0; SNext 0; SRemove 0;
     STick 15 ["t"%string]; SDue; SDue; STick 21 ["t"%string]; SDue; SDue; SBegin 0] _ _ _ _ _ _);
    [exact (known_ok _ books_new)|reflexivity|reflexivity| |vm_compute; reflexivity].
  vm_compute. repeat split; intros; reflexivity.
Defined.

(** ** Where the scheduler falls short *)

(** A task that runs longer than a tick is started again at the next tick: its
    next time is only set when the execution ends.  A task scheduled to run once
    after a delay runs twice. *)
Example delayed_task_runs_twice :
  exists s, srun NewScheduler
    [SSchedule "t" (DelaySpec 0 5) 0; SStart; STick 5 ["t"%string]; SDue; SDue; SBegin 0;
     STick 6 ["t"%string]; SDue; SDue; SBegin 1; SReturn 0; SNext 0; SRemove 0] = Some s /\
  times_of "t" (runs s) = [5; 6] /\ tasks s = ∅.
Proof. eexists. split; [vm_compute; reflexivity|]. split; vm_compute; reflexivity. Qed.

(** A delay specification used for two tasks runs only the first. *)
Example shared_delay_never_runs :
  let s := (Schedule (Schedule NewScheduler "a" (DelaySpec 0 5) 0).1 "b" (DelaySpec 0 5) 0).1 in
  (Schedule (Schedule NewScheduler "a" (DelaySpec 0 5) 0).1 "b" (DelaySpec 0 5) 0).2 = None /\
  nextRun <$> entries s !! "a"%string = Some (Some 5) /\ nextRun <$> entries s !! "b"%string = Some None /\
  forall now, due s "b" now = false.
Proof. cbn zeta. split; [reflexivity|]. split; [vm_compute; reflexivity|]. split; [vm_compute; reflexivity|]. done. Qed.
