(* ===== verification/Disruptor.v ===== *)
(** * The disruptor (pkg/hft/protocol/disruptor.go)

    A lock-free ring buffer with any number of producers and one event
    processor.  Every atomic load, store and compare-and-swap is a step of its
    own; the state keeps beside the code's fields the events in the order their
    sequence numbers were claimed and the events handed to the handler, and the
    main theorem says the second list is a prefix of the first.  Sequence numbers
    are integers below 2^63. *)
From S2P Require Import Prelude.

Section disruptor.
Context {A : Type}.

(** ** The ring buffer *)

(** Slots that were never written read as nil and as sequence -1. *)
Record RingBuffer : Type := mkRing {
  buffer : gmap Z A;
  available : gmap Z Z;
  bufferSize : Z;
  cursor : Z;
  gating : Z
}.

Definition NewRingBuffer (size : Z) : outcome RingBuffer :=
  if (size <=? 0) || negb (Z.land size (size - 1) =? 0) then Panic
  else Ret (mkRing ∅ ∅ size (-1) (-1)).

Definition indexMask (rb : RingBuffer) : Z := bufferSize rb - 1.

Definition slot (rb : RingBuffer) (seq : Z) : Z := Z.land seq (indexMask rb).

Definition avail (rb : RingBuffer) (seq : Z) : Z := default (-1) (available rb !! slot rb seq).

(** The check of [Next] against the gating sequence it has just loaded. *)
Definition next_full (rb : RingBuffer) (current gat : Z) : bool := gat <? current + 1 - bufferSize rb.

(** [atomic.CompareAndSwapInt64(&rb.cursor, current, next)] *)
Definition cas_cursor (rb : RingBuffer) (current : Z) : RingBuffer * bool :=
  if cursor rb =? current
  then (mkRing (buffer rb) (available rb) (bufferSize rb) (current + 1) (gating rb), true)
  else (rb, false).

(** The two stores of [Publish]. *)
Definition Publish_event (rb : RingBuffer) (seq : Z) (event : A) : RingBuffer :=
  mkRing (<[slot rb seq := event]> (buffer rb)) (available rb) (bufferSize rb) (cursor rb) (gating rb).

Definition Publish_seq (rb : RingBuffer) (seq : Z) : RingBuffer :=
  mkRing (buffer rb) (<[slot rb seq := seq]> (available rb)) (bufferSize rb) (cursor rb) (gating rb).

Definition Get (rb : RingBuffer) (seq : Z) : option A := buffer rb !! slot rb seq.

(** One turn of the waiting loops, when the context is not done. *)
Definition WaitFor_ready (rb : RingBuffer) (seq : Z) : bool := avail rb seq =? seq.

Definition Consume (rb : RingBuffer) (seq : Z) : RingBuffer :=
  mkRing (buffer rb) (available rb) (bufferSize rb) (cursor rb) seq.

Definition AvailableCapacity (rb : RingBuffer) : Z := bufferSize rb - Z.max 0 (cursor rb - gating rb).

(** ** Producers and the event processor *)

(** A producer runs [Next] and then [Publish] for one event. *)
Inductive producer : Type :=
| PIdle
| PLoad (event : A)
| PCheck (event : A) (current : Z)
| PCas (event : A) (current : Z)
| PClaimed (event : A) (seq : Z)
| PWritten (event : A) (seq : Z).

(** The processor's loop: waiting for [next], about to load the event, about to
    call the handler, about to release the slot, or ended. *)
Inductive processor : Type :=
| CWait (next : Z)
| CGet (next : Z)
| CHandle (next : Z) (event : option A)
| CConsume (next : Z)
| CEnd.

(** [claims] and [handled] record the events in claim order and as handled (a nil
    pointer is [None]); [rejected] the events refused because the ring was full. *)
Record system : Type := mkSystem {
  ring : RingBuffer;
  producers : list producer;
  consumer : processor;
  claims : list A;
  handled : list (option A);
  rejected : list A
}.

Inductive action : Type :=
| Produce (i : nat) (event : A)
| Step (i : nat)
| Process
| StopProcessor.

Definition set_producer (s : system) (rb : RingBuffer) (i : nat) (p : producer) (cl rej : list A) : system :=
  mkSystem rb (<[i := p]> (producers s)) (consumer s) cl (handled s) rej.

Definition set_consumer (s : system) (rb : RingBuffer) (c : processor) (h : list (option A)) : system :=
  mkSystem rb (producers s) c (claims s) h (rejected s).

Definition producer_step (s : system) (i : nat) (p : producer) : option system :=
  let rb := ring s in
  match p with
  | PIdle => None
  | PLoad e => Some (set_producer s rb i (PCheck e (cursor rb)) (claims s) (rejected s))
  | PCheck e current =>
      if next_full rb current (gating rb)
      then Some (set_producer s rb i PIdle (claims s) (rejected s ++ [e]))
      else Some (set_producer s rb i (PCas e current) (claims s) (rejected s))
  | PCas e current =>
      let '(rb, ok) := cas_cursor rb current in
      if ok then Some (set_producer s rb i (PClaimed e (current + 1)) (claims s ++ [e]) (rejected s))
      else Some (set_producer s rb i (PLoad e) (claims s) (rejected s))
  | PClaimed e seq => Some (set_producer s (Publish_event rb seq e) i (PWritten e seq) (claims s) (rejected s))
  | PWritten e seq => Some (set_producer s (Publish_seq rb seq) i PIdle (claims s) (rejected s))
  end.

Definition consumer_step (s : system) : option system :=
  let rb := ring s in
  match consumer s with
  | CWait next => if WaitFor_ready rb next then Some (set_consumer s rb (CGet next) (handled s)) else None
  | CGet next => Some (set_consumer s rb (CHandle next (Get rb next)) (handled s))
  | CHandle next e => Some (set_consumer s rb (CConsume next) (handled s ++ [e]))
  | CConsume next => Some (set_consumer s (Consume rb next) (CWait (next + 1)) (handled s))
  | CEnd => None
  end.

Definition dstep (s : system) (a : action) : option system :=
  match a with
  | Produce i e =>
      match producers s !! i with
      | Some PIdle => Some (set_producer s (ring s) i (PLoad e) (claims s) (rejected s))
      | _ => None
      end
  | Step i => match producers s !! i with Some p => producer_step s i p | None => None end
  | Process => consumer_step s
  | StopProcessor =>
      match consumer s with CWait _ => Some (set_consumer s (ring s) CEnd (handled s)) | _ => None end
  end.

Fixpoint drun (s : system) (l : list action) : option system :=
  match l with
  | [] => Some s
  | a :: l => match dstep s a with Some s => drun s l | None => None end
  end.

Definition init (rb : RingBuffer) (n : nat) : system := mkSystem rb (replicate n PIdle) (CWait 0) [] [] [].

(** ** Slots *)

Definition pow2 (rb : RingBuffer) : Prop := exists k, 0 <= k /\ bufferSize rb = 2 ^ k.

Lemma disruptor_size_pow2 size rb : NewRingBuffer size = Ret rb -> pow2 rb /\ bufferSize rb = size.
Proof.
  unfold NewRingBuffer. destruct (Z.leb_spec size 0) as [|Hp]; [done|]. cbn.
  destruct (Z.eqb_spec (Z.land size (size - 1)) 0) as [Hz|]; [|done]. cbn. intros [= <-]. split; [|done].
  exists (Z.log2 size). split; [apply Z.log2_nonneg|]. cbn. pose proof (Z.log2_spec size Hp) as [Hl Hu].
  destruct (Z.eq_dec size (2 ^ Z.log2 size)) as [|Hne]; [done|]. exfalso.
  assert (Hlog : Z.log2 (size - 1) = Z.log2 size) by (apply Z.log2_unique; [apply Z.log2_nonneg|lia]).
  assert (Hb : Z.testbit (Z.land size (size - 1)) (Z.log2 size) = true).
  { rewrite Z.land_spec, Z.bit_log2 by lia. rewrite <- Hlog at 1. rewrite Z.bit_log2; [done|].
    pose proof (Z.pow_pos_nonneg 2 (Z.log2 size) ltac:(lia) (Z.log2_nonneg size)). lia. }
  rewrite Hz, Z.testbit_0_l in Hb. done.
Qed.

Lemma disruptor_slot_mod rb seq : pow2 rb -> slot rb seq = seq mod bufferSize rb.
Proof.
  intros (k & Hk & E). unfold slot, indexMask. rewrite E, <- Z.land_ones by done. by rewrite Z.ones_equiv.
Qed.

(** Two sequence numbers less than a buffer apart have different slots. *)
Lemma disruptor_slot_inj rb a b :
  pow2 rb -> a - b < bufferSize rb -> b - a < bufferSize rb -> slot rb a = slot rb b -> a = b.
Proof.
  intros Hp H1 H2. rewrite !disruptor_slot_mod by done. intros E.
  assert (Hs : 0 < bufferSize rb) by (destruct Hp as (k & Hk & ->); by apply Z.pow_pos_nonneg).
  pose proof (Z.div_mod a (bufferSize rb) ltac:(lia)). pose proof (Z.div_mod b (bufferSize rb) ltac:(lia)).
  assert (a / bufferSize rb = b / bufferSize rb) by nia. nia.
Qed.
End disruptor.
Arguments RingBuffer : clear implicits.
Arguments system : clear implicits.
Arguments producer : clear implicits.
Arguments action : clear implicits.

Section safety.
Context {A : Type}.
Implicit Types (s : system A) (rb : RingBuffer A) (p : producer A).

Definition hold p : option (Z * A) :=
  match p with PClaimed e seq | PWritten e seq => Some (seq, e) | _ => None end.

Definition held s (seq : Z) : Prop := exists i p e, producers s !! i = Some p /\ hold p = Some (seq, e).

(** The events of the first [n] sequence numbers. *)
Definition prefix s (n : Z) : list (option A) := map Some (take (Z.to_nat n) (claims s)).

Definition consumer_ok s : Prop :=
  let rb := ring s in
  match consumer s with
  | CWait n => n = gating rb + 1 /\ handled s = prefix s n
  | CGet n => n = gating rb + 1 /\ handled s = prefix s n /\ n <= cursor rb /\ avail rb n = n
  | CHandle n e =>
      n = gating rb + 1 /\ handled s = prefix s n /\ n <= cursor rb /\ avail rb n = n /\ e = claims s !! Z.to_nat n
  | CConsume n => n = gating rb + 1 /\ handled s = prefix s (n + 1) /\ n <= cursor rb /\ avail rb n = n
  | CEnd => handled s = prefix s (gating rb + 1)
  end.

Record ring_ok s : Prop := mkRingOk {
  ok_pow2 : pow2 (ring s);
  ok_len : Z.of_nat (length (claims s)) = cursor (ring s) + 1;
  ok_gate : -1 <= gating (ring s) <= cursor (ring s);
  ok_room : cursor (ring s) <= gating (ring s) + bufferSize (ring s);
  ok_cas : forall i e cur, producers s !! i = Some (PCas e cur) -> cur + 1 - bufferSize (ring s) <= gating (ring s);
  ok_held : forall i p seq e, producers s !! i = Some p -> hold p = Some (seq, e) ->
    gating (ring s) < seq <= cursor (ring s) /\ claims s !! Z.to_nat seq = Some e /\ avail (ring s) seq <> seq /\
    (p = PWritten e seq -> Get (ring s) seq = Some e);
  ok_uniq : forall i j p q seq e e', producers s !! i = Some p -> producers s !! j = Some q ->
    hold p = Some (seq, e) -> hold q = Some (seq, e') -> i = j;
  ok_pub : forall seq, gating (ring s) < seq <= cursor (ring s) -> ~ held s seq ->
    avail (ring s) seq = seq /\ Get (ring s) seq = claims s !! Z.to_nat seq;
  ok_old : forall k v, available (ring s) !! k = Some v -> v <= cursor (ring s);
  ok_consumer : consumer_ok s
}.

Lemma prefix_app s n (l : list A) :
  0 <= n <= Z.of_nat (length (claims s)) ->
  map Some (take (Z.to_nat n) (claims s ++ l)) = map Some (take (Z.to_nat n) (claims s)).
Proof. intros Hn. rewrite take_app_le by lia. done. Qed.

(** A step of a producer that changes neither the ring nor what is held. *)
Lemma ring_ok_quiet s i p p' rej :
  ring_ok s -> producers s !! i = Some p -> hold p = None -> hold p' = None ->
  (forall e cur, p' = PCas e cur -> cur + 1 - bufferSize (ring s) <= gating (ring s)) ->
  ring_ok (set_producer s (ring s) i p' (claims s) rej).
Proof.
  intros [Hp Hl Hg Hr Hc Hh Hu Hpub Ho Hcon] Hi Hhp Hhp' Hcas. split; cbn; try done.
  - intros j e cur. rewrite list_lookup_insert_Some. intros [(-> & E & _)|[_ Hj]]; [by eapply Hcas|by eapply Hc].
  - intros j q seq e. rewrite list_lookup_insert_Some. intros [(-> & <- & _)|[_ Hj]] Hq; [congruence|by eapply Hh].
  - intros j k q q' seq e e'. rewrite !list_lookup_insert_Some.
    intros [(-> & <- & _)|[_ Hj]] [(-> & <- & _)|[_ Hk]] H1 H2; try congruence. by eapply Hu.
  - intros seq Hs Hn. apply Hpub; [done|]. intros (j & q & e & Hj & Hq). apply Hn.
    destruct (decide (i = j)) as [->|Hne]; [congruence|]. exists j, q, e. split; [|done]. cbn. by rewrite list_lookup_insert_ne.
Qed.

(** The compare-and-swap: the next sequence number is claimed. *)
Lemma ring_ok_claim s i e cur rb :
  ring_ok s -> producers s !! i = Some (PCas e cur) -> cas_cursor (ring s) cur = (rb, true) ->
  ring_ok (set_producer s rb i (PClaimed e (cur + 1)) (claims s ++ [e]) (rejected s)).
Proof.
  intros [Hp Hl Hg Hr Hc Hh Hu Hpub Ho Hcon] Hi Hcs. unfold cas_cursor in Hcs.
  destruct (Z.eqb_spec (cursor (ring s)) cur) as [Ecur|]; [|done]. injection Hcs as <-. subst cur.
  specialize (Hc i e _ Hi) as Hci. split; cbn; try done.
  - rewrite length_app. cbn. lia.
  - lia.
  - lia.
  - intros j e' cur. rewrite list_lookup_insert_Some. intros [(-> & E & _)|[_ Hj]]; [done|by eapply Hc].
  - intros j q seq e'. rewrite list_lookup_insert_Some. intros [(-> & <- & _)|[_ Hj]] Hq.
    + injection Hq as <- <-. split; [lia|]. split.
      { rewrite lookup_app_r by lia. replace (Z.to_nat (cursor (ring s) + 1) - length (claims s))%nat with 0%nat by lia. done. }
      split; [|done]. unfold avail. cbn. destruct (available (ring s) !! _) as [v|] eqn:Ev; cbn; [|lia].
      apply Ho in Ev. lia.
    + destruct (Hh j q seq e' Hj Hq) as (H1 & H2 & H3 & H4). split; [lia|]. split; [|done].
      rewrite lookup_app_l; [done|]. by eapply lookup_lt_Some.
  - intros j k q q' seq e1 e2. rewrite !list_lookup_insert_Some.
    intros [(-> & <- & _)|[_ Hj]] [(-> & <- & _)|[_ Hk]] H1 H2; [done| | |by eapply Hu].
    + injection H1 as <- _. destruct (Hh k q' _ _ Hk H2) as (? & _). lia.
    + injection H2 as <- _. destruct (Hh j q _ _ Hj H1) as (? & _). lia.
  - intros seq Hs Hn. destruct (Z.eq_dec seq (cursor (ring s) + 1)) as [->|Hne].
    { exfalso. apply Hn. exists i, (PClaimed e (cursor (ring s) + 1)), e. split; [|done]. cbn.
      apply list_lookup_insert_eq. by eapply lookup_lt_Some. }
    rewrite lookup_app_l by lia. apply Hpub; [lia|]. intros (j & q & e' & Hj & Hq). apply Hn.
    exists j, q, e'. split; [|done]. cbn. rewrite list_lookup_insert_ne; [done|]. intros ->. simplify_eq.
  - intros k v Hv. apply Ho in Hv. lia.
  - unfold consumer_ok in *. cbn. destruct (consumer s) as [n|n|n e'|n|]; unfold prefix in *; cbn;
      rewrite ?prefix_app by lia; try done.
    + destruct Hcon as (? & ? & ? & ?). repeat split; try done; lia.
    + destruct Hcon as (? & ? & ? & ? & ->). repeat split; try done; [lia|]. by rewrite lookup_app_l by lia.
    + destruct Hcon as (? & ? & ? & ?). repeat split; try done; lia.
Qed.

(** The sequence numbers in the window have slots of their own. *)
Lemma window_slot s a b :
  ring_ok s -> gating (ring s) < a <= cursor (ring s) -> gating (ring s) < b <= cursor (ring s) ->
  slot (ring s) a = slot (ring s) b -> a = b.
Proof. intros [Hp _ _ Hr _ _ _ _ _ _] Ha Hb. apply disruptor_slot_inj; [done|lia|lia]. Qed.

Lemma ring_ok_write s i e seq :
  ring_ok s -> producers s !! i = Some (PClaimed e seq) ->
  ring_ok (set_producer s (Publish_event (ring s) seq e) i (PWritten e seq) (claims s) (rejected s)).
Proof.
  intros Hok Hi. pose proof (window_slot s) as Hw. specialize (fun a b => Hw a b Hok).
  destruct Hok as [Hp Hl Hg Hr Hc Hh Hu Hpub Ho Hcon]. destruct (Hh i _ seq e Hi eq_refl) as (Hs & Hcl & Hav & _).
  split; cbn; try done.
  - intros j e' cur. rewrite list_lookup_insert_Some. intros [(-> & E & _)|[_ Hj]]; [done|by eapply Hc].
  - intros j q sq e'. rewrite list_lookup_insert_Some. intros [(-> & <- & _)|[Hne Hj]] Hq.
    + injection Hq as <- <-. do 3 (split; [done|]). intros _. unfold Get. cbn. apply lookup_insert_eq.
    + destruct (Hh j q sq e' Hj Hq) as (H1 & H2 & H3 & H4). do 3 (split; [done|]). intros ->.
      unfold Get. cbn. change (slot _ sq) with (slot (ring s) sq). rewrite lookup_insert_ne; [by apply H4|].
      intros E. apply Hw in E; [|done|done]. subst sq. by destruct (Hne (Hu i j _ _ seq e e' Hi Hj eq_refl Hq)).
  - intros j k q q' sq e1 e2. rewrite !list_lookup_insert_Some.
    intros [(-> & <- & _)|[Hn1 Hj]] [(-> & <- & _)|[Hn2 Hk]] H1 H2; [done| | |by eapply Hu].
    + injection H1 as <- _. by eapply (Hu j k).
    + injection H2 as <- _. by eapply (Hu j k).
  - intros sq Hsq Hn. assert (Hn' : ~ held s sq).
    { intros (j & q & e' & Hj & Hq). apply Hn. destruct (decide (i = j)) as [->|Hne].
      - exists j, (PWritten e seq), e'. split; [cbn; apply list_lookup_insert_eq; by eapply lookup_lt_Some|]. by simplify_eq.
      - exists j, q, e'. split; [cbn; by rewrite list_lookup_insert_ne|done]. }
    destruct (Hpub sq Hsq Hn') as [H1 H2]. split; [done|]. unfold Get. cbn. change (slot _ sq) with (slot (ring s) sq).
    rewrite lookup_insert_ne; [done|]. intros E. apply Hw in E; [|done|done]. subst sq. apply Hn'. by exists i, (PClaimed e seq), e.
Qed.

Lemma avail_publish rb seq sq :
  avail (Publish_seq rb seq) sq = if decide (slot rb seq = slot rb sq) then seq else avail rb sq.
Proof.
  unfold avail. cbn. change (slot _ sq) with (slot rb sq). destruct (decide _) as [->|Hne].
  - by rewrite lookup_insert_eq.
  - by rewrite lookup_insert_ne.
Qed.

Lemma ring_ok_publish s i e seq :
  ring_ok s -> producers s !! i = Some (PWritten e seq) ->
  ring_ok (set_producer s (Publish_seq (ring s) seq) i PIdle (claims s) (rejected s)).
Proof.
  intros Hok Hi. pose proof (window_slot s) as Hw. specialize (fun a b => Hw a b Hok).
  destruct Hok as [Hp Hl Hg Hr Hc Hh Hu Hpub Ho Hcon]. destruct (Hh i _ seq e Hi eq_refl) as (Hs & Hcl & Hav & Hget).
  assert (Hother : forall sq, gating (ring s) < sq <= cursor (ring s) -> sq <> seq ->
    avail (Publish_seq (ring s) seq) sq = avail (ring s) sq).
  { intros sq Hsq Hne. rewrite avail_publish. destruct (decide _) as [E|]; [|done]. apply Hw in E; [congruence|done|done]. }
  split; cbn; try done.
  - intros j e' cur. rewrite list_lookup_insert_Some. intros [(-> & E & _)|[_ Hj]]; [done|by eapply Hc].
  - intros j q sq e'. rewrite list_lookup_insert_Some. intros [(-> & <- & _)|[Hne Hj]] Hq; [done|].
    destruct (Hh j q sq e' Hj Hq) as (H1 & H2 & H3 & H4). do 2 (split; [done|]). split; [|done].
    rewrite Hother; [done|done|]. intros ->. by destruct (Hne (Hu i j _ _ seq e e' Hi Hj eq_refl Hq)).
  - intros j k q q' sq e1 e2. rewrite !list_lookup_insert_Some.
    intros [(-> & <- & _)|[Hn1 Hj]] [(-> & <- & _)|[Hn2 Hk]] H1 H2; [done..|by eapply Hu].
  - intros sq Hsq Hn. destruct (Z.eq_dec sq seq) as [->|Hne].
    { rewrite avail_publish, decide_True by done. split; [done|]. rewrite Hcl. by apply Hget. }
    rewrite Hother by done. apply Hpub; [done|]. intros (j & q & e' & Hj & Hq). apply Hn. exists j, q, e'. split; [|done].
    cbn. rewrite list_lookup_insert_ne; [done|]. intros ->. simplify_eq. cbn in Hq. congruence.
  - intros k v Hv. apply lookup_insert_Some in Hv as [[_ <-]|[_ Hv]]; [lia|by eapply Ho].
  - unfold consumer_ok in *. cbn. destruct (consumer s) as [n|n|n e'|n|]; try done.
    + destruct Hcon as (? & ? & ? & E). repeat split; try done. rewrite Hother; [done|lia|congruence].
    + destruct Hcon as (? & ? & ? & E & ?). repeat split; try done. rewrite Hother; [done|lia|congruence].
    + destruct Hcon as (? & ? & ? & E). repeat split; try done. rewrite Hother; [done|lia|congruence].
Qed.

(** A step of the processor that leaves the ring alone. *)
Lemma ring_ok_consumer s c h :
  ring_ok s -> consumer_ok (set_consumer s (ring s) c h) -> ring_ok (set_consumer s (ring s) c h).
Proof. intros [Hp Hl Hg Hr Hc Hh Hu Hpub Ho _] Hcon. by split. Qed.

Lemma avail_not_held s seq : ring_ok s -> avail (ring s) seq = seq -> ~ held s seq.
Proof. intros Hok Ha (i & p & e & Hi & Hp). by destruct (ok_held s Hok i p seq e Hi Hp) as (_ & _ & Hn & _). Qed.

Lemma ready_claimed s n : ring_ok s -> 0 <= n -> avail (ring s) n = n -> n <= cursor (ring s).
Proof.
  intros Hok Hn Ha. unfold avail in Ha. destruct (available (ring s) !! slot (ring s) n) as [v|] eqn:Ev; cbn in Ha; [|lia].
  subst v. by eapply ok_old.
Qed.

Lemma ring_ok_consume s n :
  ring_ok s -> consumer s = CConsume n -> ring_ok (set_consumer s (Consume (ring s) n) (CWait (n + 1)) (handled s)).
Proof.
  intros Hok Hcn. pose proof (avail_not_held s n Hok) as Hnh. destruct Hok as [Hp Hl Hg Hr Hc Hh Hu Hpub Ho Hcon].
  unfold consumer_ok in Hcon. rewrite Hcn in Hcon. destruct Hcon as (En & Eh & Hle & Ha). split; cbn; try done.
  - lia.
  - lia.
  - intros i e cur Hi. specialize (Hc i e cur Hi). lia.
  - intros i p seq e Hi Hp'. destruct (Hh i p seq e Hi Hp') as (H1 & H2 & H3 & H4). split; [|done].
    assert (seq <> n) by (intros ->; apply (Hnh Ha); by exists i, p, e). lia.
  - intros seq Hs Hn. apply Hpub; [lia|done].
Qed.

Lemma prefix_snoc s n e :
  0 <= n -> claims s !! Z.to_nat n = Some e -> prefix s (n + 1) = prefix s n ++ [Some e].
Proof.
  intros Hn He. unfold prefix. replace (Z.to_nat (n + 1)) with (S (Z.to_nat n)) by lia.
  by rewrite (take_S_r _ _ _ He), map_app.
Qed.

Lemma ring_ok_step s a s' : ring_ok s -> dstep s a = Some s' -> ring_ok s'.
Proof.
  intros Hok H. destruct a as [i e|i| |]; cbn in H.
  - destruct (producers s !! i) as [[]|] eqn:Ei; simplify_eq. by eapply ring_ok_quiet.
  - destruct (producers s !! i) as [p|] eqn:Ei; [|done]. destruct p as [|e|e cur|e cur|e seq|e seq]; cbn in H; [done|..].
    + injection H as <-. by eapply ring_ok_quiet.
    + destruct (next_full _ _ _) eqn:Ef; injection H as <-; eapply ring_ok_quiet; try done.
      intros e' cur' [= <- <-]. unfold next_full in Ef. lia.
    + destruct (cas_cursor _ _) as [rb []] eqn:Ec; injection H as <-; [by eapply ring_ok_claim|].
      assert (rb = ring s) as -> by (unfold cas_cursor in Ec; destruct (_ =? _); congruence). by eapply ring_ok_quiet.
    + injection H as <-. by apply ring_ok_write.
    + injection H as <-. by eapply ring_ok_publish.
  - pose proof (ok_consumer s Hok) as Hcon. pose proof (ok_gate s Hok). unfold consumer_step in H. unfold consumer_ok in Hcon.
    destruct (consumer s) as [n|n|n e|n|] eqn:Ecs; [|..|done].
    + destruct (WaitFor_ready _ _) eqn:Er; [|done]. injection H as <-. destruct Hcon as [-> Hh].
      unfold WaitFor_ready in Er. apply Z.eqb_eq in Er. apply ring_ok_consumer; [done|].
      repeat split; try done. cbn. apply ready_claimed; [done|lia|done].
    + injection H as <-. destruct Hcon as (-> & Hh & Hle & Ha). apply ring_ok_consumer; [done|].
      repeat split; try done. cbn. by apply ok_pub; [|lia|apply avail_not_held].
    + injection H as <-. destruct Hcon as (-> & Hh & Hle & Ha & He). apply ring_ok_consumer; [done|].
      repeat split; try done. cbn. pose proof (ok_len s Hok).
      destruct (lookup_lt_is_Some_2 (claims s) (Z.to_nat (gating (ring s) + 1))) as [a Ea]; [lia|].
      unfold set_consumer, prefix. cbn. rewrite Hh, He, Ea. symmetry. apply prefix_snoc; [lia|done].
    + injection H as <-. by apply ring_ok_consume.
  - destruct (consumer s) as [n|n|n e|n|] eqn:Ecs; try done. injection H as <-. apply ring_ok_consumer; [done|].
    pose proof (ok_consumer s Hok) as Hcon. unfold consumer_ok in *. rewrite Ecs in Hcon. destruct Hcon as [-> Hh]. done.
Qed.

Lemma ring_ok_run l : forall s s', ring_ok s -> drun s l = Some s' -> ring_ok s'.
Proof.
  induction l as [|a l IH]; intros s s' Hok Hr; cbn in Hr; [by simplify_eq|].
  destruct (dstep s a) as [s1|] eqn:E; [|done]. eauto using ring_ok_step.
Qed.

Lemma ring_ok_init size (rb : RingBuffer A) n : NewRingBuffer size = Ret rb -> ring_ok (init rb n).
Proof.
  intros Hn. pose proof (disruptor_size_pow2 size rb Hn) as [Hp _]. pose proof Hp as (k & Hk & Hs).
  pose proof (Z.pow_pos_nonneg 2 k ltac:(lia) Hk). unfold NewRingBuffer in Hn. destruct (_ || _); [done|]. injection Hn as <-.
  assert (Hidle : forall i p, replicate n PIdle !! i = Some p -> p = @PIdle A) by (intros i p Hi; by apply lookup_replicate in Hi as [-> _]).
  cbn in Hs. split; cbn; try done; try lia.
  - intros i e cur Hi. by apply Hidle in Hi.
  - intros i p seq e Hi. by apply Hidle in Hi as ->.
  - intros i j p q seq e e' Hi. by apply Hidle in Hi as ->.
Qed.

Lemma handled_prefix s :
  ring_ok s -> exists n, 0 <= n <= Z.of_nat (length (claims s)) /\ handled s = prefix s n /\
    (forall k, consumer s = CWait k -> n = k /\ k = gating (ring s) + 1).
Proof.
  intros Hok. pose proof (ok_consumer s Hok) as Hcon. pose proof (ok_gate s Hok). pose proof (ok_len s Hok).
  unfold consumer_ok in Hcon. destruct (consumer s) as [n|n|n e|n|].
  - exists n. destruct Hcon as [-> ?]. split; [lia|]. split; [done|]. by intros k [= <-].
  - exists n. destruct Hcon as (-> & ? & ?). split; [lia|]. done.
  - exists n. destruct Hcon as (-> & ? & ?). split; [lia|]. done.
  - exists (n + 1). destruct Hcon as (-> & ? & ?). split; [lia|]. done.
  - exists (gating (ring s) + 1). split; [lia|]. done.
Qed.

(** C17. However producers and the processor interleave, the handler sees the events
    in the order of their sequence numbers, each exactly once and none of them nil
    or overwritten: what it was given is a prefix of the claimed events. *)
Theorem disruptor_fifo (size : Z) (rb : RingBuffer A) (n : nat) (l : list (action A)) (s : system A) :
  NewRingBuffer size = Ret rb -> drun (init rb n) l = Some s ->
  handled s = map Some (take (length (handled s)) (claims s)) /\
  -1 <= gating (ring s) <= cursor (ring s) /\ cursor (ring s) - gating (ring s) <= size /\
  0 <= AvailableCapacity (ring s) <= size.
Proof.
  intros Hn Hr. pose proof (ring_ok_run l _ _ (ring_ok_init size rb n Hn) Hr) as Hok.
  assert (Hsize : bufferSize (ring s) = size).
  { destruct (disruptor_size_pow2 size rb Hn) as [_ E]. clear Hok Hn. revert Hr E.
    change rb with (ring (init rb n)) at 2. generalize (init rb n). induction l as [|a l IH]; intros s0 Hr E; cbn in Hr; [by simplify_eq|].
    destruct (dstep s0 a) as [s1|] eqn:Ea; [|done]. apply (IH s1 Hr). clear IH Hr.
    unfold dstep, producer_step, consumer_step, cas_cursor in Ea. repeat (case_match; try discriminate); simplify_eq; done. }
  destruct (handled_prefix s Hok) as (k & Hk & Hh & _). pose proof (ok_gate s Hok). pose proof (ok_room s Hok).
  split; [|unfold AvailableCapacity; lia]. rewrite Hh at 1. unfold prefix. f_equal. rewrite Hh. unfold prefix.
  rewrite length_map, length_take. f_equal. lia.
Qed.

(** No event is lost: when every producer is done and the waiting processor has
    nothing ready, it has handled every event that was claimed. *)
Theorem disruptor_drains (size : Z) (rb : RingBuffer A) (n : nat) (l : list (action A)) (s : system A) (k : Z) :
  NewRingBuffer size = Ret rb -> drun (init rb n) l = Some s ->
  Forall (fun p => p = PIdle) (producers s) -> consumer s = CWait k -> WaitFor_ready (ring s) k = false ->
  handled s = map Some (claims s).
Proof.
  intros Hn Hr Hidle Hc Hw. pose proof (ring_ok_run l _ _ (ring_ok_init size rb n Hn) Hr) as Hok.
  destruct (handled_prefix s Hok) as (m & Hm & Hh & Hk). destruct (Hk k Hc) as [-> ->].
  pose proof (ok_gate s Hok). pose proof (ok_len s Hok).
  destruct (Z.eq_dec (gating (ring s)) (cursor (ring s))) as [E|Hne].
  - rewrite Hh. unfold prefix. rewrite take_ge by lia. done.
  - exfalso. destruct (ok_pub s Hok (gating (ring s) + 1)) as [Ha _]; [lia| |].
    + intros (i & p & e & Hi & Hp). eapply Forall_lookup_1 in Hidle; [|done]. by subst p.
    + unfold WaitFor_ready in Hw. rewrite Ha, Z.eqb_refl in Hw. done.
Qed.
End safety.

Definition demo_actions : list (action Z) :=
  [Produce 0 7; Produce 1 8; Step 0; Step 1; Step 0; Step 1; Step 1; Step 0; Step 1; Step 1; Process; Process; Process;
   Process; Step 0; Step 0; Step 0; Step 0; Step 0; Process; Process; Process; Process].

Definition demo_ring : RingBuffer Z := mkRing ∅ ∅ 4 (-1) (-1).

Lemma disruptor_fifo_witness :
  exists s, drun (init demo_ring 2) demo_actions = Some s /\ handled s = [Some 8; Some 7] /\
    handled s = map Some (take (length (handled s)) (claims s)).
Proof.
  eexists. split; [vm_compute; reflexivity|]. split; [reflexivity|].
  refine (proj1 (disruptor_fifo 4 demo_ring 2 demo_actions _ _ _)); [reflexivity|vm_compute; reflexivity].
Defined.

Lemma disruptor_drains_witness :
  exists s, drun (init demo_ring 2) demo_actions = Some s /\ handled s = map Some (claims s).
Proof.
  eexists. split; [vm_compute; reflexivity|].
  refine (disruptor_drains 4 demo_ring 2 demo_actions _ 2 _ _ _ _ _); [reflexivity|vm_compute; reflexivity|repeat constructor|reflexivity|reflexivity].
Defined.

(** ** The batch publisher *)

Section batch.
Context {A : Type}.

(** The batch and its capacity. *)
Record BatchPublisher : Type := mkBatch { batch : list A; batchSize : nat }.

Definition Add (bp : BatchPublisher) (event : A) : BatchPublisher * bool :=
  if (batchSize bp <=? length (batch bp))%nat then (bp, false)
  else (mkBatch (batch bp ++ [event]) (batchSize bp), true).

(** [Next] and [Publish] with nobody else running. *)
Definition publish_one (rb : RingBuffer A) (event : A) : option (RingBuffer A) :=
  if next_full rb (cursor rb) (gating rb) then None
  else let rb := (cas_cursor rb (cursor rb)).1 in
       Some (Publish_seq (Publish_event rb (cursor rb) event) (cursor rb)).

Fixpoint flush_loop (rb : RingBuffer A) (events : list A) (published : Z) : RingBuffer A * Z :=
  match events with
  | [] => (rb, published)
  | e :: events => match publish_one rb e with None => (rb, published) | Some rb => flush_loop rb events (published + 1) end
  end.

Definition Flush (rb : RingBuffer A) (bp : BatchPublisher) : RingBuffer A * BatchPublisher * Z :=
  let '(rb, n) := flush_loop rb (batch bp) 0 in (rb, mkBatch [] (batchSize bp), n).

Lemma flush_loop_count events : forall rb n,
  0 < bufferSize rb -> cursor rb <= gating rb + bufferSize rb -> gating rb <= cursor rb ->
  let k := Z.min (Z.of_nat (length events)) (AvailableCapacity rb) in
  (flush_loop rb events n).2 = n + k /\ cursor (flush_loop rb events n).1 = cursor rb + k.
Proof.
  unfold AvailableCapacity. induction events as [|e events IH]; intros rb n Hp Hr Hg; cbn [flush_loop length]; [cbn; lia|].
  unfold publish_one, next_full. destruct (Z.ltb_spec (gating rb) (cursor rb + 1 - bufferSize rb)); [cbn; lia|].
  unfold cas_cursor. rewrite Z.eqb_refl. destruct (IH _ (n + 1)
    ltac:(instantiate (1 := Publish_seq (Publish_event (mkRing (buffer rb) (available rb) (bufferSize rb) (cursor rb + 1) (gating rb))
      (cursor rb + 1) e) (cursor rb + 1)); cbn; lia)) as [H1 H2]; cbn in *; [lia..|].
  rewrite H1, H2. lia.
Qed.

(** [Flush] publishes as many events of the batch as the ring has room for and
    reports that number; the batch is emptied in any case, so the rest is gone. *)
Theorem Flush_drops_the_rest (rb : RingBuffer A) (bp : BatchPublisher) :
  0 < bufferSize rb -> gating rb <= cursor rb <= gating rb + bufferSize rb ->
  (Flush rb bp).2 = Z.min (Z.of_nat (length (batch bp))) (AvailableCapacity rb) /\
  cursor (Flush rb bp).1.1 = cursor rb + (Flush rb bp).2 /\ batch (Flush rb bp).1.2 = [].
Proof.
  intros Hp Hg. destruct (flush_loop_count (batch bp) rb 0 Hp ltac:(lia) ltac:(lia)) as [H1 H2].
  unfold Flush. destruct (flush_loop rb (batch bp) 0) as [rb' n]. cbn [fst snd batch] in *. subst n.
  split; [lia|]. split; [lia|done].
Qed.
End batch.

Lemma Flush_drops_the_rest_witness :
  (Flush (mkRing ∅ ∅ 2 (-1) (-1)) (mkBatch [5; 6; 7] 3)).2 = 2 /\
  batch (Flush (mkRing ∅ ∅ 2 (-1) (-1)) (mkBatch [5; 6; 7] 3)).1.2 = [].
Proof.
  destruct (Flush_drops_the_rest (mkRing ∅ ∅ 2 (-1) (-1)) (mkBatch [5; 6; 7] 3)) as (H & _ & E);
    [reflexivity|cbn [gating cursor bufferSize]; lia|].
  split; [rewrite H; reflexivity|exact E].
Defined.
