(* ===== verification/Risk.v ===== *)
(** * The risk engine (pkg/hft/risk/engine.go)

    Pre-trade checks, positions, the ring of violations and the kill switch.
    Quantities and prices are 64-bit integers with their wrap-around and
    division truncates; the price deviation is computed in binary64 (Stdlib's
    SpecFloat).  A fill or a check runs as a whole: positions have a lock each
    and the checks read one field of each. *)
From Stdlib Require Import Floats.SpecFloat.
From S2P Require Import Prelude.

(** ** Numbers *)

Definition mul64 (a b : Z) : Z := i64 (a * b).

Definition E8 : Z := 100000000.

(** [a * b / 1e8] *)
Definition scaled (a b : Z) : Z := Z.quot (mul64 a b) E8.

Definition abs64 (i : Z) : Z := if i <? 0 then i64 (- i) else i.

Definition minInt64 (a b : Z) : Z := if a <? b then a else b.

(** [float64(z)] and the operations used. *)
Definition f64 (z : Z) : spec_float := binary_normalize 53 1024 z 0 false.
Definition fdiv : spec_float -> spec_float -> spec_float := SFdiv 53 1024.
Definition fsub : spec_float -> spec_float -> spec_float := SFsub 53 1024.

Definition abs (f : spec_float) : spec_float := if SFltb f (S754_zero false) then SFopp f else f.

(** ** Limits, orders and positions *)

Definition SideBuy : Z := 0.
Definition OrderTypeLimit : Z := 0.

Record RiskLimits : Type := mkLimits {
  MaxPositionPerSymbol : Z;
  MaxNotionalPerOrder : Z;
  MaxOrderSize : Z;
  MaxOrdersPerSecond : Z;
  MaxOrdersPerMinute : Z;
  MaxPriceDeviation : spec_float;
  MaxNotionalExposure : Z;
  MaxSymbolConcentration : spec_float
}.

Definition DefaultRiskLimits : RiskLimits :=
  mkLimits 100000 10000000 10000 100 1000 (fdiv (f64 5) (f64 100)) 100000000 (fdiv (f64 20) (f64 100)).

(** The fields of [matching.Order] the engine reads. *)
Record Order : Type := mkOrder {
  ID : Z;
  Symbol : string;
  Side : Z;
  Type_ : Z;
  Price : Z;
  Quantity : Z
}.

Record Position : Type := mkPosition {
  PQuantity : Z;
  AvgPrice : Z;
  RealizedPnL : Z;
  TotalBought : Z;
  TotalSold : Z
}.

Definition no_position : Position := mkPosition 0 0 0 0 0.

Inductive ViolationType : Type :=
| ViolationPositionLimit
| ViolationNotionalLimit
| ViolationOrderSizeLimit
| ViolationRateLimit
| ViolationPriceDeviation
| ViolationCreditLimit
| ViolationConcentration.

(** The order and the rule it broke. *)
Record RiskViolation : Type := mkViolation { VOrderID : Z; VSymbol : string; VType : ViolationType }.

Definition ring_len : Z := 1000.

Record ViolationRing : Type := mkViolations { violations : gmap Z RiskViolation; index : Z }.

(** The violation goes to the slot after the incremented index. *)
Definition Add (vr : ViolationRing) (v : RiskViolation) : ViolationRing :=
  let index' := u64 (index vr + 1) in
  mkViolations (<[index' mod ring_len := v]> (violations vr)) index'.

Fixpoint recent_loop (vr : ViolationRing) (k : nat) (i : Z) : list RiskViolation :=
  match k with
  | O => []
  | S k =>
      match violations vr !! (u64 (index vr - i) mod ring_len) with
      | Some v => v :: recent_loop vr k (i + 1)
      | None => recent_loop vr k (i + 1)
      end
  end.

(** A negative [n] makes [make] panic. *)
Definition GetRecent (vr : ViolationRing) (n : Z) : outcome (list RiskViolation) :=
  let n := if ring_len <? n then ring_len else n in
  if n <? 0 then Panic else Ret (recent_loop vr (Z.to_nat n) 0).

Record RiskEngine : Type := mkEngine {
  limits : RiskLimits;
  positions : gmap string Position;
  ring : ViolationRing;
  checksTotal : Z;
  checksRejected : Z
}.

Definition NewRiskEngine (l : option RiskLimits) : RiskEngine :=
  mkEngine (default DefaultRiskLimits l) ∅ (mkViolations ∅ 0) 0 0.

(** ** Checks *)

(** [LoadOrStore]: the position, stored if it was missing. *)
Definition getOrCreatePosition (re : RiskEngine) (symbol : string) : RiskEngine * Position :=
  match positions re !! symbol with
  | Some p => (re, p)
  | None => (mkEngine (limits re) (<[symbol := no_position]> (positions re)) (ring re) (checksTotal re) (checksRejected re), no_position)
  end.

Definition checkPositionLimit (re : RiskEngine) (o : Order) : RiskEngine * bool :=
  let '(re, pos) := getOrCreatePosition re (Symbol o) in
  let newQty := if Side o =? SideBuy then PQuantity pos +i64 Quantity o else PQuantity pos -i64 Quantity o in
  (re, negb (MaxPositionPerSymbol (limits re) <? abs64 newQty)).

Definition exposure (p : Position) : Z := abs64 (scaled (PQuantity p) (AvgPrice p)).

Definition checkNotionalExposure (re : RiskEngine) (o : Order) : bool :=
  let totalExposure := i64 (sumZ (map (fun kv => exposure kv.2) (map_to_list (positions re)))) in
  negb (MaxNotionalExposure (limits re) <? totalExposure +i64 scaled (Quantity o) (Price o)).

Definition deviation_ok (l : RiskLimits) (price marketPrice : Z) : bool :=
  let priceFloat := fdiv (f64 price) (f64 E8) in
  let marketFloat := fdiv (f64 marketPrice) (f64 E8) in
  negb (SFltb (MaxPriceDeviation l) (fdiv (abs (fsub priceFloat marketFloat)) marketFloat)).

Definition reject (re : RiskEngine) (o : Order) (t : ViolationType) : RiskEngine * option ViolationType :=
  (mkEngine (limits re) (positions re) (Add (ring re) (mkViolation (ID o) (Symbol o) t)) (checksTotal re)
     (u64 (checksRejected re + 1)), Some t).

Definition check_body (re : RiskEngine) (o : Order) (marketPrice : Z) : RiskEngine * option ViolationType :=
  if MaxOrderSize (limits re) <? Quantity o then reject re o ViolationOrderSizeLimit
  else if MaxNotionalPerOrder (limits re) <? scaled (Quantity o) (Price o) then reject re o ViolationNotionalLimit
  else
    let '(re, ok) := checkPositionLimit re o in
    if negb ok then reject re o ViolationPositionLimit
    else if (Type_ o =? OrderTypeLimit) && (0 <? marketPrice) && negb (deviation_ok (limits re) (Price o) marketPrice)
    then reject re o ViolationPriceDeviation
    else if negb (checkNotionalExposure re o) then reject re o ViolationCreditLimit
    else (re, None).

(** The deferred function counts the check whatever its outcome. *)
Definition CheckOrder (re : RiskEngine) (o : Order) (marketPrice : Z) : RiskEngine * option ViolationType :=
  let '(re, r) := check_body re o marketPrice in
  (mkEngine (limits re) (positions re) (ring re) (u64 (checksTotal re + 1)) (checksRejected re), r).

(** ** Fills *)

(** The part of a fill that reduces an opposite position: the position and the
    quantity left. *)
Definition reduce_short (p : Position) (qty price : Z) : Position * Z :=
  if PQuantity p <? 0 then
    let reduceQty := minInt64 qty (i64 (- PQuantity p)) in
    let realized := scaled (price -i64 AvgPrice p) reduceQty in
    (mkPosition (PQuantity p +i64 reduceQty) (AvgPrice p) (RealizedPnL p -i64 realized) (TotalBought p) (TotalSold p),
     qty -i64 reduceQty)
  else (p, qty).

Definition reduce_long (p : Position) (qty price : Z) : Position * Z :=
  if 0 <? PQuantity p then
    let reduceQty := minInt64 qty (PQuantity p) in
    let realized := scaled (price -i64 AvgPrice p) reduceQty in
    (mkPosition (PQuantity p -i64 reduceQty) (AvgPrice p) (RealizedPnL p +i64 realized) (TotalBought p) (TotalSold p),
     qty -i64 reduceQty)
  else (p, qty).

Definition buy (p : Position) (qty price : Z) : Position :=
  let '(p, qty) := reduce_short p qty price in
  let p :=
    if 0 <? qty then
      let totalCost := mul64 (PQuantity p) (AvgPrice p) +i64 mul64 qty price in
      let q := PQuantity p +i64 qty in
      mkPosition q (if q =? 0 then AvgPrice p else i64 (Z.quot totalCost q)) (RealizedPnL p) (TotalBought p) (TotalSold p)
    else p in
  mkPosition (PQuantity p) (AvgPrice p) (RealizedPnL p) (TotalBought p +i64 qty) (TotalSold p).

Definition sell (p : Position) (qty price : Z) : Position :=
  let '(p, qty) := reduce_long p qty price in
  let p :=
    if 0 <? qty then
      let totalCost := mul64 (PQuantity p) (AvgPrice p) -i64 mul64 qty price in
      let q := PQuantity p -i64 qty in
      mkPosition q (if q =? 0 then AvgPrice p else i64 (Z.quot totalCost q)) (RealizedPnL p) (TotalBought p) (TotalSold p)
    else p in
  mkPosition (PQuantity p) (AvgPrice p) (RealizedPnL p) (TotalBought p) (TotalSold p +i64 qty).

Definition UpdatePosition (re : RiskEngine) (symbol : string) (side qty price : Z) : RiskEngine :=
  let '(re, pos) := getOrCreatePosition re symbol in
  let pos := if side =? SideBuy then buy pos qty price else sell pos qty price in
  mkEngine (limits re) (<[symbol := pos]> (positions re)) (ring re) (checksTotal re) (checksRejected re).

Definition GetPosition (re : RiskEngine) (symbol : string) : Position := default no_position (positions re !! symbol).

(** ** The kill switch *)

Record KillSwitch : Type := mkKill { enabled : bool; reason : string; triggeredAt : Z }.

Definition NewKillSwitch : KillSwitch := mkKill false "" 0.

Definition Trigger (ks : KillSwitch) (why : string) (now : Z) : KillSwitch := mkKill true why now.

Definition Reset (ks : KillSwitch) : KillSwitch := mkKill false "" 0.

(** ** Positions *)

(** Replaces wrapped sums that are in range by the sums. *)
Ltac exact64 := repeat match goal with |- context [i64 ?z] => rewrite (i64_id z) by (widths; lia) end.

Lemma reduce_short_spec p qty price :
  min_i64 < PQuantity p <= max_i64 -> 0 <= qty <= max_i64 ->
  let r := if PQuantity p <? 0 then Z.min qty (- PQuantity p) else 0 in
  PQuantity (reduce_short p qty price).1 = PQuantity p + r /\ AvgPrice (reduce_short p qty price).1 = AvgPrice p /\
  (reduce_short p qty price).2 = qty - r.
Proof.
  intros Hp Hq. cbn zeta. unfold reduce_short, minInt64. destruct (Z.ltb_spec (PQuantity p) 0); cbn [fst snd PQuantity AvgPrice].
  - rewrite (i64_id (- PQuantity p)) by (widths; lia). destruct (Z.ltb_spec qty (- PQuantity p)).
    + rewrite Z.min_l by lia. exact64. done.
    + rewrite Z.min_r by lia. exact64. done.
  - split; [lia|]. split; [done|lia].
Qed.

Lemma reduce_long_spec p qty price :
  min_i64 < PQuantity p <= max_i64 -> 0 <= qty <= max_i64 ->
  let r := if 0 <? PQuantity p then Z.min qty (PQuantity p) else 0 in
  PQuantity (reduce_long p qty price).1 = PQuantity p - r /\ AvgPrice (reduce_long p qty price).1 = AvgPrice p /\
  (reduce_long p qty price).2 = qty - r.
Proof.
  intros Hp Hq. cbn zeta. unfold reduce_long, minInt64. destruct (Z.ltb_spec 0 (PQuantity p)); cbn [fst snd PQuantity AvgPrice].
  - destruct (Z.ltb_spec qty (PQuantity p)).
    + rewrite Z.min_l by lia. exact64. done.
    + rewrite Z.min_r by lia. exact64. done.
  - split; [lia|]. split; [done|lia].
Qed.

Lemma buy_quantity p qty price :
  min_i64 < PQuantity p -> 0 <= qty <= max_i64 -> PQuantity p + qty <= max_i64 ->
  PQuantity (buy p qty price) = PQuantity p + qty.
Proof.
  intros H1 H2 H3. pose proof (reduce_short_spec p qty price ltac:(lia) ltac:(lia)) as (E1 & _ & E3). unfold buy.
  destruct (reduce_short p qty price) as [p1 q1]. cbn [fst snd] in *. subst q1.
  set (r := if PQuantity p <? 0 then _ else _) in *.
  assert (0 <= r <= qty) by (subst r; destruct (Z.ltb_spec (PQuantity p) 0); lia).
  clearbody r. destruct (Z.ltb_spec 0 (qty - r)); cbn [PQuantity]; rewrite E1; exact64; lia.
Qed.

Lemma sell_quantity p qty price :
  PQuantity p <= max_i64 -> 0 <= qty <= max_i64 -> min_i64 < PQuantity p - qty ->
  PQuantity (sell p qty price) = PQuantity p - qty.
Proof.
  intros H1 H2 H3. pose proof (reduce_long_spec p qty price ltac:(lia) ltac:(lia)) as (E1 & _ & E3). unfold sell.
  destruct (reduce_long p qty price) as [p1 q1]. cbn [fst snd] in *. subst q1.
  set (r := if 0 <? PQuantity p then _ else _) in *.
  assert (0 <= r <= qty) by (subst r; destruct (Z.ltb_spec 0 (PQuantity p)); lia).
  clearbody r. destruct (Z.ltb_spec 0 (qty - r)); cbn [PQuantity]; rewrite E1; exact64; lia.
Qed.

(** An average of values in a range, truncated, is in the range. *)
Lemma quot_mean a x b y lo hi :
  0 <= a -> 0 < b -> (0 < a -> lo <= x <= hi) -> lo <= y <= hi -> 0 <= lo -> lo <= Z.quot (a * x + b * y) (a + b) <= hi.
Proof.
  intros Ha Hb Hx Hy Hlo.
  assert (Hs : lo * (a + b) <= a * x + b * y <= hi * (a + b)).
  { destruct (Z.eq_dec a 0) as [->|]; [nia|]. specialize (Hx ltac:(lia)). nia. }
  rewrite Z.quot_div_nonneg by nia. split.
  - apply Z.div_le_lower_bound; lia.
  - apply Z.div_le_upper_bound; lia.
Qed.

Lemma mul_bound a x V hi : - V <= a <= V -> 0 <= x <= hi -> V * hi <= max_i64 -> - max_i64 <= a * x <= max_i64.
Proof. intros Ha Hx HV. nia. Qed.

Section fills.
Context (lo hi : Z).
Hypothesis Hlo : 0 <= lo.

(** The average price of an open position lies between the prices paid. *)
Definition avg_ok (p : Position) : Prop := PQuantity p <> 0 -> lo <= AvgPrice p <= hi.

(** The new average when a position of [a] grows by [b]. *)
Lemma mean_exact a x b y V :
  0 <= a -> 0 < b -> (0 < a -> lo <= x <= hi) -> lo <= y <= hi -> a + b <= V -> V * hi <= max_i64 -> V <= max_i64 ->
  0 <= a * x /\ 0 <= b * y /\ a * x + b * y <= max_i64 /\ lo <= i64 (Z.quot (a * x + b * y) (a + b)) <= hi.
Proof.
  intros Ha Hb Hx Hy HV Hm HV'. assert (Hax : 0 <= a * x <= a * hi).
  { destruct (Z.eq_dec a 0) as [->|]; [lia|]. specialize (Hx ltac:(lia)). nia. }
  assert (Hby : 0 <= b * y <= b * hi) by nia. assert (Hs : a * hi + b * hi <= V * hi) by nia.
  pose proof (quot_mean a x b y lo hi Ha Hb Hx Hy Hlo) as Hq. split; [lia|]. split; [lia|]. split; [lia|].
  rewrite i64_id; [done|]. assert (hi <= V * hi) by nia. widths. lia.
Qed.

Lemma buy_spec p qty price V :
  - V <= PQuantity p <= V -> 0 <= qty -> lo <= price <= hi -> (V + qty) * hi <= max_i64 -> V + qty <= max_i64 -> avg_ok p ->
  PQuantity (buy p qty price) = PQuantity p + qty /\ avg_ok (buy p qty price).
Proof.
  intros Hp Hq Hpr HV HV' Ha. pose proof (reduce_short_spec p qty price ltac:(widths; lia) ltac:(widths; lia)) as (E1 & E2 & E3).
  unfold buy, avg_ok. destruct (reduce_short p qty price) as [p1 q1]. cbn [fst snd] in *. subst q1.
  set (r := if PQuantity p <? 0 then Z.min qty (- PQuantity p) else 0) in *.
  assert (Hr : 0 <= r <= qty /\ (r < qty -> 0 <= PQuantity p + r) /\ (0 < PQuantity p + r -> r = 0 /\ 0 < PQuantity p))
    by (subst r; destruct (Z.ltb_spec (PQuantity p) 0); lia).
  clearbody r. destruct (Z.ltb_spec 0 (qty - r)) as [Hpos|Hz]; cbn [PQuantity AvgPrice]; rewrite E1, E2.
  - destruct (mean_exact (PQuantity p + r) (AvgPrice p) (qty - r) price (V + qty)) as (B1 & B2 & B3 & Hm);
      [lia..| |lia|lia|lia|lia|].
    { intros H. apply Ha. lia. }
    unfold mul64. exact64. split; [lia|]. intros Hne. by destruct (Z.eqb_spec (PQuantity p + r + (qty - r)) 0).
  - split; [lia|]. intros Hne. apply Ha. lia.
Qed.

Lemma sell_spec p qty price V :
  - V <= PQuantity p <= V -> 0 <= qty -> lo <= price <= hi -> (V + qty) * hi <= max_i64 -> V + qty <= max_i64 -> avg_ok p ->
  PQuantity (sell p qty price) = PQuantity p - qty /\ avg_ok (sell p qty price).
Proof.
  intros Hp Hq Hpr HV HV' Ha. pose proof (reduce_long_spec p qty price ltac:(widths; lia) ltac:(widths; lia)) as (E1 & E2 & E3).
  unfold sell, avg_ok. destruct (reduce_long p qty price) as [p1 q1]. cbn [fst snd] in *. subst q1.
  set (r := if 0 <? PQuantity p then Z.min qty (PQuantity p) else 0) in *.
  assert (Hr : 0 <= r <= qty /\ (r < qty -> PQuantity p - r <= 0) /\ (PQuantity p - r < 0 -> r = 0 /\ PQuantity p < 0))
    by (subst r; destruct (Z.ltb_spec 0 (PQuantity p)); lia).
  clearbody r. destruct (Z.ltb_spec 0 (qty - r)) as [Hpos|Hz]; cbn [PQuantity AvgPrice]; rewrite E1, E2.
  - destruct (mean_exact (- (PQuantity p - r)) (AvgPrice p) (qty - r) price (V + qty)) as (B1 & B2 & B3 & Hm);
      [lia..| |lia|lia|lia|lia|].
    { intros H. apply Ha. lia. }
    assert (Ec : mul64 (PQuantity p - r) (AvgPrice p) -i64 mul64 (qty - r) price = - (- (PQuantity p - r) * AvgPrice p + (qty - r) * price)).
    { unfold mul64. exact64. lia. }
    rewrite Ec. exact64. replace (PQuantity p - r - (qty - r)) with (- (- (PQuantity p - r) + (qty - r))) by lia.
    rewrite Z.quot_opp_opp by lia. split; [lia|]. intros Hne.
    by destruct (Z.eqb_spec (- (- (PQuantity p - r) + (qty - r))) 0).
  - split; [lia|]. intros Hne. apply Ha. lia.
Qed.
End fills.

(** A fill reported to the engine. *)
Record fill : Type := mkFill { fsymbol : string; fside : Z; fqty : Z; fprice : Z }.

Definition apply_fills (re : RiskEngine) (fs : list fill) : RiskEngine :=
  foldl (fun re f => UpdatePosition re (fsymbol f) (fside f) (fqty f) (fprice f)) re fs.

Definition signed (f : fill) : Z := if fside f =? SideBuy then fqty f else - fqty f.

Definition for_symbol (symbol : string) (fs : list fill) : list fill :=
  List.filter (fun f => bool_decide (fsymbol f = symbol)) fs.

Definition net (fs : list fill) : Z := sumZ (map signed fs).

Definition volume (fs : list fill) : Z := sumZ (map fqty fs).

Lemma GetPosition_Update re symbol side qty price k :
  GetPosition (UpdatePosition re symbol side qty price) k =
  if bool_decide (symbol = k)
  then (if side =? SideBuy then buy (GetPosition re k) qty price else sell (GetPosition re k) qty price)
  else GetPosition re k.
Proof.
  unfold UpdatePosition, GetPosition, getOrCreatePosition. case_bool_decide as E.
  - subst k. destruct (positions re !! symbol) as [p|] eqn:Ep; cbn; rewrite lookup_insert_eq; [|by rewrite ?Ep].
    by rewrite ?Ep.
  - destruct (positions re !! symbol) as [p|] eqn:Ep; cbn; by rewrite ?lookup_insert_ne by done.
Qed.

Lemma for_symbol_snoc symbol fs f :
  for_symbol symbol (fs ++ [f]) = for_symbol symbol fs ++ (if bool_decide (fsymbol f = symbol) then [f] else []).
Proof. unfold for_symbol. rewrite List.filter_app. done. Qed.

Lemma net_volume fs : Forall (fun f => 0 <= fqty f) fs -> - volume fs <= net fs <= volume fs.
Proof.
  unfold net, volume. induction 1 as [|f fs Hf _ IH]; [done|]. cbn [map]. unfold sumZ in *. cbn [foldr].
  assert (Hs : signed f = fqty f \/ signed f = - fqty f) by (unfold signed; destruct (_ =? _); auto). lia.
Qed.

(** C36. Whatever fills arrive for whatever symbols, the position of a symbol is the
    net of its fills, and while it is open its average price lies between the
    lowest and the highest price traded: provided the traded volume times the
    highest price fits in 64 bits. *)
Theorem position_tracks_fills (fs : list fill) (symbol : string) (l : option RiskLimits) (lo hi : Z) :
  0 <= lo -> Forall (fun f => 0 <= fqty f /\ lo <= fprice f <= hi) (for_symbol symbol fs) ->
  volume (for_symbol symbol fs) * hi <= max_i64 -> volume (for_symbol symbol fs) <= max_i64 ->
  let p := GetPosition (apply_fills (NewRiskEngine l) fs) symbol in
  PQuantity p = net (for_symbol symbol fs) /\ (PQuantity p <> 0 -> lo <= AvgPrice p <= hi).
Proof.
  intros Hlo. cbn zeta. unfold apply_fills. induction fs as [|f fs IH] using rev_ind; [done|].
  rewrite foldl_app. cbn [foldl]. rewrite GetPosition_Update, for_symbol_snoc. case_bool_decide as E; [|by rewrite app_nil_r].
  unfold net, volume in *. rewrite !map_app, !sumZ_app, Forall_app. cbn [map sumZ foldr]. intros [Hf Hf1] HV HV'.
  inversion Hf1 as [|? ? [Hq Hpr] _]; subst.
  assert (Hhi : 0 <= hi) by lia.
  assert (Hfq : Forall (fun f => 0 <= fqty f) (for_symbol (fsymbol f) fs)) by (eapply Forall_impl; [exact Hf|]; naive_solver).
  assert (Hv : 0 <= sumZ (map fqty (for_symbol (fsymbol f) fs))) by (apply sumZ_nonneg, Forall_map; exact Hfq).
  destruct (IH Hf ltac:(nia) ltac:(lia)) as [Hnet Havg].
  pose proof (net_volume _ Hfq) as Hnv. unfold net, volume in Hnv.
  unfold signed at 2. destruct (fside f =? SideBuy).
  - destruct (buy_spec lo hi Hlo (GetPosition (foldl (fun re f => UpdatePosition re (fsymbol f) (fside f) (fqty f) (fprice f))
      (NewRiskEngine l) fs) (fsymbol f)) (fqty f) (fprice f) (sumZ (map fqty (for_symbol (fsymbol f) fs)))) as [Hb Hav];
      [lia|lia|lia|nia|lia|exact Havg|]. rewrite Hb. split; [lia|]. rewrite <- Hb. exact Hav.
  - destruct (sell_spec lo hi Hlo (GetPosition (foldl (fun re f => UpdatePosition re (fsymbol f) (fside f) (fqty f) (fprice f))
      (NewRiskEngine l) fs) (fsymbol f)) (fqty f) (fprice f) (sumZ (map fqty (for_symbol (fsymbol f) fs)))) as [Hb Hav];
      [lia|lia|lia|nia|lia|exact Havg|]. rewrite Hb. split; [lia|]. rewrite <- Hb. exact Hav.
Qed.

Lemma position_tracks_fills_witness :
  let fs := [mkFill "A" 0 10 100; mkFill "B" 1 5 900; mkFill "A" 1 15 120; mkFill "A" 0 2 110] in
  PQuantity (GetPosition (apply_fills (NewRiskEngine None) fs) "A") = -3 /\
  AvgPrice (GetPosition (apply_fills (NewRiskEngine None) fs) "A") = 120.
Proof.
  cbn zeta.
  destruct (position_tracks_fills [mkFill "A" 0 10 100; mkFill "B" 1 5 900; mkFill "A" 1 15 120; mkFill "A" 0 2 110]
    "A" None 100 120) as [H _]; [lia|vm_compute; repeat constructor; done|vm_compute; done|vm_compute; done|].
  split; [rewrite H; reflexivity|vm_compute; reflexivity].
Defined.

(** ** Checks *)

Lemma abs64_small z : min_i64 < z <= max_i64 -> abs64 z = Z.abs z.
Proof. intros Hz. unfold abs64. destruct (Z.ltb_spec z 0); [rewrite i64_id by (widths; lia)|]; lia. Qed.

Lemma getOrCreate_GetPosition re symbol :
  (getOrCreatePosition re symbol).2 = GetPosition re symbol /\
  limits (getOrCreatePosition re symbol).1 = limits re /\
  forall k, GetPosition (getOrCreatePosition re symbol).1 k = GetPosition re k.
Proof.
  unfold getOrCreatePosition, GetPosition. destruct (positions re !! symbol) as [p|] eqn:E; cbn; [done|].
  split; [done|]. split; [done|]. intros k. destruct (decide (symbol = k)) as [<-|Hne].
  - by rewrite lookup_insert_eq, E.
  - by rewrite lookup_insert_ne.
Qed.

(** An order that passes the checks respects the order size, notional and, for a
    limit order with a market price, the price deviation limits, and its complete
    fill, at whatever price, leaves the position within the position limit. *)
Theorem accepted_order_keeps_the_limits (re : RiskEngine) (o : Order) (marketPrice price : Z) :
  (CheckOrder re o marketPrice).2 = None -> 0 <= Quantity o ->
  min_i64 < PQuantity (GetPosition re (Symbol o)) - Quantity o -> PQuantity (GetPosition re (Symbol o)) + Quantity o <= max_i64 ->
  Quantity o <= MaxOrderSize (limits re) /\
  scaled (Quantity o) (Price o) <= MaxNotionalPerOrder (limits re) /\
  (Type_ o = OrderTypeLimit -> 0 < marketPrice -> deviation_ok (limits re) (Price o) marketPrice = true) /\
  Z.abs (PQuantity (GetPosition (UpdatePosition (CheckOrder re o marketPrice).1 (Symbol o) (Side o) (Quantity o) price) (Symbol o)))
    <= MaxPositionPerSymbol (limits re).
Proof.
  unfold CheckOrder, check_body. intros Hc Hq Hmin Hmax.
  destruct (Z.ltb_spec (MaxOrderSize (limits re)) (Quantity o)) as [|H1]; [done|].
  destruct (Z.ltb_spec (MaxNotionalPerOrder (limits re)) (scaled (Quantity o) (Price o))) as [|H2]; [done|].
  destruct (getOrCreate_GetPosition re (Symbol o)) as (Ep & El & Eg). unfold checkPositionLimit in *.
  destruct (getOrCreatePosition re (Symbol o)) as [re1 pos]. cbn [fst snd] in *. subst pos. rewrite El in *.
  destruct (Z.ltb_spec (MaxPositionPerSymbol (limits re)) (abs64 (if Side o =? SideBuy
    then PQuantity (GetPosition re (Symbol o)) +i64 Quantity o else PQuantity (GetPosition re (Symbol o)) -i64 Quantity o))) as [|H3]; [done|].
  cbn [negb] in *. destruct (_ && negb (deviation_ok _ _ _)) eqn:Ed; [done|].
  destruct (negb (checkNotionalExposure re1 o)); [done|]. clear Hc. split; [done|]. split; [done|]. split.
  { intros Et Hm. rewrite Et, Z.eqb_refl in Ed. destruct (Z.ltb_spec 0 marketPrice); [|lia]. cbn in Ed. by apply negb_false_iff in Ed. }
  cbn [fst]. rewrite GetPosition_Update, bool_decide_true by done.
  change (GetPosition (mkEngine _ _ _ _ _) (Symbol o)) with (GetPosition re1 (Symbol o)). rewrite Eg.
  destruct (Side o =? SideBuy).
  - rewrite i64_id in H3 by (widths; lia). rewrite abs64_small in H3 by (widths; lia).
    rewrite (buy_quantity _ (Quantity o) price); [done|lia|widths; lia|done].
  - rewrite i64_id in H3 by (widths; lia). rewrite abs64_small in H3 by (widths; lia).
    rewrite (sell_quantity _ (Quantity o) price); [done|lia|widths; lia|done].
Qed.

Definition demo_order (side qty price : Z) : Order := mkOrder 1 "A" side 0 price qty.

Lemma accepted_order_keeps_the_limits_witness :
  let o := demo_order 0 5000 (2 * E8) in
  (CheckOrder (NewRiskEngine None) o (2 * E8)).2 = None /\ Quantity o <= MaxOrderSize DefaultRiskLimits.
Proof.
  cbn zeta. split; [vm_compute; reflexivity|].
  refine (proj1 (accepted_order_keeps_the_limits (NewRiskEngine None) (demo_order 0 5000 (2 * E8)) (2 * E8) 0 _ _ _ _));
    vm_compute; done.
Defined.

(** ** Violations *)

Definition add_all (vs : list RiskViolation) : ViolationRing := foldl Add (mkViolations ∅ 0) vs.

Lemma add_all_spec vs :
  Z.of_nat (length vs) < 2 ^ 64 ->
  index (add_all vs) = Z.of_nat (length vs) /\
  forall i v, vs !! i = Some v -> Z.of_nat (length vs) - ring_len < Z.of_nat i + 1 ->
    violations (add_all vs) !! ((Z.of_nat i + 1) mod ring_len) = Some v.
Proof.
  unfold add_all. induction vs as [|v vs IH] using rev_ind; intros Hl; [done|].
  rewrite foldl_app. cbn [foldl]. rewrite length_app in *. cbn [length] in *.
  destruct IH as [Hi Hv]; [lia|]. set (vr := foldl Add _ vs) in *. clearbody vr. unfold Add. rewrite Hi.
  assert (Hu : u64 (Z.of_nat (length vs) + 1) = Z.of_nat (length vs) + 1) by (unfold u64; apply Z.mod_small; lia).
  rewrite Hu. cbn. split; [lia|]. intros i w Hw Hr. destruct (decide (i = length vs)) as [->|Hne].
  - rewrite lookup_app_r, Nat.sub_diag in Hw by lia. cbn in Hw. injection Hw as <-. apply lookup_insert_eq.
  - assert (Hlt : (i < length vs)%nat).
    { apply lookup_lt_Some in Hw. rewrite length_app in Hw. cbn in Hw. lia. }
    rewrite lookup_app_l in Hw by done. rewrite lookup_insert_ne; [apply Hv; [done|lia]|].
    unfold ring_len in *. intros E. pose proof (Z.div_mod (Z.of_nat (length vs) + 1) 1000 ltac:(lia)).
    pose proof (Z.div_mod (Z.of_nat i + 1) 1000 ltac:(lia)). lia.
Qed.

Lemma recent_loop_spec vs : Z.of_nat (length vs) < 2 ^ 64 -> forall k i,
  (i + k <= length vs)%nat -> Z.of_nat (i + k) <= ring_len ->
  recent_loop (add_all vs) k (Z.of_nat i) = take k (drop i (rev vs)).
Proof.
  intros Hl. destruct (add_all_spec vs Hl) as [Hi Hv]. induction k as [|k IH]; intros i Hk Hr; cbn [recent_loop take]; [done|].
  destruct (lookup_lt_is_Some_2 vs (length vs - S i)) as [v Ev]; [lia|].
  assert (Hrev : rev vs !! i = Some v).
  { rewrite rev_alt. change (rev_append vs []) with (reverse vs). by rewrite reverse_lookup by lia. }
  rewrite Hi. replace (u64 (Z.of_nat (length vs) - Z.of_nat i)) with (Z.of_nat (length vs - S i) + 1).
  2: { unfold u64. rewrite Z.mod_small; lia. }
  rewrite (Hv _ _ Ev) by (unfold ring_len in *; lia). rewrite (drop_S _ _ _ Hrev). cbn [take]. f_equal.
  replace (Z.of_nat i + 1) with (Z.of_nat (S i)) by lia. apply IH; lia.
Qed.

(** [GetRecent] returns the last violations recorded, newest first, as long as no
    more are asked for than were recorded. *)
Theorem GetRecent_spec (vs : list RiskViolation) (n : nat) :
  Z.of_nat (length vs) < 2 ^ 64 -> (n <= length vs)%nat -> Z.of_nat n <= ring_len ->
  GetRecent (add_all vs) (Z.of_nat n) = Ret (take n (rev vs)).
Proof.
  intros Hl Hn Hr. unfold GetRecent. destruct (Z.ltb_spec ring_len (Z.of_nat n)); [lia|].
  destruct (Z.ltb_spec (Z.of_nat n) 0); [lia|]. f_equal. rewrite Nat2Z.id. by apply (recent_loop_spec vs Hl n 0).
Qed.

Definition demo_violations (n : nat) : list RiskViolation :=
  map (fun k => mkViolation (Z.of_nat k) "A" ViolationRateLimit) (seq 1 n).

Lemma GetRecent_spec_witness :
  GetRecent (add_all (demo_violations 5)) 2 = Ret (take 2 (rev (demo_violations 5))).
Proof. apply (GetRecent_spec (demo_violations 5) 2); vm_compute; [done|lia|done]. Defined.

(** ** Where the engine falls short *)

(** Asked for more than were recorded, the position of the ring wraps through
    2^64, which is no multiple of 1000: with 700 violations recorded and 1000
    asked for, 999 come back, 299 of them for the second time. *)
Example GetRecent_repeats :
  match GetRecent (add_all (demo_violations 700)) 1000 with
  | Ret l => length l = 999%nat
  | Panic => False
  end.
Proof. vm_compute. reflexivity. Qed.

(** The notional wraps around in 64 bits: an order for 10000 units at a price of
    9,223,372.04 has a negative notional and passes every check of an order whose
    deviation is not checked. *)
Example notional_overflow_passes :
  let o := demo_order 0 10000 922337204000000 in
  MaxNotionalPerOrder DefaultRiskLimits < 10000 * 922337204000000 / E8 /\
  scaled (Quantity o) (Price o) < 0 /\ (CheckOrder (NewRiskEngine None) o 0).2 = None.
Proof. vm_compute. done. Qed.

(** Checks reserve nothing: two orders that pass one after the other take the
    position past its limit when both are filled. *)
Example two_accepted_orders_break_the_limit :
  let l := mkLimits 100 10000000 100 100 1000 (f64 1) 100000000 (f64 1) in
  let o := demo_order 0 60 E8 in
  let re1 := (CheckOrder (NewRiskEngine (Some l)) o E8).1 in
  let re2 := (CheckOrder re1 o E8).1 in
  (CheckOrder (NewRiskEngine (Some l)) o E8).2 = None /\ (CheckOrder re1 o E8).2 = None /\
  MaxPositionPerSymbol l < PQuantity (GetPosition (UpdatePosition (UpdatePosition re2 "A" 0 60 E8) "A" 0 60 E8) "A").
Proof. vm_compute. done. Qed.

(** Only the part of a fill that opens a position is counted as bought or sold. *)
Example covering_is_not_counted :
  let re := UpdatePosition (UpdatePosition (NewRiskEngine None) "A" 1 10 E8) "A" 0 10 E8 in
  PQuantity (GetPosition re "A") = 0 /\ TotalSold (GetPosition re "A") = 10 /\ TotalBought (GetPosition re "A") = 0.
Proof. vm_compute. done. Qed.

(** Whatever number of orders arrives, none is refused for its rate or for the
    concentration of a symbol: the code has no such check. *)
Lemma no_rate_check re o mp :
  (CheckOrder re o mp).2 <> Some ViolationRateLimit /\ (CheckOrder re o mp).2 <> Some ViolationConcentration.
Proof. unfold CheckOrder, check_body, checkPositionLimit, reject. by repeat (case_match; simplify_eq/=). Qed.
