(* ===== verification/Approval.v ===== *)
(** * Two-person approvals (apps/postgres-demo/services/approval_service.go)

    Requests that two people other than the requester have to approve.  Every call
    is the sequence of its accesses to the database, and calls overlap in any
    order: [Approve] reads the request and checks it, and later, in one
    serializable transaction, reads it again and records the approval; [Reject]
    reads, checks and updates; expiry is one update.  A fault of the database
    makes the call return an error without a change and is a call that stops
    moving.  The JSON payloads and the metadata are left out; times are integers
    and every reading of the clock an argument. *)
From S2P Require Import Prelude.

Inductive ApprovalStatus : Type :=
| ApprovalStatusPending
| ApprovalStatusApproved
| ApprovalStatusRejected
| ApprovalStatusExpired
| ApprovalStatusCancelled.

#[export] Instance ApprovalStatus_eq_dec : EqDecision ApprovalStatus.
Proof. solve_decision. Defined.

(** A row of the table approvals. *)
Record Approval : Type := mkApproval {
  Status : ApprovalStatus;
  RequestedBy : string;
  ApprovedByFirst : option string;
  ApprovedBySecond : option string;
  RejectedBy : option string;
  ExpiresAt : option Z;
  ApprovedAt : option Z
}.

Inductive approval_error : Type :=
| ErrNotFound
| ErrAlreadyApproved
| ErrAlreadyRejected
| ErrExpired
| ErrOwnRequest
| ErrSameApprover
| ErrStatusChanged
| ErrTwoApprovers
| ErrAlreadyProcessed.

(** ** The database operations *)

Definition day : Z := 24 * 3600 * 1000000000.

(** [CreateApproval]: the row inserted; a missing expiry is a day from now. *)
Definition CreateApproval (table : list Approval) (requestedBy : string) (expiresAt : option Z) (now : Z)
    : list Approval * nat :=
  let e := match expiresAt with Some e => e | None => now + day end in
  (table ++ [mkApproval ApprovalStatusPending requestedBy None None None (Some e) None], length table).

Definition GetApproval (table : list Approval) (id : nat) : result approval_error Approval :=
  match table !! id with Some a => Ok a | None => Err ErrNotFound end.

(** The checks of [Approve] and [Reject] on the status they read. *)
Definition check_open (a : Approval) : result approval_error unit :=
  match Status a with
  | ApprovalStatusApproved => Err ErrAlreadyApproved
  | ApprovalStatusRejected => Err ErrAlreadyRejected
  | ApprovalStatusExpired => Err ErrExpired
  | _ => Ok tt
  end.

(** [Approve] before its transaction. *)
Definition approve_check (a : Approval) (by_ : string) : result approval_error unit :=
  match check_open a with
  | Err e => Err e
  | Ok _ =>
      if String.eqb (RequestedBy a) by_ then Err ErrOwnRequest
      else if bool_decide (ApprovedByFirst a = Some by_) then Err ErrSameApprover
      else if bool_decide (ApprovedBySecond a = Some by_) then Err ErrSameApprover
      else Ok tt
  end.

Definition record_first (a : Approval) (by_ : string) : Approval :=
  mkApproval (Status a) (RequestedBy a) (Some by_) (ApprovedBySecond a) (RejectedBy a) (ExpiresAt a) (ApprovedAt a).

Definition record_second (a : Approval) (by_ : string) (now : Z) : Approval :=
  mkApproval ApprovalStatusApproved (RequestedBy a) (ApprovedByFirst a) (Some by_) (RejectedBy a) (ExpiresAt a) (Some now).

(** The transaction of [Approve]: the row is locked and read again. *)
Definition approve_tx (table : list Approval) (id : nat) (by_ : string) (now : Z) : result approval_error (list Approval) :=
  match table !! id with
  | None => Err ErrNotFound
  | Some a =>
      if negb (bool_decide (Status a = ApprovalStatusPending)) then Err ErrStatusChanged
      else match ApprovedByFirst a, ApprovedBySecond a with
           | None, _ => Ok (<[id := record_first a by_]> table)
           | Some _, None => Ok (<[id := record_second a by_ now]> table)
           | Some _, Some _ => Err ErrTwoApprovers
           end
  end.

Definition reject_check (a : Approval) (by_ : string) : result approval_error unit :=
  match check_open a with
  | Err e => Err e
  | Ok _ => if String.eqb (RequestedBy a) by_ then Err ErrOwnRequest else Ok tt
  end.

Definition record_rejection (a : Approval) (by_ : string) : Approval :=
  mkApproval ApprovalStatusRejected (RequestedBy a) (ApprovedByFirst a) (ApprovedBySecond a) (Some by_) (ExpiresAt a) (ApprovedAt a).

(** The update of [Reject], guarded by the status. *)
Definition reject_update (table : list Approval) (id : nat) (by_ : string) : result approval_error (list Approval) :=
  match table !! id with
  | Some a =>
      if bool_decide (Status a = ApprovalStatusPending) then Ok (<[id := record_rejection a by_]> table)
      else Err ErrAlreadyProcessed
  | None => Err ErrAlreadyProcessed
  end.

Definition expired (now : Z) (a : Approval) : bool :=
  bool_decide (Status a = ApprovalStatusPending) && match ExpiresAt a with Some e => e <=? now | None => false end.

Definition mark_expired (a : Approval) : Approval :=
  mkApproval ApprovalStatusExpired (RequestedBy a) (ApprovedByFirst a) (ApprovedBySecond a) (RejectedBy a) (ExpiresAt a) (ApprovedAt a).

(** The update and the number of rows it changed. *)
Definition ExpirePendingApprovals (table : list Approval) (now : Z) : list Approval * nat :=
  ((fun a => if expired now a then mark_expired a else a) <$> table, length (filter (fun a => expired now a = true) table)).

(** The requests [GetPendingApprovals] lists, without its type filter and order. *)
Definition pending_listed (now : Z) (a : Approval) : bool :=
  bool_decide (Status a = ApprovalStatusPending) && match ExpiresAt a with Some e => now <? e | None => true end.

(** A call on its own. *)
Definition Approve (table : list Approval) (id : nat) (by_ : string) (now : Z) : result approval_error (list Approval) :=
  match GetApproval table id with
  | Err e => Err e
  | Ok a => match approve_check a by_ with Err e => Err e | Ok _ => approve_tx table id by_ now end
  end.

Definition Reject (table : list Approval) (id : nat) (by_ : string) : result approval_error (list Approval) :=
  match GetApproval table id with
  | Err e => Err e
  | Ok a => match reject_check a by_ with Err e => Err e | Ok _ => reject_update table id by_ end
  end.

(** ** Overlapping calls *)

Inductive call : Type :=
| Approving (id : nat) (by_ : string)         (** before the read *)
| Checked (id : nat) (by_ : string)           (** before the transaction *)
| Rejecting (id : nat) (by_ : string)
| RejectChecked (id : nat) (by_ : string)
| ApproveDone (id : nat) (by_ : string)
| RejectDone (id : nat) (by_ : string)
| Returned (e : approval_error).

Record system : Type := mkSystem { table : list Approval; calls : list call }.

Inductive action : Type :=
| Create (by_ : string) (expiresAt : option Z) (now : Z)
| Move (k : nat) (now : Z)
| Expire (now : Z).

Definition move (t : list Approval) (c : call) (now : Z) : list Approval * call :=
  match c with
  | Approving id by_ =>
      match GetApproval t id with
      | Err e => (t, Returned e)
      | Ok a => match approve_check a by_ with Ok _ => (t, Checked id by_) | Err e => (t, Returned e) end
      end
  | Checked id by_ =>
      match approve_tx t id by_ now with Ok t' => (t', ApproveDone id by_) | Err e => (t, Returned e) end
  | Rejecting id by_ =>
      match GetApproval t id with
      | Err e => (t, Returned e)
      | Ok a => match reject_check a by_ with Ok _ => (t, RejectChecked id by_) | Err e => (t, Returned e) end
      end
  | RejectChecked id by_ =>
      match reject_update t id by_ with Ok t' => (t', RejectDone id by_) | Err e => (t, Returned e) end
  | c => (t, c)
  end.

Definition astep (s : system) (a : action) : system :=
  match a with
  | Create by_ e now => mkSystem (CreateApproval (table s) by_ e now).1 (calls s)
  | Move k now =>
      match calls s !! k with
      | Some c => let '(t, c') := move (table s) c now in mkSystem t (<[k := c']> (calls s))
      | None => s
      end
  | Expire now => mkSystem (ExpirePendingApprovals (table s) now).1 (calls s)
  end.

Definition run (s : system) (acts : list action) : system := fold_left astep acts s.

(** Whole calls one after another. *)
Inductive op : Type :=
| OpCreate (by_ : string) (expiresAt : option Z) (now : Z)
| OpApprove (id : nat) (by_ : string) (now : Z)
| OpReject (id : nat) (by_ : string)
| OpExpire (now : Z).

Definition or_else (t : list Approval) (r : result approval_error (list Approval)) : list Approval :=
  match r with Ok t' => t' | Err _ => t end.

Definition apply_op (t : list Approval) (o : op) : list Approval :=
  match o with
  | OpCreate by_ e now => (CreateApproval t by_ e now).1
  | OpApprove id by_ now => or_else t (Approve t id by_ now)
  | OpReject id by_ => or_else t (Reject t id by_)
  | OpExpire now => (ExpirePendingApprovals t now).1
  end.

(** ** One row *)

(** How one operation of the database may change a row. *)
Inductive row_step : Approval -> Approval -> Prop :=
| row_same a : row_step a a
| row_first a u : Status a = ApprovalStatusPending -> ApprovedByFirst a = None -> row_step a (record_first a u)
| row_second a u now :
    Status a = ApprovalStatusPending -> is_Some (ApprovedByFirst a) -> ApprovedBySecond a = None ->
    row_step a (record_second a u now)
| row_rejected a u : Status a = ApprovalStatusPending -> row_step a (record_rejection a u)
| row_expired a : Status a = ApprovalStatusPending -> row_step a (mark_expired a).

(** A row in the states the calls leave it in. *)
Definition row_ok (a : Approval) : Prop :=
  (is_Some (ApprovedBySecond a) <-> Status a = ApprovalStatusApproved)
  /\ (is_Some (ApprovedBySecond a) -> is_Some (ApprovedByFirst a)).

Lemma row_step_ok (a b : Approval) : row_ok a -> row_step a b -> row_ok b.
Proof.
  intros Hok Hst. revert Hok. unfold row_ok, is_Some.
  destruct Hst as [x|x u Hs Hf|x u now Hs Hf Hn|x u Hs|x Hs]; simpl; [done|rewrite Hs in *; naive_solver..].
Qed.

Lemma row_step_final (a b : Approval) : row_step a b -> Status a <> ApprovalStatusPending -> b = a.
Proof. by intros []. Qed.

Lemma row_step_requester (a b : Approval) : row_step a b -> RequestedBy b = RequestedBy a.
Proof. by intros []. Qed.

(** A row of a new table comes from the row of the old one, or was created. *)
Definition table_step (t t' : list Approval) : Prop :=
  forall id b, t' !! id = Some b ->
    (exists a, t !! id = Some a /\ row_step a b)
    \/ (exists by_ e, t !! id = None /\ b = mkApproval ApprovalStatusPending by_ None None None e None).

Lemma table_step_refl (t : list Approval) : table_step t t.
Proof. intros id b H. left. exists b. split; [done|apply row_same]. Qed.

Lemma table_step_insert (t : list Approval) (id : nat) (a b : Approval) :
  t !! id = Some a -> row_step a b -> table_step t (<[id := b]> t).
Proof.
  intros Ha Hs i c Hc. apply list_lookup_insert_Some in Hc as [(-> & -> & _)|[_ Hc]]; left; eauto.
  exists c. split; [done|apply row_same].
Qed.

Lemma create_step (t : list Approval) (by_ : string) (e : option Z) (now : Z) : table_step t (CreateApproval t by_ e now).1.
Proof.
  intros id b Hb. simpl in Hb. apply lookup_app_Some in Hb as [Hb|[Hl Hb]].
  - left. exists b. split; [done|apply row_same].
  - apply list_lookup_singleton_Some in Hb as [Hb <-]. right. eexists _, _. split; [|done]. apply lookup_ge_None. lia.
Qed.

Lemma approve_tx_step (t t' : list Approval) (id : nat) (u : string) (now : Z) :
  approve_tx t id u now = Ok t' -> table_step t t'.
Proof.
  unfold approve_tx. destruct (t !! id) as [a|] eqn:E; [|done]. case_bool_decide as Hs; simpl; [|done].
  destruct (ApprovedByFirst a) eqn:E1, (ApprovedBySecond a) eqn:E2; intros; simplify_eq; eapply table_step_insert; eauto; constructor; eauto.
Qed.

Lemma reject_update_step (t t' : list Approval) (id : nat) (u : string) :
  reject_update t id u = Ok t' -> table_step t t'.
Proof.
  unfold reject_update. destruct (t !! id) as [a|] eqn:E; [|done]. case_bool_decide; [|done]. intros; simplify_eq.
  eapply table_step_insert; eauto. by constructor.
Qed.

Lemma expire_step (t : list Approval) (now : Z) : table_step t (ExpirePendingApprovals t now).1.
Proof.
  intros id b Hb. simpl in Hb. rewrite list_lookup_fmap in Hb. destruct (t !! id) as [a|] eqn:E; simplify_eq/=.
  left. exists a. split; [done|]. destruct (expired now a) eqn:Ee; [|apply row_same]. apply row_expired.
  unfold expired in Ee. apply andb_true_iff in Ee as [Ee _]. by apply bool_decide_eq_true in Ee.
Qed.

Lemma move_step (t : list Approval) (c : call) (now : Z) : table_step t (move t c now).1.
Proof.
  destruct c; simpl; repeat case_match; try apply table_step_refl; [by eapply approve_tx_step|by eapply reject_update_step].
Qed.

Lemma astep_table (s : system) (a : action) : table_step (table s) (table (astep s a)).
Proof.
  destruct a as [by_ e now|k now|now]; simpl; [apply create_step| |apply expire_step].
  destruct (calls s !! k) as [c|]; [|apply table_step_refl]. pose proof (move_step (table s) c now) as H.
  by destruct (move (table s) c now).
Qed.

(** ** Overlapping calls: two approvals by people other than the requester *)

Definition approver_of (c : call) : option (nat * string) :=
  match c with
  | Approving id u | Checked id u | ApproveDone id u => Some (id, u)
  | _ => None
  end.

(** Who is recorded, and by which calls. *)
Definition recorded (s : system) (id : nat) (a : Approval) : Prop :=
  (forall u, ApprovedByFirst a = Some u -> u <> RequestedBy a /\ exists k, calls s !! k = Some (ApproveDone id u))
  /\ (forall u v, ApprovedByFirst a = Some u -> ApprovedBySecond a = Some v ->
        v <> RequestedBy a /\ exists k k', k <> k' /\ calls s !! k = Some (ApproveDone id u) /\ calls s !! k' = Some (ApproveDone id v)).

Definition sound (cs : list call) (s : system) : Prop :=
  (forall id a, table s !! id = Some a -> row_ok a /\ recorded s id a)
  /\ (forall k id u, calls s !! k = Some (Checked id u) -> exists a, table s !! id = Some a /\ u <> RequestedBy a)
  /\ (forall k c id u, calls s !! k = Some c -> approver_of c = Some (id, u) -> cs !! k = Some (Approving id u)).

(** The row of a checked call keeps its requester. *)
Lemma checked_kept (t t' : list Approval) (id : nat) (u : string) :
  table_step t t' -> (length t <= length t')%nat ->
  (exists a, t !! id = Some a /\ u <> RequestedBy a) -> exists a, t' !! id = Some a /\ u <> RequestedBy a.
Proof.
  intros Ht Hl (a & Ha & Hne). destruct (t' !! id) as [b|] eqn:Eb.
  - exists b. split; [done|]. destruct (Ht id b Eb) as [(a' & Ha' & Hs)|(?&?&?&_)]; simplify_eq.
    by rewrite (row_step_requester _ _ Hs).
  - apply lookup_ge_None in Eb. apply lookup_lt_Some in Ha. lia.
Qed.

Lemma move_length (t : list Approval) (c : call) (now : Z) : length (move t c now).1 = length t.
Proof.
  destruct c; simpl; repeat case_match; simpl; try done; unfold approve_tx, reject_update in *;
    repeat case_match; simplify_eq; by rewrite length_insert.
Qed.

(** A record stays justified when calls that are done stay done. *)
Lemma recorded_kept (s s' : system) (id : nat) (a : Approval) :
  (forall k u, calls s !! k = Some (ApproveDone id u) -> calls s' !! k = Some (ApproveDone id u)) ->
  recorded s id a -> recorded s' id a.
Proof.
  intros Hk [H1 H2]. split.
  - intros u Hu. destruct (H1 u Hu) as (? & k & ?). eauto.
  - intros u v Hu Hv. destruct (H2 u v Hu Hv) as (? & k & k' & ? & ? & ?). eauto 10.
Qed.

Lemma recorded_same (s : system) (id : nat) (a b : Approval) :
  RequestedBy b = RequestedBy a -> ApprovedByFirst b = ApprovedByFirst a -> ApprovedBySecond b = ApprovedBySecond a ->
  recorded s id a -> recorded s id b.
Proof. unfold recorded. intros -> -> ->. done. Qed.

Lemma sound_quiet (cs : list call) (s : system) (t : list Approval) :
  sound cs s -> table_step (table s) t -> (length (table s) <= length t)%nat ->
  (forall id a b, table s !! id = Some a -> t !! id = Some b ->
     ApprovedByFirst b = ApprovedByFirst a /\ ApprovedBySecond b = ApprovedBySecond a) ->
  sound cs (mkSystem t (calls s)).
Proof.
  intros (Hr & Hc & Ho) Ht Hl Hq. split; [|split; [|done]]; simpl.
  - intros id b Hb. destruct (Ht id b Hb) as [(a & Ha & Hs)|(u & e & _ & ->)].
    + destruct (Hr id a Ha) as [Hok Hrec]. split; [by eapply row_step_ok|]. destruct (Hq id a b Ha Hb) as [E1 E2].
      eapply recorded_kept, (recorded_same s id a b); eauto using row_step_requester.
    + split; [unfold row_ok, is_Some; naive_solver|]. by split.
  - intros k id u Hk. eapply checked_kept; eauto.
Qed.

(** The call that moved is not one that was done. *)
Lemma done_kept (cs : list call) (k i id : nat) (c c' : call) (u : string) :
  cs !! k = Some c -> (forall x, c <> ApproveDone id x) ->
  cs !! i = Some (ApproveDone id u) -> <[k := c']> cs !! i = Some (ApproveDone id u).
Proof. intros Hk Hn Hi. rewrite list_lookup_insert_ne; [done|]. intros ->. simplify_eq. by apply (Hn u). Qed.

(** Calls that move without touching the approvers. *)
Lemma sound_moved (cs : list call) (s : system) (k : nat) (c c' : call) :
  sound cs s -> calls s !! k = Some c -> (forall id u, c <> ApproveDone id u) ->
  (forall id u, approver_of c' = Some (id, u) -> approver_of c = Some (id, u)) ->
  (forall id u, c' = Checked id u -> exists a, table s !! id = Some a /\ u <> RequestedBy a) ->
  sound cs (mkSystem (table s) (<[k := c']> (calls s))).
Proof.
  intros (Hr & Hc & Ho) Hk Hn Hap Hch. split; [|split]; simpl.
  - intros id a Ha. destruct (Hr id a Ha) as [Hok Hrec]. split; [done|]. eapply recorded_kept; [|done].
    intros i u. apply (done_kept (calls s) k i id c c' u Hk). intros x. apply Hn.
  - intros i id u Hi. apply list_lookup_insert_Some in Hi as [(-> & -> & _)|[_ Hi]]; [by apply Hch|by eapply Hc].
  - intros i d id u Hi Hd. apply list_lookup_insert_Some in Hi as [(-> & -> & _)|[_ Hi]]; eauto.
Qed.

Lemma sound_approved (cs : list call) (s : system) (k id : nat) (u : string) (now : Z) (t : list Approval) :
  sound cs s -> calls s !! k = Some (Checked id u) -> approve_tx (table s) id u now = Ok t ->
  sound cs (mkSystem t (<[k := ApproveDone id u]> (calls s))).
Proof.
  intros (Hr & Hc & Ho) Hk Htx. pose proof (approve_tx_step _ _ _ _ _ Htx) as Hts.
  assert (length t = length (table s)) as Hlen.
  { pose proof (move_length (table s) (Checked id u) now) as H. simpl in H. by rewrite Htx in H. }
  set (cs' := <[k := ApproveDone id u]> (calls s)).
  assert (cs' !! k = Some (ApproveDone id u)) as Hk'.
  { apply list_lookup_insert_eq. by eapply lookup_lt_Some. }
  assert (forall i j x, calls s !! i = Some (ApproveDone j x) -> i <> k /\ cs' !! i = Some (ApproveDone j x)) as Hdone.
  { intros i j x Hi. assert (i <> k) by (intros ->; simplify_eq). split; [done|]. unfold cs'. by rewrite list_lookup_insert_ne. }
  split; [|split]; simpl.
  - intros i b Hb. destruct (Hts i b Hb) as [(a & Ha & Hs)|(? & ? & Hnone & ->)].
    2: { split; [unfold row_ok, is_Some; naive_solver|by split]. }
    destruct (Hr i a Ha) as [Hok Hrec]. split; [by eapply row_step_ok|].
    unfold approve_tx in Htx. destruct (table s !! id) as [a0|] eqn:Ea0; [|done]. case_bool_decide as Hp; simpl in Htx; [|done].
    destruct (Hc k id u Hk) as (a1 & Ha1 & Hne). assert (a1 = a0) as -> by congruence.
    destruct (decide (i = id)) as [->|Hni].
    + assert (a = a0) as -> by congruence. destruct Hrec as [H1 H2].
      destruct (ApprovedByFirst a0) as [x|] eqn:E1, (ApprovedBySecond a0) as [y|] eqn:E2; simplify_eq;
        rewrite list_lookup_insert_eq in Hb by (by eapply lookup_lt_Some); simplify_eq; split; simpl; rewrite ?E1, ?E2.
      * intros w Hw. simplify_eq. destruct (H1 w eq_refl) as (? & q & Hq). split; [done|]. exists q. by apply Hdone.
      * intros w v Hw Hv. simplify_eq. split; [done|]. destruct (H1 w eq_refl) as (_ & q & Hq).
        destruct (Hdone _ _ _ Hq) as [Hqk Hq']. exists q, k. auto.
      * intros w Hw. simplify_eq. eauto.
      * intros w v Hw Hv. exfalso. destruct Hok as [_ Hok]. rewrite E1, E2 in Hok. destruct Hok as [? Hok]; [eauto|done].
      * intros w Hw. simplify_eq. eauto.
      * done.
    + eapply (recorded_kept s); [intros q x Hq; by apply Hdone|].
      repeat case_match; simplify_eq; rewrite list_lookup_insert_ne in Hb by done; by simplify_eq.
  - intros i j x Hi. apply list_lookup_insert_Some in Hi as [(-> & [=] & _)|[_ Hi]].
    eapply checked_kept; eauto; lia.
  - intros i d j x Hi Hd. apply list_lookup_insert_Some in Hi as [(-> & <- & _)|[_ Hi]]; [|eauto].
    eapply Ho; [exact Hk|done].
Qed.

Lemma reject_quiet (t t' : list Approval) (j : nat) (u : string) :
  reject_update t j u = Ok t' ->
  length t' = length t /\ forall id a b, t !! id = Some a -> t' !! id = Some b ->
    ApprovedByFirst b = ApprovedByFirst a /\ ApprovedBySecond b = ApprovedBySecond a.
Proof.
  unfold reject_update. destruct (t !! j) as [x|] eqn:E; [|done]. case_bool_decide; [|done]. intros; simplify_eq.
  rewrite length_insert. split; [done|]. intros id a b Ha Hb.
  apply list_lookup_insert_Some in Hb as [(-> & <- & _)|[_ Hb]]; by simplify_eq.
Qed.

Lemma approvals_sound_step (cs : list call) (s : system) (a : action) : sound cs s -> sound cs (astep s a).
Proof.
  intros Hs. destruct a as [u e now|k now|now]; simpl.
  - apply (sound_quiet cs s); [done|apply create_step|rewrite length_app; lia|].
    intros id a b Ha Hb. rewrite lookup_app_l in Hb by (by eapply lookup_lt_Some). by simplify_eq.
  - destruct (calls s !! k) as [c|] eqn:Hk; [|done].
    destruct c as [id u|id u|id u|id u|id u|id u|e]; simpl.
    + destruct (GetApproval (table s) id) as [a|e] eqn:Hg; [|by eapply (sound_moved cs s k (Approving id u))].
      destruct (approve_check a u) as [x|e] eqn:Hch; [|by eapply (sound_moved cs s k (Approving id u))].
      eapply (sound_moved cs s k (Approving id u)); try done. intros ?? [= <- <-]. exists a.
      unfold GetApproval in Hg. destruct (table s !! id); simplify_eq. split; [done|].
      unfold approve_check in Hch. destruct (check_open a); [|done].
      destruct (String.eqb_spec (RequestedBy a) u) as [|Hne]; [done|]. congruence.
    + destruct (approve_tx (table s) id u now) as [t|e] eqn:Ht; [by eapply sound_approved|].
      by eapply (sound_moved cs s k (Checked id u)).
    + destruct (GetApproval (table s) id) as [a|e]; [|by eapply (sound_moved cs s k (Rejecting id u))].
      destruct (reject_check a u); by eapply (sound_moved cs s k (Rejecting id u)).
    + destruct (reject_update (table s) id u) as [t|e] eqn:Ht; [|by eapply (sound_moved cs s k (RejectChecked id u))].
      destruct (reject_quiet _ _ _ _ Ht) as [Hl Hq].
      apply (sound_quiet cs (mkSystem (table s) (<[k := RejectDone id u]> (calls s)))); simpl; [|by eapply reject_update_step|lia|done].
      by eapply (sound_moved cs s k (RejectChecked id u)).
    + rewrite list_insert_id by done. by destruct s.
    + rewrite list_insert_id by done. by destruct s.
    + rewrite list_insert_id by done. by destruct s.
  - apply (sound_quiet cs s); [done|apply expire_step|simpl; rewrite length_fmap; lia|].
    intros id a b Ha Hb. simpl in Hb. rewrite list_lookup_fmap, Ha in Hb. simplify_eq/=. by destruct (expired now a).
Qed.

Definition entering (c : call) : bool := match c with Approving _ _ | Rejecting _ _ => true | _ => false end.

Lemma approvals_sound_run (cs : list call) (acts : list action) :
  forallb entering cs = true -> sound cs (run (mkSystem [] cs) acts).
Proof.
  intros He. assert (sound cs (mkSystem [] cs)) as H.
  { rewrite forallb_forall in He. assert (forall k c, cs !! k = Some c -> entering c = true) as He'.
    { intros k c Hk. apply He, list_elem_of_In. by eapply list_elem_of_lookup_2. }
    split; [done|]. split; simpl.
    - intros k id u Hk. by apply He' in Hk.
    - intros k c id u Hk Hc. pose proof (He' _ _ Hk). by destruct c; simplify_eq/=. }
  revert H. generalize (mkSystem [] cs). induction acts as [|a acts IH]; intros s Hs; [done|]. apply IH. by apply approvals_sound_step.
Qed.

(** C15. However calls overlap: an approved request was approved by two calls of
    Approve by people other than the requester; if nobody called Approve twice for
    it, they are two people. *)
Theorem approved_by_two_calls (cs : list call) (acts : list action) (id : nat) (a : Approval) :
  forallb entering cs = true -> table (run (mkSystem [] cs) acts) !! id = Some a -> Status a = ApprovalStatusApproved ->
  exists u v k k', ApprovedByFirst a = Some u /\ ApprovedBySecond a = Some v
    /\ u <> RequestedBy a /\ v <> RequestedBy a
    /\ k <> k' /\ cs !! k = Some (Approving id u) /\ cs !! k' = Some (Approving id v)
    /\ ((forall i i' w, cs !! i = Some (Approving id w) -> cs !! i' = Some (Approving id w) -> i = i') -> u <> v).
Proof.
  intros He Ha Hap. destruct (approvals_sound_run cs acts He) as (Hr & _ & Ho). destruct (Hr id a Ha) as [[Hok1 Hok2] [H1 H2]].
  destruct (proj2 Hok1 Hap) as [v Hv]. destruct Hok2 as [u Hu]; [eauto|].
  destruct (H1 u Hu) as [Hu' _]. destruct (H2 u v Hu Hv) as (Hv' & k & k' & Hkk & Hk & Hk').
  pose proof (Ho k _ id u Hk eq_refl) as Ek. pose proof (Ho k' _ id v Hk' eq_refl) as Ek'.
  exists u, v, k, k'. repeat (split; [done|]). intros Huniq ->. by apply Hkk, (Huniq k k' v).
Qed.

Lemma run_table (s : system) (acts : list action) (id : nat) (a b : Approval) :
  table s !! id = Some a -> Status a <> ApprovalStatusPending -> table (run s acts) !! id = Some b -> b = a.
Proof.
  revert s. induction acts as [|x acts IH]; simpl; intros s Ha Hs Hb; [congruence|].
  apply (IH (astep s x)); try done.
  destruct (table (astep s x) !! id) as [c|] eqn:Ec.
  - destruct (astep_table s x id c Ec) as [(a' & Ha' & Hst)|(?&?&?&_)]; simplify_eq. by rewrite (row_step_final _ _ Hst Hs).
  - exfalso. apply lookup_ge_None in Ec. apply lookup_lt_Some in Ha.
    assert (length (table s) <= length (table (astep s x)))%nat; [|lia].
    destruct x as [u e now|k now|now]; simpl; [rewrite length_app; lia| |rewrite length_fmap; lia].
    destruct (calls s !! k) as [d|]; [|done]. pose proof (move_length (table s) d now). destruct (move (table s) d now); simpl in *; lia.
Qed.

(** A request that was approved, rejected or expired is never changed again. *)
Theorem decision_is_final (cs : list call) (acts acts' : list action) (id : nat) (a b : Approval) :
  table (run (mkSystem [] cs) acts) !! id = Some a -> Status a <> ApprovalStatusPending ->
  table (run (mkSystem [] cs) (acts ++ acts')) !! id = Some b -> b = a.
Proof. unfold run. rewrite fold_left_app. apply run_table. Qed.

(** ** Calls one after another *)

Definition distinct_approvers (a : Approval) : Prop :=
  row_ok a
  /\ (forall u, ApprovedByFirst a = Some u -> u <> RequestedBy a)
  /\ (forall u v, ApprovedByFirst a = Some u -> ApprovedBySecond a = Some v -> u <> v /\ v <> RequestedBy a).

Lemma approve_distinct (t t' : list Approval) (id : nat) (u : string) (now : Z) :
  Forall distinct_approvers t -> Approve t id u now = Ok t' -> Forall distinct_approvers t'.
Proof.
  intros Ht. unfold Approve, GetApproval, approve_tx. destruct (t !! id) as [a|] eqn:Ea; [|done].
  destruct (approve_check a u) as [x|e] eqn:Hc; [|done]. case_bool_decide as Hs; simpl; [|done].
  pose proof (Forall_lookup_1 _ _ _ _ Ht Ea) as (Hok & H1 & H2).
  assert (u <> RequestedBy a /\ ApprovedByFirst a <> Some u) as [Hu Hf].
  { unfold approve_check in Hc. destruct (check_open a); [|done]. destruct (String.eqb_spec (RequestedBy a) u); [done|].
    case_bool_decide; [done|]. split; congruence. }
  intros H. assert (exists b, t' = <[id := b]> t /\ distinct_approvers b) as (b & -> & Hb); [|by apply Forall_insert].
  destruct (ApprovedByFirst a) as [w|] eqn:E1, (ApprovedBySecond a) as [y|] eqn:E2; simplify_eq; eexists; (split; [done|]);
    (split; [eapply row_step_ok; [exact Hok|first [by apply row_first | by apply row_second; rewrite ?E1]]|]); simpl; rewrite ?E1, ?E2.
  all: split; [intros; simplify_eq; eauto|intros ?? [=] [=]; subst].
  - split; congruence.
  - exfalso. destruct Hok as [_ Hok]. rewrite E1, E2 in Hok. destruct Hok as [? Hok]; [eauto|done].
Qed.

Lemma reject_distinct (t t' : list Approval) (id : nat) (u : string) :
  Forall distinct_approvers t -> reject_update t id u = Ok t' -> Forall distinct_approvers t'.
Proof.
  intros Ht. unfold reject_update. destruct (t !! id) as [a|] eqn:Ea; [|done]. case_bool_decide as Hs; [|done]. intros; simplify_eq.
  apply Forall_insert; [done|]. pose proof (Forall_lookup_1 _ _ _ _ Ht Ea) as (Hok & H1 & H2).
  split; [eapply row_step_ok; [exact Hok|by constructor]|done].
Qed.

Lemma apply_op_distinct (t : list Approval) (o : op) : Forall distinct_approvers t -> Forall distinct_approvers (apply_op t o).
Proof.
  intros Ht. destruct o as [u e now|id u now|id u|now]; simpl.
  - apply Forall_app. split; [done|]. apply Forall_singleton. unfold distinct_approvers, row_ok, is_Some. naive_solver.
  - destruct (Approve t id u now) as [t'|e] eqn:E; simpl; [by eapply approve_distinct|done].
  - unfold Reject. destruct (GetApproval t id) as [a|e]; [|done]. destruct (reject_check a u); [|done].
    destruct (reject_update t id u) as [t'|e] eqn:E; simpl; [by eapply reject_distinct|done].
  - apply Forall_fmap. eapply Forall_impl; [exact Ht|]. intros a Ha. unfold compose.
    destruct (expired now a) eqn:Ee; [|done]. destruct Ha as (Hok & H1 & H2). split; [|done].
    eapply row_step_ok; [exact Hok|]. apply row_expired. unfold expired in Ee. apply andb_true_iff in Ee as [Ee _].
    by apply bool_decide_eq_true in Ee.
Qed.

(** C14. When calls do not overlap, an approved request was approved by two different
    people, neither of whom is the requester. *)
Theorem two_person_rule (ops : list op) (id : nat) (a : Approval) :
  fold_left apply_op ops [] !! id = Some a -> Status a = ApprovalStatusApproved ->
  exists u v, ApprovedByFirst a = Some u /\ ApprovedBySecond a = Some v /\ u <> v
    /\ u <> RequestedBy a /\ v <> RequestedBy a.
Proof.
  intros Ha Hs. assert (forall t, Forall distinct_approvers t -> Forall distinct_approvers (fold_left apply_op ops t)) as H.
  { clear Ha. induction ops as [|o ops IH]; intros t Ht; [done|]. apply IH. by apply apply_op_distinct. }
  specialize (H [] (Forall_nil_2 _)). pose proof (Forall_lookup_1 _ _ _ _ H Ha) as ([Hok1 Hok2] & H1 & H2).
  destruct (proj2 Hok1 Hs) as [v Hv]. destruct Hok2 as [u Hu]; [eauto|]. destruct (H2 u v Hu Hv). exists u, v. eauto 10.
Qed.

Definition two_approvals : list action := [Create "alice" None 0; Move 0 1; Move 0 2; Move 1 3; Move 1 4].

Lemma approved_by_two_calls_witness :
  exists a, table (run (mkSystem [] [Approving 0 "bob"; Approving 0 "carol"]) two_approvals) !! 0%nat = Some a
    /\ exists u v k k', ApprovedByFirst a = Some u /\ ApprovedBySecond a = Some v
    /\ u <> RequestedBy a /\ v <> RequestedBy a
    /\ k <> k' /\ [Approving 0 "bob"; Approving 0 "carol"] !! k = Some (Approving 0 u)
    /\ [Approving 0 "bob"; Approving 0 "carol"] !! k' = Some (Approving 0 v) /\ u <> v.
Proof.
  eexists. split; [vm_compute; reflexivity|].
  destruct (approved_by_two_calls [Approving 0 "bob"; Approving 0 "carol"] two_approvals 0 _ eq_refl eq_refl eq_refl)
    as (u & v & k & k' & H1 & H2 & H3 & H4 & H5 & H6 & H7 & H8).
  exists u, v, k, k'. repeat (split; [assumption|]). apply H8.
  intros [|[|i]] [|[|i']] w; simpl; intros; simplify_eq; reflexivity.
Defined.

Lemma decision_is_final_witness :
  forall b, table (run (mkSystem [] [Approving 0 "bob"; Approving 0 "carol"; Rejecting 0 "dan"])
              (two_approvals ++ [Move 2 5; Move 2 6; Expire (10 * day)])) !! 0%nat = Some b ->
  Status b = ApprovalStatusApproved.
Proof.
  intros b Hb.
  rewrite (decision_is_final [Approving 0 "bob"; Approving 0 "carol"; Rejecting 0 "dan"] two_approvals
    [Move 2 5; Move 2 6; Expire (10 * day)] 0 _ b eq_refl ltac:(discriminate) Hb). reflexivity.
Defined.

Definition three_tries : list op := [OpCreate "alice" None 0; OpApprove 0 "bob" 1; OpApprove 0 "bob" 2; OpApprove 0 "carol" 3].

Lemma two_person_rule_witness :
  exists a, fold_left apply_op three_tries [] !! 0%nat = Some a
    /\ exists u v, ApprovedByFirst a = Some u /\ ApprovedBySecond a = Some v /\ u <> v
    /\ u <> RequestedBy a /\ v <> RequestedBy a.
Proof. eexists. split; [vm_compute; reflexivity|]. exact (two_person_rule three_tries 0 _ eq_refl eq_refl). Defined.

(** Two overlapping calls of one person approve a request: the person is checked
    against the approvers before the transaction, which only looks for a free
    place. *)
Theorem one_person_approves_twice :
  let s := run (mkSystem [] [Approving 0 "bob"; Approving 0 "bob"]) [Create "alice" None 0; Move 0 1; Move 1 2; Move 0 3; Move 1 4] in
  (fun a => (Status a, ApprovedByFirst a, ApprovedBySecond a)) <$> table s
  = [(ApprovalStatusApproved, Some "bob", Some "bob")].
Proof. vm_compute. reflexivity. Qed.

(** A request whose time is over, and which is no longer listed as pending, is
    approved all the same as long as no expiry has run. *)
Theorem late_approval_accepted :
  let t := (CreateApproval [] "alice" (Some 10) 0).1 in
  let t' := fold_left apply_op [OpApprove 0 "bob" 100; OpApprove 0 "carol" 200] t in
  filter (fun a => pending_listed 50 a = true) t = [] /\ (Status <$> t') = [ApprovalStatusApproved].
Proof. vm_compute. split; reflexivity. Qed.
