(* ===== verification/Bank.v ===== *)
(** * The tables and transactions of the wallet application (apps/postgres-demo)

    The services of the application keep their state in a database and reach it
    with SQL.  This file has the tables, the statements the services use as
    operations on them, and transactions.

    A service works in a session: [committed] is what other connections see,
    and what queries on the pool see; a transaction works on its own copy.  Every
    statement may fail for reasons of the database; the list of faults says which
    do, so that theorems hold for every way a service can be interrupted.  A
    transaction that ends in an error leaves nothing behind.

    Amounts are in cents: the columns are DECIMAL with two places, and every amount
    that reaches them as a binary64 number is taken to be the one nearest to a whole
    number of cents, which the column rounds back to it.  Amounts with a fraction of
    a cent, and products of a price and a quantity that are not the number nearest
    to their value (3 times 0.10), are outside the model.  A COMMIT that fails is
    rolled back; one whose acknowledgement is lost after it took effect is not
    modelled.  The row numbers
    of SERIAL columns are positions in the table, so gaps left by transactions that
    were rolled back are not modelled.  [constrained] says which of the two
    definitions of the tables is in force: those of SetupPurchaseTables and of
    migration 001, with their CHECK clauses, or those of migration 000, without.  Texts (names, descriptions,
    metadata) are left out. *)
From S2P Require Import Prelude.

(** ** Rows *)

Inductive AccountType : Type :=
| AccountTypeAsset
| AccountTypeLiability
| AccountTypeEquity
| AccountTypeRevenue
| AccountTypeExpense.

Definition IsDebitNormal (t : AccountType) : bool :=
  match t with AccountTypeAsset | AccountTypeExpense => true | _ => false end.

Record Account : Type := mkAccount { Code : string; Type_ : AccountType }.

Inductive JournalStatus : Type :=
| JournalStatusPending
| JournalStatusPosted
| JournalStatusReversed.

#[export] Instance JournalStatus_eq_dec : EqDecision JournalStatus.
Proof. solve_decision. Defined.

Inductive ReferenceType : Type :=
| RefTypeWalletTopup
| RefTypePurchase
| RefTypeTransfer
| RefTypeAdjustment
| RefTypeFreeze
| RefTypeUnfreeze.

Record Journal : Type := mkJournal {
  RefType : ReferenceType;
  RefID : option nat;
  JStatus : JournalStatus;
  PostedAt : option Z;
  JCreatedAt : Z
}.

Record LedgerEntry : Type := mkEntry {
  JournalID : nat;
  AccountID : nat;
  Debit : Z;
  Credit : Z;
  ECreatedAt : Z
}.

Record WalletTypeInfo : Type := mkWalletType {
  IsActive : bool;
  IsDefault : bool;
  MinBalance : option Z;
  MaxBalance : option Z
}.

Record Wallet : Type := mkWallet { Balance : Z; Frozen : Z }.

Inductive TransactionStatus : Type :=
| StatusPending
| StatusCompleted
| StatusCancelled.

#[export] Instance TransactionStatus_eq_dec : EqDecision TransactionStatus.
Proof. solve_decision. Defined.

Inductive TransactionKind : Type := KindDebit | KindCredit.

#[export] Instance TransactionKind_eq_dec : EqDecision TransactionKind.
Proof. solve_decision. Defined.

Record WalletTransaction : Type := mkTransaction {
  TUserID : string;
  TWalletType : string;
  TKind : TransactionKind;
  TAmount : Z;
  TOrderID : option nat;
  TStatus : TransactionStatus;
  TCreatedAt : Z
}.

(** The rule types the validation looks at; the others are never checked. *)
Inductive WalletRuleType : Type :=
| RuleTypeMinBalance
| RuleTypeMaxBalance
| RuleTypeDailyLimit
| RuleTypeTransferLimit
| RuleTypeDepositLimit
| RuleTypeFreezeLimit
| RuleTypeOther.

#[export] Instance WalletRuleType_eq_dec : EqDecision WalletRuleType.
Proof. solve_decision. Defined.

Record WalletRule : Type := mkRule {
  RuleType : WalletRuleType;
  RWalletType : option string;
  RUserID : option string;
  ROperationType : option string;
  MinValue : option Z;
  MaxValue : option Z;
  PeriodType : option string;
  RActive : bool
}.

Record Product : Type := mkProduct { Price : Z; Stock : Z }.

Record Order : Type := mkOrder { OUserID : string; OTotal : Z }.

Record OrderItem : Type := mkOrderItem { IOrderID : nat; IProductID : Z; IQuantity : Z; IPrice : Z; ISubtotal : Z }.

Record DB : Type := mkDB {
  constrained : bool;
  accounts : list Account;
  journals : list Journal;
  entries : list LedgerEntry;
  wallet_types : gmap string WalletTypeInfo;
  wallets : gmap (string * string) Wallet;
  transactions : list WalletTransaction;
  products : gmap Z Product;
  orders : list Order;
  order_items : list OrderItem;
  rules : list WalletRule
}.

Definition set_accounts (d : DB) (v : list Account) : DB :=
  mkDB (constrained d) v (journals d) (entries d) (wallet_types d) (wallets d) (transactions d) (products d) (orders d) (order_items d) (rules d).

Definition set_journals (d : DB) (v : list Journal) : DB :=
  mkDB (constrained d) (accounts d) v (entries d) (wallet_types d) (wallets d) (transactions d) (products d) (orders d) (order_items d) (rules d).

Definition set_entries (d : DB) (v : list LedgerEntry) : DB :=
  mkDB (constrained d) (accounts d) (journals d) v (wallet_types d) (wallets d) (transactions d) (products d) (orders d) (order_items d) (rules d).

Definition set_wallets (d : DB) (v : gmap (string * string) Wallet) : DB :=
  mkDB (constrained d) (accounts d) (journals d) (entries d) (wallet_types d) v (transactions d) (products d) (orders d) (order_items d) (rules d).

Definition set_transactions (d : DB) (v : list WalletTransaction) : DB :=
  mkDB (constrained d) (accounts d) (journals d) (entries d) (wallet_types d) (wallets d) v (products d) (orders d) (order_items d) (rules d).

Definition set_products (d : DB) (v : gmap Z Product) : DB :=
  mkDB (constrained d) (accounts d) (journals d) (entries d) (wallet_types d) (wallets d) (transactions d) v (orders d) (order_items d) (rules d).

Definition set_orders (d : DB) (v : list Order) : DB :=
  mkDB (constrained d) (accounts d) (journals d) (entries d) (wallet_types d) (wallets d) (transactions d) (products d) v (order_items d) (rules d).

Definition set_order_items (d : DB) (v : list OrderItem) : DB :=
  mkDB (constrained d) (accounts d) (journals d) (entries d) (wallet_types d) (wallets d) (transactions d) (products d) (orders d) v (rules d).

(** ** Errors *)

Inductive bank_error : Type :=
| ErrDatabase                   (** a statement failed *)
| ErrConstraint                 (** a CHECK, a key or the range of a column *)
| ErrAccountNotFound (code : string)
| ErrTooFewEntries
| ErrNegativeAmount
| ErrBothSides
| ErrNoSide
| ErrUnbalanced
| ErrJournalNotFound
| ErrJournalNotPending
| ErrJournalNotPosted
| ErrWalletTypeNotFound
| ErrWalletTypeInactive
| ErrAmountNotPositive
| ErrMaxBalance
| ErrRuleViolation
| ErrInsufficientBalance
| ErrFrozenMismatch
| ErrTransactionNotFound
| ErrSameWallet
| ErrEmptyPurchase
| ErrProductNotFound
| ErrInsufficientStock.

(** ** Sessions *)

(** The copy of the database a service works on, and which of the statements to
    come fail. *)
Definition session : Type := DB * list bool.

(** An operation inside a transaction: the first argument is what the other
    connections see. *)
Definition M (A : Type) : Type := DB -> session -> result bank_error A * session.

#[export] Instance M_ret : MRet M := fun A a _ s => (Ok a, s).

#[export] Instance M_bind : MBind M := fun A B f m c s =>
  match m c s with
  | (Ok a, s') => f a c s'
  | (Err e, s') => (Err e, s')
  end.

Definition fail {A} (e : bank_error) : M A := fun _ s => (Err e, s).

(** One statement is sent to the database. *)
Definition stmt : M unit := fun _ '(d, fs) =>
  match fs with
  | true :: fs' => (Err ErrDatabase, (d, fs'))
  | false :: fs' => (Ok tt, (d, fs'))
  | [] => (Ok tt, (d, []))
  end.

Definition read {A} (f : DB -> A) : M A := fun _ s => (Ok (f s.1), s).

Definition read_committed {A} (f : DB -> A) : M A := fun c s => (Ok (f c), s).

Definition write (f : DB -> DB) : M unit := fun _ '(d, fs) => (Ok tt, (f d, fs)).

(** The database a service leaves behind, and its result. *)
Definition St (A : Type) : Type := session -> result bank_error A * session.

#[export] Instance St_ret : MRet St := fun A a s => (Ok a, s).

#[export] Instance St_bind : MBind St := fun A B f m s =>
  match m s with
  | (Ok a, s') => f a s'
  | (Err e, s') => (Err e, s')
  end.

Definition fail_st {A} (e : bank_error) : St A := fun s => (Err e, s).

(** BeginTx, the body, Commit; the deferred Rollback after an error. *)
Definition transaction {A} (body : M A) : St A := fun '(d, fs) =>
  match (stmt ≫= fun _ => body ≫= fun a => stmt ≫= fun _ => mret a) d (d, fs) with
  | (Ok a, s') => (Ok a, s')
  | (Err e, (_, fs')) => (Err e, (d, fs'))
  end.

(** Statements on the pool, without a transaction: every one of them is committed
    by itself, and the ones that follow an error are not sent. *)
Definition autocommit {A} (m : M A) : St A := fun '(d, fs) => m d (d, fs).

(** ** Statements *)

(** A value of a DECIMAL(10, 2) column. *)
Definition decimal (x : Z) : bool := (- 10 ^ 10 <? x) && (x <? 10 ^ 10).

(** A value of an INTEGER column. *)
Definition int4 (x : Z) : bool := (- 2 ^ 31 <=? x) && (x <? 2 ^ 31).

Definition guard_constraint (b : bool) : M unit := if b then mret tt else fail ErrConstraint.

(** The constraints on a row of wallets. *)
Definition wallet_ok (checks : bool) (w : Wallet) : bool :=
  decimal (Balance w) && decimal (Frozen w)
  && (negb checks || ((0 <=? Balance w) && (0 <=? Frozen w) && (Frozen w <=? Balance w))).

Definition put_wallet (key : string * string) (w : Wallet) : M unit :=
  checks ← read constrained;
  _ ← guard_constraint (wallet_ok checks w);
  write (fun d => set_wallets d (<[key := w]> (wallets d))).

(** INSERT INTO wallets ... RETURNING *)
Definition insert_wallet (key : string * string) (w : Wallet) : M Wallet :=
  _ ← stmt;
  old ← read (fun d => wallets d !! key);
  match old with
  | Some _ => fail ErrConstraint
  | None => _ ← put_wallet key w; mret w
  end.

(** UPDATE wallets SET ... WHERE ... RETURNING: no row, or the new one. *)
Definition update_wallet (key : string * string) (where_ : Wallet -> bool) (set : Wallet -> Wallet) : M (option Wallet) :=
  _ ← stmt;
  old ← read (fun d => wallets d !! key);
  match old with
  | None => mret None
  | Some w => if where_ w then (_ ← put_wallet key (set w); mret (Some (set w))) else mret None
  end.

(** INSERT INTO wallet_transactions ... RETURNING id *)
Definition insert_transaction (t : WalletTransaction) : M nat :=
  _ ← stmt;
  _ ← guard_constraint (decimal (TAmount t));
  id ← read (fun d => length (transactions d));
  _ ← write (fun d => set_transactions d (transactions d ++ [t]));
  mret id.

Definition set_status (st : TransactionStatus) (t : WalletTransaction) : WalletTransaction :=
  mkTransaction (TUserID t) (TWalletType t) (TKind t) (TAmount t) (TOrderID t) st (TCreatedAt t).

(** UPDATE wallet_transactions SET status WHERE id AND status = pending *)
Definition settle_transaction (id : nat) (st : TransactionStatus) : M unit :=
  _ ← stmt;
  write (fun d => set_transactions d
    (alter (fun t => if bool_decide (TStatus t = StatusPending) then set_status st t else t) id (transactions d))).

(** ** Laws of sessions *)

Lemma bind_ok {A B} (m : M A) (f : A -> M B) (c : DB) (s s' : session) (b : B) :
  (m ≫= f) c s = (Ok b, s') <-> exists a s1, m c s = (Ok a, s1) /\ f a c s1 = (Ok b, s').
Proof.
  unfold mbind, M_bind. destruct (m c s) as [[a|e] s1]; split.
  - eauto.
  - by intros (? & ? & [= <- <-] & ?).
  - done.
  - by intros (? & ? & [=] & ?).
Qed.

Lemma st_bind_ok {A B} (m : St A) (f : A -> St B) (s s' : session) (b : B) :
  (m ≫= f) s = (Ok b, s') <-> exists a s1, m s = (Ok a, s1) /\ f a s1 = (Ok b, s').
Proof.
  unfold mbind, St_bind. destruct (m s) as [[a|e] s1]; split.
  - eauto.
  - by intros (? & ? & [= <- <-] & ?).
  - done.
  - by intros (? & ? & [=] & ?).
Qed.

Lemma stmt_ok (c d : DB) (fs : list bool) (u : unit) (s' : session) :
  stmt c (d, fs) = (Ok u, s') -> exists fs', s' = (d, fs').
Proof. unfold stmt. repeat case_match; intros; simplify_eq; eauto. Qed.

Lemma guard_ok (b : bool) (c : DB) (s s' : session) (u : unit) :
  guard_constraint b c s = (Ok u, s') -> b = true /\ s' = s.
Proof. destruct b; unfold guard_constraint, mret, M_ret, fail; intros; simplify_eq; done. Qed.

(** A transaction that fails leaves the database as it was, whatever its body did
    and whichever statement failed. *)
Lemma transaction_rolls_back {A} (body : M A) (d : DB) (fs : list bool) (e : bank_error) (s' : session) :
  transaction body (d, fs) = (Err e, s') -> s'.1 = d.
Proof. unfold transaction. repeat case_match; intros; simplify_eq; done. Qed.

Lemma transaction_commits {A} (body : M A) (d : DB) (fs : list bool) (a : A) (s' : session) :
  transaction body (d, fs) = (Ok a, s') ->
  exists fs1 fs2, body d (d, fs1) = (Ok a, (s'.1, fs2)).
Proof.
  unfold transaction. repeat case_match; intros; simplify_eq.
  match goal with H : _ = (Ok a, _) |- _ => rename H into E end.
  apply bind_ok in E as (u & s1 & E1 & E). apply stmt_ok in E1 as [fs1 ->].
  apply bind_ok in E as (a' & [d2 fs2] & E2 & E). apply bind_ok in E as (u' & s3 & E3 & E).
  apply stmt_ok in E3 as [fs3 ->]. unfold mret, M_ret in E. simplify_eq/=. eauto.
Qed.

(** ** Reading off a successful run *)

(** Decompose [H : m c s = (Ok a, s')] for an [m] made of the statements above. *)
Ltac run_inv H :=
  lazymatch type of H with
  | (_ ≫= _) _ _ = (Ok _, _) =>
      let a := fresh "a" in let s := fresh "s" in let H1 := fresh "Hm" in
      apply bind_ok in H as (a & s & H1 & H); run_inv H1; run_inv H
  | stmt _ (_, _) = (Ok _, _) => let fs := fresh "fs" in apply stmt_ok in H as [fs ->]
  | guard_constraint _ _ _ = (Ok _, _) => let E := fresh "Hg" in apply guard_ok in H as [E ->]
  | mret _ _ _ = (Ok _, _) => unfold mret, M_ret in H; simplify_eq/=
  | read _ _ _ = (Ok _, _) => unfold read in H; simplify_eq/=
  | read_committed _ _ _ = (Ok _, _) => unfold read_committed in H; simplify_eq/=
  | write _ _ _ = (Ok _, _) => unfold write in H; simplify_eq/=
  | fail _ _ _ = (Ok _, _) => discriminate H
  | _ => idtac
  end.

Lemma put_wallet_ok (key : string * string) (w : Wallet) (c d : DB) (fs : list bool) (u : unit) (s' : session) :
  put_wallet key w c (d, fs) = (Ok u, s') ->
  wallet_ok (constrained d) w = true /\ exists fs', s' = (set_wallets d (<[key := w]> (wallets d)), fs').
Proof. unfold put_wallet. intros H. run_inv H. eauto. Qed.

Lemma insert_wallet_ok (key : string * string) (w w' : Wallet) (c d : DB) (fs : list bool) (s' : session) :
  insert_wallet key w c (d, fs) = (Ok w', s') ->
  w' = w /\ wallets d !! key = None /\ wallet_ok (constrained d) w = true
  /\ exists fs', s' = (set_wallets d (<[key := w]> (wallets d)), fs').
Proof.
  unfold insert_wallet. intros H. run_inv H. case_match; run_inv H.
  match goal with Hp : put_wallet _ _ _ _ = _ |- _ => apply put_wallet_ok in Hp as [Hok [fs' ->]] end. simplify_eq/=. eauto.
Qed.

Lemma update_wallet_ok (key : string * string) (where_ : Wallet -> bool) (set : Wallet -> Wallet) (c d : DB)
    (fs : list bool) (r : option Wallet) (s' : session) :
  update_wallet key where_ set c (d, fs) = (Ok r, s') ->
  (r = None /\ (exists fs', s' = (d, fs')) /\ match wallets d !! key with Some w => where_ w = false | None => True end)
  \/ exists w fs', wallets d !! key = Some w /\ where_ w = true /\ r = Some (set w)
       /\ wallet_ok (constrained d) (set w) = true /\ s' = (set_wallets d (<[key := set w]> (wallets d)), fs').
Proof.
  unfold update_wallet. intros H. run_inv H. destruct (wallets d !! key) as [w|] eqn:E; [|run_inv H; left; eauto].
  destruct (where_ w) eqn:Ew; run_inv H; [|left; eauto].
  match goal with Hp : put_wallet _ _ _ _ = _ |- _ => apply put_wallet_ok in Hp as [Hok [fs' ->]] end. right. exists w, fs'. done.
Qed.

Lemma insert_transaction_ok (t : WalletTransaction) (c d : DB) (fs : list bool) (id : nat) (s' : session) :
  insert_transaction t c (d, fs) = (Ok id, s') ->
  id = length (transactions d) /\ decimal (TAmount t) = true
  /\ exists fs', s' = (set_transactions d (transactions d ++ [t]), fs').
Proof. unfold insert_transaction. intros H. run_inv H. eauto. Qed.
