(* ===== verification/Ledger.v ===== *)
(** * Double-entry bookkeeping (apps/postgres-demo/services/ledger_service.go)

    Journals of debit and credit entries over the tables of [Bank]: creation with
    its validation, posting, reversal, and the balances computed from them.  The
    accounts, and the journal to be reversed, are read on the pool, that is from
    the committed state, while journals are written in the caller's
    transaction.  The tables hold cents; what the service itself adds up and
    compares is binary64, with Stdlib's SpecFloat. *)
From Stdlib Require Import Floats.SpecFloat.
From stdpp Require Import sorting.
From S2P Require Import Prelude Bank.

(** ** Amounts in Go *)

Definition fadd : spec_float -> spec_float -> spec_float := SFadd 53 1024.
Definition fsub : spec_float -> spec_float -> spec_float := SFsub 53 1024.

(** The binary64 number nearest to an amount in cents: what scanning the column or
    parsing the amount gives.  Both operands of the division are exact. *)
Definition cents (x : Z) : spec_float :=
  SFdiv 53 1024 (binary_normalize 53 1024 x 0 false) (binary_normalize 53 1024 100 0 false).

(** The constant 0.01. *)
Definition epsilon : spec_float := cents 1.

(** ** Accounts *)

Definition AccCodeUserWallets : string := "1100".
Definition AccCodeCompanyCash : string := "1200".
Definition AccCodeFrozenFunds : string := "2100".

Definition system_accounts : list Account :=
  [mkAccount AccCodeUserWallets AccountTypeAsset; mkAccount AccCodeCompanyCash AccountTypeAsset;
   mkAccount AccCodeFrozenFunds AccountTypeLiability; mkAccount "2200" AccountTypeLiability;
   mkAccount "3100" AccountTypeRevenue; mkAccount "3200" AccountTypeRevenue;
   mkAccount "4100" AccountTypeExpense; mkAccount "4200" AccountTypeExpense].

(** The position of the account with a code, counted from [i]. *)
Fixpoint find_account (code : string) (l : list Account) (i : nat) : option (nat * Account) :=
  match l with
  | [] => None
  | a :: l => if String.eqb (Code a) code then Some (i, a) else find_account code l (S i)
  end.

(** INSERT ... ON CONFLICT (code) DO NOTHING *)
Definition insert_account (a : Account) : M unit :=
  _ ← stmt;
  found ← read (fun d => find_account (Code a) (accounts d) 0);
  match found with
  | Some _ => mret tt
  | None => write (fun d => set_accounts d (accounts d ++ [a]))
  end.

Fixpoint insert_accounts (l : list Account) : M unit :=
  match l with
  | [] => mret tt
  | a :: l => _ ← insert_account a; insert_accounts l
  end.

Definition InitializeSystemAccounts : St unit := autocommit (insert_accounts system_accounts).

Definition GetAccountByCode (code : string) : M (nat * Account) :=
  _ ← stmt;
  found ← read_committed (fun d => find_account code (accounts d) 0);
  match found with
  | Some a => mret a
  | None => fail (ErrAccountNotFound code)
  end.

(** ** Journals *)

Record JournalEntryInput : Type := mkInput { AccountCode : string; InDebit : Z; InCredit : Z }.

(** The loop over the entries: the totals, or the first error.  The binary64 number
    nearest to an amount has its sign. *)
Fixpoint totals (l : list JournalEntryInput) (totalDebit totalCredit : spec_float) : result bank_error (spec_float * spec_float) :=
  match l with
  | [] => Ok (totalDebit, totalCredit)
  | e :: l =>
      if (InDebit e <? 0) || (InCredit e <? 0) then Err ErrNegativeAmount
      else if (0 <? InDebit e) && (0 <? InCredit e) then Err ErrBothSides
      else if (InDebit e =? 0) && (InCredit e =? 0) then Err ErrNoSide
      else totals l (fadd totalDebit (cents (InDebit e))) (fadd totalCredit (cents (InCredit e)))
  end.

Definition validate (l : list JournalEntryInput) : result bank_error unit :=
  if (length l <? 2)%nat then Err ErrTooFewEntries
  else match totals l (cents 0) (cents 0) with
       | Err e => Err e
       | Ok (td, tc) =>
           let diff := fsub td tc in
           if SFltb diff (SFopp epsilon) || SFltb epsilon diff then Err ErrUnbalanced else Ok tt
       end.

(** The accounts of the entries, in order. *)
Fixpoint account_ids (l : list JournalEntryInput) : M (list nat) :=
  match l with
  | [] => mret []
  | e :: l => a ← GetAccountByCode (AccountCode e); ids ← account_ids l; mret (a.1 :: ids)
  end.

(** A value of a DECIMAL(15, 2) column. *)
Definition decimal15 (x : Z) : bool := (- 10 ^ 15 <? x) && (x <? 10 ^ 15).

(** The table of migration 001, with CHECK (debit >= 0), CHECK (credit >= 0) and
    check_debit_or_credit, or that of migration 000. *)
Definition entry_ok (checks : bool) (e : LedgerEntry) : bool :=
  if checks
  then decimal15 (Debit e) && decimal15 (Credit e) && (0 <=? Debit e) && (0 <=? Credit e)
       && (((0 <? Debit e) && (Credit e =? 0)) || ((Debit e =? 0) && (0 <? Credit e)))
  else decimal (Debit e) && decimal (Credit e).

Definition insert_entry (e : LedgerEntry) : M unit :=
  _ ← stmt;
  checks ← read constrained;
  _ ← guard_constraint (entry_ok checks e);
  write (fun d => set_entries d (entries d ++ [e])).

Fixpoint insert_entries (j : nat) (now : Z) (l : list JournalEntryInput) (ids : list nat) : M unit :=
  match l, ids with
  | e :: l, i :: ids => _ ← insert_entry (mkEntry j i (InDebit e) (InCredit e) now); insert_entries j now l ids
  | _, _ => mret tt
  end.

Definition insert_journal (j : Journal) : M nat :=
  _ ← stmt;
  id ← read (fun d => length (journals d));
  _ ← write (fun d => set_journals d (journals d ++ [j]));
  mret id.

Definition CreateJournal (refType : ReferenceType) (refID : option nat) (l : list JournalEntryInput) (now : Z) : M nat :=
  match validate l with
  | Err e => fail e
  | Ok _ =>
      ids ← account_ids l;
      id ← insert_journal (mkJournal refType refID JournalStatusPending None now);
      _ ← insert_entries id now l ids;
      mret id
  end.

Definition set_jstatus (st : JournalStatus) (posted : option Z) (j : Journal) : Journal :=
  mkJournal (RefType j) (RefID j) st posted (JCreatedAt j).

Definition PostJournal (id : nat) (now : Z) : M unit :=
  _ ← stmt;
  found ← read (fun d => journals d !! id);
  match found with
  | None => fail ErrJournalNotFound
  | Some j =>
      if bool_decide (JStatus j = JournalStatusPending)
      then _ ← stmt; write (fun d => set_journals d (alter (set_jstatus JournalStatusPosted (Some now)) id (journals d)))
      else fail ErrJournalNotPending
  end.

(** The journal and its entries with the codes of their accounts, as committed. *)
Definition GetJournalWithEntries (id : nat) : M (Journal * list (LedgerEntry * string)) :=
  _ ← stmt;
  found ← read_committed (fun d => journals d !! id);
  match found with
  | None => fail ErrJournalNotFound
  | Some j =>
      _ ← stmt;
      es ← read_committed (fun d =>
        omap (fun e => if (JournalID e =? id)%nat then (fun a => (e, Code a)) <$> accounts d !! AccountID e else None) (entries d));
      mret (j, es)
  end.

(** The entries with their sides swapped; each account is looked up again. *)
Fixpoint reverse_entries (l : list (LedgerEntry * string)) : M (list JournalEntryInput) :=
  match l with
  | [] => mret []
  | (e, code) :: l =>
      a ← GetAccountByCode code;
      r ← reverse_entries l;
      mret (mkInput (Code a.2) (Credit e) (Debit e) :: r)
  end.

Definition ReverseJournal (id : nat) (now : Z) : M nat :=
  '(j, es) ← GetJournalWithEntries id;
  if bool_decide (JStatus j = JournalStatusPosted)
  then rev ← reverse_entries es;
       rid ← CreateJournal RefTypeAdjustment (Some id) rev now;
       _ ← stmt;
       _ ← write (fun d => set_journals d (alter (fun j => set_jstatus JournalStatusReversed (PostedAt j) j) id (journals d)));
       _ ← PostJournal rid now;
       mret rid
  else fail ErrJournalNotPosted.

(** ** Balances *)

Definition sum (f : LedgerEntry -> Z) (l : list LedgerEntry) : Z := foldr (fun e t => f e + t) 0 l.

Definition is_posted (d : DB) (e : LedgerEntry) : bool :=
  match journals d !! JournalID e with Some j => bool_decide (JStatus j = JournalStatusPosted) | None => false end.

Definition by_time (asOf : option Z) (t : Z) : bool := match asOf with Some a => t <=? a | None => true end.

Record AccountBalance : Type := mkBalance { TotalDebit : spec_float; TotalCredit : spec_float; ABalance : spec_float }.

(** The sums of the query, scanned into binary64, and their difference. *)
Definition balance_of (t : AccountType) (td tc : Z) : AccountBalance :=
  mkBalance (cents td) (cents tc) (if IsDebitNormal t then fsub (cents td) (cents tc) else fsub (cents tc) (cents td)).

(** The entries of an account in posted journals. *)
Definition posted_entries (d : DB) (id : nat) (asOf : option Z) : list LedgerEntry :=
  filter (fun e => (AccountID e =? id)%nat && is_posted d e && by_time asOf (ECreatedAt e) = true) (entries d).

Definition GetAccountBalance (code : string) (asOf : option Z) : M AccountBalance :=
  a ← GetAccountByCode code;
  _ ← stmt;
  es ← read_committed (fun d => posted_entries d a.1 asOf);
  mret (balance_of (Type_ a.2) (sum Debit es) (sum Credit es)).

(** The entries the trial balance adds up for an account: all of them, or with a
    date those whose journal was posted by then. *)
Definition trial_entry (d : DB) (asOf : option Z) (e : LedgerEntry) : bool :=
  match asOf with
  | None => true
  | Some t =>
      (ECreatedAt e <=? t)
      && match journals d !! JournalID e with
         | Some j => bool_decide (JStatus j = JournalStatusPosted) && match PostedAt j with Some p => p <=? t | None => false end
         | None => false
         end
  end.

(** A row of the query, its sums in cents. *)
Record TrialRow : Type := mkRow { RCode : string; RType : AccountType; RDebit : Z; RCredit : Z }.

Definition trial_row (d : DB) (asOf : option Z) (id : nat) (a : Account) : TrialRow :=
  let es := filter (fun e => (AccountID e =? id)%nat && trial_entry d asOf e = true) (entries d) in
  mkRow (Code a) (Type_ a) (sum Debit es) (sum Credit es).

(** HAVING: rows with something on a side; ORDER BY code. *)
Definition has_side (r : TrialRow) : bool := (0 <? RDebit r) || (0 <? RCredit r).

Definition by_code (r1 r2 : TrialRow) : Prop := String.leb (RCode r1) (RCode r2) = true.

#[export] Instance by_code_dec : RelDecision by_code.
Proof. intros r1 r2. unfold by_code. apply _. Defined.

Definition trial_rows (d : DB) (asOf : option Z) : list TrialRow :=
  merge_sort by_code
    (filter (fun r => has_side r = true) (imap (trial_row d asOf) (accounts d))).

Record TrialBalance : Type := mkTrial { Rows : list AccountBalance; TDebit : spec_float; TCredit : spec_float; IsBalanced : bool }.

Definition fsum (f : AccountBalance -> spec_float) (l : list AccountBalance) : spec_float :=
  fold_left (fun t r => fadd t (f r)) l (cents 0).

Definition GetTrialBalance (asOf : option Z) : M TrialBalance :=
  _ ← stmt;
  rows ← read_committed (fun d => trial_rows d asOf);
  let accs := (fun r => balance_of (RType r) (RDebit r) (RCredit r)) <$> rows in
  let td := fsum TotalDebit accs in
  let tc := fsum TotalCredit accs in
  mret (mkTrial accs td tc (SFltb (fsub td tc) epsilon && SFltb (fsub tc td) epsilon)).

(** ** What a journal writes *)

Lemma account_ids_ok (l : list JournalEntryInput) (c d : DB) (fs : list bool) (ids : list nat) (s' : session) :
  account_ids l c (d, fs) = (Ok ids, s') ->
  (exists fs', s' = (d, fs'))
  /\ Forall2 (fun e i => exists a, find_account (AccountCode e) (accounts c) 0 = Some (i, a)) l ids.
Proof.
  revert fs ids s'. induction l as [|e l IH]; intros fs ids s' H; simpl in H.
  - run_inv H. eauto.
  - apply bind_ok in H as (a & s1 & H1 & H). unfold GetAccountByCode in H1. run_inv H1.
    destruct (find_account (AccountCode e) (accounts c) 0) as [[i b]|] eqn:E; run_inv H1.
    run_inv H. apply IH in Hm as [[fs2 ->] HF]. simplify_eq/=. eauto 10.
Qed.

Definition written (j : nat) (now : Z) (l : list JournalEntryInput) (ids : list nat) : list LedgerEntry :=
  zip_with (fun e i => mkEntry j i (InDebit e) (InCredit e) now) l ids.

Lemma insert_entries_ok (j : nat) (now : Z) (l : list JournalEntryInput) (ids : list nat) (c d : DB) (fs : list bool) (s' : session) (u : unit) :
  insert_entries j now l ids c (d, fs) = (Ok u, s') ->
  exists fs', s' = (set_entries d (entries d ++ written j now l ids), fs').
Proof.
  revert ids d fs. induction l as [|e l IH]; intros [|i ids] d fs H; simpl in H.
  1-3: run_inv H; eexists; unfold written; simpl; rewrite app_nil_r; by destruct d.
  apply bind_ok in H as (x & s1 & H1 & H). unfold insert_entry in H1. run_inv H1. apply IH in H as [fs' ->].
  eexists. unfold set_entries. simpl. rewrite <- app_assoc. done.
Qed.

Definition with_journal (d : DB) (j : Journal) (es : list LedgerEntry) : DB :=
  set_entries (set_journals d (journals d ++ [j])) (entries d ++ es).

Lemma create_journal_ok (rt : ReferenceType) (ri : option nat) (l : list JournalEntryInput) (now : Z) (c d : DB)
    (fs : list bool) (id : nat) (s' : session) :
  CreateJournal rt ri l now c (d, fs) = (Ok id, s') ->
  validate l = Ok tt /\ id = length (journals d)
  /\ exists ids fs', s' = (with_journal d (mkJournal rt ri JournalStatusPending None now) (written id now l ids), fs')
     /\ Forall2 (fun e i => exists a, find_account (AccountCode e) (accounts c) 0 = Some (i, a)) l ids.
Proof.
  unfold CreateJournal. destruct (validate l) as [[]|e]; [|done]. intros H.
  apply bind_ok in H as (ids & s1 & H1 & H). apply account_ids_ok in H1 as [[fs1 ->] HF].
  apply bind_ok in H as (i & s2 & H2 & H). unfold insert_journal in H2. run_inv H2.
  apply bind_ok in H as (u & s3 & H3 & H). apply insert_entries_ok in H3 as [fs3 ->]. run_inv H. eauto 10.
Qed.

Lemma post_journal_ok (id : nat) (now : Z) (c d : DB) (fs : list bool) (u : unit) (s' : session) :
  PostJournal id now c (d, fs) = (Ok u, s') ->
  exists j fs', journals d !! id = Some j /\ JStatus j = JournalStatusPending
    /\ s' = (set_journals d (alter (set_jstatus JournalStatusPosted (Some now)) id (journals d)), fs').
Proof.
  unfold PostJournal. intros H. run_inv H. destruct (journals d !! id) as [j|] eqn:E; [|run_inv H].
  case_bool_decide; run_inv H. eauto 10.
Qed.

(** Creating and posting in one transaction. *)
Lemma post_new_journal (d : DB) (j : Journal) (es : list LedgerEntry) (now : Z) :
  set_journals (with_journal d j es)
    (alter (set_jstatus JournalStatusPosted (Some now)) (length (journals d)) (journals (with_journal d j es)))
  = with_journal d (set_jstatus JournalStatusPosted (Some now) j) es.
Proof.
  unfold with_journal, set_journals, set_entries. simpl. f_equal.
  induction (journals d) as [|x l IH]; simpl; [done|]. by f_equal.
Qed.

(** ** The validation *)

Definition side_ok (db cr : Z) : Prop := (0 < db /\ cr = 0) \/ (db = 0 /\ 0 < cr).

Lemma totals_sides (l : list JournalEntryInput) (td tc : spec_float) (r : spec_float * spec_float) :
  totals l td tc = Ok r -> Forall (fun e => side_ok (InDebit e) (InCredit e)) l.
Proof.
  revert td tc. induction l as [|e l IH]; intros td tc; simpl; [done|].
  unfold side_ok. destruct (Z.ltb_spec (InDebit e) 0), (Z.ltb_spec (InCredit e) 0); simpl; try done.
  destruct (Z.ltb_spec 0 (InDebit e)), (Z.ltb_spec 0 (InCredit e)); simpl; try done.
  all: destruct (Z.eqb_spec (InDebit e) 0), (Z.eqb_spec (InCredit e) 0); simpl; try done.
  all: intros H'; apply IH in H'; constructor; [lia|done].
Qed.

(** The entries the validation accepts are two or more and have one side each. *)
Lemma validate_sides (l : list JournalEntryInput) :
  validate l = Ok tt -> (2 <= length l)%nat /\ Forall (fun e => side_ok (InDebit e) (InCredit e)) l.
Proof.
  unfold validate. destruct (Nat.ltb_spec (length l) 2) as [Hl|Hl]; [done|].
  destruct (totals l (cents 0) (cents 0)) as [r|e] eqn:E; [|done]. intros _. split; [done|]. by eapply totals_sides.
Qed.

(** ** Sums over entries *)

Lemma sum_app (f : LedgerEntry -> Z) (l k : list LedgerEntry) : sum f (l ++ k) = sum f l + sum f k.
Proof. induction l as [|e l IH]; simpl; [done|]. rewrite IH. lia. Qed.

Lemma sum_nonneg (f : LedgerEntry -> Z) (l : list LedgerEntry) : Forall (fun e => 0 <= f e) l -> 0 <= sum f l.
Proof. induction 1; simpl; lia. Qed.

Definition net (e : LedgerEntry) : Z := Debit e - Credit e.

Lemma sum_net (l : list LedgerEntry) : sum net l = sum Debit l - sum Credit l.
Proof. induction l as [|e l IH]; simpl; [done|]. unfold net at 1. lia. Qed.

Definition pick (p : LedgerEntry -> bool) (l : list LedgerEntry) : list LedgerEntry := filter (fun e => p e = true) l.

Lemma pick_cons (p : LedgerEntry -> bool) (e : LedgerEntry) (l : list LedgerEntry) :
  pick p (e :: l) = if p e then e :: pick p l else pick p l.
Proof.
  unfold pick. destruct (p e) eqn:E; [by rewrite filter_cons_True|]. rewrite filter_cons_False; [done|]. by rewrite E.
Qed.

Lemma pick_app (p : LedgerEntry -> bool) (l k : list LedgerEntry) : pick p (l ++ k) = pick p l ++ pick p k.
Proof. apply filter_app. Qed.

Lemma sum_pick_ext (f : LedgerEntry -> Z) (p q : LedgerEntry -> bool) (l : list LedgerEntry) :
  Forall (fun e => p e = q e) l -> sum f (pick p l) = sum f (pick q l).
Proof. induction 1 as [|e l E _ IH]; [done|]. rewrite !pick_cons, E. destruct (q e); simpl; lia. Qed.

(** Entries split by a number below [n] add up to the whole. *)
Lemma sum_split (f : LedgerEntry -> Z) (k : LedgerEntry -> nat) (n : nat) (l : list LedgerEntry) :
  Forall (fun e => (k e < n)%nat) l ->
  foldr (fun i t => sum f (pick (fun e => (k e =? i)%nat) l) + t) 0 (seq 0 n) = sum f l.
Proof.
  induction 1 as [|e l He _ IH]; simpl.
  - induction (seq 0 n) as [|i s IHs]; simpl; lia.
  - rewrite <- IH. clear IH.
    assert (forall s, NoDup s -> foldr (fun i t => sum f (pick (fun x => (k x =? i)%nat) (e :: l)) + t) 0 s
      = (if decide (k e ∈ s) then f e else 0) + foldr (fun i t => sum f (pick (fun x => (k x =? i)%nat) l) + t) 0 s) as Hg.
    { intros s. induction 1 as [|i s Hni Hs IHs]; simpl; [done|]. rewrite IHs, pick_cons.
      destruct (Nat.eqb_spec (k e) i) as [<-|Hne]; simpl.
      - rewrite (decide_True (P := k e ∈ k e :: s)) by set_solver. rewrite decide_False by done. lia.
      - destruct (decide (k e ∈ s)); [rewrite decide_True by set_solver|rewrite decide_False by set_solver]; lia. }
    rewrite Hg by apply NoDup_seq. rewrite decide_True; [done|]. apply elem_of_seq. lia.
Qed.

(** ** Accounts by code *)

Lemma find_account_spec (code : string) (l : list Account) (i k : nat) (a : Account) :
  find_account code l i = Some (k, a) -> exists m, k = (i + m)%nat /\ l !! m = Some a /\ Code a = code.
Proof.
  revert i. induction l as [|b l IH]; intros i; simpl; [done|]. destruct (String.eqb_spec (Code b) code).
  - intros [= <- <-]. exists 0%nat. split; [lia|done].
  - intros H. apply IH in H as (m & -> & ? & ?). exists (S m). split; [lia|done].
Qed.

Lemma find_account_unique (l : list Account) (i k m : nat) (a b : Account) :
  NoDup (Code <$> l) -> find_account (Code a) l i = Some (k, b) -> l !! m = Some a -> k = (i + m)%nat.
Proof.
  intros Hnd H Ha. apply find_account_spec in H as (m' & -> & Hb & E). f_equal.
  apply (NoDup_lookup _ _ _ (Code a) Hnd); rewrite list_lookup_fmap; [by rewrite Hb; simpl; rewrite E|by rewrite Ha].
Qed.

(** ** The books *)

(** Accounts have different codes, and entries belong to a journal and an account and
    have one side. *)
Definition books (d : DB) : Prop :=
  NoDup (Code <$> accounts d)
  /\ Forall (fun e => (JournalID e < length (journals d))%nat /\ (AccountID e < length (accounts d))%nat
                      /\ side_ok (Debit e) (Credit e)) (entries d).

Lemma books_with_journal (d : DB) (j : Journal) (l : list JournalEntryInput) (ids : list nat) (now : Z) :
  books d -> validate l = Ok tt -> 
  Forall2 (fun e i => exists a, find_account (AccountCode e) (accounts d) 0 = Some (i, a)) l ids ->
  books (with_journal d j (written (length (journals d)) now l ids)).
Proof.
  intros Hb Hv HF2. pose proof Hb as (Hnd & HF). apply validate_sides in Hv as (_ & Hside).
  split; [done|]. simpl. rewrite length_app. simpl. apply Forall_app. split.
  - eapply Forall_impl; [exact HF|]. simpl. intros e (? & ? & ?). split; [lia|done].
  - unfold written. induction HF2 as [|e i l ids [a Ha] _ IH]; simpl; [constructor|].
    apply Forall_cons in Hside as [Hs Hside]. constructor; [simpl|by apply IH].
    apply find_account_spec in Ha as (m & -> & Hm & _). apply lookup_lt_Some in Hm. split; [lia|]. split; [lia|done].
Qed.

Lemma books_status (d : DB) (js : list Journal) : length js = length (journals d) -> books d -> books (set_journals d js).
Proof. intros Hl (H1 & H2). split; [done|]. simpl. by rewrite Hl. Qed.

(** ** Sequences of operations *)

(** Operations of the ledger, each in a transaction of its own. *)
Inductive ledger_op : Type :=
| LCreate (rt : ReferenceType) (ri : option nat) (l : list JournalEntryInput) (now : Z)
| LPost (id : nat) (now : Z)
| LReverse (id : nat) (now : Z).

Definition ledger_body (o : ledger_op) : M nat :=
  match o with
  | LCreate rt ri l now => CreateJournal rt ri l now
  | LPost id now => _ ← PostJournal id now; mret id
  | LReverse id now => ReverseJournal id now
  end.

Definition ledger_run (s : session) (ops : list ledger_op) : session :=
  fold_left (fun s o => (transaction (ledger_body o) s).2) ops s.

Lemma reverse_entries_ok (l : list (LedgerEntry * string)) (c d : DB) (fs : list bool) (r : list JournalEntryInput) (s' : session) :
  reverse_entries l c (d, fs) = (Ok r, s') ->
  (exists fs', s' = (d, fs')) /\ r = (fun x => mkInput x.2 (Credit x.1) (Debit x.1)) <$> l.
Proof.
  revert fs r s'. induction l as [|[e code] l IH]; intros fs r s' H; simpl in H.
  - run_inv H. eauto.
  - apply bind_ok in H as (a & s1 & H1 & H). unfold GetAccountByCode in H1. run_inv H1.
    destruct (find_account code (accounts c) 0) as [[i b]|] eqn:E; run_inv H1.
    run_inv H. apply IH in Hm as [[fs2 ->] ->]. apply find_account_spec in E as (_ & _ & _ & <-). simplify_eq/=. eauto.
Qed.

Definition with_code (d : DB) (e : LedgerEntry) : option (LedgerEntry * string) := (fun a => (e, Code a)) <$> accounts d !! AccountID e.

Lemma alter_alter_snoc {A} (f g : A -> A) (id : nat) (l : list A) (x : A) :
  (id < length l)%nat -> alter g (length l) (alter f id (l ++ [x])) = alter f id l ++ [g x].
Proof.
  revert id. induction l as [|y l IH]; intros [|id] Hlt; simpl in *; try lia; f_equal.
  - clear. induction l as [|y l IH]; simpl; [done|by f_equal].
  - apply (IH id). lia.
Qed.

(** What a reversal did: the original is marked, and a posted journal holds the
    entries with their sides swapped. *)
Lemma reverse_ok (id : nat) (now : Z) (d : DB) (fs : list bool) (rid : nat) (s' : session) :
  ReverseJournal id now d (d, fs) = (Ok rid, s') ->
  exists j ids fs', let es := omap (fun e => if (JournalID e =? id)%nat then with_code d e else None) (entries d) in
    let rev := (fun x => mkInput x.2 (Credit x.1) (Debit x.1)) <$> es in
    journals d !! id = Some j /\ JStatus j = JournalStatusPosted /\ validate rev = Ok tt
    /\ rid = length (journals d)
    /\ Forall2 (fun e i => exists a, find_account (AccountCode e) (accounts d) 0 = Some (i, a)) rev ids
    /\ s' = (with_journal (set_journals d (alter (fun j => set_jstatus JournalStatusReversed (PostedAt j) j) id (journals d)))
               (mkJournal RefTypeAdjustment (Some id) JournalStatusPosted (Some now) now) (written rid now rev ids), fs').
Proof.
  unfold ReverseJournal. intros H. apply bind_ok in H as ([j es] & s1 & H1 & H).
  unfold GetJournalWithEntries in H1. run_inv H1. destruct (journals d !! id) as [j0|] eqn:Ej; run_inv H1.
  case_bool_decide as Hp; [|run_inv H]. apply bind_ok in H as (rev & s2 & H2 & H).
  apply reverse_entries_ok in H2 as [[fs2 ->] ->].
  apply bind_ok in H as (r & s3 & H3 & H). apply create_journal_ok in H3 as (Hv & -> & ids & fs3 & -> & HF).
  apply bind_ok in H as (u1 & s4 & H4 & H). run_inv H4. apply bind_ok in H as (u2 & s5 & H5 & H). run_inv H5.
  apply bind_ok in H as (u3 & s6 & H6 & H). apply post_journal_ok in H6 as (j2 & fs6 & Hj2 & _ & ->). run_inv H.
  exists j, ids, fs6. split; [done|]. split; [done|]. split; [exact Hv|]. split; [done|]. split; [exact HF|].
  f_equal. unfold with_journal, set_journals, set_entries in *. simpl in *. f_equal.
  etransitivity; [apply alter_alter_snoc; by eapply lookup_lt_Some|done].
Qed.

Lemma books_op (o : ledger_op) (d : DB) (fs : list bool) : books d -> books (transaction (ledger_body o) (d, fs)).2.1.
Proof.
  intros Hb. destruct (transaction (ledger_body o) (d, fs)) as [[a|e] s'] eqn:E; simpl.
  2: { apply transaction_rolls_back in E. by rewrite E. }
  apply transaction_commits in E as (fs1 & fs2 & E). destruct s' as [d' fs']. simpl in *.
  destruct o as [rt ri l now|id now|id now]; simpl in E.
  - apply create_journal_ok in E as (Hv & -> & ids & fs3 & [= -> _] & HF). by apply books_with_journal.
  - run_inv E. apply post_journal_ok in Hm as (j & fs3 & _ & _ & [= -> _]). apply books_status; [by rewrite length_alter|done].
  - apply reverse_ok in E as (j & ids & fs3 & _ & _ & Hv & -> & HF & [= -> _]).
    set (js := alter _ id (journals d)).
    assert (length (journals d) = length js) as El by (unfold js; by rewrite length_alter).
    rewrite El. apply (books_with_journal (set_journals d js)); [by apply books_status|done|done].
Qed.

Lemma books_run (ops : list ledger_op) (s : session) : books s.1 -> books (ledger_run s ops).1.
Proof.
  revert s. induction ops as [|o ops IH]; intros [d fs] Hb; [done|]. apply IH. simpl. by apply books_op.
Qed.

(** ** The trial balance *)

Definition sum_rows (f : TrialRow -> Z) (l : list TrialRow) : Z := sumZ (f <$> l).

Lemma sum_rows_perm (g : TrialRow -> Z) (l k : list TrialRow) : l ≡ₚ k -> sum_rows g l = sum_rows g k.
Proof. unfold sum_rows. induction 1; rewrite ?sumZ_fmap_cons; lia || congruence. Qed.

Lemma sum_rows_filter (g : TrialRow -> Z) (l : list TrialRow) :
  Forall (fun r => has_side r = false -> g r = 0) l ->
  sum_rows g (filter (fun r => has_side r = true) l) = sum_rows g l.
Proof.
  unfold sum_rows. induction 1 as [|r l Hr _ IH]; [done|]. destruct (has_side r) eqn:E.
  - rewrite filter_cons_True by done. by rewrite !sumZ_fmap_cons, IH.
  - rewrite filter_cons_False by (by rewrite E). rewrite sumZ_fmap_cons, IH, Hr by done. lia.
Qed.

Lemma sum_rows_imap (g : TrialRow -> Z) (h : nat -> Account -> TrialRow) (l : list Account) (k : nat) (v : nat -> Z) :
  (forall i a, g (h i a) = v i) ->
  sum_rows g (imap (fun i => h (k + i)%nat) l) = foldr (fun i t => v i + t) 0 (seq k (length l)).
Proof.
  intros Hv. unfold sum_rows. revert k. induction l as [|a l IH]; intros k; [done|].
  rewrite imap_cons, sumZ_fmap_cons, Hv. simpl. f_equal; [f_equal; lia|].
  rewrite <- (IH (S k)). do 2 f_equal. apply imap_ext. intros i x _. simpl. f_equal. lia.
Qed.

(** Each side of the trial balance without a date is, in cents, the sum of that side
    over all entries, posted or not. *)
Lemma trial_side (g : TrialRow -> Z) (f : LedgerEntry -> Z) (d : DB) :
  books d -> (g = RDebit /\ f = Debit) \/ (g = RCredit /\ f = Credit) ->
  sum_rows g (trial_rows d None) = sum f (entries d).
Proof.
  intros Hb Hf. pose proof Hb as (_ & HF). unfold trial_rows.
  set (p := fun i e => (AccountID e =? i)%nat).
  assert (forall i a, trial_row d None i a = mkRow (Code a) (Type_ a) (sum Debit (pick (p i) (entries d))) (sum Credit (pick (p i) (entries d)))) as Hrow.
  { intros i a. unfold trial_row, pick, p. simpl. do 2 f_equal; apply list_filter_iff; intros e; by rewrite andb_true_r. }
  assert (forall i, 0 <= sum Debit (pick (p i) (entries d)) /\ 0 <= sum Credit (pick (p i) (entries d))) as Hpos.
  { intros i. split; apply sum_nonneg, Forall_forall; intros e [_ He]%list_elem_of_filter;
      rewrite Forall_forall in HF; destruct (HF e He) as (_ & _ & Hs); unfold side_ok in Hs; lia. }
  transitivity (sum_rows g (filter (fun r => has_side r = true) (imap (trial_row d None) (accounts d)))).
  { apply sum_rows_perm, merge_sort_Permutation. }
  rewrite sum_rows_filter.
  - rewrite (imap_ext _ (fun i => trial_row d None (0 + i)%nat)) by done.
    rewrite (sum_rows_imap g (trial_row d None) (accounts d) 0 (fun i => sum f (pick (p i) (entries d)))).
    + apply sum_split. eapply Forall_impl; [exact HF|]. simpl. tauto.
    + intros i a. rewrite Hrow. destruct Hf as [[-> ->]|[-> ->]]; done.
  - apply Forall_lookup_2. intros i r Hr. rewrite list_lookup_imap in Hr. apply fmap_Some in Hr as (a & _ & ->).
    rewrite Hrow. specialize (Hpos i). unfold has_side. simpl.
    destruct (Z.ltb_spec 0 (sum Debit (pick (p i) (entries d)))), (Z.ltb_spec 0 (sum Credit (pick (p i) (entries d)))); simpl; try done.
    destruct Hf as [[-> _]|[-> _]]; simpl; lia.
Qed.

(** Whatever journals are created, posted and reversed and wherever the database
    fails, the rows of the trial balance without a date add up, in cents, to the two
    sides of all entries, those of journals that were never posted included. *)
Theorem trial_rows_count_everything (d0 : DB) (ops : list ledger_op) (fs : list bool) :
  books d0 ->
  let d := (ledger_run (d0, fs) ops).1 in
  sum_rows RDebit (trial_rows d None) = sum Debit (entries d)
  /\ sum_rows RCredit (trial_rows d None) = sum Credit (entries d).
Proof.
  intros Hb d. pose proof (books_run ops (d0, fs) Hb) as Hd. fold d in Hd.
  split; apply trial_side; auto.
Qed.

(** ** Reversals *)

Definition posted_net (d : DB) (a : nat) : Z := sum net (posted_entries d a None).

(** The net of one journal on an account. *)
Definition journal_net (d : DB) (id a : nat) : Z :=
  sum net (pick (fun e => (JournalID e =? id)%nat && (AccountID e =? a)%nat) (entries d)).

Lemma posted_net_pick (d : DB) (a : nat) :
  posted_net d a = sum net (pick (fun e => (AccountID e =? a)%nat && is_posted d e) (entries d)).
Proof. unfold posted_net, posted_entries, pick. f_equal. apply list_filter_iff. intros e. by rewrite andb_true_r. Qed.

(** The swapped entries of a journal are on its own accounts. *)
Lemma reversed_net (d : DB) (id n a : nat) (now : Z) (l : list LedgerEntry) (ids : list nat) :
  NoDup (Code <$> accounts d) -> Forall (fun e => (AccountID e < length (accounts d))%nat) l ->
  Forall2 (fun e i => exists a, find_account (AccountCode e) (accounts d) 0 = Some (i, a))
    ((fun x => mkInput x.2 (Credit x.1) (Debit x.1)) <$> omap (fun e => if (JournalID e =? id)%nat then with_code d e else None) l) ids ->
  sum net (pick (fun e => (AccountID e =? a)%nat)
    (written n now ((fun x => mkInput x.2 (Credit x.1) (Debit x.1)) <$> omap (fun e => if (JournalID e =? id)%nat then with_code d e else None) l) ids))
  = - sum net (pick (fun e => (JournalID e =? id)%nat && (AccountID e =? a)%nat) l).
Proof.
  intros Hnd HF. revert ids. induction HF as [|e l He _ IH]; intros ids H; simpl in H |- *.
  - inversion H; subst. done.
  - rewrite pick_cons. destruct (Nat.eqb_spec (JournalID e) id) as [Ej|Ej]; simpl; [|by apply IH].
    apply lookup_lt_is_Some in He as [acc Ha]. unfold with_code in *. rewrite Ha in *. simpl in *.
    inversion H as [|x i l' ids' [b Hb] Hrest]; subst. simpl in Hb.
    pose proof (find_account_unique (accounts d) 0 i (AccountID e) acc b Hnd Hb Ha) as ->. specialize (IH ids' Hrest).
    unfold written in *. simpl in IH |- *. rewrite pick_cons. simpl. destruct (AccountID e =? a)%nat; simpl; [|exact IH].
    etransitivity; [exact (f_equal2 Z.add eq_refl IH)|]. unfold net at 1 3. simpl. lia.
Qed.

(** C16. Reversing a posted journal takes its effect away twice: the original no longer
    counts, because it is not posted any more, and the opposite entries do.  The
    books may be any that creating, posting and reversing journals lead to
    ([books]); amounts are whole cents. *)
Theorem reversal_counts_twice (d : DB) (id : nat) (now : Z) (fs : list bool) (rid : nat) (s' : session) (a : nat) :
  books d -> transaction (ReverseJournal id now) (d, fs) = (Ok rid, s') ->
  posted_net s'.1 a = posted_net d a - 2 * journal_net d id a.
Proof.
  intros Hb H. pose proof Hb as (Hnd & HF). apply transaction_commits in H as (fs1 & fs2 & H).
  apply reverse_ok in H as (j & ids & fs3 & Hj & Hp & _ & -> & HF2 & E). injection E as E _. rewrite E. clear E.
  rewrite !posted_net_pick. unfold with_journal at 2. simpl. rewrite pick_app, sum_app.
  set (d' := with_journal _ _ _). set (w := written _ _ _ _).
  assert (Forall (fun e => JournalID e = length (journals d)) w) as Hw.
  { unfold w, written. clear. revert ids.
    induction (_ <$> omap _ (entries d)) as [|x l IH]; intros [|i ids]; simpl; constructor; [done|apply IH]. }
  assert (journals d' = alter (fun j => set_jstatus JournalStatusReversed (PostedAt j) j) id (journals d)
            ++ [mkJournal RefTypeAdjustment (Some id) JournalStatusPosted (Some now) now]) as Ejs by done.
  rewrite (sum_pick_ext net _ (fun e => (AccountID e =? a)%nat) w).
  2: { eapply Forall_impl; [exact Hw|]. intros e He. unfold is_posted. rewrite Ejs, He, lookup_app_r by (rewrite length_alter; lia).
       rewrite length_alter, Nat.sub_diag. simpl. apply andb_true_r. }
  unfold w. rewrite (reversed_net d) by (done || (eapply Forall_impl; [exact HF|]; simpl; tauto)).
  fold (journal_net d id a).
  enough (sum net (pick (fun e => (AccountID e =? a)%nat && is_posted d' e) (entries d)) + journal_net d id a
          = sum net (pick (fun e => (AccountID e =? a)%nat && is_posted d e) (entries d))) by lia.
  unfold journal_net. clear HF2 w Hw. clearbody d'. induction HF as [|e l (He & _) _ IH]; [done|]. rewrite !pick_cons.
  assert (is_posted d' e = if (JournalID e =? id)%nat then false else is_posted d e) as ->.
  { unfold is_posted. rewrite Ejs, lookup_app_l by (rewrite length_alter; done).
    destruct (Nat.eqb_spec (JournalID e) id) as [->|Hne]; [by rewrite list_lookup_alter_eq, Hj|by rewrite list_lookup_alter_ne]. }
  destruct (Nat.eqb_spec (JournalID e) id) as [Ee|Ee]; simpl.
  - assert (is_posted d e = true) as -> by (unfold is_posted; rewrite Ee, Hj; by case_bool_decide).
    rewrite andb_false_r, andb_true_r. destruct (AccountID e =? a)%nat; simpl; lia.
  - destruct ((AccountID e =? a)%nat && is_posted d e); simpl; lia.
Qed.

(** ** Concrete books *)

Definition empty_db (checks : bool) (types : gmap string WalletTypeInfo) : DB :=
  mkDB checks [] [] [] types ∅ [] ∅ [] [] [].

Definition fresh_books : DB := (InitializeSystemAccounts (empty_db true ∅, [])).2.1.

Lemma fresh_books_ok : books fresh_books.
Proof.
  split; [by apply (bool_decide_unpack (NoDup (Code <$> accounts fresh_books)))|]. constructor.
Qed.

Definition topup (x : Z) : list JournalEntryInput := [mkInput AccCodeUserWallets x 0; mkInput AccCodeCompanyCash 0 x].

Definition some_ops : list ledger_op := [LCreate RefTypeWalletTopup None (topup 10000) 1; LPost 0 2; LCreate RefTypeFreeze None (topup 500) 3].

Lemma trial_rows_count_everything_witness :
  sum_rows RDebit (trial_rows (ledger_run (fresh_books, [false; true]) some_ops).1 None)
  = sum Debit (entries (ledger_run (fresh_books, [false; true]) some_ops).1).
Proof. exact (proj1 (trial_rows_count_everything fresh_books some_ops [false; true] fresh_books_ok)). Defined.

Definition posted_topup : DB := (ledger_run (fresh_books, []) [LCreate RefTypeWalletTopup None (topup 10000) 1; LPost 0 2]).1.

Lemma reversal_counts_twice_witness :
  posted_net posted_topup 0 = 10000 /\ posted_net (transaction (ReverseJournal 0 3) (posted_topup, [])).2.1 0 = -10000.
Proof.
  split; [vm_compute; reflexivity|].
  rewrite (reversal_counts_twice posted_topup 0 3 [] 1 (transaction (ReverseJournal 0 3) (posted_topup, [])).2 0).
  - vm_compute. reflexivity.
  - apply (books_run [LCreate RefTypeWalletTopup None (topup 10000) 1; LPost 0 2] (fresh_books, [])). exact fresh_books_ok.
  - vm_compute. reflexivity.
Defined.

(** One journal over the accounts of the wallets and the cash. *)
Definition lopsided (x y : Z) : list JournalEntryInput := [mkInput AccCodeUserWallets x 0; mkInput AccCodeCompanyCash 0 y].

Definition report (s : session) : option bool :=
  match (autocommit (GetTrialBalance None) s).1 with Ok tb => Some (IsBalanced tb) | Err _ => None end.

(** The tolerance lets a journal through that is off by a cent: with 0.02 and 0.01 the
    trial balance then says so, with 0.03 and 0.02, whose binary64 difference is less
    than 0.01, it is reported as balanced.  With 1.01 and 1.00, whose difference is
    more, the journal is refused. *)
Theorem cent_off_accepted :
  let run x y := ledger_run (fresh_books, []) [LCreate RefTypeAdjustment None (lopsided x y) 1] in
  length (entries (run 2 1).1) = 2%nat /\ report (run 2 1) = Some false
  /\ length (entries (run 3 2).1) = 2%nat /\ report (run 3 2) = Some true
  /\ validate (lopsided 101 100) = Err ErrUnbalanced.
Proof. vm_compute. done. Qed.

(** The trial balance without a date adds up journals that were never posted; the
    balance of the account does not. *)
Theorem trial_counts_pending :
  let s := ledger_run (fresh_books, []) [LCreate RefTypeFreeze None (topup 500) 1] in
  (match (autocommit (GetTrialBalance None) s).1 with Ok tb => TDebit tb | Err _ => cents 0 end = cents 500)
  /\ (match (autocommit (GetAccountBalance AccCodeUserWallets None) s).1 with Ok b => ABalance b | Err _ => cents 1 end = cents 0).
Proof. vm_compute. split; reflexivity. Qed.

(** A journal cannot be reversed in the transaction that created and posted it: it
    is looked up outside the transaction. *)
Theorem reversal_needs_commit :
  (transaction (id ← CreateJournal RefTypeWalletTopup None (topup 500) 1; _ ← PostJournal id 2; ReverseJournal id 3) (fresh_books, [])).1
  = Err ErrJournalNotFound.
Proof. vm_compute. reflexivity. Qed.
