(* ===== verification/Wallet.v ===== *)
(** * Wallets (apps/postgres-demo/services/wallet_service.go, wallet_rule_service.go)

    Wallets with an available and a frozen part, the transactions that move money
    between them, the rules that limit these, and the journals every operation
    writes.  Operations on a caller's transaction are in [M], whole calls in [St].
    Messages, and which of several violated rules is named, are left out. *)
From S2P Require Import Prelude Bank Ledger.

(** ** Rules *)

(** A column that is NULL applies to everything. *)
Definition matches (column : option string) (v : string) : bool :=
  match column with Some c => String.eqb c v | None => true end.

(** [GetApplicableRules] for active rules: [op] is None when the operation does
    not matter. *)
Definition applicable (walletType userID : string) (op : option string) (r : WalletRule) : bool :=
  RActive r && matches (RWalletType r) walletType && matches (RUserID r) userID
  && match op with
     | Some o => match ROperationType r with Some c => String.eqb c o || String.eqb c "all" | None => true end
     | None => true
     end.

Definition GetApplicableRules (walletType userID : string) (op : option string) : M (list WalletRule) :=
  _ ← stmt;
  read_committed (fun d => filter (fun r => applicable walletType userID op r = true) (rules d)).

Definition below (b : option Z) (x : Z) : bool := match b with Some m => x <? m | None => false end.

Definition above (b : option Z) (x : Z) : bool := match b with Some m => m <? x | None => false end.

Definition is_rule (t : WalletRuleType) (r : WalletRule) : bool := bool_decide (RuleType r = t).

Definition day : Z := 24 * 3600 * 1000000000.

(** The debits of a wallet completed on the day of [now]. *)
Definition daily_total (d : DB) (userID walletType : string) (now : Z) : Z :=
  foldr (fun t x => TAmount t + x) 0
    (filter (fun t => String.eqb (TUserID t) userID && String.eqb (TWalletType t) walletType
                      && bool_decide (TKind t = KindDebit) && bool_decide (TStatus t = StatusCompleted)
                      && (TCreatedAt t / day =? now / day) = true) (transactions d)).

(** One query per daily rule, up to the first that is exceeded. *)
Fixpoint daily_ok (l : list WalletRule) (userID walletType : string) (amount now : Z) : M bool :=
  match l with
  | [] => mret true
  | r :: l =>
      if is_rule RuleTypeDailyLimit r && bool_decide (PeriodType r = Some "daily")
      then _ ← stmt;
           total ← read_committed (fun d => daily_total d userID walletType now);
           if above (MaxValue r) (total + amount) then mret false else daily_ok l userID walletType amount now
      else daily_ok l userID walletType amount now
  end.

Definition ValidateTransfer (userID from : string) (amount now : Z) : M bool :=
  l ← GetApplicableRules from userID (Some "transfer");
  if existsb (fun r => is_rule RuleTypeTransferLimit r && (below (MinValue r) amount || above (MaxValue r) amount)) l
  then mret false
  else daily_ok l userID from amount now.

Definition ValidateBalance (userID walletType : string) (newBalance : Z) : M bool :=
  l ← GetApplicableRules walletType userID None;
  mret (negb (existsb (fun r => is_rule RuleTypeMinBalance r && below (MinValue r) newBalance) l)
        && negb (existsb (fun r => is_rule RuleTypeMaxBalance r && above (MaxValue r) newBalance) l)).

Definition ValidateAddBalance (userID walletType : string) (amount : Z) : M bool :=
  l ← GetApplicableRules walletType userID (Some "add_balance");
  _ ← stmt;
  cur ← read_committed (fun d => match wallets d !! (userID, walletType) with Some w => Balance w | None => 0 end);
  if existsb (fun r => is_rule RuleTypeDepositLimit r && above (MaxValue r) amount) l
  then mret false
  else ValidateBalance userID walletType (cur + amount).

Definition ValidateFreeze (userID walletType : string) (amount : Z) : M bool :=
  l ← GetApplicableRules walletType userID (Some "freeze");
  mret (negb (existsb (fun r => is_rule RuleTypeFreezeLimit r && above (MaxValue r) amount) l)).

(** ** The service *)

(** Whether the ledger and the rules are configured. *)
Record WalletService : Type := mkService { ledgerService : bool; ruleService : bool }.

Definition when (b : bool) (m : M unit) : M unit := if b then m else mret tt.

Definition check_rules (s : WalletService) (m : M bool) : M unit :=
  when (ruleService s) (ok ← m; if ok : bool then mret tt else fail ErrRuleViolation).

(** A statement whose error is ignored. *)
Definition ignored : M unit := fun _ '(d, fs) => (Ok tt, (d, tail fs)).

Definition WalletTypePrimary : string := "primary".

Definition type_active (t : option WalletTypeInfo) : M unit :=
  match t with
  | None => fail ErrWalletTypeNotFound
  | Some i => if IsActive i then mret tt else fail ErrWalletTypeInactive
  end.

Definition ValidateWalletType (walletType : string) : M unit :=
  _ ← stmt; t ← read_committed (fun d => wallet_types d !! walletType); type_active t.

Definition GetWalletTypeInfo (walletType : string) : M WalletTypeInfo :=
  _ ← stmt;
  t ← read_committed (fun d => wallet_types d !! walletType);
  match t with Some i => mret i | None => fail ErrWalletTypeNotFound end.

(** A wallet that does not exist is created, in a transaction of its own. *)
Definition GetWalletBalanceByType (userID walletType : string) : M Z :=
  _ ← ValidateWalletType walletType;
  _ ← stmt;
  w ← read (fun d => wallets d !! (userID, walletType));
  match w with
  | Some w => mret (Balance w - Frozen w)
  | None => w ← insert_wallet (userID, walletType) (mkWallet 0 0); mret (Balance w - Frozen w)
  end.

Record PendingInfo : Type := mkPending { TotalPendingAmount : Z; PendingCount : nat; PendingSum : Z; IsConsistent : bool }.

Definition of_wallet (key : string * string) (t : WalletTransaction) : bool :=
  String.eqb (TUserID t) key.1 && String.eqb (TWalletType t) key.2.

Definition pending_of (key : string * string) (l : list WalletTransaction) : list WalletTransaction :=
  filter (fun t => of_wallet key t && bool_decide (TStatus t = StatusPending) = true) l.

Definition amounts (l : list WalletTransaction) : Z := foldr (fun t x => TAmount t + x) 0 l.

Definition GetPendingInfoByType (userID walletType : string) : M PendingInfo :=
  _ ← ValidateWalletType walletType;
  _ ← stmt;
  w ← read (fun d => wallets d !! (userID, walletType));
  match w with
  | None => mret (mkPending 0 0 0 true)
  | Some w =>
      _ ← stmt;
      l ← read (fun d => pending_of (userID, walletType) (transactions d));
      mret (mkPending (Frozen w) (length l) (amounts l) (Frozen w =? amounts l))
  end.

(** A journal that is created and posted at once. *)
Definition book (s : WalletService) (rt : ReferenceType) (ri : option nat) (l : list JournalEntryInput) (now : Z) : M unit :=
  when (ledgerService s) (j ← CreateJournal rt ri l now; PostJournal j now).

Definition both_sides (debit credit : string) (amount : Z) : list JournalEntryInput :=
  [mkInput debit amount 0; mkInput credit 0 amount].

(** The maximum of the wallet type: an error of the balance counts as no balance. *)
Definition max_check (userID walletType : string) (amount : Z) (limit : option Z) : St unit := fun st =>
  match limit with
  | None => (Ok tt, st)
  | Some m =>
      let '(r, st') := autocommit (GetWalletBalanceByType userID walletType) st in
      let cur := match r with Ok b => b | Err _ => 0 end in
      if m <? cur + amount then (Err ErrMaxBalance, st') else (Ok tt, st')
  end.

(** [AddWalletBalanceByType] before its transaction. *)
Definition add_checks (s : WalletService) (userID walletType : string) (amount : Z) : St unit :=
  if amount <=? 0 then fail_st ErrAmountNotPositive
  else
    info ← autocommit (_ ← ValidateWalletType walletType; GetWalletTypeInfo walletType);
    _ ← autocommit (check_rules s (ValidateAddBalance userID walletType amount));
    max_check userID walletType amount (MaxBalance info).

Definition add_tx (s : WalletService) (userID walletType : string) (amount now : Z) : M unit :=
  let key := (userID, walletType) in
  _ ← stmt;
  w ← read (fun d => wallets d !! key);
  _ ← match w with
      | None => _ ← insert_wallet key (mkWallet amount 0); mret tt
      | Some _ =>
          r ← update_wallet key (fun _ => true) (fun w => mkWallet (Balance w + amount) (Frozen w));
          match r with Some _ => mret tt | None => fail ErrDatabase end
      end;
  id ← insert_transaction (mkTransaction userID walletType KindCredit amount None StatusCompleted now);
  book s RefTypeWalletTopup (Some id) (both_sides AccCodeUserWallets AccCodeCompanyCash amount) now.

Definition AddWalletBalanceByType (s : WalletService) (userID walletType : string) (amount now : Z) : St unit :=
  _ ← add_checks s userID walletType amount; transaction (add_tx s userID walletType amount now).

(** Freezing: part of a caller's transaction. *)
Definition FreezeAmountByType (s : WalletService) (userID walletType : string) (amount : Z) (orderID : option nat) (now : Z) : M nat :=
  let key := (userID, walletType) in
  _ ← check_rules s (ValidateFreeze userID walletType amount);
  _ ← stmt;
  t ← read (fun d => wallet_types d !! walletType);
  _ ← type_active t;
  r ← update_wallet key (fun w => (0 <? Balance w) && (amount <=? Balance w))
        (fun w => mkWallet (Balance w - amount) (Frozen w + amount));
  match r with
  | None => _ ← ignored; fail ErrInsufficientBalance
  | Some _ =>
      id ← insert_transaction (mkTransaction userID walletType KindDebit amount orderID StatusPending now);
      _ ← when (ledgerService s)
            (_ ← CreateJournal RefTypeFreeze orderID (both_sides AccCodeFrozenFunds AccCodeUserWallets amount) now; mret tt);
      mret id
  end.

Definition CommitTransactionByType (s : WalletService) (userID walletType : string) (amount : Z) (id : nat) (now : Z) : M unit :=
  r ← update_wallet (userID, walletType) (fun w => amount <=? Frozen w) (fun w => mkWallet (Balance w) (Frozen w - amount));
  match r with
  | None => _ ← ignored; fail ErrFrozenMismatch
  | Some _ =>
      _ ← settle_transaction id StatusCompleted;
      book s RefTypePurchase (Some id) (both_sides AccCodeCompanyCash AccCodeFrozenFunds amount) now
  end.

Definition RollbackTransactionByType (s : WalletService) (userID walletType : string) (amount : Z) (id : nat) (now : Z) : M unit :=
  r ← update_wallet (userID, walletType) (fun w => amount <=? Frozen w) (fun w => mkWallet (Balance w + amount) (Frozen w - amount));
  match r with
  | None => _ ← ignored; fail ErrFrozenMismatch
  | Some _ =>
      _ ← settle_transaction id StatusCancelled;
      book s RefTypeUnfreeze (Some id) (both_sides AccCodeUserWallets AccCodeFrozenFunds amount) now
  end.

(** The wallet type of a transaction. *)
Definition transaction_type (id : nat) : M string :=
  _ ← stmt;
  t ← read (fun d => transactions d !! id);
  match t with Some t => mret (TWalletType t) | None => fail ErrTransactionNotFound end.

Definition CommitTransaction (s : WalletService) (userID : string) (amount : Z) (id : nat) (now : Z) : M unit :=
  wt ← transaction_type id; CommitTransactionByType s userID wt amount id now.

Definition RollbackTransaction (s : WalletService) (userID : string) (amount : Z) (id : nat) (now : Z) : M unit :=
  wt ← transaction_type id; RollbackTransactionByType s userID wt amount id now.

(** [TransferBetweenWallets] before its transaction. *)
Definition transfer_checks (s : WalletService) (userID from to : string) (amount now : Z) : St unit :=
  if amount <=? 0 then fail_st ErrAmountNotPositive
  else if String.eqb from to then fail_st ErrSameWallet
  else
    _ ← autocommit (_ ← ValidateWalletType from; ValidateWalletType to);
    _ ← autocommit (check_rules s (ValidateTransfer userID from amount now));
    available ← autocommit (GetWalletBalanceByType userID from);
    if available <? amount then fail_st ErrInsufficientBalance else mret tt.

(** INSERT ... ON CONFLICT DO UPDATE SET balance = balance + amount *)
Definition credit_wallet (key : string * string) (amount : Z) : M unit :=
  _ ← stmt;
  w ← read (fun d => wallets d !! key);
  put_wallet key (match w with Some w => mkWallet (Balance w + amount) (Frozen w) | None => mkWallet amount 0 end).

Definition transfer_tx (s : WalletService) (userID from to : string) (amount now : Z) : M unit :=
  r ← update_wallet (userID, from) (fun w => amount <=? Balance w - Frozen w) (fun w => mkWallet (Balance w - amount) (Frozen w));
  match r with
  | None => _ ← ignored; fail ErrInsufficientBalance
  | Some _ =>
      _ ← credit_wallet (userID, to) amount;
      id ← insert_transaction (mkTransaction userID from KindDebit amount None StatusCompleted now);
      _ ← insert_transaction (mkTransaction userID to KindCredit amount None StatusCompleted now);
      book s RefTypeTransfer (Some id) (both_sides AccCodeUserWallets AccCodeUserWallets amount) now
  end.

Definition TransferBetweenWallets (s : WalletService) (userID from to : string) (amount now : Z) : St unit :=
  _ ← transfer_checks s userID from to amount now; transaction (transfer_tx s userID from to amount now).

(** ** Creating wallets *)

Definition initial_balance (i : WalletTypeInfo) : Z :=
  match MinBalance i with Some m => if 0 <? m then m else 0 | None => 0 end.

Fixpoint create_each (userID : string) (l : list (string * WalletTypeInfo)) : M unit :=
  match l with
  | [] => mret tt
  | (code, i) :: l =>
      _ ← (_ ← stmt;
           w ← read (fun d => wallets d !! (userID, code));
           match w with
           | Some _ => mret tt
           | None => _ ← insert_wallet (userID, code) (mkWallet (initial_balance i) 0); mret tt
           end);
      create_each userID l
  end.

Definition GetActiveWalletTypes : M (list (string * WalletTypeInfo)) :=
  _ ← stmt; read_committed (fun d => filter (fun p => IsActive p.2 = true) (map_to_list (wallet_types d))).

Definition AutoCreateWalletsForUser (userID : string) : St unit :=
  l ← autocommit GetActiveWalletTypes;
  match l with
  | [] => mret tt
  | _ => transaction (create_each userID l)
  end.

Definition CreateWalletForUser (userID walletType : string) : St unit :=
  autocommit (
    _ ← ValidateWalletType walletType;
    i ← GetWalletTypeInfo walletType;
    if negb (IsActive i) then fail ErrWalletTypeInactive
    else create_each userID [(walletType, i)]).

(** ** What the operations write *)

(** Only the ledger changed. *)
Definition ledger_only (d d' : DB) : Prop :=
  exists js es, d' = set_entries (set_journals d js) es.

Lemma ledger_only_refl (d : DB) : ledger_only d d.
Proof. exists (journals d), (entries d). by destruct d. Qed.

Lemma ledger_only_trans (d d1 d2 : DB) : ledger_only d d1 -> ledger_only d1 d2 -> ledger_only d d2.
Proof. intros (js & es & ->) (js' & es' & ->). by exists js', es'. Qed.

Lemma create_ledger_only (rt : ReferenceType) (ri : option nat) (l : list JournalEntryInput) (now : Z) (c d : DB)
    (fs : list bool) (id : nat) (s' : session) :
  CreateJournal rt ri l now c (d, fs) = (Ok id, s') -> ledger_only d s'.1.
Proof. intros H. apply create_journal_ok in H as (_ & _ & ids & fs' & -> & _). by eexists _, _. Qed.

Lemma book_ok (s : WalletService) (rt : ReferenceType) (ri : option nat) (l : list JournalEntryInput) (now : Z) (c d : DB)
    (fs : list bool) (u : unit) (s' : session) :
  book s rt ri l now c (d, fs) = (Ok u, s') -> ledger_only d s'.1.
Proof.
  unfold book, when. destruct (ledgerService s); intros H; [|run_inv H; apply ledger_only_refl].
  apply bind_ok in H as (j & [d1 fs1] & H1 & H). apply create_ledger_only in H1.
  apply post_journal_ok in H as (? & ? & _ & _ & ->). simpl in *. destruct H1 as (js & es & ->). by eexists _, _.
Qed.

Lemma when_rules_ok (s : WalletService) (m : M bool) (c d : DB) (fs : list bool) (u : unit) (s' : session) :
  (forall fs b s', m c (d, fs) = (Ok b, s') -> exists fs', s' = (d, fs')) ->
  check_rules s m c (d, fs) = (Ok u, s') -> exists fs', s' = (d, fs').
Proof.
  intros Hm. unfold check_rules, when. destruct (ruleService s); intros H; [|run_inv H; eauto].
  apply bind_ok in H as (b & s1 & H1 & H). apply Hm in H1 as [fs1 ->]. destruct b; run_inv H. eauto.
Qed.

Lemma applicable_ok (wt u : string) (op : option string) (c d : DB) (fs : list bool) (l : list WalletRule) (s' : session) :
  GetApplicableRules wt u op c (d, fs) = (Ok l, s') -> exists fs', s' = (d, fs').
Proof. unfold GetApplicableRules. intros H. run_inv H. eauto. Qed.

Lemma validate_freeze_ok (u wt : string) (x : Z) (c d : DB) (fs : list bool) (b : bool) (s' : session) :
  ValidateFreeze u wt x c (d, fs) = (Ok b, s') -> exists fs', s' = (d, fs').
Proof.
  unfold ValidateFreeze. intros H. apply bind_ok in H as (l & s1 & H1 & H). apply applicable_ok in H1 as [fs1 ->]. run_inv H. eauto.
Qed.

Lemma type_active_ok (t : option WalletTypeInfo) (c : DB) (s s' : session) (u : unit) :
  type_active t c s = (Ok u, s') -> s' = s /\ exists i, t = Some i /\ IsActive i = true.
Proof. unfold type_active. destruct t as [i|]; [|done]. destruct (IsActive i) eqn:E; [|done]. intros H. run_inv H. eauto. Qed.

(** Both parts of a wallet change. *)
Definition wallet_change (d d' : DB) (key : string * string) (w : Wallet) (ts : list WalletTransaction) : Prop :=
  exists d1, d1 = set_transactions (set_wallets d (<[key := w]> (wallets d))) ts /\ ledger_only d1 d'.

Lemma freeze_ok (s : WalletService) (u wt : string) (x : Z) (o : option nat) (now : Z) (c d : DB) (fs : list bool) (id : nat) (s' : session) :
  FreezeAmountByType s u wt x o now c (d, fs) = (Ok id, s') ->
  exists w, wallets d !! (u, wt) = Some w /\ 0 < Balance w /\ x <= Balance w
    /\ wallet_ok (constrained d) (mkWallet (Balance w - x) (Frozen w + x)) = true
    /\ id = length (transactions d) /\ decimal x = true
    /\ wallet_change d s'.1 (u, wt) (mkWallet (Balance w - x) (Frozen w + x))
         (transactions d ++ [mkTransaction u wt KindDebit x o StatusPending now]).
Proof.
  unfold FreezeAmountByType. intros H.
  apply bind_ok in H as (u1 & s1 & H1 & H). apply when_rules_ok in H1 as [fs1 ->]; [|apply validate_freeze_ok].
  apply bind_ok in H as (u2 & s2 & H2 & H). run_inv H2. apply bind_ok in H as (t & s3 & H3 & H). run_inv H3.
  apply bind_ok in H as (u4 & s4 & H4 & H). apply type_active_ok in H4 as [-> _].
  apply bind_ok in H as (r & s5 & H5 & H). apply update_wallet_ok in H5 as [(-> & [? ->] & _)|(w & fs5 & Hw & Hg & -> & Hok & ->)].
  { run_inv H. }
  apply andb_true_iff in Hg as [Hg1 Hg2]. apply Z.ltb_lt in Hg1. apply Z.leb_le in Hg2.
  apply bind_ok in H as (i & s6 & H6 & H). apply insert_transaction_ok in H6 as (-> & Hdec & fs6 & ->).
  apply bind_ok in H as (u7 & [d7 fs7] & H7 & H). run_inv H.
  exists w. repeat (split; [done|]). eexists. split; [done|].
  unfold when in H7. destruct (ledgerService s); run_inv H7; [|apply ledger_only_refl]. by apply create_ledger_only in Hm.
Qed.

Definition settled (st : TransactionStatus) (id : nat) (ts : list WalletTransaction) : list WalletTransaction :=
  alter (fun t => if bool_decide (TStatus t = StatusPending) then set_status st t else t) id ts.

Lemma settle_ok (id : nat) (st : TransactionStatus) (c d : DB) (fs : list bool) (u : unit) (s' : session) :
  settle_transaction id st c (d, fs) = (Ok u, s') -> exists fs', s' = (set_transactions d (settled st id (transactions d)), fs').
Proof. unfold settle_transaction. intros H. run_inv H. eauto. Qed.

Lemma commit_type_ok (s : WalletService) (u wt : string) (x : Z) (id : nat) (now : Z) (c d : DB) (fs : list bool) (r : unit) (s' : session) :
  CommitTransactionByType s u wt x id now c (d, fs) = (Ok r, s') ->
  exists w, wallets d !! (u, wt) = Some w /\ x <= Frozen w
    /\ wallet_ok (constrained d) (mkWallet (Balance w) (Frozen w - x)) = true
    /\ wallet_change d s'.1 (u, wt) (mkWallet (Balance w) (Frozen w - x)) (settled StatusCompleted id (transactions d)).
Proof.
  unfold CommitTransactionByType. intros H.
  apply bind_ok in H as (q & s1 & H1 & H). apply update_wallet_ok in H1 as [(-> & [? ->] & _)|(w & fs1 & Hw & Hg & -> & Hok & ->)].
  { run_inv H. }
  apply Z.leb_le in Hg. apply bind_ok in H as (u2 & s2 & H2 & H). apply settle_ok in H2 as [fs2 ->]. apply book_ok in H.
  exists w. repeat (split; [done|]). by eexists.
Qed.

Lemma rollback_type_ok (s : WalletService) (u wt : string) (x : Z) (id : nat) (now : Z) (c d : DB) (fs : list bool) (r : unit) (s' : session) :
  RollbackTransactionByType s u wt x id now c (d, fs) = (Ok r, s') ->
  exists w, wallets d !! (u, wt) = Some w /\ x <= Frozen w
    /\ wallet_ok (constrained d) (mkWallet (Balance w + x) (Frozen w - x)) = true
    /\ wallet_change d s'.1 (u, wt) (mkWallet (Balance w + x) (Frozen w - x)) (settled StatusCancelled id (transactions d)).
Proof.
  unfold RollbackTransactionByType. intros H.
  apply bind_ok in H as (q & s1 & H1 & H). apply update_wallet_ok in H1 as [(-> & [? ->] & _)|(w & fs1 & Hw & Hg & -> & Hok & ->)].
  { run_inv H. }
  apply Z.leb_le in Hg. apply bind_ok in H as (u2 & s2 & H2 & H). apply settle_ok in H2 as [fs2 ->]. apply book_ok in H.
  exists w. repeat (split; [done|]). by eexists.
Qed.

Lemma transaction_type_ok (id : nat) (c d : DB) (fs : list bool) (wt : string) (s' : session) :
  transaction_type id c (d, fs) = (Ok wt, s') ->
  exists t fs', transactions d !! id = Some t /\ wt = TWalletType t /\ s' = (d, fs').
Proof. unfold transaction_type. intros H. run_inv H. case_match; run_inv H. eauto. Qed.

Lemma add_tx_ok (s : WalletService) (u wt : string) (x now : Z) (c d : DB) (fs : list bool) (r : unit) (s' : session) :
  add_tx s u wt x now c (d, fs) = (Ok r, s') ->
  let w := default (mkWallet 0 0) (wallets d !! (u, wt)) in
  wallet_ok (constrained d) (mkWallet (Balance w + x) (Frozen w)) = true
  /\ wallet_change d s'.1 (u, wt) (mkWallet (Balance w + x) (Frozen w))
       (transactions d ++ [mkTransaction u wt KindCredit x None StatusCompleted now]).
Proof.
  unfold add_tx. intros H. apply bind_ok in H as (u1 & s1 & H1 & H). run_inv H1. apply bind_ok in H as (w & s2 & H2 & H). run_inv H2.
  apply bind_ok in H as (u3 & s3 & H3 & H).
  assert (exists fs3, let w := default (mkWallet 0 0) (wallets d !! (u, wt)) in
    wallet_ok (constrained d) (mkWallet (Balance w + x) (Frozen w)) = true
    /\ s3 = (set_wallets d (<[(u, wt) := mkWallet (Balance w + x) (Frozen w)]> (wallets d)), fs3)) as (fs3 & Hok & ->).
  { destruct (wallets d !! (u, wt)) as [w|] eqn:Ew; simpl.
    - apply bind_ok in H3 as (q & s4 & H4 & H3). apply update_wallet_ok in H4 as [(-> & [? ->] & _)|(w' & fs4 & Hw & _ & -> & Hok & ->)]; run_inv H3.
      simplify_eq. eauto.
    - run_inv H3. apply insert_wallet_ok in Hm as (-> & _ & Hok & fs4 & ->). eauto. }
  split; [done|]. apply bind_ok in H as (id & s5 & H5 & H). apply insert_transaction_ok in H5 as (-> & _ & fs5 & ->).
  apply book_ok in H. by eexists.
Qed.

Lemma transfer_tx_ok (s : WalletService) (u from to : string) (x now : Z) (c d : DB) (fs : list bool) (r : unit) (s' : session) :
  from <> to -> transfer_tx s u from to x now c (d, fs) = (Ok r, s') ->
  exists w, wallets d !! (u, from) = Some w /\ x <= Balance w - Frozen w
    /\ let v := default (mkWallet 0 0) (wallets d !! (u, to)) in
    wallet_ok (constrained d) (mkWallet (Balance w - x) (Frozen w)) = true
    /\ wallet_ok (constrained d) (mkWallet (Balance v + x) (Frozen v)) = true
    /\ ledger_only (set_transactions
         (set_wallets d (<[(u, to) := mkWallet (Balance v + x) (Frozen v)]> (<[(u, from) := mkWallet (Balance w - x) (Frozen w)]> (wallets d))))
         ((transactions d ++ [mkTransaction u from KindDebit x None StatusCompleted now])
            ++ [mkTransaction u to KindCredit x None StatusCompleted now])) s'.1.
Proof.
  intros Hne. unfold transfer_tx. intros H.
  apply bind_ok in H as (q & s1 & H1 & H). apply update_wallet_ok in H1 as [(-> & [? ->] & _)|(w & fs1 & Hw & Hg & -> & Hok & ->)].
  { run_inv H. }
  apply Z.leb_le in Hg. exists w. split; [done|]. split; [done|]. split; [done|].
  apply bind_ok in H as (u2 & s2 & H2 & H). unfold credit_wallet in H2. run_inv H2. apply put_wallet_ok in H2 as [Hok2 [fs2 ->]].
  simpl in Hok2. rewrite lookup_insert_ne in * by congruence. split; [by destruct (wallets d !! (u, to))|].
  apply bind_ok in H as (i1 & s3 & H3 & H). apply insert_transaction_ok in H3 as (_ & _ & fs3 & ->).
  apply bind_ok in H as (i2 & s4 & H4 & H). apply insert_transaction_ok in H4 as (_ & _ & fs4 & ->). apply book_ok in H.
  by destruct (wallets d !! (u, to)).
Qed.

(** ** Operations that only read *)

Definition readonly {A} (m : M A) : Prop := forall c d fs, (m c (d, fs)).2.1 = d.

Lemma readonly_bind {A B} (m : M A) (f : A -> M B) : readonly m -> (forall a, readonly (f a)) -> readonly (m ≫= f).
Proof.
  intros Hm Hf c d fs. unfold mbind, M_bind. specialize (Hm c d fs). destruct (m c (d, fs)) as [[a|e] [d1 fs1]]; simpl in *; subst; [apply Hf|done].
Qed.

Lemma readonly_stmt : readonly stmt.
Proof. intros c d fs. unfold stmt. by repeat case_match. Qed.

Lemma readonly_ret {A} (a : A) : readonly (mret a).
Proof. done. Qed.

Lemma readonly_fail {A} (e : bank_error) : readonly (@fail A e).
Proof. done. Qed.

Lemma readonly_read {A} (f : DB -> A) : readonly (read f).
Proof. done. Qed.

Lemma readonly_read_committed {A} (f : DB -> A) : readonly (read_committed f).
Proof. done. Qed.

Create HintDb readonly discriminated.
#[export] Hint Resolve readonly_stmt readonly_ret readonly_fail readonly_read readonly_read_committed : readonly.
#[export] Hint Extern 2 (readonly (_ ≫= _)) => apply readonly_bind; [|intros ?] : readonly.
#[export] Hint Extern 3 (readonly (match ?x with _ => _ end)) => destruct x : readonly.

Lemma readonly_applicable wt u op : readonly (GetApplicableRules wt u op).
Proof. unfold GetApplicableRules. eauto with readonly. Qed.
#[export] Hint Resolve readonly_applicable : readonly.

Lemma readonly_daily l u wt x now : readonly (daily_ok l u wt x now).
Proof. induction l as [|r l IH]; simpl; eauto 10 with readonly. Qed.
#[export] Hint Resolve readonly_daily : readonly.

Lemma readonly_validate_balance u wt x : readonly (ValidateBalance u wt x).
Proof. unfold ValidateBalance. eauto with readonly. Qed.
#[export] Hint Resolve readonly_validate_balance : readonly.

Lemma readonly_validate_add u wt x : readonly (ValidateAddBalance u wt x).
Proof. unfold ValidateAddBalance. eauto 10 with readonly. Qed.

Lemma readonly_validate_transfer u wt x now : readonly (ValidateTransfer u wt x now).
Proof. unfold ValidateTransfer. eauto 10 with readonly. Qed.

Lemma readonly_check s m : readonly m -> readonly (check_rules s m).
Proof. intros Hm. unfold check_rules, when. eauto 10 with readonly. Qed.
#[export] Hint Resolve readonly_validate_add readonly_validate_transfer readonly_check : readonly.

Lemma readonly_type wt : readonly (ValidateWalletType wt).
Proof. unfold ValidateWalletType, type_active. eauto 10 with readonly. Qed.

Lemma readonly_info wt : readonly (GetWalletTypeInfo wt).
Proof. unfold GetWalletTypeInfo. eauto 10 with readonly. Qed.
#[export] Hint Resolve readonly_type readonly_info : readonly.

(** Nothing but an empty wallet was added. *)
Definition quiet (d d' : DB) : Prop :=
  d' = d \/ exists key, wallets d !! key = None /\ d' = set_wallets d (<[key := mkWallet 0 0]> (wallets d)).

Lemma insert_wallet_any (key : string * string) (w : Wallet) (c d : DB) (fs : list bool) :
  (insert_wallet key w c (d, fs)).2.1 = d
  \/ (wallets d !! key = None /\ wallet_ok (constrained d) w = true
      /\ (insert_wallet key w c (d, fs)).2.1 = set_wallets d (<[key := w]> (wallets d))).
Proof.
  cbv [insert_wallet put_wallet mbind M_bind stmt read guard_constraint write mret M_ret fail].
  destruct fs as [|[] fs]; simpl; [|by left|]; destruct (wallets d !! key); simpl; [by left| |by left|];
    (destruct (wallet_ok (constrained d) w) eqn:E; simpl; [right|left]; auto).
Qed.

Lemma balance_quiet (u wt : string) (c d : DB) (fs : list bool) : quiet d (GetWalletBalanceByType u wt c (d, fs)).2.1.
Proof.
  unfold GetWalletBalanceByType. unfold mbind at 1, M_bind at 1. pose proof (readonly_type wt c d fs) as Hr.
  destruct (ValidateWalletType wt c (d, fs)) as [[x|e] [d1 fs1]]; simpl in Hr; subst; [|by left].
  unfold mbind at 1, M_bind at 1. pose proof (readonly_stmt c d fs1) as Hs.
  destruct (stmt c (d, fs1)) as [[y|e] [d1 fs2]]; simpl in Hs; subst; [|by left].
  unfold mbind at 1, M_bind at 1. simpl. destruct (wallets d !! (u, wt)) as [w|] eqn:Ew; [by left|].
  unfold mbind, M_bind. pose proof (insert_wallet_any (u, wt) (mkWallet 0 0) c d fs2) as H.
  destruct (insert_wallet (u, wt) (mkWallet 0 0) c (d, fs2)) as [[z|e] s2]; simpl in *; destruct H as [->|(_ & _ & ->)]; (by left) || right; eauto.
Qed.

(** Checks that only read, before something quiet. *)
Lemma st_readonly_bind {A B} (m : M A) (f : A -> St B) (d : DB) (fs : list bool) (P : DB -> DB -> Prop) :
  readonly m -> P d d -> (forall a fs', P d (f a (d, fs')).2.1) -> P d ((autocommit m ≫= f) (d, fs)).2.1.
Proof.
  intros Hm Hd Hf. unfold mbind, St_bind, autocommit. specialize (Hm d d fs).
  destruct (m d (d, fs)) as [[a|e] [d1 fs1]]; simpl in *; subst; [apply Hf|done].
Qed.

Lemma add_checks_quiet (s : WalletService) (u wt : string) (x : Z) (d : DB) (fs : list bool) :
  quiet d (add_checks s u wt x (d, fs)).2.1.
Proof.
  unfold add_checks. destruct (x <=? 0); [by left|].
  apply (st_readonly_bind _ _ d fs quiet); [eauto with readonly|by left|]. intros i fs1.
  apply (st_readonly_bind _ _ d fs1 quiet); [eauto with readonly|by left|]. intros _ fs2.
  unfold max_check. destruct (MaxBalance i) as [m|]; [|by left]. unfold autocommit. pose proof (balance_quiet u wt d d fs2) as Hq.
  destruct (GetWalletBalanceByType u wt d (d, fs2)) as [r s']. simpl in Hq. by case_match.
Qed.

Lemma transfer_checks_quiet (s : WalletService) (u from to : string) (x now : Z) (d : DB) (fs : list bool) :
  quiet d (transfer_checks s u from to x now (d, fs)).2.1.
Proof.
  unfold transfer_checks. destruct (x <=? 0); [by left|]. destruct (from =? to)%string; [by left|].
  apply (st_readonly_bind _ _ d fs quiet); [eauto with readonly|by left|]. intros _ fs1.
  apply (st_readonly_bind _ _ d fs1 quiet); [eauto with readonly|by left|]. intros _ fs2.
  unfold mbind, St_bind, autocommit. pose proof (balance_quiet u from d d fs2) as Hq.
  destruct (GetWalletBalanceByType u from d (d, fs2)) as [[a|e] s']; simpl in *; [|done]. by case_match.
Qed.

(** ** Money and pending transactions *)

Definition worth (w : Wallet) : Z := Balance w + Frozen w.

Definition total_of (m : gmap (string * string) Wallet) : Z := map_fold (fun _ w t => worth w + t) 0 m.

Definition total (d : DB) : Z := total_of (wallets d).

Definition worth_at (m : gmap (string * string) Wallet) (key : string * string) : Z :=
  match m !! key with Some w => worth w | None => 0 end.

Lemma total_fresh (m : gmap (string * string) Wallet) (key : string * string) (w : Wallet) :
  m !! key = None -> total_of (<[key := w]> m) = worth w + total_of m.
Proof. intros H. unfold total_of. rewrite map_fold_insert_L; [done| |done]. intros. lia. Qed.

Lemma total_of_insert (m : gmap (string * string) Wallet) (key : string * string) (w : Wallet) :
  total_of (<[key := w]> m) = total_of m - worth_at m key + worth w.
Proof.
  unfold worth_at. destruct (m !! key) as [v|] eqn:E; [|rewrite total_fresh by done; lia].
  rewrite <- (insert_delete_eq m key w), total_fresh by apply lookup_delete_eq.
  assert (total_of m = worth v + total_of (delete key m)) as ->; [|lia].
  rewrite <- (total_fresh (delete key m) key v) by apply lookup_delete_eq. by rewrite insert_delete_id.
Qed.

(** No wallet is in debt. *)
Definition purse (d : DB) : Prop :=
  forall key w, wallets d !! key = Some w ->
    0 <= Balance w /\ 0 <= Frozen w /\ (constrained d = true -> Frozen w <= Balance w).

Definition frozen_of (d : DB) (key : string * string) : Z :=
  match wallets d !! key with Some w => Frozen w | None => 0 end.

(** The frozen part of every wallet is the sum of its pending transactions. *)
Definition consistent (d : DB) : Prop :=
  forall key, frozen_of d key = amounts (pending_of key (transactions d)).

Lemma pending_app (key : string * string) (l k : list WalletTransaction) :
  amounts (pending_of key (l ++ k)) = amounts (pending_of key l) + amounts (pending_of key k).
Proof.
  unfold pending_of. rewrite filter_app. generalize (filter (fun t => of_wallet key t && bool_decide (TStatus t = StatusPending) = true) k).
  intros q. induction (filter _ l) as [|t l' IH]; simpl; [lia|]. unfold amounts in *. simpl in *. lia.
Qed.

Lemma pending_cons (key : string * string) (t : WalletTransaction) (l : list WalletTransaction) :
  amounts (pending_of key (t :: l))
  = (if of_wallet key t && bool_decide (TStatus t = StatusPending) then TAmount t else 0) + amounts (pending_of key l).
Proof.
  unfold pending_of. destruct (of_wallet key t && bool_decide (TStatus t = StatusPending)) eqn:E.
  - by rewrite filter_cons_True.
  - rewrite filter_cons_False; [done|]. by rewrite E.
Qed.

Lemma pending_settled (key : string * string) (st : TransactionStatus) (id : nat) (t : WalletTransaction) (l : list WalletTransaction) :
  st <> StatusPending -> l !! id = Some t -> TStatus t = StatusPending ->
  amounts (pending_of key (settled st id l)) = amounts (pending_of key l) - (if of_wallet key t then TAmount t else 0).
Proof.
  intros Hst. revert id. induction l as [|x l IH]; intros [|id] Hl Hp; simplify_eq/=.
  - unfold settled. simpl. rewrite bool_decide_true by done. rewrite !pending_cons. simpl.
    rewrite bool_decide_false by done. rewrite (bool_decide_true (TStatus t = StatusPending)) by done.
    change (of_wallet key (set_status st t)) with (of_wallet key t). destruct (of_wallet key t); simpl; lia.
  - change (settled st (S id) (x :: l)) with (x :: settled st id l). rewrite !pending_cons, (IH id) by done. lia.
Qed.

Lemma ledger_only_views (d d' : DB) :
  ledger_only d d' -> wallets d' = wallets d /\ transactions d' = transactions d /\ constrained d' = constrained d
    /\ wallet_types d' = wallet_types d.
Proof. by intros (js & es & ->). Qed.

Lemma wallet_ok_spec (b : bool) (w : Wallet) :
  wallet_ok b w = true -> b = true -> 0 <= Balance w /\ 0 <= Frozen w <= Balance w.
Proof.
  unfold wallet_ok. intros H ->. apply andb_true_iff in H as [_ H]. simpl in H.
  apply andb_true_iff in H as [H H3]. apply andb_true_iff in H as [H1 H2].
  apply Z.leb_le in H1, H2, H3. lia.
Qed.

(** Pending transactions never have a negative amount. *)
Definition amounts_ok (ts : list WalletTransaction) : Prop := Forall (fun t => TStatus t = StatusPending -> 0 <= TAmount t) ts.

Definition sane (d : DB) : Prop := purse d /\ consistent d /\ amounts_ok (transactions d).

Lemma amounts_ok_snoc (ts : list WalletTransaction) (t : WalletTransaction) :
  amounts_ok ts -> (TStatus t = StatusPending -> 0 <= TAmount t) -> amounts_ok (ts ++ [t]).
Proof. intros H Ht. apply Forall_app. split; [done|]. by apply Forall_singleton. Qed.

Lemma amounts_ok_settled (ts : list WalletTransaction) (st : TransactionStatus) (id : nat) :
  st <> StatusPending -> amounts_ok ts -> amounts_ok (settled st id ts).
Proof.
  intros Hst H. unfold settled. apply Forall_lookup_2. intros k t Hk. destruct (decide (k = id)) as [->|Hne].
  - rewrite list_lookup_alter_eq in Hk. destruct (ts !! id) as [t0|] eqn:E; simplify_eq/=.
    case_bool_decide; [done|]. by apply (Forall_lookup_1 _ _ _ _ H E).
  - rewrite list_lookup_alter_ne in Hk by done. by apply (Forall_lookup_1 _ _ _ _ H Hk).
Qed.

Lemma sane_change (d d' : DB) (key : string * string) (w : Wallet) (ts : list WalletTransaction) :
  sane d -> wallet_change d d' key w ts -> wallet_ok (constrained d) w = true -> amounts_ok ts -> 0 <= Balance w -> 0 <= Frozen w ->
  (forall k, amounts (pending_of k ts) = amounts (pending_of k (transactions d)) + (if decide (k = key) then Frozen w - frozen_of d key else 0)) ->
  sane d' /\ total d' = total d - worth_at (wallets d) key + worth w.
Proof.
  intros (Hp & Hc & Ha) (d1 & -> & Hl) Hok Hats Hb Hf Hts. apply ledger_only_views in Hl as (Ew & Et & Ec & _). simpl in *. split; [split; [|split]|].
  - intros k v Hv. rewrite Ew in Hv. rewrite Ec. apply lookup_insert_Some in Hv as [[<- <-]|[_ Hv]]; [|by apply (Hp k)].
    split; [done|]. split; [done|]. intros Hcs. by apply (wallet_ok_spec _ _ Hok).
  - intros k. rewrite Et, Hts, <- (Hc k). unfold frozen_of at 1. rewrite Ew. destruct (decide (k = key)) as [->|Hne].
    + rewrite lookup_insert_eq. lia.
    + rewrite lookup_insert_ne by done. unfold frozen_of. lia.
  - by rewrite Et.
  - unfold total. rewrite Ew. apply total_of_insert.
Qed.

Lemma sane_quiet (d d' : DB) : sane d -> quiet d d' -> sane d' /\ total d' = total d.
Proof.
  intros Hs [->|(key & Hk & ->)]; [done|].
  destruct (sane_change d (set_wallets d (<[key := mkWallet 0 0]> (wallets d))) key (mkWallet 0 0) (transactions d)) as [H1 H2]; try done.
  - eexists. split; [done|]. destruct d. apply ledger_only_refl.
  - simpl. by destruct (constrained d).
  - apply Hs.
  - intros k. case_decide; [|lia]. unfold frozen_of. rewrite Hk. simpl. lia.
  - split; [done|]. rewrite H2. unfold worth_at. rewrite Hk. unfold worth. simpl. lia.
Qed.

(** ** Any sequence of operations *)

(** [t] is a pending transaction of the caller's. *)
Definition pending_row (d : DB) (id : nat) (u : string) (x : Z) : Prop :=
  exists t, transactions d !! id = Some t /\ TStatus t = StatusPending /\ TUserID t = u /\ TAmount t = x.

Definition gained (x : Z) (r : result bank_error unit) : Z := match r with Ok _ => x | Err _ => 0 end.

(** One call with any faults; the number is the money it brings in.  Commits and
    rollbacks are of pending transactions, with their user and amount. *)
Inductive bank_step (s : WalletService) (d : DB) : Z -> DB -> Prop :=
| step_add u wt x now fs :
    bank_step s d (gained x (AddWalletBalanceByType s u wt x now (d, fs)).1) (AddWalletBalanceByType s u wt x now (d, fs)).2.1
| step_transfer u from to x now fs : bank_step s d 0 (TransferBetweenWallets s u from to x now (d, fs)).2.1
| step_balance u wt fs : bank_step s d 0 (autocommit (GetWalletBalanceByType u wt) (d, fs)).2.1
| step_freeze u wt x o now fs :
    0 <= x -> bank_step s d 0 (transaction (FreezeAmountByType s u wt x o now) (d, fs)).2.1
| step_commit u x id now fs :
    pending_row d id u x ->
    bank_step s d (gained (- x) (transaction (CommitTransaction s u x id now) (d, fs)).1)
      (transaction (CommitTransaction s u x id now) (d, fs)).2.1
| step_rollback u x id now fs :
    pending_row d id u x -> bank_step s d 0 (transaction (RollbackTransaction s u x id now) (d, fs)).2.1.

Lemma add_step (s : WalletService) (u wt : string) (x now : Z) (d : DB) (fs : list bool) :
  sane d ->
  let r := AddWalletBalanceByType s u wt x now (d, fs) in sane r.2.1 /\ total r.2.1 = total d + gained x r.1.
Proof.
  intros Hs. unfold AddWalletBalanceByType. unfold mbind, St_bind. pose proof (add_checks_quiet s u wt x d fs) as Hq.
  assert ((add_checks s u wt x (d, fs)).1 <> Ok tt \/ 0 < x) as Hx.
  { unfold add_checks. destruct (Z.leb_spec x 0); [by left|by right]. }
  destruct (add_checks s u wt x (d, fs)) as [[[]|e] [d1 fs1]]; cbn [fst snd] in *; destruct (sane_quiet d d1 Hs Hq) as [Hs1 Ht1]; [|simpl; split; [done|lia]].
  destruct Hx as [Hx|Hx]; [done|]. destruct (transaction (add_tx s u wt x now) (d1, fs1)) as [[[]|e] s2] eqn:E; cbn [fst snd gained].
  2: { apply transaction_rolls_back in E. rewrite E. split; [done|lia]. }
  apply transaction_commits in E as (fs2 & fs3 & E). apply add_tx_ok in E as [Hok Hch]. rewrite <- Ht1.
  set (w := default (mkWallet 0 0) (wallets d1 !! (u, wt))) in *.
  assert (0 <= Balance w /\ 0 <= Frozen w /\ worth w = worth_at (wallets d1) (u, wt) /\ Frozen w = frozen_of d1 (u, wt)) as (Hb & Hf & Hw & Hfr).
  { unfold w, worth_at, frozen_of. destruct (wallets d1 !! (u, wt)) as [v|] eqn:Ev; simpl; [|done].
    destruct Hs1 as (Hp & _). destruct (Hp _ _ Ev) as (? & ? & _). done. }
  destruct (sane_change _ _ _ _ _ Hs1 Hch Hok) as [H1 H2]; simpl; [by apply amounts_ok_snoc; [apply Hs1|]|lia|done| |split; [done|]].
  - intros k. rewrite pending_app, pending_cons. simpl. rewrite andb_false_r. case_decide; lia.
  - simpl in H2. rewrite H2, <- Hw. unfold worth. simpl. lia.
Qed.

Lemma freeze_sane (s : WalletService) (u wt : string) (x : Z) (o : option nat) (now : Z) (c d : DB) (fs : list bool) (id : nat) (s' : session) :
  sane d -> 0 <= x -> FreezeAmountByType s u wt x o now c (d, fs) = (Ok id, s') -> sane s'.1 /\ total s'.1 = total d.
Proof.
  intros Hs Hx E. apply freeze_ok in E as (w & Hw & Hb & Hle & Hok & _ & _ & Hch). pose proof Hs as (Hp & _). destruct (Hp _ _ Hw) as (? & Hf & _).
  destruct (sane_change _ _ _ _ _ Hs Hch Hok) as [H1 H2]; simpl; [by apply amounts_ok_snoc; [apply Hs|]|lia|lia| |split; [done|]].
  - intros k. rewrite pending_app, pending_cons. simpl. rewrite andb_true_r. unfold of_wallet, frozen_of. simpl. rewrite Hw.
    case_decide as Hk; [subst; simpl; rewrite !String.eqb_refl; simpl; lia|].
    destruct k as [k1 k2]. simpl. destruct (String.eqb_spec u k1), (String.eqb_spec wt k2); simpl; try lia. subst. done.
  - rewrite H2. unfold worth_at. rewrite Hw. unfold worth. simpl. lia.
Qed.

Lemma of_wallet_self (t : WalletTransaction) (key : string * string) :
  of_wallet key t = bool_decide (key = (TUserID t, TWalletType t)).
Proof.
  unfold of_wallet. destruct key as [k1 k2]. simpl. destruct (String.eqb_spec (TUserID t) k1), (String.eqb_spec (TWalletType t) k2); simpl;
    case_bool_decide; congruence.
Qed.

Lemma settle_sane (d d' : DB) (st : TransactionStatus) (id : nat) (t : WalletTransaction) (w : Wallet) (b : Z) :
  sane d -> transactions d !! id = Some t -> TStatus t = StatusPending -> st <> StatusPending ->
  wallets d !! (TUserID t, TWalletType t) = Some w -> TAmount t <= Frozen w -> 0 <= b ->
  wallet_ok (constrained d) (mkWallet b (Frozen w - TAmount t)) = true ->
  wallet_change d d' (TUserID t, TWalletType t) (mkWallet b (Frozen w - TAmount t)) (settled st id (transactions d)) ->
  sane d' /\ total d' = total d + b - Balance w - TAmount t.
Proof.
  intros Hs Ht Hp Hst Hw Hle Hb Hok Hch.
  destruct (sane_change _ _ _ _ _ Hs Hch Hok) as [H1 H2]; simpl; [apply amounts_ok_settled; [done|apply Hs]|lia|lia| |split; [done|]].
  - intros k. rewrite (pending_settled k st id t) by done. rewrite of_wallet_self. unfold frozen_of. rewrite Hw.
    case_decide; case_bool_decide; subst; try done; lia.
  - rewrite H2. unfold worth_at. rewrite Hw. unfold worth. simpl. lia.
Qed.

Lemma commit_sane (s : WalletService) (u : string) (x : Z) (id : nat) (now : Z) (c d : DB) (fs : list bool) (r : unit) (s' : session) :
  sane d -> pending_row d id u x -> CommitTransaction s u x id now c (d, fs) = (Ok r, s') ->
  sane s'.1 /\ total s'.1 = total d - x.
Proof.
  intros Hs (t & Ht & Hp & <- & <-) E. unfold CommitTransaction in E. apply bind_ok in E as (wt & s1 & E1 & E).
  apply transaction_type_ok in E1 as (t' & fs' & Ht' & -> & ->). simplify_eq.
  apply commit_type_ok in E as (w & Hw & Hle & Hok & Hch). pose proof Hs as (Hpu & _ & Ham). destruct (Hpu _ _ Hw) as (Hb & _).
  destruct (settle_sane d s'.1 StatusCompleted id t w (Balance w)) as [H1 H2]; try done. split; [done|lia].
Qed.

Lemma rollback_sane (s : WalletService) (u : string) (x : Z) (id : nat) (now : Z) (c d : DB) (fs : list bool) (r : unit) (s' : session) :
  sane d -> pending_row d id u x -> RollbackTransaction s u x id now c (d, fs) = (Ok r, s') ->
  sane s'.1 /\ total s'.1 = total d.
Proof.
  intros Hs (t & Ht & Hp & <- & <-) E. unfold RollbackTransaction in E. apply bind_ok in E as (wt & s1 & E1 & E).
  apply transaction_type_ok in E1 as (t' & fs' & Ht' & -> & ->). simplify_eq.
  apply rollback_type_ok in E as (w & Hw & Hle & Hok & Hch). pose proof Hs as (Hpu & _ & Ham). destruct (Hpu _ _ Hw) as (Hb & _).
  destruct (settle_sane d s'.1 StatusCancelled id t w (Balance w + TAmount t)) as [H1 H2]; try done.
  { pose proof (Forall_lookup_1 _ _ _ _ Ham Ht Hp). simpl in *. lia. } split; [done|lia].
Qed.

Lemma transfer_step (s : WalletService) (u from to : string) (x now : Z) (d : DB) (fs : list bool) :
  sane d -> let r := TransferBetweenWallets s u from to x now (d, fs) in sane r.2.1 /\ total r.2.1 = total d.
Proof.
  intros Hs. unfold TransferBetweenWallets. unfold mbind, St_bind. pose proof (transfer_checks_quiet s u from to x now d fs) as Hq.
  assert ((transfer_checks s u from to x now (d, fs)).1 <> Ok tt \/ (0 < x /\ from <> to)) as Hx.
  { unfold transfer_checks. destruct (Z.leb_spec x 0); [by left|]. destruct (String.eqb_spec from to); [by left|by right]. }
  destruct (transfer_checks s u from to x now (d, fs)) as [[[]|e] [d1 fs1]]; cbn [fst snd] in *;
    destruct (sane_quiet d d1 Hs Hq) as [Hs1 Ht1]; [|done].
  destruct Hx as [Hx|[Hx Hne]]; [done|]. destruct (transaction (transfer_tx s u from to x now) (d1, fs1)) as [[[]|e] s2] eqn:E; cbn [fst snd].
  2: { apply transaction_rolls_back in E. by rewrite E. }
  apply transaction_commits in E as (fs2 & fs3 & E). apply transfer_tx_ok in E as (w & Hw & Hle & Hok1 & Hok2 & Hl); [|done].
  set (v := default (mkWallet 0 0) (wallets d1 !! (u, to))) in *. rewrite <- Ht1.
  pose proof Hs1 as (Hp & _ & Ham). destruct (Hp _ _ Hw) as (Hb & Hf & _).
  assert (0 <= Balance v /\ 0 <= Frozen v /\ worth v = worth_at (wallets d1) (u, to) /\ Frozen v = frozen_of d1 (u, to)) as (Hbv & Hfv & Hwv & Hfrv).
  { unfold v, worth_at, frozen_of. destruct (wallets d1 !! (u, to)) as [v'|] eqn:Ev; simpl; [|done].
    destruct (Hp _ _ Ev) as (? & ? & _). done. }
  (* the debit, then the credit *)
  set (dm := set_transactions (set_wallets d1 (<[(u, from) := mkWallet (Balance w - x) (Frozen w)]> (wallets d1)))
               (transactions d1 ++ [mkTransaction u from KindDebit x None StatusCompleted now])).
  destruct (sane_change d1 dm (u, from) (mkWallet (Balance w - x) (Frozen w))
    (transactions d1 ++ [mkTransaction u from KindDebit x None StatusCompleted now]) Hs1) as [Hsm Htm]; simpl; try done; try lia; try (by apply amounts_ok_snoc).
  { eexists. split; [done|]. apply ledger_only_refl. }
  { intros k. rewrite pending_app, pending_cons. simpl. rewrite andb_false_r. unfold frozen_of. rewrite Hw. case_decide; lia. }
  assert (wallet_change dm s2.1 (u, to) (mkWallet (Balance v + x) (Frozen v))
    (transactions dm ++ [mkTransaction u to KindCredit x None StatusCompleted now])) as Hch2 by (eexists; split; [done|exact Hl]).
  assert (wallets dm !! (u, to) = wallets d1 !! (u, to)) as Elook by (simpl; by rewrite lookup_insert_ne by congruence).
  destruct (sane_change dm s2.1 _ _ _ Hsm Hch2 Hok2) as [H1 H2]; [by apply amounts_ok_snoc; [apply Hsm|]|simpl; lia|done| |split; [done|]].
  - intros k. rewrite pending_app, pending_cons. simpl. rewrite andb_false_r. unfold frozen_of. rewrite Elook.
    unfold frozen_of in Hfrv. case_decide; lia.
  - assert (worth_at (wallets dm) (u, to) = worth v) as Ev by (rewrite Hwv; unfold worth_at; by rewrite Elook).
    rewrite H2, Htm, Ev. unfold worth_at. rewrite Hw. unfold worth. simpl. lia.
Qed.

Lemma transaction_sane {A} (m : M A) (d : DB) (fs : list bool) (g : result bank_error A -> Z) :
  sane d -> (forall e, g (Err e) = 0) ->
  (forall a fs1 s', m d (d, fs1) = (Ok a, s') -> sane s'.1 /\ total s'.1 = total d + g (Ok a)) ->
  sane (transaction m (d, fs)).2.1 /\ total (transaction m (d, fs)).2.1 = total d + g (transaction m (d, fs)).1.
Proof.
  intros Hs Hg Hm. destruct (transaction m (d, fs)) as [[a|e] s'] eqn:E; cbn [fst snd].
  - apply transaction_commits in E as (fs1 & fs2 & E). destruct (Hm _ _ _ E) as [H1 H2]. done.
  - apply transaction_rolls_back in E. rewrite E, Hg. split; [done|lia].
Qed.

Lemma sane_step (s : WalletService) (d d' : DB) (x : Z) : sane d -> bank_step s d x d' -> sane d' /\ total d' = total d + x.
Proof.
  intros Hs H. destruct H as [u wt x now fs|u from to x now fs|u wt fs|u wt x o now fs Hx|u x id now fs Hr|u x id now fs Hr].
  - by apply add_step.
  - rewrite Z.add_0_r. by apply transfer_step.
  - rewrite Z.add_0_r. apply sane_quiet; [done|]. apply balance_quiet.
  - apply (transaction_sane _ d fs (fun _ => 0)); [done|done|]. intros a fs1 s' E. rewrite Z.add_0_r. by eapply freeze_sane.
  - apply (transaction_sane _ d fs (gained (- x))); [done|done|]. intros a fs1 s' E. by eapply commit_sane.
  - apply (transaction_sane _ d fs (fun _ => 0)); [done|done|]. intros a fs1 s' E. rewrite Z.add_0_r. by eapply rollback_sane.
Qed.

(** ** What the code does not promise *)

Definition type_info (mn mx : option Z) : WalletTypeInfo := mkWalletType true false mn mx.

(** A database with one wallet type, with or without the CHECK clauses. *)
Definition one_type (checks : bool) (mn mx : option Z) : DB := empty_db checks {[WalletTypePrimary := type_info mn mx]}.

(** Neither the ledger nor the rules. *)
Definition bare : WalletService := mkService false false.

Definition topped_up (checks : bool) (x : Z) : DB := (AddWalletBalanceByType bare "ann" WalletTypePrimary x 1 (one_type checks None None, [])).2.1.

Lemma topped_up_sane (checks : bool) (x : Z) : sane (topped_up checks x).
Proof.
  destruct (add_step bare "ann" WalletTypePrimary x 1 (one_type checks None None) []) as [H _]; [|exact H].
  split; [by intros key w Hw|]. split; [done|constructor].
Qed.

(** With the CHECK clauses of SetupPurchaseTables a freeze needs twice its amount:
    the amount moves from the balance to the frozen part, and the balance must not
    be less than the frozen part. *)
Theorem freeze_needs_twice (s : WalletService) (u wt : string) (x : Z) (o : option nat) (now : Z) (d : DB) (fs : list bool)
    (id : nat) (s' : session) :
  constrained d = true -> transaction (FreezeAmountByType s u wt x o now) (d, fs) = (Ok id, s') ->
  exists w, wallets d !! (u, wt) = Some w /\ Frozen w + 2 * x <= Balance w.
Proof.
  intros Hc E. apply transaction_commits in E as (fs1 & fs2 & E). apply freeze_ok in E as (w & Hw & _ & _ & Hok & _).
  exists w. split; [done|]. apply (wallet_ok_spec _ _ Hok) in Hc. simpl in Hc. lia.
Qed.

Lemma freeze_needs_twice_witness :
  exists w, wallets (topped_up true 10000) !! ("ann", WalletTypePrimary) = Some w /\ Frozen w + 2 * 5000 <= Balance w.
Proof.
  eapply (freeze_needs_twice bare "ann" WalletTypePrimary 5000 None 2 (topped_up true 10000) []); [reflexivity|vm_compute; reflexivity].
Defined.

(** One cent more than half of the balance is refused by the database. *)
Example half_is_the_most :
  (transaction (FreezeAmountByType bare "ann" WalletTypePrimary 5001 None 2) (topped_up true 10000, [])).1 = Err ErrConstraint.
Proof. vm_compute. reflexivity. Qed.

(** Nothing checks that a transaction is pending: committed twice, it takes a frozen
    amount that belongs to another one, and the frozen part no longer is the sum of
    the pending transactions. *)
Theorem commit_twice :
  let s := (topped_up false 10000, []) in
  let s1 := (transaction (FreezeAmountByType bare "ann" WalletTypePrimary 3000 None 2) s).2 in
  let s2 := (transaction (FreezeAmountByType bare "ann" WalletTypePrimary 3000 None 3) s1).2 in
  let s3 := (transaction (CommitTransaction bare "ann" 3000 1 4) s2).2 in
  let r := transaction (CommitTransaction bare "ann" 3000 1 5) s3 in
  r.1 = Ok tt
  /\ (autocommit (GetPendingInfoByType "ann" WalletTypePrimary) r.2).1 = Ok (mkPending 0 1 3000 false)
  /\ (transaction (CommitTransaction bare "ann" 3000 2 6) r.2).1 = Err ErrFrozenMismatch.
Proof.
  vm_compute. done.
Qed.

(** A wallet type with a minimum pays it out to everybody who gets a wallet, and no
    transaction records it. *)
Theorem minimum_is_a_gift :
  let r := CreateWalletForUser "bob" WalletTypePrimary (one_type true (Some 100000) None, []) in
  r.1 = Ok tt /\ total r.2.1 = 100000 /\ transactions r.2.1 = [].
Proof. vm_compute. done. Qed.

(** The checks of a top-up are made before its transaction: two that overlap both
    pass and leave more than the maximum. *)
Theorem maximum_exceeded :
  let s := (one_type true None (Some 10000), []) in
  let '(r1, s1) := add_checks bare "ann" WalletTypePrimary 6000 s in
  let '(r2, s2) := add_checks bare "ann" WalletTypePrimary 6000 s1 in
  let '(r3, s3) := transaction (add_tx bare "ann" WalletTypePrimary 6000 1) s2 in
  let '(r4, s4) := transaction (add_tx bare "ann" WalletTypePrimary 6000 2) s3 in
  r1 = Ok tt /\ r2 = Ok tt /\ r3 = Ok tt /\ r4 = Ok tt
  /\ wallets s4.1 !! ("ann", WalletTypePrimary) = Some (mkWallet 12000 0).
Proof. vm_compute. done. Qed.

(** A minimum-balance rule is looked at when money comes in, not when it goes out. *)
Theorem minimum_rule_on_deposits_only :
  let rule := mkRule RuleTypeMinBalance None None None (Some 5000) None None true in
  let s := mkService false true in
  let d := set_wallets (mkDB true [] [] [] {[WalletTypePrimary := type_info None None; "savings" := type_info None None]} ∅ [] ∅ [] [] [rule])
             {[("ann", WalletTypePrimary) := mkWallet 6000 0]} in
  (AddWalletBalanceByType s "ann" "savings" 4000 1 (d, [])).1 = Err ErrRuleViolation
  /\ (TransferBetweenWallets s "ann" WalletTypePrimary "savings" 6000 1 (d, [])).1 = Ok tt.
Proof. vm_compute. done. Qed.
