(* ===== verification/Purchase.v ===== *)
(** * Purchases (apps/postgres-demo/services/purchase_service.go)

    [MakePurchase]: one serializable transaction that prices the items, records
    the order, freezes the total in the primary wallet, records the items, takes
    them from the stock and commits the frozen amount.  After an error in the loop
    the code also asks for the wallet transaction to be rolled back; the database
    refuses statements of a transaction that has failed, and the deferred Rollback
    undoes everything, so that this has no effect and is left out.  Amounts are whole
    cents (Bank): the binary64 product of a price and a quantity is taken to be the
    number nearest to its value.  Reading products and orders back is left out. *)
From S2P Require Import Prelude Bank Ledger Wallet.

Record PurchaseItem : Type := mkItem { ProductID : Z; Quantity : Z }.

(** An item with what was read of its product. *)
Record PricedItem : Type := mkPriced { PProductID : Z; PQuantity : Z; PPrice : Z; PSubtotal : Z; PStock : Z }.

(** The first loop: the priced items and the total. *)
Fixpoint price_items (l : list PurchaseItem) (tot : Z) : M (list PricedItem * Z) :=
  match l with
  | [] => mret ([], tot)
  | i :: l =>
      _ ← stmt;
      p ← read (fun d => products d !! ProductID i);
      match p with
      | None => fail ErrProductNotFound
      | Some p =>
          if Stock p <? Quantity i then fail ErrInsufficientStock
          else
            let subtotal := Price p * Quantity i in
            '(r, t) ← price_items l (tot + subtotal);
            mret (mkPriced (ProductID i) (Quantity i) (Price p) subtotal (Stock p) :: r, t)
      end
  end.

Definition insert_order (o : Order) : M nat :=
  _ ← stmt;
  _ ← guard_constraint (decimal (OTotal o));
  id ← read (fun d => length (orders d));
  _ ← write (fun d => set_orders d (orders d ++ [o]));
  mret id.

Definition insert_item (i : OrderItem) : M unit :=
  _ ← stmt;
  _ ← guard_constraint (int4 (IQuantity i) && decimal (IPrice i) && decimal (ISubtotal i));
  write (fun d => set_order_items d (order_items d ++ [i])).

(** UPDATE products SET stock = ... WHERE id = ... *)
Definition update_stock (id stock : Z) : M unit :=
  _ ← stmt;
  _ ← guard_constraint (int4 stock);
  write (fun d => set_products d (alter (fun p => mkProduct (Price p) stock) id (products d))).

(** The second loop. *)
Fixpoint ship_items (order : nat) (l : list PricedItem) : M unit :=
  match l with
  | [] => mret tt
  | i :: l =>
      _ ← insert_item (mkOrderItem order (PProductID i) (PQuantity i) (PPrice i) (PSubtotal i));
      _ ← update_stock (PProductID i) (PStock i - PQuantity i);
      ship_items order l
  end.

Definition purchase_tx (s : WalletService) (userID : string) (items : list PurchaseItem) (now : Z) : M (nat * Z) :=
  '(priced, tot) ← price_items items 0;
  order ← insert_order (mkOrder userID tot);
  _ ← ValidateWalletType WalletTypePrimary;
  id ← FreezeAmountByType s userID WalletTypePrimary tot (Some order) now;
  _ ← ship_items order priced;
  _ ← CommitTransaction s userID tot id now;
  mret (order, tot).

Definition MakePurchase (s : WalletService) (userID : string) (items : list PurchaseItem) (now : Z) : St (nat * Z) :=
  match items with
  | [] => fail_st ErrEmptyPurchase
  | _ => transaction (purchase_tx s userID items now)
  end.

(** ** What a purchase does *)

(** The items priced from the products of a database. *)
Definition priced_from (m : gmap Z Product) (i : PurchaseItem) (r : PricedItem) : Prop :=
  exists p, m !! ProductID i = Some p /\ Quantity i <= Stock p
    /\ r = mkPriced (ProductID i) (Quantity i) (Price p) (Price p * Quantity i) (Stock p).

Definition subtotals (l : list PricedItem) : Z := foldr (fun r t => PSubtotal r + t) 0 l.

Lemma price_items_ok (l : list PurchaseItem) (tot : Z) (c d : DB) (fs : list bool) (r : list PricedItem) (t : Z) (s' : session) :
  price_items l tot c (d, fs) = (Ok (r, t), s') ->
  (exists fs', s' = (d, fs')) /\ Forall2 (priced_from (products d)) l r /\ t = tot + subtotals r.
Proof.
  revert tot fs r t s'. induction l as [|i l IH]; intros tot fs r t s' H; simpl in H.
  - run_inv H. split; [eauto|]. split; [constructor|simpl; lia].
  - run_inv H. destruct (products d !! ProductID i) as [p|] eqn:Ep; [|run_inv H].
    destruct (Z.ltb_spec (Stock p) (Quantity i)); [run_inv H|].
    apply bind_ok in H as ([r' t'] & s1 & H1 & H). apply IH in H1 as ([fs1 ->] & HF & ->). run_inv H.
    split; [eauto|]. split; [constructor; [|done]; exists p; eauto|]. simpl. lia.
Qed.

(** The stock after the second loop: each update stores the stock that was read
    minus its own quantity. *)
Definition shipped (m : gmap Z Product) (l : list PricedItem) : gmap Z Product :=
  fold_left (fun m r => alter (fun p => mkProduct (Price p) (PStock r - PQuantity r)) (PProductID r) m) l m.

Lemma shipped_cons (m : gmap Z Product) (r : PricedItem) (l : list PricedItem) :
  shipped m (r :: l) = shipped (alter (fun p => mkProduct (Price p) (PStock r - PQuantity r)) (PProductID r) m) l.
Proof. done. Qed.

Definition items_of (order : nat) (l : list PricedItem) : list OrderItem :=
  (fun i => mkOrderItem order (PProductID i) (PQuantity i) (PPrice i) (PSubtotal i)) <$> l.

Lemma ship_items_ok (order : nat) (l : list PricedItem) (c d : DB) (fs : list bool) (u : unit) (s' : session) :
  ship_items order l c (d, fs) = (Ok u, s') ->
  exists fs', s' = (set_products (set_order_items d (order_items d ++ items_of order l)) (shipped (products d) l), fs').
Proof.
  revert d fs. induction l as [|i l IH]; intros d fs H; simpl in H.
  - run_inv H. eexists. simpl. rewrite app_nil_r. by destruct d.
  - apply bind_ok in H as (u1 & s1 & H1 & H). unfold insert_item in H1. run_inv H1.
    apply bind_ok in H as (u2 & s2 & H2 & H). unfold update_stock in H2. run_inv H2.
    apply IH in H as [fs' ->]. eexists. unfold set_products, set_order_items. simpl. rewrite <- app_assoc. done.
Qed.

Lemma validate_type_ok (wt : string) (c d : DB) (fs : list bool) (u : unit) (s' : session) :
  ValidateWalletType wt c (d, fs) = (Ok u, s') -> exists fs', s' = (d, fs').
Proof.
  unfold ValidateWalletType. intros H. run_inv H. apply type_active_ok in H as [-> _]. eauto.
Qed.

Lemma settled_snoc (st : TransactionStatus) (ts : list WalletTransaction) (t : WalletTransaction) :
  TStatus t = StatusPending -> settled st (length ts) (ts ++ [t]) = ts ++ [set_status st t].
Proof.
  intros Hp. unfold settled. induction ts as [|x ts IH]; simpl; [by rewrite bool_decide_true|]. f_equal. exact IH.
Qed.

Lemma ledger_only_shop (d d' : DB) :
  ledger_only d d' -> products d' = products d /\ orders d' = orders d /\ order_items d' = order_items d.
Proof. by intros (js & es & ->). Qed.

Lemma purchase_ok (s : WalletService) (u : string) (items : list PurchaseItem) (now : Z) (c d : DB) (fs : list bool)
    (order : nat) (tot : Z) (s' : session) :
  purchase_tx s u items now c (d, fs) = (Ok (order, tot), s') ->
  exists priced w,
    Forall2 (priced_from (products d)) items priced /\ tot = subtotals priced /\ order = length (orders d)
    /\ wallets d !! (u, WalletTypePrimary) = Some w /\ 0 < Balance w /\ tot <= Balance w
    /\ wallet_ok (constrained d) (mkWallet (Balance w - tot) (Frozen w + tot)) = true
    /\ wallet_ok (constrained d) (mkWallet (Balance w - tot) (Frozen w)) = true
    /\ constrained s'.1 = constrained d
    /\ wallets s'.1 = <[(u, WalletTypePrimary) := mkWallet (Balance w - tot) (Frozen w)]> (wallets d)
    /\ transactions s'.1 = transactions d ++ [mkTransaction u WalletTypePrimary KindDebit tot (Some order) StatusCompleted now]
    /\ products s'.1 = shipped (products d) priced
    /\ orders s'.1 = orders d ++ [mkOrder u tot]
    /\ order_items s'.1 = order_items d ++ items_of order priced.
Proof.
  unfold purchase_tx. intros H.
  apply bind_ok in H as ([priced t] & s1 & H1 & H). apply price_items_ok in H1 as ([fs1 ->] & HF & Htot).
  rewrite Z.add_0_l in Htot. subst t.
  apply bind_ok in H as (o & s2 & H2 & H). unfold insert_order in H2. run_inv H2.
  apply bind_ok in H as (u3 & s3 & H3 & H). apply validate_type_ok in H3 as [fs3 ->].
  apply bind_ok in H as (id & [d4 fs4] & H4 & H).
  apply freeze_ok in H4 as (w & Hw & Hb & Hle & Hok & -> & _ & (d1 & -> & Hl)). simpl in *.
  pose proof (ledger_only_views _ _ Hl) as (Ew & Et & Ec & _). pose proof (ledger_only_shop _ _ Hl) as (Ep & Eo & Ei). simpl in *.
  apply bind_ok in H as (u5 & s5 & H5 & H). apply ship_items_ok in H5 as [fs5 ->].
  apply bind_ok in H as (u6 & [d6 fs6] & H6 & H). run_inv H.
  unfold CommitTransaction in H6. apply bind_ok in H6 as (wt & s7 & H7 & H6).
  apply transaction_type_ok in H7 as (t & fs7 & Ht & -> & ->). simpl in Ht.
  rewrite Et, lookup_app_r, Nat.sub_diag in Ht by lia. simpl in Ht. injection Ht as <-. simpl in H6.
  apply commit_type_ok in H6 as (w' & Hw' & _ & Hok' & (d8 & -> & Hl')). simpl in Hw', Hok', Hl'.
  rewrite Ew, lookup_insert_eq in Hw'. injection Hw' as <-. simpl in Hok', Hl'.
  pose proof (ledger_only_views _ _ Hl') as (Ew' & Et' & Ec' & _). pose proof (ledger_only_shop _ _ Hl') as (Ep' & Eo' & Ei'). simpl in *.
  replace (Frozen w + subtotals priced - subtotals priced) with (Frozen w) in * by lia. rewrite Ec in Hok'.
  exists priced, w. split; [done|]. split; [done|]. split; [done|]. split; [done|]. split; [done|]. split; [done|].
  split; [exact Hok|]. split; [exact Hok'|]. split; [by rewrite Ec', Ec|].
  split; [by rewrite Ew', Ew, insert_insert_eq|]. split; [rewrite Et', Et; by apply settled_snoc|].
  split; [by rewrite Ep', Ep|]. split; [by rewrite Eo', Eo|by rewrite Ei', Ei].
Qed.

(** ** The promise of a purchase *)

(** The sum of price times quantity over the items. *)
Definition bill (m : gmap Z Product) (l : list PurchaseItem) : Z :=
  foldr (fun i t => match m !! ProductID i with Some p => Price p * Quantity i | None => 0 end + t) 0 l.

Lemma priced_bill (m : gmap Z Product) (l : list PurchaseItem) (r : list PricedItem) :
  Forall2 (priced_from m) l r -> subtotals r = bill m l.
Proof. induction 1 as [|i r l rs (p & Hp & _ & ->) _ IH]; simpl; [done|]. rewrite Hp. simpl. lia. Qed.

(** With distinct products every stock goes down by its quantity. *)
Definition taken (l : list PurchaseItem) (id : Z) : Z :=
  foldr (fun i t => (if ProductID i =? id then Quantity i else 0) + t) 0 l.

Lemma taken_other (l : list PurchaseItem) (id : Z) : id ∉ ProductID <$> l -> taken l id = 0.
Proof.
  induction l as [|i l IH]; simpl; [done|]. intros [Hne Hni]%not_elem_of_cons. rewrite IH by done.
  destruct (Z.eqb_spec (ProductID i) id); [by subst|lia].
Qed.

Lemma shipped_distinct (m m0 : gmap Z Product) (l : list PurchaseItem) (r : list PricedItem) (id : Z) (p : Product) :
  NoDup (ProductID <$> l) -> Forall2 (priced_from m0) l r ->
  (forall i, i ∈ ProductID <$> l -> m !! i = m0 !! i) -> m !! id = Some p ->
  shipped m r !! id = Some (mkProduct (Price p) (Stock p - taken l id)).
Proof.
  intros Hnd HF. revert m p. induction HF as [|i x l r (q & Hq & _ & ->) _ IH]; intros m p Hm Hp.
  - simpl. rewrite Hp. f_equal. destruct p. simpl. f_equal. lia.
  - simpl in Hnd. apply NoDup_cons in Hnd as [Hni Hnd]. rewrite shipped_cons. cbn [taken foldr PStock PQuantity PProductID].
    destruct (Z.eqb_spec (ProductID i) id) as [E|E].
    + assert (p = q) as -> by (rewrite E in *; rewrite Hm in Hp by (simpl; set_solver); congruence).
      rewrite (IH Hnd _ (mkProduct (Price q) (Stock q - Quantity i))).
      * fold (taken l id). rewrite (taken_other l id) by (by rewrite <- E). simpl. do 2 f_equal. lia.
      * intros k Hk. rewrite lookup_alter_ne by (intros <-; done). apply Hm. simpl. set_solver.
      * rewrite E, lookup_alter_eq, Hp. done.
    + rewrite (IH Hnd _ p); [done| |by rewrite lookup_alter_ne].
      intros k Hk. rewrite lookup_alter_ne by (intros <-; done). apply Hm. simpl. set_solver.
Qed.

(** C13. A purchase either fails and leaves everything as it was, whichever statement
    fails, or it succeeds: the total is price times quantity over the items, which
    were in stock; the primary wallet pays exactly the total and keeps its frozen
    part; one completed transaction and one order with its items are recorded; and
    when no product is listed twice each stock goes down by its quantity. *)
Theorem purchase_all_or_nothing (s : WalletService) (u : string) (items : list PurchaseItem) (now : Z) (d : DB) (fs : list bool) :
  let '(r, s') := MakePurchase s u items now (d, fs) in
  match r with
  | Err _ => s'.1 = d
  | Ok (order, tot) =>
      tot = bill (products d) items
      /\ (forall i, i ∈ items -> exists p, products d !! ProductID i = Some p /\ Quantity i <= Stock p)
      /\ (exists w, wallets d !! (u, WalletTypePrimary) = Some w /\ tot <= Balance w
           /\ wallets s'.1 = <[(u, WalletTypePrimary) := mkWallet (Balance w - tot) (Frozen w)]> (wallets d))
      /\ transactions s'.1 = transactions d ++ [mkTransaction u WalletTypePrimary KindDebit tot (Some order) StatusCompleted now]
      /\ orders s'.1 = orders d ++ [mkOrder u tot] /\ order = length (orders d)
      /\ (NoDup (ProductID <$> items) -> forall id p, products d !! id = Some p ->
           products s'.1 !! id = Some (mkProduct (Price p) (Stock p - taken items id)))
  end.
Proof.
  destruct items as [|i items]; [done|]. cbn [MakePurchase]. set (l := i :: items) in *.
  destruct (transaction (purchase_tx s u l now) (d, fs)) as [[[order tot]|e] s'] eqn:E.
  2: { by apply transaction_rolls_back in E. }
  apply transaction_commits in E as (fs1 & fs2 & E).
  apply purchase_ok in E as (priced & w & HF & -> & -> & Hw & _ & Hle & _ & _ & _ & Ew & Et & Ep & Eo & _). simpl in Ew, Et, Ep, Eo.
  split; [by apply priced_bill|]. split.
  { intros j Hj. apply list_elem_of_lookup in Hj as [k Hk]. destruct (Forall2_lookup_l _ _ _ _ _ HF Hk) as (r & _ & p & Hp & Hq & _). eauto. }
  split; [eauto|]. split; [done|]. split; [done|]. split; [done|].
  intros Hnd id p Hp. rewrite Ep. by eapply shipped_distinct.
Qed.

(** A purchase keeps the wallets in order, and takes exactly the total out of them. *)
Lemma purchase_sane (s : WalletService) (u : string) (items : list PurchaseItem) (now : Z) (d : DB) (fs : list bool) :
  sane d ->
  let r := MakePurchase s u items now (d, fs) in
  sane r.2.1 /\ total r.2.1 = total d - match r.1 with Ok (_, tot) => tot | Err _ => 0 end.
Proof.
  intros Hs. pose proof Hs as (Hpu & Hc & Ha). destruct items as [|i items]; [simpl; split; [done|lia]|]. cbn [MakePurchase]. set (l := i :: items) in *.
  destruct (transaction (purchase_tx s u l now) (d, fs)) as [[[order tot]|e] s'] eqn:E; cbn [fst snd].
  2: { apply transaction_rolls_back in E. rewrite E. split; [done|lia]. }
  apply transaction_commits in E as (fs1 & fs2 & E).
  apply purchase_ok in E as (priced & w & HF & -> & -> & Hw & _ & Hle & _ & Hok & Ec & Ew & Et & _). simpl in Ew, Et, Ec.
  rewrite (priced_bill _ _ _ HF) in *. destruct (Hpu _ _ Hw) as (Hbal & Hfr & _). split; [split; [|split]|].
  - intros k v Hv. rewrite Ew in Hv. rewrite Ec. apply lookup_insert_Some in Hv as [[<- <-]|[_ Hv]]; [|by apply (Hpu k)].
    cbn [Balance Frozen]. split; [lia|]. split; [done|]. intros Hcs. by apply (wallet_ok_spec _ _ Hok).
  - intros k. rewrite Et, pending_app, pending_cons. simpl. rewrite andb_false_r, !Z.add_0_r, <- (Hc k).
    unfold frozen_of. rewrite Ew. destruct (decide (k = (u, WalletTypePrimary))) as [->|Hne]; [by rewrite lookup_insert_eq, Hw|by rewrite lookup_insert_ne].
  - rewrite Et. by apply amounts_ok_snoc.
  - unfold total. rewrite Ew, total_of_insert. unfold worth_at. rewrite Hw. unfold worth. simpl. lia.
Qed.

(** ** Any sequence of operations *)

Definition paid (r : result bank_error (nat * Z)) : Z := match r with Ok (_, tot) => tot | Err _ => 0 end.

(** A call of the wallet service, or a purchase; the number is the money that comes
    in. *)
Inductive shop_step (s : WalletService) (d : DB) : Z -> DB -> Prop :=
| shop_wallet x d' : bank_step s d x d' -> shop_step s d x d'
| shop_purchase u items now fs :
    shop_step s d (- paid (MakePurchase s u items now (d, fs)).1) (MakePurchase s u items now (d, fs)).2.1.

Inductive shop_run (s : WalletService) : DB -> Z -> DB -> Prop :=
| shop_nil d : shop_run s d 0 d
| shop_cons d x d1 y d2 : shop_step s d x d1 -> shop_run s d1 y d2 -> shop_run s d (x + y) d2.

(** C12. However top-ups, transfers, balance queries and purchases with any arguments
    follow each other and freezes of amounts that are not negative, and commits and
    rollbacks that name a pending transaction with its own user and amount, as
    MakePurchase calls them, with or without ledger, rules and CHECK clauses, and
    whichever statements of the database fail: the money in all wallets, frozen or
    not, is what was there plus the top-ups that succeeded minus what was committed
    and paid, no wallet is in debt, and the frozen part of each is the sum of its
    pending transactions.  Amounts are whole cents.  The code does not enforce the condition on commits and
    rollbacks: Wallet.commit_twice shows what a second commit does. *)
Theorem wallets_conserve_money (s : WalletService) (d d' : DB) (x : Z) :
  sane d -> shop_run s d x d' ->
  total d' = total d + x /\ purse d' /\ consistent d'.
Proof.
  intros Hs Hr. enough (sane d' /\ total d' = total d + x) as [(? & ? & _) ?] by done.
  induction Hr as [d|d x d1 y d2 Hstep _ IH]; [split; [done|lia]|].
  assert (sane d1 /\ total d1 = total d + x) as [Hs1 Ht1].
  { destruct Hstep as [x d1 H|u items now fs]; [by eapply sane_step|].
    destruct (purchase_sane s u items now d fs Hs) as [H1 H2]. split; [done|]. rewrite H2. unfold paid. lia. }
  destruct (IH Hs1) as [Hs2 Ht2]. split; [done|lia].
Qed.

(** ** Concrete runs *)

(** Three pieces of product 1 at 10.00, and a customer with 100.00. *)
Definition shop (checks : bool) : DB := set_products (topped_up checks 10000) {[1 := mkProduct 1000 3; 2 := mkProduct 4000 5]}.

Lemma shop_sane (checks : bool) : sane (shop checks).
Proof. destruct (topped_up_sane checks 10000) as (H1 & H2 & H3). done. Qed.

Definition buy (items : list PurchaseItem) (d : DB) : result bank_error (nat * Z) * session := MakePurchase bare "ann" items 2 (d, []).

Lemma wallets_conserve_money_witness :
  exists d' x, shop_run bare (shop true) x d' /\ x = - 2000 /\ total d' = total (shop true) + x /\ purse d' /\ consistent d'.
Proof.
  eexists _, _. assert (shop_run bare (shop true) (- paid (buy [mkItem 1 2] (shop true)).1 + 0) (buy [mkItem 1 2] (shop true)).2.1) as Hr.
  { eapply shop_cons; [|apply shop_nil]. apply shop_purchase. }
  split; [exact Hr|]. split; [vm_compute; reflexivity|]. exact (wallets_conserve_money bare (shop true) _ _ (shop_sane true) Hr).
Defined.

(** Two pieces of each product, 100.00 in all, are the whole balance: without the
    CHECK clauses the purchase succeeds, with them it fails. *)
Theorem whole_balance :
  (buy [mkItem 1 2; mkItem 2 2] (shop false)).1 = Ok (0%nat, 10000)
  /\ (buy [mkItem 1 2; mkItem 2 2] (shop true)).1 = Err ErrConstraint.
Proof. vm_compute. done. Qed.

(** A product listed twice is checked against the same stock twice, and the second
    update overwrites the first: four of three pieces are sold, and one is left. *)
Theorem duplicate_oversells :
  let '(r, s) := buy [mkItem 1 2; mkItem 1 2] (shop true) in
  r = Ok (0%nat, 4000) /\ products s.1 !! 1 = Some (mkProduct 1000 1).
Proof. vm_compute. done. Qed.

(** A negative quantity passes every check: it lowers the total and adds to the stock. *)
Theorem negative_quantity :
  let '(r, s) := buy [mkItem 2 1; mkItem 1 (-4)] (shop true) in
  r = Ok (0%nat, 0) /\ products s.1 !! 1 = Some (mkProduct 1000 7) /\ products s.1 !! 2 = Some (mkProduct 4000 4).
Proof. vm_compute. done. Qed.

(** With only negative quantities the purchase pays the buyer. *)
Theorem negative_total :
  let '(r, s) := buy [mkItem 2 (-1)] (shop false) in
  r = Ok (0%nat, -4000) /\ wallets s.1 !! ("ann", WalletTypePrimary) = Some (mkWallet 14000 0).
Proof. vm_compute. done. Qed.

(** The journal of a freeze is created and never posted, while that of the commit is:
    after a top-up of 100.00 and a purchase of 40.00 the wallet holds 60.00, the
    account of the wallets still says 100.00, and that of the frozen funds 40.00,
    though nothing is frozen. *)
Theorem books_miss_the_purchase :
  let s := mkService true false in
  let d0 := set_products (set_accounts (one_type true None None) system_accounts) {[2 := mkProduct 4000 5]} in
  let s1 := (AddWalletBalanceByType s "ann" WalletTypePrimary 10000 1 (d0, [])).2 in
  let '(r, s2) := MakePurchase s "ann" [mkItem 2 1] 2 s1 in
  r = Ok (0%nat, 4000) /\ wallets s2.1 !! ("ann", WalletTypePrimary) = Some (mkWallet 6000 0)
  /\ ABalance <$> match (autocommit (GetAccountBalance AccCodeUserWallets None) s2).1 with Ok b => Some b | Err _ => None end = Some (cents 10000)
  /\ ABalance <$> match (autocommit (GetAccountBalance AccCodeFrozenFunds None) s2).1 with Ok b => Some b | Err _ => None end = Some (cents 4000).
Proof. vm_compute. done. Qed.
